(* ===== verification/_CoqProject ===== *)
-Q . S2P
Prelude.v
RustStr.v
TokenMeter.v
TokenBudget.v
TokenMetering.v
Identifier.v
Subject.v
Template.v
Capability.v
StorageConfig.v
Quota.v
Keys.v
Base64.v
Sse.v
ProcessTree.v
OutputBuffer.v
CasePattern.v
StorageDir.v
StorageScan.v
StorageHandle.v
StorageEffects.v
StorageTransaction.v
StorageOps.v
StorageLifetime.v
StorageCalls.v
StorageSafety.v
Utf8.v
MessageText.v
Threads.v
Jobs.v
JobsSafety.v
Conversation.v
Collector.v
CollectorSafety.v
EnvFile.v
Pipe.v
Wakes.v
WakesSafety.v
StorageNamespace.v
StorageSweep.v
StorageFrames.v
StorageContinuity.v
StorageScopes.v
StorageReclaim.v
StorageIsolation.v
StorageWitness.v
ShellAst.v
ShellArith.v
ShellArithTheory.v
ShellEval.v
ShellState.v
ShellLexer.v
ShellParser.v
ShellWellFormed.v
ShellLexerTheory.v
ShellParserTheory.v
ShellNesting.v
ShellQuoting.v
HttpAddress.v
HttpHost.v
HttpAuthorize.v
HttpExchange.v
HttpSafety.v
HttpResponse.v
HttpWitness.v
