(* ===== verification/Prelude.v ===== *)
(** * Dekopon: a verification development

    Dekopon runs chat agents whose model calls and tool calls pass through a
    local broker. A gateway ([crates/dekopon-gatewayd]) receives messages and
    runs agent sessions ([crates/dekopon-agent]); each model call is admitted
    and charged by a token governor ([crates/dekopon-model-token-governor]);
    each tool call is a proposed invocation of a capability, which the broker
    ([crates/dekopon-broker]) turns into an authorized one at a gate
    ([crates/dekopon-capability]) before a provider runs it, with HTTP
    ([crates/dekopon-http-host]) or storage ([crates/dekopon-storage-host]) as
    the only outside authority. People, channels and repositories are named
    by subjects ([crates/dekopon-core]).

    ** Files

    - [Prelude]: results, machine integers, durations, tactics and the generic
      lemmas. A [u64], [i64] or [i128] is a [Z]; saturating, checked and
      wrapping operations are written out. A [Duration] is its nanoseconds.
    - [RustStr]: a [str] is its UTF-8 bytes; the methods of [str], [char] and
      [BTreeMap<String, _>] the sources call.
    - [TokenMeter] ([meter.rs]): the four kinds of meter. [Meter_new],
      [Meter_verdict], [Meter_charge], [Meter_status], [Meter_horizon] follow
      the methods of [Meter]. The classes [MeterOps] and [MeterLaws] state what
      a meter promises a budget; [Meter_ops] and [Meter_laws] discharge them.
    - [TokenBudget] ([budget.rs]): a budget over any type of meter, and the
      text of refusals. [Ledger] and [step] are the life of one budget, the
      restores from history included; [Account] is what is kept beside it.
    - [TokenMetering] ([metering.rs], [usage.rs]): the budgets of all agents,
      admissions and records. [System] and [sys_step] interleave all calls and
      the turns of the restore loops ([restore_operations_are_runs]);
      [sys_simulates] relates each agent's part to the [Ledger] of its budget.
    - [Identifier] ([dekopon-core/src/lib.rs]): identifiers, names of secrets,
      proposals to use a secret, command words.
    - [Subject] ([dekopon-core/src/subject.rs]): subjects, scopes, attested
      subjects and their wire form.
    - [Template] ([dekopon-capability/src/template.rs]): request templates.
    - [Capability] ([dekopon-capability/src/lib.rs]): constraints, their
      validation and [authorize], the method of [AuthorizationGate].
    - [StorageConfig] ([dekopon-storage-host/src/config.rs]): storage limits.
    - [Quota] ([dekopon-storage-host/src/quota.rs]): the quota ledger and its
      guards. A method is a function on the state behind the lock that also
      returns the state on an error; [Host] and [host_step] interleave them.
    - [Keys] ([dekopon-core/src/trace.rs], [dekopon-storage-host/src/key.rs]):
      trace identifiers, and the framing, tokens and commitments of storage.
    - [Base64] ([dekopon-core/src/base64.rs]): lengths and offsets of encoded
      assets and the validator of what is written.
    - [Sse] ([dekopon-model/src/sse.rs]): the framer of model responses and the
      two loops that drive it; [frames] is the reference, a line at a time.
    - [ProcessTree] ([dekopon-process/src/tree.rs], [Budget] of
      [dekopon-shell/src/limits.rs]): the counters the threads of a script
      share; [tree_step] interleaves them with what others do to the call
      budget, which a tree may share with other scripts.
    - [OutputBuffer] ([dekopon-shell/src/limits.rs]): what is kept of the output
      of a script; [run] is any use of its methods.
    - [CasePattern] ([dekopon-shell/src/interp/case_pattern.rs]): the patterns of
      [case], with the reads of the deadline; [tokenizes] and [glob] specify
      them.
    - [StorageDir] ([dekopon-storage-host/src/layout.rs]): the monad of code
      with state that can fail, panic or run out of fuel, and its weakest
      preconditions; a disk as a map from paths to nodes, whose every system
      call may fail, be short or break off after part of a write ([io]); the
      operations of [Directory] and [scan].
    - [StorageScan]: what a scan counts, and that it ends.
    - [StorageHandle] ([handle.rs], [vfs.rs], [jsonl.rs] of the storage host):
      [World] is the handle, the disk and the ledger; one definition per
      method of [StorageHandle]. [others] is what other invocations do to the
      ledger before each use of it.
    - [StorageEffects], [StorageTransaction], [StorageOps]: the usage of files
      and how mutations move it; the invariant of a transaction, against the
      interface [client_laws] of the ledger; each operation keeps it and has
      its effect.
    - [StorageLifetime]: the begin and the end of a transaction, and the two
      instances of the interface: [hosted] (a transaction among others on a
      [Host] of [Quota]) and [solo] (one alone).
    - [StorageCalls]: sequences of calls ([run_ops]) and the abstract store
      they refine ([store_step], [store_run]).
    - [StorageSafety]: the theorems about whole transactions.
    - [StorageNamespace] ([namespace.rs] and the grants of [lib.rs] of the
      storage host, [dekopon-core/src/space.rs]): [Root] is the files of the
      storage root, the times of its markers, the leases, the ledger and the
      number of random draws; [prepare] and [apply_plan] are the methods of
      [NamespacePlan], [grant] is [StorageHost::grant].
    - [StorageSweep] ([sweep.rs]): [sweep] deletes namespaces that are not used.
    - [StorageFrames]: what each operation leaves alone, and the tactic for it.
    - [StorageContinuity]: what a grant chooses and does to the pointer and the
      data of a namespace ([granted]), whatever fails.
    - [StorageScopes]: [namespace_key], the coordinates a scope distinguishes.
    - [StorageReclaim]: what a sweep takes ([reclaimed]).
    - [StorageIsolation]: runs of grants, uses, sweeps and ends of grants
      ([run_step]) and who is given which generation ([continues]).
    - [StorageWitness]: a small root on which grants and sweeps are evaluated.
    - [Utf8]: characters and boundaries of well-formed strings.
    - [MessageText] ([dekopon-gatewayd/src/transport.rs]): the bounds on the
      text of messages, code fences and [split_message].
    - [Threads] ([threads.rs] of [dekopon-process] and [dekopon-gatewayd]): the
      permits and slots of threads; [pool_step] interleaves their uses.
    - [Jobs] ([dekopon-gatewayd/src/jobs.rs]): the table of background jobs, a
      function per section under its lock; [sys_step] interleaves them and
      keeps a log. [JobsSafety] has the invariants and the theorems.
    - [Conversation] ([dekopon-broker-protocol/src/conversation.rs]):
      conversations, what is canonical on each transport, and selectors.
    - [Collector] ([dekopon-gatewayd/src/collection.rs]): bursts of messages
      that are given to an agent as one; [CollectorSafety] has the theorems,
      over any sequence of calls ([collect]).
    - [EnvFile] ([dekopon-core/src/env_file.rs]): environment files and their
      grammar ([file_form]).
    - [Pipe] ([dekopon-process/src/pipe.rs]): the pipes between the stages of a
      script; [World] is the channel, both ends and the counters of the tree, a
      [Turn] of the reader says what the writer did meanwhile, and [run] is any
      use of both ends, through errors too.
    - [Wakes] ([dekopon-gatewayd/src/wake.rs], [wake/store.rs]): what agents put
      off: wakes, watches, digests and subscriptions, their store and its file.
      [WakesSafety] has the theorems, over any sequence of requests, due times,
      verdicts, deliveries, failed writes and restarts ([run_ops]).
    - [ShellAst] ([ast.rs], [parser/depth.rs], [parser/refusal.rs] of
      [dekopon-shell]): the syntax of scripts, tokens, errors and depths.
    - [ShellArith] ([parser.rs]): arithmetic expansions, with the literals of
      floats as binary64; [ShellArithTheory] has [print], the printer of
      expressions, and the theorems.
    - [ShellEval] ([interp.rs]): evaluation of arithmetic; [exact] is its
      meaning in the integers and [visits] the steps it is charged.
    - [ShellState]: methods that change their state and can fail, and their
      weakest preconditions.
    - [ShellLexer] ([lexer.rs]): the whole lexer, a function per method. The
      lexer calls the parser for substitutions, and the parser the lexer for
      tokens: what is behind a [$] is a parameter of both, [dollar].
    - [ShellParser] ([parser.rs], [parser/nested.rs]): the whole parser, down to
      [parse]; [dollar_at] ties the knot with the lexer.
    - [ShellWellFormed]: [program_ok], what a program has beyond its type.
    - [ShellLexerTheory], [ShellParserTheory]: each method of the lexer and of
      the parser, against the promise [dollar_ok] of what is behind a [$];
      [dollar_at_ok] discharges it level by level.
    - [ShellNesting]: the levels of a program, against the limit.
    - [ShellQuoting]: command lines with quoted arguments, lexed and parsed step
      by step.
    - [HttpAddress] ([dekopon-http-host/src/lib.rs]): addresses, the ranges the
      code refuses, the addresses of a name, and the tables of address blocks.
    - [HttpHost] (the same file): errors, credentials, authorities, headers, the
      client [BufferedHttpClient] and its constructors. [HttpLib] holds the
      operations of the libraries, [HttpLaws] what they promise.
    - [HttpAuthorize]: the checks of a request, [prepare], request templates and
      [authorize_request], as actions on a [World]: the client and the wire, the
      requests handed to the HTTP library. A failed action keeps its changes.
    - [HttpExchange] (with [stream.rs], [signed_download.rs], [asset.rs] and
      [dekopon-core/src/vm.rs]): the pinned client, heads and bodies of
      responses, decoding, redaction, [send], [stream] and sequences of calls.
    - [HttpSafety], [HttpResponse]: what leaves and what comes back;
      [HttpWitness]: libraries that keep the laws, and an exchange.

    ** What the theorems show

    - Spending: a meter allows exactly the calls that fit and its wait is
      exact; a budget, and the metering of all agents under any interleaving
      of calls and restores, admits exactly what fits and never counts beyond
      its limits but for what calls used beyond their own estimates and what a
      restore replayed; a refusal's retry is exact while nothing else moves,
      if the call fits beside what is in flight; a restore equals a replay;
      every call leaves one record and is charged what the record says.
    - Authority: the gate accepts exactly the specified authorizations and
      returns what it checked; a secret in use is confined to its grant; path
      rules and templates match by whole segments; validation of constraints
      and limits equals its specification.
    - Names: identifiers, secret names, subjects, scopes, templates and trace
      identifiers parse exactly their grammar and print back; a scope covers a
      subject exactly when their fields match; tokens of different storage
      keys differ unless the hash collides.
    - Storage: over all interleavings the ledger stays within its limits,
      accounts for every guard and gives everything back. A transaction,
      whatever fails under it, implements the abstract store, reports to the
      ledger exactly the usage of its files and never more than it reserved,
      gives back what it took, never writes with a read-only grant, keeps
      record files valid and never panics; a scan counts every entry once; the
      wait for a lease ends. [prefix_hides_excess] shows that with the limit on
      entries at its ceiling a scan can miss entries. A namespace is named by
      exactly the coordinates of its scope. Over any run, a generation of data
      is granted again only to those who had it or to a memory that proved it
      continues theirs; an authority that comes back, if its namespace was
      neither granted to another nor swept meanwhile, finds its data or an error;
      a sweep takes only what is due and free, and the pointer last.
      [failed_sweep_leaves_part] and [failed_sweep_locks_out] show what a sweep
      that fails half way leaves to the next grant.
    - HTTP: every request that leaves the host, over any sequence of buffered
      and streamed calls, is one the grant allows, to the addresses that were
      checked, with only the broker's headers beside the guest's, the credential
      within its binding and its secret's scope, the counts within the limits and
      an entry of evidence each; every response is within its limit and shows no
      secret, wherever the chunks cut it; the permitted addresses are those of
      the tables; the loops over a body end.
    - Streams: the events of a response, and the validation of an asset, do not
      depend on how the bytes were cut; the lengths of encodings invert.
    - Scripts: the counters of a process tree are exactly what is out against
      them, under any interleaving; output stays within its limits and, while
      nothing was cut off, is what was written; a [case] pattern matches
      exactly the cuts of its subject. The text of the output is ASCII there:
      [multibyte_cut_is_silent] shows that a line cut before a character of
      several bytes can lose its rest without a notice. A pipe is a bounded
      queue that reorders nothing and loses nothing but what a failed read of a
      line had of that line, its lines are the lines written,
      and a read waits only for the writer; [line_rest_is_seen_twice] shows that
      the meter of a stage can count bytes twice. Whatever bytes a script
      holds, [parse] answers with an error or with a program that is well
      formed all the way down; an arithmetic expression that is printed is
      read back and, on integers within 53 binary digits, evaluates to its value
      in the integers or to the error of the charge that failed ([large_integers_compare_equal] shows that larger ones are
      compared as floats); arguments in single quotes reach a command as they are,
      whatever they contain. [here_documents_escape_the_limit] shows that scripts that
      nest deeper than the limit are accepted when they hold here-documents.
    - Gateway: a reply is split into messages that fit the service and
      together are the text, with cut fences closed and opened again; the
      collector hands every message over once, in bursts that mix nothing and
      end in time; threads and jobs stay within their limits under any
      interleaving, the histories of jobs are legal, a stop reaches every job
      it names, an end is told or waited for, and a wait gets its exits. Wakes
      survive restarts, fire exactly when they are due, go only for a reason,
      stay unchanged but for their next time and last output, and keep within
      their limits. Selectors refuse only conversations that
      cannot be, and keys tell conversations apart.
      [notices_are_bounded] shows that the notice of a long job loses the
      marker that says it was cut, [blank_message_possible] and
      [long_closer_is_cut] show what a split can do to white space and to very
      long closing lines.
    - Environment: a file is accepted exactly when it has the form of the
      grammar, what is written is read back, and inherited variables win.

    ** Bounds

    Times lie in [0 .. 2^61] milliseconds, in any order (the clock may step
    back; the bound on a budget is stated at the latest time seen), and periods between one minute and
    366 days, the range the gateway's configuration accepts. [spend_bound] and
    [over_bound] (2^80 and 2^79 tokens) keep the scaled balance of a credit
    meter within [i128]; past them the code would wrap. Limits are below
    [u64::MAX], as no meter can tell a saturated counter from its limit.
    Recursion is structural but for [char_indices] and [to_decimal], whose
    fuel is the number of bytes and of bits: each step takes at least one;
    the loops of [Sse] and [CasePattern], whose fuel counts the bytes, chunks
    or characters left, and whose theorems show it is enough.
    Output limits are at most [i64_max], as every allocation is.
    The fuel of [scan] is the depth of the tree and that of [lock_exclusive]
    the number of attempts; the theorems ask for more than the tree is deep
    and than the first attempt that ends the wait. The limit on entries is
    below [HARD_MAX_DIRECTORY_ENTRIES] where a scan must be exact.
    The fuel of [split_loop] and [find_cuts] is the bytes left, of which each
    turn takes one, and that of [take_due_loop] the batches; the theorems show
    both are enough. The identifiers of jobs and the counts of waiters are
    [u64] and wrap as the code does in release; [sys_step] admits a job while
    the next identifier is in range and a wait while its count is.
    The depth that bounds the scans and removals of namespaces is an argument;
    a tree deeper than it diverges, which the theorems allow for at any place.
    The fuel of [line_loop] is the turns of the reader, of which each read that
    goes on takes one. Times of wakes fit the milliseconds of a [u64], and
    fewer than 2^32 operations are made, so that identifiers do not wrap.
    Of the shell: each construct the grammar enters takes one of 64 units, so
    65 levels ([NESTING], and [GROUP_FUEL] for arithmetic) are enough, and an
    expansion inside an expansion raises a depth that stays under 64
    ([LEVELS]); the loops have fuel for the characters or tokens left.
    [parse_is_total_and_well_formed] shows that none of it runs out.
    Of HTTP: the fuel of [next_decoded] is the events left and two turns, that of
    [read_body] and [spool_body] the events and the bytes of the grant, of which
    each turn takes one ([body_loops_end]). The limits on requests and
    injections fit the [u32] they are in the grants ([widths_ok]).
    [quota_never_exceeded] assumes of a guard that the usage it reports stays
    within what it reserved; [transaction_keeps_quota] proves it of
    transactions.

    ** Parameters

    The system clock is an argument of every operation that reads it;
    [tracing] records are a list; SHA-256 and the Base64 engine are function
    arguments; the JSON input of an invocation is a type argument; the callback
    and the waits of a stream, the signals and timers of a process tree and the
    sizes of types are arguments. Of storage: the ending of each system call,
    the order in which a directory lists its entries ([listing_ok]: each once),
    what others do to the ledger ([interferes], [leaves_alone]: steps of the
    host that leave this namespace alone), the JSON check, entropy and clocks;
    the codec of the two documents of a namespace ([CodecLaws]: what is written
    is read back) and, where data must stay apart, that the hash separates the
    epochs that are drawn ([fresh]). Operations on the root follow one another,
    as its locks order them.
    Of the shell: the values of variables as numbers and the charge for a step.
    Of HTTP: the URL, header, percent, Base64 and certificate libraries
    ([HttpLib], with [HttpLaws]: rewriting a path or a query keeps the origin,
    names are in lower case, a header map holds what was put into it),
    decompression ([FlateLib]: a decoder waits only while its input may go on),
    the matcher of the redactor, the answers of servers, resolver, policy, clock
    and spool.
    Of the gateway: how the script of a job ran, the identity of a route, the
    assets of a message and its fields that collection does not read, the
    parents of traces, the first run of a watch's script and its verdicts, and
    whether a write of the file of wakes worked. A session of [WakesSafety] has
    a conversation that is canonical for its subject, as the broker checks.

    ** Not modelled, and the plan

    The opening of the storage root with its version document and writer lock,
    configuration fragments of the core, the interpreter of scripts but for its
    arithmetic, with field splitting and built-in commands, the texts of parse errors, the
    ranges of signed downloads, the reading of assets into a streamed body and the
    disk budget of spools in the HTTP host, the broker's audit, the gateway's routes
    and the messages its wakes make are left. Transports, model clients, telemetry, terminal
    clients, the WebAssembly host and the Cedar adapter are input/output or
    bindings to libraries and are left out. *)

From Stdlib Require Import ZArith Lia.
From stdpp Require Import base gmap strings list sorting numbers.

#[global] Open Scope Z_scope.

(** ** Results

    Rust's [Result<A, E>], with the [?] operator as a notation. *)

Inductive result (E A : Type) : Type :=
| Ok (a : A)
| Err (e : E).
Arguments Ok {E A} a.
Arguments Err {E A} e.

Definition result_bind {E A B : Type} (m : result E A) (k : A → result E B) : result E B :=
  match m with Ok a => k a | Err e => Err e end.

(** [Option::ok_or]. *)
Definition ok_or {E A : Type} (o : option A) (e : E) : result E A :=
  match o with Some a => Ok a | None => Err e end.

Definition is_ok {E A : Type} (m : result E A) : bool :=
  match m with Ok _ => true | Err _ => false end.

Declare Scope dekopon_scope.
Delimit Scope dekopon_scope with dk.

Notation "'let?' x ':=' m 'in' k" := (result_bind m (fun x => k))
  (at level 10, x pattern, m at level 150, k at level 200,
   format "'[v' 'let?'  x  ':='  m  'in' '/' k ']'") : dekopon_scope.
Notation "'ensure' b 'else' e 'in' k" := (if b then k else Err e)
  (at level 10, b at level 150, e at level 150, k at level 200,
   format "'[v' 'ensure'  b  'else'  e  'in' '/' k ']'") : dekopon_scope.
#[global] Open Scope dekopon_scope.

(** ** Machine integers

    A Rust integer of width [w] is a [Z] in the range of [w]; each operation
    the sources use is written out with its behaviour at the edge of the
    range: [saturating_*] clamps, [checked_*] gives [None], and the bare
    operators of a release build wrap (the workspace sets no
    [overflow-checks]). *)

Definition u32_max : Z := 4294967295.
Definition u64_max : Z := 18446744073709551615.
Definition i64_max : Z := 9223372036854775807.
Definition i64_min : Z := -9223372036854775808.
Definition i128_max : Z := 170141183460469231731687303715884105727.
Definition i128_min : Z := -170141183460469231731687303715884105728.

Definition in_u64 (z : Z) : Prop := 0 ≤ z ≤ u64_max.
Definition in_i64 (z : Z) : Prop := i64_min ≤ z ≤ i64_max.
Definition in_i128 (z : Z) : Prop := i128_min ≤ z ≤ i128_max.

Definition clamp (lo hi z : Z) : Z := Z.max lo (Z.min hi z).

(** Two's-complement wrap-around into [lo .. lo + modulus - 1]. *)
Definition wrap_i64 (z : Z) : Z :=
  (z - i64_min) mod 18446744073709551616 + i64_min.
Definition wrap_i128 (z : Z) : Z :=
  (z - i128_min) mod 340282366920938463463374607431768211456 + i128_min.
Definition wrap_u64 (z : Z) : Z := z mod 18446744073709551616.

Definition sat_add_u64 (a b : Z) : Z := Z.min (a + b) u64_max.
Definition sat_sub_u64 (a b : Z) : Z := Z.max (a - b) 0.
Definition sat_mul_u64 (a b : Z) : Z := Z.min (a * b) u64_max.
Definition sat_add_i64 (a b : Z) : Z := clamp i64_min i64_max (a + b).
Definition sat_sub_i64 (a b : Z) : Z := clamp i64_min i64_max (a - b).
Definition sat_add_i128 (a b : Z) : Z := clamp i128_min i128_max (a + b).
Definition sat_mul_i128 (a b : Z) : Z := clamp i128_min i128_max (a * b).

Definition checked_add_u64 (a b : Z) : option Z :=
  if a + b <=? u64_max then Some (a + b) else None.
Definition checked_sub_u64 (a b : Z) : option Z :=
  if b <=? a then Some (a - b) else None.

(** [u64::try_from] of a wider signed value, and [i64::try_from]. *)
Definition try_u64 (z : Z) : option Z :=
  if (0 <=? z) && (z <=? u64_max) then Some z else None.
Definition try_i64 (z : Z) : option Z :=
  if (i64_min <=? z) && (z <=? i64_max) then Some z else None.

(** [div_euclid] (the remainder is never negative), [div_ceil] on unsigned
    values; the operator [/] on signed values is [Z.quot]. *)
Definition div_euclid (a b : Z) : Z := if 0 <? b then a / b else - (a / - b).
Definition div_ceil (a b : Z) : Z := a / b + (if 0 <? a mod b then 1 else 0).

(** [Option::unwrap_or], [Option::is_none_or]. *)
Definition unwrap_or {A : Type} (o : option A) (d : A) : A :=
  match o with Some a => a | None => d end.
Definition is_none_or {A : Type} (o : option A) (p : A → bool) : bool :=
  match o with Some a => p a | None => true end.
Definition is_some_and {A : Type} (o : option A) (p : A → bool) : bool :=
  match o with Some a => p a | None => false end.

(** [Iterator::find] and [Iterator::any]. *)
Fixpoint find_first {A : Type} (p : A → bool) (l : list A) : option A :=
  match l with
  | [] => None
  | x :: l => if p x then Some x else find_first p l
  end.

(** [std::time::Duration]: a number of nanoseconds. *)
Definition Duration_max : Z := u64_max * 1000000000 + 999999999.
Definition dur_from_millis (ms : Z) : Z := ms * 1000000.
Definition dur_from_secs (s : Z) : Z := s * 1000000000.
Definition dur_as_millis (d : Z) : Z := d / 1000000.
Definition dur_as_secs (d : Z) : Z := d / 1000000000.
Definition dur_subsec_nanos (d : Z) : Z := d mod 1000000000.
Definition dur_sat_add (a b : Z) : Z := Z.min (a + b) Duration_max.
Definition dur_sat_mul (a k : Z) : Z := Z.min (a * k) Duration_max.

(** ** Automation

    [dk_bool] turns the boolean tests of the code into propositions and
    [dk_arith] unfolds the machine arithmetic and calls [lia]. *)

Create HintDb dk discriminated.
Create Rewrite HintDb dkrw.

#[export] Hint Rewrite andb_true_iff orb_true_iff negb_true_iff
  andb_false_iff orb_false_iff negb_false_iff
  Z.leb_le Z.ltb_lt Z.eqb_eq Z.leb_gt Z.ltb_ge Z.eqb_neq : dkrw.

Ltac dk_bool := autorewrite with dkrw in *.

Ltac dk_unfold :=
  unfold sat_add_u64, sat_sub_u64, sat_mul_u64, sat_add_i64, sat_sub_i64,
    sat_add_i128, sat_mul_i128, clamp, in_u64, in_i64, in_i128,
    u64_max, i64_max, i64_min, i128_max, i128_min, u32_max in *.

Ltac dk_arith := dk_unfold; lia.

(** Case analysis on the innermost test of the goal or of a hypothesis. *)
Ltac dk_case :=
  match goal with
  | |- context [match ?x with _ => _ end] =>
      lazymatch x with context [match _ with _ => _ end] => fail | _ => destruct x eqn:? end
  | H : context [match ?x with _ => _ end] |- _ =>
      lazymatch x with context [match _ with _ => _ end] => fail | _ => destruct x eqn:? end
  end.

(** ** Generic lemmas *)

Lemma wrap_i64_id (z : Z) : in_i64 z → wrap_i64 z = z.
Proof. intros H. unfold wrap_i64. rewrite Z.mod_small; dk_arith. Qed.

Lemma wrap_i128_id (z : Z) : in_i128 z → wrap_i128 z = z.
Proof. intros H. unfold wrap_i128. rewrite Z.mod_small; dk_arith. Qed.

Lemma wrap_u64_id (z : Z) : in_u64 z → wrap_u64 z = z.
Proof. intros H. unfold wrap_u64. rewrite Z.mod_small; dk_arith. Qed.

Lemma div_euclid_pos (a b : Z) : 0 < b → div_euclid a b = a / b.
Proof. intros H. unfold div_euclid. by rewrite (proj2 (Z.ltb_lt 0 b) H). Qed.

Lemma floor_bounds (a b : Z) : 0 < b → a - b < a / b * b ≤ a.
Proof.
  intros H. pose proof (Z.mod_pos_bound a b H). pose proof (Z.div_mod a b). lia.
Qed.

Lemma floor_mono (a a' b : Z) : 0 < b → a ≤ a' → a / b * b ≤ a' / b * b.
Proof. intros H Ha. apply Z.mul_le_mono_nonneg_r; [lia|]. apply Z.div_le_mono; lia. Qed.

Lemma div_ceil_bounds (a b : Z) : 0 < b → a ≤ div_ceil a b * b < a + b.
Proof.
  intros H. unfold div_ceil. pose proof (Z.mod_pos_bound a b H).
  pose proof (Z.div_mod a b). destruct (Z.ltb_spec 0 (a mod b)); nia.
Qed.

Lemma checked_add_u64_Some (a b c : Z) :
  checked_add_u64 a b = Some c → c = a + b ∧ a + b ≤ u64_max.
Proof. unfold checked_add_u64. destruct (Z.leb_spec (a + b) u64_max); [|done]. intros [= <-]. auto. Qed.

Lemma checked_add_u64_fits (a b : Z) :
  a + b ≤ u64_max → checked_add_u64 a b = Some (a + b).
Proof. intros H. unfold checked_add_u64. by rewrite (proj2 (Z.leb_le _ _) H). Qed.

Lemma result_bind_Ok {E A B : Type} (m : result E A) (k : A → result E B) (b : B) :
  result_bind m k = Ok b ↔ ∃ a, m = Ok a ∧ k a = Ok b.
Proof.
  destruct m as [a|e]; simpl; split; [by exists a|by intros (? & [= ->] & ?)|done|].
  by intros (? & ? & ?).
Qed.

Lemma ok_or_Ok {E A : Type} (o : option A) (e : E) (a : A) :
  ok_or o e = Ok a ↔ o = Some a.
Proof. destruct o; naive_solver. Qed.

Lemma find_first_None {A : Type} (p : A → bool) (l : list A) :
  find_first p l = None ↔ Forall (fun x => p x = false) l.
Proof.
  induction l as [|x l IH]; simpl; [done|]. destruct (p x) eqn:E.
  - split; [done|]. intros H. inversion H; congruence.
  - rewrite IH. split; [by constructor|]. by inversion 1.
Qed.

Lemma find_first_Some {A : Type} (p : A → bool) (l : list A) (x : A) :
  find_first p l = Some x → x ∈ l ∧ p x = true.
Proof.
  induction l as [|y l IH]; simpl; [done|]. destruct (p y) eqn:E; intros H.
  - simplify_eq. split; [constructor|done].
  - destruct (IH H). split; [by constructor|done].
Qed.

#[export] Hint Resolve wrap_i64_id wrap_i128_id : dk.

Lemma mul_bounds (a b A B : Z) : 0 ≤ a ≤ A → 0 ≤ b ≤ B → 0 ≤ a * b ≤ A * B.
Proof. nia. Qed.

Lemma foldl_sat_add_sum {A : Type} (f : A → Z) (l : list A) (acc : Z) :
  Forall (fun x => 0 ≤ f x) l → 0 ≤ acc →
  foldl (fun acc x => sat_add_u64 acc (f x)) acc l
  = match l with [] => acc | _ => Z.min u64_max (acc + foldr (fun x s => f x + s) 0 l) end.
Proof.
  intros Hl. revert acc. induction Hl as [|x l Hx Hl IH]; intros acc Hacc; [done|].
  simpl. rewrite IH by dk_arith.
  assert (0 ≤ foldr (fun x s => f x + s) 0 l) by (clear -Hl; induction Hl; simpl; lia).
  destruct l; simpl in *; dk_arith.
Qed.

Lemma foldr_sum_nonneg {A : Type} (f : A → Z) (l : list A) :
  Forall (fun x => 0 ≤ f x) l → 0 ≤ foldr (fun x s => f x + s) 0 l.
Proof. induction 1; simpl; lia. Qed.

Lemma Forall_elem {A : Type} (P : A → Prop) (l : list A) (x : A) : Forall P l → x ∈ l → P x.
Proof. intros H Hx. rewrite List.Forall_forall in H. apply H. by apply list_elem_of_In. Qed.

Lemma Forall_filter_bool {A : Type} (P : A → Prop) (p : A → bool) (l : list A) :
  Forall P l → Forall P (List.filter p l).
Proof. induction 1; simpl; [constructor|]. destruct (p x); auto. Qed.

Lemma sum_filter_mono {A : Type} (f : A → Z) (p q : A → bool) (l : list A) :
  Forall (fun x => 0 ≤ f x ∧ (p x = true → q x = true)) l →
  foldr (fun x s => f x + s) 0 (List.filter p l)
  ≤ foldr (fun x s => f x + s) 0 (List.filter q l).
Proof.
  induction 1 as [|x l [Hx Hpq] Hl IH]; simpl; [done|].
  destruct (p x), (q x); simpl; first [lia|by specialize (Hpq eq_refl)].
Qed.

Lemma div_sub_mul (a s b : Z) : 0 < b → (a - s * b) / b = a / b - s.
Proof.
  intros Hb. replace (a - s * b) with (a + (- s) * b) by lia. rewrite Z.div_add by lia. lia.
Qed.

Lemma filter_filter_bool {A : Type} (p q : A → bool) (l : list A) :
  List.filter p (List.filter q l) = List.filter (fun x => q x && p x) l.
Proof.
  induction l as [|x l IH]; simpl; [done|]. destruct (q x); simpl; [|done].
  destruct (p x); by rewrite IH.
Qed.

Lemma filter_ext_bool {A : Type} (p q : A → bool) (l : list A) :
  (∀ x, p x = q x) → List.filter p l = List.filter q l.
Proof. intros H. induction l as [|x l IH]; simpl; [done|]. by rewrite H, IH. Qed.

Lemma filter_sorted {A : Type} (R : A → A → Prop) (p : A → bool) (l : list A) :
  StronglySorted R l → StronglySorted R (List.filter p l).
Proof.
  induction 1 as [|x l Hl IH Hx]; simpl; [constructor|].
  destruct (p x); [|done]. constructor; [done|]. by apply Forall_filter_bool.
Qed.

Lemma Forall_filter_and {A : Type} (P : A → Prop) (p : A → bool) (l : list A) :
  Forall P l → Forall (fun x => P x ∧ p x = true) (List.filter p l).
Proof. induction 1; simpl; [constructor|]. destruct (p x) eqn:?; auto. Qed.

(** [slice::sort_by_key]: a stable sort by an integer key. *)
Fixpoint insert_by_key {A : Type} (key : A → Z) (x : A) (l : list A) : list A :=
  match l with
  | [] => [x]
  | y :: l' => if key x <=? key y then x :: l else y :: insert_by_key key x l'
  end.
Definition sort_by_key {A : Type} (key : A → Z) (l : list A) : list A :=
  foldr (insert_by_key key) [] l.

Lemma insert_by_key_perm {A : Type} (key : A → Z) (x : A) (l : list A) :
  insert_by_key key x l ≡ₚ x :: l.
Proof.
  induction l as [|y l IH]; simpl; [done|]. destruct (_ <=? _); [done|].
  rewrite IH. apply perm_swap.
Qed.

Lemma sort_by_key_perm {A : Type} (key : A → Z) (l : list A) : sort_by_key key l ≡ₚ l.
Proof. induction l as [|x l IH]; simpl; [done|]. by rewrite insert_by_key_perm, IH. Qed.

Lemma insert_by_key_sorted {A : Type} (key : A → Z) (x : A) (l : list A) :
  StronglySorted (fun a b => key a ≤ key b) l →
  StronglySorted (fun a b => key a ≤ key b) (insert_by_key key x l).
Proof.
  induction 1 as [|y l Hl IH Hy]; simpl; [by repeat constructor|].
  destruct (Z.leb_spec (key x) (key y)).
  - constructor; [by constructor|]. constructor; [done|].
    eapply Forall_impl; [|exact Hy]. simpl. lia.
  - constructor; [done|]. eapply Permutation_Forall; [symmetry; apply insert_by_key_perm|].
    constructor; [lia|done].
Qed.

Lemma sort_by_key_sorted {A : Type} (key : A → Z) (l : list A) :
  StronglySorted (fun a b => key a ≤ key b) (sort_by_key key l).
Proof. induction l as [|x l IH]; simpl; [constructor|]. by apply insert_by_key_sorted. Qed.

Lemma sort_by_key_id {A : Type} (key : A → Z) (l : list A) :
  StronglySorted (fun a b => key a ≤ key b) l → sort_by_key key l = l.
Proof.
  induction 1 as [|x l Hl IH Hx]; simpl; [done|]. rewrite IH.
  destruct l as [|y l]; simpl; [done|]. inversion Hx; subst.
  by rewrite (proj2 (Z.leb_le _ _)).
Qed.

(** Two sorted lists with the same elements and distinct keys are equal. *)
Lemma sorted_perm_eq {A : Type} (key : A → Z) (l l' : list A) :
  StronglySorted (fun a b => key a < key b) l →
  StronglySorted (fun a b => key a ≤ key b) l' → l ≡ₚ l' → l = l'.
Proof.
  intros Hl. revert l'. induction Hl as [|x l Hl IH Hx]; intros l' Hl' Hp.
  { by apply Permutation_nil in Hp. }
  destruct Hl' as [|y l' Hl' Hy]; [by apply Permutation_sym, Permutation_nil in Hp|].
  assert (x = y) as ->.
  { assert (y ∈ x :: l) as [->|Hin]%elem_of_cons by (rewrite Hp; constructor); [done|].
    assert (x ∈ y :: l') as [->|Hin']%elem_of_cons by (rewrite <- Hp; constructor); [done|].
    rewrite List.Forall_forall in Hx, Hy. apply list_elem_of_In in Hin, Hin'.
    specialize (Hx y Hin). specialize (Hy x Hin'). simpl in *. lia. }
  f_equal. apply IH; [done|]. by apply Permutation_cons_inv in Hp.
Qed.

Lemma existsb_false {A : Type} (p : A → bool) (l : list A) :
  existsb p l = false ↔ Forall (fun x => p x = false) l.
Proof.
  induction l as [|x l IH]; cbn; [done|]. by rewrite orb_false_iff, IH, List.Forall_cons_iff.
Qed.

Lemma forallb_true {A : Type} (p : A → bool) (l : list A) :
  forallb p l = true ↔ Forall (fun x => p x = true) l.
Proof.
  induction l as [|x l IH]; cbn; [done|]. by rewrite andb_true_iff, IH, List.Forall_cons_iff.
Qed.

Lemma Forall_iff {A : Type} (P Q : A → Prop) (l : list A) :
  (∀ x, P x ↔ Q x) → Forall P l ↔ Forall Q l.
Proof. intros H. split; apply Forall_impl; intros x; apply H. Qed.

Definition is_nil {A : Type} (l : list A) : bool := match l with [] => true | _ => false end.

Lemma is_nil_false {A : Type} (l : list A) : is_nil l = false ↔ l ≠ [].
Proof. by destruct l. Qed.

(** Induction over a list two elements at a time. *)
Lemma list_pair_ind {A : Type} (P : list A → Prop) :
  P [] → (∀ a, P [a]) → (∀ a b l, P l → P (a :: b :: l)) → ∀ l, P l.
Proof.
  intros H0 H1 H2 l. assert (P l ∧ ∀ a, P (a :: l)) as [? _]; [|done].
  induction l as [|b l [IH1 IH2]]; [done|]. split; [done|]. intros a. by apply H2.
Qed.
