(* ===== verification/RustStr.v ===== *)
(** * Rust strings

    A Rust [str] is its UTF-8 bytes, each a [Z] in [0 .. 255]. This file
    models the methods of [str], [char] and [u8] the sources call, with the
    Unicode classes they consult, and proves the facts the components share:
    splitting and joining, case folding, decimal printing and parsing. *)

From Stdlib Require Import ZArith Lia Ascii String.
From stdpp Require Import base gmap strings list sorting numbers.
From S2P Require Import Prelude.

Abbreviation str := (list Z).

Definition ch (a : ascii) : Z := Z.of_N (N_of_ascii a).
Arguments ch a%_char_scope.

(** A string literal of the source. *)
Definition lit (s : string) : str := ch <$> list_ascii_of_string s.
Arguments lit s%_string_scope.

(** [str::len]. *)
Definition len (s : str) : Z := Z.of_nat (length s).

Definition is_empty (s : str) : bool := match s with [] => true | _ => false end.

(** [==] on strings. *)
Definition str_eqb (a b : str) : bool := bool_decide (a = b).

(** *** Byte classes *)

Definition in_range (lo hi b : Z) : bool := (lo <=? b) && (b <=? hi).
Definition is_ascii_lowercase (b : Z) : bool := in_range 97 122 b.
Definition is_ascii_uppercase (b : Z) : bool := in_range 65 90 b.
Definition is_ascii_digit (b : Z) : bool := in_range 48 57 b.
Definition is_ascii_alphanumeric (b : Z) : bool :=
  is_ascii_lowercase b || is_ascii_uppercase b || is_ascii_digit b.
Definition is_ascii_control (b : Z) : bool := in_range 0 31 b || (b =? 127).
(** Space, tab, line feed, form feed, carriage return. *)
Definition is_ascii_whitespace (b : Z) : bool :=
  (b =? 32) || (b =? 9) || (b =? 10) || (b =? 12) || (b =? 13).

Definition mem (b : Z) (s : str) : bool := existsb (Z.eqb b) s.

Definition to_ascii_lowercase_byte (b : Z) : Z := if is_ascii_uppercase b then b + 32 else b.
Definition to_ascii_lowercase (s : str) : str := to_ascii_lowercase_byte <$> s.

(** *** Searching and splitting *)

Fixpoint strip_prefix (s p : str) {struct p} : option str :=
  match p, s with
  | [], _ => Some s
  | c :: p, d :: s => if c =? d then strip_prefix s p else None
  | _ :: _, [] => None
  end.

Definition starts_with (s p : str) : bool :=
  match strip_prefix s p with Some _ => true | None => false end.

(** [str::split_once] at an ASCII character. *)
Fixpoint split_once (sep : Z) (s : str) : option (str * str) :=
  match s with
  | [] => None
  | c :: s =>
      if c =? sep then Some ([], s)
      else match split_once sep s with Some (a, b) => Some (c :: a, b) | None => None end
  end.

Definition strip_suffix (s p : str) : option str :=
  match strip_prefix (rev s) (rev p) with Some r => Some (rev r) | None => None end.

(** [str::contains] for a substring. *)
Fixpoint contains_sub (s p : str) : bool :=
  starts_with s p || match s with [] => false | _ :: s => contains_sub s p end.

(** [str::split] at an ASCII separator: never empty. *)
Fixpoint split (sep : Z) (s : str) : list str :=
  match s with
  | [] => [[]]
  | c :: s =>
      if c =? sep then [] :: split sep s
      else match split sep s with
           | [] => [[c]]
           | f :: fs => (c :: f) :: fs
           end
  end.

(** The inverse of [split]: fields written with the separator between them. *)
Fixpoint join (sep : Z) (fs : list str) : str :=
  match fs with
  | [] => []
  | [f] => f
  | f :: fs => f ++ sep :: join sep fs
  end.

(** *** Characters

    [char_indices] reads the leading byte of each UTF-8 sequence; a [str] is
    always well formed, so the bytes that follow are not inspected further. *)

Definition utf8_width (b : Z) : nat :=
  if b <? 128 then 1 else if b <? 224 then 2 else if b <? 240 then 3 else 4.

Definition utf8_scalar (bytes : list Z) : Z :=
  match bytes with
  | [a] => a
  | [a; b] => (a - 192) * 64 + (b - 128)
  | [a; b; c] => (a - 224) * 4096 + (b - 128) * 64 + (c - 128)
  | [a; b; c; d] => (a - 240) * 262144 + (b - 128) * 4096 + (c - 128) * 64 + (d - 128)
  | _ => 65533
  end.

Fixpoint char_indices_from (fuel : nat) (index : Z) (s : str) : list (Z * Z) :=
  match fuel, s with
  | S fuel, b :: _ =>
      let w := utf8_width b in
      (index, utf8_scalar (take w s)) :: char_indices_from fuel (index + Z.of_nat w) (drop w s)
  | _, _ => []
  end.

(** Each character takes a byte at least, so the length is fuel enough. *)
Definition char_indices (s : str) : list (Z * Z) := char_indices_from (length s) 0 s.
Definition chars (s : str) : list Z := (char_indices s).*2.

(** [String::push]: the bytes of a character. *)
Definition encode_utf8 (c : Z) : str :=
  if c <? 128 then [c]
  else if c <? 2048 then [192 + c / 64; 128 + c mod 64]
  else if c <? 65536 then [224 + c / 4096; 128 + c / 64 mod 64; 128 + c mod 64]
  else [240 + c / 262144; 128 + c / 4096 mod 64; 128 + c / 64 mod 64; 128 + c mod 64].

(** [char::is_control]: the general category Cc. *)
Definition char_is_control (c : Z) : bool := in_range 0 31 c || in_range 127 159 c.

(** [char::is_whitespace]: the property White_Space. *)
Definition char_is_whitespace (c : Z) : bool :=
  in_range 9 13 c || (c =? 32) || (c =? 133) || (c =? 160) || (c =? 5760) ||
  in_range 8192 8202 c || (c =? 8232) || (c =? 8233) || (c =? 8239) || (c =? 8287) ||
  (c =? 12288).

(** [value.trim() == value]: neither end is white space. *)
Definition is_trimmed (s : str) : bool :=
  match chars s with
  | [] => true
  | c :: cs => negb (char_is_whitespace c) && negb (char_is_whitespace (List.last cs c))
  end.

(** [value.trim().is_empty()]. *)
Definition is_blank (s : str) : bool := forallb char_is_whitespace (chars s).

(** [str::trim_start], [str::trim_end] and [str::trim]. *)
Definition trim_start (s : str) : str :=
  match find_first (fun ic => negb (char_is_whitespace ic.2)) (char_indices s) with
  | Some (index, _) => drop (Z.to_nat index) s
  | None => []
  end.

Definition trim_end (s : str) : str :=
  match find_first (fun ic => negb (char_is_whitespace ic.2)) (rev (char_indices s)) with
  | Some (index, _) =>
      take (Z.to_nat index + utf8_width (nth (Z.to_nat index) s 0%Z))%nat s
  | None => []
  end.

Definition trim (s : str) : str := trim_end (trim_start s).

(** [str::trim_end_matches] with ASCII characters. *)
Definition trim_end_matches (p : Z → bool) (s : str) : str :=
  foldr (fun c acc => if is_empty acc && p c then [] else c :: acc) [] s.

(** *** Decimal numbers *)

Definition digit (d : Z) : Z := 48 + d.

Fixpoint decimal_fuel (fuel : nat) (n : Z) : str :=
  match fuel with
  | O => []
  | S fuel => (if n <? 10 then [] else decimal_fuel fuel (n / 10)) ++ [digit (n mod 10)]
  end.

(** [to_string] of an unsigned number. *)
Definition to_decimal (n : Z) : str := decimal_fuel (S (Z.to_nat (Z.log2 n))) n.

Fixpoint parse_digits (acc : Z) (s : str) : option Z :=
  match s with
  | [] => Some acc
  | c :: s =>
      if is_ascii_digit c then
        let acc := acc * 10 + (c - 48) in
        if acc <=? u64_max then parse_digits acc s else None
      else None
  end.

(** [str::parse::<u64>]: one optional leading [+], then digits, no overflow. *)
Definition parse_u64 (s : str) : option Z :=
  match s with
  | [] => None
  | c :: rest =>
      if c =? ch "+" then (if is_empty rest then None else parse_digits 0 rest)
      else parse_digits 0 s
  end.

(** Evaluates the character literals of the goal and the hypotheses. *)
Ltac dk_ch :=
  repeat match goal with
  | |- context [ch ?a] => let v := eval vm_compute in (ch a) in change (ch a) with v
  | H : context [ch ?a] |- _ => let v := eval vm_compute in (ch a) in change (ch a) with v in H
  end.

(** Unfolds byte classes and settles what they say of a byte. *)
Ltac dk_byte :=
  unfold is_ascii_alphanumeric, is_ascii_lowercase, is_ascii_uppercase, is_ascii_digit,
    is_ascii_control, in_range in *;
  dk_ch; dk_bool; try lia.

(** ** Lemmas *)

Lemma str_eqb_eq (a b : str) : str_eqb a b = true ↔ a = b.
Proof. unfold str_eqb. apply bool_decide_eq_true. Qed.

Lemma str_eqb_neq (a b : str) : str_eqb a b = false ↔ a ≠ b.
Proof. unfold str_eqb. apply bool_decide_eq_false. Qed.
#[export] Hint Rewrite str_eqb_eq str_eqb_neq : dkrw.

Lemma len_app (a b : str) : len (a ++ b) = len a + len b.
Proof. unfold len. rewrite length_app. lia. Qed.

Lemma len_cons (c : Z) (s : str) : len (c :: s) = 1 + len s.
Proof. unfold len. simpl. lia. Qed.

Lemma len_nonneg (s : str) : 0 ≤ len s.
Proof. unfold len. lia. Qed.

Lemma mem_true (b : Z) (s : str) : mem b s = true ↔ b ∈ s.
Proof.
  unfold mem. rewrite existsb_exists. split.
  - intros (x & Hin & ->%Z.eqb_eq). by apply list_elem_of_In.
  - intros H. exists b. split; [by apply list_elem_of_In|apply Z.eqb_refl].
Qed.

Lemma mem_false (b : Z) (s : str) : mem b s = false ↔ b ∉ s.
Proof. rewrite <- mem_true. destruct (mem b s); split; congruence. Qed.
#[export] Hint Rewrite mem_true mem_false : dkrw.

Lemma mem_app (b : Z) (s t : str) : mem b (s ++ t) = mem b s || mem b t.
Proof. apply existsb_app. Qed.

(** *** Split and join *)

Lemma split_not_nil (sep : Z) (s : str) : split sep s ≠ [].
Proof. induction s as [|c s IH]; simpl; [done|]. destruct (c =? sep), (split sep s); done. Qed.

Lemma split_clean (sep : Z) (s : str) : sep ∉ s → split sep s = [s].
Proof.
  induction s as [|c s IH]; intros H; [done|]. simpl.
  apply not_elem_of_cons in H as [Hc Hs]. rewrite (proj2 (Z.eqb_neq c sep)) by congruence.
  by rewrite IH.
Qed.

Lemma split_app (sep : Z) (f s : str) :
  sep ∉ f → split sep (f ++ sep :: s) = f :: split sep s.
Proof.
  induction f as [|c f IH]; intros H; simpl; [by rewrite Z.eqb_refl|].
  apply not_elem_of_cons in H as [Hc Hf]. rewrite (proj2 (Z.eqb_neq c sep)) by congruence.
  by rewrite IH.
Qed.

Lemma split_join (sep : Z) (fs : list str) :
  fs ≠ [] → Forall (fun f => sep ∉ f) fs → split sep (join sep fs) = fs.
Proof.
  intros Hne. induction 1 as [|f fs Hf Hfs IH]; [done|]. destruct fs as [|g fs].
  - by apply split_clean.
  - change (join sep (f :: g :: fs)) with (f ++ sep :: join sep (g :: fs)).
    rewrite split_app by done. by rewrite IH.
Qed.

Lemma join_cons (sep : Z) (f : str) (fs : list str) :
  fs ≠ [] → join sep (f :: fs) = f ++ sep :: join sep fs.
Proof. by destruct fs. Qed.

Lemma join_split (sep : Z) (s : str) : join sep (split sep s) = s.
Proof.
  induction s as [|c s IH]; [done|]. simpl. destruct (Z.eqb_spec c sep) as [->|].
  - rewrite join_cons by apply split_not_nil. by rewrite IH.
  - destruct (split sep s) as [|f fs] eqn:E; [by apply split_not_nil in E|].
    destruct fs; simpl in *; congruence.
Qed.

Lemma split_join_app (sep : Z) (p rest : str) :
  split sep (p ++ sep :: rest) = split sep p ++ split sep rest.
Proof.
  induction p as [|c p IH]; cbn [app split]; [by rewrite Z.eqb_refl|].
  destruct (c =? sep); [by rewrite IH|]. rewrite IH.
  destruct (split sep p) eqn:E; [by destruct (split_not_nil sep p)|done].
Qed.

Lemma split_fields_clean (sep : Z) (s : str) : Forall (fun f => sep ∉ f) (split sep s).
Proof.
  induction s as [|c s IH]; simpl; [repeat constructor; by apply not_elem_of_nil|].
  destruct (Z.eqb_spec c sep).
  - constructor; [by apply not_elem_of_nil|done].
  - destruct (split sep s) as [|f fs] eqn:E; [by apply split_not_nil in E|].
    inversion IH; subst. constructor; [|done]. rewrite not_elem_of_cons. auto.
Qed.

Lemma split_sub (sep : Z) (s : str) (P : Z → Prop) :
  Forall P s → Forall (Forall P) (split sep s).
Proof.
  induction 1 as [|c s Hc Hs IH]; simpl; [repeat constructor|].
  destruct (c =? sep); [by constructor|].
  destruct (split sep s) as [|f fs]; [by repeat constructor|].
  inversion IH; subst. by repeat constructor.
Qed.

(** *** Prefixes *)

Lemma strip_prefix_Some (s p r : str) : strip_prefix s p = Some r ↔ s = p ++ r.
Proof.
  revert s. induction p as [|c p IH]; intros s; simpl; [split; [by intros [= ->]|by intros ->]|].
  destruct s as [|d s]; [done|]. destruct (Z.eqb_spec c d) as [->|Hne].
  - rewrite IH. split; [by intros ->|]. by intros [= ->].
  - split; [done|]. by intros [= -> _].
Qed.

Lemma split_once_Some (sep : Z) (s a b : str) :
  split_once sep s = Some (a, b) ↔ s = a ++ sep :: b ∧ sep ∉ a.
Proof.
  revert a b. induction s as [|c s IH]; intros a b; cbn [split_once].
  { split; [done|]. by intros [? _]; destruct a. }
  destruct (Z.eqb_spec c sep) as [->|Hc].
  - split.
    + intros [= <- <-]. split; [done|apply not_elem_of_nil].
    + intros [E Ha]. destruct a as [|x a]; [by injection E as ->|]. injection E as <- _. destruct Ha. constructor.
  - destruct (split_once sep s) as [[a' b']|] eqn:E; split.
    + intros [= <- <-]. destruct (proj1 (IH a' b') eq_refl) as [-> Ha]. split; [done|]. by apply not_elem_of_cons.
    + intros [Es Ha]. destruct a as [|x a]; [by injection Es as ->|]. injection Es as <- ->.
      apply not_elem_of_cons in Ha as [_ Ha]. 
      assert (Some (a', b') = Some (a, b)) as E' by (by apply IH). by injection E' as -> ->.
    + done.
    + intros [Es Ha]. destruct a as [|x a]; [by injection Es as ->|]. injection Es as <- ->.
      apply not_elem_of_cons in Ha as [_ Ha]. by assert (None = Some (a, b)) by (by apply IH).
Qed.

Lemma starts_with_true (s p : str) : starts_with s p = true ↔ ∃ r, s = p ++ r.
Proof.
  unfold starts_with. destruct (strip_prefix s p) as [r|] eqn:E.
  - apply strip_prefix_Some in E. split; [by exists r|done].
  - split; [done|]. intros [r Hr]. apply strip_prefix_Some in Hr. congruence.
Qed.

Lemma strip_suffix_Some (s p r : str) : strip_suffix s p = Some r ↔ s = r ++ p.
Proof.
  unfold strip_suffix. destruct (strip_prefix (rev s) (rev p)) as [q|] eqn:E.
  - apply strip_prefix_Some in E. apply (f_equal (@rev Z)) in E.
    rewrite rev_app_distr, !rev_involutive in E. subst s. split; [by intros [= ->]|].
    intros H. f_equal. by apply app_inv_tail in H.
  - split; [done|]. intros ->. rewrite rev_app_distr in E.
    pose proof (proj2 (strip_prefix_Some (rev p ++ rev r) (rev p) (rev r)) eq_refl). congruence.
Qed.

(** *** Case folding *)

Lemma lowercase_app (s t : str) :
  to_ascii_lowercase (s ++ t) = to_ascii_lowercase s ++ to_ascii_lowercase t.
Proof. apply fmap_app. Qed.

Lemma lowercase_cons (c : Z) (s : str) :
  to_ascii_lowercase (c :: s) = to_ascii_lowercase_byte c :: to_ascii_lowercase s.
Proof. done. Qed.

Lemma lowercase_id (s : str) :
  Forall (fun b => is_ascii_uppercase b = false) s → to_ascii_lowercase s = s.
Proof.
  unfold to_ascii_lowercase. induction 1 as [|b s Hb Hs IH]; [done|].
  rewrite fmap_cons, IH. unfold to_ascii_lowercase_byte. by rewrite Hb.
Qed.

Lemma lowercase_no_upper (s : str) :
  Forall (fun b => is_ascii_uppercase b = false) (to_ascii_lowercase s).
Proof.
  apply Forall_fmap, Forall_true. intros b. unfold compose, to_ascii_lowercase_byte.
  destruct (is_ascii_uppercase b) eqn:E; [|done].
  unfold is_ascii_uppercase, in_range in *. dk_bool. lia.
Qed.

Lemma lowercase_idemp (s : str) :
  to_ascii_lowercase (to_ascii_lowercase s) = to_ascii_lowercase s.
Proof. apply lowercase_id, lowercase_no_upper. Qed.

Lemma lowercase_len (s : str) : len (to_ascii_lowercase s) = len s.
Proof. unfold len, to_ascii_lowercase. by rewrite length_fmap. Qed.

(** *** Decimal *)

Lemma log2_div10 (n : Z) : 10 ≤ n → 0 < n / 10 ∧ Z.log2 (n / 10) < Z.log2 n.
Proof.
  intros Hn. assert (0 < n / 10) by (apply Z.div_str_pos; lia). split; [done|].
  apply Z.log2_lt_pow2; [done|]. pose proof (Z.log2_spec n ltac:(lia)) as [_ Hs].
  apply Z.div_lt_upper_bound; [lia|]. rewrite Z.pow_succ_r in Hs by apply Z.log2_nonneg. lia.
Qed.

Lemma decimal_fuel_enough (f f' : nat) (n : Z) :
  (Z.to_nat (Z.log2 n) < f)%nat → (Z.to_nat (Z.log2 n) < f')%nat →
  decimal_fuel f n = decimal_fuel f' n.
Proof.
  revert f' n. induction f as [|f IH]; intros f' n Hf Hf'; [lia|].
  destruct f' as [|f']; [lia|]. cbn [decimal_fuel].
  destruct (Z.ltb_spec n 10) as [|Hge]; [done|]. f_equal.
  destruct (log2_div10 n Hge). pose proof (Z.log2_nonneg (n / 10)). apply IH; lia.
Qed.

(** The printed number is its leading digits, then its last one. *)
Lemma to_decimal_eq (n : Z) :
  to_decimal n = (if n <? 10 then [] else to_decimal (n / 10)) ++ [digit (n mod 10)].
Proof.
  unfold to_decimal at 1. cbn [decimal_fuel]. destruct (Z.ltb_spec n 10) as [|Hge]; [done|].
  f_equal. destruct (log2_div10 n Hge). pose proof (Z.log2_nonneg (n / 10)).
  apply decimal_fuel_enough; lia.
Qed.

Lemma to_decimal_ind (P : Z → Prop) :
  (∀ n, 0 ≤ n → (10 ≤ n → P (n / 10)) → P n) → ∀ n, 0 ≤ n → P n.
Proof.
  intros H n. induction n as [n IH] using (well_founded_induction (Z.lt_wf 0)). intros Hn.
  apply H; [done|]. intros Hge.
  apply IH; [split; [apply Z.div_pos; lia|apply Z.div_lt; lia]|apply Z.div_pos; lia].
Qed.

Lemma to_decimal_digits (n : Z) :
  0 ≤ n → Forall (fun c => is_ascii_digit c = true) (to_decimal n).
Proof.
  intros Hn. revert n Hn. apply to_decimal_ind. intros n Hn IH. rewrite to_decimal_eq.
  pose proof (Z.mod_pos_bound n 10 ltac:(lia)).
  apply Forall_app. split; [destruct (Z.ltb_spec n 10); [done|auto]|].
  repeat constructor. unfold is_ascii_digit, in_range, digit. dk_bool. lia.
Qed.

Lemma to_decimal_not_nil (n : Z) : to_decimal n ≠ [].
Proof. rewrite to_decimal_eq. by intros [_ ?]%app_eq_nil. Qed.

Lemma parse_digits_app (s t : str) (acc : Z) :
  parse_digits acc (s ++ t)
  = match parse_digits acc s with Some acc => parse_digits acc t | None => None end.
Proof.
  revert acc. induction s as [|c s IH]; intros acc; simpl; [done|].
  destruct (is_ascii_digit c); [|done]. by destruct (_ <=? _).
Qed.

Lemma parse_to_decimal_digits (n : Z) : 0 ≤ n ≤ u64_max → parse_digits 0 (to_decimal n) = Some n.
Proof.
  intros [Hn Hmax]. revert n Hn Hmax.
  apply (to_decimal_ind (fun n => n ≤ u64_max → parse_digits 0 (to_decimal n) = Some n)).
  intros n Hn IH Hmax. rewrite to_decimal_eq, parse_digits_app.
  pose proof (Z.mod_pos_bound n 10 ltac:(lia)) as Hmod. pose proof (Z.div_mod n 10 ltac:(lia)).
  assert ((if n <? 10 then Some 0 else Some (n / 10)) = Some (n / 10)) as Hd.
  { destruct (Z.ltb_spec n 10); [|done]. by rewrite Z.div_small by lia. }
  replace (parse_digits 0 (if n <? 10 then [] else to_decimal (n / 10))) with (Some (n / 10)).
  2:{ rewrite <- Hd. destruct (Z.ltb_spec n 10); [done|]. symmetry. apply IH; [lia|].
      unfold u64_max in *. lia. }
  simpl. assert (is_ascii_digit (digit (n mod 10)) = true) as ->
    by (unfold is_ascii_digit, in_range, digit; dk_bool; lia).
  replace (n / 10 * 10 + (digit (n mod 10) - 48)) with n by (unfold digit; lia).
  by rewrite (proj2 (Z.leb_le n u64_max)).
Qed.

(** Printing a [u64] and parsing it back gives the number. *)
Lemma parse_digits_range (s : str) (acc n : Z) :
  0 ≤ acc ≤ u64_max → parse_digits acc s = Some n → 0 ≤ n ≤ u64_max.
Proof.
  revert acc. induction s as [|c s IH]; intros acc Hacc; cbn [parse_digits]; [by intros [= <-]|].
  destruct (is_ascii_digit c) eqn:Hc; [|done]. destruct (_ <=? _) eqn:E; [|done].
  apply IH. apply Z.leb_le in E. unfold is_ascii_digit, in_range in Hc. dk_bool. lia.
Qed.

Lemma parse_u64_range (s : str) (n : Z) : parse_u64 s = Some n → 0 ≤ n ≤ u64_max.
Proof.
  unfold parse_u64. destruct s as [|c s]; [done|]. destruct (c =? _); [destruct (is_empty s); [done|]|];
    apply parse_digits_range; by vm_compute.
Qed.

Lemma parse_u64_to_decimal (n : Z) : 0 ≤ n ≤ u64_max → parse_u64 (to_decimal n) = Some n.
Proof.
  intros Hn. pose proof (to_decimal_digits n (proj1 Hn)) as Hd.
  pose proof (to_decimal_not_nil n) as Hne. rewrite <- parse_to_decimal_digits by done.
  unfold parse_u64. destruct (to_decimal n) as [|c s]; [done|].
  inversion Hd as [|? ? Hc _]; subst. unfold is_ascii_digit, in_range in Hc.
  destruct (Z.eqb_spec c (ch "+")) as [->|]; [by vm_compute in Hc|done].
Qed.

(** *** UTF-8

    [str_ok]: the bytes form well-formed UTF-8 (no stray, missing or overlong
    sequence, no surrogate, nothing beyond U+10FFFF), which Rust guarantees of
    every [str] and [str::from_utf8] checks. *)

Definition is_continuation (b : Z) : bool := in_range 128 191 b.

Fixpoint utf8_from (fuel : nat) (s : str) : bool :=
  match fuel, s with
  | _, [] => true
  | O, _ :: _ => false
  | S fuel, b :: rest =>
      if in_range 0 127 b then utf8_from fuel rest
      else if in_range 194 223 b then
        match rest with c :: rest => is_continuation c && utf8_from fuel rest | _ => false end
      else if in_range 224 239 b then
        match rest with
        | c :: d :: rest =>
            is_continuation c && is_continuation d && ((225 <=? b) || (160 <=? c))
            && ((b <? 237) || (238 <=? b) || (c <=? 159)) && utf8_from fuel rest
        | _ => false
        end
      else if in_range 240 244 b then
        match rest with
        | c :: d :: e :: rest =>
            is_continuation c && is_continuation d && is_continuation e
            && ((241 <=? b) || (144 <=? c)) && ((b <? 244) || (c <=? 143)) && utf8_from fuel rest
        | _ => false
        end
      else false
  end.

Definition str_ok (s : str) : bool := utf8_from (length s) s.

Lemma char_indices_ascii (fuel : nat) (i : Z) (s : str) :
  (length s ≤ fuel)%nat → utf8_from fuel s = true →
  Forall (fun c => c < 128) (char_indices_from fuel i s).*2 →
  (char_indices_from fuel i s).*2 = s ∧ Forall (fun b => 0 ≤ b < 128) s.
Proof.
  revert i s. induction fuel as [|fuel IH]; intros i [|b s] Hlen Hok Hall; cbn in *;
    [done|lia|done|].
  unfold utf8_width, in_range, is_continuation, in_range in *. inversion Hall as [|? ? Hc Hall']; subst.
  destruct ((0 <=? b) && (b <=? 127)) eqn:E1; [dk_bool|exfalso].
  { rewrite (proj2 (Z.ltb_lt b 128)) in * by lia. cbn in *.
    destruct (IH (i + 1) s ltac:(lia) Hok Hall') as [Heq ?].
    split; [by f_equal|]. constructor; [lia|done]. }
  clear IH Hall Hall'.
  repeat match goal with
  | H : (if ?c then _ else _) = true |- _ => destruct c eqn:?
  | H : match ?l with [] => _ | _ :: _ => _ end = true |- _ => destruct l
  end; try done; dk_bool;
  repeat match type of Hc with context [if ?c then _ else _] => destruct c eqn:? end;
    cbn in Hc; rewrite ?take_0 in Hc; dk_bool; lia.
Qed.

(** A [str] whose characters are all ASCII is the list of them. *)
Lemma chars_ascii (s : str) :
  str_ok s = true → Forall (fun c => c < 128) (chars s) →
  chars s = s ∧ Forall (fun b => 0 ≤ b < 128) s.
Proof. intros Hok Hall. by apply char_indices_ascii. Qed.

Lemma char_indices_of_ascii (fuel : nat) (i : Z) (s : str) :
  (length s ≤ fuel)%nat → Forall (fun b => 0 ≤ b < 128) s →
  (char_indices_from fuel i s).*2 = s.
Proof.
  revert i s. induction fuel as [|fuel IH]; intros i [|b s] Hlen Hs; cbn in *; try done; [lia|].
  inversion Hs; subst. unfold utf8_width. rewrite (proj2 (Z.ltb_lt b 128)) by lia. cbn.
  f_equal. apply (IH (i + 1) s); [lia|done].
Qed.

Lemma chars_of_ascii (s : str) : Forall (fun b => 0 ≤ b < 128) s → chars s = s.
Proof. by apply char_indices_of_ascii. Qed.

(** *** Ordered maps

    [BTreeMap<String, V>]: the entries in the byte order of their keys. *)

Fixpoint str_compare (a b : str) : comparison :=
  match a, b with
  | [], [] => Eq
  | [], _ :: _ => Lt
  | _ :: _, [] => Gt
  | x :: a, y :: b => match x ?= y with Eq => str_compare a b | c => c end
  end.

Lemma str_compare_eq (a b : str) : str_compare a b = Eq ↔ a = b.
Proof.
  revert b. induction a as [|x a IH]; intros [|y b]; cbn; try done.
  destruct (Z.compare_spec x y) as [->| |]; [rewrite IH; split; congruence| |];
    split; (done || intros [= -> ->]; lia).
Qed.

Lemma str_compare_antisym (a b : str) : str_compare b a = CompOpp (str_compare a b).
Proof.
  revert b. induction a as [|x a IH]; intros [|y b]; cbn; try done.
  rewrite Z.compare_antisym. destruct (x ?= y); cbn; [apply IH|done|done].
Qed.

Lemma str_compare_trans (a b c : str) :
  str_compare a b = Lt → str_compare b c = Lt → str_compare a c = Lt.
Proof.
  revert b c. induction a as [|x a IH]; intros [|y b] [|z c]; cbn; try done.
  intros H1 H2.
  destruct (Z.compare_spec x y) as [Exy|Hxy|Hxy], (Z.compare_spec y z) as [Eyz|Hyz|Hyz];
    try done; subst; rewrite ?Z.compare_refl; [by eapply IH|..];
    by rewrite (proj2 (Z.compare_lt_iff _ _)) by lia.
Qed.

Section BTree.
Context {V : Type}.
Implicit Types (m : list (str * V)).

Fixpoint bt_get (k : str) m : option V :=
  match m with
  | [] => None
  | (k', v) :: m => if str_eqb k k' then Some v else bt_get k m
  end.

Fixpoint bt_insert (k : str) (v : V) m : list (str * V) :=
  match m with
  | [] => [(k, v)]
  | (k', v') :: m' =>
      match str_compare k k' with
      | Lt => (k, v) :: m
      | Eq => (k, v) :: m'
      | Gt => (k', v') :: bt_insert k v m'
      end
  end.

Definition bt_sorted m : Prop := StronglySorted (fun a b => str_compare a.1 b.1 = Lt) m.

Lemma bt_get_insert_eq (k : str) (v : V) m : bt_get k (bt_insert k v m) = Some v.
Proof.
  assert (str_eqb k k = true) as Hk by (by apply str_eqb_eq).
  induction m as [|[k' v'] m IH]; cbn; [by rewrite Hk|].
  destruct (str_compare k k') eqn:E; cbn; rewrite ?Hk; [done|done|].
  destruct (str_eqb k k') eqn:E'; [|done]. apply str_eqb_eq, str_compare_eq in E'. congruence.
Qed.

Lemma bt_get_insert_ne (k j : str) (v : V) m :
  j ≠ k → bt_get j (bt_insert k v m) = bt_get j m.
Proof.
  intros Hne. assert (str_eqb j k = false) as Hj by (by apply str_eqb_neq).
  induction m as [|[k' v'] m IH]; cbn; [by rewrite Hj|].
  destruct (str_compare k k') eqn:E; cbn; rewrite ?Hj; [|done|by rewrite IH].
  apply str_compare_eq in E as <-. by rewrite Hj.
Qed.

Lemma bt_insert_elem (k : str) (v : V) m e : e ∈ bt_insert k v m → e = (k, v) ∨ e ∈ m.
Proof.
  induction m as [|[k1 v1] m IH]; cbn; [set_solver|].
  destruct (str_compare k k1); rewrite ?elem_of_cons; tauto.
Qed.

Lemma bt_insert_sorted (k : str) (v : V) m : bt_sorted m → bt_sorted (bt_insert k v m).
Proof.
  unfold bt_sorted. induction 1 as [|[k' v'] m Hm IH Hx]; cbn; [repeat constructor|].
  destruct (str_compare k k') eqn:E.
  - apply str_compare_eq in E as ->. by constructor.
  - constructor; [by constructor|]. constructor; [done|].
    eapply Forall_impl; [|exact Hx]. intros a Ha; cbn in *. by eapply str_compare_trans.
  - constructor; [done|]. apply List.Forall_forall. intros e He.
    apply list_elem_of_In, bt_insert_elem in He as [->|He]; cbn.
    + by rewrite str_compare_antisym, E.
    + rewrite List.Forall_forall in Hx. by apply (Hx e), list_elem_of_In.
Qed.

Lemma bt_get_elem (k : str) (v : V) m : bt_sorted m → bt_get k m = Some v ↔ (k, v) ∈ m.
Proof.
  induction 1 as [|[k' v'] m Hm IH Hx]; cbn; [set_solver|].
  rewrite elem_of_cons, <- IH. destruct (str_eqb k k') eqn:E; dk_bool.
  - subst k'. split; [intros [= ->]; by left|]. intros [[= ->]|Hg]; [done|].
    apply IH, list_elem_of_In in Hg. rewrite List.Forall_forall in Hx. apply Hx in Hg. cbn in Hg.
    by rewrite (proj2 (str_compare_eq k k)) in Hg.
  - split; [by right|]. intros [[= -> ->]|?]; done.
Qed.

End BTree.
