(* ===== verification/TokenMeter.v ===== *)
(** * Token meters

    The meters of [crates/dekopon-model-token-governor/src/meter.rs]: a meter
    counts the tokens an agent spent under one of four rules (a fixed window,
    a rolling window of sixty buckets, a session window opened by the first
    charge, a credit bucket that refills) and says whether a call of a given
    size fits now, fits after a wait, or never fits. *)

From Stdlib Require Import ZArith Lia Ascii String.
From stdpp Require Import base gmap strings list sorting numbers.
From S2P Require Import Prelude.
From S2P Require Import RustStr.

(** ** Data *)

(** [Tokens] is a [u64] and [UnixMillis] an [i64], both as [Z]. *)
Definition Tokens_from_bytes (bytes : Z) : Z := div_ceil bytes 4.

(** The digits of a number in groups of three. *)
Fixpoint group_digits (count index : Z) (digits : str) : str :=
  match digits with
  | [] => []
  | d :: rest =>
      (if (0 <? index) && ((count - index) mod 3 =? 0) then [ch ","] else [])
      ++ d :: group_digits count (index + 1) rest
  end.

Definition grouped (value : Z) : str :=
  let digits := to_decimal (Z.abs value) in
  (if value <? 0 then [ch "-"] else []) ++ group_digits (len digits) 0 digits.

Definition millis (duration : Z) : Z :=
  let value := dur_as_millis duration in
  if i64_max <? value then i64_max else value.

Definition UnixMillis_saturating_sub (t duration : Z) : Z :=
  sat_sub_i64 t (millis duration).

Definition positive_millis (duration : Z) : Z :=
  let value := millis duration in if value <? 1 then 1 else value.

Definition wait (from until : Z) : Z :=
  dur_from_millis (unwrap_or (try_u64 (sat_sub_i64 until from)) 0).

Definition RESERVATION_WAIT : Z := dur_from_secs 60.

Inductive MeterSpec : Type :=
| SpecFixed (limit period : Z)
| SpecRolling (limit period : Z)
| SpecSession (limit length : Z)
| SpecCredit (capacity refill per initial : Z).

Inductive MeterKind : Type :=
| KindFixed (period : Z)
| KindRolling (period : Z)
| KindSession (length : Z)
| KindCredit.

Inductive Verdict : Type :=
| Allow
| Wait (d : Z)
| Never.

Record MeterStatus : Type := mkMeterStatus {
  status_limit : Z;
  status_used : Z;
  status_remaining : Z
}.

Inductive State : Type :=
| StateFixed (period window used : Z)
| StateRolling (period : Z) (buckets : list (Z * Z))
| StateSession (length : Z) (opened : option (Z * Z))
| StateCredit (capacity refill per scaled at_ : Z).

Record Meter : Type := mkMeter {
  spec : MeterSpec;
  state : State;
  last_seen : Z
}.

#[export] Instance MeterSpec_eq_dec : EqDecision MeterSpec.
Proof. solve_decision. Defined.
#[export] Instance MeterKind_eq_dec : EqDecision MeterKind.
Proof. solve_decision. Defined.
#[export] Instance Verdict_eq_dec : EqDecision Verdict.
Proof. solve_decision. Defined.

(** ** Operations *)

Definition spec_kind (s : MeterSpec) : MeterKind :=
  match s with
  | SpecFixed _ period => KindFixed period
  | SpecRolling _ period => KindRolling period
  | SpecSession _ length => KindSession length
  | SpecCredit _ _ _ _ => KindCredit
  end.

Definition spec_limit (s : MeterSpec) : Z :=
  match s with
  | SpecFixed limit _ | SpecRolling limit _ | SpecSession limit _ => limit
  | SpecCredit capacity _ _ _ => capacity
  end.

Definition rolling_bucket (period : Z) : Z :=
  dur_from_millis (Z.max (unwrap_or (try_u64 (Z.quot (positive_millis period) 60)) 1) 1).

Definition rolling_expiry (period : Z) : Z :=
  sat_add_i64 (positive_millis period) (positive_millis (rolling_bucket period)).

Definition spec_horizon (s : MeterSpec) (now : Z) : Z :=
  match s with
  | SpecFixed _ period =>
      let period := positive_millis period in
      wait (wrap_i64 (div_euclid now period * period)) now
  | SpecRolling _ period => dur_sat_add period (rolling_bucket period)
  | SpecSession _ length => dur_sat_mul length 2
  | SpecCredit capacity refill per _ =>
      let scaled := wrap_i128 (capacity * positive_millis per) in
      let ms := Z.quot scaled (Z.max refill 1) in
      dur_from_millis (unwrap_or (try_u64 ms) u64_max)
  end.

Definition credit_balance (scaled since now capacity refill per : Z) : Z :=
  let cap := wrap_i128 (capacity * per) in
  if cap <=? scaled then scaled
  else
    let accrued := wrap_i128 (Z.max (sat_sub_i64 now since) 0 * refill) in
    Z.min (sat_add_i128 scaled accrued) cap.

Definition Meter_new (s : MeterSpec) (since : Z) : Meter :=
  let st :=
    match s with
    | SpecFixed _ period => StateFixed (positive_millis period) i64_min 0
    | SpecRolling _ period => StateRolling period []
    | SpecSession _ length => StateSession (positive_millis length) None
    | SpecCredit capacity refill per initial =>
        let per := positive_millis per in
        StateCredit capacity refill per (wrap_i128 (initial * per)) since
    end in
  mkMeter s st since.

(** The closure [fits] of [Meter::verdict]. *)
Definition fits (limit asked used : Z) : bool := used + asked <=? limit.

(** The buckets of a rolling meter that have not expired at [now]. *)
Definition live_buckets (period now : Z) (buckets : list (Z * Z)) : list (Z * Z) :=
  List.filter (fun b => now <? wrap_i64 (b.1 + rolling_expiry period)) buckets.

(** The loop that drops live buckets from the oldest on until the call fits. *)
Fixpoint rolling_wait (limit asked now expiry used : Z) (live : list (Z * Z)) : Verdict :=
  match live with
  | [] => Wait RESERVATION_WAIT
  | (start, spent) :: live =>
      let used := sat_sub_u64 used spent in
      if fits limit asked used then Wait (wait now (wrap_i64 (start + expiry)))
      else rolling_wait limit asked now expiry used live
  end.

(** [Option::filter] on an open session. *)
Definition live_session (length now : Z) (opened : option (Z * Z)) : option (Z * Z) :=
  match opened with
  | Some (start, used) => if now <? wrap_i64 (start + length) then Some (start, used) else None
  | None => None
  end.

Definition Meter_verdict (m : Meter) (now held want : Z) : Verdict :=
  let now := Z.max now (last_seen m) in
  let limit := spec_limit (spec m) in
  if limit <? want then Never
  else
    let asked := held + want in
    match state m with
    | StateFixed period window used =>
        let current := wrap_i64 (div_euclid now period * period) in
        let used := if window =? current then used else 0 in
        if fits limit asked used then Allow
        else if fits limit asked 0 then Wait (wait now (sat_add_i64 current period))
        else Wait RESERVATION_WAIT
    | StateRolling period buckets =>
        let live := live_buckets period now buckets in
        let used := foldl (fun acc b => sat_add_u64 acc b.2) 0 live in
        if fits limit asked used then Allow
        else rolling_wait limit asked now (rolling_expiry period) used live
    | StateSession length opened =>
        match live_session length now opened with
        | Some (start, used) =>
            if fits limit asked used then Allow
            else if fits limit asked 0 then Wait (wait now (wrap_i64 (start + length)))
            else Wait RESERVATION_WAIT
        | None => if fits limit asked 0 then Allow else Wait RESERVATION_WAIT
        end
    | StateCredit capacity refill per scaled at_ =>
        let balance := credit_balance scaled at_ now capacity refill per in
        let need := sat_mul_i128 (if asked <=? i128_max then asked else i128_max) per in
        if need <=? balance then Allow
        else if refill =? 0 then Never
        else
          let ms := Z.quot (wrap_i128 (need - balance + refill - 1)) refill in
          Wait (dur_from_millis (unwrap_or (try_u64 ms) u64_max))
    end.

Definition Meter_check (m : Meter) (now want : Z) : Verdict := Meter_verdict m now 0 want.

(** [while buckets.front().is_some_and(expired) { buckets.pop_front() }]. *)
Fixpoint pop_expired (expiry at_ : Z) (buckets : list (Z * Z)) : list (Z * Z) :=
  match buckets with
  | [] => []
  | (start, spent) :: rest =>
      if wrap_i64 (start + expiry) <=? at_ then pop_expired expiry at_ rest else buckets
  end.

(** [match buckets.back_mut()]: add to the newest bucket or open another. *)
Fixpoint push_bucket (key spent : Z) (buckets : list (Z * Z)) : list (Z * Z) :=
  match buckets with
  | [] => [(key, spent)]
  | [(start, total)] =>
      if start =? key then [(start, sat_add_u64 total spent)]
      else [(start, total); (key, spent)]
  | b :: rest => b :: push_bucket key spent rest
  end.

Definition State_charge (st : State) (at_ spent : Z) : State :=
  match st with
  | StateFixed period window used =>
      let current := wrap_i64 (div_euclid at_ period * period) in
      let used := if negb (window =? current) then 0 else used in
      StateFixed period current (sat_add_u64 used spent)
  | StateRolling period buckets =>
      let expiry := rolling_expiry period in
      let width := positive_millis (rolling_bucket period) in
      let buckets := pop_expired expiry at_ buckets in
      let key := wrap_i64 (div_euclid at_ width * width) in
      StateRolling period (push_bucket key spent buckets)
  | StateSession length opened =>
      StateSession length
        (match live_session length at_ opened with
         | Some (start, used) => Some (start, sat_add_u64 used spent)
         | None => Some (at_, spent)
         end)
  | StateCredit capacity refill per scaled since =>
      StateCredit capacity refill per
        (wrap_i128 (credit_balance scaled since at_ capacity refill per - spent * per)) at_
  end.

Definition Meter_charge (m : Meter) (at_ spent : Z) : Meter :=
  let at_ := Z.max at_ (last_seen m) in
  if spent =? 0 then mkMeter (spec m) (state m) at_
  else mkMeter (spec m) (State_charge (state m) at_ spent) at_.

(** The [used] of [Meter::status], an [i128] before it is narrowed. *)
Definition State_used (st : State) (now : Z) : Z :=
  match st with
  | StateFixed period window used =>
      if window =? wrap_i64 (div_euclid now period * period) then used else 0
  | StateRolling period buckets =>
      foldr (fun b acc => b.2 + acc) 0 (live_buckets period now buckets)
  | StateSession length opened =>
      match live_session length now opened with Some (_, used) => used | None => 0 end
  | StateCredit capacity refill per scaled at_ =>
      capacity - div_euclid (credit_balance scaled at_ now capacity refill per) per
  end.

Definition Meter_used (m : Meter) (now : Z) : Z :=
  State_used (state m) (Z.max now (last_seen m)).

Definition Meter_status (m : Meter) (now : Z) : MeterStatus :=
  let limit := spec_limit (spec m) in
  let used := Meter_used m now in
  let remaining := limit - used in
  mkMeterStatus limit
    (unwrap_or (try_u64 (Z.max used 0)) u64_max)
    (unwrap_or (try_i64 remaining) (if remaining <? 0 then i64_min else i64_max)).

Definition Meter_horizon (m : Meter) (now : Z) : Z :=
  spec_horizon (spec m) (Z.max now (last_seen m)).

(** ** Well-formed meters

    [period_ok] is the range [crates/dekopon-gatewayd/src/metering.rs] accepts
    for a period (one minute to 366 days) and [time_ok] a clock reading from
    the Unix epoch to some 73 million years after it: inside these no bare
    operator of the meter wraps. *)

Definition time_ok (t : Z) : Prop := 0 ≤ t ≤ 2305843009213693952.
Definition period_ok (d : Z) : Prop := 60000000000 ≤ d ≤ 31622400000000000.

(** Charges beyond this total are outside the model of a credit balance. *)
Definition spend_bound : Z := 1208925819614629174706176.

Definition spec_ok (s : MeterSpec) : Prop :=
  match s with
  | SpecFixed limit period | SpecRolling limit period => 0 ≤ limit < u64_max ∧ period_ok period
  | SpecSession limit length => 0 ≤ limit < u64_max ∧ period_ok length
  | SpecCredit capacity refill per initial =>
      0 ≤ capacity < u64_max ∧ in_u64 refill ∧ period_ok per ∧ 0 ≤ initial ≤ capacity
  end.

Definition bucket_ok (last width : Z) (b : Z * Z) : Prop :=
  0 ≤ b.1 ≤ last / width * width ∧ in_u64 b.2.

Definition state_ok (s : MeterSpec) (st : State) (last : Z) : Prop :=
  match s, st with
  | SpecFixed _ period, StateFixed p window used =>
      p = positive_millis period ∧ in_u64 used ∧ (window ≤ last / p * p ∨ used = 0)
  | SpecRolling _ period, StateRolling p buckets =>
      p = period ∧
      Forall (bucket_ok last (positive_millis (rolling_bucket period))) buckets ∧
      StronglySorted (fun a b => a.1 < b.1) buckets
  | SpecSession _ length, StateSession l opened =>
      l = positive_millis length ∧
      match opened with Some (start, used) => 0 ≤ start ≤ last ∧ in_u64 used | None => True end
  | SpecCredit capacity refill per _, StateCredit c r p scaled since =>
      c = capacity ∧ r = refill ∧ p = positive_millis per ∧ 0 ≤ since ≤ last ∧
      - spend_bound * p ≤ scaled ≤ u64_max * p ∧ scaled ≤ c * p
  | _, _ => False
  end.

Definition Meter_ok (m : Meter) : Prop :=
  spec_ok (spec m) ∧ time_ok (last_seen m) ∧ state_ok (spec m) (state m) (last_seen m).

Ltac meter_bounds := unfold time_ok, period_ok, spend_bound, in_u64, in_i64, in_i128,
  u64_max, i64_max, i64_min, i128_max, i128_min in *.

Lemma positive_millis_ok (d : Z) :
  period_ok d → positive_millis d = d / 1000000 ∧ 60000 ≤ positive_millis d ≤ 31622400000.
Proof.
  intros Hd. unfold positive_millis, millis, dur_as_millis.
  assert (60000 ≤ d / 1000000 ≤ 31622400000) as Hb.
  { meter_bounds. split; [apply Z.div_le_lower_bound|apply Z.div_le_upper_bound]; lia. }
  destruct (Z.ltb_spec i64_max (d / 1000000)); [meter_bounds; lia|].
  destruct (Z.ltb_spec (d / 1000000) 1); [lia|]. auto.
Qed.

Lemma rolling_width_ok (d : Z) :
  period_ok d →
  let w := positive_millis (rolling_bucket d) in
  w = positive_millis d / 60 ∧ 1000 ≤ w ≤ 527040000
  ∧ rolling_expiry d = positive_millis d + w.
Proof.
  intros Hd. destruct (positive_millis_ok d Hd) as [_ Hpm]. cbv zeta.
  unfold rolling_expiry, rolling_bucket. set (pm := positive_millis d) in *.
  assert (1000 ≤ pm / 60 ≤ 527040000) as Hb.
  { split; [apply Z.div_le_lower_bound|apply Z.div_le_upper_bound]; lia. }
  rewrite Z.quot_div_nonneg by lia.
  assert (try_u64 (pm / 60) = Some (pm / 60)) as ->.
  { unfold try_u64. case_match eqn:E; [done|]. dk_bool. dk_arith. }
  simpl. rewrite Z.max_l by lia.
  assert (positive_millis (dur_from_millis (pm / 60)) = pm / 60) as ->.
  { unfold positive_millis, millis, dur_as_millis, dur_from_millis. rewrite Z.div_mul by lia.
    destruct (Z.ltb_spec i64_max (pm / 60)); [meter_bounds; lia|].
    by destruct (Z.ltb_spec (pm / 60) 1); [lia|]. }
  repeat split; try lia. dk_arith.
Qed.

Lemma window_start_ok (t p : Z) :
  time_ok t → 1 ≤ p ≤ 31622400000 →
  wrap_i64 (div_euclid t p * p) = t / p * p ∧ 0 ≤ t / p * p ≤ t.
Proof.
  intros Ht Hp. rewrite div_euclid_pos by lia. pose proof (floor_bounds t p ltac:(lia)).
  pose proof (floor_mono 0 t p ltac:(lia) ltac:(meter_bounds; lia)) as H0.
  rewrite Z.div_0_l, Z.mul_0_l in H0 by lia.
  split; [|lia]. apply wrap_i64_id. meter_bounds. lia.
Qed.

Lemma end_ok (start len : Z) :
  time_ok start → 0 ≤ len ≤ 64000000000 → wrap_i64 (start + len) = start + len.
Proof. intros. apply wrap_i64_id. meter_bounds. lia. Qed.

Lemma credit_balance_ok (scaled since now capacity refill per : Z) :
  in_u64 capacity → in_u64 refill → 60000 ≤ per ≤ 31622400000 →
  0 ≤ since ≤ now → time_ok now → - spend_bound * per ≤ scaled ≤ u64_max * per →
  credit_balance scaled since now capacity refill per
  = if capacity * per <=? scaled then scaled
    else Z.min (scaled + (now - since) * refill) (capacity * per).
Proof.
  intros Hc Hr Hp Hs Hn Hsc. unfold credit_balance.
  pose proof (mul_bounds capacity per _ _ Hc (conj (Z.le_trans 0 60000 per ltac:(lia) (proj1 Hp)) (proj2 Hp))).
  pose proof (mul_bounds (now - since) refill 2305843009213693952 u64_max
                ltac:(meter_bounds; lia) Hr).
  assert (- spend_bound * 31622400000 ≤ - spend_bound * per) by (meter_bounds; lia).
  assert (u64_max * per ≤ u64_max * 31622400000) by (meter_bounds; lia).
  rewrite wrap_i128_id by (meter_bounds; lia). cbv zeta.
  destruct (Z.leb_spec (capacity * per) scaled); [done|].
  assert (Z.max (sat_sub_i64 now since) 0 = now - since) as -> by (meter_bounds; dk_arith).
  rewrite wrap_i128_id by (meter_bounds; lia).
  f_equal. unfold sat_add_i128, clamp. meter_bounds. lia.
Qed.

(** ** What a meter counts *)

Lemma time_ok_max (a b : Z) : time_ok a → time_ok b → time_ok (Z.max a b).
Proof. meter_bounds. lia. Qed.
#[export] Hint Resolve time_ok_max : dk.

Lemma bucket_time_ok (last width : Z) (b : Z * Z) :
  time_ok last → 1 ≤ width → bucket_ok last width b → time_ok b.1.
Proof.
  intros Hl Hw [Hb _]. pose proof (floor_bounds last width ltac:(lia)).
  unfold time_ok in *. lia.
Qed.

Lemma live_buckets_ok (period now last : Z) (buckets : list (Z * Z)) :
  period_ok period → time_ok last →
  Forall (bucket_ok last (positive_millis (rolling_bucket period))) buckets →
  live_buckets period now buckets
  = List.filter (fun b => now <? b.1 + rolling_expiry period) buckets.
Proof.
  intros Hp Hl Hb. destruct (rolling_width_ok period Hp) as (_ & Hw & He).
  destruct (positive_millis_ok period Hp) as [_ Hpm].
  unfold live_buckets. induction Hb as [|b bs Hb Hbs IH]; [done|]. simpl.
  rewrite IH, end_ok; [done| |lia].
  eapply bucket_time_ok; [done| |done]. lia.
Qed.

Lemma live_session_ok (length now last : Z) (opened : option (Z * Z)) :
  1 ≤ length ≤ 31622400000 → time_ok last →
  match opened with Some (start, used) => 0 ≤ start ≤ last ∧ in_u64 used | None => True end →
  live_session length now opened
  = match opened with
    | Some (start, used) => if now <? start + length then Some (start, used) else None
    | None => None
    end.
Proof.
  intros Hlen Hl Ho. destruct opened as [[start used]|]; [|done]. simpl.
  rewrite end_ok; [done| |lia]. unfold time_ok in *. lia.
Qed.

Lemma rolling_wait_not_allow (limit asked now expiry used : Z) (live : list (Z * Z)) :
  rolling_wait limit asked now expiry used live ≠ Allow.
Proof.
  revert used. induction live as [|[s sp] live IH]; intros used; simpl; [done|].
  by case_match.
Qed.

Lemma live_buckets_nonneg (period now last width : Z) (buckets : list (Z * Z)) :
  Forall (bucket_ok last width) buckets →
  Forall (fun b : Z * Z => 0 ≤ b.2) (live_buckets period now buckets).
Proof.
  intros H. apply Forall_filter_bool. eapply Forall_impl; [|exact H].
  intros b [_ [? ?]]. done.
Qed.

Lemma rolling_verdict_used (limit asked : Z) (live : list (Z * Z)) :
  limit < u64_max → 0 ≤ asked → Forall (fun b : Z * Z => 0 ≤ b.2) live →
  fits limit asked (foldl (fun acc b => sat_add_u64 acc b.2) 0 live) = true
  ↔ foldr (fun b acc => b.2 + acc) 0 live + asked ≤ limit.
Proof.
  intros Hl Ha Hn. rewrite (foldl_sat_add_sum snd) by (auto; lia).
  unfold fits. rewrite Z.leb_le. destruct live as [|b live]; simpl; [done|].
  unfold u64_max in *. lia.
Qed.

Lemma credit_allow (balance asked per capacity : Z) :
  0 < per →
  asked * per ≤ balance ↔ capacity - div_euclid balance per + asked ≤ capacity.
Proof.
  intros Hp. rewrite div_euclid_pos by done. split; intros H.
  - assert (asked ≤ balance / per); [|lia]. apply Z.div_le_lower_bound; lia.
  - pose proof (floor_bounds balance per Hp). nia.
Qed.

Lemma credit_need (asked per : Z) :
  0 ≤ asked ≤ 2 * u64_max → 60000 ≤ per ≤ 31622400000 →
  sat_mul_i128 (if asked <=? i128_max then asked else i128_max) per = asked * per.
Proof.
  intros Ha Hp. destruct (Z.leb_spec asked i128_max); [|meter_bounds; lia].
  pose proof (mul_bounds asked per (2 * u64_max) 31622400000 ltac:(lia) ltac:(lia)).
  unfold sat_mul_i128, clamp. meter_bounds. lia.
Qed.

(** A verdict of [Allow] is exactly that the call is no larger than the limit
    and that what is counted, what is held and what is wanted fit together. *)
Lemma verdict_allow (m : Meter) (now held want : Z) :
  Meter_ok m → time_ok now → in_u64 held → in_u64 want →
  Meter_verdict m now held want = Allow
  ↔ want ≤ spec_limit (spec m) ∧ Meter_used m now + held + want ≤ spec_limit (spec m).
Proof.
  destruct m as [s st last]. intros (Hs & Hl & Hst) Hn Hh Hw. cbn in *.
  unfold Meter_verdict, Meter_used, State_used; cbn. set (now' := Z.max now last).
  assert (time_ok now') as Hn' by (subst now'; auto with dk).
  destruct (Z.ltb_spec (spec_limit s) want) as [?|Hlim]; [split; [done|lia]|].
  destruct s as [limit period|limit period|limit len|cap refill per initial],
    st as [p window used|p buckets|l opened|c r p scaled since]; try done; cbn in *.
  - destruct (window =? _) eqn:E; unfold fits; repeat case_match; dk_bool;
      split; intros; try done; lia.
  - destruct Hst as (-> & Hb & _). destruct Hs as [? Hp].
    pose proof (rolling_verdict_used limit (held + want) (live_buckets period now' buckets)
      ltac:(lia) ltac:(unfold in_u64 in *; lia) (live_buckets_nonneg _ _ _ _ _ Hb)) as Hv.
    destruct (fits _ _ _).
    + split; [|done]. intros _. split; [done|]. pose proof (proj1 Hv eq_refl). lia.
    + split; [intros []%rolling_wait_not_allow|]. intros [_ Hle].
      assert (false = true); [apply Hv; lia|done].
  - destruct (live_session l now' opened) as [[start u]|]; unfold fits; repeat case_match;
      dk_bool; split; intros; try done; lia.
  - destruct Hst as (-> & -> & -> & Hsince & Hsc & Hcap). destruct Hs as (Hc & Hr & Hper & _).
    destruct (positive_millis_ok per Hper) as [_ Hpm].
    rewrite credit_need by (unfold in_u64 in *; lia).
    pose proof (credit_allow (credit_balance scaled since now' cap refill (positive_millis per))
      (held + want) (positive_millis per) cap ltac:(lia)) as Hiff.
    destruct (Z.leb_spec ((held + want) * positive_millis per)
      (credit_balance scaled since now' cap refill (positive_millis per))) as [Hle|Hgt].
    + split; [|done]. intros _. apply Hiff in Hle. lia.
    + split; [destruct (refill =? 0); done|]. intros [_ Hle].
      assert ((held + want) * positive_millis per
        ≤ credit_balance scaled since now' cap refill (positive_millis per)); [apply Hiff; lia|lia].
Qed.

Ltac split_state :=
  match goal with
  | H : state_ok ?s ?st _ |- _ =>
      is_var st;
      destruct s as [limit period|limit period|limit len|cap refill per initial],
        st as [p window used|p buckets|l opened|c r p scaled since];
      cbn [state_ok spec_ok State_used State_charge spec_limit] in *; try contradiction
  end.

(** Time only frees budget: what is counted never grows with the clock. *)
Lemma state_used_mono (s : MeterSpec) (st : State) (last now now' : Z) :
  spec_ok s → state_ok s st last → time_ok last → time_ok now' →
  last ≤ now ≤ now' → State_used st now' ≤ State_used st now.
Proof.
  intros Hs Hst Hl Hn' Hle. assert (time_ok now) by (unfold time_ok in *; lia).
  split_state.
  - destruct Hst as (-> & Hu & Hw). destruct Hs as [_ Hp].
    destruct (positive_millis_ok period Hp) as [_ Hpm]. set (P := positive_millis period) in *.
    destruct (window_start_ok now P) as [-> _]; [done|lia|].
    destruct (window_start_ok now' P) as [-> _]; [done|lia|].
    pose proof (floor_mono last now P ltac:(lia) ltac:(lia)).
    pose proof (floor_mono now now' P ltac:(lia) ltac:(lia)).
    unfold in_u64 in *. repeat case_match; dk_bool; lia.
  - destruct Hst as (-> & Hb & _). apply sum_filter_mono.
    eapply Forall_impl; [|exact Hb]. intros b [_ [? ?]]. split; [done|]. dk_bool. lia.
  - destruct Hst as (-> & Ho). destruct (positive_millis_ok len (proj2 Hs)) as [_ Hpm].
    rewrite !(live_session_ok _ _ last) by (auto; lia).
    destruct opened as [[start u]|]; [|done]. unfold in_u64 in *.
    repeat case_match; dk_bool; simplify_eq; lia.
  - destruct Hst as (-> & -> & -> & Hsince & Hsc & Hcap). destruct Hs as (Hc & Hr & Hper & _).
    destruct (positive_millis_ok per Hper) as [_ Hpm]. set (P := positive_millis per) in *.
    rewrite !div_euclid_pos, !credit_balance_ok by (unfold in_u64 in *; auto; lia).
    apply Z.sub_le_mono_l. apply Z.div_le_mono; [lia|].
    destruct (Z.leb_spec (cap * P) scaled); [lia|].
    apply Z.min_le_compat_r. unfold in_u64 in *. nia.
Qed.

(** *** Rolling buckets *)

Lemma pop_expired_live (expiry at_ : Z) (f : Z → bool) (buckets : list (Z * Z)) :
  Forall (fun b : Z * Z => wrap_i64 (b.1 + expiry) ≤ at_ → f b.1 = false) buckets →
  List.filter (fun b => f b.1) (pop_expired expiry at_ buckets)
  = List.filter (fun b => f b.1) buckets.
Proof.
  induction 1 as [|[start sp] bs Hb Hbs IH]; simpl; [done|].
  destruct (Z.leb_spec (wrap_i64 (start + expiry)) at_) as [Hle|]; [|done].
  by rewrite (Hb Hle : f start = false).
Qed.

Lemma pop_expired_Forall (expiry at_ : Z) (P : Z * Z → Prop) (buckets : list (Z * Z)) :
  Forall P buckets → Forall P (pop_expired expiry at_ buckets).
Proof.
  induction 1 as [|[start sp] bs Hb Hbs IH]; simpl; [done|]. case_match; auto.
Qed.

Lemma pop_expired_sorted (expiry at_ : Z) (R : Z * Z → Z * Z → Prop) (buckets : list (Z * Z)) :
  StronglySorted R buckets → StronglySorted R (pop_expired expiry at_ buckets).
Proof.
  induction 1 as [|[start sp] bs Hbs IH Hb]; simpl; [constructor|].
  case_match; [done|]. by constructor.
Qed.

Lemma push_bucket_cons (key spent : Z) (b : Z * Z) (bs : list (Z * Z)) :
  bs ≠ [] → push_bucket key spent (b :: bs) = b :: push_bucket key spent bs.
Proof. destruct b, bs; done. Qed.

Lemma push_bucket_Forall (key spent : Z) (P : Z * Z → Prop) (buckets : list (Z * Z)) :
  P (key, spent) → (∀ t, P (key, t) → P (key, sat_add_u64 t spent)) →
  Forall P buckets → Forall P (push_bucket key spent buckets).
Proof.
  intros Hnew Hadd. induction 1 as [|[start t] bs Hb Hbs IH]; [by repeat constructor|].
  destruct bs as [|b' bs]; [|rewrite push_bucket_cons by done; by constructor].
  simpl. destruct (Z.eqb_spec start key) as [->|]; repeat constructor; auto.
Qed.

Lemma push_bucket_sorted (key spent : Z) (buckets : list (Z * Z)) :
  Forall (fun b : Z * Z => b.1 ≤ key) buckets →
  StronglySorted (fun a b : Z * Z => a.1 < b.1) buckets →
  StronglySorted (fun a b : Z * Z => a.1 < b.1) (push_bucket key spent buckets).
Proof.
  intros Hk. induction 1 as [|[start t] bs Hbs IH Hb]; [by repeat constructor|].
  inversion Hk as [|? ? Hstart Hks]; subst. cbn in Hstart.
  destruct bs as [|b' bs].
  - simpl. destruct (Z.eqb_spec start key); repeat constructor; cbn; lia.
  - rewrite push_bucket_cons by done. constructor; [auto|].
    apply push_bucket_Forall; [|done|done]. cbn.
    inversion Hb; inversion Hks; subst. cbn in *. lia.
Qed.

Lemma push_bucket_sum (key spent : Z) (f : Z → bool) (buckets : list (Z * Z)) :
  0 ≤ spent → Forall (fun b : Z * Z => 0 ≤ b.2) buckets →
  foldr (fun b acc => b.2 + acc) 0 (List.filter (fun b => f b.1) (push_bucket key spent buckets))
  ≤ foldr (fun b acc => b.2 + acc) 0 (List.filter (fun b => f b.1) buckets) + spent.
Proof.
  intros Hs. induction 1 as [|[start t] bs Hb Hbs IH]; simpl; [case_match; simpl; lia|].
  destruct bs as [|b' bs].
  - destruct (Z.eqb_spec start key) as [->|]; simpl; repeat case_match; simpl in *;
      unfold sat_add_u64; lia.
  - cbn [List.filter fst]. destruct (f start); simpl in *; lia.
Qed.

Lemma push_bucket_sum_eq (key spent : Z) (f : Z → bool) (buckets : list (Z * Z)) :
  f key = true → 0 ≤ spent → Forall (fun b : Z * Z => in_u64 b.2) buckets →
  foldr (fun b acc => b.2 + acc) 0 (List.filter (fun b => f b.1) buckets) + spent ≤ u64_max →
  foldr (fun b acc => b.2 + acc) 0 (List.filter (fun b => f b.1) (push_bucket key spent buckets))
  = foldr (fun b acc => b.2 + acc) 0 (List.filter (fun b => f b.1) buckets) + spent.
Proof.
  intros Hf Hs. induction 1 as [|[start t] bs Hb Hbs IH]; simpl.
  { intros _. rewrite Hf. simpl. lia. }
  destruct bs as [|b' bs].
  - destruct (Z.eqb_spec start key) as [->|]; simpl; rewrite ?Hf; simpl;
      repeat case_match; simpl in *; unfold sat_add_u64; lia.
  - cbn [List.filter fst]. unfold in_u64 in Hb. destruct (f start); simpl in *; lia.
Qed.

(** *** Charging *)

Lemma state_ok_later (s : MeterSpec) (st : State) (last last' : Z) :
  spec_ok s → state_ok s st last → last ≤ last' → state_ok s st last'.
Proof.
  intros Hs Hst Hle. split_state.
  - destruct Hst as (-> & Hu & Hw). destruct (positive_millis_ok period (proj2 Hs)) as [_ Hpm].
    pose proof (floor_mono last last' (positive_millis period) ltac:(lia) Hle).
    split; [done|]. split; [done|]. lia.
  - destruct Hst as (-> & Hb & Hsort). split; [done|]. split; [|done].
    destruct (rolling_width_ok period (proj2 Hs)) as (_ & Hw & _).
    pose proof (floor_mono last last' (positive_millis (rolling_bucket period)) ltac:(lia) Hle).
    eapply Forall_impl; [|exact Hb]. intros b [? ?]. split; [lia|done].
  - destruct Hst as (-> & Ho). split; [done|]. destruct opened as [[? ?]|]; [|done].
    destruct Ho. split; [lia|done].
  - destruct Hst as (-> & -> & -> & ? & ? & ?). repeat split; lia.
Qed.

(** Charging a credit bucket does not wrap while the total spent is bounded. *)
Lemma credit_charge_ok (scaled since at_ cap refill P spent : Z) :
  0 ≤ cap < u64_max → in_u64 refill → 60000 ≤ P ≤ 31622400000 → 0 ≤ since ≤ at_ → time_ok at_ →
  - spend_bound * P ≤ scaled ≤ u64_max * P → in_u64 spent →
  cap - div_euclid (credit_balance scaled since at_ cap refill P) P + spent ≤ spend_bound →
  let scaled' := credit_balance scaled since at_ cap refill P - spent * P in
  wrap_i128 scaled' = scaled' ∧ - spend_bound * P ≤ scaled' ≤ u64_max * P
  ∧ (scaled ≤ cap * P → scaled' ≤ cap * P).
Proof.
  intros Hc Hr HP Hsince Ha Hsc Hsp Hbound. cbv zeta.
  rewrite div_euclid_pos, credit_balance_ok in Hbound by (unfold in_u64 in *; auto; lia).
  rewrite credit_balance_ok by (unfold in_u64 in *; auto; lia).
  set (B := if _ <=? scaled then _ else _) in *.
  assert (B ≤ u64_max * P) as HB.
  { subst B. case_match; [lia|]. unfold u64_max in *. nia. }
  pose proof (floor_bounds B P ltac:(lia)).
  pose proof (mul_bounds spent P u64_max 31622400000 Hsp ltac:(lia)).
  assert (- spend_bound * P ≤ B - spent * P) by nia.
  assert (- spend_bound * 31622400000 ≤ - spend_bound * P) by (meter_bounds; lia).
  assert (u64_max * P ≤ u64_max * 31622400000) by (meter_bounds; lia).
  split; [apply wrap_i128_id; meter_bounds; lia|]. split; [lia|]. intros Hcap.
  assert (B ≤ cap * P); [subst B; case_match; lia|lia].
Qed.

Lemma state_charge_ok (s : MeterSpec) (st : State) (last at_ spent : Z) :
  spec_ok s → state_ok s st last → time_ok last → time_ok at_ → last ≤ at_ →
  in_u64 spent → State_used st at_ + spent ≤ spend_bound →
  state_ok s (State_charge st at_ spent) at_.
Proof.
  intros Hs Hst Hl Ha Hle Hsp Hbound. split_state.
  - destruct Hst as (-> & Hu & Hw). destruct (positive_millis_ok period (proj2 Hs)) as [_ Hpm].
    destruct (window_start_ok at_ (positive_millis period)) as [-> _]; [done|lia|].
    unfold sat_add_u64, in_u64, u64_max in *. clear Hbound. repeat split; [..|left; lia];
      destruct (negb _); lia.
  - destruct Hst as (-> & Hb & Hsort). destruct (rolling_width_ok period (proj2 Hs)) as (_ & Hw & _).
    destruct (window_start_ok at_ (positive_millis (rolling_bucket period))) as [-> ?]; [done|lia|].
    pose proof (floor_mono last at_ (positive_millis (rolling_bucket period)) ltac:(lia) Hle).
    set (W := positive_millis (rolling_bucket period)) in *.
    assert (Forall (bucket_ok at_ W) (pop_expired (rolling_expiry period) at_ buckets)) as Hb'.
    { apply pop_expired_Forall. eapply Forall_impl; [|exact Hb].
      intros b [? ?]. split; [lia|done]. }
    split; [done|]. split.
    + apply push_bucket_Forall; [| |done]; unfold bucket_ok; cbn; [split; [lia|done]|].
      intros t [? Ht]. split; [lia|]. unfold sat_add_u64, in_u64, u64_max in *. lia.
    + apply push_bucket_sorted; [|by apply pop_expired_sorted].
      eapply Forall_impl; [|exact Hb']. intros b [? ?]. lia.
  - destruct Hst as (-> & Ho). split; [done|].
    destruct (positive_millis_ok len (proj2 Hs)) as [_ Hpm].
    rewrite (live_session_ok _ _ last) by (auto; lia).
    unfold time_ok, sat_add_u64, in_u64, u64_max in *. clear Hbound.
    destruct opened as [[start u]|]; [destruct (at_ <? _)|]; lia.
  - destruct Hst as (-> & -> & -> & Hsince & Hsc & Hcap). destruct Hs as (Hc & Hr & Hper & _).
    destruct (positive_millis_ok per Hper) as [_ Hpm]. set (P := positive_millis per) in *.
    destruct (credit_charge_ok scaled since at_ cap refill P spent) as (Hwrap & Hsc' & Hcap');
      [done || lia..|]. cbv zeta in Hwrap. rewrite Hwrap.
    unfold time_ok in *. specialize (Hcap' Hcap). repeat split; lia.
Qed.

Lemma credit_charge_balance (scaled since at_ now capacity refill P spent : Z) :
  0 < P → 0 ≤ refill → 0 ≤ spent → since ≤ at_ ≤ now →
  let bal t := if capacity * P <=? scaled then scaled
               else Z.min (scaled + (t - since) * refill) (capacity * P) in
  let scaled' := bal at_ - spent * P in
  bal now - spent * P
  ≤ if capacity * P <=? scaled' then scaled'
    else Z.min (scaled' + (now - at_) * refill) (capacity * P).
Proof.
  intros HP Hr Hs Ht. cbv zeta. assert (0 ≤ spent * P) by nia.
  assert (0 ≤ (now - at_) * refill) by nia.
  assert ((now - since) * refill = (at_ - since) * refill + (now - at_) * refill) by nia.
  repeat case_match; dk_bool; lia.
Qed.

(** The buckets a charge drops are expired at every later time. *)
Lemma rolling_pop_live (period last at_ now : Z) (buckets : list (Z * Z)) :
  period_ok period → time_ok last → at_ ≤ now →
  Forall (bucket_ok last (positive_millis (rolling_bucket period))) buckets →
  List.filter (fun b => now <? b.1 + rolling_expiry period)
    (pop_expired (rolling_expiry period) at_ buckets)
  = live_buckets period now buckets.
Proof.
  intros Hp Hl Hle Hb. rewrite (live_buckets_ok _ _ last) by done.
  destruct (rolling_width_ok period Hp) as (_ & Hw & He).
  destruct (positive_millis_ok period Hp) as [_ Hpm].
  apply (pop_expired_live _ _ (fun t => now <? t + rolling_expiry period)).
  eapply Forall_impl; [|exact Hb]. intros b Hbk.
  assert (time_ok b.1) by (eapply bucket_time_ok; [done| |done]; lia).
  rewrite end_ok by (done || lia). intros. apply Z.ltb_ge. lia.
Qed.

Lemma credit_charge_used (scaled since at_ now cap refill P spent : Z) :
  0 ≤ cap < u64_max → in_u64 refill → 60000 ≤ P ≤ 31622400000 →
  0 ≤ since ≤ at_ → at_ ≤ now → time_ok at_ → time_ok now →
  - spend_bound * P ≤ scaled ≤ u64_max * P → in_u64 spent →
  cap - div_euclid (credit_balance scaled since at_ cap refill P) P + spent ≤ spend_bound →
  cap - div_euclid (credit_balance (wrap_i128 (credit_balance scaled since at_ cap refill P
                                               - spent * P)) at_ now cap refill P) P
  ≤ cap - div_euclid (credit_balance scaled since now cap refill P) P + spent.
Proof.
  intros Hc Hr HP Hsince Hle Ha Hn Hsc Hsp Hbound.
  destruct (credit_charge_ok scaled since at_ cap refill P spent) as (-> & Hsc' & _); [done || lia..|].
  assert (in_u64 cap) by (unfold in_u64; lia).
  rewrite !div_euclid_pos by lia.
  rewrite (credit_balance_ok (_ - _)) by (done || unfold time_ok in *; lia).
  rewrite !(credit_balance_ok scaled) by (done || lia).
  pose proof (credit_charge_balance scaled since at_ now cap refill P spent
    ltac:(lia) (proj1 Hr) (proj1 Hsp) ltac:(lia)) as Hbal.
  apply (Z.div_le_mono _ _ P ltac:(lia)) in Hbal.
  rewrite div_sub_mul in Hbal by lia. lia.
Qed.

Lemma state_charge_used (s : MeterSpec) (st : State) (last at_ now spent : Z) :
  spec_ok s → state_ok s st last → time_ok last → time_ok at_ → time_ok now →
  last ≤ at_ ≤ now → in_u64 spent → State_used st at_ + spent ≤ spend_bound →
  State_used (State_charge st at_ spent) now ≤ State_used st now + spent.
Proof.
  intros Hs Hst Hl Ha Hn Hle Hsp Hbound.
  pose proof (state_charge_ok s st last at_ spent Hs Hst Hl Ha ltac:(lia) Hsp Hbound) as Hok.
  split_state.
  - destruct Hst as (-> & Hu & Hw). destruct (positive_millis_ok period (proj2 Hs)) as [_ Hpm].
    destruct (window_start_ok at_ (positive_millis period)) as [-> _]; [done|lia|].
    destruct (window_start_ok now (positive_millis period)) as [-> _]; [done|lia|].
    clear Hok Hbound. unfold sat_add_u64, in_u64, u64_max in *.
    destruct (Z.eqb_spec window (at_ / positive_millis period * positive_millis period));
      destruct (Z.eqb_spec (at_ / positive_millis period * positive_millis period)
                           (now / positive_millis period * positive_millis period));
      cbn [negb]; destruct (Z.eqb_spec window (now / positive_millis period * positive_millis period));
      lia.
  - destruct Hst as (-> & Hb & Hsort). destruct Hok as (_ & Hb' & _).
    destruct (rolling_width_ok period (proj2 Hs)) as (_ & Hw & He).
    destruct (positive_millis_ok period (proj2 Hs)) as [_ Hpm].
    rewrite (live_buckets_ok _ _ at_) by (done || apply Hs).
    rewrite <- (rolling_pop_live period last at_ now) by (done || lia || apply Hs).
    apply (push_bucket_sum _ _ (fun t => now <? t + rolling_expiry period)).
    { unfold in_u64 in *. lia. }
    apply pop_expired_Forall. eapply Forall_impl; [|exact Hb]. by intros b [_ [? ?]].
  - destruct Hst as (-> & Ho). destruct (positive_millis_ok len (proj2 Hs)) as [_ Hpm].
    clear Hok Hbound. set (L := positive_millis len) in *.
    unfold time_ok, in_u64, u64_max in *.
    destruct opened as [[start u]|]; cbn [live_session];
      [rewrite (end_ok start) by (unfold time_ok; lia); destruct (Z.ltb_spec at_ (start + L))|];
      cbn [live_session]; rewrite ?end_ok by (unfold time_ok; lia);
      repeat case_match; simplify_eq; dk_bool; dk_arith.
  - destruct Hst as (-> & -> & -> & Hsince & Hsc & Hcap). destruct Hs as (Hc & Hr & Hper & _).
    destruct (positive_millis_ok per Hper) as [_ Hpm]. set (P := positive_millis per) in *.
    apply credit_charge_used; done || lia.
Qed.

(** A charge is counted in full at the time it is made. *)
Lemma state_charge_exact (s : MeterSpec) (st : State) (last at_ spent : Z) :
  spec_ok s → state_ok s st last → time_ok last → time_ok at_ → last ≤ at_ →
  in_u64 spent → State_used st at_ + spent ≤ u64_max →
  State_used (State_charge st at_ spent) at_ = State_used st at_ + spent.
Proof.
  intros Hs Hst Hl Ha Hle Hsp Hbound.
  pose proof (state_charge_ok s st last at_ spent Hs Hst Hl Ha ltac:(lia) Hsp
    ltac:(meter_bounds; lia)) as Hok.
  split_state.
  - destruct (Z.eqb_spec window (wrap_i64 (div_euclid at_ p * p))); cbn [negb];
      rewrite Z.eqb_refl; unfold sat_add_u64, in_u64, u64_max in *; lia.
  - destruct Hst as (-> & Hb & Hsort). destruct Hok as (_ & Hb' & _).
    rewrite (live_buckets_ok _ _ at_) by (done || apply Hs).
    rewrite <- (rolling_pop_live period last at_ at_) in * by (done || lia || apply Hs).
    apply (push_bucket_sum_eq _ _ (fun t => at_ <? t + rolling_expiry period));
      [|by destruct Hsp| |done].
    + destruct (rolling_width_ok period (proj2 Hs)) as (_ & Hw & He).
      destruct (positive_millis_ok period (proj2 Hs)) as [_ Hpm].
      destruct (window_start_ok at_ (positive_millis (rolling_bucket period))) as [-> ?];
        [done|lia|]. pose proof (floor_bounds at_ (positive_millis (rolling_bucket period)) ltac:(lia)).
      apply Z.ltb_lt. lia.
    + apply pop_expired_Forall. eapply Forall_impl; [|exact Hb]. by intros b [_ ?].
  - destruct Hst as (-> & Ho). destruct (positive_millis_ok len (proj2 Hs)) as [_ Hpm].
    clear Hok. set (L := positive_millis len) in *. unfold time_ok, in_u64, u64_max in *.
    destruct opened as [[start u]|]; cbn [live_session] in *;
      [rewrite (end_ok start) in * by (unfold time_ok; lia); destruct (Z.ltb_spec at_ (start + L))|];
      cbn [live_session]; rewrite end_ok by (unfold time_ok; lia);
      rewrite (proj2 (Z.ltb_lt _ _)) by lia; dk_arith.
  - destruct Hst as (-> & -> & -> & Hsince & Hsc & Hcap). destruct Hs as (Hc & Hr & Hper & _).
    destruct (positive_millis_ok per Hper) as [_ Hpm]. set (P := positive_millis per) in *.
    destruct (credit_charge_ok scaled since at_ cap refill P spent) as (-> & Hsc' & _);
      [done || meter_bounds; lia..|].
    assert (in_u64 cap) by (unfold in_u64; lia).
    rewrite !div_euclid_pos in * by lia.
    rewrite (credit_balance_ok (_ - _)) by (done || unfold time_ok in *; lia).
    rewrite Z.sub_diag, Z.mul_0_l, Z.add_0_r.
    set (B := credit_balance _ _ _ _ _ _) in *.
    assert ((if cap * P <=? B - spent * P then B - spent * P else Z.min (B - spent * P) (cap * P))
            = B - spent * P) as -> by (destruct (Z.leb_spec (cap * P) (B - spent * P)); lia).
    rewrite div_sub_mul by lia. lia.
Qed.

(** ** The wait a verdict names *)

Lemma wait_millis (from until : Z) :
  time_ok from → from ≤ until ≤ i64_max → dur_as_millis (wait from until) = until - from.
Proof.
  intros Hf Hu. unfold wait, dur_as_millis, dur_from_millis. rewrite Z.div_mul by lia.
  unfold try_u64. rewrite (proj2 (Z.leb_le _ _)), (proj2 (Z.leb_le _ _));
    unfold time_ok in *; simpl; dk_arith.
Qed.

Lemma sum_filter_le {A : Type} (f : A → Z) (p : A → bool) (l : list A) :
  Forall (fun x => 0 ≤ f x) l →
  foldr (fun x s => f x + s) 0 (List.filter p l) ≤ foldr (fun x s => f x + s) 0 l.
Proof. induction 1 as [|x l Hx Hl IH]; simpl; [done|]. destruct (p x); simpl; lia. Qed.

Lemma filter_all {A : Type} (p : A → bool) (l : list A) :
  Forall (fun x => p x = true) l → List.filter p l = l.
Proof. induction 1 as [|x l Hx Hl IH]; simpl; [done|]. by rewrite Hx, IH. Qed.

Lemma rolling_wait_exact (limit asked now expiry : Z) (live : list (Z * Z)) :
  asked ≤ limit → time_ok now → 0 ≤ expiry ≤ 64000000000 →
  Forall (fun b : Z * Z => time_ok b.1 ∧ 0 ≤ b.2 ∧ now < b.1 + expiry) live →
  StronglySorted (fun a b : Z * Z => a.1 < b.1) live →
  let sum := foldr (fun b acc => b.2 + acc) 0 in
  fits limit asked (sum live) = false →
  ∃ stop, rolling_wait limit asked now expiry (sum live) live
          = Wait (wait now stop) ∧ now < stop ≤ i64_max ∧
  ∀ t, sum (List.filter (fun b => t <? b.1 + expiry) live) + asked ≤ limit ↔ stop ≤ t.
Proof.
  intros Hasked Hnow He Hlive Hsort. cbv zeta.
  induction Hsort as [|[s sp] live Hsort IH Hmin].
  { unfold fits. simpl. rewrite Z.leb_gt. lia. }
  inversion Hlive as [|? ? [Hs [Hsp Hne]] Hrest]; subst; cbn in Hs, Hsp, Hne.
  assert (0 ≤ foldr (fun b acc => b.2 + acc) 0 live).
  { apply (foldr_sum_nonneg snd). eapply Forall_impl; [|exact Hrest]. by intros b (_ & ? & _). }
  assert (Forall (fun b : Z * Z => 0 ≤ b.2) live) as Hnn.
  { eapply Forall_impl; [|exact Hrest]. by intros b (_ & ? & _). }
  intros Hnf. simpl. assert (sat_sub_u64 (sp + foldr (fun b acc => b.2 + acc) 0 live) sp
    = foldr (fun b acc => b.2 + acc) 0 live) as -> by dk_arith.
  destruct (fits limit asked (foldr (fun b acc => b.2 + acc) 0 live)) eqn:Hf.
  - exists (s + expiry). rewrite end_ok by done. split; [done|].
    split; [unfold time_ok, i64_max in *; lia|]. intros t.
    unfold fits in Hf, Hnf. simpl in Hnf. apply Z.leb_le in Hf. apply Z.leb_gt in Hnf.
    destruct (Z.ltb_spec t (s + expiry)); simpl.
    + rewrite filter_all; [lia|]. eapply Forall_impl; [|exact Hmin].
      intros b ?. apply Z.ltb_lt. cbn in *. lia.
    + pose proof (sum_filter_le snd (fun b : Z * Z => t <? b.1 + expiry) live Hnn). simpl in *. lia.
  - destruct (IH Hrest eq_refl) as (stop & Hw & Hstop & Hiff). exists stop.
    split; [done|]. split; [done|]. intros t. rewrite <- Hiff.
    destruct (Z.ltb_spec t (s + expiry)) as [Hlt|]; simpl; [|done].
    assert (List.filter (fun b : Z * Z => t <? b.1 + expiry) live = live) as ->.
    { apply filter_all. eapply Forall_impl; [|exact Hmin]. intros b ?. apply Z.ltb_lt. cbn in *. lia. }
    unfold fits in Hf. apply Z.leb_gt in Hf. lia.
Qed.

Lemma credit_wait_exact (scaled since now cap refill P asked d : Z) :
  0 ≤ cap < u64_max → 0 < refill ≤ u64_max → 60000 ≤ P ≤ 31622400000 →
  0 ≤ since ≤ now → time_ok now → - spend_bound * P ≤ scaled ≤ u64_max * P →
  0 ≤ asked ≤ cap →
  let bal := credit_balance scaled since now cap refill P in
  bal < asked * P →
  d = dur_from_millis (unwrap_or (try_u64 (Z.quot (wrap_i128 (asked * P - bal + refill - 1)) refill))
                                 u64_max) →
  ∀ t, time_ok t → now ≤ t →
    (asked * P ≤ credit_balance scaled since t cap refill P ↔ now + dur_as_millis d ≤ t).
Proof.
  intros Hc Hr HP Hs Hn Hsc Ha. cbv zeta. intros Hlt -> t Ht Hle.
  assert (in_u64 cap) by (unfold in_u64; lia). assert (in_u64 refill) by (unfold in_u64; lia).
  rewrite (credit_balance_ok scaled since now) in * by (done || lia).
  rewrite (credit_balance_ok scaled since t) by (done || lia).
  assert (asked * P ≤ cap * P) by nia.
  destruct (Z.leb_spec (cap * P) scaled); [lia|].
  rewrite (Z.min_l (scaled + (now - since) * refill) (cap * P)) in * by lia.
  set (B := scaled + (now - since) * refill) in *.
  assert (- spend_bound * P ≤ B) by (subst B; nia).
  assert (- spend_bound * 31622400000 ≤ - spend_bound * P) by (meter_bounds; lia).
  assert (cap * P ≤ u64_max * 31622400000) by (unfold u64_max in *; nia).
  rewrite wrap_i128_id by (meter_bounds; lia).
  rewrite Z.quot_div_nonneg by (meter_bounds; lia).
  set (ms := (asked * P - B + refill - 1) / refill).
  assert (∀ k, asked * P - B ≤ k * refill ↔ ms ≤ k) as Hms.
  { intros k. subst ms. split; intros Hk.
    - apply Z.lt_succ_r. apply Z.div_lt_upper_bound; lia.
    - pose proof (floor_bounds (asked * P - B + refill - 1) refill ltac:(lia)). nia. }
  assert (asked * P ≤ Z.min (scaled + (t - since) * refill) (cap * P) ↔ ms ≤ t - now) as ->.
  { rewrite <- Hms. subst B. split; intros; nia. }
  assert (0 ≤ ms) by (subst ms; apply Z.div_pos; lia).
  unfold dur_as_millis, dur_from_millis. rewrite Z.div_mul by lia. unfold try_u64.
  destruct (Z.leb_spec 0 ms), (Z.leb_spec ms u64_max); simpl; try lia.
  unfold time_ok, u64_max in *. lia.
Qed.

Lemma fixed_wait_exact (limit asked now P window used d t : Z) :
  60000 ≤ P ≤ 31622400000 → time_ok now → time_ok t → now ≤ t → asked ≤ limit →
  let start x := wrap_i64 (div_euclid x P * P) in
  let used_at x := if window =? start x then used else 0 in
  (if fits limit asked (used_at now) then Allow
   else if fits limit asked 0 then Wait (wait now (sat_add_i64 (start now) P))
   else Wait RESERVATION_WAIT) = Wait d →
  used_at t + asked ≤ limit ↔ now + dur_as_millis d ≤ t.
Proof.
  intros HP Hn Ht Hle Ha. cbv zeta.
  destruct (window_start_ok now P) as [-> ?]; [done|lia|].
  destruct (window_start_ok t P) as [-> ?]; [done|lia|]. unfold fits.
  destruct (Z.leb_spec ((if window =? now / P * P then used else 0) + asked) limit); [done|].
  destruct (Z.leb_spec (0 + asked) limit); [|lia]. intros [= <-].
  pose proof (floor_bounds now P ltac:(lia)). pose proof (floor_bounds t P ltac:(lia)).
  assert (sat_add_i64 (now / P * P) P = now / P * P + P) as -> by (unfold time_ok in *; dk_arith).
  rewrite wait_millis by (done || unfold time_ok, i64_max in *; lia).
  destruct (Z.eqb_spec window (now / P * P)) as [->|]; [|lia].
  pose proof (Z.div_le_mono now t P ltac:(lia) Hle).
  destruct (Z.eqb_spec (now / P * P) (t / P * P)) as [|Hne]; [lia|].
  assert (now / P ≠ t / P) by congruence.
  assert ((now / P + 1) * P ≤ t / P * P) by (apply Z.mul_le_mono_nonneg_r; lia). lia.
Qed.

Lemma session_wait_exact (limit asked now L last d t : Z) (opened : option (Z * Z)) :
  60000 ≤ L ≤ 31622400000 → time_ok last → time_ok now → time_ok t → now ≤ t → asked ≤ limit →
  match opened with Some (start, used) => 0 ≤ start ≤ last ∧ in_u64 used | None => True end →
  match live_session L now opened with
  | Some (start, used) =>
      if fits limit asked used then Allow
      else if fits limit asked 0 then Wait (wait now (wrap_i64 (start + L)))
      else Wait RESERVATION_WAIT
  | None => if fits limit asked 0 then Allow else Wait RESERVATION_WAIT
  end = Wait d →
  match live_session L t opened with Some (_, used) => used | None => 0 end + asked ≤ limit
  ↔ now + dur_as_millis d ≤ t.
Proof.
  intros HL Hl Hn Ht Hle Ha Ho. rewrite !(live_session_ok _ _ last) by (done || lia).
  unfold fits. rewrite (proj2 (Z.leb_le (0 + asked) limit)) by lia.
  destruct opened as [[start u]|]; [|done].
  destruct (Z.ltb_spec now (start + L)); [|done].
  destruct (Z.leb_spec (u + asked) limit); [done|]. intros [= <-].
  rewrite end_ok, wait_millis by (done || unfold time_ok, i64_max in *; lia).
  destruct (Z.ltb_spec t (start + L)); lia.
Qed.

Lemma rolling_bucket_wait_exact (limit asked now period last d t : Z) (buckets : list (Z * Z)) :
  limit < u64_max → 0 ≤ asked ≤ limit → period_ok period → time_ok last → time_ok now →
  now ≤ t →
  Forall (bucket_ok last (positive_millis (rolling_bucket period))) buckets →
  StronglySorted (fun a b : Z * Z => a.1 < b.1) buckets →
  let sum := foldr (fun b acc => b.2 + acc) 0 in
  let live := live_buckets period now buckets in
  let used := foldl (fun acc b => sat_add_u64 acc b.2) 0 live in
  sum live ≤ u64_max →
  (if fits limit asked used then Allow
   else rolling_wait limit asked now (rolling_expiry period) used live) = Wait d →
  sum (live_buckets period t buckets) + asked ≤ limit ↔ now + dur_as_millis d ≤ t.
Proof.
  intros Hlim Ha Hp Hl Hn Hle Hb Hsort. cbv zeta. intros Hsum.
  destruct (rolling_width_ok period Hp) as (_ & Hwid & He).
  destruct (positive_millis_ok period Hp) as [_ Hpm].
  pose proof (live_buckets_nonneg period now _ _ _ Hb) as Hnn.
  rewrite (foldl_sat_add_sum snd) by (done || lia).
  rewrite !(live_buckets_ok _ _ last) in * by done.
  assert (∀ x, now ≤ x → List.filter (fun b : Z * Z => x <? b.1 + rolling_expiry period) buckets
    = List.filter (fun b : Z * Z => x <? b.1 + rolling_expiry period)
        (List.filter (fun b : Z * Z => now <? b.1 + rolling_expiry period) buckets)) as Hff.
  { intros x Hx. rewrite filter_filter_bool. apply filter_ext_bool. intros b.
    destruct (Z.ltb_spec x (b.1 + rolling_expiry period)),
      (Z.ltb_spec now (b.1 + rolling_expiry period)); done || lia. }
  rewrite (Hff t Hle). clear Hff.
  set (live := List.filter (fun b : Z * Z => now <? b.1 + rolling_expiry period) buckets) in *.
  assert (Forall (fun b : Z * Z => time_ok b.1 ∧ 0 ≤ b.2 ∧ now < b.1 + rolling_expiry period) live)
    as Hlive.
  { eapply Forall_impl; [|exact (Forall_filter_and _ _ _ Hb)]. intros b [Hbk Hnow].
    apply Z.ltb_lt in Hnow. destruct (Hbk) as [_ [? _]].
    split; [eapply bucket_time_ok; [exact Hl| |exact Hbk]; lia|]. done. }
  assert (match live with [] => 0 | _ => Z.min u64_max (0 + foldr (fun b s => b.2 + s) 0 live) end
          = foldr (fun b s => b.2 + s) 0 live) as -> by (destruct live; [done|lia]).
  destruct (fits limit asked _) eqn:Hf; [done|].
  destruct (rolling_wait_exact limit asked now (rolling_expiry period) live)
    as (stop & -> & Hstop & Hiff); [lia|done|lia|done|by apply filter_sorted|done|].
  intros [= <-]. rewrite wait_millis, Hiff by (done || lia). lia.
Qed.

(** From [now] on, while nothing else is charged, a call refused with [Wait d]
    is admitted exactly from [now + d] on: the wait is enough, and no shorter
    wait is. *)
Lemma verdict_wait (m : Meter) (now held want d : Z) :
  Meter_ok m → time_ok now → in_u64 held → in_u64 want →
  held + want ≤ spec_limit (spec m) → Meter_used m now ≤ u64_max →
  Meter_verdict m now held want = Wait d →
  ∀ t, time_ok t → Z.max now (last_seen m) ≤ t →
    (Meter_verdict m t held want = Allow ↔ Z.max now (last_seen m) + dur_as_millis d ≤ t).
Proof.
  intros Hok Hn Hh Hw Hlim Hu Hv t Ht Hle. rewrite verdict_allow by done.
  destruct m as [s st last]. destruct Hok as (Hs & Hl & Hst). cbn in Hs, Hl, Hst, Hlim, Hle.
  unfold Meter_verdict, Meter_used in *; cbn [state last_seen spec] in *.
  replace (Z.max t last) with t by lia. set (now' := Z.max now last) in *.
  assert (time_ok now') as Hn' by (subst now'; auto with dk).
  assert (last ≤ now') by (subst now'; lia).
  assert (want ≤ spec_limit s) by (unfold in_u64 in *; lia).
  destruct (Z.ltb_spec (spec_limit s) want) as [?|_]; [lia|].
  enough (State_used st t + held + want ≤ spec_limit s ↔ now' + dur_as_millis d ≤ t) by tauto.
  split_state.
  - destruct Hst as (-> & _). destruct (positive_millis_ok period (proj2 Hs)) as [_ Hpm].
    rewrite <- Z.add_assoc. by apply fixed_wait_exact.
  - destruct Hst as (-> & Hb & Hsort). destruct Hs as [? Hp]. rewrite <- Z.add_assoc.
    apply (rolling_bucket_wait_exact limit (held + want) now' period last);
      done || unfold in_u64 in *; lia.
  - destruct Hst as (-> & Ho). destruct (positive_millis_ok len (proj2 Hs)) as [_ Hpm].
    rewrite <- Z.add_assoc. by apply (session_wait_exact limit (held + want) now' _ last).
  - destruct Hst as (-> & -> & -> & Hsince & Hsc & Hcap). destruct Hs as (Hc & Hr & Hper & _).
    destruct (positive_millis_ok per Hper) as [_ Hpm]. set (P := positive_millis per) in *.
    rewrite credit_need in Hv by (unfold in_u64 in *; lia).
    rewrite <- Z.add_assoc, <- (credit_allow _ (held + want) P) by lia.
    destruct (Z.leb_spec ((held + want) * P) (credit_balance scaled since now' cap refill P)); [done|].
    destruct (Z.eqb_spec refill 0); [done|]. injection Hv as Hd.
    apply credit_wait_exact; try done; unfold in_u64 in *; lia.
Qed.

(** ** The interface a budget relies on

    [MeterOps] is what [Budget] calls on a meter and [MeterLaws] what it may
    assume of it: a well-formedness predicate, the number of tokens counted at
    a time, and how admission and charges relate to that number. *)

Class MeterOps (M : Type) : Type := {
  meter_new : MeterSpec → Z → M;
  meter_spec : M → MeterSpec;
  meter_verdict : M → Z → Z → Z → Verdict;
  meter_charge : M → Z → Z → M;
  meter_status : M → Z → MeterStatus;
  meter_horizon : M → Z → Z
}.

Class MeterLaws (M : Type) `{MeterOps M} : Type := {
  meter_ok : M → Prop;
  meter_used : M → Z → Z;
  meter_new_ok s since : spec_ok s → time_ok since → meter_ok (meter_new s since);
  meter_new_spec s since : meter_spec (meter_new s since) = s;
  meter_new_used s since now :
    spec_ok s → time_ok since → time_ok now → meter_used (meter_new s since) now ≤ spec_limit s;
  meter_last : M → Z;
  meter_last_ok m : meter_ok m → time_ok (meter_last m);
  meter_used_before m t : t ≤ meter_last m → meter_used m t = meter_used m (meter_last m);
  meter_used_nonneg m now : meter_ok m → time_ok now → 0 ≤ meter_used m now;
  meter_ok_spec m : meter_ok m → spec_ok (meter_spec m);
  meter_ok_limit m : meter_ok m → 0 ≤ spec_limit (meter_spec m) < u64_max;
  meter_allow m now held want :
    meter_ok m → time_ok now → in_u64 held → in_u64 want →
    meter_verdict m now held want = Allow
    ↔ want ≤ spec_limit (meter_spec m)
      ∧ meter_used m now + held + want ≤ spec_limit (meter_spec m);
  meter_used_mono m now now' :
    meter_ok m → time_ok now → time_ok now' → now ≤ now' → meter_used m now' ≤ meter_used m now;
  meter_charge_spec m at_ spent : meter_spec (meter_charge m at_ spent) = meter_spec m;
  meter_charge_ok m at_ spent :
    meter_ok m → time_ok at_ → in_u64 spent → meter_used m at_ + spent ≤ spend_bound →
    meter_ok (meter_charge m at_ spent);
  meter_charge_used m at_ now spent :
    meter_ok m → time_ok at_ → time_ok now → at_ ≤ now → in_u64 spent →
    meter_used m at_ + spent ≤ spend_bound →
    meter_used (meter_charge m at_ spent) now ≤ meter_used m now + spent;
  meter_charge_exact m at_ spent :
    meter_ok m → time_ok at_ → in_u64 spent → meter_used m at_ + spent ≤ u64_max →
    meter_used (meter_charge m at_ spent) at_ = meter_used m at_ + spent;
  meter_new_last s since : meter_last (meter_new s since) = since;
  meter_charge_last m at_ spent :
    meter_last (meter_charge m at_ spent) = Z.max at_ (meter_last m);
  meter_wait m now held want d t :
    meter_ok m → time_ok now → in_u64 held → in_u64 want → meter_last m ≤ now →
    held + want ≤ spec_limit (meter_spec m) → meter_used m now ≤ u64_max →
    meter_verdict m now held want = Wait d → time_ok t → now ≤ t →
    meter_verdict m t held want = Allow ↔ now + dur_as_millis d ≤ t
}.

#[export] Instance Meter_ops : MeterOps Meter := {|
  meter_new := Meter_new;
  meter_spec := spec;
  meter_verdict := Meter_verdict;
  meter_charge := Meter_charge;
  meter_status := Meter_status;
  meter_horizon := Meter_horizon
|}.

Lemma Meter_new_ok (s : MeterSpec) (since : Z) :
  spec_ok s → time_ok since → Meter_ok (Meter_new s since).
Proof.
  intros Hs Ht. split; [done|]. split; [done|].
  destruct s as [limit period|limit period|limit l|cap refill per initial]; cbn in *.
  - repeat split; dk_arith.
  - repeat split; constructor.
  - done.
  - destruct Hs as (Hc & Hr & Hper & Hi). destruct (positive_millis_ok per Hper) as [_ Hpm].
    pose proof (mul_bounds initial (positive_millis per) u64_max 31622400000
      ltac:(lia) ltac:(lia)).
    rewrite wrap_i128_id by (meter_bounds; lia). unfold time_ok, in_u64, spend_bound in *.
    repeat split; try lia; apply Z.mul_le_mono_nonneg_r; lia.
Qed.

Lemma Meter_new_used (s : MeterSpec) (since now : Z) :
  spec_ok s → time_ok since → time_ok now → Meter_used (Meter_new s since) now ≤ spec_limit s.
Proof.
  intros Hs Ht Hn. pose proof (Meter_new_ok s since Hs Ht) as (_ & _ & Hst).
  unfold Meter_used. cbn [last_seen state Meter_new].
  etrans; [apply (state_used_mono s _ since since); [done|exact Hst|done|auto with dk|lia]|].
  destruct s as [limit period|limit period|limit l|cap refill per initial];
    cbn [state Meter_new State_used spec_limit] in *.
  - destruct Hs. case_match; lia.
  - destruct Hs. simpl. lia.
  - destruct Hs. simpl. lia.
  - destruct Hst as (_ & _ & _ & _ & Hsc & _). destruct Hs as (Hc & Hr & Hper & Hi).
    destruct (positive_millis_ok per Hper) as [_ Hpm].
    pose proof (mul_bounds initial (positive_millis per) u64_max 31622400000
      ltac:(lia) ltac:(lia)).
    rewrite wrap_i128_id in * by (meter_bounds; lia).
    rewrite div_euclid_pos, credit_balance_ok by (unfold in_u64, time_ok in *; lia).
    assert (0 ≤ cap * positive_millis per) by nia.
    assert (0 ≤ (if cap * positive_millis per <=? initial * positive_millis per
      then initial * positive_millis per
      else Z.min (initial * positive_millis per + (since - since) * refill)
             (cap * positive_millis per)) / positive_millis per); [|lia].
    apply Z.div_pos; [|lia]. case_match; lia.
Qed.

Lemma Meter_charge_spec (m : Meter) (at_ spent : Z) : spec (Meter_charge m at_ spent) = spec m.
Proof. unfold Meter_charge. by destruct (spent =? 0). Qed.

Lemma Meter_charge_last (m : Meter) (at_ spent : Z) :
  last_seen (Meter_charge m at_ spent) = Z.max at_ (last_seen m).
Proof. unfold Meter_charge. by destruct (spent =? 0). Qed.

Lemma Meter_charge_ok (m : Meter) (at_ spent : Z) :
  Meter_ok m → time_ok at_ → in_u64 spent → Meter_used m at_ + spent ≤ spend_bound →
  Meter_ok (Meter_charge m at_ spent).
Proof.
  intros (Hs & Hl & Hst) Ha Hsp Hb. unfold Meter_charge.
  assert (time_ok (Z.max at_ (last_seen m))) by auto with dk.
  destruct (spent =? 0); (split; [done|]; split; [done|]); cbn.
  - eapply state_ok_later; [done|done|lia].
  - eapply state_charge_ok; try done; lia.
Qed.

Lemma Meter_charge_used (m : Meter) (at_ now spent : Z) :
  Meter_ok m → time_ok at_ → time_ok now → at_ ≤ now → in_u64 spent →
  Meter_used m at_ + spent ≤ spend_bound →
  Meter_used (Meter_charge m at_ spent) now ≤ Meter_used m now + spent.
Proof.
  intros (Hs & Hl & Hst) Ha Hn Hle Hsp Hb. unfold Meter_charge, Meter_used in *.
  destruct (Z.eqb_spec spent 0) as [->|]; cbn [state last_seen];
    replace (Z.max now (Z.max at_ (last_seen m))) with (Z.max now (last_seen m)) by lia; [lia|].
  eapply state_charge_used; eauto with dk; lia.
Qed.

Lemma Meter_charge_exact (m : Meter) (at_ spent : Z) :
  Meter_ok m → time_ok at_ → in_u64 spent → Meter_used m at_ + spent ≤ u64_max →
  Meter_used (Meter_charge m at_ spent) at_ = Meter_used m at_ + spent.
Proof.
  intros (Hs & Hl & Hst) Ha Hsp Hb. unfold Meter_charge, Meter_used in *.
  destruct (Z.eqb_spec spent 0) as [->|]; cbn [state last_seen];
    replace (Z.max at_ (Z.max at_ (last_seen m))) with (Z.max at_ (last_seen m)) by lia; [lia|].
  eapply state_charge_exact; eauto with dk; lia.
Qed.

Lemma Meter_used_mono (m : Meter) (now now' : Z) :
  Meter_ok m → time_ok now → time_ok now' → now ≤ now' → Meter_used m now' ≤ Meter_used m now.
Proof.
  intros (Hs & Hl & Hst) Hn Hn' Hle. unfold Meter_used.
  eapply state_used_mono; eauto with dk; lia.
Qed.

Lemma Meter_used_nonneg (m : Meter) (now : Z) :
  Meter_ok m → time_ok now → 0 ≤ Meter_used m now.
Proof.
  intros (Hs & Hl & Hst) Hn. unfold Meter_used. set (t := Z.max now (last_seen m)).
  assert (time_ok t) by (subst t; auto with dk).
  assert (last_seen m ≤ t) by lia.
  destruct m as [s st last]. cbn [spec state last_seen] in *. split_state.
  - destruct Hst as (_ & [? _] & _). destruct (window =? _); lia.
  - destruct Hst as (-> & Hb & _). apply (foldr_sum_nonneg snd).
    by eapply live_buckets_nonneg.
  - destruct Hst as (_ & Ho). destruct opened as [[start u]|]; simpl; [|done].
    destruct Ho as [_ [? _]]. destruct (t <? _); lia.
  - destruct Hst as (-> & -> & -> & Hsince & Hsc & Hcap). destruct Hs as (Hc & Hr & Hper & _).
    destruct (positive_millis_ok per Hper) as [_ Hpm]. set (P := positive_millis per) in *.
    rewrite div_euclid_pos, credit_balance_ok by (unfold in_u64 in *; auto; lia).
    enough ((if cap * P <=? scaled then scaled
             else Z.min (scaled + (t - since) * refill) (cap * P)) / P ≤ cap) by lia.
    apply Z.div_le_upper_bound; [lia|]. destruct (cap * P <=? scaled); lia.
Qed.

(** The wait law of a meter, seen from a clock no meter is ahead of. *)
Lemma Meter_wait (m : Meter) (now held want d t : Z) :
  Meter_ok m → time_ok now → in_u64 held → in_u64 want → last_seen m ≤ now →
  held + want ≤ spec_limit (spec m) → Meter_used m now ≤ u64_max →
  Meter_verdict m now held want = Wait d → time_ok t → now ≤ t →
  Meter_verdict m t held want = Allow ↔ now + dur_as_millis d ≤ t.
Proof.
  intros Hok Hn Hh Hw Hl Hlim Hu Hv Ht Hle.
  rewrite (verdict_wait m now held want d) by (done || lia). by rewrite Z.max_l by lia.
Qed.

Lemma Meter_ok_limit (m : Meter) : Meter_ok m → 0 ≤ spec_limit (spec m) < u64_max.
Proof. intros (Hs & _). destruct (spec m); cbn in *; tauto. Qed.

Lemma Meter_last_ok (m : Meter) : Meter_ok m → time_ok (last_seen m).
Proof. by intros (_ & ? & _). Qed.

(** A meter is never asked about a time before its last charge. *)
Lemma Meter_used_before (m : Meter) (t : Z) :
  t ≤ last_seen m → Meter_used m t = Meter_used m (last_seen m).
Proof. intros Ht. unfold Meter_used. by rewrite Z.max_id, Z.max_r. Qed.

#[export] Instance Meter_laws : MeterLaws Meter := {|
  meter_ok := Meter_ok;
  meter_used := Meter_used;
  meter_new_ok := Meter_new_ok;
  meter_new_spec := fun _ _ => eq_refl;
  meter_new_used := Meter_new_used;
  meter_last := last_seen;
  meter_last_ok := Meter_last_ok;
  meter_used_before := Meter_used_before;
  meter_used_nonneg := Meter_used_nonneg;
  meter_ok_spec := fun _ Hok => proj1 Hok;
  meter_ok_limit := Meter_ok_limit;
  meter_allow := verdict_allow;
  meter_used_mono := Meter_used_mono;
  meter_charge_spec := Meter_charge_spec;
  meter_charge_ok := Meter_charge_ok;
  meter_charge_used := Meter_charge_used;
  meter_charge_exact := Meter_charge_exact;
  meter_new_last := fun _ _ => eq_refl;
  meter_charge_last := Meter_charge_last;
  meter_wait := Meter_wait
|}.

(** ** Properties *)

(** A meter's verdict is [Allow] exactly when the call is no larger than
    the limit and the tokens counted now, the tokens held by calls in flight
    and the tokens wanted together stay within the limit, for all four kinds
    of meter. *)
Theorem verdict_allows_iff_fits (m : Meter) (now held want : Z) :
  Meter_ok m → time_ok now → in_u64 held → in_u64 want →
  Meter_verdict m now held want = Allow
  ↔ want ≤ spec_limit (spec m) ∧ Meter_used m now + held + want ≤ spec_limit (spec m).
Proof. apply verdict_allow. Qed.

(** When a meter answers [Wait d], and the call with what is held fits the
    limit at all, the call is admitted from [d] milliseconds after now on and
    at no time before, as long as nothing else is charged. *)
Theorem wait_is_exact (m : Meter) (now held want d : Z) :
  Meter_ok m → time_ok now → in_u64 held → in_u64 want →
  held + want ≤ spec_limit (spec m) → Meter_used m now ≤ u64_max →
  Meter_verdict m now held want = Wait d →
  ∀ t, time_ok t → Z.max now (last_seen m) ≤ t →
    (Meter_verdict m t held want = Allow ↔ Z.max now (last_seen m) + dur_as_millis d ≤ t).
Proof. apply verdict_wait. Qed.

(** A charge is counted in full at the moment it is made, keeps the meter
    well formed, and at any later time adds no more than its own size. *)
Theorem charge_counts_exactly (m : Meter) (at_ now spent : Z) :
  Meter_ok m → time_ok at_ → time_ok now → at_ ≤ now → in_u64 spent →
  Meter_used m at_ + spent ≤ u64_max →
  Meter_ok (Meter_charge m at_ spent) ∧
  Meter_used (Meter_charge m at_ spent) at_ = Meter_used m at_ + spent ∧
  Meter_used (Meter_charge m at_ spent) now ≤ Meter_used m now + spent.
Proof.
  intros Hok Ha Hn Hle Hs Hb. assert (Meter_used m at_ + spent ≤ spend_bound) by (meter_bounds; lia).
  split; [by apply Meter_charge_ok|]. split; [by apply Meter_charge_exact|by apply Meter_charge_used].
Qed.

Lemma remove_commas (count index : Z) (digits : str) :
  Forall (fun c => is_ascii_digit c = true) digits →
  List.filter (fun c => negb (c =? ch ",")) (group_digits count index digits) = digits.
Proof.
  intros Hd. revert index. induction Hd as [|d ds Hdig Hds IH]; intros index; [done|].
  assert ((d =? ch ",") = false) as Hc.
  { apply Z.eqb_neq. intros ->. by vm_compute in Hdig. }
  cbn [group_digits]. destruct ((0 <? index) && _); cbn; by rewrite Hc, IH.
Qed.

(** The grouped form of a number is its sign and decimal digits with
    commas between them: removing the commas gives the number back. *)
Theorem grouped_strips_to_decimal (value : Z) :
  List.filter (fun c => negb (c =? ch ",")) (grouped value)
  = (if value <? 0 then [ch "-"] else []) ++ to_decimal (Z.abs value).
Proof.
  unfold grouped. rewrite List.filter_app, remove_commas by (apply to_decimal_digits; lia).
  by destruct (value <? 0).
Qed.

(** ** Witnesses *)

(** A rolling meter of 1000 tokens an hour with two charges behind it. *)
Definition demo_meter : Meter :=
  Meter_charge (Meter_charge (Meter_new (SpecRolling 1000 (dur_from_secs 3600)) 1700000000000)
    1700000000000 700) 1700000600000 200.

Lemma demo_meter_ok : Meter_ok demo_meter.
Proof.
  assert (Meter_ok (Meter_new (SpecRolling 1000 (dur_from_secs 3600)) 1700000000000)) as H0.
  { apply Meter_new_ok; cbn; unfold time_ok, period_ok, dur_from_secs, u64_max; lia. }
  apply Meter_charge_ok; [apply Meter_charge_ok; [done|..]|..];
    try (unfold time_ok, in_u64, u64_max; lia); by vm_compute.
Qed.

Lemma verdict_allows_iff_fits_witness :
  Meter_verdict demo_meter 1700000600000 50 50 = Allow
  ↔ 50 ≤ 1000 ∧ Meter_used demo_meter 1700000600000 + 50 + 50 ≤ 1000.
Proof.
  apply (verdict_allows_iff_fits demo_meter); [apply demo_meter_ok|..];
    unfold time_ok, in_u64, u64_max; lia.
Defined.

Lemma wait_is_exact_witness :
  Meter_verdict demo_meter 1700000600000 0 200 = Wait (dur_from_millis 3040000)
  ∧ (Meter_verdict demo_meter 1700003640000 0 200 = Allow
     ↔ 1700000600000 + 3040000 ≤ 1700003640000).
Proof.
  assert (Meter_verdict demo_meter 1700000600000 0 200 = Wait (dur_from_millis 3040000)) as Hv
    by (vm_compute; reflexivity).
  split; [exact Hv|].
  apply (wait_is_exact demo_meter 1700000600000 0 200 (dur_from_millis 3040000));
    [apply demo_meter_ok|unfold time_ok; lia|unfold in_u64, u64_max; lia
    |unfold in_u64, u64_max; lia|vm_compute; discriminate|vm_compute; discriminate
    |exact Hv|unfold time_ok; lia|vm_compute; discriminate].
Defined.

Lemma charge_counts_exactly_witness :
  Meter_used (Meter_charge demo_meter 1700000700000 25) 1700000700000
  = Meter_used demo_meter 1700000700000 + 25.
Proof.
  apply (charge_counts_exactly demo_meter 1700000700000 1700000700000 25);
    [apply demo_meter_ok|unfold time_ok; lia|unfold time_ok; lia|lia
    |unfold in_u64, u64_max; lia|vm_compute; discriminate].
Defined.
