(* ===== verification/TokenBudget.v ===== *)
(** * Token budgets

    [crates/dekopon-model-token-governor/src/budget.rs]: a budget is an
    agent's meters and the tokens reserved by the calls in flight. A call
    reserves an estimate before it is sent and settles to its actual cost.
    The budget is written against the interface [MeterOps] and its theorems
    use only [MeterLaws]. *)

From Stdlib Require Import ZArith Lia Ascii String.
From stdpp Require Import base gmap strings list sorting numbers.
From S2P Require Import Prelude.
From S2P Require Import RustStr.
From S2P Require Import TokenMeter.

(** ** Data *)

Inductive Retry : Type :=
| After (d : Z)
| RetryNever.

Record Refusal : Type := mkRefusal {
  refusal_agent : str;
  refusal_meter : MeterKind;
  refusal_limit : Z;
  refusal_remaining : Z;
  refusal_requested : Z;
  refusal_retry : Retry
}.

(** [Reservation] carries the tokens it holds. *)
Record Reservation : Type := mkReservation { reservation_tokens : Z }.

Record Budget (M : Type) : Type := mkBudget {
  agent : str;
  models : option (gset str);
  meters : list M;
  reserved : Z;
  live_since_boot : option (list (Z * Z))
}.
Arguments mkBudget {M} _ _ _ _ _.
Arguments agent {M} _.
Arguments models {M} _.
Arguments meters {M} _.
Arguments reserved {M} _.
Arguments live_since_boot {M} _.

(** ** Operations *)

Section Operations.
Context {M : Type} `{MeterOps M}.
Implicit Types b : Budget M.

Definition Budget_new (agent : str) (models : option (gset str)) (specs : list MeterSpec)
    (now : Z) : Budget M :=
  mkBudget agent models ((fun s => meter_new s now) <$> specs) 0 None.

Definition covers b (model : str) : bool :=
  is_none_or (models b) (fun ms => bool_decide (model ∈ ms)).

Definition verdict_retry (v : Verdict) : option Retry :=
  match v with
  | Allow => None
  | Never => Some RetryNever
  | Wait w => Some (After w)
  end.

Definition worse (worst : option (M * Retry)) (retry : Retry) : bool :=
  match worst, retry with
  | None, _ => true
  | Some (_, RetryNever), _ => false
  | Some (_, After _), RetryNever => true
  | Some (_, After current), After w => current <? w
  end.

Definition explain_step (now held want : Z) (worst : option (M * Retry)) (meter : M)
    : option (M * Retry) :=
  match verdict_retry (meter_verdict meter now held want) with
  | None => worst
  | Some retry => if worse worst retry then Some (meter, retry) else worst
  end.

Definition explain b (now want : Z) : option Refusal :=
  match foldl (explain_step now (reserved b) want) None (meters b) with
  | None => None
  | Some (meter, retry) =>
      let status := meter_status meter now in
      Some (mkRefusal (agent b) (spec_kind (meter_spec meter)) (status_limit status)
              (sat_sub_i64 (status_remaining status) (unwrap_or (try_i64 (reserved b)) i64_max))
              want retry)
  end.

Definition reserve b (now estimate : Z) : result Refusal (Reservation * Budget M) :=
  match explain b now estimate with
  | Some refusal => Err refusal
  | None =>
      Ok (mkReservation estimate,
          mkBudget (agent b) (models b) (meters b) (sat_add_u64 (reserved b) estimate)
            (live_since_boot b))
  end.

Definition charge b (at_ actual : Z) : Budget M :=
  mkBudget (agent b) (models b) ((fun m => meter_charge m at_ actual) <$> meters b) (reserved b)
    (if 0 <? actual
     then (fun live => live ++ [(at_, actual)]) <$> live_since_boot b
     else live_since_boot b).

Definition settle b (r : Reservation) (at_ actual : Z) : Budget M :=
  charge (mkBudget (agent b) (models b) (meters b)
            (sat_sub_u64 (reserved b) (reservation_tokens r)) (live_since_boot b)) at_ actual.

Definition statuses b (now : Z) : list (MeterKind * MeterStatus) :=
  (fun m => (spec_kind (meter_spec m), meter_status m now)) <$> meters b.

(** [Iterator::max] of the horizons, the zero duration with no meter. *)
Definition horizon b (now : Z) : Z :=
  foldl (fun acc m => Z.max acc (meter_horizon m now)) 0 (meters b).

Definition begin_restore b : Budget M :=
  mkBudget (agent b) (models b) (meters b) (reserved b) (Some []).

Definition abandon_restore b : Budget M :=
  mkBudget (agent b) (models b) (meters b) (reserved b) None.

Definition restore b (since : Z) (history : list (Z * Z)) : Budget M :=
  let charges := sort_by_key fst history in
  let fresh := (fun m => meter_new (meter_spec m) since) <$> meters b in
  let live := unwrap_or (live_since_boot b) [] in
  let meters' :=
    foldl (fun ms c => (fun m => meter_charge m c.1 c.2) <$> ms) fresh (charges ++ live) in
  mkBudget (agent b) (models b) meters' (reserved b) None.

End Operations.

(** ** Refusals as text *)

Definition retry_after (r : Refusal) : option Z :=
  match refusal_retry r with After w => Some w | RetryNever => None end.

Definition fits_ever (r : Refusal) : bool :=
  match refusal_retry r with After _ => true | RetryNever => false end.

Definition percent (r : Refusal) : Z :=
  let used := refusal_limit r - refusal_remaining r in
  clamp 0 100 (if refusal_limit r =? 0 then 100 else Z.quot (used * 100) (refusal_limit r)).

Definition UNITS : list (Z * str) :=
  [(86400, lit "day"); (3600, lit "hour"); (60, lit "minute"); (1, lit "second")].

Definition Span (d : Z) : str :=
  let seconds := Z.max (dur_as_secs d) 1 in
  let (size, unit) :=
    unwrap_or (find_first (fun u => seconds mod u.1 =? 0) UNITS) (1, lit "second") in
  to_decimal (seconds / size) ++ lit "-" ++ unit.

(** The loop of [Rounded], with the unit before the one it looks at. *)
Fixpoint rounded_in (seconds : Z) (coarser : option (Z * str)) (units : list (Z * str))
    : Z * str :=
  match units with
  | [] => (seconds, lit "second")
  | (size, unit) :: rest =>
      if size <=? seconds then
        let count := div_ceil seconds size in
        match coarser with
        | Some (coarse, coarse_unit) =>
            if count * size =? coarse then (1, coarse_unit) else (count, unit)
        | None => (count, unit)
        end
      else rounded_in seconds (Some (size, unit)) rest
  end.

Definition rounded_seconds (d : Z) : Z :=
  Z.max (wrap_u64 (dur_as_secs d + (if 0 <? dur_subsec_nanos d then 1 else 0))) 1.

Definition Rounded (d : Z) : str :=
  let (count, unit) := rounded_in (rounded_seconds d) None UNITS in
  to_decimal count ++ lit " " ++ unit ++ (if count =? 1 then [] else lit "s").

Definition WindowName (k : MeterKind) : str :=
  match k with
  | KindFixed period =>
      let secs := dur_as_secs period in
      if secs =? 3600 then lit "hourly window"
      else if secs =? 86400 then lit "daily window"
      else if secs =? 604800 then lit "weekly window"
      else Span period ++ lit " window"
  | KindRolling period => Span period ++ lit " rolling window"
  | KindSession length => Span length ++ lit " session window"
  | KindCredit => lit "credit bucket"
  end.

Inductive Voice : Type :=
| First
| Third (agent : str).

Definition render (r : Refusal) (voice : Voice) : str :=
  let window := WindowName (refusal_meter r) in
  let '(subject, has, its, whole, item) :=
    match voice with
    | First => (lit "I'm", lit "I've", lit "my", lit "my", lit "message")
    | Third agent =>
        (lit "The agent " ++ agent ++ lit " is", lit "The agent " ++ agent ++ lit " has",
         lit "its", lit "the agent " ++ agent ++ lit "'s", lit "request")
    end in
  match refusal_retry r with
  | RetryNever =>
      lit "This " ++ item ++ lit " needs about " ++ grouped (refusal_requested r)
      ++ lit " tokens, more than " ++ whole ++ lit " whole " ++ grouped (refusal_limit r)
      ++ lit "-token budget (" ++ window ++ lit "). Too big to run; try a smaller ask."
  | After wait =>
      if refusal_remaining r <? 0 then
        has ++ lit " used up " ++ its ++ lit " token budget (" ++ window
        ++ lit "), and then some: " ++ grouped (- refusal_remaining r)
        ++ lit " tokens over. It resets in " ++ Rounded wait ++ lit "."
      else
        subject ++ lit " at " ++ to_decimal (percent r) ++ lit "% of " ++ its
        ++ lit " token budget (" ++ window ++ lit "): " ++ grouped (refusal_remaining r)
        ++ lit " tokens left and this " ++ item ++ lit " needs about "
        ++ grouped (refusal_requested r) ++ lit ". Try again in " ++ Rounded wait ++ lit "."
  end.

Definition Refusal_display (r : Refusal) : str := render r First.
Definition GuestRefusal_display (r : Refusal) : str := render r (Third (refusal_agent r)).

(** ** Admission *)

Section Admission.
Context {M : Type} `{MeterLaws M}.
Implicit Types (b : Budget M) (m : M).

Lemma explain_fold_None (now held want : Z) (ms : list M) (w : option (M * Retry)) :
  foldl (explain_step now held want) w ms = None
  ↔ w = None ∧ Forall (fun m => meter_verdict m now held want = Allow) ms.
Proof.
  revert w. induction ms as [|m ms IH]; intros w; simpl; [split; [auto|tauto]|].
  rewrite IH, List.Forall_cons_iff. unfold explain_step.
  destruct (meter_verdict m now held want), w as [[? [?|]]|]; simpl;
    repeat case_match; split; intros [? ?]; try done; intuition congruence.
Qed.

Lemma explain_None b (now want : Z) :
  explain b now want = None
  ↔ Forall (fun m => meter_verdict m now (reserved b) want = Allow) (meters b).
Proof.
  unfold explain. destruct (foldl _ _ _) as [[m r]|] eqn:E.
  - split; [done|]. intros Hall.
    assert (foldl (explain_step now (reserved b) want) None (meters b) = None)
      by (by apply explain_fold_None). congruence.
  - by apply explain_fold_None in E as [_ E].
Qed.

(** [retry_le o r]: the retry [r] is at least as strict as what [o] asks. *)
Definition retry_le (o : option Retry) (r : Retry) : Prop :=
  match o, r with
  | None, _ => True
  | Some RetryNever, RetryNever => True
  | Some RetryNever, After _ => False
  | Some (After _), RetryNever => True
  | Some (After d), After d' => d ≤ d'
  end.

Lemma retry_le_trans (o : option Retry) (r r' : Retry) :
  retry_le o r → retry_le (Some r) r' → retry_le o r'.
Proof. destruct o as [[?|]|], r, r'; simpl; try done; lia. Qed.

Lemma explain_fold_worst (now held want : Z) (ms : list M) (w : option (M * Retry)) m r :
  foldl (explain_step now held want) w ms = Some (m, r) →
  (w = Some (m, r) ∨ m ∈ ms ∧ verdict_retry (meter_verdict m now held want) = Some r)
  ∧ retry_le (snd <$> w) r
  ∧ Forall (fun m' => retry_le (verdict_retry (meter_verdict m' now held want)) r) ms.
Proof.
  revert w. induction ms as [|m' ms IH]; intros w; simpl.
  { intros ->. split; [by left|]. split; [|done]. destruct r; simpl; [lia|done]. }
  intros Hf. destruct (IH _ Hf) as (Hin & Hle & Hall). clear IH Hf.
  unfold explain_step in *.
  destruct (verdict_retry (meter_verdict m' now held want)) as [r'|] eqn:Hv.
  - destruct (worse w r') eqn:Hw.
    + simpl in Hle. split; [|split].
      * destruct Hin as [[= -> ->]|[? ?]]; right; split; try done; by constructor.
      * eapply retry_le_trans; [|exact Hle].
        destruct w as [[? [?|]]|], r'; simpl in *; try done. apply Z.ltb_lt in Hw. lia.
      * constructor; [by rewrite Hv|done].
    + split; [|split; [done|]].
      * destruct Hin as [?|[? ?]]; [by left|right; split; [by constructor|done]].
      * constructor; [|done]. rewrite Hv.
        destruct w as [[m0 r0]|]; [|done]. simpl in Hle.
        apply (retry_le_trans (Some r') r0); [|done].
        destruct r0, r'; simpl in *; try done. apply Z.ltb_ge in Hw. lia.
  - split; [|split; [done|]].
    + destruct Hin as [?|[? ?]]; [by left|right; split; [by constructor|done]].
    + constructor; [by rewrite Hv|done].
Qed.

(** A refusal names a meter of the budget and the strictest retry among them. *)
Lemma explain_worst b (now want : Z) (r : Refusal) :
  explain b now want = Some r →
  (∃ m, m ∈ meters b
        ∧ verdict_retry (meter_verdict m now (reserved b) want) = Some (refusal_retry r)
        ∧ refusal_meter r = spec_kind (meter_spec m))
  ∧ Forall (fun m => retry_le (verdict_retry (meter_verdict m now (reserved b) want))
                              (refusal_retry r)) (meters b).
Proof.
  unfold explain. destruct (foldl _ _ _) as [[m rt]|] eqn:E; [|done]. intros [= <-].
  destruct (explain_fold_worst _ _ _ _ _ _ _ E) as ([?|[Hm Hv]] & _ & Hall); [done|].
  split; [|done]. by exists m.
Qed.

End Admission.

(** ** The life of a budget

    [step] is one event in the life of a budget guarded by its lock: the clock
    shows another time, later or earlier; a call reserves or is refused; a call
    in flight settles at its actual cost; a restore begins, is given up, or
    replaces the meters by ones that replay a history. [lg_inflight] are the
    reservations not settled yet. The [Account] is kept beside the budget:
    [ac_seen] is the latest time it was shown, [ac_over] the tokens by which
    calls settled since the last restore exceeded what they reserved,
    [ac_restored] what the last restore replayed and what was in flight then,
    and [ac_spent] all that was ever charged or replayed. *)

Record Account : Type := mkAccount {
  ac_seen : Z;
  ac_over : Z;
  ac_restored : Z;
  ac_spent : Z
}.

Definition Account_new (now : Z) : Account := mkAccount now 0 0 0.

Definition Zsum (out : list Z) : Z := foldr Z.add 0 out.

Definition seen_at (a : Account) (now : Z) : Account :=
  mkAccount (Z.max (ac_seen a) now) (ac_over a) (ac_restored a) (ac_spent a).

Definition settled_at (a : Account) (tokens actual : Z) : Account :=
  mkAccount (ac_seen a) (ac_over a + Z.max 0 (actual - tokens)) (ac_restored a)
    (ac_spent a + actual).

(** The charges a restore replays: the history and the calls settled since
    [begin_restore]. *)
Definition replayed {M : Type} (b : Budget M) (history : list (Z * Z)) : list (Z * Z) :=
  history ++ unwrap_or (live_since_boot b) [].

Definition restored_at {M : Type} (a : Account) (b : Budget M) (since : Z)
    (history : list (Z * Z)) : Account :=
  let total := Zsum (snd <$> replayed b history) in
  mkAccount (foldr (fun c t => Z.max c.1 t) (Z.max (ac_seen a) since) history) 0
    (total + reserved b) (ac_spent a + total).

Record Ledger (M : Type) : Type := mkLedger {
  lg_budget : Budget M;
  lg_inflight : list Z;
  lg_now : Z;
  lg_account : Account
}.
Arguments mkLedger {M} _ _ _ _.
Arguments lg_budget {M} _.
Arguments lg_inflight {M} _.
Arguments lg_now {M} _.
Arguments lg_account {M} _.

(** A charge at a time of the model's range with a [u64] number of tokens. *)
Definition charge_ok (c : Z * Z) : Prop := time_ok c.1 ∧ in_u64 c.2.

Inductive step {M : Type} `{MeterOps M} : Ledger M → Ledger M → Prop :=
| step_tick b out now now' a :
    time_ok now' → step (mkLedger b out now a) (mkLedger b out now' (seen_at a now'))
| step_reserve b out now a estimate r b' :
    in_u64 estimate → reserve b now estimate = Ok (r, b') →
    step (mkLedger b out now a) (mkLedger b' (reservation_tokens r :: out) now a)
| step_refuse b out now a estimate refusal :
    reserve b now estimate = Err refusal →
    step (mkLedger b out now a) (mkLedger b out now a)
| step_settle b out1 out2 now a tokens actual :
    in_u64 actual →
    step (mkLedger b (out1 ++ tokens :: out2) now a)
         (mkLedger (settle b (mkReservation tokens) now actual) (out1 ++ out2) now
            (settled_at a tokens actual))
| step_begin_restore b out now a :
    step (mkLedger b out now a) (mkLedger (begin_restore b) out now a)
| step_abandon_restore b out now a :
    step (mkLedger b out now a) (mkLedger (abandon_restore b) out now a)
| step_restore b out now a since history :
    time_ok since → Forall charge_ok history →
    step (mkLedger b out now a)
         (mkLedger (restore b since history) out now (restored_at a b since history)).

(** The spending the model covers; past it a credit balance could wrap. *)
Definition over_bound : Z := 604462909807314587353088.

Section Ledger.
Context {M : Type} `{MeterLaws M}.
Implicit Types (b : Budget M) (l : Ledger M) (m : M).

(** What the account knows of one meter. *)
Definition meter_inv (a : Account) (held : Z) m : Prop :=
  meter_ok m ∧ meter_last m ≤ ac_seen a ∧
  (∀ t, time_ok t → meter_used m t ≤ spec_limit (meter_spec m) + ac_spent a) ∧
  meter_used m (ac_seen a) + held ≤ spec_limit (meter_spec m) + ac_over a + ac_restored a.

Definition live_inv (seen : Z) b : Prop :=
  Forall (fun c => charge_ok c ∧ c.1 ≤ seen) (unwrap_or (live_since_boot b) []).

Record ledger_inv l : Prop := {
  li_meters : meters (lg_budget l) ≠ [];
  li_seen : time_ok (ac_seen (lg_account l));
  li_now : time_ok (lg_now l) ∧ lg_now l ≤ ac_seen (lg_account l);
  li_account : 0 ≤ ac_over (lg_account l) ∧ 0 ≤ ac_restored (lg_account l)
               ∧ 0 ≤ ac_spent (lg_account l);
  li_inflight : Forall in_u64 (lg_inflight l);
  li_reserved : reserved (lg_budget l) = Zsum (lg_inflight l);
  li_u64 : in_u64 (reserved (lg_budget l));
  li_live : live_inv (ac_seen (lg_account l)) (lg_budget l);
  li_each : Forall (meter_inv (lg_account l) (reserved (lg_budget l))) (meters (lg_budget l))
}.

Lemma Zsum_app (a c : list Z) : Zsum (a ++ c) = Zsum a + Zsum c.
Proof. unfold Zsum. induction a; simpl; lia. Qed.

Lemma Zsum_nonneg (a : list Z) : Forall in_u64 a → 0 ≤ Zsum a.
Proof. unfold Zsum, in_u64. induction 1; simpl; lia. Qed.

#[export] Instance Zsum_perm : Proper ((≡ₚ) ==> (=)) Zsum.
Proof. intros a c. unfold Zsum. induction 1; simpl; lia. Qed.

Lemma charges_nonneg (cs : list (Z * Z)) : Forall charge_ok cs → 0 ≤ Zsum (snd <$> cs).
Proof.
  intros Hcs. apply Zsum_nonneg, Forall_fmap. eapply Forall_impl; [|exact Hcs]. intros c [_ Hc]. exact Hc.
Qed.

(** The latest time of a history, from a time already seen on. *)
Lemma latest_bounds (seen : Z) (history : list (Z * Z)) :
  time_ok seen → Forall charge_ok history →
  let t := foldr (fun c t => Z.max c.1 t) seen history in
  time_ok t ∧ seen ≤ t ∧ Forall (fun c => c.1 ≤ t) history.
Proof.
  intros Hs. induction 1 as [|c cs [Hc _] _ (IHt & IHs & IHf)]; cbn; [split; [done|]; split; [lia|constructor]|].
  split; [unfold time_ok in *; lia|]. split; [lia|]. constructor; [lia|].
  eapply Forall_impl; [|exact IHf]. cbn. intros. lia.
Qed.

(** A charge adds at most its size at every time, before its own too. *)
Lemma meter_charge_any m (at_ spent t : Z) :
  meter_ok m → time_ok at_ → time_ok t → in_u64 spent → meter_used m at_ + spent ≤ spend_bound →
  meter_used (meter_charge m at_ spent) t ≤ meter_used m t + spent.
Proof.
  intros Hok Ha Ht Hs Hb. destruct (decide (at_ ≤ t)); [by apply meter_charge_used|].
  pose proof (meter_last_ok m Hok) as Hl.
  pose proof (meter_charge_last m at_ spent) as Hlast.
  rewrite (meter_used_before (meter_charge m at_ spent) t) by lia. rewrite Hlast.
  assert (time_ok (Z.max at_ (meter_last m))) as Hm by (unfold time_ok in *; lia).
  pose proof (meter_charge_used m at_ _ spent Hok Ha Hm ltac:(lia) Hs Hb).
  pose proof (meter_used_mono m t _ Hok Ht Hm ltac:(lia)). lia.
Qed.

(** Charging a list of calls to a meter that counts no more than [u]. *)
Lemma charges_bounded (cs : list (Z * Z)) (u : Z) m :
  meter_ok m → (∀ t, time_ok t → meter_used m t ≤ u) → Forall charge_ok cs →
  u + Zsum (snd <$> cs) ≤ spend_bound →
  let m' := foldl (fun m c => meter_charge m c.1 c.2) m cs in
  meter_ok m' ∧ meter_spec m' = meter_spec m
  ∧ (∀ t, time_ok t → meter_used m' t ≤ u + Zsum (snd <$> cs))
  ∧ ∀ t, meter_last m ≤ t → Forall (fun c => c.1 ≤ t) cs → meter_last m' ≤ t.
Proof.
  intros Hok Hu Hcs. revert m u Hok Hu.
  induction Hcs as [|c cs [Hc1 Hc2] Hcs IH]; intros m u Hok Hu Hb; cbn in *.
  { split; [done|]. split; [done|]. split; [intros t Ht; pose proof (Hu t Ht); lia|done]. }
  pose proof (charges_nonneg cs Hcs) as Hnn.
  change (foldr Z.add 0 (snd <$> cs)) with (Zsum (snd <$> cs)) in *.
  pose proof (Hu c.1 Hc1).
  destruct (IH (meter_charge m c.1 c.2) (u + c.2)) as (Q1 & Q2 & Q3 & Q4).
  - apply meter_charge_ok; [done..|lia].
  - intros t Ht. pose proof (Hu t Ht).
    pose proof (meter_charge_any m c.1 c.2 t Hok Hc1 Ht Hc2 ltac:(lia)). lia.
  - lia.
  - split; [done|]. split; [by rewrite Q2, meter_charge_spec|]. split.
    + intros t Ht. pose proof (Q3 t Ht). lia.
    + intros t Hlt Hf. inversion Hf; subst. apply Q4; [|done]. rewrite meter_charge_last. lia.
Qed.

(** What is spent never falls, whether the account is within the bound or not. *)
Definition live_nonneg b : Prop := Forall (fun c => 0 ≤ c.2) (unwrap_or (live_since_boot b) []).

Lemma step_spent l l' :
  step l l' → live_nonneg (lg_budget l) →
  live_nonneg (lg_budget l') ∧ ac_spent (lg_account l) ≤ ac_spent (lg_account l').
Proof.
  unfold live_nonneg.
  destruct 1 as [|b out now a est r b' He Hr| |b out1 out2 now a tokens actual Ha|b out now a
    |b out now a|b out now a since history Hs Hh]; intros Hl; cbn in *; try (split; [done|lia]).
  - unfold reserve in Hr. destruct (explain b now est); [done|]. injection Hr as <- <-.
    split; [done|lia].
  - unfold in_u64 in Ha. split; [|lia]. destruct (0 <? actual); [|done].
    destruct (live_since_boot b); cbn in *; [|done]. apply Forall_app. split; [done|].
    constructor; [cbn; lia|constructor].
  - split; [constructor|]. unfold replayed. rewrite fmap_app, Zsum_app.
    pose proof (charges_nonneg _ Hh).
    enough (0 ≤ Zsum (snd <$> unwrap_or (live_since_boot b) [])) by lia.
    clear -Hl. unfold Zsum. induction Hl; cbn [fmap list_fmap foldr] in *; lia.
Qed.

Lemma run_spent l l' :
  rtc step l l' → live_nonneg (lg_budget l) → ac_spent (lg_account l) ≤ ac_spent (lg_account l').
Proof.
  induction 1 as [|l1 l2 l3 Hs _ IH]; intros Hl; [done|].
  destruct (step_spent _ _ Hs Hl) as [Hl2 ?]. specialize (IH Hl2). lia.
Qed.

Lemma inv_tick b out now now' a :
  time_ok now' → ledger_inv (mkLedger b out now a) →
  ledger_inv (mkLedger b out now' (seen_at a now')).
Proof.
  intros Hn' [Hne Hse Hn Ho Hout Hres Hru Hlv Hms]; cbn in *.
  assert (time_ok (Z.max (ac_seen a) now')) as Hs' by (unfold time_ok in *; lia).
  split; cbn; try done; [split; [done|lia]|..].
  - eapply Forall_impl; [|exact Hlv]. cbn. intros c [? ?]. split; [done|lia].
  - eapply Forall_impl; [|exact Hms]. intros m (Hok & Hl & Hall & Hu).
    pose proof (meter_used_mono m _ _ Hok Hse Hs' ltac:(lia)).
    split; [done|]. cbn. split; [lia|]. split; [done|lia].
Qed.

(** Admission looks at every meter at the time of the call. *)
Lemma reserve_fits b (now want : Z) :
  Forall meter_ok (meters b) → time_ok now → in_u64 (reserved b) → in_u64 want →
  explain b now want = None
  ↔ Forall (fun m => meter_used m now + reserved b + want ≤ spec_limit (meter_spec m)) (meters b).
Proof.
  intros Hok Hn Hr Hw. rewrite explain_None, !List.Forall_forall in *.
  split; intros Hall m Hm; specialize (Hok m Hm).
  - by apply (meter_allow m now (reserved b) want), Hall.
  - pose proof (meter_used_nonneg m now Hok Hn). apply meter_allow; try done.
    specialize (Hall m Hm). unfold in_u64 in *. split; lia.
Qed.

Lemma inv_meters_ok l : ledger_inv l → Forall meter_ok (meters (lg_budget l)).
Proof. intros Hinv. eapply Forall_impl; [|exact (li_each _ Hinv)]. by intros m (? & _). Qed.

Lemma inv_reserve b out now a estimate r b' :
  in_u64 estimate → reserve b now estimate = Ok (r, b') →
  ledger_inv (mkLedger b out now a) →
  ledger_inv (mkLedger b' (reservation_tokens r :: out) now a).
Proof.
  intros He Hr Hinv. pose proof (inv_meters_ok _ Hinv) as Hoks.
  destruct Hinv as [Hne Hse [Hn Hns] Ho Hout Hres Hru Hlv Hms]; cbn in *. unfold reserve in Hr.
  destruct (explain b now estimate) eqn:Hex; [done|]. injection Hr as <- <-.
  apply reserve_fits in Hex as Hfit; try done.
  assert (reserved b + estimate ≤ u64_max) as Hsat.
  { destruct (meters b) as [|m ms]; [done|]. inversion Hfit; inversion Hoks; subst.
    pose proof (meter_ok_limit m ltac:(done)). pose proof (meter_used_nonneg m now ltac:(done) Hn).
    lia. }
  assert (sat_add_u64 (reserved b) estimate = reserved b + estimate) as Hsum by dk_arith.
  split; cbn; rewrite ?Hsum; try done.
  - by constructor.
  - rewrite Hres. unfold Zsum; simpl; lia.
  - unfold in_u64 in *. lia.
  - rewrite List.Forall_forall in *. intros m Hm. destruct (Hms m Hm) as (Hok & Hl & Hall & Hu).
    pose proof (meter_used_mono m now _ Hok Hn Hse Hns). specialize (Hfit m Hm). cbn in Hfit.
    split; [done|]. split; [done|]. split; [done|]. lia.
Qed.

Lemma inv_settle b out1 out2 now a tokens actual :
  in_u64 actual → ac_spent a + actual ≤ over_bound →
  ledger_inv (mkLedger b (out1 ++ tokens :: out2) now a) →
  ledger_inv (mkLedger (settle b (mkReservation tokens) now actual) (out1 ++ out2) now
                (settled_at a tokens actual)).
Proof.
  intros Ha Hob [Hne Hse [Hn Hns] Ho Hout Hres Hru Hlv Hms]; cbn in *.
  apply Forall_app in Hout as [Hout1 Hout2]. inversion Hout2 as [|? ? Htok Hout2']; subst.
  pose proof (Zsum_nonneg _ Hout1). pose proof (Zsum_nonneg _ Hout2').
  rewrite Zsum_app in Hres. change (Zsum (tokens :: out2)) with (tokens + Zsum out2) in Hres.
  assert (sat_sub_u64 (reserved b) tokens = Zsum (out1 ++ out2)) as Hsub
    by (rewrite Zsum_app; dk_arith).
  split; cbn; rewrite ?Hsub; try done; rewrite ?Zsum_app.
  - by destruct (meters b).
  - unfold in_u64 in Ha. lia.
  - by apply Forall_app.
  - unfold in_u64 in *. lia.
  - unfold live_inv in *; cbn. destruct (0 <? actual); [|done].
    destruct (live_since_boot b) as [live|]; cbn in *; [|done].
    apply Forall_app. split; [done|]. constructor; [split; [by split|done]|constructor].
  - apply Forall_fmap. eapply Forall_impl; [|exact Hms]. intros m (Hok & Hl & Hall & Hu).
    unfold compose. pose proof (meter_ok_limit m Hok).
    assert (meter_used m now + actual ≤ spend_bound) as Hb.
    { pose proof (Hall now Hn). unfold spend_bound, over_bound, in_u64, u64_max in *. lia. }
    pose proof (fun t Ht => meter_charge_any m now actual t Hok Hn Ht Ha Hb) as Hany.
    split; [by apply meter_charge_ok|]. rewrite meter_charge_last, meter_charge_spec; cbn.
    split; [lia|]. split.
    + intros t Ht. pose proof (Hall t Ht). pose proof (Hany t Ht). lia.
    + pose proof (Hany _ Hse). lia.
Qed.

(** The meters of a restored budget, one by one. *)
Lemma restore_meters b (since : Z) (history : list (Z * Z)) :
  meters (restore b since history)
  = (fun m => foldl (fun m c => meter_charge m c.1 c.2) (meter_new (meter_spec m) since)
                (replayed b (sort_by_key fst history))) <$> meters b.
Proof.
  unfold restore, replayed; cbn. set (cs := _ ++ _). clearbody cs.
  assert (∀ ms : list M, foldl (fun ms c => (fun m => meter_charge m c.1 c.2) <$> ms) ms cs
    = (fun m => foldl (fun m c => meter_charge m c.1 c.2) m cs) <$> ms) as Hf.
  { induction cs as [|c cs IH]; intros ms; cbn; [by rewrite list_fmap_id|].
    by rewrite IH, <- list_fmap_compose. }
  by rewrite Hf, <- list_fmap_compose.
Qed.

Lemma inv_restore b out now a since history :
  time_ok since → Forall charge_ok history →
  ac_spent (restored_at a b since history) ≤ over_bound →
  ledger_inv (mkLedger b out now a) →
  ledger_inv (mkLedger (restore b since history) out now (restored_at a b since history)).
Proof.
  intros Hs Hh Hob [Hne Hse [Hn Hns] Ho Hout Hres Hru Hlv Hms]; cbn in *.
  assert (time_ok (Z.max (ac_seen a) since)) as Hms0 by (unfold time_ok in *; lia).
  destruct (latest_bounds _ _ Hms0 Hh) as (Hst & Hsl & Hsf).
  set (seen := foldr _ _ history) in *.
  assert (Forall charge_ok (replayed b history)) as Hok.
  { apply Forall_app. split; [done|]. eapply Forall_impl; [|exact Hlv]. by intros c [? _]. }
  assert (Forall (fun c => c.1 ≤ seen) (replayed b history)) as Hle.
  { apply Forall_app. split; [done|]. eapply Forall_impl; [|exact Hlv].
    intros c [_ ?]; cbn in *. lia. }
  pose proof (charges_nonneg _ Hok) as Hnn.
  assert (replayed b (sort_by_key fst history) ≡ₚ replayed b history) as Hperm.
  { unfold replayed. by rewrite sort_by_key_perm. }
  split; cbn; fold seen; try done.
  - change (meters (restore b since history) ≠ []). rewrite restore_meters. by destruct (meters b).
  - split; [done|lia].
  - unfold in_u64 in Hru. lia.
  - constructor.
  - change (Forall (meter_inv (restored_at a b since history) (reserved b))
      (meters (restore b since history))). rewrite restore_meters.
    apply Forall_fmap. eapply Forall_impl; [|exact Hms].
    intros m (Hm & _ & _ & _). unfold compose.
    pose proof (meter_ok_limit m Hm). pose proof (meter_ok_spec m Hm) as Hsp.
    destruct (charges_bounded (replayed b (sort_by_key fst history))
      (spec_limit (meter_spec m)) (meter_new (meter_spec m) since)) as (Q1 & Q2 & Q3 & Q4).
    + by apply meter_new_ok.
    + intros t Ht. by apply meter_new_used.
    + by rewrite Hperm.
    + rewrite Hperm. unfold spend_bound, over_bound, u64_max in *. lia.
    + assert (Zsum (snd <$> replayed b (sort_by_key fst history)) = Zsum (snd <$> replayed b history))
        as Hsum by (by rewrite Hperm).
      rewrite meter_new_spec in Q2. unfold meter_inv; rewrite Q2; cbn.
      fold seen. split; [done|]. split; [|split].
      * apply Q4; [rewrite meter_new_last; lia|by rewrite Hperm].
      * intros t Ht. pose proof (Q3 t Ht). lia.
      * pose proof (Q3 seen Hst). lia.
Qed.

Lemma inv_step l l' :
  step l l' → ac_spent (lg_account l') ≤ over_bound → ledger_inv l → ledger_inv l'.
Proof.
  destruct 1; cbn [lg_account]; intros Hob Hinv;
    eauto using inv_tick, inv_reserve, inv_settle, inv_restore; destruct Hinv; split; cbn in *; try done; constructor.
Qed.

Lemma inv_reachable l l' :
  rtc step l l' → ac_spent (lg_account l') ≤ over_bound → ledger_inv l → ledger_inv l'.
Proof.
  induction 1 as [l|l1 l2 l3 Hstep Hrtc IH]; [done|]. intros Hob Hinv.
  apply IH; [done|]. eapply inv_step; [done| |done].
  assert (live_nonneg (lg_budget l1)) as Hl.
  { eapply Forall_impl; [|exact (li_live _ Hinv)]. intros c [[_ [? _]] _]. done. }
  destruct (step_spent _ _ Hstep Hl) as [Hl2 _]. pose proof (run_spent _ _ Hrtc Hl2). lia.
Qed.

Lemma inv_initial (ag : str) (ms : option (gset str)) (specs : list MeterSpec) (now : Z) :
  specs ≠ [] → Forall spec_ok specs → time_ok now →
  ledger_inv (mkLedger (Budget_new ag ms specs now) [] now (Account_new now)).
Proof.
  intros Hne Hs Hn. split; cbn; try done; [by destruct specs|by constructor|].
  apply Forall_fmap. eapply Forall_impl; [|exact Hs]. intros s Hsp. unfold compose, meter_inv; cbn.
  rewrite meter_new_last, meter_new_spec. pose proof (fun t => meter_new_used s now t Hsp Hn) as Hu.
  split; [by apply meter_new_ok|]. split; [lia|].
  split; [intros t Ht; specialize (Hu t Ht); lia|specialize (Hu now Hn); lia].
Qed.

(** What the invariant says of a budget: the bound, and exact admission. *)
Lemma inv_bounds l :
  ledger_inv l →
  reserved (lg_budget l) = Zsum (lg_inflight l) ∧
  Forall (fun m => meter_used m (ac_seen (lg_account l)) + reserved (lg_budget l)
                   ≤ spec_limit (meter_spec m) + ac_over (lg_account l)
                     + ac_restored (lg_account l)) (meters (lg_budget l)) ∧
  (∀ estimate, in_u64 estimate →
     is_ok (reserve (lg_budget l) (lg_now l) estimate) = true
     ↔ Forall (fun m => meter_used m (lg_now l) + reserved (lg_budget l) + estimate
                        ≤ spec_limit (meter_spec m)) (meters (lg_budget l))).
Proof.
  intros Hinv. split; [by apply li_reserved|]. split.
  - eapply Forall_impl; [|exact (li_each _ Hinv)]. by intros m (_ & _ & _ & ?).
  - intros estimate He. rewrite <- reserve_fits; [|by apply inv_meters_ok|apply Hinv..|done].
    unfold reserve. by destruct (explain _ _ _).
Qed.

End Ledger.

(** ** Waiting and restoring *)

Section Waiting.
Context {M : Type} `{MeterLaws M}.
Implicit Types (b : Budget M) (m : M).

(** What a meter must satisfy for a wait to be exact: no charge of it lies
    ahead of the clock, and its counter has not saturated. *)
Definition waits (now : Z) m : Prop :=
  meter_ok m ∧ meter_last m ≤ now ∧ meter_used m now ≤ u64_max.

(** The call and what is in flight fit the limit of the empty meter. *)
Definition has_room b (want : Z) m : Prop := reserved b + want ≤ spec_limit (meter_spec m).

Lemma reserve_ok_iff b (now want : Z) :
  is_ok (reserve b now want) = true
  ↔ Forall (fun m => meter_verdict m now (reserved b) want = Allow) (meters b).
Proof. rewrite <- explain_None. unfold reserve. by destruct (explain b now want). Qed.

Lemma dur_as_millis_mono (d d' : Z) : d ≤ d' → dur_as_millis d ≤ dur_as_millis d'.
Proof. intros. unfold dur_as_millis. apply Z.div_le_mono; lia. Qed.

(** A meter that asks for no more than [w] allows the call [w] later. *)
Lemma allowed_after b (now want w t : Z) m :
  time_ok now → in_u64 (reserved b) → in_u64 want → time_ok t → now ≤ t → waits now m →
  has_room b want m →
  retry_le (verdict_retry (meter_verdict m now (reserved b) want)) (After w) →
  now + dur_as_millis w ≤ t → meter_verdict m t (reserved b) want = Allow.
Proof.
  intros Hn Hr Hw Ht Hle (Hok & Hl & Hu) Hlim Hv Hwt.
  destruct (meter_verdict m now (reserved b) want) as [|d|] eqn:E; cbn in Hv; [| |done].
  - apply meter_allow in E as [? ?]; try done. apply meter_allow; try done.
    pose proof (meter_used_mono m now t Hok Hn Ht Hle). lia.
  - apply (meter_wait m now (reserved b) want d t); try done.
    pose proof (dur_as_millis_mono d w Hv). lia.
Qed.

(** The meters of a budget after a run of settled calls. *)
Lemma settle_run_meters b (calls : list (Reservation * (Z * Z))) :
  meters (foldl (fun b c => settle b c.1 c.2.1 c.2.2) b calls)
  = foldl (fun ms c => (fun m => meter_charge m c.1 c.2) <$> ms) (meters b) (snd <$> calls).
Proof. revert b. induction calls as [|c cs IH]; intros b; simpl; [done|]. by rewrite IH. Qed.

Lemma settle_run_live b (live : list (Z * Z)) (calls : list (Reservation * (Z * Z))) :
  live_since_boot b = Some live →
  live_since_boot (foldl (fun b c => settle b c.1 c.2.1 c.2.2) b calls)
  = Some (live ++ List.filter (fun c => 0 <? c.2) (snd <$> calls)).
Proof.
  revert b live. induction calls as [|c cs IH]; intros b live Hb; simpl; [by rewrite app_nil_r|].
  destruct (0 <? c.2.2) eqn:E.
  - rewrite (IH _ (live ++ [c.2])); [by rewrite <- app_assoc|].
    unfold settle, charge; cbn. rewrite E, Hb. by destruct c as [? []].
  - rewrite (IH _ live); [done|]. unfold settle, charge; cbn. by rewrite E, Hb.
Qed.

Lemma charge_run_specs (ms : list M) (charges : list (Z * Z)) :
  meter_spec <$> foldl (fun ms c => (fun m => meter_charge m c.1 c.2) <$> ms) ms charges
  = meter_spec <$> ms.
Proof.
  revert ms. induction charges as [|c cs IH]; intros ms; simpl; [done|].
  rewrite IH, <- list_fmap_compose. apply list_fmap_ext. intros i m _. apply meter_charge_spec.
Qed.

End Waiting.

(** ** Rounding a wait *)

Lemma rounded_in_bounds (seconds : Z) :
  1 ≤ seconds →
  let '(count, unit) := rounded_in seconds None UNITS in
  ∃ size, (size, unit) ∈ UNITS ∧ 1 ≤ count ∧ seconds ≤ count * size < seconds + size
          ∧ Forall (fun u => size < u.1 → count * size < u.1) UNITS.
Proof.
  intros Hs. unfold UNITS. cbn [rounded_in].
  pose proof (div_ceil_bounds seconds 86400 ltac:(lia)).
  pose proof (div_ceil_bounds seconds 3600 ltac:(lia)).
  pose proof (div_ceil_bounds seconds 60 ltac:(lia)).
  pose proof (div_ceil_bounds seconds 1 ltac:(lia)).
  repeat match goal with |- context [if ?c then _ else _] => destruct c eqn:? end; dk_bool;
    try lia;
    match goal with
    | |- ∃ size, (size, lit "day") ∈ _ ∧ _ => exists 86400
    | |- ∃ size, (size, lit "hour") ∈ _ ∧ _ => exists 3600
    | |- ∃ size, (size, lit "minute") ∈ _ ∧ _ => exists 60
    | |- ∃ size, (size, lit "second") ∈ _ ∧ _ => exists 1
    end;
    (split; [apply list_elem_of_In; cbn; tauto|]);
    (split; [lia|]); (split; [lia|]); repeat (constructor; [cbn; lia|]); constructor.
Qed.

(** ** Properties *)

Section Properties.
Context {M : Type} `{MeterLaws M}.
Implicit Types (b : Budget M) (l : Ledger M).

(** C1: a budget never overspends. Take any run that starts with an empty
    budget: calls reserve, are refused and settle in any order, the clock shows
    any times, also earlier ones, and restores begin, are given up or replay a
    history while calls are in flight. As long as at most 2^79 tokens were
    charged or replayed in all, the tokens reserved are exactly those of the
    calls in flight; on every meter, at the latest time seen, the tokens
    counted and reserved exceed the limit by no more than what calls settled
    since the last restore used beyond their own reservations and, after a
    restore, what it replayed and held; and a call is admitted exactly when it
    fits within every meter's limit with what is counted and reserved then. *)
Theorem budget_never_overspends (ag : str) (ms : option (gset str)) (specs : list MeterSpec)
    (now : Z) l :
  specs ≠ [] → Forall spec_ok specs → time_ok now →
  rtc step (mkLedger (Budget_new ag ms specs now) [] now (Account_new now)) l →
  ac_spent (lg_account l) ≤ over_bound →
  reserved (lg_budget l) = Zsum (lg_inflight l) ∧
  Forall (fun m => meter_used m (ac_seen (lg_account l)) + reserved (lg_budget l)
                   ≤ spec_limit (meter_spec m) + ac_over (lg_account l)
                     + ac_restored (lg_account l)) (meters (lg_budget l)) ∧
  (∀ estimate, in_u64 estimate →
     is_ok (reserve (lg_budget l) (lg_now l) estimate) = true
     ↔ Forall (fun m => meter_used m (lg_now l) + reserved (lg_budget l) + estimate
                        ≤ spec_limit (meter_spec m)) (meters (lg_budget l))).
Proof.
  intros Hne Hs Hn Hrun Hob. apply inv_bounds.
  by apply (inv_reachable _ _ Hrun Hob), inv_initial.
Qed.

(** C27: the retry of a refusal is exact for the whole budget. When a call is
    refused with [After w], and no meter has a charge ahead of the clock or a
    saturated counter, then as long as nothing is charged, reserved or
    returned it is admitted at just the times that are [w] or more later, if
    with what is in flight it fits the limit of every meter; and if it does
    not, it is admitted at no time: the retry then only asks to come back when
    a reservation may have been returned. *)
Theorem refusal_retry_is_exact b (now want w : Z) (r : Refusal) :
  time_ok now → in_u64 (reserved b) → in_u64 want → Forall (waits now) (meters b) →
  reserve b now want = Err r → refusal_retry r = After w →
  ∀ t, time_ok t → now ≤ t →
    (is_ok (reserve b t want) = true
     ↔ Forall (has_room b want) (meters b) ∧ now + dur_as_millis w ≤ t).
Proof.
  intros Hn Hr Hw Hms Href Hretry t Ht Hle. unfold reserve in Href.
  destruct (explain b now want) as [r'|] eqn:Hex; [|done]. injection Href as ->.
  apply explain_worst in Hex as ((m & Hm & Hv & _) & Hall). rewrite Hretry in Hv, Hall.
  rewrite reserve_ok_iff, !List.Forall_forall. rewrite List.Forall_forall in Hms, Hall. split.
  - intros Hallow. assert (∀ m', List.In m' (meters b) → has_room b want m') as Hroom.
    { intros m' Hm'. destruct (Hms m' Hm') as (Hok & _).
      destruct (proj1 (meter_allow m' t (reserved b) want Hok Ht Hr Hw) (Hallow m' Hm')) as [_ Ha].
      pose proof (meter_used_nonneg m' t Hok Ht). unfold has_room. lia. }
    split; [done|]. apply list_elem_of_In in Hm. destruct (Hms m Hm) as (Hok & Hl & Hu).
    destruct (meter_verdict m now (reserved b) want) eqn:E; cbn in Hv; simplify_eq.
    by apply (proj1 (meter_wait m now (reserved b) want w t Hok Hn Hr Hw Hl (Hroom m Hm) Hu E Ht Hle)),
      Hallow.
  - intros [Hroom Hwt] m' Hm'.
    by apply (allowed_after b now want w t m' Hn Hr Hw Ht Hle (Hms m' Hm') (Hroom m' Hm') (Hall m' Hm')).
Qed.

(** Restoring a budget from recorded history, in whatever order the rows
    arrive, while calls go on settling, leaves its meters as if a fresh budget
    had been charged the history in order of time and then the calls settled
    since [begin_restore]; what the calls in flight hold is kept. *)
Theorem restore_replays_history b (since : Z) (history sorted : list (Z * Z))
    (calls : list (Reservation * (Z * Z))) :
  StronglySorted (fun a c => a.1 < c.1) sorted → history ≡ₚ sorted →
  let b' := foldl (fun b c => settle b c.1 c.2.1 c.2.2) (begin_restore b) calls in
  let fresh := Budget_new (agent b) (models b) (meter_spec <$> meters b) since in
  meters (restore b' since history)
  = meters (foldl (fun b c => charge b c.1 c.2) fresh
              (sorted ++ List.filter (fun c => 0 <? c.2) (snd <$> calls)))
  ∧ reserved (restore b' since history) = reserved b'.
Proof.
  intros Hs Hp b' fresh. split; [|done]. unfold restore; cbn [meters].
  assert (sort_by_key fst history = sorted) as ->.
  { symmetry. apply (sorted_perm_eq fst); [done|apply sort_by_key_sorted|].
    by rewrite sort_by_key_perm. }
  subst b'. rewrite (settle_run_live _ []) by done. cbn [unwrap_or app].
  change (fun m => meter_new (meter_spec m) since)
    with ((fun s => meter_new s since) ∘ meter_spec (M := M)).
  rewrite settle_run_meters, list_fmap_compose, charge_run_specs.
  cbn [meters begin_restore].
  set (cs := sorted ++ _). change ((fun s => meter_new s since) <$> (meter_spec <$> meters b))
    with (meters fresh). clearbody fresh cs.
  revert fresh. induction cs as [|c cs IH]; intros fresh; simpl; [done|].
  by rewrite <- IH.
Qed.

End Properties.

(** The wait a refusal prints is a whole number of one unit, is never
    shorter than the wait and overstates it, rounded up to whole seconds, by
    less than one such unit, and never reaches the next coarser unit. *)
Theorem rounded_wait_is_tight (d : Z) :
  0 ≤ d ≤ dur_from_secs u64_max →
  ∃ count size unit, (size, unit) ∈ UNITS ∧
    Rounded d = to_decimal count ++ lit " " ++ unit ++ (if count =? 1 then [] else lit "s") ∧
    d ≤ dur_from_secs (count * size) ∧
    count * size < Z.max 1 (div_ceil d (dur_from_secs 1)) + size ∧
    Forall (fun u => size < u.1 → count * size < u.1) UNITS.
Proof.
  intros Hd. pose proof (rounded_in_bounds (rounded_seconds d)) as Hb. unfold Rounded.
  assert (rounded_seconds d = Z.max 1 (div_ceil d (dur_from_secs 1))) as Hsec.
  { unfold rounded_seconds, dur_from_secs, dur_as_secs, dur_subsec_nanos in *.
    pose proof (div_ceil_bounds d (1 * 1000000000) ltac:(lia)).
    pose proof (Z.div_mod d 1000000000 ltac:(lia)).
    pose proof (Z.mod_pos_bound d 1000000000 ltac:(lia)).
    rewrite wrap_u64_id; [|unfold in_u64, u64_max in *]; destruct (0 <? _) eqn:E; dk_bool; lia. }
  destruct (rounded_in _ _ _) as [count unit]. destruct Hb as (size & Hin & Hc & Hlo & Hall); [lia|].
  exists count, size, unit. split; [done|]. split; [done|]. rewrite <- Hsec.
  split; [|split; [lia|done]].
  pose proof (div_ceil_bounds d (dur_from_secs 1) ltac:(unfold dur_from_secs; lia)).
  unfold dur_from_secs in *. lia.
Qed.

(** ** Witnesses *)

Definition demo_spec : MeterSpec := SpecRolling 1000 (dur_from_secs 3600).

Lemma demo_spec_ok : spec_ok demo_spec.
Proof. cbn. unfold period_ok, dur_from_secs, u64_max. lia. Qed.

Definition demo_budget : Budget Meter := Budget_new (lit "scout") None [demo_spec] 1700000000000.

(** [demo_budget] with the two charges of [demo_meter]. *)
Definition demo_spent : Budget Meter :=
  charge (charge demo_budget 1700000000000 700) 1700000600000 200.

Definition demo_reserved : Budget Meter :=
  mkBudget (agent demo_budget) None (meters demo_budget) 100 None.

(** A call in flight while a restore replays one row, then settled. *)
Definition demo_rows : list (Z * Z) := [(1699999999000, 5)].
Definition demo_restored : Budget Meter :=
  restore (begin_restore demo_reserved) 1699999000000 demo_rows.
Definition demo_account : Account :=
  settled_at (seen_at (restored_at (Account_new 1700000000000) (begin_restore demo_reserved)
    1699999000000 demo_rows) 1700000060000) 100 120.
Definition demo_ledger : Ledger Meter :=
  mkLedger (settle demo_restored (mkReservation 100) 1700000060000 120) [] 1700000060000
    demo_account.

Lemma demo_ledger_run :
  rtc step (mkLedger demo_budget [] 1700000000000 (Account_new 1700000000000)) demo_ledger.
Proof.
  eapply rtc_l; [apply (step_reserve _ _ _ _ 100 (mkReservation 100) demo_reserved);
                 [unfold in_u64, u64_max; lia|by vm_compute]|].
  eapply rtc_l; [apply step_begin_restore|].
  eapply rtc_l; [apply (step_restore _ _ _ _ 1699999000000 demo_rows); [unfold time_ok; lia|]|].
  { repeat constructor; cbn; unfold time_ok, in_u64, u64_max; lia. }
  eapply rtc_l; [apply (step_tick _ _ _ 1700000060000); unfold time_ok; lia|].
  apply rtc_once. apply (step_settle demo_restored [] [] 1700000060000 _ 100 120).
  unfold in_u64, u64_max. lia.
Qed.

Lemma budget_never_overspends_witness :
  reserved (lg_budget demo_ledger) = 0
  ∧ Forall (fun m => Meter_used m 1700000060000 + reserved (lg_budget demo_ledger)
                      ≤ spec_limit (spec m) + 20 + 105)
      (meters (lg_budget demo_ledger)).
Proof.
  pose proof (budget_never_overspends (lit "scout") None [demo_spec] 1700000000000 demo_ledger
    ltac:(done) ltac:(constructor; [apply demo_spec_ok|constructor])
    ltac:(unfold time_ok; lia) demo_ledger_run ltac:(vm_compute; discriminate)) as (Hr & Hall & _).
  split; [exact Hr|exact Hall].
Defined.

Lemma refusal_retry_is_exact_witness :
  is_ok (reserve demo_spent 1700000600000 200) = false
  ∧ is_ok (reserve demo_spent 1700003640000 200) = true.
Proof.
  split; [by vm_compute|].
  assert (Forall (waits 1700000600000) (meters demo_spent)) as Hms.
  { constructor; [|constructor]. split; [apply demo_meter_ok|]. by vm_compute. }
  destruct (reserve demo_spent 1700000600000 200) as [|r] eqn:Hr; [by vm_compute in Hr|].
  apply (refusal_retry_is_exact demo_spent 1700000600000 200 (dur_from_millis 3040000) r);
    [unfold time_ok; lia|unfold in_u64, u64_max; cbn; lia|unfold in_u64, u64_max; lia
    |exact Hms|exact Hr| |unfold time_ok; lia|lia|].
  - vm_compute in Hr. injection Hr as <-. reflexivity.
  - split; [|vm_compute; discriminate]. constructor; [vm_compute; discriminate|constructor].
Defined.

Definition demo_history : list (Z * Z) := [(1700000300000, 5); (1700000000000, 700)].
Definition demo_calls : list (Reservation * (Z * Z)) :=
  [(mkReservation 0, (1700000600000, 200)); (mkReservation 0, (1700000660000, 0))].

Lemma restore_replays_history_witness :
  let b' := foldl (fun b c => settle b c.1 c.2.1 c.2.2) (begin_restore demo_budget) demo_calls in
  let fresh := Budget_new (agent demo_budget) (models demo_budget)
                 (meter_spec <$> meters demo_budget) 1700000000000 in
  meters (restore b' 1700000000000 demo_history)
  = meters (foldl (fun b c => charge b c.1 c.2) fresh
      ([(1700000000000, 700); (1700000300000, 5)]
       ++ List.filter (fun c => 0 <? c.2) (snd <$> demo_calls))).
Proof.
  assert (StronglySorted (fun a c => a.1 < c.1) [(1700000000000, 700); (1700000300000, 5)]) as Hs
    by (repeat constructor; cbn; lia).
  assert (demo_history ≡ₚ [(1700000000000, 700); (1700000300000, 5)]) as Hp by apply perm_swap.
  destruct (restore_replays_history demo_budget 1700000000000 demo_history _ demo_calls Hs Hp)
    as [Hm _].
  exact Hm.
Defined.

Lemma rounded_wait_is_tight_witness :
  Rounded (dur_from_millis 3599500) = lit "1 hour"
  ∧ ∃ count size unit, (size, unit) ∈ UNITS
    ∧ Rounded (dur_from_millis 3599500)
      = to_decimal count ++ lit " " ++ unit ++ (if count =? 1 then [] else lit "s")
    ∧ dur_from_millis 3599500 ≤ dur_from_secs (count * size).
Proof.
  split; [by vm_compute|].
  destruct (rounded_wait_is_tight (dur_from_millis 3599500)) as (c & s & u & ? & ? & ? & _);
    [vm_compute; split; discriminate|].
  exists c, s, u. done.
Defined.
