(* ===== verification/TokenMetering.v ===== *)
(** * Metering model calls

    [crates/dekopon-model-token-governor/src/metering.rs] and [usage.rs]: the
    budgets of all agents, the estimate a call reserves, the admission it
    holds while it is in flight, and what it is charged when it settles or is
    dropped. The clock is an argument of every operation that reads it, and
    the records the code emits through [tracing] are the list [records]. *)

From Stdlib Require Import ZArith Lia Ascii String.
From stdpp Require Import base gmap strings list sorting numbers.
From S2P Require Import Prelude.
From S2P Require Import RustStr.
From S2P Require Import TokenMeter.
From S2P Require Import TokenBudget.

(** ** Usage *)

Record ModelUsage : Type := mkUsage {
  input_tokens : option Z;
  cached_input_tokens : option Z;
  cache_write_tokens : option Z;
  output_tokens : option Z;
  reasoning_output_tokens : option Z;
  total_tokens : option Z
}.

Definition usage_default : ModelUsage := mkUsage None None None None None None.

(** [Option::or]. *)
Definition option_or {A : Type} (a b : option A) : option A :=
  match a with Some _ => a | None => b end.

Definition merged (self later : ModelUsage) : ModelUsage :=
  mkUsage
    (option_or (input_tokens later) (input_tokens self))
    (option_or (cached_input_tokens later) (cached_input_tokens self))
    (option_or (cache_write_tokens later) (cache_write_tokens self))
    (option_or (output_tokens later) (output_tokens self))
    (option_or (reasoning_output_tokens later) (reasoning_output_tokens self))
    (option_or (total_tokens later) (total_tokens self)).

(** ** Calls and estimates *)

Definition IMAGE_TOKENS : Z := 1000.
Definition DEFAULT_OUTPUT_RESERVE : Z := 1024.
Definition REASONING_OUTPUT_RESERVE : Z := 4096.

Inductive Via : Type :=
| ViaAgent
| ViaProxy (session : option str)
| ViaSummary.

Definition via_as_str (v : Via) : str :=
  match v with
  | ViaAgent => lit "agent"
  | ViaProxy _ => lit "proxy"
  | ViaSummary => lit "summary"
  end.

Definition via_session (v : Via) : option str :=
  match v with ViaProxy session => session | ViaAgent | ViaSummary => None end.

Record Call : Type := mkCall {
  call_agent : str;
  call_model : str;
  call_backend : str;
  call_via : Via
}.

Record Estimate : Type := mkEstimate {
  est_input : Z;
  est_output_reserve : Z
}.

Record Sizes : Type := mkSizes { size_bytes : Z; size_images : Z }.

Definition Sizes_tokens (s : Sizes) : Z :=
  sat_add_u64 (Tokens_from_bytes (size_bytes s)) (sat_mul_u64 (size_images s) IMAGE_TOKENS).

(** [fresh] is the last input the hint observed and the sizes added since. *)
Definition from_sizes (whole : Sizes) (fresh : option (Z * Sizes)) (reserve : Z) : Estimate :=
  let hinted :=
    match fresh with
    | Some (last, fresh) => sat_add_u64 last (Sizes_tokens fresh)
    | None => 0
    end in
  mkEstimate (Z.max (Sizes_tokens whole) hinted) reserve.

Definition output_reserve (max_output_tokens : option Z) (reasoning : bool) : Z :=
  match max_output_tokens with
  | Some tokens => tokens
  | None => if reasoning then REASONING_OUTPUT_RESERVE else DEFAULT_OUTPUT_RESERVE
  end.

Definition est_total (e : Estimate) : Z := sat_add_u64 (est_input e) (est_output_reserve e).

(** [InputHint] is one atomic cell: its value before, its value after. *)
Definition InputHint_observe (hint : Z) (usage : ModelUsage) : Z :=
  unwrap_or (input_tokens usage) hint.

Inductive Outcome : Type :=
| Succeeded
| Failed
| Cancelled
| NotSent.

#[export] Instance Outcome_eq_dec : EqDecision Outcome.
Proof. solve_decision. Defined.

Definition outcome_as_str (o : Outcome) : str :=
  match o with
  | Succeeded => lit "succeeded"
  | Failed | NotSent => lit "failed"
  | Cancelled => lit "cancelled"
  end.

Record Observed : Type := mkObserved {
  obs_usage : option ModelUsage;
  obs_text_bytes : Z
}.
Definition observed_default : Observed := mkObserved None 0.

(** ** Charges and records *)

Record Charge : Type := mkCharge {
  charge_input : Z;
  charge_output : Z;
  charge_usage : ModelUsage;
  charge_source : str;
  charge_outcome : str
}.

Definition Charge_refused : Charge :=
  mkCharge 0 0 usage_default (lit "estimated") (lit "refused").

Definition Charge_of (outcome : Outcome) (estimate : Estimate) (observed : Observed) : Charge :=
  let usage := unwrap_or (obs_usage observed) usage_default in
  if bool_decide (outcome = NotSent) then
    mkCharge (charge_input Charge_refused) (charge_output Charge_refused) usage
      (charge_source Charge_refused) (outcome_as_str outcome)
  else
    let source :=
      match input_tokens usage, output_tokens usage with
      | Some _, Some _ => lit "reported"
      | None, None => lit "estimated"
      | _, _ => lit "partial"
      end in
    mkCharge (unwrap_or (input_tokens usage) (est_input estimate))
      (unwrap_or (output_tokens usage) (Tokens_from_bytes (obs_text_bytes observed)))
      usage source (outcome_as_str outcome).

Definition record_int (value : Z) : Z := unwrap_or (try_i64 value) i64_max.

(** The fields of the one [tracing] event a call leaves. *)
Record MeterRecord : Type := mkMeterRecord {
  rec_agent : str;
  rec_model : str;
  rec_backend : str;
  rec_via : str;
  rec_session : option str;
  rec_input : Z;
  rec_output : Z;
  rec_cached_input : Z;
  rec_cache_write : Z;
  rec_reasoning_output : Z;
  rec_source : str;
  rec_estimate_input : Z;
  rec_outcome : str;
  rec_error_kind : option str
}.

Definition record (call : Call) (estimate : Estimate) (charge : Charge)
    (error_kind : option str) : MeterRecord :=
  mkMeterRecord (call_agent call) (call_model call) (call_backend call)
    (via_as_str (call_via call)) (via_session (call_via call))
    (record_int (charge_input charge)) (record_int (charge_output charge))
    (record_int (unwrap_or (cached_input_tokens (charge_usage charge)) 0))
    (record_int (unwrap_or (cache_write_tokens (charge_usage charge)) 0))
    (record_int (unwrap_or (reasoning_output_tokens (charge_usage charge)) 0))
    (charge_source charge) (record_int (est_input estimate)) (charge_outcome charge) error_kind.

(** ** Calls no budget admits *)

Record Unadmitted : Type := mkUnadmitted {
  una_call : Call;
  una_estimate : Estimate;
  una_observed : Observed;
  una_outcome : Outcome;
  una_error_kind : option str
}.

Definition unadmitted (call : Call) (estimate : Estimate) : Unadmitted :=
  mkUnadmitted call estimate observed_default Cancelled (Some (lit "cancelled")).

(** Text lengths are [usize], 64 bits on the platforms served. *)
Definition Unadmitted_observe_text (u : Unadmitted) (bytes : Z) : Unadmitted :=
  mkUnadmitted (una_call u) (una_estimate u)
    (mkObserved (obs_usage (una_observed u)) (sat_add_u64 (obs_text_bytes (una_observed u)) bytes))
    (una_outcome u) (una_error_kind u).

(** [Drop]: the record of the call; [panicking] is [std::thread::panicking]. *)
Definition Unadmitted_drop (panicking : bool) (u : Unadmitted) : MeterRecord :=
  let (outcome, kind) :=
    if panicking then (Failed, Some (lit "panicked")) else (una_outcome u, una_error_kind u) in
  record (una_call u) (una_estimate u) (Charge_of outcome (una_estimate u) (una_observed u)) kind.

(** [finish] sets the fields and drops the value. *)
Definition Unadmitted_finish (panicking : bool) (u : Unadmitted) (usage : option ModelUsage)
    (text_bytes : Z) (outcome : Outcome) (error_kind : option str) : MeterRecord :=
  Unadmitted_drop panicking
    (mkUnadmitted (una_call u) (una_estimate u)
       (mkObserved usage (Z.max (obs_text_bytes (una_observed u)) text_bytes))
       outcome error_kind).

(** ** Metering *)

Record Metering (M : Type) : Type := mkMetering {
  budgets : gmap str (Budget M);
  records : list MeterRecord
}.
Arguments mkMetering {M} _ _.
Arguments budgets {M} _.
Arguments records {M} _.

Record Admission : Type := mkAdmission {
  adm_call : Call;
  adm_estimate : Estimate;
  adm_reservation : option Reservation;
  adm_observed : Observed;
  adm_settled : bool
}.

Record HistoryRow : Type := mkHistoryRow {
  row_agent : str;
  row_model : str;
  row_at : Z;
  row_tokens : Z
}.

Section Metering.
Context {M : Type} `{MeterOps M}.
Implicit Types mt : Metering M.

(** Collecting into the map: a later budget of the same agent wins. *)
Definition Metering_new (bs : list (Budget M)) : Metering M :=
  mkMetering (foldl (fun acc b => <[agent b := b]> acc) ∅ bs) [].

Definition has_budgets mt : bool := negb (bool_decide (budgets mt = ∅)).

Definition Metering_admit mt (now : Z) (call : Call) (estimate : Estimate)
    : result Refusal Admission * Metering M :=
  let admission reservation :=
    mkAdmission call estimate reservation observed_default false in
  match budgets mt !! call_agent call with
  | Some budget =>
      if covers budget (call_model call) then
        match reserve budget now (est_total estimate) with
        | Ok (reservation, budget') =>
            (Ok (admission (Some reservation)),
             mkMetering (<[call_agent call := budget']> (budgets mt)) (records mt))
        | Err refusal =>
            (Err refusal,
             mkMetering (budgets mt) (records mt ++ [record call estimate Charge_refused None]))
        end
      else (Ok (admission None), mt)
  | None => (Ok (admission None), mt)
  end.

Definition Metering_begin_restore mt : Metering M :=
  mkMetering (begin_restore <$> budgets mt) (records mt).

Definition Metering_abandon_restore mt : Metering M :=
  mkMetering (abandon_restore <$> budgets mt) (records mt).

Definition lookback mt (now : Z) : Z :=
  map_fold (fun _ b acc => Z.max acc (horizon b now)) 0 (budgets mt).

Definition history_of (ag : str) (b : Budget M) (rows : list HistoryRow) : list (Z * Z) :=
  (fun row => (row_at row, row_tokens row))
    <$> List.filter (fun row => str_eqb (row_agent row) ag && covers b (row_model row)) rows.

Definition Metering_restore mt (since : Z) (rows : list HistoryRow) : Metering M :=
  mkMetering (map_imap (fun ag b => Some (restore b since (history_of ag b rows))) (budgets mt))
    (records mt).

Definition Metering_statuses mt (now : Z) (ag : str) : option (list (MeterKind * MeterStatus)) :=
  (fun b => statuses b now) <$> budgets mt !! ag.

Definition Metering_settle mt (now : Z) (call : Call) (r : Reservation) (actual : Z) : Metering M :=
  match budgets mt !! call_agent call with
  | Some budget =>
      mkMetering (<[call_agent call := settle budget r now actual]> (budgets mt)) (records mt)
  | None => mt
  end.

Definition Admission_observe_usage (a : Admission) (usage : ModelUsage) : Admission :=
  let o := adm_observed a in
  mkAdmission (adm_call a) (adm_estimate a) (adm_reservation a)
    (mkObserved (Some (merged (unwrap_or (obs_usage o) usage_default) usage)) (obs_text_bytes o))
    (adm_settled a).

Definition Admission_observe_text (a : Admission) (bytes : Z) : Admission :=
  let o := adm_observed a in
  mkAdmission (adm_call a) (adm_estimate a) (adm_reservation a)
    (mkObserved (obs_usage o) (sat_add_u64 (obs_text_bytes o) bytes)) (adm_settled a).

Definition Admission_finish (a : Admission) mt (now : Z) (outcome : Outcome)
    (error_kind : option str) : Admission * Metering M :=
  if adm_settled a then (a, mt)
  else
    let charge := Charge_of outcome (adm_estimate a) (adm_observed a) in
    let mt' :=
      match adm_reservation a with
      | Some reservation =>
          Metering_settle mt now (adm_call a) reservation
            (sat_add_u64 (charge_input charge) (charge_output charge))
      | None => mt
      end in
    (mkAdmission (adm_call a) (adm_estimate a) None (adm_observed a) true,
     mkMetering (budgets mt')
       (records mt' ++ [record (adm_call a) (adm_estimate a) charge error_kind])).

(** [Drop for Admission]. *)
Definition Admission_drop (a : Admission) mt (now : Z) : Metering M :=
  (Admission_finish a mt now Cancelled None).2.

(** [settle] takes the admission by value, so it is dropped at its end. *)
Definition Admission_settle (a : Admission) mt (now : Z) (outcome : Outcome) : Metering M :=
  let (a', mt') := Admission_finish a mt now outcome None in Admission_drop a' mt' now.

Definition Admission_settle_with_kind (a : Admission) mt (now : Z) (outcome : Outcome)
    (error_kind : str) : Metering M :=
  let (a', mt') := Admission_finish a mt now outcome (Some error_kind) in
  Admission_drop a' mt' now.

End Metering.

(** ** Usage merges *)

Lemma option_or_assoc {A : Type} (a b c : option A) :
  option_or a (option_or b c) = option_or (option_or a b) c.
Proof. by destruct a. Qed.

Lemma merged_assoc (a b c : ModelUsage) : merged (merged a b) c = merged a (merged b c).
Proof. unfold merged; cbn. by rewrite !option_or_assoc. Qed.

Lemma merged_default_l (u : ModelUsage) : merged usage_default u = u.
Proof.
  destruct u as [a b c d e f]. unfold merged; cbn.
  by destruct a, b, c, d, e, f.
Qed.

(** ** What an admission is charged *)

Definition charged (a : Admission) (outcome : Outcome) : Z :=
  let charge := Charge_of outcome (adm_estimate a) (adm_observed a) in
  sat_add_u64 (charge_input charge) (charge_output charge).

Definition usage_ok (u : ModelUsage) : Prop :=
  match input_tokens u with Some t => in_u64 t | None => True end ∧
  match output_tokens u with Some t => in_u64 t | None => True end.

Definition estimate_ok (e : Estimate) : Prop :=
  in_u64 (est_input e) ∧ in_u64 (est_output_reserve e).

Definition admission_ok (a : Admission) : Prop :=
  adm_settled a = false ∧ estimate_ok (adm_estimate a) ∧
  usage_ok (unwrap_or (obs_usage (adm_observed a)) usage_default) ∧
  0 ≤ obs_text_bytes (adm_observed a).

Lemma usage_ok_merged (u v : ModelUsage) : usage_ok u → usage_ok v → usage_ok (merged u v).
Proof.
  unfold usage_ok, merged; cbn. intros [? ?] [? ?].
  destruct (input_tokens v), (output_tokens v); simpl; auto.
Qed.

Lemma Tokens_from_bytes_nonneg (n : Z) : 0 ≤ n → 0 ≤ Tokens_from_bytes n.
Proof.
  intros Hn. unfold Tokens_from_bytes. pose proof (div_ceil_bounds n 4 ltac:(lia)). lia.
Qed.

Lemma charge_parts_nonneg (a : Admission) (outcome : Outcome) :
  admission_ok a →
  0 ≤ charge_input (Charge_of outcome (adm_estimate a) (adm_observed a))
  ∧ 0 ≤ charge_output (Charge_of outcome (adm_estimate a) (adm_observed a)).
Proof.
  intros (_ & [[? _] _] & [Hi Ho] & Ht). unfold Charge_of.
  set (u := unwrap_or _ _) in *. pose proof (Tokens_from_bytes_nonneg _ Ht).
  assert (0 ≤ unwrap_or (input_tokens u) (est_input (adm_estimate a)))
    by (destruct (input_tokens u); simpl in *; unfold in_u64 in *; lia).
  assert (0 ≤ unwrap_or (output_tokens u) (Tokens_from_bytes (obs_text_bytes (adm_observed a))))
    by (destruct (output_tokens u); simpl in *; unfold in_u64 in *; lia).
  case_bool_decide; cbn; lia.
Qed.

Lemma record_int_id (v : Z) : 0 ≤ v ≤ i64_max → record_int v = v.
Proof.
  intros Hv. unfold record_int, try_i64.
  destruct ((i64_min <=? v) && (v <=? i64_max)) eqn:E; [done|].
  unfold i64_min, i64_max in *. dk_bool; lia.
Qed.

Lemma recorded_sum (i o : Z) :
  0 ≤ i → 0 ≤ o → sat_add_u64 i o ≤ i64_max → sat_add_u64 i o = record_int i + record_int o.
Proof.
  intros Hi Ho Hs.
  assert (i + o ≤ i64_max ∧ sat_add_u64 i o = i + o) as [Hle ->].
  { revert Hs. unfold sat_add_u64, i64_max, u64_max. lia. }
  clear Hs. assert (record_int i = i) as -> by (apply record_int_id; lia).
  by assert (record_int o = o) as -> by (apply record_int_id; lia).
Qed.

Lemma charged_ok (a : Admission) (outcome : Outcome) : admission_ok a → in_u64 (charged a outcome).
Proof.
  intros Hok. destruct (charge_parts_nonneg a outcome Hok).
  unfold charged, in_u64, sat_add_u64, u64_max. lia.
Qed.

Lemma est_total_ok (e : Estimate) : estimate_ok e → in_u64 (est_total e).
Proof. intros [? ?]. unfold est_total. dk_arith. Qed.

(** ** The whole system

    [sys_live] are the admissions in flight and [sys_accounts] keeps, per
    agent, the account of [TokenBudget]. A step is one operation of a call, or
    one agent's turn in the loops of [begin_restore], [abandon_restore] and
    [restore], which lock the budgets one after the other while calls go on;
    the clock may show any time, also an earlier one. *)

Record System (M : Type) : Type := mkSystem {
  sys_metering : Metering M;
  sys_live : list Admission;
  sys_now : Z;
  sys_accounts : str → Account
}.
Arguments mkSystem {M} _ _ _ _.
Arguments sys_metering {M} _.
Arguments sys_live {M} _.
Arguments sys_now {M} _.
Arguments sys_accounts {M} _.

Definition account_upd (accts : str → Account) (ag : str) (f : Account → Account)
    : str → Account :=
  fun ag' => if bool_decide (ag' = ag) then f (accts ag') else accts ag'.

(** Finishing a call settles its reservation, if it holds one. *)
Definition finish_account (a : Admission) (outcome : Outcome) (acct : Account) : Account :=
  match adm_reservation a with
  | Some r => settled_at acct (reservation_tokens r) (charged a outcome)
  | None => acct
  end.

Definition set_budget {M : Type} (mt : Metering M) (ag : str) (b : Budget M) : Metering M :=
  mkMetering (<[ag := b]> (budgets mt)) (records mt).

Definition row_ok (row : HistoryRow) : Prop := charge_ok (row_at row, row_tokens row).

Inductive sys_step {M : Type} `{MeterOps M} : System M → System M → Prop :=
| sys_tick mt live now now' accts :
    time_ok now' →
    sys_step (mkSystem mt live now accts)
             (mkSystem mt live now' (fun ag => seen_at (accts ag) now'))
| sys_admit mt live now accts call estimate a mt' :
    estimate_ok estimate → Metering_admit mt now call estimate = (Ok a, mt') →
    sys_step (mkSystem mt live now accts) (mkSystem mt' (a :: live) now accts)
| sys_refuse mt live now accts call estimate refusal mt' :
    estimate_ok estimate → Metering_admit mt now call estimate = (Err refusal, mt') →
    sys_step (mkSystem mt live now accts) (mkSystem mt' live now accts)
| sys_observe_usage mt l1 a l2 now accts usage :
    usage_ok usage →
    sys_step (mkSystem mt (l1 ++ a :: l2) now accts)
             (mkSystem mt (l1 ++ Admission_observe_usage a usage :: l2) now accts)
| sys_observe_text mt l1 a l2 now accts bytes :
    0 ≤ bytes →
    sys_step (mkSystem mt (l1 ++ a :: l2) now accts)
             (mkSystem mt (l1 ++ Admission_observe_text a bytes :: l2) now accts)
| sys_settle mt l1 a l2 now accts outcome :
    sys_step (mkSystem mt (l1 ++ a :: l2) now accts)
             (mkSystem (Admission_settle a mt now outcome) (l1 ++ l2) now
                (account_upd accts (call_agent (adm_call a)) (finish_account a outcome)))
| sys_settle_with_kind mt l1 a l2 now accts outcome kind :
    sys_step (mkSystem mt (l1 ++ a :: l2) now accts)
             (mkSystem (Admission_settle_with_kind a mt now outcome kind) (l1 ++ l2) now
                (account_upd accts (call_agent (adm_call a)) (finish_account a outcome)))
| sys_drop mt l1 a l2 now accts :
    sys_step (mkSystem mt (l1 ++ a :: l2) now accts)
             (mkSystem (Admission_drop a mt now) (l1 ++ l2) now
                (account_upd accts (call_agent (adm_call a)) (finish_account a Cancelled)))
| sys_begin_restore mt live now accts ag b :
    budgets mt !! ag = Some b →
    sys_step (mkSystem mt live now accts)
             (mkSystem (set_budget mt ag (begin_restore b)) live now accts)
| sys_abandon_restore mt live now accts ag b :
    budgets mt !! ag = Some b →
    sys_step (mkSystem mt live now accts)
             (mkSystem (set_budget mt ag (abandon_restore b)) live now accts)
| sys_restore mt live now accts ag b since rows :
    budgets mt !! ag = Some b → time_ok since → Forall row_ok rows →
    sys_step (mkSystem mt live now accts)
             (mkSystem (set_budget mt ag (restore b since (history_of ag b rows))) live now
                (account_upd accts ag
                   (fun acct => restored_at acct b since (history_of ag b rows)))).

(** The reservations one agent's calls hold. *)
Definition holds (ag : str) (a : Admission) : list Z :=
  match adm_reservation a with
  | Some r => if bool_decide (call_agent (adm_call a) = ag) then [reservation_tokens r] else []
  | None => []
  end.

Definition inflight (ag : str) (live : list Admission) : list Z :=
  concat (holds ag <$> live).

#[local] Arguments inflight : simpl never.

Section System.
Context {M : Type} `{MeterOps M}.
Implicit Types s : System M.

(** An agent's part of the system is the ledger of its budget. *)
Definition ledger_of (ag : str) s (b : Budget M) : Ledger M :=
  mkLedger b (inflight ag (sys_live s)) (sys_now s) (sys_accounts s ag).

Definition sys_inv s : Prop := Forall admission_ok (sys_live s).

Lemma inflight_app (ag : str) (l1 l2 : list Admission) :
  inflight ag (l1 ++ l2) = inflight ag l1 ++ inflight ag l2.
Proof. unfold inflight. by rewrite fmap_app, concat_app. Qed.

Lemma inflight_cons (ag : str) (a : Admission) (l : list Admission) :
  inflight ag (a :: l) = holds ag a ++ inflight ag l.
Proof. done. Qed.

(** Settling, with a kind or not, and dropping are one finish. *)
Lemma settle_is_finish (a : Admission) (mt : Metering M) (now : Z) (o : Outcome) :
  Admission_settle a mt now o = (Admission_finish a mt now o None).2.
Proof.
  unfold Admission_settle, Admission_drop, Admission_finish at 1 3.
  destruct (adm_settled a) eqn:E; [|done]. unfold Admission_finish. by rewrite E.
Qed.

Lemma settle_with_kind_is_finish (a : Admission) (mt : Metering M) (now : Z) (o : Outcome) k :
  Admission_settle_with_kind a mt now o k = (Admission_finish a mt now o (Some k)).2.
Proof.
  unfold Admission_settle_with_kind, Admission_drop, Admission_finish at 1 3.
  destruct (adm_settled a) eqn:E; [|done]. unfold Admission_finish. by rewrite E.
Qed.

(** Finishing a call is one settle step of its agent's ledger and leaves every
    other agent's ledger alone. *)
Lemma finish_simulates mt l1 a l2 now accts (o : Outcome) kind ag (b : Budget M) :
  admission_ok a → budgets mt !! ag = Some b →
  ∃ b', budgets (Admission_finish a mt now o kind).2 !! ag = Some b' ∧
    rtc step (ledger_of ag (mkSystem mt (l1 ++ a :: l2) now accts) b)
      (ledger_of ag (mkSystem (Admission_finish a mt now o kind).2 (l1 ++ l2) now
                       (account_upd accts (call_agent (adm_call a)) (finish_account a o))) b').
Proof.
  intros Hok Hb. pose proof (charged_ok a o Hok) as Hch. destruct Hok as (Hset & _).
  unfold Admission_finish, ledger_of, account_upd, finish_account. rewrite Hset. cbn.
  rewrite !inflight_app, inflight_cons. unfold holds.
  destruct (adm_reservation a) as [[tokens]|]; cbn.
  2:{ exists b. split; [done|]. by case_bool_decide. }
  unfold Metering_settle. case_bool_decide as Hag.
  - subst ag. rewrite Hb; cbn. rewrite lookup_insert_eq. eexists. split; [done|].
    rewrite bool_decide_eq_true_2 by done. cbn. apply rtc_once. by apply step_settle.
  - destruct (budgets mt !! call_agent (adm_call a)); cbn.
    + rewrite lookup_insert_ne by done. exists b. split; [done|].
      by rewrite bool_decide_eq_false_2 by done.
    + exists b. split; [done|]. by rewrite bool_decide_eq_false_2 by done.
Qed.

(** One agent's turn in a restore loop is a step of that agent's ledger. *)
Lemma budget_simulates mt live now accts ag0 (b0 b0' : Budget M) (f : Account → Account) ag b :
  budgets mt !! ag0 = Some b0 → budgets mt !! ag = Some b →
  (∀ out, step (mkLedger b0 out now (accts ag0)) (mkLedger b0' out now (f (accts ag0)))) →
  ∃ b', budgets (set_budget mt ag0 b0') !! ag = Some b' ∧
    rtc step (ledger_of ag (mkSystem mt live now accts) b)
      (ledger_of ag (mkSystem (set_budget mt ag0 b0') live now (account_upd accts ag0 f)) b').
Proof.
  intros Hb0 Hb Hstep. unfold ledger_of, account_upd; cbn. case_bool_decide as Hag.
  - subst ag. rewrite Hb in Hb0. injection Hb0 as ->. rewrite lookup_insert_eq. exists b0'.
    split; [done|]. by apply rtc_once.
  - rewrite lookup_insert_ne by done. by exists b.
Qed.

(** The same for a turn that leaves the account alone. *)
Lemma budget_simulates_id mt live now accts ag0 (b0 b0' : Budget M) ag b :
  budgets mt !! ag0 = Some b0 → budgets mt !! ag = Some b →
  (∀ out, step (mkLedger b0 out now (accts ag0)) (mkLedger b0' out now (accts ag0))) →
  ∃ b', budgets (set_budget mt ag0 b0') !! ag = Some b' ∧
    rtc step (ledger_of ag (mkSystem mt live now accts) b)
      (ledger_of ag (mkSystem (set_budget mt ag0 b0') live now accts) b').
Proof.
  intros Hb0 Hb Hstep.
  destruct (budget_simulates mt live now accts ag0 b0 b0' id ag b Hb0 Hb Hstep) as (b' & Hb' & Hr).
  exists b'. split; [done|]. revert Hr. unfold ledger_of, account_upd; cbn. by case_bool_decide.
Qed.

Lemma history_ok ag (b : Budget M) (rows : list HistoryRow) :
  Forall row_ok rows → Forall charge_ok (history_of ag b rows).
Proof.
  intros Hr. unfold history_of. apply Forall_fmap. rewrite List.Forall_forall in *.
  intros row Hin. apply List.filter_In in Hin as [Hin _]. by apply Hr.
Qed.

Lemma admit_simulates mt live now accts call estimate ag (b : Budget M) :
  estimate_ok estimate → budgets mt !! ag = Some b →
  let (res, mt') := Metering_admit mt now call estimate in
  ∃ b', budgets mt' !! ag = Some b' ∧
    rtc step (ledger_of ag (mkSystem mt live now accts) b)
      (ledger_of ag (mkSystem mt' (match res with Ok a => a :: live | Err _ => live end) now accts) b').
Proof.
  intros He Hb. unfold Metering_admit.
  destruct (budgets mt !! call_agent call) as [budget|] eqn:Hc; [|by exists b].
  destruct (covers budget (call_model call)); [|by exists b].
  destruct (reserve budget now (est_total estimate)) as [[r budget']|refusal] eqn:Hr; cbn.
  - unfold ledger_of; cbn. rewrite inflight_cons. unfold holds; cbn. case_bool_decide as Hag.
    + subst ag. rewrite lookup_insert_eq. exists budget'. split; [done|].
      rewrite Hb in Hc. injection Hc as ->. apply rtc_once.
      by eapply step_reserve; [apply est_total_ok|].
    + rewrite lookup_insert_ne by done. by exists b.
  - by exists b.
Qed.

(** Every step of the system is matched, for every agent, by steps of the
    ledger of its budget. *)
Lemma sys_step_simulates s s' :
  sys_step s s' → sys_inv s →
  sys_inv s' ∧
  ∀ ag b, budgets (sys_metering s) !! ag = Some b →
    ∃ b', budgets (sys_metering s') !! ag = Some b' ∧
      rtc step (ledger_of ag s b) (ledger_of ag s' b').
Proof.
  unfold sys_inv. destruct 1 as [mt live now now' accts Ht|mt live now accts call est a mt' He Ha
    |mt live now accts call est ref mt' He Ha|mt l1 a l2 now accts usage Hu|mt l1 a l2 now accts bytes Hb
    |mt l1 a l2 now accts o|mt l1 a l2 now accts o k|mt l1 a l2 now accts
    |mt live now accts ag0 b0 Hb0|mt live now accts ag0 b0 Hb0
    |mt live now accts ag0 b0 since rows Hb0 Hs Hrows]; cbn; intros Hinv.
  - split; [done|]. intros ag b Hb. exists b. split; [done|].
    apply rtc_once. by apply step_tick.
  - split.
    + constructor; [|done]. revert Ha. unfold Metering_admit.
      repeat case_match; intros; simplify_eq; (split; [done|]); (split; [done|]); done.
    + intros ag b Hb. pose proof (admit_simulates mt live now accts call est ag b He Hb) as Hs.
      by rewrite Ha in Hs.
  - split; [done|]. intros ag b Hb.
    pose proof (admit_simulates mt live now accts call est ag b He Hb) as Hs. by rewrite Ha in Hs.
  - apply Forall_app in Hinv as [H1 H2]. inversion H2 as [|? ? (? & ? & ? & ?) ?]; subst.
    split.
    + apply Forall_app. split; [done|]. constructor; [|done].
      split; [done|]. split; [done|]. split; [by apply usage_ok_merged|done].
    + intros ag b Hb. exists b. split; [done|]. unfold ledger_of; cbn.
      by rewrite !inflight_app, !inflight_cons.
  - apply Forall_app in Hinv as [H1 H2]. inversion H2 as [|? ? (? & ? & ? & ?) ?]; subst.
    split.
    + apply Forall_app. split; [done|]. constructor; [|done].
      split; [done|]. split; [done|]. split; [done|]. cbn. dk_arith.
    + intros ag b Hb'. exists b. split; [done|]. unfold ledger_of; cbn.
      by rewrite !inflight_app, !inflight_cons.
  - apply Forall_app in Hinv as [H1 H2]. inversion H2; subst. split; [by apply Forall_app|].
    intros ag b Hb. rewrite settle_is_finish. by apply finish_simulates.
  - apply Forall_app in Hinv as [H1 H2]. inversion H2; subst. split; [by apply Forall_app|].
    intros ag b Hb. rewrite settle_with_kind_is_finish. by apply finish_simulates.
  - apply Forall_app in Hinv as [H1 H2]. inversion H2; subst. split; [by apply Forall_app|].
    intros ag b Hb. by apply finish_simulates.
  - split; [done|]. intros ag b Hb.
    apply (budget_simulates_id mt live now accts ag0 b0); [done..|]. intros. apply step_begin_restore.
  - split; [done|]. intros ag b Hb.
    apply (budget_simulates_id mt live now accts ag0 b0); [done..|]. intros. apply step_abandon_restore.
  - split; [done|]. intros ag b Hb. apply (budget_simulates mt live now accts ag0 b0); [done..|].
    intros. apply step_restore; [done|by apply history_ok].
Qed.

Lemma sys_simulates s s' :
  rtc sys_step s s' → sys_inv s →
  sys_inv s' ∧
  ∀ ag b, budgets (sys_metering s) !! ag = Some b →
    ∃ b', budgets (sys_metering s') !! ag = Some b' ∧
      rtc step (ledger_of ag s b) (ledger_of ag s' b').
Proof.
  induction 1 as [s|s1 s2 s3 Hstep _ IH]; intros Hinv; [by split; [|eauto using rtc_refl]|].
  destruct (sys_step_simulates _ _ Hstep Hinv) as [Hinv2 Hsim].
  destruct (IH Hinv2) as [Hinv3 Hsim3]. split; [done|]. intros ag b Hb.
  destruct (Hsim ag b Hb) as (b2 & Hb2 & Hr2). destruct (Hsim3 ag b2 Hb2) as (b3 & Hb3 & Hr3).
  exists b3. split; [done|]. by etrans.
Qed.

(** ** The restore loops

    [turn] is what a loop over the budgets does to one of them; taking every
    agent once, in whatever order the map has them, is the whole operation. *)
Definition turn (f : str → Budget M → Budget M) (mt : Metering M) (ag : str) : Metering M :=
  match budgets mt !! ag with Some b => set_budget mt ag (f ag b) | None => mt end.

Lemma turns_lookup (f : str → Budget M → Budget M) (ags : list str) mt (ag : str) :
  NoDup ags →
  budgets (foldl (turn f) mt ags) !! ag
  = (fun b => if decide (ag ∈ ags) then f ag b else b) <$> budgets mt !! ag.
Proof.
  intros Hnd. revert mt. induction Hnd as [|a ags Ha _ IH]; intros mt; cbn.
  { by destruct (budgets mt !! ag). }
  rewrite IH. unfold turn. destruct (budgets mt !! a) as [b|] eqn:Hb; cbn.
  - destruct (decide (ag = a)) as [->|Hne].
    + rewrite lookup_insert_eq, Hb; cbn. rewrite (decide_False _ _ Ha).
      rewrite decide_True by set_solver. done.
    + rewrite lookup_insert_ne by done. destruct (budgets mt !! ag); cbn; [|done].
      f_equal. destruct (decide (ag ∈ ags)), (decide (ag ∈ a :: ags)); set_solver.
  - destruct (budgets mt !! ag) eqn:Hg; cbn; [|done]. assert (ag ≠ a) by congruence.
    f_equal. destruct (decide (ag ∈ ags)), (decide (ag ∈ a :: ags)); set_solver.
Qed.

Lemma turns_records (f : str → Budget M → Budget M) (ags : list str) mt :
  records (foldl (turn f) mt ags) = records mt.
Proof.
  revert mt. induction ags as [|a ags IH]; intros mt; cbn; [done|].
  rewrite IH. unfold turn. by destruct (budgets mt !! a).
Qed.

Lemma turns_whole (f : str → Budget M → Budget M) mt :
  foldl (turn f) mt (elements (dom (budgets mt)))
  = mkMetering (map_imap (fun ag b => Some (f ag b)) (budgets mt)) (records mt).
Proof.
  pose proof (turns_records f (elements (dom (budgets mt))) mt) as Hr.
  assert (budgets (foldl (turn f) mt (elements (dom (budgets mt))))
          = map_imap (fun ag b => Some (f ag b)) (budgets mt)) as Hb.
  { apply map_eq. intros ag. rewrite turns_lookup, map_lookup_imap by apply NoDup_elements.
    destruct (budgets mt !! ag) as [b|] eqn:E; cbn; [|done].
    rewrite decide_True; [done|]. apply elem_of_elements. by eapply elem_of_dom_2. }
  destruct (foldl _ _ _); cbn in *. by subst.
Qed.

Lemma turns_run (f : str → Budget M → Budget M) live now :
  (∀ mt accts ag b, budgets mt !! ag = Some b → ∃ accts',
     sys_step (mkSystem mt live now accts) (mkSystem (set_budget mt ag (f ag b)) live now accts')) →
  ∀ ags mt accts, ∃ accts',
    rtc sys_step (mkSystem mt live now accts) (mkSystem (foldl (turn f) mt ags) live now accts').
Proof.
  intros Hf ags. induction ags as [|a ags IH]; intros mt accts; cbn; [by exists accts|].
  unfold turn at 2. destruct (budgets mt !! a) as [b|] eqn:Hb; [|apply IH].
  destruct (Hf mt accts a b Hb) as [accts1 H1]. destruct (IH (set_budget mt a (f a b)) accts1)
    as [accts2 H2]. exists accts2. by eapply rtc_l.
Qed.

(** The restore operations of the metering, called beside live calls, are runs
    of the system. *)
Lemma restore_operations_are_runs mt live now accts since (rows : list HistoryRow) :
  time_ok since → Forall row_ok rows →
  (∃ accts', rtc sys_step (mkSystem mt live now accts)
               (mkSystem (Metering_begin_restore mt) live now accts')) ∧
  (∃ accts', rtc sys_step (mkSystem mt live now accts)
               (mkSystem (Metering_abandon_restore mt) live now accts')) ∧
  (∃ accts', rtc sys_step (mkSystem mt live now accts)
               (mkSystem (Metering_restore mt since rows) live now accts')).
Proof.
  intros Hs Hrows.
  assert (∀ f : Budget M → Budget M,
    mkMetering (f <$> budgets mt) (records mt)
    = foldl (turn (fun _ => f)) mt (elements (dom (budgets mt)))) as Hmap.
  { intros f. rewrite turns_whole. f_equal. apply map_eq. intros ag.
    rewrite lookup_fmap, map_lookup_imap. by destruct (budgets mt !! ag). }
  unfold Metering_begin_restore, Metering_abandon_restore, Metering_restore.
  rewrite !Hmap, <- turns_whole. repeat split; apply turns_run; intros mt' accts' ag b Hb;
    eexists; [by apply sys_begin_restore|by apply sys_abandon_restore|by apply sys_restore].
Qed.

End System.

(** ** Runs and records *)

(** [runs n s s']: a run in which [n] calls asked to be admitted. *)
Definition asks {M : Type} `{MeterOps M} (s s' : System M) : Prop :=
  ∃ call estimate res mt', estimate_ok estimate
    ∧ Metering_admit (sys_metering s) (sys_now s) call estimate = (res, mt')
    ∧ s' = mkSystem mt' (match res with Ok a => a :: sys_live s | Err _ => sys_live s end)
             (sys_now s) (sys_accounts s).

Inductive runs {M : Type} `{MeterOps M} : nat → System M → System M → Prop :=
| runs_refl s : runs 0 s s
| runs_ask n s1 s2 s3 : asks s1 s2 → runs n s2 s3 → runs (S n) s1 s3
| runs_other n s1 s2 s3 : sys_step s1 s2 → ¬ asks s1 s2 → runs n s2 s3 → runs n s1 s3.

Section Records.
Context {M : Type} `{MeterOps M}.
Implicit Types (s : System M) (mt : Metering M).

Definition pending s : nat := length (records (sys_metering s)) + length (sys_live s).

Lemma asks_step s s' : asks s s' → sys_step s s'.
Proof.
  destruct s as [mt live now accts]. intros (call & e & [a|r] & mt' & He & Ha & ->); cbn in *.
  - by eapply sys_admit.
  - by eapply sys_refuse.
Qed.

Lemma asks_pending s s' : asks s s' → pending s' = S (pending s).
Proof.
  intros (call & e & res & mt' & _ & Ha & ->). unfold pending; cbn. revert Ha. unfold Metering_admit.
  repeat case_match; intros; simplify_eq; cbn; rewrite ?length_app; cbn; lia.
Qed.

Lemma finish_records (a : Admission) mt (now : Z) (o : Outcome) (kind : option str) :
  adm_settled a = false →
  records (Admission_finish a mt now o kind).2
  = records mt ++ [record (adm_call a) (adm_estimate a)
                     (Charge_of o (adm_estimate a) (adm_observed a)) kind].
Proof.
  intros Ha. unfold Admission_finish, Metering_settle. rewrite Ha. cbn. by repeat case_match.
Qed.

Lemma step_pending s s' : sys_step s s' → sys_inv s → ¬ asks s s' → pending s' = pending s.
Proof.
  unfold sys_inv, pending.
  destruct 1 as [mt live now now' accts Ht|mt live now accts call est a mt' He Ha
    |mt live now accts call est ref mt' He Ha|mt l1 a l2 now accts usage Hu|mt l1 a l2 now accts bytes Hb
    |mt l1 a l2 now accts o|mt l1 a l2 now accts o k|mt l1 a l2 now accts
    |mt live now accts ag0 b0 Hb0|mt live now accts ag0 b0 Hb0
    |mt live now accts ag0 b0 since rows Hb0 Hs Hrows];
    cbn [sys_live sys_metering]; intros Hinv Hasks; rewrite ?length_app; cbn [length]; try done.
  - destruct Hasks. by exists call, est, (Ok a), mt'.
  - destruct Hasks. by exists call, est, (Err ref), mt'.
  - apply Forall_app in Hinv as [_ H2]. inversion H2 as [|? ? (Hs & _)]; subst.
    rewrite settle_is_finish, finish_records, length_app by done. cbn. lia.
  - apply Forall_app in Hinv as [_ H2]. inversion H2 as [|? ? (Hs & _)]; subst.
    rewrite settle_with_kind_is_finish, finish_records, length_app by done. cbn. lia.
  - apply Forall_app in Hinv as [_ H2]. inversion H2 as [|? ? (Hs & _)]; subst.
    unfold Admission_drop. rewrite finish_records, length_app by done. cbn. lia.
Qed.

Lemma runs_pending (n : nat) s s' : runs n s s' → sys_inv s → pending s' = (n + pending s)%nat.
Proof.
  induction 1 as [s|n s1 s2 s3 Hask _ IH|n s1 s2 s3 Hstep Hno _ IH]; intros Hinv; [done| |].
  - destruct (sys_step_simulates _ _ (asks_step _ _ Hask) Hinv) as [Hinv2 _].
    rewrite (IH Hinv2), (asks_pending _ _ Hask). lia.
  - destruct (sys_step_simulates _ _ Hstep Hinv) as [Hinv2 _].
    by rewrite (IH Hinv2), (step_pending _ _ Hstep Hinv Hno).
Qed.

(** A budget of the starting configuration. *)
Lemma Metering_new_lookup (bs : list (Budget M)) (ag : str) (b : Budget M) :
  budgets (Metering_new bs) !! ag = Some b → b ∈ bs.
Proof.
  unfold Metering_new; cbn. induction bs as [|b' bs IH] using rev_ind; cbn; [done|].
  rewrite foldl_app; cbn. destruct (decide (ag = agent b')) as [->|Hne].
  - rewrite lookup_insert_eq. intros [= ->]. set_solver.
  - rewrite lookup_insert_ne by done. set_solver.
Qed.

End Records.

Lemma merged_fold_input (us : list ModelUsage) :
  input_tokens (foldl merged usage_default us) = list.last (omap input_tokens us)
  ∧ output_tokens (foldl merged usage_default us) = list.last (omap output_tokens us).
Proof.
  induction us as [|u us [IHi IHo]] using rev_ind; [done|].
  rewrite foldl_app, !omap_app; cbn. rewrite IHi, IHo.
  destruct (input_tokens u), (output_tokens u); cbn; rewrite ?last_snoc, ?app_nil_r; done.
Qed.

(** ** Properties *)

Section Properties.
Context {M : Type} `{MeterLaws M}.
Implicit Types (s : System M) (mt : Metering M).

(** A budget as it is configured at start. *)
Definition fresh_budget (now : Z) (b : Budget M) : Prop :=
  ∃ ag ms specs, b = Budget_new ag ms specs now ∧ specs ≠ [] ∧ Forall spec_ok specs.

(** C20: no agent overspends. In every run of the whole metering, calls of all
    agents admitted, observed, settled and dropped as they may, the restore
    loops taking the budgets one by one beside them and the clock showing any
    times, each configured budget stays in place and its part of the run is a
    run of that budget alone, of the steps of [TokenBudget]. So, as long as
    at most 2^79 tokens were charged to it or replayed, the tokens it
    reserves are exactly those of that agent's admissions in flight, each of
    its meters, at the latest time seen, is within its limit but for what the
    agent's own calls used beyond their reservations and what the last restore
    replayed and held, and it admits exactly what then fits every meter. *)
Theorem metering_never_overspends (bs : list (Budget M)) (now : Z) s ag b0 :
  let s0 := mkSystem (Metering_new bs) [] now (fun _ => Account_new now) in
  Forall (fresh_budget now) bs → time_ok now → rtc sys_step s0 s →
  budgets (Metering_new bs) !! ag = Some b0 →
  ∃ b, budgets (sys_metering s) !! ag = Some b ∧
    rtc step (ledger_of ag s0 b0) (ledger_of ag s b) ∧
    (ac_spent (sys_accounts s ag) ≤ over_bound →
     reserved b = Zsum (inflight ag (sys_live s)) ∧
     Forall (fun m => meter_used m (ac_seen (sys_accounts s ag)) + reserved b
                      ≤ spec_limit (meter_spec m) + ac_over (sys_accounts s ag)
                        + ac_restored (sys_accounts s ag)) (meters b) ∧
     ∀ estimate, in_u64 estimate →
       is_ok (reserve b (sys_now s) estimate) = true
       ↔ Forall (fun m => meter_used m (sys_now s) + reserved b + estimate
                          ≤ spec_limit (meter_spec m)) (meters b)).
Proof.
  intros s0 Hbs Hn Hrun Hb.
  destruct (sys_simulates _ _ Hrun ltac:(constructor)) as [_ Hsim].
  destruct (Hsim ag b0 Hb) as (b & Hb' & Hledger). exists b. split; [done|]. split; [done|].
  intros Hob. apply Metering_new_lookup, list_elem_of_In in Hb. rewrite List.Forall_forall in Hbs.
  destruct (Hbs b0 Hb) as (ag0 & ms & specs & -> & Hne & Hs).
  exact (inv_bounds _ (inv_reachable _ _ Hledger Hob (inv_initial ag0 ms specs now Hne Hs Hn))).
Qed.

(** Every call leaves exactly one record. After a run in which [n] calls
    asked to be admitted, whether they were refused, settled, settled with an
    error or only dropped, the records and the calls still in flight together
    are [n]; with none in flight there is one record per call. *)
Theorem every_call_leaves_one_record (bs : list (Budget M)) (now : Z) (n : nat) s :
  runs n (mkSystem (Metering_new bs) [] now (fun _ => Account_new now)) s →
  (length (records (sys_metering s)) + length (sys_live s))%nat = n.
Proof.
  intros Hrun. pose proof (runs_pending n _ _ Hrun ltac:(constructor)) as Hp.
  unfold pending in Hp; cbn in Hp. lia.
Qed.

(** Settling charges the agent's budget, once, with the tokens the record
    of the call states: the reservation is returned, the later drop of the
    admission changes nothing, and the budgets of other agents are untouched. *)
Theorem settle_charges_what_it_records (a : Admission) mt (now later : Z) (o : Outcome)
    (kind : option str) (r : Reservation) (b : Budget M) :
  adm_settled a = false → adm_reservation a = Some r →
  budgets mt !! call_agent (adm_call a) = Some b → charged a o ≤ i64_max → admission_ok a →
  let (a', mt') := Admission_finish a mt now o kind in
  ∃ rec, records mt' = records mt ++ [rec]
    ∧ budgets mt' = <[call_agent (adm_call a) := settle b r now (rec_input rec + rec_output rec)]>
                      (budgets mt)
    ∧ Admission_drop a' mt' later = mt'.
Proof.
  intros Hset Hr Hb Hch Hok. pose proof (finish_records a mt now o kind Hset) as Hrec.
  pose proof (charge_parts_nonneg a o Hok) as [Hi Ho].
  unfold charged in Hch. unfold Admission_finish in *. rewrite Hset in *. cbn in Hrec.
  eexists. split; [exact Hrec|]. rewrite Hr. unfold Metering_settle. rewrite Hb. cbn.
  split; [|done]. by rewrite recorded_sum.
Qed.

End Properties.

(** The usage an admission ends with is, for the input and the output
    tokens, the last value the stream reported, whatever partial reports came
    before or after it. *)
Theorem observed_usage_is_last_reported (a : Admission) (us : list ModelUsage) :
  obs_usage (adm_observed a) = None → us ≠ [] →
  ∃ u, obs_usage (adm_observed (foldl Admission_observe_usage a us)) = Some u
    ∧ input_tokens u = list.last (omap input_tokens us)
    ∧ output_tokens u = list.last (omap output_tokens us).
Proof.
  intros Ha Hne. exists (foldl merged usage_default us). split; [|apply merged_fold_input].
  assert (∀ us a, us ≠ [] → obs_usage (adm_observed (foldl Admission_observe_usage a us))
    = Some (foldl merged (unwrap_or (obs_usage (adm_observed a)) usage_default) us)) as Hf.
  { clear. intros us. induction us as [|u us IH]; intros a Hne; [done|]. cbn [foldl].
    destruct us as [|u' us]; [done|]. by rewrite IH. }
  by rewrite Hf, Ha.
Qed.

(** ** Witnesses *)

Definition demo_call : Call := mkCall (lit "scout") (lit "small") (lit "local") ViaAgent.
Definition demo_estimate : Estimate := mkEstimate 60 40.
Definition demo_metering : Metering Meter := Metering_new [demo_budget].
Definition demo_admission : Admission :=
  mkAdmission demo_call demo_estimate (Some (mkReservation 100)) observed_default false.
Definition demo_admitted : Metering Meter := (Metering_admit demo_metering 1700000000000 demo_call demo_estimate).2.

Definition demo_start : System Meter := mkSystem demo_metering [] 1700000000000 (fun _ => Account_new 1700000000000).
Definition demo_flying : System Meter :=
  mkSystem demo_admitted [demo_admission] 1700000000000 (fun _ => Account_new 1700000000000).

Lemma demo_estimate_ok : estimate_ok demo_estimate.
Proof. unfold estimate_ok, in_u64, u64_max; cbn. lia. Qed.

Lemma demo_asks : asks demo_start demo_flying.
Proof.
  exists demo_call, demo_estimate, (Ok demo_admission), demo_admitted.
  split; [apply demo_estimate_ok|]. split; [|done]. by vm_compute.
Qed.

Lemma demo_admission_ok : admission_ok demo_admission.
Proof. split; [done|]. split; [apply demo_estimate_ok|done]. Qed.

(** A restore beside the call in flight, with one row of its own agent. *)
Definition demo_meter_rows : list HistoryRow :=
  [mkHistoryRow (lit "scout") (lit "small") 1699999999000 5;
   mkHistoryRow (lit "other") (lit "small") 1699999999000 900].
Definition demo_history_of : list (Z * Z) := history_of (lit "scout") demo_reserved demo_meter_rows.
Definition demo_restoring : System Meter :=
  mkSystem (set_budget demo_admitted (lit "scout")
              (restore demo_reserved 1699999000000 demo_history_of)) [demo_admission] 1700000000000
    (account_upd (fun _ => Account_new 1700000000000) (lit "scout")
       (fun acct => restored_at acct demo_reserved 1699999000000 demo_history_of)).

Lemma metering_never_overspends_witness :
  ∃ b, budgets (sys_metering demo_restoring) !! lit "scout" = Some b ∧ reserved b = 100
    ∧ Forall (fun m => meter_used m 1700000000000 + reserved b
                       ≤ spec_limit (meter_spec m) + 0 + 105) (meters b).
Proof.
  destruct (metering_never_overspends [demo_budget] 1700000000000 demo_restoring (lit "scout")
    demo_budget) as (b & Hb & _ & Hbound).
  - constructor; [|constructor]. exists (lit "scout"), None, [demo_spec].
    split; [done|]. split; [done|]. constructor; [apply demo_spec_ok|constructor].
  - unfold time_ok. lia.
  - eapply rtc_l; [apply asks_step, demo_asks|]. apply rtc_once. apply sys_restore.
    + by vm_compute.
    + unfold time_ok. lia.
    + repeat constructor; cbn; unfold time_ok, in_u64, u64_max; lia.
  - by vm_compute.
  - exists b. destruct Hbound as (Hr & Hall & _); [vm_compute; discriminate|].
    split; [exact Hb|]. split; [exact Hr|exact Hall].
Defined.

Lemma every_call_leaves_one_record_witness :
  (length (records demo_admitted) + length [demo_admission])%nat = 1%nat.
Proof.
  apply (every_call_leaves_one_record [demo_budget] 1700000000000 1 demo_flying).
  eapply runs_ask; [apply demo_asks|apply runs_refl].
Defined.

Lemma settle_charges_what_it_records_witness :
  ∃ rec b, budgets (Admission_settle demo_admission demo_admitted 1700000060000 Succeeded)
           = <[lit "scout" := settle b (mkReservation 100) 1700000060000
                                (rec_input rec + rec_output rec)]> (budgets demo_admitted).
Proof.
  destruct (budgets demo_admitted !! lit "scout") as [b|] eqn:Hb; [|by vm_compute in Hb].
  pose proof (settle_charges_what_it_records demo_admission demo_admitted 1700000060000
    1700000060000 Succeeded None (mkReservation 100) b ltac:(done) ltac:(done) Hb
    ltac:(vm_compute; discriminate) demo_admission_ok) as Hs.
  rewrite settle_is_finish.
  destruct (Admission_finish demo_admission demo_admitted 1700000060000 Succeeded None)
    as [a' mt']. destruct Hs as (rec & _ & Hm & _). exists rec, b. exact Hm.
Defined.

Definition demo_usage (i o : option Z) : ModelUsage := mkUsage i None None o None None.

Lemma observed_usage_is_last_reported_witness :
  ∃ u, obs_usage (adm_observed (foldl Admission_observe_usage demo_admission
                   [demo_usage (Some 5) (Some 1); demo_usage None (Some 9)])) = Some u
    ∧ input_tokens u = Some 5 ∧ output_tokens u = Some 9.
Proof.
  apply (observed_usage_is_last_reported demo_admission
           [demo_usage (Some 5) (Some 1); demo_usage None (Some 9)]); done.
Defined.
