(* ===== verification/Identifier.v ===== *)
(** * Identifiers, secret names and command words

    [crates/dekopon-core/src/lib.rs]: the validated identifiers of agents,
    capabilities, providers, tasks, invocations, transports, principals and
    groups; the names of secrets; the ways a secret may be used; and the check
    that no two providers claim one command word. *)

From Stdlib Require Import ZArith Lia Ascii String.
From stdpp Require Import base gmap strings list sorting numbers.
From S2P Require Import Prelude.
From S2P Require Import RustStr.

Definition MAX_IDENTIFIER_LENGTH : Z := 253.
Definition MAX_SECRET_DRN_LENGTH : Z := 512.
Definition MAX_SECRET_USERNAME_LENGTH : Z := 256.

(** ** Identifiers *)

Inductive IdentifierError : Type :=
| IdEmpty (kind : str)
| IdTooLong (kind : str) (length maximum : Z)
| IdInvalidStart (kind : str) (character : Z)
| IdInvalidEnd (kind : str) (character : Z)
| IdInvalidCharacter (kind : str) (index character : Z)
| IdAdjacentSeparators (kind : str) (index : Z).

Definition is_edge_character (c : Z) : bool := is_ascii_lowercase c || is_ascii_digit c.

Definition is_separator (c : Z) : bool := (c =? ch ".") || (c =? ch "-") || (c =? ch "_").

(** The loop over [char_indices], with [previous_was_separator]. *)
Fixpoint scan_identifier (kind : str) (previous : bool) (cs : list (Z * Z))
    : result IdentifierError unit :=
  match cs with
  | [] => Ok tt
  | (index, c) :: cs =>
      if negb (is_edge_character c) && negb (is_separator c)
      then Err (IdInvalidCharacter kind index c)
      else if is_separator c && previous then Err (IdAdjacentSeparators kind index)
      else scan_identifier kind (is_separator c) cs
  end.

Definition validate_identifier (value kind : str) : result IdentifierError unit :=
  if is_empty value then Err (IdEmpty kind)
  else if MAX_IDENTIFIER_LENGTH <? len value
  then Err (IdTooLong kind (len value) MAX_IDENTIFIER_LENGTH)
  else
    match chars value with
    | [] => Err (IdEmpty kind)
    | first :: rest =>
        if negb (is_edge_character first) then Err (IdInvalidStart kind first)
        else
          let? _ := scan_identifier kind false (char_indices value) in
          let last := List.last rest first in
          if negb (is_edge_character last) then Err (IdInvalidEnd kind last) else Ok tt
    end.

(** [TryFrom<String>] and [FromStr] of every identifier type. *)
Definition identifier_from_str (kind value : str) : result IdentifierError str :=
  let? _ := validate_identifier value kind in Ok value.

Definition AgentId_from_str : str → result IdentifierError str := identifier_from_str (lit "agent").
Definition CapabilityId_from_str : str → result IdentifierError str :=
  identifier_from_str (lit "capability").
Definition ProviderId_from_str : str → result IdentifierError str :=
  identifier_from_str (lit "provider").
Definition TaskId_from_str : str → result IdentifierError str := identifier_from_str (lit "task").
Definition InvocationId_from_str : str → result IdentifierError str :=
  identifier_from_str (lit "invocation").
Definition TransportId_from_str : str → result IdentifierError str :=
  identifier_from_str (lit "transport").
Definition PrincipalId_from_str : str → result IdentifierError str :=
  identifier_from_str (lit "principal").
Definition GroupId_from_str : str → result IdentifierError str := identifier_from_str (lit "group").

(** ** Secret names *)

Inductive SecretDrnError : Type :=
| DrnMalformed
| DrnTooLong (length maximum : Z).

Definition valid_drn_component (value : str) : bool :=
  negb (is_empty value) && (len value <=? MAX_IDENTIFIER_LENGTH)
  && is_some_and (List.hd_error value) (fun b => is_ascii_lowercase b || is_ascii_digit b)
  && is_some_and (List.hd_error (rev value)) (fun b => is_ascii_lowercase b || is_ascii_digit b)
  && forallb (fun b => is_ascii_lowercase b || is_ascii_digit b || (b =? ch "-") || (b =? ch "_"))
       value.

Definition validate_secret_drn (value : str) : result SecretDrnError unit :=
  if MAX_SECRET_DRN_LENGTH <? len value then Err (DrnTooLong (len value) MAX_SECRET_DRN_LENGTH)
  else
    let? path := ok_or (strip_prefix value (lit "drn:secret:")) DrnMalformed in
    if existsb (fun segment => negb (valid_drn_component segment)
                               || str_eqb segment (lit ".") || str_eqb segment (lit ".."))
         (split (ch "/") path)
    then Err DrnMalformed else Ok tt.

(** [make_ascii_lowercase], then the check: the name kept is the folded one. *)
Definition SecretDrn_from_str (value : str) : result SecretDrnError str :=
  let value := to_ascii_lowercase value in
  let? _ := validate_secret_drn value in Ok value.

(** ** Uses of a secret *)

Inductive SecretSinkKind : Type := HttpBearer | HttpBasic | HttpBot.

#[export] Instance SecretSinkKind_eq_dec : EqDecision SecretSinkKind.
Proof. solve_decision. Defined.

Definition SecretSinkKind_display (k : SecretSinkKind) : str :=
  match k with
  | HttpBearer => lit "httpBearer"
  | HttpBasic => lit "httpBasic"
  | HttpBot => lit "httpBot"
  end.

Inductive SecretUseProposal : Type :=
| UseHttpBearer (secret : str)
| UseHttpBasic (secret username : str)
| UseHttpBot (secret : str).

Definition proposal_secret (p : SecretUseProposal) : str :=
  match p with UseHttpBearer s | UseHttpBasic s _ | UseHttpBot s => s end.

Definition proposal_sink (p : SecretUseProposal) : SecretSinkKind :=
  match p with
  | UseHttpBearer _ => HttpBearer
  | UseHttpBasic _ _ => HttpBasic
  | UseHttpBot _ => HttpBot
  end.

Definition proposal_username (p : SecretUseProposal) : option str :=
  match p with UseHttpBasic _ u => Some u | UseHttpBearer _ | UseHttpBot _ => None end.

Definition deserialize_secret_username (username : str) : option str :=
  if is_empty username || (MAX_SECRET_USERNAME_LENGTH <? len username)
     || mem (ch ":") username
     || existsb (fun b => is_ascii_control b || (b =? 127)) username
  then None else Some username.

Inductive Actor : Type :=
| Human (principal : str)
| AgentActor (agent : str)
| Service (principal : str).

#[export] Instance Actor_eq_dec : EqDecision Actor.
Proof. solve_decision. Defined.

(** ** Command words *)

Definition RESERVED_COMMAND_WORDS : list str :=
  [lit "."; lit ":"; lit "["; lit "[["; lit "]]"; lit "awk"; lit "base64"; lit "bg"; lit "break";
   lit "cap"; lit "case"; lit "cat"; lit "continue"; lit "cut"; lit "declare"; lit "do";
   lit "done"; lit "echo"; lit "elif"; lit "else"; lit "esac"; lit "eval"; lit "exec"; lit "exit";
   lit "export"; lit "false"; lit "fg"; lit "fi"; lit "for"; lit "function"; lit "grep";
   lit "head"; lit "if"; lit "in"; lit "jobs"; lit "jq"; lit "kill"; lit "local"; lit "printf";
   lit "progress"; lit "read"; lit "return"; lit "sed"; lit "select"; lit "set"; lit "shift";
   lit "sleep"; lit "sort"; lit "source"; lit "tail"; lit "test"; lit "then"; lit "trap";
   lit "true"; lit "uniq"; lit "unset"; lit "until"; lit "wait"; lit "wc"; lit "while";
   lit "xargs"].

Inductive CommandWordConflictKind : Type := Reserved | Duplicate | Repeated.

Record CommandWordConflict : Type := mkConflict {
  conflict_word : str;
  conflict_claimants : list str;
  conflict_kind : CommandWordConflictKind
}.

(** [Vec::len]. *)
Definition len_list {A : Type} (l : list A) : Z := Z.of_nat (length l).

(** [slice::contains]. *)
Definition contains_str (words : list str) (w : str) : bool := existsb (str_eqb w) words.

(** [entry(word).or_default().push(provider)]. *)
Definition claim (m : list (str * list str)) (provider word : str) : list (str * list str) :=
  bt_insert word (unwrap_or (bt_get word m) [] ++ [provider]) m.

Definition claimants (declared : list (str * list str)) : list (str * list str) :=
  foldl (fun m d => foldl (fun m w => claim m d.1 w) m d.2) [] declared.

Definition distinct (providers : list str) : list str :=
  foldl (fun acc p => if contains_str acc p then acc else acc ++ [p]) [] providers.

Definition conflict_of (word : str) (providers : list str) : option CommandWordConflictKind :=
  if contains_str RESERVED_COMMAND_WORDS word then Some Reserved
  else if 1 <? len_list (distinct providers) then Some Duplicate
  else if len_list (distinct providers) <? len_list providers then Some Repeated
  else None.

Definition command_word_conflicts (declared : list (str * list str)) : list CommandWordConflict :=
  foldl (fun acc e =>
    match conflict_of e.1 e.2 with
    | Some kind => acc ++ [mkConflict e.1 (distinct e.2) kind]
    | None => acc
    end) [] (claimants declared).

(** ** The grammar of identifiers *)

Definition edge (c : Z) : Prop := is_edge_character c = true.

(** Words of lowercase letters and digits, one separator between two. *)
Inductive ident_words : str → Prop :=
| iw_word w : w ≠ [] → Forall edge w → ident_words w
| iw_cons w sep rest :
    w ≠ [] → Forall edge w → is_separator sep = true → ident_words rest →
    ident_words (w ++ sep :: rest).

(** [scan_identifier] without its positions. *)
Fixpoint scan_ok (previous : bool) (cs : str) : bool :=
  match cs with
  | [] => true
  | c :: cs =>
      (is_edge_character c || is_separator c) && negb (is_separator c && previous)
      && scan_ok (is_separator c) cs
  end.

Lemma scan_identifier_ok (kind : str) (previous : bool) (cs : list (Z * Z)) :
  scan_identifier kind previous cs = Ok tt ↔ scan_ok previous cs.*2 = true.
Proof.
  revert previous. induction cs as [|[i c] cs IH]; intros p; cbn; [done|].
  destruct (is_edge_character c), (is_separator c), p; cbn; try apply IH; done.
Qed.

Lemma edge_not_separator (c : Z) : edge c → is_separator c = false.
Proof.
  intros He. apply not_true_is_false. intros Hs.
  unfold edge, is_edge_character, is_separator in *. dk_byte.
Qed.

Lemma edge_ascii (c : Z) : is_edge_character c || is_separator c = true → 0 ≤ c < 128.
Proof.
  unfold is_edge_character, is_separator. intros. dk_byte.
Qed.

Lemma scan_ok_app (w rest : str) (p : bool) :
  Forall edge w → scan_ok p (w ++ rest) = scan_ok (match w with [] => p | _ => false end) rest.
Proof.
  intros Hw. revert p. induction Hw as [|c w Hc Hw IH]; intros p; cbn; [done|].
  rewrite (edge_not_separator c Hc), IH. unfold edge in Hc. rewrite Hc. cbn. by destruct w.
Qed.

Lemma scan_ok_forall (p : bool) (cs : str) :
  scan_ok p cs = true → Forall (fun c => is_edge_character c || is_separator c = true) cs.
Proof.
  revert p. induction cs as [|c cs IH]; intros p; cbn; [constructor|].
  intros Hs. apply andb_true_iff in Hs as [[Hc _]%andb_true_iff Hs]. constructor; eauto.
Qed.

Lemma last_cons_default {A : Type} (c d : A) (s : list A) : List.last (c :: s) d = List.last s c.
Proof.
  revert c d. induction s as [|x s IH]; intros c d; [done|].
  change (List.last (c :: x :: s) d) with (List.last (x :: s) d). by rewrite !IH.
Qed.

Lemma last_app_cons (u : str) (c : Z) (s : str) (d : Z) :
  List.last (u ++ c :: s) d = List.last s c.
Proof.
  induction u as [|x u IH]; cbn [app]; [apply last_cons_default|].
  rewrite <- IH. cbn [List.last]. by destruct u.
Qed.

Lemma ident_words_of_scan (w rest : str) :
  w ≠ [] → Forall edge w → scan_ok false rest = true → edge (List.last (w ++ rest) 0) →
  ident_words (w ++ rest).
Proof.
  remember (length rest) as n eqn:Hn. revert w rest Hn.
  induction (lt_wf n) as [n _ IH]; intros w [|c rest] -> Hne Hw Hs Hl; cbn in Hs.
  { rewrite app_nil_r. by constructor. }
  apply andb_true_iff in Hs as [[Hc Hp]%andb_true_iff Hs].
  destruct (is_separator c) eqn:Hsep.
  - destruct rest as [|d rest].
    { rewrite List.last_last in Hl. apply edge_not_separator in Hl. congruence. }
    cbn in Hs. apply andb_true_iff in Hs as [[Hd Hp']%andb_true_iff Hs].
    destruct (is_separator d) eqn:Hsepd; [done|]. rewrite orb_false_r in Hd.
    apply iw_cons; [done..|]. change (d :: rest) with ([d] ++ rest).
    eapply IH; [|reflexivity|done|by repeat constructor|done|]; [cbn; lia|].
    cbn [app]. rewrite last_app_cons, last_cons_default in Hl. by rewrite last_cons_default.
  - rewrite orb_false_r in Hc. change (c :: rest) with ([c] ++ rest).
    rewrite app_assoc. eapply IH; [|reflexivity|by destruct w| |done|].
    + cbn. lia.
    + apply Forall_app. by repeat constructor.
    + by rewrite <- app_assoc.
Qed.

Lemma last_edge (w : str) (d : Z) : w ≠ [] → Forall edge w → edge (List.last w d).
Proof.
  intros Hne Hw. induction Hw as [|c w Hc Hw IH]; [done|]. destruct w; [done|].
  cbn [List.last]. by apply IH.
Qed.

Lemma ident_words_scan (v : str) :
  ident_words v →
  scan_ok false v = true ∧ edge (List.hd 0 v) ∧ (∀ d, edge (List.last v d)) ∧ v ≠ [].
Proof.
  induction 1 as [w Hne Hw|w sep rest Hne Hw Hsep Hr (Hs & Hh & Hl & Hne')].
  - rewrite <- (app_nil_r w) at 1. rewrite scan_ok_app by done. split; [by destruct w|].
    split; [by inversion Hw|]. split; [intros d; by apply last_edge|done].
  - rewrite scan_ok_app by done. destruct w as [|c w]; [done|]. inversion Hw as [|? ? Hc]; subst.
    cbn [scan_ok app List.hd]. rewrite Hsep, orb_true_r. split.
    + destruct rest as [|d rest]; [done|]. cbn in Hs, Hh |- *.
      by rewrite (edge_not_separator d Hh) in *.
    + split; [done|]. split; [|done]. intros d. destruct rest as [|x rest]; [done|].
      change (c :: w ++ sep :: x :: rest) with ((c :: w) ++ sep :: (x :: rest)).
      rewrite last_app_cons. apply Hl.
Qed.

Lemma validate_identifier_grammar (v kind : str) :
  str_ok v = true →
  validate_identifier v kind = Ok tt ↔ len v ≤ MAX_IDENTIFIER_LENGTH ∧ ident_words v.
Proof.
  intros Hutf. unfold validate_identifier. split.
  - destruct (is_empty v); [done|]. destruct (_ <? _) eqn:Hlen; [done|]. dk_bool.
    destruct (chars v) as [|c cs] eqn:Hcs; [done|].
    destruct (is_edge_character c) eqn:Hc; [|done]. cbn [negb].
    destruct (scan_identifier kind false (char_indices v)) as [[]|] eqn:Hscan; [|done]. cbn.
    destruct (is_edge_character (List.last cs c)) eqn:Hl; [|done]. intros _. split; [done|].
    apply scan_identifier_ok in Hscan. change (char_indices v).*2 with (chars v) in Hscan.
    assert (chars v = v) as Hv.
    { apply chars_ascii; [done|]. eapply Forall_impl; [|exact (scan_ok_forall _ _ Hscan)].
      intros x Hx%edge_ascii. lia. }
    rewrite Hcs in Hv, Hscan. subst v. change (c :: cs) with ([c] ++ cs).
    cbn in Hscan. rewrite (edge_not_separator c Hc) in Hscan. rewrite Hc in Hscan.
    apply ident_words_of_scan; [done|by repeat constructor|done|].
    cbn [app]. by rewrite last_cons_default.
  - intros [Hlen Hw]. destruct (ident_words_scan v Hw) as (Hs & Hh & Hl & Hne).
    assert (chars v = v) as Hv.
    { apply chars_of_ascii. eapply Forall_impl; [|exact (scan_ok_forall _ _ Hs)].
      intros x. apply edge_ascii. }
    rewrite Hv, (proj2 (Z.ltb_ge _ _)) by done. destruct v as [|c cs]; [done|].
    cbn [is_empty List.hd] in *. unfold edge in Hh. rewrite Hh. cbn [negb].
    rewrite (proj2 (scan_identifier_ok kind false _));
      [|by change (char_indices (c :: cs)).*2 with (chars (c :: cs)); rewrite Hv].
    cbn. specialize (Hl 0). rewrite last_cons_default in Hl. unfold edge in Hl. by rewrite Hl.
Qed.

Lemma scan_identifier_error (kind : str) (p : bool) (cs : list (Z * Z)) (e : IdentifierError) :
  scan_identifier kind p cs = Err e →
  ∃ pre i c post, cs = pre ++ (i, c) :: post ∧ scan_ok p pre.*2 = true ∧
    (e = IdInvalidCharacter kind i c ∧ is_edge_character c = false ∧ is_separator c = false
     ∨ e = IdAdjacentSeparators kind i ∧ is_separator c = true
       ∧ List.last (is_separator <$> pre.*2) p = true).
Proof.
  revert p. induction cs as [|[i c] cs IH]; intros p; cbn; [done|].
  destruct (is_edge_character c) eqn:He, (is_separator c) eqn:Hs; cbn.
  1,3: destruct p; [intros [= <-]; exists [], i, c, cs; auto 10|].
  1,2,3: intros Herr; destruct (IH _ Herr) as (pre & i' & c' & post & -> & Hok & Hcase);
    exists ((i, c) :: pre), i', c', post;
    (split; [done|]); (split; [cbn; by rewrite He, Hs, Hok|]);
    destruct Hcase as [?|(? & ? & Hlast)]; [by left|right]; (split; [done|]); (split; [done|]);
    rewrite <- Hlast, fmap_cons, fmap_cons, last_cons_default; cbn [snd]; by rewrite Hs.
  intros [= <-]. exists [], i, c, cs. auto 10.
Qed.

(** ** Command words *)

(** Every claim, in the order of declaration. *)
Definition claims (declared : list (str * list str)) : list (str * str) :=
  concat ((fun d : str * list str => (fun w => (d.1, w)) <$> d.2) <$> declared).

Definition claimed_by (word : str) (cs : list (str * str)) : list str :=
  (List.filter (fun c => str_eqb word c.2) cs).*1.

Lemma claimants_fold (declared : list (str * list str)) (m : list (str * list str)) :
  foldl (fun m d => foldl (fun m w => claim m d.1 w) m d.2) m declared
  = foldl (fun m c => claim m c.1 c.2) m (claims declared).
Proof.
  revert m. induction declared as [|[p ws] ds IH]; intros m; [done|]. cbn [foldl].
  unfold claims. cbn [fmap list_fmap concat]. rewrite foldl_app. fold (claims ds). rewrite IH.
  f_equal. cbn [fst snd]. clear. revert m. induction ws as [|w ws IH]; intros m; [done|]. apply IH.
Qed.

(** What the map holds after the claims [cs]. *)
Lemma claims_get (cs : list (str * str)) (word : str) :
  let m := foldl (fun m c => claim m c.1 c.2) [] cs in
  bt_sorted m ∧
  bt_get word m = match claimed_by word cs with [] => None | ps => Some ps end.
Proof.
  induction cs as [|[p w] cs [Hs Hg]] using rev_ind; [split; [constructor|done]|].
  cbn zeta in *. rewrite foldl_app. cbn [foldl fst snd].
  set (m := foldl _ _ _) in *. split; [by apply bt_insert_sorted|].
  unfold claimed_by in *. rewrite List.filter_app, fmap_app. cbn.
  destruct (str_eqb word w) eqn:E; dk_bool.
  - subst w. unfold claim. rewrite bt_get_insert_eq, Hg. cbn.
    destruct ((List.filter _ cs).*1); done.
  - unfold claim. rewrite bt_get_insert_ne, Hg by done. cbn. by rewrite app_nil_r.
Qed.

Lemma claimants_elem (declared : list (str * list str)) (word : str) (ps : list str) :
  (word, ps) ∈ claimants declared ↔ ps = claimed_by word (claims declared) ∧ ps ≠ [].
Proof.
  unfold claimants. rewrite claimants_fold. destruct (claims_get (claims declared) word) as [Hs Hg].
  rewrite <- bt_get_elem, Hg by done. destruct (claimed_by _ _); split; try done.
  - by intros [-> ?].
  - by intros [= <-].
  - by intros [-> ?].
Qed.

Lemma conflicts_elem (declared : list (str * list str)) (c : CommandWordConflict) :
  c ∈ command_word_conflicts declared ↔
  ∃ ps, (conflict_word c, ps) ∈ claimants declared ∧ conflict_claimants c = distinct ps
        ∧ conflict_of (conflict_word c) ps = Some (conflict_kind c).
Proof.
  unfold command_word_conflicts.
  induction (claimants declared) as [|[w ps] m IH] using rev_ind; cbn [foldl].
  { split; [by intros ?%not_elem_of_nil|by intros (? & ?%not_elem_of_nil & _)]. }
  rewrite foldl_app. cbn [foldl fst snd]. destruct (conflict_of w ps) as [k|] eqn:E.
  - rewrite elem_of_app, IH, list_elem_of_singleton. split.
    + intros [(ps' & ? & ?)| ->]; [exists ps'|exists ps].
      * split; [apply elem_of_app; by left|done].
      * split; [apply elem_of_app; right; by apply list_elem_of_singleton|done].
    + intros (ps' & [?|Heq]%elem_of_app & Hd & Hk); [left; by exists ps'|right].
      apply list_elem_of_singleton in Heq as [= <- <-]. destruct c; cbn in *. congruence.
  - rewrite IH. split; intros (ps' & Hin & Hd & Hk); exists ps'; [split; [apply elem_of_app; by left|done]|].
    split; [|done].
    apply elem_of_app in Hin as [?|Heq]; [done|].
    apply list_elem_of_singleton in Heq as [= <- <-]. congruence.
Qed.

Lemma contains_str_true (l : list str) (w : str) : contains_str l w = true ↔ w ∈ l.
Proof.
  unfold contains_str. rewrite existsb_exists. split.
  - intros (x & Hx & ->%str_eqb_eq). by apply list_elem_of_In.
  - intros Hw. exists w. split; [by apply list_elem_of_In|by apply str_eqb_eq].
Qed.

Lemma distinct_snoc (ps : list str) (p : str) :
  distinct (ps ++ [p])
  = if contains_str (distinct ps) p then distinct ps else distinct ps ++ [p].
Proof. unfold distinct. by rewrite foldl_app. Qed.

(** The first occurrences, in order: no repetition and the same elements. *)
Lemma distinct_spec (ps : list str) :
  NoDup (distinct ps) ∧ (∀ p, p ∈ distinct ps ↔ p ∈ ps)
  ∧ (length (distinct ps) ≤ length ps)%nat.
Proof.
  induction ps as [|p ps (Hnd & Hel & Hlen)] using rev_ind; [by repeat constructor|].
  rewrite distinct_snoc, length_app. cbn [length].
  destruct (contains_str (distinct ps) p) eqn:E.
  - apply contains_str_true in E. split; [done|]. split; [|lia]. intros q.
    rewrite Hel, elem_of_app, list_elem_of_singleton. split; [by left|]. intros [?| ->]; [done|].
    by apply Hel.
  - assert (p ∉ distinct ps) by (intros H%contains_str_true; congruence). split; [|split].
    + apply list.NoDup_app. split; [done|].
      split; [by intros q Hq ->%list_elem_of_singleton|]. apply NoDup_singleton.
    + intros q. by rewrite !elem_of_app, Hel.
    + rewrite length_app. cbn. lia.
Qed.

(** A word is in conflict when it is reserved or claimed more than once. *)
Lemma conflict_of_None (word : str) (ps : list str) :
  ps ≠ [] →
  conflict_of word ps = None ↔ (word ∉ RESERVED_COMMAND_WORDS) ∧ length ps = 1%nat.
Proof.
  intros Hne. destruct (distinct_spec ps) as (Hnd & Hel & Hlen). unfold conflict_of, len_list.
  rewrite <- contains_str_true.
  assert (distinct ps ≠ []) as Hd.
  { destruct ps as [|p ps]; [done|]. intros Hd. rewrite Hd in Hel.
    by apply (not_elem_of_nil p), Hel, elem_of_cons; left. }
  destruct ps as [|p ps]; [done|]. destruct (distinct (p :: ps)) as [|d ds]; [done|].
  destruct (contains_str _ _); [split; [done|by intros [? _]]|]. cbn [length] in Hlen |- *.
  destruct (Z.ltb_spec 1 (Z.of_nat (S (length ds)))); [split; [done|lia]|].
  destruct (Z.ltb_spec (Z.of_nat (S (length ds))) (Z.of_nat (S (length ps)))).
  - split; [done|lia].
  - split; [intros _; split; [done|lia]|done].
Qed.

Lemma claimed_once (cs : list (str * str)) :
  (∀ word, (length (claimed_by word cs) ≤ 1)%nat) ↔ NoDup cs.*2.
Proof.
  unfold claimed_by. induction cs as [|[p w] cs IH]; cbn.
  { split; [constructor|lia]. }
  rewrite list.NoDup_cons, <- IH. split.
  - intros Hw. split.
    + intros Hin. apply list_elem_of_fmap in Hin as ([p' w'] & -> & Hin). specialize (Hw w').
      cbn in Hw. rewrite (proj2 (str_eqb_eq w' w')) in Hw by done. cbn in Hw.
      assert (length (List.filter (fun c => str_eqb w' c.2) cs).*1 = 0)%nat as Hz by lia.
      rewrite length_fmap in Hz. apply length_zero_iff_nil in Hz.
      assert ((p', w') ∈ List.filter (fun c => str_eqb w' c.2) cs) as H'.
      { apply list_elem_of_In, filter_In. split; [by apply list_elem_of_In|by apply str_eqb_eq]. }
      rewrite Hz in H'. by apply not_elem_of_nil in H'.
    + intros word. specialize (Hw word). destruct (str_eqb word w); cbn in Hw; lia.
  - intros [Hnot Hw] word. destruct (str_eqb word w) eqn:E; [|apply Hw]. dk_bool. subst w. cbn.
    enough (List.filter (fun c => str_eqb word c.2) cs = []) as -> by done.
    apply length_zero_iff_nil. destruct (List.filter _ cs) as [|[p' w'] l] eqn:El; [done|].
    assert ((p', w') ∈ List.filter (fun c => str_eqb word c.2) cs) as H' by (rewrite El; left).
    apply list_elem_of_In, filter_In in H' as [H' Hw'%str_eqb_eq]. cbn in Hw'. subst w'.
    destruct Hnot. apply list_elem_of_fmap. exists (p', word). split; [done|].
    by apply list_elem_of_In.
Qed.

Lemma claimed_not_nil (cs : list (str * str)) (w : str) : w ∈ cs.*2 ↔ claimed_by w cs ≠ [].
Proof.
  unfold claimed_by. induction cs as [|[p w'] cs IH]; cbn; [split; [by intros ?%not_elem_of_nil|done]|].
  rewrite elem_of_cons, IH. destruct (str_eqb w w') eqn:E; dk_bool.
  - split; [done|by left].
  - split; [by intros [?|?]|by right].
Qed.

(** ** Properties *)

(** An identifier is accepted exactly when it is at most 253 bytes and
    reads as words of lowercase ASCII letters and digits with a single
    separator ([.], [-] or [_]) between two of them. *)
Theorem identifier_grammar (kind v : str) :
  str_ok v = true →
  is_ok (identifier_from_str kind v) = true ↔ len v ≤ MAX_IDENTIFIER_LENGTH ∧ ident_words v.
Proof.
  intros Hutf. rewrite <- (validate_identifier_grammar v kind Hutf). unfold identifier_from_str.
  by destruct (validate_identifier v kind) as [[]|].
Qed.

(** The position an identifier error reports is that of the first
    character at fault: everything before it is accepted by the scan, and the
    character there is either not allowed at all or a separator that follows
    a separator. *)
Theorem identifier_error_is_first_fault (kind v : str) (e : IdentifierError) (i c : Z) :
  validate_identifier v kind = Err e →
  e = IdInvalidCharacter kind i c ∨ e = IdAdjacentSeparators kind i →
  ∃ pre c' post, char_indices v = pre ++ (i, c') :: post ∧ scan_ok false pre.*2 = true ∧
    (c' = c ∧ is_edge_character c = false ∧ is_separator c = false
     ∨ is_separator c' = true ∧ List.last (is_separator <$> pre.*2) false = true).
Proof.
  unfold validate_identifier. intros Hv He.
  destruct (is_empty v); [destruct He; simplify_eq|].
  destruct (_ <? _); [destruct He; simplify_eq|].
  destruct (chars v) as [|f cs]; [destruct He; simplify_eq|].
  destruct (negb (is_edge_character f)); [destruct He; simplify_eq|].
  destruct (scan_identifier kind false (char_indices v)) as [|e'] eqn:Hs; cbn in Hv.
  { destruct (negb _); destruct He; simplify_eq. }
  injection Hv as ->. apply scan_identifier_error in Hs as (pre & i' & c' & post & -> & Hok & Hc).
  exists pre, c', post.
  destruct Hc as [(-> & ? & ?)|(-> & ? & ?)]; destruct He; simplify_eq; auto 10.
Qed.

(** The name of a secret is kept in one spelling: whatever the case of
    the input, the accepted name is lower case, parses to itself, and is the
    prefix [drn:secret:] and segments that are valid components, so that no
    segment is empty, [.] or [..]. *)
Theorem secret_drn_is_canonical (v d : str) :
  SecretDrn_from_str v = Ok d →
  SecretDrn_from_str d = Ok d ∧ SecretDrn_from_str (to_ascii_lowercase v) = Ok d ∧
  ∃ segments, d = lit "drn:secret:" ++ join (ch "/") segments ∧ segments ≠ [] ∧
    Forall (fun s => valid_drn_component s = true) segments.
Proof.
  unfold SecretDrn_from_str. intros Hd.
  destruct (validate_secret_drn (to_ascii_lowercase v)) as [[]|] eqn:Hv; cbn in Hd; [|done].
  injection Hd as <-. rewrite lowercase_idemp, Hv. split; [done|]. split; [done|].
  unfold validate_secret_drn in Hv. destruct (_ <? _); [done|].
  destruct (strip_prefix _ _) as [path|] eqn:Hp; [|done]. cbn in Hv.
  apply strip_prefix_Some in Hp. rewrite Hp.
  exists (split (ch "/") path). rewrite join_split. split; [done|].
  split; [apply split_not_nil|].
  destruct (existsb _ _) eqn:He; [done|]. apply List.Forall_forall. intros s Hs.
  destruct (valid_drn_component s) eqn:Hc; [done|].
  rewrite (proj2 (existsb_exists _ _)) in He; [done|]. exists s. by rewrite Hc.
Qed.

(** The providers' command words are free of conflict exactly when no
    word is reserved by the shell and no word is declared twice, by one
    provider or by several. *)
Theorem no_conflict_iff_distinct (declared : list (str * list str)) :
  command_word_conflicts declared = []
  ↔ NoDup (claims declared).*2
    ∧ Forall (fun w => w ∉ RESERVED_COMMAND_WORDS) (claims declared).*2.
Proof.
  rewrite <- claimed_once.
  assert (command_word_conflicts declared = []
    ↔ ∀ w ps, (w, ps) ∈ claimants declared → conflict_of w ps = None) as ->.
  { split.
    - intros Hnil w ps Hin. destruct (conflict_of w ps) as [k|] eqn:E; [|done].
      assert (mkConflict w (distinct ps) k ∈ command_word_conflicts declared) as H
        by (apply conflicts_elem; by exists ps).
      rewrite Hnil in H. by apply not_elem_of_nil in H.
    - intros Hall. destruct (command_word_conflicts declared) as [|c l] eqn:E; [done|].
      assert (c ∈ command_word_conflicts declared) as Hc by (rewrite E; left).
      apply conflicts_elem in Hc as (ps & Hin & _ & Hk). rewrite (Hall _ _ Hin) in Hk. done. }
  split.
  - intros Hall.
    assert (∀ w, claimed_by w (claims declared) ≠ [] → (w ∉ RESERVED_COMMAND_WORDS)
              ∧ length (claimed_by w (claims declared)) = 1%nat) as Hone.
    { intros w Hne. apply conflict_of_None; [done|]. by apply Hall, claimants_elem. }
    split.
    + intros word. destruct (decide (claimed_by word (claims declared) = [])) as [->|Hne];
        [cbn; lia|]. by rewrite (proj2 (Hone word Hne)).
    + apply List.Forall_forall. intros w Hw%list_elem_of_In%claimed_not_nil.
      by apply (Hone w Hw).
  - intros [Hone Hres] w ps [-> Hne]%claimants_elem. apply conflict_of_None; [done|].
    split.
    + rewrite List.Forall_forall in Hres. apply Hres, list_elem_of_In.
      by apply claimed_not_nil.
    + specialize (Hone w). destruct (claimed_by w (claims declared)); [done|]. cbn in *. lia.
Qed.

(** ** Witnesses *)

Lemma identifier_grammar_witness :
  is_ok (identifier_from_str (lit "agent") (lit "github.pull-request.read")) = true
  ∧ ident_words (lit "github.pull-request.read").
Proof.
  assert (is_ok (identifier_from_str (lit "agent") (lit "github.pull-request.read")) = true) as H
    by (vm_compute; reflexivity).
  split; [exact H|].
  apply (identifier_grammar (lit "agent") (lit "github.pull-request.read")); [by vm_compute|exact H].
Defined.

Lemma identifier_error_is_first_fault_witness :
  ∃ pre c' post, char_indices (lit "reviewer/one") = pre ++ (8, c') :: post
    ∧ scan_ok false pre.*2 = true.
Proof.
  destruct (identifier_error_is_first_fault (lit "agent") (lit "reviewer/one")
    (IdInvalidCharacter (lit "agent") 8 (ch "/")) 8 (ch "/")) as (pre & c' & post & H1 & H2 & _).
  - by vm_compute.
  - by left.
  - by exists pre, c', post.
Defined.

Lemma secret_drn_is_canonical_witness :
  SecretDrn_from_str (lit "DRN:Secret:Payments/Blah-API-basic")
    = Ok (lit "drn:secret:payments/blah-api-basic")
  ∧ SecretDrn_from_str (lit "drn:secret:payments/blah-api-basic")
    = Ok (lit "drn:secret:payments/blah-api-basic").
Proof.
  assert (SecretDrn_from_str (lit "DRN:Secret:Payments/Blah-API-basic")
    = Ok (lit "drn:secret:payments/blah-api-basic")) as H by (vm_compute; reflexivity).
  split; [exact H|]. apply (secret_drn_is_canonical _ _ H).
Defined.
