(* ===== verification/Subject.v ===== *)
(** * Subjects

    [crates/dekopon-core/src/subject.rs]: the names of people, channels and
    repositories ([drn:<namespace>:<kind>:<tenant>:<id>]), the scopes that
    cover them with whole-field wildcards, and the forms in which a subject is
    attested. *)

From Stdlib Require Import ZArith Lia Ascii String.
From stdpp Require Import base gmap strings list sorting numbers.
From S2P Require Import Prelude.
From S2P Require Import RustStr.
From S2P Require Import Identifier.

Definition DRN_PREFIX : str := lit "drn".
Definition WILDCARD : str := lit "*".

Inductive PrincipalKind : Type := Person | Space | Repository | ServicePrincipal.

Definition PrincipalKind_as_str (k : PrincipalKind) : str :=
  match k with
  | Person => lit "person"
  | Space => lit "space"
  | Repository => lit "repository"
  | ServicePrincipal => lit "service"
  end.

Inductive Namespace : Type :=
| Fauxlack | Slack | Discord | Telegram | Whatsapp | Tel | Github.

Inductive SubjectKind : Type :=
| FauxlackUser | FauxlackChannel | SlackUser | SlackChannel | DiscordUser | DiscordChannel
| TelegramUser | WhatsappNumber | TelNumber | GithubRepo | GithubRepoId | GithubUser
| GithubUserId.

#[export] Instance Namespace_eq_dec : EqDecision Namespace.
Proof. solve_decision. Defined.

#[export] Instance SubjectKind_eq_dec : EqDecision SubjectKind.
Proof. solve_decision. Defined.

Inductive SubjectField : Type := Tenant | Id.

Definition SubjectField_as_str (f : SubjectField) : str :=
  match f with Tenant => lit "tenant" | Id => lit "id" end.

Inductive SubjectError : Type :=
| NotDrn
| FieldCount
| UnknownNamespace (namespace : str)
| UnknownKind (namespace : Namespace) (kind : str)
| ReservedKind (namespace : Namespace) (kind : str)
| InvalidField (field : SubjectField) (value : str)
| WildcardOutsideScope
| PartialWildcard (value : str)
| WildcardNamespace
| ScopeAdmitsNoKind (scope : str)
| GithubNeedsTwin
| Unpaired
| TooLong (maximum : Z).

(** ** Namespaces and kinds *)

Definition Namespace_as_str (n : Namespace) : str :=
  match n with
  | Fauxlack => lit "fauxlack"
  | Slack => lit "slack"
  | Discord => lit "discord"
  | Telegram => lit "telegram"
  | Whatsapp => lit "whatsapp"
  | Tel => lit "tel"
  | Github => lit "github"
  end.

Definition Namespace_kinds (n : Namespace) : list SubjectKind :=
  match n with
  | Fauxlack => [FauxlackUser; FauxlackChannel]
  | Slack => [SlackUser; SlackChannel]
  | Discord => [DiscordUser; DiscordChannel]
  | Telegram => [TelegramUser]
  | Whatsapp => [WhatsappNumber]
  | Tel => [TelNumber]
  | Github => [GithubRepo; GithubRepoId; GithubUser; GithubUserId]
  end.

Definition Namespace_reserves (n : Namespace) (kind : str) : bool :=
  match n with
  | Whatsapp => str_eqb kind (lit "user") || str_eqb kind (lit "user-id")
  | Fauxlack | Slack | Discord | Telegram | Tel | Github => false
  end.

Definition SubjectKind_namespace (k : SubjectKind) : Namespace :=
  match k with
  | FauxlackUser | FauxlackChannel => Fauxlack
  | SlackUser | SlackChannel => Slack
  | DiscordUser | DiscordChannel => Discord
  | TelegramUser => Telegram
  | WhatsappNumber => Whatsapp
  | TelNumber => Tel
  | GithubRepo | GithubRepoId | GithubUser | GithubUserId => Github
  end.

Definition SubjectKind_as_str (k : SubjectKind) : str :=
  match k with
  | FauxlackUser | SlackUser | DiscordUser | TelegramUser | GithubUser => lit "user"
  | FauxlackChannel | SlackChannel | DiscordChannel => lit "channel"
  | WhatsappNumber | TelNumber => lit "number"
  | GithubRepo => lit "repo"
  | GithubRepoId => lit "repo-id"
  | GithubUserId => lit "user-id"
  end.

Definition SubjectKind_principal_kind (k : SubjectKind) : PrincipalKind :=
  match k with
  | FauxlackUser | SlackUser | DiscordUser | TelegramUser | WhatsappNumber | TelNumber
  | GithubUser | GithubUserId => Person
  | FauxlackChannel | SlackChannel | DiscordChannel => Space
  | GithubRepo | GithubRepoId => Repository
  end.

Definition is_id_form (k : SubjectKind) : bool :=
  match k with
  | GithubRepoId | GithubUserId => true
  | FauxlackUser | FauxlackChannel | SlackUser | SlackChannel | DiscordUser | DiscordChannel
  | TelegramUser | WhatsappNumber | TelNumber | GithubRepo | GithubUser => false
  end.

Definition SubjectKind_display (k : SubjectKind) : str :=
  Namespace_as_str (SubjectKind_namespace k) ++ lit ":" ++ SubjectKind_as_str k.

Definition Namespace_kind (n : Namespace) (field : str) : result SubjectError SubjectKind :=
  if Namespace_reserves n field then Err (ReservedKind n field)
  else ok_or (find_first (fun k => str_eqb (SubjectKind_as_str k) field) (Namespace_kinds n))
         (UnknownKind n field).

Definition Namespace_from_str (value : str) : result SubjectError Namespace :=
  if str_eqb value (lit "fauxlack") then Ok Fauxlack
  else if str_eqb value (lit "slack") then Ok Slack
  else if str_eqb value (lit "discord") then Ok Discord
  else if str_eqb value (lit "telegram") then Ok Telegram
  else if str_eqb value (lit "whatsapp") then Ok Whatsapp
  else if str_eqb value (lit "tel") then Ok Tel
  else if str_eqb value (lit "github") then Ok Github
  else Err (UnknownNamespace value).

(** ** Field rules *)

Inductive Field : Type :=
| FieldEmpty
| Token (maximum : Z)
| Decimal
| Phone
| GithubLogin
| GithubRepoName.

Definition bounded (value : str) (maximum : Z) : bool :=
  negb (is_empty value) && (len value <=? maximum).

Definition Field_admits (f : Field) (value : str) : bool :=
  match f with
  | FieldEmpty => is_empty value
  | Token maximum =>
      bounded value maximum
      && forallb (fun b => is_ascii_lowercase b || is_ascii_digit b) value
  | Decimal =>
      is_some_and (parse_u64 value)
        (fun parsed => negb (parsed =? 0) && str_eqb (to_decimal parsed) value)
  | Phone =>
      bounded value 15 && negb (starts_with value (lit "0")) && forallb is_ascii_digit value
  | GithubLogin =>
      bounded value 39
      && forallb (fun b => is_ascii_lowercase b || is_ascii_digit b || (b =? ch "-")) value
  | GithubRepoName =>
      bounded value 100 && negb (str_eqb value (lit ".")) && negb (str_eqb value (lit ".."))
      && forallb (fun b => is_ascii_lowercase b || is_ascii_digit b
                           || ((b =? ch ".") || (b =? ch "_") || (b =? ch "-"))) value
  end.

Definition tenant_rule (k : SubjectKind) : Field :=
  match k with
  | FauxlackUser | FauxlackChannel => Token 63
  | SlackUser | SlackChannel => Token 32
  | DiscordChannel => Decimal
  | GithubRepo => GithubLogin
  | DiscordUser | TelegramUser | WhatsappNumber | TelNumber | GithubRepoId | GithubUser
  | GithubUserId => FieldEmpty
  end.

Definition id_rule (k : SubjectKind) : Field :=
  match k with
  | FauxlackUser | FauxlackChannel => Token 63
  | SlackUser | SlackChannel => Token 32
  | DiscordUser | DiscordChannel | TelegramUser | GithubRepoId | GithubUserId => Decimal
  | WhatsappNumber | TelNumber => Phone
  | GithubRepo => GithubRepoName
  | GithubUser => GithubLogin
  end.

Definition admits_tenant (k : SubjectKind) (value : str) : bool := Field_admits (tenant_rule k) value.
Definition admits_id (k : SubjectKind) (value : str) : bool := Field_admits (id_rule k) value.

(** ** Splitting a name *)

Record Fields : Type := mkFields {
  fields_namespace : str;
  fields_kind : str;
  fields_tenant : str;
  fields_id : str
}.

Definition Fields_split (folded : str) : result SubjectError Fields :=
  if MAX_IDENTIFIER_LENGTH <? len folded then Err (TooLong MAX_IDENTIFIER_LENGTH)
  else
    match split (ch ":") folded with
    | prefix :: parts =>
        if str_eqb prefix DRN_PREFIX then
          match parts with
          | [namespace; kind; tenant; id] => Ok (mkFields namespace kind tenant id)
          | _ => Err FieldCount
          end
        else Err NotDrn
    | [] => Err NotDrn
    end.

Definition Fields_namespace (f : Fields) : result SubjectError Namespace :=
  if str_eqb (fields_namespace f) WILDCARD then Err WildcardNamespace
  else Namespace_from_str (fields_namespace f).

(** ** Subjects *)

Record Subject : Type := mkSubject {
  subject_kind : SubjectKind;
  subject_tenant : str;
  subject_id : str
}.

#[export] Instance Subject_eq_dec : EqDecision Subject.
Proof. solve_decision. Defined.

Definition subject_namespace (s : Subject) : Namespace := SubjectKind_namespace (subject_kind s).

Definition subject_principal_kind (s : Subject) : PrincipalKind :=
  SubjectKind_principal_kind (subject_kind s).

Definition tenant (s : Subject) : option str :=
  if is_empty (subject_tenant s) then None else Some (subject_tenant s).

(** [Display] and [canonical]. *)
Definition canonical (s : Subject) : str :=
  DRN_PREFIX ++ lit ":" ++ Namespace_as_str (subject_namespace s) ++ lit ":"
  ++ SubjectKind_as_str (subject_kind s) ++ lit ":" ++ subject_tenant s ++ lit ":" ++ subject_id s.

Definition Subject_new (kind : SubjectKind) (tenant id : str) : result SubjectError Subject :=
  let tenant := to_ascii_lowercase tenant in
  let id := to_ascii_lowercase id in
  if mem (ch "*") tenant || mem (ch "*") id then Err WildcardOutsideScope
  else if negb (admits_tenant kind tenant) then Err (InvalidField Tenant tenant)
  else if negb (admits_id kind id) then Err (InvalidField Id id)
  else
    let subject := mkSubject kind tenant id in
    if MAX_IDENTIFIER_LENGTH <? len (canonical subject) then Err (TooLong MAX_IDENTIFIER_LENGTH)
    else Ok subject.

Definition fauxlack_user (server id : str) : result SubjectError Subject :=
  Subject_new FauxlackUser server id.
Definition slack_user (team user : str) : result SubjectError Subject :=
  Subject_new SlackUser team user.
Definition discord_user (user : str) : result SubjectError Subject :=
  Subject_new DiscordUser [] user.
Definition telegram_user (user : str) : result SubjectError Subject :=
  Subject_new TelegramUser [] user.
Definition whatsapp_number (wa_id : str) : result SubjectError Subject :=
  Subject_new WhatsappNumber [] wa_id.
Definition github_repo (owner name : str) : result SubjectError Subject :=
  Subject_new GithubRepo owner name.
Definition telephone (number : str) : result SubjectError Subject :=
  Subject_new TelNumber [] (unwrap_or (strip_prefix number (lit "+")) number).

Definition Subject_from_str (value : str) : result SubjectError Subject :=
  let folded := to_ascii_lowercase value in
  let? fields := Fields_split folded in
  if existsb (mem (ch "*")) [fields_kind fields; fields_tenant fields; fields_id fields]
  then Err WildcardOutsideScope
  else
    let? namespace := Fields_namespace fields in
    let? kind := Namespace_kind namespace (fields_kind fields) in
    Subject_new kind (fields_tenant fields) (fields_id fields).

(** ** Scopes *)

Record SubjectScope : Type := mkScope {
  scope_namespace : Namespace;
  scope_kind : option SubjectKind;
  scope_tenant : option str;
  scope_id : option str
}.

Definition covers (scope : SubjectScope) (s : Subject) : bool :=
  bool_decide (scope_namespace scope = subject_namespace s)
  && is_none_or (scope_kind scope) (fun k => bool_decide (k = subject_kind s))
  && is_none_or (scope_tenant scope) (fun t => str_eqb t (subject_tenant s))
  && is_none_or (scope_id scope) (fun i => str_eqb i (subject_id s)).

Definition names_every_kind (scope : SubjectScope) : bool :=
  match scope_kind scope with None => true | Some _ => false end.

Definition scope_kinds (scope : SubjectScope) : list SubjectKind :=
  List.filter
    (fun k => is_none_or (scope_tenant scope) (admits_tenant k)
              && is_none_or (scope_id scope) (admits_id k))
    (List.filter (fun k => is_none_or (scope_kind scope) (fun wanted => bool_decide (wanted = k)))
       (Namespace_kinds (scope_namespace scope))).

Definition scope_field (value : str) : result SubjectError (option str) :=
  if str_eqb value WILDCARD then Ok None
  else if mem (ch "*") value then Err (PartialWildcard value)
  else Ok (Some value).

Definition SubjectScope_display (scope : SubjectScope) : str :=
  DRN_PREFIX ++ lit ":" ++ Namespace_as_str (scope_namespace scope) ++ lit ":"
  ++ unwrap_or (SubjectKind_as_str <$> scope_kind scope) WILDCARD ++ lit ":"
  ++ unwrap_or (scope_tenant scope) WILDCARD ++ lit ":" ++ unwrap_or (scope_id scope) WILDCARD.

(** [Option::map] to a [Result], then [transpose]. *)
Definition transpose {E A B : Type} (f : A → result E B) (o : option A) : result E (option B) :=
  match o with
  | None => Ok None
  | Some a => let? b := f a in Ok (Some b)
  end.

Definition SubjectScope_from_str (value : str) : result SubjectError SubjectScope :=
  let folded := to_ascii_lowercase value in
  let? fields := Fields_split folded in
  let? namespace := Fields_namespace fields in
  let? kind_field := scope_field (fields_kind fields) in
  let? kind := transpose (Namespace_kind namespace) kind_field in
  let? tenant := scope_field (fields_tenant fields) in
  let? id := scope_field (fields_id fields) in
  let? _ :=
    match kind with
    | None => Ok tt
    | Some kind =>
        if negb (is_none_or tenant (admits_tenant kind))
        then Err (InvalidField Tenant (unwrap_or tenant []))
        else if negb (is_none_or id (admits_id kind))
        then Err (InvalidField Id (unwrap_or id []))
        else Ok tt
    end in
  let scope := mkScope namespace kind tenant id in
  match scope_kinds scope with
  | [] => Err (ScopeAdmitsNoKind (SubjectScope_display scope))
  | _ :: _ => Ok scope
  end.

(** ** Attested subjects *)

Inductive AttestedSubject : Type :=
| One (subject : Subject)
| Twin (name id : Subject).

Definition AttestedSubject_one (s : Subject) : result SubjectError AttestedSubject :=
  match subject_namespace s with
  | Github => Err GithubNeedsTwin
  | Fauxlack | Slack | Discord | Telegram | Whatsapp | Tel => Ok (One s)
  end.

Definition configured (s : Subject) : AttestedSubject := One s.

Definition paired (name id : Subject) : result SubjectError AttestedSubject :=
  match subject_kind name, subject_kind id with
  | GithubRepo, GithubRepoId | GithubUser, GithubUserId => Ok (Twin name id)
  | _, _ => Err Unpaired
  end.

Definition github_repository (owner name : str) (id : Z) : result SubjectError AttestedSubject :=
  let? n := Subject_new GithubRepo owner name in
  let? i := Subject_new GithubRepoId [] (to_decimal id) in
  paired n i.

Definition github_user (login : str) (id : Z) : result SubjectError AttestedSubject :=
  let? n := Subject_new GithubUser [] login in
  let? i := Subject_new GithubUserId [] (to_decimal id) in
  paired n i.

Definition attested_name (a : AttestedSubject) : Subject :=
  match a with One s | Twin s _ => s end.

Definition id_form (a : AttestedSubject) : option Subject :=
  match a with One _ => None | Twin _ id => Some id end.

Definition forms (a : AttestedSubject) : list Subject :=
  attested_name a :: match id_form a with Some s => [s] | None => [] end.

Definition AttestedSubject_display (a : AttestedSubject) : str := canonical (attested_name a).

(** The sequence of strings on the wire. *)
Definition AttestedSubject_serialize (a : AttestedSubject) : list str := canonical <$> forms a.

Inductive WireError : Type :=
| InvalidLength (n : Z)
| Custom (e : SubjectError).

(** [Result::map_err]. *)
Definition map_err {E F A : Type} (f : E → F) (r : result E A) : result F A :=
  match r with Ok a => Ok a | Err e => Err (f e) end.

(** [visit_seq]: elements are decoded one by one before the length is known. *)
Definition AttestedSubject_deserialize (wire : list str) : result WireError AttestedSubject :=
  match wire with
  | [] => Err (InvalidLength 0)
  | first :: rest =>
      let? first := map_err Custom (Subject_from_str first) in
      match rest with
      | [] => map_err Custom (AttestedSubject_one first)
      | second :: rest =>
          let? second := map_err Custom (Subject_from_str second) in
          match rest with
          | _ :: _ => Err (InvalidLength 3)
          | [] => map_err Custom (paired first second)
          end
      end
  end.

(** ** Fields *)

(** A byte a field of a subject may hold. *)
Definition field_byte (b : Z) : Prop :=
  is_ascii_lowercase b || is_ascii_digit b || (b =? ch ".") || (b =? ch "_") || (b =? ch "-") = true.

Lemma field_byte_clean (b : Z) :
  field_byte b → b ≠ ch ":" ∧ b ≠ ch "*" ∧ is_ascii_uppercase b = false.
Proof.
  unfold field_byte. intros Hb. split; [|split; [|apply not_true_is_false]]; intros H; subst; dk_byte.
Qed.

Lemma Field_admits_bytes (f : Field) (v : str) : Field_admits f v = true → Forall field_byte v.
Proof.
  assert (∀ p, (∀ b, p b = true → field_byte b) → forallb p v = true → Forall field_byte v) as Hall.
  { intros p Hp Hv. apply List.Forall_forall. intros b Hb. apply Hp.
    rewrite forallb_forall in Hv. by apply Hv. }
  assert (∀ b, is_ascii_digit b = true → field_byte b) as Hdig
    by (intros b Hb; unfold field_byte; rewrite Hb; by rewrite orb_true_r).
  destruct f as [|n| | | |]; cbn [Field_admits]; intros Hv.
  - by destruct v.
  - apply andb_true_iff in Hv as [_ Hv]. eapply Hall; [|exact Hv].
    intros b Hb. unfold field_byte. by rewrite Hb.
  - destruct (parse_u64 v) as [n|] eqn:Hn; [|done]. cbn in Hv.
    apply andb_true_iff in Hv as [_ Hv%str_eqb_eq]. rewrite <- Hv.
    eapply Forall_impl; [apply Hdig|]. by apply to_decimal_digits, (parse_u64_range v).
  - apply andb_true_iff in Hv as [_ Hv]. by eapply Hall.
  - apply andb_true_iff in Hv as [_ Hv]. eapply Hall; [|exact Hv]. cbn. intros b Hb.
    unfold field_byte. apply orb_true_iff in Hb as [-> | ->]; by rewrite ?orb_true_r.
  - apply andb_true_iff in Hv as [_ Hv]. eapply Hall; [|exact Hv]. cbn. intros b Hb.
    by rewrite !orb_assoc in Hb.
Qed.

Lemma field_bytes_clean (v : str) :
  Forall field_byte v → (ch ":" ∉ v) ∧ (ch "*" ∉ v) ∧ to_ascii_lowercase v = v.
Proof.
  intros Hv. rewrite List.Forall_forall in Hv. split; [|split].
  - intros H%list_elem_of_In%Hv. by apply field_byte_clean in H as (? & _).
  - intros H%list_elem_of_In%Hv. by apply field_byte_clean in H as (_ & ? & _).
  - apply lowercase_id, List.Forall_forall. intros b Hb. by apply field_byte_clean, Hv.
Qed.

Lemma Namespace_as_str_bytes (n : Namespace) : Forall field_byte (Namespace_as_str n).
Proof. destruct n; apply List.Forall_forall; vm_compute; intuition subst; done. Qed.

Lemma SubjectKind_as_str_bytes (k : SubjectKind) : Forall field_byte (SubjectKind_as_str k).
Proof. destruct k; apply List.Forall_forall; vm_compute; intuition subst; done. Qed.

(** ** Names *)

Lemma Namespace_from_as_str (n : Namespace) : Namespace_from_str (Namespace_as_str n) = Ok n.
Proof. by destruct n; vm_compute. Qed.

Lemma Namespace_from_str_Ok (v : str) (n : Namespace) :
  Namespace_from_str v = Ok n → v = Namespace_as_str n.
Proof.
  unfold Namespace_from_str.
  repeat match goal with |- (if str_eqb v ?l then _ else _) = _ → _ =>
    destruct (str_eqb v l) eqn:?; [intros [= <-]; by apply str_eqb_eq|] end; done.
Qed.

Lemma Namespace_kind_as_str (k : SubjectKind) :
  Namespace_kind (SubjectKind_namespace k) (SubjectKind_as_str k) = Ok k.
Proof. by destruct k; vm_compute. Qed.

Lemma Namespace_kinds_namespace (n : Namespace) (k : SubjectKind) :
  k ∈ Namespace_kinds n ↔ SubjectKind_namespace k = n.
Proof. destruct n, k; cbn; rewrite ?elem_of_cons, ?elem_of_nil; intuition congruence. Qed.

Lemma Namespace_kind_Ok (n : Namespace) (f : str) (k : SubjectKind) :
  Namespace_kind n f = Ok k → f = SubjectKind_as_str k ∧ SubjectKind_namespace k = n.
Proof.
  unfold Namespace_kind. destruct (Namespace_reserves n f); [done|].
  destruct (find_first _ _) as [k'|] eqn:Hf; [|done]. intros [= ->].
  apply find_first_Some in Hf as [Hin Hk]. split; [by apply str_eqb_eq in Hk|].
  by apply Namespace_kinds_namespace.
Qed.

Definition drn (n k t i : str) : str := join (ch ":") [DRN_PREFIX; n; k; t; i].

Lemma canonical_drn (s : Subject) :
  canonical s = drn (Namespace_as_str (subject_namespace s)) (SubjectKind_as_str (subject_kind s))
                  (subject_tenant s) (subject_id s).
Proof. done. Qed.

Lemma Fields_split_Ok (v : str) (f : Fields) :
  Fields_split v = Ok f ↔
  len v ≤ MAX_IDENTIFIER_LENGTH
  ∧ v = drn (fields_namespace f) (fields_kind f) (fields_tenant f) (fields_id f)
  ∧ Forall (fun g => ch ":" ∉ g) [fields_namespace f; fields_kind f; fields_tenant f; fields_id f].
Proof.
  unfold Fields_split. split.
  - destruct (_ <? _) eqn:Hlen; [done|]. dk_bool.
    pose proof (join_split (ch ":") v) as Hj. pose proof (split_fields_clean (ch ":") v) as Hc.
    destruct (split (ch ":") v) as [|p [|n [|k [|t [|i [|]]]]]]; try done;
      destruct (str_eqb p DRN_PREFIX) eqn:Hp; try done. intros [= <-]. cbn [fields_namespace
      fields_kind fields_tenant fields_id]. apply str_eqb_eq in Hp as ->.
    split; [done|]. split; [done|]. by inversion Hc.
  - intros (Hlen & Hv & Hc). rewrite (proj2 (Z.ltb_ge _ _)) by done. rewrite Hv.
    unfold drn. rewrite split_join; [by destruct f|done|]. constructor; [|done].
    vm_compute. intros H. repeat (apply elem_of_cons in H as [H|H]; [done|]).
    by apply not_elem_of_nil in H.
Qed.

Lemma lower_drn (n k t i : str) :
  to_ascii_lowercase (drn n k t i)
  = drn (to_ascii_lowercase n) (to_ascii_lowercase k) (to_ascii_lowercase t) (to_ascii_lowercase i).
Proof.
  unfold drn. cbn [join].
  change (DRN_PREFIX ++ ch ":" :: n ++ ch ":" :: k ++ ch ":" :: t ++ ch ":" :: i)
    with ((DRN_PREFIX ++ [ch ":"]) ++ n ++ [ch ":"] ++ k ++ [ch ":"] ++ t ++ [ch ":"] ++ i).
  by rewrite !lowercase_app.
Qed.

Lemma Namespace_as_str_lower (n : Namespace) :
  to_ascii_lowercase (Namespace_as_str n) = Namespace_as_str n.
Proof. by destruct n. Qed.

Lemma SubjectKind_as_str_lower (k : SubjectKind) :
  to_ascii_lowercase (SubjectKind_as_str k) = SubjectKind_as_str k.
Proof. by destruct k. Qed.

(** ** Subjects *)

(** What [Subject_new] establishes. *)
Definition subject_ok (s : Subject) : Prop :=
  admits_tenant (subject_kind s) (subject_tenant s) = true
  ∧ admits_id (subject_kind s) (subject_id s) = true
  ∧ len (canonical s) ≤ MAX_IDENTIFIER_LENGTH.

Lemma admitted_clean (k : SubjectKind) (t : str) :
  admits_tenant k t = true ∨ admits_id k t = true →
  (ch ":" ∉ t) ∧ (ch "*" ∉ t) ∧ to_ascii_lowercase t = t.
Proof. intros [H|H]; by apply field_bytes_clean, (Field_admits_bytes _ _ H). Qed.

Lemma Subject_new_Ok (k : SubjectKind) (t i : str) (s : Subject) :
  Subject_new k t i = Ok s
  ↔ s = mkSubject k (to_ascii_lowercase t) (to_ascii_lowercase i) ∧ subject_ok s.
Proof.
  unfold Subject_new, subject_ok. split.
  - destruct (_ || _); [done|]. destruct (admits_tenant _ _) eqn:Ht; [|done].
    destruct (admits_id _ _) eqn:Hi; [|done]. cbn [negb]. destruct (_ <? _) eqn:Hl; [done|].
    apply Z.ltb_ge in Hl. by intros [= <-].
  - intros [-> (Ht & Hi & Hl)]. cbn [subject_kind subject_tenant subject_id] in *.
    destruct (admitted_clean k _ (or_introl Ht)) as (_ & Hst & _).
    destruct (admitted_clean k _ (or_intror Hi)) as (_ & Hsi & _).
    apply mem_false in Hst, Hsi. rewrite Hst, Hsi, Ht, Hi. cbn [orb negb].
    by rewrite (proj2 (Z.ltb_ge _ _)).
Qed.

Lemma subject_ok_new (s : Subject) :
  subject_ok s → Subject_new (subject_kind s) (subject_tenant s) (subject_id s) = Ok s.
Proof.
  intros Hok. apply Subject_new_Ok. split; [|done]. destruct s as [k t i], Hok as (Ht & Hi & _).
  destruct (admitted_clean k _ (or_introl Ht)) as (_ & _ & Hlt).
  destruct (admitted_clean k _ (or_intror Hi)) as (_ & _ & Hli). cbn in *. by rewrite Hlt, Hli.
Qed.

Lemma Namespace_as_str_not_wild (n : Namespace) : str_eqb (Namespace_as_str n) WILDCARD = false.
Proof. by destruct n; vm_compute. Qed.

Lemma Fields_namespace_Ok (f : Fields) (n : Namespace) :
  Fields_namespace f = Ok n ↔ fields_namespace f = Namespace_as_str n.
Proof.
  unfold Fields_namespace. split.
  - destruct (str_eqb _ _); [done|]. apply Namespace_from_str_Ok.
  - intros ->. by rewrite Namespace_as_str_not_wild, Namespace_from_as_str.
Qed.

(** The fields of a subject's name, read back. *)
Lemma Fields_split_canonical (s : Subject) :
  subject_ok s →
  Fields_split (canonical s)
  = Ok (mkFields (Namespace_as_str (subject_namespace s)) (SubjectKind_as_str (subject_kind s))
          (subject_tenant s) (subject_id s)).
Proof.
  intros (Ht & Hi & Hl). apply Fields_split_Ok. split; [done|]. split; [apply canonical_drn|]. cbn.
  repeat constructor; try apply field_bytes_clean;
    eauto using Namespace_as_str_bytes, SubjectKind_as_str_bytes, Field_admits_bytes.
Qed.

Lemma canonical_lower (s : Subject) : subject_ok s → to_ascii_lowercase (canonical s) = canonical s.
Proof.
  intros (Ht & Hi & Hl).
  destruct (admitted_clean _ _ (or_introl Ht)) as (_ & _ & Hlt).
  destruct (admitted_clean _ _ (or_intror Hi)) as (_ & _ & Hli).
  by rewrite canonical_drn, lower_drn, Namespace_as_str_lower, SubjectKind_as_str_lower, Hlt, Hli.
Qed.

Lemma Subject_from_canonical (s : Subject) : subject_ok s → Subject_from_str (canonical s) = Ok s.
Proof.
  intros Hok. unfold Subject_from_str. rewrite canonical_lower, Fields_split_canonical by done.
  cbn [result_bind fields_kind fields_tenant fields_id existsb].
  assert (∀ v, Forall field_byte v → mem (ch "*") v = false) as Hc.
  { intros v Hv. by apply mem_false, field_bytes_clean. }
  destruct Hok as (Ht & Hi & Hl).
  rewrite !Hc by eauto using SubjectKind_as_str_bytes, Field_admits_bytes. cbn [orb].
  rewrite (proj2 (Fields_namespace_Ok _ (subject_namespace s))) by done. cbn [result_bind].
  unfold subject_namespace. rewrite Namespace_kind_as_str. by apply subject_ok_new.
Qed.

Lemma Subject_from_str_Ok (v : str) (s : Subject) :
  Subject_from_str v = Ok s ↔ subject_ok s ∧ canonical s = to_ascii_lowercase v.
Proof.
  split.
  - unfold Subject_from_str. intros (f & Hf & Hs)%result_bind_Ok.
    destruct (existsb _ _); [done|]. apply result_bind_Ok in Hs as (n & Hn & Hs).
    apply result_bind_Ok in Hs as (k & Hk & Hs).
    apply Fields_split_Ok in Hf as (_ & Hv & _). apply Fields_namespace_Ok in Hn.
    apply Namespace_kind_Ok in Hk as [Hk Hkn]. apply Subject_new_Ok in Hs as [-> Hok].
    split; [done|]. rewrite <- (lowercase_idemp v), Hv, lower_drn, Hn, Hk.
    rewrite Namespace_as_str_lower, SubjectKind_as_str_lower, canonical_drn.
    unfold subject_namespace. cbn [subject_kind subject_tenant subject_id]. by rewrite Hkn.
  - intros [Hok Hv]. pose proof (Subject_from_canonical s Hok) as Hs. unfold Subject_from_str in *.
    rewrite (canonical_lower s Hok) in Hs. by rewrite <- Hv.
Qed.

(** ** Scopes *)

Definition clean (o : option str) : Prop :=
  match o with None => True | Some t => (ch ":" ∉ t) ∧ (ch "*" ∉ t) end.

(** What [SubjectScope_from_str] establishes. *)
Definition scope_ok (sc : SubjectScope) : Prop :=
  match scope_kind sc with
  | None => True
  | Some k =>
      SubjectKind_namespace k = scope_namespace sc
      ∧ is_none_or (scope_tenant sc) (admits_tenant k) = true
      ∧ is_none_or (scope_id sc) (admits_id k) = true
  end
  ∧ clean (scope_tenant sc) ∧ clean (scope_id sc)
  ∧ to_ascii_lowercase (SubjectScope_display sc) = SubjectScope_display sc
  ∧ len (SubjectScope_display sc) ≤ MAX_IDENTIFIER_LENGTH
  ∧ scope_kinds sc ≠ [].

Definition scope_drn (sc : SubjectScope) : Fields :=
  mkFields (Namespace_as_str (scope_namespace sc))
    (unwrap_or (SubjectKind_as_str <$> scope_kind sc) WILDCARD)
    (unwrap_or (scope_tenant sc) WILDCARD) (unwrap_or (scope_id sc) WILDCARD).

Lemma scope_display_drn (sc : SubjectScope) :
  SubjectScope_display sc
  = drn (fields_namespace (scope_drn sc)) (fields_kind (scope_drn sc))
      (fields_tenant (scope_drn sc)) (fields_id (scope_drn sc)).
Proof. done. Qed.

Lemma wildcard_clean : ch ":" ∉ WILDCARD.
Proof. apply mem_false. by vm_compute. Qed.

Lemma scope_field_Ok (v : str) (o : option str) :
  ch ":" ∉ v → scope_field v = Ok o ↔ v = unwrap_or o WILDCARD ∧ clean o.
Proof.
  intros Hv. unfold scope_field, clean. split.
  - destruct (str_eqb v WILDCARD) eqn:E; dk_bool; [by intros [= <-]|].
    destruct (mem _ v) eqn:Em; [done|]. apply mem_false in Em. by intros [= <-].
  - intros [-> Hc]. destruct o as [t|]; cbn [unwrap_or] in *; [|by vm_compute].
    destruct Hc as [_ Hc]. destruct (str_eqb t WILDCARD) eqn:E.
    + apply str_eqb_eq in E as ->. exfalso. apply Hc. left.
    + by rewrite (proj2 (mem_false _ _) Hc).
Qed.

Lemma scope_fields_clean (sc : SubjectScope) :
  clean (scope_tenant sc) → clean (scope_id sc) →
  Forall (fun g => ch ":" ∉ g) [fields_namespace (scope_drn sc); fields_kind (scope_drn sc);
    fields_tenant (scope_drn sc); fields_id (scope_drn sc)].
Proof.
  intros Ht Hi. pose proof wildcard_clean. cbn. repeat constructor.
  - apply field_bytes_clean, Namespace_as_str_bytes.
  - destruct (scope_kind sc); cbn; [apply field_bytes_clean, SubjectKind_as_str_bytes|done].
  - destruct (scope_tenant sc); cbn in *; [apply Ht|done].
  - destruct (scope_id sc); cbn in *; [apply Hi|done].
Qed.

Lemma SubjectScope_from_display (sc : SubjectScope) :
  scope_ok sc → SubjectScope_from_str (SubjectScope_display sc) = Ok sc.
Proof.
  intros (Hk & Ht & Hi & Hlow & Hlen & Hne). unfold SubjectScope_from_str. rewrite Hlow.
  pose proof (scope_fields_clean sc Ht Hi) as Hc.
  rewrite (proj2 (Fields_split_Ok _ (scope_drn sc))) by (by rewrite <- scope_display_drn).
  cbn [result_bind]. rewrite (proj2 (Fields_namespace_Ok _ (scope_namespace sc))) by done.
  inversion Hc as [|? ? _ Hc1]; subst. inversion Hc1 as [|? ? Hck Hc2]; subst.
  inversion Hc2 as [|? ? Hct Hc3]; subst. inversion Hc3 as [|? ? Hci _]; subst.
  cbn [result_bind scope_drn fields_kind fields_tenant fields_id] in *.
  rewrite (proj2 (scope_field_Ok _ (SubjectKind_as_str <$> scope_kind sc) Hck)).
  2:{ split; [done|]. destruct (scope_kind sc); cbn; [|done].
      destruct (field_bytes_clean _ (SubjectKind_as_str_bytes s)) as (? & ? & _). done. }
  rewrite (proj2 (scope_field_Ok _ (scope_tenant sc) Hct)) by done.
  rewrite (proj2 (scope_field_Ok _ (scope_id sc) Hci)) by done.
  assert (transpose (Namespace_kind (scope_namespace sc)) (SubjectKind_as_str <$> scope_kind sc)
          = Ok (scope_kind sc)) as Htr.
  { destruct (scope_kind sc) as [k|]; cbn; [|done]. destruct Hk as [<- _].
    by rewrite Namespace_kind_as_str. }
  cbn [result_bind]. rewrite Htr. cbn [result_bind].
  destruct sc as [n k t i]. cbn [scope_namespace scope_kind scope_tenant scope_id] in *.
  destruct k as [k|]; [destruct Hk as (_ & -> & ->)|]; cbn [negb result_bind];
    by destruct (scope_kinds _).
Qed.

Lemma SubjectScope_from_str_Ok (v : str) (sc : SubjectScope) :
  SubjectScope_from_str v = Ok sc ↔ scope_ok sc ∧ SubjectScope_display sc = to_ascii_lowercase v.
Proof.
  split.
  - unfold SubjectScope_from_str. intros (f & Hf & H)%result_bind_Ok.
    apply result_bind_Ok in H as (n & Hn & H). apply result_bind_Ok in H as (kf & Hkf & H).
    apply result_bind_Ok in H as (k & Hk & H). apply result_bind_Ok in H as (t & Ht & H).
    apply result_bind_Ok in H as (i & Hi & H). apply result_bind_Ok in H as ([] & Hadm & H).
    destruct (scope_kinds _) as [|k0 ks] eqn:Hks; [done|]. injection H as <-.
    apply Fields_split_Ok in Hf as (Hlen & Hv & Hc).
    inversion Hc as [|? ? _ Hc1]; subst. inversion Hc1 as [|? ? Hck Hc2]; subst.
    inversion Hc2 as [|? ? Hct Hc3]; subst. inversion Hc3 as [|? ? Hci _]; subst.
    apply Fields_namespace_Ok in Hn. apply scope_field_Ok in Ht as [Ht Htc]; [|done].
    apply scope_field_Ok in Hi as [Hi Hic]; [|done]. apply scope_field_Ok in Hkf as [Hkf _]; [|done].
    assert (kf = SubjectKind_as_str <$> k
            ∧ match k with None => True | Some k => SubjectKind_namespace k = n end) as [-> Hkn].
    { destruct kf as [kf|]; cbn in Hk; [|by injection Hk as <-].
      apply result_bind_Ok in Hk as (k' & Hk' & [= <-]). apply Namespace_kind_Ok in Hk' as [-> ?].
      done. }
    assert (SubjectScope_display (mkScope n k t i) = to_ascii_lowercase v) as Hd.
    { rewrite scope_display_drn, Hv. cbn [scope_drn fields_namespace fields_kind fields_tenant
        fields_id scope_namespace scope_kind scope_tenant scope_id]. by rewrite Hn, Hkf, Ht, Hi. }
    split; [|done]. unfold scope_ok. rewrite Hd, lowercase_idemp, Hks.
    cbn [scope_kind scope_namespace scope_tenant scope_id]. split; [|done].
    destruct k as [k|]; [|done]. split; [done|].
    destruct (is_none_or t _); [|done]. by destruct (is_none_or i _).
  - intros [Hok Hd]. pose proof (SubjectScope_from_display sc Hok) as Hs.
    destruct Hok as (_ & _ & _ & Hlow & _). unfold SubjectScope_from_str in *.
    rewrite Hlow in Hs. by rewrite <- Hd.
Qed.

(** ** Matching *)

Lemma Namespace_as_str_inj (a b : Namespace) : Namespace_as_str a = Namespace_as_str b ↔ a = b.
Proof. split; [|by intros ->]. by destruct a, b; vm_compute. Qed.

Lemma SubjectKind_as_str_inj (a b : SubjectKind) :
  SubjectKind_namespace a = SubjectKind_namespace b →
  SubjectKind_as_str a = SubjectKind_as_str b ↔ a = b.
Proof. intros Hn. split; [|by intros ->]. by destruct a, b; vm_compute in Hn |- *. Qed.

(** A field of a scope matches a field of a name: it is the wildcard or the
    same text. *)
Definition field_match (p f : str) : Prop := p = WILDCARD ∨ p = f.

Lemma split_drn (n k t i : str) :
  Forall (fun g => ch ":" ∉ g) [n; k; t; i] →
  split (ch ":") (drn n k t i) = [DRN_PREFIX; n; k; t; i].
Proof.
  intros Hc. unfold drn. rewrite split_join; [done|done|]. constructor; [|done].
  apply mem_false. by vm_compute.
Qed.

Lemma unwrap_match (o : option str) (f : str) :
  clean o → field_match (unwrap_or o WILDCARD) f ↔ is_none_or o (fun t => str_eqb t f) = true.
Proof.
  unfold field_match. destruct o as [t|]; cbn; [|intuition]. intros [_ Hs]. rewrite str_eqb_eq.
  split; [|by right]. intros [->|?]; [|done]. destruct Hs. left.
Qed.

Lemma scope_drn_match (sc : SubjectScope) (s : Subject) :
  scope_ok sc →
  covers sc s = true ↔
  field_match (Namespace_as_str (scope_namespace sc)) (Namespace_as_str (subject_namespace s))
  ∧ field_match (fields_kind (scope_drn sc)) (SubjectKind_as_str (subject_kind s))
  ∧ field_match (fields_tenant (scope_drn sc)) (subject_tenant s)
  ∧ field_match (fields_id (scope_drn sc)) (subject_id s).
Proof.
  intros (Hk & Ht & Hi & _). unfold covers. rewrite !andb_true_iff, bool_decide_eq_true.
  cbn [scope_drn fields_kind fields_tenant fields_id]. rewrite (unwrap_match (scope_tenant sc)), (unwrap_match (scope_id sc)) by done.
  assert (field_match (Namespace_as_str (scope_namespace sc)) (Namespace_as_str (subject_namespace s))
    ↔ scope_namespace sc = subject_namespace s) as ->.
  { unfold field_match. rewrite Namespace_as_str_inj. split; [|by right].
    intros [Hw|?]; [|done]. pose proof (Namespace_as_str_not_wild (scope_namespace sc)) as Hn.
    by apply str_eqb_neq in Hn. }
  assert (scope_namespace sc = subject_namespace s →
    is_none_or (scope_kind sc) (fun k => bool_decide (k = subject_kind s)) = true
    ↔ field_match (unwrap_or (SubjectKind_as_str <$> scope_kind sc) WILDCARD)
        (SubjectKind_as_str (subject_kind s))); [|tauto].
  intros Hn. unfold field_match. destruct (scope_kind sc) as [k|]; cbn; [|intuition].
  rewrite bool_decide_eq_true. destruct Hk as [Hkn _].
  rewrite SubjectKind_as_str_inj by (by rewrite Hkn). split; [by right|]. intros [Hw|?]; [|done].
  by destruct k; vm_compute in Hw.
Qed.

(** ** Properties *)

(** C33: a text is accepted as the name of a subject exactly when, folded to
    lower case, it is the canonical name of a well-formed subject, and that is
    the subject it denotes: parsing inverts printing, two accepted texts
    denote the same subject exactly when they differ only in case. *)
Theorem subject_round_trip (v : str) (s : Subject) :
  (Subject_from_str v = Ok s ↔ subject_ok s ∧ canonical s = to_ascii_lowercase v)
  ∧ (Subject_from_str v = Ok s →
     Subject_from_str (canonical s) = Ok s
     ∧ ∀ v' s', Subject_from_str v' = Ok s' →
         (s = s' ↔ to_ascii_lowercase v = to_ascii_lowercase v')).
Proof.
  split; [apply Subject_from_str_Ok|]. intros [Hok Hc]%Subject_from_str_Ok.
  split; [by apply Subject_from_canonical|].
  intros v' s' [Hok' Hc']%Subject_from_str_Ok. split; [congruence|].
  intros Heq. rewrite <- Hc, <- Hc' in Heq.
  pose proof (Subject_from_canonical s Hok) as H1. rewrite Heq, Subject_from_canonical in H1 by done.
  by injection H1.
Qed.

(** Every constructor yields a subject whose name parses back to it, with
    the fields given to it folded to lower case. *)
Theorem subject_new_round_trip (k : SubjectKind) (t i : str) (s : Subject) :
  Subject_new k t i = Ok s →
  Subject_from_str (canonical s) = Ok s ∧ subject_kind s = k
  ∧ subject_tenant s = to_ascii_lowercase t ∧ subject_id s = to_ascii_lowercase i.
Proof. intros [-> Hok]%Subject_new_Ok. split; [by apply Subject_from_canonical|done]. Qed.

(** A text is accepted as a scope exactly when, folded to lower case, it
    is what a well-formed scope prints, and that is the scope it denotes: so a
    parsed scope prints as its text folded to lower case and parses back to
    itself. *)
Theorem scope_round_trip (v : str) (sc : SubjectScope) :
  (SubjectScope_from_str v = Ok sc
   ↔ scope_ok sc ∧ SubjectScope_display sc = to_ascii_lowercase v)
  ∧ (SubjectScope_from_str v = Ok sc → SubjectScope_from_str (SubjectScope_display sc) = Ok sc).
Proof.
  split; [apply SubjectScope_from_str_Ok|]. intros [Hok _]%SubjectScope_from_str_Ok.
  by apply SubjectScope_from_display.
Qed.

(** C23: a scope covers a subject exactly when the text of the scope matches
    the name of the subject field by field, a field of the scope being either
    the whole-field wildcard or the same text; and the kinds a scope lists
    include the kind of every subject it covers. *)
Theorem scope_covers_iff_fields_match (v w : str) (sc : SubjectScope) (s : Subject) :
  SubjectScope_from_str v = Ok sc → Subject_from_str w = Ok s →
  (covers sc s = true
   ↔ Forall2 field_match (split (ch ":") (to_ascii_lowercase v))
       (split (ch ":") (to_ascii_lowercase w)))
  ∧ (covers sc s = true → subject_kind s ∈ scope_kinds sc).
Proof.
  intros [Hok Hd]%SubjectScope_from_str_Ok [Hs Hc]%Subject_from_str_Ok. split.
  - rewrite <- Hd, <- Hc, scope_display_drn, canonical_drn, scope_drn_match by done.
    pose proof Hok as (_ & Ht & Hi & _). pose proof Hs as (Hta & Hia & _).
    rewrite !split_drn.
    + split.
      * intros (? & ? & ? & ?). constructor; [by right|]. do 4 (constructor; [done|]). done.
      * intros Hall. inversion Hall as [|? ? ? ? _ H1]; subst. inversion H1 as [|? ? ? ? ? H2]; subst.
        inversion H2 as [|? ? ? ? ? H3]; subst. by inversion H3 as [|? ? ? ? ? H4]; inversion H4.
    + repeat constructor; try apply field_bytes_clean;
        eauto using Namespace_as_str_bytes, SubjectKind_as_str_bytes, Field_admits_bytes.
    + by apply scope_fields_clean.
  - intros Hcov. unfold covers in Hcov. rewrite !andb_true_iff, bool_decide_eq_true in Hcov.
    destruct Hcov as [[[Hn Hk] Ht] Hi]. destruct Hs as (Hta & Hia & _).
    unfold scope_kinds. apply list_elem_of_In. rewrite !filter_In. split; [split|].
    + apply list_elem_of_In. rewrite Hn. by apply Namespace_kinds_namespace.
    + done.
    + apply andb_true_iff. split.
      * destruct (scope_tenant sc) as [t|]; cbn in *; [|done]. by apply str_eqb_eq in Ht as ->.
      * destruct (scope_id sc) as [i|]; cbn in *; [|done]. by apply str_eqb_eq in Hi as ->.
Qed.

(** The attested subjects the constructors make. *)
Definition attested_ok (a : AttestedSubject) : Prop :=
  match a with
  | One s => subject_ok s ∧ AttestedSubject_one s = Ok a
  | Twin name id => subject_ok name ∧ subject_ok id ∧ paired name id = Ok a
  end.

(** An attested subject that was made by [one] or [paired] is read back
    from the wire as it was sent; and whatever is read from the wire is such
    a subject: a GitHub subject arrives only as its name together with its id
    form of the same kind. *)
Theorem attested_wire_round_trip (wire : list str) (a : AttestedSubject) :
  (attested_ok a → AttestedSubject_deserialize (AttestedSubject_serialize a) = Ok a)
  ∧ (AttestedSubject_deserialize wire = Ok a →
     attested_ok a ∧ AttestedSubject_serialize a = to_ascii_lowercase <$> wire
     ∧ (subject_namespace (attested_name a) = Github →
        ∃ id, id_form a = Some id ∧ is_id_form (subject_kind id) = true
              ∧ is_id_form (subject_kind (attested_name a)) = false)).
Proof.
  split.
  - unfold AttestedSubject_serialize, forms, AttestedSubject_deserialize.
    destruct a as [s|n i]; cbn [attested_ok attested_name id_form fmap list_fmap].
    + intros [Hok Hone]. rewrite Subject_from_canonical by done. cbn [map_err result_bind].
      by rewrite Hone.
    + intros (Hn & Hi & Hp). rewrite !Subject_from_canonical by done. cbn [map_err result_bind].
      by rewrite Hp.
  - destruct wire as [|w1 rest]; cbn [AttestedSubject_deserialize]; [done|]. intros (s1 & H1 & H)%result_bind_Ok.
    destruct (Subject_from_str w1) as [s|] eqn:E1; [|done]. injection H1 as ->.
    apply Subject_from_str_Ok in E1 as [Hok1 Hc1]. destruct rest as [|w2 rest].
    + destruct (AttestedSubject_one s1) as [a'|] eqn:Ho; [|done]. injection H as ->.
      assert (a = One s1) as -> by (unfold AttestedSubject_one in Ho;
        destruct (subject_namespace s1); by simplify_eq).
      unfold AttestedSubject_serialize; cbn [attested_ok forms attested_name id_form fmap list_fmap].
      rewrite Hc1. split; [done|]. split; [done|].
      intros Hg. unfold AttestedSubject_one in Ho. by rewrite Hg in Ho.
    + apply result_bind_Ok in H as (s2 & H2 & H).
      destruct (Subject_from_str w2) as [s|] eqn:E2; [|done]. injection H2 as ->.
      apply Subject_from_str_Ok in E2 as [Hok2 Hc2]. destruct rest; [|done].
      destruct (paired s1 s2) as [a'|] eqn:Hp; [|done]. injection H as ->.
      assert (a = Twin s1 s2 ∧ is_id_form (subject_kind s2) = true
              ∧ is_id_form (subject_kind s1) = false) as (-> & Hi & Hn).
      { unfold paired in Hp. destruct (subject_kind s1), (subject_kind s2); try done;
          by injection Hp as <-. }
      unfold AttestedSubject_serialize; cbn [attested_ok forms attested_name id_form fmap list_fmap].
      rewrite Hc1, Hc2. split; [done|]. split; [done|]. intros _. by exists s2.
Qed.

(** ** Witnesses *)

Definition demo_user : Subject := mkSubject SlackUser (lit "t1") (lit "u1").
Definition demo_scope : SubjectScope := mkScope Slack None (Some (lit "t1")) None.

Lemma demo_user_parses : Subject_from_str (lit "DRN:Slack:User:T1:u1") = Ok demo_user.
Proof. vm_compute. reflexivity. Qed.

Lemma demo_scope_parses : SubjectScope_from_str (lit "drn:slack:*:T1:*") = Ok demo_scope.
Proof. vm_compute. reflexivity. Qed.

Lemma subject_round_trip_witness :
  canonical demo_user = lit "drn:slack:user:t1:u1"
  ∧ Subject_from_str (lit "drn:slack:user:t1:u1") = Ok demo_user.
Proof.
  destruct (subject_round_trip (lit "DRN:Slack:User:T1:u1") demo_user) as [H1 H2].
  split; [exact (proj2 (proj1 H1 demo_user_parses))|exact (proj1 (H2 demo_user_parses))].
Defined.

Lemma subject_new_round_trip_witness :
  Subject_from_str (canonical (mkSubject GithubRepo (lit "octo-org") (lit "hello.world")))
  = Ok (mkSubject GithubRepo (lit "octo-org") (lit "hello.world")).
Proof.
  apply (subject_new_round_trip GithubRepo (lit "Octo-Org") (lit "Hello.World")). by vm_compute.
Defined.

Lemma scope_round_trip_witness :
  SubjectScope_display demo_scope = lit "drn:slack:*:t1:*"
  ∧ SubjectScope_from_str (SubjectScope_display demo_scope) = Ok demo_scope.
Proof.
  destruct (scope_round_trip (lit "drn:slack:*:T1:*") demo_scope) as [H1 H2].
  split; [exact (proj2 (proj1 H1 demo_scope_parses))|exact (H2 demo_scope_parses)].
Defined.

Lemma scope_covers_iff_fields_match_witness :
  covers demo_scope demo_user = true ∧ subject_kind demo_user ∈ scope_kinds demo_scope.
Proof.
  assert (covers demo_scope demo_user = true) as Hc by (vm_compute; reflexivity).
  split; [exact Hc|].
  apply (scope_covers_iff_fields_match _ _ demo_scope demo_user demo_scope_parses demo_user_parses).
  exact Hc.
Defined.

Lemma attested_wire_round_trip_witness :
  ∃ a, github_repository (lit "octo-org") (lit "hello") 42 = Ok a
    ∧ AttestedSubject_deserialize (AttestedSubject_serialize a) = Ok a.
Proof.
  destruct (github_repository (lit "octo-org") (lit "hello") 42) as [a|] eqn:E; [|by vm_compute in E].
  exists a. split; [reflexivity|]. apply (attested_wire_round_trip [] a).
  vm_compute in E. injection E as <-.
  split; [|split]; [split; [by vm_compute|split; [by vm_compute|by vm_compute]]..|by vm_compute].
Defined.
