(* ===== verification/Template.v ===== *)
(** * Request templates

    [crates/dekopon-capability/src/template.rs]: the paths and query keys a
    capability may request, with slots the gateway fills with attested values
    of the conversation. *)

From Stdlib Require Import ZArith Lia Ascii String.
From stdpp Require Import base gmap strings list sorting numbers.
From S2P Require Import Prelude.
From S2P Require Import RustStr.

Definition MAX_TEMPLATE_PATH_BYTES : Z := 4096.
Definition MAX_TEMPLATE_QUERY_KEY_BYTES : Z := 256.

Inductive ChatSlot : Type :=
| ConversationId | ConversationThread | ConversationApiChannel | Transport.

#[export] Instance ChatSlot_eq_dec : EqDecision ChatSlot.
Proof. solve_decision. Defined.

Definition ChatSlot_ALL : list ChatSlot :=
  [ConversationId; ConversationThread; ConversationApiChannel; Transport].

Definition ChatSlot_as_str (s : ChatSlot) : str :=
  match s with
  | ConversationId => lit "conversation.id"
  | ConversationThread => lit "conversation.thread"
  | ConversationApiChannel => lit "conversation.apiChannel"
  | Transport => lit "transport"
  end.

(** [ChatSlotValues]: a map from slots to their values. *)
Definition ChatSlotValues : Type := ChatSlot → option str.
Definition slot_values_default : ChatSlotValues := fun _ => None.
Definition slot_values_insert (m : ChatSlotValues) (slot : ChatSlot) (value : str) : ChatSlotValues :=
  fun s => if bool_decide (s = slot) then Some value else m s.
Definition slot_values_get (m : ChatSlotValues) (slot : ChatSlot) : option str := m slot.

Inductive PathSegment : Type :=
| Literal (literal : str)
| Slot (slot : ChatSlot).

#[export] Instance PathSegment_eq_dec : EqDecision PathSegment.
Proof. solve_decision. Defined.

Record PathTemplate : Type := mkPathTemplate { segments : list PathSegment }.

#[export] Instance PathTemplate_eq_dec : EqDecision PathTemplate.
Proof. solve_decision. Defined.

Inductive PathTemplateError : Type :=
| InvalidTemplatePath (path : str)
| UnknownSlot (slot : str).

Definition segment_slots (segment : PathSegment) : list ChatSlot :=
  match segment with Slot slot => [slot] | Literal _ => [] end.

Definition PathTemplate_slots (t : PathTemplate) : list ChatSlot :=
  concat (segment_slots <$> segments t).

(** [strip_prefix('{')] and then [strip_suffix('}')]. *)
Definition braced (segment : str) : option str :=
  match strip_prefix segment (lit "{") with
  | Some rest => strip_suffix rest (lit "}")
  | None => None
  end.

Definition segment_matches (segment : PathSegment) (candidate : str) : bool :=
  match segment with
  | Literal literal => str_eqb literal candidate
  | Slot slot => is_some_and (braced candidate) (fun name => str_eqb name (ChatSlot_as_str slot))
  end.

Definition PathTemplate_matches (t : PathTemplate) (decoded : list str) : bool :=
  Nat.eqb (length (segments t)) (length decoded)
  && forallb (fun p => segment_matches p.1 p.2) (zip (segments t) decoded).

Definition segment_display (segment : PathSegment) : str :=
  match segment with
  | Literal literal => lit "/" ++ literal
  | Slot slot => lit "/" ++ lit "{" ++ ChatSlot_as_str slot ++ lit "}"
  end.

Definition PathTemplate_display (t : PathTemplate) : str :=
  match segments t with
  | [] => lit "/"
  | segs => concat (segment_display <$> segs)
  end.

Definition is_literal_path_byte (b : Z) : bool :=
  is_ascii_alphanumeric b
  || mem b (lit "-._~!$&'()*+,;=:@").

(** The closure [from_str] maps over the segments; [path] is the whole path. *)
Definition parse_segment (path segment : str) : result PathTemplateError PathSegment :=
  match braced segment with
  | Some name =>
      match find_first (fun slot => str_eqb (ChatSlot_as_str slot) name) ChatSlot_ALL with
      | Some slot => Ok (Slot slot)
      | None => Err (UnknownSlot name)
      end
  | None =>
      if is_empty segment || (str_eqb segment (lit ".") || str_eqb segment (lit ".."))
         || negb (forallb is_literal_path_byte segment)
      then Err (InvalidTemplatePath path)
      else Ok (Literal segment)
  end.

(** [collect::<Result<Vec<_>, _>>]: the first error stops the collection. *)
Fixpoint collect_results {E A B : Type} (f : A → result E B) (l : list A) : result E (list B) :=
  match l with
  | [] => Ok []
  | a :: l =>
      let? b := f a in
      let? bs := collect_results f l in
      Ok (b :: bs)
  end.

Definition PathTemplate_from_str (path : str) : result PathTemplateError PathTemplate :=
  if negb (starts_with path (lit "/")) || (MAX_TEMPLATE_PATH_BYTES <? len path)
  then Err (InvalidTemplatePath path)
  else if str_eqb path (lit "/") then Ok (mkPathTemplate [])
  else
    let? segs := collect_results (parse_segment path) (List.tl (split (ch "/") path)) in
    Ok (mkPathTemplate segs).

(** [pinned] in key order, [allowed] in key order. *)
Record QueryTemplate : Type := mkQueryTemplate {
  pinned : list (str * ChatSlot);
  allowed : list str
}.

Definition QueryTemplate_is_empty (q : QueryTemplate) : bool :=
  match pinned q, allowed q with [], [] => true | _, _ => false end.

Record RequestTemplate : Type := mkRequestTemplate {
  template_method : str;
  template_path : PathTemplate;
  template_query : QueryTemplate
}.

Definition RequestTemplate_slots (t : RequestTemplate) : list ChatSlot :=
  PathTemplate_slots (template_path t) ++ (pinned (template_query t)).*2.

Definition RequestTemplate_display (t : RequestTemplate) : str :=
  template_method t ++ lit " " ++ PathTemplate_display (template_path t).

Definition is_query_key (key : str) : bool :=
  negb (is_empty key) && (len key <=? MAX_TEMPLATE_QUERY_KEY_BYTES)
  && negb (existsb char_is_control (chars key)).

(** ** Segments *)

(** A segment as it is written between two slashes. *)
Definition segment_text (segment : PathSegment) : str :=
  match segment with
  | Literal literal => literal
  | Slot slot => lit "{" ++ ChatSlot_as_str slot ++ lit "}"
  end.

Definition segment_ok (segment : PathSegment) : Prop :=
  match segment with
  | Literal l =>
      l ≠ [] ∧ l ≠ lit "." ∧ l ≠ lit ".." ∧ Forall (fun b => is_literal_path_byte b = true) l
  | Slot _ => True
  end.

Lemma braced_Some (s name : str) : braced s = Some name ↔ s = lit "{" ++ name ++ lit "}".
Proof.
  unfold braced. split.
  - destruct (strip_prefix s (lit "{")) as [rest|] eqn:E; [|done]. intros Hs.
    apply strip_prefix_Some in E. apply strip_suffix_Some in Hs. congruence.
  - intros ->. rewrite (proj2 (strip_prefix_Some _ _ (name ++ lit "}"))) by done.
    by apply strip_suffix_Some.
Qed.

Lemma literal_byte_not (b : Z) :
  is_literal_path_byte b = true → b ≠ ch "/" ∧ b ≠ ch "{".
Proof. intros Hb. split; intros ->; by vm_compute in Hb. Qed.

Lemma literal_not_braced (l : str) :
  Forall (fun b => is_literal_path_byte b = true) l → braced l = None.
Proof.
  intros Hl. destruct (braced l) as [n|] eqn:E; [|done]. apply braced_Some in E as ->.
  inversion Hl as [|? ? Hb _]; subst. by apply literal_byte_not in Hb as [_ ?].
Qed.

Lemma ChatSlot_find (slot : ChatSlot) :
  find_first (fun s => str_eqb (ChatSlot_as_str s) (ChatSlot_as_str slot)) ChatSlot_ALL = Some slot.
Proof. by destruct slot; vm_compute. Qed.

Lemma parse_segment_Ok (path s : str) (seg : PathSegment) :
  parse_segment path s = Ok seg ↔ segment_ok seg ∧ s = segment_text seg.
Proof.
  unfold parse_segment. split.
  - destruct (braced s) as [name|] eqn:Eb.
    + destruct (find_first _ _) as [slot|] eqn:Ef; [|done]. intros [= <-].
      apply find_first_Some in Ef as [_ Hn%str_eqb_eq]. subst name.
      apply braced_Some in Eb as ->. done.
    + destruct (_ || _) eqn:E; [done|]. intros [= <-].
      rewrite !orb_false_iff, negb_false_iff, !str_eqb_neq, forallb_forall in E.
      destruct E as [[He [H1 H2]] Hb]. split; [|done]. split; [by destruct s|].
      split; [done|]. split; [done|]. by apply List.Forall_forall.
  - intros [Hok ->]. destruct seg as [l|slot]; cbn [segment_text].
    + destruct Hok as (Hne & H1 & H2 & Hb). rewrite literal_not_braced by done.
      apply str_eqb_neq in H1, H2. rewrite H1, H2.
      rewrite (proj2 (forallb_forall _ _)) by (by apply List.Forall_forall). by destruct l.
    + rewrite (proj2 (braced_Some _ (ChatSlot_as_str slot))) by done. by rewrite ChatSlot_find.
Qed.

Lemma collect_results_Ok {E A B : Type} (f : A → result E B) (l : list A) (bs : list B) :
  collect_results f l = Ok bs ↔ Forall2 (fun a b => f a = Ok b) l bs.
Proof.
  revert bs. induction l as [|a l IH]; intros bs; cbn.
  - split; [intros [= <-]; constructor|by inversion 1].
  - rewrite result_bind_Ok. split.
    + intros (b & Hb & (bs' & Hbs & [= <-])%result_bind_Ok). constructor; [done|by apply IH].
    + inversion 1; subst. eexists. split; [done|]. apply result_bind_Ok. eexists.
      split; [by apply IH|done].
Qed.

Lemma parse_segments_Ok (path : str) (texts : list str) (segs : list PathSegment) :
  collect_results (parse_segment path) texts = Ok segs
  ↔ Forall segment_ok segs ∧ texts = segment_text <$> segs.
Proof.
  rewrite collect_results_Ok. split.
  - induction 1 as [|s seg texts segs Hs _ [IH1 IH2]]; [done|].
    apply parse_segment_Ok in Hs as [Hok ->]. split; [by constructor|]. cbn. by rewrite IH2.
  - intros [Hok ->]. induction Hok; cbn; constructor; [by apply parse_segment_Ok|done].
Qed.

Lemma segment_text_clean (seg : PathSegment) : segment_ok seg → ch "/" ∉ segment_text seg.
Proof.
  destruct seg as [l|slot]; cbn.
  - intros (_ & _ & _ & Hl) Hin. rewrite List.Forall_forall in Hl.
    by apply list_elem_of_In, Hl, literal_byte_not in Hin as [? _].
  - intros _. apply mem_false. by destruct slot; vm_compute.
Qed.

Lemma display_join (segs : list PathSegment) :
  concat (segment_display <$> segs)
  = match segs with [] => [] | _ => ch "/" :: join (ch "/") (segment_text <$> segs) end.
Proof.
  induction segs as [|seg segs IH]; [done|]. cbn [fmap list_fmap concat].
  assert (segment_display seg = ch "/" :: segment_text seg) as -> by (by destruct seg).
  fold (segment_display <$> segs). rewrite IH. destruct segs as [|s2 segs]; [by rewrite !app_nil_r|].
  by cbn [fmap list_fmap join].
Qed.

Lemma split_slash (texts : list str) :
  texts ≠ [] → Forall (fun t => ch "/" ∉ t) texts →
  split (ch "/") (ch "/" :: join (ch "/") texts) = [] :: texts.
Proof.
  intros Hne Hc. change (ch "/" :: join (ch "/") texts) with ([] ++ ch "/" :: join (ch "/") texts).
  rewrite split_app by (by apply not_elem_of_nil). by rewrite split_join.
Qed.

Lemma texts_clean (segs : list PathSegment) :
  Forall segment_ok segs → Forall (fun t => ch "/" ∉ t) (segment_text <$> segs).
Proof.
  intros Hok. apply Forall_fmap. eapply Forall_impl; [|exact Hok]. intros s. apply segment_text_clean.
Qed.

(** A template with segments is not printed as the root. *)
Lemma display_not_root (seg : PathSegment) (segs : list PathSegment) :
  Forall segment_ok (seg :: segs) →
  str_eqb (ch "/" :: join (ch "/") (segment_text <$> seg :: segs)) (lit "/") = false.
Proof.
  intros Hok. apply str_eqb_neq. intros E. apply (f_equal (split (ch "/"))) in E.
  rewrite split_slash in E by (done || by apply texts_clean). injection E as E.
  inversion Hok as [|? ? Hseg _]; subst. destruct seg as [l|]; cbn in *; [by destruct Hseg|done].
Qed.

Lemma PathTemplate_from_str_Ok (p : str) (t : PathTemplate) :
  PathTemplate_from_str p = Ok t
  ↔ p = PathTemplate_display t ∧ Forall segment_ok (segments t) ∧ len p ≤ MAX_TEMPLATE_PATH_BYTES.
Proof.
  unfold PathTemplate_from_str. split.
  - destruct (starts_with p (lit "/")) eqn:Hs; [|done]. cbn [negb orb].
    destruct (_ <? _) eqn:Hl; [done|]. apply Z.ltb_ge in Hl.
    destruct (str_eqb p (lit "/")) eqn:E; [intros [= <-]; apply str_eqb_eq in E; by subst p|].
    intros (segs & Hsegs & [= <-])%result_bind_Ok. apply starts_with_true in Hs as [rest ->].
    change (lit "/" ++ rest) with ([] ++ ch "/" :: rest) in *.
    rewrite split_app in Hsegs by (by apply not_elem_of_nil). cbn [List.tl] in Hsegs.
    apply parse_segments_Ok in Hsegs as [Hok Heq]. split; [|done].
    unfold PathTemplate_display. cbn [segments]. destruct segs as [|seg segs].
    { by destruct (split_not_nil (ch "/") rest). }
    by rewrite display_join, <- Heq, join_split.
  - intros (-> & Hok & Hl). rewrite (proj2 (Z.ltb_ge _ _)) by done.
    destruct t as [[|seg segs]]; [by vm_compute|]. cbn [segments] in *.
    unfold PathTemplate_display in *. cbn [segments] in *. rewrite display_join.
    rewrite display_not_root by done.
    assert (starts_with (ch "/" :: join (ch "/") (segment_text <$> seg :: segs)) (lit "/") = true)
      as -> by (apply starts_with_true; by eexists).
    cbn [negb orb]. rewrite split_slash by (done || by apply texts_clean). cbn [List.tl].
    by rewrite (proj2 (parse_segments_Ok _ _ (seg :: segs))).
Qed.

Lemma segment_matches_text (seg : PathSegment) (c : str) :
  segment_matches seg c = true ↔ c = segment_text seg.
Proof.
  destruct seg as [l|slot]; cbn; [rewrite str_eqb_eq; split; congruence|].
  destruct (braced c) as [name|] eqn:E; cbn.
  - apply braced_Some in E as ->. rewrite str_eqb_eq. split; [by intros ->|].
    intros [= H]. by apply app_inj_2 in H as [-> _].
  - split; [done|]. intros ->. by rewrite (proj2 (braced_Some _ (ChatSlot_as_str slot))) in E.
Qed.

Lemma PathTemplate_matches_iff (t : PathTemplate) (decoded : list str) :
  PathTemplate_matches t decoded = true ↔ decoded = segment_text <$> segments t.
Proof.
  unfold PathTemplate_matches. destruct t as [segs]. cbn [segments]. revert decoded.
  induction segs as [|seg segs IH]; intros [|c decoded]; cbn; try done.
  rewrite (andb_comm _ (_ && _)), <- andb_assoc, andb_true_iff, (andb_comm _ (Nat.eqb _ _)).
  rewrite IH, segment_matches_text. split; [by intros [-> ->]|by intros [= -> ->]].
Qed.

(** ** Properties *)

(** A path is accepted as a template exactly when it is the printed form,
    of at most 4096 bytes, of a template whose literal segments are non-empty,
    not [.] or [..], and made of plain path bytes: parsing and printing are
    inverse to each other. *)
Theorem path_template_round_trip (p : str) (t : PathTemplate) :
  PathTemplate_from_str p = Ok t
  ↔ p = PathTemplate_display t ∧ Forall segment_ok (segments t) ∧ len p ≤ MAX_TEMPLATE_PATH_BYTES.
Proof. apply PathTemplate_from_str_Ok. Qed.

(** A parsed template matches a request exactly when the segments of the
    request are those of the template's own text; a value the caller puts in
    the place of a slot never matches. *)
Theorem template_matches_its_text (p : str) (t : PathTemplate) (decoded : list str) :
  PathTemplate_from_str p = Ok t →
  PathTemplate_matches t decoded = true
  ↔ decoded = if str_eqb p (lit "/") then [] else List.tl (split (ch "/") p).
Proof.
  intros (-> & Hok & Hl)%PathTemplate_from_str_Ok. rewrite PathTemplate_matches_iff.
  destruct t as [[|seg segs]]; [by vm_compute|].
  unfold PathTemplate_display in *. cbn [segments] in *. rewrite display_join.
  rewrite display_not_root by done. by rewrite split_slash by (done || by apply texts_clean).
Qed.

(** ** Witnesses *)

Definition demo_template : PathTemplate :=
  mkPathTemplate [Literal (lit "channels"); Slot ConversationApiChannel; Literal (lit "messages")].

Lemma template_matches_its_text_witness :
  PathTemplate_matches demo_template
    [lit "channels"; lit "{conversation.apiChannel}"; lit "messages"] = true
  ∧ PathTemplate_matches demo_template [lit "channels"; lit "123"; lit "messages"] = false.
Proof.
  split; [|by vm_compute].
  apply (template_matches_its_text (lit "/channels/{conversation.apiChannel}/messages")
           demo_template); by vm_compute.
Defined.
