(* ===== verification/Capability.v ===== *)
(** * Capabilities and the authorization gate

    [crates/dekopon-capability/src/lib.rs]: the constraints an invocation runs
    under, their validation, and the gate that turns a proposed invocation
    into an authorized one. The JSON input of an invocation comes from a
    library and is a parameter [Value]. *)

From Stdlib Require Import ZArith Lia Ascii String.
From stdpp Require Import base gmap strings list sorting numbers.
From S2P Require Import Prelude.
From S2P Require Import RustStr.
From S2P Require Import Identifier.
From S2P Require Import Template.

Inductive EffectKind : Type := ReadOnlyEffect | LocalWrite | ExternalWrite.

Definition EffectKind_display (e : EffectKind) : str :=
  match e with
  | ReadOnlyEffect => lit "read-only"
  | LocalWrite => lit "local-write"
  | ExternalWrite => lit "external-write"
  end.

Record Permission : Type := mkPermission { operation : str; resource : option str }.

Record ProposedInvocation (Value : Type) : Type := mkProposed {
  proposed_id : str;
  proposed_capability : str;
  proposed_actor : Actor;
  proposed_trace : str;
  proposed_secret_use : option SecretUseProposal;
  proposed_input : Value
}.
Arguments mkProposed {Value} _ _ _ _ _ _.
Arguments proposed_secret_use {Value} _.

Definition ProposedInvocation_new {Value : Type} (id capability : str) (actor : Actor) (trace : str)
    (input : Value) : ProposedInvocation Value :=
  mkProposed id capability actor trace None input.

Definition with_secret_use {Value : Type} (p : ProposedInvocation Value)
    (secret_use : option SecretUseProposal) : ProposedInvocation Value :=
  let 'mkProposed id capability actor trace _ input := p in
  mkProposed id capability actor trace secret_use input.

(** ** HTTP constraints *)

Inductive SignedDownload : Type := GithubActionsLogsV1.

Record HttpConstraints : Type := mkHttp {
  allowed_hosts : list str;
  allowed_methods : list str;
  max_requests : Z;
  max_request_bytes : Z;
  max_response_bytes : Z;
  allow_plaintext_loopback : bool;
  propagate_trace : bool;
  request_templates : list RequestTemplate;
  signed_download : option SignedDownload
}.

Inductive HttpConstraintsError : Type :=
| NoHosts
| NoMethods
| TooManyEntries (maximum : Z)
| InvalidHost (value : str)
| InvalidMethod (value : str)
| ZeroLimit
| TemplateMethodNotReadOnly (rules : list str)
| TemplateMethodNotAllowed (rule : str)
| DuplicateTemplate (rule : str)
| InvalidTemplateQueryKey (rule key : str)
| TemplateKeyPinnedAndAllowed (rule key : str).

Definition MAX_HTTP_SCOPE_ENTRIES : Z := 64.
Definition MAX_HTTP_HOST_BYTES : Z := 512.
Definition MAX_HTTP_METHOD_BYTES : Z := 64.

Definition is_authority_scope (value : str) : bool :=
  negb (is_empty value) && (len value <=? MAX_HTTP_HOST_BYTES) && is_trimmed value
  && negb (existsb (fun b => is_ascii_control b || is_ascii_whitespace b) value)
  && negb (existsb (fun b => mem b (lit "/?#@*")) value).

Definition is_http_token (value : str) : bool :=
  negb (is_empty value)
  && forallb (fun b => is_ascii_alphanumeric b || mem b (lit "!#$%&'*+-.^_`|~")) value.

Definition template_slots (h : HttpConstraints) : list ChatSlot :=
  List.nodup ChatSlot_eq_dec (concat (RequestTemplate_slots <$> request_templates h)).

(** The body of the loop over the templates; [routes] are the routes seen. *)
Definition check_template (methods : list str) (routes : list (str * PathTemplate))
    (template : RequestTemplate) : result HttpConstraintsError (list (str * PathTemplate)) :=
  let rule := RequestTemplate_display template in
  let route := (template_method template, template_path template) in
  let query := template_query template in
  if negb (contains_str methods (template_method template))
  then Err (TemplateMethodNotAllowed rule)
  else if bool_decide (route ∈ routes) then Err (DuplicateTemplate rule)
  else if MAX_HTTP_SCOPE_ENTRIES <? len_list (pinned query) + len_list (allowed query)
  then Err (TooManyEntries MAX_HTTP_SCOPE_ENTRIES)
  else
    match find_first (fun key => negb (is_query_key key)) ((pinned query).*1 ++ allowed query) with
    | Some key => Err (InvalidTemplateQueryKey rule key)
    | None =>
        match find_first (fun key => contains_str (pinned query).*1 key) (allowed query) with
        | Some key => Err (TemplateKeyPinnedAndAllowed rule key)
        | None => Ok (route :: routes)
        end
    end.

Fixpoint check_templates (methods : list str) (routes : list (str * PathTemplate))
    (templates : list RequestTemplate) : result HttpConstraintsError unit :=
  match templates with
  | [] => Ok tt
  | template :: templates =>
      let? routes := check_template methods routes template in
      check_templates methods routes templates
  end.

Definition read_only_method (method : str) : bool :=
  str_eqb method (lit "GET") || str_eqb method (lit "HEAD").

Definition validate_request_templates (h : HttpConstraints) : result HttpConstraintsError unit :=
  if MAX_HTTP_SCOPE_ENTRIES <? len_list (request_templates h)
  then Err (TooManyEntries MAX_HTTP_SCOPE_ENTRIES)
  else
    match List.filter (fun t => negb (read_only_method (template_method t))) (request_templates h) with
    | t :: ts => Err (TemplateMethodNotReadOnly (RequestTemplate_display <$> t :: ts))
    | [] => check_templates (allowed_methods h) [] (request_templates h)
    end.

Definition HttpConstraints_validate (h : HttpConstraints) : result HttpConstraintsError unit :=
  match allowed_hosts h, allowed_methods h with
  | [], _ => Err NoHosts
  | _, [] => Err NoMethods
  | _, _ =>
      if (MAX_HTTP_SCOPE_ENTRIES <? len_list (allowed_hosts h))
         || (MAX_HTTP_SCOPE_ENTRIES <? len_list (allowed_methods h))
      then Err (TooManyEntries MAX_HTTP_SCOPE_ENTRIES)
      else
        match find_first (fun value => negb (is_authority_scope value)) (allowed_hosts h) with
        | Some value => Err (InvalidHost value)
        | None =>
            match find_first
                    (fun value => (MAX_HTTP_METHOD_BYTES <? len value) || negb (is_http_token value))
                    (allowed_methods h) with
            | Some value => Err (InvalidMethod value)
            | None =>
                if (max_requests h =? 0) || (max_request_bytes h =? 0) || (max_response_bytes h =? 0)
                then Err ZeroLimit
                else validate_request_templates h
            end
        end
  end.

(** ** Secret use *)

Inductive HttpPathRule : Type :=
| Exact (path : str)
| SegmentPrefix (path : str).

Inductive SecretUseGrantError : Type :=
| EmptyScope
| InvalidScope
| InvalidPath (path : str)
| ZeroInjections
| InvalidBindingId
| InvalidMapRevision
| InvalidUsername.

Definition rule_path (r : HttpPathRule) : str := match r with Exact p | SegmentPrefix p => p end.

Definition HttpPathRule_matches (r : HttpPathRule) (candidate : str) : bool :=
  match r with
  | Exact path => str_eqb candidate path
  | SegmentPrefix path =>
      if str_eqb path (lit "/") then starts_with candidate (lit "/")
      else str_eqb candidate path
           || is_some_and (strip_prefix candidate path) (fun suffix => starts_with suffix (lit "/"))
  end.

Definition canonical_secret_path (path : str) : bool :=
  starts_with path (lit "/") && (len path <=? 4096)
  && negb (existsb (fun b => mem b (lit "%\?#")) path)
  && negb (contains_sub path (lit "//"))
  && negb (existsb (fun b => is_ascii_control b || is_ascii_whitespace b) path)
  && forallb (fun segment => negb (str_eqb segment (lit ".") || str_eqb segment (lit "..")))
       (List.tl (split (ch "/") path)).

Definition HttpPathRule_validate (r : HttpPathRule) : result SecretUseGrantError unit :=
  if canonical_secret_path (rule_path r) then Ok tt else Err (InvalidPath (rule_path r)).

Record SecretUseGrant : Type := mkGrant {
  grant_secret : str;
  grant_sink : SecretSinkKind;
  grant_basic_username : option str;
  grant_allowed_hosts : list str;
  grant_allowed_methods : list str;
  grant_allowed_paths : list HttpPathRule;
  grant_allow_query : bool;
  grant_max_injections : Z;
  grant_binding_id : str;
  grant_map_revision : option str
}.

(** [for path in paths { path.validate()?; }]. *)
Fixpoint validate_paths (paths : list HttpPathRule) : result SecretUseGrantError unit :=
  match paths with
  | [] => Ok tt
  | p :: paths => let? _ := HttpPathRule_validate p in validate_paths paths
  end.

Definition username_agrees (sink : SecretSinkKind) (username : option str) : bool :=
  match sink, username with
  | HttpBasic, Some username =>
      negb (is_empty username) && (len username <=? MAX_SECRET_USERNAME_LENGTH)
      && negb (mem (ch ":") username) && negb (existsb is_ascii_control username)
  | (HttpBearer | HttpBot), None => true
  | _, _ => false
  end.

Definition SecretUseGrant_validate (g : SecretUseGrant) : result SecretUseGrantError unit :=
  match grant_allowed_hosts g, grant_allowed_methods g, grant_allowed_paths g with
  | [], _, _ | _, [], _ | _, _, [] => Err EmptyScope
  | _, _, _ =>
      if grant_max_injections g =? 0 then Err ZeroInjections
      else if is_empty (grant_binding_id g) || (128 <? len (grant_binding_id g))
              || negb (forallb (fun b => is_ascii_alphanumeric b || mem b (lit ".-_"))
                         (grant_binding_id g))
      then Err InvalidBindingId
      else if is_some_and (grant_map_revision g)
                (fun revision => is_empty revision || (128 <? len revision)
                                 || negb (is_trimmed revision) || existsb is_ascii_control revision)
      then Err InvalidMapRevision
      else if (MAX_HTTP_SCOPE_ENTRIES <? len_list (grant_allowed_hosts g))
              || (MAX_HTTP_SCOPE_ENTRIES <? len_list (grant_allowed_methods g))
              || (MAX_HTTP_SCOPE_ENTRIES <? len_list (grant_allowed_paths g))
              || existsb (fun value => negb (is_authority_scope value)) (grant_allowed_hosts g)
              || existsb (fun value => (MAX_HTTP_METHOD_BYTES <? len value)
                                       || negb (is_http_token value)) (grant_allowed_methods g)
      then Err InvalidScope
      else
        let? _ := validate_paths (grant_allowed_paths g) in
        if username_agrees (grant_sink g) (grant_basic_username g) then Ok tt
        else Err InvalidUsername
  end.

(** ** Storage constraints *)

Inductive StorageInterface : Type := Jsonl | DurableFiles.
Inductive StorageAccess : Type := ReadOnly | ReadWrite.
Inductive StorageScope : Type := PrivateConversation | SharedConversation | AgentScope | SpaceScope.

(** [IdleTtl] holds a [Duration]. *)
Inductive StorageRetention : Type :=
| Keep
| IdleTtl (ttl : Z).

Inductive StorageRetentionMode : Type := KeepMode | IdleTtlMode.

(** [idle_ttl_ms] is a [NonZeroU64]. *)
Record StorageRetentionWire : Type := mkRetentionWire {
  wire_mode : StorageRetentionMode;
  wire_idle_ttl_ms : option Z
}.

Definition StorageRetention_serialize (r : StorageRetention) : option StorageRetentionWire :=
  match r with
  | Keep => Some (mkRetentionWire KeepMode None)
  | IdleTtl duration =>
      match try_u64 (dur_as_millis duration) with
      | Some millis =>
          if millis =? 0 then None else Some (mkRetentionWire IdleTtlMode (Some millis))
      | None => None
      end
  end.

Definition StorageRetention_deserialize (w : StorageRetentionWire) : option StorageRetention :=
  match wire_mode w, wire_idle_ttl_ms w with
  | KeepMode, None => Some Keep
  | IdleTtlMode, Some millis => Some (IdleTtl (dur_from_millis millis))
  | _, _ => None
  end.

Record StorageConstraints : Type := mkStorage {
  storage_interface : StorageInterface;
  storage_access : StorageAccess;
  storage_scope : StorageScope;
  storage_retention : StorageRetention;
  storage_namespace : option str
}.

Record AssetConstraints : Type := mkAsset { asset_attach : bool; asset_remove : bool; asset_send : bool }.

Record ExecutionConstraints : Type := mkConstraints {
  timeout_ms : Z;
  http : option HttpConstraints;
  storage : option StorageConstraints;
  asset : option AssetConstraints;
  secret_use : option SecretUseGrant
}.

Definition ExecutionConstraints_default : ExecutionConstraints :=
  mkConstraints 30000 None None None None.

(** ** The gate *)

Record AuthorizationReceipt : Type := mkReceipt {
  decision_id : str;
  authorized_by : str;
  policy_digest : str
}.

Record AuthorizedInvocation (Value : Type) : Type := mkAuthorized {
  authorized_proposal : ProposedInvocation Value;
  authorized_provider : str;
  authorized_receipt : AuthorizationReceipt;
  authorized_constraints : ExecutionConstraints
}.
Arguments mkAuthorized {Value} _ _ _ _.
Arguments authorized_proposal {Value} _.
Arguments authorized_provider {Value} _.
Arguments authorized_receipt {Value} _.
Arguments authorized_constraints {Value} _.

Definition valid_policy_digest (digest : str) : bool :=
  (len digest =? 64)
  && forallb (fun b => is_ascii_digit b || in_range (ch "a") (ch "f") b) digest.

Inductive AuthorizationError : Type :=
| EmptyDecisionId
| InvalidPolicyDigest
| ZeroTimeout
| InvalidHttp (e : HttpConstraintsError)
| MixedHttpAndStorage
| SecretUseMismatch
| InvalidSecretUse (e : SecretUseGrantError).

(** [?] on another error type, through [From]. *)
Definition convert {E F A : Type} (f : E → F) (r : result E A) : result F A :=
  match r with Ok a => Ok a | Err e => Err (f e) end.

Definition is_some {A : Type} (o : option A) : bool := match o with Some _ => true | None => false end.

Definition secret_matches (proposal : option SecretUseProposal) (c : ExecutionConstraints) : bool :=
  match proposal, secret_use c with
  | None, None => true
  | Some proposal, Some grant =>
      str_eqb (proposal_secret proposal) (grant_secret grant)
      && bool_decide (proposal_sink proposal = grant_sink grant)
      && bool_decide (proposal_username proposal = grant_basic_username grant)
      && is_some (http c)
  | _, _ => false
  end.

Definition authorize {Value : Type} (proposal : ProposedInvocation Value)
    (provider decision_id authorized_by policy_digest : str) (constraints : ExecutionConstraints)
    : result AuthorizationError (AuthorizedInvocation Value) :=
  if is_blank decision_id then Err EmptyDecisionId
  else if negb (valid_policy_digest policy_digest) then Err InvalidPolicyDigest
  else if timeout_ms constraints =? 0 then Err ZeroTimeout
  else if is_some (http constraints) && is_some (storage constraints) then Err MixedHttpAndStorage
  else
    let? _ :=
      match http constraints with
      | Some http => convert InvalidHttp (HttpConstraints_validate http)
      | None => Ok tt
      end in
    let? _ :=
      match secret_use constraints with
      | Some secret => convert InvalidSecretUse (SecretUseGrant_validate secret)
      | None => Ok tt
      end in
    if negb (secret_matches (proposed_secret_use proposal) constraints) then Err SecretUseMismatch
    else
      Ok (mkAuthorized proposal provider (mkReceipt decision_id authorized_by policy_digest)
            constraints).

(** ** Specifications

    The same conditions, stated without the order in which the code checks
    them. *)

Definition method_ok (m : str) : Prop := len m ≤ MAX_HTTP_METHOD_BYTES ∧ is_http_token m = true.

Definition template_ok (methods : list str) (t : RequestTemplate) : Prop :=
  (template_method t = lit "GET" ∨ template_method t = lit "HEAD")
  ∧ template_method t ∈ methods
  ∧ len_list (pinned (template_query t)) + len_list (allowed (template_query t))
    ≤ MAX_HTTP_SCOPE_ENTRIES
  ∧ Forall (fun k => is_query_key k = true)
      ((pinned (template_query t)).*1 ++ allowed (template_query t))
  ∧ Forall (fun k => k ∉ (pinned (template_query t)).*1) (allowed (template_query t)).

Definition route (t : RequestTemplate) : str * PathTemplate := (template_method t, template_path t).

Record http_ok (h : HttpConstraints) : Prop := {
  http_hosts : allowed_hosts h ≠ [] ∧ len_list (allowed_hosts h) ≤ MAX_HTTP_SCOPE_ENTRIES
    ∧ Forall (fun v => is_authority_scope v = true) (allowed_hosts h);
  http_methods : allowed_methods h ≠ [] ∧ len_list (allowed_methods h) ≤ MAX_HTTP_SCOPE_ENTRIES
    ∧ Forall method_ok (allowed_methods h);
  http_limits : max_requests h ≠ 0 ∧ max_request_bytes h ≠ 0 ∧ max_response_bytes h ≠ 0;
  http_templates : len_list (request_templates h) ≤ MAX_HTTP_SCOPE_ENTRIES
    ∧ Forall (template_ok (allowed_methods h)) (request_templates h)
    ∧ NoDup (route <$> request_templates h)
}.

Record grant_ok (g : SecretUseGrant) : Prop := {
  grant_hosts : grant_allowed_hosts g ≠ [] ∧ len_list (grant_allowed_hosts g) ≤ MAX_HTTP_SCOPE_ENTRIES
    ∧ Forall (fun v => is_authority_scope v = true) (grant_allowed_hosts g);
  grant_methods : grant_allowed_methods g ≠ []
    ∧ len_list (grant_allowed_methods g) ≤ MAX_HTTP_SCOPE_ENTRIES
    ∧ Forall method_ok (grant_allowed_methods g);
  grant_paths : grant_allowed_paths g ≠ [] ∧ len_list (grant_allowed_paths g) ≤ MAX_HTTP_SCOPE_ENTRIES
    ∧ Forall (fun r => canonical_secret_path (rule_path r) = true) (grant_allowed_paths g);
  grant_injections : grant_max_injections g ≠ 0;
  grant_binding : grant_binding_id g ≠ [] ∧ len (grant_binding_id g) ≤ 128
    ∧ Forall (fun b => is_ascii_alphanumeric b || mem b (lit ".-_") = true) (grant_binding_id g);
  grant_revision : ∀ r, grant_map_revision g = Some r →
    r ≠ [] ∧ len r ≤ 128 ∧ is_trimmed r = true ∧ Forall (fun b => is_ascii_control b = false) r;
  grant_username : username_agrees (grant_sink g) (grant_basic_username g) = true
}.

(** ** Validation meets its specification *)

Lemma check_template_Ok (methods : list str) (routes routes' : list (str * PathTemplate))
    (t : RequestTemplate) :
  check_template methods routes t = Ok routes' →
  routes' = route t :: routes ∧ (route t ∉ routes)
  ∧ (read_only_method (template_method t) = true → template_ok methods t).
Proof.
  unfold check_template. destruct (contains_str methods _) eqn:Hm; [|done]. cbn [negb].
  case_bool_decide as Hr; [done|]. destruct (_ <? _) eqn:Hn; [done|].
  destruct (find_first _ (_ ++ _)) eqn:Hk; [done|]. destruct (find_first _ (allowed _)) eqn:Ha; [done|].
  intros [= <-]. split; [done|]. split; [done|]. intros Hro. unfold read_only_method in Hro.
  rewrite orb_true_iff, !str_eqb_eq in Hro. apply Z.ltb_ge in Hn. apply contains_str_true in Hm.
  apply find_first_None in Hk, Ha. split; [done|]. split; [done|]. split; [done|]. split.
  - eapply Forall_impl; [|exact Hk]. intros k Hk'. by apply negb_false_iff in Hk'.
  - eapply Forall_impl; [|exact Ha]. intros k Hk' Hin%contains_str_true. congruence.
Qed.

Lemma check_template_complete (methods : list str) (routes : list (str * PathTemplate))
    (t : RequestTemplate) :
  template_ok methods t → (route t ∉ routes) → check_template methods routes t = Ok (route t :: routes).
Proof.
  intros (_ & Hm & Hn & Hk & Ha) Hr. unfold check_template. apply contains_str_true in Hm.
  rewrite Hm. cbn [negb]. unfold route in Hr. rewrite bool_decide_eq_false_2 by done.
  rewrite (proj2 (Z.ltb_ge _ _)) by done.
  rewrite (proj2 (find_first_None _ _)) by (eapply Forall_impl; [|exact Hk]; intros ? ->; done).
  rewrite (proj2 (find_first_None _ _)); [done|]. eapply Forall_impl; [|exact Ha].
  intros k Hk'. apply not_true_is_false. by intros ?%contains_str_true.
Qed.

Lemma check_templates_Ok (methods : list str) (routes : list (str * PathTemplate))
    (ts : list RequestTemplate) :
  Forall (fun t => read_only_method (template_method t) = true) ts →
  check_templates methods routes ts = Ok tt
  ↔ Forall (template_ok methods) ts ∧ NoDup (route <$> ts) ∧ Forall (fun t => route t ∉ routes) ts.
Proof.
  intros Hro. revert routes. induction Hro as [|t ts Ht Hts IH]; intros routes; cbn [check_templates].
  { split; [intros _; repeat constructor|done]. }
  rewrite result_bind_Ok, fmap_cons, list.NoDup_cons, !List.Forall_cons_iff. split.
  - intros (r & (-> & Hr & Hok)%check_template_Ok & Hrest). apply IH in Hrest as (H1 & H2 & H3).
    split; [by split; [apply Hok|]|]. split; [split; [|done]|split; [done|]].
    + intros (t' & Heq & Hin)%list_elem_of_fmap. rewrite List.Forall_forall in H3.
      apply list_elem_of_In, H3 in Hin. apply Hin. rewrite <- Heq. left.
    + eapply Forall_impl; [|exact H3]. intros t' Ht' Hin. apply Ht'. by right.
  - intros ([Hok H1] & [Hnot H2] & [Hr H3]). exists (route t :: routes).
    split; [by apply check_template_complete|]. apply IH. split; [done|]. split; [done|].
    apply List.Forall_forall. intros t' Hin [Heq|Hin']%elem_of_cons.
    + apply Hnot, list_elem_of_fmap. exists t'. split; [done|by apply list_elem_of_In].
    + rewrite List.Forall_forall in H3. by apply (H3 t').
Qed.

Lemma validate_request_templates_Ok (h : HttpConstraints) :
  validate_request_templates h = Ok tt
  ↔ len_list (request_templates h) ≤ MAX_HTTP_SCOPE_ENTRIES
    ∧ Forall (template_ok (allowed_methods h)) (request_templates h)
    ∧ NoDup (route <$> request_templates h).
Proof.
  unfold validate_request_templates. destruct (_ <? _) eqn:Hn; dk_bool; [split; [done|lia]|].
  destruct (List.filter _ _) as [|t ts] eqn:Hf.
  - rewrite check_templates_Ok.
    + split; [by intros (? & ? & _)|]. intros (_ & ? & ?). split; [done|]. split; [done|].
      apply List.Forall_forall. intros t _. apply not_elem_of_nil.
    + apply List.Forall_forall. intros t Ht. destruct (read_only_method _) eqn:E; [done|].
      assert (In t (List.filter (fun t => negb (read_only_method (template_method t)))
        (request_templates h))) as Hin by (apply filter_In; by rewrite E).
      by rewrite Hf in Hin.
  - split; [done|]. intros (_ & Hall & _).
    assert (In t (List.filter (fun t => negb (read_only_method (template_method t)))
      (request_templates h))) as Hin by (rewrite Hf; by left).
    apply filter_In in Hin as [Hin Ht]. rewrite List.Forall_forall in Hall.
    destruct (Hall t Hin) as [Hm _]. unfold read_only_method in Ht.
    destruct Hm as [Hm|Hm]; rewrite Hm in Ht; by vm_compute in Ht.
Qed.

Lemma method_check (ms : list str) :
  Forall (fun v => (MAX_HTTP_METHOD_BYTES <? len v) || negb (is_http_token v) = false) ms
  ↔ Forall method_ok ms.
Proof.
  apply Forall_iff. intros v. unfold method_ok.
  by rewrite orb_false_iff, Z.ltb_ge, negb_false_iff.
Qed.

Lemma host_check (hs : list str) :
  Forall (fun v => negb (is_authority_scope v) = false) hs
  ↔ Forall (fun v => is_authority_scope v = true) hs.
Proof. apply Forall_iff. intros v. apply negb_false_iff. Qed.

Lemma HttpConstraints_validate_Ok (h : HttpConstraints) :
  HttpConstraints_validate h = Ok tt ↔ http_ok h.
Proof.
  unfold HttpConstraints_validate. split.
  - destruct (allowed_hosts h) as [|h0 hs] eqn:Hh; [done|].
    destruct (allowed_methods h) as [|m0 ms] eqn:Hm; [done|]. rewrite <- Hh, <- Hm.
    destruct (_ || _) eqn:Hn; [done|]. destruct (find_first _ (allowed_hosts h)) eqn:Hhs; [done|].
    destruct (find_first _ (allowed_methods h)) eqn:Hms; [done|].
    destruct (_ || _) eqn:Hz in |- *; [done|]. intros Ht%validate_request_templates_Ok.
    apply find_first_None, host_check in Hhs. apply find_first_None, method_check in Hms.
    rewrite orb_false_iff, !Z.ltb_ge in Hn. rewrite !orb_false_iff, !Z.eqb_neq in Hz.
    destruct Hn, Hz as [[? ?] ?]. constructor; try done; (split; [congruence|done]).
  - intros [(Hh1 & Hh2 & Hh3) (Hm1 & Hm2 & Hm3) (Hz1 & Hz2 & Hz3) Ht].
    destruct (allowed_hosts h) as [|h0 hs] eqn:Hh; [done|].
    destruct (allowed_methods h) as [|m0 ms] eqn:Hm; [done|]. rewrite <- Hh, <- Hm in *.
    rewrite !(proj2 (Z.ltb_ge _ _)) by done. cbn [orb].
    rewrite (proj2 (find_first_None _ _)) by (by apply host_check).
    rewrite (proj2 (find_first_None _ _)) by (by apply method_check).
    rewrite !(proj2 (Z.eqb_neq _ _)) by done. by apply validate_request_templates_Ok.
Qed.

Lemma validate_paths_Ok (ps : list HttpPathRule) :
  validate_paths ps = Ok tt ↔ Forall (fun r => canonical_secret_path (rule_path r) = true) ps.
Proof.
  induction ps as [|p ps IH]; cbn; [done|]. rewrite List.Forall_cons_iff, <- IH.
  unfold HttpPathRule_validate. destruct (canonical_secret_path _); cbn; intuition done.
Qed.

Definition binding_check (id : str) : bool :=
  is_empty id || (128 <? len id)
  || negb (forallb (fun b => is_ascii_alphanumeric b || mem b (lit ".-_")) id).

Lemma binding_check_false (id : str) :
  binding_check id = false
  ↔ id ≠ [] ∧ len id ≤ 128
    ∧ Forall (fun b => is_ascii_alphanumeric b || mem b (lit ".-_") = true) id.
Proof.
  unfold binding_check. rewrite !orb_false_iff, Z.ltb_ge, negb_false_iff, forallb_true.
  destruct id; cbn [is_empty]; intuition done.
Qed.

Definition revision_check (o : option str) : bool :=
  is_some_and o (fun r => is_empty r || (128 <? len r) || negb (is_trimmed r)
                          || existsb is_ascii_control r).

Lemma revision_check_false (o : option str) :
  revision_check o = false
  ↔ ∀ r, o = Some r →
    r ≠ [] ∧ len r ≤ 128 ∧ is_trimmed r = true ∧ Forall (fun b => is_ascii_control b = false) r.
Proof.
  destruct o as [r|]; cbn; [|split; [by intros _ r|done]].
  rewrite !orb_false_iff, Z.ltb_ge, negb_false_iff, existsb_false. split.
  - intros [[[? ?] ?] ?] r' [= <-]. split; [by destruct r|done].
  - intros H. destruct (H r eq_refl) as (? & ? & ? & ?). by destruct r.
Qed.

Definition scope_check (g : SecretUseGrant) : bool :=
  (MAX_HTTP_SCOPE_ENTRIES <? len_list (grant_allowed_hosts g))
  || (MAX_HTTP_SCOPE_ENTRIES <? len_list (grant_allowed_methods g))
  || (MAX_HTTP_SCOPE_ENTRIES <? len_list (grant_allowed_paths g))
  || existsb (fun value => negb (is_authority_scope value)) (grant_allowed_hosts g)
  || existsb (fun value => (MAX_HTTP_METHOD_BYTES <? len value)
                           || negb (is_http_token value)) (grant_allowed_methods g).

Lemma scope_check_false (g : SecretUseGrant) :
  scope_check g = false
  ↔ len_list (grant_allowed_hosts g) ≤ MAX_HTTP_SCOPE_ENTRIES
    ∧ len_list (grant_allowed_methods g) ≤ MAX_HTTP_SCOPE_ENTRIES
    ∧ len_list (grant_allowed_paths g) ≤ MAX_HTTP_SCOPE_ENTRIES
    ∧ Forall (fun v => is_authority_scope v = true) (grant_allowed_hosts g)
    ∧ Forall method_ok (grant_allowed_methods g).
Proof.
  unfold scope_check.
  rewrite !orb_false_iff, !Z.ltb_ge, !existsb_false, host_check, method_check. tauto.
Qed.

(** The checks of [validate] in the order the code makes them. *)
Lemma SecretUseGrant_validate_eq (g : SecretUseGrant) :
  SecretUseGrant_validate g =
  if is_nil (grant_allowed_hosts g) || is_nil (grant_allowed_methods g)
     || is_nil (grant_allowed_paths g) then Err EmptyScope
  else if grant_max_injections g =? 0 then Err ZeroInjections
  else if binding_check (grant_binding_id g) then Err InvalidBindingId
  else if revision_check (grant_map_revision g) then Err InvalidMapRevision
  else if scope_check g then Err InvalidScope
  else
    let? _ := validate_paths (grant_allowed_paths g) in
    if username_agrees (grant_sink g) (grant_basic_username g) then Ok tt else Err InvalidUsername.
Proof.
  unfold SecretUseGrant_validate, binding_check, revision_check, scope_check.
  by destruct (grant_allowed_hosts g), (grant_allowed_methods g), (grant_allowed_paths g).
Qed.

Lemma SecretUseGrant_validate_Ok (g : SecretUseGrant) :
  SecretUseGrant_validate g = Ok tt ↔ grant_ok g.
Proof.
  rewrite SecretUseGrant_validate_eq. split.
  - destruct (_ || _) eqn:He; [done|]. rewrite !orb_false_iff, !is_nil_false in He.
    destruct (_ =? 0) eqn:Hz; [done|]. apply Z.eqb_neq in Hz.
    destruct (binding_check _) eqn:Hb; [done|]. apply binding_check_false in Hb.
    destruct (revision_check _) eqn:Hr; [done|]. rewrite revision_check_false in Hr.
    destruct (scope_check _) eqn:Hs; [done|]. apply scope_check_false in Hs as (? & ? & ? & ? & ?).
    rewrite result_bind_Ok. intros ([] & Hp%validate_paths_Ok & Hu).
    destruct (username_agrees _ _) eqn:Hun; [|done]. destruct He as [[? ?] ?]. by constructor.
  - intros [(? & ? & ?) (? & ? & ?) (? & ? & ?) Hz Hb Hr Hu].
    rewrite (proj2 (is_nil_false (grant_allowed_hosts g))), (proj2 (is_nil_false (grant_allowed_methods g))),
      (proj2 (is_nil_false (grant_allowed_paths g))) by done. cbn [orb].
    rewrite (proj2 (Z.eqb_neq _ _)), (proj2 (binding_check_false _)),
      (proj2 (revision_check_false _)), (proj2 (scope_check_false _)),
      (proj2 (validate_paths_Ok _)) by done.
    cbn. by rewrite Hu.
Qed.

(** ** Path rules *)

Lemma prefix_join (p c : list str) (sep : Z) :
  p ≠ [] → c ≠ [] → Forall (fun f => sep ∉ f) p → Forall (fun f => sep ∉ f) c →
  p `prefix_of` c ↔ join sep c = join sep p ∨ ∃ rest, join sep c = join sep p ++ sep :: rest.
Proof.
  intros Hp Hc Hcp Hcc. split.
  - intros [r ->]. destruct r as [|f r]; [left; by rewrite app_nil_r|right].
    exists (join sep (f :: r)). clear Hcc Hc Hcp. induction p as [|x p IH]; [done|].
    destruct p as [|y p]; [done|]. rewrite <- app_comm_cons, !join_cons by done.
    rewrite IH by done. by rewrite <- app_assoc.
  - intros Hj. assert (split sep (join sep c) = c) as Hsc by (by apply split_join).
    assert (split sep (join sep p) = p) as Hsp by (by apply split_join).
    destruct Hj as [Hj|[rest Hj]]; rewrite Hj in Hsc.
    + by rewrite Hsp in Hsc; subst.
    + exists (split sep rest). by rewrite <- Hsc, split_join_app, Hsp.
Qed.

(** The segments of a rule: the root has none of its own. *)
Definition rule_segments (path : str) : list str :=
  if str_eqb path (lit "/") then [[]] else split (ch "/") path.

Lemma segment_prefix_matches (path c : str) :
  starts_with path (lit "/") = true →
  HttpPathRule_matches (SegmentPrefix path) c = true
  ↔ rule_segments path `prefix_of` split (ch "/") c ∧ (path = lit "/" → starts_with c (lit "/") = true).
Proof.
  intros Hs. cbn [HttpPathRule_matches]. unfold rule_segments.
  destruct (str_eqb path (lit "/")) eqn:E; dk_bool.
  - split; [|by intros [_ ?]; auto]. intros Hc. split; [|done].
    apply starts_with_true in Hc as [r ->]. change (lit "/" ++ r) with ([] ++ ch "/" :: r).
    rewrite split_app by apply not_elem_of_nil. by exists (split (ch "/") r).
  - rewrite prefix_join by eauto using split_not_nil, split_fields_clean.
    rewrite !join_split. split.
    + intros [->|Hm]; [by split; [left|]|]. split; [right|done].
      destruct (strip_prefix c path) as [suffix|] eqn:Ep; cbn in Hm; [|done].
      apply strip_prefix_Some in Ep as ->. apply starts_with_true in Hm as [r ->]. by exists r.
    + intros [[->|[r ->]] _]; [by left|right].
      rewrite (proj2 (strip_prefix_Some _ path (ch "/" :: r))) by done. cbn.
      apply starts_with_true. by exists r.
Qed.

(** ** The gate *)

Definition secret_agrees (p : option SecretUseProposal) (c : ExecutionConstraints) : Prop :=
  (p = None ∧ secret_use c = None)
  ∨ ∃ proposal grant, p = Some proposal ∧ secret_use c = Some grant ∧ http c ≠ None
      ∧ proposal_secret proposal = grant_secret grant ∧ proposal_sink proposal = grant_sink grant
      ∧ proposal_username proposal = grant_basic_username grant.

Lemma secret_matches_true (p : option SecretUseProposal) (c : ExecutionConstraints) :
  secret_matches p c = true ↔ secret_agrees p c.
Proof.
  unfold secret_matches, secret_agrees.
  destruct p as [proposal|], (secret_use c) as [grant|].
  - rewrite !andb_true_iff, str_eqb_eq, !bool_decide_eq_true. split.
    + intros [[[? ?] ?] ?]. right. exists proposal, grant. by destruct (http c).
    + intros [[? _]|(p & g & [= <-] & [= <-] & Hh & ? & ? & ?)]; [done|]. by destruct (http c).
  - split; [done|]. intros [[? _]|(? & ? & _ & ? & _)]; done.
  - split; [done|]. intros [[_ ?]|(? & ? & ? & _)]; done.
  - split; [by left|done].
Qed.

(** Everything the gate demands of an authorization. *)
Record authorization_ok (p : option SecretUseProposal) (decision digest : str)
    (c : ExecutionConstraints) : Prop := {
  auth_decision : is_blank decision = false;
  auth_digest : valid_policy_digest digest = true;
  auth_timeout : timeout_ms c ≠ 0;
  auth_exclusive : http c = None ∨ storage c = None;
  auth_http : ∀ h, http c = Some h → http_ok h;
  auth_grant : ∀ g, secret_use c = Some g → grant_ok g;
  auth_secret : secret_agrees p c
}.

Lemma convert_Ok {E F : Type} (f : E → F) (r : result E unit) : convert f r = Ok tt ↔ r = Ok tt.
Proof. by destruct r as [[]|]. Qed.

Lemma authorize_Ok {Value : Type} (p : ProposedInvocation Value) (provider d by_ digest : str)
    (c : ExecutionConstraints) (inv : AuthorizedInvocation Value) :
  authorize p provider d by_ digest c = Ok inv
  ↔ authorization_ok (proposed_secret_use p) d digest c
    ∧ inv = mkAuthorized p provider (mkReceipt d by_ digest) c.
Proof.
  unfold authorize. split.
  - destruct (is_blank d) eqn:Hd; [done|]. destruct (valid_policy_digest digest) eqn:Hdg; [|done].
    cbn [negb]. destruct (_ =? 0) eqn:Ht; [done|]. apply Z.eqb_neq in Ht.
    destruct (_ && _) eqn:Hx; [done|]. rewrite result_bind_Ok. intros ([] & Hh & H).
    rewrite result_bind_Ok in H. destruct H as ([] & Hg & H).
    destruct (secret_matches _ _) eqn:Hs; [|done]. apply secret_matches_true in Hs.
    injection H as <-. split; [|done]. constructor; try done.
    + destruct (http c), (storage c); cbn in Hx; auto; done.
    + intros h Eh. rewrite Eh in Hh. by apply HttpConstraints_validate_Ok, (convert_Ok InvalidHttp).
    + intros g Eg. rewrite Eg in Hg. by apply SecretUseGrant_validate_Ok, (convert_Ok InvalidSecretUse).
  - intros [[Hd Hdg Ht Hx Hh Hg Hs] ->]. rewrite Hd, Hdg, (proj2 (Z.eqb_neq _ _)) by done. cbn [negb].
    assert (is_some (http c) && is_some (storage c) = false) as ->.
    { destruct Hx as [-> | ->]; [done|apply andb_false_r]. }
    rewrite (proj2 (secret_matches_true _ _)) by done.
    assert (match http c with
            | Some h => convert InvalidHttp (HttpConstraints_validate h) | None => Ok tt
            end = Ok tt) as ->.
    { destruct (http c) as [h|]; [|done]. by apply convert_Ok, HttpConstraints_validate_Ok, Hh. }
    cbn [result_bind].
    assert (match secret_use c with
            | Some g => convert InvalidSecretUse (SecretUseGrant_validate g) | None => Ok tt
            end = Ok tt) as ->; [|done].
    destruct (secret_use c) as [g|]; [|done]. by apply convert_Ok, SecretUseGrant_validate_Ok, Hg.
Qed.

(** ** Properties *)

(** C2: the gate authorizes exactly the invocations whose decision is named,
    whose policy digest is 64 lowercase hexadecimal digits, whose time limit
    is not zero, which do not mix HTTP and storage authority, whose HTTP
    constraints and secret grant are valid and whose use of a secret is the
    one granted; and what it returns is the proposal, unchanged, with exactly
    the constraints and receipt that were checked. *)
Theorem authorize_sound_and_complete {Value : Type} (p : ProposedInvocation Value)
    (provider d by_ digest : str) (c : ExecutionConstraints) (inv : AuthorizedInvocation Value) :
  authorize p provider d by_ digest c = Ok inv
  ↔ authorization_ok (proposed_secret_use p) d digest c
    ∧ inv = mkAuthorized p provider (mkReceipt d by_ digest) c.
Proof. apply authorize_Ok. Qed.

(** An authorized invocation that uses a secret holds a valid grant for
    that very secret, sink and user name, has valid HTTP constraints and no
    storage, may use the secret only on canonical path rules, and carries a
    user name exactly when the sink is HTTP Basic. *)
Theorem authorized_secret_is_confined {Value : Type} (p : ProposedInvocation Value)
    (provider d by_ digest : str) (c : ExecutionConstraints) (inv : AuthorizedInvocation Value)
    (proposal : SecretUseProposal) :
  authorize p provider d by_ digest c = Ok inv → proposed_secret_use p = Some proposal →
  ∃ grant h, secret_use (authorized_constraints inv) = Some grant
    ∧ http (authorized_constraints inv) = Some h ∧ http_ok h
    ∧ storage (authorized_constraints inv) = None
    ∧ grant_secret grant = proposal_secret proposal
    ∧ grant_basic_username grant = proposal_username proposal
    ∧ Forall (fun r => canonical_secret_path (rule_path r) = true) (grant_allowed_paths grant)
    ∧ (is_some (grant_basic_username grant) = true ↔ grant_sink grant = HttpBasic).
Proof.
  intros [[_ _ _ Hx Hh Hg Hs] ->]%authorize_Ok Hp. cbn [authorized_constraints].
  destruct Hs as [[? _]|(p' & g & Hp' & Eg & Hhn & H1 & H2 & H3)]; [congruence|].
  rewrite Hp in Hp'. injection Hp' as <-. destruct (http c) as [h|] eqn:Eh; [|done].
  exists g, h. split; [done|]. split; [done|]. split; [by apply Hh|].
  split; [by destruct Hx|]. split; [done|]. split; [done|].
  destruct (Hg g Eg) as [_ _ (_ & _ & Hpaths) _ _ _ Hu]. split; [done|].
  by destruct (grant_sink g), (grant_basic_username g).
Qed.

(** A segment-prefix rule matches exactly the paths whose segments start
    with the segments of the rule, so a rule for one segment never reaches a
    longer segment that begins with the same letters; an exact rule matches
    its own path only. *)
Theorem path_rule_matches_segments (path c : str) :
  starts_with path (lit "/") = true →
  (HttpPathRule_matches (SegmentPrefix path) c = true
   ↔ rule_segments path `prefix_of` split (ch "/") c
     ∧ (path = lit "/" → starts_with c (lit "/") = true))
  ∧ (HttpPathRule_matches (Exact path) c = true ↔ c = path).
Proof.
  intros Hs. split; [by apply segment_prefix_matches|]. cbn. by rewrite str_eqb_eq.
Qed.

(** The HTTP constraints are accepted exactly when they meet the
    specification: bounded non-empty hosts and methods of the right form, no
    zero limit, and templates that are read-only, granted, pairwise distinct
    and whose query keys are valid and never both pinned and allowed. *)
Theorem http_validation_exact (h : HttpConstraints) :
  HttpConstraints_validate h = Ok tt ↔ http_ok h.
Proof. apply HttpConstraints_validate_Ok. Qed.

(** A retention that is a positive whole number of milliseconds, or none,
    survives the wire; anything read from the wire is written back as it was
    read. *)
Theorem retention_round_trip (r : StorageRetention) (w : StorageRetentionWire) :
  match r with
  | Keep => True
  | IdleTtl d => ∃ ms, 0 < ms ≤ u64_max ∧ d = dur_from_millis ms
  end →
  match wire_idle_ttl_ms w with Some ms => 0 < ms ≤ u64_max | None => True end →
  (∃ w', StorageRetention_serialize r = Some w' ∧ StorageRetention_deserialize w' = Some r)
  ∧ (∀ r', StorageRetention_deserialize w = Some r' → StorageRetention_serialize r' = Some w).
Proof.
  assert (∀ ms, 0 < ms ≤ u64_max → StorageRetention_serialize (IdleTtl (dur_from_millis ms))
            = Some (mkRetentionWire IdleTtlMode (Some ms))) as Hser.
  { intros ms Hms. cbn. unfold dur_as_millis, dur_from_millis. rewrite Z.div_mul by lia.
    unfold try_u64. rewrite (proj2 (Z.leb_le 0 ms)), (proj2 (Z.leb_le ms u64_max)) by lia. cbn.
    by rewrite (proj2 (Z.eqb_neq ms 0)) by lia. }
  intros Hr Hw. split.
  - destruct r as [|d]; [by eexists|]. destruct Hr as (ms & Hms & ->). rewrite Hser by done. by eexists.
  - destruct w as [[] [ms|]]; cbn in *; intros r' [= <-]; [done|]. by rewrite <- Hser.
Qed.

(** ** Witnesses *)

Definition demo_http : HttpConstraints :=
  mkHttp [lit "api.example.com"] [lit "GET"] 4 1024 65536 false false
    [mkRequestTemplate (lit "GET") demo_template
       (mkQueryTemplate [(lit "channel", ConversationId)] [lit "limit"])] None.

Definition demo_grant : SecretUseGrant :=
  mkGrant (lit "drn:secret:api/basic") HttpBasic (Some (lit "user-a")) [lit "api.example.com"]
    [lit "GET"] [SegmentPrefix (lit "/v1")] false 1 (lit "binding-1") None.

Definition demo_constraints : ExecutionConstraints :=
  mkConstraints 30000 (Some demo_http) None None (Some demo_grant).

Definition demo_proposal : ProposedInvocation unit :=
  with_secret_use
    (ProposedInvocation_new (lit "inv-1") (lit "http.fetch") (AgentActor (lit "scout"))
       (lit "4bf92f3577b34da6a3ce929d0e0e4736") tt)
    (Some (UseHttpBasic (lit "drn:secret:api/basic") (lit "user-a"))).

Definition demo_digest : str :=
  lit "0123456789abcdef0123456789abcdef0123456789abcdef0123456789abcdef".

Definition demo_invocation : AuthorizedInvocation unit :=
  mkAuthorized demo_proposal (lit "fetch") (mkReceipt (lit "d-1") (lit "broker") demo_digest)
    demo_constraints.

Lemma authorized_secret_is_confined_witness :
  authorize demo_proposal (lit "fetch") (lit "d-1") (lit "broker") demo_digest demo_constraints
    = Ok demo_invocation
  ∧ ∃ grant h, secret_use demo_constraints = Some grant ∧ http demo_constraints = Some h ∧ http_ok h.
Proof.
  assert (authorize demo_proposal (lit "fetch") (lit "d-1") (lit "broker") demo_digest
    demo_constraints = Ok demo_invocation) as H by (vm_compute; reflexivity).
  split; [exact H|].
  destruct (authorized_secret_is_confined demo_proposal (lit "fetch") (lit "d-1") (lit "broker")
    demo_digest demo_constraints demo_invocation
    (UseHttpBasic (lit "drn:secret:api/basic") (lit "user-a")) H eq_refl)
    as (g & h & H1 & H2 & H3 & _).
  exists g, h. split; [exact H1|]. split; [exact H2|exact H3].
Defined.

Lemma path_rule_matches_segments_witness :
  HttpPathRule_matches (SegmentPrefix (lit "/v1")) (lit "/v1/users") = true
  ∧ HttpPathRule_matches (SegmentPrefix (lit "/v1")) (lit "/v10") = false.
Proof.
  split; [|by vm_compute].
  apply (path_rule_matches_segments (lit "/v1") (lit "/v1/users")); [by vm_compute|].
  split; [by exists [lit "users"]|intros H; by vm_compute in H].
Defined.

Lemma retention_round_trip_witness :
  ∃ w, StorageRetention_serialize (IdleTtl (dur_from_secs 60)) = Some w
    ∧ StorageRetention_deserialize w = Some (IdleTtl (dur_from_secs 60)).
Proof.
  apply (retention_round_trip (IdleTtl (dur_from_secs 60)) (mkRetentionWire KeepMode None)).
  - exists 60000. unfold u64_max, dur_from_secs, dur_from_millis. lia.
  - exact I.
Defined.
