(* ===== verification/StorageConfig.v ===== *)
(** * Storage limits

    [crates/dekopon-storage-host/src/config.rs]: the limits of the storage
    host, their defaults and their validation. *)

From Stdlib Require Import ZArith Lia Ascii String.
From stdpp Require Import base gmap strings list sorting numbers.
From S2P Require Import Prelude.
From S2P Require Import RustStr.

Definition TIB : Z := 1024 * 1024 * 1024 * 1024.
Definition GIB : Z := 1024 * 1024 * 1024.
Definition MIB : Z := 1024 * 1024.

Record StorageLimits : Type := mkLimits {
  max_root_bytes : Z;
  max_namespaces : Z;
  max_namespace_bytes : Z;
  max_files_per_namespace : Z;
  max_file_bytes : Z;
  max_open_handles : Z;
  max_handles_per_invocation : Z;
  max_host_calls_per_invocation : Z;
  max_read_bytes_per_call : Z;
  max_read_bytes_per_invocation : Z;
  max_write_bytes_per_call : Z;
  max_write_bytes_per_invocation : Z;
  max_entropy_bytes_per_call : Z;
  max_entropy_bytes_per_invocation : Z;
  lock_timeout_ms : Z;
  finalization_budget_ms : Z;
  max_active_invocations : Z;
  startup_max_entries : Z
}.

Definition StorageLimits_default : StorageLimits := {|
  max_root_bytes := 2 * GIB;
  max_namespaces := 4096;
  max_namespace_bytes := 64 * MIB;
  max_files_per_namespace := 64;
  max_file_bytes := 16 * MIB;
  max_open_handles := 256;
  max_handles_per_invocation := 32;
  max_host_calls_per_invocation := 4096;
  max_read_bytes_per_call := 256 * 1024;
  max_read_bytes_per_invocation := 16 * MIB;
  max_write_bytes_per_call := 16 * MIB;
  max_write_bytes_per_invocation := 16 * MIB;
  max_entropy_bytes_per_call := 256;
  max_entropy_bytes_per_invocation := 4096;
  lock_timeout_ms := 5000;
  finalization_budget_ms := 5000;
  max_active_invocations := 64;
  startup_max_entries := 100000
|}.

Inductive StorageConfigError : Type :=
| Zero (field : str)
| AboveCeiling (field : str) (value maximum : Z)
| Relationship (relationship : str)
| ConfigArithmetic
| RestartCapacity (required configured : Z).

(** The tables [positive] and [ceilings] list the same fields in the same
    order; [relationships] is the third. *)
Definition ceilings (l : StorageLimits) : list (str * Z * Z) :=
  [(lit "maxRootBytes", max_root_bytes l, TIB);
   (lit "maxNamespaces", max_namespaces l, 65536);
   (lit "maxNamespaceBytes", max_namespace_bytes l, GIB);
   (lit "maxFilesPerNamespace", max_files_per_namespace l, 1024);
   (lit "maxFileBytes", max_file_bytes l, 256 * MIB);
   (lit "maxOpenHandles", max_open_handles l, 4096);
   (lit "maxHandlesPerInvocation", max_handles_per_invocation l, 256);
   (lit "maxHostCallsPerInvocation", max_host_calls_per_invocation l, 1000000);
   (lit "maxReadBytesPerCall", max_read_bytes_per_call l, 16 * MIB);
   (lit "maxReadBytesPerInvocation", max_read_bytes_per_invocation l, GIB);
   (lit "maxWriteBytesPerCall", max_write_bytes_per_call l, 16 * MIB);
   (lit "maxWriteBytesPerInvocation", max_write_bytes_per_invocation l, GIB);
   (lit "maxEntropyBytesPerCall", max_entropy_bytes_per_call l, 4 * 1024);
   (lit "maxEntropyBytesPerInvocation", max_entropy_bytes_per_invocation l, 64 * 1024);
   (lit "lockTimeoutMs", lock_timeout_ms l, 60000);
   (lit "finalizationBudgetMs", finalization_budget_ms l, 60000);
   (lit "maxActiveInvocations", max_active_invocations l, 1024);
   (lit "startupMaxEntries", startup_max_entries l, 1000000)].

Definition positive (l : StorageLimits) : list (str * Z) :=
  [(lit "maxRootBytes", max_root_bytes l);
   (lit "maxNamespaces", max_namespaces l);
   (lit "maxNamespaceBytes", max_namespace_bytes l);
   (lit "maxFilesPerNamespace", max_files_per_namespace l);
   (lit "maxFileBytes", max_file_bytes l);
   (lit "maxOpenHandles", max_open_handles l);
   (lit "maxHandlesPerInvocation", max_handles_per_invocation l);
   (lit "maxHostCallsPerInvocation", max_host_calls_per_invocation l);
   (lit "maxReadBytesPerCall", max_read_bytes_per_call l);
   (lit "maxReadBytesPerInvocation", max_read_bytes_per_invocation l);
   (lit "maxWriteBytesPerCall", max_write_bytes_per_call l);
   (lit "maxWriteBytesPerInvocation", max_write_bytes_per_invocation l);
   (lit "maxEntropyBytesPerCall", max_entropy_bytes_per_call l);
   (lit "maxEntropyBytesPerInvocation", max_entropy_bytes_per_invocation l);
   (lit "lockTimeoutMs", lock_timeout_ms l);
   (lit "finalizationBudgetMs", finalization_budget_ms l);
   (lit "maxActiveInvocations", max_active_invocations l);
   (lit "startupMaxEntries", startup_max_entries l)].

Definition relationships (l : StorageLimits) : list (bool * str) :=
  [(max_read_bytes_per_call l <=? max_read_bytes_per_invocation l, lit "read call <= invocation");
   (max_write_bytes_per_call l <=? max_write_bytes_per_invocation l, lit "write call <= invocation");
   (max_entropy_bytes_per_call l <=? max_entropy_bytes_per_invocation l,
    lit "entropy call <= invocation");
   (max_file_bytes l <=? max_namespace_bytes l, lit "file <= namespace");
   (max_namespace_bytes l <=? max_root_bytes l, lit "namespace <= root");
   (max_handles_per_invocation l <=? max_open_handles l, lit "invocation handles <= process handles")].

Definition StorageLimits_validate (l : StorageLimits) : result StorageConfigError unit :=
  match find_first (fun e => e.2 =? 0) (positive l) with
  | Some (field, _) => Err (Zero field)
  | None =>
      match find_first (fun e => e.2 <? e.1.2) (ceilings l) with
      | Some (field, value, maximum) => Err (AboveCeiling field value maximum)
      | None =>
          match find_first (fun e => negb e.1) (relationships l) with
          | Some (_, relationship) => Err (Relationship relationship)
          | None =>
              let? one_namespace :=
                ok_or (checked_add_u64 (max_files_per_namespace l) 7) ConfigArithmetic in
              if startup_max_entries l <? one_namespace
              then Err (RestartCapacity one_namespace (startup_max_entries l))
              else Ok tt
          end
      end
  end.

(** ** Specification *)

(** Every limit is at least one and within its ceiling. *)
Definition limits_bounded (l : StorageLimits) : Prop :=
  Forall (fun e => 0 < e.1.2 ≤ e.2) (ceilings l).

Record limits_ok (l : StorageLimits) : Prop := {
  limits_range : limits_bounded l;
  limits_read : max_read_bytes_per_call l ≤ max_read_bytes_per_invocation l;
  limits_write : max_write_bytes_per_call l ≤ max_write_bytes_per_invocation l;
  limits_entropy : max_entropy_bytes_per_call l ≤ max_entropy_bytes_per_invocation l;
  limits_file : max_file_bytes l ≤ max_namespace_bytes l;
  limits_namespace : max_namespace_bytes l ≤ max_root_bytes l;
  limits_handles : max_handles_per_invocation l ≤ max_open_handles l;
  limits_restart : max_files_per_namespace l + 7 ≤ startup_max_entries l
}.

Definition limits_u64 (l : StorageLimits) : Prop := Forall (fun e => in_u64 e.2) (positive l).

Lemma positive_ceilings (l : StorageLimits) : positive l = fst <$> ceilings l.
Proof. done. Qed.

Lemma limits_bounded_files (l : StorageLimits) :
  limits_bounded l → 0 < max_files_per_namespace l ≤ 1024 ∧ 0 < startup_max_entries l ≤ 1000000.
Proof.
  unfold limits_bounded. rewrite List.Forall_forall. intros Hall. split.
  - by apply (Hall (lit "maxFilesPerNamespace", max_files_per_namespace l, 1024)); cbn; tauto.
  - by apply (Hall (lit "startupMaxEntries", startup_max_entries l, 1000000)); cbn; tauto.
Qed.

Lemma validate_range (l : StorageLimits) :
  limits_u64 l →
  find_first (fun e => e.2 =? 0) (positive l) = None
  ∧ find_first (fun e => e.2 <? e.1.2) (ceilings l) = None
  ↔ limits_bounded l.
Proof.
  unfold limits_u64, limits_bounded. rewrite !find_first_None, positive_ceilings, !Forall_fmap.
  rewrite <- list.Forall_and, !List.Forall_forall. unfold compose. intros Hu.
  split; intros Hall e He; specialize (Hu e He); specialize (Hall e He); unfold in_u64 in Hu.
  - dk_bool. lia.
  - rewrite Z.eqb_neq, Z.ltb_ge. lia.
Qed.

(** ** Properties *)

(** Limits are accepted exactly when every limit is between one and its
    ceiling, no per-call limit exceeds its per-invocation limit, a file fits
    a namespace and a namespace the root, and a namespace with all its files
    can be scanned at the next start; the overflow the code guards against
    never happens. *)
Theorem storage_limits_exact (l : StorageLimits) :
  limits_u64 l →
  (StorageLimits_validate l = Ok tt ↔ limits_ok l)
  ∧ StorageLimits_validate l ≠ Err ConfigArithmetic.
Proof.
  intros Hu. pose proof (validate_range l Hu) as Hrange. unfold StorageLimits_validate.
  destruct (find_first _ (positive l)) as [[f v]|] eqn:Hp.
  { split; [|done]. split; [done|]. intros [Hb _ _ _ _ _ _ _]. by apply Hrange in Hb as [? _]. }
  destruct (find_first _ (ceilings l)) as [[[f v] m]|] eqn:Hc.
  { split; [|done]. split; [done|]. intros [Hb _ _ _ _ _ _ _]. by apply Hrange in Hb as [_ ?]. }
  assert (limits_bounded l) as Hb by (by apply Hrange).
  destruct (limits_bounded_files l Hb) as [Hf He].
  assert (checked_add_u64 (max_files_per_namespace l) 7 = Some (max_files_per_namespace l + 7)) as ->
    by (unfold checked_add_u64; rewrite (proj2 (Z.leb_le _ _)) by (unfold u64_max; lia); done).
  cbn [ok_or result_bind].
  destruct (find_first _ (relationships l)) as [[b r]|] eqn:Hr.
  - split; [|done]. split; [done|]. intros [_ H1 H2 H3 H4 H5 H6 _].
    apply find_first_Some in Hr as [Hin Hn]. unfold relationships in Hin.
    rewrite !(proj2 (Z.leb_le _ _)) in Hin by done.
    destruct b; [done|]. rewrite !elem_of_cons, elem_of_nil in Hin. intuition congruence.
  - apply find_first_None in Hr. unfold relationships in Hr.
    repeat (apply List.Forall_cons_iff in Hr as [?%negb_false_iff%Z.leb_le Hr]).
    destruct (_ <? _) eqn:Hl; dk_bool; (split; [|done]); split; try done.
    intros [_ _ _ _ _ _ _ Hrs]. lia.
Qed.

(** ** Witnesses *)

Lemma storage_limits_exact_witness : limits_ok StorageLimits_default.
Proof.
  apply (storage_limits_exact StorageLimits_default); [|vm_compute; reflexivity].
  unfold limits_u64, positive, in_u64. repeat constructor; vm_compute; discriminate.
Defined.
