(* ===== verification/Quota.v ===== *)
(** * The storage quota ledger

    [crates/dekopon-storage-host/src/quota.rs]: one ledger, behind a mutex,
    counts the bytes and entries in use and reserved in the storage root and
    in each namespace, the namespaces, the open handles and the invocations in
    progress. Reservations are guards that give back on drop what they were
    not committed for. Every method holds the lock for its whole body, so a
    method is one function on the state behind the lock, and an interleaving
    of threads is a sequence of such functions. A method that fails half way
    keeps the writes made before the failure: it returns the state with the
    error. *)

From Stdlib Require Import ZArith Lia Ascii String.
From stdpp Require Import base gmap strings list sorting numbers.
From S2P Require Import Prelude.
From S2P Require Import RustStr.
From S2P Require Import StorageConfig.

(** [Usage] of [layout.rs]. *)
Record Usage : Type := mkUsage { bytes : Z; entries : Z; files : Z }.

(** Why the continuity of a namespace could not be shown. *)
Inductive ContinuityCheck : Type :=
| Absent
| DigestMismatch
| SpaceBound
| RoutingDependent
| IdOnlySubject
| NoCandidate.

(** [StorageHostError] of [lib.rs], without the paths and sites that are only
    reported. [RootIo] keeps whether its source is [NotFound]. *)
Inductive StorageHostError : Type :=
| RootIo (not_found : bool)
| UnsafeRoot
| Corrupt (scope : str)
| QuotaExceeded
| Busy
| Timeout
| PermissionDenied
| InvalidName
| InvalidArgument
| NotFound
| AlreadyExists
| Io
| Arithmetic
| Entropy
| Clock
| StartupEntryLimit (count maximum : Z)
| ContinuityUnproven (check : ContinuityCheck).

Record LedgerState : Type := mkState {
  root_used : Z;
  root_entries : Z;
  namespace_used : gmap str Z;
  namespace_entries : gmap str Z;
  namespace_slots : gset str;
  pending_namespace_slots : gset str;
  root_reserved : Z;
  root_entries_reserved : Z;
  namespace_reserved : gmap str Z;
  open_handles : Z;
  active_invocations : Z
}.

(** ** Field updates *)

Definition set_root (s : LedgerState) (used ents : Z) : LedgerState :=
  mkState used ents (namespace_used s) (namespace_entries s) (namespace_slots s)
    (pending_namespace_slots s) (root_reserved s) (root_entries_reserved s) (namespace_reserved s)
    (open_handles s) (active_invocations s).
Definition set_reserved (s : LedgerState) (rb re : Z) (ns : gmap str Z) : LedgerState :=
  mkState (root_used s) (root_entries s) (namespace_used s) (namespace_entries s) (namespace_slots s)
    (pending_namespace_slots s) rb re ns (open_handles s) (active_invocations s).
Definition set_namespaces (s : LedgerState) (used ents : gmap str Z) : LedgerState :=
  mkState (root_used s) (root_entries s) used ents (namespace_slots s) (pending_namespace_slots s)
    (root_reserved s) (root_entries_reserved s) (namespace_reserved s) (open_handles s)
    (active_invocations s).
Definition set_slots (s : LedgerState) (slots pending : gset str) : LedgerState :=
  mkState (root_used s) (root_entries s) (namespace_used s) (namespace_entries s) slots pending
    (root_reserved s) (root_entries_reserved s) (namespace_reserved s) (open_handles s)
    (active_invocations s).
Definition set_open_handles (s : LedgerState) (n : Z) : LedgerState :=
  mkState (root_used s) (root_entries s) (namespace_used s) (namespace_entries s) (namespace_slots s)
    (pending_namespace_slots s) (root_reserved s) (root_entries_reserved s) (namespace_reserved s) n
    (active_invocations s).
Definition set_active (s : LedgerState) (n : Z) : LedgerState :=
  mkState (root_used s) (root_entries s) (namespace_used s) (namespace_entries s) (namespace_slots s)
    (pending_namespace_slots s) (root_reserved s) (root_entries_reserved s) (namespace_reserved s)
    (open_handles s) n.

(** ** A method under the lock *)

Definition locked (A : Type) : Type := LedgerState → result StorageHostError A * LedgerState.
Definition ret {A : Type} (a : A) : locked A := fun s => (Ok a, s).
Definition fail {A : Type} (e : StorageHostError) : locked A := fun s => (Err e, s).
Definition get : locked LedgerState := fun s => (Ok s, s).
Definition put (s : LedgerState) : locked unit := fun _ => (Ok tt, s).
Definition lbind {A B : Type} (m : locked A) (k : A → locked B) : locked B :=
  fun s => match m s with (Ok a, s') => k a s' | (Err e, s') => (Err e, s') end.

Notation "x ⇐ m ; k" := (lbind m (fun x => k))
  (at level 80, m at level 79, k at level 80, right associativity) : dekopon_scope.

(** [ok_or(Arithmetic)?] *)
Definition arith {A : Type} (o : option A) : locked A :=
  match o with Some a => ret a | None => fail Arithmetic end.

(** [a.checked_add(b).and_then(|v| v.checked_add(c))] *)
Definition checked_add3 (a b c : Z) : option Z :=
  match checked_add_u64 a b with Some v => checked_add_u64 v c | None => None end.

(** ** The ledger *)

Definition QuotaLedger_new (usage : Usage) : LedgerState :=
  mkState (bytes usage) (entries usage) ∅ ∅ ∅ ∅ 0 0 ∅ 0 0.

Record RootReservation : Type := mkRootReservation {
  rr_bytes : Z;
  rr_entries : Z;
  rr_finalized : bool
}.

Record NamespaceReservation : Type := mkNamespaceReservation {
  nr_namespace : str;
  nr_newly_reserved : bool;
  nr_finalized : bool
}.

Record Reservation : Type := mkReservation {
  rs_namespace : str;
  rs_reserved : Z;
  rs_entries_reserved : Z;
  rs_finalized : bool
}.

Section Ledger.
Context (limits : StorageLimits).

Definition reserve_root (bytes entries : Z) : locked RootReservation :=
  s ⇐ get;
  total_bytes ⇐ arith (checked_add3 (root_used s) (root_reserved s) bytes);
  total_entries ⇐ arith (checked_add3 (root_entries s) (root_entries_reserved s) entries);
  if (max_root_bytes limits <? total_bytes) || (startup_max_entries limits <? total_entries)
  then fail QuotaExceeded
  else
    rb ⇐ arith (checked_add_u64 (root_reserved s) bytes);
    _ ⇐ put (set_reserved s rb (root_entries_reserved s) (namespace_reserved s));
    s ⇐ get;
    re ⇐ arith (checked_add_u64 (root_entries_reserved s) entries);
    _ ⇐ put (set_reserved s (root_reserved s) re (namespace_reserved s));
    ret (mkRootReservation bytes entries false).

Definition observe_namespaces (observed : gset str) : locked unit :=
  s ⇐ get; put (set_slots s (namespace_slots s ∪ observed) (pending_namespace_slots s)).

Definition reserve_namespace (namespace : str) (observed : gset str) : locked NamespaceReservation :=
  _ ⇐ observe_namespaces observed;
  s ⇐ get;
  if bool_decide (namespace ∈ namespace_slots s) || bool_decide (namespace ∈ pending_namespace_slots s)
  then ret (mkNamespaceReservation namespace false true)
  else if max_namespaces limits <=? Z.of_nat (size (namespace_slots s ∪ pending_namespace_slots s))
  then fail QuotaExceeded
  else
    _ ⇐ put (set_slots s (namespace_slots s) ({[namespace]} ∪ pending_namespace_slots s));
    ret (mkNamespaceReservation namespace true false).

Definition begin (namespace : str) (usage : Usage) : locked Reservation :=
  s ⇐ get;
  if max_active_invocations limits <=? active_invocations s then fail Busy
  else
    _ ⇐ put (set_namespaces s (<[namespace := bytes usage]> (namespace_used s))
               (<[namespace := entries usage]> (namespace_entries s)));
    s ⇐ get;
    active ⇐ arith (checked_add_u64 (active_invocations s) 1);
    _ ⇐ put (set_active s active);
    ret (mkReservation namespace 0 0 false).

(** [retain] on keys that do not start with the prefix. *)
Definition retain_keys (prefix : str) (m : gmap str Z) : gmap str Z :=
  filter (fun kv => starts_with kv.1 prefix = false) m.

Definition account_sweep (namespace : str) (before after : Usage) (removed : bool) : locked unit :=
  b ⇐ arith (checked_sub_u64 (bytes before) (bytes after));
  e ⇐ arith (checked_sub_u64 (entries before) (entries after));
  s ⇐ get;
  used ⇐ arith (checked_sub_u64 (root_used s) b);
  _ ⇐ put (set_root s used (root_entries s));
  s ⇐ get;
  ents ⇐ arith (checked_sub_u64 (root_entries s) e);
  _ ⇐ put (set_root s (root_used s) ents);
  s ⇐ get;
  let generation_prefix := namespace ++ lit "/" in
  _ ⇐ put (set_namespaces s (retain_keys generation_prefix (namespace_used s))
             (retain_keys generation_prefix (namespace_entries s)));
  s ⇐ get;
  if removed
  then put (set_slots s (namespace_slots s ∖ {[namespace]}) (pending_namespace_slots s))
  else ret tt.

Definition acquire_handle : locked unit :=
  s ⇐ get;
  if max_open_handles limits <=? open_handles s then fail QuotaExceeded
  else
    n ⇐ arith (checked_add_u64 (open_handles s) 1);
    put (set_open_handles s n).

Definition release_handle (s : LedgerState) : LedgerState :=
  set_open_handles s (sat_sub_u64 (open_handles s) 1).

(** *** Giving back *)

Definition release_root_locked (s : LedgerState) (bytes entries : Z) : LedgerState :=
  set_reserved s (sat_sub_u64 (root_reserved s) bytes)
    (sat_sub_u64 (root_entries_reserved s) entries) (namespace_reserved s).

Definition release_locked (s : LedgerState) (namespace : str) (reserved entries_reserved : Z)
    : LedgerState :=
  let s := release_root_locked s reserved entries_reserved in
  let s :=
    match namespace_reserved s !! namespace with
    | Some value =>
        let value := sat_sub_u64 value reserved in
        set_reserved s (root_reserved s) (root_entries_reserved s)
          (if value =? 0 then delete namespace (namespace_reserved s)
           else <[namespace := value]> (namespace_reserved s))
    | None => s
    end in
  set_active s (sat_sub_u64 (active_invocations s) 1).

(** [commit] takes the guard by value; its drop follows and does nothing,
    since [finalized] is set unless there was nothing to give back. *)
Definition NamespaceReservation_drop (r : NamespaceReservation) (s : LedgerState) : LedgerState :=
  if nr_finalized r || negb (nr_newly_reserved r) then s
  else set_slots s (namespace_slots s) (pending_namespace_slots s ∖ {[nr_namespace r]}).

Definition NamespaceReservation_commit (r : NamespaceReservation) (s : LedgerState) : LedgerState :=
  let s :=
    if nr_newly_reserved r
    then set_slots s ({[nr_namespace r]} ∪ namespace_slots s)
           (pending_namespace_slots s ∖ {[nr_namespace r]})
    else s in
  NamespaceReservation_drop (mkNamespaceReservation (nr_namespace r) (nr_newly_reserved r) true) s.

Definition RootReservation_drop (r : RootReservation) (s : LedgerState) : LedgerState :=
  if rr_finalized r then s else release_root_locked s (rr_bytes r) (rr_entries r).

(** What the guard finds in one of the two counters after the commit. *)
Definition moved (counter before after : Z) : option Z :=
  if before <=? after then checked_add_u64 counter (sat_sub_u64 after before)
  else Some (sat_sub_u64 counter (before - after)).

Definition RootReservation_commit (r : RootReservation) (before after : Usage)
    : locked unit :=
  fun s =>
    let finalized := mkRootReservation (rr_bytes r) (rr_entries r) true in
    let byte_growth := sat_sub_u64 (bytes after) (bytes before) in
    let entry_growth := sat_sub_u64 (entries after) (entries before) in
    if (rr_bytes r <? byte_growth) || (rr_entries r <? entry_growth)
    then (Err Arithmetic, RootReservation_drop finalized s)
    else
      match moved (root_used s) (bytes before) (bytes after),
            moved (root_entries s) (entries before) (entries after) with
      | Some used, Some ents =>
          (Ok tt, RootReservation_drop finalized
                    (release_root_locked (set_root s used ents) (rr_bytes r) (rr_entries r)))
      | _, _ => (Err Arithmetic, RootReservation_drop finalized s)
      end.

Definition RootReservation_retain (r : RootReservation) (s : LedgerState) : LedgerState :=
  RootReservation_drop (mkRootReservation (rr_bytes r) (rr_entries r) true) s.

(** *** The reservation of an invocation *)

Definition reserve_to (r : Reservation) (desired desired_entries : Z) : locked Reservation :=
  if (desired <=? rs_reserved r) && (desired_entries <=? rs_entries_reserved r) then ret r
  else
    let additional := sat_sub_u64 desired (rs_reserved r) in
    let additional_entries := sat_sub_u64 desired_entries (rs_entries_reserved r) in
    s ⇐ get;
    root_total ⇐ arith (checked_add3 (root_used s) (root_reserved s) additional);
    root_ents ⇐ arith (checked_add3 (root_entries s) (root_entries_reserved s) additional_entries);
    let used := unwrap_or (namespace_used s !! rs_namespace r) 0 in
    let reserved := unwrap_or (namespace_reserved s !! rs_namespace r) 0 in
    namespace_total ⇐ arith (checked_add3 used reserved additional);
    if (max_root_bytes limits <? root_total) || (startup_max_entries limits <? root_ents)
       || (max_namespace_bytes limits <? namespace_total)
    then fail QuotaExceeded
    else
      rb ⇐ arith (checked_add_u64 (root_reserved s) additional);
      _ ⇐ put (set_reserved s rb (root_entries_reserved s) (namespace_reserved s));
      s ⇐ get;
      re ⇐ arith (checked_add_u64 (root_entries_reserved s) additional_entries);
      _ ⇐ put (set_reserved s (root_reserved s) re (namespace_reserved s));
      s ⇐ get;
      nr ⇐ arith (checked_add_u64 reserved additional);
      _ ⇐ put (set_reserved s (root_reserved s) (root_entries_reserved s)
                 (<[rs_namespace r := nr]> (namespace_reserved s)));
      ret (mkReservation (rs_namespace r) (Z.max (rs_reserved r) desired)
             (Z.max (rs_entries_reserved r) desired_entries) (rs_finalized r)).

Definition observe_direct (r : Reservation) (final_usage : Usage) : locked Reservation :=
  s ⇐ get;
  let old := unwrap_or (namespace_used s !! rs_namespace r) 0 in
  let old_entries := unwrap_or (namespace_entries s !! rs_namespace r) 0 in
  used ⇐ arith (if old <=? bytes final_usage
                then checked_add_u64 (root_used s) (bytes final_usage - old)
                else Some (sat_sub_u64 (root_used s) (old - bytes final_usage)));
  _ ⇐ put (set_root s used (root_entries s));
  s ⇐ get;
  ents ⇐ arith (if old_entries <=? entries final_usage
                then checked_add_u64 (root_entries s) (entries final_usage - old_entries)
                else Some (sat_sub_u64 (root_entries s) (old_entries - entries final_usage)));
  _ ⇐ put (set_root s (root_used s) ents);
  s ⇐ get;
  _ ⇐ put (set_namespaces s (<[rs_namespace r := bytes final_usage]> (namespace_used s))
             (<[rs_namespace r := entries final_usage]> (namespace_entries s)));
  s ⇐ get;
  let s := release_root_locked s (rs_reserved r) (rs_entries_reserved r) in
  let s :=
    match namespace_reserved s !! rs_namespace r with
    | Some value =>
        set_reserved s (root_reserved s) (root_entries_reserved s)
          (<[rs_namespace r := sat_sub_u64 value (rs_reserved r)]> (namespace_reserved s))
    | None => s
    end in
  _ ⇐ put s;
  ret (mkReservation (rs_namespace r) 0 0 (rs_finalized r)).

Definition Reservation_drop (r : Reservation) (s : LedgerState) : LedgerState :=
  if rs_finalized r then s
  else release_locked s (rs_namespace r) (rs_reserved r) (rs_entries_reserved r).

Definition finalized (r : Reservation) : Reservation :=
  mkReservation (rs_namespace r) (rs_reserved r) (rs_entries_reserved r) true.

Definition Reservation_abort (r : Reservation) (s : LedgerState) : LedgerState :=
  Reservation_drop (finalized r)
    (release_locked s (rs_namespace r) (rs_reserved r) (rs_entries_reserved r)).

Definition retain_after_unknown (r : Reservation) (s : LedgerState) : LedgerState :=
  Reservation_drop (finalized r) s.

End Ledger.

(** ** What each method does *)

Ltac run_locked :=
  unfold lbind, get, put, arith, ret, fail, checked_add3, checked_add_u64, checked_sub_u64 in *;
  cbn [root_used root_entries namespace_used namespace_entries namespace_slots
    pending_namespace_slots root_reserved root_entries_reserved namespace_reserved open_handles
    active_invocations set_root set_reserved set_namespaces set_slots set_open_handles set_active
    release_root_locked] in *.

(** Counters are unsigned. *)
Definition state_ok (s : LedgerState) : Prop :=
  0 ≤ root_used s ∧ 0 ≤ root_entries s ∧ 0 ≤ root_reserved s ∧ 0 ≤ root_entries_reserved s
  ∧ 0 ≤ open_handles s ∧ 0 ≤ active_invocations s
  ∧ map_Forall (fun _ v => 0 ≤ v) (namespace_used s)
  ∧ map_Forall (fun _ v => 0 ≤ v) (namespace_entries s)
  ∧ map_Forall (fun _ v => 0 ≤ v) (namespace_reserved s).

Definition usage_ok (u : Usage) : Prop := 0 ≤ bytes u ∧ 0 ≤ entries u.

Definition ns_get (m : gmap str Z) (ns : str) : Z := unwrap_or (m !! ns) 0.

Lemma ns_get_nonneg (m : gmap str Z) (ns : str) : map_Forall (fun _ v => 0 ≤ v) m → 0 ≤ ns_get m ns.
Proof. intros Hm. unfold ns_get. destruct (m !! ns) as [v|] eqn:E; [|done]. by apply (Hm ns v). Qed.

Lemma ns_get_insert_eq (m : gmap str Z) (ns : str) (v : Z) : ns_get (<[ns:=v]> m) ns = v.
Proof. unfold ns_get. by rewrite lookup_insert_eq. Qed.

Lemma ns_get_insert_ne (m : gmap str Z) (ns ns' : str) (v : Z) :
  ns' ≠ ns → ns_get (<[ns:=v]> m) ns' = ns_get m ns'.
Proof. intros. unfold ns_get. by rewrite lookup_insert_ne. Qed.

Section Specs.
Context (limits : StorageLimits).

Lemma reserve_root_Ok (b e : Z) (s s' : LedgerState) (r : RootReservation) :
  reserve_root limits b e s = (Ok r, s') →
  r = mkRootReservation b e false
  ∧ s' = set_reserved s (root_reserved s + b) (root_entries_reserved s + e) (namespace_reserved s)
  ∧ root_used s + root_reserved s + b ≤ max_root_bytes limits
  ∧ root_entries s + root_entries_reserved s + e ≤ startup_max_entries limits.
Proof.
  unfold reserve_root. run_locked. repeat dk_case; intros; simplify_eq.
  rewrite orb_false_iff, !Z.ltb_ge in *. by destruct_and!.
Qed.

Lemma reserve_root_Err (b e : Z) (s s' : LedgerState) (x : StorageHostError) :
  state_ok s → 0 ≤ b → 0 ≤ e → max_root_bytes limits ≤ u64_max → startup_max_entries limits ≤ u64_max →
  reserve_root limits b e s = (Err x, s') →
  s' = s ∧ (max_root_bytes limits < root_used s + root_reserved s + b
            ∨ startup_max_entries limits < root_entries s + root_entries_reserved s + e).
Proof.
  intros (? & ? & ? & ? & _) Hb He Hlb Hle. unfold reserve_root. run_locked.
  repeat dk_case; intros; simplify_eq; dk_bool; (exfalso; lia) || (split; [done|lia]).
Qed.

(** What a reservation grows by. *)
Lemma reserve_to_Ok (r r' : Reservation) (d de : Z) (s s' : LedgerState) :
  reserve_to limits r d de s = (Ok r', s') →
  let more := Z.max (rs_reserved r) d - rs_reserved r in
  let more_entries := Z.max (rs_entries_reserved r) de - rs_entries_reserved r in
  r' = mkReservation (rs_namespace r) (Z.max (rs_reserved r) d) (Z.max (rs_entries_reserved r) de)
         (rs_finalized r)
  ∧ (s' = s ∧ more = 0 ∧ more_entries = 0
     ∨ s' = set_reserved s (root_reserved s + more) (root_entries_reserved s + more_entries)
              (<[rs_namespace r := ns_get (namespace_reserved s) (rs_namespace r) + more]>
                 (namespace_reserved s))
       ∧ root_used s + root_reserved s + more ≤ max_root_bytes limits
       ∧ root_entries s + root_entries_reserved s + more_entries ≤ startup_max_entries limits
       ∧ ns_get (namespace_used s) (rs_namespace r)
         + ns_get (namespace_reserved s) (rs_namespace r) + more ≤ max_namespace_bytes limits).
Proof.
  unfold reserve_to, ns_get. intros Hr. cbn zeta.
  assert (∀ a b : Z, Z.max b a - b = sat_sub_u64 a b) as Hm by (intros; unfold sat_sub_u64; lia).
  rewrite !Hm. destruct ((_ <=? _) && (_ <=? _)) eqn:Hle.
  - injection Hr as <- <-. apply andb_true_iff in Hle as [?%Z.leb_le ?%Z.leb_le].
    rewrite !Z.max_l by done. split; [by destruct r|]. left. split; [done|].
    unfold sat_sub_u64. lia.
  - clear Hle. run_locked. revert Hr. repeat dk_case; intros; simplify_eq. split; [done|]. right.
    rewrite !orb_false_iff, !Z.ltb_ge in *. by destruct_and!.
Qed.

Lemma reserve_to_Err (r : Reservation) (d de : Z) (s s' : LedgerState) (x : StorageHostError) :
  state_ok s → max_root_bytes limits ≤ u64_max → startup_max_entries limits ≤ u64_max →
  max_namespace_bytes limits ≤ u64_max →
  reserve_to limits r d de s = (Err x, s') →
  let more := Z.max (rs_reserved r) d - rs_reserved r in
  let more_entries := Z.max (rs_entries_reserved r) de - rs_entries_reserved r in
  s' = s
  ∧ (max_root_bytes limits < root_used s + root_reserved s + more
     ∨ startup_max_entries limits < root_entries s + root_entries_reserved s + more_entries
     ∨ max_namespace_bytes limits
       < ns_get (namespace_used s) (rs_namespace r)
         + ns_get (namespace_reserved s) (rs_namespace r) + more).
Proof.
  intros (? & ? & ? & ? & _ & _ & Hnu & _ & Hnr) Hlb Hle Hln.
  pose proof (ns_get_nonneg _ (rs_namespace r) Hnu). pose proof (ns_get_nonneg _ (rs_namespace r) Hnr).
  clear Hnu Hnr. unfold reserve_to. destruct (_ && _); [done|].
  assert (∀ a b : Z, Z.max b a - b = sat_sub_u64 a b) as Hm by (intros; unfold sat_sub_u64; lia).
  cbn zeta. rewrite !Hm.
  assert (∀ a b : Z, 0 ≤ sat_sub_u64 a b) as Hp by (intros; unfold sat_sub_u64; lia).
  pose proof (Hp d (rs_reserved r)). pose proof (Hp de (rs_entries_reserved r)). clear Hm Hp.
  run_locked. fold (ns_get (namespace_used s) (rs_namespace r)).
  fold (ns_get (namespace_reserved s) (rs_namespace r)).
  repeat dk_case; intros; simplify_eq; dk_bool; (exfalso; lia) || (split; [done|lia]).
Qed.

(** A reservation that asks for nothing more never fails. *)
Lemma reserve_to_zero (r : Reservation) (d de : Z) (s s' : LedgerState) (x : StorageHostError) :
  reserve_to limits r d de s = (Err x, s') →
  ¬ (Z.max (rs_reserved r) d - rs_reserved r = 0
     ∧ Z.max (rs_entries_reserved r) de - rs_entries_reserved r = 0).
Proof.
  unfold reserve_to. destruct (_ && _) eqn:E; [done|]. intros _ [? ?].
  rewrite andb_false_iff, !Z.leb_gt in E. lia.
Qed.

Lemma begin_Ok (ns : str) (u : Usage) (r : Reservation) (s s' : LedgerState) :
  begin limits ns u s = (Ok r, s') →
  r = mkReservation ns 0 0 false
  ∧ s' = set_active (set_namespaces s (<[ns := bytes u]> (namespace_used s))
                       (<[ns := entries u]> (namespace_entries s))) (active_invocations s + 1)
  ∧ active_invocations s + 1 ≤ max_active_invocations limits.
Proof.
  unfold begin. run_locked. repeat dk_case; intros; simplify_eq. dk_bool. split; [done|].
  split; [done|lia].
Qed.

Lemma begin_Err (ns : str) (u : Usage) (s s' : LedgerState) (x : StorageHostError) :
  max_active_invocations limits ≤ u64_max → begin limits ns u s = (Err x, s') →
  s' = s ∧ x = Busy ∧ max_active_invocations limits ≤ active_invocations s.
Proof.
  intros Hl. unfold begin. run_locked. repeat dk_case; intros; simplify_eq; dk_bool; [done|lia].
Qed.

Lemma acquire_handle_cases (s s' : LedgerState) (res : result StorageHostError unit) :
  max_open_handles limits ≤ u64_max → acquire_handle limits s = (res, s') →
  (is_ok res = true ∧ s' = set_open_handles s (open_handles s + 1)
     ∧ open_handles s + 1 ≤ max_open_handles limits)
  ∨ (res = Err QuotaExceeded ∧ s' = s ∧ max_open_handles limits ≤ open_handles s).
Proof.
  intros Hl. unfold acquire_handle. run_locked.
  repeat dk_case; intros; simplify_eq; dk_bool; [by right| |lia]. left. split; [done|]. split; [done|lia].
Qed.

End Specs.

(** The parts of the state a sweep does not touch. *)
Definition same_reserved (s s' : LedgerState) : Prop :=
  root_reserved s' = root_reserved s ∧ root_entries_reserved s' = root_entries_reserved s
  ∧ namespace_reserved s' = namespace_reserved s ∧ open_handles s' = open_handles s
  ∧ active_invocations s' = active_invocations s.

Lemma retain_keys_nonneg (prefix : str) (m : gmap str Z) :
  map_Forall (fun _ v => 0 ≤ v) m → map_Forall (fun _ v => 0 ≤ v) (retain_keys prefix m).
Proof. intros Hm k v [Hk _]%map_lookup_filter_Some. by apply (Hm k v). Qed.

Lemma account_sweep_effect (ns : str) (before after : Usage) (removed : bool)
    (s s' : LedgerState) (res : result StorageHostError unit) :
  state_ok s → account_sweep ns before after removed s = (res, s') →
  state_ok s' ∧ root_used s' ≤ root_used s ∧ root_entries s' ≤ root_entries s ∧ same_reserved s s'.
Proof.
  intros (? & ? & ? & ? & ? & ? & Hu & He & Hr). unfold account_sweep. run_locked.
  pose proof (retain_keys_nonneg (ns ++ lit "/") _ Hu).
  pose proof (retain_keys_nonneg (ns ++ lit "/") _ He).
  repeat dk_case; intros; simplify_eq; dk_bool; unfold state_ok, same_reserved; run_locked;
    repeat match goal with |- _ ∧ _ => split end; try done; lia.
Qed.

(** What a guard holds is part of what the ledger counts as reserved. *)
Definition held (s : LedgerState) (r : Reservation) : Prop :=
  0 ≤ rs_reserved r ≤ root_reserved s ∧ 0 ≤ rs_entries_reserved r ≤ root_entries_reserved s
  ∧ rs_reserved r ≤ ns_get (namespace_reserved s) (rs_namespace r).

(** [s'] is [s] with the reservation [r] given back. *)
Definition given_back (r : Reservation) (s s' : LedgerState) : Prop :=
  root_reserved s' = root_reserved s - rs_reserved r
  ∧ root_entries_reserved s' = root_entries_reserved s - rs_entries_reserved r
  ∧ (∀ ns, ns_get (namespace_reserved s') ns
           = ns_get (namespace_reserved s) ns
             - (if bool_decide (ns = rs_namespace r) then rs_reserved r else 0))
  ∧ open_handles s' = open_handles s.

Lemma map_nonneg_insert (m : gmap str Z) (k : str) (v : Z) :
  0 ≤ v → map_Forall (fun _ v => 0 ≤ v) m → map_Forall (fun _ v => 0 ≤ v) (<[k:=v]> m).
Proof. intros Hv Hm. by apply map_Forall_insert_2. Qed.

Lemma release_locked_effect (r : Reservation) (s : LedgerState) :
  state_ok s → held s r → 1 ≤ active_invocations s →
  let s' := release_locked s (rs_namespace r) (rs_reserved r) (rs_entries_reserved r) in
  state_ok s' ∧ given_back r s s' ∧ root_used s' = root_used s ∧ root_entries s' = root_entries s
  ∧ active_invocations s' = active_invocations s - 1.
Proof.
  intros (? & ? & ? & ? & ? & ? & Hu & He & Hr) ((? & ?) & (? & ?) & Hn) Ha.
  unfold release_locked, given_back, state_ok. cbn zeta. run_locked. unfold sat_sub_u64.
  unfold ns_get in *. destruct (namespace_reserved s !! rs_namespace r) as [v|] eqn:E; run_locked.
  - cbn [unwrap_or] in Hn. assert (Z.max (v - rs_reserved r) 0 = v - rs_reserved r) as -> by lia.
    repeat match goal with |- _ ∧ _ => split end; try done; try lia.
    + destruct (_ =? 0); [by apply map_Forall_delete|]. apply map_nonneg_insert; [lia|done].
    + intros ns. case_bool_decide as Hns.
      * subst ns. destruct (_ =? 0) eqn:Ez; [rewrite lookup_delete_eq|rewrite lookup_insert_eq];
          rewrite E; cbn [unwrap_or]; dk_bool; lia.
      * rewrite Z.sub_0_r. f_equal.
        destruct (_ =? 0); [by rewrite lookup_delete_ne|by rewrite lookup_insert_ne].
  - cbn [unwrap_or] in Hn. unfold sat_sub_u64.
    repeat match goal with |- _ ∧ _ => split end; try done; try lia.
    intros ns. case_bool_decide; lia.
Qed.

(** How a counter follows an observed usage. *)
Lemma observed_counter (counter old new reserved total : Z) :
  0 ≤ counter → 0 ≤ old → 0 ≤ new → new ≤ old + reserved → 0 ≤ reserved ≤ total →
  counter + total ≤ u64_max →
  ∃ c, (if old <=? new then checked_add_u64 counter (new - old)
        else Some (sat_sub_u64 counter (old - new))) = Some c
       ∧ 0 ≤ c ∧ c + (total - reserved) ≤ counter + total.
Proof.
  intros. unfold checked_add_u64, sat_sub_u64. destruct (old <=? new) eqn:E; dk_bool.
  - rewrite (proj2 (Z.leb_le _ _)) by lia. eexists. split; [done|]. lia.
  - eexists. split; [done|]. lia.
Qed.

Lemma observe_direct_effect (r : Reservation) (u : Usage) (s s' : LedgerState)
    (res : result StorageHostError Reservation) :
  state_ok s → held s r → usage_ok u →
  root_used s + root_reserved s ≤ u64_max → root_entries s + root_entries_reserved s ≤ u64_max →
  bytes u ≤ ns_get (namespace_used s) (rs_namespace r) + rs_reserved r →
  entries u ≤ ns_get (namespace_entries s) (rs_namespace r) + rs_entries_reserved r →
  observe_direct r u s = (res, s') →
  res = Ok (mkReservation (rs_namespace r) 0 0 (rs_finalized r))
  ∧ state_ok s' ∧ given_back r s s' ∧ active_invocations s' = active_invocations s
  ∧ root_used s' + root_reserved s' ≤ root_used s + root_reserved s
  ∧ root_entries s' + root_entries_reserved s' ≤ root_entries s + root_entries_reserved s.
Proof.
  intros (? & ? & ? & ? & ? & ? & Hu & He & Hr) ((? & ?) & (? & ?) & Hn) [? ?] Hb Heb Hd Hde.
  destruct (observed_counter (root_used s) (ns_get (namespace_used s) (rs_namespace r)) (bytes u)
    (rs_reserved r) (root_reserved s)) as (cb & Hcb & ? & ?); try done.
  { by apply ns_get_nonneg. }
  destruct (observed_counter (root_entries s) (ns_get (namespace_entries s) (rs_namespace r))
    (entries u) (rs_entries_reserved r) (root_entries_reserved s)) as (ce & Hce & ? & ?); try done.
  { by apply ns_get_nonneg. }
  unfold observe_direct, lbind, get, put. cbn [set_root root_entries namespace_used namespace_entries].
  unfold ns_get in Hcb, Hce. rewrite Hcb. cbn [arith ret]. cbn [root_entries]. rewrite Hce.
  unfold arith, ret. run_locked. intros [= <- <-]. split; [done|].
  unfold given_back, state_ok, ns_get, sat_sub_u64 in *.
  destruct (namespace_reserved s !! rs_namespace r) as [v|] eqn:E; run_locked; cbn [unwrap_or] in Hn;
    unfold sat_sub_u64; repeat match goal with |- _ ∧ _ => split end; try done; try lia;
    try (apply map_nonneg_insert; [lia|done]).
  - intros ns. case_bool_decide as Hns.
    + subst ns. rewrite lookup_insert_eq, E. cbn [unwrap_or]. lia.
    + rewrite lookup_insert_ne by done. lia.
  - intros ns. case_bool_decide; lia.
Qed.

(** ** The host

    The ledger, the guards that are alive, and the guards whose outcome is
    unknown and whose reservation is kept for good ([retain],
    [retain_after_unknown], a commit that failed). A step is one method call
    under the lock, or the drop of a guard. *)

Record Host : Type := mkHost {
  h_state : LedgerState;
  h_roots : list RootReservation;
  h_invs : list Reservation;
  h_kept_roots : list RootReservation;
  h_kept_invs : list Reservation;
  h_handles : Z
}.

(** The guard after [reserve_to] or [observe_direct]: as it was on an error. *)
Definition updated (r : Reservation) (res : result StorageHostError Reservation) : Reservation :=
  match res with Ok r' => r' | Err _ => r end.

Section Host.
Context (limits : StorageLimits).

(** [observe_direct] reports the usage of a namespace whose growth was
    reserved before it was written. *)
Definition within_reservation (s : LedgerState) (r : Reservation) (u : Usage) : Prop :=
  usage_ok u
  ∧ bytes u ≤ ns_get (namespace_used s) (rs_namespace r) + rs_reserved r
  ∧ entries u ≤ ns_get (namespace_entries s) (rs_namespace r) + rs_entries_reserved r.

Inductive host_step : Host → Host → Prop :=
| hs_reserve_root s rs iv kr ki h b e r s' :
    0 ≤ b → 0 ≤ e → reserve_root limits b e s = (Ok r, s') →
    host_step (mkHost s rs iv kr ki h) (mkHost s' (r :: rs) iv kr ki h)
| hs_reserve_root_err s rs iv kr ki h b e x s' :
    0 ≤ b → 0 ≤ e → reserve_root limits b e s = (Err x, s') →
    host_step (mkHost s rs iv kr ki h) (mkHost s' rs iv kr ki h)
| hs_commit_root s r1 r r2 iv kr ki h before after s' :
    usage_ok before → usage_ok after → RootReservation_commit r before after s = (Ok tt, s') →
    host_step (mkHost s (r1 ++ r :: r2) iv kr ki h) (mkHost s' (r1 ++ r2) iv kr ki h)
| hs_commit_root_err s r1 r r2 iv kr ki h before after x s' :
    RootReservation_commit r before after s = (Err x, s') →
    host_step (mkHost s (r1 ++ r :: r2) iv kr ki h) (mkHost s' (r1 ++ r2) iv (r :: kr) ki h)
| hs_retain_root s r1 r r2 iv kr ki h :
    host_step (mkHost s (r1 ++ r :: r2) iv kr ki h)
              (mkHost (RootReservation_retain r s) (r1 ++ r2) iv (r :: kr) ki h)
| hs_drop_root s r1 r r2 iv kr ki h :
    host_step (mkHost s (r1 ++ r :: r2) iv kr ki h)
              (mkHost (RootReservation_drop r s) (r1 ++ r2) iv kr ki h)
| hs_begin s rs iv kr ki h ns u r s' :
    usage_ok u → begin limits ns u s = (Ok r, s') →
    host_step (mkHost s rs iv kr ki h) (mkHost s' rs (r :: iv) kr ki h)
| hs_begin_err s rs iv kr ki h ns u x s' :
    begin limits ns u s = (Err x, s') →
    host_step (mkHost s rs iv kr ki h) (mkHost s' rs iv kr ki h)
| hs_reserve_to s rs i1 r i2 kr ki h d de res s' :
    reserve_to limits r d de s = (res, s') →
    host_step (mkHost s rs (i1 ++ r :: i2) kr ki h) (mkHost s' rs (i1 ++ updated r res :: i2) kr ki h)
| hs_observe_direct s rs i1 r i2 kr ki h u res s' :
    within_reservation s r u → observe_direct r u s = (res, s') →
    host_step (mkHost s rs (i1 ++ r :: i2) kr ki h) (mkHost s' rs (i1 ++ updated r res :: i2) kr ki h)
| hs_abort s rs i1 r i2 kr ki h :
    host_step (mkHost s rs (i1 ++ r :: i2) kr ki h)
              (mkHost (Reservation_abort r s) rs (i1 ++ i2) kr ki h)
| hs_drop s rs i1 r i2 kr ki h :
    host_step (mkHost s rs (i1 ++ r :: i2) kr ki h)
              (mkHost (Reservation_drop r s) rs (i1 ++ i2) kr ki h)
| hs_retain s rs i1 r i2 kr ki h :
    host_step (mkHost s rs (i1 ++ r :: i2) kr ki h)
              (mkHost (retain_after_unknown r s) rs (i1 ++ i2) kr (r :: ki) h)
| hs_sweep s rs iv kr ki h ns before after removed res s' :
    account_sweep ns before after removed s = (res, s') →
    host_step (mkHost s rs iv kr ki h) (mkHost s' rs iv kr ki h)
| hs_acquire s rs iv kr ki h s' :
    acquire_handle limits s = (Ok tt, s') →
    host_step (mkHost s rs iv kr ki h) (mkHost s' rs iv kr ki (h + 1))
| hs_acquire_err s rs iv kr ki h x s' :
    acquire_handle limits s = (Err x, s') →
    host_step (mkHost s rs iv kr ki h) (mkHost s' rs iv kr ki h)
| hs_release s rs iv kr ki h :
    0 < h → host_step (mkHost s rs iv kr ki h) (mkHost (release_handle s) rs iv kr ki (h - 1))
| hs_observe s rs iv kr ki h observed res s' :
    observe_namespaces observed s = (res, s') →
    host_step (mkHost s rs iv kr ki h) (mkHost s' rs iv kr ki h)
| hs_reserve_namespace s rs iv kr ki h ns observed res s' :
    reserve_namespace limits ns observed s = (res, s') →
    host_step (mkHost s rs iv kr ki h) (mkHost s' rs iv kr ki h)
| hs_commit_namespace s rs iv kr ki h r :
    host_step (mkHost s rs iv kr ki h) (mkHost (NamespaceReservation_commit r s) rs iv kr ki h)
| hs_drop_namespace s rs iv kr ki h r :
    host_step (mkHost s rs iv kr ki h) (mkHost (NamespaceReservation_drop r s) rs iv kr ki h).

(** *** Sums over guards *)

Definition zsum {A : Type} (f : A → Z) (l : list A) : Z := foldr (fun a acc => f a + acc) 0 l.

Lemma zsum_app {A : Type} (f : A → Z) (l1 l2 : list A) : zsum f (l1 ++ l2) = zsum f l1 + zsum f l2.
Proof.
  unfold zsum. induction l1 as [|a l1 IH]; [done|]. cbn [app foldr]. rewrite IH. lia.
Qed.

Lemma zsum_cons {A : Type} (f : A → Z) (x : A) (l : list A) : zsum f (x :: l) = f x + zsum f l.
Proof. done. Qed.

Lemma zsum_middle {A : Type} (f : A → Z) (l1 : list A) (x : A) (l2 : list A) :
  zsum f (l1 ++ x :: l2) = f x + zsum f (l1 ++ l2).
Proof. rewrite !zsum_app, zsum_cons. lia. Qed.

Lemma zsum_nonneg {A : Type} (f : A → Z) (l : list A) :
  Forall (fun a => 0 ≤ f a) l → 0 ≤ zsum f l.
Proof. unfold zsum. induction 1; cbn [foldr]; lia. Qed.

Definition rr_ok (r : RootReservation) : Prop :=
  0 ≤ rr_bytes r ∧ 0 ≤ rr_entries r ∧ rr_finalized r = false.
Definition rs_ok (r : Reservation) : Prop :=
  0 ≤ rs_reserved r ∧ 0 ≤ rs_entries_reserved r ∧ rs_finalized r = false.

Definition rs_in (ns : str) (r : Reservation) : Z :=
  if bool_decide (ns = rs_namespace r) then rs_reserved r else 0.

(** All that is reserved, over the guards alive and those kept. *)
Definition held_bytes (h : Host) : Z :=
  zsum rr_bytes (h_roots h ++ h_kept_roots h) + zsum rs_reserved (h_invs h ++ h_kept_invs h).
Definition held_entries (h : Host) : Z :=
  zsum rr_entries (h_roots h ++ h_kept_roots h) + zsum rs_entries_reserved (h_invs h ++ h_kept_invs h).
Definition held_in (h : Host) (ns : str) : Z := zsum (rs_in ns) (h_invs h ++ h_kept_invs h).

(** The ledger's figures are the sums over the guards. *)
Record accounted (h : Host) : Prop := {
  acc_state : state_ok (h_state h);
  acc_roots : Forall rr_ok (h_roots h ++ h_kept_roots h);
  acc_invs : Forall rs_ok (h_invs h ++ h_kept_invs h);
  acc_bytes : root_reserved (h_state h) = held_bytes h;
  acc_entries : root_entries_reserved (h_state h) = held_entries h;
  acc_ns : ∀ ns, ns_get (namespace_reserved (h_state h)) ns = held_in h ns;
  acc_active : active_invocations (h_state h) = Z.of_nat (length (h_invs h ++ h_kept_invs h));
  acc_handles : open_handles (h_state h) = h_handles h
}.

Record bounded (usage : Usage) (h : Host) : Prop := {
  bnd_bytes : root_used (h_state h) + root_reserved (h_state h)
              ≤ Z.max (max_root_bytes limits) (bytes usage);
  bnd_entries : root_entries (h_state h) + root_entries_reserved (h_state h)
                ≤ Z.max (startup_max_entries limits) (entries usage);
  bnd_active : active_invocations (h_state h) ≤ max_active_invocations limits;
  bnd_handles : open_handles (h_state h) ≤ max_open_handles limits
}.

(** *** Bookkeeping *)

Lemma accounted_same (s s' : LedgerState) rs iv kr ki h :
  accounted (mkHost s rs iv kr ki h) → state_ok s' → same_reserved s s' →
  accounted (mkHost s' rs iv kr ki h).
Proof.
  intros [Hs Hr Hi Hb He Hn Ha Hh] Hs' (E1 & E2 & E3 & E4 & E5). cbn [h_state] in *.
  constructor; cbn [h_state]; rewrite ?E1, ?E2, ?E3, ?E4, ?E5; done.
Qed.

Lemma accounted_add_root (s s' : LedgerState) r rs iv kr ki h :
  accounted (mkHost s rs iv kr ki h) → rr_ok r → state_ok s' →
  root_reserved s' = root_reserved s + rr_bytes r →
  root_entries_reserved s' = root_entries_reserved s + rr_entries r →
  namespace_reserved s' = namespace_reserved s → open_handles s' = open_handles s →
  active_invocations s' = active_invocations s →
  accounted (mkHost s' (r :: rs) iv kr ki h).
Proof.
  intros [Hs Hr Hi Hb He Hn Ha Hh] Hr' Hs' E1 E2 E3 E4 E5.
  unfold held_bytes, held_entries, held_in in *. cbn [h_state h_roots h_kept_roots h_invs h_kept_invs] in *.
  constructor; cbn [h_state h_roots h_kept_roots h_invs h_kept_invs h_handles app];
    unfold held_bytes, held_entries, held_in;
    cbn [h_state h_roots h_kept_roots h_invs h_kept_invs h_handles app];
    rewrite ?zsum_cons, ?E3, ?E4, ?E5; try done; [by constructor|lia|lia].
Qed.

Lemma accounted_root_split (s : LedgerState) r1 r r2 iv kr ki h :
  accounted (mkHost s (r1 ++ r :: r2) iv kr ki h) →
  rr_ok r ∧ rr_bytes r ≤ root_reserved s ∧ rr_entries r ≤ root_entries_reserved s.
Proof.
  intros [Hs Hr Hi Hb He Hn Ha Hh].
  unfold held_bytes, held_entries in *. cbn [h_state h_roots h_kept_roots h_invs h_kept_invs] in *.
  rewrite <- app_assoc, <- app_comm_cons in *. rewrite zsum_middle in Hb, He.
  apply Forall_app in Hr as [Hr1 Hr2]. inversion Hr2 as [|? ? Hr0 Hr3]; subst. split; [done|].
  assert (Forall rr_ok (r1 ++ r2 ++ kr)) as Hrest by (by apply Forall_app).
  pose proof (zsum_nonneg rr_bytes _ (Forall_impl _ (fun x Hx => proj1 Hx) Hrest)).
  pose proof (zsum_nonneg rr_entries _ (Forall_impl _ (fun x Hx => proj1 (proj2 Hx)) Hrest)).
  pose proof (zsum_nonneg rs_reserved _ (Forall_impl _ (fun x Hx => proj1 Hx) Hi)).
  pose proof (zsum_nonneg rs_entries_reserved _ (Forall_impl _ (fun x Hx => proj1 (proj2 Hx)) Hi)).
  lia.
Qed.

Lemma accounted_drop_root (s s' : LedgerState) r1 r r2 iv kr ki h :
  accounted (mkHost s (r1 ++ r :: r2) iv kr ki h) → state_ok s' →
  root_reserved s' = root_reserved s - rr_bytes r →
  root_entries_reserved s' = root_entries_reserved s - rr_entries r →
  namespace_reserved s' = namespace_reserved s → open_handles s' = open_handles s →
  active_invocations s' = active_invocations s →
  accounted (mkHost s' (r1 ++ r2) iv kr ki h).
Proof.
  intros [Hs Hr Hi Hb He Hn Ha Hh] Hs' E1 E2 E3 E4 E5.
  unfold held_bytes, held_entries, held_in in *.
  cbn [h_state h_roots h_kept_roots h_invs h_kept_invs h_handles] in *.
  rewrite <- app_assoc, <- app_comm_cons in *. rewrite zsum_middle in Hb, He.
  constructor; unfold held_bytes, held_entries, held_in;
    cbn [h_state h_roots h_kept_roots h_invs h_kept_invs h_handles];
    rewrite <- ?(app_assoc r1), ?E3, ?E4, ?E5; try done; [|lia|lia].
  apply Forall_app in Hr as [? Hr]. inversion Hr; subst. by apply Forall_app.
Qed.

Lemma accounted_keep_root (s : LedgerState) r1 r r2 iv kr ki h :
  accounted (mkHost s (r1 ++ r :: r2) iv kr ki h) →
  accounted (mkHost s (r1 ++ r2) iv (r :: kr) ki h).
Proof.
  intros [Hs Hr Hi Hb He Hn Ha Hh].
  assert ((r1 ++ r2) ++ r :: kr ≡ₚ (r1 ++ r :: r2) ++ kr) as Hp by solve_Permutation.
  constructor; unfold held_bytes, held_entries, held_in in *;
    cbn [h_state h_roots h_kept_roots h_invs h_kept_invs h_handles] in *; try done.
  - by rewrite Hp.
  - rewrite Hb, !zsum_app, !zsum_cons. lia.
  - rewrite He, !zsum_app, !zsum_cons. lia.
Qed.

Lemma accounted_inv_split (s : LedgerState) rs i1 r i2 kr ki h :
  accounted (mkHost s rs (i1 ++ r :: i2) kr ki h) →
  rs_ok r ∧ held s r ∧ 1 ≤ active_invocations s.
Proof.
  intros [Hs Hr Hi Hb He Hn Ha Hh]. specialize (Hn (rs_namespace r)).
  unfold held_bytes, held_entries, held_in, held in *.
  cbn [h_state h_roots h_kept_roots h_invs h_kept_invs] in *.
  rewrite <- app_assoc, <- app_comm_cons in *. rewrite zsum_middle in Hb, He, Hn.
  unfold rs_in at 1 in Hn. rewrite bool_decide_eq_true_2 in Hn by done.
  apply Forall_app in Hi as [Hi1 Hi2]. inversion Hi2 as [|? ? Hi0 Hi3]; subst. split; [done|].
  assert (Forall rs_ok (i1 ++ i2 ++ ki)) as Hrest by (by apply Forall_app).
  pose proof (zsum_nonneg rs_reserved _ (Forall_impl _ (fun x Hx => proj1 Hx) Hrest)).
  pose proof (zsum_nonneg rs_entries_reserved _ (Forall_impl _ (fun x Hx => proj1 (proj2 Hx)) Hrest)).
  pose proof (zsum_nonneg rr_bytes _ (Forall_impl _ (fun x Hx => proj1 Hx) Hr)).
  pose proof (zsum_nonneg rr_entries _ (Forall_impl _ (fun x Hx => proj1 (proj2 Hx)) Hr)).
  assert (0 ≤ zsum (rs_in (rs_namespace r)) (i1 ++ i2 ++ ki)).
  { apply zsum_nonneg. eapply Forall_impl; [|exact Hrest]. intros x (? & _). unfold rs_in.
    case_bool_decide; lia. }
  destruct Hi0 as (? & ? & _). rewrite length_app in Ha. cbn [length] in Ha. lia.
Qed.

Lemma accounted_drop_inv (s s' : LedgerState) rs i1 r i2 kr ki h :
  accounted (mkHost s rs (i1 ++ r :: i2) kr ki h) → state_ok s' → given_back r s s' →
  active_invocations s' = active_invocations s - 1 →
  accounted (mkHost s' rs (i1 ++ i2) kr ki h).
Proof.
  intros [Hs Hr Hi Hb He Hn Ha Hh] Hs' (E1 & E2 & E3 & E4) E5.
  unfold held_bytes, held_entries, held_in in *.
  cbn [h_state h_roots h_kept_roots h_invs h_kept_invs h_handles] in *.
  rewrite <- app_assoc, <- app_comm_cons in *. rewrite zsum_middle in Hb, He.
  constructor; unfold held_bytes, held_entries, held_in;
    cbn [h_state h_roots h_kept_roots h_invs h_kept_invs h_handles]; rewrite <- ?(app_assoc i1);
    try done; try lia.
  - apply Forall_app in Hi as [? Hi]. inversion Hi; subst. by apply Forall_app.
  - intros ns. rewrite E3, Hn, zsum_middle. unfold rs_in at 1. lia.
  - rewrite E5, Ha, !length_app. cbn [length]. rewrite length_app. lia.
Qed.

Lemma accounted_keep_inv (s : LedgerState) rs i1 r i2 kr ki h :
  accounted (mkHost s rs (i1 ++ r :: i2) kr ki h) →
  accounted (mkHost s rs (i1 ++ i2) kr (r :: ki) h).
Proof.
  intros [Hs Hr Hi Hb He Hn Ha Hh].
  assert ((i1 ++ i2) ++ r :: ki ≡ₚ (i1 ++ r :: i2) ++ ki) as Hp by solve_Permutation.
  constructor; unfold held_bytes, held_entries, held_in in *;
    cbn [h_state h_roots h_kept_roots h_invs h_kept_invs h_handles] in *; try done.
  - by rewrite Hp.
  - rewrite Hb, !zsum_app, !zsum_cons. lia.
  - rewrite He, !zsum_app, !zsum_cons. lia.
  - intros ns. rewrite Hn, !zsum_app, !zsum_cons. lia.
  - by rewrite Hp.
Qed.

Lemma accounted_update_inv (s s' : LedgerState) rs i1 r r' i2 kr ki h :
  accounted (mkHost s rs (i1 ++ r :: i2) kr ki h) → state_ok s' → rs_ok r' →
  rs_namespace r' = rs_namespace r →
  root_reserved s' = root_reserved s + (rs_reserved r' - rs_reserved r) →
  root_entries_reserved s' = root_entries_reserved s + (rs_entries_reserved r' - rs_entries_reserved r) →
  (∀ ns, ns_get (namespace_reserved s') ns
         = ns_get (namespace_reserved s) ns
           + (if bool_decide (ns = rs_namespace r) then rs_reserved r' - rs_reserved r else 0)) →
  open_handles s' = open_handles s → active_invocations s' = active_invocations s →
  accounted (mkHost s' rs (i1 ++ r' :: i2) kr ki h).
Proof.
  intros [Hs Hr Hi Hb He Hn Ha Hh] Hs' Hr' En E1 E2 E3 E4 E5.
  unfold held_bytes, held_entries, held_in in *.
  cbn [h_state h_roots h_kept_roots h_invs h_kept_invs h_handles] in *.
  rewrite <- app_assoc, <- app_comm_cons in *. rewrite zsum_middle in Hb, He.
  constructor; unfold held_bytes, held_entries, held_in;
    cbn [h_state h_roots h_kept_roots h_invs h_kept_invs h_handles];
    rewrite <- ?(app_assoc i1), <- ?app_comm_cons; rewrite ?zsum_middle; try done; try lia.
  - apply Forall_app in Hi as [? Hi]. inversion Hi; subst. apply Forall_app. split; [done|by constructor].
  - intros ns. rewrite E3, Hn, !zsum_middle. unfold rs_in at 1 3. rewrite En. case_bool_decide; lia.
  - rewrite E5, Ha, !length_app. done.
Qed.

(** *** Every step keeps the books and the bounds *)

Context (Hlimits : limits_u64 limits).

Lemma limits_le (f : str) (v : Z) : (f, v) ∈ positive limits → 0 ≤ v ≤ u64_max.
Proof.
  intros Hin%list_elem_of_In. unfold limits_u64 in Hlimits. rewrite List.Forall_forall in Hlimits.
  apply (Hlimits (f, v) Hin).
Qed.

Lemma max_root_bytes_le : max_root_bytes limits ≤ u64_max.
Proof. apply (limits_le (lit "maxRootBytes")), list_elem_of_In. cbn. tauto. Qed.

Lemma startup_max_entries_le : startup_max_entries limits ≤ u64_max.
Proof. apply (limits_le (lit "startupMaxEntries")), list_elem_of_In. cbn. tauto. Qed.

Lemma max_namespace_bytes_le : max_namespace_bytes limits ≤ u64_max.
Proof. apply (limits_le (lit "maxNamespaceBytes")), list_elem_of_In. cbn. tauto. Qed.

Lemma max_active_le : 0 ≤ max_active_invocations limits ≤ u64_max.
Proof. apply (limits_le (lit "maxActiveInvocations")), list_elem_of_In. cbn. tauto. Qed.

Lemma max_open_handles_le : 0 ≤ max_open_handles limits ≤ u64_max.
Proof. apply (limits_le (lit "maxOpenHandles")), list_elem_of_In. cbn. tauto. Qed.

Context (usage : Usage) (Husage : usage_ok usage) (Hbytes : bytes usage ≤ u64_max)
  (Hentries : entries usage ≤ u64_max).

Definition host_inv (h : Host) : Prop := accounted h ∧ bounded usage h.

(** Nothing of what the bounds speak of has grown. *)
Lemma bounded_le (s s' : LedgerState) rs iv kr ki h rs' iv' kr' ki' h' :
  bounded usage (mkHost s rs iv kr ki h) →
  root_used s' + root_reserved s' ≤ root_used s + root_reserved s →
  root_entries s' + root_entries_reserved s' ≤ root_entries s + root_entries_reserved s →
  active_invocations s' ≤ active_invocations s → open_handles s' ≤ open_handles s →
  bounded usage (mkHost s' rs' iv' kr' ki' h').
Proof.
  intros [H1 H2 H3 H4] E1 E2 E3 E4. cbn [h_state] in *. constructor; cbn [h_state]; lia.
Qed.

Lemma inv_reserve_root (b e : Z) (s s' : LedgerState) r rs iv kr ki h :
  0 ≤ b → 0 ≤ e → reserve_root limits b e s = (Ok r, s') →
  host_inv (mkHost s rs iv kr ki h) → host_inv (mkHost s' (r :: rs) iv kr ki h).
Proof.
  intros Hb He (-> & -> & Hu & Hn)%reserve_root_Ok [Hacc Hbnd].
  pose proof (acc_state _ Hacc) as Hs. cbn [h_state] in Hs. split.
  - eapply accounted_add_root; eauto; [done|].
    unfold state_ok in *. run_locked. intuition lia.
  - destruct Hbnd as [H1 H2 H3 H4]. cbn [h_state] in *. constructor; cbn [h_state]; run_locked; lia.
Qed.

Lemma moved_bounds (counter before after held total c : Z) :
  0 ≤ counter → 0 ≤ before → 0 ≤ after → sat_sub_u64 after before ≤ held ≤ total →
  moved counter before after = Some c → 0 ≤ c ∧ c + (total - held) ≤ counter + total.
Proof.
  unfold moved, checked_add_u64, sat_sub_u64. intros.
  repeat dk_case; simplify_eq; dk_bool; lia.
Qed.

Lemma inv_commit_root (before after : Usage) (s s' : LedgerState) r1 r r2 iv kr ki h :
  usage_ok before → usage_ok after → RootReservation_commit r before after s = (Ok tt, s') →
  host_inv (mkHost s (r1 ++ r :: r2) iv kr ki h) → host_inv (mkHost s' (r1 ++ r2) iv kr ki h).
Proof.
  intros [? ?] [? ?] Hc [Hacc Hbnd].
  pose proof (acc_state _ Hacc) as (? & ? & ? & ? & ? & ? & Hm). cbn [h_state] in *.
  destruct (accounted_root_split _ _ _ _ _ _ _ _ Hacc) as ((? & ? & _) & ? & ?).
  unfold RootReservation_commit in Hc. destruct (_ || _) eqn:Hg; [done|].
  destruct (moved (root_used s) _ _) as [used|] eqn:Hmu; [|done].
  destruct (moved (root_entries s) _ _) as [ents|] eqn:Hme; [|done].
  injection Hc as <-. rewrite orb_false_iff, !Z.ltb_ge in Hg. destruct Hg.
  apply (moved_bounds _ _ _ (rr_bytes r) (root_reserved s)) in Hmu as [? ?]; try done.
  apply (moved_bounds _ _ _ (rr_entries r) (root_entries_reserved s)) in Hme as [? ?]; try done.
  cbn [RootReservation_drop rr_finalized].
  split.
  - eapply accounted_drop_root; [exact Hacc|..]; run_locked; unfold sat_sub_u64; try done; try lia.
    unfold state_ok. run_locked. unfold sat_sub_u64. intuition lia.
  - eapply bounded_le; [exact Hbnd|..]; run_locked; unfold sat_sub_u64; lia.
Qed.

Lemma inv_drop_root (s : LedgerState) r1 r r2 iv kr ki h :
  host_inv (mkHost s (r1 ++ r :: r2) iv kr ki h) →
  host_inv (mkHost (RootReservation_drop r s) (r1 ++ r2) iv kr ki h).
Proof.
  intros [Hacc Hbnd].
  destruct (accounted_root_split _ _ _ _ _ _ _ _ Hacc) as ((? & ? & Hf) & ? & ?).
  pose proof (acc_state _ Hacc) as Hs. cbn [h_state] in Hs.
  unfold RootReservation_drop. rewrite Hf. split.
  - eapply accounted_drop_root; [exact Hacc|..]; run_locked; unfold sat_sub_u64; try done; try lia.
    unfold state_ok in *. run_locked. unfold sat_sub_u64. intuition lia.
  - eapply bounded_le; [exact Hbnd|..]; run_locked; unfold sat_sub_u64; lia.
Qed.

Lemma inv_keep_root (s : LedgerState) r1 r r2 iv kr ki h :
  host_inv (mkHost s (r1 ++ r :: r2) iv kr ki h) → host_inv (mkHost s (r1 ++ r2) iv (r :: kr) ki h).
Proof.
  intros [Hacc Hbnd]. split; [by apply accounted_keep_root|].
  by eapply bounded_le; [exact Hbnd|..].
Qed.

Lemma commit_root_Err (before after : Usage) (s s' : LedgerState) r x :
  RootReservation_commit r before after s = (Err x, s') → s' = s.
Proof.
  unfold RootReservation_commit. cbn [RootReservation_drop rr_finalized].
  repeat dk_case; intros; simplify_eq; done.
Qed.

Lemma inv_begin (ns : str) (u : Usage) (s s' : LedgerState) r rs iv kr ki h :
  usage_ok u → begin limits ns u s = (Ok r, s') →
  host_inv (mkHost s rs iv kr ki h) → host_inv (mkHost s' rs (r :: iv) kr ki h).
Proof.
  intros [? ?] (-> & -> & Hmax)%begin_Ok [[Hs Hr Hi Hb He Hn Ha Hh] Hbnd].
  unfold held_bytes, held_entries, held_in in *.
  cbn [h_state h_roots h_kept_roots h_invs h_kept_invs h_handles] in *. split.
  - constructor; unfold held_bytes, held_entries, held_in;
      cbn [h_state h_roots h_kept_roots h_invs h_kept_invs h_handles app]; run_locked;
      rewrite ?zsum_cons; cbn [rs_reserved rs_entries_reserved]; try done; try lia.
    + unfold state_ok in *. run_locked. intuition (try lia; by apply map_nonneg_insert).
    + by constructor.
    + intros n. rewrite Hn, zsum_cons. unfold rs_in at 2. cbn. by case_bool_decide.
    + rewrite Ha. cbn [length]. lia.
  - destruct Hbnd as [H1 H2 H3 H4]. cbn [h_state] in *. constructor; cbn [h_state]; run_locked; lia.
Qed.

Lemma inv_reserve_to (d de : Z) (s s' : LedgerState) rs i1 r i2 kr ki h res :
  reserve_to limits r d de s = (res, s') →
  host_inv (mkHost s rs (i1 ++ r :: i2) kr ki h) →
  host_inv (mkHost s' rs (i1 ++ updated r res :: i2) kr ki h).
Proof.
  intros Hres [Hacc Hbnd]. pose proof (acc_state _ Hacc) as Hs. cbn [h_state] in Hs.
  destruct res as [r'|x]; cbn [updated].
  2:{ by apply reserve_to_Err in Hres as [-> _]; eauto using max_root_bytes_le,
        startup_max_entries_le, max_namespace_bytes_le. }
  destruct (accounted_inv_split _ _ _ _ _ _ _ _ Hacc) as ((? & ? & Hf) & _ & _).
  apply reserve_to_Ok in Hres as [-> [(-> & ? & ?)|(-> & Hu & He & Hns)]].
  - split.
    + eapply accounted_update_inv; [exact Hacc|done|..]; cbn [rs_namespace rs_reserved
        rs_entries_reserved]; try done; try lia; [split; cbn; [lia|split; [lia|done]]|].
      intros ns. case_bool_decide; lia.
    + by eapply bounded_le; [exact Hbnd|..].
  - split.
    + eapply accounted_update_inv; [exact Hacc|..]; cbn [rs_namespace rs_reserved
        rs_entries_reserved]; run_locked; try done.
      * pose proof Hs as (_ & _ & _ & _ & _ & _ & _ & _ & Hnr).
        pose proof (ns_get_nonneg _ (rs_namespace r) Hnr). unfold state_ok in *. run_locked.
        intuition (lia || (apply map_nonneg_insert; [lia|done])).
      * split; cbn; [lia|split; [lia|done]].
      * intros ns. case_bool_decide as Hns'; [subst ns; rewrite ns_get_insert_eq; lia|].
        rewrite ns_get_insert_ne by done. lia.
    + destruct Hbnd as [H1 H2 H3 H4]. cbn [h_state] in *. constructor; cbn [h_state]; run_locked; lia.
Qed.

Lemma inv_observe_direct (u : Usage) (s s' : LedgerState) rs i1 r i2 kr ki h res :
  within_reservation s r u → observe_direct r u s = (res, s') →
  host_inv (mkHost s rs (i1 ++ r :: i2) kr ki h) →
  host_inv (mkHost s' rs (i1 ++ updated r res :: i2) kr ki h).
Proof.
  intros (Hu & Hb & He) Hres [Hacc Hbnd]. pose proof (acc_state _ Hacc) as Hs. cbn [h_state] in Hs.
  destruct (accounted_inv_split _ _ _ _ _ _ _ _ Hacc) as ((? & ? & Hf) & Hheld & _).
  pose proof Hbnd as [H1 H2 _ _]. cbn [h_state] in H1, H2.
  pose proof max_root_bytes_le. pose proof startup_max_entries_le.
  apply observe_direct_effect in Hres as (-> & Hs' & (E1 & E2 & E3 & E4) & E5 & E6 & E7); try done; try lia.
  cbn [updated]. split.
  - eapply accounted_update_inv; [exact Hacc|done|..]; cbn [rs_namespace rs_reserved
      rs_entries_reserved]; try done; try lia.
    intros ns. rewrite E3. case_bool_decide; lia.
  - eapply bounded_le; [exact Hbnd|..]; lia.
Qed.

Lemma inv_release (s : LedgerState) rs i1 r i2 kr ki h :
  host_inv (mkHost s rs (i1 ++ r :: i2) kr ki h) →
  host_inv (mkHost (release_locked s (rs_namespace r) (rs_reserved r) (rs_entries_reserved r))
              rs (i1 ++ i2) kr ki h).
Proof.
  intros [Hacc Hbnd]. pose proof (acc_state _ Hacc) as Hs. cbn [h_state] in Hs.
  destruct (accounted_inv_split _ _ _ _ _ _ _ _ Hacc) as ((? & ? & Hf) & Hheld & Hact).
  destruct (release_locked_effect r s Hs Hheld Hact) as (Hs' & Hg & E1 & E2 & E3). split.
  - by eapply accounted_drop_inv; [exact Hacc|..].
  - destruct Hg as (G1 & G2 & _ & G4). eapply bounded_le; [exact Hbnd|..]; lia.
Qed.

Lemma inv_same (s s' : LedgerState) rs iv kr ki h :
  host_inv (mkHost s rs iv kr ki h) → state_ok s' → same_reserved s s' →
  root_used s' ≤ root_used s → root_entries s' ≤ root_entries s →
  host_inv (mkHost s' rs iv kr ki h).
Proof.
  intros [Hacc Hbnd] Hs' Hsame Hu He. split; [by eapply accounted_same|].
  destruct Hsame as (E1 & E2 & _ & E4 & E5). eapply bounded_le; [exact Hbnd|..]; lia.
Qed.

(** The methods of the namespace slots change the slots only. *)
Lemma inv_slots (s : LedgerState) (slots pending : gset str) rs iv kr ki h :
  host_inv (mkHost s rs iv kr ki h) → host_inv (mkHost (set_slots s slots pending) rs iv kr ki h).
Proof.
  intros Hinv. pose proof (acc_state _ (proj1 Hinv)) as Hs. by eapply inv_same.
Qed.

Lemma inv_handles (s s' : LedgerState) rs iv kr ki h h' :
  host_inv (mkHost s rs iv kr ki h) → s' = set_open_handles s h' → 0 ≤ h' ≤ max_open_handles limits →
  host_inv (mkHost s' rs iv kr ki h').
Proof.
  intros [[Hs Hr Hi Hb He Hn Ha Hh] [H1 H2 H3 H4]] -> Hmax.
  unfold held_bytes, held_entries, held_in in *.
  cbn [h_state h_roots h_kept_roots h_invs h_kept_invs h_handles] in *. split.
  - constructor; unfold held_bytes, held_entries, held_in;
      cbn [h_state h_roots h_kept_roots h_invs h_kept_invs h_handles]; try done.
    unfold state_ok in *. run_locked. intuition lia.
  - constructor; cbn [h_state]; run_locked; lia.
Qed.

Lemma reserve_namespace_slots (ns : str) (observed : gset str) (s s' : LedgerState) res :
  reserve_namespace limits ns observed s = (res, s') →
  ∃ slots pending, s' = set_slots s slots pending.
Proof.
  unfold reserve_namespace, observe_namespaces. run_locked.
  repeat dk_case; intros; simplify_eq; by eexists _, _.
Qed.

Lemma drop_namespace_slots (r : NamespaceReservation) (s : LedgerState) :
  ∃ slots pending, NamespaceReservation_drop r s = set_slots s slots pending.
Proof.
  unfold NamespaceReservation_drop. destruct (_ || _); [|by eexists _, _].
  exists (namespace_slots s), (pending_namespace_slots s). by destruct s.
Qed.

Lemma commit_namespace_slots (r : NamespaceReservation) (s : LedgerState) :
  ∃ slots pending, NamespaceReservation_commit r s = set_slots s slots pending.
Proof.
  unfold NamespaceReservation_commit, NamespaceReservation_drop. cbn [nr_finalized orb].
  destruct (nr_newly_reserved r); [by eexists _, _|].
  exists (namespace_slots s), (pending_namespace_slots s). by destruct s.
Qed.

Lemma host_step_inv (h h' : Host) : host_step h h' → host_inv h → host_inv h'.
Proof.
  pose proof max_root_bytes_le. pose proof startup_max_entries_le. pose proof max_active_le.
  pose proof max_open_handles_le.
  destruct 1 as [s rs iv kr ki h b e r s' ? ? E|s rs iv kr ki h b e x s' ? ? E
    |s r1 r r2 iv kr ki h be af s' ? ? E|s r1 r r2 iv kr ki h be af x s' E|s r1 r r2 iv kr ki h
    |s r1 r r2 iv kr ki h|s rs iv kr ki h ns u r s' ? E|s rs iv kr ki h ns u x s' E
    |s rs i1 r i2 kr ki h d de res s' E|s rs i1 r i2 kr ki h u res s' ? E|s rs i1 r i2 kr ki h
    |s rs i1 r i2 kr ki h|s rs i1 r i2 kr ki h|s rs iv kr ki h ns be af rm res s' E
    |s rs iv kr ki h s' E|s rs iv kr ki h x s' E|s rs iv kr ki h Hh|s rs iv kr ki h obs res s' E
    |s rs iv kr ki h ns obs res s' E|s rs iv kr ki h r|s rs iv kr ki h r]; intros Hinv;
    pose proof (acc_state _ (proj1 Hinv)) as Hs; cbn [h_state] in Hs.
  - by apply (inv_reserve_root b e s).
  - by apply reserve_root_Err in E as [-> _].
  - by apply (inv_commit_root be af s s' r1 r).
  - apply commit_root_Err in E as ->. by apply inv_keep_root.
  - by apply inv_keep_root.
  - by apply inv_drop_root.
  - by apply (inv_begin ns u s).
  - by apply begin_Err in E as (-> & _); [|lia].
  - by apply (inv_reserve_to d de s).
  - by apply (inv_observe_direct u s).
  - by apply inv_release.
  - unfold Reservation_drop.
    destruct (accounted_inv_split _ _ _ _ _ _ _ _ (proj1 Hinv)) as ((_ & _ & ->) & _).
    by apply inv_release.
  - destruct Hinv as [Hacc Hbnd]. split; [by apply accounted_keep_inv|].
    by eapply bounded_le; [exact Hbnd|..].
  - apply account_sweep_effect in E as (? & ? & ? & ?); [|done]. by eapply inv_same.
  - apply acquire_handle_cases in E as [(_ & -> & ?)|(? & _)]; [|done|lia].
    pose proof (acc_handles _ (proj1 Hinv)) as Hh. cbn in Hh. destruct Hs as (_ & _ & _ & _ & ? & _).
    eapply inv_handles; [exact Hinv|by rewrite Hh|lia].
  - apply acquire_handle_cases in E as [(? & _)|(_ & -> & _)]; [done|done|lia].
  - pose proof (acc_handles _ (proj1 Hinv)) as Hh'. cbn in Hh'.
    pose proof (bnd_handles _ _ (proj2 Hinv)) as Hm. cbn in Hm.
    eapply inv_handles; [exact Hinv| |lia]. unfold release_handle, sat_sub_u64. f_equal. lia.
  - injection E as <- <-. by apply inv_slots.
  - apply reserve_namespace_slots in E as (? & ? & ->). by apply inv_slots.
  - destruct (commit_namespace_slots r s) as (? & ? & ->). by apply inv_slots.
  - destruct (drop_namespace_slots r s) as (? & ? & ->). by apply inv_slots.
Qed.

Lemma host_inv_reachable (h h' : Host) : rtc host_step h h' → host_inv h → host_inv h'.
Proof. induction 1; eauto using host_step_inv. Qed.

Definition host_new : Host := mkHost (QuotaLedger_new usage) [] [] [] [] 0.

Lemma host_inv_new : host_inv host_new.
Proof.
  destruct Husage. pose proof max_active_le. pose proof max_open_handles_le. split.
  - by constructor.
  - constructor; cbn; lia.
Qed.

End Host.

(** ** Properties *)

(** C9: the root's quota is never exceeded. Whatever the interleaving of
    reservations, commits, sweeps and drops, as long as the usage that
    [observe_direct] reports of a namespace stays within what was reserved for
    it (the method does not check it; transactions keep to it), the bytes and entries
    used and reserved stay within the root's limits (or the usage found at
    start, if that was larger), and so do invocations and handles. *)
Theorem quota_never_exceeded (limits : StorageLimits) (usage : Usage) (h : Host) :
  limits_u64 limits → usage_ok usage → bytes usage ≤ u64_max → entries usage ≤ u64_max →
  rtc (host_step limits) (host_new usage) h →
  root_used (h_state h) + root_reserved (h_state h) ≤ Z.max (max_root_bytes limits) (bytes usage)
  ∧ root_entries (h_state h) + root_entries_reserved (h_state h)
    ≤ Z.max (startup_max_entries limits) (entries usage)
  ∧ active_invocations (h_state h) ≤ max_active_invocations limits
  ∧ open_handles (h_state h) ≤ max_open_handles limits.
Proof.
  intros Hl Hu Hb He Hrun.
  destruct (host_inv_reachable limits Hl usage Hb He _ _ Hrun) as [_ [H1 H2 H3 H4]];
    [by apply host_inv_new|done].
Qed.

(** Reservations never leak. In every reachable state the ledger's
    reserved bytes and entries, in the root and in each namespace, and its
    count of invocations are the sums over the guards that are alive or were
    deliberately kept; once all are gone, nothing is reserved. *)
Theorem reservations_never_leak (limits : StorageLimits) (usage : Usage) (h : Host) :
  limits_u64 limits → usage_ok usage → bytes usage ≤ u64_max → entries usage ≤ u64_max →
  rtc (host_step limits) (host_new usage) h →
  accounted h
  ∧ (h_roots h ++ h_kept_roots h = [] → h_invs h ++ h_kept_invs h = [] →
     root_reserved (h_state h) = 0 ∧ root_entries_reserved (h_state h) = 0
     ∧ active_invocations (h_state h) = 0
     ∧ ∀ ns, ns_get (namespace_reserved (h_state h)) ns = 0).
Proof.
  intros Hl Hu Hb He Hrun.
  destruct (host_inv_reachable limits Hl usage Hb He _ _ Hrun) as [Hacc _]; [by apply host_inv_new|].
  split; [done|]. intros Hr Hi. destruct Hacc as [_ _ _ E1 E2 E3 E4 _].
  unfold held_bytes, held_entries, held_in in *. rewrite Hr, Hi in *. split; [done|].
  split; [done|]. split; [done|]. intros ns. by rewrite E3.
Qed.

(** A reservation is granted exactly when it fits: [reserve_root] and
    [reserve_to] succeed when what is used, reserved and asked for stays
    within the root's bytes and entries and, for [reserve_to], the namespace's
    bytes; otherwise they fail and leave the ledger as it was. *)
Theorem reservation_granted_iff_fits (limits : StorageLimits) (s : LedgerState) (r : Reservation)
    (b e : Z) :
  limits_u64 limits → state_ok s → 0 ≤ b → 0 ≤ e →
  (is_ok (reserve_root limits b e s).1 = true
   ↔ root_used s + root_reserved s + b ≤ max_root_bytes limits
     ∧ root_entries s + root_entries_reserved s + e ≤ startup_max_entries limits)
  ∧ (is_ok (reserve_root limits b e s).1 = false → (reserve_root limits b e s).2 = s)
  ∧ let more := Z.max (rs_reserved r) b - rs_reserved r in
    let more_entries := Z.max (rs_entries_reserved r) e - rs_entries_reserved r in
    (is_ok (reserve_to limits r b e s).1 = true
     ↔ more = 0 ∧ more_entries = 0
       ∨ root_used s + root_reserved s + more ≤ max_root_bytes limits
         ∧ root_entries s + root_entries_reserved s + more_entries ≤ startup_max_entries limits
         ∧ ns_get (namespace_used s) (rs_namespace r)
           + ns_get (namespace_reserved s) (rs_namespace r) + more ≤ max_namespace_bytes limits)
    ∧ (is_ok (reserve_to limits r b e s).1 = false → (reserve_to limits r b e s).2 = s).
Proof.
  intros Hl Hs Hb He. pose proof (max_root_bytes_le limits Hl).
  pose proof (startup_max_entries_le limits Hl). pose proof (max_namespace_bytes_le limits Hl).
  destruct (reserve_root limits b e s) as [[rr|x] s1] eqn:E1; cbn [fst snd is_ok].
  1: pose proof (reserve_root_Ok _ _ _ _ _ _ E1) as (_ & _ & F1 & F2).
  2: pose proof (reserve_root_Err _ _ _ _ _ _ Hs Hb He ltac:(done) ltac:(done) E1) as [-> F1].
  all: split; [split; [done || lia|done || lia]|split; [done|]].
  all: cbn zeta; destruct (reserve_to limits r b e s) as [[r'|y] s2] eqn:E2; cbn [fst snd is_ok];
    [apply reserve_to_Ok in E2 as [_ [(_ & F3)|(_ & F3)]]; (split; [split; [by auto|done]|done])|].
  all: pose proof (reserve_to_zero limits r b e s s2 y E2);
    apply reserve_to_Err in E2 as [-> F3]; try done; (split; [split; [done|lia]|done]).
Qed.

(** The limit on namespaces holds at every reservation: a new namespace
    is reserved only when, with it, the namespaces known and pending are
    within the limit; committing it keeps that set and makes it known,
    dropping the guard takes only the pending name away. *)
Theorem namespace_slots_bounded (limits : StorageLimits) (ns : str) (observed : gset str)
    (s s' : LedgerState) (r : NamespaceReservation) :
  reserve_namespace limits ns observed s = (Ok r, s') → nr_newly_reserved r = true →
  let names st := namespace_slots st ∪ pending_namespace_slots st in
  Z.of_nat (size (names s')) ≤ max_namespaces limits ∧ ns ∈ pending_namespace_slots s'
  ∧ names (NamespaceReservation_commit r s') = names s'
  ∧ ns ∈ namespace_slots (NamespaceReservation_commit r s')
  ∧ namespace_slots (NamespaceReservation_drop r s') = namespace_slots s'
  ∧ names (NamespaceReservation_drop r s') = names s ∪ observed.
Proof.
  unfold reserve_namespace, observe_namespaces. run_locked.
  destruct (_ || _) eqn:Hin; [by intros [= <- <-]|]. destruct (_ <=? _) eqn:Hn; [done|].
  intros [= <- <-] _. rewrite orb_false_iff, !bool_decide_eq_false in Hin. destruct Hin as [Hs Hp].
  apply Z.leb_gt in Hn. unfold NamespaceReservation_commit, NamespaceReservation_drop.
  cbn [nr_newly_reserved nr_finalized nr_namespace orb negb]. run_locked. cbn zeta. split.
  - assert (namespace_slots s ∪ observed ∪ ({[ns]} ∪ pending_namespace_slots s)
            = {[ns]} ∪ (namespace_slots s ∪ observed ∪ pending_namespace_slots s)) as ->
      by (apply set_eq; intros x; rewrite !elem_of_union; tauto).
    rewrite size_union, size_singleton; [lia|]. intros x ->%elem_of_singleton.
    rewrite !elem_of_union. rewrite elem_of_union in Hs. tauto.
  - split; [apply elem_of_union; left; by apply elem_of_singleton|].
    split; [|split; [apply elem_of_union; left; by apply elem_of_singleton|split; [done|]]].
    + apply set_eq. intros x. rewrite !elem_of_union, elem_of_difference, !elem_of_union,
        elem_of_singleton. destruct (decide (x = ns)); tauto.
    + apply set_eq. intros x. rewrite !elem_of_union, elem_of_difference, !elem_of_union,
        elem_of_singleton. destruct (decide (x = ns)) as [->|]; tauto.
Qed.

(** ** Witnesses *)

Definition demo_usage : Usage := mkUsage 100 5 1.
Definition demo_ns : str := lit "base/gen-1".
Definition demo_s0 : LedgerState := QuotaLedger_new demo_usage.
Definition demo_r1 : Reservation := mkReservation demo_ns 0 0 false.
Definition demo_s1 : LedgerState := (begin StorageLimits_default demo_ns (mkUsage 10 2 1) demo_s0).2.
Definition demo_r2 : Reservation := mkReservation demo_ns 50 1 false.
Definition demo_s2 : LedgerState := (reserve_to StorageLimits_default demo_r1 50 1 demo_s1).2.
Definition demo_s3 : LedgerState := (observe_direct demo_r2 (mkUsage 40 3 2) demo_s2).2.
Definition demo_s4 : LedgerState := Reservation_drop demo_r1 demo_s3.

Lemma demo_run :
  rtc (host_step StorageLimits_default) (host_new demo_usage) (mkHost demo_s4 [] [] [] [] 0).
Proof.
  eapply rtc_l.
  { apply (hs_begin _ _ _ _ _ _ _ demo_ns (mkUsage 10 2 1) demo_r1 demo_s1);
      [split; cbn; lia|vm_compute; reflexivity]. }
  eapply rtc_l.
  { apply (hs_reserve_to _ _ _ [] demo_r1 [] _ _ _ 50 1 (Ok demo_r2) demo_s2).
    vm_compute. reflexivity. }
  eapply rtc_l.
  { apply (hs_observe_direct _ _ _ [] demo_r2 [] _ _ _ (mkUsage 40 3 2) (Ok demo_r1) demo_s3).
    - split; [split; cbn; lia|]. split; vm_compute; discriminate.
    - vm_compute. reflexivity. }
  apply rtc_once. apply (hs_drop _ demo_s3 [] [] demo_r1 [] [] [] 0).
Qed.

Lemma default_limits_u64 : limits_u64 StorageLimits_default.
Proof. unfold limits_u64, positive, in_u64. repeat constructor; vm_compute; discriminate. Qed.

Lemma quota_never_exceeded_witness :
  root_used demo_s4 = 130
  ∧ root_used demo_s4 + root_reserved demo_s4
    ≤ Z.max (max_root_bytes StorageLimits_default) (bytes demo_usage).
Proof.
  split; [vm_compute; reflexivity|].
  apply (quota_never_exceeded StorageLimits_default demo_usage (mkHost demo_s4 [] [] [] [] 0)
    default_limits_u64 ltac:(split; cbn; lia) ltac:(vm_compute; discriminate)
    ltac:(vm_compute; discriminate) demo_run).
Defined.

Lemma reservations_never_leak_witness :
  root_reserved demo_s4 = 0 ∧ root_entries_reserved demo_s4 = 0 ∧ active_invocations demo_s4 = 0
  ∧ ∀ ns, ns_get (namespace_reserved demo_s4) ns = 0.
Proof.
  apply (reservations_never_leak StorageLimits_default demo_usage (mkHost demo_s4 [] [] [] [] 0)
    default_limits_u64 ltac:(split; cbn; lia) ltac:(vm_compute; discriminate)
    ltac:(vm_compute; discriminate) demo_run); reflexivity.
Defined.

Lemma demo_s1_ok : state_ok demo_s1.
Proof.
  apply (acc_state (mkHost demo_s1 [] [demo_r1] [] [] 0)).
  apply (host_step_inv StorageLimits_default default_limits_u64 demo_usage
    ltac:(vm_compute; discriminate) ltac:(vm_compute; discriminate) (host_new demo_usage)).
  - apply (hs_begin _ _ _ _ _ _ _ demo_ns (mkUsage 10 2 1) demo_r1 demo_s1);
      [split; cbn; lia|vm_compute; reflexivity].
  - apply host_inv_new; [apply default_limits_u64|split; cbn; lia].
Qed.

Lemma reservation_granted_iff_fits_witness :
  is_ok (reserve_root StorageLimits_default 4096 3 demo_s1).1 = true.
Proof.
  destruct (reservation_granted_iff_fits StorageLimits_default demo_s1 demo_r1 4096 3
    default_limits_u64 demo_s1_ok ltac:(lia) ltac:(lia)) as [Hroot _].
  apply Hroot. split; vm_compute; discriminate.
Defined.

Lemma namespace_slots_bounded_witness :
  let s' := (reserve_namespace StorageLimits_default (lit "n1") {[ lit "n0" ]} demo_s0).2 in
  Z.of_nat (size (namespace_slots s' ∪ pending_namespace_slots s')) ≤ 4096.
Proof.
  apply (namespace_slots_bounded StorageLimits_default (lit "n1") {[ lit "n0" ]} demo_s0 _
    (mkNamespaceReservation (lit "n1") true false)); vm_compute; reflexivity.
Defined.
