(* ===== verification/Keys.v ===== *)
(** * Trace identifiers and storage keys

    [crates/dekopon-core/src/trace.rs]: a trace identifier is sixteen bytes,
    not all zero, written as 32 lowercase hexadecimal digits.
    [crates/dekopon-storage-host/src/key.rs]: the tokens and commitments of
    the storage host are the hexadecimal form of a hash over length-prefixed
    fields. SHA-256 comes from a library and is a parameter of the
    definitions. *)

From Stdlib Require Import ZArith Lia Ascii String.
From stdpp Require Import base gmap strings list sorting numbers.
From S2P Require Import Prelude.
From S2P Require Import RustStr.

(** ** Hexadecimal *)

Definition DIGITS : str := lit "0123456789abcdef".

Definition hex_digit (n : Z) : Z := nth (Z.to_nat n) DIGITS 0.

Definition hex_byte (b : Z) : str := [hex_digit (Z.shiftr b 4); hex_digit (Z.land b 15)].

(** [hex], and the [{byte:02x}] of each byte. *)
Definition hex (bytes : list Z) : str := concat (hex_byte <$> bytes).

Definition is_byte (b : Z) : Prop := 0 ≤ b < 256.

(** ** Trace identifiers *)

Definition TRACE_ID_HEX_DIGITS : Z := 32.

Inductive TraceIdError : Type := TraceMalformed | TraceZero.

(** [u128::from_be_bytes]. *)
Definition from_be_bytes (bytes : list Z) : Z := foldl (fun acc b => acc * 256 + b) 0 bytes.

Definition TraceId_new (bytes : list Z) : result TraceIdError (list Z) :=
  if from_be_bytes bytes =? 0 then Err TraceZero else Ok bytes.

Definition TraceId_display (t : list Z) : str := hex t.

Definition is_ascii_hexdigit (b : Z) : bool :=
  is_ascii_digit b || in_range (ch "a") (ch "f") b || in_range (ch "A") (ch "F") b.

(** A digit in base 16. *)
Definition to_digit (c : Z) : option Z :=
  if is_ascii_digit c then Some (c - ch "0")
  else if in_range (ch "a") (ch "f") c then Some (c - ch "a" + 10)
  else if in_range (ch "A") (ch "F") c then Some (c - ch "A" + 10)
  else None.

(** [u8::from_str_radix] at 16 of the two digits of each byte in turn. *)
Fixpoint parse_pairs (s : str) : option (list Z) :=
  match s with
  | [] => Some []
  | a :: b :: rest =>
      match to_digit a, to_digit b, parse_pairs rest with
      | Some x, Some y, Some bytes => Some (x * 16 + y :: bytes)
      | _, _, _ => None
      end
  | [_] => None
  end.

Definition TraceId_from_str (value : str) : result TraceIdError (list Z) :=
  if negb (len value =? TRACE_ID_HEX_DIGITS)
     || negb (forallb (fun b => is_ascii_hexdigit b && negb (is_ascii_uppercase b)) value)
  then Err TraceMalformed
  else
    let? bytes := ok_or (parse_pairs value) TraceMalformed in
    TraceId_new bytes.

(** ** Storage keys *)

Section Digest.
Context (sha256 : list Z → list Z).

(** [u64::to_be_bytes]. *)
Definition to_be_bytes (n : Z) : list Z :=
  (fun i => Z.land (Z.shiftr n (8 * i)) 255) <$> [7; 6; 5; 4; 3; 2; 1; 0].

Definition frame (part : list Z) : list Z := to_be_bytes (len part) ++ part.

(** What the hasher is fed. *)
Definition preimage (domain : str) (fields : list (list Z)) : list Z :=
  concat (frame <$> [lit "dekopon-storage-domain-v1"; domain] ++ fields).

Definition digest (domain : str) (fields : list (list Z)) : list Z := sha256 (preimage domain fields).

Definition token (domain : str) (fields : list (list Z)) : str := hex (digest domain fields).

Definition commitment (domain : str) (fields : list (list Z)) : str :=
  lit "sha256:" ++ token domain fields.

End Digest.

(** ** Digits *)

Lemma nibbles (b : Z) : is_byte b → Z.shiftr b 4 = b / 16 ∧ Z.land b 15 = b mod 16.
Proof.
  intros _. split; [by rewrite Z.shiftr_div_pow2|].
  change 15 with (Z.ones 4). by rewrite Z.land_ones by lia.
Qed.

Lemma to_digit_hex (n : Z) : 0 ≤ n < 16 → to_digit (hex_digit n) = Some n.
Proof.
  intros Hn.
  assert (n = 0 ∨ n = 1 ∨ n = 2 ∨ n = 3 ∨ n = 4 ∨ n = 5 ∨ n = 6 ∨ n = 7 ∨ n = 8 ∨ n = 9 ∨ n = 10
    ∨ n = 11 ∨ n = 12 ∨ n = 13 ∨ n = 14 ∨ n = 15) as H by lia.
  destruct_or!; subst; vm_compute; reflexivity.
Qed.

Lemma hex_digit_lower (n : Z) :
  0 ≤ n < 16 → is_ascii_hexdigit (hex_digit n) && negb (is_ascii_uppercase (hex_digit n)) = true.
Proof.
  intros Hn.
  assert (n = 0 ∨ n = 1 ∨ n = 2 ∨ n = 3 ∨ n = 4 ∨ n = 5 ∨ n = 6 ∨ n = 7 ∨ n = 8 ∨ n = 9 ∨ n = 10
    ∨ n = 11 ∨ n = 12 ∨ n = 13 ∨ n = 14 ∨ n = 15) as H by lia.
  destruct_or!; subst; vm_compute; reflexivity.
Qed.

Lemma lower_digit (c : Z) :
  is_ascii_hexdigit c && negb (is_ascii_uppercase c) = true →
  ∃ n, to_digit c = Some n ∧ 0 ≤ n < 16 ∧ hex_digit n = c.
Proof.
  unfold is_ascii_hexdigit, to_digit. intros H.
  assert (is_ascii_digit c = true ∨ (is_ascii_digit c = false ∧ in_range (ch "a") (ch "f") c = true))
    as [E|[-> E]].
  { destruct (is_ascii_digit c); [by left|right]. split; [done|].
    destruct (in_range (ch "a") (ch "f") c) eqn:E; [done|].
    exfalso. dk_byte. }
  - rewrite E. exists (c - ch "0"). split; [done|]. dk_byte. split; [lia|].
    assert (c = 48 ∨ c = 49 ∨ c = 50 ∨ c = 51 ∨ c = 52 ∨ c = 53 ∨ c = 54 ∨ c = 55 ∨ c = 56 ∨ c = 57)
      as Hc by lia.
    clear -Hc. destruct_or!; subst; vm_compute; reflexivity.
  - rewrite E. exists (c - ch "a" + 10). split; [done|]. dk_byte. split; [lia|].
    assert (c = 97 ∨ c = 98 ∨ c = 99 ∨ c = 100 ∨ c = 101 ∨ c = 102) as Hc by lia.
    clear -Hc. destruct_or!; subst; vm_compute; reflexivity.
Qed.

Lemma parse_pairs_hex (bytes : list Z) :
  Forall is_byte bytes → parse_pairs (hex bytes) = Some bytes.
Proof.
  induction 1 as [|b bytes Hb Hbs IH]; [done|]. destruct (nibbles b Hb) as [E1 E2].
  change (hex (b :: bytes)) with (hex_digit (Z.shiftr b 4) :: hex_digit (Z.land b 15) :: hex bytes).
  cbn [parse_pairs]. unfold is_byte in Hb. pose proof (Z.div_mod b 16). pose proof (Z.mod_pos_bound b 16).
  rewrite E1, E2, !to_digit_hex, IH by lia. do 2 f_equal. lia.
Qed.

Lemma hex_parse_pairs (s : str) :
  Forall (fun c => is_ascii_hexdigit c && negb (is_ascii_uppercase c) = true) s →
  ∀ bytes, parse_pairs s = Some bytes → hex bytes = s ∧ Forall is_byte bytes.
Proof.
  induction s as [|a|a b s IH] using list_pair_ind; intros Hs bytes Hp; cbn [parse_pairs] in Hp.
  - by injection Hp as <-.
  - done.
  - apply List.Forall_cons_iff in Hs as [Ha Hs]. apply List.Forall_cons_iff in Hs as [Hb Hs].
    destruct (lower_digit a Ha) as (x & Ex & Hx & Hdx), (lower_digit b Hb) as (y & Ey & Hy & Hdy).
    rewrite Ex, Ey in Hp. destruct (parse_pairs s) as [rest|]; [|done]. injection Hp as <-.
    destruct (IH Hs rest eq_refl) as [Hh Hf].
    assert (is_byte (x * 16 + y)) as Hbyte by (unfold is_byte; lia).
    split; [|by constructor]. destruct (nibbles _ Hbyte) as [E1 E2].
    change (hex (x * 16 + y :: rest))
      with (hex_digit (Z.shiftr (x * 16 + y) 4) :: hex_digit (Z.land (x * 16 + y) 15) :: hex rest).
    rewrite E1, E2, Z.div_add_l, Z.div_small, Z.add_0_r, Z.add_comm, Z_mod_plus_full, Z.mod_small
      by lia. by rewrite Hdx, Hdy, Hh.
Qed.

Lemma hex_lower (bytes : list Z) :
  Forall is_byte bytes →
  Forall (fun c => is_ascii_hexdigit c && negb (is_ascii_uppercase c) = true) (hex bytes).
Proof.
  induction 1 as [|b bytes Hb Hbs IH]; [done|]. destruct (nibbles b Hb) as [E1 E2].
  change (hex (b :: bytes)) with (hex_digit (Z.shiftr b 4) :: hex_digit (Z.land b 15) :: hex bytes).
  unfold is_byte in Hb. pose proof (Z.div_mod b 16). pose proof (Z.mod_pos_bound b 16).
  rewrite E1, E2. constructor; [apply hex_digit_lower; lia|].
  constructor; [apply hex_digit_lower; lia|done].
Qed.

Lemma hex_len (bytes : list Z) : len (hex bytes) = 2 * len bytes.
Proof.
  induction bytes as [|b bytes IH]; [done|].
  change (hex (b :: bytes)) with (hex_digit (Z.shiftr b 4) :: hex_digit (Z.land b 15) :: hex bytes).
  rewrite !len_cons, IH. lia.
Qed.

Lemma hex_inj (a b : list Z) : Forall is_byte a → Forall is_byte b → hex a = hex b → a = b.
Proof.
  intros Ha Hb E. apply parse_pairs_hex in Ha, Hb. rewrite E in Ha. congruence.
Qed.

(** ** Framing *)

Lemma to_be_bytes_inj (a b : Z) : in_u64 a → in_u64 b → to_be_bytes a = to_be_bytes b → a = b.
Proof.
  intros Ha Hb E. apply Z.bits_inj'. intros n Hn.
  destruct (Z.ltb_spec n 64) as [Hlt|Hge].
  2:{ assert (∀ z, in_u64 z → Z.testbit z n = false) as Hhigh; [|by rewrite !Hhigh].
      intros z [Hz0 Hz]. destruct (Z.eq_dec z 0) as [->|]; [apply Z.bits_0|].
      apply Z.bits_above_log2; [done|]. apply Z.log2_lt_pow2; [lia|].
      assert (2 ^ 64 ≤ 2 ^ n) by (apply Z.pow_le_mono_r; lia). unfold u64_max in Hz. lia. }
  assert (Z.land (Z.shiftr a (8 * (n / 8))) 255 = Z.land (Z.shiftr b (8 * (n / 8))) 255) as Hbyte.
  { unfold to_be_bytes in E. cbn [fmap list_fmap] in E. injection E as E7 E6 E5 E4 E3 E2 E1 E0.
    assert (n / 8 = 0 ∨ n / 8 = 1 ∨ n / 8 = 2 ∨ n / 8 = 3 ∨ n / 8 = 4 ∨ n / 8 = 5 ∨ n / 8 = 6
      ∨ n / 8 = 7) as Hd.
    { pose proof (Z.div_mod n 8). pose proof (Z.mod_pos_bound n 8). lia. }
    destruct_or! Hd; rewrite Hd; assumption. }
  apply (f_equal (fun z => Z.testbit z (n mod 8))) in Hbyte.
  pose proof (Z.mod_pos_bound n 8 ltac:(lia)). change 255 with (Z.ones 8) in Hbyte.
  pose proof (Z.div_pos n 8 Hn ltac:(lia)).
  rewrite !Z.land_spec, !Z.shiftr_spec, Z.ones_spec_low, !andb_true_r in Hbyte by lia.
  replace (n mod 8 + 8 * (n / 8)) with n in Hbyte by (pose proof (Z.div_mod n 8); lia). done.
Qed.

Lemma frame_app_inj (p q x y : list Z) :
  in_u64 (len p) → in_u64 (len q) → frame p ++ x = frame q ++ y → p = q ∧ x = y.
Proof.
  unfold frame. intros Hp Hq E. rewrite <- !app_assoc in E.
  apply app_inj_1 in E as [El E]; [|done].
  apply to_be_bytes_inj in El; [|done|done]. unfold len in El. apply app_inj_1 in E; [done|lia].
Qed.

Lemma frames_inj (ps qs : list (list Z)) :
  Forall (fun p => in_u64 (len p)) ps → Forall (fun p => in_u64 (len p)) qs →
  concat (frame <$> ps) = concat (frame <$> qs) → ps = qs.
Proof.
  intros Hps. revert qs. induction Hps as [|p ps Hp Hps IH]; intros [|q qs] Hqs E; [done|done|done|].
  cbn [fmap list_fmap concat] in E. inversion Hqs as [|? ? Hq Hqs']; subst.
  apply frame_app_inj in E as [-> E]; [|done|done]. f_equal. by apply IH.
Qed.

Lemma preimage_inj (d d' : str) (f f' : list (list Z)) :
  Forall (fun p => in_u64 (len p)) (d :: f) → Forall (fun p => in_u64 (len p)) (d' :: f') →
  preimage d f = preimage d' f' → d = d' ∧ f = f'.
Proof.
  intros Hf Hf' E. unfold preimage in E.
  assert (in_u64 (len (lit "dekopon-storage-domain-v1"))) as Hd by (vm_compute; split; discriminate).
  apply frames_inj in E; [by injection E as -> ->|by constructor|by constructor].
Qed.

Lemma token_hash (sha256 : list Z → list Z) (d d' : str) (f f' : list (list Z)) :
  (∀ x, Forall is_byte (sha256 x)) → token sha256 d f = token sha256 d' f' →
  sha256 (preimage d f) = sha256 (preimage d' f').
Proof. intros Hsha E. unfold token, digest in E. by apply hex_inj in E; [|apply Hsha|apply Hsha]. Qed.

(** ** Properties *)

(** What [TraceId_new] accepts from sixteen bytes. *)
Definition trace_ok (t : list Z) : Prop :=
  Forall is_byte t ∧ len t = 16 ∧ from_be_bytes t ≠ 0.

(** A text is accepted as a trace identifier exactly when it is the
    printed form of sixteen bytes that are not all zero, and it denotes those
    bytes: each trace has one spelling, and it round-trips. *)
Theorem trace_id_round_trip (v : str) (t : list Z) :
  TraceId_from_str v = Ok t ↔ trace_ok t ∧ v = TraceId_display t.
Proof.
  unfold TraceId_from_str, TraceId_display, TraceId_new, trace_ok. split.
  - destruct (len v =? TRACE_ID_HEX_DIGITS) eqn:Hl; [|done]. cbn [negb orb].
    destruct (forallb _ v) eqn:Hf; [|done]. cbn [negb]. intros (b & Hb & Ht)%result_bind_Ok.
    apply ok_or_Ok in Hb. apply forallb_true in Hf.
    destruct (hex_parse_pairs v Hf b Hb) as [Hh Hbytes].
    destruct (from_be_bytes b =? 0) eqn:Hz; [done|]. injection Ht as <-.
    apply Z.eqb_neq in Hz. apply Z.eqb_eq in Hl. rewrite <- Hh, hex_len in Hl.
    unfold TRACE_ID_HEX_DIGITS in Hl. split; [|done]. split; [done|]. split; [lia|done].
  - intros [(Hb & Hl & Hz) ->]. rewrite hex_len, Hl. cbn [negb orb Z.mul].
    rewrite (proj2 (forallb_true _ _)) by (by apply hex_lower). cbn [negb].
    change (2 * 16 =? TRACE_ID_HEX_DIGITS) with true. cbn [negb orb].
    rewrite parse_pairs_hex by done. cbn [ok_or result_bind].
    by rewrite (proj2 (Z.eqb_neq _ _)).
Qed.

(** Two different keys never share a token unless the hash collides: if
    the tokens of two pairs of domain and fields are equal and the pairs are
    not, the hash maps two different inputs to one output. Moving a field
    boundary or changing the domain changes what is hashed. *)
Theorem token_collision_is_hash_collision (sha256 : list Z → list Z) (d d' : str)
    (f f' : list (list Z)) :
  (∀ x, Forall is_byte (sha256 x)) →
  Forall (fun p => in_u64 (len p)) (d :: f) → Forall (fun p => in_u64 (len p)) (d' :: f') →
  (d, f) ≠ (d', f') → token sha256 d f = token sha256 d' f' →
  preimage d f ≠ preimage d' f' ∧ sha256 (preimage d f) = sha256 (preimage d' f').
Proof.
  intros Hsha Hf Hf' Hne Htok. split; [|by apply token_hash].
  intros E. apply Hne. by apply preimage_inj in E as [-> ->].
Qed.

(** ** Witnesses *)

Lemma token_collision_is_hash_collision_witness :
  preimage (lit "generation-token-v1") [lit "ab"; lit "c"]
  ≠ preimage (lit "generation-token-v1") [lit "a"; lit "bc"].
Proof.
  apply (token_collision_is_hash_collision (fun _ => [0; 1; 2; 255])).
  - intros _. unfold is_byte. repeat constructor; lia.
  - unfold in_u64, u64_max. repeat constructor; vm_compute; discriminate.
  - unfold in_u64, u64_max. repeat constructor; vm_compute; discriminate.
  - discriminate.
  - reflexivity.
Defined.
