(* ===== verification/Base64.v ===== *)
(** * Base64 of assets

    [dekopon-core/src/base64.rs]: the arithmetic of encoded lengths and
    offsets, and the validator that checks an encoded body as it is written,
    four bytes at a time, wherever the writes are cut.

    The engine of the [base64] crate is a parameter: [decode_slice] gives the
    number of bytes a quantum of four decodes to, if it does. *)

From Stdlib Require Import ZArith Lia Ascii String.
From stdpp Require Import base strings list numbers.
From S2P Require Import Prelude RustStr.

Inductive CodecError : Type := TooLarge | InvalidEncoding.

(** [u64::checked_mul]. *)
Definition checked_mul_u64 (a b : Z) : option Z := if a * b <=? u64_max then Some (a * b) else None.

Definition encoded_len (bytes : Z) : result CodecError Z :=
  let groups := bytes / 3 + (if bytes mod 3 =? 0 then 0 else 1) in
  ok_or (checked_mul_u64 groups 4) TooLarge.

Record ReadOffset : Type := mkOffset { encoded : Z; skip : Z }.

Definition read_offset (decoded : Z) : result CodecError ReadOffset :=
  let? encoded := ok_or (checked_mul_u64 (decoded / 3) 4) TooLarge in
  Ok (mkOffset encoded (decoded mod 3)).

(** The padding at the end of the tail. *)
Fixpoint take_while (p : Z → bool) (l : list Z) : list Z :=
  match l with [] => [] | c :: l => if p c then c :: take_while p l else [] end.

Definition decoded_len (stored : Z) (tail : list Z) : result CodecError Z :=
  if stored =? 0 then Ok 0
  else if negb (stored mod 4 =? 0) || negb (Z.of_nat (length tail) =? 2) then Err InvalidEncoding
  else
    let padding := Z.of_nat (length (take_while (fun b => b =? ch "=") (rev tail))) in
    ok_or
      (match checked_mul_u64 (stored / 4) 3 with
       | Some len => checked_sub_u64 len padding
       | None => None
       end) InvalidEncoding.

Record Validator : Type := mkValidator {
  quantum : list Z;
  filled : nat;
  padded : bool;
  invalid : bool;
  decoded : Z;
}.

Definition Validator_default : Validator := mkValidator [0; 0; 0; 0] 0 false false 0.

Section Codec.
Context (decode_slice : list Z → option Z).

(** One byte of [write]. *)
Definition write_byte (v : Validator) (byte : Z) : result CodecError unit * Validator :=
  if padded v then
    (Err InvalidEncoding, mkValidator (quantum v) (filled v) (padded v) true (decoded v))
  else
    let quantum := <[filled v := byte]> (quantum v) in
    let filled := S (filled v) in
    if (filled =? 4)%nat then
      match decode_slice quantum with
      | None => (Err InvalidEncoding, mkValidator quantum filled (padded v) true (decoded v))
      | Some len =>
          match checked_add_u64 (decoded v) len with
          | None => (Err TooLarge, mkValidator quantum filled (padded v) (invalid v) (decoded v))
          | Some decoded =>
              (Ok tt,
               mkValidator quantum 0 (is_some_and (quantum !! 3%nat) (Z.eqb (ch "="))) (invalid v)
                 decoded)
          end
      end
    else (Ok tt, mkValidator quantum filled (padded v) (invalid v) (decoded v)).

Fixpoint write_bytes (v : Validator) (bytes : list Z) : result CodecError unit * Validator :=
  match bytes with
  | [] => (Ok tt, v)
  | byte :: bytes =>
      match write_byte v byte with
      | (Ok _, v) => write_bytes v bytes
      | (Err e, v) => (Err e, v)
      end
  end.

Definition write (v : Validator) (bytes : list Z) : result CodecError unit * Validator :=
  if invalid v then (Err InvalidEncoding, v) else write_bytes v bytes.

Definition finish (v : Validator) : result CodecError unit :=
  if invalid v || negb (filled v =? 0)%nat then Err InvalidEncoding else Ok tt.

(** Any number of writes, up to the first that fails, and the end. *)
Fixpoint write_all (v : Validator) (chunks : list (list Z)) : result CodecError Validator :=
  match chunks with
  | [] => let? _ := finish v in Ok v
  | chunk :: chunks =>
      match write v chunk with
      | (Ok _, v) => write_all v chunks
      | (Err e, _) => Err e
      end
  end.

(** ** Specification

    The body is a sequence of quanta of four bytes that decode, of which only
    the last may end with padding. *)

Fixpoint valid_body (body : list Z) : option Z :=
  match body with
  | [] => Some 0
  | a :: b :: c :: d :: rest =>
      match decode_slice [a; b; c; d] with
      | None => None
      | Some len =>
          if (d =? ch "=") && negb (is_empty rest) then None
          else Z.add len <$> valid_body rest
      end
  | _ => None
  end.

(** The crate decodes a quantum to at most three bytes. *)
Hypothesis decode_slice_len : ∀ q len, decode_slice q = Some len → 0 ≤ len ≤ 3.

(** ** Lemmas *)

(** A validator that has read whole quanta and then the bytes [part]. *)
Definition holds (v : Validator) (part : list Z) : Prop :=
  invalid v = false ∧ length (quantum v) = 4%nat ∧ filled v = length part
  ∧ (length part < 4)%nat ∧ take (length part) (quantum v) = part ∧ (padded v = true → part = []).

(** What is left to read, after whole quanta. *)
Definition rest_len (v : Validator) (body : list Z) : option Z :=
  if padded v && negb (is_empty body) then None else valid_body body.

Lemma write_bytes_app (v : Validator) (a b : list Z) :
  write_bytes v (a ++ b)
  = match write_bytes v a with (Ok _, v') => write_bytes v' b | (Err e, v') => (Err e, v') end.
Proof.
  revert v. induction a as [|x a IH]; intros v; cbn; [done|].
  destruct (write_byte v x) as [[] v']; [apply IH|done].
Qed.

Lemma write_byte_keeps_valid (v v' : Validator) (byte : Z) :
  write_byte v byte = (Ok tt, v') → invalid v = false → invalid v' = false.
Proof. unfold write_byte. intros H Hi. repeat (dk_case; simplify_eq/=); done. Qed.

Lemma write_bytes_keeps_valid (v v' : Validator) (bytes : list Z) :
  write_bytes v bytes = (Ok tt, v') → invalid v = false → invalid v' = false.
Proof.
  revert v. induction bytes as [|x bytes IH]; intros v; cbn; [by intros [= <-]|].
  destruct (write_byte v x) as [[[]|] v1] eqn:Hx; [|done]. eauto using write_byte_keeps_valid.
Qed.

(** The cuts between writes do not matter. *)
Lemma write_all_flat (v : Validator) (chunks : list (list Z)) :
  invalid v = false →
  write_all v chunks
  = match write_bytes v (concat chunks) with
    | (Ok _, v') => let? _ := finish v' in Ok v'
    | (Err e, _) => Err e
    end.
Proof.
  revert v. induction chunks as [|chunk chunks IH]; intros v Hv; cbn [write_all concat]; [done|].
  unfold write. rewrite Hv, write_bytes_app.
  destruct (write_bytes v chunk) as [[[]|] v'] eqn:Hw; [|done]. by eapply IH, write_bytes_keeps_valid.
Qed.

(** A byte that does not complete a quantum. *)
Lemma holds_byte (v : Validator) (part : list Z) (x : Z) :
  holds v part → padded v = false → (length part < 3)%nat →
  ∃ v', write_byte v x = (Ok tt, v') ∧ holds v' (part ++ [x]) ∧ decoded v' = decoded v
    ∧ padded v' = false.
Proof.
  intros (Hi & Hq & Hf & _ & Ht & Hp) Hpad Hlen. unfold write_byte. rewrite Hpad, Hf.
  destruct (Nat.eqb_spec (S (length part)) 4); [lia|]. eexists. split; [done|].
  unfold holds. cbn. rewrite length_insert, length_app. cbn. rewrite Nat.add_1_r.
  split; [|done]. do 3 (split; [done|]). split; [lia|]. split; [|done].
  rewrite (take_S_r _ _ x) by (apply list_lookup_insert_eq; lia).
  by rewrite take_insert_ge, Ht by lia.
Qed.

(** A byte that completes one. *)
Lemma holds_quantum (v : Validator) (a b c x : Z) :
  holds v [a; b; c] → padded v = false → 0 ≤ decoded v → decoded v + 3 ≤ u64_max →
  match decode_slice [a; b; c; x] with
  | None => ∃ v', write_byte v x = (Err InvalidEncoding, v')
  | Some len =>
      ∃ v', write_byte v x = (Ok tt, v') ∧ holds v' [] ∧ decoded v' = decoded v + len
        ∧ padded v' = (x =? ch "=")
  end.
Proof.
  intros (Hi & Hq & Hf & _ & Ht & Hp) Hpad Hd Hu. unfold write_byte. rewrite Hpad, Hf. cbn [length].
  assert (<[3%nat := x]> (quantum v) = [a; b; c; x]) as ->.
  { destruct (quantum v) as [|q0 [|q1 [|q2 [|q3 [|q4 q]]]]]; cbn in Hq; try lia. cbn in *. congruence. }
  cbn [Nat.eqb]. destruct (decode_slice _) as [n|] eqn:Hdec; [|by eexists].
  apply decode_slice_len in Hdec. rewrite checked_add_u64_fits by lia. eexists. split; [done|].
  cbn. rewrite Z.eqb_sym. repeat split; cbn; done || lia.
Qed.

Lemma write_bytes_spec (bytes part : list Z) (v : Validator) :
  holds v part → 0 ≤ decoded v → decoded v + len part + len bytes ≤ u64_max →
  match rest_len v (part ++ bytes) with
  | Some n => ∃ v', write_bytes v bytes = (Ok tt, v') ∧ filled v' = 0%nat ∧ decoded v' = decoded v + n
  | None =>
      (∃ v', write_bytes v bytes = (Err InvalidEncoding, v'))
      ∨ ∃ v', write_bytes v bytes = (Ok tt, v') ∧ filled v' ≠ 0%nat
  end.
Proof.
  revert part v. induction bytes as [|x bytes IH]; intros part v Hv Hd Hu.
  { rewrite app_nil_r. cbn [write_bytes]. pose proof Hv as (_ & _ & Hf & Hl & _ & Hp). unfold rest_len.
    destruct part as [|a part].
    - rewrite andb_false_r. cbn. exists v. split; [done|]. split; [done|]. lia.
    - destruct (padded v); [by specialize (Hp eq_refl)|]. cbn [andb].
      destruct part as [|b [|c [|d part]]]; cbn in Hl; try lia;
        right; exists v; (split; [done|]); rewrite Hf; cbn; lia. }
  rewrite len_cons in Hu. cbn [write_bytes]. destruct (padded v) eqn:Hpad.
  { pose proof Hv as (_ & _ & _ & _ & _ & Hp). rewrite (Hp Hpad). unfold rest_len. rewrite Hpad. cbn.
    left. unfold write_byte. rewrite Hpad. by eexists. }
  assert ((length part < 3)%nat ∨ ∃ a b c, part = [a; b; c]) as [Hl|(a & b & c & ->)].
  { pose proof Hv as (_ & _ & _ & Hl & _). destruct part as [|a [|b [|c [|]]]]; cbn in *; eauto; lia. }
  - destruct (holds_byte v part x Hv Hpad Hl) as (v' & -> & Hv' & Hdv & Hpv).
    specialize (IH (part ++ [x]) v' Hv' ltac:(lia)). rewrite len_app, <- app_assoc in IH. cbn in IH.
    rewrite Hdv in IH. unfold rest_len in *. rewrite Hpad. rewrite Hpv in IH. cbn [andb] in *.
    apply IH. change (len [x]) with 1. lia.
  - pose proof (holds_quantum v a b c x Hv Hpad Hd) as Hq. change (len [a; b; c]) with 3 in Hu.
    specialize (Hq ltac:(pose proof (len_nonneg bytes); lia)).
    unfold rest_len. rewrite Hpad. cbn [andb app valid_body].
    destruct (decode_slice [a; b; c; x]) as [n|] eqn:Hdec.
    2:{ destruct Hq as (v' & ->). left. by eexists. }
    apply decode_slice_len in Hdec. destruct Hq as (v' & -> & Hv' & Hdv & Hpv).
    specialize (IH [] v' Hv' ltac:(lia) ltac:(change (len []) with 0; lia)). cbn [app] in IH.
    unfold rest_len in IH. rewrite Hpv in IH. destruct ((x =? ch "=") && negb (is_empty bytes)); [done|].
    destruct (valid_body bytes) as [m|]; cbn; [|done].
    destruct IH as (v2 & H1 & H2 & H3). exists v2. split; [done|]. split; [done|]. lia.
Qed.

(** ** Properties *)

(** A body is accepted by the validator exactly when it is a sequence of
    quanta that decode, of which only the last has padding, however the
    writes cut it; the length it then reports is the sum of what the quanta
    decode to; every other body is refused as invalid. *)
Theorem validator_ignores_cuts (chunks : list (list Z)) :
  len (concat chunks) ≤ u64_max →
  match valid_body (concat chunks) with
  | Some n => ∃ v, write_all Validator_default chunks = Ok v ∧ decoded v = n
  | None => write_all Validator_default chunks = Err InvalidEncoding
  end.
Proof.
  intros Hu. rewrite write_all_flat by done.
  assert (holds Validator_default []) as Hv by (repeat split; cbn; lia).
  pose proof (write_bytes_spec (concat chunks) [] Validator_default Hv ltac:(cbn; lia)) as H.
  cbn [app decoded Validator_default] in H. unfold rest_len in H. cbn [padded andb Validator_default] in H.
  specialize (H ltac:(change (len []) with 0; lia)).
  destruct (valid_body (concat chunks)) as [n|].
  - destruct H as (v & Hw & Hf & Hd). rewrite Hw. exists v. split; [|lia].
    unfold finish. by rewrite Hf, (write_bytes_keeps_valid _ _ _ Hw).
  - destruct H as [(v & ->)|(v & -> & Hf)]; [done|]. unfold finish.
    destruct (Nat.eqb_spec (filled v) 0); [done|]. by rewrite orb_true_r.
Qed.

End Codec.

Lemma checked_mul_Some (a b c : Z) : checked_mul_u64 a b = Some c ↔ c = a * b ∧ a * b ≤ u64_max.
Proof.
  unfold checked_mul_u64. destruct (Z.leb_spec (a * b) u64_max).
  - split; [by intros [= <-]|]. by intros [-> _].
  - split; [done|lia].
Qed.

Definition padding (tail : list Z) : Z :=
  Z.of_nat (length (take_while (fun b => b =? ch "=") (rev tail))).

(** The length of what an encoding stores gives back the length that was
    encoded, the padding at its end being what is missing to a multiple of
    three; and reading from an offset starts at a whole quantum and skips to
    that offset. Neither overflows where the encoded length does not. *)
Theorem encoded_lengths_invert (n m : Z) (tail : list Z) :
  0 ≤ n → encoded_len n = Ok m → length tail = 2%nat → padding tail = (- n) mod 3 →
  decoded_len m tail = Ok n
  ∧ ∃ o, read_offset n = Ok o ∧ encoded o mod 4 = 0 ∧ encoded o / 4 * 3 + skip o = n
    ∧ 0 ≤ skip o < 3 ∧ encoded o ≤ m.
Proof.
  intros Hn Hm Htl Hpad. unfold encoded_len in Hm. apply ok_or_Ok, checked_mul_Some in Hm as [-> Hu].
  pose proof (Z.div_mod n 3 ltac:(lia)) as Hd. pose proof (Z.mod_pos_bound n 3 ltac:(lia)) as Hr.
  set (q := n / 3) in *. set (r := n mod 3) in *.
  assert (padding tail = if r =? 0 then 0 else 3 - r) as Hp.
  { rewrite Hpad. destruct (Z.eqb_spec r 0) as [H0|H0].
    - apply Z.mod_opp_l_z; [lia|exact H0].
    - apply Z.mod_opp_l_nz; [lia|exact H0]. }
  set (g := q + if r =? 0 then 0 else 1) in *.
  assert (g * 3 - padding tail = n ∧ padding tail ≤ g * 3 ∧ 0 ≤ g) as (Hg & Hle & Hg0)
    by (rewrite Hp; unfold g; destruct (Z.eqb_spec r 0); lia).
  split.
  - unfold decoded_len. destruct (Z.eqb_spec (g * 4) 0) as [H0|H0].
    { f_equal. assert (g = 0) by lia. pose proof (Z.mod_pos_bound (- n) 3). lia. }
    rewrite Z.mod_mul, Htl by lia. cbn [Z.eqb negb orb Z.of_nat Pos.of_succ_nat Pos.succ Pos.eqb].
    rewrite Z.div_mul by lia. fold (padding tail).
    rewrite (proj2 (checked_mul_Some g 3 (g * 3))) by (split; [done|lia]).
    unfold checked_sub_u64. rewrite (proj2 (Z.leb_le _ _)) by done. cbn. by rewrite Hg.
  - unfold read_offset. fold q r.
    assert (q * 4 ≤ g * 4) as Hqg by (unfold g; destruct (r =? 0); lia).
    rewrite (proj2 (checked_mul_Some q 4 (q * 4))) by (split; [done|lia]). cbn.
    eexists. split; [done|]. cbn [encoded skip]. rewrite Z.mod_mul, Z.div_mul by lia. lia.
Qed.

(** ** Witnesses *)

(** The digits of the standard alphabet, and a quantum of them: no padding,
    one or two padding bytes with no bits left over. *)
Definition sextet (b : Z) : option Z :=
  if in_range 65 90 b then Some (b - 65)
  else if in_range 97 122 b then Some (b - 71)
  else if in_range 48 57 b then Some (b + 4)
  else if b =? 43 then Some 62 else if b =? 47 then Some 63 else None.

Definition standard_quantum (q : list Z) : option Z :=
  match q with
  | [a; b; c; d] =>
      match sextet a, sextet b, sextet c, sextet d with
      | Some _, Some _, Some _, Some _ => Some 3
      | Some _, Some _, Some c, None => if (d =? 61) && (c mod 4 =? 0) then Some 2 else None
      | Some _, Some b, None, None =>
          if (c =? 61) && (d =? 61) && (b mod 16 =? 0) then Some 1 else None
      | _, _, _, _ => None
      end
  | _ => None
  end.

Lemma standard_quantum_len (q : list Z) (n : Z) : standard_quantum q = Some n → 0 ≤ n ≤ 3.
Proof.
  unfold standard_quantum. destruct q as [|a [|b [|c [|d [|]]]]]; try done.
  destruct (sextet a), (sextet b), (sextet c), (sextet d); intros H; simplify_eq/=; try lia;
    destruct (_ && _); simplify_eq; lia.
Qed.

Lemma validator_ignores_cuts_witness :
  (∃ v, write_all standard_quantum Validator_default [lit "Zm9"; lit "vYm"; lit "E="] = Ok v
        ∧ decoded v = 5)
  ∧ write_all standard_quantum Validator_default [lit "Zg=="; lit "AAAA"] = Err InvalidEncoding.
Proof.
  split.
  - exact (validator_ignores_cuts standard_quantum standard_quantum_len
             [lit "Zm9"; lit "vYm"; lit "E="] ltac:(by vm_compute)).
  - exact (validator_ignores_cuts standard_quantum standard_quantum_len
             [lit "Zg=="; lit "AAAA"] ltac:(by vm_compute)).
Defined.

Lemma encoded_lengths_invert_witness : decoded_len 8 (lit "E=") = Ok 5.
Proof.
  apply (encoded_lengths_invert 5 8 (lit "E=")); [lia|reflexivity|reflexivity|reflexivity].
Defined.
