(* ===== verification/Sse.v ===== *)
(** * Server-sent events

    The framer of model responses ([dekopon-model/src/sse.rs]): [push] appends
    a chunk of the body, [fill] reads lines until an event is complete, and
    two loops drive it: [read_async_stream] over the chunks as they arrive and
    [decode_transcript] over a whole recorded body. A line of the body may be
    cut anywhere by the chunks, also inside a UTF-8 sequence.

    The callback is a function of a state of its own. [control.run] is the
    list of what it returns at each wait: a chunk, a failure of the transport,
    or the end of the turn; the end of the list is the end of the body.
    [Utf8Error] is a function of the bytes [from_utf8] refuses, which stand for
    it. Positions are [nat]; [framer_ok] keeps them in range, so no slice and
    no subtraction of the code can fail. *)

From Stdlib Require Import ZArith Lia.
From stdpp Require Import base strings list numbers.
From S2P Require Import Prelude RustStr.

Definition MAX_STREAM_BYTES : Z := 16 * 1024 * 1024.
Definition DONE : str := lit "[DONE]".

Inductive SseEvent : Type :=
| Data (data : str)
| Done.

Inductive Filled : Type := FilledPayload | FilledDone | FilledEof.

Inductive SseError (E : Type) : Type :=
| StreamTooLarge
| Utf8 (line : str)
| Interrupted (e : E)
| Transport (e : E)
| Refused (e : E).
Arguments StreamTooLarge {E}.
Arguments Utf8 {E} line.
Arguments Interrupted {E} e.
Arguments Transport {E} e.
Arguments Refused {E} e.

(** What a wait for the next part of the body ends with. *)
Inductive Next (E : Type) : Type :=
| Chunk (chunk : str)
| Failed (source : E)
| Stopped (e : E).
Arguments Chunk {E} chunk.
Arguments Failed {E} source.
Arguments Stopped {E} e.

Record SseFramer : Type := mkFramer {
  buffer : str;
  cursor : nat;
  scanned : nat;
  data : str;
  stream_bytes : Z;
  eof : bool;
  ended : bool;
}.

Definition framer_default : SseFramer := mkFramer [] 0 0 [] 0 false false.
Definition set_eof (f : SseFramer) : SseFramer :=
  mkFramer (buffer f) (cursor f) (scanned f) (data f) (stream_bytes f) true (ended f).
Definition set_data (f : SseFramer) (d : str) : SseFramer :=
  mkFramer (buffer f) (cursor f) (scanned f) d (stream_bytes f) (eof f) (ended f).

(** [iter().position(|byte| *byte == b'\n')]. *)
Fixpoint newline_position (s : str) : option nat :=
  match s with
  | [] => None
  | c :: s => if c =? 10 then Some 0%nat else S <$> newline_position s
  end.

Definition is_crlf (c : Z) : bool := (c =? 13) || (c =? 10).

Section Framer.
Context {E : Type}.

Definition push (f : SseFramer) (chunk : str) : result (SseError E) SseFramer :=
  let total := sat_add_u64 (stream_bytes f) (len chunk) in
  if MAX_STREAM_BYTES <? total then Err StreamTooLarge
  else if (length (buffer f) / 2 <? cursor f)%nat then
    Ok (mkFramer (drop (cursor f) (buffer f) ++ chunk) 0 (scanned f - cursor f) (data f) total
          (eof f) (ended f))
  else
    Ok (mkFramer (buffer f ++ chunk) (cursor f) (scanned f) (data f) total (eof f) (ended f)).

(** What one turn of the loop of [fill] does: return, or go on. *)
Inductive Turn : Type :=
| Return (r : result (SseError E) (option Filled)) (f : SseFramer)
| Continue (f : SseFramer).

(** The rest of the turn, once the end of the line is known. *)
Definition read_line (f : SseFramer) (stop : nat) : Turn :=
  let text := take (stop - cursor f) (drop (cursor f) (buffer f)) in
  if str_ok text then
    let line := trim_end_matches is_crlf text in
    let over := ended f || (stop =? cursor f)%nat in
    let next d over := mkFramer (buffer f) stop stop d (stream_bytes f) (eof f) over in
    if is_empty line then
      if is_empty (trim (data f)) then Continue (next [] over)
      else if str_eqb (trim (data f)) DONE then Return (Ok (Some FilledDone)) (next (data f) true)
      else Return (Ok (Some FilledPayload)) (next (data f) over)
    else
      match strip_prefix line (lit "data:") with
      | Some field =>
          Continue (next ((if is_empty (data f) then data f else data f ++ [10])
                          ++ trim_start field) over)
      | None => Continue (next (data f) over)
      end
  else Return (Err (Utf8 text)) f.

Definition fill_turn (f : SseFramer) : Turn :=
  if ended f then Return (Ok (Some FilledEof)) f
  else
    match newline_position (drop (scanned f) (buffer f)) with
    | Some index => read_line f (scanned f + index + 1)
    | None =>
        if eof f then read_line f (length (buffer f))
        else
          Return (Ok None)
            (mkFramer (buffer f) (cursor f) (length (buffer f)) (data f) (stream_bytes f) (eof f)
               (ended f))
    end.

Fixpoint fill_loop (fuel : nat) (f : SseFramer)
    : option (result (SseError E) (option Filled) * SseFramer) :=
  match fuel with
  | O => None
  | S fuel =>
      match fill_turn f with
      | Return r f => Some (r, f)
      | Continue f => fill_loop fuel f
      end
  end.

(** A turn that goes on takes a byte or sets [ended]. *)
Definition fill (f : SseFramer) : option (result (SseError E) (option Filled) * SseFramer) :=
  fill_loop (length (buffer f) + 2) f.

(** The callback: [Ok true] is [ControlFlow::Break]. *)
Context {S : Type} (on_event : SseEvent → S → result E bool * S).

Definition emit (event : SseEvent) (s : S) : result (SseError E) bool * S :=
  match on_event event s with
  | (Ok flow, s) => (Ok flow, s)
  | (Err e, s) => (Err (Refused e), s)
  end.

Definition outcome : Type := result (SseError E) unit * S.

Fixpoint read_loop (fuel : nat) (f : SseFramer) (stream : list (Next E)) (s : S)
    : option outcome :=
  match fuel with
  | O => None
  | Datatypes.S fuel =>
      match fill f with
      | None => None
      | Some (Err e, _) => Some (Err e, s)
      | Some (Ok (Some FilledEof), _) => Some (Ok tt, s)
      | Some (Ok (Some FilledDone), _) =>
          match emit Done s with
          | (Ok _, s) => Some (Ok tt, s)
          | (Err e, s) => Some (Err e, s)
          end
      | Some (Ok (Some FilledPayload), f) =>
          match emit (Data (trim (data f))) s with
          | (Err e, s) => Some (Err e, s)
          | (Ok true, s) => Some (Ok tt, s)
          | (Ok false, s) => read_loop fuel (set_data f []) stream s
          end
      | Some (Ok None, f) =>
          match stream with
          | Chunk chunk :: stream =>
              match push f chunk with
              | Ok f => read_loop fuel f stream s
              | Err e => Some (Err e, s)
              end
          | Failed source :: _ => Some (Err (Transport source), s)
          | Stopped e :: _ => Some (Err (Interrupted e), s)
          | [] => read_loop fuel (set_eof f) [] s
          end
      end
  end.

Definition chunk_bytes (n : Next E) : str := match n with Chunk c => c | _ => [] end.
Definition body (stream : list (Next E)) : str := concat (chunk_bytes <$> stream).

(** A turn of the loop takes a chunk, notes the end of the body, or hands on
    an event, which takes a line. *)
Definition read_async_stream (stream : list (Next E)) (s : S) : option outcome :=
  read_loop (length (body stream) + length stream + 5) framer_default stream s.

Fixpoint decode_loop (fuel : nat) (f : SseFramer) (s : S) : option outcome :=
  match fuel with
  | O => None
  | Datatypes.S fuel =>
      match fill f with
      | None => None
      | Some (Err e, _) => Some (Err e, s)
      | Some (Ok None, _) | Some (Ok (Some FilledEof), _) => Some (Ok tt, s)
      | Some (Ok (Some FilledDone), _) =>
          match emit Done s with
          | (Ok _, s) => Some (Ok tt, s)
          | (Err e, s) => Some (Err e, s)
          end
      | Some (Ok (Some FilledPayload), f) =>
          match emit (Data (trim (data f))) s with
          | (Err e, s) => Some (Err e, s)
          | (Ok true, s) => Some (Ok tt, s)
          | (Ok false, s) => decode_loop fuel (set_data f []) s
          end
      end
  end.

Definition decode_transcript (text : str) (s : S) : option outcome :=
  match push framer_default text with
  | Err e => Some (Err e, s)
  | Ok f => decode_loop (length text + 4) (set_eof f) s
  end.

(** ** Reference

    The same over the text that is left, a line at a time, with no buffer. *)

Definition take_line (text : str) : str * str :=
  match newline_position text with
  | Some index => (take (index + 1) text, drop (index + 1) text)
  | None => (text, [])
  end.

Fixpoint frames (n : nat) (text d : str) (over : bool) (s : S) : option outcome :=
  match n with
  | O => None
  | Datatypes.S n =>
      if over then Some (Ok tt, s)
      else
        let (raw, rest) := take_line text in
        if str_ok raw then
          let line := trim_end_matches is_crlf raw in
          if is_empty line then
            if is_empty (trim d) then frames n rest [] (is_empty raw) s
            else if str_eqb (trim d) DONE then
              match emit Done s with
              | (Ok _, s) => Some (Ok tt, s)
              | (Err e, s) => Some (Err e, s)
              end
            else
              match emit (Data (trim d)) s with
              | (Err e, s) => Some (Err e, s)
              | (Ok true, s) => Some (Ok tt, s)
              | (Ok false, s) => frames n rest [] (is_empty raw) s
              end
          else
            match strip_prefix line (lit "data:") with
            | Some field =>
                frames n rest ((if is_empty d then d else d ++ [10]) ++ trim_start field)
                  (is_empty raw) s
            | None => frames n rest d (is_empty raw) s
            end
        else Some (Err (Utf8 raw), s)
  end.

(** ** Lemmas *)

Definition rest (f : SseFramer) : str := drop (cursor f) (buffer f).

Definition framer_ok (f : SseFramer) : Prop :=
  (cursor f ≤ scanned f ≤ length (buffer f))%nat
  ∧ newline_position (take (scanned f - cursor f) (rest f)) = None.

Lemma newline_position_app (a b : str) :
  newline_position (a ++ b)
  = match newline_position a with
    | Some i => Some i
    | None => Nat.add (length a) <$> newline_position b
    end.
Proof.
  induction a as [|c a IH]; cbn; [by destruct (newline_position b)|].
  destruct (c =? 10); [done|]. rewrite IH.
  destruct (newline_position a); [done|]. by destruct (newline_position b).
Qed.

Lemma newline_position_lt (a : str) (i : nat) : newline_position a = Some i → (i < length a)%nat.
Proof.
  revert i. induction a as [|c a IH]; intros i; cbn; [done|]. destruct (c =? 10); [intros [= <-]; lia|].
  destruct (newline_position a) as [j|]; [|done]. intros [= <-]. specialize (IH j eq_refl). lia.
Qed.

Lemma take_line_le (text : str) :
  let (raw, rest) := take_line text in
  (length raw + length rest = length text)%nat ∧ (raw = [] → text = []).
Proof.
  unfold take_line. destruct (newline_position text) as [i|] eqn:Hi; [|cbn; auto with lia].
  apply newline_position_lt in Hi. rewrite length_take, length_drop. split; [lia|].
  destruct text; [done|]. by rewrite Nat.add_comm.
Qed.

(** The reference ends: a line is taken or the text is over. *)
Lemma frames_total (n : nat) (text d : str) (over : bool) (s : S) :
  (length text + (if over then 0 else 1) < n)%nat → is_Some (frames n text d over s).
Proof.
  revert text d over s. induction n as [|n IH]; intros text d over s Hn; [lia|].
  cbn [frames]. destruct over; [done|]. pose proof (take_line_le text) as Ht.
  destruct (take_line text) as [raw rest]. destruct Ht as [Hl Hr].
  assert (∀ d s, is_Some (frames n rest d (is_empty raw) s)) as Hgo.
  { intros d' s'. apply IH. destruct raw; cbn in *; [rewrite Hr in Hl by done; cbn in *|]; lia. }
  repeat (dk_case; eauto).
Qed.

(** A line of the buffer is the line of the text left. *)
Lemma read_line_frames (n : nat) (f : SseFramer) (stop : nat) (fut : str) (s : S) :
  ended f = false → (cursor f ≤ stop ≤ length (buffer f))%nat →
  take_line (rest f ++ fut) = (take (stop - cursor f) (rest f), drop stop (buffer f) ++ fut) →
  frames (Datatypes.S n) (rest f ++ fut) (data f) (ended f) s
  = match read_line f stop with
    | Continue f' => frames n (rest f' ++ fut) (data f') (ended f') s
    | Return (Ok (Some FilledDone)) _ =>
        match emit Done s with
        | (Ok _, s) => Some (Ok tt, s)
        | (Err e, s) => Some (Err e, s)
        end
    | Return (Ok (Some FilledPayload)) f' =>
        match emit (Data (trim (data f'))) s with
        | (Err e, s) => Some (Err e, s)
        | (Ok true, s) => Some (Ok tt, s)
        | (Ok false, s) => frames n (rest f' ++ fut) [] (ended f') s
        end
    | Return (Err e) _ => Some (Err e, s)
    | Return (Ok _) _ => None
    end.
Proof.
  intros He Hstop Hline. cbn [frames]. rewrite He, Hline. unfold read_line.
  fold (rest f). rewrite He. cbn [orb].
  assert (is_empty (take (stop - cursor f) (rest f)) = (stop =? cursor f)%nat) as ->.
  { pose proof (length_take (rest f) (stop - cursor f)) as Hl. unfold rest in *.
    rewrite length_drop in Hl. destruct (Nat.eqb_spec stop (cursor f)) as [->|];
      destruct (take _ _); cbn in *; done || lia. }
  destruct (str_ok _); [|done].
  destruct (is_empty (trim_end_matches _ _)).
  - destruct (is_empty (trim (data f))); [done|]. by destruct (str_eqb _ _).
  - by destruct (strip_prefix _ _).
Qed.

Lemma rest_scanned (f : SseFramer) :
  (cursor f ≤ scanned f)%nat →
  rest f = take (scanned f - cursor f) (rest f) ++ drop (scanned f) (buffer f).
Proof.
  intros H. unfold rest. rewrite <- (take_drop (scanned f - cursor f) (drop (cursor f) (buffer f))) at 1.
  by rewrite drop_drop, Nat.add_comm, Nat.sub_add.
Qed.

(** What a turn finds next: the end of a line in the buffer, the end of the
    body, or nothing yet. *)
Lemma newline_rest (f : SseFramer) (index : nat) (fut : str) :
  framer_ok f → newline_position (drop (scanned f) (buffer f)) = Some index →
  let stop := (scanned f + index + 1)%nat in
  (cursor f < stop ≤ length (buffer f))%nat
  ∧ take_line (rest f ++ fut) = (take (stop - cursor f) (rest f), drop stop (buffer f) ++ fut).
Proof.
  intros [Hr Hn] Hi. pose proof (newline_position_lt _ _ Hi) as Hlt. rewrite length_drop in Hlt.
  cbn zeta. split; [lia|].
  assert (newline_position (rest f) = Some (scanned f - cursor f + index)%nat) as Hp.
  { rewrite rest_scanned by lia. rewrite newline_position_app, Hn, Hi. cbn. f_equal.
    unfold rest. rewrite length_take, length_drop. lia. }
  pose proof (newline_position_lt _ _ Hp) as Hlt'.
  unfold take_line. rewrite newline_position_app, Hp.
  rewrite take_app_le, drop_app_le by lia. unfold rest. rewrite drop_drop. f_equal; [|f_equal];
    f_equal; lia.
Qed.

Lemma no_newline_rest (f : SseFramer) :
  framer_ok f → newline_position (drop (scanned f) (buffer f)) = None →
  newline_position (rest f) = None.
Proof. intros [Hr Hn] Hi. rewrite rest_scanned by lia. by rewrite newline_position_app, Hn, Hi. Qed.

Lemma end_rest (f : SseFramer) :
  newline_position (rest f) = None →
  let stop := length (buffer f) in
  take_line (rest f ++ []) = (take (stop - cursor f) (rest f), drop stop (buffer f) ++ []).
Proof.
  intros Hn. cbn. unfold take_line. rewrite !app_nil_r, Hn.
  rewrite take_ge, drop_all by (unfold rest; rewrite length_drop; lia). done.
Qed.

(** A line that was read leaves a framer in order, nearer to its end. *)
Lemma read_line_ok (f : SseFramer) (stop : nat) :
  framer_ok f → ended f = false → (cursor f ≤ stop ≤ length (buffer f))%nat →
  match read_line f stop with
  | Continue f' =>
      framer_ok f' ∧ eof f' = eof f ∧ stream_bytes f' = stream_bytes f
      ∧ (length (rest f') + (if ended f' then 0 else 1) < length (rest f) + 1)%nat
  | Return _ f' => framer_ok f' ∧ eof f' = eof f ∧ stream_bytes f' = stream_bytes f
  end.
Proof.
  intros Hok He Hstop.
  assert (∀ d over, framer_ok (mkFramer (buffer f) stop stop d (stream_bytes f) (eof f) over)) as Hn.
  { intros d over. unfold framer_ok, rest. cbn. rewrite Nat.sub_diag. by split; [lia|]. }
  assert (∀ d, let f' := mkFramer (buffer f) stop stop d (stream_bytes f) (eof f)
                 (stop =? cursor f)%nat in
    (length (rest f') + (if ended f' then 0 else 1) < length (rest f) + 1)%nat) as Hm.
  { intros d. unfold rest. cbn. rewrite !length_drop. destruct (Nat.eqb_spec stop (cursor f)); lia. }
  unfold read_line. rewrite He. cbn [orb]. cbn zeta in Hm.
  destruct (str_ok _); [|done]. destruct (is_empty (trim_end_matches _ _)).
  - destruct (is_empty (trim (data f))); [by auto|]. by destruct (str_eqb _ _); auto.
  - by destruct (strip_prefix _ _); auto.
Qed.

Definition after (n : nat) (r : result (SseError E) (option Filled)) (f : SseFramer) (fut : str)
    (s : S) (o : outcome) : Prop :=
  match r with
  | Err e => o = (Err e, s)
  | Ok (Some FilledEof) => o = (Ok tt, s)
  | Ok (Some FilledDone) =>
      o = match emit Done s with (Ok _, s) => (Ok tt, s) | (Err e, s) => (Err e, s) end
  | Ok (Some FilledPayload) =>
      match emit (Data (trim (data f))) s with
      | (Err e, s) => o = (Err e, s)
      | (Ok true, s) => o = (Ok tt, s)
      | (Ok false, s) =>
          ∃ n', (n' < n)%nat ∧ frames n' (rest f ++ fut) [] (ended f) s = Some o
      end
  | Ok None =>
      eof f = false ∧ ∃ n', (n' ≤ n)%nat ∧ frames n' (rest f ++ fut) (data f) (ended f) s = Some o
  end.

Lemma after_mono (n m : nat) r f fut s o : (n ≤ m)%nat → after n r f fut s o → after m r f fut s o.
Proof.
  intros Hnm. unfold after. destruct r as [[[]|]|]; try done.
  - destruct (emit _ s) as [[[]|] s']; try done. intros (n' & ? & ?). exists n'. auto with lia.
  - intros (? & n' & ? & ?). split; [done|]. exists n'. auto with lia.
Qed.

(** What a line that was read returns, against the reference. *)
Lemma read_line_after (n : nat) (f : SseFramer) (stop : nat) (fut : str) (s : S) (o : outcome) r f' :
  ended f = false → (cursor f ≤ stop ≤ length (buffer f))%nat →
  take_line (rest f ++ fut) = (take (stop - cursor f) (rest f), drop stop (buffer f) ++ fut) →
  frames (Datatypes.S n) (rest f ++ fut) (data f) (ended f) s = Some o →
  read_line f stop = Return r f' → after (Datatypes.S n) r f' fut s o.
Proof.
  intros He Hstop Hline Hf Hr. rewrite (read_line_frames n f stop) in Hf by done. rewrite Hr in Hf.
  unfold after. destruct r as [[[]|]|]; try done; simplify_eq/=; try done.
  - destruct (emit _ s) as [[[]|] s']; simplify_eq/=; try done. exists n. auto with lia.
  - by destruct (emit Done s) as [[]?]; simplify_eq/=.
Qed.

Lemma fill_loop_frames (n k : nat) (f : SseFramer) (fut : str) (s : S) (o : outcome) :
  framer_ok f → (eof f = true → fut = []) →
  frames n (rest f ++ fut) (data f) (ended f) s = Some o →
  (length (rest f) + (if ended f then 0 else 1) < k)%nat →
  ∃ r f', fill_loop k f = Some (r, f') ∧ framer_ok f' ∧ eof f' = eof f
    ∧ stream_bytes f' = stream_bytes f ∧ after n r f' fut s o.
Proof.
  revert k f. induction n as [|n IH]; intros k f Hok Heof Hf Hk; [done|].
  destruct k as [|k]; [lia|]. cbn [fill_loop]. unfold fill_turn.
  destruct (ended f) eqn:He.
  { cbn in Hf. injection Hf as <-. by exists (Ok (Some FilledEof)), f. }
  assert (∀ stop, (cursor f ≤ stop ≤ length (buffer f))%nat →
    take_line (rest f ++ fut) = (take (stop - cursor f) (rest f), drop stop (buffer f) ++ fut) →
    ∃ r f', match read_line f stop with Return r f => Some (r, f) | Continue f => fill_loop k f end
            = Some (r, f') ∧ framer_ok f' ∧ eof f' = eof f
            ∧ stream_bytes f' = stream_bytes f ∧ after (Datatypes.S n) r f' fut s o) as Hstep.
  { intros stop Hstop Hline. pose proof (read_line_ok f stop Hok He Hstop) as Ho.
    rewrite <- He in Hf. destruct (read_line f stop) as [r f'|f'] eqn:Hr.
    - exists r, f'. destruct Ho as (? & ? & ?). do 4 (split; [done|]).
      by eapply read_line_after.
    - destruct Ho as (Hok' & Heof' & Hb & Hm). rewrite (read_line_frames n f stop), Hr in Hf by done.
      destruct (IH k f' Hok' ltac:(by rewrite Heof') Hf ltac:(lia)) as (r & f2 & ? & ? & ? & ? & Ha).
      exists r, f2. rewrite <- Hb, <- Heof'. do 4 (split; [done|]). by eapply after_mono; [|exact Ha]; lia. }
  destruct (newline_position _) as [index|] eqn:Hp.
  - destruct (newline_rest f index fut Hok Hp) as [Hr Hl]. apply Hstep; [lia|exact Hl].
  - pose proof (no_newline_rest f Hok Hp) as Hn. destruct (eof f) eqn:Hee.
    + rewrite Heof in * by done. destruct Hok as [? _]. apply Hstep; [lia|]. by apply end_rest.
    + eexists _, _. split; [done|]. destruct Hok as [Hr _]. cbn.
      unfold framer_ok, rest in *. cbn.
      split; [split; [lia|by rewrite take_ge by (rewrite length_drop; lia)]|].
      do 2 (split; [done|]). split; [done|]. exists (Datatypes.S n). split; [lia|]. done.
Qed.

Lemma fill_frames (n : nat) (f : SseFramer) (fut : str) (s : S) (o : outcome) :
  framer_ok f → (eof f = true → fut = []) →
  frames n (rest f ++ fut) (data f) (ended f) s = Some o →
  ∃ r f', fill f = Some (r, f') ∧ framer_ok f' ∧ eof f' = eof f
    ∧ stream_bytes f' = stream_bytes f ∧ after n r f' fut s o.
Proof.
  intros Hok Heof Hf. apply fill_loop_frames; try done. unfold rest. rewrite length_drop.
  destruct (ended f); lia.
Qed.

(** A chunk that fits is appended to the text left. *)
Lemma push_ok (f : SseFramer) (chunk : str) :
  framer_ok f → 0 ≤ stream_bytes f → stream_bytes f + len chunk ≤ MAX_STREAM_BYTES →
  ∃ f', push f chunk = Ok f' ∧ framer_ok f' ∧ rest f' = rest f ++ chunk ∧ data f' = data f
    ∧ ended f' = ended f ∧ eof f' = eof f ∧ stream_bytes f' = stream_bytes f + len chunk.
Proof.
  intros [Hr Hn] Hb Hfit. unfold push. assert (sat_add_u64 (stream_bytes f) (len chunk)
    = stream_bytes f + len chunk) as -> by (unfold MAX_STREAM_BYTES in *; dk_arith).
  rewrite (proj2 (Z.ltb_ge _ _)) by done.
  assert (∀ k, (k ≤ length (rest f))%nat → take k (rest f ++ chunk) = take k (rest f)) as Ht.
  { intros k Hk. by rewrite take_app_le. }
  assert (scanned f - cursor f ≤ length (rest f))%nat as Hs by (unfold rest; rewrite length_drop; lia).
  destruct (_ <? _)%nat; eexists; (split; [done|]); unfold framer_ok, rest in *; cbn.
  - rewrite drop_0, Nat.sub_0_r, length_app, Ht by done. auto 10 with lia.
  - rewrite drop_app_le, length_app, Ht by lia. auto 10 with lia.
Qed.

Definition is_chunk (n : Next E) : Prop := match n with Chunk _ => True | _ => False end.

Lemma read_loop_frames (m n : nat) (f : SseFramer) (stream : list (Next E)) (s : S) (o : outcome) :
  framer_ok f → Forall is_chunk stream → 0 ≤ stream_bytes f →
  stream_bytes f + len (body stream) ≤ MAX_STREAM_BYTES → (eof f = true → stream = []) →
  frames n (rest f ++ body stream) (data f) (ended f) s = Some o →
  (n + length stream + (if eof f then 0 else 1) < m)%nat →
  read_loop m f stream s = Some o.
Proof.
  revert n f stream s. induction m as [|m IH]; intros n f stream s Hok Hc Hb Hfit Heof Hf Hm; [lia|].
  assert (eof f = true → body stream = []) as Heof' by (intros ->%Heof; done).
  destruct (fill_frames n f (body stream) s o Hok Heof' Hf)
    as (r & f' & Hfill & Hok' & He' & Hb' & Ha).
  cbn [read_loop]. rewrite Hfill. destruct r as [[[]|]|e]; cbn [after] in Ha.
  - destruct (emit _ s) as [[[]|] s']; try by subst. destruct Ha as (n' & Hn' & Hf').
    apply (IH n'); cbn; rewrite ?He', ?Hb'; first [exact Hok'|done|lia].
  - destruct (emit Done s) as [[] s']; by subst.
  - by subst.
  - destruct Ha as (He2 & n' & Hn' & Hf'). destruct stream as [|x stream].
    + rewrite <- He', He2 in Hm. cbn in Hm.
      apply (IH n'); cbn; rewrite ?Hb'; first [exact Hok'|done|lia].
    + inversion Hc as [|? ? Hx Hc']; subst. destruct x as [chunk| |]; try done.
      change (body (Chunk chunk :: stream)) with (chunk ++ body stream) in *.
      rewrite len_app in Hfit. pose proof (len_nonneg (body stream)).
      destruct (push_ok f' chunk Hok' ltac:(lia) ltac:(lia))
        as (f2 & -> & Hok2 & Hr2 & Hd2 & Hn2 & He3 & Hb2).
      pose proof (len_nonneg chunk).
      apply (IH n'); try done; try lia.
      * congruence.
      * by rewrite Hr2, Hd2, Hn2, <- app_assoc.
      * rewrite He3, He'. cbn in *. destruct (eof f); [by specialize (Heof eq_refl)|lia].
  - by subst.
Qed.

Lemma decode_loop_frames (m n : nat) (f : SseFramer) (s : S) (o : outcome) :
  framer_ok f → eof f = true → frames n (rest f) (data f) (ended f) s = Some o → (n < m)%nat →
  decode_loop m f s = Some o.
Proof.
  revert n f s. induction m as [|m IH]; intros n f s Hok Heof Hf Hm; [lia|].
  rewrite <- (app_nil_r (rest f)) in Hf.
  destruct (fill_frames n f [] s o Hok ltac:(done) Hf) as (r & f' & Hfill & Hok' & He' & _ & Ha).
  cbn [decode_loop]. rewrite Hfill. destruct r as [[[]|]|e]; cbn [after] in Ha.
  - destruct (emit _ s) as [[[]|] s']; try by subst. destruct Ha as (n' & Hn' & Hf').
    rewrite app_nil_r in Hf'. apply (IH n'); cbn; rewrite ?He'; first [exact Hok'|done|lia].
  - destruct (emit Done s) as [[] s']; by subst.
  - by subst.
  - destruct Ha as [He2 _]. congruence.
  - by subst.
Qed.

Lemma framer_default_ok : framer_ok framer_default.
Proof. by vm_compute; split; [lia|]. Qed.

(** Either loop over a body that fits does what the reference does. *)
Lemma transcript_frames (text : str) (s : S) (o : outcome) :
  len text ≤ MAX_STREAM_BYTES → frames (length text + 2) text [] false s = Some o →
  decode_transcript text s = Some o.
Proof.
  intros Hfit Hf. unfold decode_transcript.
  destruct (push_ok framer_default text framer_default_ok ltac:(cbn; lia) ltac:(cbn; lia))
    as (f & -> & Hok & Hr & Hd & Hn & He & _).
  apply (decode_loop_frames _ (length text + 2)); [done|done| |lia].
  unfold rest in *. cbn. rewrite Hr, Hd, Hn. done.
Qed.

Lemma stream_frames (stream : list (Next E)) (s : S) (o : outcome) :
  Forall is_chunk stream → len (body stream) ≤ MAX_STREAM_BYTES →
  frames (length (body stream) + 2) (body stream) [] false s = Some o →
  read_async_stream stream s = Some o.
Proof.
  intros Hc Hfit Hf. apply (read_loop_frames _ (length (body stream) + 2)); try done. cbn. lia.
Qed.

(** ** Properties *)

(** C38: the events of a response do not depend on how its body was cut into
    chunks: for every callback, reading the chunks as they arrive makes the
    same calls in the same order, with the same result, as decoding the whole
    body; both loops end. A body over the bound is refused before any event of
    the transcript. *)
Theorem chunking_is_invisible (stream : list (Next E)) (s : S) :
  Forall is_chunk stream →
  (len (body stream) ≤ MAX_STREAM_BYTES →
   is_Some (decode_transcript (body stream) s)
   ∧ read_async_stream stream s = decode_transcript (body stream) s)
  ∧ (MAX_STREAM_BYTES < len (body stream) →
     decode_transcript (body stream) s = Some (Err StreamTooLarge, s)).
Proof.
  intros Hc. split.
  - intros Hfit. destruct (frames_total (length (body stream) + 2) (body stream) [] false s)
      as [o Ho]; [lia|].
    rewrite (transcript_frames _ s o), (stream_frames _ s o) by done. done.
  - intros Hbig. unfold decode_transcript, push. rewrite (proj2 (Z.ltb_lt _ _)); [done|].
    cbn [stream_bytes framer_default]. unfold MAX_STREAM_BYTES in *. dk_arith.
Qed.

End Framer.

(** ** Witness *)

(** A callback that keeps the events. *)
Definition collect (event : SseEvent) (s : list SseEvent) : result unit bool * list SseEvent :=
  (Ok false, s ++ [event]).

(** Comments, joined lines, a tangerine cut into its bytes, the mark of the
    end and what follows it. *)
Definition demo_body : str :=
  lit ": ignored" ++ [13; 10] ++ lit "event: message" ++ [13; 10] ++ lit "data: {" ++ [13; 10]
  ++ lit "data: x" ++ [240; 159; 141; 138] ++ lit "}" ++ [13; 10; 13; 10]
  ++ lit "data: [DONE]" ++ [10; 10] ++ lit "data: ignored" ++ [10; 10].

Definition demo_stream : list (Next unit) := (fun b => Chunk [b]) <$> demo_body.

Lemma chunking_is_invisible_witness :
  read_async_stream collect demo_stream []
  = Some (Ok tt, [Data (lit "{" ++ [10] ++ lit "x" ++ [240; 159; 141; 138] ++ lit "}"); Done]).
Proof.
  assert (Forall is_chunk demo_stream) as Hc.
  { unfold demo_stream. apply Forall_fmap, Forall_true. intros b. exact I. }
  destruct (chunking_is_invisible collect demo_stream [] Hc) as [H _].
  destruct H as [_ H]; [by vm_compute|]. rewrite H. vm_compute. reflexivity.
Defined.
