(* ===== verification/ProcessTree.v ===== *)
(** * The budget of a process tree

    [dekopon-process/src/tree.rs] and [Budget] of [dekopon-shell/src/limits.rs]:
    the threads of a script share counters of steps, of retained bytes and of
    capability calls, each an atomic number that is changed only by one
    [fetch_update] or [fetch_sub]. [Shared] is those counters and a method is
    a function on them; [tree_step] interleaves the methods of all threads.

    The clock, the cancellation signals and the script timer are read from an
    [Env], what they show at that moment. *)

From Stdlib Require Import ZArith Lia.
From stdpp Require Import base list numbers relations.
From S2P Require Import Prelude.

Record Limits : Type := mkLimits {
  max_steps : Z;
  max_recursion_depth : Z;
  max_output_bytes : Z;
  max_output_lines : Z;
  timeout : Z;
  max_capability_calls : Z;
  max_value_bytes : Z;
}.

Definition Limits_default : Limits :=
  mkLimits 100000 32 (256 * 1024) 2000 (dur_from_secs 30) 32 (32 * 1024 * 1024).

Inductive LimitExceeded : Type :=
| Steps (maximum : Z)
| RecursionDepth (maximum : Z)
| Deadline (timeout_ms : Z)
| CapabilityCalls (maximum : Z)
| ValueBytes (maximum : Z)
| ShellThreads (maximum : Z)
| Cancelled.

(** [CallBudget]: a counter shared by every script it is handed to, so a tree
    may start with calls already counted in it. *)
Record CallBudget : Type := mkCallBudget {
  calls_used : Z;
  calls_limit : Z;
}.

Definition CallBudget_new (maximum : Z) : CallBudget := mkCallBudget 0 maximum.

(** The atomic counters. *)
Record Shared : Type := mkShared {
  steps : Z;
  retained : Z;
  used : Z;
}.

(** [Instant]s are nanoseconds; [Instant::checked_add] fails past [i64] seconds. *)
Definition Instant_max : Z := i64_max * 1000000000 + 999999999.

Record TreeContext : Type := mkTree {
  deadline : Z;
  calls_maximum : Z;
  tree_limits : Limits;
}.

Record Env : Type := mkEnv {
  now : Z;
  is_cancelled : bool;
  script_timer_elapsed : bool;
}.

Record RetainedBytes : Type := mkRetained {
  held : Z;
  held_maximum : Z;
}.

Definition TreeContext_new (limits : Limits) (calls : CallBudget) (started : Z)
    : TreeContext * Shared :=
  (mkTree (if started + timeout limits <=? Instant_max then started + timeout limits else started)
     (calls_limit calls) limits,
   mkShared 0 0 (calls_used calls)).

(** [fetch_update] with [checked_add(n).filter(|next| *next <= maximum)]. *)
Definition fetch_add_up_to (top maximum counter n : Z) : option Z :=
  let next := counter + n in
  if (next <=? top) && (next <=? maximum) then Some next else None.

Definition set_steps (s : Shared) (n : Z) : Shared := mkShared n (retained s) (used s).
Definition set_retained (s : Shared) (n : Z) : Shared := mkShared (steps s) n (used s).
Definition set_used (s : Shared) (n : Z) : Shared := mkShared (steps s) (retained s) n.

Definition CallBudget_charge (t : TreeContext) (s : Shared)
    : result LimitExceeded unit * Shared :=
  match fetch_add_up_to u32_max (calls_maximum t) (used s) 1 with
  | Some next => (Ok tt, set_used s next)
  | None => (Err (CapabilityCalls (calls_maximum t)), s)
  end.

(** [fetch_sub] wraps. *)
Definition CallBudget_refund (s : Shared) : Shared :=
  set_used s ((used s - 1) mod (u32_max + 1)).

Definition timeout_ms (t : TreeContext) : Z := dur_as_millis (timeout (tree_limits t)).

Definition Tree_charge_step (t : TreeContext) (e : Env) (s : Shared)
    : result LimitExceeded unit * Shared :=
  if is_cancelled e then (Err Cancelled, s)
  else if script_timer_elapsed e then (Err (Deadline (timeout_ms t)), s)
  else
    match fetch_add_up_to u64_max (max_steps (tree_limits t)) (steps s) 1 with
    | Some next => (Ok tt, set_steps s next)
    | None => (Err (Steps (max_steps (tree_limits t))), s)
    end.

Definition retain (t : TreeContext) (n : Z) (s : Shared)
    : result LimitExceeded RetainedBytes * Shared :=
  let maximum := max_value_bytes (tree_limits t) in
  match fetch_add_up_to u64_max maximum (retained s) n with
  | Some next => (Ok (mkRetained n maximum), set_retained s next)
  | None => (Err (ValueBytes maximum), s)
  end.

Definition RetainedBytes_shrink (r : RetainedBytes) (n : Z) (s : Shared) : RetainedBytes * Shared :=
  (mkRetained (wrap_u64 (held r - n)) (held_maximum r),
   set_retained s (wrap_u64 (retained s - n))).

Definition RetainedBytes_grow (r : RetainedBytes) (n : Z) (s : Shared)
    : result LimitExceeded RetainedBytes * Shared :=
  match fetch_add_up_to u64_max (held_maximum r) (retained s) n with
  | Some next => (Ok (mkRetained (wrap_u64 (held r + n)) (held_maximum r)), set_retained s next)
  | None => (Err (ValueBytes (held_maximum r)), s)
  end.

Definition RetainedBytes_drop (r : RetainedBytes) (s : Shared) : Shared :=
  set_retained s (wrap_u64 (retained s - held r)).

Definition check_deadline (t : TreeContext) (e : Env) : result LimitExceeded unit :=
  if (deadline t <=? now e) || script_timer_elapsed e then Err (Deadline (timeout_ms t)) else Ok tt.

Definition expired (t : TreeContext) (e : Env) : bool := deadline t <=? now e.

(** [Budget::charge_step] counts the step before it reads the deadline. *)
Definition Budget_charge_step (t : TreeContext) (e e' : Env) (s : Shared)
    : result LimitExceeded unit * Shared :=
  match Tree_charge_step t e s with
  | (Err x, s) => (Err x, s)
  | (Ok _, s) => (check_deadline t e', s)
  end.

(** ** All threads of a tree

    The guards alive, the capability calls this tree charged and did not
    refund, the steps granted so far, and the calls the call budget counts for
    others: those before the tree began, and those of other trees that charge
    and refund the same budget meanwhile. A refund follows the charge it takes
    back, and a guard is shrunk by no more than it holds. *)

Record Sys : Type := mkSys {
  shared : Shared;
  guards : list RetainedBytes;
  outstanding : nat;
  granted : nat;
  elsewhere : nat;
}.

Section Tree.
Context (t : TreeContext).

Inductive tree_step : Sys → Sys → Prop :=
| ts_step s gs o g w e s' :
    Tree_charge_step t e s = (Ok tt, s') → tree_step (mkSys s gs o g w) (mkSys s' gs o (S g) w)
| ts_step_refused s gs o g w e x s' :
    Tree_charge_step t e s = (Err x, s') → tree_step (mkSys s gs o g w) (mkSys s' gs o g w)
| ts_retain s gs o g w n r s' :
    0 ≤ n → retain t n s = (Ok r, s') → tree_step (mkSys s gs o g w) (mkSys s' (r :: gs) o g w)
| ts_retain_refused s gs o g w n x s' :
    0 ≤ n → retain t n s = (Err x, s') → tree_step (mkSys s gs o g w) (mkSys s' gs o g w)
| ts_grow s gs1 r gs2 o g w n r' s' :
    0 ≤ n → RetainedBytes_grow r n s = (Ok r', s') →
    tree_step (mkSys s (gs1 ++ r :: gs2) o g w) (mkSys s' (gs1 ++ r' :: gs2) o g w)
| ts_grow_refused s gs1 r gs2 o g w n x s' :
    0 ≤ n → RetainedBytes_grow r n s = (Err x, s') →
    tree_step (mkSys s (gs1 ++ r :: gs2) o g w) (mkSys s' (gs1 ++ r :: gs2) o g w)
| ts_shrink s gs1 r gs2 o g w n r' s' :
    0 ≤ n ≤ held r → RetainedBytes_shrink r n s = (r', s') →
    tree_step (mkSys s (gs1 ++ r :: gs2) o g w) (mkSys s' (gs1 ++ r' :: gs2) o g w)
| ts_drop s gs1 r gs2 o g w :
    tree_step (mkSys s (gs1 ++ r :: gs2) o g w) (mkSys (RetainedBytes_drop r s) (gs1 ++ gs2) o g w)
| ts_call s gs o g w s' :
    CallBudget_charge t s = (Ok tt, s') → tree_step (mkSys s gs o g w) (mkSys s' gs (S o) g w)
| ts_call_refused s gs o g w x s' :
    CallBudget_charge t s = (Err x, s') → tree_step (mkSys s gs o g w) (mkSys s' gs o g w)
| ts_refund s gs o g w :
    tree_step (mkSys s gs (S o) g w) (mkSys (CallBudget_refund s) gs o g w)
| ts_other_call s gs o g w s' :
    CallBudget_charge t s = (Ok tt, s') → tree_step (mkSys s gs o g w) (mkSys s' gs o g (S w))
| ts_other_refund s gs o g w :
    tree_step (mkSys s gs o g (S w)) (mkSys (CallBudget_refund s) gs o g w).

Definition total_held (gs : list RetainedBytes) : Z := foldr (fun r s => held r + s) 0 gs.

(** Every counter is what is out against it, within its limit. *)
Definition accounts (x : Sys) : Prop :=
  retained (shared x) = total_held (guards x)
  ∧ Forall (fun r => 0 ≤ held r ∧ held_maximum r = max_value_bytes (tree_limits t)) (guards x)
  ∧ retained (shared x) ≤ Z.min u64_max (max_value_bytes (tree_limits t))
  ∧ used (shared x) = Z.of_nat (elsewhere x) + Z.of_nat (outstanding x)
  ∧ used (shared x) ≤ Z.min u32_max (calls_maximum t)
  ∧ steps (shared x) = Z.of_nat (granted x)
  ∧ steps (shared x) ≤ Z.min u64_max (max_steps (tree_limits t)).

Lemma fetch_add_Some (top maximum counter n next : Z) :
  fetch_add_up_to top maximum counter n = Some next ↔
  next = counter + n ∧ counter + n ≤ Z.min top maximum.
Proof.
  unfold fetch_add_up_to. destruct (_ && _) eqn:H; dk_bool.
  - split; [intros [= <-]; lia|]. by intros [-> _].
  - split; [done|]. lia.
Qed.

Lemma fetch_add_None (top maximum counter n : Z) :
  fetch_add_up_to top maximum counter n = None ↔ Z.min top maximum < counter + n.
Proof.
  unfold fetch_add_up_to. destruct (_ && _) eqn:H; dk_bool; (split; [|done || lia]); [done|lia].
Qed.

Lemma total_held_app (a b : list RetainedBytes) : total_held (a ++ b) = total_held a + total_held b.
Proof. unfold total_held. induction a as [|r a IH]; cbn in *; lia. Qed.

Lemma total_held_cons (r : RetainedBytes) (gs : list RetainedBytes) :
  total_held (r :: gs) = held r + total_held gs.
Proof. done. Qed.

Lemma total_held_nonneg (gs : list RetainedBytes) :
  Forall (fun r => 0 ≤ held r ∧ held_maximum r = max_value_bytes (tree_limits t)) gs →
  0 ≤ total_held gs.
Proof. unfold total_held. induction 1; cbn; lia. Qed.

(** A guard replaced by one that holds [n] more (or less), with the counter. *)
Lemma accounts_regrade s gs1 r r' gs2 o g w n s' :
  accounts (mkSys s (gs1 ++ r :: gs2) o g w) → held r' = held r + n → 0 ≤ held r' →
  held_maximum r' = held_maximum r → s' = set_retained s (retained s + n) →
  retained s + n ≤ Z.min u64_max (max_value_bytes (tree_limits t)) →
  accounts (mkSys s' (gs1 ++ r' :: gs2) o g w).
Proof.
  unfold accounts. cbn. intros (Hr & Hg & Hle & Hu & Hul & Hs & Hsl) Hh H0 Hm -> Hn. cbn.
  rewrite Forall_app, List.Forall_cons_iff in *. rewrite total_held_app, total_held_cons in *.
  destruct Hg as (Hg1 & [? ?] & Hg2). split; [lia|]. split; [|done].
  split; [done|]. split; [by rewrite Hm|done].
Qed.

Lemma held_le_retained s gs1 r gs2 o g w :
  accounts (mkSys s (gs1 ++ r :: gs2) o g w) → 0 ≤ held r ≤ retained s ∧ retained s ≤ u64_max.
Proof.
  unfold accounts. cbn. intros (Hr & Hg & Hle & _). rewrite total_held_app, total_held_cons in Hr.
  rewrite Forall_app, List.Forall_cons_iff in Hg. destruct Hg as (Hg1 & [? ?] & Hg2).
  apply total_held_nonneg in Hg1, Hg2. lia.
Qed.

Ltac tree_cbn :=
  cbn [shared guards outstanding granted elsewhere steps retained used set_steps set_retained set_used] in *.

Lemma step_accounts (x y : Sys) : accounts x → tree_step x y → accounts y.
Proof.
  intros Hx Hstep. destruct Hstep as
    [s gs o g w e s' H|s gs o g w e z s' H|s gs o g w n r s' Hn H|s gs o g w n z s' Hn H
    |s gs1 r gs2 o g w n r' s' Hn H|s gs1 r gs2 o g w n z s' Hn H|s gs1 r gs2 o g w n r' s' Hn H
    |s gs1 r gs2 o g w|s gs o g w s' H|s gs o g w z s' H|s gs o g w|s gs o g w s' H|s gs o g w].
  - unfold Tree_charge_step in H. destruct (is_cancelled e), (script_timer_elapsed e); try done.
    destruct (fetch_add_up_to _ _ _ _) as [next|] eqn:Hf; [|done]. injection H as <-.
    apply fetch_add_Some in Hf as [-> Hf]. unfold accounts in *. tree_cbn. intuition lia.
  - unfold Tree_charge_step in H. destruct (is_cancelled e), (script_timer_elapsed e); simplify_eq/=;
      try done. destruct (fetch_add_up_to _ _ _ _); by simplify_eq.
  - unfold retain in H. destruct (fetch_add_up_to _ _ _ _) as [next|] eqn:Hf; [|done].
    injection H as <- <-. apply fetch_add_Some in Hf as [-> Hf]. unfold accounts in *. tree_cbn.
    rewrite total_held_cons. cbn [held].
    destruct Hx as (? & ? & ? & ? & ? & ? & ?). split; [lia|]. split; [by constructor|done].
  - unfold retain in H. destruct (fetch_add_up_to _ _ _ _); by simplify_eq.
  - unfold RetainedBytes_grow in H. destruct (fetch_add_up_to _ _ _ _) as [next|] eqn:Hf; [|done].
    injection H as <- <-. apply fetch_add_Some in Hf as [-> Hf].
    pose proof (held_le_retained _ _ _ _ _ _ _ Hx).
    assert (held_maximum r = max_value_bytes (tree_limits t)) as Hm
      by (destruct Hx as (_ & Hg & _); cbn in Hg; rewrite Forall_app, List.Forall_cons_iff in Hg; tauto).
    assert (wrap_u64 (held r + n) = held r + n) as Hw by (apply wrap_u64_id; unfold in_u64; lia).
    apply (accounts_regrade s gs1 r _ gs2 o g w n); cbn; rewrite ?Hw, <- ?Hm; done || lia.
  - unfold RetainedBytes_grow in H. destruct (fetch_add_up_to _ _ _ _); by simplify_eq.
  - injection H as <- <-. pose proof (held_le_retained _ _ _ _ _ _ _ Hx) as Hh.
    assert (wrap_u64 (held r - n) = held r + - n) as Hw by (apply wrap_u64_id; unfold in_u64; lia).
    assert (wrap_u64 (retained s - n) = retained s + - n) as Hw'
      by (apply wrap_u64_id; unfold in_u64; lia).
    pose proof Hx as (_ & _ & Hle & _). cbn in Hle.
    apply (accounts_regrade s gs1 r _ gs2 o g w (- n)); cbn; rewrite ?Hw, ?Hw'; done || lia.
  - pose proof (held_le_retained _ _ _ _ _ _ _ Hx) as Hh.
    assert (wrap_u64 (retained s - held r) = retained s - held r) as Hw
      by (apply wrap_u64_id; unfold in_u64; lia).
    unfold accounts, RetainedBytes_drop in *. tree_cbn. rewrite Hw.
    rewrite total_held_app, total_held_cons, Forall_app, List.Forall_cons_iff in Hx.
    rewrite total_held_app, Forall_app.
    intuition lia.
  - unfold CallBudget_charge in H. destruct (fetch_add_up_to _ _ _ _) as [next|] eqn:Hf; [|done].
    injection H as <-. apply fetch_add_Some in Hf as [-> Hf]. unfold accounts in *. tree_cbn.
    intuition lia.
  - unfold CallBudget_charge in H. destruct (fetch_add_up_to _ _ _ _); by simplify_eq.
  - unfold accounts, CallBudget_refund in *. tree_cbn. rewrite Z.mod_small by lia. intuition lia.
  - unfold CallBudget_charge in H. destruct (fetch_add_up_to _ _ _ _) as [next|] eqn:Hf; [|done].
    injection H as <-. apply fetch_add_Some in Hf as [-> Hf]. unfold accounts in *. tree_cbn.
    intuition lia.
  - unfold accounts, CallBudget_refund in *. tree_cbn. rewrite Z.mod_small by lia. intuition lia.
Qed.

Lemma runs_accounts (x y : Sys) :
  rtc tree_step x y → accounts x → accounts y.
Proof. induction 1; eauto using step_accounts. Qed.
End Tree.

(** ** Properties *)

(** C39: under every interleaving of the threads of a tree, started on a call
    budget that may be in use and go on being used by others, the counters are
    exact and within their limits: the retained bytes are those of the guards
    alive; the capability calls are those the tree charged and did not refund
    with those of the others; the steps are those granted, each counted once.
    And a further request is granted exactly when it fits: bytes beside the
    guards alive, so that nothing leaks when guards are dropped, a call beside
    the calls out, and a step, when nothing is cancelled or timed out, while
    fewer than the limit were granted. *)
Theorem tree_accounts_exactly (limits : Limits) (calls : CallBudget) (started : Z) (y : Sys) :
  0 ≤ max_steps limits → 0 ≤ max_value_bytes limits →
  0 ≤ calls_used calls ≤ calls_limit calls → calls_limit calls ≤ u32_max →
  let '(t, s0) := TreeContext_new limits calls started in
  rtc (tree_step t) (mkSys s0 [] 0 0 (Z.to_nat (calls_used calls))) y →
  (retained (shared y) = total_held (guards y) ∧ total_held (guards y) ≤ max_value_bytes limits)
  ∧ (used (shared y) = Z.of_nat (elsewhere y) + Z.of_nat (outstanding y)
     ∧ used (shared y) ≤ calls_limit calls)
  ∧ (steps (shared y) = Z.of_nat (granted y) ∧ Z.of_nat (granted y) ≤ max_steps limits)
  ∧ (∀ n, (∃ r s', retain t n (shared y) = (Ok r, s'))
          ↔ total_held (guards y) + n ≤ Z.min u64_max (max_value_bytes limits))
  ∧ ((∃ s', CallBudget_charge t (shared y) = (Ok tt, s'))
     ↔ Z.of_nat (elsewhere y) + Z.of_nat (outstanding y) < calls_limit calls)
  ∧ ∀ e, is_cancelled e = false → script_timer_elapsed e = false →
      ((∃ s', Tree_charge_step t e (shared y) = (Ok tt, s'))
       ↔ Z.of_nat (granted y) < Z.min u64_max (max_steps limits)).
Proof.
  intros Hs Hb Hc Hm. cbn zeta. destruct (TreeContext_new limits calls started) as [t s0] eqn:Hnew.
  injection Hnew as <- <-. intros Hrun. apply runs_accounts in Hrun.
  - destruct Hrun as (Hr & _ & Hrl & Hu & Hul & Hst & Hsl). cbn in Hrl, Hul, Hsl.
    split; [lia|]. split; [lia|]. split; [lia|]. split; [|split].
    + intros n. unfold retain. cbn [tree_limits]. rewrite <- Hr.
      destruct (fetch_add_up_to _ _ _ _) as [next|] eqn:Hf.
      * apply fetch_add_Some in Hf. split; [lia|]. intros _. by eexists _, _.
      * apply fetch_add_None in Hf. split; [by intros (? & ? & ?)|lia].
    + unfold CallBudget_charge. cbn [calls_maximum]. rewrite <- Hu.
      destruct (fetch_add_up_to _ _ _ _) as [next|] eqn:Hf.
      * apply fetch_add_Some in Hf. split; [lia|]. by eexists.
      * apply fetch_add_None in Hf. split; [by intros (? & ?)|lia].
    + intros [n c e]. cbn [is_cancelled script_timer_elapsed]. intros -> ->.
      unfold Tree_charge_step. cbn. rewrite <- Hst.
      destruct (fetch_add_up_to _ _ _ _) as [next|] eqn:Hf.
      * apply fetch_add_Some in Hf. split; [lia|]. by eexists.
      * apply fetch_add_None in Hf. split; [by intros (? & ?)|lia].
  - repeat split; cbn; try constructor; unfold u64_max, u32_max in *; lia.
Qed.

(** ** Witness *)

Definition demo_limits : Limits := mkLimits 2 4 64 4 (dur_from_secs 1) 1 10.
Definition demo_call_budget : CallBudget := mkCallBudget 3 5.

(** One step, one guard and one call, with another script refunding a call. *)
Lemma tree_accounts_exactly_witness :
  let '(t, s0) := TreeContext_new demo_limits demo_call_budget 0 in
  ∃ y, rtc (tree_step t) (mkSys s0 [] 0 0 3) y
    ∧ retained (shared y) = 6 ∧ total_held (guards y) = 6
    ∧ used (shared y) = 3 ∧ steps (shared y) = Z.of_nat (granted y).
Proof.
  pose (y := mkSys (mkShared 1 6 3) [mkRetained 6 10] 1 1 2).
  assert (rtc (tree_step (TreeContext_new demo_limits demo_call_budget 0).1)
            (mkSys (mkShared 0 0 3) [] 0 0 3) y) as Hr.
  { eapply rtc_l; [apply (ts_step _ _ _ _ _ _ (mkEnv 0 false false)); reflexivity|].
    eapply rtc_l; [apply (ts_retain _ _ _ _ _ _ 6); [lia|reflexivity]|].
    eapply rtc_l; [apply ts_call; reflexivity|].
    eapply rtc_l; [apply ts_other_refund|]. apply rtc_refl. }
  exists y. split; [exact Hr|].
  destruct (tree_accounts_exactly demo_limits demo_call_budget 0 y ltac:(cbn; lia) ltac:(cbn; lia)
    ltac:(cbn; lia) ltac:(unfold u32_max; cbn; lia) Hr) as ([H _] & [Hu _] & [Hst _] & _).
  split; [reflexivity|]. split; [rewrite <- H; reflexivity|]. split; [exact Hu|exact Hst].
Defined.
