(* ===== verification/OutputBuffer.v ===== *)
(** * The output of a shell script

    [OutputBuffer] of [dekopon-shell/src/limits.rs] keeps what a script
    printed within a number of bytes and of lines: the first lines and, once
    something had to go, the last ones with a notice between them.

    [usize] is 64 bits wide; lists of lines are in the order printed. [Op] and
    [run] are any use of the public methods. *)

From Stdlib Require Import ZArith Lia.
From stdpp Require Import base strings list numbers.
From S2P Require Import Prelude RustStr ProcessTree.

Record OutputBuffer : Type := mkOutput {
  max_bytes : Z;
  max_lines : Z;
  head : list str;
  head_bytes : Z;
  tail : list str;
  tail_bytes : Z;
  total_lines : Z;
  truncated : bool;
  pending : str;
  pending_truncated : bool;
}.

Definition OutputBuffer_new (limits : Limits) : OutputBuffer :=
  mkOutput (Z.max (max_output_bytes limits) 1) (Z.max (max_output_lines limits) 1)
    [] 0 [] 0 0 false [] false.

Definition set_head b (hd : list str) (hb : Z) : OutputBuffer :=
  mkOutput (max_bytes b) (max_lines b) hd hb (tail b) (tail_bytes b) (total_lines b) (truncated b)
    (pending b) (pending_truncated b).
Definition set_tail b (tl : list str) (tb : Z) : OutputBuffer :=
  mkOutput (max_bytes b) (max_lines b) (head b) (head_bytes b) tl tb (total_lines b) (truncated b)
    (pending b) (pending_truncated b).
Definition set_pending b (p : str) (cut : bool) : OutputBuffer :=
  mkOutput (max_bytes b) (max_lines b) (head b) (head_bytes b) (tail b) (tail_bytes b)
    (total_lines b) (truncated b) p cut.
Definition set_total b (n : Z) : OutputBuffer :=
  mkOutput (max_bytes b) (max_lines b) (head b) (head_bytes b) (tail b) (tail_bytes b) n
    (truncated b) (pending b) (pending_truncated b).
Definition set_truncated b : OutputBuffer :=
  mkOutput (max_bytes b) (max_lines b) (head b) (head_bytes b) (tail b) (tail_bytes b)
    (total_lines b) true (pending b) (pending_truncated b).

Definition tail_line_budget b : Z := Z.max (max_lines b / 2) 1.
Definition tail_byte_budget b : Z := Z.max (max_bytes b / 2) 1.

(** [str::is_char_boundary], and the largest boundary up to an offset. *)
Definition is_char_boundary (s : str) (i : nat) : bool :=
  match i with
  | O => true
  | _ =>
      match nth_error s i with
      | Some b => negb (is_continuation b)
      | None => (i =? length s)%nat
      end
  end.

Fixpoint floor_boundary (s : str) (i : nat) : nat :=
  match i with
  | O => O
  | S j => if is_char_boundary s i then i else floor_boundary s j
  end.

Definition MARKER : str := lit "...".

Definition clamp_line (line : str) (maximum : Z) : str :=
  if len line <=? maximum then line
  else take (floor_boundary line (Z.to_nat (sat_sub_u64 maximum (len MARKER)))) line ++ MARKER.

(** [begin_truncation] pops lines off the head, the last one first. *)
Fixpoint pop_lines (max_lines max_bytes : Z) (reversed : list str) (bytes : Z) : list str * Z :=
  match reversed with
  | [] => ([], bytes)
  | line :: rest =>
      if (max_lines <? Z.of_nat (length reversed)) || (max_bytes <? bytes)
      then pop_lines max_lines max_bytes rest (sat_sub_u64 bytes (sat_add_u64 (len line) 1))
      else (reversed, bytes)
  end.

Definition begin_truncation b : OutputBuffer :=
  let b := set_truncated b in
  let '(kept, bytes) :=
    pop_lines (sat_sub_u64 (max_lines b) (tail_line_budget b))
      (sat_sub_u64 (max_bytes b) (tail_byte_budget b)) (rev (head b)) (head_bytes b) in
  set_head b (rev kept) bytes.

(** [evict_tail] pops lines off the front of the tail, but never the last. *)
Fixpoint pop_front (max_lines max_bytes : Z) (lines : list str) (bytes : Z) : list str * Z :=
  match lines with
  | [] => ([], bytes)
  | line :: rest =>
      if (1 <? Z.of_nat (length lines))
         && ((max_lines <? Z.of_nat (length lines)) || (max_bytes <? bytes))
      then pop_front max_lines max_bytes rest (sat_sub_u64 bytes (sat_add_u64 (len line) 1))
      else (lines, bytes)
  end.

Definition evict_tail b : OutputBuffer :=
  let '(kept, bytes) := pop_front (tail_line_budget b) (tail_byte_budget b) (tail b) (tail_bytes b) in
  set_tail b kept bytes.

(** The part of [push_line] once the head is closed. *)
Definition push_tail b (line : str) : OutputBuffer :=
  let clamped := clamp_line line (sat_sub_u64 (tail_byte_budget b) 1) in
  evict_tail
    (set_tail b (tail b ++ [clamped]) (sat_add_u64 (tail_bytes b) (sat_add_u64 (len clamped) 1))).

Definition push_line b (line : str) : OutputBuffer :=
  let b := set_total b (sat_add_u64 (total_lines b) 1) in
  if truncated b then push_tail b line
  else
    let clamped := clamp_line line (max_bytes b) in
    let cost := sat_add_u64 (len clamped) 1 in
    if (Z.of_nat (length (head b)) <? max_lines b)
       && (sat_add_u64 (head_bytes b) cost <=? max_bytes b)
    then set_head b (head b ++ [clamped]) (sat_add_u64 (head_bytes b) cost)
    else push_tail (begin_truncation b) line.

Definition flush_pending b : OutputBuffer :=
  let line := pending b in
  if pending_truncated b
  then push_line (set_pending b [] false) (clamp_line line (max_bytes b))
  else push_line (set_pending b [] false) line.

(** One part of a fragment, between line breaks. *)
Definition push_part b (part : str) : OutputBuffer :=
  if pending_truncated b then b
  else
    let room := sat_sub_u64 (max_bytes b) (len (pending b)) in
    let stop := floor_boundary part (Z.to_nat (Z.min (len part) room)) in
    set_pending b (pending b ++ take stop part) (stop <? length part)%nat.

Definition push_parts b (parts : list str) : OutputBuffer :=
  match parts with
  | [] => b
  | first :: rest => foldl (fun b part => push_part (flush_pending b) part) (push_part b first) rest
  end.

Definition push_fragment b (fragment : str) : OutputBuffer := push_parts b (split 10 fragment).

Definition push_block b (block : str) : OutputBuffer := flush_pending (push_fragment b block).

Definition finish b : OutputBuffer :=
  if negb (is_empty (pending b)) || pending_truncated b then flush_pending b else b.

Definition is_truncated b : bool := truncated b.

Definition notice (total : Z) : str :=
  lit "... Output truncated (" ++ to_decimal total ++ lit " total lines) ...".

Definition rendered_lines b : list str :=
  head b ++ (if truncated b then notice (total_lines b) :: tail b else []).

Definition render b : str := join 10 (rendered_lines b).

(** ** Uses of the buffer *)

Inductive Op : Type :=
| PushLine (line : str)
| PushFragment (fragment : str)
| PushBlock (block : str)
| Finish.

Definition apply b (op : Op) : OutputBuffer :=
  match op with
  | PushLine line => push_line b line
  | PushFragment fragment => push_fragment b fragment
  | PushBlock block => push_block b block
  | Finish => finish b
  end.

Definition run (limits : Limits) (ops : list Op) : OutputBuffer :=
  foldl apply (OutputBuffer_new limits) ops.

(** ** Lemmas *)

Definition cost (lines : list str) : Z := foldr (fun line s => len line + 1 + s) 0 lines.
Definition count (lines : list str) : Z := Z.of_nat (length lines).

Lemma cost_cons (x : str) (l : list str) : cost (x :: l) = len x + 1 + cost l.
Proof. done. Qed.
Lemma cost_one (x : str) : cost [x] = len x + 1.
Proof. cbn. lia. Qed.
Lemma count_one (x : str) : count [x] = 1.
Proof. done. Qed.
#[local] Opaque cost.

Lemma cost_nonneg (l : list str) : 0 ≤ cost l.
Proof. induction l as [|x l IH]; [done|]. rewrite cost_cons. pose proof (len_nonneg x). lia. Qed.

Lemma cost_app (l k : list str) : cost (l ++ k) = cost l + cost k.
Proof. induction l as [|x l IH]; [done|]. cbn [app]. rewrite !cost_cons. lia. Qed.

Lemma cost_rev (l : list str) : cost (rev l) = cost l.
Proof.
  induction l as [|x l IH]; [done|]. cbn [rev]. rewrite cost_app, IH, cost_one, cost_cons. lia.
Qed.

Lemma count_app (l k : list str) : count (l ++ k) = count l + count k.
Proof. unfold count. rewrite length_app. lia. Qed.

Lemma floor_boundary_le (s : str) (i : nat) : (floor_boundary s i ≤ i)%nat.
Proof. induction i as [|i IH]; cbn [floor_boundary]; [done|]. destruct (is_char_boundary _ _); lia. Qed.

Lemma clamp_line_len (line : str) (maximum : Z) :
  0 ≤ maximum → len (clamp_line line maximum) ≤ Z.max maximum 3.
Proof.
  intros Hm. unfold clamp_line. destruct (Z.leb_spec (len line) maximum); [lia|].
  rewrite len_app. change (len MARKER) with 3.
  pose proof (floor_boundary_le line (Z.to_nat (sat_sub_u64 maximum 3))).
  unfold len at 1. rewrite length_take. dk_arith.
Qed.

Lemma pop_lines_spec (ml mb bytes : Z) (l : list str) :
  0 ≤ ml → 0 ≤ mb → bytes = cost l → bytes ≤ u64_max →
  let '(k, kb) := pop_lines ml mb l bytes in kb = cost k ∧ count k ≤ ml ∧ kb ≤ mb.
Proof.
  intros Hl Hb. revert bytes. unfold count. induction l as [|x l IH]; intros bytes Hc Hu; cbn.
  { change (cost []) with 0 in *. lia. }
  rewrite cost_cons in *. pose proof (cost_nonneg l). pose proof (len_nonneg x).
  destruct (_ || _) eqn:Hd.
  - apply IH; dk_arith.
  - dk_bool. cbn. rewrite cost_cons. lia.
Qed.

Lemma pop_front_spec (ml mb bytes : Z) (l : list str) (P : str → Prop) :
  bytes = cost l → bytes ≤ u64_max → Forall P l → l ≠ [] →
  let '(k, kb) := pop_front ml mb l bytes in
  kb = cost k ∧ Forall P k ∧ k ≠ [] ∧ ((∃ x, k = [x]) ∨ (count k ≤ ml ∧ kb ≤ mb)).
Proof.
  unfold count. revert bytes. induction l as [|x l IH]; intros bytes Hc Hu Hp Hne; [done|].
  cbn [pop_front]. rewrite cost_cons in Hc.
  pose proof (cost_nonneg l). pose proof (len_nonneg x). inversion Hp; subst.
  destruct (_ && _) eqn:Hd.
  - apply IH; try done; try dk_arith. intros ->. dk_bool. cbn in Hd. lia.
  - rewrite cost_cons. do 3 (split; [done|]). destruct l as [|y l]; [left; by exists x|right].
    dk_bool. cbn in *. lia.
Qed.

(** A saturating sum below the top is the sum. *)
Lemma sat_add_below (a b m : Z) : sat_add_u64 a b ≤ m → m < u64_max → sat_add_u64 a b = a + b.
Proof. unfold sat_add_u64. lia. Qed.

Lemma i64_below : i64_max < u64_max.
Proof. done. Qed.

(** What every buffer in use satisfies. [i64_max] bounds every allocation. *)
Record ob_ok b : Prop := {
  ok_bytes : 1 ≤ max_bytes b ≤ i64_max;
  ok_lines : 1 ≤ max_lines b;
  ok_head : head_bytes b = cost (head b);
  ok_tail : tail_bytes b = cost (tail b);
  ok_head_fits : count (head b) ≤ max_lines b ∧ head_bytes b ≤ max_bytes b;
  ok_open : truncated b = false → tail b = [];
  ok_closed : truncated b = true →
    count (head b) + tail_line_budget b ≤ Z.max (max_lines b) (tail_line_budget b)
    ∧ head_bytes b ≤ max_bytes b - tail_byte_budget b;
  ok_tail_fits : count (tail b) ≤ tail_line_budget b
    ∧ tail_bytes b ≤ Z.max (tail_byte_budget b) 4;
  ok_pending : len (pending b) ≤ max_bytes b;
}.

Lemma budgets_bounds b :
  1 ≤ max_bytes b → 1 ≤ max_lines b →
  1 ≤ tail_byte_budget b ≤ max_bytes b ∧ 1 ≤ tail_line_budget b ≤ max_lines b
  ∧ 2 * tail_byte_budget b ≤ Z.max (max_bytes b) 2.
Proof.
  intros Hb Hl. unfold tail_byte_budget, tail_line_budget.
  pose proof (Z.div_mod (max_bytes b) 2). pose proof (Z.mod_pos_bound (max_bytes b) 2).
  pose proof (Z.div_mod (max_lines b) 2). pose proof (Z.mod_pos_bound (max_lines b) 2). lia.
Qed.

Lemma new_ok (limits : Limits) :
  max_output_bytes limits ≤ i64_max → ob_ok (OutputBuffer_new limits).
Proof.
  intros H. pose proof (budgets_bounds (OutputBuffer_new limits) ltac:(cbn; lia) ltac:(cbn; lia)).
  split; cbn -[tail_byte_budget tail_line_budget]; unfold count, len; cbn [length];
    try done; unfold i64_max in *; lia.
Qed.

Lemma begin_truncation_ok b : ob_ok b → truncated b = false →
  ob_ok (begin_truncation b) ∧ truncated (begin_truncation b) = true
  ∧ max_bytes (begin_truncation b) = max_bytes b ∧ pending (begin_truncation b) = pending b
  ∧ pending_truncated (begin_truncation b) = pending_truncated b
  ∧ total_lines (begin_truncation b) = total_lines b.
Proof.
  intros [Hb Hl Hh Ht [Hc1 Hc2] Ho _ Htf Hp] Hf. pose proof (budgets_bounds b ltac:(lia) Hl) as Hbud.
  specialize (Ho Hf). unfold begin_truncation. cbn [head head_bytes set_truncated max_bytes max_lines].
  pose proof (pop_lines_spec (sat_sub_u64 (max_lines b) (tail_line_budget b))
    (sat_sub_u64 (max_bytes b) (tail_byte_budget b)) (head_bytes b) (rev (head b))) as Hs.
  change (tail_line_budget (set_truncated b)) with (tail_line_budget b).
  change (tail_byte_budget (set_truncated b)) with (tail_byte_budget b).
  rewrite cost_rev in Hs. destruct (pop_lines _ _ _ _) as [k kb].
  destruct Hs as (-> & Hk & Hkb); [dk_arith|dk_arith|done|dk_arith|].
  split; [|done].
  assert (count (rev k) = count k) as Hrev by (unfold count; by rewrite length_rev).
  split; cbn; rewrite ?cost_rev, ?Hrev; try done; fold (tail_line_budget b) (tail_byte_budget b);
    try (intros; dk_arith).
  all: unfold tail_line_budget, tail_byte_budget in *; cbn; dk_arith.
Qed.

Lemma push_tail_ok b (line : str) : ob_ok b → truncated b = true → ob_ok (push_tail b line).
Proof.
  intros [Hb Hl Hh Ht Hc Ho Hcl [Hl1 Hl2] Hp] Hf. pose proof (budgets_bounds b ltac:(lia) Hl) as Hbud.
  unfold push_tail, evict_tail. cbn [tail tail_bytes set_tail].
  pose proof (clamp_line_len line (sat_sub_u64 (tail_byte_budget b) 1) ltac:(dk_arith)) as Hlen.
  set (clamped := clamp_line _ _) in *. pose proof (len_nonneg clamped).
  change (tail_line_budget (set_tail b _ _)) with (tail_line_budget b).
  change (tail_byte_budget (set_tail b _ _)) with (tail_byte_budget b).
  assert (sat_add_u64 (tail_bytes b) (sat_add_u64 (len clamped) 1) = cost (tail b ++ [clamped]))
    as Hsum.
  { rewrite cost_app, cost_one, <- Ht. dk_arith. }
  pose proof (pop_front_spec (tail_line_budget b) (tail_byte_budget b) _ (tail b ++ [clamped])
    (fun x => cost [x] ≤ Z.max (tail_byte_budget b) 4 ∨ x ∈ tail b) Hsum) as Hs.
  destruct (pop_front _ _ _ _) as [k kb].
  destruct Hs as (-> & Hall & Hne & Hk).
  - dk_arith.
  - apply Forall_app. split; [apply list.Forall_forall; intros x Hx; by right|].
    constructor; [|constructor]. left. rewrite cost_one. dk_arith.
  - by destruct (tail b).
  - assert (count k ≤ tail_line_budget b ∧ cost k ≤ Z.max (tail_byte_budget b) 4) as Hfit.
    { destruct Hk as [[x ->]|]; [|lia]. rewrite count_one.
      inversion Hall as [|? ? [Hx|Hx] _]; subst; [lia|].
      apply list_elem_of_split in Hx as (l1 & l2 & Hx). rewrite Hx in Ht.
      rewrite cost_app, cost_cons in Ht. rewrite cost_one.
      pose proof (cost_nonneg l1). pose proof (cost_nonneg l2). lia. }
    split; cbn; try done. by rewrite Hf.
Qed.

Lemma push_head_ok b (x : str) :
  ob_ok b → truncated b = false → count (head b) < max_lines b →
  sat_add_u64 (head_bytes b) (sat_add_u64 (len x) 1) ≤ max_bytes b →
  ob_ok (set_head b (head b ++ [x]) (sat_add_u64 (head_bytes b) (sat_add_u64 (len x) 1))).
Proof.
  intros [Hb Hl Hh Ht Hc' Ho Hcl Htf Hp] Hf Hn Hc.
  pose proof (len_nonneg x). pose proof (cost_nonneg (head b)).
  assert (sat_add_u64 (head_bytes b) (sat_add_u64 (len x) 1) = cost (head b ++ [x])) as Hsum.
  { pose proof i64_below. rewrite cost_app, cost_one, <- Hh.
    rewrite (sat_add_below _ _ _ Hc) by lia. f_equal. rewrite (sat_add_below _ _ _ Hc) in Hc by lia.
    apply (sat_add_below _ _ (max_bytes b)); lia. }
  rewrite Hsum in *. split; cbn [set_head head head_bytes tail tail_bytes truncated max_bytes
    max_lines pending]; try done.
  - rewrite count_app, count_one. lia.
  - congruence.
Qed.

Lemma push_line_ok b (line : str) :
  ob_ok b → ob_ok (push_line b line) ∧ pending (push_line b line) = pending b
  ∧ max_bytes (push_line b line) = max_bytes b.
Proof.
  intros Hok. unfold push_line.
  set (b' := set_total b _). assert (ob_ok b') as Hok' by (destruct Hok; by split).
  assert (∀ c, pending (push_tail c line) = pending c ∧ max_bytes (push_tail c line) = max_bytes c)
    as Hpt by (intros c; unfold push_tail, evict_tail; by destruct (pop_front _ _ _ _)).
  destruct (truncated b') eqn:Hf.
  { split; [by apply push_tail_ok|exact (Hpt b')]. }
  destruct (_ && _) eqn:Hfit.
  - split; [|done]. dk_bool. destruct Hfit as [Hn Hc]. by apply push_head_ok.
  - destruct (begin_truncation_ok b' Hok' Hf) as (Hbt & Htr & Hm & Hp & _).
    split; [by apply push_tail_ok|]. destruct (Hpt (begin_truncation b')). by rewrite H, H0, Hm, Hp.
Qed.

Lemma flush_pending_ok b :
  ob_ok b → ob_ok (flush_pending b) ∧ pending (flush_pending b) = [].
Proof.
  intros Hok. assert (ob_ok (set_pending b [] false)) as Hok'.
  { destruct Hok as [Hb Hl Hh Ht Hc Ho Hcl Htf Hp]. split; try done. cbn. unfold len. cbn. lia. }
  unfold flush_pending.
  destruct (pending_truncated b); [destruct (push_line_ok _ (clamp_line (pending b) (max_bytes b)) Hok')
    as (? & ? & ?)|destruct (push_line_ok _ (pending b) Hok') as (? & ? & ?)]; done.
Qed.

Lemma push_part_ok b (part : str) : ob_ok b → ob_ok (push_part b part).
Proof.
  intros Hok. unfold push_part. destruct (pending_truncated b); [done|].
  destruct Hok as [Hb Hl Hh Ht Hc Ho Hcl Htf Hp]. split; try done. cbn. rewrite len_app.
  set (i := Z.to_nat _). pose proof (floor_boundary_le part i). unfold len at 2. rewrite length_take.
  pose proof (len_nonneg (pending b)). pose proof (len_nonneg part). dk_arith.
Qed.

Lemma push_fragment_ok b (fragment : str) : ob_ok b → ob_ok (push_fragment b fragment).
Proof.
  intros Hok. unfold push_fragment, push_parts. destruct (split 10 fragment) as [|first rest]; [done|].
  assert (ob_ok (push_part b first)) as Hf by (by apply push_part_ok). clear Hok.
  revert Hf. generalize (push_part b first) as c. induction rest as [|part rest IH]; intros c Hc; [done|].
  cbn [foldl]. by apply IH, push_part_ok, flush_pending_ok.
Qed.

Lemma apply_ok b (op : Op) : ob_ok b → ob_ok (apply b op).
Proof.
  intros Hok. destruct op; cbn [apply].
  - by apply push_line_ok.
  - by apply push_fragment_ok.
  - by apply flush_pending_ok, push_fragment_ok.
  - unfold finish. destruct (_ || _); [by apply flush_pending_ok|done].
Qed.


(** ** Completeness

    What was written, as lines and an open last line. *)

Definition written : Type := list str * str.
Definition w_flush (w : written) : written := (w.1 ++ [w.2], []).
Definition w_part (w : written) (part : str) : written := (w.1, w.2 ++ part).
Definition w_parts (w : written) (parts : list str) : written :=
  match parts with
  | [] => w
  | first :: rest => foldl (fun w part => w_part (w_flush w) part) (w_part w first) rest
  end.
Definition w_apply (w : written) (op : Op) : written :=
  match op with
  | PushLine line => (w.1 ++ [line], w.2)
  | PushFragment fragment => w_parts w (split 10 fragment)
  | PushBlock block => w_flush (w_parts w (split 10 block))
  | Finish => if is_empty w.2 then w else w_flush w
  end.
Definition written_by (ops : list Op) : written := foldl w_apply ([], []) ops.

Definition ascii (s : str) : Prop := Forall (fun b => 0 ≤ b < 128) s.
Definition op_text (op : Op) : str :=
  match op with PushLine s | PushFragment s | PushBlock s => s | Finish => [] end.

Lemma floor_boundary_ascii (s : str) (i : nat) :
  ascii s → (i ≤ length s)%nat → floor_boundary s i = i.
Proof.
  intros Hs Hi. destruct i as [|j]; [done|]. cbn [floor_boundary is_char_boundary].
  destruct (nth_error s (S j)) as [b|] eqn:Hn.
  - apply nth_error_In, list_elem_of_In in Hn. unfold ascii in Hs.
    rewrite list.Forall_forall in Hs. specialize (Hs b Hn). unfold is_continuation, in_range.
    by rewrite (proj2 (Z.leb_gt _ _)) by lia.
  - apply nth_error_None in Hn. by rewrite (proj2 (Nat.eqb_eq _ _)) by lia.
Qed.

(** A line that was cut is too long to be kept whole. *)
Lemma clamp_line_ascii (line : str) (maximum : Z) :
  ascii line → 0 ≤ maximum → len (clamp_line line maximum) < maximum → clamp_line line maximum = line.
Proof.
  intros Ha Hm. unfold clamp_line. destruct (Z.leb_spec (len line) maximum) as [|Hlt]; [done|].
  unfold sat_sub_u64. change (len MARKER) with 3. unfold len in Hlt.
  rewrite floor_boundary_ascii, len_app by (done || lia). change (len MARKER) with 3.
  unfold len. rewrite length_take. lia.
Qed.

Lemma push_tail_fields b (line : str) :
  truncated (push_tail b line) = truncated b ∧ total_lines (push_tail b line) = total_lines b
  ∧ pending (push_tail b line) = pending b
  ∧ pending_truncated (push_tail b line) = pending_truncated b.
Proof. unfold push_tail, evict_tail. by destruct (pop_front _ _ _ _). Qed.

Lemma push_line_effect b (line : str) :
  ob_ok b → ascii line →
  let b' := push_line b line in
  total_lines b' = sat_add_u64 (total_lines b) 1
  ∧ pending b' = pending b ∧ pending_truncated b' = pending_truncated b
  ∧ (truncated b' = false →
     truncated b = false ∧ head b' = head b ++ [line] ∧ len line < max_bytes b).
Proof.
  intros Hok Ha. cbn zeta. unfold push_line.
  set (c := set_total b _). assert (ob_ok c) as Hok' by (destruct Hok; by split).
  destruct (truncated c) eqn:Hf.
  { destruct (push_tail_fields c line) as (Ht & -> & -> & ->). do 3 (split; [done|]). congruence. }
  destruct (_ && _) eqn:Hfit.
  - do 3 (split; [done|]). intros _. split; [done|]. dk_bool. destruct Hfit as [_ Hfit].
    pose proof (ok_bytes c Hok'). pose proof i64_below. pose proof (cost_nonneg (head c)) as Hc.
    rewrite <- (ok_head c Hok') in Hc. pose proof (len_nonneg (clamp_line line (max_bytes c))).
    rewrite (sat_add_below _ _ _ Hfit) in Hfit by lia.
    rewrite (sat_add_below _ _ (max_bytes c)) in Hfit by lia.
    assert (clamp_line line (max_bytes c) = line) as Heq by (apply clamp_line_ascii; (done || lia)).
    cbn [head set_head]. rewrite Heq in *. split; [done|]. cbn in *. lia.
  - destruct (begin_truncation_ok c Hok' Hf) as (_ & Htr & _ & Hp & Hpt & Htl).
    destruct (push_tail_fields (begin_truncation c) line) as (Ht & -> & -> & ->).
    rewrite Hp, Hpt, Htl. do 3 (split; [done|]). congruence.
Qed.

(** The buffer against what was written. *)
Definition tracks b (w : written) : Prop :=
  total_lines b = Z.min (count w.1) u64_max
  ∧ ascii (pending b)
  ∧ (if pending_truncated b then len (pending b) = max_bytes b ∧ w.2 ≠ [] else pending b = w.2)
  ∧ (truncated b = false → head b = w.1).

Lemma tracks_push_line b (w : written) (line : str) :
  ob_ok b → ascii line → tracks b w → tracks (push_line b line) (w.1 ++ [line], w.2).
Proof.
  intros Hok Ha (Hl & Hp & Hpt & Hh). destruct (push_line_effect b line Hok Ha) as (Htl & Hpe & Hpp & Hf).
  destruct (push_line_ok b line Hok) as (_ & _ & Hm).
  unfold tracks. rewrite Htl, Hpe, Hpp, Hm, Hl. cbn [fst snd]. rewrite count_app, count_one.
  split; [unfold sat_add_u64; lia|]. do 2 (split; [done|]). intros Ht.
  destruct (Hf Ht) as (Ht' & -> & _). by rewrite Hh.
Qed.

Lemma tracks_flush b (w : written) : ob_ok b → tracks b w → tracks (flush_pending b) (w_flush w).
Proof.
  intros Hok (Hl & Hp & Hpt & Hh). unfold flush_pending, w_flush.
  assert (ob_ok (set_pending b [] false)) as Hok'.
  { destruct Hok as [Hb ? ? ? ? ? ? ? ?]. split; try done. cbn. change (len []) with 0. lia. }
  assert (tracks (set_pending b [] false) (w.1, [])) as Ht.
  { split; [done|]. split; [constructor|]. by split. }
  destruct (pending_truncated b).
  - destruct Hpt as [Hlen _]. assert (clamp_line (pending b) (max_bytes b) = pending b) as ->.
    { unfold clamp_line. by rewrite (proj2 (Z.leb_le _ _)) by lia. }
    destruct (push_line_effect _ (pending b) Hok' Hp) as (Htl & Hpe & Hpp & Hf).
    unfold tracks. rewrite Htl, Hpe, Hpp. cbn [fst snd total_lines set_pending pending pending_truncated].
    rewrite Hl, count_app, count_one. split; [unfold sat_add_u64; lia|].
    split; [constructor|]. split; [done|]. intros Htr. destruct (Hf Htr) as (_ & _ & Hlt). cbn in Hlt. lia.
  - rewrite <- Hpt. by apply (tracks_push_line _ (w.1, [])).
Qed.

Lemma tracks_part b (w : written) (part : str) :
  ob_ok b → ascii part → tracks b w → tracks (push_part b part) (w_part w part).
Proof.
  intros Hok Ha (Hl & Hp & Hpt & Hh). unfold push_part, w_part, tracks.
  destruct (pending_truncated b) eqn:Hcut.
  { rewrite Hcut. destruct Hpt as [Hm Hne]. do 2 (split; [done|]). split; [|done]. split; [done|].
    cbn. by intros [? _]%app_eq_nil. }
  pose proof (ok_pending b Hok). pose proof (len_nonneg (pending b)).
  cbn [total_lines set_pending pending pending_truncated truncated head max_bytes fst snd].
  unfold sat_sub_u64. pose proof (len_nonneg part).
  rewrite floor_boundary_ascii by (done || unfold len; lia).
  split; [done|]. split; [apply Forall_app; split; [done|by apply Forall_take]|]. split; [|done].
  rewrite <- Hpt. destruct (Nat.ltb_spec (Z.to_nat (Z.min (len part) (Z.max (max_bytes b - len (pending b)) 0)))
    (length part)).
  - split; [|intros [_ ->]%app_eq_nil; cbn in *; lia]. rewrite len_app. unfold len at 2.
    rewrite length_take. unfold len in *. lia.
  - by rewrite take_ge by lia.
Qed.

Lemma tracks_parts b (w : written) (parts : list str) :
  ob_ok b → Forall ascii parts → tracks b w → tracks (push_parts b parts) (w_parts w parts).
Proof.
  intros Hok Ha Ht. destruct parts as [|first rest]; [done|]. inversion Ha as [|? ? Hf Hr]; subst.
  cbn [push_parts w_parts]. pose proof (push_part_ok b first Hok) as Hok1.
  pose proof (tracks_part b w first Hok Hf Ht) as Ht1. revert Hok1 Ht1.
  generalize (push_part b first) as c, (w_part w first) as v. clear -Hr.
  induction Hr as [|part rest Hp Hr IH]; intros c v Hc Hv; [done|]. cbn [foldl].
  destruct (flush_pending_ok c Hc) as [Hc' _].
  apply IH; [by apply push_part_ok|]. apply tracks_part; [done|done|]. by apply tracks_flush.
Qed.

Lemma tracks_apply b (w : written) (op : Op) :
  ob_ok b → ascii (op_text op) → tracks b w → tracks (apply b op) (w_apply w op).
Proof.
  intros Hok Ha Ht. destruct op; cbn [apply w_apply op_text] in *.
  - by apply tracks_push_line.
  - apply tracks_parts; try done. by apply split_sub.
  - apply tracks_flush; [by apply push_fragment_ok|]. apply tracks_parts; try done. by apply split_sub.
  - unfold finish. destruct Ht as (Hl & Hp & Hpt & Hh) eqn:HT. clear HT.
    destruct (pending_truncated b) eqn:Hcut.
    + destruct Hpt as [_ Hne]. rewrite orb_true_r. destruct (w.2) eqn:Hw; [done|].
      cbn [is_empty]. by apply tracks_flush.
    + rewrite orb_false_r, Hpt. destruct (is_empty w.2); cbn [negb]; [done|]. by apply tracks_flush.
Qed.

Lemma run_tracks (limits : Limits) (ops : list Op) :
  max_output_bytes limits ≤ i64_max → Forall (fun op => ascii (op_text op)) ops →
  tracks (run limits ops) (written_by ops).
Proof.
  intros H Ha. unfold run, written_by. generalize (new_ok limits H).
  assert (tracks (OutputBuffer_new limits) ([], [])) as Ht by (repeat split; constructor).
  revert Ht. generalize (OutputBuffer_new limits) as b, ([] : list str, [] : str) as w.
  induction Ha as [|op ops Hop Ha IH]; intros b w Ht Hok; [done|]. cbn [foldl].
  apply IH; [by apply tracks_apply|by apply apply_ok].
Qed.








(** ** Properties *)



(** As long as nothing was cut off and the text is ASCII, the rendered
    output is exactly the lines written, a line being ended by a line break in
    a fragment, by a block or by the end; the number of lines the notice
    gives is the number written, also when most are gone. *)
Theorem untruncated_output_is_complete (limits : Limits) (ops : list Op) :
  max_output_bytes limits ≤ i64_max → Forall (fun op => ascii (op_text op)) ops →
  let b := run limits ops in
  total_lines b = Z.min (count (written_by ops).1) u64_max
  ∧ (is_truncated b = false → render b = join 10 (written_by ops).1).
Proof.
  intros Hb Ha b. destruct (run_tracks limits ops Hb Ha) as (Hl & _ & _ & Hh). split; [done|].
  unfold is_truncated, render, rendered_lines. fold b in Hh. intros Hf. rewrite Hf, app_nil_r.
  by rewrite Hh.
Qed.

(** ** Witnesses *)

Definition small_limits : Limits := mkLimits 100 8 16 4 (dur_from_secs 1) 4 1024.
Definition small_ops : list Op :=
  [PushLine (lit "one"); PushFragment (lit "tw"); PushFragment [111; 10; 51]; Finish].


Lemma untruncated_output_is_complete_witness :
  render (run small_limits small_ops) = join 10 [lit "one"; lit "two"; lit "3"].
Proof.
  assert (Forall (fun op => ascii (op_text op)) small_ops) as Ha
    by (repeat (constructor; [repeat (constructor; [by vm_compute|]); constructor|]); constructor).
  destruct (untruncated_output_is_complete small_limits small_ops ltac:(by vm_compute) Ha) as [_ H].
  rewrite H; vm_compute; reflexivity.
Defined.

(** A fragment cut before a character of several bytes may leave a line that
    still fits: its rest is gone, with neither marker nor notice. *)
Example multibyte_cut_is_silent :
  let b := run (mkLimits 100 8 4 4 0 4 1024)
             [PushFragment (lit "abc" ++ [240; 159; 141; 138]); Finish] in
  is_truncated b = false ∧ render b = lit "abc".
Proof. by vm_compute. Qed.
