(* ===== verification/CasePattern.v ===== *)
(** * Patterns of [case]

    [dekopon-shell/src/interp/case_pattern.rs]: the pattern of a [case] branch,
    each character quoted or not, against a subject. The code removes
    backslashes, cuts the pattern into tokens and fills a table row by row,
    reading the deadline as it goes.

    [cmd] is the code that may read the deadline: a function of the number of
    reads so far, [env] being what the clock shows at each. The sizes of the
    types whose layout the compiler chooses are parameters. *)

From Stdlib Require Import ZArith Lia.
From stdpp Require Import base strings list numbers.
From S2P Require Import Prelude RustStr ProcessTree.

Inductive PatternChar : Type :=
| Unquoted (c : Z)
| Quoted (c : Z).

Definition character (p : PatternChar) : Z := match p with Unquoted c | Quoted c => c end.
Definition is_unquoted (p : PatternChar) (expected : Z) : bool :=
  match p with Unquoted c => c =? expected | Quoted _ => false end.

Inductive Token : Type :=
| Literal (c : Z)
| Any
| Star
| Bracket (members : list PatternChar) (negated : bool).

Inductive UnsupportedBracket : Type := PosixClass | Collating | Equivalence.

Inductive CommandFailure : Type :=
| Limit (e : LimitExceeded)
| Usage (u : UnsupportedBracket).

Section Matches.
Context (t : TreeContext) (env : nat → Env).
Context (size_PatternChar size_Option_usize size_Token : Z).

Definition cmd (A : Type) : Type := nat → result CommandFailure A * nat.
Definition cret {A} (a : A) : cmd A := fun i => (Ok a, i).
Definition cfail {A} (e : CommandFailure) : cmd A := fun i => (Err e, i).
Definition cbind {A B} (m : cmd A) (k : A → cmd B) : cmd B := fun i =>
  match m i with (Ok a, i) => k a i | (Err e, i) => (Err e, i) end.

Notation "x ⇐ m ; k" := (cbind m (fun x => k))
  (at level 80, m at level 79, k at level 80, right associativity) : dekopon_scope.

(** [Budget::check_deadline], and every 256th time. *)
Definition read_deadline : cmd unit := fun i =>
  (match ProcessTree.check_deadline t (env i) with Ok _ => Ok tt | Err e => Err (Limit e) end, S i).

Definition check_deadline (index : nat) : cmd unit :=
  if (index mod 256 =? 0)%nat then read_deadline else cret tt.

(** *** Backslashes *)

(** [pending.take().or_else(|| input.next())]. *)
Definition next_char (pending : option PatternChar) (input : list PatternChar)
    : option (PatternChar * list PatternChar) :=
  match pending, input with
  | Some c, _ => Some (c, input)
  | None, c :: input => Some (c, input)
  | None, [] => None
  end.

Fixpoint normalize_loop (fuel : nat) (pending : option PatternChar) (input normalized : list PatternChar)
    : cmd (list PatternChar) :=
  match fuel with
  | O => cret normalized
  | S fuel =>
      match next_char pending input with
      | None => cret normalized
      | Some (c, input) =>
          _ ⇐ check_deadline (length normalized);
          if is_unquoted c 92 then
            match input with
            | Unquoted d :: input => normalize_loop fuel None input (normalized ++ [Quoted d])
            | Quoted d :: input =>
                normalize_loop fuel (Some (Unquoted d)) input (normalized ++ [Quoted 92])
            | [] => normalize_loop fuel None [] (normalized ++ [Quoted 92])
            end
          else normalize_loop fuel None input (normalized ++ [c])
      end
  end.

(** Each turn leaves fewer characters, the pending one counted. *)
Definition normalize (pattern : list PatternChar) : cmd (list PatternChar) :=
  normalize_loop (length pattern) None pattern [].

(** *** Tokens *)

(** [closers], filled from the end: the next unquoted closing bracket at or
    after each index. *)
Fixpoint closers_loop (normalized : list PatternChar) (n : nat) (closers : list (option nat))
    : cmd (list (option nat)) :=
  match n with
  | O => cret closers
  | S index =>
      _ ⇐ check_deadline index;
      let here :=
        match normalized !! index with
        | Some c => if is_unquoted c 93 then Some index else hd None closers
        | None => hd None closers
        end in
      closers_loop normalized index (here :: closers)
  end.

(** [slice::windows(2)] of a bracket. *)
Fixpoint reject_posix (index : nat) (contents : list PatternChar) : cmd unit :=
  match contents with
  | a :: (b :: _) as rest =>
      _ ⇐ check_deadline index;
      if is_unquoted a 91 then
        if is_unquoted b 58 then cfail (Usage PosixClass)
        else if is_unquoted b 46 then cfail (Usage Collating)
        else if is_unquoted b 61 then cfail (Usage Equivalence)
        else reject_posix (S index) rest
      else reject_posix (S index) rest
  | _ => cret tt
  end.

Definition is_some_unquoted (o : option PatternChar) (c : Z) : bool :=
  is_some_and o (fun p => is_unquoted p c).

(** The bracket that opens at [index], if it closes: whether it is negated,
    where its members start and where it ends. *)
Definition bracket_at (normalized : list PatternChar) (closers : list (option nat)) (index : nat)
    : option (bool * nat * nat) :=
  let start := (index + 1)%nat in
  let negated := is_some_unquoted (normalized !! start) 33 || is_some_unquoted (normalized !! start) 94 in
  let members := (start + if negated then 1 else 0)%nat in
  let after_initial_close :=
    (members + if is_some_unquoted (normalized !! members) 93 then 1 else 0)%nat in
  match closers !! after_initial_close with
  | Some (Some stop) => Some (negated, members, stop)
  | _ => None
  end.

Fixpoint token_loop (fuel : nat) (normalized : list PatternChar) (closers : list (option nat))
    (index : nat) (tokens : list Token) : cmd (list Token) :=
  match fuel with
  | O => cret tokens
  | S fuel =>
      match normalized !! index with
      | None => cret tokens
      | Some c =>
          _ ⇐ check_deadline (length tokens);
          if is_unquoted c 42 then token_loop fuel normalized closers (index + 1) (tokens ++ [Star])
          else if is_unquoted c 63 then token_loop fuel normalized closers (index + 1) (tokens ++ [Any])
          else if is_unquoted c 91 then
            match bracket_at normalized closers index with
            | Some (negated, members, stop) =>
                let contents := take (stop - members) (drop members normalized) in
                _ ⇐ reject_posix 0 contents;
                token_loop fuel normalized closers (stop + 1) (tokens ++ [Bracket contents negated])
            | None => token_loop fuel normalized closers (index + 1) (tokens ++ [Literal 91])
            end
          else token_loop fuel normalized closers (index + 1) (tokens ++ [Literal (character c)])
      end
  end.

(** *** The table *)

(** The members of a bracket, ranges taken three at a time. *)
Fixpoint members_match (visited : nat) (members : list PatternChar) (c : Z) (matched : bool) : cmd bool :=
  match members with
  | [] => cret matched
  | a :: rest =>
      _ ⇐ check_deadline visited;
      match rest with
      | dash :: b :: rest' =>
          if is_unquoted dash 45
          then members_match (S visited) rest' c (matched || in_range (character a) (character b) c)
          else members_match (S visited) rest c (matched || (character a =? c))
      | _ => members_match (S visited) rest c (matched || (character a =? c))
      end
  end.

Definition Token_matches (token : Token) (c : Z) : cmd bool :=
  match token with
  | Literal literal => cret (literal =? c)
  | Any | Star => cret true
  | Bracket members negated =>
      matched ⇐ members_match 0 members c false;
      cret (xorb matched negated)
  end.

Fixpoint star_loop (index : nat) (subject : list Z) (previous : list bool) (last : bool)
    : cmd (list bool) :=
  match subject, previous with
  | _ :: subject, p :: previous =>
      _ ⇐ check_deadline index;
      rest ⇐ star_loop (S index) subject previous (p || last);
      cret ((p || last) :: rest)
  | _, _ => cret []
  end.

Fixpoint one_loop (index : nat) (token : Token) (subject : list Z) (previous : list bool)
    : cmd (list bool) :=
  match subject, previous with
  | c :: subject, p :: previous =>
      _ ⇐ check_deadline index;
      v ⇐ (if p : bool then Token_matches token c else cret false);
      rest ⇐ one_loop (S index) token subject previous;
      cret (v :: rest)
  | _, _ => cret []
  end.

Definition next_row (token : Token) (subject : list Z) (previous : list bool) : cmd (list bool) :=
  match token with
  | Star =>
      let first := hd false previous in
      rest ⇐ star_loop 0 subject (tl previous) first;
      cret (first :: rest)
  | _ =>
      rest ⇐ one_loop 0 token subject previous;
      cret (false :: rest)
  end.

Fixpoint rows (tokens : list Token) (subject : list Z) (previous : list bool) : cmd (list bool) :=
  match tokens with
  | [] => cret previous
  | token :: tokens =>
      _ ⇐ read_deadline;
      next ⇐ next_row token subject previous;
      rows tokens subject next
  end.

(** [subject.chars().enumerate()] with its checks. *)
Fixpoint collect_chars (index : nat) (characters : list Z) : cmd (list Z) :=
  match characters with
  | [] => cret []
  | c :: rest =>
      _ ⇐ check_deadline index;
      rest ⇐ collect_chars (S index) rest;
      cret (c :: rest)
  end.

(** What [matches] does once the scratch space is charged. *)
Definition matches_body (pattern : list PatternChar) (subject : str) : cmd bool :=
  normalized ⇐ normalize pattern;
  closers ⇐ closers_loop normalized (length normalized) [None];
  tokens ⇐ token_loop (length normalized) normalized closers 0 [];
  subject ⇐ collect_chars 0 (chars subject);
  last ⇐ rows tokens subject (true :: replicate (length subject) false);
  _ ⇐ read_deadline;
  cret (default false (last !! length subject)).

Definition scratch_bytes (pattern : list PatternChar) (subject : str) : Z :=
  sat_add_u64
    (sat_add_u64
       (sat_add_u64
          (sat_mul_u64 (Z.of_nat (length pattern)) (size_PatternChar + size_Option_usize + size_Token))
          size_Option_usize)
       (sat_mul_u64 (len subject) (4 + 2)))
    2.

(** [matches]: the guard on the scratch space is dropped at the end. *)
Definition matches (pattern : list PatternChar) (subject : str) (s : Shared) (i : nat)
    : result CommandFailure bool * Shared :=
  match retain t (scratch_bytes pattern subject) s with
  | (Err e, s) => (Err (Limit e), s)
  | (Ok guard, s) => ((matches_body pattern subject i).1, RetainedBytes_drop guard s)
  end.

(** ** Specification *)

(** An unquoted backslash quotes the character after it, or itself at the
    end; before a quoted character it stands for itself and the character is
    read as unquoted. *)
Fixpoint unescaped (escape : bool) (input : list PatternChar) : list PatternChar :=
  match input with
  | [] => if escape then [Quoted 92] else []
  | c :: rest =>
      if escape then
        match c with
        | Unquoted d => Quoted d :: unescaped false rest
        | Quoted d =>
            Quoted 92 :: (if d =? 92 then unescaped true rest else Unquoted d :: unescaped false rest)
        end
      else if is_unquoted c 92 then unescaped true rest
      else c :: unescaped false rest
  end.

(** A bracket opens before [l]: an optional mark of negation, one member of any
    kind, members up to the first unquoted closing bracket. *)
Definition opens_bracket (l : list PatternChar) (negated : bool) (members rest : list PatternChar)
    : Prop :=
  ∃ mark m ms, members = m :: ms ∧ l = mark ++ members ++ Unquoted 93 :: rest
    ∧ Forall (fun p => is_unquoted p 93 = false) ms
    ∧ (if negated then mark = [Unquoted 33] ∨ mark = [Unquoted 94]
       else mark = [] ∧ m ≠ Unquoted 33 ∧ m ≠ Unquoted 94).

Inductive tokenizes : list PatternChar → list Token → Prop :=
| tk_nil : tokenizes [] []
| tk_star l ts : tokenizes l ts → tokenizes (Unquoted 42 :: l) (Star :: ts)
| tk_any l ts : tokenizes l ts → tokenizes (Unquoted 63 :: l) (Any :: ts)
| tk_bracket l negated members rest ts :
    opens_bracket l negated members rest → tokenizes rest ts →
    tokenizes (Unquoted 91 :: l) (Bracket members negated :: ts)
| tk_open l ts :
    (∀ negated members rest, ~ opens_bracket l negated members rest) → tokenizes l ts →
    tokenizes (Unquoted 91 :: l) (Literal 91 :: ts)
| tk_char c l ts :
    c ≠ Unquoted 42 → c ≠ Unquoted 63 → c ≠ Unquoted 91 → tokenizes l ts →
    tokenizes (c :: l) (Literal (character c) :: ts).

(** A character is a member: alone, or within a range of an unquoted dash
    between two members, read from the left. *)
Fixpoint is_member (c : Z) (members : list PatternChar) : bool :=
  match members with
  | [] => false
  | a :: rest =>
      match rest with
      | dash :: b :: rest' =>
          if is_unquoted dash 45 then in_range (character a) (character b) c || is_member c rest'
          else (character a =? c) || is_member c rest
      | _ => (character a =? c) || is_member c rest
      end
  end.

Definition token_ok (token : Token) (c : Z) : bool :=
  match token with
  | Literal literal => literal =? c
  | Any | Star => true
  | Bracket members negated => xorb (is_member c members) negated
  end.

(** What a token matches, and a pattern: its tokens match the pieces of a cut
    of the subject. *)
Definition token_piece (token : Token) (piece : list Z) : Prop :=
  match token with
  | Star => True
  | _ => ∃ c, piece = [c] ∧ token_ok token c = true
  end.

Definition glob (tokens : list Token) (subject : list Z) : Prop :=
  ∃ pieces, subject = concat pieces ∧ Forall2 token_piece tokens pieces.

(** The first POSIX class of a bracket, and of a pattern. *)
Fixpoint posix (contents : list PatternChar) : option UnsupportedBracket :=
  match contents with
  | a :: (b :: _) as rest =>
      if is_unquoted a 91 then
        if is_unquoted b 58 then Some PosixClass
        else if is_unquoted b 46 then Some Collating
        else if is_unquoted b 61 then Some Equivalence
        else posix rest
      else posix rest
  | _ => None
  end.

Definition token_posix (token : Token) : option UnsupportedBracket :=
  match token with Bracket members _ => posix members | _ => None end.

Fixpoint first_posix (tokens : list Token) : option UnsupportedBracket :=
  match tokens with
  | [] => None
  | token :: tokens =>
      match token_posix token with Some u => Some u | None => first_posix tokens end
  end.

(** ** What a command yields

    Unless a deadline had passed at one of the reads. *)

Definition past_deadline (e : LimitExceeded) : Prop :=
  ∃ j, ProcessTree.check_deadline t (env j) = Err e.

Definition yields {A} (m : cmd A) (r : result UnsupportedBracket A) : Prop :=
  ∀ i, (∃ e, past_deadline e ∧ (m i).1 = Err (Limit e))
       ∨ (m i).1 = match r with Ok a => Ok a | Err u => Err (Usage u) end.

Lemma yields_ret {A} (a : A) : yields (cret a) (Ok a).
Proof. by right. Qed.

Lemma yields_fail {A} (u : UnsupportedBracket) : yields (A:=A) (cfail (Usage u)) (Err u).
Proof. by right. Qed.

Lemma yields_bind {A B} (m : cmd A) (k : A → cmd B) (a : A) r :
  yields m (Ok a) → yields (k a) r → yields (cbind m k) r.
Proof.
  intros Hm Hk i. unfold cbind. specialize (Hm i). destruct (m i) as [[a'|e] j]; cbn in Hm.
  - destruct Hm as [(e & _ & [=])|[= ->]]. apply Hk.
  - destruct Hm as [(e' & He & [= ->])|[=]]. left. by exists e'.
Qed.

Lemma yields_bind_err {A B} (m : cmd A) (k : A → cmd B) (u : UnsupportedBracket) :
  yields m (Err u) → yields (cbind m k) (Err u).
Proof.
  intros Hm i. unfold cbind. specialize (Hm i). destruct (m i) as [[a'|e] j]; cbn in *.
  - destruct Hm as [(e & _ & [=])|[=]].
  - destruct Hm as [(e' & He & [= ->])|[= ->]]; [left; by exists e'|by right].
Qed.

Lemma yields_read : yields read_deadline (Ok tt).
Proof.
  intros i. unfold read_deadline. destruct (ProcessTree.check_deadline t (env i)) as [|e] eqn:H; cbn.
  - by right.
  - left. exists e. split; [by exists i|done].
Qed.

Lemma yields_check (n : nat) : yields (check_deadline n) (Ok tt).
Proof. unfold check_deadline. destruct (_ =? _)%nat; [apply yields_read|apply yields_ret]. Qed.

Ltac checked := eapply yields_bind; [apply yields_check|].

(** *** Backslashes *)

Definition option_list {A} (o : option A) : list A := match o with Some a => [a] | None => [] end.

Definition unescaped_from (pending : option Z) (input : list PatternChar) : list PatternChar :=
  match pending with
  | None => unescaped false input
  | Some d => if d =? 92 then unescaped true input else Unquoted d :: unescaped false input
  end.

Lemma normalize_loop_yields (fuel : nat) (pending : option Z) (input acc : list PatternChar) :
  (length input + length (option_list pending) ≤ fuel)%nat →
  yields (normalize_loop fuel (Unquoted <$> pending) input acc)
    (Ok (acc ++ unescaped_from pending input)).
Proof.
  revert pending input acc. induction fuel as [|fuel IH]; intros pending input acc Hf.
  { destruct pending, input; cbn in Hf; try lia. cbn. rewrite app_nil_r. apply yields_ret. }
  assert (∀ c input' acc, (length input' ≤ fuel)%nat →
    yields (_ ⇐ check_deadline (length acc);
      if is_unquoted c 92 then
        match input' with
        | Unquoted d :: input => normalize_loop fuel None input (acc ++ [Quoted d])
        | Quoted d :: input => normalize_loop fuel (Some (Unquoted d)) input (acc ++ [Quoted 92])
        | [] => normalize_loop fuel None [] (acc ++ [Quoted 92])
        end
      else normalize_loop fuel None input' (acc ++ [c]))
      (Ok (acc ++ if is_unquoted c 92 then unescaped true input' else c :: unescaped false input'))) as Hgo.
  { clear acc. intros c input' acc Hl. checked. destruct (is_unquoted c 92).
    - destruct input' as [|[d|d] input']; cbn in Hl.
      + replace (acc ++ unescaped true []) with ((acc ++ [Quoted 92]) ++ unescaped_from None [])
          by (cbn; by rewrite <- app_assoc). apply (IH None). cbn. lia.
      + replace (acc ++ unescaped true (Unquoted d :: input'))
          with ((acc ++ [Quoted d]) ++ unescaped_from None input') by (cbn; by rewrite <- app_assoc).
        apply (IH None). cbn. lia.
      + replace (acc ++ unescaped true (Quoted d :: input'))
          with ((acc ++ [Quoted 92]) ++ unescaped_from (Some d) input') by (cbn; by rewrite <- app_assoc).
        apply (IH (Some d)). cbn. lia.
    - replace (acc ++ c :: unescaped false input') with ((acc ++ [c]) ++ unescaped_from None input')
        by (cbn; by rewrite <- app_assoc). apply (IH None). cbn. lia. }
  destruct pending as [d|]; cbn [fmap option_fmap option_map normalize_loop next_char].
  - apply (Hgo (Unquoted d)). cbn in Hf. lia.
  - destruct input as [|c input]; cbn in Hf.
    + cbn. rewrite app_nil_r. apply yields_ret.
    + apply (Hgo c). lia.
Qed.

Lemma normalize_yields (pattern : list PatternChar) :
  yields (normalize pattern) (Ok (unescaped false pattern)).
Proof. apply (normalize_loop_yields _ None pattern []). cbn. lia. Qed.

(** *** Closing brackets *)

Fixpoint close_position (l : list PatternChar) : option nat :=
  match l with
  | [] => None
  | c :: l => if is_unquoted c 93 then Some 0%nat else S <$> close_position l
  end.

Definition closer_from (l : list PatternChar) (i : nat) : option nat :=
  Nat.add i <$> close_position (drop i l).

Definition closers_of (l : list PatternChar) : list (option nat) :=
  closer_from l <$> seq 0 (length l + 1).

Lemma closer_from_step (l : list PatternChar) (i : nat) :
  (i < length l)%nat →
  closer_from l i
  = match l !! i with
    | Some c => if is_unquoted c 93 then Some i else closer_from l (S i)
    | None => closer_from l (S i)
    end.
Proof.
  intros Hi. destruct (lookup_lt_is_Some_2 l i Hi) as [c Hc]. rewrite Hc.
  unfold closer_from. rewrite (drop_S l c i Hc). cbn. destruct (is_unquoted c 93); cbn.
  - f_equal. lia.
  - destruct (close_position (drop (S i) l)); cbn; f_equal. lia.
Qed.

Lemma closers_loop_yields (l : list PatternChar) (n : nat) :
  (n ≤ length l)%nat →
  yields (closers_loop l n (closer_from l <$> seq n (length l + 1 - n))) (Ok (closers_of l)).
Proof.
  induction n as [|index IH]; intros Hn; cbn [closers_loop].
  { rewrite Nat.sub_0_r. apply yields_ret. }
  checked. replace (length l + 1 - S index)%nat with (S (length l - S index))%nat by lia.
  cbn [seq fmap list_fmap hd]. rewrite <- closer_from_step by lia.
  specialize (IH ltac:(lia)). replace (length l + 1 - index)%nat with (S (S (length l - S index)))%nat in IH
    by lia. exact IH.
Qed.

Lemma closers_yields (l : list PatternChar) :
  yields (closers_loop l (length l) [None]) (Ok (closers_of l)).
Proof.
  pose proof (closers_loop_yields l (length l) ltac:(lia)) as H.
  replace (length l + 1 - length l)%nat with 1%nat in H by lia. cbn in H.
  unfold closer_from at 1 in H. by rewrite drop_all in H.
Qed.

Lemma closers_lookup (l : list PatternChar) (i : nat) :
  (i ≤ length l)%nat → closers_of l !! i = Some (closer_from l i).
Proof.
  intros Hi. unfold closers_of. rewrite list_lookup_fmap, lookup_seq_lt by lia. done.
Qed.

Lemma close_position_Some (l : list PatternChar) (n : nat) :
  close_position l = Some n ↔
  l = take n l ++ Unquoted 93 :: drop (S n) l ∧ Forall (fun p => is_unquoted p 93 = false) (take n l)
  ∧ (n < length l)%nat.
Proof.
  revert n. induction l as [|c l IH]; intros n; cbn [close_position].
  { split; [done|]. cbn. lia. }
  destruct (is_unquoted c 93) eqn:Hc.
  - split.
    + intros [= <-]. destruct c as [c|c]; [|done]. cbn in Hc. apply Z.eqb_eq in Hc as ->. cbn.
      split; [done|]. split; [constructor|lia].
    + intros (_ & Hf & _). destruct n; [done|]. cbn in Hf. inversion Hf. congruence.
  - destruct n as [|n].
    + split; [by destruct (close_position l)|]. intros ([= ->] & _). done.
    + cbn. specialize (IH n). destruct (close_position l) as [m|]; cbn in *.
      * split.
        -- intros [= ->]. destruct IH as [(He & Hf & Hl) _]; [done|]. split; [by rewrite <- He|].
           split; [by constructor|lia].
        -- intros ([= He] & Hf & Hl). inversion Hf; subst. f_equal. f_equal.
           assert (Some m = Some n) as [= ->]; [|done]. apply IH. auto with lia.
      * split; [done|]. intros ([= He] & Hf & Hl). inversion Hf; subst.
        assert (None = Some n) by (apply IH; auto with lia). done.
Qed.

(** *** Brackets *)

Definition negated_at (l : list PatternChar) : bool :=
  is_some_unquoted (head l) 33 || is_some_unquoted (head l) 94.
Definition body_at (l : list PatternChar) : list PatternChar := if negated_at l then tail l else l.

Definition members_index (l : list PatternChar) (index : nat) : nat :=
  (S index + if negated_at (drop (S index) l) then 1 else 0)%nat.

Lemma head_drop (l : list PatternChar) (i : nat) : head (drop i l) = l !! i.
Proof. revert i. induction l as [|c l IH]; intros [|i]; cbn; try done. Qed.

Lemma body_at_drop (l : list PatternChar) (index : nat) :
  body_at (drop (S index) l) = drop (members_index l index) l.
Proof.
  unfold body_at, members_index. destruct (negated_at _).
  - rewrite <- drop_drop. by destruct (drop (S index) l).
  - by rewrite Nat.add_0_r.
Qed.

(** The index arithmetic of [bracket_at], on what follows the bracket. *)
Lemma bracket_at_body (l : list PatternChar) (index : nat) :
  (index < length l)%nat →
  bracket_at l (closers_of l) index
  = match body_at (drop (S index) l) with
    | [] => None
    | m :: ms =>
        match close_position ms with
        | Some k =>
            Some (negated_at (drop (S index) l), members_index l index, members_index l index + 1 + k)%nat
        | None => None
        end
    end.
Proof.
  intros Hi. unfold bracket_at. rewrite Nat.add_1_r, <- !head_drop.
  change (is_some_unquoted (head (drop (S index) l)) 33 || is_some_unquoted (head (drop (S index) l)) 94)
    with (negated_at (drop (S index) l)).
  fold (members_index l index). rewrite body_at_drop.
  assert (members_index l index ≤ length l)%nat as Hm.
  { unfold members_index, negated_at. rewrite head_drop.
    destruct (l !! S index) as [c|] eqn:Hc; [|cbn; lia]. apply lookup_lt_Some in Hc.
    destruct (_ || _); lia. }
  set (j := members_index l index) in *. clearbody j. destruct (drop j l) as [|m ms] eqn:Hd; cbn [head].
  - cbn. rewrite Nat.add_0_r, closers_lookup by done. unfold closer_from. by rewrite Hd.
  - assert (l !! j = Some m) as Hl by (by rewrite <- head_drop, Hd).
    pose proof (lookup_lt_Some _ _ _ Hl) as Hlt.
    assert (drop (S j) l = ms) as Hms by (rewrite (drop_S l m j Hl) in Hd; by injection Hd).
    assert (closers_of l !! (j + if is_some_unquoted (Some m) 93 then 1 else 0)%nat
            = Some (closer_from l (S j))) as ->.
    { cbn. destruct (is_unquoted m 93) eqn:Hq.
      - rewrite Nat.add_1_r. apply closers_lookup. lia.
      - rewrite Nat.add_0_r, closers_lookup by lia. f_equal.
        rewrite closer_from_step, Hl, Hq by done. done. }
    unfold closer_from. rewrite Hms. destruct (close_position ms); cbn; [|done].
    do 2 f_equal. lia.
Qed.

Lemma opens_bracket_iff (l : list PatternChar) (negated : bool) (members rest : list PatternChar) :
  opens_bracket l negated members rest ↔
  negated = negated_at l
  ∧ ∃ m ms k, body_at l = m :: ms ∧ close_position ms = Some k
    ∧ members = m :: take k ms ∧ rest = drop (S k) ms.
Proof.
  split.
  - intros (mark & m & ms & -> & Hl & Hms & Hn).
    assert (negated_at l = negated ∧ body_at l = (m :: ms) ++ Unquoted 93 :: rest) as [<- Hb].
    { subst l. unfold body_at. destruct negated; [destruct Hn as [->| ->]; done|].
      destruct Hn as (-> & H1 & H2). unfold negated_at. cbn.
      assert (is_unquoted m 33 = false ∧ is_unquoted m 94 = false) as [-> ->]; [|done].
      destruct m as [c|]; [|done]. cbn. rewrite !Z.eqb_neq. split; congruence. }
    split; [done|]. exists m, (ms ++ Unquoted 93 :: rest), (length ms). split; [done|].
    rewrite take_app_length. rewrite close_position_Some, take_app_length, length_app.
    replace (S (length ms)) with (length ms + 1)%nat by lia. rewrite drop_app_add. cbn.
    split; [|done]. split; [done|]. split; [done|lia].
  - intros (-> & m & ms & k & Hb & Hk & -> & ->). apply close_position_Some in Hk as (He & Hf & _).
    unfold opens_bracket. unfold body_at in Hb. destruct (negated_at l) eqn:Hn.
    + destruct l as [|c l]; [done|]. cbn in Hb. subst l.
      exists [c], m, (take k ms). split; [done|]. split; [cbn; by rewrite <- He|]. split; [done|].
      unfold negated_at in Hn. cbn in Hn. destruct c as [c|]; [|done]. cbn in Hn.
      rewrite orb_true_iff, !Z.eqb_eq in Hn. destruct Hn as [->| ->]; auto.
    + subst l. exists [], m, (take k ms). split; [done|]. split; [cbn; by rewrite <- He|].
      split; [done|]. split; [done|]. unfold negated_at in Hn. cbn in Hn.
      split; intros ->; cbn in Hn; done.
Qed.

Lemma bracket_at_Some (l : list PatternChar) (index : nat) (negated : bool) (members stop : nat) :
  (index < length l)%nat → bracket_at l (closers_of l) index = Some (negated, members, stop) →
  opens_bracket (drop (S index) l) negated (take (stop - members) (drop members l)) (drop (S stop) l)
  ∧ (index < stop)%nat.
Proof.
  intros Hi He. rewrite bracket_at_body in He by done. rewrite opens_bracket_iff.
  rewrite body_at_drop in *. destruct (drop (members_index l index) l) as [|m ms] eqn:Hbody; [done|].
  destruct (close_position ms) as [k|] eqn:Hk; [|done]. apply Some_inj in He.
  apply pair_equal_spec in He as [[<- <-]%pair_equal_spec <-].
  set (j := members_index l index) in *. assert (S index ≤ j)%nat by (unfold j, members_index; lia).
  split; [|lia]. split; [done|]. exists m, ms, k. split; [done|]. split; [done|].
  replace (j + 1 + k - j)%nat with (S k) by lia. rewrite Hbody. split; [done|].
  replace (S (j + 1 + k)) with (j + S (S k))%nat by lia. by rewrite <- drop_drop, Hbody.
Qed.

Lemma bracket_at_None (l : list PatternChar) (index : nat) :
  (index < length l)%nat → bracket_at l (closers_of l) index = None →
  ∀ negated members rest, ~ opens_bracket (drop (S index) l) negated members rest.
Proof.
  intros Hi He negated members rest (_ & m & ms & k & Hbody & Hk & _)%opens_bracket_iff.
  rewrite bracket_at_body in He by done. by rewrite Hbody, Hk in He.
Qed.

(** *** Tokens *)

Lemma reject_posix_yields (index : nat) (contents : list PatternChar) :
  yields (reject_posix index contents) (match posix contents with Some u => Err u | None => Ok tt end).
Proof.
  revert index. induction contents as [|a contents IH]; intros index; [apply yields_ret|].
  destruct contents as [|b contents]; [apply yields_ret|]. cbn [reject_posix posix].
  checked. destruct (is_unquoted a 91); [|apply IH].
  destruct (is_unquoted b 58); [apply yields_fail|]. destruct (is_unquoted b 46); [apply yields_fail|].
  destruct (is_unquoted b 61); [apply yields_fail|]. apply IH.
Qed.

(** The tokens from an index on, and the refusal of a class among them. *)
Definition tokens_or_refusal (tokens ts : list Token) : result UnsupportedBracket (list Token) :=
  match first_posix ts with Some u => Err u | None => Ok (tokens ++ ts) end.

Lemma tokens_or_refusal_cons (tokens ts : list Token) (token : Token) :
  token_posix token = None →
  tokens_or_refusal tokens (token :: ts) = tokens_or_refusal (tokens ++ [token]) ts.
Proof. intros H. unfold tokens_or_refusal. cbn. rewrite H. by rewrite <- app_assoc. Qed.

Lemma token_loop_yields (fuel : nat) (l : list PatternChar) (index : nat) :
  (length l ≤ fuel + index)%nat →
  ∃ ts, tokenizes (drop index l) ts
  ∧ ∀ tokens, yields (token_loop fuel l (closers_of l) index tokens) (tokens_or_refusal tokens ts).
Proof.
  revert index. induction fuel as [|fuel IH]; intros index Hf.
  { exists []. rewrite drop_ge by lia. split; [constructor|]. intros tokens. cbn.
    unfold tokens_or_refusal. cbn. rewrite app_nil_r. apply yields_ret. }
  cbn [token_loop]. destruct (l !! index) as [c|] eqn:Hc.
  2:{ apply lookup_ge_None in Hc. exists []. rewrite drop_ge by lia. split; [constructor|].
      intros tokens. unfold tokens_or_refusal. cbn. rewrite app_nil_r. apply yields_ret. }
  pose proof (lookup_lt_Some _ _ _ Hc) as Hlt. rewrite (drop_S l c index Hc), !Nat.add_1_r.
  destruct (IH (S index) ltac:(lia)) as (ts & Hts & Hy).
  assert (∀ token, token_posix token = None → ∀ tokens,
    yields (token_loop fuel l (closers_of l) (S index) (tokens ++ [token]))
      (tokens_or_refusal tokens (token :: ts))) as Hgo.
  { intros token Ht tokens. rewrite tokens_or_refusal_cons by done. apply Hy. }
  destruct (is_unquoted c 42) eqn:H42.
  { destruct c as [c|]; [|done]. apply Z.eqb_eq in H42 as ->. exists (Star :: ts).
    split; [by constructor|]. intros tokens. checked. by apply Hgo. }
  destruct (is_unquoted c 63) eqn:H63.
  { destruct c as [c|]; [|done]. apply Z.eqb_eq in H63 as ->. exists (Any :: ts).
    split; [by constructor|]. intros tokens. checked. by apply Hgo. }
  destruct (is_unquoted c 91) eqn:H91.
  2:{ exists (Literal (character c) :: ts).
      split; [constructor; try done; by intros ->|]. intros tokens. checked. by apply Hgo. }
  destruct c as [c|]; [|done]. apply Z.eqb_eq in H91 as ->.
  destruct (bracket_at l (closers_of l) index) as [[[negated members] stop]|] eqn:He.
  - destruct (bracket_at_Some l index negated members stop Hlt He) as [Ho Hs].
    destruct (IH (S stop) ltac:(lia)) as (ts' & Hts' & Hy').
    set (contents := take (stop - members) (drop members l)) in *.
    exists (Bracket contents negated :: ts'). split; [by econstructor|].
    intros tokens. checked. pose proof (reject_posix_yields 0 contents) as Hp. rewrite Nat.add_1_r.
    destruct (posix contents) as [u|] eqn:Hpos.
    + unfold tokens_or_refusal. cbn [first_posix token_posix]. rewrite Hpos. by apply yields_bind_err.
    + eapply yields_bind; [exact Hp|]. rewrite tokens_or_refusal_cons by done. apply Hy'.
  - exists (Literal 91 :: ts). split.
    + constructor; [|done]. by apply bracket_at_None.
    + intros tokens. checked. by apply Hgo.
Qed.

Lemma tokens_yields (l : list PatternChar) :
  ∃ ts, tokenizes l ts
  ∧ yields (token_loop (length l) l (closers_of l) 0 []) (tokens_or_refusal [] ts).
Proof. destruct (token_loop_yields (length l) l 0 ltac:(lia)) as (ts & ? & ?). by exists ts. Qed.

(** *** The table *)

Lemma members_match_yields (members : list PatternChar) (visited : nat) (c : Z) (matched : bool) :
  yields (members_match visited members c matched) (Ok (matched || is_member c members)).
Proof.
  remember (length members) as n eqn:Hn. revert members Hn visited matched.
  induction n as [n IH] using lt_wf_ind. intros members Hn visited matched.
  destruct members as [|a rest]; cbn [members_match is_member].
  { rewrite orb_false_r. apply yields_ret. }
  assert (∀ ms v b, (length ms < n)%nat →
    yields (members_match v ms c (matched || b)) (Ok (matched || (b || is_member c ms)))) as Hgo.
  { intros ms v b Hl. rewrite orb_assoc. by eapply IH. }
  checked. destruct rest as [|dash [|b rest]]; cbn in Hn.
  - apply Hgo. cbn. lia.
  - apply Hgo. cbn. lia.
  - destruct (is_unquoted dash 45); apply Hgo; cbn; lia.
Qed.

Lemma Token_matches_yields (token : Token) (c : Z) :
  yields (Token_matches token c) (Ok (token_ok token c)).
Proof.
  destruct token; try apply yields_ret. eapply yields_bind; [apply members_match_yields|]. apply yields_ret.
Qed.

Lemma glob_snoc (ts : list Token) (token : Token) (s : list Z) :
  glob (ts ++ [token]) s ↔ ∃ a b, s = a ++ b ∧ glob ts a ∧ token_piece token b.
Proof.
  unfold glob. split.
  - intros (pieces & -> & Hp). apply Forall2_app_inv_l in Hp as (p1 & p2 & H1 & H2 & ->).
    inversion H2 as [|? b ? ? Hb Hnil]; subst. inversion Hnil; subst.
    exists (concat p1), b. rewrite concat_app. cbn. rewrite app_nil_r. eauto.
  - intros (a & b & -> & (pieces & -> & Hp) & Hb). exists (pieces ++ [b]).
    rewrite concat_app. cbn. rewrite app_nil_r. split; [done|]. apply Forall2_app; [done|].
    by constructor.
Qed.

(** The row of a list of tokens: whether they match each prefix. *)
Definition row_ok (ts : list Token) (subject : list Z) (row : list bool) : Prop :=
  length row = S (length subject)
  ∧ ∀ i b, row !! i = Some b → (b = true ↔ glob ts (take i subject)).

Lemma glob_star (ts : list Token) (subject : list Z) (i : nat) :
  (i ≤ length subject)%nat →
  glob (ts ++ [Star]) (take i subject) ↔ ∃ j, (j ≤ i)%nat ∧ glob ts (take j subject).
Proof.
  intros Hi. rewrite glob_snoc. split.
  - intros (a & b & Hab & Ha & _). exists (length a).
    pose proof (f_equal length Hab) as Hl. rewrite length_take, length_app in Hl.
    assert (take (length a) (take i subject) = a) as Hta by (rewrite Hab; apply take_app_length).
    rewrite take_take, Nat.min_l in Hta by lia. rewrite Hta. split; [lia|done].
  - intros (j & Hj & Hg). exists (take j subject), (drop j (take i subject)).
    split; [|done]. rewrite <- (take_drop j (take i subject)) at 1. f_equal.
    rewrite take_take. f_equal. lia.
Qed.

Lemma glob_one (ts : list Token) (token : Token) (subject : list Z) (i : nat) (c : Z) :
  token ≠ Star → subject !! i = Some c →
  glob (ts ++ [token]) (take (S i) subject) ↔ glob ts (take i subject) ∧ token_ok token c = true.
Proof.
  intros Ht Hc. rewrite glob_snoc, (take_S_r subject i c Hc). split.
  - intros (a & b & Hab & Ha & Hb). assert (∃ d, b = [d] ∧ token_ok token d = true) as (d & -> & Hd)
      by (by destruct token). apply app_inj_tail in Hab as [<- <-]. done.
  - intros [Hg Hk]. exists (take i subject), [c]. split; [done|]. split; [done|].
    destruct token; try done; by exists c.
Qed.

Lemma glob_one_nil (ts : list Token) (token : Token) : token ≠ Star → ~ glob (ts ++ [token]) [].
Proof.
  intros Ht. rewrite glob_snoc. intros (a & b & Hab & _ & Hb).
  assert (∃ d, b = [d] ∧ token_ok token d = true) as (d & -> & _) by (by destruct token).
  by destruct a.
Qed.

Lemma star_loop_yields (index : nat) (subject : list Z) (previous : list bool) (last : bool) :
  length previous = length subject →
  ∃ r, yields (star_loop index subject previous last) (Ok r) ∧ length r = length subject
  ∧ ∀ i b, r !! i = Some b →
      (b = true ↔ last = true ∨ ∃ j, (j ≤ i)%nat ∧ previous !! j = Some true).
Proof.
  revert index previous last. induction subject as [|c subject IH]; intros index previous last Hl;
    destruct previous as [|p previous]; cbn in Hl; try lia.
  { exists []. split; [apply yields_ret|]. done. }
  destruct (IH (S index) previous (p || last) ltac:(lia)) as (r & Hr & Hlen & Hspec).
  exists ((p || last) :: r). split; [|split; [by cbn; rewrite Hlen|]].
  - cbn [star_loop]. checked. eapply yields_bind; [exact Hr|]. apply yields_ret.
  - intros [|i] b; cbn; intros Hb.
    + injection Hb as <-. rewrite orb_true_iff. split.
      * intros [->|?]; [|by left]. right. by exists 0%nat.
      * intros [?|(j & Hj & Hp)]; [by right|]. left. assert (j = 0)%nat as -> by lia. by injection Hp.
    + rewrite (Hspec i b Hb), orb_true_iff. split.
      * intros [[->|?]|(j & Hj & Hp)]; [right; exists 0%nat; split; [lia|done]|by left|].
        right. exists (S j). split; [lia|done].
      * intros [?|([|j] & Hj & Hp)]; [tauto|injection Hp as ->; tauto|]. right. exists j. split; [lia|done].
Qed.

Lemma one_loop_yields (index : nat) (token : Token) (subject : list Z) (previous : list bool) :
  (length subject ≤ length previous)%nat →
  ∃ r, yields (one_loop index token subject previous) (Ok r) ∧ length r = length subject
  ∧ ∀ i b, r !! i = Some b →
      ∃ p c, previous !! i = Some p ∧ subject !! i = Some c ∧ b = p && token_ok token c.
Proof.
  revert index previous. induction subject as [|c subject IH]; intros index previous Hl.
  { exists []. split; [apply yields_ret|done]. }
  destruct previous as [|p previous]; cbn in Hl; [lia|].
  destruct (IH (S index) previous ltac:(lia)) as (r & Hr & Hlen & Hspec).
  exists ((p && token_ok token c) :: r). split; [|split; [by cbn; rewrite Hlen|]].
  - cbn [one_loop]. checked. eapply (yields_bind _ _ (p && token_ok token c)).
    { destruct p; [apply Token_matches_yields|apply yields_ret]. }
    eapply yields_bind; [exact Hr|]. apply yields_ret.
  - intros [|i] b; cbn; intros Hb; [injection Hb as <-; by exists p, c|]. by apply Hspec.
Qed.

Lemma next_row_yields (ts : list Token) (token : Token) (subject : list Z) (previous : list bool) :
  row_ok ts subject previous →
  ∃ r, yields (next_row token subject previous) (Ok r) ∧ row_ok (ts ++ [token]) subject r.
Proof.
  intros [Hl Hrow]. destruct previous as [|first previous]; [done|]. cbn in Hl.
  assert (token = Star ∨ token ≠ Star) as [->|Ht] by (destruct token; auto).
  - destruct (star_loop_yields 0 subject previous first ltac:(lia)) as (r & Hr & Hlen & Hspec).
    exists (first :: r). split.
    { cbn [next_row hd tl]. eapply yields_bind; [exact Hr|]. apply yields_ret. }
    split; [cbn; lia|]. intros i b Hb. pose proof (lookup_lt_Some _ _ _ Hb) as Hi. cbn in Hi.
    rewrite glob_star by lia.
    assert (b = true ↔ ∃ j, (j ≤ i)%nat ∧ (first :: previous) !! j = Some true) as ->.
    { destruct i as [|i]; cbn in Hb.
      - injection Hb as ->. split; [intros ->; by exists 0%nat|]. intros (j & Hj & Hp).
        assert (j = 0)%nat as -> by lia. by injection Hp.
      - rewrite (Hspec i b Hb). split.
        + intros [->|(j & Hj & Hp)]; [exists 0%nat|exists (S j)]; (split; [lia|done]).
        + intros ([|j] & Hj & Hp); [left; by injection Hp|right; exists j; split; [lia|done]]. }
    split; intros (j & Hj & Hp); exists j; (split; [done|]).
    + by apply (Hrow j true Hp).
    + destruct (lookup_lt_is_Some_2 (first :: previous) j) as [b' Hb']; [cbn; lia|].
      rewrite Hb'. f_equal. by apply (Hrow j b' Hb').
  - destruct (one_loop_yields 0 token subject (first :: previous) ltac:(cbn; lia))
      as (r & Hr & Hlen & Hspec).
    exists (false :: r). split.
    { assert (next_row token subject (first :: previous)
        = (rest ⇐ one_loop 0 token subject (first :: previous); cret (false :: rest))) as ->
        by (by destruct token). eapply yields_bind; [exact Hr|]. apply yields_ret. }
    split; [cbn; lia|]. intros [|i] b Hb; cbn in Hb.
    + injection Hb as <-. split; [done|]. intros Hg. by apply glob_one_nil in Hg.
    + destruct (Hspec i b Hb) as (p & c & Hp & Hc & ->). rewrite (glob_one ts token subject i c Ht Hc).
      by rewrite andb_true_iff, (Hrow i p Hp).
Qed.

Lemma rows_yields (tokens ts : list Token) (subject : list Z) (previous : list bool) :
  row_ok ts subject previous →
  ∃ r, yields (rows tokens subject previous) (Ok r) ∧ row_ok (ts ++ tokens) subject r.
Proof.
  revert ts previous. induction tokens as [|token tokens IH]; intros ts previous Hrow.
  { exists previous. rewrite app_nil_r. split; [apply yields_ret|done]. }
  destruct (next_row_yields ts token subject previous Hrow) as (r & Hr & Hok).
  destruct (IH _ r Hok) as (r' & Hr' & Hok'). exists r'. rewrite <- app_assoc in Hok'.
  split; [|done]. cbn [rows]. eapply yields_bind; [apply yields_read|].
  eapply yields_bind; [exact Hr|]. exact Hr'.
Qed.

Lemma first_row_ok (subject : list Z) : row_ok [] subject (true :: replicate (length subject) false).
Proof.
  split; [cbn; by rewrite length_replicate|]. unfold glob. intros [|i] b; cbn.
  - intros [= <-]. split; [|done]. intros _. exists []. split; [done|constructor].
  - intros [-> Hi]%lookup_replicate. split; [done|]. intros (pieces & Hp & Hf).
    inversion Hf; subst. destruct subject; cbn in *; [lia|done].
Qed.

Lemma collect_chars_yields (index : nat) (cs : list Z) : yields (collect_chars index cs) (Ok cs).
Proof.
  revert index. induction cs as [|c cs IH]; intros index; [apply yields_ret|]. cbn [collect_chars].
  checked. eapply yields_bind; [apply IH|]. apply yields_ret.
Qed.

(** The whole of it. *)
Lemma matches_body_yields (pattern : list PatternChar) (subject : str) :
  ∃ ts, tokenizes (unescaped false pattern) ts
  ∧ match first_posix ts with
    | Some u => yields (matches_body pattern subject) (Err u)
    | None =>
        ∃ b, yields (matches_body pattern subject) (Ok b) ∧ (b = true ↔ glob ts (chars subject))
    end.
Proof.
  destruct (tokens_yields (unescaped false pattern)) as (ts & Hts & Hy). exists ts. split; [done|].
  unfold matches_body. unfold tokens_or_refusal in Hy. destruct (first_posix ts) as [u|].
  - eapply yields_bind; [apply normalize_yields|]. eapply yields_bind; [apply closers_yields|].
    by apply yields_bind_err.
  - destruct (rows_yields ts [] (chars subject) _ (first_row_ok (chars subject))) as (r & Hr & Hl & Hrow).
    destruct (lookup_lt_is_Some_2 r (length (chars subject))) as [b Hb]; [lia|].
    exists b. specialize (Hrow _ _ Hb). rewrite take_ge in Hrow by done. split; [|done].
    eapply yields_bind; [apply normalize_yields|]. eapply yields_bind; [apply closers_yields|].
    eapply yields_bind; [exact Hy|]. eapply yields_bind; [apply collect_chars_yields|].
    eapply yields_bind; [exact Hr|]. eapply yields_bind; [apply yields_read|]. rewrite Hb.
    apply yields_ret.
Qed.

(** ** Properties *)

(** C36: a [case] pattern matches exactly when, its backslashes removed and its
    brackets read, its tokens match the pieces of a cut of the subject; the
    code answers otherwise only where it has to: a bracket holds a POSIX
    class, the deadline had passed, or the scratch space does not fit, which
    is given back in every case. *)
Theorem case_pattern_matches_glob (pattern : list PatternChar) (subject : str) (s : Shared) (i : nat) :
  ∃ tokens, tokenizes (unescaped false pattern) tokens ∧
  match matches pattern subject s i with
  | (Ok b, _) => first_posix tokens = None ∧ (b = true ↔ glob tokens (chars subject))
  | (Err (Usage u), _) => first_posix tokens = Some u
  | (Err (Limit e), _) =>
      past_deadline e
      ∨ Z.min u64_max (max_value_bytes (tree_limits t)) < retained s + scratch_bytes pattern subject
  end
  ∧ (in_u64 (retained s) → (matches pattern subject s i).2 = s).
Proof.
  destruct (matches_body_yields pattern subject) as (ts & Hts & Hy). exists ts. split; [done|].
  unfold matches, retain. destruct (fetch_add_up_to _ _ _ _) as [next|] eqn:Hf.
  - split.
    + destruct (first_posix ts) as [u|].
      * destruct (Hy i) as [(e & He & ->)| ->]; [by left|done].
      * destruct Hy as (b & Hb & Hg). destruct (Hb i) as [(e & He & ->)| ->]; [by left|done].
    + intros Hr. cbn. apply fetch_add_Some in Hf as [-> _]. unfold RetainedBytes_drop. cbn.
      replace (retained s + _ - _) with (retained s) by lia. rewrite wrap_u64_id by done. by destruct s.
  - split; [|done]. right. by apply fetch_add_None in Hf.
Qed.

End Matches.

(** ** Witness *)

(** [a*\?[!0-9]], with an escaped question mark, against [abc?x]. *)
Definition demo_pattern : list PatternChar :=
  [Unquoted 97; Unquoted 42; Unquoted 92; Unquoted 63; Unquoted 91; Unquoted 33; Unquoted 48;
   Unquoted 45; Unquoted 57; Unquoted 93].
Definition demo_subject : str := lit "abc?x".
Definition demo_tree : TreeContext := (TreeContext_new Limits_default (CallBudget_new 32) 0).1.
Definition demo_env (i : nat) : Env := mkEnv 0 false false.

Lemma case_pattern_matches_glob_witness :
  ∃ tokens, tokenizes (unescaped false demo_pattern) tokens ∧ glob tokens (chars demo_subject).
Proof.
  destruct (case_pattern_matches_glob demo_tree demo_env 8 16 24 demo_pattern demo_subject
    (mkShared 0 0 0) 0) as (tokens & H1 & H2 & _).
  exists tokens. split; [exact H1|].
  assert (matches demo_tree demo_env 8 16 24 demo_pattern demo_subject (mkShared 0 0 0) 0
          = (Ok true, mkShared 0 0 0)) as E by (vm_compute; reflexivity).
  rewrite E in H2. destruct H2 as [_ H2]. apply H2. reflexivity.
Defined.
