(* ===== verification/StorageDir.v ===== *)
(** * Directories of the storage root

    [Directory] and the scans of [crates/dekopon-storage-host/src/layout.rs],
    [logical_file] and [is_token] of [namespace.rs]. The files below one
    retained directory are a map from paths to nodes; every operation of
    [Directory] is one function on it, made of the system calls the code
    makes. A parameter [io] says how each system call ends: an operation is
    proved for all of its values, so for every fault at every call.

    Operations run in a monad whose errors keep the state: an error leaves the
    files as they were when it occurred. *)

From Stdlib Require Import ZArith Lia Ascii String.
From stdpp Require Import base gmap strings list sorting numbers.
From S2P Require Import Prelude.
From S2P Require Import RustStr.
From S2P Require Import Quota.

(** ** Operations that keep the state on an error

    [Throws] is an error the code returns; [Panics] a missing key where the
    code indexes or expects; [Diverges] a recursion past its fuel. *)

Inductive Exn : Type := Throws (e : StorageHostError) | Panics | Diverges.

Definition act (S A : Type) : Type := S → result Exn A * S.

Section Monad.
Context {S : Type}.

Definition pure {A : Type} (a : A) : act S A := fun s => (Ok a, s).
Definition raise {A : Type} (e : StorageHostError) : act S A := fun s => (Err (Throws e), s).
Definition panic {A : Type} : act S A := fun s => (Err Panics, s).
Definition abind {A B : Type} (m : act S A) (k : A → act S B) : act S B :=
  fun s => match m s with (Ok a, s') => k a s' | (Err e, s') => (Err e, s') end.
Definition reads {A : Type} (f : S → A) : act S A := fun s => (Ok (f s), s).
Definition modify (f : S → S) : act S unit := fun s => (Ok tt, f s).

Definition of_result {A : Type} (r : result StorageHostError A) : act S A :=
  match r with Ok a => pure a | Err e => raise e end.
Definition of_option {A : Type} (e : StorageHostError) (o : option A) : act S A :=
  match o with Some a => pure a | None => raise e end.
Definition expect {A : Type} (o : option A) : act S A :=
  match o with Some a => pure a | None => panic end.

(** [let result = (|| { ... })();]: the error becomes a value. *)
Definition attempt {A : Type} (m : act S A) : act S (result StorageHostError A) :=
  fun s =>
    match m s with
    | (Ok a, s') => (Ok (Ok a), s')
    | (Err (Throws e), s') => (Ok (Err e), s')
    | (Err x, s') => (Err x, s')
    end.

Definition wp {A : Type} (m : act S A) (Q : result Exn A → S → Prop) (s : S) : Prop :=
  Q (m s).1 (m s).2.

Lemma wp_mono {A : Type} (m : act S A) (Q Q' : result Exn A → S → Prop) (s : S) :
  wp m Q s → (∀ r s', Q r s' → Q' r s') → wp m Q' s.
Proof. unfold wp. auto. Qed.

Lemma wp_bind {A B : Type} (m : act S A) (k : A → act S B) (Q : result Exn B → S → Prop) (s : S) :
  wp m (fun r s' => match r with Ok a => wp (k a) Q s' | Err e => Q (Err e) s' end) s →
  wp (abind m k) Q s.
Proof. unfold wp, abind. by destruct (m s) as [[a|e] s']. Qed.

(** A specification of the first half, then the rest. *)
Lemma wp_step {A B : Type} (m : act S A) (k : A → act S B) (R : result Exn A → S → Prop)
    (Q : result Exn B → S → Prop) (s : S) :
  wp m R s → (∀ a s', R (Ok a) s' → wp (k a) Q s') → (∀ e s', R (Err e) s' → Q (Err e) s') →
  wp (abind m k) Q s.
Proof. intros Hm Hk He. apply wp_bind. eapply wp_mono; [exact Hm|]. intros [a|e] s'; auto. Qed.

Lemma wp_pure {A : Type} (a : A) (Q : result Exn A → S → Prop) (s : S) : Q (Ok a) s → wp (pure a) Q s.
Proof. done. Qed.

Lemma wp_raise {A : Type} (e : StorageHostError) (Q : result Exn A → S → Prop) (s : S) :
  Q (Err (Throws e)) s → wp (raise e) Q s.
Proof. done. Qed.

Lemma wp_reads {A : Type} (f : S → A) (Q : result Exn A → S → Prop) (s : S) :
  Q (Ok (f s)) s → wp (reads f) Q s.
Proof. done. Qed.

Lemma wp_modify (f : S → S) (Q : result Exn unit → S → Prop) (s : S) :
  Q (Ok tt) (f s) → wp (modify f) Q s.
Proof. done. Qed.

Lemma wp_of_option {A : Type} (e : StorageHostError) (o : option A) (Q : result Exn A → S → Prop)
    (s : S) :
  (∀ a, o = Some a → Q (Ok a) s) → (o = None → Q (Err (Throws e)) s) → wp (of_option e o) Q s.
Proof. destruct o; intros H1 H2; [by apply H1|by apply H2]. Qed.

Lemma wp_of_result {A : Type} (r : result StorageHostError A) (Q : result Exn A → S → Prop) (s : S) :
  (∀ a, r = Ok a → Q (Ok a) s) → (∀ e, r = Err e → Q (Err (Throws e)) s) → wp (of_result r) Q s.
Proof. destruct r; intros H1 H2; [by apply H1|by apply H2]. Qed.

Lemma wp_expect {A : Type} (o : option A) (a : A) (Q : result Exn A → S → Prop) (s : S) :
  o = Some a → Q (Ok a) s → wp (expect o) Q s.
Proof. by intros ->. Qed.

Lemma wp_attempt {A : Type} (m : act S A) (Q : result Exn (result StorageHostError A) → S → Prop)
    (s : S) :
  wp m (fun r s' => match r with
                    | Ok a => Q (Ok (Ok a)) s'
                    | Err (Throws e) => Q (Ok (Err e)) s'
                    | Err x => Q (Err x) s'
                    end) s →
  wp (attempt m) Q s.
Proof. unfold wp, attempt. by destruct (m s) as [[a|[e| |]] s']. Qed.

End Monad.

Notation "x ⇚ m ; k" := (abind m (fun x => k))
  (at level 80, m at level 79, k at level 80, right associativity) : dekopon_scope.

(** ** Files *)

Inductive EntryKind : Type := File | Directory | Symlink | Other.

#[export] Instance EntryKind_eq_dec : EqDecision EntryKind.
Proof. solve_decision. Defined.

Record EntryMetadata : Type := mkMetadata { md_kind : EntryKind; md_len : Z; md_nlink : Z }.

(** [nd_private]: the owner is the process's user and no bit of the group or
    of others is set. *)
Record Node : Type := mkNode {
  nd_kind : EntryKind;
  nd_nlink : Z;
  nd_private : bool;
  nd_bytes : list Z
}.

Abbreviation path := (list str).

(** How a system call ends. A write that breaks has written some bytes; a
    read may return fewer bytes than asked for, but at least one if there is
    one. *)
Inductive Ending : Type := Works | Breaks (written : nat) | Short (more : nat).

Record Disk : Type := mkDisk { dk_files : gmap path Node; dk_tick : nat }.

Definition set_files (f : gmap path Node → gmap path Node) (d : Disk) : Disk :=
  mkDisk (f (dk_files d)) (dk_tick d).

(** Bytes written at an offset; a gap before it reads as zeros, and writing
    nothing makes none. *)
Definition overwrite (offset : nat) (bytes old : list Z) : list Z :=
  if is_nil bytes then old
  else
    let base := old ++ replicate (offset - length old) 0 in
    take offset base ++ bytes ++ drop (offset + length bytes) base.

Definition set_bytes (f : list Z → list Z) (n : Node) : Node :=
  mkNode (nd_kind n) (nd_nlink n) (nd_private n) (f (nd_bytes n)).

Definition new_file : Node := mkNode File 1 true [].

Definition ENTRY_CHARGE : Z := 4096.
Definition HARD_MAX_DIRECTORY_ENTRIES : Z := 1000000.

Definition usage_with_directory_entry (usage : Usage) : result StorageHostError Usage :=
  let? ents := ok_or (checked_add_u64 (entries usage) 1) Arithmetic in
  let? b := ok_or (checked_add_u64 (bytes usage) ENTRY_CHARGE) Arithmetic in
  Ok (mkUsage b ents (files usage)).

Definition validate_component (name : str) : result StorageHostError unit :=
  if is_empty name || str_eqb name (lit ".") || str_eqb name (lit "..")
     || existsb (fun b => (b =? ch "/") || (b =? ch "\") || (b =? 0)) name
  then Err (Corrupt (lit "physical-component"))
  else Ok tt.

Definition is_token (value : str) : bool :=
  (len value =? 64) && forallb (fun b => is_ascii_digit b || in_range (ch "a") (ch "f") b) value.

Section Directory.
Context (io : nat → Ending).
(** The order in which a directory lists its entries. *)
Context (listing : gmap path Node → path → list str).

(** ** System calls *)

Definition syscall : act Disk Ending :=
  fun d => (Ok (io (dk_tick d)), mkDisk (dk_files d) (S (dk_tick d))).

Definition works : act Disk unit :=
  ending ⇚ syscall;
  match ending with Breaks _ => raise (RootIo false) | _ => pure tt end.

Definition node_at (p : path) : act Disk (option Node) := reads (fun d => dk_files d !! p).

(** [write_all] and [write_all_at] on an open file: an empty buffer makes no
    call. *)
Definition write_all_at (p : path) (bytes : list Z) (offset : nat) : act Disk unit :=
  if is_nil bytes then pure tt
  else
    ending ⇚ syscall;
    match ending with
    | Breaks n =>
        _ ⇚ modify (set_files (alter (set_bytes (overwrite offset (take n bytes))) p));
        raise (RootIo false)
    | _ => modify (set_files (alter (set_bytes (overwrite offset bytes)) p))
    end.

Definition set_len (p : path) (size : nat) : act Disk unit :=
  _ ⇚ works; modify (set_files (alter (set_bytes (resize size 0)) p)).

(** ** [Directory] *)

Section Operations.
Context (dir : path).

Definition metadata (name : str) : act Disk (option EntryMetadata) :=
  _ ⇚ of_result (validate_component name);
  _ ⇚ works;
  node ⇚ node_at (dir ++ [name]);
  pure ((fun n => mkMetadata (nd_kind n) (len (nd_bytes n)) (nd_nlink n)) <$> node).

Definition exists_ (name : str) : act Disk bool :=
  m ⇚ metadata name; pure (bool_decide (is_Some m)).

(** [check_trusted_metadata] with [FileTier::Private], then the identity of
    the name, which no other process changes. *)
Definition validate_private_file (name : str) : act Disk unit :=
  _ ⇚ works;
  node ⇚ node_at (dir ++ [name]);
  match node with
  | Some n =>
      if bool_decide (nd_kind n = File) && nd_private n && (nd_nlink n =? 1)
      then works
      else raise (Corrupt (lit "private-file"))
  | None => raise (RootIo true)
  end.

Definition open_private (name : str) (create : bool) : act Disk unit :=
  _ ⇚ of_result (validate_component name);
  _ ⇚ works;
  node ⇚ node_at (dir ++ [name]);
  _ ⇚ match node with
      | None =>
          if create then modify (set_files (insert (dir ++ [name]) new_file))
          else raise (RootIo true)
      | Some n =>
          match nd_kind n with
          | File | Other => pure tt
          | Directory | Symlink => raise (RootIo false)
          end
      end;
  validate_private_file name.

Definition open_directory (name : str) : act Disk path :=
  _ ⇚ of_result (validate_component name);
  _ ⇚ works;
  node ⇚ node_at (dir ++ [name]);
  match node with
  | None => raise (RootIo true)
  | Some n =>
      if negb (bool_decide (nd_kind n = Directory)) then raise (Corrupt (lit "directory-type"))
      else
        _ ⇚ works;
        _ ⇚ works;
        if negb (nd_private n) then raise UnsafeRoot else _ ⇚ works; pure (dir ++ [name])
  end.

Fixpoint collect (maximum : Z) (fail_on_excess : bool) (names acc : list str)
    : result StorageHostError (list str) :=
  match names with
  | [] => Ok acc
  | name :: names =>
      let? _ := validate_component name in
      if maximum <=? Z.of_nat (length acc) then
        if fail_on_excess then Err (StartupEntryLimit (Z.of_nat (length acc) + 1) maximum) else Ok acc
      else collect maximum fail_on_excess names (acc ++ [name])
  end.

Definition str_leb (a b : str) : bool :=
  match str_compare a b with Gt => false | _ => true end.

(** [entries.sort()] *)
Fixpoint insert_name (name : str) (names : list str) : list str :=
  match names with
  | [] => [name]
  | n :: rest => if str_leb name n then name :: names else n :: insert_name name rest
  end.
Definition sort_names (names : list str) : list str := foldr insert_name [] names.

Definition read_entries (maximum : Z) (fail_on_excess : bool) : act Disk (list str) :=
  _ ⇚ works;
  names ⇚ reads (fun d => listing (dk_files d) dir);
  collected ⇚ of_result (collect maximum fail_on_excess names []);
  pure (sort_names collected).

Definition entries_prefix (maximum : Z) : act Disk (list str) :=
  read_entries (Z.min maximum HARD_MAX_DIRECTORY_ENTRIES) false.

Definition entries_bounded (maximum : Z) : act Disk (list str) :=
  read_entries (Z.min maximum HARD_MAX_DIRECTORY_ENTRIES) true.

Definition read_bounded (name : str) (maximum : Z) : act Disk (list Z) :=
  _ ⇚ open_private name false;
  _ ⇚ works;
  node ⇚ node_at (dir ++ [name]);
  let content := match node with Some n => nd_bytes n | None => [] end in
  if maximum <? len content then raise (Corrupt (lit "oversized-file"))
  else
    _ ⇚ works;
    let read := take (Z.to_nat (sat_add_u64 maximum 1)) content in
    if maximum <? len read then raise (Corrupt (lit "oversized-file")) else pure read.

Definition read_at (name : str) (offset maximum : Z) : act Disk (list Z) :=
  _ ⇚ open_private name false;
  _ ⇚ works;
  ending ⇚ syscall;
  node ⇚ node_at (dir ++ [name]);
  let content := match node with Some n => nd_bytes n | None => [] end in
  let available := take (Z.to_nat maximum) (drop (Z.to_nat offset) content) in
  match ending with
  | Works => pure available
  | Short n => pure (take (S n) available)
  | Breaks _ => raise (RootIo false)
  end.

(** [renameat]: a file replaces what is not a directory; a directory moves
    with all below it and replaces an empty directory. *)
Definition below (p q : path) : bool := bool_decide (p `prefix_of` q).

Definition move_tree (old new : path) (fs : gmap path Node) : gmap path Node :=
  list_to_map ((fun qn => (if below old qn.1 then new ++ drop (length old) qn.1 else qn.1, qn.2))
                 <$> map_to_list (delete new fs)).

Definition renameat (old new : path) (fs : gmap path Node) : result StorageHostError (gmap path Node) :=
  match fs !! old, fs !! new with
  | None, _ => Err (RootIo true)
  | Some n, target =>
      if bool_decide (old = new) then Ok fs
      else if bool_decide (nd_kind n = Directory) then
        if below old new || bool_decide (is_Some target ∧ nd_kind <$> target ≠ Some Directory)
           || existsb (fun q => below new q && negb (bool_decide (q = new))) (map_to_list fs).*1
        then Err (RootIo false)
        else Ok (move_tree old new fs)
      else if bool_decide (nd_kind <$> target = Some Directory) then Err (RootIo false)
      else Ok (<[new := n]> (delete old fs))
  end.

Definition rename_to (name target_name : str) : act Disk unit :=
  _ ⇚ of_result (validate_component name);
  _ ⇚ of_result (validate_component target_name);
  _ ⇚ works;
  renamed ⇚ reads (fun d => renameat (dir ++ [name]) (dir ++ [target_name]) (dk_files d));
  fs ⇚ of_result renamed;
  modify (set_files (fun _ => fs)).

Definition remove_file (name : str) : act Disk unit :=
  _ ⇚ of_result (validate_component name);
  _ ⇚ works;
  node ⇚ node_at (dir ++ [name]);
  match node with
  | None => raise (RootIo true)
  | Some n =>
      if bool_decide (nd_kind n = Directory) then raise (RootIo false)
      else modify (set_files (delete (dir ++ [name])))
  end.

Definition sync : act Disk unit := works.

Definition logical_file (token : str) : act Disk EntryMetadata :=
  if negb (is_token token) then raise (Corrupt (lit "logical-token"))
  else
    m ⇚ metadata token;
    m ⇚ of_option (Corrupt (lit "logical-token")) m;
    if negb (bool_decide (md_kind m = File)) || negb (md_nlink m =? 1)
    then raise (Corrupt (lit "logical-file"))
    else _ ⇚ open_private token false; pure m.

End Operations.

(** ** Scans

    The recursion into a child directory is an argument of [scan_entry]; the
    fuel of [scan] bounds the depth. [usage] is the accumulator the code
    updates in place. *)

Definition diverge {A : Type} : act Disk A := fun d => (Err Diverges, d).

Definition scan_entry (scan_child : path → Usage → act Disk Usage) (maximum_entries : Z)
    (dir : path) (name : str) (usage : Usage) : act Disk Usage :=
  m ⇚ metadata dir name;
  m ⇚ of_option (Corrupt (lit "vanished-entry")) m;
  ents ⇚ of_option Arithmetic (checked_add_u64 (entries usage) 1);
  if maximum_entries <? ents then raise (StartupEntryLimit ents maximum_entries)
  else
    b ⇚ of_option Arithmetic (checked_add_u64 (bytes usage) ENTRY_CHARGE);
    match md_kind m with
    | File =>
        _ ⇚ open_private dir name false;
        f ⇚ of_option Arithmetic (checked_add_u64 (files usage) 1);
        b ⇚ of_option Arithmetic (checked_add_u64 b (md_len m));
        pure (mkUsage b ents f)
    | Directory =>
        child ⇚ open_directory dir name;
        scan_child child (mkUsage b ents (files usage))
    | Symlink => raise (Corrupt (lit "symlink"))
    | Other => raise (Corrupt (lit "file-type"))
    end.

Fixpoint each_entry (f : str → Usage → act Disk Usage) (names : list str) (usage : Usage)
    : act Disk Usage :=
  match names with
  | [] => pure usage
  | name :: names => usage ⇚ f name usage; each_entry f names usage
  end.

Fixpoint scan (fuel : nat) (maximum_entries : Z) (dir : path) (usage : Usage) : act Disk Usage :=
  match fuel with
  | O => diverge
  | S fuel =>
      let remaining := sat_sub_u64 maximum_entries (entries usage) in
      names ⇚ entries_prefix dir (sat_add_u64 remaining 1);
      if remaining <? Z.of_nat (length names)
      then raise (StartupEntryLimit (sat_add_u64 (entries usage) (Z.of_nat (length names)))
                    maximum_entries)
      else each_entry (scan_entry (scan fuel maximum_entries) maximum_entries dir) names usage
  end.

Definition scan_usage (fuel : nat) (dir : path) (maximum_entries : Z) : act Disk Usage :=
  scan fuel maximum_entries dir (mkUsage 0 0 0).

End Directory.

(** ** What is on the disk *)

(** What a scan charges for one entry. *)
Definition node_len (n : Node) : Z := if bool_decide (nd_kind n = File) then len (nd_bytes n) else 0.
Definition node_file (n : Node) : Z := if bool_decide (nd_kind n = File) then 1 else 0.

Definition usage_of (l : list Node) : Usage :=
  mkUsage (zsum (fun n => ENTRY_CHARGE + node_len n) l) (Z.of_nat (length l)) (zsum node_file l).

Definition usage_add (u v : Usage) : Usage :=
  mkUsage (bytes u + bytes v) (entries u + entries v) (files u + files v).

(** The entries strictly below a directory. *)
Definition descendants (fs : gmap path Node) (p : path) : gmap path Node :=
  filter (fun qn => below p qn.1 = true ∧ qn.1 ≠ p) fs.

Definition nodes (fs : gmap path Node) : list Node := (map_to_list fs).*2.

(** A directory lists the names of its entries once each. *)
Definition listing_ok (listing : gmap path Node → path → list str) : Prop :=
  ∀ fs p, NoDup (listing fs p) ∧ ∀ n, n ∈ listing fs p ↔ is_Some (fs !! (p ++ [n])).

(** Entries lie in directories. *)
Definition tree_ok (fs : gmap path Node) : Prop :=
  ∀ p n, is_Some (fs !! (p ++ [n])) → p ≠ [] → nd_kind <$> fs !! p = Some Directory.

(** ** What the operations do, whatever fails *)

Definition metadata_of (n : Node) : EntryMetadata :=
  mkMetadata (nd_kind n) (len (nd_bytes n)) (nd_nlink n).

(** The outcome of an operation: a value that satisfies [P] with the files it
    leaves, or an error of the code that leaves files satisfying [X]. *)
Definition outcome {A : Type} (P : A → gmap path Node → Prop) (X : gmap path Node → Prop)
    (r : result Exn A) (d : Disk) : Prop :=
  match r with
  | Ok a => P a (dk_files d)
  | Err (Throws _) => X (dk_files d)
  | Err _ => False
  end.

Ltac disk_unfold :=
  unfold wp, outcome, works, syscall, node_at, of_result, of_option, modify, reads, raise, pure, abind,
    set_files in *.

Ltac disk_run := disk_unfold; cbn in *; repeat (case_match; cbn in *; simplify_eq/=); try done.

Section Specs.
Context (io : nat → Ending) (listing : gmap path Node → path → list str) (dir : path).

Lemma wp_works (d : Disk) :
  wp (works io) (outcome (fun _ fs => fs = dk_files d) (fun fs => fs = dk_files d)) d.
Proof. disk_run. Qed.

Lemma wp_metadata (name : str) (d : Disk) :
  wp (metadata io dir name)
    (outcome (fun m fs => fs = dk_files d ∧ m = metadata_of <$> fs !! (dir ++ [name]))
       (fun fs => fs = dk_files d)) d.
Proof. unfold metadata. disk_run. Qed.

(** A private file: what [validate_private_file] accepts. *)
Definition private_file (n : Node) : Prop := nd_kind n = File ∧ nd_private n = true ∧ nd_nlink n = 1.

Lemma private_check (n : Node) :
  bool_decide (nd_kind n = File) && nd_private n && (nd_nlink n =? 1) = true ↔ private_file n.
Proof.
  unfold private_file. rewrite !andb_true_iff, bool_decide_eq_true, Z.eqb_eq. tauto.
Qed.

Lemma wp_open_private (name : str) (d : Disk) :
  wp (open_private io dir name false)
    (outcome (fun _ fs => fs = dk_files d ∧ ∃ n, fs !! (dir ++ [name]) = Some n ∧ private_file n)
       (fun fs => fs = dk_files d)) d.
Proof.
  unfold open_private, validate_private_file. disk_run;
    match goal with H : _ && _ = true |- _ => apply private_check in H end; split; eauto.
Qed.

(** The files after the file was created if it was not there. *)
Definition created (name : str) (fs : gmap path Node) : gmap path Node :=
  match fs !! (dir ++ [name]) with Some _ => fs | None => <[dir ++ [name] := new_file]> fs end.

Lemma wp_open_create (name : str) (d : Disk) :
  wp (open_private io dir name true)
    (outcome (fun _ fs => fs = created name (dk_files d)
                          ∧ ∃ n, fs !! (dir ++ [name]) = Some n ∧ private_file n)
       (fun fs => fs = dk_files d ∨ fs = created name (dk_files d))) d.
Proof.
  unfold open_private, validate_private_file, created.
  destruct (dk_files d !! (dir ++ [name])) as [n0|] eqn:E; disk_run;
    rewrite ?lookup_insert_eq in *; simplify_eq/=; try (by left); try (by right);
    repeat match goal with H : _ && _ = true |- _ => apply private_check in H end;
    (split; [done|]); try (by eauto); exists new_file; by split.
Qed.

Lemma wp_write_all_at (p : path) (bytes : list Z) (offset : nat) (d : Disk) :
  wp (write_all_at io p bytes offset)
    (outcome (fun _ fs => fs = if is_nil bytes then dk_files d
                               else alter (set_bytes (overwrite offset bytes)) p (dk_files d))
       (fun fs => ∃ n, fs = alter (set_bytes (overwrite offset (take n bytes))) p (dk_files d))) d.
Proof. unfold write_all_at. destruct bytes as [|b bytes]; [done|]. cbn [is_nil]. disk_run. eauto. Qed.

Lemma wp_set_len (p : path) (size : nat) (d : Disk) :
  wp (set_len io p size)
    (outcome (fun _ fs => fs = alter (set_bytes (resize size 0)) p (dk_files d))
       (fun fs => fs = dk_files d)) d.
Proof. unfold set_len. disk_run. Qed.

Lemma wp_remove_file (name : str) (d : Disk) :
  wp (remove_file io dir name)
    (outcome (fun _ fs => fs = delete (dir ++ [name]) (dk_files d)) (fun fs => fs = dk_files d)) d.
Proof. unfold remove_file. disk_run. Qed.

Lemma wp_rename_to (name target : str) (d : Disk) :
  wp (rename_to io dir name target)
    (outcome (fun _ fs => renameat (dir ++ [name]) (dir ++ [target]) (dk_files d) = Ok fs)
       (fun fs => fs = dk_files d)) d.
Proof. unfold rename_to. disk_run. Qed.

Lemma wp_read_bounded (name : str) (maximum : Z) (d : Disk) :
  maximum < u64_max →
  wp (read_bounded io dir name maximum)
    (outcome (fun b fs => fs = dk_files d ∧ len b ≤ maximum
                          ∧ ∃ n, fs !! (dir ++ [name]) = Some n ∧ private_file n ∧ b = nd_bytes n)
       (fun fs => fs = dk_files d)) d.
Proof.
  intros Hm. unfold read_bounded. eapply wp_step; [apply wp_open_private| |by intros [] ? ?].
  intros [] d' [Hfs (n & Hn & Hp)]. rewrite <- Hfs. clear Hfs d.
  disk_run; rewrite Hn in *; simplify_eq/=.
  all: assert (take (Z.to_nat (sat_add_u64 maximum 1)) (nd_bytes n) = nd_bytes n) as ->
    by (apply take_ge; dk_bool; unfold len, sat_add_u64 in *; lia).
  all: dk_bool; split; [done|]; split; [lia|]; eauto.
Qed.

Lemma wp_read_at (name : str) (offset maximum : Z) (d : Disk) :
  wp (read_at io dir name offset maximum)
    (outcome (fun b fs => fs = dk_files d
        ∧ ∃ n k, fs !! (dir ++ [name]) = Some n ∧ private_file n ∧ 0 < k
                 ∧ b = take (Z.to_nat (Z.min k maximum)) (drop (Z.to_nat offset) (nd_bytes n)))
       (fun fs => fs = dk_files d)) d.
Proof.
  unfold read_at. eapply wp_step; [apply wp_open_private| |by intros [] ? ?].
  intros [] d' [Hfs (n & Hn & Hp)]. rewrite <- Hfs. clear Hfs d.
  eapply wp_step; [apply wp_works| |by intros [] ? ?]. intros [] d Hd. cbn in Hd. rewrite <- Hd in *.
  unfold wp, abind, syscall, node_at, reads. cbn. rewrite Hn. destruct (io _) as [| |more]; cbn; [|done|].
  all: split; [done|].
  - exists n, (Z.max 1 maximum). split; [done|]. split; [done|]. split; [lia|]. f_equal. lia.
  - exists n, (Z.of_nat (S more)). split; [done|]. split; [done|]. split; [lia|].
    fold (take (S more) (take (Z.to_nat maximum) (drop (Z.to_nat offset) (nd_bytes n)))).
    rewrite take_take. f_equal. lia.
Qed.

End Specs.
