(* ===== verification/StorageScan.v ===== *)
(** * Scans of the storage root

    What [scan_usage] of [crates/dekopon-storage-host/src/layout.rs] returns:
    the entries below the directory, each once, whatever the order in which
    directories list them and whatever fails on the way. *)

From Stdlib Require Import ZArith Lia Ascii String.
From stdpp Require Import base gmap strings list sorting numbers.
From S2P Require Import Prelude.
From S2P Require Import RustStr.
From S2P Require Import Quota.
From S2P Require Import StorageDir.

(** ** Sums *)

#[export] Instance zsum_perm {A : Type} (f : A → Z) : Proper ((≡ₚ) ==> (=)) (zsum f).
Proof.
  intros l l' Hp. induction Hp as [|x l l' _ IH|x y l|l1 l2 l3 _ IH1 _ IH2]; rewrite ?zsum_cons; lia.
Qed.

Lemma usage_of_app (l l' : list Node) : usage_of (l ++ l') = usage_add (usage_of l) (usage_of l').
Proof.
  unfold usage_of, usage_add. cbn [bytes entries files]. rewrite !zsum_app, length_app. f_equal. lia.
Qed.

#[export] Instance usage_of_perm : Proper ((≡ₚ) ==> (=)) usage_of.
Proof. intros l l' Hp. unfold usage_of. by rewrite Hp. Qed.

Lemma usage_add_assoc (u v w : Usage) : usage_add (usage_add u v) w = usage_add u (usage_add v w).
Proof. unfold usage_add. cbn [bytes entries files]. f_equal; lia. Qed.

Lemma usage_add_nil (u : Usage) : usage_add u (usage_of []) = u.
Proof. destruct u. unfold usage_add. cbn. f_equal; lia. Qed.

Lemma usage_add_one (u : Usage) (n : Node) :
  usage_add u (usage_of [n])
  = mkUsage (bytes u + ENTRY_CHARGE + node_len n) (entries u + 1) (files u + node_file n).
Proof.
  unfold usage_add, usage_of. rewrite !zsum_cons. unfold zsum. cbn [bytes entries files length foldr].
  f_equal; lia.
Qed.

Lemma zsum_entry_nonneg (l : list Node) :
  0 ≤ zsum (fun n => ENTRY_CHARGE + node_len n) l ∧ 0 ≤ zsum node_file l.
Proof.
  split; apply zsum_nonneg, list.Forall_forall; intros n _; unfold node_len, node_file, ENTRY_CHARGE;
    pose proof (len_nonneg (nd_bytes n)); case_bool_decide; lia.
Qed.

Lemma files_le_entries (l : list Node) : files (usage_of l) ≤ entries (usage_of l).
Proof.
  cbn [files entries usage_of]. induction l as [|n l IH]; [done|]. rewrite zsum_cons. cbn [length].
  unfold node_file at 1. case_bool_decide; lia.
Qed.

Lemma file_charges (n : Node) :
  nd_kind n = File → node_len n = len (nd_bytes n) ∧ node_file n = 1.
Proof. intros E. unfold node_len, node_file. by rewrite E. Qed.

Lemma directory_charges (n : Node) : nd_kind n = Directory → node_len n = 0 ∧ node_file n = 0.
Proof. intros E. unfold node_len, node_file. by rewrite E. Qed.

(** ** Trees *)

Definition subtree (fs : gmap path Node) (q : path) : list Node :=
  match fs !! q with Some n => [n] | None => [] end ++ nodes (descendants fs q).

Lemma below_true (p q : path) : below p q = true ↔ ∃ r, q = p ++ r.
Proof. unfold below. rewrite bool_decide_eq_true. done. Qed.

Lemma descendants_lookup (fs : gmap path Node) (p q : path) (n : Node) :
  descendants fs p !! q = Some n ↔ fs !! q = Some n ∧ ∃ x r, q = p ++ x :: r.
Proof.
  unfold descendants. rewrite map_lookup_filter_Some. cbn. rewrite below_true. split.
  - intros [Hq [[r ->] Hne]]. split; [done|]. destruct r as [|x r]; [|by eauto].
    by rewrite app_nil_r in Hne.
  - intros [Hq (x & r & ->)]. split; [done|]. split; [by eauto|].
    intros E. apply (f_equal length) in E. rewrite length_app in E. cbn in E. lia.
Qed.

Section Tree.
Context (listing : gmap path Node → path → list str) (Hlisting : listing_ok listing).
Context (fs : gmap path Node) (Htree : tree_ok fs).

Lemma ancestor (p r : path) (x : str) : is_Some (fs !! (p ++ x :: r)) → is_Some (fs !! (p ++ [x])).
Proof using Htree.
  induction r as [|y r IH] using rev_ind; [done|]. intros H. apply IH.
  rewrite app_comm_cons, app_assoc in H.
  assert (p ++ x :: r ≠ []) as Hne by (destruct p; discriminate). apply (Htree _ _ H) in Hne.
  destruct (fs !! (p ++ x :: r)); [done|discriminate].
Qed.

(** Nothing lies below what is not a directory. *)
Lemma descendants_file (q : path) (n : Node) :
  fs !! q = Some n → nd_kind n ≠ Directory → q ≠ [] → descendants fs q = ∅.
Proof using Htree.
  intros Hq Hk Hne. apply map_empty. intros q'. destruct (descendants fs q !! q') as [n'|] eqn:E; [|done].
  apply descendants_lookup in E as [Hq' (x & r & ->)].
  destruct (ancestor q r x) as [m Hm]; [by eauto|]. 
  specialize (Htree q x (mk_is_Some _ _ Hm) Hne). rewrite Hq in Htree. by injection Htree.
Qed.

Lemma descendants_split (p : path) :
  nodes (descendants fs p) ≡ₚ listing fs p ≫= fun x => subtree fs (p ++ [x]).
Proof using Hlisting Htree.
  destruct (Hlisting fs p) as [Hnd Hin].
  assert (map_to_list (descendants fs p)
    ≡ₚ listing fs p ≫= fun x => match fs !! (p ++ [x]) with Some n => [(p ++ [x], n)] | None => [] end
                                ++ map_to_list (descendants fs (p ++ [x]))) as Hp.
  2:{ unfold nodes. rewrite Hp. clear. induction (listing fs p) as [|x l IH]; [done|]. cbn.
      rewrite !fmap_app, IH. unfold subtree, nodes. by destruct (fs !! (p ++ [x])). }
  apply NoDup_Permutation.
  - apply NoDup_map_to_list.
  - apply NoDup_bind; [|intros x _|done].
    + intros x y [q n] _ _ Hx Hy.
      assert (∀ z, (q, n) ∈ match fs !! (p ++ [z]) with Some n => [(p ++ [z], n)] | None => [] end
                     ++ map_to_list (descendants fs (p ++ [z])) → ∃ r, q = p ++ z :: r) as Hz.
      { intros z [H|H]%elem_of_app.
        - destruct (fs !! (p ++ [z])); [|by apply not_elem_of_nil in H].
          apply list_elem_of_singleton in H. injection H as -> ->. by exists [].
        - apply elem_of_map_to_list, descendants_lookup in H as [_ (x' & r & ->)].
          rewrite <- app_assoc. cbn. eauto. }
      destruct (Hz x Hx) as [r ->], (Hz y Hy) as [r' E]. apply app_inv_head in E. by injection E.
    + apply list.NoDup_app. split; [destruct (fs !! (p ++ [x])); [apply NoDup_singleton|constructor]|].
      split; [|apply NoDup_map_to_list].
      intros [q n] H. destruct (fs !! (p ++ [x])); [|by apply not_elem_of_nil in H].
      apply list_elem_of_singleton in H. injection H as -> ->.
      intros (? & z & r & E)%elem_of_map_to_list%descendants_lookup.
      apply (f_equal length) in E. rewrite !length_app in E. cbn in E. lia.
  - intros [q n]. rewrite elem_of_map_to_list, descendants_lookup, list_elem_of_bind. split.
    + intros [Hq (x & r & ->)]. exists x. split; [|by apply Hin, (ancestor p r); eauto].
      apply elem_of_app. destruct r as [|y r].
      * left. rewrite Hq. by apply list_elem_of_singleton.
      * right. apply elem_of_map_to_list, descendants_lookup. split; [done|].
        exists y, r. by rewrite <- app_assoc.
    + intros (x & [H|H]%elem_of_app & _).
      * destruct (fs !! (p ++ [x])) eqn:E; [|by apply not_elem_of_nil in H].
        apply list_elem_of_singleton in H. injection H as -> ->. split; [done|]. by exists x, [].
      * apply elem_of_map_to_list, descendants_lookup in H as [Hq (y & r & ->)]. split; [done|].
        exists x, (y :: r). by rewrite <- app_assoc.
Qed.

End Tree.

(** ** Listings *)

Lemma insert_name_perm (x : str) (l : list str) : insert_name x l ≡ₚ x :: l.
Proof.
  induction l as [|y l IH]; [done|]. cbn. destruct (str_leb x y); [done|]. rewrite IH. constructor.
Qed.

Lemma sort_names_perm (l : list str) : sort_names l ≡ₚ l.
Proof. induction l as [|x l IH]; [done|]. cbn. by rewrite insert_name_perm, IH. Qed.

Lemma collect_prefix (maximum : Z) (l acc r : list str) :
  Z.of_nat (length acc) ≤ maximum → collect maximum false l acc = Ok r →
  r = acc ++ take (Z.to_nat maximum - length acc) l.
Proof.
  revert acc. induction l as [|x l IH]; intros acc Hacc; cbn [collect].
  - intros [= <-]. by rewrite take_nil, app_nil_r.
  - destruct (validate_component x); [|done]. cbn [result_bind]. destruct (_ <=? _) eqn:E.
    + intros [= <-]. apply Z.leb_le in E. replace (Z.to_nat maximum - length acc)%nat with 0%nat by lia.
      by rewrite app_nil_r.
    + apply Z.leb_gt in E. intros H. apply IH in H; [|rewrite length_app; cbn; lia].
      rewrite H, <- app_assoc, length_app. f_equal. cbn [length app].
      by replace (Z.to_nat maximum - length acc)%nat with (S (Z.to_nat maximum - (length acc + 1)))
        by lia.
Qed.

(** Whether every name of a list is one the code accepts. *)
Definition valid_names (l : list str) : Prop := Forall (fun x => validate_component x = Ok tt) l.

Lemma collect_valid (maximum : Z) (l acc : list str) :
  valid_names l → ∃ r, collect maximum false l acc = Ok r.
Proof.
  intros Hl. revert acc. induction Hl as [|x l Hx _ IH]; intros acc; cbn [collect]; [by eauto|].
  rewrite Hx. cbn [result_bind]. destruct (_ <=? _); [by eauto|apply IH].
Qed.

Ltac disk_err := intros [] ? ?Herr; cbn in Herr; (done || (split; [congruence|done])).

Section Scan.
Context (io : nat → Ending) (listing : gmap path Node → path → list str).
Context (Hlisting : listing_ok listing).

Lemma wp_entries_prefix (p : path) (maximum : Z) (d : Disk) :
  0 ≤ maximum →
  wp (entries_prefix io listing p maximum)
    (outcome (fun names fs => fs = dk_files d
        ∧ names ≡ₚ take (Z.to_nat (Z.min maximum HARD_MAX_DIRECTORY_ENTRIES)) (listing fs p))
       (fun fs => fs = dk_files d)) d.
Proof using.
  intros Hm. unfold entries_prefix, read_entries.
  eapply wp_step; [apply wp_works| |by intros [] ? ?]. intros [] d' Hd. cbn in Hd. rewrite <- Hd.
  apply wp_bind, wp_reads. apply wp_bind, wp_of_result; [|done]. intros names Hn.
  apply wp_pure. cbn. split; [done|]. rewrite sort_names_perm.
  apply collect_prefix in Hn; [|unfold HARD_MAX_DIRECTORY_ENTRIES; cbn; lia].
  by rewrite Hn, Nat.sub_0_r.
Qed.

Lemma wp_open_directory (p : path) (x : str) (d : Disk) :
  wp (open_directory io p x)
    (outcome (fun q fs => fs = dk_files d ∧ q = p ++ [x]
                          ∧ ∃ n, fs !! q = Some n ∧ nd_kind n = Directory)
       (fun fs => fs = dk_files d)) d.
Proof using.
  unfold open_directory. disk_run.
  all: split; [done|]; split; [done|]; eexists; split; [done|].
  all: match goal with H : negb (bool_decide _) = false |- _ =>
         by apply negb_false_iff, bool_decide_eq_true in H end.
Qed.

(** A scan that ends has counted every entry below the directory once. The
    limit is below the number of entries a listing returns at most. *)
Section Sound.
Context (maximum : Z) (Hmax : 0 ≤ maximum < HARD_MAX_DIRECTORY_ENTRIES).

Definition scans (fs : gmap path Node) (u : Usage) (l : list Node) (r : result Exn Usage) (d : Disk)
    : Prop :=
  dk_files d = fs
  ∧ match r with Ok u' => u' = usage_add u (usage_of l) | Err _ => True end.

Lemma scan_entry_sound (child : path → Usage → act Disk Usage) (p : path) (x : str) (u : Usage)
    (d : Disk) :
  tree_ok (dk_files d) → 0 ≤ entries u →
  (∀ q u d', 0 ≤ entries u → dk_files d' = dk_files d →
     wp (child q u) (scans (dk_files d) u (nodes (descendants (dk_files d) q))) d') →
  wp (scan_entry io child maximum p x u) (scans (dk_files d) u (subtree (dk_files d) (p ++ [x]))) d.
Proof using.
  intros Htree Hu Hchild. unfold scan_entry.
  eapply wp_step; [apply wp_metadata| |by intros [] ? ?]. intros m d1 [H1 Hm]. rewrite H1 in Hm.
  apply wp_bind, wp_of_option; [|done]. intros m' ->.
  apply wp_bind, wp_of_option; [|done]. intros ents [-> He]%checked_add_u64_Some.
  destruct (_ <? _); [by apply wp_raise|].
  apply wp_bind, wp_of_option; [|done]. intros b [-> Hb]%checked_add_u64_Some.
  destruct (dk_files d !! (p ++ [x])) as [n|] eqn:En; [|done]. injection Hm as ->.
  unfold subtree. rewrite En. cbn [metadata_of md_kind md_len].
  destruct (nd_kind n) eqn:Ek; [| |by apply wp_raise|by apply wp_raise].
  - eapply wp_step; [apply wp_open_private| |disk_err].
    intros [] d2 [H2 _].
    apply wp_bind, wp_of_option; [|split; [congruence|done]]. intros f [-> Hf]%checked_add_u64_Some.
    apply wp_bind, wp_of_option; [|split; [congruence|done]]. intros b [-> Hb']%checked_add_u64_Some.
    apply wp_pure. split; [congruence|]. rewrite (descendants_file _ Htree _ n) by (congruence || by destruct p).
    unfold nodes. rewrite map_to_list_empty, app_nil_r, usage_add_one.
    unfold node_len, node_file. by rewrite Ek.
  - eapply wp_step; [apply wp_open_directory| |disk_err].
    intros q d2 (H2 & -> & _). eapply wp_mono; [apply Hchild; [cbn; lia|congruence]|].
    intros [u'|e] d3 [H3 Hu']; split; try done. cbn in Hu'. rewrite Hu', usage_of_app, <- usage_add_assoc, usage_add_one.
    unfold node_len, node_file. rewrite Ek. cbn [bool_decide decide_rel]. by rewrite !Z.add_0_r.
Qed.

Lemma each_entry_sound (fs : gmap path Node) (f : str → Usage → act Disk Usage) (g : str → list Node)
    (names : list str) (u : Usage) (d : Disk) :
  (∀ x u d', 0 ≤ entries u → dk_files d' = fs → wp (f x u) (scans fs u (g x)) d') →
  0 ≤ entries u → dk_files d = fs →
  wp (each_entry f names u) (scans fs u (names ≫= g)) d.
Proof using.
  intros Hf. revert u d. induction names as [|x names IH]; intros u d Hu Hd; cbn [each_entry].
  - apply wp_pure. split; [done|]. cbn. by rewrite usage_add_nil.
  - eapply wp_step; [by apply Hf| |by intros e d' [? _]]. intros u' d' [Hd' ->].
    eapply wp_mono; [apply IH; [cbn; lia|done]|].
    intros [u''|e] d'' [? Hu']; split; try done. cbn in Hu'. rewrite Hu'.
    cbn. by rewrite usage_of_app, usage_add_assoc.
Qed.

Lemma scan_sound (fuel : nat) (p : path) (u : Usage) (d : Disk) :
  tree_ok (dk_files d) → 0 ≤ entries u →
  wp (scan io listing fuel maximum p u)
    (scans (dk_files d) u (nodes (descendants (dk_files d) p))) d.
Proof using Hlisting Hmax.
  revert p u d. induction fuel as [|fuel IH]; intros p u d Htree Hu; [done|]. cbn [scan].
  assert (sat_add_u64 (sat_sub_u64 maximum (entries u)) 1 = sat_sub_u64 maximum (entries u) + 1) as ->.
  { unfold sat_add_u64, sat_sub_u64, u64_max, HARD_MAX_DIRECTORY_ENTRIES in *. lia. }
  eapply wp_step; [apply wp_entries_prefix; unfold sat_sub_u64; lia| |by intros [] ? ?].
  intros names d1 [H1 Hp]. rewrite H1 in Hp. destruct (_ <? _) eqn:E; [by apply wp_raise|].
  assert (names ≡ₚ listing (dk_files d) p) as Hn.
  { rewrite Hp in *. apply Z.ltb_ge in E. rewrite length_take in E. rewrite take_ge; [done|].
    unfold sat_sub_u64, HARD_MAX_DIRECTORY_ENTRIES in *. lia. }
  eapply wp_mono; [apply (each_entry_sound (dk_files d) _ (fun x => subtree (dk_files d) (p ++ [x])));
    [|done|done]|].
  - intros x u' d' Hu' Hd'. rewrite <- Hd'. apply scan_entry_sound; [by rewrite Hd'|done|].
    intros q u2 d2 Hu2 Hd2. rewrite <- Hd2. apply IH; [by rewrite Hd2, Hd'|done].
  - intros [u'|e] d' [Hd' Hu']; split; try done. cbn in Hu'. rewrite Hu'.
    by rewrite Hn, <- (descendants_split listing Hlisting _ Htree).
Qed.

End Sound.

(** With fuel for the depth of the tree a scan ends, whatever fails. *)
Section Total.
Context (maximum : Z) (fs : gmap path Node) (depth : nat).
Context (Hdepth : ∀ q, is_Some (fs !! q) → (length q ≤ depth)%nat).

Definition ends (r : result Exn Usage) (d : Disk) : Prop :=
  dk_files d = fs ∧ match r with Ok _ | Err (Throws _) => True | Err _ => False end.

Lemma each_entry_ends (f : str → Usage → act Disk Usage) (names : list str) (u : Usage) (d : Disk) :
  (∀ x u d', dk_files d' = fs → wp (f x u) ends d') → dk_files d = fs → wp (each_entry f names u) ends d.
Proof using.
  intros Hf. revert u d. induction names as [|x names IH]; intros u d Hd; cbn [each_entry]; [done|].
  eapply wp_step; [by apply Hf| |done]. intros u' d' [Hd' _]. by apply IH.
Qed.

Lemma scan_entry_ends (child : path → Usage → act Disk Usage) (p : path) (x : str) (u : Usage)
    (d : Disk) :
  dk_files d = fs →
  (∀ u d', dk_files d' = fs → is_Some (fs !! (p ++ [x])) → wp (child (p ++ [x]) u) ends d') →
  wp (scan_entry io child maximum p x u) ends d.
Proof using.
  intros Hd Hchild. unfold scan_entry.
  eapply wp_step; [apply wp_metadata| |disk_err]. intros m d1 [H1 _].
  apply wp_bind, wp_of_option; [|split; [congruence|done]]. intros m' _.
  apply wp_bind, wp_of_option; [|split; [congruence|done]]. intros ents _. destruct (_ <? _); [split; [cbn; congruence|done]|].
  apply wp_bind, wp_of_option; [|split; [congruence|done]]. intros b _.
  destruct (md_kind m'); [| |split; [cbn; congruence|done]|split; [cbn; congruence|done]].
  - eapply wp_step; [apply wp_open_private| |disk_err].
    intros [] d2 [H2 _].
    apply wp_bind, wp_of_option; [|split; [congruence|done]]. intros f _.
    apply wp_bind, wp_of_option; [|split; [congruence|done]]. intros b' _.
    apply wp_pure. split; [congruence|done].
  - eapply wp_step; [apply wp_open_directory| |disk_err].
    intros q d2 (H2 & -> & n & Hn & _). apply Hchild; [congruence|].
    rewrite H2, H1, Hd in Hn. eauto.
Qed.

Lemma scan_ends (fuel : nat) (p : path) (u : Usage) (d : Disk) :
  dk_files d = fs → (depth - length p < fuel)%nat → wp (scan io listing fuel maximum p u) ends d.
Proof using Hdepth.
  revert p u d. induction fuel as [|fuel IH]; intros p u d Hd Hf; [lia|]. cbn [scan].
  eapply wp_step; [apply wp_entries_prefix; unfold sat_add_u64, sat_sub_u64, u64_max; lia| |disk_err].
  intros names d1 [H1 _]. destruct (_ <? _); [split; [cbn; congruence|done]|].
  apply each_entry_ends; [|congruence]. intros x u' d' Hd'. apply scan_entry_ends; [done|].
  intros u2 d2 Hd2 Hx. apply IH; [done|]. apply Hdepth in Hx. rewrite length_app in *. cbn in *. lia.
Qed.

End Total.

(** A tree the code accepts: every name is valid, every entry is a private
    file or a private directory. *)
Definition sound_tree (fs : gmap path Node) : Prop :=
  tree_ok fs
  ∧ (∀ p x, is_Some (fs !! (p ++ [x])) → validate_component x = Ok tt)
  ∧ ∀ q n, fs !! q = Some n → private_file n ∨ nd_kind n = Directory ∧ nd_private n = true.

(** Without faults a scan of such a tree succeeds if its entries are at most
    the limit. *)
Section Complete.
Context (Hio : ∀ t, io t = Works).
Context (maximum : Z) (Hmax : 0 ≤ maximum < HARD_MAX_DIRECTORY_ENTRIES).
Context (fs : gmap path Node) (Hfs : sound_tree fs).

Definition fits (u : Usage) : Prop :=
  0 ≤ entries u ≤ maximum ∧ bytes u ≤ u64_max ∧ files u ≤ u64_max.

Definition completes (u : Usage) (r : result Exn Usage) (d : Disk) : Prop :=
  dk_files d = fs ∧ r = Ok u.

Lemma fits_app (u : Usage) (l l' : list Node) :
  0 ≤ entries u → fits (usage_add u (usage_of (l ++ l'))) → fits (usage_add u (usage_of l)).
Proof using.
  unfold fits, usage_add, usage_of. cbn [bytes entries files]. rewrite !zsum_app, length_app.
  pose proof (zsum_entry_nonneg l'). lia.
Qed.

Lemma wp_works_ok (Q : result Exn unit → Disk → Prop) (d : Disk) :
  Q (Ok tt) (mkDisk (dk_files d) (S (dk_tick d))) → wp (works io) Q d.
Proof using Hio. unfold wp, works, abind, syscall. by rewrite Hio. Qed.

(** Steps through the calls of an operation on an entry that is there. *)
Ltac calls_ok :=
  repeat first
    [ apply wp_works_ok
    | apply wp_reads
    | apply wp_pure
    | apply wp_bind ].

Lemma metadata_ok (p : path) (x : str) (d : Disk) (n : Node) :
  dk_files d = fs → fs !! (p ++ [x]) = Some n →
  wp (metadata io p x) (fun r d' => dk_files d' = fs ∧ r = Ok (Some (metadata_of n))) d.
Proof using Hio Hfs.
  intros Hd Hn. unfold metadata, node_at. rewrite (proj1 (proj2 Hfs) p x) by eauto.
  calls_ok. cbn. by rewrite Hd, Hn.
Qed.

Lemma open_private_ok (p : path) (x : str) (d : Disk) (n : Node) :
  dk_files d = fs → fs !! (p ++ [x]) = Some n → private_file n →
  wp (open_private io p x false) (fun r d' => dk_files d' = fs ∧ r = Ok tt) d.
Proof using Hio Hfs.
  intros Hd Hn Hp. unfold open_private, validate_private_file, node_at.
  rewrite (proj1 (proj2 Hfs) p x) by eauto. calls_ok. cbn [dk_files]. rewrite Hd, Hn, (proj1 Hp).
  calls_ok. cbn [dk_files]. rewrite Hn, (proj2 (private_check n) Hp). by calls_ok.
Qed.

Lemma open_directory_ok (p : path) (x : str) (d : Disk) (n : Node) :
  dk_files d = fs → fs !! (p ++ [x]) = Some n → nd_kind n = Directory → nd_private n = true →
  wp (open_directory io p x) (fun r d' => dk_files d' = fs ∧ r = Ok (p ++ [x])) d.
Proof using Hio Hfs.
  intros Hd Hn Hk Hp. unfold open_directory, node_at. rewrite (proj1 (proj2 Hfs) p x) by eauto.
  calls_ok. cbn [dk_files]. rewrite Hd, Hn, Hk, Hp. by calls_ok.
Qed.

Lemma scan_entry_complete (child : path → Usage → act Disk Usage) (p : path) (x : str) (u : Usage)
    (d : Disk) :
  dk_files d = fs → is_Some (fs !! (p ++ [x])) → 0 ≤ entries u →
  fits (usage_add u (usage_of (subtree fs (p ++ [x])))) →
  (∀ u d', dk_files d' = fs → 0 ≤ entries u →
     fits (usage_add u (usage_of (nodes (descendants fs (p ++ [x]))))) →
     wp (child (p ++ [x]) u)
       (completes (usage_add u (usage_of (nodes (descendants fs (p ++ [x])))))) d') →
  wp (scan_entry io child maximum p x u)
    (completes (usage_add u (usage_of (subtree fs (p ++ [x]))))) d.
Proof using Hio Hfs Hmax.
  intros Hd [n Hn] Hu. unfold subtree. rewrite Hn. intros Hfit Hchild.
  pose proof (fits_app u [n] _ Hu Hfit) as H1. rewrite usage_add_one in H1.
  destruct H1 as (He & Hb & Hf). cbn [bytes entries files] in *.
  pose proof (len_nonneg (nd_bytes n)) as Hlen.
  unfold scan_entry. eapply wp_step; [by eapply metadata_ok| |by intros e d' [? [=]]].
  intros m d1 [H1 [= ->]]. apply wp_bind, wp_pure.
  assert (u64_max > maximum) as Hbig by (unfold u64_max, HARD_MAX_DIRECTORY_ENTRIES in *; lia).
  rewrite checked_add_u64_fits by lia. apply wp_bind, wp_pure.
  rewrite (proj2 (Z.ltb_ge _ _)) by lia.
  assert (0 ≤ node_len n) by (unfold node_len; case_bool_decide; lia).
  rewrite checked_add_u64_fits by lia. apply wp_bind, wp_pure. cbn [metadata_of md_kind md_len].
  rewrite usage_of_app, <- usage_add_assoc, usage_add_one in *.
  destruct (proj2 (proj2 Hfs) _ _ Hn) as [Hp|[Hk Hp]].
  - pose proof (descendants_file _ (proj1 Hfs) _ _ Hn) as Hdesc. rewrite (proj1 Hp) in *.
    rewrite Hdesc in * by (done || by destruct p). unfold nodes in *. rewrite map_to_list_empty in *.
    rewrite usage_add_nil. destruct (file_charges n (proj1 Hp)) as [El Ef]. rewrite El, Ef in *.
    eapply wp_step; [by eapply open_private_ok| |by intros e d' [? [=]]]. intros [] d2 [H2 _].
    rewrite checked_add_u64_fits by lia. apply wp_bind, wp_pure.
    rewrite checked_add_u64_fits by lia. apply wp_bind, wp_pure. by apply wp_pure.
  - destruct (directory_charges n Hk) as [El Ef]. rewrite El, Ef, !Z.add_0_r, Hk in *.
    eapply wp_step; [by eapply open_directory_ok| |by intros e d' [? [=]]].
    intros q d2 [H2 [= ->]]. apply Hchild; [done|cbn; lia|done].
Qed.

Lemma each_entry_complete (f : str → Usage → act Disk Usage) (g : str → list Node)
    (names : list str) (u : Usage) (d : Disk) :
  (∀ x u d', x ∈ names → dk_files d' = fs → 0 ≤ entries u → fits (usage_add u (usage_of (g x))) →
     wp (f x u) (completes (usage_add u (usage_of (g x)))) d') →
  dk_files d = fs → 0 ≤ entries u → fits (usage_add u (usage_of (names ≫= g))) →
  wp (each_entry f names u) (completes (usage_add u (usage_of (names ≫= g)))) d.
Proof using.
  intros Hf. revert u d. induction names as [|x names IH]; intros u d Hd Hu Hfit; cbn [each_entry].
  - apply wp_pure. split; [done|]. cbn. by rewrite usage_add_nil.
  - cbn in Hfit |- *. eapply wp_step; [apply Hf; [by left|done|done|]| |by intros e d' [? [=]]].
    { by eapply fits_app. }
    intros u' d' [Hd' [= ->]]. rewrite usage_of_app, <- usage_add_assoc in *. apply IH; [|done|cbn; lia|done].
    intros y u2 d2 Hy. apply Hf. by right.
Qed.

Lemma entries_prefix_ok (p : path) (maximum' : Z) (d : Disk) :
  dk_files d = fs → Z.of_nat (length (listing fs p)) ≤ maximum' ≤ HARD_MAX_DIRECTORY_ENTRIES →
  wp (entries_prefix io listing p maximum')
    (fun r d' => dk_files d' = fs ∧ ∃ names, r = Ok names ∧ names ≡ₚ listing fs p) d.
Proof using Hio Hfs Hlisting.
  intros Hd Hm. unfold entries_prefix, read_entries. rewrite Z.min_l by lia. calls_ok. cbn [dk_files].
  rewrite Hd. destruct (collect_valid maximum' (listing fs p) []) as [names Hn].
  { apply list.Forall_forall. intros x Hx. apply (proj1 (proj2 Hfs) p x). by apply Hlisting. }
  rewrite Hn. calls_ok. split; [done|]. eexists; split; [done|]. rewrite sort_names_perm.
  apply collect_prefix in Hn; [|cbn; lia]. rewrite Hn, Nat.sub_0_r. cbn [app]. rewrite take_ge; [done|lia].
Qed.

Lemma listing_length (p : path) :
  (length (listing fs p) ≤ length (nodes (descendants fs p)))%nat.
Proof using Hlisting Hfs.
  rewrite (descendants_split listing Hlisting fs (proj1 Hfs) p).
  assert (∀ x, x ∈ listing fs p → subtree fs (p ++ [x]) ≠ []) as Hne.
  { intros x [n Hn]%Hlisting. unfold subtree. by rewrite Hn. }
  induction (listing fs p) as [|x l IH]; [done|]. cbn. rewrite length_app.
  assert (subtree fs (p ++ [x]) ≠ []) as Hx by (apply Hne; by left).
  destruct (subtree fs (p ++ [x])); [done|]. cbn. apply le_n_S. etransitivity; [apply IH|lia].
  intros y Hy. apply Hne. by right.
Qed.

Lemma scan_complete (fuel depth : nat) (p : path) (u : Usage) (d : Disk) :
  (∀ q, is_Some (fs !! q) → (length q ≤ depth)%nat) → (depth - length p < fuel)%nat →
  dk_files d = fs → 0 ≤ entries u → fits (usage_add u (usage_of (nodes (descendants fs p)))) →
  wp (scan io listing fuel maximum p u)
    (completes (usage_add u (usage_of (nodes (descendants fs p))))) d.
Proof using Hlisting Hio Hmax Hfs.
  intros Hdepth. revert p u d. induction fuel as [|fuel IH]; intros p u d Hf Hd Hu Hfit; [lia|].
  cbn [scan].
  pose proof (listing_length p) as Hlen.
  assert (entries u + Z.of_nat (length (nodes (descendants fs p))) ≤ maximum) as Hcount by apply Hfit.
  assert (sat_sub_u64 maximum (entries u) = maximum - entries u) as -> by (unfold sat_sub_u64; lia).
  assert (sat_add_u64 (maximum - entries u) 1 = maximum - entries u + 1) as ->.
  { unfold sat_add_u64, u64_max, HARD_MAX_DIRECTORY_ENTRIES in *. lia. }
  eapply wp_step; [apply entries_prefix_ok; [done|lia]| |by intros e d' [_ (? & [=] & _)]].
  intros names d1 [H1 (names' & [= <-] & Hn)].
  rewrite (proj2 (Z.ltb_ge _ _)) by (rewrite Hn; lia).
  rewrite (descendants_split listing Hlisting fs (proj1 Hfs) p), <- Hn in *.
  apply each_entry_complete; [|done|done|done]. intros x u' d' Hx Hd' Hu' Hfit'.
  rewrite Hn in Hx. apply Hlisting in Hx. apply scan_entry_complete; [done|done|done|done|].
  intros u2 d2 Hd2 Hu2 Hfit2. apply IH; [|done|done|done].
  apply Hdepth in Hx. rewrite length_app in *. cbn in *. lia.
Qed.

End Complete.

End Scan.

(** At the ceiling of the limit the listing is cut before the check for one
    entry too many can see it: a directory with more entries is scanned in
    part. *)
Lemma prefix_hides_excess (io : nat → Ending) (listing : gmap path Node → path → list str) (p : path)
    (d : Disk) :
  wp (entries_prefix io listing p (sat_add_u64 (sat_sub_u64 HARD_MAX_DIRECTORY_ENTRIES 0) 1))
    (outcome (fun names _ => (HARD_MAX_DIRECTORY_ENTRIES <? Z.of_nat (length names)) = false)
       (fun _ => True)) d.
Proof.
  eapply wp_mono; [apply wp_entries_prefix; done|]. intros [names|[]] d'; [|done|done|done].
  cbn. intros [_ Hn]. rewrite Hn, length_take. apply Z.ltb_ge.
  unfold HARD_MAX_DIRECTORY_ENTRIES, sat_add_u64, sat_sub_u64, u64_max. lia.
Qed.

(** ** Properties *)

(** A scan that returns has charged every entry below the directory
    exactly once, 4096 bytes and the length of each file, and changed nothing;
    and a scan of a tree of private files and directories in which no call
    fails returns as soon as its entries are within the limit. The order of
    listings does not matter. *)
Theorem scan_counts_exactly (io : nat → Ending) (listing : gmap path Node → path → list str)
    (maximum : Z) (d : Disk) (depth fuel : nat) (dir : path) :
  listing_ok listing → 0 ≤ maximum < HARD_MAX_DIRECTORY_ENTRIES → tree_ok (dk_files d) →
  (∀ q, is_Some (dk_files d !! q) → (length q ≤ depth)%nat) → (depth - length dir < fuel)%nat →
  let total := usage_of (nodes (descendants (dk_files d) dir)) in
  (∀ u d', scan_usage io listing fuel dir maximum d = (Ok u, d') →
     u = total ∧ dk_files d' = dk_files d)
  ∧ ((∀ t, io t = Works) → sound_tree (dk_files d) → entries total ≤ maximum → bytes total ≤ u64_max →
     (scan_usage io listing fuel dir maximum d).1 = Ok total).
Proof.
  intros Hl Hm Ht Hdepth Hfuel total.
  assert (usage_add (mkUsage 0 0 0) total = total) as E0 by done.
  split.
  - intros u d' E. pose proof (scan_sound io listing Hl maximum Hm fuel dir (mkUsage 0 0 0) d Ht) as H.
    unfold wp in H. unfold scan_usage in E. rewrite E in H. cbn [fst snd] in H.
    destruct H as [Hd ->]; [done|]. fold total. by rewrite E0.
  - intros Hio Hs He Hb. unfold scan_usage.
    destruct (scan_complete io listing Hl Hio maximum Hm (dk_files d) Hs fuel depth dir (mkUsage 0 0 0) d
                Hdepth Hfuel eq_refl) as [_ ->]; [done| |by fold total; rewrite E0].
    fold total. rewrite E0. unfold fits. split; [split; [cbn; lia|done]|]. split; [done|].
    pose proof (files_le_entries (nodes (descendants (dk_files d) dir))) as Hfe. fold total in Hfe.
    unfold u64_max, HARD_MAX_DIRECTORY_ENTRIES in *. lia.
Qed.

(** A scan of a tree ends whatever fails on the way, with a result or an
    error of the code: the recursion goes no deeper than the tree. *)
Theorem scan_terminates (io : nat → Ending) (listing : gmap path Node → path → list str)
    (maximum : Z) (d : Disk) (depth fuel : nat) (dir : path) :
  (∀ q, is_Some (dk_files d !! q) → (length q ≤ depth)%nat) → (depth - length dir < fuel)%nat →
  ∃ d', dk_files d' = dk_files d
        ∧ ((∃ u, scan_usage io listing fuel dir maximum d = (Ok u, d'))
           ∨ (∃ e, scan_usage io listing fuel dir maximum d = (Err (Throws e), d'))).
Proof.
  intros Hdepth Hfuel. unfold scan_usage.
  pose proof (scan_ends io listing maximum (dk_files d) depth Hdepth fuel dir (mkUsage 0 0 0) d
                eq_refl Hfuel) as H.
  unfold wp in H. destruct (scan _ _ _ _ _ _ d) as [[u|[e| |]] d'], H as [Hd H]; cbn in *;
    exists d'; eauto; done.
Qed.

(** ** Witnesses *)

(** The last component of an entry of a directory; a listing in the order of
    the map. *)
Definition entry_of (p q : path) : option str :=
  match reverse q with x :: r => if bool_decide (reverse r = p) then Some x else None | [] => None end.

Definition map_listing (fs : gmap path Node) (p : path) : list str :=
  omap (fun qn => entry_of p qn.1) (map_to_list fs).

Lemma entry_of_Some (p q : path) (x : str) : entry_of p q = Some x ↔ q = p ++ [x].
Proof.
  unfold entry_of. split.
  - destruct (reverse q) as [|y r] eqn:E; [done|]. case_bool_decide as Hp; [|done]. intros [= <-].
    by rewrite <- (reverse_involutive q), E, reverse_cons, Hp.
  - intros ->. by rewrite reverse_snoc, reverse_involutive, bool_decide_eq_true_2.
Qed.

Lemma map_listing_ok : listing_ok map_listing.
Proof.
  intros fs p. split.
  - unfold map_listing. pose proof (NoDup_fst_map_to_list fs) as Hnd.
    induction (map_to_list fs) as [|[q n] l IH]; [constructor|]. cbn in Hnd.
    apply list.NoDup_cons in Hnd as [Hq Hnd]. cbn. destruct (entry_of p q) as [x|] eqn:E; [|by apply IH].
    constructor; [|by apply IH]. intros ([q' n'] & Hin & E')%list_elem_of_omap. cbn in E'.
    apply entry_of_Some in E, E'. subst. apply Hq. apply list_elem_of_fmap. by exists (p ++ [x], n').
  - intros x. unfold map_listing. rewrite list_elem_of_omap. split.
    + intros ([q n] & Hin%elem_of_map_to_list & E%entry_of_Some). cbn in *. subst. eauto.
    + intros [n Hn]. exists (p ++ [x], n). split; [by apply elem_of_map_to_list|]. by apply entry_of_Some.
Qed.

(** A directory with a file, and one more in a directory below it. *)
Definition demo_dir : Node := mkNode Directory 2 true [].
Definition demo_file (b : list Z) : Node := mkNode File 1 true b.
Definition demo_tree : gmap path Node :=
  {[ [lit "lease.lock"] := demo_file []; [lit "data"] := demo_dir;
     [lit "data"; lit "a"] := demo_file [1; 2; 3] ]}.
Definition demo_disk : Disk := mkDisk demo_tree 0.

Lemma demo_lookup (P : path → Prop) :
  P [lit "lease.lock"] → P [lit "data"] → P [lit "data"; lit "a"] →
  ∀ q, is_Some (demo_tree !! q) → P q.
Proof.
  intros H1 H2 H3 q [n Hn]. unfold demo_tree in Hn.
  repeat (rewrite lookup_insert_Some in Hn; destruct Hn as [[<- _]|[_ Hn]]; [done|]).
  apply lookup_singleton_Some in Hn as [<- _]. done.
Qed.

Lemma demo_tree_ok : tree_ok demo_tree.
Proof.
  intros p x H Hp. revert p x H Hp.
  assert (∀ q, is_Some (demo_tree !! q) → ∀ p x, q = p ++ [x] → p ≠ [] →
    nd_kind <$> demo_tree !! p = Some Directory) as H; [|by eauto].
  refine (demo_lookup _ _ _ _); intros p x E Hp; destruct p as [|y [|z p]]; try done; cbn in E; simplify_eq.
  - reflexivity.
  - by destruct p.
Qed.

Lemma scan_counts_exactly_witness :
  (scan_usage (fun _ => Works) map_listing 3 [] 10 demo_disk).1 = Ok (mkUsage (3 * 4096 + 3) 3 2).
Proof.
  refine (proj2 (scan_counts_exactly (fun _ => Works) map_listing 10 demo_disk 2 3 []
    map_listing_ok _ demo_tree_ok _ _) _ _ _ _).
  - by vm_compute.
  - refine (demo_lookup _ _ _ _); cbn; lia.
  - cbn; lia.
  - done.
  - split; [apply demo_tree_ok|]. split.
    + assert (∀ q, is_Some (demo_tree !! q) → ∀ p x, q = p ++ [x] → validate_component x = Ok tt) as H;
        [|by eauto].
      refine (demo_lookup _ _ _ _); intros p x E; destruct p as [|y [|z p]]; try done; cbn in E; simplify_eq;
        try done; by destruct p.
    + assert (∀ q, is_Some (demo_tree !! q) → ∀ n, demo_tree !! q = Some n →
        private_file n ∨ nd_kind n = Directory ∧ nd_private n = true) as H; [|by eauto].
      refine (demo_lookup _ _ _ _); intros n E; vm_compute in E; simplify_eq; unfold private_file; cbn; tauto.
  - by vm_compute.
  - by vm_compute.
Defined.

Lemma scan_terminates_witness :
  ∃ d', dk_files d' = demo_tree
        ∧ ((∃ u, scan_usage (fun t => if (t =? 4)%nat then Breaks 0 else Works) map_listing 3 [] 10 demo_disk
                 = (Ok u, d'))
           ∨ (∃ e, scan_usage (fun t => if (t =? 4)%nat then Breaks 0 else Works) map_listing 3 [] 10
                     demo_disk = (Err (Throws e), d'))).
Proof.
  apply (scan_terminates _ map_listing 10 demo_disk 2 3 []); [|cbn; lia].
  refine (demo_lookup _ _ _ _); cbn; lia.
Defined.
