(* ===== verification/StorageHandle.v ===== *)
(** * Storage transactions

    [crates/dekopon-storage-host/src/handle.rs], [vfs.rs] and [jsonl.rs]: a
    [StorageHandle] is one transaction on the data directory of a namespace.
    It caches what it knows of the files, charges each call against the limits
    of the invocation, reserves growth in the quota ledger before it writes
    and reports what it left.

    The state of an operation is a [World]: the handle, the files below the
    directory of the generation (the data directory is [data] in it), the
    quota ledger, which other invocations use between any two of its methods
    ([others]), and two counters that number the system calls and the uses of
    the ledger. The lease is an open file and has no state here. *)

From Stdlib Require Import ZArith Lia Ascii String.
From stdpp Require Import base gmap strings list sorting numbers.
From S2P Require Import Prelude.
From S2P Require Import RustStr.
From S2P Require Import Capability.
From S2P Require Import StorageConfig.
From S2P Require Import Quota.
From S2P Require Import Keys.
From S2P Require Import StorageDir.

Record FileEntry : Type := mkFileEntry {
  fe_data : option (list Z);
  fe_loaded : bool;
  fe_exists : bool;
  fe_size : Z;
  fe_identity : Z
}.

Definition FileEntry_size (e : FileEntry) : option Z := if fe_exists e then Some (fe_size e) else None.
Definition present (size : Z) (e : FileEntry) : FileEntry :=
  mkFileEntry None false true size (fe_identity e).
Definition mirrored (bytes : list Z) (e : FileEntry) : FileEntry :=
  mkFileEntry (Some bytes) true true (len bytes) (fe_identity e).
Definition absent (e : FileEntry) : FileEntry := mkFileEntry None true false 0 0.
Definition set_data (data : option (list Z)) (e : FileEntry) : FileEntry :=
  mkFileEntry data (fe_loaded e) (fe_exists e) (fe_size e) (fe_identity e).
Definition loaded_with (data : list Z) (e : FileEntry) : FileEntry :=
  mkFileEntry (Some data) true (fe_exists e) (fe_size e) (fe_identity e).
Definition identified (identity : Z) (e : FileEntry) : FileEntry :=
  mkFileEntry (fe_data e) (fe_loaded e) (fe_exists e) (fe_size e) identity.

Record HandleState : Type := mkHandleState {
  hs_token : str;
  hs_read : bool;
  hs_write : bool;
  hs_delete_on_close : bool
}.

Record PlannedChange : Type := mkPlannedChange {
  pc_token : str;
  pc_before : option Z;
  pc_after : option Z
}.

Record OperationEvidence : Type := mkEvidence {
  ev_operations : Z;
  ev_syncs : Z;
  ev_quota_denials : Z;
  ev_read_bytes : Z;
  ev_write_bytes : Z
}.

Record StorageEvidence : Type := mkStorageEvidence {
  se_operations : Z;
  se_syncs : Z;
  se_quota_denials : Z;
  se_read_bytes : Z;
  se_write_bytes : Z;
  se_evidence_commitment : str
}.

Record StorageHandle : Type := mkHandle {
  hd_interface : StorageInterface;
  hd_access : StorageAccess;
  hd_base_token : str;
  hd_generation_token : str;
  hd_scope_commitment : str;
  hd_entries : gmap str FileEntry;
  hd_usage : Usage;
  hd_baseline_files : gset str;
  hd_handles : gmap Z HandleState;
  hd_pending_delete : gset str;
  hd_next_handle : Z;
  hd_next_file_identity : Z;
  hd_host_calls : Z;
  hd_read_bytes : Z;
  hd_native_loaded_bytes : Z;
  hd_write_bytes : Z;
  hd_entropy_bytes : Z;
  hd_evidence : OperationEvidence;
  hd_reservation : option Reservation;
  hd_finalized : bool;
  hd_failed : bool
}.

Definition set_entries (v : gmap str FileEntry) (h : StorageHandle) : StorageHandle :=
  mkHandle (hd_interface h) (hd_access h) (hd_base_token h) (hd_generation_token h)
    (hd_scope_commitment h) v (hd_usage h) (hd_baseline_files h) (hd_handles h)
    (hd_pending_delete h) (hd_next_handle h) (hd_next_file_identity h) (hd_host_calls h)
    (hd_read_bytes h) (hd_native_loaded_bytes h) (hd_write_bytes h) (hd_entropy_bytes h)
    (hd_evidence h) (hd_reservation h) (hd_finalized h) (hd_failed h).
Definition set_usage (v : Usage) (h : StorageHandle) : StorageHandle :=
  mkHandle (hd_interface h) (hd_access h) (hd_base_token h) (hd_generation_token h)
    (hd_scope_commitment h) (hd_entries h) v (hd_baseline_files h) (hd_handles h)
    (hd_pending_delete h) (hd_next_handle h) (hd_next_file_identity h) (hd_host_calls h)
    (hd_read_bytes h) (hd_native_loaded_bytes h) (hd_write_bytes h) (hd_entropy_bytes h)
    (hd_evidence h) (hd_reservation h) (hd_finalized h) (hd_failed h).
Definition set_baseline_files (v : gset str) (h : StorageHandle) : StorageHandle :=
  mkHandle (hd_interface h) (hd_access h) (hd_base_token h) (hd_generation_token h)
    (hd_scope_commitment h) (hd_entries h) (hd_usage h) v (hd_handles h) (hd_pending_delete h)
    (hd_next_handle h) (hd_next_file_identity h) (hd_host_calls h) (hd_read_bytes h)
    (hd_native_loaded_bytes h) (hd_write_bytes h) (hd_entropy_bytes h) (hd_evidence h)
    (hd_reservation h) (hd_finalized h) (hd_failed h).
Definition set_handles (v : gmap Z HandleState) (h : StorageHandle) : StorageHandle :=
  mkHandle (hd_interface h) (hd_access h) (hd_base_token h) (hd_generation_token h)
    (hd_scope_commitment h) (hd_entries h) (hd_usage h) (hd_baseline_files h) v
    (hd_pending_delete h) (hd_next_handle h) (hd_next_file_identity h) (hd_host_calls h)
    (hd_read_bytes h) (hd_native_loaded_bytes h) (hd_write_bytes h) (hd_entropy_bytes h)
    (hd_evidence h) (hd_reservation h) (hd_finalized h) (hd_failed h).
Definition set_pending_delete (v : gset str) (h : StorageHandle) : StorageHandle :=
  mkHandle (hd_interface h) (hd_access h) (hd_base_token h) (hd_generation_token h)
    (hd_scope_commitment h) (hd_entries h) (hd_usage h) (hd_baseline_files h) (hd_handles h) v
    (hd_next_handle h) (hd_next_file_identity h) (hd_host_calls h) (hd_read_bytes h)
    (hd_native_loaded_bytes h) (hd_write_bytes h) (hd_entropy_bytes h) (hd_evidence h)
    (hd_reservation h) (hd_finalized h) (hd_failed h).
Definition set_next_handle (v : Z) (h : StorageHandle) : StorageHandle :=
  mkHandle (hd_interface h) (hd_access h) (hd_base_token h) (hd_generation_token h)
    (hd_scope_commitment h) (hd_entries h) (hd_usage h) (hd_baseline_files h) (hd_handles h)
    (hd_pending_delete h) v (hd_next_file_identity h) (hd_host_calls h) (hd_read_bytes h)
    (hd_native_loaded_bytes h) (hd_write_bytes h) (hd_entropy_bytes h) (hd_evidence h)
    (hd_reservation h) (hd_finalized h) (hd_failed h).
Definition set_next_file_identity (v : Z) (h : StorageHandle) : StorageHandle :=
  mkHandle (hd_interface h) (hd_access h) (hd_base_token h) (hd_generation_token h)
    (hd_scope_commitment h) (hd_entries h) (hd_usage h) (hd_baseline_files h) (hd_handles h)
    (hd_pending_delete h) (hd_next_handle h) v (hd_host_calls h) (hd_read_bytes h)
    (hd_native_loaded_bytes h) (hd_write_bytes h) (hd_entropy_bytes h) (hd_evidence h)
    (hd_reservation h) (hd_finalized h) (hd_failed h).
Definition set_host_calls (v : Z) (h : StorageHandle) : StorageHandle :=
  mkHandle (hd_interface h) (hd_access h) (hd_base_token h) (hd_generation_token h)
    (hd_scope_commitment h) (hd_entries h) (hd_usage h) (hd_baseline_files h) (hd_handles h)
    (hd_pending_delete h) (hd_next_handle h) (hd_next_file_identity h) v (hd_read_bytes h)
    (hd_native_loaded_bytes h) (hd_write_bytes h) (hd_entropy_bytes h) (hd_evidence h)
    (hd_reservation h) (hd_finalized h) (hd_failed h).
Definition set_read_bytes (v : Z) (h : StorageHandle) : StorageHandle :=
  mkHandle (hd_interface h) (hd_access h) (hd_base_token h) (hd_generation_token h)
    (hd_scope_commitment h) (hd_entries h) (hd_usage h) (hd_baseline_files h) (hd_handles h)
    (hd_pending_delete h) (hd_next_handle h) (hd_next_file_identity h) (hd_host_calls h) v
    (hd_native_loaded_bytes h) (hd_write_bytes h) (hd_entropy_bytes h) (hd_evidence h)
    (hd_reservation h) (hd_finalized h) (hd_failed h).
Definition set_native_loaded_bytes (v : Z) (h : StorageHandle) : StorageHandle :=
  mkHandle (hd_interface h) (hd_access h) (hd_base_token h) (hd_generation_token h)
    (hd_scope_commitment h) (hd_entries h) (hd_usage h) (hd_baseline_files h) (hd_handles h)
    (hd_pending_delete h) (hd_next_handle h) (hd_next_file_identity h) (hd_host_calls h)
    (hd_read_bytes h) v (hd_write_bytes h) (hd_entropy_bytes h) (hd_evidence h) (hd_reservation
    h) (hd_finalized h) (hd_failed h).
Definition set_write_bytes (v : Z) (h : StorageHandle) : StorageHandle :=
  mkHandle (hd_interface h) (hd_access h) (hd_base_token h) (hd_generation_token h)
    (hd_scope_commitment h) (hd_entries h) (hd_usage h) (hd_baseline_files h) (hd_handles h)
    (hd_pending_delete h) (hd_next_handle h) (hd_next_file_identity h) (hd_host_calls h)
    (hd_read_bytes h) (hd_native_loaded_bytes h) v (hd_entropy_bytes h) (hd_evidence h)
    (hd_reservation h) (hd_finalized h) (hd_failed h).
Definition set_entropy_bytes (v : Z) (h : StorageHandle) : StorageHandle :=
  mkHandle (hd_interface h) (hd_access h) (hd_base_token h) (hd_generation_token h)
    (hd_scope_commitment h) (hd_entries h) (hd_usage h) (hd_baseline_files h) (hd_handles h)
    (hd_pending_delete h) (hd_next_handle h) (hd_next_file_identity h) (hd_host_calls h)
    (hd_read_bytes h) (hd_native_loaded_bytes h) (hd_write_bytes h) v (hd_evidence h)
    (hd_reservation h) (hd_finalized h) (hd_failed h).
Definition set_evidence (v : OperationEvidence) (h : StorageHandle) : StorageHandle :=
  mkHandle (hd_interface h) (hd_access h) (hd_base_token h) (hd_generation_token h)
    (hd_scope_commitment h) (hd_entries h) (hd_usage h) (hd_baseline_files h) (hd_handles h)
    (hd_pending_delete h) (hd_next_handle h) (hd_next_file_identity h) (hd_host_calls h)
    (hd_read_bytes h) (hd_native_loaded_bytes h) (hd_write_bytes h) (hd_entropy_bytes h) v
    (hd_reservation h) (hd_finalized h) (hd_failed h).
Definition set_reservation (v : option Reservation) (h : StorageHandle) : StorageHandle :=
  mkHandle (hd_interface h) (hd_access h) (hd_base_token h) (hd_generation_token h)
    (hd_scope_commitment h) (hd_entries h) (hd_usage h) (hd_baseline_files h) (hd_handles h)
    (hd_pending_delete h) (hd_next_handle h) (hd_next_file_identity h) (hd_host_calls h)
    (hd_read_bytes h) (hd_native_loaded_bytes h) (hd_write_bytes h) (hd_entropy_bytes h)
    (hd_evidence h) v (hd_finalized h) (hd_failed h).
Definition set_finalized (v : bool) (h : StorageHandle) : StorageHandle :=
  mkHandle (hd_interface h) (hd_access h) (hd_base_token h) (hd_generation_token h)
    (hd_scope_commitment h) (hd_entries h) (hd_usage h) (hd_baseline_files h) (hd_handles h)
    (hd_pending_delete h) (hd_next_handle h) (hd_next_file_identity h) (hd_host_calls h)
    (hd_read_bytes h) (hd_native_loaded_bytes h) (hd_write_bytes h) (hd_entropy_bytes h)
    (hd_evidence h) (hd_reservation h) v (hd_failed h).
Definition set_failed (v : bool) (h : StorageHandle) : StorageHandle :=
  mkHandle (hd_interface h) (hd_access h) (hd_base_token h) (hd_generation_token h)
    (hd_scope_commitment h) (hd_entries h) (hd_usage h) (hd_baseline_files h) (hd_handles h)
    (hd_pending_delete h) (hd_next_handle h) (hd_next_file_identity h) (hd_host_calls h)
    (hd_read_bytes h) (hd_native_loaded_bytes h) (hd_write_bytes h) (hd_entropy_bytes h)
    (hd_evidence h) (hd_reservation h) (hd_finalized h) v.


Record World : Type := mkWorld {
  w_hd : StorageHandle;
  w_disk : Disk;
  w_ledger : LedgerState;
  w_turn : nat
}.

Definition on_handle (f : StorageHandle → StorageHandle) (w : World) : World :=
  mkWorld (f (w_hd w)) (w_disk w) (w_ledger w) (w_turn w).

(** [name.bytes().all(..)] of a logical name. *)
Definition name_byte (b : Z) : bool :=
  is_ascii_lowercase b || is_ascii_digit b || (b =? ch ".") || (b =? ch "_") || (b =? ch "-").

Definition validate_name (name : str) : result StorageHostError unit :=
  if is_empty name || (128 <? len name)
     || negb (match name with b :: _ => is_ascii_lowercase b || is_ascii_digit b | [] => false end)
     || negb (forallb name_byte name) || str_eqb name (lit ".") || str_eqb name (lit "..")
  then Err InvalidName
  else Ok tt.

Definition DOMAIN_LOGICAL_PATH : str := lit "logical-name-path-v1".
Definition DOMAIN_OPERATION_EVIDENCE : str := lit "storage-operation-evidence-v1".

(** The data directory below the directory of the generation. *)
Definition data : path := [lit "data"].

Section Transaction.
Context (limits : StorageLimits).
Context (io : nat → Ending) (listing : gmap path Node → path → list str).
Context (others : nat → LedgerState → LedgerState).
Context (sha256 : list Z → list Z) (is_json : list Z → bool).

(** ** Access to the parts of the world *)

Definition self : act World StorageHandle := reads w_hd.
Definition update (f : StorageHandle → StorageHandle) : act World unit := modify (on_handle f).

Definition on_disk {A : Type} (m : act Disk A) : act World A :=
  fun w => let '(r, d) := m (w_disk w) in (r, mkWorld (w_hd w) d (w_ledger w) (w_turn w)).

(** A method of the ledger, after whatever the other invocations did. *)
Definition on_ledger {A : Type} (m : locked A) : act World A :=
  fun w =>
    let '(r, s) := m (others (w_turn w) (w_ledger w)) in
    (match r with Ok a => Ok a | Err e => Err (Throws e) end,
     mkWorld (w_hd w) (w_disk w) s (S (w_turn w))).
Definition ledger_do (f : LedgerState → LedgerState) : act World unit :=
  on_ledger (fun s => (Ok tt, f s)).

(** [self.entries.get_mut(&token).expect(..)] *)
Definition update_entry (token : str) (f : FileEntry → FileEntry) : act World unit :=
  h ⇚ self;
  e ⇚ expect (hd_entries h !! token);
  update (set_entries (<[token := f e]> (hd_entries h))).

(** [self.entries[&token]] *)
Definition entry (token : str) : act World FileEntry :=
  h ⇚ self; expect (hd_entries h !! token).

(** ** The start of a transaction *)

(** What a grant carries into the transaction. *)
Record Grant : Type := mkGrant {
  gr_interface : StorageInterface;
  gr_access : StorageAccess;
  gr_base_token : str;
  gr_generation_token : str;
  gr_scope_commitment : str
}.

(** [File::try_lock], and the loop that waits for a lease: [tries] and
    [expired] say how each attempt ends and whether the deadline has passed
    then. *)
Inductive TryLock : Type := Locked | WouldBlock | LockError.

Definition lease_lock_failure (error : TryLock) (expired : bool) : option StorageHostError :=
  match error with
  | WouldBlock => if expired then Some Timeout else None
  | _ => Some Io
  end.

Fixpoint lock_exclusive {S : Type} (fuel : nat) (tries : nat → TryLock) (expired : nat → bool)
    (attempt : nat) : act S unit :=
  match fuel with
  | O => fun s => (Err Diverges, s)
  | Datatypes.S fuel =>
      match tries attempt with
      | Locked => pure tt
      | error =>
          match lease_lock_failure error (expired attempt) with
          | Some failure => raise failure
          | None => lock_exclusive fuel tries expired (Datatypes.S attempt)
          end
      end
  end.

Fixpoint baseline_of (tokens : list str) (baseline : gset str) : act World (gset str) :=
  match tokens with
  | [] => pure baseline
  | token :: tokens =>
      m ⇚ on_disk (logical_file io data token);
      if max_file_bytes limits <? md_len m then raise QuotaExceeded
      else baseline_of tokens ({[token]} ∪ baseline)
  end.

(** The lock is held by no two transactions on a generation; its deadline is
    part of [expired]. *)
Definition open_generation (fuel depth : nat) (tries : nat → TryLock) (expired : nat → bool)
    : act World (Usage * gset str) :=
  _ ⇚ on_disk (open_private io [] (lit "lease.lock") false);
  _ ⇚ lock_exclusive fuel tries expired 0;
  scanned ⇚ on_disk (scan_usage io listing depth [] (startup_max_entries limits));
  usage ⇚ of_result (usage_with_directory_entry scanned);
  tokens ⇚ on_disk (entries_bounded io listing data (max_files_per_namespace limits));
  baseline_files ⇚ baseline_of tokens ∅;
  pure (usage, baseline_files).

Definition namespace_key (base generation : str) : str := base ++ lit "/" ++ generation.

Definition begin_transaction (grant : Grant) (fuel depth : nat) (tries : nat → TryLock)
    (expired : nat → bool) : act World unit :=
  opened ⇚ open_generation fuel depth tries expired;
  let '(usage, baseline_files) := opened in
  if max_files_per_namespace limits <? Z.of_nat (size baseline_files) then raise QuotaExceeded
  else if max_namespace_bytes limits <? bytes usage then raise QuotaExceeded
  else
    reservation ⇚ on_ledger (begin limits (namespace_key (gr_base_token grant)
                                             (gr_generation_token grant)) usage);
    update (fun _ =>
      mkHandle (gr_interface grant) (gr_access grant) (gr_base_token grant)
        (gr_generation_token grant) (gr_scope_commitment grant) ∅ usage baseline_files ∅ ∅ 1 1 0 0 0 0
        0 (mkEvidence 0 0 0 0 0) (Some reservation) false false).

(** ** Charges *)

Definition note_call : act World unit :=
  h ⇚ self;
  if hd_failed h then raise Io
  else
    calls ⇚ of_option Arithmetic (checked_add_u64 (hd_host_calls h) 1);
    _ ⇚ update (set_host_calls calls);
    let ev := hd_evidence h in
    operations ⇚ of_option Arithmetic (checked_add_u64 (ev_operations ev) 1);
    _ ⇚ update (set_evidence (mkEvidence operations (ev_syncs ev) (ev_quota_denials ev)
                                (ev_read_bytes ev) (ev_write_bytes ev)));
    if max_host_calls_per_invocation limits <? calls then raise QuotaExceeded else pure tt.

Definition charge_read (bytes : Z) : act World unit :=
  if max_read_bytes_per_call limits <? bytes then raise QuotaExceeded
  else
    h ⇚ self;
    total ⇚ of_option Arithmetic (checked_add_u64 (hd_read_bytes h) bytes);
    if max_read_bytes_per_invocation limits <? total then raise QuotaExceeded
    else
      _ ⇚ update (set_read_bytes total);
      let ev := hd_evidence h in
      update (set_evidence (mkEvidence (ev_operations ev) (ev_syncs ev) (ev_quota_denials ev) total
                              (ev_write_bytes ev))).

Definition charge_write (bytes : Z) : act World unit :=
  h ⇚ self;
  match hd_access h with
  | ReadOnly => raise PermissionDenied
  | ReadWrite =>
      if max_write_bytes_per_call limits <? bytes then raise QuotaExceeded
      else
        total ⇚ of_option Arithmetic (checked_add_u64 (hd_write_bytes h) bytes);
        if max_write_bytes_per_invocation limits <? total then raise QuotaExceeded
        else
          _ ⇚ update (set_write_bytes total);
          let ev := hd_evidence h in
          update (set_evidence (mkEvidence (ev_operations ev) (ev_syncs ev) (ev_quota_denials ev)
                                  (ev_read_bytes ev) total))
  end.

Definition charge_entropy (bytes : Z) : act World unit :=
  if max_entropy_bytes_per_call limits <? bytes then raise QuotaExceeded
  else
    h ⇚ self;
    total ⇚ of_option Arithmetic (checked_add_u64 (hd_entropy_bytes h) bytes);
    if max_entropy_bytes_per_invocation limits <? total then raise QuotaExceeded
    else update (set_entropy_bytes total).

Definition note_quota_denial : act World unit :=
  h ⇚ self;
  let ev := hd_evidence h in
  update (set_evidence (mkEvidence (ev_operations ev) (ev_syncs ev)
                          (sat_add_u64 (ev_quota_denials ev) 1) (ev_read_bytes ev)
                          (ev_write_bytes ev))).

(** ** Entries *)

Definition logical_token (h : StorageHandle) (name : str) : result StorageHostError str :=
  let? _ := validate_name name in
  Ok (token sha256 DOMAIN_LOGICAL_PATH [hd_base_token h; hd_generation_token h; name]).

Definition allocate_file_identity : act World Z :=
  h ⇚ self;
  let identity := hd_next_file_identity h in
  next ⇚ of_option Arithmetic (checked_add_u64 identity 1);
  _ ⇚ update (set_next_file_identity next);
  pure identity.

Definition ensure_entry (name : str) : act World str :=
  h ⇚ self;
  token ⇚ of_result (logical_token h name);
  match hd_entries h !! token with
  | Some _ => pure token
  | None =>
      metadata ⇚ on_disk (metadata io data token);
      found ⇚ match metadata with
              | Some m =>
                  if bool_decide (md_kind m = File) && (md_nlink m =? 1)
                     && (md_len m <=? max_file_bytes limits)
                  then _ ⇚ on_disk (open_private io data token false); pure (true, md_len m)
                  else raise (Corrupt (lit "logical-file"))
              | None => pure (false, 0)
              end;
      let '(exists_, size) := found in
      identity ⇚ (if exists_ then allocate_file_identity else pure 0);
      h ⇚ self;
      _ ⇚ update (set_entries (<[token := mkFileEntry None (negb exists_) exists_ size identity]>
                                 (hd_entries h)));
      pure token
  end.

Definition load_token (token : str) : act World unit :=
  h ⇚ self;
  e ⇚ of_option (Corrupt (lit "logical-entry")) (hd_entries h !! token);
  if fe_loaded e then pure tt
  else
    loaded ⇚ of_option Arithmetic (checked_add_u64 (hd_native_loaded_bytes h) (fe_size e));
    if max_read_bytes_per_invocation limits <? loaded
    then _ ⇚ note_quota_denial; raise QuotaExceeded
    else
      bytes ⇚ on_disk (read_bounded io data token (max_file_bytes limits));
      if negb (len bytes =? fe_size e) then raise (Corrupt (lit "logical-size-race"))
      else
        _ ⇚ update_entry token (loaded_with bytes);
        update (set_native_loaded_bytes loaded).

Definition ensure_loaded (name : str) : act World str :=
  token ⇚ ensure_entry name;
  _ ⇚ load_token token;
  pure token.

(** ** Reservations and mutations *)

Record Plan : Type := mkPlan { pl_files : gset str; pl_growth : Z; pl_entries : Z;
                               pl_changes : list PlannedChange }.

Fixpoint plan_changes (changes : list (str * option Z)) (plan : Plan) : act World Plan :=
  match changes with
  | [] => pure plan
  | (token, length) :: changes =>
      metadata ⇚ on_disk (metadata io data token);
      let before := md_len <$> metadata in
      plan ⇚
        match length with
        | Some length =>
            if max_file_bytes limits <? length then raise QuotaExceeded
            else
              growth ⇚ of_option Arithmetic
                (checked_add_u64 (pl_growth plan) (sat_sub_u64 length (unwrap_or before 0)));
              match before with
              | None =>
                  growth ⇚ of_option Arithmetic (checked_add_u64 growth ENTRY_CHARGE);
                  pure (mkPlan ({[token]} ∪ pl_files plan) growth (pl_entries plan + 1)
                          (pl_changes plan ++ [mkPlannedChange token before (Some length)]))
              | Some _ =>
                  pure (mkPlan ({[token]} ∪ pl_files plan) growth (pl_entries plan)
                          (pl_changes plan ++ [mkPlannedChange token before (Some length)]))
              end
        | None =>
            pure (mkPlan (pl_files plan ∖ {[token]}) (pl_growth plan) (pl_entries plan)
                    (pl_changes plan ++ [mkPlannedChange token before None]))
        end;
      plan_changes changes plan
  end.

Definition reserve_candidate (changes : list (str * option Z)) : act World (list PlannedChange) :=
  h ⇚ self;
  plan ⇚ plan_changes changes (mkPlan (hd_baseline_files h) 0 0 []);
  if max_files_per_namespace limits <? Z.of_nat (size (pl_files plan)) then raise QuotaExceeded
  else
    r ⇚ of_option Io (hd_reservation h);
    result ⇚ attempt (on_ledger (reserve_to limits r (pl_growth plan) (pl_entries plan)));
    _ ⇚ match result with
        | Ok r => update (set_reservation (Some r))
        | Err QuotaExceeded => note_quota_denial
        | Err _ => pure tt
        end;
    _ ⇚ of_result result;
    pure (pl_changes plan).

(** One step of the loop of [account_final_sizes]. *)
Definition account_change (usage : Usage) (before after : option Z) : option Usage :=
  match before, after with
  | None, None => Some usage
  | None, Some length =>
      e ← checked_add_u64 (entries usage) 1;
      f ← checked_add_u64 (files usage) 1;
      b ← checked_add3 (bytes usage) ENTRY_CHARGE length;
      Some (mkUsage b e f)
  | Some length, None =>
      e ← checked_sub_u64 (entries usage) 1;
      f ← checked_sub_u64 (files usage) 1;
      b ← checked_sub_u64 (bytes usage) ENTRY_CHARGE;
      b ← checked_sub_u64 b length;
      Some (mkUsage b e f)
  | Some previous, Some length =>
      b ← checked_sub_u64 (bytes usage) previous;
      b ← checked_add_u64 b length;
      Some (mkUsage b (entries usage) (files usage))
  end.

Fixpoint account_changes (usage : Usage) (changes : list PlannedChange) (final : list (option Z))
    : option Usage :=
  match changes, final with
  | c :: changes, after :: final =>
      usage ← account_change usage (pc_before c) after;
      account_changes usage changes final
  | _, _ => Some usage
  end.

Fixpoint baseline_after (baseline : gset str) (changes : list PlannedChange) (final : list (option Z))
    : gset str :=
  match changes, final with
  | c :: changes, after :: final =>
      baseline_after (match after with
                      | Some _ => {[pc_token c]} ∪ baseline
                      | None => baseline ∖ {[pc_token c]}
                      end) changes final
  | _, _ => baseline
  end.

Definition account_final_sizes (planned : list PlannedChange) (final_sizes : list (option Z))
    : act World unit :=
  h ⇚ self;
  usage ⇚ of_option Arithmetic (account_changes (hd_usage h) planned final_sizes);
  _ ⇚ update (set_usage usage);
  _ ⇚ update (set_baseline_files (baseline_after (hd_baseline_files h) planned final_sizes));
  r ⇚ of_option Io (hd_reservation h);
  r ⇚ on_ledger (observe_direct r usage);
  update (set_reservation (Some r)).

Definition account_planned (planned : list PlannedChange) : act World unit :=
  account_final_sizes planned (pc_after <$> planned).

Fixpoint observed_sizes (planned : list PlannedChange) : act World (list (option Z)) :=
  match planned with
  | [] => pure []
  | c :: planned =>
      metadata ⇚ on_disk (metadata io data (pc_token c));
      sizes ⇚ observed_sizes planned;
      pure ((md_len <$> metadata) :: sizes)
  end.

Definition account_observed (planned : list PlannedChange) : act World unit :=
  final_sizes ⇚ observed_sizes planned;
  account_final_sizes planned final_sizes.

Definition after_mutation (result : result StorageHostError unit) (planned : list PlannedChange)
    : act World unit :=
  accounting ⇚ attempt (if is_ok result then account_planned planned else account_observed planned);
  h ⇚ self;
  _ ⇚ match accounting, hd_reservation h with
      | Err _, Some r =>
          _ ⇚ update (set_reservation None);
          ledger_do (retain_after_unknown r)
      | _, _ => pure tt
      end;
  let result := let? _ := result in accounting in
  _ ⇚ (if is_ok result then pure tt else update (set_failed true));
  of_result result.

Definition write_direct (token : str) (bytes : option (list Z)) (planned : list PlannedChange)
    : act World unit :=
  result ⇚ attempt
    (on_disk
       (match bytes with
        | Some bytes =>
            _ ⇚ open_private io data token true;
            _ ⇚ write_all_at io (data ++ [token]) bytes 0;
            set_len io (data ++ [token]) (length bytes)
        | None => remove_file io data token
        end));
  after_mutation result planned.

Definition write_range (token : str) (offset : Z) (bytes : list Z) (planned : list PlannedChange)
    : act World unit :=
  result ⇚ attempt
    (on_disk
       (_ ⇚ open_private io data token false;
        write_all_at io (data ++ [token]) bytes (Z.to_nat offset)));
  after_mutation result planned.

Definition truncate_direct (token : str) (size : Z) (planned : list PlannedChange) : act World unit :=
  result ⇚ attempt
    (on_disk
       (_ ⇚ open_private io data token false; set_len io (data ++ [token]) (Z.to_nat size)));
  after_mutation result planned.

(** ** The end of a transaction *)

Fixpoint release_handles (count : nat) : act World unit :=
  match count with
  | O => pure tt
  | S count => _ ⇚ ledger_do release_handle; release_handles count
  end.

Definition close_all_handles : act World unit :=
  h ⇚ self;
  let count := size (hd_handles h) in
  _ ⇚ update (set_handles ∅);
  release_handles count.

Definition make_evidence (h : StorageHandle) : StorageEvidence :=
  let ev := hd_evidence h in
  mkStorageEvidence (ev_operations ev) (ev_syncs ev) (ev_quota_denials ev) (ev_read_bytes ev)
    (ev_write_bytes ev)
    (commitment sha256 DOMAIN_OPERATION_EVIDENCE
       [hd_scope_commitment h; to_be_bytes (ev_operations ev); to_be_bytes (ev_syncs ev);
        to_be_bytes (ev_quota_denials ev)]).

(** [if let Some(reservation) = self.reservation.take() { reservation.abort(); }] *)
Definition give_back : act World unit :=
  h ⇚ self;
  match hd_reservation h with
  | Some r => _ ⇚ update (set_reservation None); ledger_do (Reservation_abort r)
  | None => pure tt
  end.

Definition drop_handle : act World unit :=
  h ⇚ self;
  if hd_finalized h then pure tt
  else
    _ ⇚ close_all_handles;
    _ ⇚ give_back;
    update (set_finalized true).

(** The methods that take the handle by value drop it at their end. *)
Definition abort : act World StorageEvidence :=
  _ ⇚ close_all_handles;
  _ ⇚ give_back;
  _ ⇚ update (set_finalized true);
  h ⇚ self;
  _ ⇚ drop_handle;
  pure (make_evidence h).

Definition finish_read : act World StorageEvidence :=
  h ⇚ self;
  if hd_failed h then _ ⇚ drop_handle; raise Io
  else if negb (bool_decide (hd_handles h = ∅)) then _ ⇚ drop_handle; raise Busy
  else abort.

Definition commit : act World StorageEvidence := finish_read.

Definition commit_before (now deadline : Z) : act World StorageEvidence :=
  if deadline <=? now then _ ⇚ drop_handle; raise Timeout else finish_read.

(** ** Files of the [durable-files] interface *)

Record OpenOptions : Type := mkOpenOptions {
  oo_read : bool;
  oo_write : bool;
  oo_create : bool;
  oo_create_new : bool;
  oo_delete_on_close : bool
}.

Record FileStat : Type := mkFileStat { st_size : Z; st_identity : Z }.

Definition require_vfs : act World unit :=
  h ⇚ self;
  match hd_interface h with DurableFiles => pure tt | Jsonl => raise PermissionDenied end.

Definition read_write (h : StorageHandle) : bool :=
  match hd_access h with ReadWrite => true | ReadOnly => false end.

(** [self.handles.values().any(|handle| handle.token == token)] *)
Definition in_use (h : StorageHandle) (token : str) : bool :=
  existsb (fun hs => str_eqb (hs_token hs) token) (map_to_list (hd_handles h)).*2.

Definition vfs_open (name : str) (options : OpenOptions) : act World Z :=
  _ ⇚ require_vfs;
  _ ⇚ note_call;
  if (negb (oo_read options) && negb (oo_write options))
     || (oo_create options && oo_create_new options)
     || ((oo_create options || oo_create_new options || oo_delete_on_close options)
         && negb (oo_write options))
  then raise InvalidArgument
  else
    h ⇚ self;
    if (oo_write options || oo_create options || oo_create_new options || oo_delete_on_close options)
       && negb (read_write h)
    then raise PermissionDenied
    else if max_handles_per_invocation limits <=? Z.of_nat (size (hd_handles h))
    then raise QuotaExceeded
    else
      token ⇚ ensure_entry name;
      e ⇚ entry token;
      if oo_create_new options && fe_exists e then raise AlreadyExists
      else if negb (fe_exists e) && negb (oo_create options) && negb (oo_create_new options)
      then raise NotFound
      else
        h ⇚ self;
        let handle := hd_next_handle h in
        next_handle ⇚ of_option Arithmetic (checked_add_u64 handle 1);
        _ ⇚ on_ledger (acquire_handle limits);
        opened ⇚ attempt
          (_ ⇚ (if fe_exists e then pure tt
                else
                  _ ⇚ charge_write 0;
                  identity ⇚ allocate_file_identity;
                  planned ⇚ reserve_candidate [(token, Some 0)];
                  _ ⇚ write_direct token (Some []) planned;
                  update_entry token (fun e => identified identity (present 0 e)));
           h ⇚ self;
           _ ⇚ update (set_handles (<[handle := mkHandleState token (oo_read options)
                                                   (oo_write options) (oo_delete_on_close options)]>
                                      (hd_handles h)));
           _ ⇚ update (set_next_handle next_handle);
           pure handle);
        _ ⇚ (if is_ok opened then pure tt else ledger_do release_handle);
        of_result opened.

Definition vfs_close (handle : Z) : act World unit :=
  _ ⇚ require_vfs;
  call ⇚ attempt note_call;
  h ⇚ self;
  let state := hd_handles h !! handle in
  _ ⇚ update (set_handles (delete handle (hd_handles h)));
  _ ⇚ match state with Some _ => ledger_do release_handle | None => pure tt end;
  _ ⇚ of_result call;
  state ⇚ of_option InvalidArgument state;
  _ ⇚ (if hs_delete_on_close state
       then
         h ⇚ self;
         if negb (read_write h) then raise PermissionDenied
         else update (set_pending_delete ({[hs_token state]} ∪ hd_pending_delete h))
       else pure tt);
  h ⇚ self;
  if bool_decide (hs_token state ∈ hd_pending_delete h) && negb (in_use h (hs_token state))
  then
    planned ⇚ reserve_candidate [(hs_token state, None)];
    _ ⇚ write_direct (hs_token state) None planned;
    h ⇚ self;
    e ⇚ of_option (Corrupt (lit "handle-entry")) (hd_entries h !! hs_token state);
    _ ⇚ update (set_entries (<[hs_token state := absent e]> (hd_entries h)));
    h ⇚ self;
    update (set_pending_delete (hd_pending_delete h ∖ {[hs_token state]}))
  else pure tt.

Definition vfs_stat (name : str) : act World (option FileStat) :=
  _ ⇚ require_vfs;
  _ ⇚ note_call;
  token ⇚ ensure_entry name;
  e ⇚ entry token;
  pure ((fun size => mkFileStat size (fe_identity e)) <$> FileEntry_size e).

Definition vfs_read_at (handle offset maximum : Z) : act World (list Z) :=
  _ ⇚ require_vfs;
  _ ⇚ note_call;
  _ ⇚ charge_read maximum;
  h ⇚ self;
  state ⇚ of_option InvalidArgument (hd_handles h !! handle);
  if negb (hs_read state) then raise PermissionDenied
  else
    e ⇚ of_option NotFound (hd_entries h !! hs_token state);
    size ⇚ of_option NotFound (FileEntry_size e);
    if size <=? offset then pure []
    else on_disk (read_at io data (hs_token state) offset (Z.min maximum (size - offset))).

Definition vfs_write_at (handle offset : Z) (bytes : list Z) : act World unit :=
  _ ⇚ require_vfs;
  _ ⇚ note_call;
  h ⇚ self;
  state ⇚ of_option InvalidArgument (hd_handles h !! handle);
  if negb (hs_write state) then raise PermissionDenied
  else
    current_length ⇚ of_option NotFound (hd_entries h !! hs_token state ≫= FileEntry_size);
    end_ ⇚ of_option Arithmetic (checked_add_u64 offset (len bytes));
    let logical_write := Z.max (sat_sub_u64 end_ current_length) (len bytes) in
    _ ⇚ charge_write logical_write;
    let resulting_length := Z.max current_length end_ in
    planned ⇚ reserve_candidate [(hs_token state, Some resulting_length)];
    _ ⇚ (if is_nil bytes && (current_length <? end_)
         then truncate_direct (hs_token state) end_ planned
         else write_range (hs_token state) offset bytes planned);
    update_entry (hs_token state) (present resulting_length).

Definition vfs_size (handle : Z) : act World Z :=
  _ ⇚ require_vfs;
  _ ⇚ note_call;
  h ⇚ self;
  state ⇚ of_option InvalidArgument (hd_handles h !! handle);
  of_option NotFound (hd_entries h !! hs_token state ≫= FileEntry_size).

Definition vfs_truncate (handle size : Z) : act World unit :=
  _ ⇚ require_vfs;
  _ ⇚ note_call;
  h ⇚ self;
  state ⇚ of_option InvalidArgument (hd_handles h !! handle);
  if negb (hs_write state) then raise PermissionDenied
  else
    current_length ⇚ of_option NotFound (hd_entries h !! hs_token state ≫= FileEntry_size);
    _ ⇚ charge_write (sat_sub_u64 size current_length);
    planned ⇚ reserve_candidate [(hs_token state, Some size)];
    _ ⇚ truncate_direct (hs_token state) size planned;
    update_entry (hs_token state) (present size).

Definition vfs_sync (handle : Z) : act World unit :=
  _ ⇚ require_vfs;
  _ ⇚ note_call;
  h ⇚ self;
  state ⇚ of_option InvalidArgument (hd_handles h !! handle);
  _ ⇚ on_disk (open_private io data (hs_token state) false);
  _ ⇚ on_disk (works io);
  _ ⇚ on_disk (sync io);
  h ⇚ self;
  let ev := hd_evidence h in
  syncs ⇚ of_option Arithmetic (checked_add_u64 (ev_syncs ev) 1);
  update (set_evidence (mkEvidence (ev_operations ev) syncs (ev_quota_denials ev)
                          (ev_read_bytes ev) (ev_write_bytes ev))).

Definition vfs_remove (name : str) : act World unit :=
  _ ⇚ require_vfs;
  _ ⇚ note_call;
  _ ⇚ charge_write 0;
  token ⇚ ensure_entry name;
  h ⇚ self;
  if in_use h token then raise Busy
  else
    e ⇚ entry token;
    if negb (fe_exists e) then raise NotFound
    else
      planned ⇚ reserve_candidate [(token, None)];
      _ ⇚ write_direct token None planned;
      update_entry token absent.

Definition vfs_rename_atomic (from to : str) (replace : bool) : act World unit :=
  _ ⇚ require_vfs;
  _ ⇚ note_call;
  _ ⇚ charge_write 0;
  from_token ⇚ ensure_entry from;
  to_token ⇚ ensure_entry to;
  if str_eqb from_token to_token then pure tt
  else
    h ⇚ self;
    if in_use h from_token || in_use h to_token then raise Busy
    else
      source ⇚ entry from_token;
      target ⇚ entry to_token;
      length ⇚ of_option NotFound (FileEntry_size source);
      if negb replace && fe_exists target then raise AlreadyExists
      else
        let identity := fe_identity source in
        planned ⇚ reserve_candidate [(from_token, None); (to_token, Some length)];
        renamed ⇚ attempt (on_disk (rename_to io data from_token to_token));
        _ ⇚ after_mutation renamed planned;
        _ ⇚ update_entry from_token absent;
        update_entry to_token (fun e => identified identity (present length e)).

(** [getrandom::fill] on a buffer of the given length. *)
Definition vfs_random_bytes (fill : Z → option (list Z)) (length : Z) : act World (list Z) :=
  _ ⇚ require_vfs;
  _ ⇚ note_call;
  _ ⇚ charge_entropy length;
  of_option Entropy (fill length).

(** Nanoseconds since the first use of the clock, as a [u128]. *)
Definition vfs_monotonic_time_ns (elapsed : Z) : act World Z :=
  _ ⇚ require_vfs;
  _ ⇚ note_call;
  of_option Arithmetic (try_u64 elapsed).

(** The time since the epoch as a [Duration], if the clock is not before it. *)
Definition vfs_wall_time_ms (now : option Z) : act World Z :=
  _ ⇚ require_vfs;
  _ ⇚ note_call;
  now ⇚ of_option Clock now;
  of_option Arithmetic (try_u64 (dur_as_millis now)).

(** ** Records of the [jsonl] interface *)

Record JsonlChunk : Type := mkChunk { jc_bytes : list Z; jc_next_offset : Z; jc_eof : bool }.

Definition LF : Z := 10.
Definition CR : Z := 13.

Definition require_jsonl : act World unit :=
  h ⇚ self;
  match hd_interface h with Jsonl => pure tt | DurableFiles => raise PermissionDenied end.

(** [contents.ends_with(b"\n")], the lines before it. *)
Definition valid_jsonl (contents : list Z) : bool :=
  if is_nil contents then true
  else
    match strip_suffix contents [LF] with
    | None => false
    | Some lines => forallb (fun line => negb (is_nil line) && is_json line) (split LF lines)
    end.

Definition jsonl_size (name : str) : act World Z :=
  _ ⇚ require_jsonl;
  _ ⇚ note_call;
  token ⇚ ensure_entry name;
  e ⇚ entry token;
  of_option NotFound (FileEntry_size e).

Definition jsonl_read_chunk (name : str) (offset max_bytes : Z) : act World JsonlChunk :=
  _ ⇚ require_jsonl;
  _ ⇚ note_call;
  if max_bytes =? 0 then raise InvalidArgument
  else
    _ ⇚ charge_read max_bytes;
    token ⇚ ensure_entry name;
    e ⇚ entry token;
    size ⇚ of_option NotFound (FileEntry_size e);
    if size <? offset then raise InvalidArgument
    else
      bytes ⇚ on_disk (read_at io data token offset (Z.min max_bytes (size - offset)));
      next_offset ⇚ of_option Arithmetic (checked_add_u64 offset (len bytes));
      pure (mkChunk bytes next_offset (next_offset =? size)).

Definition jsonl_append (name : str) (expected_size : Z) (record : list Z) : act World Z :=
  _ ⇚ require_jsonl;
  _ ⇚ note_call;
  if mem LF record || mem CR record || negb (is_json record) then raise InvalidArgument
  else
    write ⇚ of_option Arithmetic (checked_add_u64 (len record) 1);
    _ ⇚ charge_write write;
    token ⇚ ensure_loaded name;
    e ⇚ entry token;
    let current := unwrap_or (fe_data e) [] in
    if negb (len current =? expected_size) then raise Busy
    else
      _ ⇚ update_entry token (set_data None);
      let replacement := current ++ record ++ [LF] in
      reserved ⇚ attempt (reserve_candidate [(token, Some (len replacement))]);
      match reserved with
      | Err error =>
          _ ⇚ update_entry token
                (set_data (match fe_data e with
                           | Some _ => Some (take (length current) replacement)
                           | None => None
                           end));
          raise error
      | Ok planned =>
          _ ⇚ write_direct token (Some replacement) planned;
          _ ⇚ update_entry token (mirrored replacement);
          pure (len replacement)
      end.

Definition jsonl_replace (name : str) (expected_size : Z) (contents : list Z) : act World unit :=
  _ ⇚ require_jsonl;
  _ ⇚ note_call;
  if negb (valid_jsonl contents) then raise InvalidArgument
  else
    _ ⇚ charge_write (len contents);
    token ⇚ ensure_loaded name;
    e ⇚ entry token;
    if negb (len (unwrap_or (fe_data e) []) =? expected_size) then raise Busy
    else
      planned ⇚ reserve_candidate [(token, Some (len contents))];
      _ ⇚ write_direct token (Some contents) planned;
      update_entry token (mirrored contents).

End Transaction.
