(* ===== verification/StorageEffects.v ===== *)
(** * What mutations leave on the disk

    The usage of the files of a generation and how it moves when files of the
    data directory change; what each mutation of a transaction leaves when all
    its calls work, and what it may leave when one fails. *)

From Stdlib Require Import ZArith Lia Ascii String.
From stdpp Require Import base gmap strings list sorting numbers.
From S2P Require Import Prelude.
From S2P Require Import RustStr.
From S2P Require Import Capability.
From S2P Require Import StorageConfig.
From S2P Require Import Quota.
From S2P Require Import Keys.
From S2P Require Import StorageDir.
From S2P Require Import StorageScan.
From S2P Require Import StorageHandle.

(** ** Files of the data directory *)

Definition plain (b : list Z) : Node := mkNode File 1 true b.

Definition file_at (fs : gmap path Node) (t : str) : option Node := fs !! (data ++ [t]).
Arguments file_at : simpl never.
Arguments data : simpl never.
Definition size_at (fs : gmap path Node) (t : str) : option Z := (len ∘ nd_bytes) <$> file_at fs t.

Lemma data_path_inj (t t' : str) : data ++ [t] = data ++ [t'] ↔ t = t'.
Proof. split; [|by intros ->]. unfold data. cbn. congruence. Qed.

(** The usage of all that is below the directory of the generation, and the
    entry of the directory itself. *)
Definition total (fs : gmap path Node) : Usage :=
  usage_add (usage_of (nodes fs)) (mkUsage ENTRY_CHARGE 1 0).

Definition charge_of (size : option Z) : Usage :=
  match size with Some l => mkUsage (ENTRY_CHARGE + l) 1 1 | None => mkUsage 0 0 0 end.

Lemma zsum_nodes_alter (f : Node → Z) (fs : gmap path Node) (q : path) (o : option Node) :
  zsum f (nodes (partial_alter (fun _ => o) q fs))
  = zsum f (nodes fs) - from_option f 0 (fs !! q) + from_option f 0 o.
Proof.
  assert (zsum f (nodes fs) = zsum f (nodes (delete q fs)) + from_option f 0 (fs !! q)) as ->.
  { destruct (fs !! q) as [n|] eqn:E.
    - rewrite <- (insert_delete_id fs q n E) at 1. unfold nodes.
      rewrite map_to_list_insert by apply lookup_delete_eq. cbn [fmap list_fmap from_option].
      change (zsum f (n :: (map_to_list (delete q fs)).*2) = zsum f (map_to_list (delete q fs)).*2 + f n).
      rewrite zsum_cons. lia.
    - rewrite delete_id by done. cbn. lia. }
  destruct o as [n|]; cbn [from_option].
  - replace (partial_alter (fun _ => Some n) q fs) with (<[q := n]> (delete q fs)).
    + unfold nodes. rewrite map_to_list_insert by apply lookup_delete_eq.
      change (zsum f (n :: (map_to_list (delete q fs)).*2)
        = zsum f (map_to_list (delete q fs)).*2 + from_option f 0 (fs !! q) - from_option f 0 (fs !! q) + f n).
      rewrite zsum_cons. lia.
    + by rewrite insert_delete_eq.
  - change (partial_alter (fun _ => None) q fs) with (delete q fs). lia.
Qed.

Definition usage_sub (u v : Usage) : Usage :=
  mkUsage (bytes u - bytes v) (entries u - entries v) (files u - files v).

Definition file_or_none (o : option Node) : Prop := match o with Some n => nd_kind n = File | None => True end.

Lemma usage_nodes_alter (fs : gmap path Node) (q : path) (o : option Node) :
  file_or_none o → file_or_none (fs !! q) →
  usage_of (nodes (partial_alter (fun _ => o) q fs))
  = usage_add (usage_sub (usage_of (nodes fs)) (charge_of ((len ∘ nd_bytes) <$> fs !! q)))
      (charge_of ((len ∘ nd_bytes) <$> o)).
Proof.
  intros Ho Hq.
  assert (∀ l : list Node, Z.of_nat (length l) = zsum (fun _ => 1) l) as Hlen.
  { induction l as [|n l IH]; [done|]. rewrite zsum_cons. cbn [length]. lia. }
  unfold usage_of. rewrite !Hlen, !zsum_nodes_alter. unfold usage_add, usage_sub. cbn [bytes entries files].
  destruct o as [n|], (fs !! q) as [n0|]; cbn in *;
    repeat match goal with H : nd_kind ?n = File |- _ => destruct (file_charges n H) as [-> ->]; clear H end;
    f_equal; lia.
Qed.

(** Only the files [ts] of the data directory differ. *)
Definition same_but (ts : list str) (fs fs' : gmap path Node) : Prop :=
  ∀ q, (∀ t, t ∈ ts → q ≠ data ++ [t]) → fs' !! q = fs !! q.

Fixpoint moved_usage (fs fs' : gmap path Node) (ts : list str) (u : Usage) : Usage :=
  match ts with
  | [] => u
  | t :: ts =>
      moved_usage fs fs' ts
        (usage_add (usage_sub u (charge_of (size_at fs t))) (charge_of (size_at fs' t)))
  end.

Lemma moved_usage_shift (fs fs' : gmap path Node) (ts : list str) (u v : Usage) :
  moved_usage fs fs' ts (usage_add u v) = usage_add (moved_usage fs fs' ts u) v.
Proof.
  revert u. induction ts as [|t ts IH]; intros u; cbn [moved_usage]; [done|]. rewrite <- IH. f_equal.
  unfold usage_add, usage_sub. cbn [bytes entries files]. f_equal; lia.
Qed.

Lemma moved_usage_ext (fs1 fs2 fs' : gmap path Node) (ts : list str) (u : Usage) :
  (∀ t, t ∈ ts → file_at fs1 t = file_at fs2 t) → moved_usage fs1 fs' ts u = moved_usage fs2 fs' ts u.
Proof.
  revert u. induction ts as [|t ts IH]; intros u Ht; cbn [moved_usage]; [done|].
  unfold size_at at 1 3. rewrite (Ht t) by (by left). apply IH. intros t' Ht'. apply Ht. by right.
Qed.

Lemma usage_moved (fs fs' : gmap path Node) (ts : list str) :
  NoDup ts → same_but ts fs fs' →
  (∀ t, t ∈ ts → file_or_none (file_at fs t) ∧ file_or_none (file_at fs' t)) →
  usage_of (nodes fs') = moved_usage fs fs' ts (usage_of (nodes fs)).
Proof.
  intros Hnd. revert fs. induction Hnd as [|t ts Hnin Hnd IH]; intros fs Hsame Hfile; cbn [moved_usage].
  - assert (fs' = fs) as ->; [|done]. apply map_eq. intros q. apply Hsame. intros t Ht.
    by apply not_elem_of_nil in Ht.
  - set (fs1 := partial_alter (fun _ => file_at fs' t) (data ++ [t]) fs).
    rewrite (IH fs1).
    + unfold fs1. rewrite usage_nodes_alter by (apply (Hfile t); by left).
      apply moved_usage_ext. intros t' Ht'. unfold file_at. apply lookup_partial_alter_ne.
      rewrite data_path_inj. by intros ->.
    + intros q Hq. unfold fs1. destruct (decide (q = data ++ [t])) as [->|Hne].
      * by rewrite lookup_partial_alter_eq.
      * rewrite lookup_partial_alter_ne by done. apply Hsame. intros t' [->|Ht']%elem_of_cons; [done|].
        by apply Hq.
    + intros t' Ht'. destruct (Hfile t') as [Hf Hf']; [by right|]. split; [|done]. unfold fs1, file_at.
      rewrite lookup_partial_alter_ne; [done|]. rewrite data_path_inj. by intros ->.
Qed.

(** ** Accounting *)

Lemma checked_sub_u64_Some (a b c : Z) : checked_sub_u64 a b = Some c → c = a - b.
Proof. unfold checked_sub_u64. by destruct (_ <=? _); intros [= <-]. Qed.

Lemma account_change_Some (u u' : Usage) (before after : option Z) :
  account_change u before after = Some u' →
  u' = usage_add (usage_sub u (charge_of before)) (charge_of after).
Proof.
  unfold account_change, checked_add3, usage_add, usage_sub. intros H.
  destruct before, after; cbn [charge_of bytes entries files];
    repeat match goal with
      | H : (_ ≫= _) = Some _ |- _ => apply bind_Some in H as (? & ? & H)
      | H : checked_add_u64 _ _ = Some _ |- _ => apply checked_add_u64_Some in H as [-> _]
      | H : checked_sub_u64 _ _ = Some _ |- _ => apply checked_sub_u64_Some in H as ->
      | H : match checked_add_u64 ?a ?b with _ => _ end = Some _ |- _ =>
          let E := fresh in destruct (checked_add_u64 a b) eqn:E; [|done]
      end; simplify_eq/=; try (f_equal; lia).
  destruct u'; cbn. f_equal; lia.
Qed.

Section Planned.
Context (fs fs' : gmap path Node).

Lemma account_changes_Some (planned : list PlannedChange) (u u' : Usage) :
  Forall (fun c => pc_before c = size_at fs (pc_token c)) planned →
  account_changes u planned (size_at fs' ∘ pc_token <$> planned) = Some u' →
  u' = moved_usage fs fs' (pc_token <$> planned) u.
Proof.
  intros Hp. revert u. induction Hp as [|c planned Hc Hp IH]; intros u; cbn.
  - by intros [= <-].
  - intros (u1 & H1 & H2)%bind_Some. apply account_change_Some in H1 as ->. rewrite Hc in H2.
    by apply IH.
Qed.

Lemma baseline_after_elem (planned : list PlannedChange) (B : gset str) (t : str) :
  (∀ t, t ∉ pc_token <$> planned → t ∈ B ↔ is_Some (file_at fs' t)) →
  t ∈ baseline_after B planned (size_at fs' ∘ pc_token <$> planned) ↔ is_Some (file_at fs' t).
Proof.
  revert B. induction planned as [|c planned IH]; intros B HB; cbn [fmap list_fmap baseline_after].
  - apply HB, not_elem_of_nil.
  - apply IH. intros t' Ht'. unfold size_at, compose. destruct (decide (t' = pc_token c)) as [->|Hne].
    + destruct (file_at fs' (pc_token c)) as [n|]; cbn [fmap option_fmap option_map].
      * rewrite elem_of_union, elem_of_singleton. split; [done|]. intros _. by left.
      * rewrite elem_of_difference, elem_of_singleton. split; [by intros [_ []]|by intros []].
    + rewrite <- (HB t') by (by rewrite fmap_cons, not_elem_of_cons).
      destruct (file_at fs' (pc_token c)); cbn [fmap option_fmap option_map].
      * rewrite elem_of_union, elem_of_singleton. tauto.
      * rewrite elem_of_difference, elem_of_singleton. tauto.
Qed.

End Planned.

(** What a change may add: what is reserved for it. *)
Definition growth_of (c : PlannedChange) : Z :=
  match pc_after c with
  | Some l => sat_sub_u64 l (unwrap_or (pc_before c) 0)
              + (match pc_before c with Some _ => 0 | None => ENTRY_CHARGE end)
  | None => 0
  end.
Definition growth_entries_of (c : PlannedChange) : Z :=
  match pc_after c, pc_before c with Some _, None => 1 | _, _ => 0 end.

(** A change leaves no more than was planned for it. *)
Definition within_plan (fs' : gmap path Node) (c : PlannedChange) : Prop :=
  let left := charge_of (size_at fs' (pc_token c)) in
  bytes left ≤ bytes (charge_of (pc_before c)) + growth_of c
  ∧ entries left ≤ entries (charge_of (pc_before c)) + growth_entries_of c.

Lemma moved_within (fs fs' : gmap path Node) (planned : list PlannedChange) (u : Usage) :
  Forall (fun c => pc_before c = size_at fs (pc_token c)) planned → Forall (within_plan fs') planned →
  let v := moved_usage fs fs' (pc_token <$> planned) u in
  bytes v ≤ bytes u + zsum growth_of planned ∧ entries v ≤ entries u + zsum growth_entries_of planned.
Proof.
  intros Hp Hw. revert u. induction Hp as [|c planned Hc Hp IH]; intros u; [cbn; lia|].
  apply List.Forall_cons_iff in Hw as [[Hb He] Hw]. cbn [fmap list_fmap moved_usage].
  specialize (IH Hw (usage_add (usage_sub u (charge_of (size_at fs (pc_token c))))
                       (charge_of (size_at fs' (pc_token c))))).
  rewrite <- Hc in *. cbv zeta in *. cbn [fmap list_fmap] in IH. rewrite !zsum_cons.
  unfold usage_add, usage_sub in *. cbn [bytes entries] in *. lia.
Qed.

(** ** What a mutation leaves on the disk *)

Lemma overwrite_length (offset : nat) (bytes old : list Z) :
  (length (overwrite offset bytes old) ≤ Nat.max (length old) (offset + length bytes))%nat.
Proof.
  unfold overwrite. destruct (is_nil bytes); [lia|].
  rewrite !length_app, length_take, length_drop, !length_app, length_replicate. lia.
Qed.

Lemma overwrite_take_length (offset n : nat) (bytes old : list Z) :
  (length (overwrite offset (take n bytes) old) ≤ Nat.max (length old) (offset + length bytes))%nat.
Proof. etransitivity; [apply overwrite_length|]. rewrite length_take. lia. Qed.

(** A whole write and the truncation after it leave what was written. *)
Lemma resize_overwrite (bytes old : list Z) :
  resize (length bytes) 0 (if is_nil bytes then old else overwrite 0 bytes old) = bytes.
Proof.
  unfold overwrite. destruct bytes as [|b bytes]; cbn [is_nil]; [by rewrite resize_0|].
  cbv zeta. by rewrite take_0, app_nil_l, resize_app_le, resize_all.
Qed.

(** The file [t] alone may have changed, to no more than its old length or
    [new]. *)
Definition torn (t : str) (new : Z) (fs fs' : gmap path Node) : Prop :=
  same_but [t] fs fs'
  ∧ (file_at fs' t = file_at fs t
     ∨ ∃ b, file_at fs' t = Some (plain b) ∧ len b ≤ Z.max (unwrap_or (size_at fs t) 0) new).

Lemma torn_refl (t : str) (new : Z) (fs : gmap path Node) : torn t new fs fs.
Proof. split; [by intros q _|by left]. Qed.

Lemma same_but_alter (t : str) (fs : gmap path Node) (f : option Node → option Node) :
  same_but [t] fs (partial_alter f (data ++ [t]) fs).
Proof. intros q Hq. apply lookup_partial_alter_ne. intros <-. by apply (Hq t); [left|]. Qed.

Lemma same_but_trans (ts : list str) (fs1 fs2 fs3 : gmap path Node) :
  same_but ts fs1 fs2 → same_but ts fs2 fs3 → same_but ts fs1 fs3.
Proof. intros H1 H2 q Hq. by rewrite H2, H1. Qed.

Lemma alter_bytes (fs : gmap path Node) (t : str) (b : list Z) (f : list Z → list Z) :
  file_at fs t = Some (plain b) →
  alter (set_bytes f) (data ++ [t]) fs = <[data ++ [t] := plain (f b)]> fs.
Proof.
  intros Hb. unfold file_at in Hb. apply map_eq. intros q.
  destruct (decide (q = data ++ [t])) as [->|Hne].
  - by rewrite lookup_alter_eq, lookup_insert_eq, Hb.
  - by rewrite lookup_alter_ne, lookup_insert_ne.
Qed.

Lemma file_at_insert (fs : gmap path Node) (t : str) (n : Node) :
  file_at (<[data ++ [t] := n]> fs) t = Some n.
Proof. apply lookup_insert_eq. Qed.

Lemma torn_insert (t : str) (new : Z) (fs : gmap path Node) (b : list Z) :
  len b ≤ Z.max (unwrap_or (size_at fs t) 0) new → torn t new fs (<[data ++ [t] := plain b]> fs).
Proof.
  intros Hb. split; [apply same_but_alter|]. right. exists b. split; [apply file_at_insert|done].
Qed.

Section Effects.
Context (io : nat → Ending) (t : str) (d : Disk).
(** The file is a private one, or there is none. *)
Context (Hplain : ∀ n, file_at (dk_files d) t = Some n → n = plain (nd_bytes n)).

Definition old_bytes : list Z := match file_at (dk_files d) t with Some n => nd_bytes n | None => [] end.

Lemma old_bytes_len : len old_bytes = unwrap_or (size_at (dk_files d) t) 0.
Proof using. clear Hplain. unfold old_bytes, size_at. by destruct (file_at (dk_files d) t). Qed.

Lemma created_plain :
  file_at (created data t (dk_files d)) t = Some (plain old_bytes)
  ∧ ∀ b, <[data ++ [t] := plain b]> (created data t (dk_files d)) = <[data ++ [t] := plain b]> (dk_files d).
Proof using Hplain.
  unfold created, old_bytes, file_at in *. destruct (dk_files d !! (data ++ [t])) as [n|] eqn:E.
  - split; [by rewrite E, <- Hplain|done].
  - split; [by rewrite lookup_insert_eq|]. intros b. apply insert_insert_eq.
Qed.

(** [write_direct] of bytes. *)
Lemma replace_effect (b : list Z) :
  wp (_ ⇚ open_private io data t true;
      _ ⇚ write_all_at io (data ++ [t]) b 0;
      set_len io (data ++ [t]) (length b))
    (outcome (fun _ fs => fs = <[data ++ [t] := plain b]> (dk_files d))
       (torn t (len b) (dk_files d))) d.
Proof using Hplain.
  destruct created_plain as [Hc Hins]. pose proof old_bytes_len as Hold. unfold len in Hold.
  assert (∀ b', len b' ≤ Z.max (len old_bytes) (len b) →
            torn t (len b) (dk_files d) (<[data ++ [t] := plain b']> (dk_files d))) as Htorn.
  { intros b' Hb'. apply torn_insert. by rewrite <- old_bytes_len. }
  assert (torn t (len b) (dk_files d) (created data t (dk_files d))) as Hcreated.
  { rewrite <- (insert_id _ _ _ Hc), Hins. apply Htorn. unfold len. lia. }
  eapply wp_step; [apply wp_open_create| |].
  2:{ intros [e| |] d1; [|done|done]. intros [E|E]; cbn [outcome] in E |- *; rewrite E; [apply torn_refl|done]. }
  intros [] d1 [E1 _]. eapply wp_step; [apply wp_write_all_at| |].
  2:{ intros [e| |] d2; [|done|done]. intros [n E2]; cbn [outcome] in E2 |- *. rewrite E2, E1, (alter_bytes _ _ _ _ Hc), Hins.
      apply Htorn. pose proof (overwrite_take_length 0 n b old_bytes). unfold len. lia. }
  intros [] d2 E2. cbn [outcome] in E2. rewrite E1 in E2.
  assert (dk_files d2 = <[data ++ [t] := plain (if is_nil b then old_bytes else overwrite 0 b old_bytes)]>
            (created data t (dk_files d))) as E2'.
  { rewrite E2. destruct (is_nil b); [by rewrite insert_id|by rewrite (alter_bytes _ _ _ _ Hc)]. }
  eapply wp_mono; [apply wp_set_len|]. intros [[]|[e| |]] d3; [| |done|done]; cbn [outcome]; intros E3.
  - rewrite E3, E2', (alter_bytes _ _ _ _ (file_at_insert _ _ _)), insert_insert_eq, resize_overwrite, Hins.
    done.
  - rewrite E3, E2', Hins. apply Htorn. unfold len. destruct (is_nil b); [lia|].
    pose proof (overwrite_length 0 b old_bytes). lia.
Qed.

(** [write_range]. *)
Lemma range_effect (b : list Z) (offset : nat) :
  wp (_ ⇚ open_private io data t false; write_all_at io (data ++ [t]) b offset)
    (outcome (fun _ fs => is_Some (file_at (dk_files d) t)
                          ∧ fs = <[data ++ [t] := plain (overwrite offset b old_bytes)]> (dk_files d))
       (torn t (Z.of_nat offset + len b) (dk_files d))) d.
Proof using Hplain.
  pose proof old_bytes_len as Hold.
  eapply wp_step; [apply wp_open_private| |].
  2:{ intros [e| |] d1 E; [|done|done]. cbn [outcome] in E |- *. rewrite E. apply torn_refl. }
  intros [] d1 [E1 (n & Hn & _)]. rewrite E1 in Hn. pose proof (Hplain n Hn) as En.
  assert (file_at (dk_files d) t = Some (plain old_bytes)) as Hp.
  { unfold old_bytes, file_at in *. rewrite Hn. by rewrite <- En. }
  eapply wp_mono; [apply wp_write_all_at|]. intros [[]|[e| |]] d2; [| |done|done]; cbn [outcome].
  - intros E2. split; [by rewrite Hp|]. rewrite E2, E1. destruct b as [|x b]; cbn [is_nil].
    + unfold overwrite. cbn [is_nil]. by rewrite insert_id.
    + by rewrite (alter_bytes _ _ _ _ Hp).
  - intros [k E2]. rewrite E2, E1, (alter_bytes _ _ _ _ Hp). apply torn_insert. rewrite <- Hold.
    pose proof (overwrite_take_length offset k b old_bytes). unfold len. lia.
Qed.

(** [truncate_direct]. *)
Lemma truncate_effect (size : nat) :
  wp (_ ⇚ open_private io data t false; set_len io (data ++ [t]) size)
    (outcome (fun _ fs => is_Some (file_at (dk_files d) t)
                          ∧ fs = <[data ++ [t] := plain (resize size 0 old_bytes)]> (dk_files d))
       (torn t (Z.of_nat size) (dk_files d))) d.
Proof using Hplain.
  eapply wp_step; [apply wp_open_private| |].
  2:{ intros [e| |] d1 E; [|done|done]. cbn [outcome] in E |- *. rewrite E. apply torn_refl. }
  intros [] d1 [E1 (n & Hn & _)]. rewrite E1 in Hn. pose proof (Hplain n Hn) as En.
  assert (file_at (dk_files d) t = Some (plain old_bytes)) as Hp.
  { unfold old_bytes, file_at in *. rewrite Hn. by rewrite <- En. }
  eapply wp_mono; [apply wp_set_len|]. intros [[]|[e| |]] d2; [| |done|done]; cbn [outcome]; intros E2; rewrite E2, E1.
  - split; [by rewrite Hp|]. by rewrite (alter_bytes _ _ _ _ Hp).
  - apply torn_refl.
Qed.

End Effects.
