(* ===== verification/StorageTransaction.v ===== *)
(** * Invariants of storage transactions

    What every operation of a [StorageHandle] keeps, whatever system call
    fails and whatever other invocations do to the quota ledger in between:
    while it holds its reservation, the usage it carries is the usage of the
    files, and the ledger has it; while it has not failed, its cache agrees
    with the files. *)

From Stdlib Require Import ZArith Lia Ascii String.
From stdpp Require Import base gmap strings list sorting numbers.
From S2P Require Import Prelude.
From S2P Require Import RustStr.
From S2P Require Import Capability.
From S2P Require Import StorageConfig.
From S2P Require Import Quota.
From S2P Require Import Keys.
From S2P Require Import StorageDir.
From S2P Require Import StorageScan.
From S2P Require Import StorageHandle.
From S2P Require Import StorageEffects.

(** ** The world *)

(** Projections of updated handles. *)
Ltac hd_cbn :=
  cbn [on_handle w_hd w_disk w_ledger w_turn hd_interface hd_access hd_base_token hd_generation_token
    hd_scope_commitment hd_entries hd_usage hd_baseline_files hd_handles hd_pending_delete
    hd_next_handle hd_next_file_identity hd_host_calls hd_read_bytes hd_native_loaded_bytes
    hd_write_bytes hd_entropy_bytes hd_evidence hd_reservation hd_finalized hd_failed set_entries
    set_usage set_baseline_files set_handles set_pending_delete set_next_handle
    set_next_file_identity set_host_calls set_read_bytes set_native_loaded_bytes set_write_bytes
    set_entropy_bytes set_evidence set_reservation set_finalized set_failed] in *.

Section Lift.
Context (others : nat → LedgerState → LedgerState).

Lemma wp_on_disk {A : Type} (m : act Disk A) (Q : result Exn A → World → Prop) (w : World) :
  wp m (fun r d => Q r (mkWorld (w_hd w) d (w_ledger w) (w_turn w))) (w_disk w) → wp (on_disk m) Q w.
Proof. unfold wp, on_disk. by destruct (m (w_disk w)). Qed.

Lemma wp_on_ledger {A : Type} (m : locked A) (Q : result Exn A → World → Prop) (w : World) :
  (∀ r s, m (others (w_turn w) (w_ledger w)) = (r, s) →
     Q (match r with Ok a => Ok a | Err e => Err (Throws e) end)
       (mkWorld (w_hd w) (w_disk w) s (S (w_turn w)))) →
  wp (on_ledger others m) Q w.
Proof. unfold wp, on_ledger. intros H. destruct (m _) as [r s]. by apply H. Qed.

End Lift.

(** ** What a transaction does to the ledger

    [client i r n s]: at turn [i] the ledger [s] counts the reservation [r] and [n] open
    handles of the transaction. The laws say which uses of the ledger keep it
    so; in particular a transaction reports only usage it has reserved. *)

Record client_laws (limits : StorageLimits) (others : nat → LedgerState → LedgerState) (ns : str)
    (client : nat → option Reservation → nat → LedgerState → Prop) : Prop := {
  cl_others : ∀ i r n s, client i r n s → client (S i) r n (others i s);
  cl_reserve : ∀ i r n s d de res s', client i (Some r) n s →
    reserve_to limits r d de s = (res, s') → client i (Some (updated r res)) n s';
  cl_observe : ∀ i r n s u res s', client i (Some r) n s → within_reservation s r u →
    observe_direct r u s = (res, s') → client i (Some (updated r res)) n s';
  cl_retain : ∀ i r n s, client i (Some r) n s → client i None n (retain_after_unknown r s);
  cl_abort : ∀ i r n s, client i (Some r) n s → client i None n (Reservation_abort r s);
  cl_acquire : ∀ i r n s res s', client i r n s → acquire_handle limits s = (res, s') →
    client i r (if is_ok res then S n else n) s';
  cl_release : ∀ i r n s, client i r (S n) s → client i r n (release_handle s)
}.

(** The other invocations leave the usage of this namespace alone: it holds
    the lease. *)
Definition leaves_alone (others : nat → LedgerState → LedgerState) (ns : str) : Prop :=
  ∀ i s, ns_get (namespace_used (others i s)) ns = ns_get (namespace_used s) ns
         ∧ ns_get (namespace_entries (others i s)) ns = ns_get (namespace_entries s) ns.

Section Invariant.
Context (limits : StorageLimits).
Context (io : nat → Ending) (listing : gmap path Node → path → list str).
Context (others : nat → LedgerState → LedgerState).
Context (sha256 : list Z → list Z) (is_json : list Z → bool).
Context (ns : str) (client : nat → option Reservation → nat → LedgerState → Prop).
Context (Hlaws : client_laws limits others ns client) (Halone : leaves_alone others ns).

Abbreviation files_of w := (dk_files (w_disk w)).

(** A cached entry says what is on the disk. *)
Definition entry_ok (fs : gmap path Node) (t : str) (e : FileEntry) : Prop :=
  match file_at fs t with
  | Some n => fe_exists e = true ∧ fe_size e = len (nd_bytes n)
              ∧ (if fe_loaded e then fe_data e = Some (nd_bytes n) else fe_data e = None)
  | None => fe_exists e = false ∧ fe_loaded e = true ∧ fe_data e = None
  end.

(** The files of the data directory are private and within the limit. *)
Definition files_ok (fs : gmap path Node) : Prop :=
  ∀ t n, file_at fs t = Some n → n = plain (nd_bytes n) ∧ len (nd_bytes n) ≤ max_file_bytes limits.

(** What the handle carries of the files, and the ledger of the handle. *)
Record accounts (w : World) (r : Reservation) : Prop := {
  ac_ns : rs_namespace r = ns;
  ac_usage : hd_usage (w_hd w) = total (files_of w);
  ac_baseline : ∀ t, t ∈ hd_baseline_files (w_hd w) ↔ is_Some (file_at (files_of w) t);
  ac_used : ns_get (namespace_used (w_ledger w)) ns = bytes (hd_usage (w_hd w));
  ac_entries : ns_get (namespace_entries (w_ledger w)) ns = entries (hd_usage (w_hd w))
}.

(** [X]: the files whose cached entry is about to be updated. *)
Record inv_but (X : gset str) (w : World) : Prop := {
  iv_client : client (w_turn w) (hd_reservation (w_hd w)) (size (hd_handles (w_hd w))) (w_ledger w);
  iv_res : match hd_reservation (w_hd w) with
           | Some r => accounts w r
           | None => hd_failed (w_hd w) = true ∨ hd_finalized (w_hd w) = true
           end;
  iv_live : hd_failed (w_hd w) = false →
            files_ok (files_of w)
            ∧ (∀ t e, hd_entries (w_hd w) !! t = Some e → t ∉ X → entry_ok (files_of w) t e)
            ∧ Z.of_nat (size (hd_baseline_files (w_hd w))) ≤ max_files_per_namespace limits;
  iv_handles : ∀ k hs, hd_handles (w_hd w) !! k = Some hs →
               k < hd_next_handle (w_hd w) ∧ is_Some (hd_entries (w_hd w) !! hs_token hs);
  iv_read : hd_read_bytes (w_hd w) ≤ max_read_bytes_per_invocation limits;
  iv_write : hd_write_bytes (w_hd w) ≤ max_write_bytes_per_invocation limits;
  iv_entropy : hd_entropy_bytes (w_hd w) ≤ max_entropy_bytes_per_invocation limits;
  iv_open : Z.of_nat (size (hd_handles (w_hd w))) ≤ max_handles_per_invocation limits
}.

(** The operations are proved with any set of such files. *)
Context (X : gset str).

Definition inv (w : World) : Prop := inv_but X w.

Definition returns {A : Type} (r : result Exn A) : Prop :=
  match r with Ok _ | Err (Throws _) => True | Err _ => False end.

(** What the steps before a mutation leave as it was. *)
Record near (w w' : World) : Prop := {
  nr_files : files_of w' = files_of w;
  nr_interface : hd_interface (w_hd w') = hd_interface (w_hd w);
  nr_access : hd_access (w_hd w') = hd_access (w_hd w);
  nr_base : hd_base_token (w_hd w') = hd_base_token (w_hd w);
  nr_generation : hd_generation_token (w_hd w') = hd_generation_token (w_hd w);
  nr_handles : hd_handles (w_hd w') = hd_handles (w_hd w);
  nr_pending : hd_pending_delete (w_hd w') = hd_pending_delete (w_hd w);
  nr_next : hd_next_handle (w_hd w') = hd_next_handle (w_hd w);
  nr_failed : hd_failed (w_hd w') = hd_failed (w_hd w);
  nr_finalized : hd_finalized (w_hd w') = hd_finalized (w_hd w);
  nr_entries : ∀ t, is_Some (hd_entries (w_hd w) !! t) → is_Some (hd_entries (w_hd w') !! t)
}.

#[global] Instance near_preorder : PreOrder near.
Proof.
  split.
  - intros w. by constructor.
  - intros w1 w2 w3 [] []. constructor; try congruence. auto.
Qed.

(** A step before a mutation: it keeps the invariant and leaves the rest. *)
Definition quiet (w : World) {A : Type} (P : A → World → Prop) (r : result Exn A) (w' : World) : Prop :=
  inv w' ∧ near w w' ∧ match r with Ok a => P a w' | Err (Throws _) => True | Err _ => False end.

(** Updates of counters and evidence. *)
Lemma inv_counters (w : World) (f : StorageHandle → StorageHandle) :
  inv w →
  (let h := w_hd w in let h' := f h in
   hd_reservation h' = hd_reservation h ∧ hd_handles h' = hd_handles h ∧ hd_failed h' = hd_failed h
   ∧ hd_finalized h' = hd_finalized h ∧ hd_usage h' = hd_usage h
   ∧ hd_baseline_files h' = hd_baseline_files h ∧ hd_entries h' = hd_entries h
   ∧ hd_next_handle h' = hd_next_handle h
   ∧ hd_read_bytes h' ≤ max_read_bytes_per_invocation limits
   ∧ hd_write_bytes h' ≤ max_write_bytes_per_invocation limits
   ∧ hd_entropy_bytes h' ≤ max_entropy_bytes_per_invocation limits) →
  inv (on_handle f w).
Proof using.
  intros [Hc Hr Hl Hh Hrd Hwr Hen Ho] (E1 & E2 & E3 & E4 & E5 & E6 & E7 & E8 & E9 & E10 & E11).
  constructor; hd_cbn; rewrite ?E1, ?E2, ?E3, ?E4, ?E6, ?E7, ?E8; try done.
  destruct (hd_reservation (w_hd w)) as [r|]; [|done]. destruct Hr. constructor; hd_cbn; rewrite ?E5, ?E6; done.
Qed.

Lemma near_on_handle (w : World) (f : StorageHandle → StorageHandle) :
  (let h := w_hd w in let h' := f h in
   hd_interface h' = hd_interface h ∧ hd_access h' = hd_access h ∧ hd_base_token h' = hd_base_token h
   ∧ hd_generation_token h' = hd_generation_token h ∧ hd_handles h' = hd_handles h
   ∧ hd_pending_delete h' = hd_pending_delete h ∧ hd_next_handle h' = hd_next_handle h
   ∧ hd_failed h' = hd_failed h ∧ hd_finalized h' = hd_finalized h ∧ hd_entries h' = hd_entries h) →
  near w (on_handle f w).
Proof using.
  intros (E1 & E2 & E3 & E4 & E5 & E6 & E7 & E8 & E9 & E10). constructor; hd_cbn; try done. by rewrite E10.
Qed.

(** A step is quiet after another. *)
Lemma quiet_bind {A B : Type} (m : act World A) (k : A → act World B) (P : A → World → Prop)
    (Q : B → World → Prop) (w : World) :
  wp m (quiet w P) w →
  (∀ a w', inv w' → near w w' → P a w' → wp (k a) (quiet w' Q) w') →
  wp (abind m k) (quiet w Q) w.
Proof using.
  intros Hm Hk. eapply wp_step; [exact Hm| |].
  - intros a w' (Hi & Hn & HP). eapply wp_mono; [by apply Hk|]. intros r w'' (Hi' & Hn' & HQ).
    split; [done|]. split; [by etransitivity|done].
  - intros e w' (Hi & Hn & H). by split.
Qed.

Lemma quiet_then {A B : Type} (m : act World A) (k : A → act World B) (P : A → World → Prop)
    (Q : result Exn B → World → Prop) (w : World) :
  wp m (quiet w P) w →
  (∀ a w', inv w' → near w w' → P a w' → wp (k a) Q w') →
  (∀ e w', inv w' → near w w' → Q (Err (Throws e)) w') →
  wp (abind m k) Q w.
Proof using.
  intros Hm Hk He. eapply wp_step; [exact Hm| |].
  - intros a w' (Hi & Hn & HP). by apply Hk.
  - intros [e| |] w' (Hi & Hn & H); [|done|done]. by apply He.
Qed.

Lemma quiet_pure {A : Type} (a : A) (P : A → World → Prop) (w : World) :
  inv w → P a w → wp (pure a) (quiet w P) w.
Proof using. intros Hi HP. by split. Qed.

Lemma quiet_raise {A : Type} (e : StorageHostError) (P : A → World → Prop) (w : World) :
  inv w → wp (raise e) (quiet w P) w.
Proof using. intros Hi. by split. Qed.

Lemma quiet_update (f : StorageHandle → StorageHandle) (w : World) :
  inv (on_handle f w) → near w (on_handle f w) → wp (update f) (quiet w (fun _ w' => w' = on_handle f w)) w.
Proof using. intros Hi Hn. by split. Qed.

Lemma quiet_update_as (f : StorageHandle → StorageHandle) (P : unit → World → Prop) (w : World) :
  inv (on_handle f w) → near w (on_handle f w) → P tt (on_handle f w) → wp (update f) (quiet w P) w.
Proof using. intros Hi Hn HP. by split. Qed.

Lemma quiet_weaken {A : Type} (m : act World A) (P Q : A → World → Prop) (w : World) :
  wp m (quiet w P) w → (∀ a w', P a w' → Q a w') → wp m (quiet w Q) w.
Proof using.
  intros Hm HPQ. eapply wp_mono; [exact Hm|]. intros r w' (Hi & Hn & Hr). split; [done|]. split; [done|].
  destruct r as [a|[]]; auto.
Qed.

Lemma quiet_disk {A : Type} (m : act Disk A) (P : A → gmap path Node → Prop) (w : World) :
  inv w → wp m (outcome (fun a fs => fs = files_of w ∧ P a fs) (fun fs => fs = files_of w)) (w_disk w) →
  wp (on_disk m) (quiet w (fun a w' => P a (files_of w') ∧ w_hd w' = w_hd w)) w.
Proof using.
  intros Hi Hm. apply wp_on_disk. eapply wp_mono; [exact Hm|]. intros r d Hr.
  assert (dk_files d = files_of w) as Hd by (destruct r as [a|[]]; cbn in Hr; [apply Hr|done|done|done]).
  split; [|split].
  - destruct Hi as [Hc Hres Hl Hh Hrd Hwr Hen Ho]. constructor; hd_cbn; try done; rewrite ?Hd; try done.
    destruct (hd_reservation (w_hd w)); [|done]. destruct Hres. constructor; hd_cbn; rewrite ?Hd; done.
  - constructor; hd_cbn; done.
  - hd_cbn. destruct r as [a|[]]; cbn in Hr; [|done|done|done]. destruct Hr as [_ HP]. split; [|done].
    by rewrite Hd in *.
Qed.

(** ** Charges and entries *)

(** An update of counters keeps the invariant and the rest. *)
Ltac counters :=
  match goal with
  | Hi : inv ?w |- inv (on_handle _ ?w) =>
      apply inv_counters; [exact Hi|]; hd_cbn; repeat split; try lia;
      solve [apply (iv_read _ _ Hi)|apply (iv_write _ _ Hi)|apply (iv_entropy _ _ Hi)]
  | |- near _ (on_handle _ _) => apply near_on_handle; hd_cbn; repeat split
  end.

(** A step that reads the handle, checks a value, or updates a counter. *)
Ltac quiet_step :=
  match goal with
  | |- wp (abind self _) _ _ => apply wp_bind, wp_reads
  | |- wp (abind (of_option _ _) _) _ _ =>
      apply wp_bind, wp_of_option; [intros ? ?Hval|intros _; split; [assumption|split; [reflexivity|exact I]]]
  | |- wp (abind (of_result _) _) _ _ =>
      apply wp_bind, wp_of_result; [intros ? ?Hval|intros ? _; split; [assumption|split; [reflexivity|exact I]]]
  | |- wp (abind (update _) _) (quiet _ _) _ =>
      eapply quiet_bind; [apply quiet_update; counters|]; intros [] ?w' ?Hi ?Hn ?Ew
  | |- wp (raise _) (quiet _ _) _ => apply quiet_raise; assumption
  end.

Lemma note_call_quiet (w : World) :
  inv w → wp (note_call limits) (quiet w (fun _ w' => hd_failed (w_hd w') = false)) w.
Proof using.
  intros Hi. unfold note_call. quiet_step. destruct (hd_failed (w_hd w)) eqn:Hf; [quiet_step|].
  quiet_step. quiet_step. quiet_step. quiet_step. destruct (_ <? _); [quiet_step|].
  apply quiet_pure; [done|]. by rewrite (nr_failed _ _ Hn0), (nr_failed _ _ Hn).
Qed.

Lemma charge_read_quiet (n : Z) (w : World) :
  inv w → wp (charge_read limits n) (quiet w (fun _ _ => True)) w.
Proof using.
  intros Hi. unfold charge_read. destruct (_ <? _); [quiet_step|]. quiet_step. quiet_step.
  destruct (_ <? _) eqn:E; [quiet_step|]. apply Z.ltb_ge in E. quiet_step.
  apply quiet_update_as; [counters|counters|done].
Qed.

Lemma charge_write_quiet (n : Z) (w : World) :
  inv w →
  wp (charge_write limits n)
    (quiet w (fun _ w' => hd_access (w_hd w) = ReadWrite ∧ hd_write_bytes (w_hd w') = hd_write_bytes (w_hd w) + n)) w.
Proof using.
  intros Hi. unfold charge_write. quiet_step. destruct (hd_access (w_hd w)) eqn:Ha; [quiet_step|].
  destruct (_ <? _); [quiet_step|]. quiet_step. apply checked_add_u64_Some in Hval as [-> _].
  destruct (_ <? _) eqn:E; [quiet_step|]. apply Z.ltb_ge in E. quiet_step. subst w'.
  apply quiet_update_as; [counters|counters|done].
Qed.

Lemma charge_entropy_quiet (n : Z) (w : World) :
  inv w → wp (charge_entropy limits n) (quiet w (fun _ _ => True)) w.
Proof using.
  intros Hi. unfold charge_entropy. destruct (_ <? _); [quiet_step|]. quiet_step. quiet_step.
  destruct (_ <? _) eqn:E; [quiet_step|]. apply Z.ltb_ge in E.
  apply quiet_update_as; [counters|counters|done].
Qed.

Lemma note_quota_denial_quiet (w : World) :
  inv w → wp note_quota_denial (quiet w (fun _ w' => hd_reservation (w_hd w') = hd_reservation (w_hd w))) w.
Proof using.
  intros Hi. unfold note_quota_denial. quiet_step. apply quiet_update_as; [counters|counters|done].
Qed.

Lemma allocate_file_identity_quiet (w : World) :
  inv w → wp allocate_file_identity (quiet w (fun _ w' => hd_entries (w_hd w') = hd_entries (w_hd w))) w.
Proof using.
  intros Hi. unfold allocate_file_identity. quiet_step. quiet_step. quiet_step.
  apply quiet_pure; [done|]. by subst w'.
Qed.

(** A new or updated entry that says what is on the disk. *)
Lemma inv_entry (w : World) (t : str) (e : FileEntry) :
  inv w → (hd_failed (w_hd w) = false → t ∉ X → entry_ok (files_of w) t e) →
  inv (on_handle (set_entries (<[t := e]> (hd_entries (w_hd w)))) w).
Proof using.
  intros [Hc Hr Hl Hh Hrd Hwr Hen Ho] He. constructor; hd_cbn; try done.
  - destruct (hd_reservation (w_hd w)); [|done]. by destruct Hr; constructor.
  - intros Hf. destruct (Hl Hf) as (Hfiles & Hent & Hcount). split; [done|]. split; [|done].
    intros t' e' [[<- <-]|[? ?]]%lookup_insert_Some Hx; auto.
  - intros k hs Hk. destruct (Hh k hs Hk) as [? Hs]. split; [done|].
    destruct (decide (t = hs_token hs)) as [->|]; [by rewrite lookup_insert_eq|by rewrite lookup_insert_ne].
Qed.

Lemma near_entry (w : World) (t : str) (e : FileEntry) :
  near w (on_handle (set_entries (<[t := e]> (hd_entries (w_hd w)))) w).
Proof using.
  constructor; hd_cbn; try done. intros t' Ht'.
  destruct (decide (t = t')) as [->|]; [by rewrite lookup_insert_eq|by rewrite lookup_insert_ne].
Qed.

Lemma metadata_quiet (t : str) (w : World) :
  inv w →
  wp (on_disk (metadata io data t)) (quiet w (fun m w' => m = metadata_of <$> file_at (files_of w') t ∧ w_hd w' = w_hd w)) w.
Proof using.
  intros Hi. apply (quiet_disk _ (fun m fs => m = metadata_of <$> file_at fs t)); [done|].
  eapply wp_mono; [apply wp_metadata|]. done.
Qed.

Lemma open_private_quiet (dir : path) (t : str) (w : World) :
  inv w → wp (on_disk (open_private io dir t false)) (quiet w (fun _ w' => w_hd w' = w_hd w)) w.
Proof using.
  intros Hi. eapply quiet_weaken; [apply (quiet_disk _ (fun _ _ => True)); [done|]|by intros a w' []].
  eapply wp_mono; [apply wp_open_private|].
  intros [a|[]] d; cbn; [|done|done|done]. by intros [-> _].
Qed.

Lemma works_quiet (w : World) : inv w → wp (on_disk (works io)) (quiet w (fun _ w' => w_hd w' = w_hd w)) w.
Proof using.
  intros Hi. eapply quiet_weaken; [apply (quiet_disk _ (fun _ _ => True)); [done|]|by intros a w' []].
  eapply wp_mono; [apply wp_works|].
  intros [a|[]] d; cbn; done.
Qed.

Lemma ensure_entry_quiet (name : str) (w : World) :
  inv w → hd_failed (w_hd w) = false →
  wp (ensure_entry limits io sha256 name)
    (quiet w (fun t w' => is_Some (hd_entries (w_hd w') !! t)
                          ∧ logical_token sha256 (w_hd w) name = Ok t)) w.
Proof using.
  intros Hi Hf. unfold ensure_entry. quiet_step. quiet_step. rename a into t.
  destruct (hd_entries (w_hd w) !! t) as [e|] eqn:Ee; [by apply quiet_pure; eauto|].
  eapply quiet_bind; [by apply metadata_quiet|]. intros m w1 Hi1 Hn1 [Hm _].
  assert (hd_failed (w_hd w1) = false) as Hf1 by (by rewrite (nr_failed _ _ Hn1)).
  destruct (iv_live _ _ Hi1 Hf1) as (Hfiles & _ & _).
  eapply (quiet_bind _ _ (fun found w2 => match file_at (files_of w2) t with
                                          | Some n => found = (true, len (nd_bytes n))
                                          | None => found = (false, 0)
                                          end)).
  { destruct (file_at (files_of w1) t) as [n|] eqn:En; subst m; cbn [fmap option_fmap option_map].
    - destruct (_ && _); [|quiet_step]. eapply quiet_bind; [by apply open_private_quiet|].
      intros [] w2 Hi2 Hn2 _. apply quiet_pure; [done|]. by rewrite (nr_files _ _ Hn2), En.
    - apply quiet_pure; [done|]. by rewrite En. }
  intros [ex sz] w2 Hi2 Hn2 Hfound.
  eapply (quiet_bind _ _ (fun _ w3 => True)).
  { destruct ex; [|by apply quiet_pure]. eapply quiet_weaken; [by apply allocate_file_identity_quiet|done]. }
  intros identity w3 Hi3 Hn3 _. quiet_step.
  eapply quiet_bind; [apply quiet_update; [apply inv_entry; [done|]|apply near_entry]|].
  { intros _ _. unfold entry_ok. rewrite (nr_files _ _ Hn3).
    destruct (file_at (files_of w2) t); injection Hfound as -> ->; done. }
  intros [] w4 Hi4 Hn4 ->. apply quiet_pure; [done|]. split; [|done]. hd_cbn. by rewrite lookup_insert_eq.
Qed.

Lemma update_entry_quiet (t : str) (f : FileEntry → FileEntry) (P : unit → World → Prop) (w : World)
    (e : FileEntry) :
  inv w → hd_entries (w_hd w) !! t = Some e →
  (hd_failed (w_hd w) = false → entry_ok (files_of w) t (f e)) →
  P tt (on_handle (set_entries (<[t := f e]> (hd_entries (w_hd w)))) w) →
  wp (update_entry t f) (quiet w P) w.
Proof using.
  intros Hi He Hok HP. unfold update_entry. quiet_step. apply wp_bind. eapply wp_expect; [done|].
  apply quiet_update_as; [|apply near_entry|done]. apply inv_entry; [done|]. auto.
Qed.

Lemma entry_quiet (t : str) (w : World) (e : FileEntry) :
  inv w → hd_entries (w_hd w) !! t = Some e →
  wp (entry t) (quiet w (fun e' w' => e' = e ∧ w' = w)) w.
Proof using.
  intros Hi He. unfold entry. quiet_step. eapply wp_expect; [done|]. by split.
Qed.

Lemma load_token_quiet (t : str) (w : World) :
  inv w → hd_failed (w_hd w) = false → max_file_bytes limits < u64_max → t ∉ X →
  wp (load_token limits io t)
    (quiet w (fun _ w' => ∃ e, hd_entries (w_hd w') !! t = Some e
                               ∧ fe_data e = nd_bytes <$> file_at (files_of w') t)) w.
Proof using.
  intros Hi Hf Hmax HX. unfold load_token. quiet_step. quiet_step. rename a into e.
  destruct (iv_live _ _ Hi Hf) as (Hfiles & Hent & _).
  pose proof (Hent t e Hval HX) as He. unfold entry_ok in He.
  destruct (fe_loaded e) eqn:El.
  { apply quiet_pure; [done|]. exists e. split; [done|].
    by destruct (file_at (files_of w) t); destruct He as (_ & _ & ->). }
  quiet_step. destruct (_ <? _).
  { eapply quiet_bind; [by apply note_quota_denial_quiet|]. intros [] w1 Hi1 Hn1 _. quiet_step. }
  eapply quiet_bind.
  { apply (quiet_disk _ (fun b fs => ∃ n, file_at fs t = Some n ∧ b = nd_bytes n)); [done|].
    eapply wp_mono; [by apply wp_read_bounded|]. intros [b|[]] d; cbn; [|done|done|done].
    intros (? & _ & n & ? & _ & ?). eauto. }
  intros b w1 Hi1 Hn1 [(n & Hb & ->) _]. destruct (negb _) eqn:Hlen; [quiet_step|].
  destruct (nr_entries _ _ Hn1 t) as [e1 He1]; [by eauto|].
  assert (hd_failed (w_hd w1) = false) as Hf1 by (by rewrite (nr_failed _ _ Hn1)).
  destruct (iv_live _ _ Hi1 Hf1) as (_ & Hent1 & _).
  pose proof (Hent1 t e1 He1 HX) as He1'.
  eapply (quiet_bind _ _ (fun _ w2 => hd_entries (w_hd w2) !! t = Some (loaded_with (nd_bytes n) e1)));
    [eapply update_entry_quiet; [done|done| |]|].
  - intros _. unfold entry_ok in *. rewrite Hb in *. by destruct He1' as (? & ? & _).
  - hd_cbn. apply lookup_insert_eq.
  - intros [] w2 Hi2 Hn2 He2. apply quiet_update_as; [counters|counters|]. hd_cbn.
    exists (loaded_with (nd_bytes n) e1). split; [done|]. by rewrite (nr_files _ _ Hn2), Hb.
Qed.

Lemma ensure_loaded_quiet (name : str) (w : World) :
  inv w → hd_failed (w_hd w) = false → max_file_bytes limits < u64_max → X = ∅ →
  wp (ensure_loaded limits io sha256 name)
    (quiet w (fun t w' => logical_token sha256 (w_hd w) name = Ok t
        ∧ ∃ e, hd_entries (w_hd w') !! t = Some e
               ∧ fe_data e = nd_bytes <$> file_at (files_of w') t)) w.
Proof using.
  intros Hi Hf Hmax HX. unfold ensure_loaded. eapply quiet_bind; [by apply ensure_entry_quiet|].
  intros t w1 Hi1 Hn1 [_ Ht]. eapply quiet_bind; [apply load_token_quiet; [done| |done|]|].
  { by rewrite (nr_failed _ _ Hn1). }
  { rewrite HX. apply not_elem_of_empty. }
  intros [] w2 Hi2 Hn2 He. by apply quiet_pure.
Qed.

(** ** Reservations *)

(** What [reserve_candidate] plans: the sizes before, and the changes asked
    for. *)
Record planned_for (fs : gmap path Node) (changes : list (str * option Z)) (planned : list PlannedChange)
    : Prop := {
  pf_tokens : pc_token <$> planned = changes.*1;
  pf_after : pc_after <$> planned = changes.*2;
  pf_before : Forall (fun c => pc_before c = size_at fs (pc_token c)) planned;
  pf_limit : Forall (fun o => match o with Some l => l ≤ max_file_bytes limits | None => True end) changes.*2
}.

Lemma planned_cons (fs : gmap path Node) (t : str) (o : option Z) (changes : list (str * option Z))
    (planned : list PlannedChange) :
  match o with Some l => l ≤ max_file_bytes limits | None => True end →
  planned_for fs changes planned →
  planned_for fs ((t, o) :: changes) (mkPlannedChange t (size_at fs t) o :: planned).
Proof using.
  intros Ho [H1 H2 H3 H4]. constructor; cbn.
  - by rewrite H1.
  - by rewrite H2.
  - by constructor.
  - by constructor.
Qed.

Lemma plan_changes_quiet (changes : list (str * option Z)) (plan : Plan) (w : World) :
  inv w →
  wp (plan_changes limits io changes plan)
    (quiet w (fun plan' w' => w_hd w' = w_hd w
       ∧ ∃ new, pl_changes plan' = pl_changes plan ++ new ∧ planned_for (files_of w) changes new
                ∧ pl_growth plan' = pl_growth plan + zsum growth_of new
                ∧ pl_entries plan' = pl_entries plan + zsum growth_entries_of new
                ∧ pl_files plan' = baseline_after (pl_files plan) new changes.*2)) w.
Proof using.
  revert plan w. induction changes as [|[t o] changes IH]; intros plan w Hi; cbn [plan_changes].
  - apply quiet_pure; [done|]. split; [done|]. exists []. rewrite app_nil_r. unfold zsum. cbn.
    split; [done|]. split; [by constructor|]. split; [lia|]. split; [lia|done].
  - eapply quiet_bind; [by apply metadata_quiet|]. intros m w1 Hi1 Hn1 [Hm Hh1].
    assert (md_len <$> m = size_at (files_of w) t) as ->.
    { subst m. rewrite (nr_files _ _ Hn1). unfold size_at. by destruct (file_at _ t). }
    set (c := mkPlannedChange t (size_at (files_of w) t) o).
    eapply (quiet_bind _ _ (fun plan' w2 => w_hd w2 = w_hd w
      ∧ pl_changes plan' = pl_changes plan ++ [c]
      ∧ pl_growth plan' = pl_growth plan + growth_of c
      ∧ pl_entries plan' = pl_entries plan + growth_entries_of c
      ∧ pl_files plan' = baseline_after (pl_files plan) [c] [o]
      ∧ match o with Some l => l ≤ max_file_bytes limits | None => True end)).
    + unfold growth_of, growth_entries_of, c. cbn [pc_after pc_before pc_token baseline_after].
      destruct o as [l|]; [|apply quiet_pure; [done|]; cbn; repeat split; (done || lia)].
      destruct (_ <? _) eqn:El; [quiet_step|]. apply Z.ltb_ge in El. quiet_step.
      apply checked_add_u64_Some in Hval as [-> _].
      destruct (size_at (files_of w) t) as [b|]; cbn [unwrap_or].
      * apply quiet_pure; [done|]. cbn. repeat split; (done || lia).
      * quiet_step. apply checked_add_u64_Some in Hval as [-> _]. apply quiet_pure; [done|]. cbn.
        repeat split; (done || lia).
    + intros plan1 w2 Hi2 Hn2 (Hh2 & Ec & Eg & Ee & Ef & Ho).
      eapply quiet_weaken; [by apply IH|]. intros plan2 w3 (Hh3 & new & Ec2 & Hp2 & Eg2 & Ee2 & Ef2).
      split; [congruence|]. exists (c :: new).
      rewrite (nr_files _ _ Hn2), (nr_files _ _ Hn1) in Hp2.
      split; [by rewrite Ec2, Ec, <- app_assoc|]. split; [by apply planned_cons|].
      rewrite !zsum_cons. split; [lia|]. split; [lia|]. rewrite Ef2, Ef. done.
Qed.

(** What a successful reservation leaves: the growth of the plan is reserved
    and the files after it are few enough. *)
Record reserved_for (w : World) (changes : list (str * option Z)) (planned : list PlannedChange) : Prop := {
  rf_planned : planned_for (files_of w) changes planned;
  rf_reservation : ∃ r, hd_reservation (w_hd w) = Some r ∧ zsum growth_of planned ≤ rs_reserved r
                        ∧ zsum growth_entries_of planned ≤ rs_entries_reserved r;
  rf_files : Z.of_nat (size (baseline_after (hd_baseline_files (w_hd w)) planned changes.*2))
             ≤ max_files_per_namespace limits
}.

Lemma inv_ledger (w : World) (s : LedgerState) (r : option Reservation) :
  inv w →
  client (S (w_turn w)) r (size (hd_handles (w_hd w))) s →
  match hd_reservation (w_hd w), r with
  | Some r0, Some r => rs_namespace r = rs_namespace r0
                       ∧ ns_get (namespace_used s) ns = ns_get (namespace_used (w_ledger w)) ns
                       ∧ ns_get (namespace_entries s) ns = ns_get (namespace_entries (w_ledger w)) ns
  | None, None => True
  | _, _ => False
  end →
  inv (mkWorld (set_reservation r (w_hd w)) (w_disk w) s (S (w_turn w))).
Proof using.
  intros [Hc Hr Hl Hh Hrd Hwr Hen Ho] Hcl Hm. constructor; hd_cbn; try done.
  destruct (hd_reservation (w_hd w)) as [r0|], r as [r|]; try done. destruct Hm as (E1 & E2 & E3), Hr.
  constructor; hd_cbn; (congruence || done).
Qed.

Lemma reserve_to_keeps (r : Reservation) (d de : Z) (s s' : LedgerState)
    (res : result StorageHostError Reservation) :
  reserve_to limits r d de s = (res, s') →
  namespace_used s' = namespace_used s ∧ namespace_entries s' = namespace_entries s
  ∧ rs_namespace (updated r res) = rs_namespace r
  ∧ match res with Ok r' => d ≤ rs_reserved r' ∧ de ≤ rs_entries_reserved r' | Err _ => True end.
Proof using.
  unfold reserve_to. destruct (_ && _) eqn:E.
  - intros [= <- <-]. apply andb_true_iff in E as [?%Z.leb_le ?%Z.leb_le]. done.
  - clear E. run_locked. repeat dk_case; intros; simplify_eq; cbn; repeat split; lia.
Qed.

Lemma reserve_candidate_quiet (changes : list (str * option Z)) (w : World) :
  inv w →
  wp (reserve_candidate limits io others changes)
    (quiet w (fun planned w' => reserved_for w' changes planned)) w.
Proof using Hlaws Halone.
  intros Hi. unfold reserve_candidate. quiet_step.
  eapply quiet_bind; [by apply plan_changes_quiet|].
  intros plan w1 Hi1 Hn1 (Hh1 & new & Ec & Hp & Eg & Ee & Ef). cbn in Ec, Eg, Ee, Ef.
  destruct (_ <? _) eqn:Ecount; [quiet_step|]. apply Z.ltb_ge in Ecount.
  quiet_step. rename a into r0. rewrite <- Hh1 in Hval.
  apply wp_bind, wp_attempt, wp_on_ledger. intros res s Hres.
  pose proof (cl_others _ _ _ _ Hlaws (w_turn w1) _ _ _ (iv_client _ _ Hi1)) as Hcl. rewrite Hval in Hcl.
  pose proof (cl_reserve _ _ _ _ Hlaws _ _ _ _ _ _ _ _ Hcl Hres) as Hcl'.
  apply reserve_to_keeps in Hres as (Eu & Een & En & Hok).
  destruct (Halone (w_turn w1) (w_ledger w1)) as [Ea Eb].
  assert (inv (mkWorld (set_reservation (Some (updated r0 res)) (w_hd w1)) (w_disk w1) s (S (w_turn w1))))
    as Hi2.
  { apply inv_ledger; [done|done|]. rewrite Hval. split; [done|]. by rewrite Eu, Een, Ea, Eb. }
  set (w2 := mkWorld (w_hd w1) (w_disk w1) s (S (w_turn w1))).
  assert (on_handle (set_reservation (Some (updated r0 res))) w2
    = mkWorld (set_reservation (Some (updated r0 res)) (w_hd w1)) (w_disk w1) s (S (w_turn w1))) as E2 by done.
  rewrite <- E2 in Hi2. assert (near w1 w2) as Hn2 by (by constructor).
  assert (near w1 (on_handle (set_reservation (Some (updated r0 res))) w2)) as Hn3 by (by constructor).
  assert (∀ e, res = Err e → inv w2) as Hi2'.
  { intros e ->. rewrite E2 in Hi2. cbn [updated] in Hi2. unfold w2. rewrite <- Hval in Hi2. 
    destruct (w_hd w1). exact Hi2. }
  destruct res as [r1|e]; cbn [updated] in *.
  - apply wp_bind, wp_modify. apply wp_bind, wp_pure. apply wp_pure. split; [done|]. split; [done|].
    constructor.
    + unfold w2. hd_cbn. rewrite Ec, (nr_files _ _ Hn1). done.
    + unfold w2. hd_cbn. exists r1. rewrite Ec. destruct Hok. split; [done|]. lia.
    + unfold w2. hd_cbn. rewrite Ec, Hh1, <- Ef. done.
  - specialize (Hi2' e eq_refl).
    eapply wp_mono; [eapply (quiet_bind _ _ (fun _ _ => True))|].
    + destruct e; try (by apply quiet_pure).
      eapply quiet_weaken; [by apply note_quota_denial_quiet|done].
    + intros [] w3 Hi3 Hn4 _. apply wp_bind. apply wp_raise. 
      instantiate (1 := fun _ _ => False). by split.
    + intros r w4 (? & Hn4 & ?). split; [done|]. split; [exact (transitivity Hn2 Hn4)|]. by destruct r.
Qed.

(** ** Mutations *)

(** What accounting changes of a handle. *)
Definition redone (u : Usage) (b : gset str) (r : option Reservation) (f : bool) (h : StorageHandle)
    : StorageHandle :=
  set_failed f (set_reservation r (set_baseline_files b (set_usage u h))).

Lemma redone_self (h : StorageHandle) :
  h = redone (hd_usage h) (hd_baseline_files h) (hd_reservation h) (hd_failed h) h.
Proof using. by destruct h. Qed.

Lemma redone_live (h : StorageHandle) (u : Usage) (b : gset str) (r : option Reservation) :
  hd_failed h = false → set_reservation r (set_baseline_files b (set_usage u h)) = redone u b r false h.
Proof using. destruct h. cbn. by intros ->. Qed.

Lemma observe_direct_keeps (r : Reservation) (u : Usage) (s s' : LedgerState)
    (res : result StorageHostError Reservation) :
  observe_direct r u s = (res, s') →
  rs_namespace (updated r res) = rs_namespace r
  ∧ match res with
    | Ok _ => ns_get (namespace_used s') (rs_namespace r) = bytes u
              ∧ ns_get (namespace_entries s') (rs_namespace r) = entries u
    | Err _ => True
    end.
Proof using.
  unfold observe_direct. run_locked.
  repeat dk_case; intros; simplify_eq; cbn; rewrite ?ns_get_insert_eq; done.
Qed.

Section Mutation.
(** The world [w0] of the reservation, with the files [d] a mutation left. *)
Context (w0 : World) (Hi0 : inv w0) (Hf0 : hd_failed (w_hd w0) = false).
Context (changes : list (str * option Z)) (planned : list PlannedChange).
Context (Hres : reserved_for w0 changes planned) (Hnodup : NoDup changes.*1).
Context (d : Disk) (Hsame : same_but changes.*1 (files_of w0) (dk_files d)).
Context (Hkind : ∀ t, t ∈ changes.*1 → file_or_none (file_at (dk_files d) t)).
Context (Hwithin : Forall (within_plan (dk_files d)) planned).

Definition mutating (d' : Disk) (s : LedgerState) (n : nat) : World := mkWorld (w_hd w0) d' s n.

Lemma files_before (t : str) : file_or_none (file_at (files_of w0) t).
Proof using Hi0 Hf0.
  destruct (iv_live _ _ Hi0 Hf0) as (Hfiles & _ & _). destruct (file_at _ t) as [n|] eqn:E; [|done].
  destruct (Hfiles t n E) as [-> _]. done.
Qed.

Lemma total_after : total (dk_files d) = moved_usage (files_of w0) (dk_files d) (pc_token <$> planned)
                                            (total (files_of w0)).
Proof using Hi0 Hf0 Hres Hnodup Hsame Hkind.
  rewrite (pf_tokens _ _ _ (rf_planned _ _ _ Hres)). unfold total. rewrite moved_usage_shift. f_equal.
  apply usage_moved; [done|done|]. intros t Ht. split; [apply files_before|by apply Hkind].
Qed.

Lemma usage_nonneg (fs : gmap path Node) : usage_ok (total fs).
Proof using. unfold usage_ok, total. cbn. pose proof (zsum_entry_nonneg (nodes fs)). unfold ENTRY_CHARGE in *. lia. Qed.

(** The state after accounting for the sizes that are on the disk. *)
Lemma account_final_sizes_ok (d' : Disk) (n : nat) (s : LedgerState) :
  dk_files d' = dk_files d → s = w_ledger w0 → n = w_turn w0 →
  wp (account_final_sizes others planned (size_at (dk_files d) ∘ pc_token <$> planned))
    (fun r w' => ∃ u b ro s' n', w' = mkWorld (redone u b ro false (w_hd w0)) d' s' n'
       ∧ client n' ro (size (hd_handles (w_hd w0))) s'
       ∧ match r with
         | Ok _ => b = baseline_after (hd_baseline_files (w_hd w0)) planned
                         (size_at (dk_files d) ∘ pc_token <$> planned)
                   ∧ ∃ r, ro = Some r ∧ accounts w' r
         | Err (Throws _) => is_Some ro
         | Err _ => False
         end)
    (mkWorld (w_hd w0) d' s n).
Proof using Hlaws Halone Hi0 Hf0 Hres Hnodup Hsame Hkind Hwithin.
  intros Hd -> ->. unfold account_final_sizes. apply wp_bind, wp_reads. cbn [w_hd].
  destruct (rf_reservation _ _ _ Hres) as (r0 & Er0 & Hgb & Hge).
  pose proof (iv_res _ _ Hi0) as Hacc. rewrite Er0 in Hacc. destruct Hacc as [Ens Eu Eb Eused Eents].
  pose proof (redone_self (w_hd w0)) as Eself. rewrite Er0, Hf0 in Eself.
  pose proof (iv_client _ _ Hi0) as Hcl. rewrite Er0 in Hcl.
  apply wp_bind, wp_of_option.
  2:{ intros _. do 5 eexists. split; [by rewrite Eself at 1|]. split; [exact Hcl|]. by eexists. }
  intros u Hu. apply account_changes_Some with (fs := files_of w0) in Hu; [|apply Hres].
  assert (u = total (dk_files d)) as ->.
  { rewrite Hu, Eu. symmetry. apply total_after. }
  apply wp_bind, wp_modify. apply wp_bind, wp_modify. rewrite Er0. apply wp_bind, wp_pure.
  apply wp_bind, wp_on_ledger. intros res s Hobs. hd_cbn.
  pose proof (cl_others _ _ _ _ Hlaws _ _ _ _ Hcl) as Hcl1.
  destruct (Halone (w_turn w0) (w_ledger w0)) as [Ea Ee].
  assert (within_reservation (others (w_turn w0) (w_ledger w0)) r0 (total (dk_files d))) as Hw.
  { split; [apply usage_nonneg|]. rewrite Ens, Ea, Ee, Eused, Eents, Eu, total_after.
    pose proof (moved_within _ _ _ (total (files_of w0)) (pf_before _ _ _ (rf_planned _ _ _ Hres)) Hwithin)
      as [Hb He].
    split; [etransitivity; [apply Hb|lia]|etransitivity; [apply He|lia]]. }
  pose proof (cl_observe _ _ _ _ Hlaws _ _ _ _ _ _ _ Hcl1 Hw Hobs) as Hcl2.
  apply observe_direct_keeps in Hobs as [En Hk]. rewrite Ens in En, Hk.
  destruct res as [r1|e]; cbn [updated] in *.
  - apply wp_modify. do 5 eexists. split; [unfold on_handle; hd_cbn; by rewrite redone_live|].
    split; [exact Hcl2|]. split; [done|]. exists r1. split; [done|]. destruct Hk as [Hk1 Hk2].
    constructor; hd_cbn; [done|by rewrite Hd| |done|done].
    intros t. rewrite Hd. apply baseline_after_elem. intros t' Ht'.
    rewrite Eb, (pf_tokens _ _ _ (rf_planned _ _ _ Hres)) in *. unfold file_at. rewrite Hsame; [done|].
    intros t2 Ht2. rewrite data_path_inj. by intros ->.
  - exists (total (dk_files d)), (baseline_after (hd_baseline_files (w_hd w0)) planned
      (size_at (dk_files d) ∘ pc_token <$> planned)), (Some r0), s, (S (w_turn w0)).
    split; [|split; [exact Hcl2|by eexists]]. rewrite <- redone_live, <- Er0 by done.
    reflexivity.
Qed.

Lemma observed_sizes_ok (cs : list PlannedChange) (d' : Disk) (s : LedgerState) (n : nat) :
  dk_files d' = dk_files d →
  wp (observed_sizes io cs)
    (fun r w' => ∃ d'', w' = mkWorld (w_hd w0) d'' s n ∧ dk_files d'' = dk_files d
       ∧ match r with
         | Ok sizes => sizes = size_at (dk_files d) ∘ pc_token <$> cs
         | Err (Throws _) => True
         | Err _ => False
         end)
    (mkWorld (w_hd w0) d' s n).
Proof using.
  revert d'. induction cs as [|c cs IH]; intros d' Hd; cbn [observed_sizes].
  - apply wp_pure. by exists d'.
  - apply wp_bind, wp_on_disk. eapply wp_mono; [apply wp_metadata|].
    intros [m|[e| |]] d2; cbn [outcome w_disk]; [|intros E; by exists d2; rewrite E|done|done].
    intros [E ->]. eapply wp_step; [apply IH; congruence| |done].
    intros sizes w' (d3 & -> & Ed3 & ->). apply wp_pure. exists d3. split; [done|]. split; [done|].
    cbn [fmap list_fmap compose]. f_equal. rewrite E, Hd. unfold size_at, file_at.
    by destruct (dk_files d !! _).
Qed.

(** A mutation is done or the transaction has failed; its accounts are right
    either way, or its reservation is kept for good. *)
Definition mutated (result : result StorageHostError unit) (r : Prelude.result Exn unit) (w' : World)
    : Prop :=
  ∃ u b ro f d' s n, w' = mkWorld (redone u b ro f (w_hd w0)) d' s n ∧ dk_files d' = dk_files d
    ∧ match r with
      | Ok _ => is_ok result = true ∧ f = false ∧ inv_but (X ∪ list_to_set changes.*1) w'
      | Err (Throws _) => f = true ∧ inv_but ∅ w'
      | Err _ => False
      end.

Lemma inv_failed (u : Usage) (b : gset str) (ro : option Reservation) (d' : Disk) (s : LedgerState) (n : nat) :
  client n ro (size (hd_handles (w_hd w0))) s →
  (∀ r, ro = Some r → accounts (mkWorld (redone u b ro true (w_hd w0)) d' s n) r) →
  inv_but ∅ (mkWorld (redone u b ro true (w_hd w0)) d' s n).
Proof using Hi0.
  intros Hcl Hacc. destruct Hi0 as [Hc Hr Hl Hh Hrd Hwr Hen Ho]. constructor; unfold redone in *; hd_cbn; try done.
  destruct ro as [r|]; [by apply Hacc|by left].
Qed.

(** What the accounting after a mutation leaves. *)
Definition accounted_for (acc : result StorageHostError unit) (w' : World) : Prop :=
  ∃ u b ro d' s' n',
    w' = mkWorld (redone u b ro false (w_hd w0)) d' s' n'
    ∧ dk_files d' = dk_files d ∧ client n' ro (size (hd_handles (w_hd w0))) s'
    ∧ match acc with
      | Ok _ => b = baseline_after (hd_baseline_files (w_hd w0)) planned
                      (size_at (dk_files d) ∘ pc_token <$> planned)
                ∧ ∃ r, ro = Some r ∧ accounts w' r
      | Err _ => is_Some ro
      end.

Lemma accounting_ok (result : result StorageHostError unit) :
  (is_ok result = true → pc_after <$> planned = size_at (dk_files d) ∘ pc_token <$> planned) →
  wp (attempt (if is_ok result then account_planned others planned else account_observed io others planned))
    (fun r w' => ∃ acc, r = Ok acc ∧ accounted_for acc w')
    (mkWorld (w_hd w0) d (w_ledger w0) (w_turn w0)).
Proof using Hlaws Halone Hi0 Hf0 Hres Hnodup Hsame Hkind Hwithin.
  intros Hok. apply wp_attempt. destruct (is_ok result) eqn:Er.
  - unfold account_planned. rewrite (Hok eq_refl).
    eapply wp_mono; [by apply account_final_sizes_ok|].
    intros [[]|[e| |]] w' (u & b & ro & s' & n' & -> & Hcl & H); [| |done|done];
      eexists; (split; [done|]); exists u, b, ro, d, s', n'; done.
  - unfold account_observed. destruct (rf_reservation _ _ _ Hres) as (r0 & Er0 & _).
    eapply wp_step; [by apply observed_sizes_ok| |].
    + intros sizes w' (d2 & -> & Hd2 & ->).
      eapply wp_mono; [by apply account_final_sizes_ok|].
      intros [[]|[e| |]] w' (u & b & ro & s' & n' & -> & Hcl & H); [| |done|done];
        eexists; (split; [done|]); exists u, b, ro, d2, s', n'; done.
    + intros [e| |] w' (d2 & -> & Hd2 & H); [|done|done]. eexists. split; [done|].
      exists (hd_usage (w_hd w0)), (hd_baseline_files (w_hd w0)), (Some r0), d2, (w_ledger w0), (w_turn w0).
      split; [by rewrite <- Er0, <- Hf0, <- redone_self|]. split; [done|].
      split; [rewrite <- Er0; apply (iv_client _ _ Hi0)|by eexists].
Qed.

Lemma after_mutation_ok (result : result StorageHostError unit) :
  (is_ok result = true →
     pc_after <$> planned = size_at (dk_files d) ∘ pc_token <$> planned ∧ files_ok (dk_files d)) →
  wp (after_mutation io others result planned) (mutated result) (mkWorld (w_hd w0) d (w_ledger w0) (w_turn w0)).
Proof using Hlaws Halone Hi0 Hf0 Hres Hnodup Hsame Hkind Hwithin.
  intros Hok. unfold after_mutation.
  eapply wp_step; [apply accounting_ok; apply Hok| |by intros e w' (acc & [=] & _)].
  intros acc w' (acc' & [= <-] & u & b & ro & d' & s' & n' & -> & Hd' & Hcl & Hacc).
  apply wp_bind, wp_reads. unfold redone. hd_cbn. fold (redone u b ro false (w_hd w0)).
  destruct acc as [[]|e].
  - destruct Hacc as [Eb (r & -> & Hacc)]. apply wp_bind, wp_pure.
    destruct result as [[]|x]; cbn [result_bind is_ok].
    + apply wp_bind, wp_pure. apply wp_pure. exists u, b, (Some r), false, d', s', n'.
      split; [done|]. split; [done|]. split; [done|]. split; [done|]. destruct (Hok eq_refl) as [Hafter Hfiles].
      destruct (iv_live _ _ Hi0 Hf0) as (_ & Hent & _).
      constructor; unfold redone in *; hd_cbn; try done; try apply Hi0.
      intros _. split; [by rewrite Hd'|]. split.
      * intros t e Ht [HtX Hx]%not_elem_of_union.
        assert (t ∉ changes.*1) as Hx' by (by rewrite <- (elem_of_list_to_set (C := gset str))).
        pose proof (Hent t e Ht HtX) as He. unfold entry_ok in *. rewrite Hd'.
        unfold file_at in *. rewrite Hsame; [done|]. intros t2 Ht2. rewrite data_path_inj. by intros ->.
      * pose proof (rf_files _ _ _ Hres) as Hcount. rewrite Eb, <- Hafter.
        by rewrite (pf_after _ _ _ (rf_planned _ _ _ Hres)).
    + apply wp_bind, wp_modify. apply wp_raise. exists u, b, (Some r), true, d', s', n'.
      split; [done|]. split; [done|]. split; [done|].
      change (inv_but ∅ (mkWorld (redone u b (Some r) true (w_hd w0)) d' s' n')).
      apply inv_failed; [done|]. intros r' [= <-]. destruct Hacc. by constructor.
  - destruct Hacc as [r ->]. apply wp_bind, wp_bind, wp_modify. apply wp_on_ledger.
    intros ? s2 [= <- <-]. cbn [result_bind].
    pose proof (cl_retain _ _ _ _ Hlaws _ _ _ _ (cl_others _ _ _ _ Hlaws n' _ _ _ Hcl)) as Hcl'.
    assert (∃ x, (let? _ := result in Err e) = (Err x : Prelude.result StorageHostError unit)) as [x ->]
      by (destruct result; cbn; eauto).
    cbn [is_ok]. apply wp_bind, wp_modify. apply wp_raise.
    exists u, b, None, true, d', (retain_after_unknown r (others n' s')), (S n').
    split; [done|]. split; [done|]. split; [done|].
    change (inv_but ∅ (mkWorld (redone u b None true (w_hd w0)) d' (retain_after_unknown r (others n' s')) (S n'))).
    by apply inv_failed.
Qed.

End Mutation.

(** A mutation of the files [Y] from the world [w0]: done, with the files
    [fs1], or failed. *)
Definition did (w0 : World) (fs1 : gmap path Node) (Y : gset str) (r : result Exn unit) (w' : World) : Prop :=
  ∃ u b ro f d' s n, w' = mkWorld (redone u b ro f (w_hd w0)) d' s n
    ∧ match r with
      | Ok _ => f = false ∧ inv_but (X ∪ Y) w' ∧ dk_files d' = fs1
      | Err (Throws _) => f = true ∧ inv_but ∅ w'
      | Err _ => False
      end.

Section Mutate.
Context (w0 : World) (Hi0 : inv w0) (Hf0 : hd_failed (w_hd w0) = false).

Lemma mutate_ok (changes : list (str * option Z)) (planned : list PlannedChange) (m : act Disk unit)
    (fs1 : gmap path Node) (T : gmap path Node → Prop) :
  reserved_for w0 changes planned → NoDup changes.*1 →
  wp m (outcome (fun _ fs => fs = fs1) T) (w_disk w0) → T fs1 →
  (∀ fs, T fs → same_but changes.*1 (files_of w0) fs
                ∧ (∀ t, t ∈ changes.*1 → file_or_none (file_at fs t)) ∧ Forall (within_plan fs) planned) →
  pc_after <$> planned = size_at fs1 ∘ pc_token <$> planned → files_ok fs1 →
  wp (result ⇚ attempt (on_disk m); after_mutation io others result planned)
    (did w0 fs1 (list_to_set changes.*1)) w0.
Proof using Hi0 Hf0 Hlaws Halone.
  intros Hres Hnd Hm HT1 HT Hafter Hfiles. apply wp_bind, wp_attempt, wp_on_disk.
  eapply wp_mono; [exact Hm|]. intros [[]|[e| |]] d; [| |done|done]; cbn [outcome]; intros Hd.
  - destruct (HT fs1 HT1) as (H1 & H2 & H3). rewrite <- Hd in *.
    eapply wp_mono; [by apply (after_mutation_ok w0 Hi0 Hf0 changes planned Hres Hnd d)|].
    intros r w' (u & b & ro & f & d' & s' & n' & -> & Ed & Hr). do 7 eexists. split; [done|].
    destruct r as [a|[]]; [|done|done|done]. by destruct Hr as (_ & -> & Hr).
  - destruct (HT _ Hd) as (H1 & H2 & H3).
    eapply wp_mono; [by apply (after_mutation_ok w0 Hi0 Hf0 changes planned Hres Hnd d)|].
    intros r w' (u & b & ro & f & d' & s' & n' & -> & Ed & Hr). do 7 eexists. split; [done|].
    destruct r as [[]|[]]; [by destruct Hr as [[=] _]|done|done|done].
Qed.

(** One file, to bytes of the planned length. *)
Lemma mutate_file (t : str) (new : Z) (planned : list PlannedChange) (m : act Disk unit) (b : list Z) :
  reserved_for w0 [(t, Some new)] planned → len b = new →
  wp m (outcome (fun _ fs => fs = <[data ++ [t] := plain b]> (files_of w0)) (torn t new (files_of w0)))
    (w_disk w0) →
  wp (result ⇚ attempt (on_disk m); after_mutation io others result planned)
    (did w0 (<[data ++ [t] := plain b]> (files_of w0)) {[t]}) w0.
Proof using Hi0 Hf0 Hlaws Halone.
  intros Hres Hb Hm. pose proof (rf_planned _ _ _ Hres) as [Ht Ha Hbef Hlim].
  destruct planned as [|c [|c' planned]]; try discriminate. cbn in Ht, Ha. injection Ht as Ht. injection Ha as Ha.
  apply List.Forall_cons_iff in Hbef as [Hbef _], Hlim as [Hlim _].
  destruct (iv_live _ _ Hi0 Hf0) as (Hfiles & _ & _). pose proof (len_nonneg b) as Hb0.
  replace ({[t]} : gset str) with (list_to_set [(t, Some new)].*1 : gset str) by (cbn; apply union_empty_r_L).
  eapply (mutate_ok _ _ _ _ (torn t new (files_of w0))); [done|apply NoDup_singleton|done| | | |].
  - apply torn_insert. lia.
  - intros fs [Hsame Hfile]. split; [done|]. split.
    + intros t' Ht'. apply list_elem_of_singleton in Ht'. cbn [fst] in Ht'. rewrite Ht'. destruct Hfile as [->|(b' & -> & _)]; [|done].
      by apply files_before.
    + apply List.Forall_cons_iff. split; [|done]. unfold within_plan, growth_of, growth_entries_of.
      rewrite Ht, Ha, Hbef, Ht. destruct Hfile as [E|(b' & E & Hb')].
      * unfold size_at. rewrite E. unfold sat_sub_u64, ENTRY_CHARGE.
        destruct (file_at (files_of w0) t); cbn; lia.
      * unfold size_at in *. rewrite E. cbn [fmap option_fmap option_map plain compose nd_bytes charge_of bytes entries].
        unfold sat_sub_u64. destruct (file_at (files_of w0) t) as [n|]; cbn in *; unfold ENTRY_CHARGE; lia.
  - cbn [fmap list_fmap compose]. rewrite Ht, Ha. unfold size_at. rewrite file_at_insert. cbn. by rewrite Hb.
  - intros t' n Hn. unfold file_at in Hn. apply lookup_insert_Some in Hn as [[E <-]|[_ Hn]]; [|by apply (Hfiles t' n)].
    cbn. split; [done|]. by rewrite Hb.
Qed.

Lemma plain_before (t : str) (n : Node) :
  file_at (files_of w0) t = Some n → n = plain (nd_bytes n).
Proof using Hi0 Hf0. intros Hn. destruct (iv_live _ _ Hi0 Hf0) as (Hfiles & _). by apply (Hfiles t n). Qed.

Lemma write_direct_ok (t : str) (b : list Z) (planned : list PlannedChange) :
  reserved_for w0 [(t, Some (len b))] planned →
  wp (write_direct io others t (Some b) planned)
    (did w0 (<[data ++ [t] := plain b]> (files_of w0)) {[t]}) w0.
Proof using Hi0 Hf0 Hlaws Halone.
  intros Hres. eapply mutate_file; [done|done|]. apply replace_effect, plain_before.
Qed.

Definition bytes_at (fs : gmap path Node) (t : str) : list Z :=
  match file_at fs t with Some n => nd_bytes n | None => [] end.

Lemma bytes_at_len (t : str) (l : Z) : size_at (files_of w0) t = Some l → len (bytes_at (files_of w0) t) = l.
Proof using. unfold size_at, bytes_at. destruct (file_at (files_of w0) t); cbn; congruence. Qed.

Lemma write_range_ok (t : str) (offset l : Z) (b : list Z) (planned : list PlannedChange) :
  0 ≤ offset → size_at (files_of w0) t = Some l → ¬ (b = [] ∧ l < offset) →
  reserved_for w0 [(t, Some (Z.max l (offset + len b)))] planned →
  wp (write_range io others t offset b planned)
    (did w0 (<[data ++ [t] := plain (overwrite (Z.to_nat offset) b (bytes_at (files_of w0) t))]> (files_of w0))
       {[t]}) w0.
Proof using Hi0 Hf0 Hlaws Halone.
  intros Ho Hl Hne Hres. pose proof (bytes_at_len t l Hl) as Hlen. unfold len in *.
  eapply mutate_file; [done| |].
  - unfold len, overwrite. destruct b as [|x b]; cbn [is_nil].
    + cbn in *. destruct (decide (l < offset)); [by exfalso; auto|lia].
    + rewrite !length_app, length_take, length_drop, !length_app, length_replicate. lia.
  - eapply wp_mono; [apply range_effect, plain_before|].
    intros [[]|[e| |]] d; cbn [outcome]; [by intros [_ ->]| |done|done].
    intros [Hs Hf]. split; [done|]. destruct Hf as [?|(b' & ? & Hb')]; [by left|right]. exists b'.
    split; [done|]. rewrite Hl in *. cbn [unwrap_or] in *. unfold len in *. lia.
Qed.

Lemma truncate_direct_ok (t : str) (size : Z) (planned : list PlannedChange) :
  0 ≤ size → reserved_for w0 [(t, Some size)] planned →
  wp (truncate_direct io others t size planned)
    (did w0 (<[data ++ [t] := plain (resize (Z.to_nat size) 0 (bytes_at (files_of w0) t))]> (files_of w0))
       {[t]}) w0.
Proof using Hi0 Hf0 Hlaws Halone.
  intros Hs Hres. eapply mutate_file; [done| |].
  - unfold len. rewrite length_resize. lia.
  - eapply wp_mono; [apply truncate_effect, plain_before|].
    intros [[]|[e| |]] d; cbn [outcome]; [by intros [_ ->]| |done|done]. by rewrite Z2Nat.id.
Qed.

Lemma remove_ok (t : str) (planned : list PlannedChange) :
  reserved_for w0 [(t, None)] planned →
  wp (write_direct io others t None planned)
    (did w0 (delete (data ++ [t]) (files_of w0)) {[t]}) w0.
Proof using Hi0 Hf0 Hlaws Halone.
  intros Hres. pose proof (rf_planned _ _ _ Hres) as [Ht Ha Hbef _].
  destruct planned as [|c [|c' planned]]; try discriminate. cbn in Ht, Ha. injection Ht as Ht. injection Ha as Ha.
  apply List.Forall_cons_iff in Hbef as [Hbef _].
  destruct (iv_live _ _ Hi0 Hf0) as (Hfiles & _ & _).
  replace ({[t]} : gset str) with (list_to_set [(t, None : option Z)].*1 : gset str)
    by (cbn; apply union_empty_r_L).
  unfold write_direct.
  eapply (mutate_ok _ _ _ _ (fun fs => fs = files_of w0 ∨ fs = delete (data ++ [t]) (files_of w0)));
    [done|apply NoDup_singleton| |by right| | |].
  - eapply wp_mono; [apply wp_remove_file|]. intros [[]|[e| |]] d; cbn [outcome]; auto.
  - intros fs Hfs. split; [|split].
    + destruct Hfs as [->| ->]; [by intros q _|apply same_but_alter].
    + intros t' _. destruct Hfs as [->| ->]; [by apply files_before|]. unfold file_at.
      destruct (delete (data ++ [t]) (files_of w0) !! (data ++ [t'])) as [n|] eqn:E; [|done].
      apply lookup_delete_Some in E as [_ E]. by destruct (Hfiles t' n E) as [-> _].
    + apply List.Forall_cons_iff. split; [|done]. unfold within_plan, growth_of, growth_entries_of.
      rewrite Ht, Ha, Hbef, Ht. destruct Hfs as [->| ->]; unfold size_at, file_at; [lia|].
      rewrite lookup_delete_eq. destruct (files_of w0 !! (data ++ [t])) as [n|]; cbn; [|lia].
      pose proof (len_nonneg (nd_bytes n)). unfold ENTRY_CHARGE. lia.
  - cbn [fmap list_fmap compose]. rewrite Ht, Ha. unfold size_at, file_at. by rewrite lookup_delete_eq.
  - intros t' n Hn. unfold file_at in Hn. apply lookup_delete_Some in Hn as [_ Hn].
    by apply (Hfiles t' n).
Qed.

Lemma renameat_file (from to : str) (n : Node) (fs fs' : gmap path Node) :
  from ≠ to → file_at fs from = Some n → nd_kind n = File →
  renameat (data ++ [from]) (data ++ [to]) fs = Ok fs' →
  fs' = <[data ++ [to] := n]> (delete (data ++ [from]) fs).
Proof using.
  intros Hne Hn Hk. unfold renameat. unfold file_at in Hn. rewrite Hn.
  rewrite bool_decide_eq_false_2 by (by rewrite data_path_inj). rewrite Hk.
  rewrite bool_decide_eq_false_2 by done. case_bool_decide; [done|]. by intros [= <-].
Qed.

Lemma rename_ok (from to : str) (b : list Z) (planned : list PlannedChange) :
  from ≠ to → file_at (files_of w0) from = Some (plain b) →
  reserved_for w0 [(from, None); (to, Some (len b))] planned →
  wp (result ⇚ attempt (on_disk (rename_to io data from to)); after_mutation io others result planned)
    (did w0 (<[data ++ [to] := plain b]> (delete (data ++ [from]) (files_of w0))) {[from; to]}) w0.
Proof using Hi0 Hf0 Hlaws Halone.
  intros Hne Hfrom Hres. pose proof (rf_planned _ _ _ Hres) as [Ht Ha Hbef Hlim].
  destruct planned as [|c [|c' [|c'' planned]]]; try discriminate.
  cbn in Ht, Ha. injection Ht as Ht Ht'. injection Ha as Ha Ha'.
  apply List.Forall_cons_iff in Hbef as [Hbef Hbef']. apply List.Forall_cons_iff in Hbef' as [Hbef' _].
  apply List.Forall_cons_iff in Hlim as [_ Hlim]. apply List.Forall_cons_iff in Hlim as [Hlim _].
  destruct (iv_live _ _ Hi0 Hf0) as (Hfiles & _ & _).
  replace ({[from; to]} : gset str)
    with (list_to_set [(from, None); (to, Some (len b))].*1 : gset str)
    by (cbn; by rewrite union_empty_r_L).
  set (fs1 := <[data ++ [to] := plain b]> (delete (data ++ [from]) (files_of w0))).
  assert (file_at fs1 from = None) as E1.
  { unfold fs1, file_at. rewrite lookup_insert_ne by (rewrite data_path_inj; congruence).
    apply lookup_delete_eq. }
  assert (file_at fs1 to = Some (plain b)) as E2 by apply lookup_insert_eq.
  eapply (mutate_ok _ _ _ _ (fun fs => fs = files_of w0 ∨ fs = fs1)); [done| | |by right| | |].
  - cbn. apply list.NoDup_cons. split; [by intros ->%list_elem_of_singleton|apply NoDup_singleton].
  - eapply wp_mono; [apply wp_rename_to|]. intros [[]|[e| |]] d; cbn [outcome]; [|by left|done|done].
    by apply renameat_file.
  - intros fs Hfs. split; [|split].
    + destruct Hfs as [->| ->]; [by intros q _|]. intros q Hq. unfold fs1.
      rewrite lookup_insert_ne, lookup_delete_ne; [done| |]; intros <-.
      * apply (Hq from); [left|done].
      * apply (Hq to); [right; left|done].
    + intros t' _. destruct Hfs as [->| ->]; [by apply files_before|]. unfold fs1, file_at.
      destruct (_ !! (data ++ [t'])) as [n|] eqn:E; [|done].
      apply lookup_insert_Some in E as [[_ <-]|[_ E]]; [done|]. apply lookup_delete_Some in E as [_ E].
      by destruct (Hfiles t' n E) as [-> _].
    + repeat (apply List.Forall_cons_iff; split); [| |done]; unfold within_plan, growth_of, growth_entries_of;
        rewrite ?Ht, ?Ha, ?Ht', ?Ha', ?Hbef, ?Hbef', ?Ht, ?Ht'; unfold size_at;
        destruct Hfs as [->| ->]; rewrite ?E1, ?E2, ?Hfrom;
        pose proof (len_nonneg b); cbn; unfold ENTRY_CHARGE, sat_sub_u64; try lia;
        destruct (file_at (files_of w0) to) as [n|]; cbn; unfold ENTRY_CHARGE; lia.
  - cbn [fmap list_fmap compose]. rewrite Ht, Ha, Ht', Ha'. unfold size_at. by rewrite E1, E2.
  - intros t' n Hn. unfold fs1, file_at in Hn. apply lookup_insert_Some in Hn as [[_ <-]|[_ Hn]]; [by split|].
    apply lookup_delete_Some in Hn as [_ Hn]. by apply (Hfiles t' n).
Qed.

End Mutate.

End Invariant.
