(* ===== verification/StorageOps.v ===== *)
(** * Operations of storage transactions

    What each operation of [vfs.rs] and [jsonl.rs] does: it keeps the
    invariant of [StorageTransaction], never panics, has its effect on the
    files when it returns a value, and when it returns an error has left them
    alone or has failed the transaction. *)

From Stdlib Require Import ZArith Lia Ascii String.
From stdpp Require Import base gmap strings list sorting numbers.
From S2P Require Import Prelude.
From S2P Require Import RustStr.
From S2P Require Import Capability.
From S2P Require Import StorageConfig.
From S2P Require Import Quota.
From S2P Require Import Keys.
From S2P Require Import StorageDir.
From S2P Require Import StorageScan.
From S2P Require Import StorageHandle.
From S2P Require Import StorageEffects.
From S2P Require Import StorageTransaction.

Abbreviation files_of w := (dk_files (w_disk w)).

Lemma pair_difference (a b : str) : ({[a; b]} ∖ {[a]} ∖ {[b]} : gset str) = ∅.
Proof. set_solver. Qed.

Lemma twice_difference (a : str) : (({[a]} ∪ {[a]}) ∖ {[a]} : gset str) = ∅.
Proof. set_solver. Qed.

(** ** Fields an operation does not touch *)

Definition keeps {F A : Type} (f : StorageHandle → F) (m : act World A) : Prop :=
  ∀ w, f (w_hd (m w).2) = f (w_hd w).

Lemma keeps_bind {F A B : Type} (f : StorageHandle → F) (m : act World A) (k : A → act World B) :
  keeps f m → (∀ a, keeps f (k a)) → keeps f (abind m k).
Proof.
  intros Hm Hk w. unfold abind. specialize (Hm w). destruct (m w) as [[a|e] w']; cbn in *; [|done].
  by rewrite Hk.
Qed.

Lemma keeps_attempt {F A : Type} (f : StorageHandle → F) (m : act World A) : keeps f m → keeps f (attempt m).
Proof. intros Hm w. unfold attempt. specialize (Hm w). by destruct (m w) as [[a|[]] w']. Qed.

Lemma keeps_on_disk {F A : Type} (f : StorageHandle → F) (m : act Disk A) : keeps f (on_disk m).
Proof. intros w. unfold on_disk. by destruct (m (w_disk w)). Qed.

Lemma keeps_on_ledger {F A : Type} (f : StorageHandle → F) others (m : locked A) :
  keeps f (on_ledger others m).
Proof. intros w. unfold on_ledger. by destruct (m _). Qed.

Lemma keeps_update {F : Type} (f : StorageHandle → F) (g : StorageHandle → StorageHandle) :
  (∀ h, f (g h) = f h) → keeps f (update g).
Proof. intros H w. apply H. Qed.

Lemma keeps_of_option {F A : Type} (f : StorageHandle → F) (e : StorageHostError) (o : option A) :
  keeps f (of_option e o).
Proof. intros w. by destruct o. Qed.

Lemma keeps_of_result {F A : Type} (f : StorageHandle → F) (r : result StorageHostError A) :
  keeps f (of_result r).
Proof. intros w. by destruct r. Qed.

(** Walks through the text of an operation. *)
Ltac keeps_walk :=
  repeat
    match goal with
    | |- keeps _ (on_disk _) => apply keeps_on_disk
    | |- keeps _ (on_ledger _ _) => apply keeps_on_ledger
    | |- keeps _ (attempt _) => apply keeps_attempt
    | |- keeps _ (abind _ _) => apply keeps_bind; [|intros ?]
    | |- keeps _ (update _) => apply keeps_update; intros ?; reflexivity
    | |- keeps _ (match ?x with _ => _ end) => destruct x
    | |- keeps _ (of_option _ _) => apply keeps_of_option
    | |- keeps _ (of_result _) => apply keeps_of_result
    | |- keeps _ (pure _) => intros ?w; reflexivity
    | |- keeps _ (raise _) => intros ?w; reflexivity
    | |- keeps _ self => intros ?w; reflexivity
    end.

Lemma plan_changes_keeps {F : Type} (f : StorageHandle → F) limits io changes plan :
  keeps f (plan_changes limits io changes plan).
Proof.
  revert plan. induction changes as [|[t o] changes IH]; intros plan; cbn [plan_changes]; [by intros w|].
  apply keeps_bind; [apply keeps_on_disk|]. intros m. apply keeps_bind; [|intros plan'; apply IH].
  keeps_walk.
Qed.

Lemma reserve_candidate_keeps_entries limits io others changes :
  keeps hd_entries (reserve_candidate limits io others changes).
Proof.
  unfold reserve_candidate. apply keeps_bind; [by intros w|]. intros h.
  apply keeps_bind; [apply plan_changes_keeps|]. intros plan. unfold note_quota_denial.
  keeps_walk.
Qed.

Section Operations.
Context (limits : StorageLimits).
Context (io : nat → Ending) (listing : gmap path Node → path → list str).
Context (others : nat → LedgerState → LedgerState).
Context (sha256 : list Z → list Z) (is_json : list Z → bool).
Context (ns : str) (Halone : leaves_alone others ns).
Context (Hfile : max_file_bytes limits < u64_max).

Section Client.
Context (client : nat → option Reservation → nat → LedgerState → Prop).
Context (Hlaws : client_laws limits others ns client).

Abbreviation Inv := (inv limits ns client ∅).
Abbreviation Quiet := (quiet limits ns client ∅).

(** The end of an operation from the world [w0]. *)
Definition settled (w0 : World) {A : Type} (Q : A → World → Prop) (r : result Exn A) (w' : World) : Prop :=
  Inv w'
  ∧ match r with
    | Ok a => Q a w'
    | Err (Throws _) => hd_failed (w_hd w') = true ∨ files_of w' = files_of w0
    | Err _ => False
    end.

Lemma settled_bind {A B : Type} (m : act World A) (k : A → act World B) (P : A → World → Prop)
    (Q : B → World → Prop) (w : World) :
  wp m (Quiet w P) w →
  (∀ a w', Inv w' → near w w' → P a w' → wp (k a) (settled w' Q) w') →
  wp (abind m k) (settled w Q) w.
Proof using.
  intros Hm Hk. eapply quiet_then; [exact Hm| |].
  - intros a w' Hi Hn HP. eapply wp_mono; [by apply Hk|]. intros r w'' [Hi' Hr]. split; [done|].
    destruct r as [b|[e| |]]; [done| |done|done]. by rewrite (nr_files _ _ Hn) in Hr.
  - intros e w' Hi Hn. split; [done|]. right. apply (nr_files _ _ Hn).
Qed.

Lemma settled_of_quiet {A : Type} (m : act World A) (P : A → World → Prop) (w : World) :
  wp m (Quiet w P) w → wp m (settled w (fun a w' => P a w' ∧ near w w')) w.
Proof using.
  intros Hm. eapply wp_mono; [exact Hm|]. intros r w' (Hi & Hn & Hr). split; [done|].
  destruct r as [a|[e| |]]; [done| |done|done]. right. apply (nr_files _ _ Hn).
Qed.

Lemma settled_weaken {A : Type} (m : act World A) (P Q : A → World → Prop) (w : World) :
  wp m (settled w P) w → (∀ a w', P a w' → Q a w') → wp m (settled w Q) w.
Proof using.
  intros Hm HPQ. eapply wp_mono; [exact Hm|]. intros r w' [Hi Hr]. split; [done|].
  destruct r as [a|[]]; auto.
Qed.

Lemma settled_raise {A : Type} (e : StorageHostError) (Q : A → World → Prop) (w : World) :
  Inv w → wp (raise e) (settled w Q) w.
Proof using. intros Hi. split; [done|]. by right. Qed.

Lemma settled_pure {A : Type} (a : A) (Q : A → World → Prop) (w : World) :
  Inv w → Q a w → wp (pure a) (settled w Q) w.
Proof using. by split. Qed.

(** A mutation, and what follows when it is done. *)
Lemma settled_did {B : Type} (m : act World unit) (k : unit → act World B) (fs1 : gmap path Node)
    (X : gset str) (Q : B → World → Prop) (w : World) :
  wp m (did limits ns client ∅ w fs1 X) w →
  (∀ u b ro d s n, let w' := mkWorld (redone u b ro false (w_hd w)) d s n in
     inv_but limits ns client X w' → dk_files d = fs1 → wp (k tt) (settled w Q) w') →
  wp (abind m k) (settled w Q) w.
Proof using.
  intros Hm Hk. eapply wp_step; [exact Hm| |].
  - intros [] w' (u & b & ro & f & d & s & n & -> & -> & Hi & Hd). rewrite union_empty_l_L in Hi. by apply Hk.
  - intros [e| |] w' (u & b & ro & f & d & s & n & -> & H); [|done|done]. destruct H as [-> Hi].
    split; [done|]. by left.
Qed.

(** The cached entry follows the mutation. *)
Lemma entry_settled (X : gset str) (w : World) (t : str) (e : FileEntry) (f : FileEntry → FileEntry) :
  inv_but limits ns client X w → hd_entries (w_hd w) !! t = Some e → entry_ok (files_of w) t (f e) →
  wp (update_entry t f)
    (fun r w' => r = Ok tt ∧ w' = on_handle (set_entries (<[t := f e]> (hd_entries (w_hd w)))) w
                 ∧ inv_but limits ns client (X ∖ {[t]}) w') w.
Proof using.
  intros [Hc Hr Hl Hh Hrd Hwr Hen Ho] He Hok. unfold update_entry. apply wp_bind, wp_reads.
  apply wp_bind. eapply wp_expect; [done|]. apply wp_modify. split; [done|]. split; [done|].
  constructor; hd_cbn; try done.
  - destruct (hd_reservation (w_hd w)); [|done]. by destruct Hr; constructor.
  - intros Hf. destruct (Hl Hf) as (Hfiles & Hent & Hcount). split; [done|]. split; [|done].
    intros t' e' [[<- <-]|[Hne Ht']]%lookup_insert_Some Hx; [done|]. apply (Hent t' e' Ht').
    intros HX. apply Hx. apply elem_of_difference. rewrite elem_of_singleton. by split.
  - intros k hs Hk. destruct (Hh k hs Hk) as [? Hs]. split; [done|].
    destruct (decide (t = hs_token hs)) as [->|]; [by rewrite lookup_insert_eq|by rewrite lookup_insert_ne].
Qed.

Lemma entry_settled_one {B : Type} (w0 w : World) (t : str) (e : FileEntry) (f : FileEntry → FileEntry)
    (k : unit → act World B) (Q : B → World → Prop) :
  inv_but limits ns client {[t]} w → hd_entries (w_hd w) !! t = Some e → entry_ok (files_of w) t (f e) →
  (let w' := on_handle (set_entries (<[t := f e]> (hd_entries (w_hd w)))) w in
   Inv w' → wp (k tt) (settled w0 Q) w') →
  wp (abind (update_entry t f) k) (settled w0 Q) w.
Proof using.
  intros Hi He Hok Hk. eapply wp_step; [by apply (entry_settled {[t]})| |by intros x w' [[=] _]].
  intros [] w' (_ & -> & Hi'). apply Hk. by rewrite difference_diag_L in Hi'.
Qed.

(** ** Operations that change no file *)

(** A step that reads the handle or checks a value. *)
Ltac op_step :=
  match goal with
  | |- wp (abind self _) _ _ => apply wp_bind, wp_reads
  | |- wp (abind (of_option _ _) _) (quiet _ _ _ _ _ _) _ =>
      apply wp_bind, wp_of_option; [intros ? ?Hval|intros _; split; [assumption|split; [reflexivity|exact I]]]
  | |- wp (of_option _ _) (quiet _ _ _ _ _ _) _ =>
      apply wp_of_option; [intros ? ?Hval|intros _; split; [assumption|split; [reflexivity|exact I]]]
  | |- wp (abind (of_option _ _) _) (settled _ _) _ =>
      apply wp_bind, wp_of_option; [intros ? ?Hval|intros _; split; [assumption|right; reflexivity]]
  | |- wp (raise _) (quiet _ _ _ _ _ _) _ => apply quiet_raise; assumption
  | |- wp (raise _) (settled _ _) _ => apply settled_raise; assumption
  end.

(** The next quiet operation, by its lemma. *)
Tactic Notation "op_next" uconstr(lem) "as" simple_intropattern(a) ident(w) ident(Hi) ident(Hn)
    simple_intropattern(H) :=
  first [eapply settled_bind|eapply quiet_bind]; [apply lem; (assumption || reflexivity)|]; intros a w Hi Hn H.

Lemma require_vfs_quiet (w : World) :
  Inv w → wp require_vfs (Quiet w (fun _ w' => w' = w ∧ hd_interface (w_hd w) = DurableFiles)) w.
Proof using.
  intros Hi. unfold require_vfs. op_step. destruct (hd_interface (w_hd w)) eqn:E; [op_step|].
  by apply quiet_pure.
Qed.

Lemma require_jsonl_quiet (w : World) :
  Inv w → wp require_jsonl (Quiet w (fun _ w' => w' = w ∧ hd_interface (w_hd w) = Jsonl)) w.
Proof using.
  intros Hi. unfold require_jsonl. op_step. destruct (hd_interface (w_hd w)) eqn:E; [|op_step].
  by apply quiet_pure.
Qed.

(** The start of every operation on files, and of every one on records. *)
Lemma vfs_call_quiet {A : Type} (k : act World A) (Q : A → World → Prop) (w : World) :
  Inv w →
  (∀ w', Inv w' → near w w' → hd_interface (w_hd w') = DurableFiles → hd_failed (w_hd w') = false →
     wp k (settled w' Q) w') →
  wp (_ ⇚ require_vfs; _ ⇚ note_call limits; k) (settled w Q) w.
Proof using.
  intros Hi Hk. op_next require_vfs_quiet as [] w1 Hi1 Hn1 [-> Hv].
  op_next note_call_quiet as [] w2 Hi2 Hn2 Hf. apply Hk; try done. by rewrite (nr_interface _ _ Hn2).
Qed.

Lemma jsonl_call_quiet {A : Type} (k : act World A) (Q : A → World → Prop) (w : World) :
  Inv w →
  (∀ w', Inv w' → near w w' → hd_interface (w_hd w') = Jsonl → hd_failed (w_hd w') = false →
     wp k (settled w' Q) w') →
  wp (_ ⇚ require_jsonl; _ ⇚ note_call limits; k) (settled w Q) w.
Proof using.
  intros Hi Hk. op_next require_jsonl_quiet as [] w1 Hi1 Hn1 [-> Hv].
  op_next note_call_quiet as [] w2 Hi2 Hn2 Hf. apply Hk; try done. by rewrite (nr_interface _ _ Hn2).
Qed.

(** What the cache knows of a file that is in it. *)
Lemma cached_entry (w : World) (t : str) (e : FileEntry) :
  Inv w → hd_failed (w_hd w) = false → hd_entries (w_hd w) !! t = Some e →
  entry_ok (files_of w) t e ∧ FileEntry_size e = size_at (files_of w) t.
Proof using.
  intros Hi Hf He. destruct (iv_live _ _ _ _ _ Hi Hf) as (_ & Hent & _).
  pose proof (Hent t e He (not_elem_of_empty t)) as Hok. split; [done|].
  unfold entry_ok in Hok. unfold FileEntry_size, size_at. destruct (file_at (files_of w) t) as [n|].
  - destruct Hok as (-> & -> & _). done.
  - by destruct Hok as (-> & _).
Qed.

Lemma logical_token_near (w w' : World) (name : str) :
  near w w' → logical_token sha256 (w_hd w') name = logical_token sha256 (w_hd w) name.
Proof using. intros Hn. unfold logical_token. by rewrite (nr_base _ _ Hn), (nr_generation _ _ Hn). Qed.

Lemma vfs_stat_ok (name : str) (w : World) :
  Inv w →
  wp (vfs_stat limits io sha256 name)
    (settled w (fun o w' => files_of w' = files_of w
       ∧ ∃ t, logical_token sha256 (w_hd w) name = Ok t ∧ st_size <$> o = size_at (files_of w) t)) w.
Proof using.
  intros Hi. unfold vfs_stat. apply vfs_call_quiet; [done|]. intros w1 Hi1 Hn1 _ Hf1.
  op_next ensure_entry_quiet as t w2 Hi2 Hn2 [[e He] Ht].
  op_next (entry_quiet _ _ _ _ t w2 e) as e' w3 Hi3 Hn3 [-> ->].
  assert (hd_failed (w_hd w2) = false) as Hf2 by (by rewrite (nr_failed _ _ Hn2)).
  destruct (cached_entry w2 t e Hi2 Hf2 He) as [_ Hsize].
  apply settled_pure; [done|]. split; [by rewrite (nr_files _ _ Hn2), (nr_files _ _ Hn1)|].
  exists t. split; [by rewrite <- (logical_token_near w w1)|].
  rewrite <- (nr_files _ _ Hn1), <- (nr_files _ _ Hn2), <- Hsize. by destruct (FileEntry_size e).
Qed.

Lemma vfs_size_ok (handle : Z) (w : World) :
  Inv w →
  wp (vfs_size limits handle)
    (settled w (fun size w' => files_of w' = files_of w
       ∧ ∃ hs, hd_handles (w_hd w) !! handle = Some hs ∧ size_at (files_of w) (hs_token hs) = Some size)) w.
Proof using.
  intros Hi. unfold vfs_size. apply vfs_call_quiet; [done|]. intros w1 Hi1 Hn1 _ Hf1. op_step. op_step.
  apply wp_of_option; [|intros _; split; [done|by right]]. intros size (e & He & Hs)%bind_Some.
  destruct (cached_entry w1 _ e Hi1 Hf1 He) as [_ Hsize]. split; [done|]. split; [apply (nr_files _ _ Hn1)|].
  exists a. rewrite (nr_handles _ _ Hn1), (nr_files _ _ Hn1) in *. split; [done|congruence].
Qed.

(** Bytes of a read: those there are, at most what was asked for. *)
Definition read_of (offset maximum : Z) (content b : list Z) : Prop :=
  ∃ k, 0 < k ∧ b = take (Z.to_nat (Z.min k maximum)) (drop (Z.to_nat offset) content).

Lemma read_at_quiet (t : str) (offset maximum size : Z) (w : World) :
  Inv w → size_at (files_of w) t = Some size → 0 ≤ offset ≤ size →
  wp (on_disk (read_at io data t offset (Z.min maximum (size - offset))))
    (Quiet w (fun b w' => ∃ n, file_at (files_of w) t = Some n ∧ read_of offset maximum (nd_bytes n) b)) w.
Proof using.
  intros Hi Hs Ho. eapply quiet_weaken.
  { apply (quiet_disk _ _ _ _ _ (fun b fs => ∃ n, file_at (files_of w) t = Some n
                                                ∧ read_of offset maximum (nd_bytes n) b)); [done|].
    eapply wp_mono; [apply wp_read_at|]. intros [b|[]] d; cbn [outcome]; [|done|done|done].
    intros (Hd & n & k & Hn & _ & Hk & ->). split; [done|]. exists n. rewrite Hd in Hn. split; [done|].
    exists k. split; [done|]. unfold size_at, file_at in Hs. rewrite Hn in Hs. cbn in Hs. injection Hs as Hs.
    unfold len in Hs. destruct (decide (Z.min k maximum ≤ size - offset)).
    - f_equal. lia.
    - rewrite !take_ge; [done| |]; rewrite length_drop; lia. }
  intros b w' [H _]. exact H.
Qed.

Lemma vfs_read_at_ok (handle offset maximum : Z) (w : World) :
  Inv w → 0 ≤ offset →
  wp (vfs_read_at limits io handle offset maximum)
    (settled w (fun b w' => files_of w' = files_of w
       ∧ ∃ hs n, hd_handles (w_hd w) !! handle = Some hs ∧ hs_read hs = true
                 ∧ file_at (files_of w) (hs_token hs) = Some n
                 ∧ read_of offset maximum (nd_bytes n) b)) w.
Proof using.
  intros Hi Ho. unfold vfs_read_at. apply vfs_call_quiet; [done|]. intros w1 Hi1 Hn1 _ Hf1.
  op_next charge_read_quiet as [] w2 Hi2 Hn2 _. op_step. op_step. rename a into hs.
  assert (hd_failed (w_hd w2) = false) as Hf2 by (by rewrite (nr_failed _ _ Hn2)).
  destruct (negb (hs_read hs)) eqn:Hr; [op_step|]. apply negb_false_iff in Hr. op_step. rename a into e. op_step.
  rename a into size. destruct (cached_entry w2 _ e Hi2 Hf2 Hval0) as [_ Hsize].
  rewrite Hval1 in Hsize. symmetry in Hsize.
  assert (files_of w2 = files_of w) as Ef by (by rewrite (nr_files _ _ Hn2), (nr_files _ _ Hn1)).
  assert (hd_handles (w_hd w2) = hd_handles (w_hd w)) as Eh
    by (by rewrite (nr_handles _ _ Hn2), (nr_handles _ _ Hn1)).
  destruct (size <=? offset) eqn:Eo.
  - apply Z.leb_le in Eo. apply settled_pure; [done|]. split; [done|]. rewrite <- Ef, <- Eh.
    unfold size_at in Hsize. destruct (file_at (files_of w2) (hs_token hs)) as [n|] eqn:En; [|done].
    exists hs, n. split; [done|]. split; [done|]. split; [done|]. exists 1. split; [done|].
    cbn in Hsize. injection Hsize as Hsize. unfold len in Hsize. rewrite drop_ge by lia. by rewrite take_nil.
  - apply Z.leb_gt in Eo. eapply settled_weaken; [apply settled_of_quiet, read_at_quiet; [done|done|lia]|].
    intros b w' [(n & Hn & Hb) Hnear]. split; [by rewrite (nr_files _ _ Hnear)|].
    exists hs, n. rewrite <- Ef, <- Eh. done.
Qed.

Lemma evidence_quiet (ev : OperationEvidence) (w : World) :
  Inv w → wp (update (set_evidence ev)) (Quiet w (fun _ _ => True)) w.
Proof using.
  intros Hi. apply quiet_update_as; [|by apply near_on_handle|done]. apply inv_counters; [done|].
  destruct Hi. hd_cbn. done.
Qed.

Lemma vfs_sync_ok (handle : Z) (w : World) :
  Inv w → wp (vfs_sync limits io handle) (settled w (fun _ w' => files_of w' = files_of w)) w.
Proof using.
  intros Hi. unfold vfs_sync. apply vfs_call_quiet; [done|]. intros w1 Hi1 Hn1 _ Hf1. op_step. op_step.
  op_next open_private_quiet as [] w2 Hi2 Hn2 _. op_next works_quiet as [] w3 Hi3 Hn3 _.
  op_next works_quiet as [] w4 Hi4 Hn4 _. op_step. op_step.
  eapply settled_weaken; [by apply settled_of_quiet, evidence_quiet|]. intros [] w5 [_ Hn5].
  by rewrite (nr_files _ _ Hn5), (nr_files _ _ Hn4), (nr_files _ _ Hn3), (nr_files _ _ Hn2), (nr_files _ _ Hn1).
Qed.

Lemma vfs_random_bytes_ok (fill : Z → option (list Z)) (length : Z) (w : World) :
  Inv w →
  wp (vfs_random_bytes limits fill length)
    (settled w (fun b w' => files_of w' = files_of w ∧ fill length = Some b)) w.
Proof using.
  intros Hi. unfold vfs_random_bytes. apply vfs_call_quiet; [done|]. intros w1 Hi1 Hn1 _ Hf1.
  op_next charge_entropy_quiet as [] w2 Hi2 Hn2 _.
  apply wp_of_option; [|intros _; split; [done|by right]]. intros b Hb. split; [done|].
  by rewrite (nr_files _ _ Hn2), (nr_files _ _ Hn1).
Qed.

Lemma vfs_clock_ok {A : Type} (m : act World A) (P : A → Prop) (w : World) :
  Inv w → (∀ w', Inv w' → wp m (Quiet w' (fun a _ => P a)) w') →
  wp (_ ⇚ require_vfs; _ ⇚ note_call limits; m) (settled w (fun a w' => files_of w' = files_of w ∧ P a)) w.
Proof using.
  intros Hi Hm. apply vfs_call_quiet; [done|]. intros w1 Hi1 Hn1 _ Hf1.
  eapply settled_weaken; [by apply settled_of_quiet, Hm|]. intros a w' [HP Hn]. split; [|done].
  by rewrite (nr_files _ _ Hn), (nr_files _ _ Hn1).
Qed.

(** ** Operations that change files *)

(** The world of an operation after quiet steps. *)
Lemma failed_near (w w' : World) : near w w' → hd_failed (w_hd w) = false → hd_failed (w_hd w') = false.
Proof using. intros Hn. by rewrite (nr_failed _ _ Hn). Qed.

(** What a write leaves: an empty write past the end lengthens the file. *)
Definition written (offset : Z) (b old : list Z) : list Z :=
  if is_nil b && (len old <? offset) then resize (Z.to_nat offset) 0 old
  else overwrite (Z.to_nat offset) b old.

(** A file of a handle that the cache knows. *)
Lemma cached_file (w : World) (t : str) (l : Z) :
  Inv w → hd_failed (w_hd w) = false → hd_entries (w_hd w) !! t ≫= FileEntry_size = Some l →
  is_Some (hd_entries (w_hd w) !! t) ∧ size_at (files_of w) t = Some l.
Proof using.
  intros Hi Hf (e & He & Hs)%bind_Some. destruct (cached_entry w t e Hi Hf He) as [_ Hsize].
  split; [by eauto|congruence].
Qed.

Lemma present_ok (fs : gmap path Node) (t : str) (e : FileEntry) (b : list Z) (l : Z) :
  len b = l → entry_ok (<[data ++ [t] := plain b]> fs) t (present l e).
Proof using. intros <-. unfold entry_ok. by rewrite file_at_insert. Qed.

Lemma absent_ok (fs : gmap path Node) (t : str) (e : FileEntry) :
  entry_ok (delete (data ++ [t]) fs) t (absent e).
Proof using. unfold entry_ok, file_at. by rewrite lookup_delete_eq. Qed.

(** The end of a mutation of one file. *)
Lemma settled_file (m : act World unit) (w : World) (t : str) (fs1 : gmap path Node)
    (f : FileEntry → FileEntry) (Q : unit → World → Prop) :
  wp m (did limits ns client ∅ w fs1 {[t]}) w → is_Some (hd_entries (w_hd w) !! t) →
  (∀ e, entry_ok fs1 t (f e)) →
  (∀ w', files_of w' = fs1 → hd_handles (w_hd w') = hd_handles (w_hd w) → hd_failed (w_hd w') = false →
     Q tt w') →
  wp (_ ⇚ m; update_entry t f) (settled w Q) w.
Proof using.
  intros Hm [e He] Hok HQ. eapply settled_did; [exact Hm|]. intros u b ro d s n w' Hi' Hd.
  eapply wp_mono; [apply (entry_settled {[t]}); [done|exact He|]|].
  { unfold w'. cbn [w_disk]. by rewrite Hd. }
  intros r w2 (-> & -> & Hi2). rewrite difference_diag_L in Hi2. split; [done|]. by apply HQ.
Qed.

Lemma written_len (offset : Z) (b old : list Z) :
  0 ≤ offset → len (written offset b old) = Z.max (len old) (offset + len b).
Proof using.
  intros Ho. unfold written. destruct b as [|x b]; cbn [is_nil andb].
  - change (len []) with 0. destruct (len old <? offset) eqn:E; dk_bool.
    + unfold len in *. rewrite length_resize. lia.
    + unfold overwrite. cbn [is_nil]. lia.
  - unfold overwrite, len. cbn [is_nil].
    rewrite !length_app, length_take, length_drop, !length_app, length_replicate. lia.
Qed.

(** Both ways to write leave the same. *)
Lemma write_ok (w : World) (t : str) (offset l : Z) (b : list Z) (planned : list PlannedChange) :
  Inv w → hd_failed (w_hd w) = false → 0 ≤ offset → size_at (files_of w) t = Some l →
  reserved_for limits w [(t, Some (Z.max l (offset + len b)))] planned →
  wp (if is_nil b && (l <? offset + len b) then truncate_direct io others t (offset + len b) planned
      else write_range io others t offset b planned)
    (did limits ns client ∅ w
       (<[data ++ [t] := plain (written offset b (bytes_at (files_of w) t))]> (files_of w)) {[t]}) w.
Proof using Hlaws Halone.
  intros Hi Hf Ho Hl Hres. pose proof (bytes_at_len w _ _ Hl) as Hlen. unfold written. rewrite Hlen.
  destruct b as [|x b]; cbn [is_nil andb].
  - change (len []) with 0 in *. rewrite Z.add_0_r in *. destruct (l <? offset) eqn:E; dk_bool.
    + rewrite Z.max_r in Hres by lia. by apply truncate_direct_ok.
    + eapply write_range_ok; try done; [|change (len []) with 0; by rewrite Z.add_0_r]. intros [_ ?]. lia.
  - eapply write_range_ok; try done. by intros [? _].
Qed.

Lemma vfs_write_at_ok (handle offset : Z) (b : list Z) (w : World) :
  Inv w → 0 ≤ offset →
  wp (vfs_write_at limits io others handle offset b)
    (settled w (fun _ w' => ∃ hs n, hd_handles (w_hd w) !! handle = Some hs ∧ hs_write hs = true
       ∧ file_at (files_of w) (hs_token hs) = Some n
       ∧ files_of w' = <[data ++ [hs_token hs] := plain (written offset b (nd_bytes n))]> (files_of w))) w.
Proof using Hlaws Halone.
  intros Hi Ho. unfold vfs_write_at. apply vfs_call_quiet; [done|]. intros w1 Hi1 Hn1 _ Hf1.
  op_step. op_step. rename a into hs. destruct (negb (hs_write hs)) eqn:Hw; [op_step|].
  apply negb_false_iff in Hw. op_step. rename a into l. destruct (cached_file w1 _ l Hi1 Hf1 Hval0) as [Hcached Hl].
  op_step. apply checked_add_u64_Some in Hval1 as [-> Hend].
  op_next charge_write_quiet as [] w2 Hi2 Hn2 _.
  op_next reserve_candidate_quiet as planned w3 Hi3 Hn3 Hres.
  assert (near w1 w3) as Hn13 by (by etransitivity). pose proof (failed_near _ _ Hn13 Hf1) as Hf3.
  assert (size_at (files_of w3) (hs_token hs) = Some l) as Hl3 by (by rewrite (nr_files _ _ Hn13)).
  eapply settled_file; [by apply write_ok|by apply (nr_entries _ _ Hn13)| |].
  - intros e. apply present_ok. by rewrite written_len, (bytes_at_len w3 _ _ Hl3).
  - intros w' Hw' _ _. unfold size_at in Hl3.
    destruct (file_at (files_of w3) (hs_token hs)) as [n|] eqn:En; [|done].
    exists hs, n. rewrite <- (nr_handles _ _ Hn1), <- (nr_files _ _ Hn1), <- (nr_files _ _ Hn13).
    split; [done|]. split; [done|]. split; [done|]. rewrite Hw'. unfold bytes_at. by rewrite En.
Qed.

Lemma vfs_truncate_ok (handle size : Z) (w : World) :
  Inv w → 0 ≤ size →
  wp (vfs_truncate limits io others handle size)
    (settled w (fun _ w' => ∃ hs n, hd_handles (w_hd w) !! handle = Some hs ∧ hs_write hs = true
       ∧ file_at (files_of w) (hs_token hs) = Some n
       ∧ files_of w' = <[data ++ [hs_token hs] := plain (resize (Z.to_nat size) 0 (nd_bytes n))]> (files_of w))) w.
Proof using Hlaws Halone.
  intros Hi Ho. unfold vfs_truncate. apply vfs_call_quiet; [done|]. intros w1 Hi1 Hn1 _ Hf1.
  op_step. op_step. rename a into hs. destruct (negb (hs_write hs)) eqn:Hw; [op_step|].
  apply negb_false_iff in Hw. op_step. rename a into l. destruct (cached_file w1 _ l Hi1 Hf1 Hval0) as [Hcached Hl].
  op_next charge_write_quiet as [] w2 Hi2 Hn2 _.
  op_next reserve_candidate_quiet as planned w3 Hi3 Hn3 Hres.
  assert (near w1 w3) as Hn13 by (by etransitivity). pose proof (failed_near _ _ Hn13 Hf1) as Hf3.
  assert (size_at (files_of w3) (hs_token hs) = Some l) as Hl3 by (by rewrite (nr_files _ _ Hn13)).
  eapply settled_file; [by apply truncate_direct_ok|by apply (nr_entries _ _ Hn13)| |].
  - intros e. apply present_ok. unfold len. rewrite length_resize. lia.
  - intros w' Hw' _ _. unfold size_at in Hl3.
    destruct (file_at (files_of w3) (hs_token hs)) as [n|] eqn:En; [|done].
    exists hs, n. rewrite <- (nr_handles _ _ Hn1), <- (nr_files _ _ Hn1), <- (nr_files _ _ Hn13).
    split; [done|]. split; [done|]. split; [done|]. rewrite Hw'. unfold bytes_at. by rewrite En.
Qed.

Lemma vfs_remove_ok (name : str) (w : World) :
  Inv w →
  wp (vfs_remove limits io others sha256 name)
    (settled w (fun _ w' => ∃ t, logical_token sha256 (w_hd w) name = Ok t
       ∧ is_Some (file_at (files_of w) t) ∧ files_of w' = delete (data ++ [t]) (files_of w))) w.
Proof using Hlaws Halone.
  intros Hi. unfold vfs_remove. apply vfs_call_quiet; [done|]. intros w1 Hi1 Hn1 _ Hf1.
  op_next charge_write_quiet as [] w2 Hi2 Hn2 _. pose proof (failed_near _ _ Hn2 Hf1) as Hf2.
  op_next ensure_entry_quiet as t w3 Hi3 Hn3 [[e He] Ht]. pose proof (failed_near _ _ Hn3 Hf2) as Hf3.
  op_step. destruct (in_use (w_hd w3) t); [op_step|].
  op_next (entry_quiet _ _ _ _ t w3 e) as e' w4 Hi4 Hn4 [-> ->].
  destruct (negb (fe_exists e)) eqn:Hex; [op_step|]. apply negb_false_iff in Hex.
  destruct (cached_entry w3 t e Hi3 Hf3 He) as [Hok _].
  op_next reserve_candidate_quiet as planned w4 Hi4' Hn4' Hres. pose proof (failed_near _ _ Hn4' Hf3) as Hf4.
  eapply settled_file; [by apply remove_ok|by apply (nr_entries _ _ Hn4'); eauto| |].
  - intros e'. apply absent_ok.
  - intros w' Hw' _ _. exists t. rewrite <- (logical_token_near w w2) by (by etransitivity). split; [done|].
    rewrite Hw', (nr_files _ _ Hn4'). rewrite <- (nr_files _ _ Hn1), <- (nr_files _ _ Hn2), <- (nr_files _ _ Hn3).
    split; [|done]. unfold entry_ok in Hok. destruct (file_at (files_of w3) t); [done|].
    destruct Hok as [? _]. congruence.
Qed.

Lemma wp_assoc {A B D : Type} (m : act World A) (f : A → act World B) (k : B → act World D)
    (Q : result Exn D → World → Prop) (w : World) :
  wp (abind (abind m f) k) Q w → wp (abind m (fun a => abind (f a) k)) Q w.
Proof using. unfold wp, abind. by destruct (m w) as [[a|e] w']. Qed.

Lemma vfs_rename_ok (from to : str) (replace : bool) (w : World) :
  Inv w →
  wp (vfs_rename_atomic limits io others sha256 from to replace)
    (settled w (fun _ w' => ∃ tf tt', logical_token sha256 (w_hd w) from = Ok tf
       ∧ logical_token sha256 (w_hd w) to = Ok tt'
       ∧ (tf = tt' ∧ files_of w' = files_of w
          ∨ tf ≠ tt' ∧ (replace = true ∨ file_at (files_of w) tt' = None)
            ∧ ∃ n, file_at (files_of w) tf = Some n
                   ∧ files_of w' = <[data ++ [tt'] := n]> (delete (data ++ [tf]) (files_of w))))) w.
Proof using Hlaws Halone.
  intros Hi. unfold vfs_rename_atomic. apply vfs_call_quiet; [done|]. intros w1 Hi1 Hn1 _ Hf1.
  op_next charge_write_quiet as [] w2 Hi2 Hn2 _. pose proof (failed_near _ _ Hn2 Hf1) as Hf2.
  op_next ensure_entry_quiet as tf w3 Hi3 Hn3 [Htf Etf]. pose proof (failed_near _ _ Hn3 Hf2) as Hf3.
  op_next ensure_entry_quiet as t w4 Hi4 Hn4 [[e2 He2] Et]. pose proof (failed_near _ _ Hn4 Hf3) as Hf4.
  rewrite (logical_token_near w2 w3) in Et by done.
  assert (near w w2) as Hn02 by (by etransitivity).
  rewrite (logical_token_near w w2) in Et, Etf by done.
  assert (files_of w4 = files_of w) as Ew4
    by (by rewrite (nr_files _ _ Hn4), (nr_files _ _ Hn3), (nr_files _ _ Hn02)).
  destruct (str_eqb tf t) eqn:Eq.
  { apply str_eqb_eq in Eq. apply settled_pure; [done|]. exists tf, t. by auto. }
  apply str_eqb_neq in Eq. op_step. destruct (in_use (w_hd w4) tf || in_use (w_hd w4) t); [op_step|].
  destruct (nr_entries _ _ Hn4 tf Htf) as [e1 He1].
  op_next (entry_quiet _ _ _ _ tf w4 e1) as e1' w5 Hi5 Hn5 [-> ->].
  op_next (entry_quiet _ _ _ _ t w4 e2) as e2' w6 Hi6 Hn6 [-> ->].
  op_step. rename a into l. destruct (negb replace && fe_exists e2) eqn:Erep; [op_step|].
  destruct (cached_entry w4 tf e1 Hi4 Hf4 He1) as [_ Hs1], (cached_entry w4 t e2 Hi4 Hf4 He2) as [Hok2 _].
  rewrite Hval in Hs1. symmetry in Hs1.
  op_next reserve_candidate_quiet as planned w5 Hi7 Hn7 Hres. pose proof (failed_near _ _ Hn7 Hf4) as Hf5.
  unfold size_at in Hs1. destruct (file_at (files_of w4) tf) as [n|] eqn:En; [|done]. cbn in Hs1. injection Hs1 as <-.
  rewrite <- (nr_files _ _ Hn7) in En. pose proof (plain_before limits ns client ∅ w5 Hi7 Hf5 tf n En) as Eplain.
  rewrite Eplain in En. apply wp_assoc. eapply settled_did; [by apply rename_ok|].
  intros u b ro d s m w' Hi' Hd.
  destruct (nr_entries _ _ Hn7 tf) as [f1 Hf1']; [by eauto|]. destruct (nr_entries _ _ Hn7 t) as [f2 Hf2']; [by eauto|].
  eapply wp_step; [apply (entry_settled {[tf; t]} w' tf f1 absent); [done|exact Hf1'|]| |by intros x ? [[=] _]].
  { unfold w', entry_ok, file_at. cbn [w_disk]. rewrite Hd, lookup_insert_ne, lookup_delete_eq; [done|].
    rewrite data_path_inj. congruence. }
  intros [] w6 (_ & -> & Hi8).
  eapply wp_mono; [apply (entry_settled ({[tf; t]} ∖ {[tf]}) _ t f2); [done| |]|].
  { hd_cbn. rewrite lookup_insert_ne by done. exact Hf2'. }
  { unfold w', on_handle. cbn [w_disk]. rewrite Hd. by apply (present_ok _ t f2). }
  intros r w7 (-> & -> & Hi9). rewrite pair_difference in Hi9.
  split; [done|]. exists tf, t. split; [done|]. split; [done|]. right. split; [done|].
  rewrite (nr_files _ _ Hn7), Ew4 in *. split.
  - apply andb_false_iff in Erep as [E|E]; [left; by apply negb_false_iff|right].
    unfold entry_ok in Hok2. destruct (file_at (files_of w) t); [|done].
    destruct Hok2 as [? _]. congruence.
  - exists n. rewrite Eplain. split; [done|]. unfold w', on_handle. cbn [w_disk]. rewrite Hd. done.
Qed.

(** ** Records *)

Lemma inv_but_mono (X Y : gset str) (w : World) :
  X ⊆ Y → inv_but limits ns client X w → inv_but limits ns client Y w.
Proof using.
  intros Hsub [Hc Hr Hl Hh Hrd Hwr Hen Ho]. constructor; try done. intros Hf.
  destruct (Hl Hf) as (Hfiles & Hent & Hcount). split; [done|]. split; [|done].
  intros t e He Ht. apply (Hent t e He). intros HX. by apply Ht, Hsub.
Qed.

Lemma wp_and {A : Type} (m : act World A) (P Q : result Exn A → World → Prop) (w : World) :
  wp m P w → wp m Q w → wp m (fun r w' => P r w' ∧ Q r w') w.
Proof using. by split. Qed.

(** The data of an entry is taken out while its replacement is reserved, and
    put back if it is not. *)
Lemma append_reserve (w : World) (t : str) (e : FileEntry) (new : Z) :
  Inv w → hd_failed (w_hd w) = false → hd_entries (w_hd w) !! t = Some e →
  wp (_ ⇚ update_entry t (set_data None); attempt (reserve_candidate limits io others [(t, Some new)]))
    (fun r w' => inv limits ns client {[t]} w' ∧ near w w'
       ∧ hd_entries (w_hd w') !! t = Some (set_data None e)
       ∧ match r with
         | Ok (Ok planned) => reserved_for limits w' [(t, Some new)] planned
         | Ok (Err _) => True
         | Err _ => False
         end) w.
Proof using Hlaws Halone.
  intros Hi Hf He. set (w1 := on_handle (set_entries (<[t := set_data None e]> (hd_entries (w_hd w)))) w).
  assert (inv limits ns client {[t]} w1) as Hi1.
  { apply inv_entry; [|by intros _ []%not_elem_of_singleton]. by apply (inv_but_mono ∅). }
  assert (near w w1) as Hn1 by apply near_entry.
  unfold update_entry. apply wp_bind, wp_bind, wp_reads. apply wp_bind. eapply wp_expect; [done|]. apply wp_modify.
  change (on_handle _ w) with w1. apply wp_attempt.
  eapply wp_mono.
  { apply (wp_and _ (quiet limits ns client {[t]} w1 (fun planned w' => reserved_for limits w' [(t, Some new)] planned))
             (fun _ w' => hd_entries (w_hd w') = hd_entries (w_hd w1))).
    - by apply reserve_candidate_quiet.
    - apply (reserve_candidate_keeps_entries limits io others [(t, Some new)] w1). }
  intros r w' [(Hi' & Hn' & Hr) Hk].
  assert (hd_entries (w_hd w') !! t = Some (set_data None e)) as Ht by (rewrite Hk; apply lookup_insert_eq).
  assert (near w w') as Hnear by (exact (transitivity Hn1 Hn')).
  destruct r as [planned|[x| |]]; [done|done|done|done].
Qed.

Lemma mirrored_ok (fs : gmap path Node) (t : str) (e : FileEntry) (b : list Z) :
  entry_ok (<[data ++ [t] := plain b]> fs) t (mirrored b e).
Proof using. unfold entry_ok. by rewrite file_at_insert. Qed.

(** Whether the record is one line of JSON. *)
Definition record_ok (record : list Z) : Prop :=
  (LF ∉ record) ∧ (CR ∉ record) ∧ is_json record = true.

Lemma jsonl_append_ok (name : str) (expected : Z) (record : list Z) (w : World) :
  Inv w →
  wp (jsonl_append limits io others sha256 is_json name expected record)
    (settled w (fun size w' => ∃ t old, logical_token sha256 (w_hd w) name = Ok t ∧ record_ok record
       ∧ old = bytes_at (files_of w) t ∧ len old = expected ∧ size = len (old ++ record ++ [LF])
       ∧ files_of w' = <[data ++ [t] := plain (old ++ record ++ [LF])]> (files_of w))) w.
Proof using Hlaws Halone Hfile.
  intros Hi. unfold jsonl_append. apply jsonl_call_quiet; [done|]. intros w1 Hi1 Hn1 _ Hf1.
  destruct (_ || _) eqn:Hrec; [op_step|]. rewrite !orb_false_iff, negb_false_iff, !mem_false in Hrec.
  op_step. op_next charge_write_quiet as [] w2 Hi2 Hn2 _. pose proof (failed_near _ _ Hn2 Hf1) as Hf2.
  op_next ensure_loaded_quiet as t w3 Hi3 Hn3 (Ht & e & He & Hdata).
  pose proof (failed_near _ _ Hn3 Hf2) as Hf3.
  op_next (entry_quiet _ _ _ _ t w3 e) as e' w4 Hi4 Hn4 [-> ->].
  assert (unwrap_or (fe_data e) [] = bytes_at (files_of w3) t) as Ecur.
  { rewrite Hdata. unfold bytes_at. by destruct (file_at (files_of w3) t). }
  rewrite Ecur. set (old := bytes_at (files_of w3) t) in *. destruct (negb (_ =? _)) eqn:Hlen; [op_step|].
  apply negb_false_iff, Z.eqb_eq in Hlen. cbv zeta. apply wp_assoc.
  destruct (cached_entry w3 t e Hi3 Hf3 He) as [Hok _].
  eapply wp_step; [by apply append_reserve| |by intros x w' (_ & _ & _ & [])].
  intros reserved w5 (Hi5 & Hn5 & He5 & Hres). pose proof (failed_near _ _ Hn5 Hf3) as Hf5.
  destruct reserved as [planned|error].
  - eapply wp_step; [eapply (write_direct_ok limits io others ns client); done| |].
    2:{ intros [x| |] w6 (u & b & ro & f & d & s & n & -> & H); [|done|done]. destruct H as [-> Hi6].
        split; [done|]. by left. }
    intros [] w6 (u & b & ro & f & d & s & n & -> & -> & Hi6 & Hd).
    eapply wp_step; [apply (entry_settled ({[t]} ∪ {[t]})); [done|exact He5|]| |by intros x w' [[=] _]].
    { cbn [w_disk]. rewrite Hd. apply mirrored_ok. }
    intros [] w7 (_ & -> & Hi7). rewrite twice_difference in Hi7.
    split; [done|]. exists t, old. rewrite (logical_token_near w w2) in Ht by (by etransitivity).
    split; [done|]. split; [split; [|split]; apply Hrec|].
    assert (files_of w5 = files_of w) as Ew
      by (by rewrite (nr_files _ _ Hn5), (nr_files _ _ Hn3), (nr_files _ _ Hn2), (nr_files _ _ Hn1)).
    split; [unfold old; by rewrite <- (nr_files _ _ Hn5), Ew|]. split; [done|]. split; [done|].
    unfold on_handle, pure. cbn [fst snd w_disk]. by rewrite Hd, Ew.
  - eapply wp_step; [apply (entry_settled {[t]}); [done|exact He5|]| |by intros x w' [[=] _]].
    + unfold entry_ok in *. rewrite (nr_files _ _ Hn5). unfold old, bytes_at. 
      destruct (file_at (files_of w3) t) as [n|]; rewrite Hdata; cbn; [|by destruct Hok as (-> & -> & _)].
      destruct Hok as (-> & -> & Hl). split; [done|]. split; [done|].
      rewrite take_app_length. destruct (fe_loaded e); [done|]. by rewrite Hdata in Hl.
    + intros [] w7 (_ & -> & Hi7). rewrite difference_diag_L in Hi7. split; [done|]. right.
      apply (nr_files _ _ Hn5).
Qed.

Lemma jsonl_replace_ok (name : str) (expected : Z) (contents : list Z) (w : World) :
  Inv w →
  wp (jsonl_replace limits io others sha256 is_json name expected contents)
    (settled w (fun _ w' => ∃ t, logical_token sha256 (w_hd w) name = Ok t
       ∧ valid_jsonl is_json contents = true ∧ len (bytes_at (files_of w) t) = expected
       ∧ files_of w' = <[data ++ [t] := plain contents]> (files_of w))) w.
Proof using Hlaws Halone Hfile.
  intros Hi. unfold jsonl_replace. apply jsonl_call_quiet; [done|]. intros w1 Hi1 Hn1 _ Hf1.
  destruct (negb _) eqn:Hv; [op_step|]. apply negb_false_iff in Hv.
  op_next charge_write_quiet as [] w2 Hi2 Hn2 _. pose proof (failed_near _ _ Hn2 Hf1) as Hf2.
  op_next ensure_loaded_quiet as t w3 Hi3 Hn3 (Ht & e & He & Hdata).
  pose proof (failed_near _ _ Hn3 Hf2) as Hf3.
  op_next (entry_quiet _ _ _ _ t w3 e) as e' w4 Hi4 Hn4 [-> ->].
  assert (unwrap_or (fe_data e) [] = bytes_at (files_of w3) t) as Ecur.
  { rewrite Hdata. unfold bytes_at. by destruct (file_at (files_of w3) t). }
  rewrite Ecur. destruct (negb (_ =? _)) eqn:Hlen; [op_step|]. apply negb_false_iff, Z.eqb_eq in Hlen.
  op_next reserve_candidate_quiet as planned w4 Hi4' Hn4' Hres. pose proof (failed_near _ _ Hn4' Hf3) as Hf4.
  eapply settled_file; [by apply write_direct_ok|by apply (nr_entries _ _ Hn4'); eauto| |].
  - intros e'. apply mirrored_ok.
  - intros w' Hw' _ _. rewrite (nr_files _ _ Hn3), (nr_files _ _ Hn2), (nr_files _ _ Hn1) in Hlen.
    exists t. rewrite <- (logical_token_near w w2) by (by etransitivity).
    split; [done|]. split; [done|]. split; [done|].
    by rewrite Hw', (nr_files _ _ Hn4'), (nr_files _ _ Hn3), (nr_files _ _ Hn2), (nr_files _ _ Hn1).
Qed.

Lemma jsonl_size_ok (name : str) (w : World) :
  Inv w →
  wp (jsonl_size limits io sha256 name)
    (settled w (fun size w' => files_of w' = files_of w
       ∧ ∃ t, logical_token sha256 (w_hd w) name = Ok t ∧ size_at (files_of w) t = Some size)) w.
Proof using.
  intros Hi. unfold jsonl_size. apply jsonl_call_quiet; [done|]. intros w1 Hi1 Hn1 _ Hf1.
  op_next ensure_entry_quiet as t w2 Hi2 Hn2 [[e He] Ht]. pose proof (failed_near _ _ Hn2 Hf1) as Hf2.
  op_next (entry_quiet _ _ _ _ t w2 e) as e' w3 Hi3 Hn3 [-> ->].
  destruct (cached_entry w2 t e Hi2 Hf2 He) as [_ Hsize].
  apply wp_of_option; [|intros _; split; [done|by right]]. intros size Hs. split; [done|].
  split; [by rewrite (nr_files _ _ Hn2), (nr_files _ _ Hn1)|].
  exists t. rewrite <- (logical_token_near w w1), <- (nr_files _ _ Hn1), <- (nr_files _ _ Hn2) by done.
  split; [done|congruence].
Qed.

(** A chunk is what follows the offset, and says whether it is the end. *)
Definition chunk_of (content : list Z) (offset max_bytes : Z) (c : JsonlChunk) : Prop :=
  offset ≤ len content ∧ read_of offset max_bytes content (jc_bytes c)
  ∧ jc_next_offset c = offset + len (jc_bytes c) ∧ jc_eof c = (jc_next_offset c =? len content).

Lemma jsonl_read_chunk_ok (name : str) (offset max_bytes : Z) (w : World) :
  Inv w → 0 ≤ offset →
  wp (jsonl_read_chunk limits io sha256 name offset max_bytes)
    (settled w (fun c w' => files_of w' = files_of w
       ∧ ∃ t n, logical_token sha256 (w_hd w) name = Ok t ∧ file_at (files_of w) t = Some n
                ∧ chunk_of (nd_bytes n) offset max_bytes c)) w.
Proof using.
  intros Hi Ho. unfold jsonl_read_chunk. apply jsonl_call_quiet; [done|]. intros w1 Hi1 Hn1 _ Hf1.
  destruct (_ =? _); [op_step|]. op_next charge_read_quiet as [] w2 Hi2 Hn2 _.
  pose proof (failed_near _ _ Hn2 Hf1) as Hf2.
  op_next ensure_entry_quiet as t w3 Hi3 Hn3 [[e He] Ht]. pose proof (failed_near _ _ Hn3 Hf2) as Hf3.
  op_next (entry_quiet _ _ _ _ t w3 e) as e' w4 Hi4 Hn4 [-> ->].
  destruct (cached_entry w3 t e Hi3 Hf3 He) as [_ Hsize]. op_step. rename a into size.
  rewrite Hval in Hsize. symmetry in Hsize. destruct (size <? offset) eqn:Eo; [op_step|]. apply Z.ltb_ge in Eo.
  eapply settled_bind; [apply read_at_quiet; [done|done|lia]|]. intros b w4 Hi5 Hn5 (n & Hn & Hb).
  op_step. apply checked_add_u64_Some in Hval0 as [-> _]. apply settled_pure; [done|].
  rewrite (nr_files _ _ Hn5), (nr_files _ _ Hn3), (nr_files _ _ Hn2), (nr_files _ _ Hn1) in *.
  split; [done|]. exists t, n. rewrite <- (logical_token_near w w2) by (by etransitivity).
  split; [done|]. split; [done|]. unfold size_at in Hsize. rewrite Hn in Hsize. cbn in Hsize.
  injection Hsize as <-. by split.
Qed.

(** ** Closing a handle *)

Lemma settled_base {A : Type} (m : act World A) (Q : A → World → Prop) (w0 w : World) :
  files_of w = files_of w0 → wp m (settled w Q) w → wp m (settled w0 Q) w.
Proof using.
  intros E Hm. eapply wp_mono; [exact Hm|]. intros r w' [Hi Hr]. split; [done|].
  destruct r as [a|[]]; [done|by rewrite E in Hr|done|done].
Qed.

(** What is left of a handle: the rest of the world, without it. *)
Record closed (handle : Z) (w w' : World) : Prop := {
  cd_files : files_of w' = files_of w;
  cd_access : hd_access (w_hd w') = hd_access (w_hd w);
  cd_handles : hd_handles (w_hd w') = delete handle (hd_handles (w_hd w));
  cd_entries : hd_entries (w_hd w') = hd_entries (w_hd w);
  cd_pending : hd_pending_delete (w_hd w') = hd_pending_delete (w_hd w);
  cd_failed : hd_failed (w_hd w') = hd_failed (w_hd w)
}.

Lemma close_handle_ok (handle : Z) (w : World) :
  Inv w →
  wp (_ ⇚ update (set_handles (delete handle (hd_handles (w_hd w))));
      match hd_handles (w_hd w) !! handle with
      | Some _ => ledger_do others release_handle
      | None => pure tt
      end)
    (fun r w' => r = Ok tt ∧ Inv w' ∧ closed handle w w') w.
Proof using Hlaws Halone.
  intros Hi. apply wp_bind, wp_modify.
  assert (∀ s n, client n (hd_reservation (w_hd w)) (size (delete handle (hd_handles (w_hd w)))) s →
     ns_get (namespace_used s) ns = ns_get (namespace_used (w_ledger w)) ns →
     ns_get (namespace_entries s) ns = ns_get (namespace_entries (w_ledger w)) ns →
     Inv (mkWorld (set_handles (delete handle (hd_handles (w_hd w))) (w_hd w)) (w_disk w) s n)) as Hinv.
  { intros s n Hcl Eu Ee. destruct Hi as [Hc Hr Hl Hh Hrd Hwr Hen Ho]. constructor; hd_cbn; try done.
    - destruct (hd_reservation (w_hd w)) as [r|]; [|done]. destruct Hr. constructor; hd_cbn; (congruence || done).
    - intros k hs [_ Hk]%lookup_delete_Some. by apply (Hh k hs).
    - pose proof (map_size_delete handle (hd_handles (w_hd w))) as Hs. rewrite Hs.
      destruct (hd_handles (w_hd w) !! handle); unfold id; lia. }
  pose proof (iv_client _ _ _ _ _ Hi) as Hcl.
  destruct (hd_handles (w_hd w) !! handle) as [hs|] eqn:E.
  - apply wp_on_ledger. intros ? s [= <- <-]. split; [done|]. split; [|by constructor].
    destruct (Halone (w_turn w) (w_ledger w)) as [Ea Eb]. apply Hinv; [|by rewrite <- Ea|by rewrite <- Eb].
    apply (cl_release _ _ _ _ Hlaws).
    assert (S (size (delete handle (hd_handles (w_hd w)))) = size (hd_handles (w_hd w))) as ->.
    { rewrite map_size_delete, E. pose proof (map_size_ne_0_lookup_2 _ handle (mk_is_Some _ _ E)). lia. }
    by apply (cl_others _ _ _ _ Hlaws).
  - apply wp_pure. split; [done|]. split; [|by constructor]. apply Hinv; [|done|done].
    by rewrite delete_id.
Qed.

Lemma pending_quiet (v : gset str) (w : World) :
  Inv w →
  Inv (on_handle (set_pending_delete v) w).
Proof using. intros Hi. apply inv_counters; [done|]. destruct Hi. hd_cbn. done. Qed.

Lemma quiet_attempt {A : Type} (m : act World A) (P : A → World → Prop) (w : World) :
  wp m (Quiet w P) w →
  wp (attempt m) (Quiet w (fun r w' => match r with Ok a => P a w' | Err _ => True end)) w.
Proof using.
  intros Hm. apply wp_attempt. eapply wp_mono; [exact Hm|].
  intros [a|[e| |]] w' (Hi & Hn & H); [by split|by split|done|done].
Qed.

(** The deletion at the last close of a file. *)
Lemma delete_on_close_ok (w : World) (t : str) :
  Inv w → hd_failed (w_hd w) = false → is_Some (hd_entries (w_hd w) !! t) →
  wp (planned ⇚ reserve_candidate limits io others [(t, None)];
      _ ⇚ write_direct io others t None planned;
      h ⇚ self;
      e ⇚ of_option (Corrupt (lit "handle-entry")) (hd_entries h !! t);
      _ ⇚ update (set_entries (<[t := absent e]> (hd_entries h)));
      h ⇚ self;
      update (set_pending_delete (hd_pending_delete h ∖ {[t]})))
    (settled w (fun _ w' => hd_handles (w_hd w') = hd_handles (w_hd w)
                            ∧ hd_pending_delete (w_hd w') = hd_pending_delete (w_hd w) ∖ {[t]}
                            ∧ files_of w' = delete (data ++ [t]) (files_of w))) w.
Proof using Hlaws Halone.
  intros Hi Hf He. op_next reserve_candidate_quiet as planned w1 Hi1 Hn1 Hres.
  pose proof (failed_near _ _ Hn1 Hf) as Hf1. eapply settled_did; [by apply remove_ok|].
  intros u b ro d s n w2 Hi2 Hd. apply wp_bind, wp_reads.
  destruct (nr_entries _ _ Hn1 t He) as [e He1]. change (hd_entries (w_hd w2)) with (hd_entries (w_hd w1)).
  rewrite He1. apply wp_bind, wp_pure.
  assert (entry_ok (files_of w2) t (absent e)) as Hok.
  { unfold w2. cbn [w_disk]. rewrite Hd. apply absent_ok. }
  destruct (entry_settled {[t]} w2 t e absent Hi2 He1 Hok) as (_ & _ & Hi3).
  unfold update_entry, abind, self, reads in Hi3. cbn [fst snd] in Hi3.
  change (hd_entries (w_hd w2)) with (hd_entries (w_hd w1)) in Hi3. rewrite He1 in Hi3.
  cbn [expect pure fst snd update modify] in Hi3. rewrite difference_diag_L in Hi3.
  apply wp_bind, wp_modify. apply wp_bind, wp_reads. apply wp_modify. split; [by apply pending_quiet|].
  split; [apply (nr_handles _ _ Hn1)|]. split; [cbn; by rewrite (nr_pending _ _ Hn1)|].
  unfold w2, on_handle. cbn [w_disk]. by rewrite Hd, (nr_files _ _ Hn1).
Qed.

(** A file is deleted at the last close after a close that asked for it:
    what is pending then, and the files. *)
Definition token_open (handles : gmap Z HandleState) (t : str) : bool :=
  existsb (fun hs => str_eqb (hs_token hs) t) (map_to_list handles).*2.

Definition after_close (hs : HandleState) (handles : gmap Z HandleState) (pending : gset str)
    (fs : gmap path Node) : gset str * gmap path Node :=
  let t := hs_token hs in
  let pending := if hs_delete_on_close hs then {[t]} ∪ pending else pending in
  if bool_decide (t ∈ pending) && negb (token_open handles t)
  then (pending ∖ {[t]}, delete (data ++ [t]) fs)
  else (pending, fs).

Lemma vfs_close_ok (handle : Z) (w : World) :
  Inv w →
  wp (vfs_close limits io others handle)
    (settled w (fun _ w' => ∃ hs, hd_handles (w_hd w) !! handle = Some hs
       ∧ hd_handles (w_hd w') = delete handle (hd_handles (w_hd w))
       ∧ (hd_pending_delete (w_hd w'), files_of w')
         = after_close hs (delete handle (hd_handles (w_hd w))) (hd_pending_delete (w_hd w)) (files_of w))) w.
Proof using Hlaws Halone.
  intros Hi. unfold vfs_close. op_next require_vfs_quiet as [] w1 Hi1 Hn1 [-> _].
  eapply settled_bind; [by apply quiet_attempt, note_call_quiet|]. intros call w2 Hi2 Hn2 Hcall.
  op_step. cbv zeta. apply wp_assoc.
  eapply wp_step; [by apply close_handle_ok| |by intros e w' [[=] _]]. intros [] w3 (_ & Hi3 & [Ef Ea Eh Ee Ep Efl]).
  apply (settled_base _ _ _ w3); [done|].
  apply wp_bind, wp_of_result; [|intros e _; split; [done|by right]]. intros [] ->. rewrite <- Efl in Hcall.
  op_step. rename a into hs.
  assert (is_Some (hd_entries (w_hd w3) !! hs_token hs)) as Hent.
  { rewrite Ee. by apply (iv_handles _ _ _ _ _ Hi2 handle). }
  rewrite (nr_handles _ _ Hn2) in Hval.
  assert (∀ w4, Inv w4 → hd_failed (w_hd w4) = false → files_of w4 = files_of w3 →
    hd_handles (w_hd w4) = hd_handles (w_hd w3) → is_Some (hd_entries (w_hd w4) !! hs_token hs) →
    hd_pending_delete (w_hd w4)
    = (if hs_delete_on_close hs then {[hs_token hs]} ∪ hd_pending_delete (w_hd w) else hd_pending_delete (w_hd w)) →
    wp (h ⇚ self;
        if bool_decide (hs_token hs ∈ hd_pending_delete h) && negb (in_use h (hs_token hs))
        then
          planned ⇚ reserve_candidate limits io others [(hs_token hs, None)];
          _ ⇚ write_direct io others (hs_token hs) None planned;
          h ⇚ self;
          e ⇚ of_option (Corrupt (lit "handle-entry")) (hd_entries h !! hs_token hs);
          _ ⇚ update (set_entries (<[hs_token hs := absent e]> (hd_entries h)));
          h ⇚ self;
          update (set_pending_delete (hd_pending_delete h ∖ {[hs_token hs]}))
        else pure tt)
      (settled w3 (fun _ w' => ∃ hs, hd_handles (w_hd w) !! handle = Some hs
         ∧ hd_handles (w_hd w') = delete handle (hd_handles (w_hd w))
         ∧ (hd_pending_delete (w_hd w'), files_of w')
           = after_close hs (delete handle (hd_handles (w_hd w))) (hd_pending_delete (w_hd w)) (files_of w))) w4)
    as Hdel.
  { intros w4 Hi4 Hf4 Ef4 Eh4 He4 Ep4. op_step. apply (settled_base _ _ _ w4); [done|].
    rewrite (nr_files _ _ Hn2) in Ef. rewrite (nr_handles _ _ Hn2) in Eh.
    unfold in_use. rewrite Eh4, Eh. fold (token_open (delete handle (hd_handles (w_hd w))) (hs_token hs)).
    destruct (_ && _) eqn:Hd.
    - eapply settled_weaken; [by apply delete_on_close_ok|]. intros [] w' (E1 & E2 & E3). exists hs.
      rewrite E1, E2, E3, Eh4, Ef4, Ef. split; [done|]. split; [done|]. unfold after_close. rewrite <- Ep4.
      by rewrite Hd.
    - apply settled_pure; [done|]. exists hs. rewrite Eh4, Ef4, Ef. split; [done|]. split; [done|].
      unfold after_close. rewrite <- Ep4. by rewrite Hd. }
  rewrite (nr_pending _ _ Hn2) in Ep.
  destruct (hs_delete_on_close hs).
  - apply wp_bind. op_step. destruct (negb (read_write (w_hd w3))); [split; [done|by right]|].
    apply wp_modify. apply Hdel; try done; [by apply pending_quiet|]. cbn. by rewrite Ep.
  - apply wp_bind, wp_pure. by apply Hdel.
Qed.

End Client.

(** One more handle than the transaction has recorded. *)
Definition one_more (client : nat → option Reservation → nat → LedgerState → Prop)
    : nat → option Reservation → nat → LedgerState → Prop := fun i r n s => client i r (S n) s.

Lemma one_more_laws (client : nat → option Reservation → nat → LedgerState → Prop) :
  client_laws limits others ns client → client_laws limits others ns (one_more client).
Proof using.
  intros [H1 H2 H3 H4 H5 H6 H7]. constructor; unfold one_more; eauto.
  intros i r n s res s' Hc Ha. specialize (H6 i r (S n) s res s' Hc Ha). by destruct (is_ok res).
Qed.

Section Open.
Context (client : nat → option Reservation → nat → LedgerState → Prop).
Context (Hlaws : client_laws limits others ns client).

Abbreviation Inv := (inv limits ns client ∅).
Abbreviation Inv1 := (inv limits ns (one_more client) ∅).

(** The ledger moved, and the handle with it. *)
Lemma inv_move (c c' : nat → option Reservation → nat → LedgerState → Prop) (w : World) (s : LedgerState) (n : nat) :
  inv limits ns c ∅ w → c' n (hd_reservation (w_hd w)) (size (hd_handles (w_hd w))) s →
  ns_get (namespace_used s) ns = ns_get (namespace_used (w_ledger w)) ns →
  ns_get (namespace_entries s) ns = ns_get (namespace_entries (w_ledger w)) ns →
  inv limits ns c' ∅ (mkWorld (w_hd w) (w_disk w) s n).
Proof using.
  intros [Hc Hr Hl Hh Hrd Hwr Hen Ho] Hcl Eu Ee. constructor; hd_cbn; try done.
  destruct (hd_reservation (w_hd w)) as [r|]; [|done]. destruct Hr. constructor; hd_cbn; (congruence || done).
Qed.

Lemma acquire_keeps (s s' : LedgerState) (res : result StorageHostError unit) :
  acquire_handle limits s = (res, s') →
  namespace_used s' = namespace_used s ∧ namespace_entries s' = namespace_entries s.
Proof using. unfold acquire_handle. run_locked. repeat dk_case; intros; simplify_eq; done. Qed.

(** The files of a file that is created if it is not there. *)
Definition opened_files (t : str) (fs : gmap path Node) : gmap path Node :=
  match file_at fs t with Some _ => fs | None => <[data ++ [t] := plain []]> fs end.

(** Creation of the file, with the handle already counted. *)
Lemma create_ok (w : World) (t : str) (e : FileEntry) :
  Inv1 w → hd_failed (w_hd w) = false → hd_entries (w_hd w) !! t = Some e →
  wp (if fe_exists e then pure tt
      else
        _ ⇚ charge_write limits 0;
        identity ⇚ allocate_file_identity;
        planned ⇚ reserve_candidate limits io others [(t, Some 0)];
        _ ⇚ write_direct io others t (Some []) planned;
        update_entry t (fun e => identified identity (present 0 e)))
    (settled (one_more client) w (fun _ w' => files_of w' = opened_files t (files_of w)
       ∧ hd_handles (w_hd w') = hd_handles (w_hd w) ∧ hd_next_handle (w_hd w') = hd_next_handle (w_hd w)
       ∧ is_Some (hd_entries (w_hd w') !! t))) w.
Proof using Hlaws Halone.
  intros Hi Hf He. pose proof (one_more_laws client Hlaws) as Hlaws1.
  destruct (cached_entry _ w t e Hi Hf He) as [Hok _]. unfold entry_ok in Hok.
  destruct (fe_exists e) eqn:Hex.
  - split; [done|]. unfold opened_files. destruct (file_at (files_of w) t); [by eauto|].
    by destruct Hok as [[=] _].
  - eapply settled_bind; [by apply charge_write_quiet|]. intros [] w1 Hi1 Hn1 _.
    eapply settled_bind; [by apply allocate_file_identity_quiet|]. intros identity w2 Hi2 Hn2 _.
    eapply settled_bind; [by apply reserve_candidate_quiet|]. intros planned w3 Hi3 Hn3 Hres.
    assert (near w w3) as Hn by (etransitivity; [exact Hn1|etransitivity; [exact Hn2|exact Hn3]]).
    pose proof (failed_near _ _ Hn Hf) as Hf3. destruct (nr_entries _ _ Hn t) as [e3 He3]; [by eauto|].
    eapply settled_did; [apply (write_direct_ok limits io others ns (one_more client)); done|].
    intros u b ro d s n w4 Hi4 Hd.
    eapply wp_mono; [apply (entry_settled (one_more client) {[t]} w4 t e3); [done|exact He3|]|].
    { unfold w4. cbn [w_disk]. rewrite Hd. by apply (present_ok _ t e3 []). }
    intros r w5 (-> & -> & Hi5). rewrite difference_diag_L in Hi5. split; [done|].
    unfold w4, on_handle, redone. hd_cbn. rewrite Hd, (nr_files _ _ Hn), (nr_handles _ _ Hn).
    split; [|split; [done|split; [apply (nr_next _ _ Hn)|by rewrite lookup_insert_eq]]].
    unfold opened_files. destruct (file_at (files_of w) t); [|done]. by destruct Hok as [[=] _].
Qed.

Lemma register_ok (w : World) (t : str) (handle : Z) (hs : HandleState) :
  Inv1 w → hs_token hs = t → is_Some (hd_entries (w_hd w) !! t) → handle = hd_next_handle (w_hd w) →
  Z.of_nat (size (hd_handles (w_hd w))) < max_handles_per_invocation limits →
  Inv (on_handle (set_next_handle (handle + 1))
         (on_handle (set_handles (<[handle := hs]> (hd_handles (w_hd w)))) w)).
Proof using.
  intros [Hc Hr Hl Hh Hrd Hwr Hen Ho] <- He Eh Hsize.
  assert (hd_handles (w_hd w) !! handle = None) as Hfresh.
  { destruct (hd_handles (w_hd w) !! handle) as [hs'|] eqn:E; [|done]. destruct (Hh _ _ E). lia. }
  constructor; hd_cbn; try done.
  - rewrite map_size_insert_None by done. exact Hc.
  - destruct (hd_reservation (w_hd w)); [|done]. by destruct Hr; constructor.
  - intros k hs' [[<- <-]|[_ Hk]]%lookup_insert_Some; [split; [lia|done]|]. destruct (Hh _ _ Hk). split; [lia|done].
  - rewrite map_size_insert_None by done. lia.
Qed.

(** The part of [vfs_open] after the handle is counted. *)
Lemma open_block_ok (w : World) (t : str) (e : FileEntry) (handle : Z) (hs : HandleState) :
  Inv1 w → hd_failed (w_hd w) = false → hd_entries (w_hd w) !! t = Some e →
  hs_token hs = t → handle = hd_next_handle (w_hd w) →
  Z.of_nat (size (hd_handles (w_hd w))) < max_handles_per_invocation limits →
  wp (attempt
        (_ ⇚ (if fe_exists e then pure tt
              else
                _ ⇚ charge_write limits 0;
                identity ⇚ allocate_file_identity;
                planned ⇚ reserve_candidate limits io others [(t, Some 0)];
                _ ⇚ write_direct io others t (Some []) planned;
                update_entry t (fun e => identified identity (present 0 e)));
         h ⇚ self;
         _ ⇚ update (set_handles (<[handle := hs]> (hd_handles h)));
         _ ⇚ update (set_next_handle (handle + 1));
         pure handle))
    (fun r w' => match r with
       | Ok (Ok k) => Inv w' ∧ k = handle ∧ hd_handles (w_hd w') = <[handle := hs]> (hd_handles (w_hd w))
                      ∧ files_of w' = opened_files t (files_of w)
       | Ok (Err _) => Inv1 w' ∧ (hd_failed (w_hd w') = true ∨ files_of w' = files_of w)
       | Err _ => False
       end) w.
Proof using Hlaws Halone.
  intros Hi Hf He Ht Hh Hsize. apply wp_attempt. eapply wp_step; [by apply (create_ok w t e)| |].
  2:{ intros [x| |] w4 [Hi4 H]; done. }
  intros [] w4 [Hi4 (Ef & Eh & En & Hent)]. apply wp_bind, wp_reads. apply wp_bind, wp_modify.
  apply wp_bind, wp_modify. apply wp_pure. split.
  - apply (register_ok w4 t); [done|done|done|congruence|by rewrite Eh].
  - split; [done|]. hd_cbn. by rewrite Eh.
Qed.

Lemma vfs_open_ok (name : str) (options : OpenOptions) (w : World) :
  Inv w →
  wp (vfs_open limits io others sha256 name options)
    (settled client w (fun handle w' => ∃ t, logical_token sha256 (w_hd w) name = Ok t
       ∧ hd_handles (w_hd w) !! handle = None
       ∧ hd_handles (w_hd w')
         = <[handle := mkHandleState t (oo_read options) (oo_write options) (oo_delete_on_close options)]>
             (hd_handles (w_hd w))
       ∧ files_of w' = opened_files t (files_of w)
       ∧ (oo_create_new options = true → file_at (files_of w) t = None)
       ∧ (file_at (files_of w) t = None → oo_create options || oo_create_new options = true))) w.
Proof using Hlaws Halone.
  intros Hi. unfold vfs_open. apply vfs_call_quiet; [done|]. intros w1 Hi1 Hn1 _ Hf1.
  destruct (_ || _); [by apply settled_raise|]. apply wp_bind, wp_reads.
  destruct (_ && _); [by apply settled_raise|]. destruct (_ <=? _) eqn:Hmax; [by apply settled_raise|].
  apply Z.leb_gt in Hmax.
  eapply settled_bind; [by apply ensure_entry_quiet|]. intros t w2 Hi2 Hn2 [[e He] Ht].
  pose proof (failed_near _ _ Hn2 Hf1) as Hf2.
  eapply settled_bind; [by apply (entry_quiet limits ns client ∅ t w2 e)|]. intros e' w2' _ _ [-> ->].
  destruct (oo_create_new options && fe_exists e) eqn:Hnew; [by apply settled_raise|].
  destruct (negb (fe_exists e) && negb (oo_create options) && negb (oo_create_new options)) eqn:Habs;
    [by apply settled_raise|].
  apply wp_bind, wp_reads. cbv zeta.
  apply wp_bind, wp_of_option; [|intros _; split; [done|by right]].
  intros next [-> _]%checked_add_u64_Some.
  destruct (cached_entry _ w2 t e Hi2 Hf2 He) as [Hok _]. unfold entry_ok in Hok.
  apply wp_bind, wp_on_ledger. intros res s Hacq. destruct (acquire_keeps _ _ _ Hacq) as [Ku Ke].
  destruct (Halone (w_turn w2) (w_ledger w2)) as [Ea Eb].
  pose proof (cl_acquire _ _ _ _ Hlaws _ _ _ _ _ _
    (cl_others _ _ _ _ Hlaws (w_turn w2) _ _ _ (iv_client _ _ _ _ _ Hi2)) Hacq) as Hcl.
  destruct res as [[]|x]; cbn [is_ok] in Hcl.
  2:{ split; [apply (inv_move client); [done|done|by rewrite Ku|by rewrite Ke]|by right]. }
  set (w3 := mkWorld (w_hd w2) (w_disk w2) s (S (w_turn w2))).
  assert (Inv1 w3) as Hi3.
  { apply (inv_move client); [done|exact Hcl|by rewrite Ku|by rewrite Ke]. }
  eapply wp_step; [apply (open_block_ok w3 t e); [done|done|done|done|done|]| |by intros x w4 []].
  { unfold w3. cbn [w_hd]. by rewrite (nr_handles _ _ Hn2). }
  intros [handle|x] w4 H4.
  - destruct H4 as (Hi4 & -> & Eh & Ef). apply wp_bind, wp_pure, wp_pure. split; [done|]. exists t.
    rewrite <- (logical_token_near w w1) by done. unfold w3 in *. cbn [w_hd w_disk] in *.
    rewrite <- (nr_handles _ _ Hn1), <- (nr_handles _ _ Hn2), <- (nr_files _ _ Hn1), <- (nr_files _ _ Hn2).
    split; [done|]. split; [|split; [done|split; [done|]]].
    + destruct (hd_handles (w_hd w2) !! _) as [hs|] eqn:E; [|done]. destruct (iv_handles _ _ _ _ _ Hi2 _ _ E). lia.
    + destruct (file_at (files_of w2) t), Hok as [Hex _]; rewrite Hex in *; cbn in Habs, Hnew.
      * split; [|done]. rewrite andb_true_r in Hnew. by rewrite Hnew.
      * split; [done|]. intros _. by destruct (oo_create options), (oo_create_new options).
  - destruct H4 as [Hi4 Hfs]. apply wp_bind, wp_on_ledger. intros ? s' [= <- <-]. apply wp_raise.
    destruct (Halone (w_turn w4) (w_ledger w4)) as [Ea' Eb'].
    split; [|unfold on_handle; cbn [w_hd w_disk]; exact Hfs].
    apply (inv_move (one_more client)); [done| |exact Ea'|exact Eb'].
    apply (cl_release _ _ _ _ Hlaws), (cl_others _ _ _ _ Hlaws), (iv_client _ _ _ _ _ Hi4).
Qed.

End Open.

End Operations.
