(* ===== verification/StorageLifetime.v ===== *)
(** * Lifetimes of storage transactions

    How a transaction begins and ends: [begin_transaction] establishes the
    invariant of [StorageTransaction] from the files it scans, and the
    methods that end it give back its handles and its reservation. The last
    part discharges the interface [client_laws] with the quota ledger: once
    for a transaction among others, and once for one that runs alone. *)

From Stdlib Require Import ZArith Lia Ascii String.
From stdpp Require Import base gmap strings list sorting numbers.
From S2P Require Import Prelude.
From S2P Require Import RustStr.
From S2P Require Import Capability.
From S2P Require Import StorageConfig.
From S2P Require Import Quota.
From S2P Require Import Keys.
From S2P Require Import StorageDir.
From S2P Require Import StorageScan.
From S2P Require Import StorageHandle.
From S2P Require Import StorageEffects.
From S2P Require Import StorageTransaction.
From S2P Require Import StorageOps.

Abbreviation Client := (nat → option Reservation → nat → LedgerState → Prop).

(** ** Ends *)

(** The laws the end of a transaction relies on. *)
Record end_laws (others : nat → LedgerState → LedgerState) (client : Client) : Prop := {
  el_others : ∀ i r n s, client i r n s → client (S i) r n (others i s);
  el_abort : ∀ i r n s, client i (Some r) n s → client i None n (Reservation_abort r s);
  el_release : ∀ i r n s, client i r (S n) s → client i r n (release_handle s)
}.

Lemma client_end_laws limits others ns client : client_laws limits others ns client → end_laws others client.
Proof. intros []. by constructor. Qed.

Section Lifetime.
Context (others : nat → LedgerState → LedgerState).
Context (sha256 : list Z → list Z).
Context (ns : str) (client : Client).
Context (Hlaws : end_laws others client) (Halone : leaves_alone others ns).

(** The ledger's figures for the namespace. *)
Definition recorded (s : LedgerState) : Z * Z :=
  (ns_get (namespace_used s) ns, ns_get (namespace_entries s) ns).

Lemma others_recorded (i : nat) (s : LedgerState) : recorded (others i s) = recorded s.
Proof using Halone. unfold recorded. destruct (Halone i s) as [-> ->]. done. Qed.

Lemma abort_recorded (r : Reservation) (s : LedgerState) : recorded (Reservation_abort r s) = recorded s.
Proof using.
  unfold Reservation_abort, Reservation_drop, finalized, release_locked, release_root_locked. cbn.
  by destruct (namespace_reserved s !! _).
Qed.

(** What is left to give back: [r] and [n] handles. *)
Definition owes (r : option Reservation) (n : nat) (w : World) : Prop :=
  client (w_turn w) r n (w_ledger w).

Lemma release_handles_ok (count n : nat) (r : option Reservation) (w : World) :
  owes r (count + n) w →
  wp (release_handles others count)
    (fun res w' => res = Ok tt ∧ w_hd w' = w_hd w ∧ w_disk w' = w_disk w ∧ owes r n w'
                   ∧ recorded (w_ledger w') = recorded (w_ledger w)) w.
Proof using Hlaws Halone.
  revert w. induction count as [|count IH]; intros w Hc; cbn [release_handles]; [by apply wp_pure|].
  apply wp_bind, wp_on_ledger. intros res s [= <- <-].
  eapply wp_mono; [apply IH|].
  - unfold owes in *. cbn [w_turn w_ledger]. apply (el_release _ _ Hlaws), (el_others _ _ Hlaws).
    exact Hc.
  - intros res w' (-> & Eh & Ed & Ho & Er). cbn [w_hd w_disk w_ledger] in *. repeat (split; [done|]).
    rewrite Er. apply others_recorded.
Qed.

(** The transaction is over: it holds nothing, and the files are as they
    were. *)
Definition over (w w' : World) : Prop :=
  hd_reservation (w_hd w') = None ∧ hd_handles (w_hd w') = ∅ ∧ hd_finalized (w_hd w') = true
  ∧ dk_files (w_disk w') = dk_files (w_disk w) ∧ owes None 0 w'
  ∧ recorded (w_ledger w') = recorded (w_ledger w).

Lemma close_all_handles_ok (w : World) :
  owes (hd_reservation (w_hd w)) (size (hd_handles (w_hd w))) w →
  wp (close_all_handles others)
    (fun res w' => res = Ok tt ∧ w_hd w' = set_handles ∅ (w_hd w) ∧ w_disk w' = w_disk w
                   ∧ owes (hd_reservation (w_hd w)) 0 w'
                   ∧ recorded (w_ledger w') = recorded (w_ledger w)) w.
Proof using Hlaws Halone.
  intros Ho. unfold close_all_handles. apply wp_bind, wp_reads. apply wp_bind, wp_modify.
  eapply wp_mono; [apply (release_handles_ok _ 0 (hd_reservation (w_hd w)))|done].
  by rewrite Nat.add_0_r.
Qed.

Lemma give_back_ok (w : World) :
  owes (hd_reservation (w_hd w)) 0 w →
  wp (give_back others)
    (fun res w' => res = Ok tt ∧ w_hd w' = set_reservation None (w_hd w) ∧ w_disk w' = w_disk w
                   ∧ owes None 0 w' ∧ recorded (w_ledger w') = recorded (w_ledger w)) w.
Proof using Hlaws Halone.
  intros Ho. unfold give_back. apply wp_bind, wp_reads. destruct (hd_reservation (w_hd w)) as [r|] eqn:Er.
  - apply wp_bind, wp_modify. apply wp_on_ledger. intros res s [= <- <-]. hd_cbn. repeat (split; [done|]).
    split; [by apply (el_abort _ _ Hlaws), (el_others _ _ Hlaws)|].
    by rewrite abort_recorded, others_recorded.
  - apply wp_pure. split; [done|]. split; [|done]. destruct (w_hd w). cbn in *. by rewrite Er.
Qed.

(** Closing, giving back and setting the flag: the common part. *)
Lemma close_ok {A : Type} (k : act World A) (Q : result Exn A → World → Prop) (w : World) :
  owes (hd_reservation (w_hd w)) (size (hd_handles (w_hd w))) w →
  (∀ w', over w w' → w_hd w' = set_finalized true (set_reservation None (set_handles ∅ (w_hd w))) →
     wp k Q w') →
  wp (_ ⇚ close_all_handles others; _ ⇚ give_back others; _ ⇚ update (set_finalized true); k) Q w.
Proof using Hlaws Halone.
  intros Ho Hk. eapply wp_step; [by apply close_all_handles_ok| |by intros e w' [[=] _]].
  intros [] w1 (_ & E1 & D1 & O1 & R1).
  eapply wp_step; [apply give_back_ok; by rewrite E1| |by intros e w' [[=] _]].
  intros [] w2 (_ & E2 & D2 & O2 & R2). apply wp_bind, wp_modify. apply Hk.
  - unfold over, owes. hd_cbn. rewrite E2, E1, D2, D1, R2, R1. by repeat split.
  - hd_cbn. by rewrite E2, E1.
Qed.

Lemma drop_handle_ok (w : World) :
  owes (hd_reservation (w_hd w)) (size (hd_handles (w_hd w))) w → hd_finalized (w_hd w) = false →
  wp (drop_handle others) (fun res w' => res = Ok tt ∧ over w w') w.
Proof using Hlaws Halone.
  intros Ho Hf. unfold drop_handle. apply wp_bind, wp_reads. rewrite Hf.
  eapply wp_step; [by apply close_all_handles_ok| |by intros e w' [[=] _]].
  intros [] w1 (_ & E1 & D1 & O1 & R1).
  eapply wp_step; [apply give_back_ok; by rewrite E1| |by intros e w' [[=] _]].
  intros [] w2 (_ & E2 & D2 & O2 & R2). apply wp_modify. split; [done|].
  unfold over, owes. hd_cbn. rewrite E2, E1, D2, D1, R2, R1. by repeat split.
Qed.

Lemma abort_ok (w : World) :
  owes (hd_reservation (w_hd w)) (size (hd_handles (w_hd w))) w →
  wp (abort others sha256) (fun res w' => res = Ok (make_evidence sha256 (w_hd w)) ∧ over w w') w.
Proof using Hlaws Halone.
  intros Ho. unfold abort. apply close_ok; [done|]. intros w' Hover E. apply wp_bind, wp_reads.
  rewrite E. unfold drop_handle. apply wp_bind, wp_bind, wp_reads. rewrite E. hd_cbn.
  apply wp_pure, wp_pure. by split.
Qed.

(** A read or a commit ends with the evidence when the transaction has not
    failed and no handle is open. *)
Lemma finish_read_ok (w : World) :
  owes (hd_reservation (w_hd w)) (size (hd_handles (w_hd w))) w → hd_finalized (w_hd w) = false →
  wp (finish_read others sha256)
    (fun res w' => over w w'
       ∧ res = if hd_failed (w_hd w) then Err (Throws Io)
               else if bool_decide (hd_handles (w_hd w) = ∅) then Ok (make_evidence sha256 (w_hd w))
               else Err (Throws Busy)) w.
Proof using Hlaws Halone.
  intros Ho Hf. unfold finish_read. apply wp_bind, wp_reads. destruct (hd_failed (w_hd w)).
  - eapply wp_step; [by apply drop_handle_ok| |by intros e w' [[=] _]]. intros [] w' [_ Hover]. by apply wp_raise.
  - destruct (bool_decide _); cbn [negb].
    + eapply wp_mono; [by apply abort_ok|]. by intros res w' [-> Hover].
    + eapply wp_step; [by apply drop_handle_ok| |by intros e w' [[=] _]]. intros [] w' [_ Hover].
      by apply wp_raise.
Qed.

Lemma commit_before_ok (now deadline : Z) (w : World) :
  owes (hd_reservation (w_hd w)) (size (hd_handles (w_hd w))) w → hd_finalized (w_hd w) = false →
  wp (commit_before others sha256 now deadline)
    (fun res w' => over w w'
       ∧ res = if deadline <=? now then Err (Throws Timeout)
               else if hd_failed (w_hd w) then Err (Throws Io)
               else if bool_decide (hd_handles (w_hd w) = ∅) then Ok (make_evidence sha256 (w_hd w))
               else Err (Throws Busy)) w.
Proof using Hlaws Halone.
  intros Ho Hf. unfold commit_before. destruct (_ <=? _); [|by apply finish_read_ok].
  eapply wp_step; [by apply drop_handle_ok| |by intros e w' [[=] _]]. intros [] w' [_ Hover].
  by apply wp_raise.
Qed.

End Lifetime.

(** Dropping a handle returns. *)
Lemma release_handles_returns others count w : (release_handles others count w).1 = Ok tt.
Proof.
  revert w. induction count as [|count IH]; intros w; cbn [release_handles]; [done|].
  unfold abind, ledger_do, on_ledger. apply IH.
Qed.

Lemma drop_handle_returns others w : (drop_handle others w).1 = Ok tt.
Proof.
  unfold drop_handle, close_all_handles, give_back, abind, self, reads. destruct (hd_finalized (w_hd w)); [done|].
  cbn [update modify]. match goal with |- context [release_handles others ?n ?v] =>
    pose proof (release_handles_returns others n v) as H; destruct (release_handles others n v) as [r w1] end.
  cbn in H. rewrite H. by destruct (hd_reservation (w_hd w1)).
Qed.

(** ** Beginnings *)

Lemma limits_positive (l : StorageLimits) :
  limits_ok l →
  0 ≤ max_read_bytes_per_invocation l ∧ 0 ≤ max_write_bytes_per_invocation l
  ∧ 0 ≤ max_entropy_bytes_per_invocation l ∧ 0 ≤ max_handles_per_invocation l.
Proof.
  intros [Hr _ _ _ _ _ _ _]. unfold limits_bounded, ceilings in Hr.
  repeat (apply List.Forall_cons_iff in Hr as [? Hr]). cbn in *. lia.
Qed.

(** The attempt on the lease at which the wait ends. *)
Definition decided (tries : nat → TryLock) (expired : nat → bool) (k : nat) : Prop :=
  tries k ≠ WouldBlock ∨ expired k = true.

Definition lock_outcome (tried : TryLock) : result Exn unit :=
  match tried with
  | Locked => Ok tt
  | WouldBlock => Err (Throws Timeout)
  | LockError => Err (Throws Io)
  end.

Lemma lock_exclusive_decides {St : Type} (tries : nat → TryLock) (expired : nat → bool) (k : nat) :
  decided tries expired k →
  ∀ (fuel a : nat) (s : St), (a ≤ k)%nat → (k - a < fuel)%nat →
  (∀ j, (a ≤ j < k)%nat → ¬ decided tries expired j) →
  lock_exclusive fuel tries expired a s = (lock_outcome (tries k), s).
Proof.
  intros Hk. induction fuel as [|fuel IH]; intros a s Ha Hf Hfirst; [lia|]. cbn [lock_exclusive].
  destruct (decide (a = k)) as [->|Hne].
  - unfold decided, lease_lock_failure in *. destruct (tries k); [done| |done].
    destruct Hk as [Hk|Hk]; [done|]. by rewrite Hk.
  - assert (¬ decided tries expired a) as Hn by (apply Hfirst; lia). unfold decided in Hn.
    destruct (tries a) eqn:Et; [exfalso; apply Hn; by left| |exfalso; apply Hn; by left].
    destruct (expired a) eqn:Ee; [exfalso; apply Hn; by right|]. cbn [lease_lock_failure].
    apply IH; [lia|lia|]. intros j Hj. apply Hfirst. lia.
Qed.

Lemma first_decided (tries : nat → TryLock) (expired : nat → bool) (k0 : nat) :
  decided tries expired k0 → ∃ k, decided tries expired k ∧ ∀ j, (j < k)%nat → ¬ decided tries expired j.
Proof.
  assert (∀ k, Decision (decided tries expired k)) as Hdec.
  { intros k. unfold decided. destruct (tries k), (expired k); ((left; by auto) || (right; naive_solver)). }
  induction (lt_wf k0) as [k0 _ IH]. intros Hk0.
  destruct (decide (Exists (decided tries expired) (seq 0 k0))) as [He|Hn].
  - apply List.Exists_exists in He as (j & Hin & Hj). apply in_seq in Hin. apply (IH j); [lia|done].
  - exists k0. split; [done|]. intros j Hj Hd. apply Hn, List.Exists_exists. exists j. split; [apply in_seq; lia|done].
Qed.

Lemma collect_bounded (maximum : Z) (l acc r : list str) :
  collect maximum true l acc = Ok r → r = acc ++ l ∧ (Z.of_nat (length acc) ≤ maximum → Z.of_nat (length r) ≤ maximum).
Proof.
  revert acc. induction l as [|x l IH]; intros acc; cbn [collect].
  - intros [= <-]. by rewrite app_nil_r.
  - destruct (validate_component x); [|done]. cbn [result_bind]. destruct (_ <=? _) eqn:E; [done|].
    apply Z.leb_gt in E. intros [-> Hl]%IH. rewrite <- app_assoc. split; [done|]. intros _.
    rewrite <- app_assoc in Hl. apply Hl. rewrite length_app. cbn. lia.
Qed.

Lemma descendants_root (fs : gmap path Node) : fs !! [] = None → descendants fs [] = fs.
Proof.
  intros H. unfold descendants. apply map_filter_id. intros q n Hq. cbn. split.
  - unfold below. apply bool_decide_eq_true_2, prefix_nil.
  - intros ->. congruence.
Qed.

Lemma with_directory_entry_total (fs : gmap path Node) (u : Usage) :
  usage_with_directory_entry (usage_of (nodes fs)) = Ok u → u = total fs.
Proof.
  unfold usage_with_directory_entry, checked_add_u64. destruct (_ <=? _); cbn [ok_or result_bind]; [|done].
  destruct (_ <=? _); cbn [ok_or result_bind]; [|done]. intros [= <-]. unfold total, usage_add. cbn. f_equal. lia.
Qed.

Section Begin.
Context (limits : StorageLimits).
Context (io : nat → Ending) (listing : gmap path Node → path → list str) (Hlisting : listing_ok listing).
Context (others : nat → LedgerState → LedgerState).

(** The world but for the disk, whose files are the same. *)
Definition looked {A : Type} (w : World) (P : A → Prop) (r : result Exn A) (w' : World) : Prop :=
  w_hd w' = w_hd w ∧ w_ledger w' = w_ledger w ∧ w_turn w' = w_turn w
  ∧ dk_files (w_disk w') = dk_files (w_disk w)
  ∧ match r with Ok a => P a | Err (Throws _) => True | Err _ => False end.

Lemma looked_disk {A : Type} (m : act Disk A) (P : A → Prop) (w : World) :
  wp m (outcome (fun a fs => fs = dk_files (w_disk w) ∧ P a) (fun fs => fs = dk_files (w_disk w))) (w_disk w) →
  wp (on_disk m) (looked w P) w.
Proof using.
  intros Hm. apply wp_on_disk. eapply wp_mono; [exact Hm|]. intros [a|[e| |]] d; unfold looked; cbn; try done.
Qed.

Lemma looked_bind {A B : Type} (m : act World A) (k : A → act World B) (P : A → Prop) (Q : B → Prop) (w : World) :
  wp m (looked w P) w → (∀ a w', dk_files (w_disk w') = dk_files (w_disk w) → P a → wp (k a) (looked w' Q) w') →
  wp (abind m k) (looked w Q) w.
Proof using.
  intros Hm Hk. eapply wp_step; [exact Hm| |].
  - intros a w1 (E1 & E2 & E3 & E4 & HP). eapply wp_mono; [by apply Hk|].
    intros r w2 (F1 & F2 & F3 & F4 & HQ). unfold looked. by rewrite F1, F2, F3, F4.
  - intros e w1 (E1 & E2 & E3 & E4 & HP). by repeat split.
Qed.

Lemma looked_pure {A : Type} (a : A) (P : A → Prop) (w : World) : P a → wp (pure a) (looked w P) w.
Proof using. by repeat split. Qed.

Lemma looked_raise {A : Type} (e : StorageHostError) (P : A → Prop) (w : World) : wp (raise e) (looked w P) w.
Proof using. by repeat split. Qed.

Lemma wp_entries_bounded (p : path) (maximum : Z) (d : Disk) :
  wp (entries_bounded io listing p maximum)
    (outcome (fun names fs => fs = dk_files d ∧ names ≡ₚ listing fs p) (fun fs => fs = dk_files d)) d.
Proof using.
  unfold entries_bounded, read_entries.
  eapply wp_step; [apply wp_works| |by intros [] ? ?]. intros [] d' Hd. cbn in Hd. rewrite <- Hd.
  apply wp_bind, wp_reads. apply wp_bind, wp_of_result; [|done]. intros names Hn.
  apply collect_bounded in Hn as [Hn _]. apply wp_pure. cbn. split; [done|].
  by rewrite sort_names_perm, Hn.
Qed.

Lemma wp_logical_file (t : str) (d : Disk) :
  wp (logical_file io data t)
    (outcome (fun m fs => fs = dk_files d
        ∧ ∃ n, file_at (dk_files d) t = Some n ∧ n = plain (nd_bytes n) ∧ md_len m = len (nd_bytes n))
       (fun fs => fs = dk_files d)) d.
Proof using.
  unfold logical_file. destruct (negb (is_token t)); [done|].
  eapply wp_step; [apply wp_metadata| |by intros [] ? ?]. intros m d1 [Hd1 ->]. rewrite <- Hd1.
  apply wp_bind, wp_of_option; [|done]. intros m (n & Hn & Em)%fmap_Some.
  rewrite Em. clear Em. destruct (_ || _); [done|].
  eapply wp_step; [apply wp_open_private| |by intros [] ? ?]. intros [] d2 [Hd2 (n' & Hn' & Hp)].
  apply wp_pure. cbn. split; [done|]. exists n. rewrite Hd2 in Hn'. unfold file_at.
  assert (n' = n) as -> by congruence. clear Hn'.
  split; [done|]. split; [|done]. destruct n as [? ? ? ?], Hp as (? & ? & ?). cbn in *. by subst.
Qed.

Lemma baseline_of_ok (tokens : list str) (b0 : gset str) (w : World) :
  wp (baseline_of limits io tokens b0)
    (looked w (fun b => (∀ t, t ∈ b ↔ t ∈ b0 ∨ t ∈ tokens)
       ∧ ∀ t, t ∈ tokens → ∃ n, file_at (dk_files (w_disk w)) t = Some n ∧ n = plain (nd_bytes n)
                                ∧ len (nd_bytes n) ≤ max_file_bytes limits)) w.
Proof using.
  revert b0 w. induction tokens as [|t tokens IH]; intros b0 w; cbn [baseline_of].
  - apply looked_pure. split; [|by intros t ?%not_elem_of_nil]. intros t. rewrite elem_of_nil. tauto.
  - eapply looked_bind; [eapply looked_disk, wp_logical_file|]. intros m w1 E1 (n & Hn & Hp & Hm).
    destruct (_ <? _) eqn:El; [apply looked_raise|]. apply Z.ltb_ge in El.
    eapply wp_mono; [apply IH|]. intros r w2 (F1 & F2 & F3 & F4 & HP). repeat (split; [done|]).
    destruct r as [b|[]]; [|done|done|done]. destruct HP as [Hb Hall]. split.
    + intros t'. rewrite Hb, elem_of_cons, elem_of_union, elem_of_singleton. tauto.
    + intros t' [->|Ht']%elem_of_cons; [exists n; by rewrite Hm in El|]. rewrite <- E1. by apply Hall.
Qed.

(** The lease, the scan and the list of files. *)
Lemma open_generation_ok (fuel depth k : nat) (tries : nat → TryLock) (expired : nat → bool) (w : World) :
  tree_ok (dk_files (w_disk w)) → dk_files (w_disk w) !! [] = None →
  (0 < depth)%nat → (∀ q, is_Some (dk_files (w_disk w) !! q) → (length q < depth)%nat) →
  0 ≤ startup_max_entries limits < HARD_MAX_DIRECTORY_ENTRIES →
  decided tries expired k → (∀ j, (j < k)%nat → ¬ decided tries expired j) → (k < fuel)%nat →
  wp (open_generation limits io listing fuel depth tries expired)
    (looked w (fun ub => ub.1 = total (dk_files (w_disk w))
       ∧ (∀ t, t ∈ ub.2 ↔ is_Some (file_at (dk_files (w_disk w)) t))
       ∧ files_ok limits (dk_files (w_disk w)))) w.
Proof using Hlisting.
  intros Htree Hroot Hd0 Hdepth Hmax Hk Hfirst Hfuel. unfold open_generation.
  eapply looked_bind; [eapply (looked_disk _ (fun _ => True))|].
  { eapply wp_mono; [apply wp_open_private|]. intros [a|[]] d; cbn; try done. by intros [? _]. }
  intros [] w1 E1 _. eapply (looked_bind _ _ (fun _ => True)).
  { unfold wp. rewrite (lock_exclusive_decides _ _ k); [|done|lia|lia|intros; apply Hfirst; lia].
    repeat split. by destruct (tries k). }
  intros [] w2 E2 _.
  eapply (looked_bind _ _ (fun u => u = usage_of (nodes (dk_files (w_disk w2))))).
  { apply looked_disk. unfold scan_usage. rewrite <- E1, <- E2 in *.
    pose proof (scan_sound io listing Hlisting _ Hmax depth [] (mkUsage 0 0 0) _ Htree ltac:(done)) as Hs.
    pose proof (scan_ends io listing (startup_max_entries limits) _ (Nat.pred depth)
      (fun q Hq => ltac:(specialize (Hdepth q Hq); lia)) depth [] (mkUsage 0 0 0) (w_disk w2) eq_refl) as He.
    unfold wp in *. specialize (He ltac:(cbn; lia)).
    destruct (scan _ _ _ _ _ _ _) as [[u|[e| |]] d']; cbn in *; destruct Hs as [Hd Hu], He as [_ He]; try done.
    split; [done|]. rewrite Hu, descendants_root by done. done. }
  intros u w3 E3 ->. apply wp_bind, wp_of_result; [|repeat split]. intros u Hu.
  eapply looked_bind; [eapply (looked_disk _ (fun names => names ≡ₚ listing (dk_files (w_disk w3)) data))|].
  { eapply wp_mono; [apply wp_entries_bounded|]. intros [a|[]] d; cbn; try done. by intros [-> ->]. }
  intros tokens w4 E4 Htok. eapply looked_bind; [apply baseline_of_ok|]. intros b w5 E5 [Hb Hall].
  assert (dk_files (w_disk w4) = dk_files (w_disk w)) as E04 by congruence.
  assert (∀ t, t ∈ tokens ↔ is_Some (file_at (dk_files (w_disk w)) t)) as Htokens.
  { intros t. rewrite Htok, <- E04, E4. apply Hlisting. }
  apply looked_pure. cbn. split; [|split].
  - rewrite E2, E1 in Hu. by apply with_directory_entry_total.
  - intros t. rewrite Hb, Htokens. split; [by intros [[]%not_elem_of_empty|?]|by right].
  - intros t n Hn. destruct (Hall t) as (n' & Hn' & Hp & Hl); [apply Htokens; by eexists|].
    rewrite E04 in Hn'. by simplify_eq.
Qed.

(** The handle of a new transaction. *)
Lemma begin_transaction_ok (client : Client) (grant : Grant) (fuel depth k : nat) (tries : nat → TryLock)
    (expired : nat → bool) (w : World) :
  let ns := namespace_key (gr_base_token grant) (gr_generation_token grant) in
  limits_ok limits → client (w_turn w) None 0%nat (w_ledger w) →
  (∀ u res s, usage_ok u → begin limits ns u (others (w_turn w) (w_ledger w)) = (res, s) →
     client (S (w_turn w)) (match res with Ok r => Some r | Err _ => None end) 0%nat s) →
  tree_ok (dk_files (w_disk w)) → dk_files (w_disk w) !! [] = None →
  (0 < depth)%nat → (∀ q, is_Some (dk_files (w_disk w) !! q) → (length q < depth)%nat) →
  startup_max_entries limits < HARD_MAX_DIRECTORY_ENTRIES →
  decided tries expired k → (∀ j, (j < k)%nat → ¬ decided tries expired j) → (k < fuel)%nat →
  wp (begin_transaction limits io listing others grant fuel depth tries expired)
    (fun r w' => dk_files (w_disk w') = dk_files (w_disk w)
       ∧ match r with
         | Ok _ => inv limits ns client ∅ w' ∧ hd_failed (w_hd w') = false ∧ hd_finalized (w_hd w') = false
                   ∧ hd_access (w_hd w') = gr_access grant ∧ hd_interface (w_hd w') = gr_interface grant
                   ∧ hd_pending_delete (w_hd w') = ∅ ∧ hd_handles (w_hd w') = ∅
                   ∧ hd_base_token (w_hd w') = gr_base_token grant
                   ∧ hd_generation_token (w_hd w') = gr_generation_token grant
                   ∧ is_Some (hd_reservation (w_hd w'))
         | Err (Throws _) => client (w_turn w') None 0%nat (w_ledger w')
         | Err _ => False
         end) w.
Proof using Hlisting.
  intros ns Hl Hcl Hbegin Htree Hroot Hd0 Hdepth Hstart Hk Hfirst Hfuel. unfold begin_transaction.
  destruct (limits_bounded_files limits (limits_range _ Hl)) as [Hmf [Hse _]].
  eapply wp_step; [apply (open_generation_ok fuel depth k); (done || lia)| |].
  2:{ intros e w1 (E1 & E2 & E3 & E4 & He). split; [done|]. destruct e; try done. by rewrite E2, E3. }
  intros [u b] w1 (E1 & E2 & E3 & E4 & Hu & Hb & Hf). cbn [fst snd] in *.
  destruct (_ <? _) eqn:Ec; [apply wp_raise; split; [done|]; by rewrite E2, E3|]. apply Z.ltb_ge in Ec.
  destruct (_ <? bytes u) eqn:En; [apply wp_raise; split; [done|]; by rewrite E2, E3|].
  apply wp_bind, wp_on_ledger. intros res s Hres. rewrite E2, E3 in Hres.
  pose proof (Hbegin u res s ltac:(rewrite Hu; apply usage_nonneg) Hres) as Hcl'.
  destruct res as [r|e].
  - apply begin_Ok in Hres as (-> & -> & _). apply wp_modify. split; [done|]. hd_cbn. split; [|by repeat split].
    destruct (limits_positive limits Hl) as (? & ? & ? & ?).
    constructor; hd_cbn; try done; rewrite ?E4.
    + by rewrite E3, map_size_empty.
    + constructor; hd_cbn; rewrite ?E4; try done; cbn; by rewrite ns_get_insert_eq.
    + done.
  - cbn. split; [done|]. by rewrite E3.
Qed.

End Begin.

(** ** The ledger discharges the interface *)

Section Hosted.
Context (limits : StorageLimits) (usage : Usage).
Context (others : nat → LedgerState → LedgerState) (ns : str).

(** A transaction among others: the ledger is one the host reaches, the
    reservation is one of its guards, and the handles are among those it
    counts, beside the [theirs i] of the others at turn [i]. *)
Definition hosted (theirs : nat → Z) : Client := fun i r n s =>
  ∃ h, h_state h = s ∧ rtc (host_step limits) (host_new usage) h
       ∧ (∀ r0, r = Some r0 → r0 ∈ h_invs h ∧ rs_namespace r0 = ns)
       ∧ 0 ≤ theirs i ∧ theirs i + Z.of_nat n ≤ h_handles h.

(** What the others do between two uses of the ledger: any steps of the host
    that keep the guards of this namespace and the handles that are not
    theirs. *)
Definition interferes (theirs : nat → Z) : Prop :=
  ∀ i h, rtc (host_step limits) (host_new usage) h → theirs i ≤ h_handles h →
  ∃ h', rtc (host_step limits) h h' ∧ h_state h' = others i (h_state h)
        ∧ (∀ r, rs_namespace r = ns → r ∈ h_invs h → r ∈ h_invs h')
        ∧ 0 ≤ theirs (S i) ∧ h_handles h - theirs i ≤ h_handles h' - theirs (S i).

(** One step of the host for the transaction. *)
Lemma hosted_step (theirs : nat → Z) (i : nat) (r r' : option Reservation) (n n' : nat)
    (s s' : LedgerState) :
  hosted theirs i r n s →
  (∀ rs iv kr ki k, (∀ r0, r = Some r0 → r0 ∈ iv ∧ rs_namespace r0 = ns) → theirs i + Z.of_nat n ≤ k →
     ∃ rs' iv' kr' ki' k', host_step limits (mkHost s rs iv kr ki k) (mkHost s' rs' iv' kr' ki' k')
       ∧ (∀ r0, r' = Some r0 → r0 ∈ iv' ∧ rs_namespace r0 = ns) ∧ theirs i + Z.of_nat n' ≤ k') →
  hosted theirs i r' n' s'.
Proof.
  intros ([s0 rs iv kr ki k] & Es & Hrun & Hr & Ht & Hn) Hstep. cbn in *. subst s0.
  destruct (Hstep rs iv kr ki k Hr Hn) as (rs' & iv' & kr' & ki' & k' & Hs & Hr' & Hn').
  exists (mkHost s' rs' iv' kr' ki' k'). cbn. split; [done|]. split; [by eapply rtc_r|]. done.
Qed.

Lemma reserve_to_namespace (r : Reservation) (d de : Z) (s s' : LedgerState) res :
  reserve_to limits r d de s = (res, s') → rs_namespace (updated r res) = rs_namespace r.
Proof. intros H. by apply reserve_to_keeps in H as (_ & _ & ? & _). Qed.

Lemma observe_direct_namespace (r : Reservation) (u : Usage) (s s' : LedgerState) res :
  observe_direct r u s = (res, s') → rs_namespace (updated r res) = rs_namespace r.
Proof. intros H. by apply observe_direct_keeps in H as [? _]. Qed.

Lemma hosted_begin (theirs : nat → Z) (i n : nat) (s s' : LedgerState) (u : Usage) res :
  hosted theirs i None n s → usage_ok u → begin limits ns u s = (res, s') →
  hosted theirs i (match res with Ok r => Some r | Err _ => None end) n s'.
Proof.
  intros Hc Hu Hb. eapply hosted_step; [exact Hc|]. intros rs iv kr ki k _ Hn. destruct res as [r|e].
  - exists rs, (r :: iv), kr, ki, k. split; [by eapply hs_begin|]. split; [|done]. intros r0 [= <-].
    apply begin_Ok in Hb as [-> _]. split; [by left|done].
  - exists rs, iv, kr, ki, k. by split; [eapply hs_begin_err|].
Qed.

Lemma hosted_laws (theirs : nat → Z) :
  interferes theirs → client_laws limits others ns (hosted theirs).
Proof.
  intros Hint. constructor.
  - intros i r n s (h & <- & Hrun & Hr & Ht & Hn). destruct (Hint i h Hrun) as (h' & Hs & Es & Hk & Ht' & Hn'); [lia|].
    exists h'. split; [done|]. split; [by etransitivity|]. split; [|split; [done|lia]].
    intros r0 E. destruct (Hr r0 E). auto.
  - intros i r n s d de res s' Hc Hres. eapply hosted_step; [exact Hc|]. intros rs iv kr ki k Hr Hn.
    destruct (Hr r eq_refl) as [(i1 & i2 & ->)%list_elem_of_split Ens].
    exists rs, (i1 ++ updated r res :: i2), kr, ki, k. split; [by eapply hs_reserve_to|]. split; [|done].
    intros r0 [= <-]. split; [apply elem_of_app; right; by left|]. by rewrite (reserve_to_namespace _ _ _ _ _ _ Hres).
  - intros i r n s u res s' Hc Hw Hobs. eapply hosted_step; [exact Hc|]. intros rs iv kr ki k Hr Hn.
    destruct (Hr r eq_refl) as [(i1 & i2 & ->)%list_elem_of_split Ens].
    exists rs, (i1 ++ updated r res :: i2), kr, ki, k. split; [by eapply hs_observe_direct|]. split; [|done].
    intros r0 [= <-]. split; [apply elem_of_app; right; by left|]. by rewrite (observe_direct_namespace _ _ _ _ _ Hobs).
  - intros i r n s Hc. eapply hosted_step; [exact Hc|]. intros rs iv kr ki k Hr Hn.
    destruct (Hr r eq_refl) as [(i1 & i2 & ->)%list_elem_of_split Ens].
    exists rs, (i1 ++ i2), kr, (r :: ki), k. by split; [apply hs_retain|].
  - intros i r n s Hc. eapply hosted_step; [exact Hc|]. intros rs iv kr ki k Hr Hn.
    destruct (Hr r eq_refl) as [(i1 & i2 & ->)%list_elem_of_split Ens].
    exists rs, (i1 ++ i2), kr, ki, k. by split; [apply hs_abort|].
  - intros i r n s res s' Hc Hacq. eapply hosted_step; [exact Hc|]. intros rs iv kr ki k Hr Hn.
    destruct res as [[]|e]; cbn [is_ok].
    + exists rs, iv, kr, ki, (k + 1). split; [by apply hs_acquire|]. split; [done|lia].
    + exists rs, iv, kr, ki, k. by split; [eapply hs_acquire_err|].
  - intros i r n s Hc. pose proof Hc as (_ & _ & _ & _ & Ht & _).
    eapply hosted_step; [exact Hc|]. intros rs iv kr ki k Hr Hn.
    exists rs, iv, kr, ki, (k - 1). split; [apply hs_release; lia|]. split; [done|lia].
Qed.

End Hosted.

(** A transaction that runs alone on a host: the host is the one it found,
    with its own reservation and handles; or, when [kept] are allowed, with a
    reservation that is kept for good. *)
Section Solo.
Context (limits : StorageLimits) (usage : Usage) (h0 : Host) (ns : str).

Definition solo (kept : bool) : Client := fun _ r n s =>
  ∃ h, h_state h = s ∧ rtc (host_step limits) (host_new usage) h
       ∧ h_roots h = h_roots h0 ∧ h_kept_roots h = h_kept_roots h0
       ∧ h_handles h = h_handles h0 + Z.of_nat n
       ∧ match r with
         | Some r0 => h_invs h = r0 :: h_invs h0 ∧ h_kept_invs h = h_kept_invs h0
         | None => h_invs h = h_invs h0
                   ∧ (h_kept_invs h = h_kept_invs h0
                      ∨ kept = true ∧ ∃ r0, h_kept_invs h = r0 :: h_kept_invs h0)
         end.

Definition alone (i : nat) (s : LedgerState) : LedgerState := s.

Lemma alone_leaves : leaves_alone alone ns.
Proof. done. Qed.

Ltac solo_start :=
  match goal with
  | H : solo _ _ _ _ _ |- _ =>
      destruct H as ([?s0 ?rs ?iv ?kr ?ki ?k] & ?Es & ?Hrun & ?Er & ?Ekr & ?Ek & ?Hr); cbn in *; subst;
      try (destruct Hr as [-> ->])
  end.
Ltac solo_end host :=
  exists host; cbn; split; [done|]; split; [eapply rtc_r; [eassumption|]|
    split; [done|]; split; [done|]; split; [lia|]; eauto].

Hypothesis (Hpos : 0 ≤ h_handles h0).

Lemma solo_end_laws (kept : bool) : end_laws alone (solo kept).
Proof using Hpos.
  constructor; unfold alone; [done| |].
  - intros i r n s Hc. solo_start. solo_end (mkHost (Reservation_abort r s) (h_roots h0) (h_invs h0) (h_kept_roots h0)
      (h_kept_invs h0) (h_handles h0 + Z.of_nat n)). apply (hs_abort limits s (h_roots h0) []).
  - intros i r n s Hc. solo_start. solo_end (mkHost (release_handle s) (h_roots h0) iv (h_kept_roots h0)
      ki (h_handles h0 + Z.of_nat (S n) - 1)). apply hs_release. lia.
Qed.

Lemma solo_laws : client_laws limits alone ns (solo true).
Proof using Hpos.
  destruct (solo_end_laws true) as [Ho Ha Hr]. constructor; try done; clear Ho Ha Hr.
  - intros i r n s d de res s' Hc Hres. solo_start. solo_end (mkHost s' (h_roots h0) (updated r res :: h_invs h0)
      (h_kept_roots h0) (h_kept_invs h0) (h_handles h0 + Z.of_nat n)). by apply (hs_reserve_to limits _ _ []) with d de.
  - intros i r n s u res s' Hc Hw Hobs. solo_start. solo_end (mkHost s' (h_roots h0) (updated r res :: h_invs h0)
      (h_kept_roots h0) (h_kept_invs h0) (h_handles h0 + Z.of_nat n)). by apply (hs_observe_direct limits _ _ []) with u.
  - intros i r n s Hc. solo_start. solo_end (mkHost (retain_after_unknown r s) (h_roots h0) (h_invs h0)
      (h_kept_roots h0) (r :: h_kept_invs h0) (h_handles h0 + Z.of_nat n)). apply (hs_retain limits s (h_roots h0) []).
  - intros i r n s res s' Hc Hacq. solo_start. destruct res as [[]|e]; cbn [is_ok].
    + solo_end (mkHost s' (h_roots h0) iv (h_kept_roots h0) ki (h_handles h0 + Z.of_nat n + 1)). by apply hs_acquire.
    + solo_end (mkHost s' (h_roots h0) iv (h_kept_roots h0) ki (h_handles h0 + Z.of_nat n)). by eapply hs_acquire_err.
Qed.

(** With no reservation of its own, what the ledger counts is as it was. *)
Definition same_held (s s' : LedgerState) : Prop :=
  root_reserved s' = root_reserved s ∧ root_entries_reserved s' = root_entries_reserved s
  ∧ active_invocations s' = active_invocations s ∧ open_handles s' = open_handles s
  ∧ ∀ n, ns_get (namespace_reserved s') n = ns_get (namespace_reserved s) n.

Lemma solo_same_held (i : nat) (s : LedgerState) :
  limits_u64 limits → usage_ok usage → bytes usage ≤ u64_max → entries usage ≤ u64_max →
  rtc (host_step limits) (host_new usage) h0 → solo false i None 0 s → same_held (h_state h0) s.
Proof using.
  intros Hl Hu Hb He Hrun0 (h & <- & Hrun & Er & Ekr & Ek & Ei & [Eki|[[=] _]]).
  destruct (host_inv_reachable limits Hl usage Hb He _ _ Hrun0) as [[_ _ _ B0 E0 N0 A0 H0] _]; [by apply host_inv_new|].
  destruct (host_inv_reachable limits Hl usage Hb He _ _ Hrun) as [[_ _ _ B1 E1 N1 A1 H1] _]; [by apply host_inv_new|].
  unfold held_bytes, held_entries, held_in in *. rewrite Er, Ekr, Ei, Eki in *.
  unfold same_held. split; [congruence|]. split; [congruence|]. split; [congruence|]. split; [lia|].
  intros n. by rewrite N0, N1.
Qed.

End Solo.
