(* ===== verification/StorageCalls.v ===== *)
(** * Calls on a storage transaction

    The calls a provider makes on a transaction, in any sequence; the abstract
    store they implement; and the properties of transactions: they refine the
    store, keep their accounts and the quotas of the host whatever fails,
    never panic, give back what they took, and never write with a read-only
    grant. *)

From Stdlib Require Import ZArith Lia Ascii String.
From stdpp Require Import base gmap strings list sorting numbers.
From S2P Require Import Prelude.
From S2P Require Import RustStr.
From S2P Require Import Capability.
From S2P Require Import StorageConfig.
From S2P Require Import Quota.
From S2P Require Import Keys.
From S2P Require Import StorageDir.
From S2P Require Import StorageScan.
From S2P Require Import StorageHandle.
From S2P Require Import StorageEffects.
From S2P Require Import StorageTransaction.
From S2P Require Import StorageOps.
From S2P Require Import StorageLifetime.

(** ** Calls *)

Inductive Op : Type :=
| OpOpen (name : str) (options : OpenOptions)
| OpClose (handle : Z)
| OpStat (name : str)
| OpReadAt (handle offset maximum : Z)
| OpWriteAt (handle offset : Z) (bytes : list Z)
| OpSize (handle : Z)
| OpTruncate (handle size : Z)
| OpSync (handle : Z)
| OpRemove (name : str)
| OpRename (from to : str) (replace : bool)
| OpRandom (fill : Z → option (list Z)) (length : Z)
| OpMonotonic (elapsed : Z)
| OpWall (now : option Z)
| OpRecordsSize (name : str)
| OpRecordsRead (name : str) (offset max_bytes : Z)
| OpRecordsAppend (name : str) (expected_size : Z) (record : list Z)
| OpRecordsReplace (name : str) (expected_size : Z) (contents : list Z).

Inductive Answer : Type :=
| Done
| Number (n : Z)
| Bytes (b : list Z)
| Stat (stat : option FileStat)
| Chunk (chunk : JsonlChunk).

(** Offsets and sizes are unsigned. *)
Definition op_ok (op : Op) : Prop :=
  match op with
  | OpReadAt _ offset _ | OpWriteAt _ offset _ | OpRecordsRead _ offset _ => 0 ≤ offset
  | OpTruncate _ size => 0 ≤ size
  | _ => True
  end.

Definition answering {S A : Type} (f : A → Answer) (m : act S A) : act S Answer := a ⇚ m; pure (f a).

Section Calls.
Context (limits : StorageLimits).
Context (io : nat → Ending).
Context (others : nat → LedgerState → LedgerState).
Context (sha256 : list Z → list Z) (is_json : list Z → bool).

Definition run_op (op : Op) : act World Answer :=
  match op with
  | OpOpen name options => answering Number (vfs_open limits io others sha256 name options)
  | OpClose handle => answering (fun _ => Done) (vfs_close limits io others handle)
  | OpStat name => answering Stat (vfs_stat limits io sha256 name)
  | OpReadAt handle offset maximum => answering Bytes (vfs_read_at limits io handle offset maximum)
  | OpWriteAt handle offset bytes =>
      answering (fun _ => Done) (vfs_write_at limits io others handle offset bytes)
  | OpSize handle => answering Number (vfs_size limits handle)
  | OpTruncate handle size => answering (fun _ => Done) (vfs_truncate limits io others handle size)
  | OpSync handle => answering (fun _ => Done) (vfs_sync limits io handle)
  | OpRemove name => answering (fun _ => Done) (vfs_remove limits io others sha256 name)
  | OpRename from to replace =>
      answering (fun _ => Done) (vfs_rename_atomic limits io others sha256 from to replace)
  | OpRandom fill length => answering Bytes (vfs_random_bytes limits fill length)
  | OpMonotonic elapsed => answering Number (vfs_monotonic_time_ns limits elapsed)
  | OpWall now => answering Number (vfs_wall_time_ms limits now)
  | OpRecordsSize name => answering Number (jsonl_size limits io sha256 name)
  | OpRecordsRead name offset max_bytes =>
      answering Chunk (jsonl_read_chunk limits io sha256 name offset max_bytes)
  | OpRecordsAppend name expected_size record =>
      answering Number (jsonl_append limits io others sha256 is_json name expected_size record)
  | OpRecordsReplace name expected_size contents =>
      answering (fun _ => Done) (jsonl_replace limits io others sha256 is_json name expected_size contents)
  end.

(** A provider sees the errors of its calls and goes on. *)
Fixpoint run_ops (ops : list Op) : act World (list (result StorageHostError Answer)) :=
  match ops with
  | [] => pure []
  | op :: ops => a ⇚ attempt (run_op op); rest ⇚ run_ops ops; pure (a :: rest)
  end.

End Calls.

(** ** Fields the calls leave alone *)

(** [f] reads none of the fields that operations update as they succeed. *)
Record indifferent {F : Type} (f : StorageHandle → F) : Prop := {
  in_entries : ∀ v h, f (set_entries v h) = f h;
  in_usage : ∀ v h, f (set_usage v h) = f h;
  in_baseline : ∀ v h, f (set_baseline_files v h) = f h;
  in_identity : ∀ v h, f (set_next_file_identity v h) = f h;
  in_calls : ∀ v h, f (set_host_calls v h) = f h;
  in_read : ∀ v h, f (set_read_bytes v h) = f h;
  in_loaded : ∀ v h, f (set_native_loaded_bytes v h) = f h;
  in_write : ∀ v h, f (set_write_bytes v h) = f h;
  in_entropy : ∀ v h, f (set_entropy_bytes v h) = f h;
  in_evidence : ∀ v h, f (set_evidence v h) = f h;
  in_reservation : ∀ v h, f (set_reservation v h) = f h
}.

Definition opens_or_closes (op : Op) : bool :=
  match op with OpOpen _ _ | OpClose _ => true | _ => false end.

Section Keeps.
Context {F : Type} (f : StorageHandle → F) (Hf : indifferent f).
Context (limits : StorageLimits) (io : nat → Ending) (others : nat → LedgerState → LedgerState).
Context (sha256 : list Z → list Z) (is_json : list Z → bool).

Ltac walk_with tac :=
  repeat
    match goal with
    | |- keeps _ (on_disk _) => apply keeps_on_disk
    | |- keeps _ (on_ledger _ _) => apply keeps_on_ledger
    | |- keeps _ (ledger_do _ _) => apply keeps_on_ledger
    | |- keeps _ (attempt _) => apply keeps_attempt
    | |- keeps _ (abind _ _) => apply keeps_bind; [|intros ?]
    | |- keeps _ (update _) => apply keeps_update; intros ?; solve [apply Hf|tac]
    | |- keeps _ (match ?x with _ => _ end) => destruct x
    | |- keeps _ (of_option _ _) => apply keeps_of_option
    | |- keeps _ (of_result _) => apply keeps_of_result
    | |- keeps _ (expect _) => intros ?w; unfold expect; case_match; reflexivity
    | |- keeps _ (pure _) => intros ?w; reflexivity
    | |- keeps _ (raise _) => intros ?w; reflexivity
    | |- keeps _ self => intros ?w; reflexivity
    | |- keeps _ (plan_changes _ _ _ _) => apply plan_changes_keeps
    | H : keeps _ ?m |- keeps _ ?m => exact H
    | H : ∀ _, keeps _ _ |- keeps _ _ => apply H
    end.

Ltac walk := walk_with ltac:(fail).

Lemma note_call_keeps : keeps f (note_call limits).
Proof using Hf. unfold note_call. walk. Qed.

Lemma charge_read_keeps n : keeps f (charge_read limits n).
Proof using Hf. unfold charge_read. walk. Qed.

Lemma charge_write_keeps n : keeps f (charge_write limits n).
Proof using Hf. unfold charge_write. walk. Qed.

Lemma charge_entropy_keeps n : keeps f (charge_entropy limits n).
Proof using Hf. unfold charge_entropy. walk. Qed.

Lemma allocate_file_identity_keeps : keeps f allocate_file_identity.
Proof using Hf. unfold allocate_file_identity. walk. Qed.

Lemma ensure_entry_keeps name : keeps f (ensure_entry limits io sha256 name).
Proof using Hf. pose proof allocate_file_identity_keeps as H. unfold ensure_entry. walk. Qed.

Lemma note_quota_denial_keeps : keeps f note_quota_denial.
Proof using Hf. unfold note_quota_denial. walk. Qed.

Lemma entry_keeps t : keeps f (entry t).
Proof using. unfold entry. walk. Qed.

Lemma update_entry_keeps t g : keeps f (update_entry t g).
Proof using Hf. unfold update_entry. walk. Qed.

Lemma ensure_loaded_keeps name : keeps f (ensure_loaded limits io sha256 name).
Proof using Hf.
  pose proof ensure_entry_keeps as H1. pose proof update_entry_keeps as H2. pose proof note_quota_denial_keeps as H3.
  unfold ensure_loaded, load_token. walk. apply H2.
Qed.

Lemma reserve_candidate_keeps changes : keeps f (reserve_candidate limits io others changes).
Proof using Hf. pose proof note_quota_denial_keeps as H. unfold reserve_candidate. walk. Qed.

Lemma observed_sizes_keeps planned : keeps f (observed_sizes io planned).
Proof using. induction planned; cbn [observed_sizes]; walk. Qed.

Lemma accounting_keeps (result : result StorageHostError unit) planned :
  keeps f (attempt (if is_ok result then account_planned others planned else account_observed io others planned)).
Proof using Hf.
  pose proof observed_sizes_keeps as H.
  unfold account_planned, account_observed, account_final_sizes. walk.
Qed.

(** Whether an operation that returns a value leaves the field. *)
Definition oks_keep {A : Type} (m : act World A) : Prop :=
  ∀ w, match (m w).1 with Ok _ => f (w_hd (m w).2) = f (w_hd w) | Err _ => True end.

Lemma oks_keep_of {A : Type} (m : act World A) : keeps f m → oks_keep m.
Proof using. intros Hm w. specialize (Hm w). by destruct (m w).1. Qed.

Lemma oks_keep_bind {A B : Type} (m : act World A) (k : A → act World B) :
  oks_keep m → (∀ a, oks_keep (k a)) → oks_keep (abind m k).
Proof using.
  intros Hm Hk w. unfold abind. specialize (Hm w). destruct (m w) as [[a|e] w']; cbn in *; [|done].
  specialize (Hk a w'). destruct (k a w') as [[b|e] w'']; cbn in *; [congruence|done].
Qed.

Lemma oks_keep_attempt {A : Type} (m : act World A) (undo : act World unit) :
  oks_keep m → oks_keep (r ⇚ attempt m; _ ⇚ (if is_ok r then pure tt else undo); of_result r).
Proof using.
  intros Hm w. specialize (Hm w). unfold abind, attempt. destruct (m w) as [[a|[e| |]] w']; cbn in *; try done.
  by destruct (undo w') as [[[]|e'] w''].
Qed.

Lemma after_mutation_oks_keep result planned : oks_keep (after_mutation io others result planned).
Proof using Hf.
  unfold after_mutation. apply oks_keep_bind; [apply oks_keep_of, accounting_keeps|]. intros acc.
  apply oks_keep_bind; [by intros w|]. intros h.
  apply oks_keep_bind; [apply oks_keep_of; walk|]. intros [] w.
  by destruct (let? _ := result in acc) as [[]|e].
Qed.

Lemma run_op_oks_keep (op : Op) :
  (∀ v h, f (set_handles v h) = f h) → (∀ v h, f (set_next_handle v h) = f h) →
  (∀ v h, f (set_pending_delete v h) = f h) → oks_keep (run_op limits io others sha256 is_json op).
Proof using Hf.
  intros H1 H2 H3. pose proof note_call_keeps. pose proof charge_read_keeps. pose proof charge_write_keeps.
  pose proof charge_entropy_keeps. pose proof ensure_entry_keeps. pose proof ensure_loaded_keeps.
  pose proof reserve_candidate_keeps. pose proof entry_keeps. pose proof allocate_file_identity_keeps.
  pose proof update_entry_keeps.
  destruct op; cbn [run_op];
    unfold answering, vfs_open, vfs_close, vfs_stat, vfs_read_at, vfs_write_at, vfs_size, vfs_truncate, vfs_sync,
      vfs_remove, vfs_rename_atomic, vfs_random_bytes, vfs_monotonic_time_ns, vfs_wall_time_ms, jsonl_size,
      jsonl_read_chunk, jsonl_append, jsonl_replace, require_vfs, require_jsonl, write_direct, write_range,
      truncate_direct;
    repeat first
      [apply after_mutation_oks_keep
      |apply oks_keep_of; solve [eauto 2]
      |apply oks_keep_attempt
      |apply oks_keep_bind; [|intros ?]
      |match goal with
       | |- oks_keep (match ?x with _ => _ end) => destruct x
       end
      |apply oks_keep_of; solve [walk_with ltac:(first [apply H1|apply H2|apply H3]); eauto]].
Qed.

(** The operations on files that are open leave whatever [open] and [close]
    may change as well as [failed]. *)
Context (Hfail : ∀ v h, f (set_failed v h) = f h).

Lemma after_mutation_keeps result planned : keeps f (after_mutation io others result planned).
Proof using Hf Hfail.
  unfold after_mutation. apply keeps_bind; [apply accounting_keeps|]. intros acc.
  walk_with ltac:(apply Hfail).
Qed.

Lemma run_op_keeps (op : Op) :
  opens_or_closes op = false → keeps f (run_op limits io others sha256 is_json op).
Proof using Hf Hfail.
  intros Hop. pose proof note_call_keeps. pose proof charge_read_keeps. pose proof charge_write_keeps.
  pose proof charge_entropy_keeps. pose proof ensure_entry_keeps. pose proof ensure_loaded_keeps.
  pose proof reserve_candidate_keeps. pose proof after_mutation_keeps. pose proof entry_keeps.
  pose proof update_entry_keeps.
  destruct op; try done; cbn [run_op];
    unfold answering, vfs_stat, vfs_read_at, vfs_write_at, vfs_size, vfs_truncate, vfs_sync, vfs_remove,
      vfs_rename_atomic, vfs_random_bytes, vfs_monotonic_time_ns, vfs_wall_time_ms, jsonl_size,
      jsonl_read_chunk, jsonl_append, jsonl_replace, require_vfs, require_jsonl, write_direct, write_range,
      truncate_direct;
    walk; eauto.
Qed.

Lemma open_keeps (name : str) (options : OpenOptions) :
  (∀ v h, f (set_handles v h) = f h) → (∀ v h, f (set_next_handle v h) = f h) →
  keeps f (run_op limits io others sha256 is_json (OpOpen name options)).
Proof using Hf Hfail.
  intros H1 H2. pose proof note_call_keeps. pose proof charge_write_keeps.
  pose proof ensure_entry_keeps. pose proof reserve_candidate_keeps. pose proof after_mutation_keeps.
  pose proof entry_keeps. pose proof update_entry_keeps. pose proof allocate_file_identity_keeps.
  cbn [run_op]. unfold answering, vfs_open, require_vfs, write_direct.
  walk_with ltac:(first [apply H1|apply H2]); eauto.
Qed.

Lemma close_keeps (handle : Z) :
  (∀ v h, f (set_handles v h) = f h) → (∀ v h, f (set_pending_delete v h) = f h) →
  keeps f (run_op limits io others sha256 is_json (OpClose handle)).
Proof using Hf Hfail.
  intros H1 H2. pose proof note_call_keeps. pose proof reserve_candidate_keeps. pose proof after_mutation_keeps.
  cbn [run_op]. unfold answering, vfs_close, require_vfs, write_direct.
  walk_with ltac:(first [apply H1|apply H2]); eauto.
Qed.

(** Whether an operation that returns an error leaves the field. *)
Definition errs_keep {A : Type} (m : act World A) : Prop :=
  ∀ w, match (m w).1 with Err _ => f (w_hd (m w).2) = f (w_hd w) | Ok _ => True end.

Lemma errs_keep_of {A : Type} (m : act World A) : keeps f m → errs_keep m.
Proof using. intros Hm w. specialize (Hm w). by destruct (m w).1. Qed.

Lemma errs_keep_bind {A B : Type} (m : act World A) (k : A → act World B) :
  keeps f m → (∀ a, errs_keep (k a)) → errs_keep (abind m k).
Proof using.
  intros Hm Hk w. unfold abind. specialize (Hm w). destruct (m w) as [[a|e] w']; cbn in *; [|done].
  specialize (Hk a w'). destruct (k a w') as [[b|e] w'']; cbn in *; [done|congruence].
Qed.

(** The block of [open], whose error releases the handle. *)
Lemma errs_keep_attempt {A : Type} (m : act World A) (undo : act World unit) :
  errs_keep m → keeps f undo →
  errs_keep (r ⇚ attempt m; _ ⇚ (if is_ok r then pure tt else undo); of_result r).
Proof using.
  intros Hm Hu w. specialize (Hm w). unfold abind, attempt. destruct (m w) as [[a|[e| |]] w']; cbn in *; try done.
  specialize (Hu w'). destruct (undo w') as [[[]|e'] w'']; cbn in *; congruence.
Qed.

Lemma open_errs_keep (name : str) (options : OpenOptions) : errs_keep (vfs_open limits io others sha256 name options).
Proof using Hf Hfail.
  pose proof note_call_keeps. pose proof charge_write_keeps.
  pose proof ensure_entry_keeps. pose proof reserve_candidate_keeps. pose proof after_mutation_keeps.
  pose proof entry_keeps. pose proof update_entry_keeps. pose proof allocate_file_identity_keeps.
  unfold vfs_open, require_vfs, write_direct.
  repeat first [apply errs_keep_attempt; [|walk]
               |apply errs_keep_bind; [solve [walk; eauto]|intros ?]
               |match goal with |- errs_keep (if ?b then _ else _) => destruct b end
               |apply errs_keep_of; solve [walk]].
  intros w. done.
Qed.

End Keeps.

(** What the grant fixed stays for all calls. *)
Record granted (w w' : World) : Prop := {
  gt_interface : hd_interface (w_hd w') = hd_interface (w_hd w);
  gt_access : hd_access (w_hd w') = hd_access (w_hd w);
  gt_base : hd_base_token (w_hd w') = hd_base_token (w_hd w);
  gt_generation : hd_generation_token (w_hd w') = hd_generation_token (w_hd w);
  gt_finalized : hd_finalized (w_hd w') = hd_finalized (w_hd w)
}.

#[global] Instance granted_preorder : PreOrder granted.
Proof. split; [by constructor|]. intros w1 w2 w3 [] []. constructor; congruence. Qed.

Section Granted.
Context (limits : StorageLimits) (io : nat → Ending) (others : nat → LedgerState → LedgerState).
Context (sha256 : list Z → list Z) (is_json : list Z → bool).

Abbreviation call := (run_op limits io others sha256 is_json).

Lemma run_op_any_keeps {F : Type} (f : StorageHandle → F) (op : Op) :
  indifferent f → (∀ v h, f (set_failed v h) = f h) → (∀ v h, f (set_handles v h) = f h) → (∀ v h, f (set_next_handle v h) = f h) →
  (∀ v h, f (set_pending_delete v h) = f h) → keeps f (call op).
Proof using.
  intros Hf H0 H1 H2 H3. destruct (opens_or_closes op) eqn:E; [|by apply run_op_keeps].
  destruct op; try done; [by apply open_keeps|by apply close_keeps].
Qed.

Lemma run_op_granted (op : Op) (w : World) : granted w (call op w).2.
Proof using. constructor; apply run_op_any_keeps; done. Qed.

(** Every call but [open] and [close] leaves the handles and what is pending. *)
Lemma run_op_handles (op : Op) (w : World) :
  opens_or_closes op = false →
  hd_handles (w_hd (call op w).2) = hd_handles (w_hd w)
  ∧ hd_pending_delete (w_hd (call op w).2) = hd_pending_delete (w_hd w).
Proof using. intros Hop. split; by apply run_op_keeps. Qed.

Lemma open_pending (name : str) (options : OpenOptions) (w : World) :
  hd_pending_delete (w_hd (call (OpOpen name options) w).2) = hd_pending_delete (w_hd w).
Proof using. by apply (open_keeps hd_pending_delete). Qed.

Lemma open_error_handles (name : str) (options : OpenOptions) (w : World) (e : Exn) :
  (call (OpOpen name options) w).1 = Err e →
  hd_handles (w_hd (call (OpOpen name options) w).2) = hd_handles (w_hd w).
Proof using.
  pose proof (open_errs_keep hd_handles) as H. cbn [run_op]. unfold answering, abind, errs_keep in *.
  specialize (H ltac:(by constructor) limits io others sha256 ltac:(done) name options w).
  by destruct (vfs_open _ _ _ _ _ _ w) as [[k|x] w'].
Qed.

Lemma update_handles {B : Type} (g : StorageHandle → StorageHandle → StorageHandle)
    (k : StorageHandle → unit → act World B) (w : World) :
  (∀ h u, keeps hd_handles (k h u)) →
  hd_handles (w_hd ((h ⇚ self; abind (update (g h)) (k h)) w).2) = hd_handles (g (w_hd w) (w_hd w)).
Proof using. intros Hk. apply (Hk (w_hd w) tt (on_handle (g (w_hd w)) w)). Qed.

Lemma keeps_first {A B : Type} (m : act World A) (k : A → act World B) (w : World)
    (R : gmap Z HandleState → gmap Z HandleState → Prop) :
  keeps hd_handles m → R (hd_handles (w_hd w)) (hd_handles (w_hd w)) →
  (∀ a w', hd_handles (w_hd w') = hd_handles (w_hd w) →
     R (hd_handles (w_hd w')) (hd_handles (w_hd (k a w').2))) →
  R (hd_handles (w_hd w)) (hd_handles (w_hd (abind m k w).2)).
Proof using.
  intros Hm HR Hk. unfold abind. specialize (Hm w). destruct (m w) as [[a|e] w']; cbn in *; [|by rewrite Hm].
  specialize (Hk a w' Hm). by rewrite Hm in Hk.
Qed.

Lemma close_handles (handle : Z) (w : World) :
  let w' := (call (OpClose handle) w).2 in
  hd_handles (w_hd w') = hd_handles (w_hd w) ∨ hd_handles (w_hd w') = delete handle (hd_handles (w_hd w)).
Proof using.
  cbn [run_op]. assert (∀ w, (answering (fun _ => Done) (vfs_close limits io others handle) w).2
    = (vfs_close limits io others handle w).2) as ->.
  { intros w'. unfold answering, abind. by destruct (vfs_close _ _ _ _ w') as [[] ?]. }
  unfold vfs_close. apply (keeps_first _ _ _ (fun H H' => H' = H ∨ H' = delete handle H)); [unfold require_vfs; keeps_walk|by left|]. intros [] w1 E1.
  apply (keeps_first _ _ _ (fun H H' => H' = H ∨ H' = delete handle H)); [apply keeps_attempt, note_call_keeps; by constructor|by left|]. intros c w2 E2.
  right. apply update_handles. intros h [].
  pose proof (reserve_candidate_keeps hd_handles ltac:(by constructor) limits io others) as H3.
  pose proof (after_mutation_keeps hd_handles ltac:(by constructor) io others ltac:(done)) as H4.
  unfold write_direct, ledger_do. keeps_walk; eauto.
Qed.

End Granted.

(** ** The abstract store

    Files by name, open handles, and the names deleted at their last close. A
    name is the token the logical name maps to. *)

Record Store : Type := mkStore {
  so_files : str → option (list Z);
  so_open : gmap Z HandleState;
  so_pending : gset str
}.

Definition upd (F : str → option (list Z)) (t : str) (o : option (list Z)) : str → option (list Z) :=
  fun t' => if decide (t' = t) then o else F t'.

Definition agree (F F' : str → option (list Z)) : Prop := ∀ t, F' t = F t.

Section Store.
Context (limits : StorageLimits).
Context (name_of : str → result StorageHostError str) (is_json : list Z → bool).

(** One call that returns a value. *)
Inductive store_step : Op → Store → Answer → Store → Prop :=
| st_open name o t k F F' H P :
    name_of name = Ok t → H !! k = None →
    (oo_create_new o = true → F t = None) → (F t = None → oo_create o || oo_create_new o = true) →
    agree (upd F t (Some (default [] (F t)))) F' →
    store_step (OpOpen name o) (mkStore F H P) (Number k)
      (mkStore F' (<[k := mkHandleState t (oo_read o) (oo_write o) (oo_delete_on_close o)]> H) P)
| st_close_last k hs F F' H P P' :
    H !! k = Some hs →
    (hs_delete_on_close hs = true ∨ hs_token hs ∈ P) →
    (∀ k' hs', k' ≠ k → H !! k' = Some hs' → hs_token hs' ≠ hs_token hs) →
    agree (upd F (hs_token hs) None) F' → P' = P ∖ {[hs_token hs]} →
    store_step (OpClose k) (mkStore F H P) Done (mkStore F' (delete k H) P')
| st_close k hs F F' H P P' :
    H !! k = Some hs →
    (hs_delete_on_close hs = false ∧ hs_token hs ∉ P
     ∨ ∃ k' hs', k' ≠ k ∧ H !! k' = Some hs' ∧ hs_token hs' = hs_token hs) →
    agree F F' → P' = (if hs_delete_on_close hs then {[hs_token hs]} ∪ P else P) →
    store_step (OpClose k) (mkStore F H P) Done (mkStore F' (delete k H) P')
| st_stat name t o F F' H P :
    name_of name = Ok t → st_size <$> o = len <$> F t → agree F F' →
    store_step (OpStat name) (mkStore F H P) (Stat o) (mkStore F' H P)
| st_read k offset maximum hs b c F F' H P :
    H !! k = Some hs → hs_read hs = true → F (hs_token hs) = Some c → read_of offset maximum c b → agree F F' →
    store_step (OpReadAt k offset maximum) (mkStore F H P) (Bytes b) (mkStore F' H P)
| st_write k offset hs b c F F' H P :
    H !! k = Some hs → hs_write hs = true → F (hs_token hs) = Some c →
    agree (upd F (hs_token hs) (Some (written offset b c))) F' →
    store_step (OpWriteAt k offset b) (mkStore F H P) Done (mkStore F' H P)
| st_file_size k hs n F F' H P :
    H !! k = Some hs → len <$> F (hs_token hs) = Some n → agree F F' →
    store_step (OpSize k) (mkStore F H P) (Number n) (mkStore F' H P)
| st_truncate k n hs c F F' H P :
    H !! k = Some hs → hs_write hs = true → F (hs_token hs) = Some c →
    agree (upd F (hs_token hs) (Some (resize (Z.to_nat n) 0 c))) F' →
    store_step (OpTruncate k n) (mkStore F H P) Done (mkStore F' H P)
| st_sync k F F' H P :
    agree F F' → store_step (OpSync k) (mkStore F H P) Done (mkStore F' H P)
| st_remove name t F F' H P :
    name_of name = Ok t → is_Some (F t) → agree (upd F t None) F' →
    store_step (OpRemove name) (mkStore F H P) Done (mkStore F' H P)
| st_rename_same from to replace t F F' H P :
    name_of from = Ok t → name_of to = Ok t → agree F F' →
    store_step (OpRename from to replace) (mkStore F H P) Done (mkStore F' H P)
| st_rename from to replace tf tt' c F F' H P :
    name_of from = Ok tf → name_of to = Ok tt' → tf ≠ tt' → F tf = Some c →
    (replace = true ∨ F tt' = None) → agree (upd (upd F tf None) tt' (Some c)) F' →
    store_step (OpRename from to replace) (mkStore F H P) Done (mkStore F' H P)
| st_random fill n b F F' H P :
    fill n = Some b → agree F F' → store_step (OpRandom fill n) (mkStore F H P) (Bytes b) (mkStore F' H P)
| st_monotonic n F F' H P :
    agree F F' → store_step (OpMonotonic n) (mkStore F H P) (Number n) (mkStore F' H P)
| st_wall now F F' H P :
    agree F F' →
    store_step (OpWall (Some now)) (mkStore F H P) (Number (dur_as_millis now)) (mkStore F' H P)
| st_records_size name t n F F' H P :
    name_of name = Ok t → len <$> F t = Some n → agree F F' →
    store_step (OpRecordsSize name) (mkStore F H P) (Number n) (mkStore F' H P)
| st_records_read name t offset m c chunk F F' H P :
    name_of name = Ok t → F t = Some c → chunk_of c offset m chunk → agree F F' →
    store_step (OpRecordsRead name offset m) (mkStore F H P) (Chunk chunk) (mkStore F' H P)
| st_append name t record c F F' H P :
    name_of name = Ok t → record_ok is_json record → c = default [] (F t) →
    agree (upd F t (Some (c ++ record ++ [LF]))) F' →
    store_step (OpRecordsAppend name (len c) record) (mkStore F H P) (Number (len (c ++ record ++ [LF])))
      (mkStore F' H P)
| st_replace name t contents c F F' H P :
    name_of name = Ok t → valid_jsonl is_json contents = true → c = default [] (F t) →
    agree (upd F t (Some contents)) F' →
    store_step (OpRecordsReplace name (len c) contents) (mkStore F H P) Done (mkStore F' H P).

(** A call that returns an error leaves the files; a [close] may have closed
    the handle. *)
Definition store_error (op : Op) (A A' : Store) : Prop :=
  agree (so_files A) (so_files A')
  ∧ match op with
    | OpClose k => so_open A' = so_open A ∨ so_open A' = delete k (so_open A)
    | _ => so_open A' = so_open A ∧ so_pending A' = so_pending A
    end.

(** A sequence of calls. Once one has broken the transaction, all that follow
    are refused. *)
Inductive store_run : list Op → Store → list (result StorageHostError Answer) → Store → Prop :=
| sr_nil A : store_run [] A [] A
| sr_ok op ops A a A' rs A'' :
    store_step op A a A' → store_run ops A' rs A'' → store_run (op :: ops) A (Ok a :: rs) A''
| sr_err op ops A e A' rs A'' :
    store_error op A A' → store_run ops A' rs A'' → store_run (op :: ops) A (Err e :: rs) A''
| sr_broken op ops A e rs A'' :
    Forall2 (fun _ r => is_ok r = false) ops rs → store_run (op :: ops) A (Err e :: rs) A''.

End Store.

(** ** Refinement *)

Definition content (fs : gmap path Node) (t : str) : option (list Z) := nd_bytes <$> file_at fs t.
Arguments content : simpl never.

Definition store_of (w : World) : Store :=
  mkStore (content (files_of w)) (hd_handles (w_hd w)) (hd_pending_delete (w_hd w)).

Lemma content_size (fs : gmap path Node) (t : str) : len <$> content fs t = size_at fs t.
Proof. unfold content, size_at. by destruct (file_at fs t). Qed.

Lemma content_bytes (fs : gmap path Node) (t : str) : default [] (content fs t) = bytes_at fs t.
Proof. unfold content, bytes_at. by destruct (file_at fs t). Qed.

Lemma content_insert (fs : gmap path Node) (t : str) (n : Node) :
  agree (upd (content fs) t (Some (nd_bytes n))) (content (<[data ++ [t] := n]> fs)).
Proof.
  intros t'. unfold content, file_at, upd. destruct (decide (t' = t)) as [->|Hne].
  - by rewrite lookup_insert_eq.
  - rewrite lookup_insert_ne; [done|]. rewrite data_path_inj. congruence.
Qed.

Lemma content_delete (fs : gmap path Node) (t : str) :
  agree (upd (content fs) t None) (content (delete (data ++ [t]) fs)).
Proof.
  intros t'. unfold content, file_at, upd. destruct (decide (t' = t)) as [->|Hne].
  - by rewrite lookup_delete_eq.
  - rewrite lookup_delete_ne; [done|]. rewrite data_path_inj. congruence.
Qed.

Lemma content_some (fs : gmap path Node) (t : str) (n : Node) :
  file_at fs t = Some n → content fs t = Some (nd_bytes n).
Proof. unfold content. by intros ->. Qed.

#[local] Hint Resolve content_insert content_delete content_some : core.

Section Refines.
Context (limits : StorageLimits).
Context (io : nat → Ending).
Context (others : nat → LedgerState → LedgerState).
Context (sha256 : list Z → list Z) (is_json : list Z → bool).
Context (ns : str) (Halone : leaves_alone others ns).
Context (Hfile : max_file_bytes limits < u64_max).
Context (client : Client) (Hlaws : client_laws limits others ns client).

Abbreviation call := (run_op limits io others sha256 is_json).
Abbreviation Inv := (inv limits ns client ∅).
Abbreviation step w := (store_step (logical_token sha256 (w_hd w)) is_json).

(** A call from the world [w], or one that broke the transaction. *)
Definition refined (op : Op) (w : World) (r : result Exn Answer) (w' : World) : Prop :=
  Inv w'
  ∧ match r with
    | Ok a => step w op (store_of w) a (store_of w')
    | Err (Throws _) => hd_failed (w_hd w') = true ∨ store_error op (store_of w) (store_of w')
    | Err _ => False
    end.

Lemma refined_plain {A : Type} (f : A → Answer) (m : act World A) (Q : A → World → Prop) (op : Op) (w : World) :
  call op = answering f m → opens_or_closes op = false → wp m (settled limits ns client w Q) w →
  (∀ a w', Q a w' → step w op (store_of w) (f a)
     (mkStore (content (files_of w')) (hd_handles (w_hd w)) (hd_pending_delete (w_hd w)))) →
  wp (call op) (refined op w) w.
Proof using.
  intros Ecall Hop Hm HQ. pose proof (run_op_handles limits io others sha256 is_json op w Hop) as [Hh Hp].
  unfold wp in *. rewrite Ecall in *. unfold answering, abind in *.
  destruct (m w) as [[a|[e| |]] w'], Hm as [Hi Hr]; cbn in *; (split; [done|]); try done.
  - unfold store_of at 2. rewrite Hh, Hp. by apply HQ.
  - destruct Hr as [Hr|Hr]; [by left|]. right. unfold store_error, store_of. cbn. rewrite Hr.
    split; [done|]. by destruct op.
Qed.

Lemma agree_same (fs fs' : gmap path Node) : fs' = fs → agree (content fs) (content fs').
Proof using. by intros ->. Qed.

Lemma agree_insert (fs fs' : gmap path Node) (t : str) (b : list Z) :
  fs' = <[data ++ [t] := plain b]> fs → agree (upd (content fs) t (Some b)) (content fs').
Proof using. intros ->. apply (content_insert fs t (plain b)). Qed.

Lemma agree_delete (fs fs' : gmap path Node) (t : str) :
  fs' = delete (data ++ [t]) fs → agree (upd (content fs) t None) (content fs').
Proof using. intros ->. apply content_delete. Qed.

#[local] Hint Resolve agree_same agree_insert agree_delete : core.

(** Applies the lemma of the operation. *)
Ltac plain_op lem :=
  eapply refined_plain; [reflexivity|reflexivity|apply lem; assumption|].

Lemma run_op_plain (op : Op) (w : World) :
  Inv w → op_ok op → opens_or_closes op = false → wp (call op) (refined op w) w.
Proof using Hlaws Halone Hfile.
  intros Hi Hop Hplain. destruct op as [name o|k|name|k offset m|k offset b|k|k n|k|name|from to replace|fill n|n|now
    |name|name offset m|name expected record|name expected contents]; try done; clear Hplain; cbn in Hop.
  - plain_op (vfs_stat_ok limits io sha256 ns client). intros o w' (Ef & t & Ht & Es).
    eapply st_stat; eauto. by rewrite content_size.
  - plain_op (vfs_read_at_ok limits io ns client). intros b w' (Ef & hs & n & Hh & Hr & Hn & Hb).
    eapply st_read; eauto.
  - plain_op (vfs_write_at_ok limits io others ns Halone client Hlaws). intros [] w' (hs & n & Hh & Hw & Hn & Ef).
    eapply st_write; eauto.
  - plain_op (vfs_size_ok limits ns client). intros n w' (Ef & hs & Hh & Hs).
    eapply st_file_size; eauto. by rewrite content_size.
  - plain_op (vfs_truncate_ok limits io others ns Halone client Hlaws). intros [] w' (hs & n' & Hh & Hw & Hn & Ef).
    eapply st_truncate; eauto.
  - plain_op (vfs_sync_ok limits io ns client). intros [] w' Ef. eapply st_sync; eauto.
  - plain_op (vfs_remove_ok limits io others sha256 ns Halone client Hlaws). intros [] w' (t & Ht & [n Hn] & Ef).
    eapply st_remove; eauto.
  - plain_op (vfs_rename_ok limits io others sha256 ns Halone client Hlaws).
    intros [] w' (tf & tt' & Htf & Htt & [[-> Ef]|(Hne & Hrep & n & Hn & Ef)]).
    + eapply st_rename_same; eauto.
    + eapply st_rename; eauto.
      * destruct Hrep as [|Hrep]; [by left|]. right. unfold content. by rewrite Hrep.
      * intros t. rewrite Ef, content_insert. unfold upd at 1 2. case_decide; [done|]. apply content_delete.
  - plain_op (vfs_random_bytes_ok limits ns client). intros b w' [Ef Hb]. eapply st_random; eauto.
  - eapply refined_plain; [reflexivity|reflexivity| |].
    { apply (vfs_clock_ok limits ns client _ (fun b => try_u64 n = Some b)); [done|]. intros w' Hi'.
      apply wp_of_option; [by intros b ->|by intros _]. }
    intros b w' [Ef Hb]. unfold try_u64 in Hb. destruct (_ && _); [|done]. injection Hb as <-.
    eapply st_monotonic; eauto.
  - eapply refined_plain; [reflexivity|reflexivity| |].
    { apply (vfs_clock_ok limits ns client _ (fun b => ∃ t, now = Some t ∧ try_u64 (dur_as_millis t) = Some b)); [done|].
      intros w' Hi'. apply wp_bind, wp_of_option; [|by intros _]. intros t ->.
      apply wp_of_option; [|by intros _]. intros b Hb. split; [done|]. split; [done|]. eauto. }
    intros b w' (Ef & t & -> & Hb). unfold try_u64 in Hb. destruct (_ && _); [|done]. injection Hb as <-.
    eapply st_wall; eauto.
  - plain_op (jsonl_size_ok limits io sha256 ns client). intros n w' (Ef & t & Ht & Hs).
    eapply st_records_size; eauto. by rewrite content_size.
  - plain_op (jsonl_read_chunk_ok limits io sha256 ns client). intros c w' (Ef & t & n & Ht & Hn & Hc).
    eapply st_records_read; eauto.
  - plain_op (jsonl_append_ok limits io others sha256 is_json ns Halone Hfile client Hlaws).
    intros size w' (t & old & Ht & Hr & -> & <- & -> & Ef).
    rewrite <- content_bytes. eapply st_append; eauto. rewrite content_bytes. eauto.
  - plain_op (jsonl_replace_ok limits io others sha256 is_json ns Halone Hfile client Hlaws).
    intros [] w' (t & Ht & Hv & <- & Ef). rewrite <- content_bytes. eapply st_replace; eauto.
Qed.

Lemma open_refined (name : str) (o : OpenOptions) (w : World) :
  Inv w → wp (call (OpOpen name o)) (refined (OpOpen name o) w) w.
Proof using Hlaws Halone.
  intros Hi. pose proof (vfs_open_ok limits io others sha256 ns Halone client Hlaws name o w Hi) as Hm.
  pose proof (open_error_handles limits io others sha256 is_json name o w) as He.
  pose proof (open_pending limits io others sha256 is_json name o w) as Hp.
  unfold wp in *. cbn [run_op] in *. unfold answering, abind in *.
  destruct (vfs_open _ _ _ _ _ _ w) as [[k|[e| |]] w'], Hm as [Hi' Hr]; cbn in *; (split; [done|]); try done.
  - destruct Hr as (t & Ht & Hk & Eh & Ef & Hnew & Habs). unfold store_of at 2. rewrite Eh, Hp.
    unfold store_of. eapply st_open; eauto.
    + intros E. unfold content. by rewrite Hnew.
    + intros E. apply Habs. unfold content in E. by destruct (file_at (files_of w) t).
    + rewrite Ef. unfold opened_files. destruct (file_at (files_of w) t) as [n|] eqn:En.
      * intros t'. unfold upd, content. case_decide; [subst|done]. by rewrite En.
      * unfold content at 2. rewrite En. eauto.
  - destruct Hr as [Hr|Hr]; [by left|]. right. unfold store_error, store_of. cbn. rewrite Hr, Hp.
    by rewrite (He _ eq_refl).
Qed.

Lemma token_open_delete (k : Z) (H : gmap Z HandleState) (t : str) :
  token_open (delete k H) t = true ↔ ∃ k' hs', k' ≠ k ∧ H !! k' = Some hs' ∧ hs_token hs' = t.
Proof using.
  unfold token_open. rewrite existsb_exists. split.
  - intros (hs & Hin%list_elem_of_In & E%str_eqb_eq). apply list_elem_of_fmap in Hin as ([k' hs'] & -> & Hin).
    apply elem_of_map_to_list, lookup_delete_Some in Hin as [Hne Hin]. cbn in *. exists k', hs'. by split.
  - intros (k' & hs & Hne & Hk & <-). exists hs. split; [|by apply str_eqb_eq]. apply list_elem_of_In, list_elem_of_fmap.
    exists (k', hs). split; [done|]. apply elem_of_map_to_list. by rewrite lookup_delete_ne.
Qed.

Lemma close_refined (k : Z) (w : World) : Inv w → wp (call (OpClose k)) (refined (OpClose k) w) w.
Proof using Hlaws Halone.
  intros Hi. pose proof (vfs_close_ok limits io others ns Halone client Hlaws k w Hi) as Hm.
  pose proof (close_handles limits io others sha256 is_json k w) as Hh. cbn zeta in Hh.
  unfold wp in *. cbn [run_op] in *. unfold answering, abind in *.
  destruct (vfs_close _ _ _ _ w) as [[[]|[e| |]] w'], Hm as [Hi' Hr]; cbn in *; (split; [done|]); try done.
  - destruct Hr as (hs & Hk & Eh & Eafter). unfold store_of at 2. rewrite Eh. unfold after_close in Eafter.
    pose proof (token_open_delete k (hd_handles (w_hd w)) (hs_token hs)) as Htok.
    unfold store_of. destruct (_ && _) eqn:Hlast; injection Eafter as -> Ef.
    + apply andb_true_iff in Hlast as [Hpend%bool_decide_eq_true Hopen%negb_true_iff].
      eapply st_close_last; eauto.
      * destruct (hs_delete_on_close hs); [by left|by right].
      * intros k' hs' Hne Hk' E. rewrite Hopen in Htok. destruct Htok as [_ Htok].
        assert (false = true) by (apply Htok; eauto). done.
      * destruct (hs_delete_on_close hs); [|done]. apply set_eq. intros x.
        rewrite !elem_of_difference, elem_of_union, !elem_of_singleton. tauto.
    + eapply st_close; eauto. apply andb_false_iff in Hlast as [Hpend%bool_decide_eq_false|Hopen%negb_false_iff].
      * left. destruct (hs_delete_on_close hs); [|done]. exfalso. apply Hpend, elem_of_union_l, elem_of_singleton. done.
      * right. by apply Htok.
  - destruct Hr as [Hr|Hr]; [by left|]. right. unfold store_error, store_of. cbn. by rewrite Hr.
Qed.

(** Every call, from any world of the transaction. *)
Lemma run_op_refined (op : Op) (w : World) : Inv w → op_ok op → wp (call op) (refined op w) w.
Proof using Hlaws Halone Hfile.
  intros Hi Hop. destruct (opens_or_closes op) eqn:E; [|by apply run_op_plain].
  destruct op; try done; [by apply open_refined|by apply close_refined].
Qed.

(** A failed transaction refuses every call and leaves the files. *)
Definition refused (w : World) {A : Type} (r : result Exn A) (w' : World) : Prop :=
  (∃ e, r = Err (Throws e)) ∧ files_of w' = files_of w ∧ hd_failed (w_hd w') = true.

Lemma note_call_failed (w : World) : hd_failed (w_hd w) = true → note_call limits w = (Err (Throws Io), w).
Proof using. intros Hf. unfold note_call, abind, self, reads. by rewrite Hf. Qed.

Lemma require_vfs_cases (w : World) : require_vfs w = (Ok tt, w) ∨ require_vfs w = (Err (Throws PermissionDenied), w).
Proof using. unfold require_vfs, abind, self, reads. destruct (hd_interface (w_hd w)); [by right|by left]. Qed.

Lemma require_jsonl_cases (w : World) :
  require_jsonl w = (Ok tt, w) ∨ require_jsonl w = (Err (Throws PermissionDenied), w).
Proof using. unfold require_jsonl, abind, self, reads. destruct (hd_interface (w_hd w)); [by left|by right]. Qed.

Lemma vfs_refused {A B : Type} (f : A → B) (k : act World A) (w : World) :
  hd_failed (w_hd w) = true →
  wp (a ⇚ (_ ⇚ require_vfs; _ ⇚ note_call limits; k); pure (f a)) (refused w) w.
Proof using.
  intros Hf. unfold wp, abind. destruct (require_vfs_cases w) as [-> | ->]; [rewrite note_call_failed by done|];
    (split; [by eexists|done]).
Qed.

Lemma jsonl_refused {A B : Type} (f : A → B) (k : act World A) (w : World) :
  hd_failed (w_hd w) = true →
  wp (a ⇚ (_ ⇚ require_jsonl; _ ⇚ note_call limits; k); pure (f a)) (refused w) w.
Proof using.
  intros Hf. unfold wp, abind. destruct (require_jsonl_cases w) as [-> | ->]; [rewrite note_call_failed by done|];
    (split; [by eexists|done]).
Qed.

Lemma run_op_failed_ok (op : Op) (w w' : World) (a : Answer) :
  call op w = (Ok a, w') → hd_failed (w_hd w') = hd_failed (w_hd w).
Proof using.
  intros E. pose proof (run_op_oks_keep hd_failed ltac:(by constructor) limits io others sha256 is_json op
    ltac:(done) ltac:(done) ltac:(done) w) as H. by rewrite E in H.
Qed.

Lemma close_refused (k : Z) (w : World) : hd_failed (w_hd w) = true → wp (call (OpClose k)) (refused w) w.
Proof using.
  intros Hf. cbn [run_op]. unfold answering.
  eapply (wp_step _ _ (fun r => refused w r)); [|by intros [] w' [[e [=]] _]|by intros e w' [[x [= ->]] Hw]; split; [eexists|]].
  unfold vfs_close. eapply wp_step with (R := fun r w' => w' = w ∧ match r with Err e => ∃ x, e = Throws x | Ok _ => True end).
  { unfold wp. destruct (require_vfs_cases w) as [-> | ->]; cbn; eauto. }
  2:{ intros e w' [-> [x ->]]. split; [by eexists|done]. }
  intros [] w' [-> _]. apply wp_bind, wp_attempt. unfold wp at 1. rewrite note_call_failed by done. cbn [fst snd].
  apply wp_bind, wp_reads. cbv zeta. apply wp_bind, wp_modify.
  eapply wp_step with (R := fun r w' => r = Ok tt ∧ w_disk w' = w_disk w ∧ hd_failed (w_hd w') = true).
  { destruct (hd_handles (w_hd w) !! k); [|by apply wp_pure]. apply wp_on_ledger. by intros r s [= <- <-]. }
  2:{ by intros e w' [[=] _]. }
  intros [] w' (_ & Ed & Ef). apply wp_bind, wp_raise. split; [by eexists|]. by rewrite Ed.
Qed.

Lemma run_op_refused (op : Op) (w : World) : hd_failed (w_hd w) = true → wp (call op) (refused w) w.
Proof using.
  intros Hf. destruct op; try (by apply vfs_refused); try (by apply jsonl_refused). by apply close_refused.
Qed.

(** ** Sequences of calls *)

Abbreviation calls := (run_ops limits io others sha256 is_json).

Lemma wp_det {S A : Type} (m : act S A) (P Q R : result Exn A → S → Prop) (s : S) :
  wp m P s → wp m Q s → (∀ r s', P r s' → Q r s' → R r s') → wp m R s.
Proof using. unfold wp. auto. Qed.

Lemma run_ops_failed (ops : list Op) (w : World) :
  hd_failed (w_hd w) = true → wp (calls ops) (fun _ w' => hd_failed (w_hd w') = true) w.
Proof using.
  revert w. induction ops as [|op ops IH]; intros w Hf; cbn [run_ops]; [done|].
  apply wp_bind, wp_attempt. eapply wp_mono; [by apply run_op_refused|].
  intros r w1 ([e ->] & _ & Hf1). eapply wp_step; [by apply IH| |done]. intros rs w2 Hf2. by apply wp_pure.
Qed.

(** The transaction through a sequence of calls. *)
Definition ran (ops : list Op) (w : World) (r : result Exn (list (result StorageHostError Answer))) (w' : World)
    : Prop :=
  ∃ rs, r = Ok rs ∧ Inv w' ∧ granted w w'
  ∧ (hd_failed (w_hd w) = true → Forall2 (fun _ r => is_ok r = false) ops rs ∧ files_of w' = files_of w)
  ∧ (hd_failed (w_hd w) = false →
     store_run (logical_token sha256 (w_hd w)) is_json ops (store_of w) rs (store_of w')).

Lemma logical_token_granted (w w' : World) :
  granted w w' → logical_token sha256 (w_hd w') = logical_token sha256 (w_hd w).
Proof using. intros Hg. unfold logical_token. by rewrite (gt_base _ _ Hg), (gt_generation _ _ Hg). Qed.

Lemma run_ops_ok (ops : list Op) (w : World) : Inv w → Forall op_ok ops → wp (calls ops) (ran ops w) w.
Proof using Hlaws Halone Hfile.
  intros Hi Hops. revert w Hi. induction Hops as [|op ops Hop Hops IH]; intros w Hi; cbn [run_ops].
  - exists []. split; [done|]. split; [done|]. split; [reflexivity|]. split; [by split|]. intros _. constructor.
  - apply wp_bind, wp_attempt.
    eapply (wp_det (call op) (fun r w' => refined op w r w' ∧ granted w w')).
    { split; [by apply run_op_refined|apply run_op_granted]. }
    { instantiate (1 := fun r w' => call op w = (r, w') ∧ (hd_failed (w_hd w) = true → refused w r w')).
      split; [apply surjective_pairing|]. intros Hf. by apply run_op_refused. }
    intros r w1 [[Hi1 Hr] Hg] [Hcall Href].
    destruct r as [a|[e| |]]; [| |done|done].
    all: eapply wp_step; [by apply IH| |by intros x w2 (rs & [=] & _)].
    all: intros rs w2 (rs' & [= <-] & Hi2 & Hg2 & Hf2 & Hrun); apply wp_pure; eexists; split; [done|].
    all: rewrite (logical_token_granted w w1 Hg) in Hrun.
    all: split; [done|]; split; [by etransitivity|].
    + split; [by intros [[e [=]] _]%Href|]. intros Hf. eapply sr_ok; [exact Hr|]. apply Hrun.
      by rewrite (run_op_failed_ok op w w1 a Hcall).
    + split.
      * intros [_ [Ef1 Hf1]]%Href. destruct (Hf2 Hf1) as [Hall Ef2]. split; [by constructor|congruence].
      * intros Hf. destruct (hd_failed (w_hd w1)) eqn:E1.
        -- apply sr_broken, Hf2; done.
        -- destruct Hr as [[=]|Hr]. eapply sr_err; [exact Hr|]. by apply Hrun.
Qed.

End Refines.
