(* ===== verification/StorageSafety.v ===== *)
(** * Properties of storage transactions

    The theorems about the lifetime of a transaction, from its beginning
    through any sequence of calls to its end, with any system calls failing
    and other invocations using the quota ledger in between. *)

From Stdlib Require Import ZArith Lia Ascii String.
From stdpp Require Import base gmap strings list sorting numbers.
From S2P Require Import Prelude.
From S2P Require Import RustStr.
From S2P Require Import Capability.
From S2P Require Import StorageConfig.
From S2P Require Import Quota.
From S2P Require Import Keys.
From S2P Require Import StorageDir.
From S2P Require Import StorageScan.
From S2P Require Import StorageHandle.
From S2P Require Import StorageEffects.
From S2P Require Import StorageTransaction.
From S2P Require Import StorageOps.
From S2P Require Import StorageLifetime.
From S2P Require Import StorageCalls.

(** ** Read-only grants *)

(** A disk operation that changes no file. *)
Definition looks {A : Type} (m : act Disk A) : Prop := ∀ d, dk_files (m d).2 = dk_files d.

Lemma looks_of {A : Type} (m : act Disk A) (P : gmap path Node → A → Prop) :
  (∀ d, wp m (outcome (fun a fs => fs = dk_files d ∧ P (dk_files d) a) (fun fs => fs = dk_files d)) d) → looks m.
Proof. intros H d. specialize (H d). unfold wp in H. destruct (m d) as [[a|[]] d']; cbn in *; by try apply H. Qed.

Lemma looks_bind {A B : Type} (m : act Disk A) (k : A → act Disk B) :
  looks m → (∀ a, looks (k a)) → looks (abind m k).
Proof.
  intros Hm Hk d. unfold abind. specialize (Hm d). destruct (m d) as [[a|e] d']; cbn in *; [|done]. by rewrite Hk.
Qed.

Section ReadOnly.
Context (limits : StorageLimits) (io : nat → Ending) (others : nat → LedgerState → LedgerState).
Context (sha256 : list Z → list Z) (is_json : list Z → bool).

Lemma looks_works : looks (works io).
Proof using. intros d. pose proof (wp_works io d) as H. unfold wp in H. by destruct (works io d) as [[a|[]] d']. Qed.

Lemma looks_metadata dir name : looks (metadata io dir name).
Proof using. apply (looks_of _ (fun fs m => m = metadata_of <$> fs !! (dir ++ [name]))). intros d.
  eapply wp_mono; [apply wp_metadata|]. intros [a|[]] d'; cbn; try done. by intros [-> ->]. Qed.

Lemma looks_open_private dir name : looks (open_private io dir name false).
Proof using. apply (looks_of _ (fun _ _ => True)). intros d.
  eapply wp_mono; [apply wp_open_private|]. intros [a|[]] d'; cbn; try done. by intros [-> _]. Qed.

Ltac looks_walk :=
  repeat
    match goal with
    | |- looks (works _) => apply looks_works
    | |- looks (open_private _ _ _ false) => apply looks_open_private
    | |- looks (metadata _ _ _) => apply looks_metadata
    | |- looks (abind _ _) => apply looks_bind; [|intros ?]
    | |- looks (match ?x with _ => _ end) => destruct x
    | |- looks _ => intros ?d; reflexivity
    end.

Lemma looks_read_bounded dir name maximum : looks (read_bounded io dir name maximum).
Proof using. unfold read_bounded. looks_walk. Qed.

Lemma looks_read_at dir name offset maximum : looks (read_at io dir name offset maximum).
Proof using. unfold read_at, syscall, node_at. looks_walk. Qed.

(** What stays when the grant is read-only. *)
Definition frozen (w w' : World) : Prop :=
  dk_files (w_disk w') = dk_files (w_disk w) ∧ hd_access (w_hd w') = ReadOnly ∧ hd_pending_delete (w_hd w') = ∅.

Definition freezes {A : Type} (m : act World A) : Prop :=
  ∀ w, hd_access (w_hd w) = ReadOnly → hd_pending_delete (w_hd w) = ∅ → frozen w (m w).2.

Lemma freezes_bind {A B : Type} (m : act World A) (k : A → act World B) :
  freezes m → (∀ a, freezes (k a)) → freezes (abind m k).
Proof using.
  intros Hm Hk w Ha Hp. unfold abind. destruct (Hm w Ha Hp) as (Ef & Ea & Ep).
  destruct (m w) as [[a|e] w']; cbn in *; [|by repeat split]. destruct (Hk a w' Ea Ep) as (? & ? & ?).
  split; [congruence|done].
Qed.

(** The handle an operation reads is a read-only one. *)
Lemma freezes_self {B : Type} (k : StorageHandle → act World B) :
  (∀ h, hd_access h = ReadOnly → hd_pending_delete h = ∅ → freezes (k h)) → freezes (abind self k).
Proof using. intros Hk w Ha Hp. by apply (Hk (w_hd w)). Qed.

(** Nothing follows a charge for a write. *)
Lemma freezes_charged {B : Type} (n : Z) (k : unit → act World B) : freezes (abind (charge_write limits n) k).
Proof using.
  intros w Ha Hp. unfold charge_write, abind, self, reads. rewrite Ha. by repeat split.
Qed.

Lemma freezes_on_disk {A : Type} (m : act Disk A) : looks m → freezes (on_disk m).
Proof using. intros Hm w Ha Hp. unfold on_disk. specialize (Hm (w_disk w)). by destruct (m (w_disk w)). Qed.

Lemma freezes_on_ledger {A : Type} (m : locked A) : freezes (on_ledger others m).
Proof using. intros w Ha Hp. unfold on_ledger. by destruct (m _). Qed.

Lemma freezes_attempt {A : Type} (m : act World A) : freezes m → freezes (attempt m).
Proof using. intros Hm w Ha Hp. specialize (Hm w Ha Hp). unfold attempt. by destruct (m w) as [[a|[]] w']. Qed.

Lemma freezes_update (f : StorageHandle → StorageHandle) :
  (∀ h, hd_access (f h) = hd_access h) → (∀ h, hd_pending_delete (f h) = hd_pending_delete h) → freezes (update f).
Proof using. intros H1 H2 w Ha Hp. unfold frozen. cbn. by rewrite H1, H2. Qed.

Lemma freezes_of_option {A : Type} (e : StorageHostError) (o : option A) : freezes (of_option e o).
Proof using. intros w Ha Hp. by destruct o. Qed.

Lemma freezes_of_result {A : Type} (r : result StorageHostError A) : freezes (of_result r).
Proof using. intros w Ha Hp. by destruct r. Qed.

Lemma freezes_expect {A : Type} (o : option A) : freezes (expect o).
Proof using. intros w Ha Hp. by destruct o. Qed.

Ltac freezes_walk :=
  repeat
    match goal with
    | |- freezes (abind (charge_write _ _) _) => apply freezes_charged
    | |- freezes (abind self _) => apply freezes_self; intros ?h ?Ha ?Hp
    | |- freezes (abind _ _) => apply freezes_bind; [|intros ?]
    | |- freezes (on_disk (works _)) => apply freezes_on_disk, looks_works
    | |- freezes (on_disk (sync _)) => apply freezes_on_disk, looks_works
    | |- freezes (on_disk (metadata _ _ _)) => apply freezes_on_disk, looks_metadata
    | |- freezes (on_disk (open_private _ _ _ false)) => apply freezes_on_disk, looks_open_private
    | |- freezes (on_disk (read_bounded _ _ _ _)) => apply freezes_on_disk, looks_read_bounded
    | |- freezes (on_disk (read_at _ _ _ _ _)) => apply freezes_on_disk, looks_read_at
    | |- freezes (on_ledger _ _) => apply freezes_on_ledger
    | |- freezes (ledger_do _ _) => apply freezes_on_ledger
    | |- freezes (attempt _) => apply freezes_attempt
    | |- freezes (update _) => apply freezes_update; intros ?; reflexivity
    | |- freezes (of_option _ _) => apply freezes_of_option
    | |- freezes (of_result _) => apply freezes_of_result
    | |- freezes (expect _) => apply freezes_expect
    | |- freezes (pure _) => intros ?w ?Ha ?Hp; by repeat split
    | |- freezes (raise _) => intros ?w ?Ha ?Hp; by repeat split
    | H : hd_access ?h = ReadOnly |- freezes (if negb (read_write ?h) then _ else _) =>
        unfold read_write; rewrite H; cbn [negb]
    | H : hd_pending_delete ?h = ∅ |- freezes (if bool_decide (_ ∈ hd_pending_delete ?h) && _ then _ else _) =>
        rewrite H, bool_decide_eq_false_2 by apply not_elem_of_empty; cbn [andb]
    | |- freezes (match ?x with _ => _ end) => destruct x
    | H : ∀ _, freezes _ |- freezes _ => apply H
    end.

Lemma freezes_ensure_entry (name : str) : freezes (ensure_entry limits io sha256 name).
Proof using. unfold ensure_entry, allocate_file_identity. freezes_walk. Qed.

Lemma freezes_call (op : Op) : freezes (run_op limits io others sha256 is_json op).
Proof using.
  pose proof freezes_ensure_entry as He.
  destruct op; cbn [run_op]; unfold answering; (apply freezes_bind; [|intros a; freezes_walk]).
  all: unfold vfs_open, vfs_close, vfs_stat, vfs_read_at, vfs_write_at, vfs_size, vfs_truncate, vfs_sync,
      vfs_remove, vfs_rename_atomic, vfs_random_bytes, vfs_monotonic_time_ns, vfs_wall_time_ms, jsonl_size,
      jsonl_read_chunk, jsonl_append, jsonl_replace, require_vfs, require_jsonl, note_call, charge_read,
      charge_entropy, entry.
  all: freezes_walk.
Qed.

Lemma freezes_calls (ops : list Op) : freezes (run_ops limits io others sha256 is_json ops).
Proof using.
  pose proof freezes_call as Hc. induction ops as [|op ops IH]; cbn [run_ops]; freezes_walk. exact IH.
Qed.

End ReadOnly.

(** ** Records *)

Lemma valid_append (is_json : list Z → bool) (c record : list Z) :
  is_json [] = false → valid_jsonl is_json c = true → record_ok is_json record →
  valid_jsonl is_json (c ++ record ++ [LF]) = true.
Proof.
  intros Hnil Hc (Hlf & _ & Hj). unfold valid_jsonl in *.
  assert (record ≠ []) as Hne by (intros ->; congruence).
  assert (is_nil (c ++ record ++ [LF]) = false) as ->.
  { destruct c; [|done]. by destruct record. }
  assert (strip_suffix (c ++ record ++ [LF]) [LF] = Some (c ++ record)) as ->.
  { apply strip_suffix_Some. by rewrite app_assoc. }
  assert (∀ l, l = record → negb (is_nil l) && is_json l = true) as Hrec by (intros l ->; by destruct record).
  destruct (is_nil c) eqn:En.
  - destruct c; [|done]. cbn [app]. rewrite split_clean by done. cbn [forallb]. by rewrite Hrec.
  - destruct (strip_suffix c [LF]) as [lines|] eqn:Es; [|done]. apply strip_suffix_Some in Es as ->.
    rewrite <- app_assoc. cbn [app]. rewrite split_join_app, forallb_app, Hc, split_clean by done.
    cbn [forallb]. by rewrite Hrec.
Qed.

Definition is_records_op (op : Op) : bool :=
  match op with
  | OpRecordsSize _ | OpRecordsRead _ _ _ | OpRecordsAppend _ _ _ | OpRecordsReplace _ _ _ => true
  | _ => false
  end.

Definition all_valid (is_json : list Z → bool) (F : str → option (list Z)) : Prop :=
  ∀ t c, F t = Some c → valid_jsonl is_json c = true.

Lemma records_step_valid (is_json : list Z → bool) name_of (op : Op) (A A' : Store) (a : Answer) :
  is_json [] = false → is_records_op op = true → store_step name_of is_json op A a A' →
  all_valid is_json (so_files A) → all_valid is_json (so_files A').
Proof.
  intros Hnil Hop Hstep Hv. destruct Hstep; try done; cbn in *; intros t' c' E;
    match goal with H : agree _ _ |- _ => rewrite H in E end; try (by eapply Hv).
  - unfold upd in E. case_decide; [|by eapply Hv]. injection E as <-. apply valid_append; try done.
    subst. destruct (F t) as [b|] eqn:Eb; [by eapply Hv|done].
  - unfold upd in E. case_decide; [|by eapply Hv]. by injection E as <-.
Qed.

(** ** The start and the end of a transaction *)

(** A transaction that is begun on sound files by a host whose ledger is one
    it reaches, with other invocations that keep to the ledger's rules. *)
Record begun (limits : StorageLimits) (usage : Usage) (listing : gmap path Node → path → list str)
    (others : nat → LedgerState → LedgerState) (theirs : nat → Z) (grant : Grant) (fuel depth : nat)
    (tries : nat → TryLock) (expired : nat → bool) (w : World) : Prop := {
  bg_limits : limits_ok limits;
  bg_scan : startup_max_entries limits < HARD_MAX_DIRECTORY_ENTRIES;
  bg_listing : listing_ok listing;
  bg_tree : tree_ok (files_of w);
  bg_root : files_of w !! [] = None;
  bg_depth : (0 < depth)%nat ∧ ∀ q, is_Some (files_of w !! q) → (length q < depth)%nat;
  bg_lock : ∃ k, decided tries expired k ∧ (∀ j, (j < k)%nat → ¬ decided tries expired j) ∧ (k < fuel)%nat;
  bg_host : ∃ h, h_state h = w_ledger w ∧ rtc (host_step limits) (host_new usage) h
                 ∧ 0 ≤ theirs (w_turn w) ≤ h_handles h;
  bg_others : let ns := namespace_key (gr_base_token grant) (gr_generation_token grant) in
              interferes limits usage others ns theirs ∧ leaves_alone others ns
}.

(** How a transaction ends. *)
Inductive End : Type :=
| EndAbort
| EndFinishRead
| EndCommit
| EndCommitBefore (now deadline : Z)
| EndDrop.

Definition run_end (others : nat → LedgerState → LedgerState) (sha256 : list Z → list Z) (e : End)
    : act World (option StorageEvidence) :=
  match e with
  | EndAbort => ev ⇚ abort others sha256; pure (Some ev)
  | EndFinishRead => ev ⇚ finish_read others sha256; pure (Some ev)
  | EndCommit => ev ⇚ commit others sha256; pure (Some ev)
  | EndCommitBefore now deadline => ev ⇚ commit_before others sha256 now deadline; pure (Some ev)
  | EndDrop => _ ⇚ drop_handle others; pure None
  end.

Section Ends.
Context (others : nat → LedgerState → LedgerState) (sha256 : list Z → list Z).
Context (ns : str) (client : Client).
Context (Hlaws : end_laws others client) (Halone : leaves_alone others ns).

Lemma run_end_ok (e : End) (w : World) :
  owes client (hd_reservation (w_hd w)) (size (hd_handles (w_hd w))) w → hd_finalized (w_hd w) = false →
  wp (run_end others sha256 e)
    (fun r w' => over ns client w w' ∧ match r with Ok _ | Err (Throws _) => True | Err _ => False end) w.
Proof using Hlaws Halone.
  intros Ho Hf.
  assert (∀ m : act World StorageEvidence,
    wp m (fun r w' => over ns client w w' ∧ match r with Ok _ | Err (Throws _) => True | Err _ => False end) w →
    wp (ev ⇚ m; pure (Some ev)) (fun r w' => over ns client w w'
      ∧ match r with Ok _ | Err (Throws _) => True | Err _ => False end) w) as Hsome.
  { intros m Hm. eapply wp_step; [exact Hm| |by intros x w']. intros ev w' [Hover _]. by apply wp_pure. }
  destruct e; cbn [run_end]; try apply Hsome.
  - eapply wp_mono; [by apply (abort_ok others sha256 ns client)|]. by intros r w' [-> ?].
  - eapply wp_mono; [by apply (finish_read_ok others sha256 ns client)|]. intros r w' [? ->]. split; [done|].
    by repeat case_match; simplify_eq.
  - eapply wp_mono; [by apply (finish_read_ok others sha256 ns client)|]. intros r w' [? ->]. split; [done|].
    by repeat case_match; simplify_eq.
  - eapply wp_mono; [by apply (commit_before_ok others sha256 ns client)|]. intros r w' [? ->]. split; [done|].
    by repeat case_match; simplify_eq.
  - eapply wp_step; [by apply (drop_handle_ok others ns client)| |by intros x w' [[=] _]].
    intros [] w' [_ Hover]. by apply wp_pure.
Qed.

End Ends.

(** ** From the start through the calls *)

Section Lives.
Context (limits : StorageLimits) (usage : Usage).
Context (io : nat → Ending) (listing : gmap path Node → path → list str).
Context (others : nat → LedgerState → LedgerState) (theirs : nat → Z).
Context (sha256 : list Z → list Z) (is_json : list Z → bool).
Context (grant : Grant) (fuel depth : nat) (tries : nat → TryLock) (expired : nat → bool).

Abbreviation ns := (namespace_key (gr_base_token grant) (gr_generation_token grant)).
Abbreviation client := (hosted limits usage ns theirs).

Lemma file_limit : limits_ok limits → max_file_bytes limits < u64_max.
Proof using.
  intros [Hr _ _ _ _ _ _ _]. unfold limits_bounded, ceilings, MIB, GIB, TIB in Hr.
  repeat (apply List.Forall_cons_iff in Hr as [? Hr]). unfold u64_max. cbn in *. lia.
Qed.

Lemma limits_ok_u64 : limits_ok limits → limits_u64 limits.
Proof using.
  intros [Hr _ _ _ _ _ _ _]. unfold limits_bounded, ceilings, MIB, GIB, TIB in Hr.
  repeat (apply List.Forall_cons_iff in Hr as [? Hr]). unfold limits_u64, positive, in_u64, u64_max. cbn in *.
  repeat constructor; cbn; lia.
Qed.

Lemma hosted_others (i n : nat) (s : LedgerState) :
  interferes limits usage others ns theirs → client i None n s → client (S i) None n (others i s).
Proof using. intros Hint. apply (cl_others _ _ _ _ (hosted_laws _ _ _ _ _ Hint)). Qed.

Lemma begun_inv (w w1 : World) :
  begun limits usage listing others theirs grant fuel depth tries expired w →
  begin_transaction limits io listing others grant fuel depth tries expired w = (Ok tt, w1) →
  inv limits ns client ∅ w1 ∧ files_of w1 = files_of w
  ∧ hd_failed (w_hd w1) = false ∧ hd_finalized (w_hd w1) = false
  ∧ hd_interface (w_hd w1) = gr_interface grant ∧ is_Some (hd_reservation (w_hd w1)).
Proof using.
  intros [Hl Hs Hls Ht Hr [Hd0 Hd] (k & Hk & Hfirst & Hfuel) (h & Eh & Hrun & Hth) [Hint Halone]] E.
  assert (client (w_turn w) None 0%nat (w_ledger w)) as Hc.
  { exists h. split; [done|]. split; [done|]. split; [done|]. lia. }
  pose proof (begin_transaction_ok limits io listing Hls others client grant fuel depth k tries expired w
    Hl Hc) as H. cbn zeta in H. unfold wp in H. rewrite E in H. cbn [fst snd] in H.
  destruct H as (Ef & Hi & H1 & H2 & H3 & H4 & H5 & H6 & H7 & H8 & H9); try done.
  intros u res s Hu Hb. by eapply hosted_begin; [apply hosted_others|..].
Qed.

(** The calls of a transaction that has begun. *)
Lemma begun_ran (w w1 : World) (ops : list Op) :
  begun limits usage listing others theirs grant fuel depth tries expired w →
  begin_transaction limits io listing others grant fuel depth tries expired w = (Ok tt, w1) →
  Forall op_ok ops →
  ∃ rs w2, run_ops limits io others sha256 is_json ops w1 = (Ok rs, w2)
    ∧ inv limits ns client ∅ w2 ∧ granted w1 w2 ∧ hd_finalized (w_hd w2) = false
    ∧ store_run (logical_token sha256 (w_hd w1)) is_json ops (store_of w1) rs (store_of w2).
Proof using.
  intros Hb E Hops. destruct (begun_inv w w1 Hb E) as (Hi & _ & Hf & Hfin & _).
  destruct Hb as [Hl _ _ _ _ _ _ _ [Hint Halone]].
  pose proof (run_ops_ok limits io others sha256 is_json ns Halone (file_limit Hl) client
    (hosted_laws _ _ _ _ _ Hint) ops w1 Hi Hops) as H.
  unfold wp in H. destruct (run_ops _ _ _ _ _ ops w1) as [r w2]. destruct H as (rs & Er & Hi2 & Hg & _ & Hrun).
  cbn [fst snd] in *. subst r. exists rs, w2. split; [done|]. split; [done|]. split; [done|].
  split; [by rewrite (gt_finalized _ _ Hg)|]. by apply Hrun.
Qed.

Lemma hosted_bounds (i n : nat) (r : option Reservation) (s : LedgerState) :
  limits_ok limits → usage_ok usage → bytes usage ≤ u64_max → entries usage ≤ u64_max → client i r n s →
  root_used s + root_reserved s ≤ Z.max (max_root_bytes limits) (bytes usage)
  ∧ root_entries s + root_entries_reserved s ≤ Z.max (startup_max_entries limits) (entries usage)
  ∧ active_invocations s ≤ max_active_invocations limits ∧ open_handles s ≤ max_open_handles limits.
Proof using.
  intros Hl Hu Hb He (h & <- & Hrun & _).
  pose proof (limits_ok_u64 Hl) as Hl64.
  destruct (host_inv_reachable limits Hl64 usage Hb He _ _ Hrun) as [_ [H1 H2 H3 H4]];
    [by apply host_inv_new|done].
Qed.

End Lives.

(** The interface fixed by the grant decides which calls can succeed. *)
Lemma vfs_denied (limits : StorageLimits) (io : nat → Ending) (others : nat → LedgerState → LedgerState)
    (sha256 : list Z → list Z) (is_json : list Z → bool) (op : Op) (w : World) :
  hd_interface (w_hd w) = Jsonl → is_records_op op = false →
  run_op limits io others sha256 is_json op w = (Err (Throws PermissionDenied), w).
Proof.
  intros Hj Hop.
  assert (require_vfs w = (Err (Throws PermissionDenied), w)) as Hr.
  { unfold require_vfs, abind, self, reads. by rewrite Hj. }
  destruct op; try done; cbn [run_op]; unfold answering, vfs_open, vfs_close, vfs_stat, vfs_read_at, vfs_write_at,
    vfs_size, vfs_truncate, vfs_sync, vfs_remove, vfs_rename_atomic, vfs_random_bytes, vfs_monotonic_time_ns,
    vfs_wall_time_ms, abind at 1 2; by rewrite Hr.
Qed.

Lemma records_call_valid (limits : StorageLimits) (io : nat → Ending) (others : nat → LedgerState → LedgerState)
    (sha256 : list Z → list Z) (is_json : list Z → bool) (ns : str) (client : Client) (op : Op) (w : World) :
  is_json [] = false → leaves_alone others ns → max_file_bytes limits < u64_max →
  client_laws limits others ns client → inv limits ns client ∅ w → op_ok op →
  hd_interface (w_hd w) = Jsonl → all_valid is_json (content (files_of w)) →
  wp (run_op limits io others sha256 is_json op)
    (fun r w' => inv limits ns client ∅ w' ∧ hd_interface (w_hd w') = Jsonl
       ∧ (hd_failed (w_hd w') = true ∨ all_valid is_json (content (files_of w')))
       ∧ match r with Ok _ | Err (Throws _) => True | Err _ => False end) w.
Proof.
  intros Hnil Halone Hfile Hlaws Hi Hop Hj Hv.
  pose proof (run_op_granted limits io others sha256 is_json op w) as Hg.
  destruct (is_records_op op) eqn:Erec.
  - pose proof (run_op_refined limits io others sha256 is_json ns Halone Hfile client Hlaws op w Hi Hop) as Hr.
    unfold wp in *. destruct (run_op _ _ _ _ _ op w) as [r w'], Hr as [Hi' Hr]. cbn [fst snd] in *.
    split; [done|]. split; [by rewrite (gt_interface _ _ Hg)|].
    destruct r as [a|[e| |]]; [| |done|done]; (split; [|done]).
    + right. by eapply (records_step_valid is_json) in Hr.
    + destruct Hr as [Hr|[Hr _]]; [by left|]. right. intros t c E. cbn in Hr. rewrite Hr in E. by eapply Hv.
  - unfold wp. rewrite vfs_denied by done. cbn. auto.
Qed.

Lemma records_calls_valid (limits : StorageLimits) (io : nat → Ending) (others : nat → LedgerState → LedgerState)
    (sha256 : list Z → list Z) (is_json : list Z → bool) (ns : str) (client : Client) (ops : list Op) (w : World) :
  is_json [] = false → leaves_alone others ns → max_file_bytes limits < u64_max →
  client_laws limits others ns client → inv limits ns client ∅ w → Forall op_ok ops →
  hd_interface (w_hd w) = Jsonl → all_valid is_json (content (files_of w)) →
  wp (run_ops limits io others sha256 is_json ops)
    (fun _ w' => hd_failed (w_hd w') = true ∨ all_valid is_json (content (files_of w'))) w.
Proof.
  intros Hnil Halone Hfile Hlaws Hi Hops. revert w Hi.
  induction Hops as [|op ops Hop Hops IH]; intros w Hi Hj Hv; cbn [run_ops]; [by right|].
  apply wp_bind, wp_attempt.
  eapply wp_mono; [by apply (records_call_valid limits io others sha256 is_json ns client)|].
  intros r w1 (Hi1 & Hj1 & Hv1 & Hr).
  assert (∀ a : result StorageHostError Answer,
    wp (rest ⇚ run_ops limits io others sha256 is_json ops; pure (a :: rest))
      (fun _ w' => hd_failed (w_hd w') = true ∨ all_valid is_json (content (files_of w'))) w1) as Hrest.
  { intros a. destruct Hv1 as [Hf|Hv1].
    - eapply wp_step; [by apply (run_ops_failed limits io others sha256 is_json)| |].
      + intros rs w2 Hf2. apply wp_pure. by left.
      + intros e w2 Hf2. by left.
    - eapply wp_step; [by apply IH| |done]. intros rs w2 Hw2. by apply wp_pure. }
  destruct r as [a|[e| |]]; [apply Hrest|apply Hrest|done|done].
Qed.

(** ** A transaction alone *)

Section Alone.
Context (limits : StorageLimits) (usage : Usage) (h : Host).
Context (io : nat → Ending) (listing : gmap path Node → path → list str).
Context (sha256 : list Z → list Z) (is_json : list Z → bool).
Context (grant : Grant) (fuel depth : nat) (tries : nat → TryLock) (expired : nat → bool).
Context (Hu : usage_ok usage) (Hub : bytes usage ≤ u64_max) (Hue : entries usage ≤ u64_max).
Context (Hrun : rtc (host_step limits) (host_new usage) h).
Context (w : World) (Hw : h_state h = w_ledger w).
Context (Hb : begun limits usage listing alone (fun _ => 0) grant fuel depth tries expired w).

Abbreviation ns := (namespace_key (gr_base_token grant) (gr_generation_token grant)).
Abbreviation alone_client := (solo limits usage h).

Lemma host_handles : 0 ≤ h_handles h.
Proof using Hu Hub Hue Hrun Hb.
  destruct (host_inv_reachable limits (limits_ok_u64 _ (bg_limits _ _ _ _ _ _ _ _ _ _ _ Hb)) usage Hub Hue _ _ Hrun)
    as [Hacc _]; [by apply host_inv_new; [apply limits_ok_u64, Hb|]|].
  rewrite <- (acc_handles _ Hacc). destruct (acc_state _ Hacc) as (? & ? & ? & ? & ? & ? & ?). lia.
Qed.

Lemma solo_none (kept : bool) (i : nat) : alone_client kept i None 0%nat (w_ledger w).
Proof using Hrun Hw. exists h. repeat (split; [done|]). split; [lia|]. by split; [|left]. Qed.

Lemma alone_begin (kept : bool) :
  wp (begin_transaction limits io listing alone grant fuel depth tries expired)
    (fun r w' => match r with
       | Ok _ => inv limits ns (alone_client kept) ∅ w' ∧ hd_failed (w_hd w') = false
                 ∧ hd_finalized (w_hd w') = false
       | Err (Throws _) => alone_client kept (w_turn w') None 0%nat (w_ledger w')
       | Err _ => False
       end) w.
Proof using Hrun Hw Hb.
  destruct Hb as [Hl Hs Hls Ht Hr [Hd0 Hd] (k & Hk & Hfirst & Hfuel) _ _].
  eapply wp_mono; [apply (begin_transaction_ok limits io listing Hls alone (alone_client kept) grant fuel depth k);
    try done; [apply solo_none|]|].
  - intros u res s Hu' Hbeg. unfold alone in Hbeg. rewrite <- Hw in Hbeg. destruct h as [s0 rs iv kr ki n].
    cbn [h_state] in Hbeg.
    destruct res as [r|e].
    + exists (mkHost s rs (r :: iv) kr ki n). cbn. split; [done|].
      split; [eapply rtc_r; [exact Hrun|by eapply hs_begin]|]. split; [done|]. split; [done|]. split; [lia|done].
    + exists (mkHost s rs iv kr ki n). cbn. split; [done|].
      split; [eapply rtc_r; [exact Hrun|by eapply hs_begin_err]|]. split; [done|]. split; [done|]. split; [lia|].
      split; [done|by left].
  - intros r w' [_ Hcase]. destruct r as [[]|[e| |]]; try done. by destruct Hcase as (? & ? & ? & _).
Qed.

(** Calls of the transaction alone. *)
Lemma alone_ran (w1 : World) (ops : list Op) :
  begin_transaction limits io listing alone grant fuel depth tries expired w = (Ok tt, w1) → Forall op_ok ops →
  let w2 := (run_ops limits io alone sha256 is_json ops w1).2 in
  inv limits ns (alone_client true) ∅ w2 ∧ hd_finalized (w_hd w2) = false.
Proof using Hu Hub Hue Hrun Hw Hb.
  intros E Hops. pose proof (alone_begin true) as H. unfold wp in H. rewrite E in H. cbn [fst snd] in H.
  destruct H as (Hi & Hf & Hfin).
  pose proof (run_ops_ok limits io alone sha256 is_json ns (alone_leaves ns) (file_limit _ (bg_limits _ _ _ _ _ _ _ _ _ _ _ Hb))
    (alone_client true) (solo_laws limits usage h ns host_handles) ops w1 Hi Hops) as H.
  unfold wp in H. cbn zeta. destruct (run_ops _ _ _ _ _ ops w1) as [r w2], H as (rs & _ & Hi2 & Hg & _).
  cbn [fst snd] in *. split; [done|]. by rewrite (gt_finalized _ _ Hg).
Qed.

(** With its reservation still its own, a transaction gives all of it back. *)
Lemma alone_end (w2 : World) (e : End) :
  inv limits ns (alone_client true) ∅ w2 → hd_finalized (w_hd w2) = false → hd_failed (w_hd w2) = false →
  let w3 := (run_end alone sha256 e w2).2 in
  same_held (w_ledger w) (w_ledger w3)
  ∧ recorded ns (w_ledger w3) = (bytes (total (files_of w3)), entries (total (files_of w3))).
Proof using Hu Hub Hue Hrun Hw Hb.
  intros Hi Hfin Hf. pose proof (iv_res _ _ _ _ _ Hi) as Hres. pose proof (iv_client _ _ _ _ _ Hi) as Hcl.
  destruct (hd_reservation (w_hd w2)) as [r|] eqn:Er; [|by destruct Hres; congruence].
  assert (owes (alone_client false) (hd_reservation (w_hd w2)) (size (hd_handles (w_hd w2))) w2) as Ho.
  { rewrite Er. exact Hcl. }
  pose proof (run_end_ok alone sha256 ns (alone_client false) (solo_end_laws limits usage h host_handles false)
    (alone_leaves ns) e w2 Ho Hfin) as H.
  unfold wp in H. cbn zeta. destruct (run_end _ _ _ w2) as [r3 w3], H as [(_ & _ & _ & Ef & Ho3 & Erec) _].
  cbn [fst snd] in *. split.
  - rewrite <- Hw. apply (solo_same_held limits usage h (w_turn w3)); try done. apply limits_ok_u64, Hb.
  - rewrite Erec, Ef. destruct Hres as [_ Eu _ Eb Ee]. unfold recorded. by rewrite Eb, Ee, Eu.
Qed.

(** Whatever happened, its handles are closed. *)
Lemma alone_end_handles (w2 : World) (e : End) :
  inv limits ns (alone_client true) ∅ w2 → hd_finalized (w_hd w2) = false →
  open_handles (w_ledger (run_end alone sha256 e w2).2) = open_handles (w_ledger w).
Proof using Hu Hub Hue Hrun Hw Hb.
  intros Hi Hfin.
  pose proof (run_end_ok alone sha256 ns (alone_client true) (solo_end_laws limits usage h host_handles true)
    (alone_leaves ns) e w2 (iv_client _ _ _ _ _ Hi) Hfin) as H.
  unfold wp in H. destruct (run_end _ _ _ w2) as [r3 w3], H as [(_ & _ & _ & _ & Ho3 & _) _]. cbn [fst snd] in *.
  destruct Ho3 as (h' & <- & Hrun' & _ & _ & Eh & _).
  pose proof (limits_ok_u64 _ (bg_limits _ _ _ _ _ _ _ _ _ _ _ Hb)) as Hl.
  destruct (host_inv_reachable limits Hl usage Hub Hue _ _ Hrun) as [Hacc _]; [by apply host_inv_new|].
  destruct (host_inv_reachable limits Hl usage Hub Hue _ _ Hrun') as [Hacc' _]; [by apply host_inv_new|].
  rewrite (acc_handles _ Hacc'), <- Hw, (acc_handles _ Hacc), Eh. lia.
Qed.

End Alone.

(** ** Properties *)

(** C4: a transaction implements the abstract store. Begun on any sound files
    by a host whose ledger is one it reaches, it answers every sequence of
    calls without a panic, whatever system calls fail and whatever other
    invocations do to the ledger: each call that returns a value is a step of
    the store (names to bytes, open handles, deletion at the last close), each
    that returns an error leaves the files as they were, until one breaks the
    transaction and every call after it is refused. *)
Theorem transaction_refines_store (limits : StorageLimits) (usage : Usage) (io : nat → Ending)
    (listing : gmap path Node → path → list str) (others : nat → LedgerState → LedgerState)
    (theirs : nat → Z) (sha256 : list Z → list Z) (is_json : list Z → bool) (grant : Grant)
    (fuel depth : nat) (tries : nat → TryLock) (expired : nat → bool) (ops : list Op) (w w1 : World) :
  begun limits usage listing others theirs grant fuel depth tries expired w →
  begin_transaction limits io listing others grant fuel depth tries expired w = (Ok tt, w1) →
  Forall op_ok ops →
  files_of w1 = files_of w
  ∧ ∃ rs w2, run_ops limits io others sha256 is_json ops w1 = (Ok rs, w2)
    ∧ store_run (logical_token sha256 (w_hd w1)) is_json ops (store_of w1) rs (store_of w2).
Proof.
  intros Hb E Hops. split; [by eapply begun_inv|].
  destruct (begun_ran limits usage io listing others theirs sha256 is_json grant fuel depth tries expired w w1 ops
    Hb E Hops) as (rs & w2 & Er & _ & _ & _ & Hrun). eauto.
Qed.

(** C16: a transaction's accounts are exact. After any sequence of calls, with
    any system calls failing in it, as long as the transaction holds its
    reservation the usage it carries and the usage the ledger has for its
    namespace are the usage of the files on the disk, every entry charged 4096
    bytes; while it has not failed every file is within its limit and so is
    their number; and what it read, wrote, drew and opened is within the
    limits of an invocation. *)
Theorem transaction_accounts_exactly (limits : StorageLimits) (usage : Usage) (io : nat → Ending)
    (listing : gmap path Node → path → list str) (others : nat → LedgerState → LedgerState)
    (theirs : nat → Z) (sha256 : list Z → list Z) (is_json : list Z → bool) (grant : Grant)
    (fuel depth : nat) (tries : nat → TryLock) (expired : nat → bool) (ops : list Op) (w w1 w2 : World) :
  begun limits usage listing others theirs grant fuel depth tries expired w →
  begin_transaction limits io listing others grant fuel depth tries expired w = (Ok tt, w1) →
  Forall op_ok ops → (run_ops limits io others sha256 is_json ops w1).2 = w2 →
  let ns := namespace_key (gr_base_token grant) (gr_generation_token grant) in
  (is_Some (hd_reservation (w_hd w2)) →
     hd_usage (w_hd w2) = total (files_of w2)
     ∧ ns_get (namespace_used (w_ledger w2)) ns = bytes (total (files_of w2))
     ∧ ns_get (namespace_entries (w_ledger w2)) ns = entries (total (files_of w2)))
  ∧ (hd_failed (w_hd w2) = false →
     is_Some (hd_reservation (w_hd w2))
     ∧ (∀ t n, file_at (files_of w2) t = Some n → len (nd_bytes n) ≤ max_file_bytes limits)
     ∧ Z.of_nat (size (hd_baseline_files (w_hd w2))) ≤ max_files_per_namespace limits
     ∧ ∀ t, t ∈ hd_baseline_files (w_hd w2) ↔ is_Some (file_at (files_of w2) t))
  ∧ hd_read_bytes (w_hd w2) ≤ max_read_bytes_per_invocation limits
  ∧ hd_write_bytes (w_hd w2) ≤ max_write_bytes_per_invocation limits
  ∧ hd_entropy_bytes (w_hd w2) ≤ max_entropy_bytes_per_invocation limits
  ∧ Z.of_nat (size (hd_handles (w_hd w2))) ≤ max_handles_per_invocation limits.
Proof.
  intros Hb E Hops E2 ns.
  destruct (begun_ran limits usage io listing others theirs sha256 is_json grant fuel depth tries expired w w1 ops
    Hb E Hops) as (rs & w2' & Er & [Hc Hr Hl Hh Hrd Hwr Hen Ho] & _ & Hfin & _).
  rewrite Er in E2. cbn in E2. subst w2'. split; [|split; [|done]].
  - intros [r Hres]. rewrite Hres in Hr. destruct Hr as [_ Eu _ Eb Ee]. by rewrite <- Eu.
  - intros Hf. destruct (Hl Hf) as (Hfiles & _ & Hcount).
    destruct (hd_reservation (w_hd w2)) as [r|] eqn:Hres; [|by destruct Hr; congruence].
    split; [by eexists|]. split; [by intros t n Hn; apply (Hfiles t n Hn)|]. split; [done|]. apply Hr.
Qed.

(** C15: transactions keep the host within its quotas. From any ledger the
    host reaches, a transaction begun, run through any calls and ended in any
    way, or one that fails to begin, leaves a ledger within the limits: what
    it reports to the ledger is always covered by what it reserved. Nothing
    on the way panics. *)
Theorem transaction_keeps_quota (limits : StorageLimits) (usage : Usage) (io : nat → Ending)
    (listing : gmap path Node → path → list str) (others : nat → LedgerState → LedgerState)
    (theirs : nat → Z) (sha256 : list Z → list Z) (is_json : list Z → bool) (grant : Grant)
    (fuel depth : nat) (tries : nat → TryLock) (expired : nat → bool) (ops : list Op) (e : End) (w w1 : World) :
  begun limits usage listing others theirs grant fuel depth tries expired w →
  usage_ok usage → bytes usage ≤ u64_max → entries usage ≤ u64_max →
  begin_transaction limits io listing others grant fuel depth tries expired w = (Ok tt, w1) →
  Forall op_ok ops →
  let w2 := (run_ops limits io others sha256 is_json ops w1).2 in
  let '(r, w3) := run_end others sha256 e w2 in
  match r with Ok _ | Err (Throws _) => True | Err _ => False end
  ∧ files_of w3 = files_of w2
  ∧ ∀ s, s = w_ledger w2 ∨ s = w_ledger w3 →
    root_used s + root_reserved s ≤ Z.max (max_root_bytes limits) (bytes usage)
    ∧ root_entries s + root_entries_reserved s ≤ Z.max (startup_max_entries limits) (entries usage)
    ∧ active_invocations s ≤ max_active_invocations limits ∧ open_handles s ≤ max_open_handles limits.
Proof.
  intros Hb Hu Hub Hue E Hops.
  destruct (begun_ran limits usage io listing others theirs sha256 is_json grant fuel depth tries expired w w1 ops
    Hb E Hops) as (rs & w2 & Er & Hi & _ & Hfin & _).
  rewrite Er. cbn zeta. cbn [snd]. pose proof (iv_client _ _ _ _ _ Hi) as Hcl.
  pose proof (bg_limits _ _ _ _ _ _ _ _ _ _ _ Hb) as Hl. destruct (bg_others _ _ _ _ _ _ _ _ _ _ _ Hb) as [Hint Halone].
  pose proof (run_end_ok others sha256 _ _ (client_end_laws _ _ _ _ (hosted_laws _ _ _ _ _ Hint)) Halone e w2 Hcl
    Hfin) as H.
  unfold wp in H. destruct (run_end _ _ _ w2) as [r w3], H as [(_ & _ & _ & Ef & Ho & _) Hr]. cbn [fst snd] in *.
  split; [done|]. split; [done|]. by intros s [-> | ->]; eapply hosted_bounds.
Qed.

(** A transaction gives back what it took. Alone on a host, one that does
    not begin, or is ended in any way without having failed, leaves the
    ledger's reserved bytes and entries, its invocations and its open handles
    as it found them, and the ledger's usage of its namespace is the usage of
    the files it leaves; even one that failed leaves no handle open. *)
Theorem transaction_gives_back (limits : StorageLimits) (usage : Usage) (h : Host) (io : nat → Ending)
    (listing : gmap path Node → path → list str) (sha256 : list Z → list Z) (is_json : list Z → bool)
    (grant : Grant) (fuel depth : nat) (tries : nat → TryLock) (expired : nat → bool) (ops : list Op) (e : End)
    (w w1 : World) (r : result Exn unit) :
  begun limits usage listing alone (fun _ => 0) grant fuel depth tries expired w →
  usage_ok usage → bytes usage ≤ u64_max → entries usage ≤ u64_max →
  rtc (host_step limits) (host_new usage) h → h_state h = w_ledger w →
  begin_transaction limits io listing alone grant fuel depth tries expired w = (r, w1) → Forall op_ok ops →
  let ns := namespace_key (gr_base_token grant) (gr_generation_token grant) in
  let w2 := (run_ops limits io alone sha256 is_json ops w1).2 in
  let w3 := (run_end alone sha256 e w2).2 in
  match r with
  | Ok _ =>
      open_handles (w_ledger w3) = open_handles (w_ledger w)
      ∧ (hd_failed (w_hd w2) = false →
         same_held (w_ledger w) (w_ledger w3)
         ∧ recorded ns (w_ledger w3) = (bytes (total (files_of w3)), entries (total (files_of w3))))
  | Err (Throws _) => same_held (w_ledger w) (w_ledger w1)
  | Err _ => False
  end.
Proof.
  intros Hb Hu Hub Hue Hrun Hw E Hops ns w2 w3. pose proof (bg_limits _ _ _ _ _ _ _ _ _ _ _ Hb) as Hl.
  destruct r as [[]|[x| |]].
  - destruct (alone_ran limits usage h io listing sha256 is_json grant fuel depth tries expired Hu Hub Hue Hrun w Hw Hb
      w1 ops E Hops) as [Hi Hfin].
    split; [by apply (alone_end_handles limits usage h listing sha256 grant fuel depth tries expired)|].
    intros Hf. by apply (alone_end limits usage h listing sha256 grant fuel depth tries expired).
  - pose proof (alone_begin limits usage h io listing grant fuel depth tries expired Hrun w Hw Hb false) as H.
    unfold wp in H. rewrite E in H. cbn in H. rewrite <- Hw.
    apply (solo_same_held limits usage h (w_turn w1)); try done. by apply limits_ok_u64.
  - pose proof (alone_begin limits usage h io listing grant fuel depth tries expired Hrun w Hw Hb false) as H.
    unfold wp in H. by rewrite E in H.
  - pose proof (alone_begin limits usage h io listing grant fuel depth tries expired Hrun w Hw Hb false) as H.
    unfold wp in H. by rewrite E in H.
Qed.

(** C22: a read-only grant never changes a file, whatever is called in
    whatever order, with any system calls failing. *)
Theorem read_only_never_writes (limits : StorageLimits) (io : nat → Ending)
    (listing : gmap path Node → path → list str) (others : nat → LedgerState → LedgerState)
    (sha256 : list Z → list Z) (is_json : list Z → bool) (grant : Grant) (fuel depth : nat)
    (tries : nat → TryLock) (expired : nat → bool) (ops : list Op) (w w1 : World) :
  gr_access grant = ReadOnly →
  begin_transaction limits io listing others grant fuel depth tries expired w = (Ok tt, w1) →
  files_of (run_ops limits io others sha256 is_json ops w1).2 = files_of w1.
Proof.
  intros Hro E. assert (hd_access (w_hd w1) = gr_access grant ∧ hd_pending_delete (w_hd w1) = ∅) as [Ha Hp].
  { unfold begin_transaction, abind in E. destruct (open_generation _ _ _ _ _ _ _ w) as [[[u b]|x] w0]; [|done].
    destruct (_ <? _); [done|]. destruct (_ <? _); [done|]. destruct (on_ledger _ _ w0) as [[rv|x] w0']; [|done].
    by injection E as <-. }
  apply (freezes_calls limits io others sha256 is_json ops w1); congruence.
Qed.

(** Record files stay valid. If every file of a namespace of records is
    empty or lines of JSON each ended by a line feed when a transaction
    begins, it is so after any sequence of calls, unless the transaction has
    failed; calls of the file interface are refused throughout. *)
Theorem records_stay_valid (limits : StorageLimits) (usage : Usage) (io : nat → Ending)
    (listing : gmap path Node → path → list str) (others : nat → LedgerState → LedgerState)
    (theirs : nat → Z) (sha256 : list Z → list Z) (is_json : list Z → bool) (grant : Grant)
    (fuel depth : nat) (tries : nat → TryLock) (expired : nat → bool) (ops : list Op) (w w1 w2 : World) :
  begun limits usage listing others theirs grant fuel depth tries expired w → is_json [] = false →
  gr_interface grant = Jsonl →
  begin_transaction limits io listing others grant fuel depth tries expired w = (Ok tt, w1) →
  Forall op_ok ops → (run_ops limits io others sha256 is_json ops w1).2 = w2 →
  (∀ t n, file_at (files_of w) t = Some n → valid_jsonl is_json (nd_bytes n) = true) →
  hd_failed (w_hd w2) = true
  ∨ ∀ t n, file_at (files_of w2) t = Some n → valid_jsonl is_json (nd_bytes n) = true.
Proof.
  intros Hb Hnil Hj E Hops E2 Hv.
  destruct (begun_inv limits usage io listing others theirs grant fuel depth tries expired w w1 Hb E)
    as (Hi & Ef & _ & _ & Hj1 & _). destruct Hb as [Hl _ _ _ _ _ _ _ [Hint Halone]].
  pose proof (records_calls_valid limits io others sha256 is_json _ _ ops w1 Hnil Halone (file_limit _ Hl)
    (hosted_laws _ _ _ _ _ Hint) Hi Hops) as H. unfold wp in H. rewrite E2 in H.
  destruct H as [H|H]; [congruence| |by left|].
  - intros t c. unfold content. rewrite Ef. destruct (file_at (files_of w) t) as [n|] eqn:En; [|done].
    intros [= <-]. by eapply Hv.
  - right. intros t n Hn. apply (H t). unfold content. by rewrite Hn.
Qed.

(** A failed transaction stays failed: it refuses every call, leaves the
    files as the failure left them, and cannot be committed. *)
Theorem failure_is_final (limits : StorageLimits) (io : nat → Ending)
    (others : nat → LedgerState → LedgerState) (sha256 : list Z → list Z) (is_json : list Z → bool)
    (op : Op) (w : World) :
  hd_failed (w_hd w) = true → hd_finalized (w_hd w) = false →
  (∃ e, (run_op limits io others sha256 is_json op w).1 = Err (Throws e))
  ∧ files_of (run_op limits io others sha256 is_json op w).2 = files_of w
  ∧ hd_failed (w_hd (run_op limits io others sha256 is_json op w).2) = true
  ∧ (commit others sha256 w).1 = Err (Throws Io).
Proof.
  intros Hf Hfin. destruct (run_op_refused limits io others sha256 is_json op w Hf) as (He & Ef & Hf').
  split; [done|]. split; [done|]. split; [done|].
  unfold commit, finish_read, abind at 1, self, reads. rewrite Hf. unfold abind.
  assert ((drop_handle others w).1 = Ok tt) as Hd by apply drop_handle_returns.
  by destruct (drop_handle others w) as [[[]|x] w'].
Qed.

(** The wait for a lease ends. Attempts are made in order until one takes
    the lock, fails, or finds the deadline passed; that attempt, the first of
    these, decides the outcome, and the files and the ledger are not touched. *)
Theorem lease_wait_ends (tries : nat → TryLock) (expired : nat → bool) (w : World) :
  (∃ k, expired k = true) →
  ∃ k, (∀ fuel, (k < fuel)%nat → lock_exclusive fuel tries expired 0 w = (lock_outcome (tries k), w))
       ∧ (∀ j, (j < k)%nat → tries j = WouldBlock ∧ expired j = false)
       ∧ (tries k = WouldBlock → expired k = true).
Proof.
  intros [k0 Hk0]. destruct (first_decided tries expired k0) as (k & Hk & Hfirst); [by right|].
  assert (∀ j, (j < k)%nat → tries j = WouldBlock ∧ expired j = false) as Hj.
  { intros j Hjk. specialize (Hfirst j Hjk). unfold decided in Hfirst.
    destruct (tries j), (expired j); try done; exfalso; apply Hfirst; by (left + right). }
  exists k. split; [|split; [done|]].
  - intros fuel Hfuel. apply lock_exclusive_decides; [done|lia|lia|]. intros j ?. apply Hfirst. lia.
  - intros E. destruct Hk as [Hk|Hk]; [by rewrite E in Hk|done].
Qed.

(** ** Witnesses *)

(** A new generation: the lease and an empty data directory. *)
Definition new_tree : gmap path Node := {[ [lit "lease.lock"] := demo_file []; [lit "data"] := demo_dir ]}.

Definition blank_handle : StorageHandle :=
  mkHandle DurableFiles ReadOnly [] [] [] ∅ (mkUsage 0 0 0) ∅ ∅ ∅ 0 0 0 0 0 0 0 (mkEvidence 0 0 0 0 0) None true true.

Definition new_world : World := mkWorld blank_handle (mkDisk new_tree 0) (QuotaLedger_new demo_usage) 0.

Definition demo_grant (interface : StorageInterface) (access : StorageAccess) : Grant :=
  mkGrant interface access (lit "base") (lit "gen-1") [1].

(** A stand-in for the digest: 32 bytes that depend on all of the input. *)
Definition demo_sha256 (b : list Z) : list Z := repeat (foldr (fun x a => (x + 31 * a) mod 251) 7 b) 32.
Definition demo_json (b : list Z) : bool := negb (is_nil b).

(** Another invocation begins in its own namespace before the first use of
    the ledger; then nothing. *)
Definition demo_others (i : nat) (s : LedgerState) : LedgerState :=
  match i with O => (begin StorageLimits_default (lit "other/gen-1") (mkUsage 10 2 1) s).2 | S _ => s end.

Definition demo_begin interface access others :=
  begin_transaction StorageLimits_default (fun _ => Works) map_listing others (demo_grant interface access) 3 3
    (fun i => match i with O => WouldBlock | S _ => Locked end) (fun _ => false) new_world.

Definition demo_open : OpenOptions := mkOpenOptions true true true false false.
Definition demo_ops : list Op :=
  [OpOpen (lit "log") demo_open; OpWriteAt 1 2 [5; 6]; OpReadAt 1 0 10; OpTruncate 1 3; OpSize 1;
   OpRename (lit "log") (lit "new") false; OpClose 1; OpRename (lit "log") (lit "new") false; OpStat (lit "new")].

Definition demo_calls others interface access ops :=
  run_ops StorageLimits_default (fun _ => Works) others demo_sha256 demo_json ops (demo_begin interface access others).2.

Definition demo_namespace : str := namespace_key (lit "base") (lit "gen-1").

Lemma demo_interferes : interferes StorageLimits_default demo_usage demo_others demo_namespace (fun _ => 0).
Proof.
  intros [|i] h Hrun Hh; [|by exists h].
  destruct h as [s rs iv kr ki n]. cbn [h_state h_handles h_invs] in *. unfold demo_others.
  destruct (begin _ _ _ s) as [[r|e] s'] eqn:E; cbn [snd].
  - exists (mkHost s' rs (r :: iv) kr ki n). split; [|split; [done|split; [by right|cbn; lia]]].
    apply rtc_once, (hs_begin _ _ _ _ _ _ _ (lit "other/gen-1") (mkUsage 10 2 1)); [split; cbn; lia|done].
  - exists (mkHost s' rs iv kr ki n). split; [|split; [done|split; [done|cbn; lia]]].
    apply rtc_once, (hs_begin_err _ _ _ _ _ _ _ (lit "other/gen-1") (mkUsage 10 2 1) e). done.
Qed.

Lemma demo_leaves : leaves_alone demo_others demo_namespace.
Proof.
  intros [|i] s; [|done]. unfold demo_others. destruct (begin _ _ _ s) as [[r|e] s'] eqn:E; cbn [snd].
  - apply begin_Ok in E as (_ & -> & _). cbn. by rewrite !ns_get_insert_ne by (vm_compute; discriminate).
  - by apply begin_Err in E as (-> & _); [|vm_compute].
Qed.

Lemma new_tree_lookup (P : path → Prop) :
  P [lit "lease.lock"] → P [lit "data"] → ∀ q, is_Some (new_tree !! q) → P q.
Proof.
  intros H1 H2 q [n Hn]. unfold new_tree in Hn.
  rewrite lookup_insert_Some in Hn. destruct Hn as [[<- _]|[_ Hn]]; [done|].
  apply lookup_singleton_Some in Hn as [<- _]. done.
Qed.

Lemma demo_begun (interface : StorageInterface) (access : StorageAccess) others :
  interferes StorageLimits_default demo_usage others demo_namespace (fun _ => 0) →
  leaves_alone others demo_namespace →
  begun StorageLimits_default demo_usage map_listing others (fun _ => 0) (demo_grant interface access) 3 3
    (fun i => match i with O => WouldBlock | S _ => Locked end) (fun _ => false) new_world.
Proof.
  intros Hint Halone. constructor.
  - split; try (vm_compute; discriminate). unfold limits_bounded. repeat constructor; vm_compute; (done || discriminate).
  - vm_compute. reflexivity.
  - apply map_listing_ok.
  - intros p x H Hp. revert p x H Hp.
    assert (∀ q, is_Some (new_tree !! q) → ∀ p x, q = p ++ [x] → p ≠ [] →
      nd_kind <$> new_tree !! p = Some Directory) as H; [|by eauto].
    refine (new_tree_lookup _ _ _); intros p x E Hp; destruct p as [|y [|z p]]; done.
  - vm_compute. reflexivity.
  - split; [lia|]. refine (new_tree_lookup _ _ _); cbn; lia.
  - exists 1%nat. split; [by left|]. split; [|lia]. intros [|j] Hj; [|lia]. by intros [[]|].
  - exists (host_new demo_usage). split; [done|]. split; [done|]. cbn. lia.
  - done.
Qed.

Lemma alone_interferes : interferes StorageLimits_default demo_usage alone demo_namespace (fun _ => 0).
Proof. intros i h Hrun Hh. exists h. split; [done|]. split; [done|]. split; [done|]. lia. Qed.

Lemma demo_begins interface access others :
  others = demo_others ∨ others = alone →
  demo_begin interface access others = (Ok tt, (demo_begin interface access others).2).
Proof. intros [-> | ->]; destruct interface, access; vm_compute; reflexivity. Qed.

Lemma demo_ops_ok : Forall op_ok demo_ops.
Proof. repeat constructor; cbn; lia. Qed.

Lemma transaction_refines_store_witness :
  files_of (demo_begin DurableFiles ReadWrite demo_others).2 = new_tree
  ∧ ∃ rs w2, demo_calls demo_others DurableFiles ReadWrite demo_ops = (Ok rs, w2)
    ∧ rs = [Ok (Number 1); Ok Done; Ok (Bytes [0; 0; 5; 6]); Ok Done; Ok (Number 3); Err Busy; Ok Done; Ok Done;
            Ok (Stat (Some (mkFileStat 3 1)))]
    ∧ store_run (logical_token demo_sha256 (w_hd (demo_begin DurableFiles ReadWrite demo_others).2)) demo_json demo_ops
        (store_of (demo_begin DurableFiles ReadWrite demo_others).2) rs (store_of w2).
Proof.
  destruct (transaction_refines_store StorageLimits_default demo_usage (fun _ => Works) map_listing demo_others
    (fun _ => 0) demo_sha256 demo_json (demo_grant DurableFiles ReadWrite) 3 3
    (fun i => match i with O => WouldBlock | S _ => Locked end) (fun _ => false) demo_ops new_world
    (demo_begin DurableFiles ReadWrite demo_others).2
    (demo_begun _ _ _ demo_interferes demo_leaves) (demo_begins _ _ _ (or_introl eq_refl)) demo_ops_ok)
    as (Hf & rs & w2 & Er & Hrun).
  split; [exact Hf|]. exists rs, w2. split; [exact Er|]. split; [|exact Hrun].
  assert (Ok rs = (demo_calls demo_others DurableFiles ReadWrite demo_ops).1) as E by (unfold demo_calls; by rewrite Er).
  vm_compute in E. congruence.
Defined.

Lemma transaction_accounts_exactly_witness :
  let w2 := (demo_calls demo_others DurableFiles ReadWrite demo_ops).2 in
  hd_usage (w_hd w2) = mkUsage (4 * 4096 + 3) 4 2 ∧ hd_usage (w_hd w2) = total (files_of w2).
Proof.
  split; [vm_compute; reflexivity|].
  apply (transaction_accounts_exactly StorageLimits_default demo_usage (fun _ => Works) map_listing demo_others
    (fun _ => 0) demo_sha256 demo_json (demo_grant DurableFiles ReadWrite) 3 3
    (fun i => match i with O => WouldBlock | S _ => Locked end) (fun _ => false) demo_ops new_world
    (demo_begin DurableFiles ReadWrite demo_others).2 _
    (demo_begun _ _ _ demo_interferes demo_leaves) (demo_begins _ _ _ (or_introl eq_refl)) demo_ops_ok eq_refl).
  vm_compute. by eexists.
Defined.

Lemma transaction_keeps_quota_witness :
  let w2 := (demo_calls demo_others DurableFiles ReadWrite demo_ops).2 in
  root_used (w_ledger w2) = 4199 ∧ active_invocations (w_ledger w2) = 2
  ∧ let '(r, w3) := run_end demo_others demo_sha256 EndCommit w2 in
    active_invocations (w_ledger w3) = 1 ∧ files_of w3 = files_of w2.
Proof.
  split; [vm_compute; reflexivity|]. split; [vm_compute; reflexivity|].
  pose proof (transaction_keeps_quota StorageLimits_default demo_usage (fun _ => Works) map_listing demo_others
    (fun _ => 0) demo_sha256 demo_json (demo_grant DurableFiles ReadWrite) 3 3
    (fun i => match i with O => WouldBlock | S _ => Locked end) (fun _ => false) demo_ops EndCommit new_world
    (demo_begin DurableFiles ReadWrite demo_others).2
    (demo_begun _ _ _ demo_interferes demo_leaves) ltac:(split; cbn; lia) ltac:(vm_compute; discriminate)
    ltac:(vm_compute; discriminate) (demo_begins _ _ _ (or_introl eq_refl)) demo_ops_ok) as H.
  cbn zeta in H. fold (demo_calls demo_others DurableFiles ReadWrite demo_ops) in H.
  assert (active_invocations (w_ledger
    (run_end demo_others demo_sha256 EndCommit (demo_calls demo_others DurableFiles ReadWrite demo_ops).2).2) = 1)
    as Ha by (vm_compute; reflexivity).
  destruct (run_end _ _ _ _) as [r w3]. split; [exact Ha|]. apply H.
Defined.

Lemma transaction_gives_back_witness :
  let w2 := (demo_calls alone DurableFiles ReadWrite demo_ops).2 in
  let w3 := (run_end alone demo_sha256 EndDrop w2).2 in
  active_invocations (w_ledger w2) = 1 ∧ same_held (QuotaLedger_new demo_usage) (w_ledger w3)
  ∧ recorded demo_namespace (w_ledger w3) = (4 * 4096 + 3, 4).
Proof.
  split; [vm_compute; reflexivity|].
  destruct (transaction_gives_back StorageLimits_default demo_usage (host_new demo_usage) (fun _ => Works) map_listing
    demo_sha256 demo_json (demo_grant DurableFiles ReadWrite) 3 3
    (fun i => match i with O => WouldBlock | S _ => Locked end) (fun _ => false) demo_ops EndDrop new_world
    (demo_begin DurableFiles ReadWrite alone).2 (Ok tt)
    (demo_begun _ _ _ alone_interferes (alone_leaves _)) ltac:(split; cbn; lia) ltac:(vm_compute; discriminate)
    ltac:(vm_compute; discriminate) ltac:(reflexivity) ltac:(reflexivity)
    (demo_begins _ _ _ (or_intror eq_refl)) demo_ops_ok) as [_ H].
  destruct (H ltac:(vm_compute; reflexivity)) as [Hheld _]. split; [exact Hheld|]. vm_compute. reflexivity.
Defined.

Lemma read_only_never_writes_witness :
  let w2 := (demo_calls demo_others DurableFiles ReadOnly demo_ops).2 in files_of w2 = new_tree.
Proof.
  exact (read_only_never_writes StorageLimits_default (fun _ => Works) map_listing demo_others demo_sha256 demo_json
    (demo_grant DurableFiles ReadOnly) 3 3 (fun i => match i with O => WouldBlock | S _ => Locked end) (fun _ => false)
    demo_ops new_world (demo_begin DurableFiles ReadOnly demo_others).2 eq_refl
    (demo_begins _ _ _ (or_introl eq_refl))).
Defined.

(** Appends, one against a stale size, and a replacement. *)
Definition demo_record_ops : list Op :=
  [OpRecordsAppend (lit "log") 0 [123; 125]; OpRecordsAppend (lit "log") 3 [34; 34]; OpRecordsAppend (lit "log") 3 [49];
   OpOpen (lit "log") demo_open; OpRecordsRead (lit "log") 3 10].

Lemma records_stay_valid_witness :
  let w2 := (demo_calls demo_others Jsonl ReadWrite demo_record_ops).2 in
  (demo_calls demo_others Jsonl ReadWrite demo_record_ops).1
  = Ok [Ok (Number 3); Ok (Number 6); Err Busy; Err PermissionDenied; Ok (Chunk (mkChunk [34; 34; 10] 6 true))]
  ∧ ∀ t n, file_at (files_of w2) t = Some n → valid_jsonl demo_json (nd_bytes n) = true.
Proof.
  split; [vm_compute; reflexivity|].
  destruct (records_stay_valid StorageLimits_default demo_usage (fun _ => Works) map_listing demo_others
    (fun _ => 0) demo_sha256 demo_json (demo_grant Jsonl ReadWrite) 3 3
    (fun i => match i with O => WouldBlock | S _ => Locked end) (fun _ => false) demo_record_ops new_world
    (demo_begin Jsonl ReadWrite demo_others).2 _
    (demo_begun _ _ _ demo_interferes demo_leaves) eq_refl eq_refl (demo_begins _ _ _ (or_introl eq_refl))
    ltac:(repeat constructor; cbn; lia) eq_refl) as [H|H].
  - intros t n Hn. unfold file_at in Hn.
    pose proof (new_tree_lookup (fun q => q ≠ data ++ [t]) ltac:(done) ltac:(done) (data ++ [t]) (mk_is_Some _ _ Hn)).
    done.
  - exfalso. revert H. fold (demo_calls demo_others Jsonl ReadWrite demo_record_ops).
    assert (hd_failed (w_hd (demo_calls demo_others Jsonl ReadWrite demo_record_ops).2) = false) as E
      by (vm_compute; reflexivity).
    rewrite E. intros [=].
  - exact H.
Defined.

(** A write breaks off after one byte. *)
Definition broken_world : World :=
  (run_ops StorageLimits_default (fun t => if (22 <? t)%nat then Breaks 1 else Works) demo_others demo_sha256 demo_json
     demo_ops (demo_begin DurableFiles ReadWrite demo_others).2).2.

Lemma failure_is_final_witness :
  ∃ e, (run_op StorageLimits_default (fun _ => Works) demo_others demo_sha256 demo_json (OpStat (lit "log"))
          broken_world).1 = Err (Throws e).
Proof.
  apply (failure_is_final StorageLimits_default (fun _ => Works) demo_others demo_sha256 demo_json (OpStat (lit "log"))
    broken_world); vm_compute; reflexivity.
Defined.

Lemma lease_wait_ends_witness :
  ∃ k, (∀ fuel, (k < fuel)%nat →
          lock_exclusive fuel (fun _ => WouldBlock) (fun i => (4 <? i)%nat) 0 new_world
          = (lock_outcome WouldBlock, new_world)).
Proof.
  destruct (lease_wait_ends (fun _ => WouldBlock) (fun i => (4 <? i)%nat) new_world) as (k & Hk & _).
  - exists 5%nat. vm_compute. reflexivity.
  - exists k. exact Hk.
Defined.
