(* ===== verification/Utf8.v ===== *)
(** * Characters of UTF-8 strings

    The facts about [str] that hold because its bytes are well-formed UTF-8:
    a string is the concatenation of the encodings of its characters, it can be
    cut where a character begins, and the characters of the two parts are those
    of the whole. [dekopon-core] and the gateway cut text by byte offsets; the
    functions here are those of [str] that do so. *)

From Stdlib Require Import ZArith Lia.
From stdpp Require Import base list numbers.
From S2P Require Import Prelude RustStr.

(** [str::is_char_boundary]. *)
Definition is_char_boundary (s : str) (i : nat) : bool :=
  match i with
  | O => true
  | _ =>
      if (length s <=? i)%nat then (length s =? i)%nat
      else match s !! i with Some b => negb (is_continuation b) | None => false end
  end.

(** The slice [s[a..b]]. *)
Definition slice (s : str) (a b : nat) : str := take (b - a) (drop a s).

(** The next character of the iterator [char_indices] over [s], and its width. *)
Definition next_char (s : str) : option (Z * nat) :=
  match s with
  | [] => None
  | b :: _ => Some (utf8_scalar (take (utf8_width b) s), utf8_width b)
  end.

(** ** Well-formed strings *)

Definition char_ok (c : str) : Prop :=
  match c with
  | [] => False
  | b :: t =>
      length c = utf8_width b ∧ is_continuation b = false
      ∧ Forall (fun x => is_continuation x = true) t
  end.

Inductive Utf8 : str → Prop :=
| Utf8_nil : Utf8 []
| Utf8_cons c s : char_ok c → Utf8 s → Utf8 (c ++ s).

(** [i] cuts [s] between two characters. *)
Definition boundary (s : str) (i : nat) : Prop :=
  (i ≤ length s)%nat ∧ Utf8 (take i s) ∧ Utf8 (drop i s).

Lemma utf8_width_pos (b : Z) : (1 ≤ utf8_width b ≤ 4)%nat.
Proof. unfold utf8_width. repeat case_match; lia. Qed.

Lemma char_ok_length (c : str) : char_ok c → (1 ≤ length c ≤ 4)%nat.
Proof. destruct c as [|b t]; [done|]. intros (-> & _). apply utf8_width_pos. Qed.

Lemma char_ok_not_nil (c : str) : char_ok c → c ≠ [].
Proof. by destruct c. Qed.

Lemma utf8_from_Utf8 (fuel : nat) (s : str) : utf8_from fuel s = true → Utf8 s.
Proof.
  revert s. induction fuel as [|fuel IH]; intros [|b s] H; cbn in H; try done; [constructor..|].
  unfold is_continuation, in_range in H.
  repeat match goal with
  | H : (if ?c then _ else _) = true |- _ => destruct c eqn:?
  | H : match ?l with [] => _ | _ :: _ => _ end = true |- _ => destruct l
  end; try done; dk_bool; destruct_and?.
  - apply (Utf8_cons [b]); [|auto]. unfold char_ok, utf8_width, is_continuation, in_range.
    rewrite (proj2 (Z.ltb_lt b 128)) by lia. split_and!; [done| |constructor]. dk_bool. lia.
  - apply (Utf8_cons [b; z]); [|auto]. unfold char_ok, utf8_width, is_continuation, in_range.
    rewrite (proj2 (Z.ltb_ge b 128)), (proj2 (Z.ltb_lt b 224)) by lia.
    split_and!; [done| |repeat constructor]; dk_bool; lia.
  - apply (Utf8_cons [b; z; z0]); [|auto]. unfold char_ok, utf8_width, is_continuation, in_range.
    rewrite (proj2 (Z.ltb_ge b 128)), (proj2 (Z.ltb_ge b 224)), (proj2 (Z.ltb_lt b 240)) by lia.
    split_and!; [done| |repeat constructor]; dk_bool; lia.
  - apply (Utf8_cons [b; z; z0; z1]); [|auto]. unfold char_ok, utf8_width, is_continuation, in_range.
    rewrite (proj2 (Z.ltb_ge b 128)), (proj2 (Z.ltb_ge b 224)), (proj2 (Z.ltb_ge b 240)) by lia.
    split_and!; [done| |repeat constructor]; dk_bool; lia.
Qed.

Lemma str_ok_Utf8 (s : str) : str_ok s = true → Utf8 s.
Proof. apply utf8_from_Utf8. Qed.

Lemma char_indices_fuel (f f' : nat) (i j : Z) (s : str) :
  (length s ≤ f)%nat → (length s ≤ f')%nat →
  (char_indices_from f i s).*2 = (char_indices_from f' j s).*2.
Proof.
  revert f' i j s. induction f as [|f IH]; intros [|f'] i j [|b s] H H'; cbn in *; try done; try lia.
  f_equal. apply IH; rewrite length_drop; cbn; pose proof (utf8_width_pos b); lia.
Qed.

(** The characters of a string, one at a time. *)
Lemma chars_next (b : Z) (s : str) :
  chars (b :: s)
  = utf8_scalar (take (utf8_width b) (b :: s)) :: chars (drop (utf8_width b) (b :: s)).
Proof.
  unfold chars, char_indices. cbn [length char_indices_from fmap list_fmap].
  f_equal. apply char_indices_fuel; rewrite length_drop; cbn; pose proof (utf8_width_pos b); lia.
Qed.

Lemma chars_char (c s : str) : char_ok c → chars (c ++ s) = utf8_scalar c :: chars s.
Proof.
  destruct c as [|b t]; [done|]. intros (Hl & _). rewrite <- app_comm_cons, chars_next, <- Hl.
  rewrite app_comm_cons, take_app_length, drop_app_length. done.
Qed.

Lemma chars_app (a b : str) : Utf8 a → chars (a ++ b) = chars a ++ chars b.
Proof.
  induction 1 as [|c a Hc Ha IH]; [done|]. by rewrite <- (assoc (++)), !(chars_char c), IH.
Qed.

Lemma Utf8_app (a b : str) : Utf8 a → Utf8 b → Utf8 (a ++ b).
Proof. induction 1; [done|]. rewrite <- (assoc (++)). intros. constructor; auto. Qed.

Lemma Utf8_char (c : str) : char_ok c → Utf8 c.
Proof. intros H. rewrite <- (app_nil_r c). constructor; [done|constructor]. Qed.

Lemma char_ok_ascii (b : Z) : 0 ≤ b < 128 → char_ok [b].
Proof.
  intros H. unfold char_ok, utf8_width, is_continuation, in_range.
  rewrite (proj2 (Z.ltb_lt b 128)) by lia. split_and!; [done| |constructor]. dk_bool. lia.
Qed.

Lemma Utf8_ascii (s : str) : Forall (fun b => 0 ≤ b < 128) s → Utf8 s.
Proof.
  induction 1 as [|b s Hb Hs IH]; [constructor|]. apply (Utf8_cons [b]); [by apply char_ok_ascii|done].
Qed.

(** A string that is not empty begins with a character. *)
Lemma Utf8_next (s : str) :
  Utf8 s → s ≠ [] → ∃ c r, s = c ++ r ∧ char_ok c ∧ Utf8 r.
Proof. destruct 1; [done|]. eauto. Qed.

Lemma next_char_spec (c r : str) :
  char_ok c → next_char (c ++ r) = Some (utf8_scalar c, length c).
Proof.
  destruct c as [|b t]; [done|]. intros (Hl & _). cbn [next_char app]. rewrite <- Hl.
  by rewrite app_comm_cons, take_app_length.
Qed.

(** An ASCII byte is a character by itself. *)
Lemma Utf8_split_ascii (a b : str) (x : Z) :
  0 ≤ x < 128 → Utf8 (a ++ x :: b) → Utf8 a ∧ Utf8 b.
Proof.
  intros Hx H. remember (a ++ x :: b) as s eqn:Hs. revert a b Hs.
  induction H as [|c s Hc Hu IH]; intros a b Hs; [by destruct a|].
  destruct (decide (length c ≤ length a)%nat) as [Hle|Hgt].
  - assert (∃ a', a = c ++ a' ∧ s = a' ++ x :: b) as (a' & -> & ->).
    { exists (drop (length c) a). apply (f_equal (fun l => (take (length c) l, drop (length c) l))) in Hs.
      rewrite take_app_length, drop_app_length, take_app_le, drop_app_le in Hs by done.
      injection Hs as Hc' ->. split; [|done]. rewrite Hc' at 1. by rewrite take_drop. }
    destruct (IH a' b eq_refl). split; [by constructor|done].
  - assert (c !! length a = Some x) as Hx'.
    { rewrite <- (lookup_app_l c s) by lia. rewrite Hs. by apply list_lookup_middle. }
    destruct c as [|h t]; [done|]. destruct Hc as (Hl & Hh & Ht).
    destruct a as [|y a]; cbn in *.
    + injection Hx' as ->. injection Hs as Hs. unfold utf8_width in Hl.
      rewrite (proj2 (Z.ltb_lt x 128)) in Hl by lia. destruct t; [|done]. cbn in Hs. subst s.
      split; [constructor|done].
    + exfalso. rewrite Forall_lookup in Ht. specialize (Ht _ _ Hx').
      unfold is_continuation, in_range in Ht. dk_bool. lia.
Qed.

(** ** Cutting *)

Lemma boundary_0 (s : str) : Utf8 s → boundary s 0.
Proof. intros H. split_and!; [lia|constructor|done]. Qed.

Lemma boundary_end (s : str) : Utf8 s → boundary s (length s).
Proof. intros H. unfold boundary. rewrite firstn_all, drop_all. split_and!; [lia|done|constructor]. Qed.

Lemma boundary_app (a b : str) : Utf8 a → Utf8 b → boundary (a ++ b) (length a).
Proof.
  intros Ha Hb. split; [rewrite length_app; lia|]. by rewrite take_app_length, drop_app_length.
Qed.

(** Past the next character is a boundary again. *)
Lemma boundary_next (s : str) (i : nat) :
  boundary s i → (i < length s)%nat →
  ∃ c, char_ok c ∧ drop i s = c ++ drop (i + length c) s ∧ boundary s (i + length c)
    ∧ next_char (drop i s) = Some (utf8_scalar c, length c).
Proof.
  intros (Hi & Ht & Hd) Hlt. destruct (Utf8_next _ Hd) as (c & r & E & Hc & Hr).
  { intros E. apply (f_equal length) in E. rewrite length_drop in E. cbn in E. lia. }
  assert (drop (i + length c) s = r) as Er.
  { by rewrite <- drop_drop, E, drop_app_length. }
  exists c. rewrite Er. split_and!; [done|done| |by rewrite E; apply next_char_spec].
  assert (length (drop i s) = length c + length r)%nat as Hl by (by rewrite E, length_app).
  rewrite length_drop in Hl.
  split_and!; [lia| |by rewrite Er].
  rewrite <- (take_drop i s) at 1. rewrite take_app_ge by (rewrite length_take; lia).
  rewrite length_take, E, (Nat.min_l i) by lia.
  replace (i + length c - i)%nat with (length c) by lia. rewrite take_app_length.
  apply Utf8_app; [done|by apply Utf8_char].
Qed.

Lemma slice_app (s : str) (a b c : nat) :
  (a ≤ b ≤ c)%nat → slice s a c = slice s a b ++ slice s b c.
Proof.
  intros H. unfold slice. rewrite <- (take_drop (b - a) (take (c - a) (drop a s))).
  rewrite take_take, Nat.min_l, skipn_firstn_comm, drop_drop by lia.
  replace (a + (b - a))%nat with b by lia. by replace (c - a - (b - a))%nat with (c - b)%nat by lia.
Qed.

Lemma slice_0 (s : str) (a : nat) : slice s 0 a = take a s.
Proof. unfold slice. by rewrite Nat.sub_0_r. Qed.

Lemma slice_nil (s : str) (a : nat) : slice s a a = [].
Proof. unfold slice. by rewrite Nat.sub_diag. Qed.

Lemma slice_end (s : str) (a : nat) : slice s a (length s) = drop a s.
Proof. unfold slice. apply take_ge. rewrite length_drop. lia. Qed.

Lemma slice_length (s : str) (a b : nat) :
  (a ≤ b ≤ length s)%nat → length (slice s a b) = (b - a)%nat.
Proof. intros H. unfold slice. rewrite length_take, length_drop. lia. Qed.

Lemma Utf8_drop_inv (a b : str) : Utf8 a → Utf8 (a ++ b) → Utf8 b.
Proof.
  intros Ha. revert b. induction Ha as [|c a Hc Ha IH]; intros b H; [done|].
  rewrite <- (assoc (++)) in H. apply IH. inversion H as [E|c' s Hc' Hs E].
  - apply (f_equal length) in E. rewrite length_app in E. cbn in E.
    pose proof (char_ok_length c Hc). lia.
  - destruct c as [|x t], c' as [|x' t']; [done..|]. destruct Hc as (Hl & _), Hc' as (Hl' & _).
    cbn in E. injection E as -> E. rewrite <- Hl in Hl'. cbn in Hl'. injection Hl' as Hl'.
    apply app_inj_1 in E as [_ ->]; done.
Qed.

Lemma boundary_slice (s : str) (a b : nat) :
  (a ≤ b)%nat → boundary s a → boundary s b → Utf8 (slice s a b).
Proof.
  intros Hab (Ha & Hta & Hda) (Hb & Htb & _). apply (Utf8_drop_inv (take a s)); [done|].
  rewrite <- slice_0, <- slice_app, slice_0 by lia. done.
Qed.

Lemma chars_slice (s : str) (a b c : nat) :
  (a ≤ b ≤ c)%nat → boundary s a → boundary s b →
  chars (slice s a c) = chars (slice s a b) ++ chars (slice s b c).
Proof.
  intros H Ha Hb. rewrite (slice_app s a b c) by done. apply chars_app.
  apply boundary_slice; [lia|done..].
Qed.

(** After an ASCII byte a string can be cut. *)
Lemma boundary_after_ascii (s : str) (i : nat) (x : Z) :
  Utf8 s → s !! i = Some x → 0 ≤ x < 128 → boundary s (S i).
Proof.
  intros Hs Hi Hx. pose proof (lookup_lt_Some _ _ _ Hi) as Hlt.
  pose proof (take_drop_middle s i x Hi) as E. rewrite <- E in Hs.
  destruct (Utf8_split_ascii _ _ _ Hx Hs) as [Ha Hb].
  split_and!; [lia| |done]. rewrite (take_S_r _ _ x Hi).
  apply Utf8_app; [done|]. apply Utf8_char. by apply char_ok_ascii.
Qed.

Lemma boundary_head (s : str) (i : nat) (b : Z) :
  boundary s i → s !! i = Some b → is_continuation b = false.
Proof.
  intros (Hi & _ & Hd) Hb. pose proof (lookup_lt_Some _ _ _ Hb).
  rewrite (drop_S _ b _ Hb) in Hd. inversion Hd as [|c r Hc Hr E]; subst.
  destruct c as [|x t]; [done|]. cbn in E. injection E as -> _. by destruct Hc as (_ & ? & _).
Qed.

(** [is_char_boundary] is what it says on a well-formed string. *)
Lemma is_char_boundary_spec (s : str) (i : nat) :
  Utf8 s → is_char_boundary s i = true ↔ boundary s i.
Proof.
  intros Hs. unfold is_char_boundary. destruct i as [|i].
  { split; [|done]. intros _. by apply boundary_0. }
  destruct (Nat.leb_spec (length s) (S i)) as [Hle|Hlt].
  { rewrite Nat.eqb_eq. split.
    - intros <-. by apply boundary_end.
    - intros (? & _). lia. }
  destruct (s !! S i) as [b|] eqn:Hb; [|apply lookup_ge_None in Hb; lia].
  split; [|intros H; by rewrite (boundary_head _ _ _ H Hb)].
  intros Hn. apply negb_true_iff in Hn.
  clear Hlt. remember (S i) as k eqn:Ek. clear Ek i. revert k b Hb Hn.
  induction Hs as [|c s Hc Hs IH]; intros k b Hb Hn; [done|].
  destruct (decide (k < length c)%nat) as [Hlt|Hge].
  - rewrite lookup_app_l in Hb by done. destruct c as [|h t]; [done|]. destruct k as [|k].
    + apply boundary_0. by constructor.
    + exfalso. destruct Hc as (_ & _ & Ht). rewrite Forall_lookup in Ht.
      specialize (Ht _ _ Hb). congruence.
  - rewrite lookup_app_r in Hb by lia. destruct (IH _ _ Hb Hn) as (Hk & Htk & Hdk).
    split_and!.
    + rewrite length_app. lia.
    + rewrite take_app_ge by lia. by constructor.
    + by rewrite drop_app_ge by lia.
Qed.
