(* ===== verification/MessageText.v ===== *)
(** * The text of messages

    [dekopon-gatewayd/src/transport.rs]: text that comes in or goes out is cut
    to a size ([bound_inbound], [bound_outbound]), and an answer is split into
    messages of at most so many units ([split_message]), where a fenced block
    of code that is cut is closed in one message and opened again in the next.

    Offsets into the text are bytes, as in the code; lengths are counted in
    the unit of the service, UTF-16 code units or Unicode scalar values. *)

From Stdlib Require Import ZArith Lia Ascii String.
From stdpp Require Import base strings list sorting numbers.
From S2P Require Import Prelude RustStr Utf8.

Definition MAX_INBOUND_TEXT_BYTES : nat := Z.to_nat (16 * 1024).
Definition MAX_OUTBOUND_TEXT_BYTES : nat := Z.to_nat (8 * 1024).

Fixpoint floor_boundary_loop (text : str) (index : nat) : nat :=
  match index with
  | O => O
  | S below => if is_char_boundary text index then index else floor_boundary_loop text below
  end.
Definition floor_boundary (text : str) (index : nat) : nat :=
  floor_boundary_loop text (Nat.min index (length text)).

(** The distance to the end is fuel enough: the loop stops there. *)
Fixpoint ceil_boundary_loop (fuel : nat) (text : str) (index : nat) : nat :=
  match fuel with
  | O => index
  | S fuel =>
      if (index <? length text)%nat && negb (is_char_boundary text index)
      then ceil_boundary_loop fuel text (S index) else index
  end.
Definition ceil_boundary (text : str) (index : nat) : nat :=
  let index := Nat.min index (length text) in
  ceil_boundary_loop (length text - index) text index.

Definition truncation_notice : str := ch "010" :: lit "[message truncated by the gateway]".

Definition bound_inbound (text : str) : str :=
  if (length text <=? MAX_INBOUND_TEXT_BYTES)%nat then text
  else
    let head := floor_boundary text MAX_INBOUND_TEXT_BYTES in
    slice text 0 head ++ truncation_notice.

Definition MARKER : str :=
  [ch "010"; ch "010"] ++ lit "[...truncated by the gateway...]" ++ [ch "010"; ch "010"].

Definition bound_outbound (text : str) : str :=
  if (length text <=? MAX_OUTBOUND_TEXT_BYTES)%nat then text
  else
    let budget := (MAX_OUTBOUND_TEXT_BYTES - length MARKER)%nat in
    let head := floor_boundary text (budget / 2) in
    let tail := ceil_boundary text (length text - (budget - budget / 2)) in
    slice text 0 head ++ MARKER ++ slice text tail (length text).

(** ** Units *)

Inductive TextUnit : Type := Utf16 | Scalar.

Definition weight (unit : TextUnit) (character : Z) : Z :=
  match unit with
  | Utf16 => if character <? 65536 then 1 else 2
  | Scalar => 1
  end.

Definition units_of (unit : TextUnit) (cs : list Z) : Z :=
  foldr (fun c n => weight unit c + n) 0 cs.
Definition units (text : str) (unit : TextUnit) : Z := units_of unit (chars text).

(** ** Fences *)

Record Fence : Type := mkFence {
  opener_start : nat;
  opener_end : nat;
  closer : nat;
  fence_end : nat;
  marker : Z;
  width : nat;
}.

Record FenceRun : Type := mkRun {
  run_marker : Z;
  run_width : nat;
  info : str;
}.

(** [str::trim_start_matches] of an ASCII character. *)
Fixpoint trim_start_matches (c : Z) (s : str) : str :=
  match s with
  | b :: rest => if b =? c then trim_start_matches c rest else s
  | [] => []
  end.

Definition FenceRun_parse (line : str) : option FenceRun :=
  let line := trim_end_matches (fun b => (b =? ch "010") || (b =? ch "013")) line in
  let body := trim_start_matches (ch " ") line in
  if (3 <? length line - length body)%nat then None
  else
    match body with
    | marker :: _ =>
        if (marker =? ch "`") || (marker =? ch "~") then
          let info := trim_start_matches marker body in
          let width := (length body - length info)%nat in
          if (3 <=? width)%nat then Some (mkRun marker width info) else None
        else None
    | [] => None
    end.

(** [str::split_inclusive] at a line feed. *)
Fixpoint split_inclusive (s : str) : list str :=
  match s with
  | [] => []
  | c :: s =>
      if c =? ch "010" then [c] :: split_inclusive s
      else match split_inclusive s with
           | [] => [[c]]
           | l :: ls => (c :: l) :: ls
           end
  end.

(** What [scan] carries over the lines: the offset, the fence that is open
    (the range of its opening line, its marker and its width), those closed. *)
Record Scan : Type := mkScan {
  offset : nat;
  open : option (nat * nat * Z * nat);
  fences : list Fence;
}.

Definition scan_line (s : Scan) (line : str) : Scan :=
  let first := offset s in
  let last := (offset s + length line)%nat in
  match FenceRun_parse line with
  | None => mkScan last (open s) (fences s)
  | Some run =>
      match open s with
      | None =>
          mkScan last
            (if (run_marker run =? ch "~") || negb (mem (ch "`") (info run))
             then Some (first, last, run_marker run, run_width run) else None)
            (fences s)
      | Some (from, to, open_marker, open_width) =>
          if (run_marker run =? open_marker) && (open_width <=? run_width run)%nat
             && forallb (fun b => (b =? ch " ") || (b =? ch "009")) (info run)
          then mkScan last None
                 (fences s ++ [mkFence from to first last (run_marker run) (run_width run)])
          else mkScan last (open s) (fences s)
      end
  end.

Definition Fence_scan (text : str) (max_units : Z) (unit : TextUnit) : list Fence :=
  let s := foldl scan_line (mkScan 0 None []) (split_inclusive text) in
  let all :=
    match open s with
    | Some (from, to, marker, width) =>
        fences s ++ [mkFence from to (length text) (length text) marker width]
    | None => fences s
    end in
  List.filter
    (fun f => 2 * (units (slice text (opener_start f) (opener_end f)) unit + 1 + Z.of_nat (width f))
              <=? max_units)
    all.

(** [slice::partition_point] of a slice that the predicate partitions: the
    fences lie one after the other ([Fence_scan_ordered]). *)
Fixpoint partition_point {A : Type} (p : A → bool) (l : list A) : nat :=
  match l with
  | x :: l => if p x then S (partition_point p l) else O
  | [] => O
  end.

Definition open_fence_at (fs : list Fence) (text : str) (cut : nat) : option Fence :=
  match fs !! partition_point (fun f => (closer f <? cut)%nat) fs with
  | Some f =>
      if (opener_end f <=? cut)%nat && (cut <? length text)%nat then Some f else None
  | None => None
  end.

Definition inside_delimiter (fs : list Fence) (cut : nat) : bool :=
  is_some_and (fs !! partition_point (fun f => (fence_end f <=? cut)%nat) fs) (fun f =>
    ((opener_start f <? cut)%nat && (cut <=? opener_end f)%nat) || (closer f <=? cut)%nat).

(** [text[..cut].ends_with('\n')]. *)
Definition after_newline (text : str) (cut : nat) : bool :=
  match cut with
  | O => false
  | S before => bool_decide (text !! before = Some (ch "010"))
  end.

Definition opener_units (text : str) (unit : TextUnit) (reopen : option Fence) : Z :=
  match reopen with
  | Some f => units (slice text (opener_start f) (opener_end f)) unit
  | None => 0
  end.

(** Units that close a fence at [cut]. *)
Definition close_units (text : str) (cut : nat) (open : option Fence) : Z :=
  match open with
  | Some f => Z.of_nat (width f) + (if after_newline text cut then 0 else 1)
  | None => 0
  end.

Section ChunkEnd.
Context (text : str) (start : nat) (fs : list Fence) (max_units : Z) (unit : TextUnit).

Record Cuts : Type := mkCuts {
  line_cut : option (nat * option Fence);
  hard_cut : option (nat * option Fence);
}.

(** One cut considered. *)
Definition try_cut (used : Z) (content : bool) (cut : nat) (cuts : Cuts) : Cuts :=
  if (start <? cut)%nat && negb (inside_delimiter fs cut) then
    let open := open_fence_at fs text cut in
    if used + close_units text cut open <=? max_units then
      let at_line :=
        match open with
        | None => after_newline text cut && content
        | Some f => after_newline text cut && (opener_end f <? cut)%nat && (cut <? closer f)%nat
        end in
      mkCuts (if at_line || (cut =? length text)%nat then Some (cut, open) else line_cut cuts)
        (Some (cut, open))
    else cuts
  else cuts.

(** The loop over the characters; each takes a byte at least of the fuel. *)
Fixpoint find_cuts (fuel : nat) (used : Z) (content : bool) (cut : nat) (cuts : Cuts) : Cuts :=
  let cuts := try_cut used content cut cuts in
  match fuel, next_char (drop cut text) with
  | S fuel, Some (character, w) =>
      let used := used + weight unit character in
      let content := content || negb (char_is_whitespace character) in
      if max_units <? used then cuts else find_cuts fuel used content (cut + w) cuts
  | _, _ => cuts
  end.

Definition chunk_end (reopen : option Fence) : nat * option Fence :=
  let cuts :=
    find_cuts (length text - start) (opener_units text unit reopen)
      (match reopen with Some _ => true | None => false end) start (mkCuts None None) in
  let '(e, open) :=
    match line_cut cuts with
    | Some cut => cut
    | None => match hard_cut cuts with
              | Some cut => cut
              | None => (ceil_boundary text (S start), None)
              end
    end in
  if (e <? length text)%nat then
    match find_first (fun f => (start <? opener_start f)%nat && (opener_start f <? e)%nat
                               && (e <? fence_end f)%nat) fs with
    | Some f =>
        if negb (is_blank (slice text start (opener_start f)))
           && (units (slice text (opener_start f) (fence_end f)) unit <=? max_units)
        then (opener_start f, None) else (e, open)
    | None => (e, open)
    end
  else (e, open).
End ChunkEnd.

(** ** Splitting *)

Definition empty_response : str := lit "[empty response]".

(** The text of one message: the fence opened again, the piece, its fence closed. *)
Definition chunk_text (text : str) (start e : nat) (reopen open : option Fence) : str :=
  let chunk :=
    match reopen with
    | Some f => slice text (opener_start f) (opener_end f)
    | None => []
    end ++ slice text start e in
  match open with
  | Some f =>
      (if bool_decide (list.last chunk = Some (ch "010")) then chunk else chunk ++ [ch "010"])
      ++ replicate (width f) (marker f)
  | None => chunk
  end.

Fixpoint split_loop (fuel : nat) (text : str) (fs : list Fence) (max_units : Z) (unit : TextUnit)
    (start : nat) (reopen : option Fence) : option (list str) :=
  match fuel with
  | O => None
  | S fuel =>
      if is_blank (drop start text) then Some []
      else
        let '(e, open) := chunk_end text start fs max_units unit reopen in
        match split_loop fuel text fs max_units unit e open with
        | Some chunks => Some (chunk_text text start e reopen open :: chunks)
        | None => None
        end
  end.

(** [None] would be a loop that does not end. *)
Definition split_message (text : str) (max_units : Z) (unit : TextUnit) : option (list str) :=
  if is_blank text then Some [empty_response]
  else split_loop (S (length text)) text (Fence_scan text max_units unit) max_units unit 0 None.

(** ** Lemmas on boundaries *)

Lemma floor_boundary_loop_spec (text : str) (i : nat) :
  Utf8 text → (i ≤ length text)%nat →
  boundary text (floor_boundary_loop text i) ∧ (floor_boundary_loop text i ≤ i)%nat
  ∧ (∀ j, boundary text j → (j ≤ i)%nat → (j ≤ floor_boundary_loop text i)%nat).
Proof.
  intros Ht. induction i as [|i IH]; intros Hi.
  { cbn. split_and!; [by apply boundary_0|lia|lia]. }
  cbn [floor_boundary_loop]. destruct (is_char_boundary text (S i)) eqn:E.
  - split_and!; [by apply is_char_boundary_spec|lia|lia].
  - destruct IH as (Hb & Hle & Hmax); [lia|]. split_and!; [done|lia|].
    intros j Hj Hji. destruct (decide (j = S i)) as [->|]; [|apply Hmax; [done|lia]].
    apply is_char_boundary_spec in Hj; [congruence|done].
Qed.

Lemma floor_boundary_spec (text : str) (i : nat) :
  Utf8 text →
  boundary text (floor_boundary text i) ∧ (floor_boundary text i ≤ i)%nat
  ∧ (∀ j, boundary text j → (j ≤ i)%nat → (j ≤ floor_boundary text i)%nat).
Proof.
  intros Ht. destruct (floor_boundary_loop_spec text (Nat.min i (length text))) as (Hb & Hle & Hmax);
    [done|lia|]. fold (floor_boundary text i) in *. split_and!; [done|lia|].
  intros j Hj Hji. apply Hmax; [done|]. destruct Hj as (? & _). lia.
Qed.

Lemma ceil_boundary_loop_spec (fuel : nat) (text : str) (i : nat) :
  Utf8 text → (i ≤ length text)%nat → (length text - i ≤ fuel)%nat →
  boundary text (ceil_boundary_loop fuel text i) ∧ (i ≤ ceil_boundary_loop fuel text i)%nat
  ∧ (∀ j, boundary text j → (i ≤ j)%nat → (ceil_boundary_loop fuel text i ≤ j)%nat).
Proof.
  intros Ht. revert i. induction fuel as [|fuel IH]; intros i Hi Hf; cbn [ceil_boundary_loop].
  { assert (i = length text) as -> by lia. split_and!; [by apply boundary_end|lia|lia]. }
  destruct ((i <? length text)%nat && negb (is_char_boundary text i)) eqn:E.
  - apply andb_true_iff in E as [E1 E2]. apply Nat.ltb_lt in E1. apply negb_true_iff in E2.
    destruct (IH (S i)) as (Hb & Hle & Hmin); [lia..|]. split_and!; [done|lia|].
    intros j Hj Hij. apply Hmin; [done|]. destruct (decide (j = i)) as [->|]; [|lia].
    apply is_char_boundary_spec in Hj; [congruence|done].
  - split_and!; [|lia|lia]. apply andb_false_iff in E as [E|E].
    + apply Nat.ltb_ge in E. assert (i = length text) as -> by lia. by apply boundary_end.
    + apply is_char_boundary_spec; [done|]. by apply negb_false_iff in E.
Qed.

Lemma ceil_boundary_spec (text : str) (i : nat) :
  Utf8 text → (i ≤ length text)%nat →
  boundary text (ceil_boundary text i) ∧ (i ≤ ceil_boundary text i)%nat
  ∧ (∀ j, boundary text j → (i ≤ j)%nat → (ceil_boundary text i ≤ j)%nat).
Proof.
  intros Ht Hi. unfold ceil_boundary. rewrite Nat.min_l by done.
  by apply ceil_boundary_loop_spec.
Qed.

(** Between two boundaries that enclose one character there is none. *)
Lemma ceil_boundary_next (text : str) (start : nat) (c : str) :
  Utf8 text → boundary text start → char_ok c →
  drop start text = c ++ drop (start + length c) text → boundary text (start + length c) →
  ceil_boundary text (S start) = (start + length c)%nat.
Proof.
  intros Ht Hs Hc E Hb. pose proof (char_ok_length c Hc). destruct Hb as (Hle & Hb).
  destruct (ceil_boundary_spec text (S start)) as (Hcb & Hge & Hmin); [done|lia|].
  pose proof (Hmin (start + length c)%nat (conj Hle Hb) ltac:(lia)).
  set (m := ceil_boundary text (S start)) in *.
  destruct (decide (m = start + length c)%nat) as [|Hne]; [done|exfalso].
  destruct c as [|h t]; [done|]. destruct Hc as (_ & _ & Hcont). cbn [length] in *.
  destruct (t !! (m - S start)%nat) as [b|] eqn:Eb;
    [|apply lookup_ge_None in Eb; lia].
  assert (text !! m = Some b) as Hm.
  { replace m with (start + S (m - S start))%nat by lia. rewrite <- lookup_drop, E.
    rewrite lookup_app_l; [exact Eb|]. apply lookup_lt_Some in Eb. cbn. lia. }
  rewrite Forall_lookup in Hcont. specialize (Hcont _ _ Eb).
  pose proof (boundary_head _ _ _ Hcb Hm). congruence.
Qed.

(** ** Lemmas on units *)

Lemma weight_bounds (unit : TextUnit) (c : Z) : 1 ≤ weight unit c ≤ 2.
Proof. destruct unit; cbn; [destruct (_ <? _)|]; lia. Qed.

Lemma units_of_app (unit : TextUnit) (a b : list Z) :
  units_of unit (a ++ b) = units_of unit a + units_of unit b.
Proof.
  unfold units_of. induction a as [|x a IH]; cbn [app foldr]; [lia|]. rewrite IH. lia.
Qed.

Lemma units_nonneg (s : str) (unit : TextUnit) : 0 ≤ units s unit.
Proof.
  unfold units, units_of. induction (chars s) as [|c l IH]; cbn; [lia|].
  pose proof (weight_bounds unit c). lia.
Qed.

Lemma units_app (a b : str) (unit : TextUnit) :
  Utf8 a → units (a ++ b) unit = units a unit + units b unit.
Proof. intros Ha. unfold units. by rewrite chars_app, units_of_app. Qed.

Lemma units_char (c : str) (unit : TextUnit) :
  char_ok c → units c unit = weight unit (utf8_scalar c).
Proof.
  intros H. unfold units. rewrite <- (app_nil_r c) at 1. rewrite chars_char by done. cbn. lia.
Qed.

Lemma units_slice (text : str) (a b c : nat) (unit : TextUnit) :
  (a ≤ b ≤ c)%nat → boundary text a → boundary text b →
  units (slice text a c) unit = units (slice text a b) unit + units (slice text b c) unit.
Proof. intros H Ha Hb. unfold units. by rewrite (chars_slice text a b c), units_of_app. Qed.

Lemma units_ascii (s : str) (unit : TextUnit) :
  Forall (fun b => 0 ≤ b < 128) s → units s unit = len s.
Proof.
  intros H. unfold units. rewrite chars_of_ascii by done. unfold len.
  induction H as [|b s Hb Hs IH]; cbn [units_of foldr length] in *; [done|].
  unfold units_of in IH. rewrite IH. destruct unit; cbn; [|lia].
  rewrite (proj2 (Z.ltb_lt b 65536)) by lia. lia.
Qed.

(** ** Lemmas on fences *)

Lemma split_inclusive_next (s : str) :
  s ≠ [] →
  ∃ l r, s = l ++ r ∧ split_inclusive s = l :: split_inclusive r ∧ l ≠ []
    ∧ (r = [] ∨ ∃ l', l = l' ++ [ch "010"]).
Proof.
  induction s as [|c s IH]; [done|]. intros _. cbn [split_inclusive].
  destruct (Z.eqb_spec c (ch "010")) as [->|Hc].
  { exists [ch "010"], s. split_and!; [done..|]. right. by exists []. }
  destruct s as [|d s]; [exists [c], []; split_and!; [done..|by left]|].
  destruct IH as (l & r & E & -> & Hl & Hr); [done|].
  exists (c :: l), r. rewrite E. split_and!; [done..|].
  destruct Hr as [->|(l' & ->)]; [by left|]. right. by exists (c :: l').
Qed.

Lemma split_inclusive_line (l r : str) :
  10 ∉ l → split_inclusive (l ++ [10] ++ r) = (l ++ [10]) :: split_inclusive r.
Proof.
  induction l as [|c l IH]; intros H; [done|]. apply not_elem_of_cons in H as [Hc Hl]. cbn [app split_inclusive].
  change (ch "010") with 10. rewrite (proj2 (Z.eqb_neq c 10)) by done. cbn [app] in IH. by rewrite IH.
Qed.

Lemma trim_start_matches_app (c : Z) (s : str) :
  ∃ n, s = replicate n c ++ trim_start_matches c s.
Proof.
  induction s as [|b s IH]; cbn; [by exists 0%nat|]. destruct (Z.eqb_spec b c) as [->|].
  - destruct IH as (n & E). exists (S n). cbn. by rewrite <- E.
  - by exists 0%nat.
Qed.

Lemma FenceRun_parse_Some (line : str) (run : FenceRun) :
  FenceRun_parse line = Some run →
  (3 ≤ run_width run)%nat ∧ (run_marker run = ch "`" ∨ run_marker run = ch "~").
Proof.
  unfold FenceRun_parse. intros H.
  repeat match goal with
  | H : (if ?c then _ else _) = Some _ |- _ => destruct c eqn:?
  | H : match ?l with [] => _ | _ :: _ => _ end = Some _ |- _ => destruct l eqn:?
  end; try done. injection H as <-. cbn.
  match goal with H : (3 <=? _)%nat = true |- _ => apply Nat.leb_le in H end. dk_bool. auto.
Qed.

Section Fences.
Context (text : str) (Htext : Utf8 text).

Definition fence_ok (f : Fence) : Prop :=
  (opener_start f < opener_end f ≤ closer f)%nat ∧ (closer f ≤ fence_end f ≤ length text)%nat
  ∧ ((closer f < fence_end f)%nat ∨ closer f = length text)
  ∧ boundary text (opener_start f) ∧ boundary text (opener_end f)
  ∧ boundary text (closer f) ∧ boundary text (fence_end f)
  ∧ (3 ≤ width f)%nat ∧ (marker f = ch "`" ∨ marker f = ch "~").

(** Fences lie one after the other. *)
Definition ordered (fs : list Fence) : Prop :=
  StronglySorted (fun f g => (fence_end f ≤ opener_start g)%nat) fs.

Definition scan_ok (s : Scan) : Prop :=
  boundary text (offset s)
  ∧ Forall (fun f => fence_ok f ∧ (fence_end f ≤ offset s)%nat) (fences s) ∧ ordered (fences s)
  ∧ match open s with
    | Some (from, to, m, w) =>
        (from < to ≤ offset s)%nat ∧ boundary text from ∧ boundary text to ∧ (3 ≤ w)%nat
        ∧ (m = ch "`" ∨ m = ch "~") ∧ Forall (fun f => (fence_end f ≤ from)%nat) (fences s)
    | None => True
    end.

Lemma ordered_snoc (fs : list Fence) (f : Fence) :
  ordered fs → Forall (fun g => (fence_end g ≤ opener_start f)%nat) fs → ordered (fs ++ [f]).
Proof.
  induction 1 as [|g fs Hs IH Hg]; intros Hf; cbn; [by repeat constructor|].
  apply List.Forall_cons_iff in Hf as [? Hf]. constructor; [by apply IH|].
  apply Forall_app. split; [done|]. by constructor.
Qed.

Lemma scan_line_ok (s : Scan) (line : str) :
  scan_ok s → line ≠ [] → boundary text (offset s + length line) →
  scan_ok (scan_line s line) ∧ offset (scan_line s line) = (offset s + length line)%nat.
Proof.
  intros (Hb & Hfs & Hord & Hopen) Hline Hb'.
  assert (0 < length line)%nat by (destruct line; cbn; [done|lia]).
  assert (offset s + length line ≤ length text)%nat by (by destruct Hb').
  assert (Forall (fun f => fence_ok f ∧ (fence_end f ≤ offset s + length line)%nat) (fences s)) as Hfs'.
  { eapply Forall_impl; [|exact Hfs]. intros f [? ?]. split; [done|lia]. }
  unfold scan_line. destruct (FenceRun_parse line) as [run|] eqn:E.
  2:{ split; [|done]. split_and!; [done..|]. cbn.
      destruct (open s) as [[[[from to] m] w]|]; [|done]. destruct_and!. split_and!; auto; lia. }
  apply FenceRun_parse_Some in E as [Hw Hm].
  destruct (open s) as [[[[from to] m] w]|] eqn:Eo.
  - destruct Hopen as (Hft & Hbf & Hbt & Hw' & Hm' & Hends).
    destruct (_ && _ && _) eqn:Ec; (split; [|done]).
    + split_and!; [done| | |done]; cbn.
      * apply Forall_app. split; [done|]. constructor; [|done]. unfold fence_ok. cbn.
        split_and!; auto; lia.
      * apply ordered_snoc; [done|]. exact Hends.
    + split_and!; [done..|]. cbn. split_and!; auto; lia.
  - split; [|done]. split_and!; [done..|]. cbn. destruct (_ || _); [|done].
    split_and!; auto; [lia..|]. eapply Forall_impl; [|exact Hfs]. by intros f [? ?].
Qed.

Lemma scan_lines_ok (n : nat) (s : Scan) :
  (length text - offset s < n)%nat → scan_ok s →
  scan_ok (foldl scan_line s (split_inclusive (drop (offset s) text)))
  ∧ offset (foldl scan_line s (split_inclusive (drop (offset s) text))) = length text.
Proof.
  revert s. induction n as [|n IH]; intros s Hn Hs; [lia|].
  pose proof Hs as ((Hle & Htk & Hd) & _).
  destruct (drop (offset s) text) as [|c t] eqn:E.
  { split; [done|]. cbn. apply (f_equal length) in E. rewrite length_drop in E. cbn in E. lia. }
  rewrite <- E in *. destruct (split_inclusive_next (drop (offset s) text)) as (l & r & El & Esp & Hl & Hr).
  { by rewrite E. }
  rewrite Esp. cbn [foldl].
  assert (length (drop (offset s) text) = length l + length r)%nat as Hlen by (by rewrite El, length_app).
  rewrite length_drop in Hlen. assert (0 < length l)%nat by (destruct l; cbn; [done|lia]).
  assert (r = drop (offset s + length l) text) as Er.
  { by rewrite <- drop_drop, El, drop_app_length. }
  assert (boundary text (offset s + length l)) as Hb.
  { destruct Hr as [->|(l' & ->)].
    - cbn in Hlen. replace (offset s + length l)%nat with (length text) by lia. by apply boundary_end.
    - rewrite length_app. cbn [length].
      replace (offset s + (length l' + 1))%nat with (S (offset s + length l')) by lia.
      eapply boundary_after_ascii; [done| |].
      + rewrite <- lookup_drop, El, <- (assoc (++)). apply list_lookup_middle. done.
      + dk_ch. lia. }
  destruct (scan_line_ok s l Hs Hl Hb) as [Hok Hoff]. rewrite Er, <- Hoff. apply IH; [lia|done].
Qed.

Lemma Fence_scan_ok (max_units : Z) (unit : TextUnit) :
  Forall (fun f => fence_ok f
    ∧ 2 * (units (slice text (opener_start f) (opener_end f)) unit + 1 + Z.of_nat (width f)) ≤ max_units)
    (Fence_scan text max_units unit)
  ∧ ordered (Fence_scan text max_units unit).
Proof.
  destruct (scan_lines_ok (S (length text)) (mkScan 0 None [])) as [(Hb & Hfs & Hord & Hopen) Hoff].
  { cbn. lia. }
  { split_and!; cbn; [by apply boundary_0|constructor|constructor|done]. }
  cbn [offset] in *. rewrite drop_0 in *. unfold Fence_scan.
  set (s := foldl scan_line _ _) in *.
  set (all := match open s with Some _ => _ | None => _ end).
  assert (Forall fence_ok all ∧ ordered all) as [Hall Hall'].
  { subst all. destruct (open s) as [[[[from to] m] w]|].
    - destruct Hopen as (? & ? & ? & ? & ? & ?). split; [|by apply ordered_snoc].
      apply Forall_app. split; [by eapply Forall_impl; [|exact Hfs]; intros f [? ?]|].
      constructor; [|done]. unfold fence_ok. cbn. rewrite Hoff in *.
      split_and!; auto; try lia; by apply boundary_end.
    - split; [|done]. eapply Forall_impl; [|exact Hfs]; by intros f [? ?]. }
  split; [|by apply filter_sorted]. eapply Forall_impl; [|by apply Forall_filter_and].
  cbn. intros f [? ?%Z.leb_le]. done.
Qed.

(** *** Where a cut may fall *)

Context (fs : list Fence) (Hfs : Forall fence_ok fs) (Hord : ordered fs).

(** [cut] is outside every delimiter line. *)
Definition clear_of (cut : nat) (f : Fence) : Prop :=
  (fence_end f ≤ cut ∨ cut ≤ opener_start f ∨ opener_end f < cut < closer f)%nat.

(** A cut in the body of [f], or outside every fence. *)
Definition clean_cut (cut : nat) (o : option Fence) : Prop :=
  match o with
  | Some f => f ∈ fs ∧ (opener_end f < cut < closer f)%nat
  | None => Forall (fun f => (fence_end f ≤ cut ∨ cut ≤ opener_start f)%nat) fs
  end.

(** A predicate that holds of the fences that end by [cut], and of some of the
    others but the last ones: its partition point. *)
Lemma partition_point_spec (p : Fence → bool) (l : list Fence) :
  ∃ a b, l = a ++ b ∧ partition_point p l = length a ∧ Forall (fun f => p f = true) a
    ∧ match b with f :: _ => p f = false | [] => True end.
Proof.
  induction l as [|f l (a & b & -> & Hp & Ha & Hb)]; [by exists [], []|]. cbn.
  destruct (p f) eqn:E.
  - exists (f :: a), b. cbn. rewrite Hp. by repeat constructor.
  - by exists [], (f :: a ++ b).
Qed.

Lemma lookup_partition_point (p : Fence → bool) (l : list Fence) :
  ∃ a b, l = a ++ b ∧ l !! partition_point p l = head b ∧ Forall (fun f => p f = true) a
    ∧ match b with f :: _ => p f = false | [] => True end.
Proof.
  destruct (partition_point_spec p l) as (a & b & -> & Hp & Ha & Hb). exists a, b.
  split_and!; [done| |done..]. rewrite Hp, lookup_app_r, Nat.sub_diag by lia. by destruct b.
Qed.

Lemma ordered_split (a b : list Fence) (f : Fence) :
  fs = a ++ f :: b →
  Forall (fun g => (fence_end g ≤ opener_start f)%nat) a
  ∧ Forall (fun g => (fence_end f ≤ opener_start g)%nat) b.
Proof using Hord.
  intros E. pose proof Hord as H. rewrite E in H. clear E. unfold ordered in H.
  induction a as [|g a IH]; cbn in *; apply StronglySorted_inv in H as [H Hg].
  - done.
  - destruct (IH H) as [Ha Hb]. split; [|done]. constructor; [|done].
    rewrite Forall_app in Hg. destruct Hg as [_ Hg]. by apply List.Forall_cons_iff in Hg as [? _].
Qed.

Lemma inside_delimiter_false (cut : nat) :
  inside_delimiter fs cut = false ↔ Forall (clear_of cut) fs.
Proof using Hord Hfs.
  unfold inside_delimiter.
  destruct (lookup_partition_point (fun f => (fence_end f <=? cut)%nat) fs) as (a & b & E & -> & Ha & Hb).
  assert (Forall (clear_of cut) a) as Ha'.
  { eapply Forall_impl; [|exact Ha]. intros f Hf%Nat.leb_le. by left. }
  destruct b as [|f b]; cbn [head is_some_and].
  { split; [|done]. intros _. by rewrite E, app_nil_r. }
  destruct (ordered_split _ _ _ E) as [_ Hab]. pose proof Hfs as Hok.
  rewrite E in Hok. apply Forall_app in Hok as [_ Hok]. apply List.Forall_cons_iff in Hok as [Hok _].
  destruct Hok as (H1 & H2 & _). apply Nat.leb_gt in Hb.
  rewrite E, Forall_app, List.Forall_cons_iff, orb_false_iff, andb_false_iff.
  rewrite Nat.ltb_ge, !Nat.leb_gt. unfold clear_of at 2. split; [|lia].
  intros H. split_and!; [done|lia|]. eapply Forall_impl; [|exact Hab]. cbn. intros g Hg. right. left. lia.
Qed.

Lemma open_fence_at_clean (cut : nat) :
  Forall (clear_of cut) fs → clean_cut cut (open_fence_at fs text cut).
Proof using Hord Hfs.
  intros Hc. unfold open_fence_at.
  destruct (lookup_partition_point (fun f => (closer f <? cut)%nat) fs) as (a & b & E & -> & Ha & Hb).
  pose proof Hfs as Hok. rewrite E, Forall_app in Hok, Hc. destruct Hok as [Hoka Hokb], Hc as [Hca Hcb].
  assert (Forall (fun f => (fence_end f ≤ cut ∨ cut ≤ opener_start f)%nat) a) as Ha'.
  { apply Forall_forall. intros f Hf. rewrite Forall_forall in Ha, Hoka, Hca.
    specialize (Ha f Hf). specialize (Hca f Hf). apply Nat.ltb_lt in Ha.
    destruct Hca as [?|[?|?]]; lia. }
  destruct b as [|f b]; cbn [head].
  { cbn. by rewrite E, app_nil_r. }
  destruct (ordered_split _ _ _ E) as [Hbef Haft].
  apply List.Forall_cons_iff in Hokb as [(H1 & H2 & H3 & _) Hokb].
  apply List.Forall_cons_iff in Hcb as [Hcf _]. apply Nat.ltb_ge in Hb.
  destruct (_ && _) eqn:Et.
  - apply andb_true_iff in Et as [Et1%Nat.leb_le Et2%Nat.ltb_lt]. cbn. split.
    { rewrite E. apply elem_of_app. right. constructor. }
    destruct Hcf as [?|[?|?]]; lia.
  - cbn. rewrite E, Forall_app, List.Forall_cons_iff. apply andb_false_iff in Et.
    rewrite Nat.leb_gt, Nat.ltb_ge in Et. split_and!; [done| |].
    + destruct Hcf as [?|[?|?]]; [by left|by right|lia].
    + eapply Forall_impl; [|exact Haft]. cbn. intros g Hg. right.
      destruct Hcf as [?|[?|?]]; lia.
Qed.

(** *** The end of a chunk *)

Context (max_units : Z) (unit : TextUnit) (Hmax : 2 ≤ max_units).
Context (Hkept : Forall (fun f =>
  2 * (units (slice text (opener_start f) (opener_end f)) unit + 1 + Z.of_nat (width f)) ≤ max_units) fs).

(** The units of the chunk from [start] to [cut] with the fence opened again. *)
Definition used_at (start : nat) (r : Z) (cut : nat) : Z := r + units (slice text start cut) unit.

Definition fits (start : nat) (r : Z) (cut : nat * option Fence) : Prop :=
  (start < cut.1)%nat ∧ boundary text cut.1
  ∧ used_at start r cut.1 + close_units text cut.1 cut.2 ≤ max_units.

Definition candidate (start : nat) (r : Z) (cut : nat * option Fence) : Prop :=
  fits start r cut ∧ clean_cut cut.1 cut.2.

Definition candidates (start : nat) (r : Z) (cuts : Cuts) : Prop :=
  (∀ cut, line_cut cuts = Some cut → candidate start r cut)
  ∧ (∀ cut, hard_cut cuts = Some cut → candidate start r cut)
  ∧ (hard_cut cuts = None → line_cut cuts = None).

Lemma used_at_next (start cut : nat) (r : Z) (c : str) :
  boundary text start → (start ≤ cut)%nat → boundary text cut → char_ok c →
  drop cut text = c ++ drop (cut + length c) text →
  used_at start r (cut + length c) = used_at start r cut + weight unit (utf8_scalar c).
Proof using.
  intros Hs Hle Hb Hc E. unfold used_at. rewrite (units_slice text start cut) by (done || lia).
  assert (slice text cut (cut + length c) = c) as ->.
  { unfold slice. replace (cut + length c - cut)%nat with (length c) by lia.
    rewrite E. apply take_app_length. }
  rewrite (units_char c) by done. lia.
Qed.

Lemma used_at_mono (start a b : nat) (r : Z) :
  (start ≤ a ≤ b)%nat → boundary text start → boundary text a →
  used_at start r a ≤ used_at start r b.
Proof using.
  intros H Hs Ha. unfold used_at. rewrite (units_slice text start a b) by done.
  pose proof (units_nonneg (slice text a b) unit). lia.
Qed.

Lemma try_cut_ok (start cut : nat) (r : Z) (content : bool) (cuts : Cuts) :
  boundary text cut → candidates start r cuts →
  candidates start r (try_cut text start fs max_units (used_at start r cut) content cut cuts).
Proof using Hord Hfs.
  intros Hb Hc. unfold try_cut. destruct (_ && _) eqn:E; [|done].
  apply andb_true_iff in E as [E1%Nat.ltb_lt E2%negb_true_iff].
  apply inside_delimiter_false in E2.
  destruct (_ <=? _) eqn:E3; [|done]. apply Z.leb_le in E3.
  assert (candidate start r (cut, open_fence_at fs text cut)) as Hcand.
  { split; [by split|]. by apply open_fence_at_clean. }
  destruct Hc as (Hl & Hh & Hn). split_and!; cbn; [|by intros ? [= <-]|done].
  intros cut' H. destruct (_ || _); [by injection H as <-|by apply Hl].
Qed.

Lemma find_cuts_ok (fuel start cut : nat) (r : Z) (content : bool) (cuts : Cuts) :
  boundary text start → (start ≤ cut)%nat → boundary text cut → candidates start r cuts →
  candidates start r
    (find_cuts text start fs max_units unit fuel (used_at start r cut) content cut cuts).
Proof using Hord Hfs.
  intros Hs. revert cut content cuts.
  induction fuel as [|fuel IH]; intros cut content cuts Hle Hb Hc; cbn [find_cuts];
    pose proof (try_cut_ok start cut r content cuts Hb Hc) as Hc'; [done|].
  destruct (decide (cut < length text)%nat) as [Hlt|Hge].
  2:{ by rewrite drop_ge by lia. }
  destruct (boundary_next text cut Hb Hlt) as (c & Hcok & Ed & Hb' & ->).
  destruct (_ <? _); [done|]. rewrite <- used_at_next by done. apply IH; [lia|done..].
Qed.

Lemma try_cut_keeps (start cut : nat) (used : Z) (content : bool) (cuts : Cuts) :
  hard_cut cuts ≠ None →
  hard_cut (try_cut text start fs max_units used content cut cuts) ≠ None.
Proof using. unfold try_cut. intros H. by repeat case_match. Qed.

Lemma find_cuts_keeps (fuel start cut : nat) (used : Z) (content : bool) (cuts : Cuts) :
  hard_cut cuts ≠ None →
  hard_cut (find_cuts text start fs max_units unit fuel used content cut cuts) ≠ None.
Proof using.
  revert cut used content cuts. induction fuel as [|fuel IH]; intros cut used content cuts H;
    cbn [find_cuts]; [by apply try_cut_keeps|].
  pose proof (try_cut_keeps start cut used content cuts H).
  destruct (next_char _) as [[c w]|]; [|done]. destruct (_ <? _); [done|]. by apply IH.
Qed.

Lemma try_cut_found (start k : nat) (used : Z) (content : bool) (cuts : Cuts) :
  (start < k)%nat → Forall (clear_of k) fs →
  used + close_units text k (open_fence_at fs text k) ≤ max_units →
  hard_cut (try_cut text start fs max_units used content k cuts) ≠ None.
Proof using Hord Hfs.
  intros Hsk Hclear Hfit. unfold try_cut. apply inside_delimiter_false in Hclear.
  rewrite Hclear, (proj2 (Nat.ltb_lt _ _)) by done. cbn [negb andb].
  by rewrite (proj2 (Z.leb_le _ _)) by done.
Qed.

(** A cut that fits is found. *)
Lemma find_cuts_found (fuel start cut k : nat) (r : Z) (content : bool) (cuts : Cuts) :
  boundary text start → (start ≤ cut ≤ k)%nat → boundary text cut → boundary text k →
  (start < k)%nat → (length text - cut ≤ fuel)%nat → Forall (clear_of k) fs →
  used_at start r k + close_units text k (open_fence_at fs text k) ≤ max_units →
  hard_cut (find_cuts text start fs max_units unit fuel (used_at start r cut) content cut cuts)
  ≠ None.
Proof using Hord Hfs Htext.
  intros Hs Hle Hb Hbk Hsk Hf Hclear Hfit. pose proof Hbk as (Hklen & _).
  revert cut content cuts Hle Hb Hf. induction fuel as [|fuel IH]; intros cut content cuts Hle Hb Hf;
    cbn [find_cuts]; destruct (Nat.eq_dec k cut) as [<-|Hne].
  - by apply try_cut_found.
  - lia.
  - pose proof (try_cut_found start k (used_at start r k) content cuts Hsk Hclear Hfit).
    destruct (next_char _) as [[c w]|]; [|done]. destruct (_ <? _); [done|]. by apply find_cuts_keeps.
  - destruct (boundary_next text cut Hb) as (c & Hcok & Ed & Hb' & ->); [lia|].
    rewrite <- used_at_next by (done || lia).
    assert (cut + length c ≤ k)%nat as Hk.
    { rewrite <- (ceil_boundary_next text cut c) by done.
      destruct (ceil_boundary_spec text (S cut)) as (_ & _ & Hmin); [done|lia|].
      apply Hmin; [done|lia]. }
    assert (used_at start r (cut + length c) ≤ max_units).
    { pose proof (used_at_mono start (cut + length c) k r ltac:(lia) Hs Hb').
      unfold close_units in Hfit. destruct (open_fence_at _ _ _); [destruct (after_newline _ _)|]; lia. }
    rewrite (proj2 (Z.ltb_ge _ _)) by lia. pose proof (char_ok_length c Hcok).
    apply IH; [lia|done|lia].
Qed.

Lemma clean_at_opener (f : Fence) : f ∈ fs → clean_cut (opener_start f) None.
Proof using Hord Hfs.
  intros (a & b & E)%list_elem_of_split. destruct (ordered_split _ _ _ E) as [Ha Hb].
  assert (Forall (fun g => (opener_start f ≤ opener_start g)%nat) (f :: b)) as Hb'.
  { constructor; [done|]. pose proof Hord as H. rewrite E in H. clear -H Hb Hfs E.
    rewrite E in Hfs. apply Forall_app in Hfs as [_ Hfs]. apply List.Forall_cons_iff in Hfs as [Hf _].
    destruct Hf as (? & ? & _). eapply Forall_impl; [|exact Hb]. cbn. lia. }
  cbn. rewrite E. apply Forall_app. split; (eapply Forall_impl; [|eassumption]); cbn; auto.
Qed.

Lemma opener_units_bounds (reopen : option Fence) :
  (∀ f, reopen = Some f → f ∈ fs) →
  0 ≤ opener_units text unit reopen ∧ opener_units text unit reopen + 2 ≤ max_units
  ∧ (∀ f, reopen = Some f →
       2 * (opener_units text unit reopen + 1 + Z.of_nat (width f)) ≤ max_units ∧ (3 ≤ width f)%nat).
Proof using Hmax Hkept Hfs.
  destruct reopen as [f|]; cbn; intros Hr; [|split_and!; [lia..|done]].
  specialize (Hr f eq_refl). pose proof (Forall_elem _ _ _ Hkept Hr) as Hk. cbn in Hk.
  destruct (Forall_elem _ _ _ Hfs Hr) as (_ & _ & _ & _ & _ & _ & _ & Hw & _).
  pose proof (units_nonneg (slice text (opener_start f) (opener_end f)) unit).
  split_and!; [done|lia|]. by intros ? [= <-].
Qed.

(** What a chunk's end promises: progress, a cut between characters, a chunk
    that fits and a clean cut, unless no clean cut fits. *)
Definition chunk_end_spec (start : nat) (reopen : option Fence) (cut : nat * option Fence) : Prop :=
  fits start (opener_units text unit reopen) cut
  ∧ (clean_cut cut.1 cut.2
     ∨ cut.2 = None
       ∧ ∀ k, boundary text k → (start < k)%nat → Forall (clear_of k) fs →
           max_units < used_at start (opener_units text unit reopen) k
                       + close_units text k (open_fence_at fs text k)).

Lemma close_units_nonneg (cut : nat) (o : option Fence) : 0 ≤ close_units text cut o.
Proof using. destruct o; cbn; [destruct (after_newline _ _)|]; lia. Qed.

Lemma chunk_end_ok (start : nat) (reopen : option Fence) :
  boundary text start → (start < length text)%nat → (∀ f, reopen = Some f → f ∈ fs) →
  chunk_end_spec start reopen (chunk_end text start fs max_units unit reopen).
Proof using Hord Hmax Hkept Htext Hfs.
  intros Hs Hlt Hr. destruct (opener_units_bounds reopen Hr) as (Hr0 & Hr2 & _).
  unfold chunk_end. set (r := opener_units text unit reopen) in *.
  set (content := match reopen with Some _ => true | None => false end).
  assert (r = used_at start r start) as Er.
  { unfold used_at. rewrite slice_nil. cbn. lia. }
  set (cuts := find_cuts _ _ _ _ _ _ _ _ _ _).
  assert (candidates start r cuts) as (Hl & Hh & Hn).
  { subst cuts. rewrite Er at 2. by apply find_cuts_ok. }
  set (cut := match line_cut cuts with Some _ => _ | None => _ end).
  assert (chunk_end_spec start reopen cut) as Hcut.
  { subst cut. destruct (line_cut cuts) as [cut|] eqn:El.
    { destruct (Hl cut eq_refl). split; [done|by left]. }
    destruct (hard_cut cuts) as [cut|] eqn:Eh.
    { destruct (Hh cut eq_refl). split; [done|by left]. }
    destruct (boundary_next text start Hs Hlt) as (c & Hc & Ed & Hb & _).
    rewrite (ceil_boundary_next text start c) by done. pose proof (char_ok_length c Hc).
    split.
    - split_and!; cbn; [lia|done|]. fold r.
      rewrite used_at_next, <- Er by done. pose proof (weight_bounds unit (utf8_scalar c)). lia.
    - right. split; [done|]. fold r. intros k Hbk Hsk Hclear. apply Z.nle_gt. intros Hk.
      revert Eh. subst cuts. rewrite Er at 1. apply (find_cuts_found _ _ _ k); auto with lia. }
  destruct cut as [e o]. destruct (e <? length text)%nat eqn:Ee; [|done].
  destruct (find_first _ fs) as [f|] eqn:Ef; [|done]. destruct (_ && _); [|done].
  apply find_first_Some in Ef as [Hf Ef]. rewrite !andb_true_iff, !Nat.ltb_lt in Ef.
  destruct (Forall_elem _ _ _ Hfs Hf) as (_ & _ & _ & Hbf & _).
  destruct Hcut as ((? & Hbe & Hfit) & _). split; [|left; by apply clean_at_opener].
  cbn in *. split_and!; cbn; [lia|done|].
  pose proof (close_units_nonneg e o).
  pose proof (used_at_mono start (opener_start f) e r ltac:(lia) Hs Hbf). fold r in Hfit. fold r. lia.
Qed.

(** *** When a clean cut always fits *)

(** Another fence lies before or after. *)
Lemma ordered_elem (f g : Fence) :
  f ∈ fs → g ∈ fs → g = f ∨ (fence_end g ≤ opener_start f)%nat ∨ (fence_end f ≤ opener_start g)%nat.
Proof using Hord.
  intros (a & b & E)%list_elem_of_split Hg. destruct (ordered_split _ _ _ E) as [Ha Hb].
  rewrite E in Hg. apply elem_of_app in Hg as [Hg|[->|Hg]%elem_of_cons].
  - right. left. by apply (Forall_elem _ _ _ Ha).
  - by left.
  - right. right. by apply (Forall_elem _ _ _ Hb).
Qed.

Ltac fence_facts :=
  repeat match goal with
  | Hf : ?f ∈ fs |- _ =>
      lazymatch goal with
      | _ : (opener_start f < opener_end f ≤ closer f)%nat |- _ => fail
      | _ => destruct (Forall_elem _ _ _ Hfs Hf) as (? & ? & ? & ? & ? & ? & ? & ? & ?)
      end
  end.

Lemma clear_in_body (f : Fence) (k : nat) :
  f ∈ fs → (opener_end f < k < closer f)%nat → Forall (clear_of k) fs.
Proof using Hord Hfs.
  intros Hf Hk. apply List.Forall_forall. intros g Hg%list_elem_of_In. fence_facts. unfold clear_of.
  destruct (ordered_elem f g) as [->|[?|?]]; try done; lia.
Qed.

Lemma clear_at_end (f : Fence) : f ∈ fs → Forall (clear_of (fence_end f)) fs.
Proof using Hord Hfs.
  intros Hf. apply List.Forall_forall. intros g Hg%list_elem_of_In. fence_facts. unfold clear_of.
  destruct (ordered_elem f g) as [->|[?|?]]; try done; lia.
Qed.

Lemma open_at_end (f : Fence) : f ∈ fs → open_fence_at fs text (fence_end f) = None.
Proof using Hord Hfs.
  intros Hf. pose proof (open_fence_at_clean _ (clear_at_end f Hf)) as Hc.
  destruct (open_fence_at _ _ _) as [g|]; [exfalso|done]. destruct Hc as [Hg ?]. fence_facts.
  destruct (ordered_elem f g) as [->|[?|?]]; try done; lia.
Qed.

Lemma close_units_bound (k : nat) :
  Forall (clear_of k) fs →
  close_units text k (open_fence_at fs text k) = 0
  ∨ ∃ w, close_units text k (open_fence_at fs text k) ≤ w + 1 ∧ 3 ≤ w ∧ 2 * (w + 1) ≤ max_units.
Proof using Hord Hfs Hmax Hkept.
  intros Hc%open_fence_at_clean. destruct (open_fence_at _ _ _) as [g|]; cbn; [right|by left].
  destruct Hc as [Hg _]. exists (Z.of_nat (width g)). pose proof (Forall_elem _ _ _ Hkept Hg) as H.
  cbn in H. pose proof (units_nonneg (slice text (opener_start g) (opener_end g)) unit).
  fence_facts. destruct (after_newline _ _); lia.
Qed.

(** The next boundary is no further than any other. *)
Lemma next_boundary (a : nat) :
  boundary text a → (a < length text)%nat →
  ∃ n, boundary text n ∧ (a < n)%nat ∧ (∀ j, boundary text j → (a < j)%nat → (n ≤ j)%nat)
    ∧ 1 ≤ units (slice text a n) unit ≤ 2.
Proof using Htext.
  intros Ha Hlt. destruct (boundary_next text a Ha Hlt) as (c & Hc & Ed & Hb & _).
  pose proof (char_ok_length c Hc). exists (a + length c)%nat. split_and!; [done|lia| | |].
  - intros j Hj Haj. rewrite <- (ceil_boundary_next text a c) by done.
    destruct (ceil_boundary_spec text (S a)) as (_ & _ & Hmin); [done|lia|]. apply Hmin; [done|lia].
  - pose proof (used_at_next a a 0 c Ha ltac:(lia) Ha Hc Ed) as E. unfold used_at in E.
    rewrite slice_nil in E. pose proof (weight_bounds unit (utf8_scalar c)). cbn in E. lia.
  - pose proof (used_at_next a a 0 c Ha ltac:(lia) Ha Hc Ed) as E. unfold used_at in E.
    rewrite slice_nil in E. pose proof (weight_bounds unit (utf8_scalar c)). cbn in E. lia.
Qed.

(** The line that closes a fence takes at most half a chunk. *)
Definition short_closer (f : Fence) : Prop :=
  2 * units (slice text (closer f) (fence_end f)) unit ≤ max_units.

Lemma clean_start_opener (f : Fence) (o : option Fence) :
  f ∈ fs → clean_cut (opener_start f) o → o = None.
Proof using Hord Hfs.
  intros Hf. destruct o as [g|]; [|done]. intros [Hg Hk]. exfalso. fence_facts.
  destruct (ordered_elem f g) as [->|[?|?]]; try done; lia.
Qed.

Definition reaches (start : nat) (r : Z) : Prop :=
  ∃ k, boundary text k ∧ (start < k)%nat ∧ Forall (clear_of k) fs
    ∧ used_at start r k + close_units text k (open_fence_at fs text k) ≤ max_units.

(** From the line that opens a fence: past it and the first character of its
    body, or past the whole of it. *)
Lemma reaches_from_opener (f : Fence) :
  f ∈ fs → short_closer f → reaches (opener_start f) 0.
Proof using Hord Hfs Hmax Hkept Htext.
  intros Hf Hsh. pose proof (Forall_elem _ _ _ Hkept Hf) as Hk. cbn in Hk. fence_facts.
  unfold short_closer in Hsh.
  assert (∀ a, (opener_end f ≤ a ≤ closer f)%nat → boundary text a →
    units (slice text (opener_end f) a) unit ≤ 2 →
    a = closer f → reaches (opener_start f) 0) as Hwhole.
  { intros a Ha Hba Hu ->. exists (fence_end f). split_and!; [done|lia|by apply clear_at_end|].
    rewrite open_at_end by done. cbn. unfold used_at.
    rewrite (units_slice text _ (opener_end f)), (units_slice text (opener_end f) (closer f))
      by (done || lia). lia. }
  destruct (decide (opener_end f = closer f)) as [E|E].
  { apply (Hwhole (opener_end f)); [lia|done| |done]. rewrite slice_nil. cbn. lia. }
  destruct (next_boundary (opener_end f)) as (m & Hbm & Hm & Hmin & Hu); [done|lia|].
  pose proof (Hmin (closer f) ltac:(done) ltac:(lia)).
  destruct (decide (m = closer f)) as [->|Hne]; [apply (Hwhole (closer f)); [lia|done|lia|done]|].
  assert (Forall (clear_of m) fs) as Hclear by (apply (clear_in_body f); [done|lia]).
  exists m. split_and!; [done|lia|done|].
  unfold used_at. rewrite (units_slice text _ (opener_end f)) by (done || lia).
  pose proof (units_nonneg (slice text (opener_start f) (opener_end f)) unit).
  destruct (close_units_bound m Hclear) as [->|(w & Hw & ? & ?)]; lia.
Qed.

Lemma reaches_clean (start : nat) (reopen : option Fence) :
  Forall short_closer fs → boundary text start → (start < length text)%nat →
  clean_cut start reopen → reaches start (opener_units text unit reopen).
Proof using Hord Hfs Hmax Hkept Htext.
  intros Hsh Hs Hlt Hclean.
  destruct (opener_units_bounds reopen) as (Hr0 & Hr2 & Hr).
  { intros f ->. by destruct Hclean. }
  destruct (next_boundary start Hs Hlt) as (n & Hbn & Hn & Hmin & Hu).
  assert (∀ k, (start ≤ k)%nat → boundary text k →
    used_at start (opener_units text unit reopen) k
    = opener_units text unit reopen + units (slice text start k) unit) as Hused by done.
  destruct (Forall_Exists_dec (clear_of n)) with (l := fs) as [Hclear|Hnot].
  { intros f. unfold clear_of. solve_decision. }
  - exists n. split_and!; [done|lia|done|]. rewrite Hused by (done || lia).
    destruct (close_units_bound n Hclear) as [->|(w & Hw & ? & ?)];
      (destruct reopen as [g|]; [destruct (Hr g eq_refl)|cbn in *]; lia).
  - apply List.Exists_exists in Hnot as (f & Hf%list_elem_of_In & Hnc). fence_facts.
    unfold clear_of in Hnc. pose proof (Forall_elem _ _ _ Hsh Hf) as Hshf.
    destruct (decide (start ≤ opener_start f)%nat) as [Hle|Hgt].
    + assert (start = opener_start f) as ->.
      { destruct (decide (start < opener_start f)%nat); [|lia].
        pose proof (Hmin (opener_start f) ltac:(done) ltac:(lia)). lia. }
      rewrite (clean_start_opener f reopen) by done. by apply reaches_from_opener.
    + destruct reopen as [g|].
      2:{ pose proof (Forall_elem _ _ _ Hclean Hf) as Hx. cbn in Hx. lia. }
      destruct (Hr g eq_refl) as [Hg1 Hg2]. destruct Hclean as [Hg Hbody].
      assert (g = f) as ->.
      { fence_facts. destruct (ordered_elem f g Hf Hg) as [->|[?|?]]; [done|lia..]. }
      pose proof (Hmin (closer f) ltac:(done) ltac:(lia)).
      assert (n = closer f) as -> by lia.
      exists (fence_end f). split_and!; [done|lia|by apply clear_at_end|].
      rewrite open_at_end by done. rewrite Hused by (done || lia). cbn [close_units].
      rewrite (units_slice text start (closer f)) by (done || lia).
      unfold short_closer in Hshf. lia.
Qed.

(** *** Pieces

    A message is a piece of the text, with the line that opens its fence
    before it and the line that closes its fence after it. *)

Record Piece : Type := mkPiece {
  reopening : option Fence;
  middle : str;
  closing : option Fence;
}.

Definition opening_line (o : option Fence) : str :=
  match o with Some f => slice text (opener_start f) (opener_end f) | None => [] end.

Definition closing_line (before : str) (o : option Fence) : str :=
  match o with
  | Some f =>
      (if bool_decide (list.last before = Some (ch "010")) then [] else [ch "010"])
      ++ replicate (width f) (marker f)
  | None => []
  end.

Definition piece_text (p : Piece) : str :=
  opening_line (reopening p) ++ middle p ++ closing_line (middle p) (closing p).

(** Pieces that follow each other from [start], where the fence [reopen] is open. *)
Fixpoint pieces_from (start : nat) (reopen : option Fence) (ps : list Piece) : Prop :=
  match ps with
  | [] => is_blank (drop start text) = true
  | p :: ps =>
      let e := (start + length (middle p))%nat in
      reopening p = reopen ∧ middle p ≠ [] ∧ middle p = slice text start e ∧ boundary text e
      ∧ units (piece_text p) unit ≤ max_units
      ∧ (∀ f, closing p = Some f → f ∈ fs ∧ (opener_end f < e < closer f)%nat)
      ∧ (Forall short_closer fs → clean_cut start reopen → clean_cut e (closing p))
      ∧ pieces_from e (closing p) ps
  end.

Lemma last_app_not_nil (a b : str) : b ≠ [] → list.last (a ++ b) = list.last b.
Proof using.
  intros H. rewrite last_app. destruct (list.last b) eqn:E; [done|].
  by apply last_None in E.
Qed.

Lemma last_slice (a b : nat) :
  (a < b ≤ length text)%nat → list.last (slice text a b) = text !! (b - 1)%nat.
Proof using.
  intros H. rewrite last_lookup, slice_length by lia. unfold slice.
  rewrite lookup_take_lt, lookup_drop by lia. f_equal. lia.
Qed.

Lemma chunk_text_piece (start e : nat) (reopen o : option Fence) :
  (start < e ≤ length text)%nat →
  chunk_text text start e reopen o = piece_text (mkPiece reopen (slice text start e) o).
Proof using.
  intros H. unfold chunk_text, piece_text, closing_line. cbn [reopening middle closing].
  fold (opening_line reopen).
  destruct o as [f|]; [|by rewrite app_nil_r].
  rewrite last_app_not_nil; [|intros E; apply (f_equal length) in E; rewrite slice_length in E; cbn in E; lia].
  destruct (bool_decide _); by rewrite <- ?(assoc (++)).
Qed.

Lemma marker_ascii (f : Fence) : f ∈ fs → Forall (fun b => 0 ≤ b < 128) (replicate (width f) (marker f)).
Proof using Hfs.
  intros Hf. apply Forall_replicate. fence_facts. destruct_or!; simplify_eq;
    match goal with H : marker f = _ |- _ => rewrite H end; dk_ch; lia.
Qed.

Lemma piece_units (start e : nat) (reopen o : option Fence) :
  boundary text start → boundary text e → (start < e)%nat →
  (∀ f, reopen = Some f → f ∈ fs) → (∀ f, o = Some f → f ∈ fs) →
  units (piece_text (mkPiece reopen (slice text start e) o)) unit
  = used_at start (opener_units text unit reopen) e + close_units text e o.
Proof using Hfs.
  intros Hs He Hlt Hr Ho. unfold piece_text. cbn [reopening middle closing].
  pose proof He as (Hle & _).
  assert (Utf8 (opening_line reopen)) as Hu1.
  { destruct reopen as [f|]; cbn; [|constructor]. specialize (Hr f eq_refl). fence_facts.
    apply boundary_slice; [lia|done..]. }
  assert (Utf8 (slice text start e)) as Hu2 by (apply boundary_slice; [lia|done..]).
  rewrite !units_app by done. unfold used_at.
  assert (units (opening_line reopen) unit = opener_units text unit reopen) as -> by (by destruct reopen).
  assert (units (closing_line (slice text start e) o) unit = close_units text e o) as ->; [|lia].
  destruct o as [f|]; [|done]. cbn [closing_line close_units]. specialize (Ho f eq_refl).
  pose proof (marker_ascii f Ho) as Hm.
  rewrite (units_ascii _ unit) by (apply Forall_app; split; [case_bool_decide; repeat constructor; dk_ch; lia|done]).
  rewrite last_slice, len_app by lia. unfold after_newline.
  destruct e as [|e']; [lia|]. cbn [Nat.sub]. rewrite Nat.sub_0_r.
  unfold len. rewrite length_replicate. case_bool_decide; cbn; lia.
Qed.

Lemma split_loop_ok (fuel start : nat) (reopen : option Fence) :
  (length text - start < fuel)%nat → boundary text start → (∀ f, reopen = Some f → f ∈ fs) →
  ∃ ps, split_loop fuel text fs max_units unit start reopen = Some (piece_text <$> ps)
    ∧ pieces_from start reopen ps.
Proof using Hord Hfs Hmax Hkept Htext.
  revert start reopen. induction fuel as [|fuel IH]; intros start reopen Hf Hs Hr; [lia|].
  cbn [split_loop]. destruct (is_blank (drop start text)) eqn:Eb; [by exists []|].
  assert (start < length text)%nat as Hlt.
  { destruct (decide (start < length text)%nat); [done|]. rewrite drop_ge in Eb by lia. done. }
  pose proof (chunk_end_ok start reopen Hs Hlt Hr) as Hce.
  destruct (chunk_end _ _ _ _ _ _) as [e o]. destruct Hce as ((Hse & Hbe & Hfit) & Hclean).
  cbn [fst snd] in *. pose proof Hbe as (Hle & _).
  assert (∀ f, o = Some f → f ∈ fs ∧ (opener_end f < e < closer f)%nat) as Ho.
  { intros f ->. by destruct Hclean as [Hc|[? _]]. }
  destruct (IH e o) as (ps & -> & Hps); [lia|done|by intros f Hf'; destruct (Ho f Hf')|].
  exists (mkPiece reopen (slice text start e) o :: ps).
  rewrite chunk_text_piece by lia. split; [done|]. cbn [pieces_from reopening middle closing].
  rewrite slice_length by lia. replace (start + (e - start))%nat with e by lia.
  split_and!; [done| |done|done| |done| |done].
  - intros E. apply (f_equal length) in E. rewrite slice_length in E by lia. cbn in E. lia.
  - rewrite piece_units; [done..|]. intros f Hf'. by destruct (Ho f Hf').
  - intros Hsh Hcs. destruct Hclean as [Hc|[_ Hnone]]; [done|exfalso].
    destruct (reaches_clean start reopen Hsh Hs Hlt Hcs) as (k & Hbk & Hk & Hclear & Hfitk).
    specialize (Hnone k Hbk Hk Hclear). lia.
Qed.
End Fences.

(** ** Theorems *)

(** The fence each piece closes is the one the next piece opens again. *)
Fixpoint linked (reopen : option Fence) (ps : list Piece) : Prop :=
  match ps with
  | [] => True
  | p :: ps => reopening p = reopen ∧ linked (closing p) ps
  end.

(** Where the text is cut, and in which fence. *)
Fixpoint cut_points (start : nat) (ps : list Piece) : list (nat * option Fence) :=
  match ps with
  | [] => []
  | p :: ps =>
      let e := (start + length (middle p))%nat in (e, closing p) :: cut_points e ps
  end.

Section Split.
Context (text : str) (max_units : Z) (unit : TextUnit).
Let fs := Fence_scan text max_units unit.

Lemma split_message_pieces :
  str_ok text = true → 2 ≤ max_units → is_blank text = false →
  ∃ ps, split_message text max_units unit = Some (piece_text text <$> ps)
    ∧ pieces_from text fs max_units unit 0 None ps.
Proof.
  intros Hok%str_ok_Utf8 Hmax Hb. unfold split_message. rewrite Hb.
  destruct (Fence_scan_ok text Hok max_units unit) as [Hfs Hord].
  apply split_loop_ok; [done| |done|done| |lia|by apply boundary_0|done].
  all: eapply Forall_impl; [|exact Hfs]; by intros f [? ?].
Qed.

Lemma pieces_from_fits (start : nat) (reopen : option Fence) (ps : list Piece) :
  pieces_from text fs max_units unit start reopen ps →
  Forall (fun p => piece_text text p ≠ [] ∧ units (piece_text text p) unit ≤ max_units) ps.
Proof.
  revert start reopen. induction ps as [|p ps IH]; intros start reopen H; [constructor|].
  destruct H as (_ & Hne & _ & _ & Hfit & _ & _ & Hps). constructor; [|by eapply IH].
  split; [|done]. unfold piece_text. destruct (middle p); [done|].
  by destruct (opening_line text (reopening p)).
Qed.

Lemma pieces_from_text (start : nat) (reopen : option Fence) (ps : list Piece) :
  pieces_from text fs max_units unit start reopen ps →
  linked reopen ps
  ∧ Forall (fun c => ∀ f, c.2 = Some f → f ∈ fs ∧ (opener_end f < c.1 < closer f)%nat) (cut_points start ps)
  ∧ ∃ tail, drop start text = concat (middle <$> ps) ++ tail ∧ is_blank tail = true.
Proof.
  revert start reopen. induction ps as [|p ps IH]; intros start reopen H.
  { cbn in *. split_and!; [done|constructor|by exists (drop start text)]. }
  destruct H as (Hr & _ & Hm & _ & _ & Hc & _ & Hps). destruct (IH _ _ Hps) as (Hl & Hcs & tail & E & Hb).
  cbn [linked cut_points]. split_and!; [done|done|by constructor|]. exists tail. split; [|done].
  cbn [fmap list_fmap concat]. rewrite <- (assoc (++)), <- E.
  rewrite <- (take_drop (length (middle p)) (drop start text)) at 1. rewrite drop_drop. f_equal.
  rewrite Hm at 2. unfold slice. f_equal. lia.
Qed.

Lemma pieces_from_clean (start : nat) (reopen : option Fence) (ps : list Piece) :
  Forall (short_closer text max_units unit) fs → clean_cut fs start reopen →
  pieces_from text fs max_units unit start reopen ps →
  Forall (fun c => clean_cut fs c.1 c.2) (cut_points start ps).
Proof.
  intros Hsh. revert start reopen. induction ps as [|p ps IH]; intros start reopen Hc H; [constructor|].
  destruct H as (_ & _ & _ & _ & _ & _ & Hclean & Hps). specialize (Hclean Hsh Hc).
  cbn [cut_points]. constructor; [done|]. by eapply IH.
Qed.
End Split.

Lemma empty_response_units (unit : TextUnit) : units empty_response unit = 16.
Proof. by destruct unit. Qed.

(** C12: [split_message] ends, and every message it returns is non-empty and has at
    most [max_units] units of the service, the lines that open and close a cut
    fence again included; non-empty, not non-blank: [blank_message_possible]
    has a message of white space. [max_units] is at least the weight of one character, and
    room for the answer to a blank text. *)
Theorem split_message_fits (text : str) (max_units : Z) (unit : TextUnit) :
  str_ok text = true → 2 ≤ max_units → (is_blank text = true → 16 ≤ max_units) →
  ∃ chunks, split_message text max_units unit = Some chunks ∧ chunks ≠ []
    ∧ Forall (fun c => c ≠ [] ∧ units c unit ≤ max_units) chunks.
Proof.
  intros Hok Hmax Hb. destruct (is_blank text) eqn:E.
  - exists [empty_response]. unfold split_message. rewrite E. split_and!; [done..|].
    constructor; [|constructor]. split; [done|]. rewrite empty_response_units. by apply Hb.
  - destruct (split_message_pieces text max_units unit Hok Hmax E) as (ps & -> & Hps).
    exists (piece_text text <$> ps). split_and!; [done| |].
    + destruct ps; [cbn [pieces_from] in Hps; rewrite drop_0 in Hps; congruence|done].
    + apply Forall_fmap. by eapply pieces_from_fits.
Qed.

(** C24: splitting loses nothing: the messages are the text cut into pieces, one
    after the other up to white space at its end, and what is added is the line
    that closes a fence after a piece cut in its body, and the line that opened
    the same fence before the next piece. *)
Theorem split_message_keeps_text (text : str) (max_units : Z) (unit : TextUnit) :
  str_ok text = true → 2 ≤ max_units → is_blank text = false →
  ∃ ps tail, split_message text max_units unit = Some (piece_text text <$> ps)
    ∧ text = concat (middle <$> ps) ++ tail ∧ is_blank tail = true ∧ linked None ps
    ∧ Forall (fun c => ∀ f, c.2 = Some f →
        f ∈ Fence_scan text max_units unit ∧ (opener_end f < c.1 < closer f)%nat) (cut_points 0 ps).
Proof.
  intros Hok Hmax E. destruct (split_message_pieces text max_units unit Hok Hmax E) as (ps & -> & Hps).
  destruct (pieces_from_text _ _ _ _ _ _ Hps) as (Hl & Hc & tail & Et & Hb). by exists ps, tail.
Qed.

(** When the lines that close fences take at most half a message each, no
    cut falls into a line that delimits a fence: the text is cut outside every
    fence, or in the body of a fence that is closed there and opened again. *)
Theorem split_cuts_are_clean (text : str) (max_units : Z) (unit : TextUnit) :
  str_ok text = true → 2 ≤ max_units → is_blank text = false →
  Forall (short_closer text max_units unit) (Fence_scan text max_units unit) →
  ∃ ps, split_message text max_units unit = Some (piece_text text <$> ps)
    ∧ Forall (fun c => clean_cut (Fence_scan text max_units unit) c.1 c.2) (cut_points 0 ps).
Proof.
  intros Hok Hmax E Hsh. destruct (split_message_pieces text max_units unit Hok Hmax E) as (ps & -> & Hps).
  exists ps. split; [done|]. eapply pieces_from_clean; [done| |exact Hps].
  cbn. apply List.Forall_forall. intros f _. right. lia.
Qed.

(** A fence whose closing line is longer than a message is cut through its
    delimiters, a character a message. *)
Example long_closer_is_cut :
  split_message (lit "```" ++ [10] ++ lit "```                        " ++ [10] ++ lit "y") 20 Scalar
  = Some ([lit "`"; lit "`"; lit "`"; [10]; lit "`"; lit "`"; lit "`"]
          ++ replicate 5 (lit " ") ++ [replicate 19 32 ++ [10]; lit "y"]).
Proof. vm_compute. reflexivity. Qed.

(** White space that fills a message before any text is a message of its own. *)
Example blank_message_possible :
  split_message (lit "      y") 4 Utf16 = Some [lit "    "; lit "  y"].
Proof. vm_compute. reflexivity. Qed.

(** *** Text cut to a size *)

(** Text that goes out is at most 8 KiB of whole characters: a short text is
    unchanged, and of a long one the beginning and the end are kept around a
    marker. *)
Theorem bound_outbound_fits (text : str) :
  str_ok text = true →
  (length (bound_outbound text) ≤ MAX_OUTBOUND_TEXT_BYTES)%nat ∧ Utf8 (bound_outbound text)
  ∧ (bound_outbound text = text
     ∨ (MAX_OUTBOUND_TEXT_BYTES < length text)%nat
       ∧ ∃ a b c, text = a ++ b ++ c ∧ bound_outbound text = a ++ MARKER ++ c).
Proof.
  intros Hok%str_ok_Utf8. unfold bound_outbound.
  assert (length MARKER = 36%nat) as Hm by done.
  assert (MAX_OUTBOUND_TEXT_BYTES = Z.to_nat 8192) as Hmax by done.
  assert ((MAX_OUTBOUND_TEXT_BYTES - length MARKER) / 2 = Z.to_nat 4078)%nat as Hhalf by (by vm_compute).
  destruct (Nat.leb_spec (length text) MAX_OUTBOUND_TEXT_BYTES) as [Hle|Hgt].
  { split_and!; [done..|by left]. }
  rewrite Hhalf. rewrite Hm, Hmax in *.
  destruct (floor_boundary_spec text (Z.to_nat 4078) Hok) as (Hbh & Hh & _).
  destruct (ceil_boundary_spec text (length text - (Z.to_nat 8192 - 36 - Z.to_nat 4078))) as (Hbt & Ht & _);
    [done|lia|].
  set (h := floor_boundary _ _) in *. set (t := ceil_boundary _ _) in *.
  pose proof Hbt as (Htl & _). split_and!.
  - rewrite !length_app, !slice_length, Hm by lia. lia.
  - apply Utf8_app; [apply boundary_slice; [lia|by apply boundary_0|done]|].
    apply Utf8_app; [by apply str_ok_Utf8; vm_compute|].
    apply boundary_slice; [lia|done|by apply boundary_end].
  - right. split; [lia|]. exists (slice text 0 h), (slice text h t), (slice text t (length text)).
    split; [|done]. rewrite <- slice_app, <- slice_app by lia. by rewrite slice_0, firstn_all.
Qed.

Lemma bound_inbound_spec (text : str) :
  Utf8 text →
  bound_inbound text = text ∧ (length text ≤ MAX_INBOUND_TEXT_BYTES)%nat
  ∨ (MAX_INBOUND_TEXT_BYTES < length text)%nat
    ∧ ∃ h, boundary text h ∧ (h ≤ MAX_INBOUND_TEXT_BYTES)%nat
        ∧ bound_inbound text = take h text ++ truncation_notice.
Proof.
  intros Hok. unfold bound_inbound.
  destruct (Nat.leb_spec (length text) MAX_INBOUND_TEXT_BYTES) as [Hle|Hgt]; [by left|right].
  destruct (floor_boundary_spec text MAX_INBOUND_TEXT_BYTES Hok) as (Hb & Hh & _).
  split; [done|]. eexists. rewrite slice_0. eauto.
Qed.

(** ** Witnesses *)

Definition fenced_sample : str :=
  lit "Here: " ++ [10] ++ lit "```js" ++ [10] ++ lit "yyyyyyyyyyyyyyyyyyyy" ++ [10]
  ++ lit "zzzzzz" ++ [10] ++ lit "```" ++ [10] ++ lit "done" ++ [10].

Lemma split_message_fits_witness :
  ∃ chunks, split_message fenced_sample 24 Utf16 = Some chunks ∧ chunks ≠ []
    ∧ Forall (fun c => c ≠ [] ∧ units c Utf16 ≤ 24) chunks.
Proof.
  apply (split_message_fits fenced_sample 24 Utf16);
    [vm_compute; reflexivity|lia|intros H; vm_compute in H; discriminate].
Defined.

Lemma split_message_keeps_text_witness :
  ∃ ps tail, split_message fenced_sample 24 Utf16 = Some (piece_text fenced_sample <$> ps)
    ∧ fenced_sample = concat (middle <$> ps) ++ tail ∧ is_blank tail = true ∧ linked None ps
    ∧ Forall (fun c => ∀ f, c.2 = Some f →
        f ∈ Fence_scan fenced_sample 24 Utf16 ∧ (opener_end f < c.1 < closer f)%nat)
        (cut_points 0 ps).
Proof.
  apply (split_message_keeps_text fenced_sample 24 Utf16); [vm_compute; reflexivity|lia|].
  vm_compute. reflexivity.
Defined.

Lemma split_cuts_are_clean_witness :
  ∃ ps, split_message fenced_sample 24 Utf16 = Some (piece_text fenced_sample <$> ps)
    ∧ Forall (fun c => clean_cut (Fence_scan fenced_sample 24 Utf16) c.1 c.2) (cut_points 0 ps).
Proof.
  apply (split_cuts_are_clean fenced_sample 24 Utf16); [vm_compute; reflexivity|lia| |].
  - vm_compute. reflexivity.
  - assert (Fence_scan fenced_sample 24 Utf16 = [mkFence 7 13 41 45 96 3]) as ->
      by (vm_compute; reflexivity).
    constructor; [|constructor]. unfold short_closer. vm_compute. discriminate.
Defined.

Lemma bound_outbound_fits_witness :
  Utf8 (bound_outbound (lit "short")) ∧ bound_outbound (lit "short") = lit "short".
Proof.
  destruct (bound_outbound_fits (lit "short")) as (_ & H & _); [vm_compute; reflexivity|].
  split; [exact H|vm_compute; reflexivity].
Defined.
