(* ===== verification/Threads.v ===== *)
(** * Threads of scripts

    [dekopon-process/src/threads.rs] and [dekopon-gatewayd/src/threads.rs]: a
    thread that runs a script holds a permit of the pool ([ShellThreads]) and a
    slot of the gateway's [Owner]; both are semaphores. A reservation takes one
    of each or neither. A thread that ends gives its permit back at once; its
    slot stays in the owner's set of tasks until the owner joins the task.

    [pool_step] interleaves reservations, spawns, ends, joins and the shutdown.
    A reservation is two steps, as it takes the slot and the permit by one
    [try_acquire] each. *)

From Stdlib Require Import ZArith Lia.
From stdpp Require Import base list numbers relations.
From S2P Require Import Prelude ProcessTree.

(** ** Semaphores of tokio *)

Inductive TryAcquireError : Type := Closed | NoPermits.

Record Semaphore : Type := mkSemaphore {
  available : Z;
  sem_closed : bool;
}.

Definition Semaphore_new (n : Z) : Semaphore := mkSemaphore n false.

Definition try_acquire_many (n : Z) (s : Semaphore) : result TryAcquireError Semaphore :=
  if sem_closed s then Err Closed
  else if available s <? n then Err NoPermits
  else Ok (mkSemaphore (available s - n) (sem_closed s)).

Definition add_permits (n : Z) (s : Semaphore) : Semaphore :=
  mkSemaphore (available s + n) (sem_closed s).

Definition Semaphore_close (s : Semaphore) : Semaphore := mkSemaphore (available s) true.

(** [OwnedSemaphorePermit::split]: what is split off, and what is left. *)
Definition permit_split (n permits : Z) : option (Z * Z) :=
  if permits <? n then None else Some (n, permits - n).

(** ** The pool *)

(** The struct [ShellThreads]; a [ThreadPermit] is the number of its permits. *)
Record ThreadPool : Type := mkPool {
  permits : Semaphore;
  pool_maximum : Z;
}.

Definition ThreadPool_new (maximum : Z) : ThreadPool := mkPool (Semaphore_new maximum) maximum.

Definition exhausted (t : ThreadPool) : LimitExceeded := ShellThreads (pool_maximum t).

Definition pool_release (n : Z) (t : ThreadPool) : ThreadPool :=
  mkPool (add_permits n (permits t)) (pool_maximum t).

(** The loop of [reserve_many]: [n] permits of one split off [group]; on an
    error, all that was taken so far, which is dropped. *)
Fixpoint split_off (n : nat) (group : Z) (acc : list Z) : result Z (list Z) :=
  match n with
  | O => Ok (acc ++ [group])
  | S n =>
      match permit_split 1 group with
      | Some (one, group) => split_off n group (acc ++ [one])
      | None => Err (foldr Z.add 0 acc + group)
      end
  end.

Definition reserve_many (count : Z) (t : ThreadPool) : result LimitExceeded (list Z) * ThreadPool :=
  match checked_sub_u64 count 1 with
  | None => (Ok [], t)
  | Some last =>
      if u32_max <? count then (Err (exhausted t), t)
      else
        match try_acquire_many count (permits t) with
        | Err _ => (Err (exhausted t), t)
        | Ok s =>
            let t' := mkPool s (pool_maximum t) in
            match split_off (Z.to_nat last) count [] with
            | Ok ps => (Ok ps, t')
            | Err taken => (Err (exhausted t), pool_release taken t')
            end
        end
  end.

(** [reserve::<N>]: exactly [n] permits. *)
Definition pool_reserve (n : Z) (t : ThreadPool) : result LimitExceeded (list Z) * ThreadPool :=
  match reserve_many n t with
  | (Err x, t) => (Err x, t)
  | (Ok ps, t) =>
      if Z.of_nat (length ps) =? n then (Ok ps, t)
      else (Err (exhausted t), pool_release (foldr Z.add 0 ps) t)
  end.

(** ** The gateway's owner *)

(** [joinable]: tasks that ended and were not joined yet; each holds its slot. *)
Record Owner : Type := mkOwner {
  slots : Semaphore;
  joinable : Z;
  owner_maximum : Z;
}.

Definition Owner_new (maximum : Z) : Owner := mkOwner (Semaphore_new maximum) 0 maximum.

(** [try_join_next] until no task is ready: their slots are dropped. *)
Definition Owner_join (o : Owner) : Owner :=
  mkOwner (add_permits (joinable o) (slots o)) 0 (owner_maximum o).

(** A ticket is one slot and a permit. *)
Definition Ticket : Type := Z.

(** The first half of [Owner::reserve]: the slot. *)
Definition reserve_slot (o : Owner) : result LimitExceeded Owner * Owner :=
  let o := Owner_join o in
  match try_acquire_many 1 (slots o) with
  | Err _ => (Err (ShellThreads (owner_maximum o)), o)
  | Ok s => (Ok (mkOwner s (joinable o) (owner_maximum o)), o)
  end.

Definition drop_slot (o : Owner) : Owner :=
  mkOwner (add_permits 1 (slots o)) (joinable o) (owner_maximum o).

(** The second half: the permit, or the slot is dropped. *)
Definition reserve_permit (o : Owner) (t : ThreadPool) : result LimitExceeded Ticket * Owner * ThreadPool :=
  match pool_reserve 1 t with
  | (Ok [permit], t) => (Ok permit, o, t)
  | (Ok ps, t) => (Err (exhausted t), drop_slot o, pool_release (foldr Z.add 0 ps) t)
  | (Err x, t) => (Err x, drop_slot o, t)
  end.

Definition Owner_reserve (o : Owner) (t : ThreadPool) : result LimitExceeded Ticket * Owner * ThreadPool :=
  match reserve_slot o with
  | (Err x, o) => (Err x, o, t)
  | (Ok o, _) => reserve_permit o t
  end.

Definition Owner_shutdown (o : Owner) : Owner :=
  mkOwner (Semaphore_close (slots o)) (joinable o) (owner_maximum o).

(** ** All users of a pool

    Reservations that have their slot and not their permit yet ([halves]), the
    tickets not spawned yet and the threads that run. [Ticket::spawn] either
    moves both parts of the ticket into the thread and its task, or fails and
    drops them. *)

Record Pool : Type := mkPools {
  owner : Owner;
  pool : ThreadPool;
  halves : nat;
  tickets : list Ticket;
  running : list Ticket;
}.

Inductive pool_step : Pool → Pool → Prop :=
| ps_slot o t h ts rs o' o0 :
    reserve_slot o = (Ok o', o0) → pool_step (mkPools o t h ts rs) (mkPools o' t (S h) ts rs)
| ps_slot_refused o t h ts rs e o' :
    reserve_slot o = (Err e, o') → pool_step (mkPools o t h ts rs) (mkPools o' t h ts rs)
| ps_permit o t h ts rs x o' t' :
    reserve_permit o t = (Ok x, o', t') →
    pool_step (mkPools o t (S h) ts rs) (mkPools o' t' h (x :: ts) rs)
| ps_permit_refused o t h ts rs e o' t' :
    reserve_permit o t = (Err e, o', t') →
    pool_step (mkPools o t (S h) ts rs) (mkPools o' t' h ts rs)
| ps_spawn o t h ts1 x ts2 rs :
    pool_step (mkPools o t h (ts1 ++ x :: ts2) rs) (mkPools o t h (ts1 ++ ts2) (x :: rs))
| ps_spawn_failed o t h ts1 x ts2 rs :
    pool_step (mkPools o t h (ts1 ++ x :: ts2) rs)
      (mkPools (drop_slot o) (pool_release x t) h (ts1 ++ ts2) rs)
| ps_end o t h ts rs1 x rs2 :
    pool_step (mkPools o t h ts (rs1 ++ x :: rs2))
      (mkPools (mkOwner (slots o) (joinable o + 1) (owner_maximum o)) (pool_release x t) h ts (rs1 ++ rs2))
| ps_join o t h ts rs : pool_step (mkPools o t h ts rs) (mkPools (Owner_join o) t h ts rs)
| ps_shutdown o t h ts rs : pool_step (mkPools o t h ts rs) (mkPools (Owner_shutdown o) t h ts rs).

(** Nothing is lost: what is out is exactly what is missing. *)
Definition pool_ok (slot_max permit_max : Z) (p : Pool) : Prop :=
  Forall (eq 1) (tickets p) ∧ Forall (eq 1) (running p)
  ∧ 0 ≤ available (slots (owner p)) ∧ 0 ≤ joinable (owner p) ∧ 0 ≤ available (permits (pool p))
  ∧ available (slots (owner p)) + joinable (owner p) + Z.of_nat (halves p)
    + Z.of_nat (length (tickets p)) + Z.of_nat (length (running p)) = slot_max
  ∧ available (permits (pool p))
    + Z.of_nat (length (tickets p)) + Z.of_nat (length (running p)) = permit_max.

(** ** Lemmas *)

Lemma split_off_ok (n : nat) (acc : list Z) :
  Forall (eq 1) acc →
  split_off n (Z.of_nat n + 1) acc = Ok (acc ++ replicate (S n) 1).
Proof.
  revert acc. induction n as [|n IH]; intros acc Ha; [done|]. cbn [split_off]. unfold permit_split.
  rewrite (proj2 (Z.ltb_ge _ _)) by lia.
  replace (Z.of_nat (S n) + 1 - 1) with (Z.of_nat n + 1) by lia.
  rewrite IH; [by rewrite <- (assoc (++))|]. apply Forall_app. auto.
Qed.

(** [reserve_many] takes all it was asked for, one permit each, or nothing. *)
Lemma reserve_many_spec (count : Z) (t : ThreadPool) :
  0 ≤ count →
  reserve_many count t
  = if (count =? 0) || ((count <=? u32_max) && negb (sem_closed (permits t))
                        && (count <=? available (permits t)))
    then (Ok (replicate (Z.to_nat count) 1), pool_release (- count) t)
    else (Err (exhausted t), t).
Proof.
  intros Hc. unfold reserve_many, checked_sub_u64, try_acquire_many.
  destruct (Z.eqb_spec count 0) as [->|Hne]; cbn [orb].
  { destruct t as [[a c] m]. unfold pool_release, add_permits. cbn. by rewrite Z.add_0_r. }
  rewrite (proj2 (Z.leb_le 1 count)) by lia.
  destruct (Z.ltb_spec u32_max count); [by rewrite (proj2 (Z.leb_gt count u32_max))|].
  rewrite (proj2 (Z.leb_le count u32_max)) by lia.
  destruct (sem_closed (permits t)) eqn:Ecl; cbn [negb andb]; [done|].
  destruct (Z.ltb_spec (available (permits t)) count); [by rewrite (proj2 (Z.leb_gt _ _)) by lia|].
  rewrite (proj2 (Z.leb_le _ _)) by lia.
  replace count with (Z.of_nat (Z.to_nat (count - 1)) + 1) at 2 by lia.
  rewrite split_off_ok by constructor. cbn [app].
  replace (S (Z.to_nat (count - 1))) with (Z.to_nat count) by lia.
  unfold pool_release, add_permits. by rewrite Ecl, Z.add_opp_r.
Qed.

Lemma pool_reserve_1 (t : ThreadPool) :
  pool_reserve 1 t
  = if negb (sem_closed (permits t)) && (1 <=? available (permits t))
    then (Ok [1], pool_release (-1) t) else (Err (exhausted t), t).
Proof.
  unfold pool_reserve. rewrite reserve_many_spec by lia. cbn [Z.eqb orb].
  rewrite (proj2 (Z.leb_le 1 u32_max)) by (unfold u32_max; lia). cbn [andb].
  by destruct (_ && _).
Qed.

(** Each half takes one, or gives back what it has. *)
Lemma reserve_slot_spec (o : Owner) :
  let o' := Owner_join o in
  (∃ e, reserve_slot o = (Err e, o'))
  ∨ reserve_slot o = (Ok (mkOwner (add_permits (-1) (slots o')) 0 (owner_maximum o)), o')
    ∧ 1 ≤ available (slots o').
Proof.
  intros o'. unfold reserve_slot. fold o'. unfold try_acquire_many.
  destruct (sem_closed (slots o')) eqn:Ec; [by left; eexists|].
  destruct (Z.ltb_spec (available (slots o')) 1); [by left; eexists|]. right. split; [|done].
  unfold add_permits. rewrite Ec. by replace (available (slots o') + -1) with (available (slots o') - 1) by lia.
Qed.

Lemma reserve_permit_spec (o : Owner) (t : ThreadPool) :
  reserve_permit o t = (Err (exhausted t), drop_slot o, t)
  ∨ reserve_permit o t = (Ok 1, o, pool_release (-1) t) ∧ 1 ≤ available (permits t).
Proof.
  unfold reserve_permit. rewrite pool_reserve_1. destruct (_ && _) eqn:E; [right|by left].
  apply andb_true_iff in E as [_ ?%Z.leb_le]. done.
Qed.

Lemma pool_step_ok (slot_max permit_max : Z) (p p' : Pool) :
  pool_step p p' → pool_ok slot_max permit_max p → pool_ok slot_max permit_max p'.
Proof.
  intros H (Ht & Hr & H1 & H2 & H3 & H4 & H5).
  destruct H as [o t h ts rs o' o0 E|o t h ts rs e o' E|o t h ts rs x o' t' E|o t h ts rs e o' t' E
    |o t h ts1 x ts2 rs|o t h ts1 x ts2 rs|o t h ts rs1 x rs2|o t h ts rs|o t h ts rs];
    unfold pool_ok; cbn in *.
  1,2: destruct (reserve_slot_spec o) as [(e' & E')|(E' & ?)]; rewrite E' in E;
    simplify_eq; cbn in *; split_and!; auto; lia.
  1,2: destruct (reserve_permit_spec o t) as [E'|(E' & ?)]; rewrite E' in E;
    simplify_eq; cbn in *; split_and!; auto; lia.
  1,2: apply Forall_app in Ht as [Ht1 [Hx Ht2]%List.Forall_cons_iff]; subst x;
    rewrite length_app in *; cbn [length] in *; split_and!; try (by apply Forall_app); auto; cbn; lia.
  1: apply Forall_app in Hr as [Hr1 [Hx Hr2]%List.Forall_cons_iff]; subst x;
    rewrite length_app in *; cbn [length] in *; split_and!; try (by apply Forall_app); auto; cbn; lia.
  all: split_and!; auto; lia.
Qed.

(** Under any interleaving of reservations, spawns that work or fail, ends
    and joins, the threads that run and the tickets for threads never exceed
    the limits of the pool and of the gateway, and every permit and slot that
    is not out is available again. *)
Theorem threads_stay_within_limits (slot_max permit_max : Z) (p : Pool) :
  0 ≤ slot_max → 0 ≤ permit_max →
  rtc pool_step (mkPools (Owner_new slot_max) (ThreadPool_new permit_max) 0 [] []) p →
  let out := Z.of_nat (length (tickets p)) + Z.of_nat (length (running p)) in
  out ≤ slot_max ∧ out ≤ permit_max
  ∧ available (permits (pool p)) = permit_max - out
  ∧ available (slots (owner p)) + joinable (owner p) = slot_max - out - Z.of_nat (halves p).
Proof.
  intros Hs Hp H out. assert (pool_ok slot_max permit_max p) as (_ & _ & ? & ? & ? & ? & ?).
  { eapply (rtc_ind_r (pool_ok slot_max permit_max)); [| |exact H].
    - unfold pool_ok. cbn. split_and!; auto; lia.
    - intros y z _ Hstep. by apply pool_step_ok. }
  unfold out. lia.
Qed.

Lemma threads_stay_within_limits_witness :
  ∃ p, rtc pool_step (mkPools (Owner_new 1) (ThreadPool_new 2) 0 [] []) p
    ∧ running p = [1] ∧ available (permits (pool p)) = 1.
Proof.
  set (s0 := mkPools (Owner_new 1) (ThreadPool_new 2) 0 [] []).
  set (s1 := mkPools (mkOwner (mkSemaphore 0 false) 0 1) (mkPool (mkSemaphore 1 false) 2) 0 [] [1]).
  assert (rtc pool_step s0 s1) as H.
  { eapply rtc_l; [eapply ps_slot; reflexivity|]. eapply rtc_l; [apply ps_permit; reflexivity|].
    eapply rtc_l; [apply (ps_spawn _ _ 0 [] 1 [] [])|]. apply rtc_refl. }
  pose proof (threads_stay_within_limits 1 2 s1 ltac:(lia) ltac:(lia) H) as (_ & _ & E & _).
  exists s1. split; [exact H|]. split; [reflexivity|exact E].
Defined.
