(* ===== verification/Jobs.v ===== *)
(** * Background jobs

    [dekopon-gatewayd/src/jobs.rs] (with the types of [dekopon-process/src/job.rs]
    and [dekopon-shell/src/job.rs]): scripts that run after the turn that
    started them. A table of at most [maximum] rows holds the jobs that run and
    the last ones that ended; a semaphore counts those that run.

    A method that locks the table once is a function on the state behind the
    lock; [Jobs::wait], which gives the lock up while it waits, is three:
    [wait_register], [wait_pass] for one turn of its loop, and [Waiters_drop].
    [sys_step] interleaves all of them, with a log of what happened.

    A [CancelHandle] and its signals share a cell ([channels]); the clock and
    the state of the thread pool are arguments. *)

From Stdlib Require Import ZArith Lia Ascii String.
From stdpp Require Import base strings list sorting numbers relations.
From S2P Require Import Prelude RustStr Utf8 ProcessTree Threads MessageText.

Record JobOwner : Type := mkJobOwner {
  transport : str;
  conversation : str;
  subject : str;
}.
#[export] Instance JobOwner_eq_dec : EqDecision JobOwner.
Proof. solve_decision. Defined.

Inductive Stop : Type := Stop_Killed | Stop_Cancelled.

Inductive JobOutcome : Type :=
| Outcome_Succeeded
| Outcome_Failed
| Outcome_Cancelled
| Outcome_Deadline
| Outcome_Killed.

(** [ExitCode] is a [u8]. *)
Definition SUCCESS : Z := 0.
Definition FAILURE : Z := 1.
Definition TIMEOUT : Z := 124.

Inductive RowState : Type :=
| Running
| Finished (outcome : JobOutcome) (exit ended : Z).

Record Row : Type := mkRow {
  row_id : Z;
  row_owner : JobOwner;
  row_text : str;
  row_state : RowState;
  row_started : Z;
  row_cancel : option nat;
  row_stop : option Stop;
  row_waiters : Z;
  row_waited : bool;
}.

Inductive JobRefusal : Type :=
| Refused_Limit (limit : LimitExceeded)
| Refused_Full (maximum : Z)
| Refused_NotYours
| Refused_Finished
| Refused_Off.

Inductive JobState : Type :=
| State_Running (elapsed : Z)
| State_Finished (outcome : JobOutcome) (exit after : Z).

Record JobSummary : Type := mkSummary {
  summary_id : Z;
  summary_state : JobState;
  summary_text : str;
}.

Inductive JobWait : Type := Exited (exit : Z) | Interrupted.

(** A message about a job that ended, for the session of its owner. *)
Record Notice : Type := mkNotice {
  notice_job : Z;
  notice_text : str;
}.

(** [Jobs] with its [Table]; [receiver] is whether the receiving half of the
    channel of notices was not taken yet. *)
Record Jobs : Type := mkJobs {
  rows : list Row;
  next : Z;
  sealed : bool;
  job_permits : Semaphore;
  maximum : Z;
  notices : list Notice;
  receiver : bool;
  channels : list bool;
}.

Definition set_rows (j : Jobs) (rs : list Row) : Jobs :=
  mkJobs rs (next j) (sealed j) (job_permits j) (maximum j) (notices j) (receiver j) (channels j).
Definition set_job_permits (j : Jobs) (p : Semaphore) : Jobs :=
  mkJobs (rows j) (next j) (sealed j) p (maximum j) (notices j) (receiver j) (channels j).
Definition set_notices (j : Jobs) (ns : list Notice) : Jobs :=
  mkJobs (rows j) (next j) (sealed j) (job_permits j) (maximum j) ns (receiver j) (channels j).

(** [Semaphore::MAX_PERMITS]. *)
Definition MAX_PERMITS : Z := Z.shiftr u64_max 3.

(** [None] is a panic: of [mpsc::channel(0)], or of a semaphore too large; the
    allocation of the table is taken to work. *)
Definition Jobs_new (maximum : Z) : option Jobs :=
  if (maximum =? 0) || (MAX_PERMITS <? maximum) then None
  else Some (mkJobs [] 1 false (Semaphore_new maximum) maximum [] true []).

Definition take_notices (j : Jobs) : option Jobs :=
  if receiver j then
    Some (mkJobs (rows j) (next j) (sealed j) (job_permits j) (maximum j) (notices j) false (channels j))
  else None.

(** [CancelHandle::cancel]: [send_replace(true)] on the shared cell. *)
Definition cancel_channel (handle : nat) (cs : list bool) : list bool := <[handle := true]> cs.

Definition get_or_insert {A : Type} (o : option A) (a : A) : option A :=
  match o with Some _ => o | None => Some a end.

(** [saturating_duration_since]. *)
Definition since (now earlier : Z) : Z := Z.max 0 (now - earlier).

(** [Iterator::position]. *)
Fixpoint position {A : Type} (p : A → bool) (l : list A) : option nat :=
  match l with
  | [] => None
  | x :: l => if p x then Some O else S <$> position p l
  end.

(** [iter_mut().find(p)]: the first row that satisfies [p] is changed by [f],
    and what [f] returns with it. *)
Fixpoint update_first {B : Type} (p : Row → bool) (f : Row → Row * B) (rs : list Row)
    : list Row * option B :=
  match rs with
  | [] => ([], None)
  | r :: rs =>
      if p r then let '(r, b) := f r in (r :: rs, Some b)
      else let '(rs, b) := update_first p f rs in (r :: rs, b)
  end.

(** The row [Table::owned] finds. *)
Definition is_owned (owner : JobOwner) (id : Z) (r : Row) : bool :=
  (row_id r =? id) && bool_decide (row_owner r = owner).

Definition evictable (r : Row) : bool :=
  match row_state r with
  | Running => false
  | Finished _ _ _ => row_waiters r =? 0
  end.

(** [Jobs::admit]: the identifier and the cell of the new job. An error drops
    the permit before it gives the lock up. *)
Definition Jobs_admit (now : Z) (owner : JobOwner) (text : str) (o : Owner) (t : ThreadPool) (j : Jobs)
    : result JobRefusal (Z * nat) * Jobs * Owner * ThreadPool :=
  let full := Refused_Full (maximum j) in
  if sealed j then (Err Refused_Off, j, o, t)
  else
    match try_acquire_many 1 (job_permits j) with
    | Err _ => (Err full, j, o, t)
    | Ok s =>
        let evict :=
          if maximum j <=? Z.of_nat (length (rows j)) then
            match position evictable (rows j) with Some i => Ok (Some i) | None => Err full end
          else Ok None in
        match evict with
        | Err x => (Err x, set_job_permits j (add_permits 1 s), o, t)
        | Ok evict =>
            match Owner_reserve o t with
            | (Err x, o, t) => (Err (Refused_Limit x), set_job_permits j (add_permits 1 s), o, t)
            | (Ok _, o, t) =>
                let kept := match evict with Some i => delete i (rows j) | None => rows j end in
                let handle := length (channels j) in
                let id := next j in
                (Ok (id, handle),
                 mkJobs
                   (kept ++ [mkRow id owner text Running now (Some handle) None 0 false])
                   (wrap_u64 (next j + 1)) (sealed j) s (maximum j) (notices j) (receiver j)
                   (channels j ++ [false]),
                 o, t)
            end
        end
    end.

Inductive Ending : Type := Ran (expired : bool) | Abandoned.

Record Ended : Type := mkEnded {
  ended_exit : Z;
  ended_output : str;
  ended_ending : Ending;
}.

Definition job_outcome (stop : option Stop) (ended : Ended) : JobOutcome :=
  match stop, ended_ending ended with
  | Some Stop_Killed, _ => Outcome_Killed
  | Some Stop_Cancelled, _ => Outcome_Cancelled
  | None, Abandoned => Outcome_Failed
  | None, Ran expired =>
      if ended_exit ended =? SUCCESS then Outcome_Succeeded
      else if expired && (ended_exit ended =? TIMEOUT) then Outcome_Deadline
      else Outcome_Failed
  end.

Definition noticed (outcome : JobOutcome) (waited : bool) : bool :=
  match outcome with
  | Outcome_Succeeded | Outcome_Failed | Outcome_Deadline => negb waited
  | Outcome_Cancelled | Outcome_Killed => false
  end.

(** What [finish] reads of the row it ends. *)
Definition finish_row (now : Z) (ended : Ended) (r : Row) : Row * (JobOutcome * bool * str * Z) :=
  let outcome := job_outcome (row_stop r) ended in
  let waited := row_waited r || (0 <? row_waiters r) in
  (mkRow (row_id r) (row_owner r) (row_text r) (Finished outcome (ended_exit ended) now)
     (row_started r) None (row_stop r) (row_waiters r) waited,
   (outcome, waited, row_text r, since now (row_started r))).

Definition notice_body (id : Z) (ended : Ended) (text : str) (after : Z) : str :=
  lit "[gateway: job " ++ to_decimal id ++ lit " finished, exit " ++ to_decimal (ended_exit ended)
  ++ lit ", after " ++ to_decimal (dur_as_secs after) ++ lit "s]" ++ [10] ++ text ++ [10]
  ++ ended_output ended.

Definition bound_notice (body : str) : str :=
  let bounded := bound_inbound body in
  if (MAX_INBOUND_TEXT_BYTES <? length bounded)%nat
  then take (floor_boundary bounded MAX_INBOUND_TEXT_BYTES) bounded
  else bounded.

(** The part of [Jobs::finish] under the lock: the job has ended and its permit
    is back; what is left to do is to send the notice, if any. *)
Definition Jobs_finish (now id : Z) (ended : Ended) (j : Jobs)
    : option (JobOutcome * bool) * option Notice * Jobs :=
  let '(rs, finished) := update_first (fun r => row_id r =? id) (finish_row now ended) (rows j) in
  let j := set_job_permits (set_rows j rs) (add_permits 1 (job_permits j)) in
  match finished with
  | None => (None, None, j)
  | Some (outcome, waited, text, after) =>
      (Some (outcome, waited),
       if noticed outcome waited
       then Some (mkNotice id (bound_notice (notice_body id ended text after))) else None,
       j)
  end.

(** [try_send]: dropped when the channel is full ([maximum] messages) or, with
    [closed], when its receiver is gone. *)
Definition send_notice (closed : bool) (n : Notice) (j : Jobs) : Jobs :=
  if closed || (maximum j <=? Z.of_nat (length (notices j))) then j
  else set_notices j (notices j ++ [n]).

Definition Row_summary (now : Z) (r : Row) : JobSummary :=
  mkSummary (row_id r)
    match row_state r with
    | Running => State_Running (since now (row_started r))
    | Finished outcome exit ended => State_Finished outcome exit (since ended (row_started r))
    end
    (row_text r).

Definition Jobs_list (now : Z) (owner : JobOwner) (j : Jobs) : list JobSummary :=
  Row_summary now <$> List.filter (fun r => bool_decide (row_owner r = owner)) (rows j).

(** ** Waiting *)

Definition add_waiter (n : Z) (r : Row) : Row :=
  mkRow (row_id r) (row_owner r) (row_text r) (row_state r) (row_started r) (row_cancel r)
    (row_stop r) (wrap_u64 (row_waiters r + n)) (row_waited r).

Definition Answer : Type := option (result JobRefusal JobWait).

(** The first lock of [wait]: the answers so far, the identifiers held. *)
Fixpoint wait_register (owner : JobOwner) (ids : list Z) (rs : list Row)
    : list Answer * list Z * list Row :=
  match ids with
  | [] => ([], [], rs)
  | id :: ids =>
      match update_first (is_owned owner id) (fun r => (add_waiter 1 r, tt)) rs with
      | (rs, Some _) =>
          let '(answers, held, rs) := wait_register owner ids rs in (None :: answers, id :: held, rs)
      | (rs, None) =>
          let '(answers, held, rs) := wait_register owner ids rs in
          (Some (Err Refused_NotYours) :: answers, held, rs)
      end
  end.

(** What one look at a row finds; a finished row is marked. *)
Definition look (r : Row) : Row * option JobWait :=
  match row_state r with
  | Finished _ exit _ =>
      (mkRow (row_id r) (row_owner r) (row_text r) (row_state r) (row_started r) (row_cancel r)
         (row_stop r) (row_waiters r) true, Some (Exited exit))
  | Running => (r, None)
  end.

(** One turn of the loop: the answers, whether a job still runs. *)
Fixpoint wait_pass (owner : JobOwner) (answers : list Answer) (ids : list Z) (rs : list Row)
    : list Answer * bool * list Row :=
  match answers, ids with
  | Some a :: answers, _ :: ids =>
      let '(answers, pending, rs) := wait_pass owner answers ids rs in (Some a :: answers, pending, rs)
  | None :: answers, id :: ids =>
      match update_first (is_owned owner id) look rs with
      | (rs, Some (Some w)) =>
          let '(answers, pending, rs) := wait_pass owner answers ids rs in
          (Some (Ok w) :: answers, pending, rs)
      | (rs, Some None) =>
          let '(answers, _, rs) := wait_pass owner answers ids rs in (None :: answers, true, rs)
      | (rs, None) =>
          let '(answers, pending, rs) := wait_pass owner answers ids rs in
          (Some (Err Refused_NotYours) :: answers, pending, rs)
      end
  | answers, _ => (answers, false, rs)
  end.

Definition wait_results (answers : list Answer) : list (result JobRefusal JobWait) :=
  (fun a => unwrap_or a (Ok Interrupted)) <$> answers.

Fixpoint Waiters_drop (owner : JobOwner) (held : list Z) (rs : list Row) : list Row :=
  match held with
  | [] => rs
  | id :: held =>
      Waiters_drop owner held (update_first (is_owned owner id) (fun r => (add_waiter (-1) r, tt)) rs).1
  end.

(** ** Stopping *)

Definition set_stop (stop : Stop) (r : Row) : Row :=
  mkRow (row_id r) (row_owner r) (row_text r) (row_state r) (row_started r) (row_cancel r)
    (get_or_insert (row_stop r) stop) (row_waiters r) (row_waited r).

Definition cancel_row (r : Row) (cs : list bool) : list bool :=
  match row_cancel r with Some handle => cancel_channel handle cs | None => cs end.

Definition stop_running (r : Row) (cs : list bool) : Row * list bool * bool :=
  match row_state r with
  | Running => (set_stop Stop_Cancelled r, cancel_row r cs, true)
  | Finished _ _ _ => (r, cs, false)
  end.

(** The loop over the rows that [pick] selects; whether one was running. *)
Fixpoint stop_rows (pick : Row → bool) (rs : list Row) (cs : list bool) : list Row * list bool * bool :=
  match rs with
  | [] => ([], cs, false)
  | r :: rs =>
      let '(r, cs, stopped) := if pick r then stop_running r cs else (r, cs, false) in
      let '(rs, cs, stopped') := stop_rows pick rs cs in
      (r :: rs, cs, stopped || stopped')
  end.

Definition set_table (j : Jobs) (rs : list Row) (sealed : bool) (cs : list bool) : Jobs :=
  mkJobs rs (next j) sealed (job_permits j) (maximum j) (notices j) (receiver j) cs.

Definition cancel_owner (request : JobOwner) (j : Jobs) : bool * Jobs :=
  let '(rs, cs, stopped) :=
    stop_rows (fun r => str_eqb (transport (row_owner r)) (transport request)
                        && str_eqb (conversation (row_owner r)) (conversation request)
                        && str_eqb (subject (row_owner r)) (subject request))
      (rows j) (channels j) in
  (stopped, set_table j rs (sealed j) cs).

Definition seal (j : Jobs) : Jobs :=
  let '(rs, cs, _) := stop_rows (fun _ => true) (rows j) (channels j) in
  set_table j rs true cs.

Definition kill (owner : JobOwner) (id : Z) (j : Jobs) : result JobRefusal unit * Jobs :=
  match find_first (is_owned owner id) (rows j) with
  | None => (Err Refused_NotYours, j)
  | Some r =>
      match row_state r with
      | Finished _ _ _ => (Err Refused_Finished, j)
      | Running =>
          (Ok tt,
           set_table j
             (update_first (is_owned owner id) (fun r => (set_stop Stop_Killed r, tt)) (rows j)).1
             (sealed j) (cancel_row r (channels j)))
      end
  end.

(** ** The runs of jobs *)

(** A [JobRun]: the job and whether it still has its permit. *)
Record JobRun : Type := mkJobRun {
  run_id : Z;
  run_permit : bool;
}.

Definition abandoned : Ended :=
  mkEnded FAILURE (lit "[gateway: the job stopped before it could finish]") Abandoned.

(** [finish_with_trace], and [drop]: [finish] while the permit is there. *)
Definition finish_run (now : Z) (ended : Ended) (run : JobRun) (j : Jobs)
    : option (JobOutcome * bool) * option Notice * JobRun * Jobs :=
  if run_permit run then
    let '(done, notice, j) := Jobs_finish now (run_id run) ended j in
    (done, notice, mkJobRun (run_id run) false, j)
  else (None, None, run, j).

(** How the script ran: [JobContext::run] ([None] without a broker), or a panic. *)
Definition JobContext_run (outcome : option (Z * str)) (expired : bool) : Ended :=
  match outcome with
  | None => mkEnded FAILURE (lit "[gateway: the broker could not be reached to run the job]") (Ran false)
  | Some (exit, output) => mkEnded exit output (Ran expired)
  end.

Definition Started_run (result : option Ended) : Ended :=
  match result with Some ended => ended | None => abandoned end.

(** ** The gateway's jobs, interleaved *)

(** What happened, newest first. *)
Inductive Event : Type :=
| EvAdmitted (id : Z) (owner : JobOwner)
| EvEnded (id : Z) (outcome : JobOutcome) (exit : Z) (told : bool)
| EvKilled (owner : JobOwner) (id : Z)
| EvCancelled (request : JobOwner)
| EvSealed
| EvWaited (owner : JobOwner) (ids : list Z) (results : list (result JobRefusal JobWait))
    (interrupted : bool).

(** A call of [wait] between its locks; [wc_pending] is what its last turn found. *)
Record WaitCall : Type := mkWait {
  wc_owner : JobOwner;
  wc_ids : list Z;
  wc_held : list Z;
  wc_answers : list Answer;
  wc_pending : option bool;
}.

Record Sys : Type := mkSys {
  jobs : Jobs;
  runs : list JobRun;
  waits : list WaitCall;
  outbox : list Notice;
  log : list Event;
}.

Definition ended_event (run : JobRun) (ended : Ended) (done : option (JobOutcome * bool))
    (notice : option Notice) : list Event :=
  match done with
  | Some (outcome, _) =>
      [EvEnded (run_id run) outcome (ended_exit ended)
         (match notice with Some _ => true | None => false end)]
  | None => []
  end.

Definition total_held (ws : list WaitCall) : nat :=
  foldr (fun w n => length (wc_held w) + n)%nat O ws.

(** Fewer than 2^64 jobs are ever admitted, and fewer than 2^64 identifiers of
    8 bytes are in memory at once. *)
Inductive sys_step : Sys → Sys → Prop :=
| js_admit now owner text o t o' t' id handle j j' rs ws ob l :
    Jobs_admit now owner text o t j = (Ok (id, handle), j', o', t') → next j < u64_max →
    sys_step (mkSys j rs ws ob l) (mkSys j' (mkJobRun id true :: rs) ws ob (EvAdmitted id owner :: l))
| js_admit_refused now owner text o t o' t' e j j' rs ws ob l :
    Jobs_admit now owner text o t j = (Err e, j', o', t') →
    sys_step (mkSys j rs ws ob l) (mkSys j' rs ws ob l)
| js_finish now ended rs1 run rs2 run' done notice j j' ws ob l :
    finish_run now ended run j = (done, notice, run', j') →
    sys_step (mkSys j (rs1 ++ run :: rs2) ws ob l)
      (mkSys j' (rs1 ++ run' :: rs2) ws (ob ++ option_list notice) (ended_event run ended done notice ++ l))
| js_send closed j rs ws ob1 n ob2 l :
    sys_step (mkSys j rs ws (ob1 ++ n :: ob2) l) (mkSys (send_notice closed n j) rs ws (ob1 ++ ob2) l)
| js_take j j' rs ws ob l :
    take_notices j = Some j' → sys_step (mkSys j rs ws ob l) (mkSys j' rs ws ob l)
| js_receive j n ns rs ws ob l :
    notices j = n :: ns → sys_step (mkSys j rs ws ob l) (mkSys (set_notices j ns) rs ws ob l)
| js_kill owner id j j' rs ws ob l :
    kill owner id j = (Ok tt, j') →
    sys_step (mkSys j rs ws ob l) (mkSys j' rs ws ob (EvKilled owner id :: l))
| js_kill_refused owner id e j j' rs ws ob l :
    kill owner id j = (Err e, j') → sys_step (mkSys j rs ws ob l) (mkSys j' rs ws ob l)
| js_cancel request stopped j j' rs ws ob l :
    cancel_owner request j = (stopped, j') →
    sys_step (mkSys j rs ws ob l) (mkSys j' rs ws ob (EvCancelled request :: l))
| js_seal j rs ws ob l : sys_step (mkSys j rs ws ob l) (mkSys (seal j) rs ws ob (EvSealed :: l))
| js_wait owner ids answers held table j rs ws ob l :
    wait_register owner ids (rows j) = (answers, held, table) →
    Z.of_nat (total_held ws + length ids) ≤ u64_max →
    sys_step (mkSys j rs ws ob l)
      (mkSys (set_rows j table) rs (mkWait owner ids held answers None :: ws) ob l)
| js_pass owner ids held answers p answers' pending table j rs ws1 ws2 ob l :
    wait_pass owner answers ids (rows j) = (answers', pending, table) →
    sys_step (mkSys j rs (ws1 ++ mkWait owner ids held answers p :: ws2) ob l)
      (mkSys (set_rows j table) rs (ws1 ++ mkWait owner ids held answers' (Some pending) :: ws2) ob l)
| js_return owner ids held answers pending j rs ws1 ws2 ob l :
    sys_step (mkSys j rs (ws1 ++ mkWait owner ids held answers (Some pending) :: ws2) ob l)
      (mkSys (set_rows j (Waiters_drop owner held (rows j))) rs (ws1 ++ ws2) ob
         (EvWaited owner ids (wait_results answers) pending :: l))
| js_unwind w j rs ws1 ws2 ob l :
    sys_step (mkSys j rs (ws1 ++ w :: ws2) ob l)
      (mkSys (set_rows j (Waiters_drop (wc_owner w) (wc_held w) (rows j))) rs (ws1 ++ ws2) ob l).

(** ** What a history may be *)

Definition is_ended (id : Z) (l : list Event) : Prop := ∃ oc ex told, EvEnded id oc ex told ∈ l.

(** What an answer to [wait] may say, given what happened before. *)
Definition answer_legal (owner : JobOwner) (interrupted : bool) (l : list Event) (id : Z)
    (r : result JobRefusal JobWait) : Prop :=
  match r with
  | Ok (Exited e) => EvAdmitted id owner ∈ l ∧ ∃ oc told, EvEnded id oc e told ∈ l
  | Ok Interrupted => interrupted = true ∧ EvAdmitted id owner ∈ l
  | Err x => x = Refused_NotYours
  end.

Definition event_legal (e : Event) (l : list Event) : Prop :=
  match e with
  | EvAdmitted id _ => (EvSealed ∉ l) ∧ ∀ id' o, EvAdmitted id' o ∈ l → id' < id
  | EvEnded id oc _ told =>
      (¬ is_ended id l)
      ∧ ∃ o, EvAdmitted id o ∈ l
        ∧ (oc = Outcome_Killed → EvKilled o id ∈ l)
        ∧ (oc = Outcome_Cancelled → EvCancelled o ∈ l ∨ EvSealed ∈ l)
        ∧ (told = true → oc ≠ Outcome_Killed ∧ oc ≠ Outcome_Cancelled)
  | EvKilled o id => EvAdmitted id o ∈ l ∧ (¬ is_ended id l)
  | EvCancelled _ | EvSealed => True
  | EvWaited o ids results interrupted => Forall2 (answer_legal o interrupted l) ids results
  end.

Fixpoint legal (l : list Event) : Prop :=
  match l with [] => True | e :: l => event_legal e l ∧ legal l end.

(** ** Lemmas on the table

    Identifiers are distinct, so that each operation maps a function over the
    rows. *)

Definition distinct (rs : list Row) : Prop := NoDup (row_id <$> rs).

Definition picks (id : Z) (p : Row → bool) : Prop := ∀ r, p r = true → row_id r = id.

Lemma is_owned_picks (o : JobOwner) (id : Z) : picks id (is_owned o id).
Proof. intros r H. unfold is_owned in H. dk_bool. lia. Qed.

Lemma is_id_picks (id : Z) : picks id (fun r => row_id r =? id).
Proof. intros r ?%Z.eqb_eq. done. Qed.

Lemma is_owned_true (o : JobOwner) (id : Z) (r : Row) :
  is_owned o id r = true ↔ row_id r = id ∧ row_owner r = o.
Proof. unfold is_owned. by rewrite andb_true_iff, Z.eqb_eq, bool_decide_eq_true. Qed.

Lemma update_first_map {B : Type} (id : Z) (p : Row → bool) (f : Row → Row * B) (rs : list Row) :
  distinct rs → picks id p →
  update_first p f rs
  = ((fun r => if p r then (f r).1 else r) <$> rs, (fun r => (f r).2) <$> find_first p rs).
Proof.
  intros Hd Hp. induction rs as [|r rs IH]; [done|]. cbn [update_first find_first fmap list_fmap].
  unfold distinct in Hd. cbn in Hd. apply list.NoDup_cons in Hd as [Hr Hd].
  destruct (p r) eqn:E.
  - destruct (f r) as [r' b] eqn:Ef. cbn. rewrite Ef. cbn. repeat f_equal.
    rewrite <- (list_fmap_id rs) at 1. apply list_fmap_ext. intros i x Hx.
    destruct (p x) eqn:Ex; [exfalso|done]. apply Hr. apply list_elem_of_fmap.
    exists x. split; [by rewrite (Hp _ E), (Hp _ Ex)|]. by eapply list_elem_of_lookup_2.
  - by rewrite IH.
Qed.

Lemma find_first_unique (id : Z) (p : Row → bool) (rs : list Row) (r : Row) :
  distinct rs → picks id p → r ∈ rs → p r = true → find_first p rs = Some r.
Proof.
  intros Hd Hp Hr E. destruct (find_first p rs) as [r'|] eqn:Ef.
  - apply find_first_Some in Ef as [Hr' E']. f_equal.
    apply list_elem_of_lookup in Hr as [i Hi]. apply list_elem_of_lookup in Hr' as [k Hk].
    assert (i = k) as ->; [|congruence].
    eapply (NoDup_lookup (row_id <$> rs)); [done|by rewrite list_lookup_fmap, Hi|].
    rewrite list_lookup_fmap, Hk. cbn. f_equal. by rewrite (Hp _ E), (Hp _ E').
  - apply find_first_None in Ef. pose proof (Forall_elem _ _ _ Ef Hr). cbn in *. congruence.
Qed.

(** A change of rows that keeps their identity. *)
Definition keeps_identity (g : Row → Row) : Prop :=
  ∀ r, row_id (g r) = row_id r ∧ row_owner (g r) = row_owner r.

Lemma fmap_ids (g : Row → Row) (rs : list Row) :
  keeps_identity g → row_id <$> (g <$> rs) = row_id <$> rs.
Proof.
  intros Hg. rewrite <- list_fmap_compose. apply list_fmap_ext. intros i r _. cbn. apply Hg.
Qed.

Lemma distinct_fmap (g : Row → Row) (rs : list Row) :
  keeps_identity g → distinct rs → distinct (g <$> rs).
Proof. intros Hg. unfold distinct. by rewrite fmap_ids. Qed.

Lemma find_first_fmap (p : Row → bool) (g : Row → Row) (rs : list Row) :
  (∀ r, p (g r) = p r) → find_first p (g <$> rs) = g <$> find_first p rs.
Proof. intros H. induction rs as [|r rs IH]; cbn; [done|]. rewrite H. by destruct (p r). Qed.

Lemma is_owned_fmap (g : Row → Row) (o : JobOwner) (id : Z) (r : Row) :
  keeps_identity g → is_owned o id (g r) = is_owned o id r.
Proof. intros Hg. destruct (Hg r) as [E1 E2]. unfold is_owned. by rewrite E1, E2. Qed.

(** *** Waiters *)

Definition count_id (id : Z) (l : list Z) : nat := length (List.filter (Z.eqb id) l).

Definition held_by (o : JobOwner) (held : list Z) (r : Row) : Z :=
  if bool_decide (row_owner r = o) then Z.of_nat (count_id (row_id r) held) else 0.

Definition with_waiters (r : Row) (n : Z) : Row :=
  mkRow (row_id r) (row_owner r) (row_text r) (row_state r) (row_started r) (row_cancel r)
    (row_stop r) n (row_waited r).

Lemma with_waiters_id (r : Row) : with_waiters r (row_waiters r) = r.
Proof. by destruct r. Qed.

Lemma with_waiters_identity (f : Row → Z) : keeps_identity (fun r => with_waiters r (f r)).
Proof. by intros r. Qed.

Lemma held_by_cons (o : JobOwner) (id : Z) (held : list Z) (r : Row) :
  held_by o (id :: held) r = (if is_owned o id r then 1 else 0) + held_by o held r.
Proof.
  unfold held_by, is_owned, count_id. cbn [List.filter]. rewrite Z.eqb_sym.
  rewrite (Z.eqb_sym id). destruct (bool_decide _), (row_id r =? id); cbn [length andb]; lia.
Qed.

Lemma held_by_bounds (o : JobOwner) (held : list Z) (r : Row) :
  0 ≤ held_by o held r ≤ Z.of_nat (length held).
Proof.
  unfold held_by, count_id. destruct (bool_decide _); [|lia].
  pose proof (List.filter_length_le (Z.eqb (row_id r)) held). lia.
Qed.

(** The part of a list of identifiers that a registration holds. *)
Definition found (o : JobOwner) (rs : list Row) (id : Z) : bool :=
  match find_first (is_owned o id) rs with Some _ => true | None => false end.

Lemma wait_register_spec (o : JobOwner) (ids : list Z) (rs : list Row) :
  distinct rs →
  Forall (fun r => 0 ≤ row_waiters r ∧ row_waiters r + Z.of_nat (length ids) ≤ u64_max) rs →
  let held := List.filter (found o rs) ids in
  wait_register o ids rs
  = ((fun id => if found o rs id then None else Some (Err Refused_NotYours)) <$> ids, held,
     (fun r => with_waiters r (row_waiters r + held_by o held r)) <$> rs).
Proof.
  revert rs. induction ids as [|id ids IH]; intros rs Hd Hw; cbn [wait_register fmap list_fmap List.filter].
  { f_equal. rewrite <- (list_fmap_id rs) at 1. apply list_fmap_ext. intros i r _. cbn.
    unfold held_by. cbn. rewrite <- (with_waiters_id r) at 1. f_equal. destruct (bool_decide _); cbn; lia. }
  rewrite (update_first_map id) by auto using is_owned_picks.
  set (g := fun r => if is_owned o id r then (add_waiter 1 r, tt).1 else r).
  assert (keeps_identity g) as Hg by (intros r; unfold g; by destruct (is_owned _ _ _)).
  assert (∀ i, found o (g <$> rs) i = found o rs i) as Hfound.
  { intros i. unfold found. rewrite find_first_fmap by (intros; by apply is_owned_fmap).
    by destruct (find_first _ _). }
  destruct (find_first (is_owned o id) rs) as [r0|] eqn:Ef; cbn [fmap option_fmap option_map].
  - assert (found o rs id = true) as -> by (unfold found; by rewrite Ef). rewrite IH.
    + assert (∀ l, (fun i => if found o (g <$> rs) i then None else Some (Err Refused_NotYours)) <$> l
        = (fun i => if found o rs i then None else Some (@Err _ JobWait Refused_NotYours)) <$> l) as ->.
      { intros l. apply list_fmap_ext. intros. by rewrite Hfound. }
      rewrite (filter_ext_bool (found o (g <$> rs)) (found o rs)) by done. f_equal.
      rewrite <- list_fmap_compose. apply list_fmap_ext. intros i r Hr. cbn.
      apply list_elem_of_lookup_2 in Hr. pose proof (Forall_elem _ _ _ Hw Hr) as [? ?]. cbn [length] in *.
      rewrite held_by_cons. destruct (Hg r) as [E1 E2]. unfold held_by at 1. rewrite E1, E2.
      fold (held_by o (List.filter (found o rs) ids) r). unfold g.
      destruct (is_owned o id r); unfold with_waiters, add_waiter; cbn; f_equal;
        rewrite ?wrap_u64_id by dk_arith; lia.
    + by apply distinct_fmap.
    + apply Forall_fmap. eapply List.Forall_impl; [|exact Hw]. intros r [? ?]. cbn [length] in *. unfold g. cbn.
      destruct (is_owned o id r); cbn; rewrite ?wrap_u64_id by dk_arith; dk_arith.
  - assert (found o rs id = false) as -> by (unfold found; by rewrite Ef).
    assert (g <$> rs = rs) as ->.
    { rewrite <- (list_fmap_id rs) at 2. apply list_fmap_ext. intros i r Hr.
      apply find_first_None in Ef. apply list_elem_of_lookup_2 in Hr.
      pose proof (Forall_elem _ _ _ Ef Hr) as E. cbn in E. unfold g. by rewrite E. }
    rewrite IH; [done|done|]. eapply List.Forall_impl; [|exact Hw]. intros r [? ?]. cbn [length] in *. lia.
Qed.

Lemma Waiters_drop_spec (o : JobOwner) (held : list Z) (rs : list Row) :
  distinct rs → Forall (fun r => held_by o held r ≤ row_waiters r ≤ u64_max) rs →
  Waiters_drop o held rs = (fun r => with_waiters r (row_waiters r - held_by o held r)) <$> rs.
Proof.
  revert rs. induction held as [|id held IH]; intros rs Hd Hw; cbn [Waiters_drop].
  { rewrite <- (list_fmap_id rs) at 1. apply list_fmap_ext. intros i r _. cbn.
    unfold held_by. cbn. rewrite <- (with_waiters_id r) at 1. f_equal. destruct (bool_decide _); cbn; lia. }
  rewrite (update_first_map id) by auto using is_owned_picks. cbn [fst].
  set (g := fun r => if is_owned o id r then add_waiter (-1) r else r).
  assert (keeps_identity g) as Hg by (intros r; unfold g; by destruct (is_owned _ _ _)).
  assert (∀ r, r ∈ rs → row_waiters (g r) = row_waiters r - (if is_owned o id r then 1 else 0)
    ∧ held_by o held (g r) = held_by o held r) as Hgr.
  { intros r Hr. pose proof (Forall_elem _ _ _ Hw Hr) as [Hw1 Hw2]. rewrite held_by_cons in Hw1.
    pose proof (held_by_bounds o held r). destruct (Hg r) as [E1 E2]. split.
    - unfold g. destruct (is_owned o id r); cbn; [|lia]. rewrite wrap_u64_id by dk_arith. lia.
    - unfold held_by. by rewrite E1, E2. }
  rewrite IH.
  - rewrite <- list_fmap_compose. apply list_fmap_ext. intros i r Hr. apply list_elem_of_lookup_2 in Hr.
    destruct (Hgr r Hr) as [E1 E2]. cbn. rewrite held_by_cons, E1, E2. unfold with_waiters, g.
    destruct (is_owned o id r); cbn; f_equal; lia.
  - by apply distinct_fmap.
  - apply Forall_fmap, List.Forall_forall. intros r Hr%list_elem_of_In. cbn.
    destruct (Hgr r Hr) as [E1 E2]. rewrite E1, E2.
    pose proof (Forall_elem _ _ _ Hw Hr) as [Hw1 Hw2]. rewrite held_by_cons in Hw1. destruct (is_owned _ _ _); lia.
Qed.

(** *** One turn of a wait *)

Definition mark (r r' : Row) : Prop :=
  r' = r
  ∨ row_state r ≠ Running
    ∧ r' = mkRow (row_id r) (row_owner r) (row_text r) (row_state r) (row_started r) (row_cancel r)
             (row_stop r) (row_waiters r) true.

Lemma mark_identity (g : Row → Row) : (∀ r, mark r (g r)) → keeps_identity g.
Proof. intros H r. by destruct (H r) as [->|[_ ->]]. Qed.

Lemma mark_state (r r' : Row) : mark r r' → row_state r' = row_state r.
Proof. by intros [->|[_ ->]]. Qed.

Lemma mark_trans (r r' r'' : Row) : mark r r' → mark r' r'' → mark r r''.
Proof.
  intros [->|[H ->]]; [done|]. intros [->|[_ ->]]; right; done.
Qed.

(** The answer the state of the table gives. *)
Definition answer_now (o : JobOwner) (rs : list Row) (a : Answer) (id : Z) : Answer :=
  match a with
  | Some _ => a
  | None =>
      match find_first (is_owned o id) rs with
      | Some r => match row_state r with Finished _ e _ => Some (Ok (Exited e)) | Running => None end
      | None => Some (Err Refused_NotYours)
      end
  end.

Lemma answer_now_fmap (g : Row → Row) (o : JobOwner) (rs : list Row) (a : Answer) (id : Z) :
  (∀ r, mark r (g r)) → answer_now o (g <$> rs) a id = answer_now o rs a id.
Proof.
  intros Hg. unfold answer_now. destruct a; [done|].
  rewrite find_first_fmap by (intros; by apply is_owned_fmap, mark_identity).
  destruct (find_first _ _) as [r|]; cbn; [|done]. by rewrite (mark_state r (g r)).
Qed.

Definition is_pending (a : Answer) : bool := match a with None => true | Some _ => false end.

Lemma look_spec (r : Row) :
  mark r (look r).1
  ∧ (look r).2 = match row_state r with Finished _ e _ => Some (Exited e) | Running => None end.
Proof. unfold look, mark. destruct (row_state r) eqn:E; cbn; [auto|]. split; [|done]. by right. Qed.

Lemma wait_pass_spec (o : JobOwner) (answers : list Answer) (ids : list Z) (rs : list Row) :
  distinct rs → length answers = length ids →
  ∃ g, (∀ r, mark r (g r))
    ∧ wait_pass o answers ids rs
      = (zip_with (answer_now o rs) answers ids,
         existsb is_pending (zip_with (answer_now o rs) answers ids), g <$> rs).
Proof.
  revert ids rs. induction answers as [|a answers IH]; intros [|id ids] rs Hd Hl; try done.
  { exists id. split; [by left|]. cbn. by rewrite list_fmap_id. }
  cbn [wait_pass zip_with existsb]. injection Hl as Hl. destruct a as [a|].
  { destruct (IH ids rs Hd Hl) as (g & Hg & ->). by exists g. }
  rewrite (update_first_map id) by auto using is_owned_picks.
  set (g0 := fun r => if is_owned o id r then (look r).1 else r).
  assert (∀ r, mark r (g0 r)) as Hg0.
  { intros r. unfold g0. destruct (is_owned _ _ _); [apply look_spec|by left]. }
  assert (distinct (g0 <$> rs)) as Hd0 by (by apply distinct_fmap; [apply mark_identity|]).
  destruct (IH ids (g0 <$> rs) Hd0 Hl) as (g & Hg & E).
  assert (zip_with (answer_now o (g0 <$> rs)) answers ids = zip_with (answer_now o rs) answers ids) as Ez.
  { apply zip_with_ext; [|done..]. intros. by apply answer_now_fmap. }
  rewrite Ez in E. exists (g ∘ g0).
  split; [intros r; eapply mark_trans; [apply Hg0|apply Hg]|].
  rewrite list_fmap_compose. cbn [answer_now].
  destruct (find_first (is_owned o id) rs) as [r0|]; cbn [fmap option_fmap option_map].
  - destruct (look_spec r0) as [_ ->]. destruct (row_state r0); by rewrite E.
  - by rewrite E.
Qed.

(** *** Stopping *)

Definition is_running (r : Row) : bool := match row_state r with Running => true | Finished _ _ _ => false end.

Lemma stop_rows_spec (pick : Row → bool) (rs : list Row) (cs : list bool) :
  ∃ cs' b, stop_rows pick rs cs
    = ((fun r => if pick r && is_running r then set_stop Stop_Cancelled r else r) <$> rs, cs', b)
  ∧ length cs' = length cs
  ∧ (∀ h, (∃ r, r ∈ rs ∧ pick r && is_running r = true ∧ row_cancel r = Some h) →
       (h < length cs)%nat → cs' !! h = Some true)
  ∧ (∀ h, (∀ r, r ∈ rs → pick r && is_running r = true → row_cancel r ≠ Some h) → cs' !! h = cs !! h).
Proof.
  revert cs. induction rs as [|r rs IH]; intros cs.
  { exists cs, false. split_and!; [done..| |done]. by intros h (r & Hr%not_elem_of_nil & _). }
  cbn [stop_rows fmap list_fmap].
  assert (∃ cs1 b1, (if pick r then stop_running r cs else (r, cs, false))
    = ((if pick r && is_running r then set_stop Stop_Cancelled r else r), cs1, b1)
    ∧ length cs1 = length cs
    ∧ (∀ h, pick r && is_running r = true → row_cancel r = Some h → (h < length cs)%nat → cs1 !! h = Some true)
    ∧ (∀ h, (pick r && is_running r = true → row_cancel r ≠ Some h) → cs1 !! h = cs !! h)
    ∧ (∀ h, cs !! h = Some true → cs1 !! h = Some true))
    as (cs1 & b1 & -> & Hlen1 & Hset1 & Hkeep1 & Hmono1).
  { unfold stop_running, is_running. destruct (pick r); cbn [andb]; [|by eexists _, _].
    destruct (row_state r); [|by eexists _, _]. eexists _, _. split; [done|].
    unfold cancel_row, cancel_channel. destruct (row_cancel r) as [h0|]; [|by split_and!].
    split_and!.
    - apply length_insert.
    - intros h _ [= ->] Hh. by apply list_lookup_insert_eq.
    - intros h Hne. apply list_lookup_insert_ne. intros ->. by apply Hne.
    - intros h Hh. destruct (decide (h = h0)) as [->|].
      + apply list_lookup_insert_eq. by eapply lookup_lt_Some.
      + by rewrite list_lookup_insert_ne. }
  destruct (IH cs1) as (cs' & b & -> & Hlen & Hset & Hkeep).
  exists cs', (b1 || b). split_and!; [done|lia| |].
  - intros h (r' & [->|Hr']%elem_of_cons & Hp & Hc) Hh.
    + destruct (decide (Exists (fun r => pick r && is_running r = true ∧ row_cancel r = Some h) rs)) as [Hex|Hn].
      * apply List.Exists_exists in Hex as (r2 & Hr2%list_elem_of_In & ? & ?). apply Hset; [|lia]. by exists r2.
      * rewrite Hkeep; [by apply Hset1|]. intros r2 Hr2 Hp2 Hc2. apply Hn. apply List.Exists_exists.
        exists r2. by rewrite <- list_elem_of_In.
    + apply Hset; [|lia]. by exists r'.
  - intros h Hn. rewrite Hkeep, Hkeep1; [done| |].
    + apply Hn. constructor.
    + intros r' Hr'. apply Hn. by constructor.
Qed.

Lemma kill_spec (o : JobOwner) (id : Z) (j j' : Jobs) :
  distinct (rows j) → kill o id j = (Ok tt, j') →
  ∃ r, r ∈ rows j ∧ row_id r = id ∧ row_owner r = o ∧ row_state r = Running
    ∧ j' = set_table j
        ((fun r => if is_owned o id r then set_stop Stop_Killed r else r) <$> rows j)
        (sealed j) (cancel_row r (channels j)).
Proof.
  intros Hd. unfold kill. destruct (find_first _ _) as [r|] eqn:E; [|done].
  apply find_first_Some in E as [Hr [? ?]%is_owned_true].
  destruct (row_state r) eqn:Es; [|done]. intros [= <-]. exists r. split_and!; try done.
  by rewrite (update_first_map id) by auto using is_owned_picks.
Qed.

Lemma kill_refused (o : JobOwner) (id : Z) (e : JobRefusal) (j j' : Jobs) :
  kill o id j = (Err e, j') → j' = j.
Proof. unfold kill. intros H. by repeat case_match; simplify_eq. Qed.
