(* ===== verification/JobsSafety.v ===== *)
(** * The jobs of the gateway, under any interleaving

    The invariants of [Jobs.sys_step], in three layers: the table and the
    permits ([table_ok]), the waiters ([waits_ok]) and the history ([log_ok]);
    and the theorems about reachable states. *)

From Stdlib Require Import ZArith Lia Ascii String.
From stdpp Require Import base strings list sorting numbers relations.
From S2P Require Import Prelude RustStr Utf8 ProcessTree Threads MessageText Jobs.

(** ** What one operation does *)

Definition ids_sorted (rs : list Row) : Prop := StronglySorted (fun a b => row_id a < row_id b) rs.

Lemma sorted_distinct (rs : list Row) : ids_sorted rs → distinct rs.
Proof.
  unfold distinct. induction 1 as [|r rs Hs IH Hr]; cbn; [constructor|].
  apply list.NoDup_cons. split; [|done]. intros (x & E & Hx)%list_elem_of_fmap.
  pose proof (Forall_elem _ _ _ Hr Hx) as H. cbn in H. lia.
Qed.

Lemma sorted_fmap (g : Row → Row) (rs : list Row) :
  keeps_identity g → ids_sorted rs → ids_sorted (g <$> rs).
Proof.
  intros Hg. induction 1 as [|r rs Hs IH Hr]; cbn; constructor; [done|].
  apply Forall_fmap. eapply List.Forall_impl; [|exact Hr]. intros x Hx. cbn.
  destruct (Hg r) as [-> _], (Hg x) as [-> _]. done.
Qed.

Definition running_count (rs : list Row) : nat := length (List.filter is_running rs).
Arguments running_count rs : simpl never.

Lemma running_count_app (a b : list Row) :
  running_count (a ++ b) = (running_count a + running_count b)%nat.
Proof. unfold running_count. by rewrite List.filter_app, length_app. Qed.

Lemma running_count_cons (r : Row) (rs : list Row) :
  running_count (r :: rs) = ((if is_running r then 1 else 0) + running_count rs)%nat.
Proof. unfold running_count. cbn. by destruct (is_running r). Qed.

Lemma running_count_fmap (g : Row → Row) (rs : list Row) :
  (∀ r, is_running (g r) = is_running r) → running_count (g <$> rs) = running_count rs.
Proof.
  intros H. induction rs as [|r rs IH]; [done|]. cbn [fmap list_fmap].
  by rewrite !running_count_cons, H, IH.
Qed.

Lemma position_Some {A : Type} (p : A → bool) (l : list A) (i : nat) :
  position p l = Some i → ∃ x, l = take i l ++ x :: drop (S i) l ∧ p x = true.
Proof.
  revert i. induction l as [|x l IH]; intros i H; [done|]. cbn in H. destruct (p x) eqn:E.
  - injection H as <-. by exists x.
  - destruct (position p l) as [k|]; [|done]. injection H as <-.
    destruct (IH k eq_refl) as (y & El & Hy). exists y. split; [|done]. cbn. by f_equal.
Qed.

Definition new_row (id : Z) (owner : JobOwner) (text : str) (now : Z) (handle : nat) : Row :=
  mkRow id owner text Running now (Some handle) None 0 false.

(** What is kept of the rows when one is added. *)
Definition makes_room (j : Jobs) (kept : list Row) : Prop :=
  (rows j = kept ∧ Z.of_nat (length kept) < maximum j)
  ∨ ∃ a r b, rows j = a ++ r :: b ∧ kept = a ++ b ∧ evictable r = true.

Lemma admit_ok now owner text o t j id h j' o' t' :
  Jobs_admit now owner text o t j = (Ok (id, h), j', o', t') →
  sealed j = false ∧ 1 ≤ available (job_permits j) ∧ id = next j ∧ h = length (channels j)
  ∧ ∃ kept, makes_room j kept
    ∧ j' = mkJobs (kept ++ [new_row id owner text now h]) (wrap_u64 (next j + 1)) false
             (mkSemaphore (available (job_permits j) - 1) (sem_closed (job_permits j)))
             (maximum j) (notices j) (receiver j) (channels j ++ [false]).
Proof.
  unfold Jobs_admit, try_acquire_many. intros H.
  destruct (sealed j); [done|]. destruct (sem_closed (job_permits j)); [done|].
  destruct (Z.ltb_spec (available (job_permits j)) 1); [done|].
  destruct (Z.leb_spec (maximum j) (Z.of_nat (length (rows j)))).
  - destruct (position evictable (rows j)) as [i|] eqn:Ep; [|done].
    destruct (Owner_reserve o t) as [[[?|?] ?] ?]; [|done].
    injection H as <- <- <- <- <-. split_and!; try done.
    destruct (position_Some _ _ _ Ep) as (r & E & Hr). exists (delete i (rows j)).
    split; [|done]. right. exists (take i (rows j)), r, (drop (S i) (rows j)).
    split_and!; [done| |done]. by rewrite delete_take_drop.
  - destruct (Owner_reserve o t) as [[[?|?] ?] ?]; [|done].
    injection H as <- <- <- <- <-. split_and!; try done. exists (rows j). split; [|done]. by left.
Qed.

Lemma admit_refused now owner text o t j e j' o' t' :
  Jobs_admit now owner text o t j = (Err e, j', o', t') → j' = j.
Proof.
  unfold Jobs_admit, try_acquire_many. intros H. destruct j as [rs nx sl [av cl] mx ns rc cs]. cbn in *.
  destruct sl; [by simplify_eq|]. destruct cl; [by simplify_eq|].
  destruct (av <? 1); [by simplify_eq|].
  destruct (mx <=? Z.of_nat (length rs)).
  - destruct (position evictable rs) as [i|].
    + destruct (Owner_reserve o t) as [[[?|?] ?] ?]; [done|]. injection H as <- <- <- <-.
      unfold set_job_permits, add_permits. cbn. repeat f_equal. lia.
    + injection H as <- <- <- <-. unfold set_job_permits, add_permits. cbn. repeat f_equal. lia.
  - destruct (Owner_reserve o t) as [[[?|?] ?] ?]; [done|]. injection H as <- <- <- <-.
    unfold set_job_permits, add_permits. cbn. repeat f_equal. lia.
Qed.

Definition finish_at (now : Z) (ended : Ended) (id : Z) (r : Row) : Row :=
  if row_id r =? id then (finish_row now ended r).1 else r.

Lemma finish_at_identity now ended id : keeps_identity (finish_at now ended id).
Proof. intros r. unfold finish_at. by destruct (_ =? _). Qed.

(** [finish] of a job whose row is [r]. *)
Lemma finish_ok now ended id r j :
  distinct (rows j) → r ∈ rows j → row_id r = id →
  let oc := job_outcome (row_stop r) ended in
  let waited := row_waited r || (0 <? row_waiters r) in
  Jobs_finish now id ended j
  = (Some (oc, waited),
     if noticed oc waited
     then Some (mkNotice id (bound_notice (notice_body id ended (row_text r) (since now (row_started r)))))
     else None,
     set_job_permits (set_rows j (finish_at now ended id <$> rows j)) (add_permits 1 (job_permits j))).
Proof.
  intros Hd Hr Hid oc waited. unfold Jobs_finish.
  rewrite (update_first_map id) by auto using is_id_picks.
  rewrite (find_first_unique id _ _ r) by first [by apply Z.eqb_eq|by auto using is_id_picks].
  reflexivity.
Qed.

(** ** The table and the permits *)

Record table_ok (j : Jobs) (rs : list JobRun) : Prop := mkTableOk {
  t_sorted : ids_sorted (rows j);
  t_range : Forall (fun r => 1 ≤ row_id r < next j) (rows j);
  t_len : Z.of_nat (length (rows j)) ≤ maximum j;
  t_permits : available (job_permits j) + Z.of_nat (running_count (rows j)) = maximum j;
  t_open : sem_closed (job_permits j) = false;
  t_next : next j = 1 + Z.of_nat (length (channels j)) ∧ next j ≤ u64_max;
  t_runs : NoDup (run_id <$> rs);
  t_live : ∀ id, mkJobRun id true ∈ rs ↔ ∃ r, r ∈ rows j ∧ row_id r = id ∧ row_state r = Running;
  t_run_range : Forall (fun x => run_id x < next j) rs;
  t_notices : Z.of_nat (length (notices j)) ≤ maximum j;
}.

Lemma is_running_true (r : Row) : is_running r = true ↔ row_state r = Running.
Proof. unfold is_running. by destruct (row_state r). Qed.

(** Operations that change neither who runs nor who is in the table. *)
Lemma table_ok_map (g : Row → Row) (j j' : Jobs) (rs : list JobRun) :
  table_ok j rs → keeps_identity g → (∀ r, is_running (g r) = is_running r) →
  rows j' = g <$> rows j → next j' = next j → job_permits j' = job_permits j →
  maximum j' = maximum j → length (channels j') = length (channels j) →
  Z.of_nat (length (notices j')) ≤ maximum j → table_ok j' rs.
Proof.
  intros [Hs Hra Hl Hp Ho Hn Hr Hli Hrr Hno] Hg Hrun E1 E2 E3 E4 E5 E6.
  split; rewrite ?E1, ?E2, ?E3, ?E4, ?E5; try done.
  - by apply sorted_fmap.
  - apply Forall_fmap. eapply List.Forall_impl; [|exact Hra]. intros r H. cbn. by destruct (Hg r) as [-> _].
  - by rewrite length_fmap.
  - by rewrite running_count_fmap.
  - intros id. rewrite Hli. split.
    + intros (r & H1 & H2 & H3). exists (g r). split_and!; [by apply list_elem_of_fmap_2| |].
      * by destruct (Hg r) as [-> _].
      * apply is_running_true. rewrite Hrun. by apply is_running_true.
    + intros (r' & (r & -> & H1)%list_elem_of_fmap & H2 & H3). exists r. split_and!; [done| |].
      * by destruct (Hg r) as [<- _].
      * apply is_running_true. rewrite <- Hrun. by apply is_running_true.
Qed.

Lemma table_ok_same (j j' : Jobs) (rs : list JobRun) :
  table_ok j rs → rows j' = rows j → next j' = next j → job_permits j' = job_permits j →
  maximum j' = maximum j → length (channels j') = length (channels j) →
  Z.of_nat (length (notices j')) ≤ maximum j → table_ok j' rs.
Proof.
  intros H E1 E2 E3 E4 E5 E6. apply (table_ok_map (fun r => r) j); try done.
  by rewrite list_fmap_id.
Qed.

Lemma sorted_snoc (rs : list Row) (r : Row) :
  ids_sorted rs → Forall (fun x => row_id x < row_id r) rs → ids_sorted (rs ++ [r]).
Proof.
  unfold ids_sorted. induction 1 as [|x rs Hs IH Hx]; intros H; cbn; [by repeat constructor|].
  apply List.Forall_cons_iff in H as [? H]. constructor; [by apply IH|].
  apply Forall_app. split; [done|]. by constructor.
Qed.

Lemma sorted_remove (a b : list Row) (r : Row) : ids_sorted (a ++ r :: b) → ids_sorted (a ++ b).
Proof.
  unfold ids_sorted. induction a as [|x a IH]; cbn; intros H; apply StronglySorted_inv in H as [H Hx]; [done|].
  constructor; [by apply IH|]. apply Forall_app in Hx as [? Hx].
  apply List.Forall_cons_iff in Hx as [_ ?]. by apply Forall_app.
Qed.

Lemma evictable_idle (r : Row) : evictable r = true → is_running r = false ∧ row_waiters r = 0.
Proof. unfold evictable, is_running. destruct (row_state r); [done|]. by intros ?%Z.eqb_eq. Qed.

(** The rows kept are rows, and all that run or are waited for are kept. *)
Lemma makes_room_spec (j : Jobs) (kept : list Row) :
  makes_room j kept → ids_sorted (rows j) → Z.of_nat (length (rows j)) ≤ maximum j →
  ids_sorted kept ∧ Z.of_nat (length kept) < maximum j ∧ running_count kept = running_count (rows j)
  ∧ (∀ r, r ∈ kept → r ∈ rows j)
  ∧ (∀ r, r ∈ rows j → r ∈ kept ∨ is_running r = false ∧ row_waiters r = 0).
Proof.
  intros [[-> ?]|(a & r & b & E & -> & Hr)] Hs Hl.
  { split_and!; auto. }
  apply evictable_idle in Hr as [Hrun Hw]. rewrite E in *. rewrite length_app in *. cbn [length] in *.
  split_and!.
  - by eapply sorted_remove.
  - lia.
  - by rewrite !running_count_app, running_count_cons, Hrun.
  - intros x [?|?]%elem_of_app; apply elem_of_app; [by left|right; by constructor].
  - intros x [?|[->|?]%elem_of_cons]%elem_of_app; [left; apply elem_of_app; by left|by right|].
    left. apply elem_of_app. by right.
Qed.

Lemma table_ok_admit (j : Jobs) (rs : list JobRun) (kept : list Row) owner text now :
  table_ok j rs → makes_room j kept → next j < u64_max →
  table_ok
    (mkJobs (kept ++ [new_row (next j) owner text now (length (channels j))]) (wrap_u64 (next j + 1)) false
       (mkSemaphore (available (job_permits j) - 1) (sem_closed (job_permits j)))
       (maximum j) (notices j) (receiver j) (channels j ++ [false]))
    (mkJobRun (next j) true :: rs).
Proof.
  intros [Hs Hra Hl Hp Ho Hn Hr Hli Hrr Hno] Hroom Hlt. destruct Hn as [Hn1 Hn2].
  destruct (makes_room_spec j kept Hroom Hs Hl) as (Hks & Hkl & Hkr & Hsub & Hkeep).
  rewrite wrap_u64_id by dk_arith.
  assert (Forall (fun r => 1 ≤ row_id r < next j) kept) as Hkra.
  { apply List.Forall_forall. intros r Hx%list_elem_of_In. by apply (Forall_elem _ _ _ Hra), Hsub. }
  split; cbn; try done.
  - apply sorted_snoc; [done|]. eapply List.Forall_impl; [|exact Hkra]. cbn. lia.
  - apply Forall_app. split; [eapply List.Forall_impl; [|exact Hkra]; cbn; lia|].
    constructor; [cbn; lia|constructor].
  - rewrite length_app. cbn. lia.
  - rewrite running_count_app, Hkr, running_count_cons. cbn. unfold running_count at 2. cbn. lia.
  - rewrite length_app. cbn. lia.
  - apply list.NoDup_cons. split; [|done]. intros (x & E & Hx)%list_elem_of_fmap.
    pose proof (Forall_elem _ _ _ Hrr Hx) as H. cbn in H. lia.
  - intros id. rewrite elem_of_cons, Hli. split.
    + intros [[= ->]|(r & H1 & H2 & H3)].
      * exists (new_row (next j) owner text now (length (channels j))). split_and!; try done.
        apply elem_of_app. right. constructor.
      * exists r. split_and!; try done. apply elem_of_app. left. destruct (Hkeep r H1) as [?|[Hf _]]; [done|].
        apply is_running_true in H3. congruence.
    + intros (r & [H1|H1%list_elem_of_singleton]%elem_of_app & H2 & H3).
      * right. exists r. split_and!; [by apply Hsub|done..].
      * left. subst r. cbn in H2. by subst id.
  - constructor; [cbn; lia|]. eapply List.Forall_impl; [|exact Hrr]. cbn. lia.
Qed.

Lemma is_running_finish_at now ended id r :
  is_running (finish_at now ended id r) = negb (row_id r =? id) && is_running r.
Proof. unfold finish_at. by destruct (row_id r =? id). Qed.

Lemma finish_at_other now ended id (rs : list Row) :
  Forall (fun r => row_id r ≠ id) rs → finish_at now ended id <$> rs = rs.
Proof.
  induction 1 as [|r rs Hr Hrs IH]; cbn; [done|]. rewrite IH. f_equal.
  unfold finish_at. by rewrite (proj2 (Z.eqb_neq _ _)).
Qed.

Lemma running_count_finish now ended id (rs : list Row) (r : Row) :
  ids_sorted rs → r ∈ rs → row_id r = id → row_state r = Running →
  S (running_count (finish_at now ended id <$> rs)) = running_count rs.
Proof.
  intros Hs (a & b & ->)%list_elem_of_split Hid Hr. apply sorted_distinct in Hs. unfold distinct in Hs.
  rewrite fmap_app in Hs. rewrite fmap_app. cbn [fmap list_fmap] in *. apply NoDup_app in Hs as (_ & Ha & Hb).
  apply list.NoDup_cons in Hb as [Hb _].
  rewrite !finish_at_other.
  - rewrite !running_count_app, !running_count_cons, is_running_finish_at.
    rewrite (proj2 (is_running_true r)), (proj2 (Z.eqb_eq _ _)) by done. cbn. lia.
  - apply List.Forall_forall. intros x Hx%list_elem_of_In E. apply Hb. apply list_elem_of_fmap.
    exists x. split; [congruence|done].
  - apply List.Forall_forall. intros x Hx%list_elem_of_In E. apply (Ha (row_id x)).
    + by apply list_elem_of_fmap_2.
    + rewrite E, Hid. constructor.
Qed.

Lemma table_ok_finish now ended (j : Jobs) rs1 rs2 (r : Row) id :
  table_ok j (rs1 ++ mkJobRun id true :: rs2) → r ∈ rows j → row_id r = id → row_state r = Running →
  table_ok
    (set_job_permits (set_rows j (finish_at now ended id <$> rows j)) (add_permits 1 (job_permits j)))
    (rs1 ++ mkJobRun id false :: rs2).
Proof.
  intros [Hs Hra Hl Hp Ho Hn Hr Hli Hrr Hno] Hin Hid Hrun.
  pose proof (running_count_finish now ended id _ r Hs Hin Hid Hrun) as Hc.
  split; cbn; try done.
  - by apply sorted_fmap; [apply finish_at_identity|].
  - apply Forall_fmap. eapply List.Forall_impl; [|exact Hra]. intros x H. cbn.
    by destruct (finish_at_identity now ended id x) as [-> _].
  - by rewrite length_fmap.
  - lia.
  - rewrite fmap_app in Hr. by rewrite fmap_app.
  - assert (∀ x, mkJobRun x true ∈ rs1 ++ mkJobRun id false :: rs2
      ↔ x ≠ id ∧ mkJobRun x true ∈ rs1 ++ mkJobRun id true :: rs2) as Hmem.
    { rewrite fmap_app in Hr. cbn in Hr. apply NoDup_app in Hr as (_ & Hr1 & Hr2).
      apply list.NoDup_cons in Hr2 as [Hr2 _]. intros x. rewrite !elem_of_app, !elem_of_cons. split.
      - intros [H|[[=]|H]].
        + split; [|by left]. intros ->. apply (Hr1 id); [|constructor].
          by apply (list_elem_of_fmap_2 run_id) in H.
        + split; [|by right; right]. intros ->. apply Hr2. by apply (list_elem_of_fmap_2 run_id) in H.
      - intros [Hne [H|[[= E]|H]]]; [by left|by subst|by right; right]. }
    intros x. rewrite Hmem, Hli. split.
    + intros (Hne & r' & H1 & H2 & H3). exists r'. split_and!; [|done..].
      apply list_elem_of_fmap. exists r'. split; [|done]. unfold finish_at.
      rewrite (proj2 (Z.eqb_neq _ _)); [done|congruence].
    + intros (r' & (r0 & -> & H1)%list_elem_of_fmap & H2 & H3).
      destruct (finish_at_identity now ended id r0) as [E _]. rewrite E in H2.
      apply is_running_true in H3. rewrite is_running_finish_at in H3.
      apply andb_true_iff in H3 as [H3%negb_true_iff%Z.eqb_neq H4%is_running_true].
      split; [congruence|]. by exists r0.
  - apply Forall_app in Hrr as [? Hrr]. apply List.Forall_cons_iff in Hrr as [? ?].
    apply Forall_app. split; [done|]. by constructor.
Qed.

(** ** Waiters *)

Definition waiting (ws : list WaitCall) (r : Row) : Z :=
  foldr (fun w n => held_by (wc_owner w) (wc_held w) r + n) 0 ws.
Arguments waiting ws r : simpl never.

Lemma waiting_cons (w : WaitCall) (ws : list WaitCall) (r : Row) :
  waiting (w :: ws) r = held_by (wc_owner w) (wc_held w) r + waiting ws r.
Proof. done. Qed.

Record waits_ok (rs : list Row) (ws : list WaitCall) : Prop := mkWaitsOk {
  w_count : Forall (fun r => row_waiters r = waiting ws r) rs;
  w_held : Forall (fun w => Forall (fun id =>
    ∃ r, r ∈ rs ∧ row_id r = id ∧ row_owner r = wc_owner w) (wc_held w)) ws;
  w_total : Z.of_nat (Jobs.total_held ws) ≤ u64_max;
}.

Lemma waiting_app (a b : list WaitCall) (r : Row) : waiting (a ++ b) r = waiting a r + waiting b r.
Proof. unfold waiting. induction a as [|w a IH]; cbn [app foldr]; [lia|]. rewrite IH. lia. Qed.

Lemma total_held_waits_app (a b : list WaitCall) :
  Jobs.total_held (a ++ b) = (Jobs.total_held a + Jobs.total_held b)%nat.
Proof. unfold Jobs.total_held. induction a as [|w a IH]; cbn [app foldr]; [lia|]. rewrite IH. lia. Qed.

Lemma waiting_bounds (ws : list WaitCall) (r : Row) :
  0 ≤ waiting ws r ≤ Z.of_nat (Jobs.total_held ws).
Proof.
  unfold waiting, Jobs.total_held. induction ws as [|w ws IH]; cbn [foldr]; [lia|].
  pose proof (held_by_bounds (wc_owner w) (wc_held w) r). lia.
Qed.

Lemma waiting_identity (ws : list WaitCall) (r r' : Row) :
  row_id r' = row_id r → row_owner r' = row_owner r → waiting ws r' = waiting ws r.
Proof.
  intros E1 E2. unfold waiting. induction ws as [|w ws IH]; cbn [foldr]; [done|].
  rewrite IH. unfold held_by. by rewrite E1, E2.
Qed.

Lemma waiting_with (ws : list WaitCall) (r : Row) (n : Z) : waiting ws (with_waiters r n) = waiting ws r.
Proof. by apply waiting_identity. Qed.

Lemma count_id_pos (id : Z) (l : list Z) : id ∈ l ↔ (0 < count_id id l)%nat.
Proof.
  unfold count_id. induction l as [|x l IH]; cbn.
  - rewrite elem_of_nil. lia.
  - rewrite elem_of_cons, IH. destruct (Z.eqb_spec id x); cbn; [split; [lia|by left]|].
    split; [by intros [?|?]|by right].
Qed.

Lemma waiting_pos (ws : list WaitCall) (r : Row) :
  0 < waiting ws r ↔ ∃ w, w ∈ ws ∧ row_id r ∈ wc_held w ∧ row_owner r = wc_owner w.
Proof.
  unfold waiting. induction ws as [|w ws IH]; cbn [foldr].
  - split; [lia|]. by intros (w & ?%not_elem_of_nil & _).
  - pose proof (held_by_bounds (wc_owner w) (wc_held w) r) as Hb.
    pose proof (waiting_bounds ws r) as Hw. unfold waiting in Hw. split.
    + intros H. destruct (decide (0 < held_by (wc_owner w) (wc_held w) r)) as [Hp|Hp].
      * exists w. split; [constructor|]. unfold held_by in Hp.
        destruct (bool_decide _) eqn:E; [|lia]. apply bool_decide_eq_true in E.
        split; [apply count_id_pos; lia|done].
      * destruct IH as [IH _]. destruct IH as (w' & ? & ?); [lia|]. exists w'. split; [by constructor|done].
    + intros (w' & [->|Hw']%elem_of_cons & H1 & H2).
      * unfold held_by at 1. rewrite bool_decide_eq_true_2 by done. apply count_id_pos in H1. lia.
      * assert (0 < foldr (fun w n => held_by (wc_owner w) (wc_held w) r + n) 0 ws)
          by (apply IH; by exists w'). lia.
Qed.

Lemma waits_ok_map (g : Row → Row) (rs : list Row) (ws : list WaitCall) :
  waits_ok rs ws → keeps_identity g → (∀ r, row_waiters (g r) = row_waiters r) → waits_ok (g <$> rs) ws.
Proof.
  intros [Hc Hh Ht] Hg Hw. split; [| |done].
  - apply Forall_fmap. eapply List.Forall_impl; [|exact Hc]. intros r E. cbn. rewrite Hw, E.
    destruct (Hg r). by apply eq_sym, waiting_identity.
  - eapply List.Forall_impl; [|exact Hh]. intros w. apply List.Forall_impl. intros id (r & H1 & H2 & H3).
    exists (g r). destruct (Hg r) as [E1 E2]. split_and!; [by apply list_elem_of_fmap_2|congruence..].
Qed.

(** A call whose held identifiers stay the same. *)
Lemma waits_ok_calls (rs : list Row) (ws ws' : list WaitCall) :
  waits_ok rs ws →
  Forall2 (fun w w' => wc_owner w' = wc_owner w ∧ wc_held w' = wc_held w) ws ws' → waits_ok rs ws'.
Proof.
  intros [Hc Hh Ht] H.
  assert (∀ r, waiting ws' r = waiting ws r) as Hw.
  { intros r. clear -H. induction H as [|w w' ws ws' [E1 E2] _ IH]; [done|].
    by rewrite !waiting_cons, E1, E2, IH. }
  split.
  - eapply List.Forall_impl; [|exact Hc]. intros r E. cbn in *. by rewrite Hw.
  - clear -Hh H. induction H as [|w w' ws ws' [E1 E2] _ IH]; [done|].
    apply List.Forall_cons_iff in Hh as [? ?]. constructor; [|by apply IH]. by rewrite E1, E2.
  - assert (Jobs.total_held ws' = Jobs.total_held ws) as ->; [|done].
    clear -H. unfold Jobs.total_held. induction H as [|w w' ws ws' [E1 E2] _ IH]; [done|].
    cbn [foldr]. by rewrite E2, IH.
Qed.

Lemma waits_ok_admit (j : Jobs) (ws : list WaitCall) (kept : list Row) owner text now h :
  ids_sorted (rows j) → Z.of_nat (length (rows j)) ≤ maximum j →
  Forall (fun r => 1 ≤ row_id r < next j) (rows j) →
  waits_ok (rows j) ws → makes_room j kept →
  waits_ok (kept ++ [new_row (next j) owner text now h]) ws.
Proof.
  intros Hs Hl Hra [Hc Hh Ht] Hroom.
  destruct (makes_room_spec j kept Hroom Hs Hl) as (_ & _ & _ & Hsub & Hkeep). split; [| |done].
  - apply Forall_app. split.
    + apply List.Forall_forall. intros r Hr%list_elem_of_In. by apply (Forall_elem _ _ _ Hc), Hsub.
    + constructor; [|constructor]. cbn. apply eq_sym, Z.le_antisymm; [|by apply waiting_bounds].
      apply Z.nlt_ge. intros (w & Hw & Hid & _)%waiting_pos. cbn in Hid.
      pose proof (Forall_elem _ _ _ Hh Hw) as Hhw. destruct (Forall_elem _ _ _ Hhw Hid) as (r & Hr & E & _).
      pose proof (Forall_elem _ _ _ Hra Hr) as H. cbn in H. lia.
  - apply List.Forall_forall. intros w Hw%list_elem_of_In. apply List.Forall_forall.
    intros id Hid%list_elem_of_In. pose proof (Forall_elem _ _ _ Hh Hw) as Hhw.
    destruct (Forall_elem _ _ _ Hhw Hid) as (r & Hr & E1 & E2). exists r. split_and!; [|done..].
    apply elem_of_app. left. destruct (Hkeep r Hr) as [?|[_ Hz]]; [done|].
    pose proof (Forall_elem _ _ _ Hc Hr) as Hwr. cbn in Hwr.
    assert (0 < waiting ws r); [|lia]. apply waiting_pos. exists w. by rewrite E1.
Qed.

Lemma found_true (o : JobOwner) (rs : list Row) (id : Z) :
  found o rs id = true ↔ ∃ r, r ∈ rs ∧ row_id r = id ∧ row_owner r = o.
Proof.
  unfold found. destruct (find_first _ _) as [r|] eqn:E; split; try done.
  - apply find_first_Some in E as [? [? ?]%is_owned_true]. eauto.
  - intros (r & H1 & H2 & H3). apply find_first_None in E.
    pose proof (Forall_elem _ _ _ E H1) as Hf. cbn in Hf.
    assert (is_owned o id r = true) by (by apply is_owned_true). congruence.
Qed.

Lemma waits_ok_register (rs : list Row) (ws : list WaitCall) (o : JobOwner) (ids : list Z) a p :
  waits_ok rs ws → Z.of_nat (Jobs.total_held ws + length ids) ≤ u64_max →
  let held := List.filter (found o rs) ids in
  Forall (fun r => 0 ≤ row_waiters r ∧ row_waiters r + Z.of_nat (length ids) ≤ u64_max) rs
  ∧ waits_ok ((fun r => with_waiters r (row_waiters r + held_by o held r)) <$> rs)
      (mkWait o ids held a p :: ws).
Proof.
  intros [Hc Hh Ht] Hlen held. split.
  { eapply List.Forall_impl; [|exact Hc]. intros r E. cbn in E. pose proof (waiting_bounds ws r). lia. }
  assert (length held ≤ length ids)%nat by (apply List.filter_length_le).
  assert (∀ id r, r ∈ rs → row_id r = id →
    with_waiters r (row_waiters r + held_by o held r)
    ∈ (fun r => with_waiters r (row_waiters r + held_by o held r)) <$> rs) as Hin.
  { intros id r Hr _. by apply (list_elem_of_fmap_2 (fun r => with_waiters r (row_waiters r + held_by o held r))). }
  split.
  - apply Forall_fmap. eapply List.Forall_impl; [|exact Hc]. intros r E. cbn in *.
    rewrite E, waiting_cons, waiting_with. cbn.
    assert (held_by o held (with_waiters r (waiting ws r + held_by o held r)) = held_by o held r) as -> by done.
    lia.
  - constructor; cbn.
    + apply List.Forall_forall. intros id [Hid Hf]%List.filter_In.
      apply found_true in Hf as (r & H1 & H2 & H3). eexists. split; [by apply (Hin id r)|]. done.
    + eapply List.Forall_impl; [|exact Hh]. intros w. apply List.Forall_impl. intros id (r & H1 & H2 & H3).
      eexists. split; [by apply (Hin id r)|]. done.
  - change (Jobs.total_held (mkWait o ids held a p :: ws)) with (length held + Jobs.total_held ws)%nat. lia.
Qed.

Lemma waits_ok_drop (rs : list Row) (ws1 ws2 : list WaitCall) (w : WaitCall) :
  distinct rs → waits_ok rs (ws1 ++ w :: ws2) →
  Waiters_drop (wc_owner w) (wc_held w) rs
  = (fun r => with_waiters r (row_waiters r - held_by (wc_owner w) (wc_held w) r)) <$> rs
  ∧ waits_ok (Waiters_drop (wc_owner w) (wc_held w) rs) (ws1 ++ ws2).
Proof.
  intros Hd [Hc Hh Ht].
  assert (∀ r, waiting (ws1 ++ w :: ws2) r
    = waiting (ws1 ++ ws2) r + held_by (wc_owner w) (wc_held w) r) as Hsum.
  { intros r. rewrite !waiting_app, waiting_cons. lia. }
  assert (Waiters_drop (wc_owner w) (wc_held w) rs
    = (fun r => with_waiters r (row_waiters r - held_by (wc_owner w) (wc_held w) r)) <$> rs) as E.
  { apply Waiters_drop_spec; [done|]. eapply List.Forall_impl; [|exact Hc]. intros r Er. cbn in Er.
    rewrite Er, Hsum. pose proof (waiting_bounds (ws1 ++ ws2) r).
    pose proof (waiting_bounds (ws1 ++ w :: ws2) r). rewrite Hsum in *. lia. }
  split; [done|]. rewrite E. split.
  - apply Forall_fmap. eapply List.Forall_impl; [|exact Hc]. intros r Er. cbn in *.
    rewrite Er, Hsum, waiting_with. lia.
  - apply Forall_app in Hh as [Hh1 Hh2]. apply List.Forall_cons_iff in Hh2 as [_ Hh2].
    apply Forall_app. split; [eapply List.Forall_impl; [|exact Hh1]|eapply List.Forall_impl; [|exact Hh2]];
      intros w'; apply List.Forall_impl; intros id (r & H1 & H2 & H3); eexists;
      (split; [by apply (list_elem_of_fmap_2 _ _ r)|done]).
  - rewrite total_held_waits_app in Ht. rewrite total_held_waits_app.
    change (Jobs.total_held (w :: ws2)) with (length (wc_held w) + Jobs.total_held ws2)%nat in Ht. lia.
Qed.

(** ** The history *)

Definition sub_log (l l' : list Event) : Prop := ∀ e, e ∈ l → e ∈ l'.

Definition row_logged (sl : bool) (cs : list bool) (l : list Event) (r : Row) : Prop :=
  EvAdmitted (row_id r) (row_owner r) ∈ l
  ∧ (row_stop r = Some Stop_Killed → EvKilled (row_owner r) (row_id r) ∈ l)
  ∧ (row_stop r = Some Stop_Cancelled → EvCancelled (row_owner r) ∈ l ∨ EvSealed ∈ l)
  ∧ match row_state r with
    | Running =>
        row_cancel r = Some (Z.to_nat (row_id r - 1))
        ∧ cs !! Z.to_nat (row_id r - 1) = Some (match row_stop r with Some _ => true | None => false end)
        ∧ (sl = true → row_stop r ≠ None) ∧ row_waited r = false
    | Finished oc ex _ => ∃ told, EvEnded (row_id r) oc ex told ∈ l
    end.

Definition answer_ok (l : list Event) (o : JobOwner) (id : Z) (a : Answer) : Prop :=
  match a with
  | None => EvAdmitted id o ∈ l
  | Some x => answer_legal o false l id x
  end.

Definition call_ok (l : list Event) (w : WaitCall) : Prop :=
  Forall2 (answer_ok l (wc_owner w)) (wc_ids w) (wc_answers w)
  ∧ (wc_pending w = Some false → existsb is_pending (wc_answers w) = false)
  ∧ Forall2 (fun id a => a = None → id ∈ wc_held w) (wc_ids w) (wc_answers w).

Record log_ok (j : Jobs) (rs : list JobRun) (ws : list WaitCall) (l : list Event) : Prop := mkLogOk {
  l_legal : legal l;
  l_sealed : sealed j = true ↔ EvSealed ∈ l;
  l_admitted : ∀ id o, EvAdmitted id o ∈ l → id < next j ∧ (mkJobRun id true ∈ rs ∨ is_ended id l);
  l_ended : ∀ id, is_ended id l → (mkJobRun id true ∉ rs) ∧ id < next j;
  l_rows : Forall (row_logged (sealed j) (channels j) l) (rows j);
  l_calls : Forall (call_ok l) ws;
}.

Lemma answer_legal_mono (o : JobOwner) (b : bool) (l l' : list Event) (id : Z) r :
  sub_log l l' → answer_legal o b l id r → answer_legal o b l' id r.
Proof.
  intros H. destruct r as [[e|]|]; cbn; [|by intros [? ?]; auto|done].
  intros (? & oc & told & ?). eauto 6.
Qed.

Lemma call_ok_mono (l l' : list Event) (w : WaitCall) : sub_log l l' → call_ok l w → call_ok l' w.
Proof.
  intros H (H1 & H2 & H3). split_and!; [|done..]. eapply Forall2_impl; [exact H1|]. intros id [x|]; cbn; [|auto].
  by apply answer_legal_mono.
Qed.

Lemma row_logged_mono (sl : bool) (cs : list bool) (l l' : list Event) (r : Row) :
  sub_log l l' → row_logged sl cs l r → row_logged sl cs l' r.
Proof.
  intros H (H1 & H2 & H3 & H4). split_and!; [auto..| |].
  - intros E. destruct (H3 E); auto.
  - destruct (row_state r); [done|]. destruct H4 as (told & ?). eauto.
Qed.

Lemma sub_log_cons (e : Event) (l : list Event) : sub_log l (e :: l).
Proof. intros x Hx. by constructor. Qed.

Lemma is_ended_cons (e : Event) (l : list Event) (id : Z) :
  is_ended id (e :: l) ↔ (∃ oc ex told, e = EvEnded id oc ex told) ∨ is_ended id l.
Proof.
  unfold is_ended. split.
  - intros (oc & ex & told & [<-|?]%elem_of_cons); [left|right]; eauto.
  - intros [(oc & ex & told & ->)|(oc & ex & told & ?)]; exists oc, ex, told; by constructor.
Qed.
#[local] Hint Resolve sub_log_cons : dk.

Lemma log_ok_update (g : Row → Row) (j j' : Jobs) rs ws ws' l l' :
  log_ok j rs ws l → sub_log l l' → legal l' → (sealed j' = true ↔ EvSealed ∈ l') → next j' = next j →
  (∀ id o, EvAdmitted id o ∈ l' → EvAdmitted id o ∈ l) → (∀ id, is_ended id l' → is_ended id l) →
  rows j' = g <$> rows j →
  (∀ r, r ∈ rows j → row_logged (sealed j) (channels j) l r → row_logged (sealed j') (channels j') l' (g r)) →
  Forall (call_ok l') ws' → log_ok j' rs ws' l'.
Proof.
  intros [Hl Hse Ha He Hr Hc] Hsub Hl' Hse' En Ha' He' Er Hr' Hc'. split; [done|done| | | |done].
  - intros id o H. rewrite En. destruct (Ha id o (Ha' _ _ H)) as [? [?|(oc & ex & t & ?)]]; (split; [done|]); [by left|].
    right. exists oc, ex, t. by apply Hsub.
  - intros id H. rewrite En. by apply He, He'.
  - rewrite Er. apply Forall_fmap, List.Forall_forall. intros r Hx%list_elem_of_In. cbn.
    apply Hr'; [done|]. by apply (Forall_elem _ _ _ Hr).
Qed.

(** Nothing is added to the history and no row changes but in its waiters. *)
Lemma log_ok_waiters (f : Row → Z) (j : Jobs) rs ws ws' l :
  log_ok j rs ws l → Forall (call_ok l) ws' →
  log_ok (set_rows j ((fun r => with_waiters r (f r)) <$> rows j)) rs ws' l.
Proof.
  intros H Hc. apply (log_ok_update (fun r => with_waiters r (f r)) j _ rs ws ws' l l); try done; apply H.
Qed.

Lemma same_row (j : Jobs) rs (r r' : Row) :
  table_ok j rs → r ∈ rows j → r' ∈ rows j → row_id r = row_id r' → r = r'.
Proof.
  intros Ht Hr Hr' E. pose proof (sorted_distinct _ (t_sorted _ _ Ht)) as Hd.
  pose proof (find_first_unique (row_id r) (fun x => row_id x =? row_id r) _ r Hd (is_id_picks _) Hr) as F1.
  pose proof (find_first_unique (row_id r) (fun x => row_id x =? row_id r) _ r' Hd (is_id_picks _) Hr') as F2.
  rewrite !Z.eqb_eq in *. specialize (F1 eq_refl). specialize (F2 (eq_sym E)). congruence.
Qed.

Lemma row_logged_unique j rs ws l r r' :
  table_ok j rs → log_ok j rs ws l → r ∈ rows j → r' ∈ rows j →
  row_state r = Running → row_state r' = Running → row_cancel r = row_cancel r' → r = r'.
Proof.
  intros Ht Hl Hr Hr' Er Er' E.
  pose proof (Forall_elem _ _ _ (l_rows _ _ _ _ Hl) Hr) as (_ & _ & _ & H1).
  pose proof (Forall_elem _ _ _ (l_rows _ _ _ _ Hl) Hr') as (_ & _ & _ & H2).
  rewrite Er in H1. rewrite Er' in H2. destruct H1 as (H1 & _), H2 as (H2 & _).
  pose proof (Forall_elem _ _ _ (t_range _ _ Ht) Hr) as H3.
  pose proof (Forall_elem _ _ _ (t_range _ _ Ht) Hr') as H4. cbn in H3, H4.
  assert (Z.to_nat (row_id r - 1) = Z.to_nat (row_id r' - 1)) by congruence.
  eapply same_row; eauto. lia.
Qed.

Lemma stop_logged (pick : Row → bool) (sl' : bool) (e : Event) j rs ws l :
  table_ok j rs → log_ok j rs ws l →
  (∀ r, pick r = true → e = EvCancelled (row_owner r) ∨ e = EvSealed) →
  (sl' = true → sealed j = true ∨ ∀ r, pick r = true) →
  ∀ rows' cs' b, stop_rows pick (rows j) (channels j) = (rows', cs', b) →
  length cs' = length (channels j)
  ∧ rows' = (fun r => if pick r && is_running r then set_stop Stop_Cancelled r else r) <$> rows j
  ∧ ∀ r, r ∈ rows j → row_logged (sealed j) (channels j) l r →
      row_logged sl' cs' (e :: l) (if pick r && is_running r then set_stop Stop_Cancelled r else r).
Proof.
  intros Ht Hl He Hsl rows' cs' b E.
  destruct (stop_rows_spec pick (rows j) (channels j)) as (cs2 & b2 & E2 & Hlen & Hset & Hkeep).
  rewrite E2 in E. injection E as <- -> _. split_and!; [done..|].
  intros r Hr Hlog. pose proof Hlog as (H1 & H2 & H3 & H4).
  destruct (pick r && is_running r) eqn:Ep.
  - apply andb_true_iff in Ep as [Ep Erun%is_running_true]. rewrite Erun in H4.
    destruct H4 as (H4 & H5 & _ & H7). pose proof (lookup_lt_Some _ _ _ H5).
    unfold set_stop, row_logged. cbn. rewrite Erun. split_and!.
    + by constructor.
    + intros E. constructor. apply H2. by destruct (row_stop r).
    + intros E. destruct (row_stop r) as [s|].
      * destruct H3 as [?|?]; [exact E|left; by constructor|right; by constructor].
      * destruct (He r Ep) as [->| ->]; [left|right]; constructor.
    + done.
    + rewrite (Hset (Z.to_nat (row_id r - 1))); [by destruct (row_stop r)| |done].
      exists r. split_and!; [done| |done]. rewrite Ep. by apply is_running_true.
    + intros _. by destruct (row_stop r).
    + done.
  - split_and!; [by constructor|by intros; constructor; apply H2| |].
    { intros E. destruct (H3 E) as [?|?]; [left|right]; by constructor. }
    destruct (row_state r) eqn:Erun; [|destruct H4 as (told & ?); exists told; by constructor].
    destruct H4 as (H4 & H5 & H6 & H7). split_and!; [done| | |done].
    + rewrite Hkeep; [done|]. intros r' Hr' [Hp' Hrun'%is_running_true]%andb_true_iff Hc'.
      assert (r = r') as <- by (eapply row_logged_unique; eauto; congruence).
      rewrite Hp' in Ep. cbn in Ep. apply is_running_true in Erun. congruence.
    + intros E. destruct (Hsl E) as [?|Hall]; [by apply H6|].
      rewrite Hall in Ep. cbn in Ep. apply is_running_true in Erun. congruence.
Qed.

Lemma kill_logged (o : JobOwner) (r0 : Row) j rs ws l :
  table_ok j rs → log_ok j rs ws l → r0 ∈ rows j → row_owner r0 = o → row_state r0 = Running →
  length (cancel_row r0 (channels j)) = length (channels j)
  ∧ ∀ r, r ∈ rows j → row_logged (sealed j) (channels j) l r →
      row_logged (sealed j) (cancel_row r0 (channels j)) (EvKilled o (row_id r0) :: l)
        (if is_owned o (row_id r0) r then set_stop Stop_Killed r else r).
Proof.
  intros Ht Hl Hr0 Ho Hrun0.
  pose proof (Forall_elem _ _ _ (l_rows _ _ _ _ Hl) Hr0) as (_ & _ & _ & H0). rewrite Hrun0 in H0.
  destruct H0 as (Hc0 & Hch0 & _). pose proof (lookup_lt_Some _ _ _ Hch0) as Hlt.
  unfold cancel_row, cancel_channel. rewrite Hc0. split; [apply length_insert|].
  intros r Hr (H1 & H2 & H3 & H4). destruct (is_owned o (row_id r0) r) eqn:Eo.
  - apply is_owned_true in Eo as [Ei Eo].
    assert (r = r0) as -> by (by eapply same_row).
    rewrite Hrun0 in H4. destruct H4 as (_ & _ & H6 & H7).
    unfold set_stop, row_logged. cbn. rewrite Hrun0. split_and!.
    + by constructor.
    + intros E. destruct (row_stop r0) as [s|]; [constructor; by apply H2|]. rewrite Eo. constructor.
    + intros E. destruct (row_stop r0) as [s|]; [|done].
      destruct H3 as [?|?]; [exact E|left; by constructor|right; by constructor].
    + done.
    + rewrite list_lookup_insert_eq by done. by destruct (row_stop r0).
    + by destruct (row_stop r0).
    + done.
  - split_and!; [by constructor|by intros; constructor; apply H2| |].
    { intros E. destruct (H3 E) as [?|?]; [left|right]; by constructor. }
    destruct (row_state r) eqn:Erun; [|destruct H4 as (told & ?); exists told; by constructor].
    destruct H4 as (H4 & H5 & H6 & H7). split_and!; [done| |done|done].
    rewrite list_lookup_insert_ne; [done|]. intros E.
    assert (r = r0) as -> by (eapply row_logged_unique; eauto; rewrite H4, Hc0; congruence).
    rewrite (proj2 (is_owned_true _ _ _)) in Eo; done.
Qed.

Lemma log_ok_admit j rs ws l kept owner text now :
  table_ok j rs → log_ok j rs ws l → makes_room j kept → sealed j = false → next j < u64_max →
  log_ok
    (mkJobs (kept ++ [new_row (next j) owner text now (length (channels j))]) (wrap_u64 (next j + 1)) false
       (mkSemaphore (available (job_permits j) - 1) (sem_closed (job_permits j)))
       (maximum j) (notices j) (receiver j) (channels j ++ [false]))
    (mkJobRun (next j) true :: rs) ws (EvAdmitted (next j) owner :: l).
Proof.
  intros Ht [Hl Hse Ha He Hr Hc] Hroom Hs Hlt. pose proof (t_next _ _ Ht) as [Hn1 Hn2].
  destruct (makes_room_spec j kept Hroom (t_sorted _ _ Ht) (t_len _ _ Ht)) as (_ & _ & _ & Hsub & _).
  rewrite wrap_u64_id by dk_arith.
  assert (EvSealed ∉ l) as Hns by (intros H; apply Hse in H; congruence).
  split; cbn [sealed next channels rows].
  - split; [|done]. split; [done|]. intros id o H. by destruct (Ha id o H).
  - split; [done|]. by intros [?|?]%elem_of_cons.
  - intros id o [[= -> ->]|H]%elem_of_cons.
    + split; [lia|]. left. constructor.
    + destruct (Ha id o H) as [? H']. split; [lia|]. rewrite is_ended_cons.
      destruct H' as [?|?]; [left; by constructor|by right; right].
  - intros id [(oc & ex & told & [=])|H]%is_ended_cons. destruct (He id H) as [? ?].
    split; [|lia]. intros [[= ->]|?]%elem_of_cons; [lia|done].
  - rewrite Hs in Hr. apply Forall_app. split.
    + apply List.Forall_forall. intros r Hx%list_elem_of_In. pose proof (Hsub r Hx) as Hx'.
      pose proof (Forall_elem _ _ _ Hr Hx') as H. apply (row_logged_mono _ _ _ (EvAdmitted (next j) owner :: l)) in H;
        [|apply sub_log_cons].
      destruct H as (H1 & H2 & H3 & H4). split_and!; [done..|].
      destruct (row_state r); [|done]. destruct H4 as (H4 & H5 & H6 & H7). split_and!; [done| |done|done].
      rewrite lookup_app_l; [done|]. by eapply lookup_lt_Some.
    + constructor; [|constructor]. unfold row_logged, new_row. cbn.
      replace (Z.to_nat (next j - 1)) with (length (channels j)) by lia.
      split_and!; try done; [constructor|]. by rewrite lookup_app_r, Nat.sub_diag by lia.
  - eapply List.Forall_impl; [|exact Hc]. intros w. apply call_ok_mono, sub_log_cons.
Qed.

Lemma job_outcome_killed (s : option Stop) (ended : Ended) :
  (job_outcome s ended = Outcome_Killed → s = Some Stop_Killed)
  ∧ (job_outcome s ended = Outcome_Cancelled → s = Some Stop_Cancelled).
Proof. unfold job_outcome. by repeat case_match. Qed.

Lemma noticed_spec (oc : JobOutcome) (waited : bool) :
  noticed oc waited = true ↔ waited = false ∧ oc ≠ Outcome_Killed ∧ oc ≠ Outcome_Cancelled.
Proof. destruct oc, waited; cbn; split; try done; by intros (? & ? & ?). Qed.

Lemma log_ok_finish now ended told j rs1 rs2 ws l r id :
  table_ok j (rs1 ++ mkJobRun id true :: rs2) → log_ok j (rs1 ++ mkJobRun id true :: rs2) ws l →
  r ∈ rows j → row_id r = id → row_state r = Running →
  (told = true → noticed (job_outcome (row_stop r) ended) (row_waited r || (0 <? row_waiters r)) = true) →
  log_ok
    (set_job_permits (set_rows j (finish_at now ended id <$> rows j)) (add_permits 1 (job_permits j)))
    (rs1 ++ mkJobRun id false :: rs2) ws
    (EvEnded id (job_outcome (row_stop r) ended) (ended_exit ended) told :: l).
Proof.
  intros Ht [Hl Hse Ha He Hr Hc] Hin Hid Hrun Htold.
  pose proof (table_ok_finish now ended j rs1 rs2 r id Ht Hin Hid Hrun) as Ht'.
  assert (mkJobRun id true ∈ rs1 ++ mkJobRun id true :: rs2) as Hlive by (apply elem_of_app; right; constructor).
  assert (∀ x, mkJobRun x true ∈ rs1 ++ mkJobRun id false :: rs2 → mkJobRun x true ∈ rs1 ++ mkJobRun id true :: rs2)
    as Hold.
  { intros x. rewrite !elem_of_app, !elem_of_cons. intros [?|[[=]|?]]; [by left|by right; right]. }
  assert (mkJobRun id true ∉ rs1 ++ mkJobRun id false :: rs2) as Hdead.
  { intros H. apply (t_live _ _ Ht') in H as (r' & Hr' & Ei & Er'). cbn in Hr'.
    apply list_elem_of_fmap in Hr' as (r0 & -> & _). apply is_running_true in Er'.
    rewrite is_running_finish_at in Er'. destruct (finish_at_identity now ended id r0) as [E _].
    rewrite E in Ei. rewrite (proj2 (Z.eqb_eq _ _) Ei) in Er'. done. }
  pose proof (Forall_elem _ _ _ Hr Hin) as (H1 & H2 & H3 & _). rewrite Hid in H1, H2.
  destruct (job_outcome_killed (row_stop r) ended) as [Hk Hcn].
  split; cbn [sealed next channels rows set_job_permits set_rows].
  - split; [|done]. split; [intros H; by destruct (He id H)|]. exists (row_owner r). split_and!; [done|auto..|].
    intros E. specialize (Htold E). by apply noticed_spec in Htold as (_ & ? & ?).
  - rewrite Hse. split; [by constructor|]. by intros [?|?]%elem_of_cons.
  - intros x o [?|H]%elem_of_cons; [done|]. destruct (Ha x o H) as [? Hx]. split; [done|].
    rewrite is_ended_cons. destruct Hx as [Hx|Hx]; [|by right; right].
    destruct (decide (x = id)) as [->|Hne]; [right; left; eauto|]. left.
    apply elem_of_app in Hx as [Hx|[[= Ex]|Hx]%elem_of_cons]; [|done|]; apply elem_of_app;
      [by left|right; by constructor].
  - intros x [(oc & ex & t & [= -> _ _ _])|H]%is_ended_cons.
    + split; [done|]. pose proof (Forall_elem _ _ _ (t_range _ _ Ht) Hin) as Hx. cbn in Hx. lia.
    + destruct (He x H) as [Hx ?]. split; [|done]. intros Hy. by apply Hx, Hold.
  - apply Forall_fmap, List.Forall_forall. intros r' Hr'%list_elem_of_In. cbn. unfold finish_at.
    destruct (Z.eqb_spec (row_id r') id) as [Ei|Ei].
    + assert (r' = r) as -> by (by eapply (same_row j); [exact Ht|done..|congruence]).
      unfold row_logged, finish_row. cbn. rewrite Hid.
      split_and!; [by constructor|by intros; constructor; apply H2| |eexists; constructor].
      intros E. destruct (H3 E) as [?|?]; [left|right]; by constructor.
    + eapply row_logged_mono; [apply sub_log_cons|]. by apply (Forall_elem _ _ _ Hr).
  - eapply List.Forall_impl; [|exact Hc]. intros w. apply call_ok_mono, sub_log_cons.
Qed.

(** ** Every step keeps the invariant *)

Record inv (s : Sys) : Prop := mkInv {
  i_table : table_ok (jobs s) (runs s);
  i_waits : waits_ok (rows (jobs s)) (waits s);
  i_log : log_ok (jobs s) (runs s) (waits s) (log s);
}.

Lemma log_ok_same (j j' : Jobs) rs ws l :
  log_ok j rs ws l → rows j' = rows j → sealed j' = sealed j → next j' = next j →
  channels j' = channels j → log_ok j' rs ws l.
Proof.
  intros H E1 E2 E3 E4. apply (log_ok_update id j j' rs ws ws l l); try done; rewrite ?E2, ?E4; try apply H.
  - by rewrite list_fmap_id.
  - done.
Qed.

Lemma inv_finish now ended rs1 run rs2 run' done notice j j' ws ob l :
  finish_run now ended run j = (done, notice, run', j') →
  inv (mkSys j (rs1 ++ run :: rs2) ws ob l) →
  inv (mkSys j' (rs1 ++ run' :: rs2) ws (ob ++ option_list notice) (ended_event run ended done notice ++ l)).
Proof.
  intros E [Ht Hw Hl]. cbn in *. destruct run as [id b]. unfold finish_run in E. cbn in E.
  destruct b; [|by injection E as <- <- <- <-].
  assert (mkJobRun id true ∈ rs1 ++ mkJobRun id true :: rs2) as Hlive by (apply elem_of_app; right; constructor).
  destruct (proj1 (t_live _ _ Ht id) Hlive) as (r & Hr & Hid & Hrun).
  rewrite (finish_ok now ended id r) in E; [|apply sorted_distinct, (t_sorted _ _ Ht)|done..].
  injection E as <- <- <- <-. split; cbn.
  - by eapply table_ok_finish.
  - apply waits_ok_map; [done|apply finish_at_identity|]. intros x. unfold finish_at. by destruct (_ =? _).
  - eapply log_ok_finish; [done..|]. by destruct (noticed _ _).
Qed.

Lemma inv_stop pick (sl' : bool) (e : Event) j rs ws ob l rows' cs' b :
  inv (mkSys j rs ws ob l) →
  (∀ r, pick r = true → e = EvCancelled (row_owner r) ∨ e = EvSealed) →
  (sl' = true → sealed j = true ∨ ∀ r, pick r = true) →
  (sl' = true ↔ EvSealed ∈ e :: l) → event_legal e l →
  (∀ id o, e ≠ EvAdmitted id o) → (∀ id oc ex t, e ≠ EvEnded id oc ex t) →
  stop_rows pick (rows j) (channels j) = (rows', cs', b) →
  inv (mkSys (set_table j rows' sl' cs') rs ws ob (e :: l)).
Proof.
  intros [Ht Hw Hl] Hpick Hsl Hse Hleg Hna Hne E. cbn in *.
  destruct (stop_logged pick sl' e j rs ws l Ht Hl Hpick Hsl rows' cs' b E) as (Hlen & -> & Hrows).
  set (g := fun r => if pick r && is_running r then set_stop Stop_Cancelled r else r) in *.
  assert (keeps_identity g) as Hg by (intros r; unfold g; by destruct (_ && _)).
  split; cbn.
  - eapply (table_ok_map g j); try done; [|apply Ht].
    intros r. unfold g. by destruct (pick r && is_running r).
  - apply waits_ok_map; [done|done|]. intros r. unfold g. by destruct (_ && _).
  - apply (log_ok_update g j _ rs ws ws l); try done.
    + apply sub_log_cons.
    + split; [done|apply Hl].
    + intros id o [?|?]%elem_of_cons; [by destruct (Hna id o)|done].
    + intros id [(oc & ex & t & ?)|?]%is_ended_cons; [by destruct (Hne id oc ex t)|done].
    + eapply List.Forall_impl; [|apply Hl]. intros w. apply call_ok_mono, sub_log_cons.
Qed.

Lemma inv_kill o id j j' rs ws ob l :
  inv (mkSys j rs ws ob l) → kill o id j = (Ok tt, j') →
  inv (mkSys j' rs ws ob (EvKilled o id :: l)).
Proof.
  intros [Ht Hw Hl] E. cbn in *.
  apply kill_spec in E as (r & Hr & Hid & Ho & Hrun & ->); [|apply sorted_distinct, Ht]. subst id.
  destruct (kill_logged o r j rs ws l Ht Hl Hr Ho Hrun) as [Hlen Hrows].
  set (g := fun x => if is_owned o (row_id r) x then set_stop Stop_Killed x else x) in *.
  assert (keeps_identity g) as Hg by (intros x; unfold g; by destruct (is_owned _ _ _)).
  pose proof (Forall_elem _ _ _ (l_rows _ _ _ _ Hl) Hr) as (Hadm & _).
  split; cbn.
  - eapply (table_ok_map g j); try done; [|apply Ht]. intros x. unfold g. by destruct (is_owned _ _ _).
  - apply waits_ok_map; [done|done|]. intros x. unfold g. by destruct (is_owned _ _ _).
  - apply (log_ok_update g j _ rs ws ws l); try done.
    + apply sub_log_cons.
    + split; [|apply Hl]. rewrite Ho in Hadm. split; [done|]. intros He.
      apply (l_ended _ _ _ _ Hl) in He as [He _]. apply He. apply (t_live _ _ Ht). by exists r.
    + cbn. rewrite (l_sealed _ _ _ _ Hl). split; [by constructor|]. by intros [?|?]%elem_of_cons.
    + by intros id' o' [?|?]%elem_of_cons.
    + by intros id' [(oc & ex & t & ?)|?]%is_ended_cons.
    + eapply List.Forall_impl; [|apply Hl]. intros w. apply call_ok_mono, sub_log_cons.
Qed.

Lemma inv_wait o ids answers held table j rs ws ob l :
  inv (mkSys j rs ws ob l) → wait_register o ids (rows j) = (answers, held, table) →
  Z.of_nat (Jobs.total_held ws + length ids) ≤ u64_max →
  inv (mkSys (set_rows j table) rs (mkWait o ids held answers None :: ws) ob l).
Proof.
  intros [Ht Hw Hl] E Hlen. cbn in *. pose proof (sorted_distinct _ (t_sorted _ _ Ht)) as Hd.
  destruct (waits_ok_register (rows j) ws o ids answers None Hw Hlen) as [Hb Hw'].
  rewrite wait_register_spec in E by done. injection E as <- <- <-.
  set (g := fun r => with_waiters r _). split; cbn.
  - eapply (table_ok_map g j); try done. apply Ht.
  - done.
  - apply (log_ok_waiters _ j rs ws); [done|]. constructor; [|apply Hl]. split_and!; [|done|]; cbn;
      apply Forall2_fmap_r, Forall_Forall2_diag, List.Forall_forall; intros id Hid; cbn.
    + destruct (found o (rows j) id) eqn:Ef; [|done]. apply found_true in Ef as (r & Hr & <- & <-).
      by destruct (Forall_elem _ _ _ (l_rows _ _ _ _ Hl) Hr) as (? & _).
    + destruct (found o (rows j) id) eqn:Ef; [|done]. intros _. by apply list_elem_of_In, List.filter_In.
Qed.

Lemma call_ok_zip j rs ws l o ids answers :
  table_ok j rs → log_ok j rs ws l → Forall2 (answer_ok l o) ids answers →
  Forall2 (answer_ok l o) ids (zip_with (answer_now o (rows j)) answers ids).
Proof.
  intros Ht Hl. induction 1 as [|id a ids answers Ha H IH]; cbn; constructor; [|done].
  destruct a as [x|]; [done|]. cbn [answer_now].
  destruct (find_first _ _) as [r|] eqn:Ef; [|done].
  apply find_first_Some in Ef as [Hr [Ei Eo]%is_owned_true].
  pose proof (Forall_elem _ _ _ (l_rows _ _ _ _ Hl) Hr) as (Hadm & _ & _ & Hst). rewrite Ei, Eo in Hadm.
  rewrite Ei in Hst. destruct (row_state r) as [|oc ex en]; [done|]. cbn. destruct Hst as (told & ?). eauto.
Qed.

Lemma inv_pass o ids held answers p answers' pending table j rs ws1 ws2 ob l :
  inv (mkSys j rs (ws1 ++ mkWait o ids held answers p :: ws2) ob l) →
  wait_pass o answers ids (rows j) = (answers', pending, table) →
  inv (mkSys (set_rows j table) rs (ws1 ++ mkWait o ids held answers' (Some pending) :: ws2) ob l).
Proof.
  intros [Ht Hw Hl] E. cbn in *. pose proof (sorted_distinct _ (t_sorted _ _ Ht)) as Hd.
  pose proof (l_calls _ _ _ _ Hl) as Hc. apply Forall_app in Hc as [Hc1 Hc2].
  apply List.Forall_cons_iff in Hc2 as [(Hca & _ & Hheld) Hc2]. cbn in Hca, Hheld.
  destruct (wait_pass_spec o answers ids (rows j) Hd) as (g & Hg & E').
  { by apply eq_sym, (Forall2_length _ _ _ Hca). }
  rewrite E' in E. injection E as <- <- <-. pose proof (mark_identity g Hg) as Hgi.
  split; cbn.
  - eapply (table_ok_map g j); try done; [|apply Ht]. intros r. unfold is_running. by rewrite (mark_state r (g r)).
  - apply waits_ok_map; [|done|].
    + apply (waits_ok_calls (rows j) (ws1 ++ mkWait o ids held answers p :: ws2)); [done|].
      apply Forall2_app; [by apply Forall_Forall2_diag, List.Forall_forall|].
      constructor; [done|]. by apply Forall_Forall2_diag, List.Forall_forall.
    + intros r. by destruct (Hg r) as [->|[_ ->]].
  - apply (log_ok_update g j _ rs (ws1 ++ mkWait o ids held answers p :: ws2) _ l); try done; try apply Hl.
    + intros r Hr (H1 & H2 & H3 & H4). destruct (Hg r) as [->|[Hne ->]]; [done|]. split_and!; [done..|].
      cbn. by destruct (row_state r).
    + apply Forall_app. split; [done|]. constructor; [|done]. split_and!; cbn.
      * by eapply call_ok_zip.
      * by intros [= ->].
      * clear -Hheld. induction Hheld as [|id a ids answers Ha H IH]; cbn; constructor; [|done].
        destruct a; [done|]. intros _. by apply Ha.
Qed.

Lemma inv_drop w j rs ws1 ws2 ob l :
  inv (mkSys j rs (ws1 ++ w :: ws2) ob l) →
  inv (mkSys (set_rows j (Waiters_drop (wc_owner w) (wc_held w) (rows j))) rs (ws1 ++ ws2) ob l).
Proof.
  intros [Ht Hw Hl]. cbn in *. pose proof (sorted_distinct _ (t_sorted _ _ Ht)) as Hd.
  destruct (waits_ok_drop (rows j) ws1 ws2 w Hd Hw) as [E Hw'].
  split; cbn; [|done|].
  - eapply (table_ok_map _ j); [done| | |exact E|done..|apply Ht]; by intros.
  - rewrite E. apply (log_ok_waiters _ j rs (ws1 ++ w :: ws2)); [done|].
    pose proof (l_calls _ _ _ _ Hl) as Hc. apply Forall_app in Hc as [Hc1 Hc2].
    apply List.Forall_cons_iff in Hc2 as [_ Hc2]. by apply Forall_app.
Qed.

Lemma inv_log_waited o ids held answers pending j rs ws ob l :
  inv (mkSys j rs ws ob l) → call_ok l (mkWait o ids held answers (Some pending)) →
  inv (mkSys j rs ws ob (EvWaited o ids (wait_results answers) pending :: l)).
Proof.
  intros [Ht Hw Hl] (Hc1 & Hc2 & _). cbn in *. split; [done|done|]. cbn.
  apply (log_ok_update id j j rs ws ws l); try done; rewrite ?list_fmap_id; try done.
  - apply sub_log_cons.
  - split; [|apply Hl]. cbn. unfold wait_results. apply Forall2_fmap_r.
    assert (pending = true ∨ existsb is_pending answers = false) as Hp by (destruct pending; auto).
    clear -Hc1 Hp. revert Hp. induction Hc1 as [|id a ids answers Ha H IH]; intros Hp; constructor.
    + destruct a as [[[e|]|x]|]; cbn in *; try done.
      * by destruct Ha.
      * destruct Hp as [->|?]; done.
    + apply IH. destruct Hp as [?|Hp]; [by left|]. cbn in Hp. apply orb_false_iff in Hp as [_ ?]. by right.
  - rewrite (l_sealed _ _ _ _ Hl). split; [by constructor|]. by intros [?|?]%elem_of_cons.
  - by intros id' o' [?|?]%elem_of_cons.
  - by intros id' [(oc & ex & t & ?)|?]%is_ended_cons.
  - intros r _. apply row_logged_mono, sub_log_cons.
  - eapply List.Forall_impl; [|apply Hl]. intros w. apply call_ok_mono, sub_log_cons.
Qed.

Lemma set_rows_same (j : Jobs) : set_rows j (rows j) = j.
Proof. by destruct j. Qed.

Lemma sys_step_inv (s s' : Sys) : sys_step s s' → inv s → inv s'.
Proof.
  intros H Hi.
  destruct H as [now owner text o t o' t' id handle j j' rs ws ob l E Hlt
    |now owner text o t o' t' e j j' rs ws ob l E
    |now ended rs1 run rs2 run' done notice j j' ws ob l E
    |closed j rs ws ob1 n ob2 l|j j' rs ws ob l E|j n ns rs ws ob l E|owner id j j' rs ws ob l E
    |owner id e j j' rs ws ob l E|request stopped j j' rs ws ob l E|j rs ws ob l
    |owner ids answers held table j rs ws ob l E Hlen
    |owner ids held answers p answers' pending table j rs ws1 ws2 ob l E
    |owner ids held answers pending j rs ws1 ws2 ob l|w j rs ws1 ws2 ob l].
  - destruct Hi as [Ht Hw Hl]. cbn in *.
    apply admit_ok in E as (Hs & Hav & -> & -> & kept & Hroom & ->).
    split; cbn; [by apply table_ok_admit| |by apply log_ok_admit].
    apply waits_ok_admit; [apply Ht..|done|done].
  - by apply admit_refused in E as ->.
  - by eapply inv_finish.
  - destruct Hi as [Ht Hw Hl]. cbn in *. unfold send_notice.
    destruct (closed || _) eqn:Ec; [done|]. apply orb_false_iff in Ec as [_ Ec%Z.leb_gt].
    split; cbn; [|done|by eapply log_ok_same].
    eapply (table_ok_same j); try done. cbn. rewrite length_app. cbn. lia.
  - destruct Hi as [Ht Hw Hl]. unfold take_notices in E. cbn in *. destruct (receiver j); [|done].
    injection E as <-. split; cbn; [|done|by eapply log_ok_same].
    eapply (table_ok_same j); try done. apply Ht.
  - destruct Hi as [Ht Hw Hl]. cbn in *. split; cbn; [|done|by eapply log_ok_same].
    eapply (table_ok_same j); try done. cbn. pose proof (t_notices _ _ Ht) as Hn. rewrite E in Hn. cbn in Hn. lia.
  - by eapply inv_kill.
  - by apply kill_refused in E as ->.
  - unfold cancel_owner in E. destruct (stop_rows _ _ _) as [[rows' cs'] b] eqn:Es.
    injection E as <- <-. eapply inv_stop; [done| |by left|..|exact Es]; try done.
    + intros r Hp. left. f_equal. rewrite !andb_true_iff, !str_eqb_eq in Hp.
      destruct request, (row_owner r). cbn in *. by destruct Hp as [[-> ->] ->].
    + destruct Hi as [_ _ Hl]. cbn in Hl. rewrite (l_sealed _ _ _ _ Hl).
      split; [by constructor|]. by intros [?|?]%elem_of_cons.
  - unfold seal. destruct (stop_rows _ _ _) as [[rows' cs'] b] eqn:Es.
    eapply inv_stop; [done|by right|by right|..|exact Es]; try done. split; [constructor|done].
  - by eapply inv_wait.
  - by eapply inv_pass.
  - assert (call_ok l (mkWait owner ids held answers (Some pending))) as Hc.
    { destruct Hi as [_ _ Hl]. pose proof (l_calls _ _ _ _ Hl) as Hc. cbn in Hc.
      apply Forall_app in Hc as [_ Hc]. by apply List.Forall_cons_iff in Hc as [Hc _]. }
    apply (inv_log_waited _ _ held); [|done]. by apply (inv_drop (mkWait owner ids held answers (Some pending))).
  - by apply inv_drop.
Qed.

(** A gateway that starts. *)
Definition starts (m : Z) (s : Sys) : Prop :=
  ∃ j, Jobs_new m = Some j ∧ s = mkSys j [] [] [] [].

Definition reachable (m : Z) (s : Sys) : Prop := ∃ s0, starts m s0 ∧ rtc sys_step s0 s.

Lemma starts_inv (m : Z) (s : Sys) : 0 ≤ m → starts m s → inv s ∧ maximum (jobs s) = m.
Proof.
  intros Hm (j & E & ->). unfold Jobs_new in E. destruct (_ || _); [done|]. injection E as <-.
  split; [|done]. split; cbn.
  - split; cbn; try done; try lia; try constructor.
    all: try (unfold running_count; cbn; lia). all: try (unfold u64_max; lia).
    + by intros ?%not_elem_of_nil.
    + by intros (r & ?%not_elem_of_nil & _).
  - split; cbn; [constructor..|unfold u64_max; lia].
  - split; cbn; [done| | | |constructor..].
    + split; [done|]. by intros ?%not_elem_of_nil.
    + by intros ? ? ?%not_elem_of_nil.
    + by intros ? (oc & ex & t & ?%not_elem_of_nil).
Qed.

Lemma step_maximum (s s' : Sys) : sys_step s s' → maximum (jobs s') = maximum (jobs s).
Proof.
  destruct 1 as [now owner text o t o' t' id handle j j' rs ws ob l E Hlt
    |now owner text o t o' t' e j j' rs ws ob l E
    |now ended rs1 run rs2 run' done notice j j' ws ob l E
    |closed j rs ws ob1 n ob2 l|j j' rs ws ob l E|j n ns rs ws ob l E|owner id j j' rs ws ob l E
    |owner id e j j' rs ws ob l E|request stopped j j' rs ws ob l E|j rs ws ob l
    |owner ids answers held table j rs ws ob l E Hlen
    |owner ids held answers p answers' pending table j rs ws1 ws2 ob l E
    |owner ids held answers pending j rs ws1 ws2 ob l|w j rs ws1 ws2 ob l]; cbn [jobs].
  - apply admit_ok in E as (_ & _ & _ & _ & kept & _ & ->). done.
  - by apply admit_refused in E as ->.
  - unfold finish_run, Jobs_finish in E. destruct (run_permit run); [|by injection E as <- <- <- <-].
    destruct (update_first _ _ _) as [rs' [[[[oc wd] tx] af]|]]; by injection E as <- <- <- <-.
  - unfold send_notice. by destruct (_ || _).
  - unfold take_notices in E. destruct (receiver j); by simplify_eq.
  - reflexivity.
  - unfold kill in E. by repeat case_match; simplify_eq.
  - by apply kill_refused in E as ->.
  - unfold cancel_owner in E. destruct (stop_rows _ _ _) as [[rows' cs'] b]. by injection E as <- <-.
  - unfold seal. by destruct (stop_rows _ _ _) as [[rows' cs'] b].
  - reflexivity.
  - reflexivity.
  - reflexivity.
  - reflexivity.
Qed.

Lemma reachable_inv (m : Z) (s : Sys) :
  0 ≤ m → reachable m s → inv s ∧ maximum (jobs s) = m.
Proof.
  intros Hm (s0 & Hs & Hr). eapply (rtc_ind_r (fun s => inv s ∧ maximum (jobs s) = m)); [| |exact Hr].
  - by apply starts_inv.
  - intros y z _ Hstep [Hi Hmax]. split; [by eapply sys_step_inv|]. by rewrite (step_maximum _ _ Hstep).
Qed.

(** ** Theorems *)

(** C3: whatever is started, ended, killed, cancelled, waited for and sealed in
    whatever order, the table holds at most [maximum] jobs, the permits that are
    out are exactly the jobs that run, these are the jobs whose threads have not
    ended, and no more than [maximum] notices wait to be read. *)
Theorem jobs_stay_within_maximum (m : Z) (s : Sys) :
  0 ≤ m → reachable m s →
  Z.of_nat (length (rows (jobs s))) ≤ m
  ∧ Z.of_nat (running_count (rows (jobs s))) = m - available (job_permits (jobs s))
  ∧ Z.of_nat (length (notices (jobs s))) ≤ m
  ∧ NoDup (row_id <$> rows (jobs s))
  ∧ ∀ id, mkJobRun id true ∈ runs s
      ↔ ∃ r, r ∈ rows (jobs s) ∧ row_id r = id ∧ row_state r = Running.
Proof.
  intros Hm Hr. destruct (reachable_inv m s Hm Hr) as [[Ht _ _] Hmax].
  pose proof (t_len _ _ Ht). pose proof (t_permits _ _ Ht). pose proof (t_notices _ _ Ht).
  rewrite Hmax in *. split_and!; [done|lia|done|apply sorted_distinct, Ht|apply Ht].
Qed.

(** C21: every history is legal. Identifiers only grow and nothing is admitted
    after the seal; a job ends once; it ends as killed only if its owner killed
    it before, and as cancelled only if its owner cancelled or the table was
    sealed; [kill] reaches only jobs of the same owner that run; and an answer
    to [wait] is the exit of a job of that owner that has ended, or an
    interruption only if the caller stopped waiting. *)
Theorem job_histories_are_legal (m : Z) (s : Sys) :
  0 ≤ m → reachable m s →
  legal (log s)
  ∧ ∀ id o, EvAdmitted id o ∈ log s → mkJobRun id true ∈ runs s ∨ is_ended id (log s).
Proof.
  intros Hm Hr. destruct (reachable_inv m s Hm Hr) as [[_ _ Hl] _].
  split; [apply Hl|]. intros id o H. by apply (l_admitted _ _ _ _ Hl id o).
Qed.

(** A job that was killed or cancelled has its signal set, and once the table
    is sealed so has every job that still runs. *)
Theorem stopped_jobs_are_signalled (m : Z) (s : Sys) (r : Row) :
  0 ≤ m → reachable m s → r ∈ rows (jobs s) → row_state r = Running →
  row_stop r ≠ None ∨ sealed (jobs s) = true →
  ∃ handle, row_cancel r = Some handle ∧ channels (jobs s) !! handle = Some true.
Proof.
  intros Hm Hr Hin Hrun Hstop. destruct (reachable_inv m s Hm Hr) as [[_ _ Hl] _].
  destruct (Forall_elem _ _ _ (l_rows _ _ _ _ Hl) Hin) as (_ & _ & _ & H). rewrite Hrun in H.
  destruct H as (Hc & Hch & Hse & _). exists (Z.to_nat (row_id r - 1)). split; [done|].
  rewrite Hch. assert (row_stop r ≠ None) as Hs by (destruct Hstop; [done|by apply Hse]).
  by destruct (row_stop r).
Qed.

(** A job that ends is told of, or waited for. When its thread ends, the
    notice is sent exactly when it was neither killed nor cancelled and no call
    of [wait] of its owner holds it; and a row that is held is in the table. *)
Theorem ended_jobs_are_told_or_waited_for (m : Z) (s : Sys) (id now : Z) (ended : Ended) :
  0 ≤ m → reachable m s → mkJobRun id true ∈ runs s →
  ∃ r oc waited notice j',
    r ∈ rows (jobs s) ∧ row_id r = id
    ∧ finish_run now ended (mkJobRun id true) (jobs s)
      = (Some (oc, waited), notice, mkJobRun id false, j')
    ∧ (waited = true ↔ ∃ w, w ∈ waits s ∧ id ∈ wc_held w ∧ wc_owner w = row_owner r)
    ∧ (notice ≠ None ↔ waited = false ∧ oc ≠ Outcome_Killed ∧ oc ≠ Outcome_Cancelled).
Proof.
  intros Hm Hr Hlive. destruct (reachable_inv m s Hm Hr) as [[Ht Hw Hl] _].
  destruct (proj1 (t_live _ _ Ht id) Hlive) as (r & Hin & Hid & Hrun).
  destruct (Forall_elem _ _ _ (l_rows _ _ _ _ Hl) Hin) as (_ & _ & _ & H). rewrite Hrun in H.
  destruct H as (_ & _ & _ & Hnw).
  unfold finish_run. cbn [run_permit run_id].
  rewrite (finish_ok now ended id r) by first [apply sorted_distinct, (t_sorted _ _ Ht)|done].
  eexists r, _, _, _, _. split_and!; [done|done|reflexivity| |].
  - rewrite Hnw. cbn [orb]. rewrite Z.ltb_lt, (Forall_elem _ _ _ (w_count _ _ Hw) Hin), waiting_pos, Hid.
    split; intros (w & ? & ? & ?); by exists w.
  - rewrite <- noticed_spec. by destruct (noticed _ _).
Qed.

(** A wait ends with the exits it waited for. Once the jobs a call holds have
    all ended, its next turn finds nothing pending and has an answer for every
    identifier it was given, and for each it holds the exit of that job. *)
Theorem wait_gets_every_exit (m : Z) (s : Sys) (w : WaitCall) :
  0 ≤ m → reachable m s → w ∈ waits s →
  Forall (fun id => is_ended id (log s)) (wc_held w) →
  ∃ answers table,
    wait_pass (wc_owner w) (wc_answers w) (wc_ids w) (rows (jobs s)) = (answers, false, table)
    ∧ Forall2 (fun id a => ∃ x, a = Some x ∧ answer_legal (wc_owner w) false (log s) id x) (wc_ids w) answers
    ∧ Forall2 (fun a0 a => a0 = None → ∃ e, a = Some (Ok (Exited e))) (wc_answers w) answers.
Proof.
  intros Hm Hr Hin Hended. destruct (reachable_inv m s Hm Hr) as [[Ht Hw Hl] _].
  pose proof (Forall_elem _ _ _ (l_calls _ _ _ _ Hl) Hin) as (Hc & _ & Hheld).
  pose proof (Forall_elem _ _ _ (w_held _ _ Hw) Hin) as Hrows. cbn in Hrows.
  pose proof (sorted_distinct _ (t_sorted _ _ Ht)) as Hd.
  destruct (wait_pass_spec (wc_owner w) (wc_answers w) (wc_ids w) (rows (jobs s)) Hd) as (g & Hg & ->).
  { by apply eq_sym, (Forall2_length _ _ _ Hc). }
  set (now := answer_now (wc_owner w) (rows (jobs s))).
  assert (∀ id, id ∈ wc_held w → ∃ e, now None id = Some (Ok (Exited e))) as Hnow.
  { intros id Hid. destruct (Forall_elem _ _ _ Hrows Hid) as (r & Hrin & Ei & Eo). unfold now. cbn.
    rewrite (find_first_unique id _ _ r Hd (is_owned_picks _ _) Hrin) by (by apply is_owned_true).
    destruct (row_state r) as [|oc e en] eqn:Est; [exfalso|eauto].
    pose proof (Forall_elem _ _ _ Hended Hid) as He. apply (l_ended _ _ _ _ Hl) in He as [He _].
    apply He, (t_live _ _ Ht). by exists r. }
  assert (Forall2 (fun a0 a => a0 = None → ∃ e, a = Some (Ok (Exited e))) (wc_answers w)
    (zip_with now (wc_answers w) (wc_ids w))) as Hex.
  { clear -Hheld Hnow. induction Hheld as [|id a ids answers Ha H IH]; cbn; constructor; [|done].
    intros ->. by apply Hnow, Ha. }
  assert (Forall2 (fun id a => ∃ x, a = Some x ∧ answer_legal (wc_owner w) false (log s) id x) (wc_ids w)
    (zip_with now (wc_answers w) (wc_ids w))) as Hall.
  { pose proof (call_ok_zip (jobs s) (runs s) (waits s) (log s) _ _ _ Ht Hl Hc) as Hz. fold now in Hz.
    clear -Hz Hex Hc. revert Hz Hex.
    induction Hc as [|id a ids answers Ha H IH]; cbn; intros Hz Hex; constructor;
      apply Forall2_cons_1 in Hz as [Hz1 Hz2]; apply Forall2_cons_1 in Hex as [Hex1 Hex2].
    - destruct a as [x|]; cbn in *; [eauto|]. destruct Hex1 as (e & E); [done|].
      unfold now in *. cbn in E. rewrite E in *. eauto.
    - by apply IH. }
  eexists _, _. split; [|done]. do 2 f_equal.
  apply existsb_false. clear -Hall. induction Hall as [|id a ids l (x & -> & _) H IH]; constructor; done.
Qed.

(** *** The text of a notice *)

Lemma floor_boundary_near (text : str) (i : nat) :
  Utf8 text → (i ≤ length text)%nat → (i < floor_boundary text i + 4)%nat.
Proof.
  intros Ht Hi. destruct (floor_boundary_spec text i Ht) as (Hb & Hle & Hmax).
  destruct (decide (floor_boundary text i = i)) as [->|Hne]; [lia|].
  destruct (boundary_next text _ Hb) as (c & Hc & _ & Hb' & _); [lia|].
  pose proof (char_ok_length c Hc). destruct (decide (floor_boundary text i + length c ≤ i)%nat); [|lia].
  specialize (Hmax _ Hb' ltac:(done)). lia.
Qed.

(** The text of a notice has at most [MAX_INBOUND_TEXT_BYTES] bytes. A short
    body is the text itself. Of a long one the beginning is kept, and of the
    words that say it was cut off at most the first three bytes: the second cut
    takes away the marker that the first one added. *)
Theorem notices_are_bounded (body : str) :
  str_ok body = true →
  (length (bound_notice body) ≤ MAX_INBOUND_TEXT_BYTES)%nat
  ∧ (bound_notice body = body
     ∨ (MAX_INBOUND_TEXT_BYTES < length body)%nat
       ∧ ∃ h, (MAX_INBOUND_TEXT_BYTES < h + 4)%nat ∧ (h ≤ MAX_INBOUND_TEXT_BYTES)%nat
         ∧ bound_notice body = take h body ++ take (MAX_INBOUND_TEXT_BYTES - h) truncation_notice).
Proof.
  intros Hok%str_ok_Utf8. unfold bound_notice.
  assert (length truncation_notice = 35%nat) as Hn by done.
  assert (Forall (fun b => 0 ≤ b < 128) truncation_notice) as Hascii.
  { assert (forallb (in_range 0 127) truncation_notice = true) as H%forallb_true by (by vm_compute).
    eapply List.Forall_impl; [|exact H]. unfold in_range. cbn. intros b ?. dk_bool. lia. }
  unfold bound_inbound. destruct (Nat.leb_spec (length body) MAX_INBOUND_TEXT_BYTES) as [Hle|Hgt].
  { rewrite (proj2 (Nat.ltb_ge _ _)) by done. auto. }
  destruct (floor_boundary_spec body MAX_INBOUND_TEXT_BYTES Hok) as (Hb & Hh & _).
  pose proof (floor_boundary_near body MAX_INBOUND_TEXT_BYTES Hok ltac:(lia)) as Hnear.
  set (h := floor_boundary body MAX_INBOUND_TEXT_BYTES) in *. rewrite slice_0.
  assert (length (take h body) = h) as Hlh by (rewrite length_take; lia).
  destruct (Nat.ltb_spec MAX_INBOUND_TEXT_BYTES (length (take h body ++ truncation_notice))) as [Hlong|Hshort].
  2:{ exfalso. rewrite length_app, Hlh, Hn in Hshort. lia. }
  assert (floor_boundary (take h body ++ truncation_notice) MAX_INBOUND_TEXT_BYTES
    = MAX_INBOUND_TEXT_BYTES) as ->.
  { assert (boundary (take h body ++ truncation_notice) MAX_INBOUND_TEXT_BYTES) as Hbm.
    { assert (Utf8 (take h body)) as Hu by (by destruct Hb as (_ & ? & _)).
      replace (take h body ++ truncation_notice)
        with ((take h body ++ take (MAX_INBOUND_TEXT_BYTES - h) truncation_notice)
              ++ drop (MAX_INBOUND_TEXT_BYTES - h) truncation_notice)
        by (rewrite <- (assoc (++)); by rewrite take_drop).
      replace MAX_INBOUND_TEXT_BYTES
        with (length (take h body ++ take (MAX_INBOUND_TEXT_BYTES - h) truncation_notice)) at 3
        by (rewrite length_app, Hlh, length_take, Hn; lia).
      apply boundary_app; [apply Utf8_app; [done|]|]; apply Utf8_ascii;
        [by apply Forall_take|by apply Forall_drop]. }
    destruct (floor_boundary_spec (take h body ++ truncation_notice) MAX_INBOUND_TEXT_BYTES) as (_ & Hle & Hmax).
    - apply Utf8_app; [by destruct Hb as (_ & ? & _)|by apply Utf8_ascii].
    - specialize (Hmax _ Hbm ltac:(lia)). lia. }
  split; [rewrite length_take; lia|]. right. split; [done|]. exists h. split_and!; [lia|done|].
  rewrite take_app_ge by lia. by rewrite Hlh.
Qed.

(** ** Witnesses *)

Definition alice : JobOwner := mkJobOwner (lit "slack") (lit "C1") (lit "alice").
Definition sample_jobs : Jobs := mkJobs [] 1 false (Semaphore_new 2) 2 [] true [].
Definition sample_row (state : RowState) (cancel : option nat) (stop : option Stop) (waiters : Z)
    (waited : bool) : Row :=
  mkRow 1 alice (lit "make") state 5 cancel stop waiters waited.
Definition sample_table (r : Row) (permits : Z) (ch : bool) : Jobs :=
  mkJobs [r] 2 false (mkSemaphore permits false) 2 [] true [ch].
Definition sample_call : WaitCall := mkWait alice [1] [1] [None] None.

(** Alice starts a job. *)
Definition sample_started : Sys :=
  mkSys (sample_table (sample_row Running (Some 0%nat) None 0 false) 1 false)
    [mkJobRun 1 true] [] [] [EvAdmitted 1 alice].
(** She waits for it. *)
Definition sample_waiting : Sys :=
  mkSys (sample_table (sample_row Running (Some 0%nat) None 1 false) 1 false)
    [mkJobRun 1 true] [sample_call] [] [EvAdmitted 1 alice].
(** It ends. *)
Definition sample_ended : Sys :=
  mkSys (sample_table (sample_row (Finished Outcome_Succeeded 0 9) None None 1 true) 2 false)
    [mkJobRun 1 false] [sample_call] [] [EvEnded 1 Outcome_Succeeded 0 false; EvAdmitted 1 alice].
(** Or she kills it. *)
Definition sample_killed : Sys :=
  mkSys (sample_table (sample_row Running (Some 0%nat) (Some Stop_Killed) 0 false) 1 true)
    [mkJobRun 1 true] [] [] [EvKilled alice 1; EvAdmitted 1 alice].

Lemma sample_started_reachable : reachable 2 sample_started.
Proof.
  exists (mkSys sample_jobs [] [] [] []). split; [by exists sample_jobs|]. apply rtc_once.
  eapply (js_admit 5 alice (lit "make") (Owner_new 4) (ThreadPool_new 4)); [vm_compute; reflexivity|].
  cbn. unfold u64_max. lia.
Qed.

Lemma reachable_step (m : Z) (s s' : Sys) : reachable m s → sys_step s s' → reachable m s'.
Proof. intros (s0 & H & Hr) Hs. exists s0. split; [done|]. by eapply rtc_r. Qed.

Lemma sample_waiting_reachable : reachable 2 sample_waiting.
Proof.
  eapply reachable_step; [apply sample_started_reachable|].
  apply (js_wait alice [1] [None] [1] [sample_row Running (Some 0%nat) None 1 false]
           (jobs sample_started)); [vm_compute; reflexivity|]. cbn. unfold u64_max. lia.
Qed.

Lemma sample_ended_reachable : reachable 2 sample_ended.
Proof.
  eapply reachable_step; [apply sample_waiting_reachable|].
  apply (js_finish 9 (mkEnded 0 [] (Ran false)) [] (mkJobRun 1 true) [] (mkJobRun 1 false)
           (Some (Outcome_Succeeded, true)) None (jobs sample_waiting) (jobs sample_ended) [sample_call] []).
  vm_compute. reflexivity.
Qed.

Lemma sample_killed_reachable : reachable 2 sample_killed.
Proof.
  eapply reachable_step; [apply sample_started_reachable|].
  apply (js_kill alice 1 (jobs sample_started)). vm_compute. reflexivity.
Qed.

Lemma jobs_stay_within_maximum_witness :
  Z.of_nat (running_count (rows (jobs sample_started))) = 2 - available (job_permits (jobs sample_started)).
Proof.
  pose proof (jobs_stay_within_maximum 2 sample_started ltac:(lia) sample_started_reachable) as (_ & H & _).
  exact H.
Defined.

Lemma job_histories_are_legal_witness : legal (log sample_ended).
Proof.
  exact (proj1 (job_histories_are_legal 2 sample_ended ltac:(lia) sample_ended_reachable)).
Defined.

Lemma stopped_jobs_are_signalled_witness :
  ∃ handle, channels (jobs sample_killed) !! handle = Some true.
Proof.
  destruct (stopped_jobs_are_signalled 2 sample_killed
    (sample_row Running (Some 0%nat) (Some Stop_Killed) 0 false)) as (h & _ & H);
    [lia|apply sample_killed_reachable|constructor|reflexivity|left; discriminate|].
  exists h. exact H.
Defined.

Lemma ended_jobs_are_told_or_waited_for_witness :
  ∃ oc notice j', finish_run 9 (mkEnded 0 [] (Ran false)) (mkJobRun 1 true) (jobs sample_waiting)
    = (Some (oc, true), notice, mkJobRun 1 false, j') ∧ notice = None.
Proof.
  destruct (ended_jobs_are_told_or_waited_for 2 sample_waiting 1 9 (mkEnded 0 [] (Ran false)))
    as (r & oc & waited & notice & j' & _ & _ & E & _ & _);
    [lia|apply sample_waiting_reachable|constructor|].
  assert (waited = true ∧ notice = None) as [-> ->] by (split; vm_compute in E; congruence).
  exists oc, None, j'. split; [exact E|reflexivity].
Defined.

Lemma wait_gets_every_exit_witness :
  ∃ answers table, wait_pass alice [None] [1] (rows (jobs sample_ended)) = (answers, false, table).
Proof.
  destruct (wait_gets_every_exit 2 sample_ended sample_call) as (answers & table & E & _);
    [lia|apply sample_ended_reachable|constructor| |exists answers, table; exact E].
  constructor; [|constructor]. exists Outcome_Succeeded, 0, false. constructor.
Defined.

Lemma notices_are_bounded_witness : (length (bound_notice (lit "done")) ≤ MAX_INBOUND_TEXT_BYTES)%nat.
Proof. apply (notices_are_bounded (lit "done")). vm_compute. reflexivity. Defined.
