(* ===== verification/Conversation.v ===== *)
(** * Conversations

    [dekopon-broker-protocol/src/conversation.rs]: the place a message came from,
    what a canonical one looks like on each chat transport, and the selectors
    that routes and policies match conversations with. [validate] refuses
    selectors that can match nothing. *)

From Stdlib Require Import ZArith Lia Ascii String.
From stdpp Require Import base strings list numbers.
From S2P Require Import Prelude RustStr Subject.

Inductive ChatTransportKind : Type :=
| Kind_Fauxlack | Kind_Slack | Kind_Discord | Kind_Telegram | Kind_Whatsapp | Kind_Github | Kind_Local.

Inductive ConversationKind : Type := DirectMessage | GroupDirectMessage | Channel | Thread.

Record Conversation : Type := mkConversation {
  conversation_kind : ConversationKind;
  container : option str;
  conversation_id : str;
  thread : option str;
}.

#[export] Instance ChatTransportKind_eq_dec : EqDecision ChatTransportKind.
Proof. solve_decision. Defined.
#[export] Instance ConversationKind_eq_dec : EqDecision ConversationKind.
Proof. solve_decision. Defined.
#[export] Instance Conversation_eq_dec : EqDecision Conversation.
Proof. solve_decision. Defined.

Definition conversation_key (c : Conversation) : str :=
  match thread c with
  | Some t => conversation_id c ++ lit ":" ++ t
  | None => conversation_id c
  end.

Definition api_channel (kind : ChatTransportKind) (c : Conversation) : str :=
  match kind, thread c with
  | Kind_Discord, Some thread => thread
  | _, _ => conversation_id c
  end.

(** ** Parts of a conversation *)

Definition lowercase_token (value : str) : bool :=
  negb (is_empty value) && forallb (fun b => is_ascii_lowercase b || is_ascii_digit b) value.

Definition lowercase_scope_value (value : str) : bool :=
  negb (is_empty value)
  && forallb (fun b => is_ascii_lowercase b || is_ascii_digit b
                       || ((b =? ch ".") || (b =? ch "-") || (b =? ch "_") || (b =? ch ":"))) value.

Definition bounded_scope_part (value : str) : bool :=
  negb (is_empty value) && (len value <=? 256) && is_trimmed value
  && negb (existsb is_ascii_control value) && negb (mem (ch "/") value || mem (ch "\") value).

Definition canonical_slack_timestamp (value : str) : bool :=
  is_some_and (split_once (ch ".") value) (fun '(seconds, fraction) =>
    (len seconds =? 10) && (len fraction =? 6) && negb (starts_with seconds (lit "0"))
    && forallb is_ascii_digit seconds && forallb is_ascii_digit fraction).

Definition canonical_unsigned_decimal (value : str) : bool :=
  is_some_and (parse_u64 value) (fun n => negb (n =? 0) && str_eqb (to_decimal n) value).

(** [str::parse::<i64>]: a sign, then digits, no overflow. *)
Definition parse_i64 (s : str) : option Z :=
  match s with
  | [] => None
  | c :: rest =>
      let digits := if (c =? ch "+") || (c =? ch "-") then rest else s in
      if is_empty digits then None
      else
        match parse_digits 0 digits with
        | None => None
        | Some n =>
            let n := if c =? ch "-" then - n else n in
            if (i64_min <=? n) && (n <=? i64_max) then Some n else None
        end
  end.

(** [to_string] of a signed number. *)
Definition signed_decimal (n : Z) : str := if n <? 0 then ch "-" :: to_decimal (- n) else to_decimal n.

Definition canonical_positive_service_decimal (value : str) : bool :=
  is_some_and (parse_i64 value) (fun n => (0 <? n) && str_eqb (signed_decimal n) value).
Definition canonical_negative_decimal (value : str) : bool :=
  is_some_and (parse_i64 value) (fun n => (n <? 0) && str_eqb (signed_decimal n) value).
Definition canonical_signed_decimal (value : str) : bool :=
  is_some_and (parse_i64 value) (fun n => negb (n =? 0) && str_eqb (signed_decimal n) value).

Definition canonical_meta_decimal (value : str) : bool :=
  negb (is_empty value) && (len value <=? 64) && negb (starts_with value (lit "0"))
  && forallb is_ascii_digit value.

Definition canonical_fauxlack_message (value : str) : bool :=
  is_some_and (strip_prefix value (lit "m")) canonical_unsigned_decimal.

(** Exactly two parts. *)
Definition canonical_whatsapp_container (value : str) : bool :=
  match split (ch ":") value with
  | [a; b] => canonical_meta_decimal a && canonical_meta_decimal b
  | _ => false
  end.

Definition canonical_github_id (value : str) : bool :=
  is_some_and (split_once (ch ".") value) (fun '(owner, repo) =>
    admits_tenant GithubRepo owner && admits_id GithubRepo repo).

(** [GithubThread::from_str]; [None] is an error, [Some None] the repository. *)
Definition GithubThread_from_str (value : str) : option (option Z) :=
  if str_eqb value (lit "repository") then Some None
  else if is_empty value || (19 <? len value) || starts_with value (lit "0")
          || negb (forallb is_ascii_digit value)
  then None
  else
    match parse_u64 value with
    | Some n => if negb (n =? 0) && (n <=? i64_max) then Some (Some n) else None
    | None => None
    end.

Definition is_bounded (c : Conversation) : bool :=
  bounded_scope_part (conversation_id c)
  && is_none_or (container c) bounded_scope_part && is_none_or (thread c) bounded_scope_part.

Definition produces (transport : ChatTransportKind) (kind : ConversationKind) : bool :=
  match transport, kind with
  | (Kind_Fauxlack | Kind_Slack | Kind_Local), _ => true
  | (Kind_Discord | Kind_Telegram), (DirectMessage | Channel | Thread) => true
  | Kind_Whatsapp, DirectMessage => true
  | Kind_Github, Thread => true
  | _, _ => false
  end.

Definition has_container (transport : ChatTransportKind) : bool :=
  match transport with Kind_Telegram => false | _ => true end.

Definition is_some {A : Type} (o : option A) : bool := match o with Some _ => true | None => false end.

#[export] Instance Namespace_eq_dec : EqDecision Namespace.
Proof. solve_decision. Defined.

Definition in_namespace (n : Namespace) (s : Subject) : bool := bool_decide (subject_namespace s = n).

Definition is_canonical_for (transport : ChatTransportKind) (s : Subject) (c : Conversation) : bool :=
  if negb (is_bounded c) || negb (produces transport (conversation_kind c)) then false
  else
    let id := conversation_id c in
    match transport with
    | Kind_Fauxlack =>
        in_namespace Fauxlack s && bool_decide (container c = tenant s) && lowercase_token id
        && match conversation_kind c with
           | DirectMessage | GroupDirectMessage => negb (is_some (thread c))
           | Channel | Thread => is_some_and (thread c) canonical_fauxlack_message
           end
    | Kind_Slack =>
        in_namespace Slack s && is_some_and (container c) lowercase_token && lowercase_token id
        && match conversation_kind c with
           | DirectMessage => is_none_or (thread c) canonical_slack_timestamp
           | _ => is_some_and (thread c) canonical_slack_timestamp
           end
    | Kind_Discord =>
        in_namespace Discord s && canonical_unsigned_decimal id
        && match conversation_kind c with
           | DirectMessage => negb (is_some (container c)) && negb (is_some (thread c))
           | Channel => is_some_and (container c) canonical_unsigned_decimal && negb (is_some (thread c))
           | Thread =>
               is_some_and (container c) canonical_unsigned_decimal
               && is_some_and (thread c) canonical_unsigned_decimal
           | GroupDirectMessage => false
           end
    | Kind_Telegram =>
        in_namespace Telegram s && negb (is_some (container c))
        && is_none_or (thread c) canonical_positive_service_decimal
        && match conversation_kind c with
           | DirectMessage => canonical_positive_service_decimal id && str_eqb id (subject_id s)
           | Channel => canonical_negative_decimal id
           | Thread => canonical_negative_decimal id && is_some (thread c)
           | GroupDirectMessage => false
           end
    | Kind_Whatsapp =>
        in_namespace Whatsapp s && bool_decide (conversation_kind c = DirectMessage)
        && is_some_and (container c) canonical_whatsapp_container && canonical_meta_decimal id
        && str_eqb id (subject_id s) && negb (is_some (thread c))
    | Kind_Github =>
        bool_decide (subject_kind s = GithubRepo) && bool_decide (conversation_kind c = Thread)
        && bool_decide (container c = tenant s)
        && str_eqb id (default [] (tenant s) ++ lit "." ++ subject_id s)
        && is_some_and (thread c) (fun value => is_some (GithubThread_from_str value))
    | Kind_Local =>
        is_none_or (container c) lowercase_scope_value && lowercase_scope_value id
        && negb (is_some (thread c))
    end.

(** ** Selectors *)

Inductive ConversationKindMatch : Type := AnyKind | Kinds (kinds : list ConversationKind).

Definition kind_contains (m : ConversationKindMatch) (kind : ConversationKind) : bool :=
  match m with
  | AnyKind => true
  | Kinds kinds => existsb (fun k => bool_decide (k = kind)) kinds
  end.

Record ConversationMatch : Type := mkMatch {
  match_kind : ConversationKindMatch;
  match_container : option str;
  match_ids : option (list str);
}.

Definition matches (m : ConversationMatch) (c : Conversation) : bool :=
  kind_contains (match_kind m) (conversation_kind c)
  && is_none_or (match_container m) (fun x => bool_decide (container c = Some x))
  && is_none_or (match_ids m) (fun ids => existsb (fun id => str_eqb id (conversation_id c)) ids).

Definition canonical_id_for (transport : ChatTransportKind) (value : str) : bool :=
  bounded_scope_part value
  && match transport with
     | Kind_Fauxlack | Kind_Slack => lowercase_token value
     | Kind_Discord => canonical_unsigned_decimal value
     | Kind_Telegram => canonical_signed_decimal value
     | Kind_Whatsapp => canonical_meta_decimal value
     | Kind_Github => canonical_github_id value
     | Kind_Local => lowercase_scope_value value
     end.

Definition canonical_container_for (transport : ChatTransportKind) (value : str) : bool :=
  bounded_scope_part value
  && match transport with
     | Kind_Fauxlack | Kind_Slack => lowercase_token value
     | Kind_Discord => canonical_unsigned_decimal value
     | Kind_Whatsapp => canonical_whatsapp_container value
     | Kind_Github => admits_tenant GithubRepo value
     | Kind_Local => lowercase_scope_value value
     | Kind_Telegram => false
     end.

Definition thread_form (transport : ChatTransportKind) (value : str) : bool :=
  negb (bool_decide (transport = Kind_Local))
  && is_some_and (split_once (ch ":") value) (fun '(parent, thread) =>
       negb (is_empty thread) && canonical_id_for transport parent).

Inductive ConversationMatchProblem : Type :=
| EmptyKindList
| DuplicateKind (kind : ConversationKind)
| ImpossibleKind (kind : ConversationKind) (transport : ChatTransportKind)
| EmptyIds
| ContainerNotSupported (transport : ChatTransportKind)
| NonCanonicalContainer (container : str)
| NonCanonicalId (id : str)
| ThreadFormId (id : str).

(** The loop over the kinds; [before] are those in front of them. *)
Fixpoint kind_problems (transport : ChatTransportKind) (before kinds : list ConversationKind)
    : list ConversationMatchProblem :=
  match kinds with
  | [] => []
  | kind :: kinds =>
      (if existsb (fun k => bool_decide (k = kind)) before then [DuplicateKind kind] else [])
      ++ (if produces transport kind then [] else [ImpossibleKind kind transport])
      ++ kind_problems transport (before ++ [kind]) kinds
  end.

Definition id_problems (transport : ChatTransportKind) (id : str) : list ConversationMatchProblem :=
  if thread_form transport id then [ThreadFormId id]
  else if canonical_id_for transport id then [] else [NonCanonicalId id].

Definition validate (transport : ChatTransportKind) (m : ConversationMatch) : list ConversationMatchProblem :=
  match match_kind m with
  | AnyKind => []
  | Kinds kinds => match kinds with [] => [EmptyKindList] | _ => [] end ++ kind_problems transport [] kinds
  end
  ++ match match_container m with
     | None => []
     | Some x =>
         if has_container transport
         then if canonical_container_for transport x then [] else [NonCanonicalContainer x]
         else [ContainerNotSupported transport]
     end
  ++ match match_ids m with
     | None => []
     | Some [] => [EmptyIds]
     | Some ids => concat (id_problems transport <$> ids)
     end.

(** ** Lemmas *)

Lemma field_bytes_no_colon (s : str) : Forall field_byte s → ch ":" ∉ s.
Proof. intros H. by apply field_bytes_clean in H as (? & _). Qed.

Lemma forallb_field_byte (p : Z → bool) (s : str) :
  (∀ b, p b = true → field_byte b) → forallb p s = true → Forall field_byte s.
Proof. intros Hp H%forallb_true. eapply List.Forall_impl; [|exact H]. exact Hp. Qed.

Lemma digit_field_byte (b : Z) : is_ascii_digit b = true → field_byte b.
Proof. intros Hb. unfold field_byte. rewrite Hb. by rewrite orb_true_r. Qed.

Lemma decimal_field_byte (n : Z) : 0 ≤ n → Forall field_byte (to_decimal n).
Proof.
  intros Hn. eapply List.Forall_impl; [|by apply to_decimal_digits]. exact digit_field_byte.
Qed.

Lemma parse_digits_nonneg (s : str) (acc n : Z) : 0 ≤ acc → parse_digits acc s = Some n → 0 ≤ n.
Proof.
  revert acc. induction s as [|c s IH]; intros acc Ha; cbn; [by intros [= <-]|].
  destruct (is_ascii_digit c) eqn:Ec; [|done]. destruct (_ <=? _); [|done]. apply IH.
  unfold is_ascii_digit, in_range in Ec. dk_bool. lia.
Qed.

Lemma signed_field_byte (n : Z) : Forall field_byte (signed_decimal n).
Proof.
  unfold signed_decimal. destruct (Z.ltb_spec n 0); [constructor; [done|]|]; apply decimal_field_byte; lia.
Qed.

Lemma is_some_and_true {A : Type} (o : option A) (p : A → bool) :
  is_some_and o p = true ↔ ∃ x, o = Some x ∧ p x = true.
Proof.
  destruct o as [x|]; cbn; split.
  - by exists x.
  - by intros (y & [= ->] & ?).
  - done.
  - by intros (y & ? & ?).
Qed.

Lemma canonical_signed_of (value : str) :
  canonical_positive_service_decimal value = true ∨ canonical_negative_decimal value = true →
  canonical_signed_decimal value = true.
Proof.
  unfold canonical_positive_service_decimal, canonical_negative_decimal, canonical_signed_decimal.
  destruct (parse_i64 value) as [n|]; cbn; [|by intros [?|?]].
  intros [[Hn ->]%andb_true_iff|[Hn ->]%andb_true_iff]; rewrite andb_true_r; apply negb_true_iff, Z.eqb_neq; lia.
Qed.

(** The identifier of a canonical conversation is one a selector may name. *)
Lemma canonical_id (transport : ChatTransportKind) (s : Subject) (c : Conversation) :
  subject_ok s → is_canonical_for transport s c = true →
  canonical_id_for transport (conversation_id c) = true
  ∧ (transport ≠ Kind_Local → Forall field_byte (conversation_id c)).
Proof.
  intros (Ht & Hi & _) H. unfold is_canonical_for in H. destruct (_ || _) eqn:Hb; [done|].
  apply orb_false_iff in Hb as [Hb%negb_false_iff _]. unfold is_bounded in Hb.
  apply andb_true_iff in Hb as [[Hb _]%andb_true_iff _]. unfold canonical_id_for. rewrite Hb. cbn [andb].
  assert (∀ v, canonical_unsigned_decimal v = true → Forall field_byte v) as Hu.
  { unfold canonical_unsigned_decimal. intros v (n & E & [_ <-%str_eqb_eq]%andb_true_iff)%is_some_and_true.
    apply decimal_field_byte. by apply parse_u64_range in E as [? _]. }
  assert (∀ v, canonical_signed_decimal v = true → Forall field_byte v) as Hs.
  { unfold canonical_signed_decimal. intros v (n & _ & [_ <-%str_eqb_eq]%andb_true_iff)%is_some_and_true.
    apply signed_field_byte. }
  assert (∀ v, lowercase_token v = true → Forall field_byte v) as Hl.
  { unfold lowercase_token. intros v [_ H']%andb_true_iff. eapply forallb_field_byte; [|exact H'].
    intros b Hb'. unfold field_byte. by rewrite Hb'. }
  destruct transport; repeat (apply andb_true_iff in H as [H ?]); try (split; [done|by auto]).
  - assert (canonical_signed_decimal (conversation_id c) = true); [|by auto].
    apply canonical_signed_of. destruct (conversation_kind c); rewrite ?andb_true_iff in *; intuition done.
  - split; [done|]. intros _. rename select (canonical_meta_decimal _ = true) into Hm.
    apply andb_true_iff in Hm as [_ Hm]. eapply forallb_field_byte; [exact digit_field_byte|exact Hm].
  - apply bool_decide_eq_true in H. unfold admits_tenant, admits_id in Ht, Hi. rewrite H in Ht, Hi.
    rename select (str_eqb (conversation_id c) _ = true) into E. apply str_eqb_eq in E as ->.
    assert (default [] (tenant s) = subject_tenant s) as -> by (unfold tenant; by destruct (subject_tenant s)).
    split; [|intros _; repeat (apply Forall_app; split);
      [by eapply Field_admits_bytes|by repeat constructor|by eapply Field_admits_bytes]].
    unfold canonical_github_id. change (lit ".") with [46]. cbn [app].
    rewrite (proj2 (split_once_Some (ch ".") _ (subject_tenant s) (subject_id s))).
    + unfold is_some_and. apply andb_true_iff. by split.
    + split; [done|]. intros Hin. cbn [tenant_rule Field_admits] in Ht.
      apply andb_true_iff in Ht as [_ Ht%forallb_true]. apply (Forall_elem _ _ _ Ht) in Hin. by vm_compute in Hin.
Qed.

Lemma canonical_container (transport : ChatTransportKind) (s : Subject) (c : Conversation) (x : str) :
  subject_ok s → is_canonical_for transport s c = true → container c = Some x →
  has_container transport = true ∧ canonical_container_for transport x = true.
Proof.
  intros (Ht & Hi & _) H Hx. unfold is_canonical_for in H. destruct (_ || _) eqn:Hb; [done|].
  apply orb_false_iff in Hb as [Hb%negb_false_iff _]. unfold is_bounded in Hb.
  apply andb_true_iff in Hb as [[_ Hb]%andb_true_iff _]. rewrite Hx in *. cbn in Hb.
  unfold canonical_container_for. rewrite Hb. cbn [andb].
  destruct transport; repeat (apply andb_true_iff in H as [H ?]); cbn in *; try done.
  - apply bool_decide_eq_true in H. split; [done|].
    rename select (bool_decide (Some x = tenant s) = true) into E. apply bool_decide_eq_true in E.
    unfold tenant in E. destruct (subject_tenant s) as [|b t] eqn:Es; [done|]. injection E as ->.
    unfold subject_namespace, SubjectKind_namespace in H. unfold admits_tenant in Ht.
    destruct (subject_kind s); try done; cbn in Ht; by apply andb_true_iff in Ht as [_ Ht].
  - destruct (conversation_kind c); cbn in *; rewrite ?andb_true_iff in *; intuition done.
  - rename select (bool_decide (Some x = tenant s) = true) into E. apply bool_decide_eq_true in E, H.
    rewrite H in Ht. split; [done|]. unfold tenant in E. destruct (subject_tenant s); [done|]. by injection E as ->.
  - split; [done|]. by apply andb_true_iff.
Qed.

Lemma kind_problems_single (transport : ChatTransportKind) (kind : ConversationKind) :
  produces transport kind = true → kind_problems transport [] [kind] = [].
Proof. intros H. cbn. by rewrite H. Qed.

Lemma canonical_produces (transport : ChatTransportKind) (s : Subject) (c : Conversation) :
  is_canonical_for transport s c = true → produces transport (conversation_kind c) = true.
Proof.
  unfold is_canonical_for. destruct (_ || _) eqn:Hb; [done|].
  by apply orb_false_iff in Hb as [_ Hb%negb_false_iff].
Qed.

Lemma canonical_id_no_problem (transport : ChatTransportKind) (s : Subject) (c : Conversation) :
  subject_ok s → is_canonical_for transport s c = true → id_problems transport (conversation_id c) = [].
Proof.
  intros Hs H. destruct (canonical_id transport s c Hs H) as [Hc Hf]. unfold id_problems.
  rewrite Hc. destruct (thread_form _ _) eqn:Et; [|done]. unfold thread_form in Et.
  apply andb_true_iff in Et as [Hl%negb_true_iff Et]. apply bool_decide_eq_false in Hl.
  apply is_some_and_true in Et as ([a b] & [E _]%split_once_Some & _).
  destruct (field_bytes_no_colon _ (Hf Hl)). rewrite E. apply elem_of_app. right. constructor.
Qed.

Lemma kind_problems_elem (transport : ChatTransportKind) (before kinds : list ConversationKind)
    (p : ConversationMatchProblem) :
  p ∈ kind_problems transport before kinds →
  (∃ kind, p = DuplicateKind kind) ∨ ∃ kind, p = ImpossibleKind kind transport ∧ produces transport kind = false.
Proof.
  revert before. induction kinds as [|k kinds IH]; intros before; cbn [kind_problems].
  { by intros ?%not_elem_of_nil. }
  rewrite !elem_of_app. intros [H|[H|H]]; [| |by eapply IH].
  - destruct (existsb _ _); [|by apply not_elem_of_nil in H]. apply list_elem_of_singleton in H as ->. eauto.
  - destruct (produces transport k) eqn:E; [by apply not_elem_of_nil in H|].
    apply list_elem_of_singleton in H as ->. eauto.
Qed.

(** The selector that names one conversation. *)
Definition selector_of (c : Conversation) : ConversationMatch :=
  mkMatch (Kinds [conversation_kind c]) (container c) (Some [conversation_id c]).

(** The checks of selectors refuse nothing that is of use. The selector that
    names a canonical conversation by its kind, container and identifier has no
    problem and matches it; and when a selector matches a canonical conversation,
    the problems found in it are kinds listed twice, or kinds and identifiers
    other than those of the conversation. *)
Theorem selectors_refuse_only_the_impossible (transport : ChatTransportKind) (s : Subject) (c : Conversation) :
  subject_ok s → is_canonical_for transport s c = true →
  validate transport (selector_of c) = [] ∧ matches (selector_of c) c = true
  ∧ ∀ m, matches m c = true →
      Forall (fun p => match p with
        | DuplicateKind _ => True
        | ImpossibleKind kind _ => kind ≠ conversation_kind c
        | NonCanonicalId id | ThreadFormId id => id ≠ conversation_id c
        | EmptyKindList | EmptyIds | ContainerNotSupported _ | NonCanonicalContainer _ => False
        end) (validate transport m).
Proof.
  intros Hs H. pose proof (canonical_produces _ _ _ H) as Hp.
  pose proof (canonical_id_no_problem _ _ _ Hs H) as Hid.
  assert (∀ x, container c = Some x →
    (if has_container transport
     then if canonical_container_for transport x then [] else [NonCanonicalContainer x]
     else [ContainerNotSupported transport]) = []) as Hco.
  { intros x Hx. by destruct (canonical_container _ _ _ _ Hs H Hx) as [-> ->]. }
  split_and!.
  - unfold validate, selector_of. cbn [match_kind match_container match_ids].
    rewrite kind_problems_single by done. cbn. rewrite Hid. cbn. rewrite app_nil_r.
    destruct (container c) as [x|]; [by apply Hco|done].
  - unfold matches, selector_of. cbn. rewrite bool_decide_eq_true_2 by done. cbn.
    assert (str_eqb (conversation_id c) (conversation_id c) = true) as -> by (by apply str_eqb_eq).
    rewrite andb_true_r. destruct (container c); cbn; [by apply bool_decide_eq_true|done].
  - intros m Hm. unfold matches in Hm. apply andb_true_iff in Hm as [[Hk Hc]%andb_true_iff Hi].
    apply List.Forall_forall. intros p Hin%list_elem_of_In. unfold validate in Hin.
    rewrite !elem_of_app in Hin. destruct Hin as [Hin|[Hin|Hin]].
    + destruct (match_kind m) as [|[|k ks]]; [by apply not_elem_of_nil in Hin|done|].
      apply kind_problems_elem in Hin as [(kind & ->)|(kind & -> & E)]; [done|]. congruence.
    + destruct (match_container m) as [x|]; [|by apply not_elem_of_nil in Hin].
      cbn in Hc. apply bool_decide_eq_true in Hc. rewrite Hco in Hin by done. by apply not_elem_of_nil in Hin.
    + destruct (match_ids m) as [[|i ids]|]; [done| |by apply not_elem_of_nil in Hin].
      apply list_elem_of_In, in_concat in Hin as (l & (i' & <- & _)%in_map_iff & Hin).
      destruct (decide (conversation_id c = i')) as [<-|Hne]; [by rewrite Hid in Hin|].
      unfold id_problems in Hin. destruct (thread_form transport i'); [by destruct Hin as [<-|[]]; apply not_eq_sym|].
      destruct (canonical_id_for transport i'); [done|]. by destruct Hin as [<-|[]]; apply not_eq_sym.
Qed.

Lemma canonical_local_thread (s : Subject) (c : Conversation) :
  is_canonical_for Kind_Local s c = true → thread c = None.
Proof.
  unfold is_canonical_for. destruct (_ || _); [done|]. intros [_ H]%andb_true_iff. by destruct (thread c).
Qed.

(** The key of a conversation stands for it: on one transport, canonical
    conversations with the same key have the same identifier and thread, whoever
    speaks in them. *)
Theorem conversation_keys_are_unique (transport : ChatTransportKind) (s s' : Subject) (c c' : Conversation) :
  subject_ok s → subject_ok s' →
  is_canonical_for transport s c = true → is_canonical_for transport s' c' = true →
  conversation_key c = conversation_key c' →
  conversation_id c = conversation_id c' ∧ thread c = thread c'.
Proof.
  intros Hs Hs' H H' E. destruct (decide (transport = Kind_Local)) as [->|Hl].
  { unfold conversation_key in E. apply canonical_local_thread in H, H'. rewrite H, H' in *. done. }
  pose proof (field_bytes_no_colon _ (proj2 (canonical_id _ _ _ Hs H) Hl)) as Hn.
  pose proof (field_bytes_no_colon _ (proj2 (canonical_id _ _ _ Hs' H') Hl)) as Hn'.
  assert (∀ d, ch ":" ∉ conversation_id d →
    split_once (ch ":") (conversation_key d) = (fun t => (conversation_id d, t)) <$> thread d) as Hkey.
  { intros d Hd. unfold conversation_key. destruct (thread d) as [t|]; cbn [fmap option_fmap option_map].
    - by apply split_once_Some.
    - destruct (split_once _ _) as [[a b]|] eqn:Ex; [|done]. apply split_once_Some in Ex as [Ex _].
      destruct Hd. rewrite Ex. apply elem_of_app. right. constructor. }
  pose proof (Hkey c Hn) as K. pose proof (Hkey c' Hn') as K'. rewrite E, K' in K.
  unfold conversation_key in E. destruct (thread c), (thread c'); cbn in K; try done. by injection K as -> ->.
Qed.

(** ** Witnesses *)

Definition sample_channel : Conversation :=
  mkConversation Channel (Some (lit "t1")) (lit "c1") (Some (lit "1700000000.000100")).

Lemma demo_user_ok : subject_ok demo_user.
Proof. repeat split; vm_compute; done. Qed.

Lemma selectors_refuse_only_the_impossible_witness :
  is_canonical_for Kind_Slack demo_user sample_channel = true
  ∧ validate Kind_Slack (selector_of sample_channel) = [] ∧ matches (selector_of sample_channel) sample_channel = true.
Proof.
  split; [vm_compute; reflexivity|].
  destruct (selectors_refuse_only_the_impossible Kind_Slack demo_user sample_channel demo_user_ok)
    as (H1 & H2 & _); [vm_compute; reflexivity|]. by split.
Defined.

Lemma conversation_keys_are_unique_witness :
  let other := mkConversation Thread (Some (lit "t1")) (lit "c1") (Some (lit "1700000000.000100")) in
  conversation_key sample_channel = conversation_key other
  ∧ conversation_id sample_channel = conversation_id other ∧ thread sample_channel = thread other.
Proof.
  split; [reflexivity|].
  apply (conversation_keys_are_unique Kind_Slack demo_user demo_user);
    [exact demo_user_ok|exact demo_user_ok|vm_compute; reflexivity..].
Defined.

(** A selector without problems may still match nothing: a direct message on
    Discord has no container. *)
Example discord_selector_matches_nothing :
  let m := mkMatch (Kinds [DirectMessage]) (Some (lit "7")) None in
  validate Kind_Discord m = []
  ∧ ∀ s c, is_canonical_for Kind_Discord s c = true → matches m c = false.
Proof.
  split; [vm_compute; reflexivity|]. intros s c H. unfold matches. cbn.
  destruct (conversation_kind c) eqn:Ek; try done. unfold is_canonical_for in H. rewrite Ek in H.
  destruct (_ || _); [done|]. destruct (container c); [|by rewrite andb_false_r].
  cbn in H. by rewrite !andb_false_r in H.
Qed.
