(* ===== verification/Collector.v ===== *)
(** * Collecting the messages of a burst

    [dekopon-gatewayd/src/collection.rs]: photos and captions that arrive one
    by one are held for a while and given to the agent as one message. A
    [Collector] holds batches; [offer] adds a message to a batch, starts one,
    lets the message through or refuses it; [take_due_routed] hands over the
    batches whose time has come.

    The span of a receipt is a number; the assets of a message and the fields
    the collector does not read are of any type. [CollectorSafety] has the
    invariant and the theorems. *)

From Stdlib Require Import ZArith Lia Ascii String.
From stdpp Require Import base strings list numbers.
From S2P Require Import Prelude RustStr Subject Conversation ProcessTree MessageText.

Definition MAX_ENVELOPES : nat := 8.
Definition MAX_ASSETS_PER_MESSAGE : nat := 32.
Definition TELEGRAM_GROUP_WINDOW : Z := dur_from_secs 3.

Inductive ReplyTarget : Type :=
| Reply_Fauxlack (server container : str) (thread : option str)
| Reply_Slack (channel : str) (thread_ts : option str)
| Reply_Discord (channel_id : str) (reply_to : option str)
| Reply_Telegram (chat_id : Z) (reply_to message_thread_id : option Z)
| Reply_WhatsApp (recipient : str)
| Reply_GithubTrace
| Reply_Local (connection : Z).

#[export] Instance ReplyTarget_eq_dec : EqDecision ReplyTarget.
Proof. solve_decision. Defined.
#[export] Instance AttestedSubject_eq_dec : EqDecision AttestedSubject.
Proof. solve_decision. Defined.

(** The configuration of a transport, as far as the collector reads it. *)
Inductive TransportConfig : Type :=
| WhatsappCloudApi (name : str) (debounce_ms debounce_max_wait_ms : Z)
| OtherTransport.

Record CollectionWindow : Type := mkWindow {
  quiet : Z;
  max_wait : Z;
}.

Inductive InputRefusal : Type := Unsupported.

Definition InputRefusal_reason (r : InputRefusal) : str :=
  match r with Unsupported => lit "unsupported-message" end.

Section Collector.
(** Assets, and the fields of a message the collector does not read. *)
Context {A X : Type}.

Record InboundMessage : Type := mkMessage {
  msg_transport : str;
  msg_kind : ChatTransportKind;
  msg_subject : AttestedSubject;
  msg_conversation : Conversation;
  msg_reply : ReplyTarget;
  msg_text : str;
  msg_assets : list A;
  asset_overflow : bool;
  input_refusal : option InputRefusal;
  native_group : option str;
  received_at : Z;
  receipt : Z;
  constituents : list Z;
  msg_rest : X;
}.

Record Batch : Type := mkBatch {
  batch_route : str;
  batch_deadline : Z;
  hard_deadline : Z;
  members : list InboundMessage;
}.

Record Collector : Type := mkCollector {
  windows : list (str * CollectionWindow);
  capacity : nat;
  batches : list Batch;
}.

Definition Collector_new (transports : list TransportConfig) (capacity : nat) : Collector :=
  mkCollector
    (foldl (fun m t =>
       match t with
       | WhatsappCloudApi name debounce_ms debounce_max_wait_ms =>
           bt_insert name (mkWindow (dur_from_millis debounce_ms) (dur_from_millis debounce_max_wait_ms)) m
       | OtherTransport => m
       end) [] transports)
    capacity [].

(** The earliest deadline. *)
Definition Collector_deadline (c : Collector) : option Z :=
  match batch_deadline <$> batches c with
  | [] => None
  | d :: ds => Some (foldl Z.min d ds)
  end.

Definition audience (reply : ReplyTarget) : ReplyTarget :=
  match reply with
  | Reply_Telegram chat_id _ message_thread_id => Reply_Telegram chat_id None message_thread_id
  | other => other
  end.

Definition compatible (left right : InboundMessage) : bool :=
  bool_decide (msg_subject left = msg_subject right)
  && str_eqb (msg_transport left) (msg_transport right)
  && bool_decide (msg_kind left = msg_kind right)
  && bool_decide (msg_conversation left = msg_conversation right)
  && bool_decide (audience (msg_reply left) = audience (msg_reply right)).

(** [batch.members[0]]: a batch is never empty. *)
Definition lead (b : Batch) : option InboundMessage := head (members b).

Definition lead_is (p : InboundMessage → bool) (b : Batch) : bool := is_some_and (lead b) p.

(** [now i] is the clock when the [i]-th batch is looked at. *)
Fixpoint any_batch (p : nat → Batch → bool) (i : nat) (bs : list Batch) : bool :=
  match bs with [] => false | b :: bs => p i b || any_batch p (S i) bs end.

Definition is_native_continuation (now : nat → Z) (route : str) (message : InboundMessage)
    (c : Collector) : bool :=
  bool_decide (msg_kind message = Kind_Telegram)
  && match native_group message with Some _ => true | None => false end
  && any_batch (fun i b =>
       str_eqb (batch_route b) route && (now i <? batch_deadline b)
       && lead_is (fun m => compatible m message) b
       && lead_is (fun m => bool_decide (native_group m = native_group message)) b) 0 (batches c).

(** ** The text of a batch *)

Definition header (index : nat) (member : InboundMessage) : str :=
  lit "[Input " ++ to_decimal (Z.of_nat (S index)) ++ lit "; "
  ++ to_decimal (Z.of_nat (length (msg_assets member))) ++ lit " attachments; caption "
  ++ (if is_empty (msg_text member) then lit "absent" else lit "present") ++ lit "]" ++ [10].

Fixpoint combined_text_from (index : nat) (ms : list InboundMessage) : str :=
  match ms with
  | [] => []
  | m :: ms => header index m ++ msg_text m ++ [10] ++ combined_text_from (S index) ms
  end.
Definition combined_text (ms : list InboundMessage) : str := combined_text_from 0 ms.

Definition total_assets (ms : list InboundMessage) : nat :=
  foldr (fun m n => length (msg_assets m) + n)%nat O ms.

(** ** Offering a message *)

Inductive Offered : Type :=
| Pending
| Immediate (message : InboundMessage)
| Refused (message : InboundMessage) (reason : str).

(** [Instant::checked_add]. *)
Definition instant_add (at_ duration : Z) : option Z :=
  if at_ + duration <=? Instant_max then Some (at_ + duration) else None.

Definition window_of (c : Collector) (message : InboundMessage) : option CollectionWindow :=
  match msg_kind message with
  | Kind_Whatsapp =>
      match bt_get (msg_transport message) (windows c) with
      | Some w => if quiet w =? 0 then None else Some w
      | None => None
      end
  | Kind_Telegram =>
      match native_group message with
      | Some _ => Some (mkWindow TELEGRAM_GROUP_WINDOW TELEGRAM_GROUP_WINDOW)
      | None => None
      end
  | _ => None
  end.

(** A message for a batch that is there: the batch after it, or why not. *)
Definition join_batch (window : CollectionWindow) (message : InboundMessage) (b : Batch)
    : result str Batch :=
  if negb (lead_is (fun m => bool_decide (native_group m = native_group message)) b)
  then Err (lit "incompatible-group")
  else if (length (members b) =? MAX_ENVELOPES)%nat
          || (MAX_ASSETS_PER_MESSAGE <? total_assets (members b) + length (msg_assets message))%nat
          || (MAX_INBOUND_TEXT_BYTES <? length (combined_text (members b ++ [message])))%nat
  then Err (lit "batch-limit")
  else
    match msg_kind message with
    | Kind_Whatsapp =>
        match instant_add (received_at message) (quiet window) with
        | None => Err (lit "deadline-overflow")
        | Some deadline =>
            Ok (mkBatch (batch_route b)
                  (Z.max (batch_deadline b) (Z.min deadline (hard_deadline b)))
                  (hard_deadline b) (members b ++ [message]))
        end
    | _ => Ok (mkBatch (batch_route b) (batch_deadline b) (hard_deadline b) (members b ++ [message]))
    end.

(** [iter_mut().find]: the first batch that satisfies [p] is replaced, if any. *)
Fixpoint join_first (p : Batch → bool) (f : Batch → result str Batch) (bs : list Batch)
    : option (result str (list Batch)) :=
  match bs with
  | [] => None
  | b :: bs =>
      if p b then Some (let? b := f b in Ok (b :: bs))
      else match join_first p f bs with
           | Some r => Some (let? bs := r in Ok (b :: bs))
           | None => None
           end
  end.

Definition offer (route : str) (message : InboundMessage) (c : Collector) : Offered * Collector :=
  match input_refusal message with
  | Some refusal => (Refused message (InputRefusal_reason refusal), c)
  | None =>
  if asset_overflow message || (MAX_ASSETS_PER_MESSAGE <? length (msg_assets message))%nat
  then (Refused message (lit "input-limit"), c)
  else
  match window_of c message with
  | None => (Immediate message, c)
  | Some window =>
  match join_first (fun b => str_eqb (batch_route b) route && lead_is (fun m => compatible m message) b)
          (join_batch window message) (batches c) with
  | Some (Err reason) => (Refused message reason, c)
  | Some (Ok bs) => (Pending, mkCollector (windows c) (capacity c) bs)
  | None =>
      if is_nil (msg_assets message) && match native_group message with None => true | Some _ => false end
      then (Immediate message, c)
      else if (MAX_INBOUND_TEXT_BYTES <? length (msg_text message))%nat
      then (Refused message (lit "input-limit"), c)
      else if (length (batches c) =? capacity c)%nat
      then (Refused message (lit "collection-full"), c)
      else
        match instant_add (received_at message) (quiet window) with
        | None => (Refused message (lit "deadline-overflow"), c)
        | Some deadline =>
            match instant_add (received_at message) (max_wait window) with
            | None => (Refused message (lit "deadline-overflow"), c)
            | Some hard =>
                (Pending,
                 mkCollector (windows c) (capacity c)
                   (batches c ++ [mkBatch route (Z.min deadline hard) hard [message]]))
            end
        end
  end
  end
  end.

(** ** Handing over *)

(** [Batch::assemble]; [None] is the panic of an empty batch. *)
Definition assemble (b : Batch) : option InboundMessage :=
  match members b with
  | [] => None
  | m :: ms =>
      Some (mkMessage (msg_transport m) (msg_kind m) (msg_subject m) (msg_conversation m) (msg_reply m)
        (if (1 <? length (members b))%nat then combined_text (members b) else msg_text m)
        (foldl (fun assets x => assets ++ msg_assets x) (msg_assets m) ms)
        (asset_overflow m) (input_refusal m) (native_group m) (received_at m) (receipt m)
        (receipt <$> members b) (msg_rest m))
  end.

(** The loop: each turn takes a batch out or moves on, so the number of batches
    is fuel enough. [None] is a panic. *)
Fixpoint take_due_loop (fuel : nat) (now : Z) (index : nat) (bs : list Batch)
    (ready : list (str * InboundMessage)) : option (list (str * InboundMessage) * list Batch) :=
  match fuel with
  | O => Some (ready, bs)
  | S fuel =>
      match bs !! index with
      | None => Some (ready, bs)
      | Some b =>
          if batch_deadline b <=? now then
            match assemble b with
            | None => None
            | Some m => take_due_loop fuel now index (delete index bs) (ready ++ [(batch_route b, m)])
            end
          else take_due_loop fuel now (S index) bs ready
      end
  end.

Definition take_due_routed (now : Z) (c : Collector)
    : option (list (str * InboundMessage) * Collector) :=
  match take_due_loop (length (batches c)) now 0 (batches c) [] with
  | Some (ready, bs) => Some (ready, mkCollector (windows c) (capacity c) bs)
  | None => None
  end.

(** ** Giving up *)

Record CancelRequest : Type := mkCancel {
  cancel_transport : str;
  cancel_conversation : str;
  cancel_subject : str;
}.

Definition owned_by (request : CancelRequest) (m : InboundMessage) : bool :=
  str_eqb (msg_transport m) (cancel_transport request)
  && str_eqb (conversation_key (msg_conversation m)) (cancel_conversation request)
  && str_eqb (canonical (attested_name (msg_subject m))) (cancel_subject request).

Definition batch_receipts (b : Batch) : list Z := receipt <$> members b.

(** Whether a batch was cancelled, and the receipts that are disposed of. *)
Definition Collector_cancel (request : CancelRequest) (c : Collector) : bool * list Z * Collector :=
  let owned := lead_is (owned_by request) in
  (existsb owned (batches c), concat (batch_receipts <$> List.filter owned (batches c)),
   mkCollector (windows c) (capacity c) (List.filter (fun b => negb (owned b)) (batches c))).

Definition Collector_shutdown (c : Collector) : list Z * Collector :=
  (concat (batch_receipts <$> batches c), mkCollector (windows c) (capacity c) []).
End Collector.
Arguments InboundMessage : clear implicits.
Arguments Batch : clear implicits.
Arguments Collector : clear implicits.
Arguments Offered : clear implicits.
