(* ===== verification/CollectorSafety.v ===== *)
(** * What the collector promises

    The invariant of [Collector], over any sequence of its operations
    ([History], [collect]): batches stay within their bounds and hold messages
    of one person, place and route; no message is lost or delivered twice; and
    every burst is handed over by its hard deadline. *)

From Stdlib Require Import ZArith Lia Ascii String.
From stdpp Require Import base strings list sorting numbers.
From S2P Require Import Prelude RustStr Subject Conversation ProcessTree MessageText Collector.

#[local] Arguments total_assets : simpl never.

Section Safety.
Context {A X : Type}.
Implicit Types (m : InboundMessage A X) (b : Batch A X) (c : Collector A X).

(** ** Compatible messages *)

(** What messages of one batch have in common. *)
Definition key m : AttestedSubject * str * ChatTransportKind * Conversation * ReplyTarget :=
  (msg_subject m, msg_transport m, msg_kind m, msg_conversation m, audience (msg_reply m)).

Lemma compatible_true m m' : compatible m m' = true ↔ key m = key m'.
Proof.
  unfold compatible, key. rewrite !andb_true_iff, !bool_decide_eq_true, str_eqb_eq.
  split; [by intros [[[[-> ->] ->] ->] ->]|by intros [=]].
Qed.

(** ** Batches *)

(** The text a batch is handed over with. *)
Definition batch_text (ms : list (InboundMessage A X)) : str :=
  match ms with [m] => msg_text m | _ => combined_text ms end.

Definition batch_ok (ws : list (str * CollectionWindow)) b : Prop :=
  (length (members b) ≤ MAX_ENVELOPES)%nat
  ∧ (total_assets (members b) ≤ MAX_ASSETS_PER_MESSAGE)%nat
  ∧ (length (batch_text (members b)) ≤ MAX_INBOUND_TEXT_BYTES)%nat
  ∧ batch_deadline b ≤ hard_deadline b
  ∧ ∃ m ms w, members b = m :: ms
      ∧ Forall (fun x => key x = key m ∧ native_group x = native_group m) ms
      ∧ window_of (mkCollector ws 0 []) m = Some w ∧ hard_deadline b = received_at m + max_wait w.

Definition apart b b' : Prop :=
  batch_route b = batch_route b' → ∀ m m', lead b = Some m → lead b' = Some m' → key m ≠ key m'.

Record collector_ok c : Prop := mkCollectorOk {
  c_batches : Forall (batch_ok (windows c)) (batches c);
  c_capacity : (length (batches c) ≤ capacity c)%nat;
  c_apart : StronglySorted apart (batches c);
}.

Lemma total_assets_app (a b : list (InboundMessage A X)) :
  total_assets (a ++ b) = (total_assets a + total_assets b)%nat.
Proof. unfold total_assets. induction a as [|m a IH]; cbn [app foldr]; [done|]. rewrite IH. lia. Qed.

Lemma batch_text_snoc (ms : list (InboundMessage A X)) m :
  ms ≠ [] → batch_text (ms ++ [m]) = combined_text (ms ++ [m]).
Proof. destruct ms as [|x [|y ms]]; done. Qed.

Lemma join_batch_ok ws w m b b' :
  join_batch w m b = Ok b' → batch_ok ws b → lead_is (fun x => compatible x m) b = true →
  batch_ok ws b' ∧ members b' = members b ++ [m] ∧ batch_route b' = batch_route b
  ∧ hard_deadline b' = hard_deadline b.
Proof.
  unfold join_batch. intros E (Hlen & Has & Htx & Hd & m0 & ms & w0 & Em & Hms & Hw & Hh) Hc.
  destruct (lead_is _ _) eqn:Eg in E; [|done]. cbn [negb] in E.
  destruct (_ || _ || _) eqn:El in E; [done|].
  rewrite !orb_false_iff, Nat.eqb_neq, !Nat.ltb_ge in El. destruct El as [[El1 El2] El3].
  unfold lead_is, lead in Eg, Hc. rewrite Em in Eg, Hc. cbn in Eg, Hc.
  apply bool_decide_eq_true in Eg. apply compatible_true in Hc.
  assert (∀ d, d ≤ hard_deadline b →
    batch_ok ws (mkBatch (batch_route b) d (hard_deadline b) (members b ++ [m]))) as Hok.
  { intros d Hd'. unfold batch_ok. cbn. split_and!; try done.
    - rewrite length_app. cbn. lia.
    - rewrite total_assets_app. unfold total_assets at 2. cbn. lia.
    - by rewrite batch_text_snoc by (by rewrite Em).
    - exists m0, (ms ++ [m]), w0. rewrite Em. split_and!; try done.
      apply Forall_app. split; [done|]. by constructor. }
  destruct (msg_kind m) eqn:Ek; try (injection E as <-; split_and!; [by apply Hok|done..]).
  destruct (instant_add _ _) as [d|]; [|done]. injection E as <-. split_and!; [|done..]. apply Hok. lia.
Qed.

Lemma join_first_spec (p : Batch A X → bool) f (bs : list (Batch A X)) :
  match join_first p f bs with
  | None => Forall (fun b => p b = false) bs
  | Some r => ∃ bs1 b bs2, bs = bs1 ++ b :: bs2 ∧ p b = true
      ∧ match r with
        | Ok bs' => ∃ b', f b = Ok b' ∧ bs' = bs1 ++ b' :: bs2
        | Err e => f b = Err e
        end
  end.
Proof.
  induction bs as [|b bs IH]; cbn; [constructor|]. destruct (p b) eqn:E.
  - exists [], b, bs. split_and!; [done|done|]. destruct (f b) as [b'|e]; cbn; [by exists b'|done].
  - destruct (join_first p f bs) as [r|]; [|by constructor].
    destruct IH as (bs1 & b0 & bs2 & -> & Hp & Hr). exists (b :: bs1), b0, bs2.
    split_and!; [done|done|]. destruct r as [bs'|e]; cbn; [|done].
    destruct Hr as (b' & ? & ->). by exists b'.
Qed.

Lemma apart_identity b b0 b0' :
  batch_route b0' = batch_route b0 → lead b0' = lead b0 →
  (apart b b0 → apart b b0') ∧ (apart b0 b → apart b0' b).
Proof. intros E1 E2. unfold apart. by rewrite E1, E2. Qed.

Lemma apart_replace (bs1 bs2 : list (Batch A X)) b b' :
  batch_route b' = batch_route b → lead b' = lead b →
  StronglySorted apart (bs1 ++ b :: bs2) → StronglySorted apart (bs1 ++ b' :: bs2).
Proof.
  intros E1 E2. induction bs1 as [|x bs1 IH]; cbn; intros H; apply StronglySorted_inv in H as [H Hx].
  - constructor; [done|]. eapply List.Forall_impl; [|exact Hx]. intros y.
    by apply (apart_identity y b b').
  - constructor; [by apply IH|]. apply Forall_app in Hx as [Hx1 Hx2].
    apply List.Forall_cons_iff in Hx2 as [Hx2 Hx3]. apply Forall_app. split; [done|].
    constructor; [|done]. by apply (apart_identity x b b').
Qed.

Lemma apart_snoc (bs : list (Batch A X)) b :
  StronglySorted apart bs → Forall (fun x => apart x b) bs → StronglySorted apart (bs ++ [b]).
Proof.
  induction 1 as [|x bs Hs IH Hx]; intros H; cbn; [by repeat constructor|].
  apply List.Forall_cons_iff in H as [? H]. constructor; [by apply IH|].
  apply Forall_app. split; [done|]. by constructor.
Qed.

Lemma instant_add_Some t d e : instant_add t d = Some e → e = t + d.
Proof. unfold instant_add. destruct (_ <=? _); [|done]. by intros [= <-]. Qed.

(** What [offer] may do with a message. *)
Inductive offers (route : str) m c : Offered A X → Collector A X → Prop :=
| offers_refused reason : offers route m c (Refused m reason) c
| offers_immediate : offers route m c (Immediate m) c
| offers_joined bs1 b b' bs2 :
    batches c = bs1 ++ b :: bs2 → batch_route b = route → batch_route b' = route →
    members b' = members b ++ [m] →
    offers route m c Pending (mkCollector (windows c) (capacity c) (bs1 ++ b' :: bs2))
| offers_started d h :
    offers route m c Pending
      (mkCollector (windows c) (capacity c) (batches c ++ [mkBatch route d h [m]])).

Lemma offer_ok route m c :
  collector_ok c →
  offers route m c (offer route m c).1 (offer route m c).2 ∧ collector_ok (offer route m c).2.
Proof.
  intros Hc. pose proof Hc as [Hb Hcap Hap]. unfold offer.
  destruct (input_refusal m); [split; [constructor|done]|].
  destruct (asset_overflow m || _) eqn:Eo; [split; [constructor|done]|].
  apply orb_false_iff in Eo as [_ Eas%Nat.ltb_ge].
  destruct (window_of c m) as [w|] eqn:Ew; [|split; [constructor|done]].
  pose proof (join_first_spec
    (fun b => str_eqb (batch_route b) route && lead_is (fun x => compatible x m) b)
    (join_batch w m) (batches c)) as Hj.
  destruct (join_first _ _ _) as [[bs|e]|].
  - destruct Hj as (bs1 & b & bs2 & E & Hp & b' & Ej & ->).
    apply andb_true_iff in Hp as [Hr%str_eqb_eq Hl]. rewrite E in Hb.
    apply Forall_app in Hb as [Hb1 Hb2]. apply List.Forall_cons_iff in Hb2 as [Hb Hb2].
    destruct (join_batch_ok _ _ _ _ _ Ej Hb Hl) as (Hok & Hm & Hr' & _).
    cbn [fst snd]. split; [apply (offers_joined route m c bs1 b); congruence|]. split; cbn.
    + apply Forall_app. split; [done|]. by constructor.
    + rewrite E, length_app in Hcap. cbn in Hcap. rewrite length_app. cbn. lia.
    + rewrite E in Hap. eapply apart_replace; [exact Hr'| |done].
      destruct Hb as (_ & _ & _ & _ & m0 & ms & w0 & Em & _).
      unfold lead. by rewrite Hm, Em.
  - split; [constructor|done].
  - destruct (is_nil _ && _); [split; [constructor|done]|].
    destruct (Nat.ltb_spec MAX_INBOUND_TEXT_BYTES (length (msg_text m))); [split; [constructor|done]|].
    destruct (Nat.eqb_spec (length (batches c)) (capacity c)); [split; [constructor|done]|].
    destruct (instant_add _ (quiet w)) as [d|]; [|split; [constructor|done]].
    destruct (instant_add _ (max_wait w)) as [h|] eqn:Eh; [|split; [constructor|done]].
    apply instant_add_Some in Eh. cbn [fst snd]. split; [constructor|]. split; cbn.
    + apply Forall_app. split; [done|]. constructor; [|constructor].
      unfold batch_ok. cbn. split_and!; try done.
      * unfold MAX_ENVELOPES. lia.
      * unfold total_assets. cbn. lia.
      * lia.
      * exists m, [], w. by split_and!.
    + rewrite length_app. cbn. lia.
    + apply apart_snoc; [done|]. eapply List.Forall_impl; [|exact Hj]. cbn. intros b Hf Er m0 m' E0 [= <-] Ek.
      cbn in Er. unfold lead_is in Hf. rewrite E0, (proj2 (str_eqb_eq _ _) Er) in Hf. cbn in Hf.
      apply compatible_true in Ek. congruence.
Qed.

(** ** Handing over *)

Definition due (now : Z) b : bool := batch_deadline b <=? now.

Definition handed_over b : list (str * InboundMessage A X) :=
  match assemble b with Some m => [(batch_route b, m)] | None => [] end.

Lemma assemble_Some ws b : batch_ok ws b → ∃ m, assemble b = Some m.
Proof.
  intros (_ & _ & _ & _ & m0 & ms & w & Em & _). unfold assemble. rewrite Em. eauto.
Qed.

(** The loop takes the batches that are due out, in order. *)
Lemma take_due_loop_spec ws fuel now kept (bs : list (Batch A X)) ready :
  Forall (batch_ok ws) bs → (length bs ≤ fuel)%nat →
  take_due_loop fuel now (length kept) (kept ++ bs) ready
  = Some (ready ++ concat (handed_over <$> List.filter (due now) bs),
          kept ++ List.filter (fun b => negb (due now b)) bs).
Proof.
  intros Hb. revert fuel kept ready. induction Hb as [|b bs Hb Hbs IH]; intros fuel kept ready Hf.
  { cbn. rewrite app_nil_r. destruct fuel; cbn [take_due_loop]; [by rewrite app_nil_r|].
    rewrite lookup_ge_None_2 by lia. by rewrite app_nil_r. }
  destruct fuel as [|fuel]; [cbn in Hf; lia|]. cbn in Hf. cbn [take_due_loop List.filter].
  rewrite list_lookup_middle by done. fold (due now b). destruct (due now b) eqn:Ed; cbn [negb].
  - destruct (assemble_Some ws b Hb) as (m & Em). rewrite Em.
    assert (delete (length kept) (kept ++ b :: bs) = kept ++ bs) as ->.
    { by rewrite delete_take_drop, take_app_length, drop_app_ge, Nat.sub_succ_l, Nat.sub_diag by lia. }
    rewrite IH by lia. cbn [fmap list_fmap concat]. unfold handed_over at 2. rewrite Em.
    by rewrite <- (assoc (++)).
  - replace (S (length kept)) with (length (kept ++ [b])) by (rewrite length_app; cbn; lia).
    rewrite (cons_middle b kept bs), (assoc (++)), IH by lia. by rewrite <- (assoc (++)).
Qed.

Lemma take_due_spec now c :
  collector_ok c →
  take_due_routed now c
  = Some (concat (handed_over <$> List.filter (due now) (batches c)),
          mkCollector (windows c) (capacity c) (List.filter (fun b => negb (due now b)) (batches c))).
Proof.
  intros [Hb _ _]. unfold take_due_routed.
  by rewrite (take_due_loop_spec (windows c) _ now [] (batches c) []) by done.
Qed.

Lemma filter_ok (p : Batch A X → bool) c :
  collector_ok c → collector_ok (mkCollector (windows c) (capacity c) (List.filter p (batches c))).
Proof.
  intros [Hb Hc Ha]. split; cbn.
  - by apply Forall_filter_bool.
  - pose proof (List.filter_length_le p (batches c)). lia.
  - by apply filter_sorted.
Qed.

(** ** Any use of a collector *)

Inductive Call : Type :=
| Call_offer (route : str) (m : InboundMessage A X)
| Call_take (now : Z)
| Call_cancel (request : CancelRequest)
| Call_shutdown.

(** What was offered, and what became of it: let through at once, refused,
    handed over as part of a burst, or disposed of (receipts). *)
Record History : Type := mkHistory {
  collector : Collector A X;
  given : list (str * InboundMessage A X);
  let_through : list (InboundMessage A X);
  refused : list (InboundMessage A X);
  handed : list (str * InboundMessage A X);
  dropped : list Z;
}.

Definition call (k : Call) (h : History) : option History :=
  match k with
  | Call_offer route m =>
      let '(o, c) := offer route m (collector h) in
      let g := given h ++ [(route, m)] in
      Some match o with
           | Pending => mkHistory c g (let_through h) (refused h) (handed h) (dropped h)
           | Immediate x => mkHistory c g (let_through h ++ [x]) (refused h) (handed h) (dropped h)
           | Refused x _ => mkHistory c g (let_through h) (refused h ++ [x]) (handed h) (dropped h)
           end
  | Call_take now =>
      match take_due_routed now (collector h) with
      | Some (ready, c) =>
          Some (mkHistory c (given h) (let_through h) (refused h) (handed h ++ ready) (dropped h))
      | None => None
      end
  | Call_cancel request =>
      let '(_, gone, c) := Collector_cancel request (collector h) in
      Some (mkHistory c (given h) (let_through h) (refused h) (handed h) (dropped h ++ gone))
  | Call_shutdown =>
      let '(gone, c) := Collector_shutdown (collector h) in
      Some (mkHistory c (given h) (let_through h) (refused h) (handed h) (dropped h ++ gone))
  end.

Fixpoint collect (ks : list Call) (h : History) : option History :=
  match ks with
  | [] => Some h
  | k :: ks => match call k h with Some h => collect ks h | None => None end
  end.

Definition begins (transports : list TransportConfig) (capacity : nat) : History :=
  mkHistory (Collector_new transports capacity) [] [] [] [] [].

(** [m] is the burst [ms], whose members have one key and one group. *)
Definition burst (ms : list (InboundMessage A X)) m : Prop :=
  ∃ m0 rest, ms = m0 :: rest
  ∧ Forall (fun x => key x = key m0 ∧ native_group x = native_group m0) rest
  ∧ key m = key m0 ∧ native_group m = native_group m0
  ∧ msg_text m = batch_text ms ∧ msg_assets m = concat (msg_assets <$> ms)
  ∧ constituents m = receipt <$> ms.

Definition bounded_burst m : Prop :=
  (length (msg_text m) ≤ MAX_INBOUND_TEXT_BYTES)%nat
  ∧ (length (msg_assets m) ≤ MAX_ASSETS_PER_MESSAGE)%nat
  ∧ (1 ≤ length (constituents m) ≤ MAX_ENVELOPES)%nat.

(** A message handed over is a burst of messages offered for its route, in the
    order they were offered in. *)
Definition handed_ok (g : list (str * InboundMessage A X)) (x : str * InboundMessage A X) : Prop :=
  bounded_burst x.2 ∧ ∃ ms, burst ms x.2 ∧ sublist ((x.1,.) <$> ms) g.

Definition pending_receipts c : list Z := concat (batch_receipts <$> batches c).

Record history_ok (h : History) : Prop := mkHistoryOk {
  h_collector : collector_ok (collector h);
  h_pending : Forall (fun b => sublist ((batch_route b,.) <$> members b) (given h)) (batches (collector h));
  h_handed : Forall (handed_ok (given h)) (handed h);
  h_all : receipt <$> (given h).*2
    ≡ₚ (receipt <$> let_through h) ++ (receipt <$> refused h)
       ++ concat (constituents <$> (handed h).*2) ++ dropped h ++ pending_receipts (collector h);
}.

Lemma foldl_assets (ms : list (InboundMessage A X)) (acc : list A) :
  foldl (fun assets x => assets ++ msg_assets x) acc ms = acc ++ concat (msg_assets <$> ms).
Proof.
  revert acc. induction ms as [|m ms IH]; intros acc; cbn; [by rewrite app_nil_r|].
  by rewrite IH, <- (assoc (++)).
Qed.

Lemma length_concat_assets (ms : list (InboundMessage A X)) :
  length (concat (msg_assets <$> ms)) = total_assets ms.
Proof. unfold total_assets. induction ms as [|m ms IH]; cbn; [done|]. by rewrite length_app, IH. Qed.

Lemma assemble_burst ws b m :
  batch_ok ws b → assemble b = Some m → burst (members b) m ∧ bounded_burst m.
Proof.
  intros (Hl & Ha & Ht & _ & m0 & ms & w & Em & Hms & _) E. unfold assemble in E.
  rewrite Em in *. injection E as <-. unfold bounded_burst. cbn.
  assert ((if (0 <? length ms)%nat then combined_text (m0 :: ms) else msg_text m0)
    = batch_text (m0 :: ms)) as Htx by (by destruct ms).
  assert (foldl (fun assets x => assets ++ msg_assets x) (msg_assets m0) ms
    = concat (msg_assets <$> m0 :: ms)) as Has by (by rewrite foldl_assets).
  split.
  - exists m0, ms. split_and!; try done.
  - split_and!.
    + change (length (if (0 <? length ms)%nat then combined_text (m0 :: ms) else msg_text m0)
        ≤ MAX_INBOUND_TEXT_BYTES)%nat. by rewrite Htx.
    + by rewrite Has, length_concat_assets.
    + lia.
    + rewrite length_fmap. cbn in Hl. done.
Qed.

Lemma handed_over_ok ws g b :
  batch_ok ws b → sublist ((batch_route b,.) <$> members b) g →
  Forall (handed_ok g) (handed_over b) ∧ concat (constituents <$> (handed_over b).*2) = batch_receipts b.
Proof.
  intros Hb Hs. unfold handed_over. destruct (assemble_Some ws b Hb) as (m & Em). rewrite Em.
  destruct (assemble_burst ws b m Hb Em) as [Hburst Hbound]. split.
  - constructor; [|constructor]. split; [done|]. cbn. by exists (members b).
  - cbn. rewrite app_nil_r. by destruct Hburst as (? & ? & _ & _ & _ & _ & _ & _ & ->).
Qed.

Lemma receipts_split (p : Batch A X → bool) (bs : list (Batch A X)) :
  concat (batch_receipts <$> bs)
  ≡ₚ concat (batch_receipts <$> List.filter p bs)
     ++ concat (batch_receipts <$> List.filter (fun b => negb (p b)) bs).
Proof.
  induction bs as [|b bs IH]; cbn; [done|]. destruct (p b); cbn; rewrite IH.
  - by rewrite (assoc (++)).
  - apply Permutation_app_swap_app.
Qed.

Lemma perm_add (x : Z) (l a b : list Z) : l ≡ₚ a ++ b → l ++ [x] ≡ₚ a ++ [x] ++ b.
Proof. intros ->. rewrite <- (Permutation_middle a b x). by rewrite <- Permutation_cons_append. Qed.

Lemma pending_receipts_app ws n (bs1 bs2 : list (Batch A X)) :
  pending_receipts (mkCollector ws n (bs1 ++ bs2))
  = concat (batch_receipts <$> bs1) ++ concat (batch_receipts <$> bs2).
Proof. unfold pending_receipts. cbn. by rewrite fmap_app, concat_app. Qed.

Lemma handed_ok_mono (g g' : list (str * InboundMessage A X)) x :
  sublist g g' → handed_ok g x → handed_ok g' x.
Proof. intros Hg (Hb & ms & Hm & Hs). split; [done|]. exists ms. split; [done|]. by transitivity g. Qed.

(** [offer] accounts for the message it is given. *)
Lemma offer_accounts route m c (g : list (str * InboundMessage A X)) :
  collector_ok c →
  Forall (fun b => sublist ((batch_route b,.) <$> members b) g) (batches c) →
  let o := (offer route m c).1 in
  let c' := (offer route m c).2 in
  Forall (fun b => sublist ((batch_route b,.) <$> members b) (g ++ [(route, m)])) (batches c')
  ∧ match o with
    | Pending => ∃ l1 l2, pending_receipts c = l1 ++ l2 ∧ pending_receipts c' = l1 ++ [receipt m] ++ l2
    | Immediate x | Refused x _ => x = m ∧ c' = c
    end.
Proof.
  intros Hc Hs. destruct (offer_ok route m c Hc) as [Ho _].
  assert (∀ (bs : list (Batch A X)),
    Forall (fun b => sublist ((batch_route b,.) <$> members b) g) bs →
    Forall (fun b => sublist ((batch_route b,.) <$> members b) (g ++ [(route, m)])) bs) as Hmono.
  { intros bs H. eapply List.Forall_impl; [|exact H]. intros b Hb. cbn. by apply sublist_inserts_r. }
  destruct (offer route m c) as [o c'] eqn:E. cbn [fst snd] in *.
  destruct Ho as [reason| |bs1 b b' bs2 Eb Er Er' Em|d h]; cbn zeta.
  - split; [by apply Hmono|done].
  - split; [by apply Hmono|done].
  - rewrite Eb in Hs. split.
    + apply Forall_app in Hs as [Hs1 Hs2]. apply List.Forall_cons_iff in Hs2 as [Hs0 Hs2]. cbn.
      apply Forall_app. split; [by apply Hmono|]. constructor; [|by apply Hmono].
      rewrite Em, Er', fmap_app. apply sublist_app; [by rewrite <- Er|done].
    + exists (concat (batch_receipts <$> bs1) ++ batch_receipts b), (concat (batch_receipts <$> bs2)). split.
      * unfold pending_receipts. rewrite Eb, fmap_app, concat_app. cbn. by rewrite <- (assoc (++)).
      * rewrite pending_receipts_app. cbn. unfold batch_receipts at 2. rewrite Em, fmap_app. cbn.
        by rewrite <- !(assoc (++)).
  - split.
    + cbn. apply Forall_app. split; [by apply Hmono|]. constructor; [|constructor]. cbn.
      by apply sublist_inserts_l.
    + exists (pending_receipts c), []. rewrite pending_receipts_app. cbn. by rewrite app_nil_r.
Qed.

Lemma concat_handed_over ws (g : list (str * InboundMessage A X)) (bs : list (Batch A X)) :
  Forall (batch_ok ws) bs → Forall (fun b => sublist ((batch_route b,.) <$> members b) g) bs →
  Forall (handed_ok g) (concat (handed_over <$> bs))
  ∧ concat (constituents <$> (concat (handed_over <$> bs)).*2) = concat (batch_receipts <$> bs).
Proof.
  intros Hb. induction Hb as [|b bs Hb Hbs IH]; intros Hs; cbn; [by split|].
  apply List.Forall_cons_iff in Hs as [Hs Hss]. destruct (IH Hss) as [IH1 IH2].
  destruct (handed_over_ok ws g b Hb Hs) as [H1 H2]. split; [by apply Forall_app|].
  by rewrite !fmap_app, concat_app, H2, IH2.
Qed.

Lemma call_ok k (h : History) : history_ok h → ∃ h', call k h = Some h' ∧ history_ok h'.
Proof.
  intros [Hc Hp Hh Ha]. destruct h as [c g lt rf hd dr]. cbn in *.
  destruct k as [route m|now|request|]; cbn [call collector given let_through refused handed dropped].
  - destruct (offer_ok route m c Hc) as [_ Hok].
    destruct (offer_accounts route m c g Hc Hp) as [Hp' Ho].
    destruct (offer route m c) as [o c'] eqn:E. cbn [fst snd] in *. eexists. split; [reflexivity|].
    assert (Forall (handed_ok (g ++ [(route, m)])) hd) as Hh'.
    { eapply List.Forall_impl; [|exact Hh]. intros x. apply handed_ok_mono. by apply sublist_inserts_r. }
    assert (receipt <$> (g ++ [(route, m)]).*2 = (receipt <$> g.*2) ++ [receipt m]) as Eg
      by (by rewrite !fmap_app).
    destruct o as [|x|x reason]; split; cbn; try done; rewrite Eg, ?fmap_app.
    + destruct Ho as (l1 & l2 & Ea & ->). rewrite Ea in Ha. rewrite !(assoc (++)). rewrite !(assoc (++)) in Ha.
      rewrite <- (assoc (++) _ [receipt m] l2). by apply perm_add.
    + destruct Ho as [-> ->]. rewrite <- (assoc (++) (receipt <$> lt)). by apply perm_add.
    + destruct Ho as [-> ->]. rewrite <- (assoc (++) (receipt <$> rf)). rewrite (assoc (++) (receipt <$> lt)).
      apply perm_add. by rewrite <- (assoc (++) (receipt <$> lt)).
  - rewrite (take_due_spec now c Hc). eexists. split; [reflexivity|].
    destruct (concat_handed_over (windows c) g (List.filter (due now) (batches c))) as [H1 H2].
    { apply Forall_filter_bool, Hc. } { by apply Forall_filter_bool. }
    split; cbn; [by apply filter_ok|by apply Forall_filter_bool|by apply Forall_app|].
    rewrite !fmap_app, concat_app, H2, Ha. unfold pending_receipts. cbn [batches].
    rewrite (receipts_split (due now) (batches c)).
    do 2 apply Permutation_app_head. rewrite <- (assoc (++)). apply Permutation_app_head.
    apply Permutation_app_swap_app.
  - unfold Collector_cancel. eexists. split; [reflexivity|]. split; cbn; [by apply filter_ok| |done|].
    { by apply Forall_filter_bool. }
    rewrite Ha. unfold pending_receipts. cbn [batches].
    rewrite (receipts_split (lead_is (owned_by request)) (batches c)).
    do 3 apply Permutation_app_head. by rewrite <- (assoc (++)).
  - unfold Collector_shutdown. eexists. split; [reflexivity|]. split; cbn; [|constructor|done|].
    + destruct Hc as [? ? ?]. split; cbn; [constructor|lia|constructor].
    + rewrite Ha. do 3 apply Permutation_app_head. by rewrite app_nil_r.
Qed.

Lemma collect_ok ks (h : History) : history_ok h → ∃ h', collect ks h = Some h' ∧ history_ok h'.
Proof.
  revert h. induction ks as [|k ks IH]; intros h Hh; cbn; [eauto|].
  destruct (call_ok k h Hh) as (h1 & -> & H1). by apply IH.
Qed.

Lemma begins_ok transports n : history_ok (begins transports n).
Proof. split; cbn; [|constructor..|done]. split; cbn; [constructor|lia|constructor]. Qed.

Lemma foldl_min_elem (d : Z) (ds : list Z) : foldl Z.min d ds ∈ d :: ds.
Proof.
  revert d. induction ds as [|x ds IH]; intros d; cbn; [constructor|].
  specialize (IH (Z.min d x)). apply elem_of_cons in IH as [->|IH].
  - destruct (Z.min_spec d x) as [[_ ->]|[_ ->]]; [constructor|constructor; constructor].
  - by do 2 constructor.
Qed.

Lemma deadline_elem c d : Collector_deadline c = Some d → ∃ b, b ∈ batches c ∧ batch_deadline b = d.
Proof.
  unfold Collector_deadline. intros H. destruct (batch_deadline <$> batches c) as [|x ds] eqn:E; [done|].
  injection H as <-. pose proof (foldl_min_elem x ds) as Hin. rewrite <- E in Hin.
  apply list_elem_of_fmap in Hin as (b & -> & Hb). eauto.
Qed.

Lemma take_due_hands now c b :
  collector_ok c → b ∈ batches c → batch_deadline b ≤ now →
  ∃ ready c', take_due_routed now c = Some (ready, c')
    ∧ Forall (fun x => now < batch_deadline x) (batches c')
    ∧ ∃ x, (batch_route b, x) ∈ ready ∧ constituents x = batch_receipts b.
Proof.
  intros Hc Hb Hd. rewrite (take_due_spec now c Hc). eexists _, _. split; [reflexivity|]. cbn. split.
  - pose proof (Forall_filter_and (fun _ => True) (fun x => negb (due now x)) (batches c)) as H.
    eapply List.Forall_impl; [|apply H; by apply List.Forall_forall].
    cbn. intros x [_ Hx]. unfold due in Hx. dk_bool. lia.
  - pose proof (Forall_elem _ _ _ (c_batches c Hc) Hb) as Hok.
    destruct (assemble_Some _ _ Hok) as (m & Em). exists m. split.
    + apply list_elem_of_In, List.in_concat. exists (handed_over b). rewrite <- !list_elem_of_In. split.
      * apply list_elem_of_fmap_2, list_elem_of_In, List.filter_In. rewrite <- list_elem_of_In.
        split; [done|]. by apply Z.leb_le.
      * unfold handed_over. rewrite Em. constructor.
    + destruct (assemble_burst _ _ _ Hok Em) as [(? & ? & _ & _ & _ & _ & _ & _ & ->) _]. done.
Qed.

Lemma call_capacity k (h h' : History) :
  history_ok h → call k h = Some h' → capacity (collector h') = capacity (collector h).
Proof.
  intros [Hc _ _ _] E. destruct k as [route m|now|request|]; cbn in E.
  - destruct (offer_ok route m (collector h) Hc) as [Ho _].
    destruct (offer route m (collector h)) as [o c]. cbn in Ho. destruct Ho; by simplify_eq.
  - rewrite (take_due_spec now _ Hc) in E. by simplify_eq.
  - by simplify_eq.
  - by simplify_eq.
Qed.

Lemma collect_capacity ks (h h' : History) :
  history_ok h → collect ks h = Some h' → history_ok h' ∧ capacity (collector h') = capacity (collector h).
Proof.
  revert h. induction ks as [|k ks IH]; intros h Hh E; cbn in E; [by simplify_eq|].
  destruct (call_ok k h Hh) as (h1 & E1 & H1). rewrite E1 in E.
  destruct (IH h1 H1 E) as [? ->]. split; [done|]. by eapply call_capacity.
Qed.
End Safety.

(** ** Theorems *)

(** C19: the collector neither loses nor repeats a message nor panics: after any
    sequence of operations, every message offered was let through, or refused,
    or is part of exactly one burst handed over, or was disposed of by a stop or
    a shutdown, or is pending. *)
Theorem collector_loses_nothing {A X : Type} (transports : list TransportConfig) (n : nat)
    (ks : list (@Call A X)) :
  ∃ h, collect ks (begins transports n) = Some h
    ∧ receipt <$> (given h).*2
      ≡ₚ (receipt <$> let_through h) ++ (receipt <$> refused h)
         ++ concat (constituents <$> (handed h).*2) ++ dropped h ++ pending_receipts (collector h).
Proof.
  destruct (collect_ok ks _ (begins_ok transports n)) as (h & E & Hh). exists h. split; [done|]. apply Hh.
Qed.

(** C25: what is handed over is one burst of at most eight messages with at most
    32 assets and 16 KiB of text: messages of one person, transport,
    conversation, audience and group, offered for the route it is handed over
    for, with their texts and assets in the order they arrived in; and no more
    than [n] bursts wait. *)
Theorem bursts_never_mix {A X : Type} (transports : list TransportConfig) (n : nat)
    (ks : list (@Call A X)) (h : History) :
  collect ks (begins transports n) = Some h →
  Forall (handed_ok (given h)) (handed h)
  ∧ (length (batches (collector h)) ≤ n)%nat ∧ StronglySorted apart (batches (collector h)).
Proof.
  intros E. destruct (collect_capacity ks _ h (begins_ok transports n) E) as [[Hc _ Hh _] Hcap].
  cbn in Hcap. split; [done|]. split; [rewrite <- Hcap|]; apply Hc.
Qed.

(** C34: no burst waits longer than its window allows: whenever the batches due
    are taken at a time past the hard deadline of its first message, or past the
    deadline the collector announces, the burst is handed over whole, and every
    batch that stays has its deadline ahead. *)
Theorem bursts_end_in_time {A X : Type} (transports : list TransportConfig) (n : nat)
    (ks : list (@Call A X)) (h : History) (b : Batch A X) (m : InboundMessage A X)
    (w : CollectionWindow) (now : Z) :
  collect ks (begins transports n) = Some h → b ∈ batches (collector h) → lead b = Some m →
  window_of (collector h) m = Some w → received_at m + max_wait w ≤ now →
  ∃ ready c', take_due_routed now (collector h) = Some (ready, c')
    ∧ Forall (fun x => now < batch_deadline x) (batches c')
    ∧ ∃ x, (batch_route b, x) ∈ ready ∧ constituents x = batch_receipts b.
Proof.
  intros E Hb El Ew Hnow. destruct (collect_capacity ks _ h (begins_ok transports n) E) as [[Hc _ _ _] _].
  apply take_due_hands; [done|done|].
  destruct (Forall_elem _ _ _ (c_batches _ Hc) Hb) as (_ & _ & _ & Hd & m0 & ms & w0 & Em & _ & Ew0 & Hh).
  unfold lead in El. rewrite Em in El. injection El as ->.
  assert (w0 = w) as -> by (change (window_of (collector h) m = Some w0) in Ew0; congruence). lia.
Qed.

(** Waking at the announced deadline always makes progress. *)
Theorem deadline_is_met {A X : Type} (transports : list TransportConfig) (n : nat)
    (ks : list (@Call A X)) (h : History) (d : Z) :
  collect ks (begins transports n) = Some h → Collector_deadline (collector h) = Some d →
  ∃ ready c', take_due_routed d (collector h) = Some (ready, c') ∧ ready ≠ []
    ∧ is_some_and (Collector_deadline c') (fun d' => d' <=? d) = false.
Proof.
  intros E Hd. destruct (collect_capacity ks _ h (begins_ok transports n) E) as [[Hc _ _ _] _].
  destruct (deadline_elem _ _ Hd) as (b & Hb & Eb).
  destruct (take_due_hands d _ b Hc Hb ltac:(lia)) as (ready & c' & -> & Hc' & x & Hx & _).
  exists ready, c'. split_and!; [done|by intros ->; apply not_elem_of_nil in Hx|].
  destruct (Collector_deadline c') as [d'|] eqn:Ed'; [|done]. cbn.
  apply deadline_elem in Ed' as (b' & Hb' & <-). pose proof (Forall_elem _ _ _ Hc' Hb') as H. cbn in H.
  apply Z.leb_gt. lia.
Qed.

(** ** Witnesses *)

Definition photo (id at_ : Z) : InboundMessage unit unit :=
  mkMessage (lit "wa") Kind_Whatsapp (One (mkSubject WhatsappNumber [] (lit "15551234567")))
    (mkConversation DirectMessage None (lit "15551234567") None) (Reply_WhatsApp (lit "15551234567"))
    (lit "look") [tt] false None None at_ id [] tt.

Definition sample_transports : list TransportConfig := [WhatsappCloudApi (lit "wa") 3000 15000].
Definition sample_calls : list Call :=
  [Call_offer (lit "r") (photo 1 0); Call_offer (lit "r") (photo 2 1000)].
Definition sample_history : History := default (begins [] 0) (collect sample_calls (begins sample_transports 4)).

Definition sample_taken : History :=
  default (begins [] 0)
    (collect (sample_calls ++ [Call_take 20000000000]) (begins sample_transports 4)).

Lemma bursts_never_mix_witness :
  handed sample_taken ≠ [] ∧ Forall (handed_ok (given sample_taken)) (handed sample_taken).
Proof.
  split; [vm_compute; discriminate|].
  refine (proj1 (bursts_never_mix sample_transports 4 (sample_calls ++ [Call_take 20000000000])
    sample_taken _)). vm_compute. reflexivity.
Defined.

Lemma bursts_end_in_time_witness :
  ∃ ready c', take_due_routed 15000000000 (collector sample_history) = Some (ready, c').
Proof.
  destruct (bursts_end_in_time sample_transports 4 sample_calls sample_history
    (mkBatch (lit "r") 3000001000 15000000000 [photo 1 0; photo 2 1000]) (photo 1 0)
    (mkWindow 3000000000 15000000000) 15000000000) as (ready & c' & E & _);
    [vm_compute; reflexivity|vm_compute; constructor|reflexivity|vm_compute; reflexivity|cbn; lia|].
  exists ready, c'. exact E.
Defined.

Lemma deadline_is_met_witness :
  ∃ ready c', take_due_routed 3000001000 (collector sample_history) = Some (ready, c').
Proof.
  destruct (deadline_is_met sample_transports 4 sample_calls sample_history 3000001000)
    as (ready & c' & E & _); [vm_compute; reflexivity..|]. exists ready, c'. exact E.
Defined.
