(* ===== verification/EnvFile.v ===== *)
(** * Environment files

    [dekopon-core/src/env_file.rs]: the file named by [--env-file] holds lines
    [KEY=value], [export KEY='value'] and comments. [parse] reads it,
    [merged_with] adds to the inherited environment what is absent there, and
    [strip_option] takes the option out of the arguments the daemon restarts
    with. [assignment] and [file_form] are the grammar. *)

From Stdlib Require Import ZArith Lia Ascii String.
From stdpp Require Import base strings list numbers.
From S2P Require Import Prelude RustStr Utf8 MessageText.

Definition RESERVED_PREFIXES : list str := [lit "LD_"; lit "DYLD_"; lit "XDG_"].
Definition RESERVED_KEYS : list str :=
  [lit "DEKOPON_SHELL_JQ_WORKER"; lit "HOME"; lit "TMPDIR"; lit "PATH"; lit "APPDATA";
   lit "DEKOPON_CHATGPT_AUTH_FILE"; lit "DEKOPON_BROKER_SOCKET"; lit "DEKOPON_CONFIG"].

Inductive EnvFileProblem : Type :=
| NotUtf8 (line : Z)
| ByteOrderMark
| Nul (line : Z)
| StrayCarriageReturn (line : Z)
| InvalidKey (line : Z)
| MissingEquals (line : Z)
| UnquotedSpecial (line : Z)
| UnmatchedQuote (line : Z)
| TrailingText (line : Z)
| ReservedKey (line : Z)
| Duplicate (first second : Z).

Definition EnvFileProblem_category (p : EnvFileProblem) : str :=
  match p with
  | NotUtf8 _ => lit "not-utf8"
  | ByteOrderMark => lit "byte-order-mark"
  | Nul _ => lit "nul"
  | StrayCarriageReturn _ => lit "stray-carriage-return"
  | InvalidKey _ => lit "invalid-key"
  | MissingEquals _ => lit "missing-equals"
  | UnquotedSpecial _ => lit "unquoted-special"
  | UnmatchedQuote _ => lit "unmatched-quote"
  | TrailingText _ => lit "trailing-text"
  | ReservedKey _ => lit "reserved-key"
  | Duplicate _ _ => lit "duplicate"
  end.

(** [NonZeroU32::MIN.saturating_add(u32::try_from(index).unwrap_or(u32::MAX))]. *)
Definition line_number (index : Z) : Z :=
  Z.min u32_max (1 + (if index <=? u32_max then index else u32_max)).

Definition is_blank_char (b : Z) : bool := (b =? ch " ") || (b =? ch "009").

(** [trim_start_matches] and [find] of a class of ASCII characters: what is
    before the first byte outside of it, and from there on. *)
Fixpoint span (p : Z → bool) (s : str) : str * str :=
  match s with
  | [] => ([], [])
  | b :: rest => if p b then let '(a, r) := span p rest in (b :: a, r) else ([], s)
  end.

Definition starts_with_char (p : Z → bool) (s : str) : bool :=
  match s with b :: _ => p b | [] => false end.

Definition is_key_char (b : Z) : bool := is_ascii_alphanumeric b || (b =? ch "_").

(** The quote a value starts with, and what follows it: a single quote is
    looked for first. *)
Definition quote_of (value : str) : option (Z * str) :=
  match value with
  | b :: inner =>
      if b =? ch "'" then Some (b, inner) else if b =? ch "034" then Some (b, inner) else None
  | [] => None
  end.

Definition is_special (c : Z) : bool := (c =? ch "'") || (c =? ch "034") || char_is_whitespace c.

(** [export] and the blanks after it. *)
Definition skip_export (rest : str) : str :=
  match strip_prefix rest (lit "export") with
  | Some after => if starts_with_char is_blank_char after then (span is_blank_char after).2 else rest
  | None => rest
  end.

(** The value and what is left after it. *)
Definition parse_value (value : str) (line : Z) : result EnvFileProblem (str * str) :=
  match quote_of value with
  | Some (quote, inner) => ok_or (split_once quote inner) (UnmatchedQuote line)
  | None =>
      let '(unquoted, after) := span (fun b => negb (is_blank_char b)) value in
      if existsb is_special (chars unquoted) then Err (UnquotedSpecial line)
      else Ok (unquoted, after)
  end.

Definition parse_line (content : str) (line : Z) : result EnvFileProblem (option (str * str)) :=
  let rest := (span is_blank_char content).2 in
  if is_empty rest || starts_with rest (lit "#") then Ok None
  else
    let '(key, rest) := span is_key_char (skip_export rest) in
    if is_empty key || starts_with_char is_ascii_digit key then Err (InvalidKey line)
    else
      let? value :=
        match strip_prefix rest (lit "=") with
        | Some value => if starts_with_char is_blank_char value then Err (MissingEquals line) else Ok value
        | None =>
            if is_empty rest || starts_with_char is_blank_char rest then Err (MissingEquals line)
            else Err (InvalidKey line)
        end in
      let? va := parse_value value line in
      if negb (forallb is_blank_char va.2) then Err (TrailingText line)
      else Ok (Some (key, va.1)).

(** ** The file *)

(** [Utf8Error::valid_up_to]: the bytes before the first ill-formed sequence. *)
Fixpoint valid_up_to (fuel : nat) (s : str) : nat :=
  match fuel, s with
  | S fuel, b :: _ =>
      let w := utf8_width b in
      if (w <=? length s)%nat && str_ok (take w s) then (w + valid_up_to fuel (drop w s))%nat else O
  | _, _ => O
  end.

Definition BOM : str := [239; 187; 191].

(** A line without its line feed or its carriage return and line feed. *)
Definition line_content (segment : str) : str :=
  match strip_suffix segment [10] with
  | Some raw => match strip_suffix raw [13] with Some content => content | None => raw end
  | None => segment
  end.

Definition is_reserved (key : str) : bool :=
  existsb (str_eqb key) RESERVED_KEYS || existsb (starts_with key) RESERVED_PREFIXES.

(** The loop; [seen] maps a key to the line that set it. *)
Fixpoint parse_lines (index : Z) (seen : list (str * Z)) (segments : list str)
    : result EnvFileProblem (list (str * str)) :=
  match segments with
  | [] => Ok []
  | segment :: segments =>
      let line := line_number index in
      let content := line_content segment in
      if mem 0 content then Err (Nul line)
      else if mem 13 content then Err (StrayCarriageReturn line)
      else
        let? entry := parse_line content line in
        match entry with
        | None => parse_lines (index + 1) seen segments
        | Some (key, value) =>
            if is_reserved key then Err (ReservedKey line)
            else
              match bt_get key seen with
              | Some first => Err (Duplicate first line)
              | None =>
                  let? pairs := parse_lines (index + 1) (bt_insert key line seen) segments in
                  Ok ((key, value) :: pairs)
              end
        end
  end.

Definition parse (bytes : str) : result EnvFileProblem (list (str * str)) :=
  if starts_with bytes BOM then Err ByteOrderMark
  else if negb (str_ok bytes) then
    let before := take (valid_up_to (length bytes) bytes) bytes in
    Err (NotUtf8 (line_number (Z.of_nat (length (List.filter (Z.eqb 10) before)))))
  else parse_lines 0 [] (split_inclusive bytes).

(** ** The environment and the arguments *)

Definition merged_with (pairs inherited : list (str * str)) : list (str * str) :=
  inherited ++ List.filter (fun kv => forallb (fun known => negb (str_eqb known.1 kv.1)) inherited) pairs.

(** An argument that is not UTF-8 is never the option. *)
Fixpoint strip_option (arguments : list str) : list str :=
  match arguments with
  | [] => []
  | argument :: rest =>
      if str_eqb argument (lit "--env-file") then tail rest
      else if str_ok argument && starts_with argument (lit "--env-file=") then rest
      else argument :: strip_option rest
  end.

(** ** The grammar *)

Definition key_form (k : str) : Prop :=
  ∃ b k', k = b :: k' ∧ is_ascii_digit b = false ∧ Forall (fun c => is_key_char c = true) k.

Definition blanks (s : str) : Prop := Forall (fun c => is_blank_char c = true) s.

(** A value in quotes, or one without quotes and white space. *)
Inductive value_form : str → str → Prop :=
| value_quoted q v : q = ch "'" ∨ q = ch "034" → q ∉ v → value_form (q :: v ++ [q]) v
| value_plain v :
    Forall (fun c => is_blank_char c = false) v →
    Forall (fun c => is_special c = false) (chars v) → value_form v v.

Definition assignment (content k v : str) : Prop :=
  ∃ pre export text post,
    content = pre ++ export ++ k ++ lit "=" ++ text ++ post
    ∧ blanks pre ∧ (export = [] ∨ ∃ b bs, export = lit "export" ++ b :: bs ∧ blanks (b :: bs))
    ∧ key_form k ∧ value_form text v ∧ blanks post ∧ (text = [] → post = []).

Definition empty_line (content : str) : Prop :=
  ∃ pre rest, content = pre ++ rest ∧ blanks pre ∧ (rest = [] ∨ ∃ t, rest = ch "#" :: t).

(** A variable that a file may set. *)
Definition may_set (k : str) : Prop :=
  (k ∉ RESERVED_KEYS) ∧ ∀ prefix rest, prefix ∈ RESERVED_PREFIXES → k ≠ prefix ++ rest.

(** A line, with the entry it makes: its content and how it ends. *)
Definition line_form (segment : str) (entry : option (str * str)) : Prop :=
  ∃ content ending, segment = content ++ ending
    ∧ (ending = [] ∨ ending = [10] ∨ ending = [13; 10])
    ∧ (0 ∉ content) ∧ (10 ∉ content) ∧ (13 ∉ content)
    ∧ match entry with
      | Some (k, v) => assignment content k v ∧ may_set k
      | None => empty_line content
      end.

(** What a file that is read holds. *)
Definition file_form (bytes : str) (pairs : list (str * str)) : Prop :=
  (∀ rest, bytes ≠ BOM ++ rest) ∧ str_ok bytes = true
  ∧ ∃ entries, Forall2 line_form (split_inclusive bytes) entries
      ∧ pairs = omap id entries ∧ NoDup pairs.*1.

(** ** Lemmas *)

(** [r] does not go on in the class [p]. *)
Definition stops (p : Z → bool) (r : str) : Prop := starts_with_char p r = false.

Lemma span_spec (p : Z → bool) (s : str) :
  s = (span p s).1 ++ (span p s).2 ∧ Forall (fun c => p c = true) (span p s).1 ∧ stops p (span p s).2.
Proof.
  induction s as [|b s (E & Ha & Hr)]; cbn [span]; [by split_and!|]. destruct (p b) eqn:Eb.
  - destruct (span p s) as [a r]. cbn in *. split_and!; [by f_equal|by constructor|done].
  - cbn. split_and!; [done|constructor|exact Eb].
Qed.

Lemma span_app (p : Z → bool) (a r : str) :
  Forall (fun c => p c = true) a → stops p r → span p (a ++ r) = (a, r).
Proof.
  induction 1 as [|b a Hb Ha IH]; intros Hr.
  - destruct r as [|b r]; [done|]. cbn. unfold stops in Hr. cbn in Hr. by rewrite Hr.
  - cbn. by rewrite Hb, IH.
Qed.

Lemma span_unique (p : Z → bool) (s a r : str) : span p s = (a, r) → s = a ++ r ∧ Forall (fun c => p c = true) a ∧ stops p r.
Proof. intros E. pose proof (span_spec p s) as H. by rewrite E in H. Qed.

Lemma key_char_ascii (b : Z) : is_key_char b = true → 0 ≤ b < 128 ∧ is_blank_char b = false ∧ b ≠ 61 ∧ b ≠ 35.
Proof. unfold is_key_char, is_blank_char. intros H. dk_byte. Qed.

Lemma blank_char (b : Z) : is_blank_char b = true ↔ b = 32 ∨ b = 9.
Proof. unfold is_blank_char. dk_ch. rewrite orb_true_iff, !Z.eqb_eq. done. Qed.

Lemma quote_of_Some (value inner : str) (q : Z) :
  quote_of value = Some (q, inner) ↔ value = q :: inner ∧ (q = ch "'" ∨ q = ch "034").
Proof.
  unfold quote_of. destruct value as [|b v]; [split; [done|by intros [? _]]|].
  destruct (Z.eqb_spec b (ch "'")); [split; [intros [= <- <-]; auto|by intros [[= -> ->] _]]|].
  destruct (Z.eqb_spec b (ch "034")); [split; [intros [= <- <-]; auto|by intros [[= -> ->] _]]|].
  split; [done|]. by intros [[= -> ->] [?|?]].
Qed.

Lemma plain_not_quoted (v r : str) :
  Forall (fun c => is_special c = false) (chars v) → blanks r → quote_of (v ++ r) = None.
Proof.
  intros Hv Hr. destruct (quote_of (v ++ r)) as [[q inner]|] eqn:E; [exfalso|done].
  apply quote_of_Some in E as [E Hq]. destruct v as [|b v].
  - cbn in E. subst r. inversion Hr as [|? ? Hb _]; subst. apply blank_char in Hb. dk_ch. lia.
  - injection E as -> _.
    assert (0 ≤ q < 128) by (dk_ch; lia).
    rewrite Utf8.chars_next in Hv. unfold utf8_width in Hv.
    rewrite (proj2 (Z.ltb_lt q 128)) in Hv by lia. cbn [take] in Hv. inversion Hv as [|? ? Hx _]; subst.
    unfold is_special in Hx. cbn [utf8_scalar] in Hx. dk_ch. dk_bool. lia.
Qed.

Lemma existsb_special (l : list Z) : existsb is_special l = false ↔ Forall (fun c => is_special c = false) l.
Proof. apply existsb_false. Qed.

Lemma starts_blanks (s : str) : stops is_blank_char s → blanks s → s = [].
Proof. destruct s as [|b s]; [done|]. unfold stops. cbn. intros H Hb. inversion Hb. congruence. Qed.

(** What follows the equals sign. *)
Lemma value_form_stops (text v post : str) :
  value_form text v → blanks post → (text = [] → post = []) → stops is_blank_char (text ++ post).
Proof.
  intros Hf Hp He. destruct Hf as [q v Hq Hv|v Hb Hs].
  - unfold stops. cbn. apply not_true_iff_false. intros H%blank_char. dk_ch. lia.
  - destruct v as [|b v]; [by rewrite He|]. unfold stops. cbn. by inversion Hb.
Qed.

Lemma parse_value_form (value v : str) (line : Z) :
  stops is_blank_char value →
  (∃ after, parse_value value line = Ok (v, after) ∧ forallb is_blank_char after = true)
  ↔ ∃ text post, value = text ++ post ∧ value_form text v ∧ blanks post ∧ (text = [] → post = []).
Proof.
  intros Hst. unfold parse_value. split.
  - intros (after & E & Ha%forallb_true). destruct (quote_of value) as [[q inner]|] eqn:Eq.
    + apply quote_of_Some in Eq as [-> Hq]. apply ok_or_Ok, split_once_Some in E as [-> Hv].
      exists (q :: v ++ [q]), after. split_and!; [cbn; by rewrite <- (assoc (++))|by constructor|done|done].
    + destruct (span _ value) as [u a] eqn:Es. apply span_unique in Es as (-> & Hu & Hs).
      destruct (existsb _ _) eqn:Ex; [done|]. injection E as -> ->. apply existsb_special in Ex.
      exists v, after. split_and!; [done| |done|].
      * constructor; [|done]. eapply List.Forall_impl; [|exact Hu]. cbn. intros b ?%negb_true_iff. done.
      * intros ->. cbn in Hst. by apply starts_blanks.
  - intros (text & post & -> & Hf & Hp & He). destruct Hf as [q v Hq Hv|v Hb Hs].
    + exists post. rewrite <- app_comm_cons, (proj2 (quote_of_Some _ ((v ++ [q]) ++ post) q)) by done.
      rewrite <- (assoc (++)). cbn [app]. rewrite (proj2 (split_once_Some q _ v post)) by done.
      split; [done|]. by apply forallb_true.
    + exists post. rewrite (plain_not_quoted v post) by done. rewrite span_app.
      * rewrite (proj2 (existsb_special _) Hs). split; [done|]. by apply forallb_true.
      * eapply List.Forall_impl; [|exact Hb]. cbn. intros b ->. done.
      * unfold stops. destruct Hp as [|b post Hb' _]; [done|]. cbn. by rewrite Hb'.
Qed.

Lemma skip_export_spec (rest : str) :
  ∃ export, rest = export ++ skip_export rest
    ∧ (export = [] ∨ ∃ b bs, export = lit "export" ++ b :: bs ∧ blanks (b :: bs)).
Proof.
  unfold skip_export. destruct (strip_prefix rest (lit "export")) as [after|] eqn:E; [|exists []; auto].
  apply strip_prefix_Some in E. destruct (starts_with_char is_blank_char after) eqn:Eb; [|exists []; auto].
  destruct (span_spec is_blank_char after) as (Ea & Ha & _).
  destruct after as [|b after]; [done|]. cbn in Eb. cbn [span] in *. rewrite Eb in *.
  destruct (span is_blank_char after) as [bs r]. cbn [fst snd] in *.
  exists (lit "export" ++ b :: bs). split; [|right; eauto]. rewrite E, Ea. by rewrite <- (assoc (++)).
Qed.

(** A key and an equals sign do not read as [export] and a blank. *)
Lemma key_not_export (w k t u : str) (b : Z) :
  Forall (fun c => is_key_char c = true) k → 61 ∉ w → k ++ 61 :: t = w ++ b :: u →
  is_blank_char b = false.
Proof.
  revert k. induction w as [|x w IH]; intros k Hk Hw E.
  - destruct k as [|c k]; cbn in E; injection E as <- _; [done|].
    inversion Hk as [|? ? Hc]; subst. by apply key_char_ascii in Hc as (_ & ? & _).
  - apply not_elem_of_cons in Hw as [Hx Hw]. destruct k as [|c k]; cbn in E; injection E as E1 E; [by subst|].
    inversion Hk; subst. by eapply IH.
Qed.

Lemma skip_export_form (export k t : str) :
  (export = [] ∨ ∃ b bs, export = lit "export" ++ b :: bs ∧ blanks (b :: bs)) → key_form k →
  skip_export (export ++ k ++ 61 :: t) = k ++ 61 :: t.
Proof.
  intros He (c & k' & Ek & _ & Hk). unfold skip_export. destruct He as [->|(b & bs & -> & Hb)].
  - cbn [app]. destruct (strip_prefix _ _) as [after|] eqn:E; [|done].
    apply strip_prefix_Some in E. destruct after as [|b after]; [done|]. cbn [starts_with_char].
    rewrite (key_not_export (lit "export") k t after b Hk) by (done || by apply mem_false). done.
  - assert (strip_prefix ((lit "export" ++ b :: bs) ++ k ++ 61 :: t) (lit "export")
      = Some ((b :: bs) ++ k ++ 61 :: t)) as ->
      by (apply strip_prefix_Some; by rewrite <- (assoc (++))).
    inversion Hb as [|? ? Hb1 Hb2]; subst. cbn [starts_with_char app]. rewrite Hb1.
    rewrite app_comm_cons, span_app; [done|done|].
    unfold stops. cbn. inversion Hk as [|? ? Hc]; subst. by apply key_char_ascii in Hc as (_ & ? & _).
Qed.

Lemma parse_line_None (content : str) (line : Z) :
  parse_line content line = Ok None ↔ empty_line content.
Proof.
  unfold parse_line. destruct (span_spec is_blank_char content) as (E & Hp & Hs).
  destruct (span is_blank_char content) as [pre rest]. cbn [fst snd] in *. subst content. split.
  - destruct (is_empty rest || _) eqn:Er.
    + intros _. exists pre, rest. split_and!; [done..|]. apply orb_true_iff in Er as [Er|Er].
      * left. by destruct rest.
      * right. apply starts_with_true in Er as (t & ->). by exists t.
    + intros H. exfalso. destruct (span _ (skip_export rest)) as [key r].
      destruct (is_empty key || _); [done|]. apply result_bind_Ok in H as (v & _ & H).
      apply result_bind_Ok in H as (va & _ & H). by destruct (negb _).
  - intros (pre' & rest' & E & Hp' & Hr').
    assert (stops is_blank_char rest') as Hs' by (destruct Hr' as [->|(t & ->)]; done).
    pose proof (span_app _ _ _ Hp' Hs') as E1. rewrite <- E, (span_app _ _ _ Hp Hs) in E1.
    injection E1 as -> ->. destruct Hr' as [->|(t & ->)]; [done|]. cbn [is_empty orb].
    by rewrite (proj2 (starts_with_true _ _)) by (by exists t).
Qed.

Lemma parse_line_Some (content k v : str) (line : Z) :
  parse_line content line = Ok (Some (k, v)) ↔ assignment content k v.
Proof.
  unfold parse_line. split.
  - destruct (span_spec is_blank_char content) as (E & Hp & Hs).
    destruct (span is_blank_char content) as [pre rest]. cbn [fst snd] in *.
    destruct (is_empty rest || _); [done|].
    destruct (skip_export_spec rest) as (export & Er & He).
    destruct (span is_key_char (skip_export rest)) as [key r] eqn:Es.
    apply span_unique in Es as (Es & Hk & Hstop).
    destruct (is_empty key || _) eqn:Ek; [done|]. apply orb_false_iff in Ek as [Ek1 Ek2].
    intros (value & Hval & H)%result_bind_Ok.
    destruct (strip_prefix r (lit "=")) as [value'|] eqn:Ev; [|by destruct (is_empty r || _)].
    apply strip_prefix_Some in Ev. destruct (starts_with_char is_blank_char value') eqn:Eb; [done|].
    injection Hval as <-. apply result_bind_Ok in H as ([v' after] & Hpv & H). cbn [fst snd] in H.
    destruct (forallb is_blank_char after) eqn:Ea; [|done]. injection H as -> ->.
    destruct (proj1 (parse_value_form value' v line Eb)) as (text & post & -> & Hf & Hpost & Hempty); [eauto|].
    exists pre, export, text, post. split_and!; try done.
    + rewrite E, Er, Es, Ev. by rewrite <- ?(assoc (++)).
    + destruct k as [|b k]; [done|]. by exists b, k.
  - intros (pre & export & text & post & -> & Hp & He & Hk & Hf & Hpost & Hempty).
    pose proof Hk as (b0 & k' & Ek & Hd & Hall).
    assert (lit "=" = [61]) as -> by done. cbn [app].
    set (rest := export ++ k ++ 61 :: text ++ post).
    assert (∃ c r, rest = c :: r ∧ is_blank_char c = false ∧ c ≠ 35) as (c & r & Ec & Hc & Hc').
    { subst rest. destruct He as [->|(b & bs & -> & _)].
      - subst k. exists b0. inversion Hall as [|? ? Hb]; subst. cbn. eexists. split; [done|].
        by apply key_char_ascii in Hb as (_ & ? & _ & ?).
      - by eexists _, _. }
    rewrite span_app; [|done|unfold stops; by rewrite Ec]. cbn [snd].
    assert (is_empty rest || starts_with rest (lit "#") = false) as ->.
    { rewrite Ec. cbn [is_empty orb]. apply not_true_iff_false. intros (t & Et)%starts_with_true.
      cbn in Et. injection Et as -> _. done. }
    subst rest. rewrite skip_export_form by done. rewrite span_app; [|done|done].
    subst k. cbn [is_empty starts_with_char orb]. rewrite Hd.
    assert (strip_prefix (61 :: text ++ post) [61] = Some (text ++ post)) as ->
      by (by apply strip_prefix_Some).
    pose proof (value_form_stops text v post Hf Hpost Hempty) as Hst. unfold stops in Hst. rewrite Hst.
    cbn [result_bind].
    destruct (proj2 (parse_value_form (text ++ post) v line Hst)) as (after & -> & Ha).
    { by exists text, post. }
    cbn [result_bind fst snd]. by rewrite Ha.
Qed.

(** What [split_inclusive] returns: a line feed is at most at the end. *)
Definition is_line (segment : str) : Prop :=
  ∃ content ending, segment = content ++ ending ∧ (ending = [] ∨ ending = [10]) ∧ 10 ∉ content.

Lemma split_inclusive_lines (s : str) : Forall is_line (split_inclusive s).
Proof.
  induction s as [|c s IH]; cbn [split_inclusive]; [constructor|].
  destruct (Z.eqb_spec c (ch "010")) as [->|Hc].
  { constructor; [|done]. exists [], [10]. split_and!; [done|by right|apply not_elem_of_nil]. }
  assert (∀ l, 10 ∉ l → 10 ∉ c :: l) as Hcons by (intros l Hl; apply not_elem_of_cons; split; [dk_ch; congruence|done]).
  destruct (split_inclusive s) as [|l ls].
  - constructor; [|constructor]. exists [c], []. split_and!; [done|by left|]. apply Hcons, not_elem_of_nil.
  - apply List.Forall_cons_iff in IH as ((content & ending & -> & He & Hin) & IH). constructor; [|done].
    exists (c :: content), ending. split_and!; [done|done|by apply Hcons].
Qed.

(** The content read is the content of the grammar. *)
Lemma line_content_of (content ending : str) :
  ending = [] ∨ ending = [10] ∨ ending = [13; 10] → 10 ∉ content → 13 ∉ content →
  line_content (content ++ ending) = content.
Proof.
  assert (∀ (l : str) x, x ∉ l → strip_suffix l [x] = None) as Hnone.
  { intros l x Hx. destruct (strip_suffix l [x]) as [y|] eqn:E; [|done]. apply strip_suffix_Some in E.
    destruct Hx. rewrite E. apply elem_of_app. right. constructor. }
  intros He H10 H13. unfold line_content. destruct He as [->|[->| ->]].
  - by rewrite app_nil_r, Hnone.
  - rewrite (proj2 (strip_suffix_Some (content ++ [10]) [10] content)) by done. by rewrite Hnone.
  - rewrite (proj2 (strip_suffix_Some (content ++ [13; 10]) [10] (content ++ [13]))) by (by rewrite <- (assoc (++))).
    by rewrite (proj2 (strip_suffix_Some (content ++ [13]) [13] content)) by done.
Qed.

Lemma line_content_split (segment : str) :
  is_line segment → 13 ∉ line_content segment →
  ∃ ending, segment = line_content segment ++ ending
    ∧ (ending = [] ∨ ending = [10] ∨ ending = [13; 10]) ∧ 10 ∉ line_content segment.
Proof.
  intros (content & ending & -> & He & Hc). unfold line_content.
  destruct (strip_suffix (content ++ ending) [10]) as [raw|] eqn:E.
  - apply strip_suffix_Some in E. destruct He as [->| ->].
    { rewrite app_nil_r in E. subst content. destruct Hc. apply elem_of_app. right. constructor. }
    apply app_inv_tail in E as ->. destruct (strip_suffix raw [13]) as [c|] eqn:E13; intros H13.
    + apply strip_suffix_Some in E13 as ->. exists [13; 10]. split_and!; [by rewrite <- (assoc (++))|auto|].
      intros H. apply Hc, elem_of_app. by left.
    + exists [10]. split_and!; auto.
  - intros _. destruct He as [->| ->]; [|by rewrite (proj2 (strip_suffix_Some _ _ content)) in E].
    exists []. rewrite !app_nil_r. split_and!; auto.
Qed.

Lemma is_reserved_false (k : str) : is_reserved k = false ↔ may_set k.
Proof.
  unfold is_reserved, may_set. rewrite orb_false_iff. split.
  - intros [Hk Hp]. split.
    + intros Hin. apply not_true_iff_false in Hk. apply Hk, existsb_exists. exists k.
      split; [by apply list_elem_of_In|by apply str_eqb_eq].
    + intros prefix rest Hin ->. apply not_true_iff_false in Hp. apply Hp, existsb_exists. exists prefix.
      split; [by apply list_elem_of_In|]. apply starts_with_true. by exists rest.
  - intros [Hk Hp]. split; apply not_true_iff_false; intros (x & Hin%list_elem_of_In & E)%existsb_exists.
    + apply str_eqb_eq in E as <-. done.
    + apply starts_with_true in E as (rest & ->). by eapply Hp.
Qed.

Lemma line_form_parse (segment : str) (entry : option (str * str)) (line : Z) :
  is_line segment →
  line_form segment entry ↔
  mem 0 (line_content segment) = false ∧ mem 13 (line_content segment) = false
  ∧ parse_line (line_content segment) line = Ok entry
  ∧ match entry with Some (k, _) => is_reserved k = false | None => True end.
Proof.
  intros Hline. rewrite !mem_false.
  assert (∀ c, match entry with Some (k, v) => assignment c k v ∧ may_set k | None => empty_line c end ↔
    parse_line c line = Ok entry ∧ match entry with Some (k, _) => is_reserved k = false | None => True end) as Hc.
  { intros c. destruct entry as [[k v]|]; [by rewrite parse_line_Some, is_reserved_false|].
    rewrite parse_line_None. tauto. }
  split.
  - intros (content & ending & -> & He & H0 & H10 & H13 & H). rewrite line_content_of by done.
    apply Hc in H. tauto.
  - intros (H0 & H13 & H). destruct (line_content_split segment Hline H13) as (ending & E & He & H10).
    exists (line_content segment), ending. split_and!; try done. by apply Hc.
Qed.

Lemma parse_lines_form (segments : list str) (index : Z) (seen : list (str * Z)) (pairs : list (str * str)) :
  Forall is_line segments →
  parse_lines index seen segments = Ok pairs ↔
  ∃ entries, Forall2 line_form segments entries ∧ pairs = omap id entries ∧ NoDup pairs.*1
    ∧ Forall (fun k => bt_get k seen = None) pairs.*1.
Proof.
  revert index seen pairs. induction segments as [|segment segments IH]; intros index seen pairs Hlines;
    cbn [parse_lines].
  { split.
    - intros [= <-]. exists []. by split_and!; try constructor.
    - intros (entries & H & -> & _). by inversion H. }
  apply List.Forall_cons_iff in Hlines as [Hline Hlines]. 
  set (line := line_number index). split.
  - destruct (mem 0 _) eqn:E0; [done|]. destruct (mem 13 _) eqn:E13; [done|].
    intros (entry & Ee & H)%result_bind_Ok. destruct entry as [[k v]|].
    + destruct (is_reserved k) eqn:Er; [done|]. destruct (bt_get k seen) eqn:Eg; [done|].
      apply result_bind_Ok in H as (rest & H & [= <-]). apply (IH _ _ _ Hlines) in H as (entries & Hf & -> & Hn & Hs).
      exists (Some (k, v) :: entries). split_and!.
      * constructor; [|done]. by apply (line_form_parse _ _ line Hline).
      * done.
      * cbn. apply list.NoDup_cons. split; [|done]. intros Hin.
        pose proof (Forall_elem _ _ _ Hs Hin) as Hk. cbn in Hk. by rewrite bt_get_insert_eq in Hk.
      * cbn. constructor; [done|]. apply List.Forall_forall. intros k' Hk'%list_elem_of_In.
        pose proof (Forall_elem _ _ _ Hs Hk') as Hk. cbn in Hk.
        destruct (decide (k' = k)) as [->|Hne]; [done|]. by rewrite bt_get_insert_ne in Hk.
    + apply (IH _ _ _ Hlines) in H as (entries & Hf & -> & Hn & Hs). exists (None :: entries). split_and!; [|done..].
      constructor; [|done]. by apply (line_form_parse _ _ line Hline).
  - intros (entries & Hf & -> & Hn & Hs). inversion Hf as [|? entry ? entries' Hl Hf']; subst.
    apply (line_form_parse _ _ line Hline) in Hl as (-> & -> & -> & Hr). cbn [result_bind].
    destruct entry as [[k v]|].
    + rewrite Hr. cbn in Hs, Hn. apply list.NoDup_cons in Hn as [Hk Hn].
      apply List.Forall_cons_iff in Hs as [Hsk Hs]. rewrite Hsk.
      rewrite (proj2 (IH (index + 1) (bt_insert k line seen) (omap id entries') Hlines)); [done|].
      exists entries'. split_and!; [done..|]. apply List.Forall_forall. intros k' Hk'%list_elem_of_In.
      rewrite bt_get_insert_ne by (intros ->; done). by apply (Forall_elem _ _ _ Hs).
    + apply (IH _ _ _ Hlines). by exists entries'.
Qed.

(** ** Theorems *)

(** [parse] reads the grammar of files, and nothing else. *)
Lemma parse_file_form (bytes : str) (pairs : list (str * str)) :
  parse bytes = Ok pairs ↔ file_form bytes pairs.
Proof.
  unfold parse, file_form. destruct (starts_with bytes BOM) eqn:Eb.
  { split; [done|]. intros (H & _). apply starts_with_true in Eb as (r & ->). by destruct (H r). }
  destruct (str_ok bytes); cbn [negb]; [|split; [done|by intros (_ & ? & _)]].
  rewrite parse_lines_form by apply split_inclusive_lines. split.
  - intros (entries & H1 & H2 & H3 & _). split_and!; [|done|by exists entries].
    intros r ->. apply not_true_iff_false in Eb. apply Eb, starts_with_true. by exists r.
  - intros (_ & _ & entries & H1 & H2 & H3). exists entries. split_and!; [done..|]. by apply List.Forall_forall.
Qed.

(** C37: an environment file is accepted exactly when it is UTF-8 without a
    byte-order mark and each of its lines is blank, a comment or an assignment of
    a variable that is not reserved and not set twice; and then the pairs read are
    the assignments in their order. *)
Theorem env_file_grammar (bytes : str) (pairs : list (str * str)) :
  parse bytes = Ok pairs ↔ file_form bytes pairs.
Proof. apply parse_file_form. Qed.

(** *** Writing a file *)

Definition print_pair (kv : str * str) : str := kv.1 ++ lit "=" ++ (ch "'" :: kv.2 ++ [ch "'"]) ++ [10].
Definition print_env (pairs : list (str * str)) : str := concat (print_pair <$> pairs).

Definition printable (kv : str * str) : Prop :=
  key_form kv.1 ∧ may_set kv.1 ∧ str_ok kv.2 = true
  ∧ Forall (fun b => b ≠ 0 ∧ b ≠ 10 ∧ b ≠ 13 ∧ b ≠ ch "'") kv.2.

(** Takes the conditions of [utf8_from] apart, in a hypothesis and the goal. *)
Ltac utf8_cases :=
  repeat match goal with
  | H : (if ?c then _ else _) = true |- _ => destruct c
  | H : match ?l with [] => _ | _ :: _ => _ end = true |- _ => destruct l; cbn [app]
  | H : _ && _ = true |- _ => apply andb_true_iff in H as [H ?]
  | |- _ && _ = true => apply andb_true_iff; split
  end; try done; auto.

Lemma utf8_from_S (n : nat) (s : str) : utf8_from n s = true → utf8_from (S n) s = true.
Proof.
  revert s. induction n as [|n IH]; intros [|x s] H; try done.
  change (utf8_from (S (S n)) (x :: s)) with
    (if in_range 0 127 x then utf8_from (S n) s
     else if in_range 194 223 x then
       match s with c :: rest => is_continuation c && utf8_from (S n) rest | _ => false end
     else if in_range 224 239 x then
       match s with
       | c :: d :: rest =>
           is_continuation c && is_continuation d && ((225 <=? x) || (160 <=? c))
           && ((x <? 237) || (238 <=? x) || (c <=? 159)) && utf8_from (S n) rest
       | _ => false
       end
     else if in_range 240 244 x then
       match s with
       | c :: d :: e :: rest =>
           is_continuation c && is_continuation d && is_continuation e
           && ((241 <=? x) || (144 <=? c)) && ((x <? 244) || (c <=? 143)) && utf8_from (S n) rest
       | _ => false
       end
     else false).
  cbn [utf8_from] in H. utf8_cases.
Qed.

Lemma utf8_from_app (f g : nat) (a b : str) :
  utf8_from f a = true → utf8_from g b = true → utf8_from (f + g) (a ++ b) = true.
Proof.
  revert a. induction f as [|f IH]; intros a Ha Hb; [by destruct a|].
  destruct a as [|x a]; [cbn [app]; apply (utf8_from_S (f + g) b), (IH []); [by destruct f|done]|].
  cbn [Nat.add app utf8_from] in *. utf8_cases.
Qed.

Lemma str_ok_app (a b : str) : str_ok a = true → str_ok b = true → str_ok (a ++ b) = true.
Proof. intros. unfold str_ok. rewrite length_app. by apply utf8_from_app. Qed.

Lemma str_ok_ascii (s : str) : Forall (fun b => 0 ≤ b < 128) s → str_ok s = true.
Proof.
  unfold str_ok. induction 1 as [|b s Hb Hs IH]; [done|]. cbn. unfold in_range.
  by rewrite (proj2 (Z.leb_le 0 b)), (proj2 (Z.leb_le b 127)) by lia.
Qed.

Lemma key_form_ascii (k : str) : key_form k → Forall (fun b => 0 ≤ b < 128 ∧ b ≠ 0 ∧ b ≠ 10 ∧ b ≠ 13) k.
Proof.
  intros (b & k' & _ & _ & H). eapply List.Forall_impl; [|exact H]. intros c Hc. cbn.
  unfold is_key_char in Hc. dk_byte.
Qed.

Lemma printable_line (kv : str * str) :
  printable kv →
  ∃ l, print_pair kv = l ++ [10] ∧ (10 ∉ l) ∧ line_form (l ++ [10]) (Some kv) ∧ str_ok (print_pair kv) = true.
Proof.
  intros (Hk & Hr & Hok & Hv). destruct kv as [k v]. cbn [fst snd] in *.
  set (l := k ++ lit "=" ++ ch "'" :: v ++ [ch "'"]). exists l.
  pose proof (key_form_ascii k Hk) as Ha.
  assert (∀ x, x ∈ l → x ∈ k ∨ x = 61 ∨ x = 39 ∨ x ∈ v) as Hin.
  { intros x. subst l. change (lit "=") with [61]. 
    repeat (rewrite elem_of_app || rewrite elem_of_cons || rewrite elem_of_nil). dk_ch. tauto. }
  assert (∀ x, x ∈ l → x ≠ 0 ∧ x ≠ 10 ∧ x ≠ 13) as Hsafe.
  { intros x [Hx|[->|[->|Hx]]]%Hin; [|lia|lia|].
    - pose proof (Forall_elem _ _ _ Ha Hx) as H. cbn in H. lia.
    - pose proof (Forall_elem _ _ _ Hv Hx) as H. cbn in H. lia. }
  assert (print_pair (k, v) = l ++ [10]) as El.
  { unfold print_pair, l. cbn [fst snd]. by rewrite <- !(assoc (++)). }
  split_and!; [done|by intros (_ & ? & _)%Hsafe| |].
  - exists l, [10].
    split_and!; [done|auto|by intros (? & _)%Hsafe|by intros (_ & ? & _)%Hsafe|by intros (_ & _ & ?)%Hsafe| |done].
    exists [], [], (ch "'" :: v ++ [ch "'"]), []. cbn [app]. rewrite app_nil_r.
    split_and!; [done|constructor|by left|done| |constructor|done].
    constructor; [by left|]. intros H. pose proof (Forall_elem _ _ _ Hv H) as Hx. cbn in Hx. by destruct_and!.
  - rewrite El. subst l. repeat apply str_ok_app; try done.
    apply str_ok_ascii. eapply List.Forall_impl; [|exact Ha]. cbn. lia.
Qed.

(** A file written from pairs is read back as them: for any variables that
    may be set, each once, with values that are text without quotes, line ends
    and NUL. *)
Theorem env_file_round_trip (pairs : list (str * str)) :
  Forall printable pairs → NoDup pairs.*1 → parse (print_env pairs) = Ok pairs.
Proof.
  intros Hp Hn. apply parse_file_form. split_and!.
  - intros rest E. destruct Hp as [|[k v] pairs (Hk & _) _]; [done|].
    destruct Hk as (b & k' & Ek & _ & Hk). cbn in Ek. unfold print_env in E. cbn in E.
    unfold print_pair in E. cbn in E. rewrite Ek in E. injection E as -> _.
    rewrite Ek in Hk. inversion Hk as [|? ? Hb]; subst. apply key_char_ascii in Hb. lia.
  - clear Hn. unfold print_env. induction Hp as [|kv pairs Hkv _ IH]; [done|]. cbn.
    destruct (printable_line kv Hkv) as (l & _ & _ & _ & Hok). by apply str_ok_app.
  - exists (Some <$> pairs). split_and!.
    + clear Hn. unfold print_env. induction Hp as [|kv pairs Hkv _ IH]; [constructor|].
      destruct (printable_line kv Hkv) as (l & E & Hl & Hf & _). cbn [fmap list_fmap concat].
      rewrite E, <- (assoc (++)), split_inclusive_line by done. by constructor.
    + clear. induction pairs as [|kv pairs IH]; [done|]. cbn. by f_equal.
    + done.
Qed.

(** *** The environment *)

Definition env_get (k : str) (env : list (str * str)) : option str :=
  snd <$> find_first (fun kv => str_eqb kv.1 k) env.

Lemma find_first_app {A : Type} (p : A → bool) (a b : list A) :
  find_first p (a ++ b) = match find_first p a with Some x => Some x | None => find_first p b end.
Proof. induction a as [|x a IH]; cbn; [done|]. by destruct (p x). Qed.

Lemma find_first_filter {A : Type} (p q : A → bool) (l : list A) :
  (∀ x, x ∈ l → p x = true → q x = true) → find_first p (List.filter q l) = find_first p l.
Proof.
  induction l as [|x l IH]; intros H; cbn; [done|].
  assert (find_first p (List.filter q l) = find_first p l) as E.
  { apply IH. intros y Hy. apply H. by constructor. }
  destruct (q x) eqn:Eq; cbn.
  - by rewrite E.
  - destruct (p x) eqn:Ep; [|done]. rewrite H in Eq; [done|constructor|done].
Qed.

(** The inherited environment wins: a variable set there keeps its value, and
    one that is not gets the value of the file. *)
Theorem inherited_variables_win (pairs inherited : list (str * str)) (k : str) :
  env_get k (merged_with pairs inherited)
  = match env_get k inherited with Some v => Some v | None => env_get k pairs end.
Proof.
  unfold env_get, merged_with. rewrite find_first_app.
  destruct (find_first _ inherited) as [kv|] eqn:E; cbn; [done|].
  rewrite find_first_filter; [done|]. intros kv _ Ek%str_eqb_eq. apply forallb_true.
  apply find_first_None in E. eapply List.Forall_impl; [|exact E]. cbn. intros known Hn.
  by rewrite Ek, Hn.
Qed.

(** The first option goes with its value; nothing else does. *)
Lemma strip_option_spec (pre post : list str) (v : str) :
  Forall (fun a => a ≠ lit "--env-file" ∧ starts_with a (lit "--env-file=") = false) pre →
  strip_option pre = pre
  ∧ strip_option (pre ++ lit "--env-file" :: v :: post) = pre ++ post
  ∧ (str_ok v = true → strip_option (pre ++ (lit "--env-file=" ++ v) :: post) = pre ++ post).
Proof.
  induction 1 as [|a pre [Ha Hb] Hpre (IH1 & IH2 & IH3)]; cbn [app strip_option].
  - split_and!; [done|done|]. intros Hv.
    assert (str_eqb (lit "--env-file=" ++ v) (lit "--env-file") = false) as -> by (by apply str_eqb_neq).
    rewrite str_ok_app by done. by rewrite (proj2 (starts_with_true _ _)) by (by exists v).
  - rewrite (proj2 (str_eqb_neq _ _) Ha), Hb, andb_false_r, IH1, IH2.
    split_and!; [done..|]. intros Hv. by rewrite IH3.
Qed.

(** ** Witnesses *)

Lemma env_file_round_trip_witness :
  parse (print_env [(lit "A", lit "x y"); (lit "B_2", [])]) = Ok [(lit "A", lit "x y"); (lit "B_2", [])].
Proof.
  apply env_file_round_trip.
  - constructor; [|constructor; [|constructor]]; 
      (split; [|split; [by apply is_reserved_false|split; [reflexivity|]]]).
    + exists (ch "A"), []. split_and!; [done|done|]. repeat constructor.
    + cbn. repeat (constructor; [vm_compute; split_and!; discriminate|]). constructor.
    + exists (ch "B"), (lit "_2"). split_and!; [done|done|]. repeat constructor.
    + constructor.
  - apply list.NoDup_cons. split; [|apply list.NoDup_cons; split; [apply not_elem_of_nil|constructor]].
    intros H%list_elem_of_singleton. discriminate.
Defined.
