(* ===== verification/Pipe.v ===== *)
(** * Pipes between the stages of a script

    [dekopon-process/src/pipe.rs]: a writer sends its bytes in chunks through a
    channel of bounded capacity; a reader takes chunks out of it, or whole lines
    with the bytes charged to the budget of the tree; other readers read a
    socket or bytes that are there from the start.

    A reader waits in a loop. A [Turn] is what one turn of it meets: what the
    writer does meanwhile, the signals and the clock, what other threads do to
    the charged bytes, what the socket answers. A call that runs out of turns is
    still waiting ([None]). *)

From Stdlib Require Import ZArith Lia Ascii String.
From stdpp Require Import base strings list numbers.
From S2P Require Import Prelude RustStr ProcessTree Utf8 MessageText.

Definition CHUNK_BYTES : nat := Z.to_nat (4 * 1024).
Definition CAPACITY_CHUNKS : nat := 16.
#[local] Arguments CHUNK_BYTES : simpl never.

Inductive ReadOutcome : Type :=
| Bytes (bytes : str)
| End.

Inductive WriteOutcome : Type := Accepted | ReaderGone.

Inductive Source : Type := Source_Channel | Source_Socket | Source_Fixed.

(** [slice::chunks]; a chunk takes a byte at least of the fuel. *)
Fixpoint chunks_from (fuel n : nat) (bytes : str) : list str :=
  match fuel, bytes with
  | S fuel, _ :: _ => take n bytes :: chunks_from fuel n (drop n bytes)
  | _, _ => []
  end.
Definition chunks (n : nat) (bytes : str) : list str := chunks_from (length bytes) n bytes.

(** ** The writer *)

(** The channel with its writer: [sending] are the chunks left of the call of
    [write], if one is under way; [outcomes] and [write_seen] what the calls
    returned and what [observe] was told. For the theorems, [offered] is every
    byte that was to be written and [sent] every byte that went in. *)
Record Channel : Type := mkChannel {
  queue : list str;
  sending : option (list str);
  writer_alive : bool;
  reader_alive : bool;
  outcomes : list WriteOutcome;
  write_seen : list (nat * bool);
  offered : str;
  sent : str;
}.

Inductive WriterStep : Type :=
| BeginWrite (bytes : str)
| Send
| DropWriter.

Definition end_write (outcome : WriteOutcome) (c : Channel) : Channel :=
  mkChannel (queue c) None (writer_alive c) (reader_alive c) (outcomes c ++ [outcome])
    (write_seen c) (offered c) (sent c).

(** One [send] of [PipeWriter::write]: it waits while the channel is full and
    fails when the reader is gone. *)
Definition send_chunk (chunk : str) (rest : list str) (c : Channel) : Channel :=
  if negb (reader_alive c) then
    end_write ReaderGone
      (mkChannel (queue c) None (writer_alive c) false (outcomes c) (write_seen c ++ [(O, false)])
         (offered c) (sent c))
  else if (length (queue c) <? CAPACITY_CHUNKS)%nat then
    mkChannel (queue c ++ [chunk]) (Some rest) (writer_alive c) true (outcomes c)
      (write_seen c ++ [(length chunk, true)]) (offered c) (sent c ++ chunk)
  else c.

(** [PipeWriter::write], a chunk a step, and the drop of the writer, which no
    call holds then. A step that is not possible waits. *)
Definition writer_step (step : WriterStep) (c : Channel) : Channel :=
  match step, sending c with
  | BeginWrite bytes, None =>
      if writer_alive c
      then mkChannel (queue c) (Some (chunks CHUNK_BYTES bytes)) true (reader_alive c) (outcomes c)
             (write_seen c) (offered c ++ bytes) (sent c)
      else c
  | Send, Some [] => end_write Accepted c
  | Send, Some (chunk :: rest) => send_chunk chunk rest c
  | DropWriter, None =>
      mkChannel (queue c) None false (reader_alive c) (outcomes c) (write_seen c) (offered c) (sent c)
  | _, _ => c
  end.

Definition writer_steps (steps : list WriterStep) (c : Channel) : Channel :=
  foldl (fun c step => writer_step step c) c steps.

(** [Receiver::recv_timeout], when it returns. *)
Inductive Received : Type := Received_Ok (bytes : str) | Timeout | Disconnected.

Definition recv (c : Channel) : Received * Channel :=
  match queue c with
  | chunk :: rest =>
      (Received_Ok chunk,
       mkChannel rest (sending c) (writer_alive c) (reader_alive c) (outcomes c) (write_seen c)
         (offered c) (sent c))
  | [] => (if writer_alive c then Timeout else Disconnected, c)
  end.

(** ** The reader *)

Record PipeReader : Type := mkReader {
  source : Source;
  pending : str;
  ended : bool;
  read_seen : list nat;
}.

(** What [socket.read] answers: bytes, at most a chunk; an error after which
    the loop tries again; or another error. *)
Inductive SocketRead : Type := SocketBytes (bytes : str) | SocketRetry | SocketError.

Record Turn : Type := mkTurn {
  stopped : bool;
  cancel_env : Env;
  deadline_env : Env;
  meanwhile : list WriterStep;
  others : Z;
  socket : SocketRead;
}.

(** The reader, its channel and the counters of the tree. *)
Record World : Type := mkWorld {
  reader : PipeReader;
  channel : Channel;
  counters : Shared;
}.

Definition set_reader (w : World) (r : PipeReader) : World := mkWorld r (channel w) (counters w).
Definition set_pending (r : PipeReader) (bytes : str) : PipeReader :=
  mkReader (source r) bytes (ended r) (read_seen r).
Definition set_ended (r : PipeReader) : PipeReader :=
  mkReader (source r) (pending r) true (read_seen r).
Definition observe (n : nat) (r : PipeReader) : PipeReader :=
  mkReader (source r) (pending r) (ended r) (read_seen r ++ [n]).

(** What other threads do to the charged bytes. *)
Definition interfere (delta : Z) (w : World) : World :=
  mkWorld (reader w) (channel w) (set_retained (counters w) (retained (counters w) + delta)).

(** The bytes of a socket are [offered] and [sent] when they are read. *)
Definition note_socket (bytes : str) (w : World) : World :=
  let c := channel w in
  mkWorld (reader w)
    (mkChannel (queue c) (sending c) (writer_alive c) (reader_alive c) (outcomes c) (write_seen c)
       (offered c ++ bytes) (sent c ++ bytes))
    (counters w).

Definition pipe (s : Shared) : World :=
  mkWorld (mkReader Source_Channel [] false []) (mkChannel [] None true true [] [] [] []) s.
Definition from_bytes (bytes : str) (s : Shared) : World :=
  mkWorld (mkReader Source_Fixed bytes true []) (mkChannel [] None false true [] [] bytes bytes) s.
Definition from_socket (s : Shared) : World :=
  mkWorld (mkReader Source_Socket [] false []) (mkChannel [] None false true [] [] [] []) s.

Section Reading.
Context (t : TreeContext).

(** The part of a turn after the checks: a result, or the loop goes on. *)
Definition take_chunk (turn : Turn) (w : World) : option ReadOutcome * World :=
  let r := reader w in
  match source r with
  | Source_Fixed => (None, w)
  | Source_Channel =>
      let '(received, c) := recv (writer_steps (meanwhile turn) (channel w)) in
      let w := mkWorld r c (counters w) in
      match received with
      | Received_Ok [] => (None, w)
      | Received_Ok bytes => (Some (Bytes bytes), set_reader w (observe (length bytes) r))
      | Timeout => (None, w)
      | Disconnected => (None, set_reader w (set_ended r))
      end
  | Source_Socket =>
      match socket turn with
      | SocketBytes [] => (None, set_reader w (set_ended r))
      | SocketBytes bytes =>
          let bytes := take CHUNK_BYTES bytes in (Some (Bytes bytes), note_socket bytes w)
      | SocketRetry => (None, w)
      | SocketError => (None, set_reader w (set_ended r))
      end
  end.

(** One turn of the loop of [read_unless]. *)
Definition read_turn (turn : Turn) (w : World) : option (result LimitExceeded ReadOutcome) * World :=
  if ended (reader w) then (Some (Ok End), w)
  else if stopped turn then (Some (Ok End), w)
  else if is_cancelled (cancel_env turn) then (Some (Err Cancelled), w)
  else
    match check_deadline t (deadline_env turn) with
    | Err x => (Some (Err x), w)
    | Ok _ =>
        let '(outcome, w) := take_chunk turn (interfere (others turn) w) in (Ok <$> outcome, w)
    end.

(** The loop; with it the turns that are left. A reader that has ended needs
    no turn. *)
Fixpoint read_loop (turns : list Turn) (w : World)
    : option (result LimitExceeded ReadOutcome) * World * list Turn :=
  if ended (reader w) then (Some (Ok End), w, turns)
  else
    match turns with
    | [] => (None, w, [])
    | turn :: turns =>
        match read_turn turn w with
        | (Some r, w) => (Some r, w, turns)
        | (None, w) => read_loop turns w
        end
    end.

Definition read_unless (turns : list Turn) (w : World)
    : option (result LimitExceeded ReadOutcome) * World * list Turn :=
  let r := reader w in
  match pending r with
  | [] => read_loop turns w
  | _ :: _ =>
      let n := Nat.min (length (pending r)) CHUNK_BYTES in
      (Some (Ok (Bytes (take n (pending r)))),
       set_reader w (observe n (set_pending r (drop n (pending r)))), turns)
  end.

(** [read]: its flag is never set. *)
Definition read (turns : list Turn) (w : World)
    : option (result LimitExceeded ReadOutcome) * World * list Turn :=
  read_unless
    ((fun u => mkTurn false (cancel_env u) (deadline_env u) (meanwhile u) (others u) (socket u)) <$> turns) w.

(** ** Lines *)

Record ChargedBytes : Type := mkCharged {
  bytes : str;
  charges : list RetainedBytes;
}.

Definition ChargedBytes_new : ChargedBytes := mkCharged [] [].

(** Dropping the charges gives the bytes back. *)
Definition drop_charges (line : ChargedBytes) (w : World) : World :=
  mkWorld (reader w) (channel w) (foldl (fun s r => RetainedBytes_drop r s) (counters w) (charges line)).

(** [line.extend(self.pending.drain(..n), n, budget)?]: the bytes leave
    [pending] whether or not the charge is granted. *)
Definition extend (n : nat) (line : ChargedBytes) (w : World)
    : result LimitExceeded ChargedBytes * World :=
  let r := reader w in
  let '(charge, s) := retain t (Z.of_nat n) (counters w) in
  let w := mkWorld (set_pending r (drop n (pending r))) (channel w) s in
  match charge with
  | Err x => (Err x, drop_charges line w)
  | Ok charge => (Ok (mkCharged (bytes line ++ take n (pending r)) (charges line ++ [charge])), w)
  end.

(** The first line feed, counted with the bytes before it. *)
Fixpoint line_end (s : str) : option nat :=
  match s with
  | [] => None
  | b :: s => if b =? ch "010" then Some 1%nat else S <$> line_end s
  end.

(** The loop of [read_line]. Every read that goes on takes a turn, so the
    turns, with two more, are fuel enough. *)
Fixpoint line_loop (fuel : nat) (line : ChargedBytes) (turns : list Turn) (w : World)
    : option (result LimitExceeded (option ChargedBytes)) * World :=
  match fuel with
  | O => (None, w)
  | S fuel =>
      match line_end (pending (reader w)) with
      | Some n =>
          match extend n line w with
          | (Err x, w) => (Some (Err x), w)
          | (Ok line, w) => (Some (Ok (Some line)), w)
          end
      | None =>
          match extend (length (pending (reader w))) line w with
          | (Err x, w) => (Some (Err x), w)
          | (Ok line, w) =>
              match read turns w with
              | (None, w, _) => (None, w)
              | (Some (Err x), w, _) => (Some (Err x), drop_charges line w)
              | (Some (Ok End), w, _) =>
                  match bytes line with
                  | [] => (Some (Ok None), drop_charges line w)
                  | _ :: _ => (Some (Ok (Some line)), w)
                  end
              | (Some (Ok (Bytes chunk)), w, turns) =>
                  line_loop fuel line turns (set_reader w (set_pending (reader w) (pending (reader w) ++ chunk)))
              end
          end
      end
  end.

Definition read_line (turns : list Turn) (w : World)
    : option (result LimitExceeded (option ChargedBytes)) * World :=
  line_loop (S (S (length turns))) ChargedBytes_new turns w.
End Reading.

(** The reader's end is dropped with what is in the channel. *)
Definition drop_reader (w : World) : World :=
  let c := channel w in
  mkWorld (reader w)
    (mkChannel [] (sending c) (writer_alive c) false (outcomes c) (write_seen c) (offered c) (sent c))
    (counters w).

(** ** A pipe in use *)

Inductive Call : Type :=
| CallRead (turns : list Turn)
| CallReadLine (turns : list Turn)
| CallWriter (steps : list WriterStep)
| CallDropReader.

(** What a call that has returned gave its caller. *)
Inductive Answer : Type :=
| Gave (bytes : str)
| Failed (error : LimitExceeded).

(** A call that has not returned is [None], and so is a call on a reader that
    was dropped; after an error the reader is there as the call left it. *)
Definition call (t : TreeContext) (k : Call) (w : World) : option (Answer * World) :=
  match k with
  | CallRead turns =>
      if reader_alive (channel w) then
        match read_unless t turns w with
        | (Some (Ok (Bytes b)), w, _) => Some (Gave b, w)
        | (Some (Ok End), w, _) => Some (Gave [], w)
        | (Some (Err e), w, _) => Some (Failed e, w)
        | (None, _, _) => None
        end
      else None
  | CallReadLine turns =>
      if reader_alive (channel w) then
        match read_line t turns w with
        | (Some (Ok (Some line)), w) => Some (Gave (bytes line), w)
        | (Some (Ok None), w) => Some (Gave [], w)
        | (Some (Err e), w) => Some (Failed e, w)
        | (None, _) => None
        end
      else None
  | CallWriter steps =>
      Some (Gave [], mkWorld (reader w) (writer_steps steps (channel w)) (counters w))
  | CallDropReader => Some (Gave [], drop_reader w)
  end.

Fixpoint run (t : TreeContext) (ks : list Call) (w : World) : option (list Answer * World) :=
  match ks with
  | [] => Some ([], w)
  | k :: ks =>
      match call t k w with
      | None => None
      | Some (answer, w) =>
          match run t ks w with
          | Some (answers, w) => Some (answer :: answers, w)
          | None => None
          end
      end
  end.

(** ** The invariant *)

Definition chunk_ok (k : str) : Prop := k ≠ [] ∧ (length k ≤ CHUNK_BYTES)%nat.
Definition unsent (c : Channel) : list str := default [] (sending c).
Definition accepted (seen : list (nat * bool)) : nat :=
  foldr (fun (x : nat * bool) n => if x.2 then x.1 + n else n)%nat O seen.

Record channel_ok (c : Channel) : Prop := {
  co_queue : Forall chunk_ok (queue c);
  co_capacity : (length (queue c) ≤ CAPACITY_CHUNKS)%nat;
  co_unsent : Forall chunk_ok (unsent c);
  co_closed : writer_alive c = false → sending c = None;
  co_gone : reader_alive c = true → ReaderGone ∉ outcomes c;
  co_offered : reader_alive c = true → offered c = sent c ++ concat (unsent c);
}.

Section Source.
Context (src : Source).

(** [got] is what the reader was given, with what it holds. *)
Record world_ok (got : str) (w : World) : Prop := {
  wo_reads : source (reader w) = src;
  wo_channel : channel_ok (channel w);
  wo_alive : reader_alive (channel w) = true;
  wo_sent : got ++ concat (queue (channel w)) = sent (channel w);
  wo_ended : src = Source_Channel → ended (reader w) = true →
    writer_alive (channel w) = false ∧ queue (channel w) = [];
  wo_source : src ≠ Source_Channel →
    writer_alive (channel w) = false ∧ queue (channel w) = [];
  wo_seen : src = Source_Channel →
    accepted (write_seen (channel w)) = length (sent (channel w));
}.

Lemma chunks_from_ok (fuel n : nat) (s : str) :
  (0 < n)%nat → (length s ≤ fuel)%nat →
  concat (chunks_from fuel n s) = s ∧ Forall (fun k => k ≠ [] ∧ (length k ≤ n)%nat) (chunks_from fuel n s).
Proof.
  intros Hn. revert s. induction fuel as [|fuel IH]; intros [|b s] Hl; cbn [chunks_from length] in *;
    try (split; [done|constructor]); [lia|].
  destruct (IH (drop n (b :: s))) as [E H]; [rewrite length_drop; cbn; lia|]. split.
  - cbn [concat]. by rewrite E, take_drop.
  - constructor; [|done]. split; [by destruct n; [lia|]|]. rewrite length_take. lia.
Qed.

Lemma chunks_ok (s : str) : concat (chunks CHUNK_BYTES s) = s ∧ Forall chunk_ok (chunks CHUNK_BYTES s).
Proof. apply chunks_from_ok; [|done]. unfold CHUNK_BYTES. lia. Qed.

Ltac channel_cbn :=
  cbn [queue sending writer_alive reader_alive outcomes write_seen offered sent] in *.

(** What a step of the writer adds, at the end of the queue. *)
Lemma writer_step_sends (step : WriterStep) (c : Channel) :
  ∃ x, sent (writer_step step c) = sent c ++ x
    ∧ concat (queue (writer_step step c)) = concat (queue c) ++ x
    ∧ accepted (write_seen (writer_step step c)) = (accepted (write_seen c) + length x)%nat
    ∧ reader_alive (writer_step step c) = reader_alive c
    ∧ (writer_alive c = false → writer_alive (writer_step step c) = false
         ∧ (sending c = None → queue (writer_step step c) = queue c)).
Proof.
  assert (∀ a b, accepted (a ++ b) = (accepted a + accepted b)%nat) as Hacc.
  { intros a b. unfold accepted. rewrite foldr_app. induction a as [|[n []] a IH]; cbn in *; rewrite ?IH; lia. }
  destruct c as [q se wa ra oc ws off st]. unfold writer_step, send_chunk, end_write.
  channel_cbn. destruct step as [bs| |], se as [[|k ks]|], wa, ra; cbn [negb]; channel_cbn;
    try destruct (_ <? _)%nat; channel_cbn;
    first
      [exists []; rewrite !app_nil_r, ?Hacc; split_and!; auto; cbn; lia
      |exists k; rewrite concat_app, Hacc; cbn; rewrite !app_nil_r; split_and!; auto; try lia; done].
Qed.

Lemma writer_step_ok (step : WriterStep) (c : Channel) : channel_ok c → channel_ok (writer_step step c).
Proof.
  intros [Hq Hcap Hu Hcl Hg Ho]. destruct c as [q se wa ra oc ws off st].
  unfold writer_step, send_chunk, end_write, unsent in *. channel_cbn.
  destruct step as [bs| |], se as [[|k ks]|]; cbn [from_option id] in *; try by split.
  - destruct wa; [|by split]. destruct (chunks_ok bs) as [E H].
    split; unfold unsent; channel_cbn; cbn [from_option id]; try done. intros Hr. rewrite E, Ho by done.
    cbn. by rewrite app_nil_r.
  - split; unfold unsent; channel_cbn; cbn; auto.
    + intros Hr. rewrite elem_of_app, list_elem_of_singleton. intros [?|?]; [by apply Hg|done].
  - apply List.Forall_cons_iff in Hu as [Hk Hks]. destruct ra; cbn [negb].
    + destruct (Nat.ltb_spec (length q) CAPACITY_CHUNKS); [|by split; unfold unsent; channel_cbn; cbn; auto].
      split; unfold unsent; channel_cbn; cbn [from_option id]; auto.
      * apply Forall_app. auto.
      * rewrite length_app. cbn. lia.
      * intros Hw. by apply Hcl in Hw.
      * intros Hr. rewrite Ho by done. cbn. by rewrite (assoc (++)).
    + by split; unfold unsent; channel_cbn; cbn; auto.
Qed.

Lemma writer_steps_ok (steps : list WriterStep) (c : Channel) :
  channel_ok c →
  channel_ok (writer_steps steps c)
  ∧ ∃ x, sent (writer_steps steps c) = sent c ++ x
    ∧ concat (queue (writer_steps steps c)) = concat (queue c) ++ x
    ∧ accepted (write_seen (writer_steps steps c)) = (accepted (write_seen c) + length x)%nat
    ∧ reader_alive (writer_steps steps c) = reader_alive c
    ∧ (writer_alive c = false →
        writer_alive (writer_steps steps c) = false ∧ queue (writer_steps steps c) = queue c).
Proof.
  revert c. unfold writer_steps. induction steps as [|step steps IH]; intros c Hc; cbn [foldl].
  { split; [done|]. exists []. rewrite !app_nil_r. cbn. split_and!; auto; lia. }
  destruct (writer_step_sends step c) as (x & E1 & E2 & E3 & E4 & E5).
  destruct (IH _ (writer_step_ok step c Hc)) as (Hok & y & F1 & F2 & F3 & F4 & F5).
  split; [done|]. exists (x ++ y). rewrite F1, F2, F3, F4, E1, E2, E3, E4, length_app, !(assoc (++)).
  split; [done|]. split; [done|]. split; [lia|]. split; [done|]. intros Hw. pose proof (co_closed _ Hc Hw) as Hs.
  destruct (E5 Hw) as [Hw' Eq]. rewrite <- Eq by done. by apply F5.
Qed.

Lemma recv_ok (c : Channel) :
  channel_ok c →
  let '(received, c') := recv c in
  channel_ok c' ∧ sent c' = sent c ∧ reader_alive c' = reader_alive c ∧ write_seen c' = write_seen c
  ∧ writer_alive c' = writer_alive c
  ∧ match received with
    | Received_Ok b => chunk_ok b ∧ concat (queue c) = b ++ concat (queue c')
    | Timeout => c' = c
    | Disconnected => c' = c ∧ writer_alive c = false ∧ queue c = []
    end.
Proof.
  intros [Hq Hcap Hu Hcl Hg Ho]. unfold recv. destruct (queue c) as [|k rest] eqn:Eq.
  - split_and!; try done; [split; rewrite ?Eq; auto|]. by destruct (writer_alive c).
  - apply List.Forall_cons_iff in Hq as [Hk Hrest]. channel_cbn. split_and!; try done; [|apply Hk..].
    split; channel_cbn; auto. cbn in Hcap. lia.
Qed.

(** ** Reading *)

Definition outcome_bytes (o : option ReadOutcome) : str :=
  match o with Some (Bytes b) => b | _ => [] end.

Lemma take_chunk_ok (turn : Turn) (got : str) (w : World) (o : option ReadOutcome) (w' : World) :
  world_ok got w → ended (reader w) = false → take_chunk turn w = (o, w') →
  world_ok (got ++ outcome_bytes o) w'
  ∧ pending (reader w') = pending (reader w)
  ∧ match o with Some (Bytes b) => chunk_ok b | Some End => False | None => True end.
Proof.
  intros [Hsrc Hc Ha Hs He Hso Hseen] Hend. unfold take_chunk. rewrite Hsrc. destruct src eqn:Esrc.
  - destruct (writer_steps_ok (meanwhile turn) (channel w) Hc) as (Hc1 & x & E1 & E2 & E3 & E4 & _).
    specialize (Hseen eq_refl).
    set (c1 := writer_steps _ _) in *. pose proof (recv_ok c1 Hc1) as Hr.
    destruct (recv c1) as [[b| |] c2]; destruct Hr as (Hc2 & F1 & F2 & F0 & F3 & H).
    all: assert (accepted (write_seen c2) = length (sent c2)) as Hseen'
      by (rewrite F0, F1, E1, E3, length_app; lia).
    + destruct H as [Hb Eq]. destruct b as [|b0 b]; [by destruct Hb|]. intros [= <- <-]. cbn.
      split_and!; try done. split; cbn; try done; try congruence.
      rewrite F1, E1, <- Hs, <- !(assoc (++)). f_equal. rewrite <- E2, Eq. done.
    + intros [= <- <-]. cbn. subst c2. split_and!; try done.
      split; cbn; try done; try congruence.
      by rewrite app_nil_r, E1, <- Hs, <- (assoc (++)), E2.
    + destruct H as (-> & Hw & Eq). intros [= <- <-]. cbn. split_and!; try done.
      split; cbn; try done; try congruence.
      by rewrite app_nil_r, E1, <- Hs, <- (assoc (++)), E2.
  - destruct (Hso ltac:(done)) as [Hw Eq]. pose proof (co_closed _ Hc Hw) as Hn.
    assert (∀ b0 (b : str), chunk_ok (take CHUNK_BYTES (b0 :: b))) as Hk.
    { intros b0 b. split; [done|]. rewrite length_take. lia. }
    destruct (socket turn) as [[|b0 b]| |];
      [|specialize (Hk b0 b); revert Hk; generalize (take CHUNK_BYTES (b0 :: b)); intros k Hk|..];
      intros [= <- <-]; cbn.
    + split_and!; try done. by split; cbn; rewrite ?app_nil_r, ?Esrc.
    + split_and!; try done.
      split; cbn; rewrite ?Esrc; try done.
      * destruct Hc as [Hq Hcap Hu Hcl Hg Ho]. split; unfold unsent; channel_cbn; auto.
        intros Hr. rewrite Ho by done. unfold unsent. rewrite Hn. cbn. by rewrite !app_nil_r.
      * rewrite <- Hs, Eq. cbn. by rewrite !app_nil_r.
    + split_and!; try done. by split; cbn; rewrite ?app_nil_r, ?Esrc.
    + split_and!; try done. by split; cbn; rewrite ?app_nil_r, ?Esrc.
  - intros [= <- <-]. cbn. split_and!; try done. by split; cbn; rewrite ?app_nil_r, ?Esrc.
Qed.

Lemma world_ok_counters (got : str) (w : World) (s : Shared) :
  world_ok got w ↔ world_ok got (mkWorld (reader w) (channel w) s).
Proof. split; intros [? ? ? ? ? ? ?]; by split. Qed.

Lemma world_ok_pending (got : str) (w : World) (p : str) :
  world_ok got w → world_ok got (set_reader w (set_pending (reader w) p)).
Proof. intros [? ? ? ? ? ? ?]. by split. Qed.

(** What a result of a read says: the bytes of a chunk, or the end. *)
Definition outcome_ok (turns : list Turn) (w : World) (o : ReadOutcome) : Prop :=
  match o with
  | Bytes b => chunk_ok b
  | End => ended (reader w) = true ∨ ∃ u, u ∈ turns ∧ stopped u = true
  end.

Lemma read_loop_ok (t : TreeContext) (turns : list Turn) (got : str) (w : World)
    (o : option (result LimitExceeded ReadOutcome)) (w' : World) (turns' : list Turn) :
  world_ok got w → read_loop t turns w = (o, w', turns') →
  pending (reader w') = pending (reader w)
  ∧ match o with
    | Some (Ok x) =>
        world_ok (got ++ outcome_bytes (Some x)) w' ∧ outcome_ok turns w' x
        ∧ (x = End ∨ (length turns' < length turns)%nat)
    | _ => world_ok got w'
    end.
Proof.
  revert w. induction turns as [|u turns IH]; intros w Hok; cbn [read_loop];
    destruct (ended (reader w)) eqn:Ee.
  1, 3: intros [= <- <- <-]; split; [done|]; cbn; rewrite app_nil_r; auto.
  { by intros [= <- <- <-]. }
  unfold read_turn. rewrite Ee. destruct (stopped u) eqn:Es.
  { intros [= <- <- <-]. cbn. rewrite app_nil_r. split_and!; auto. right. exists u. split; [constructor|done]. }
  destruct (is_cancelled _); [by intros [= <- <- <-]|].
  destruct (check_deadline _ _); [|by intros [= <- <- <-]].
  destruct (take_chunk u (interfere (others u) w)) as [x w1] eqn:Et.
  apply (take_chunk_ok u got) in Et as (H1 & Ep & Hx); [|by apply world_ok_counters|done].
  destruct x as [[b|]|]; cbn in Hx, H1 |- *; [|done|].
  - intros [= <- <- <-]. split_and!; auto.
  - rewrite app_nil_r in H1. intros E. apply (IH _ H1) in E as (E & H). split; [by rewrite E, Ep|].
    destruct o as [[x|]|]; [|done..]. destruct H as (? & Ho & ?). split_and!; [done| |destruct_or!; auto; right; lia].
    destruct x as [b|]; cbn in *; [done|]. destruct Ho as [?|(v & ? & ?)]; [by left|]. right. exists v.
    split; [by constructor|done].
Qed.

(** A read gives the bytes that are next. *)
Lemma read_unless_ok (t : TreeContext) (turns : list Turn) (given : str) (w : World) (x : ReadOutcome)
    (w' : World) (turns' : list Turn) :
  world_ok (given ++ pending (reader w)) w → read_unless t turns w = (Some (Ok x), w', turns') →
  world_ok (given ++ outcome_bytes (Some x) ++ pending (reader w')) w' ∧ outcome_ok turns w' x
  ∧ (x = End → pending (reader w') = []).
Proof.
  intros Hok. unfold read_unless. destruct (pending (reader w)) as [|b0 p] eqn:Ep.
  - intros E. apply (read_loop_ok t turns _ _ _ _ _ Hok) in E as (Ep' & H1 & Ho & _).
    by rewrite Ep', Ep, app_nil_r in *.
  - rewrite <- Ep in *. set (n := Nat.min _ _). intros [= <- <- _]. cbn [outcome_bytes].
    assert (0 < n ≤ CHUNK_BYTES)%nat as Hn by (subst n; rewrite Ep; cbn [length]; unfold CHUNK_BYTES; lia).
    split_and!; [|split|done].
    + cbn. rewrite take_drop. by destruct Hok; split.
    + rewrite Ep. by destruct n; [lia|].
    + rewrite length_take. lia.
Qed.

(** ** Lines *)

Lemma line_end_Some (s : str) (n : nat) :
  line_end s = Some n ↔ ∃ l r, s = l ++ 10 :: r ∧ (10 ∉ l) ∧ n = S (length l).
Proof.
  revert n. induction s as [|b s IH]; intros n; cbn [line_end].
  { split; [done|]. by intros ([] & ? & ? & _). }
  destruct (Z.eqb_spec b (ch "010")) as [->|Hb].
  - split.
    + intros [= <-]. exists [], s. split_and!; [done|apply not_elem_of_nil|done].
    + intros ([|c l] & r & E & Hl & ->); [done|]. injection E as <- _. destruct Hl. constructor.
  - split.
    + intros (k & (l & r & -> & Hl & ->)%IH & ->)%fmap_Some. exists (b :: l), r. split_and!; try done.
      apply not_elem_of_cons. split; [dk_ch; congruence|done].
    + intros ([|c l] & r & E & Hl & ->); [by injection E as ->|]. injection E as -> ->.
      apply not_elem_of_cons in Hl as [_ Hl]. apply fmap_Some. exists (S (length l)). split; [|done]. apply IH. by exists l, r.
Qed.

Lemma line_end_None (s : str) : line_end s = None ↔ 10 ∉ s.
Proof.
  split.
  - intros H Hin. apply list_elem_of_split_l in Hin as (l & r & -> & Hl).
    assert (line_end (l ++ 10 :: r) = Some (S (length l))) as E by (apply line_end_Some; by exists l, r).
    congruence.
  - intros H. destruct (line_end s) eqn:E; [|done]. apply line_end_Some in E as (l & r & -> & _).
    destruct H. apply elem_of_app. right. constructor.
Qed.

(** The bytes charged to a line are its bytes. *)
Definition line_charged (t : TreeContext) (line : ChargedBytes) : Prop :=
  total_held (charges line) = len (bytes line)
  ∧ Forall (fun r => 0 ≤ held r ∧ held_maximum r = max_value_bytes (tree_limits t)) (charges line).

Lemma extend_ok (t : TreeContext) (n : nat) (line : ChargedBytes) (given : str) (w : World)
    (x : result LimitExceeded ChargedBytes) (w' : World) :
  world_ok (given ++ bytes line ++ pending (reader w)) w → (n ≤ length (pending (reader w)))%nat →
  extend t n line w = (x, w') →
  pending (reader w') = drop n (pending (reader w))
  ∧ ended (reader w') = ended (reader w) ∧ channel w' = channel w ∧ source (reader w') = source (reader w)
  ∧ match x with
    | Ok line' =>
        bytes line' = bytes line ++ take n (pending (reader w))
        ∧ world_ok (given ++ bytes line' ++ pending (reader w')) w'
        ∧ (line_charged t line → line_charged t line')
        ∧ retained (counters w') - total_held (charges line')
          = retained (counters w) - total_held (charges line)
    | Err e => e = ValueBytes (max_value_bytes (tree_limits t))
    end.
Proof.
  intros Hok Hn. unfold extend, retain.
  destruct (fetch_add_up_to _ _ _ _) as [next|] eqn:Ef; intros [= <- <-]; cbn; [|done].
  apply fetch_add_Some in Ef as [-> Hle]. split_and!; try done.
  - rewrite <- (assoc (++)), take_drop. by destruct Hok; split.
  - intros [E Hf]. unfold line_charged. cbn. rewrite total_held_app, total_held_cons, E. cbn.
    unfold len. rewrite length_app, length_take. split; [lia|]. apply Forall_app. split; [done|].
    constructor; [cbn; lia|constructor].
  - rewrite total_held_app, total_held_cons. cbn. lia.
Qed.

(** A charge that is refused changes the reader's bytes and nothing else. *)
Lemma extend_fails (t : TreeContext) (n : nat) (line : ChargedBytes) (got : str) (w : World)
    (e : LimitExceeded) (w' : World) :
  world_ok got w → extend t n line w = (Err e, w') → world_ok got w'.
Proof.
  intros Hok. unfold extend. destruct (retain _ _ _) as [[charge|x] c]; [done|].
  intros [= _ <-]. unfold drop_charges. apply world_ok_counters. by destruct Hok; split.
Qed.

(** A line that is given back: up to its line feed, or what was left. *)
Definition is_whole_line (line : str) : Prop := ∃ l, line = l ++ [10] ∧ 10 ∉ l.

Lemma line_loop_ok (t : TreeContext) (fuel : nat) (line : ChargedBytes) (turns : list Turn) (given : str)
    (w : World) (x : option ChargedBytes) (w' : World) :
  world_ok (given ++ bytes line ++ pending (reader w)) w → 10 ∉ bytes line → line_charged t line →
  line_loop t fuel line turns w = (Some (Ok x), w') →
  match x with
  | Some line' =>
      world_ok (given ++ bytes line' ++ pending (reader w')) w' ∧ line_charged t line'
      ∧ (is_whole_line (bytes line')
         ∨ bytes line' ≠ [] ∧ (10 ∉ bytes line') ∧ ended (reader w') = true ∧ pending (reader w') = [])
  | None => world_ok given w' ∧ ended (reader w') = true ∧ pending (reader w') = []
  end.
Proof.
  revert line turns w. induction fuel as [|fuel IH]; intros line turns w Hok Hnl Hch; [done|].
  cbn [line_loop]. destruct (line_end (pending (reader w))) as [n|] eqn:El.
  - apply line_end_Some in El as (l & r & El & Hl & ->).
    destruct (extend _ _ _ _) as [[line'|e] w1] eqn:Ex; [|done]. intros [= <- <-].
    eapply extend_ok in Ex as (Ep & _ & _ & _ & Eb & Hok' & Hch' & _); [|done|rewrite El, length_app; cbn; lia].
    split_and!; [done|by apply Hch'|]. left. exists (bytes line ++ l). split.
    + rewrite Eb, El, <- (assoc (++)). f_equal.
      rewrite (cons_middle 10 l r), (assoc (++)), take_app_length'; [done|]. rewrite length_app. cbn. lia.
    + rewrite elem_of_app. tauto.
  - apply line_end_None in El. set (n := length (pending (reader w))).
    destruct (extend _ _ _ _) as [[line'|e] w1] eqn:Ex; [|done].
    eapply extend_ok in Ex as (Ep & _ & _ & _ & Eb & Hok' & Hch' & _); [|done|done].
    rewrite drop_ge in Ep by done. rewrite take_ge in Eb by done. specialize (Hch' Hch).
    assert (10 ∉ bytes line') as Hnl' by (rewrite Eb, elem_of_app; tauto).
    destruct (read t turns w1) as [[[[[b|]|e]|] w2] turns'] eqn:Er; try done.
    + unfold read, read_unless in Er. rewrite Ep, app_nil_r in *.
      eapply read_loop_ok in Er as (Ep2 & Hok2 & _ & _); [|done]. rewrite Ep in Ep2. apply IH; [|done..].
      cbn in *. rewrite Ep2. cbn. rewrite (assoc (++)). by destruct Hok2; split.
    + unfold read in Er. rewrite (assoc (++)) in Hok'. eapply read_unless_ok in Er as (Hok2 & Ho & Hp); [|done].
      specialize (Hp eq_refl). cbn in Hok2. rewrite Hp, !app_nil_r in Hok2.
      assert (ended (reader w2) = true) as He.
      { destruct Ho as [?|(u & Hu & Hs)]; [done|]. apply list_elem_of_fmap in Hu as (v & -> & _). done. }
      destruct (bytes line') as [|b0 bs] eqn:Eb'; intros [= <- <-].
      * rewrite app_nil_r in Hok2. split_and!; [by apply world_ok_counters|done..].
      * rewrite Eb', Hp, app_nil_r. split_and!; [done|done|]. by right.
Qed.

(** What a failed [read_line] drops is part of one line, or the line. *)
Definition of_one_line (lost : str) : Prop := is_whole_line lost ∨ 10 ∉ lost.

Lemma line_loop_fails (t : TreeContext) (fuel : nat) (line : ChargedBytes) (turns : list Turn)
    (given : str) (w : World) (e : LimitExceeded) (w' : World) :
  world_ok (given ++ bytes line ++ pending (reader w)) w → 10 ∉ bytes line →
  line_loop t fuel line turns w = (Some (Err e), w') →
  ∃ lost, of_one_line lost ∧ world_ok (given ++ lost ++ pending (reader w')) w'.
Proof.
  revert line turns w. induction fuel as [|fuel IH]; intros line turns w Hok Hnl; [done|].
  cbn [line_loop]. destruct (line_end (pending (reader w))) as [n|] eqn:El.
  - apply line_end_Some in El as (l & r & El & Hl & ->).
    destruct (extend _ _ _ _) as [[line'|x] w1] eqn:Ex; [done|]. intros [= -> <-].
    exists (bytes line ++ l ++ [10]). split.
    { left. exists (bytes line ++ l). split; [by rewrite (assoc (++))|]. rewrite elem_of_app. tauto. }
    assert (pending (reader w1) = r) as Hp.
    { eapply extend_ok in Ex as (Ep & _); [|done|rewrite El, length_app; cbn; lia].
      rewrite Ep, El, (cons_middle 10 l r), (assoc (++)), drop_app_length'; [done|].
      rewrite length_app. cbn. lia. }
    eapply extend_fails in Ex; [|done]. rewrite Hp. rewrite El in Ex. by rewrite <- !(assoc (++)).
  - apply line_end_None in El. set (n := length (pending (reader w))).
    destruct (extend _ _ _ _) as [[line'|x] w1] eqn:Ex.
    2:{ intros [= -> <-]. exists (bytes line ++ pending (reader w)). split.
        { right. rewrite elem_of_app. tauto. }
        pose proof Ex as Ex'. eapply extend_fails in Ex; [|done].
        eapply extend_ok in Ex' as (Ep & _); [|done|done]. rewrite Ep, drop_ge, app_nil_r by done.
        done. }
    eapply extend_ok in Ex as (Ep & _ & _ & _ & Eb & Hok' & _); [|done|done].
    rewrite drop_ge in Ep by done. rewrite take_ge in Eb by done.
    assert (10 ∉ bytes line') as Hnl' by (rewrite Eb, elem_of_app; tauto).
    unfold read, read_unless. rewrite Ep in *. rewrite app_nil_r in Hok'.
    destruct (read_loop _ _ w1) as [[[[[b|]|x]|] w2] turns'] eqn:Er; try done;
      eapply read_loop_ok in Er as (Ep2 & H2); try done; rewrite Ep in Ep2.
    + destruct H2 as (Hok2 & _ & _). apply IH; [|done]. cbn in *. rewrite Ep2. cbn.
      rewrite (assoc (++)). by destruct Hok2; split.
    + by destruct (bytes line').
    + intros [= -> <-]. exists (bytes line'). split; [by right|]. cbn. rewrite Ep2, app_nil_r.
      by apply world_ok_counters.
Qed.

Lemma pipe_line_ok (t : TreeContext) (turns : list Turn) (given : str) (w : World) (x : option ChargedBytes)
    (w' : World) :
  world_ok (given ++ pending (reader w)) w → read_line t turns w = (Some (Ok x), w') →
  match x with
  | Some line =>
      world_ok (given ++ bytes line ++ pending (reader w')) w' ∧ line_charged t line
      ∧ (is_whole_line (bytes line)
         ∨ bytes line ≠ [] ∧ (10 ∉ bytes line) ∧ ended (reader w') = true ∧ pending (reader w') = [])
  | None => world_ok given w' ∧ ended (reader w') = true ∧ pending (reader w') = []
  end.
Proof. intros Hok. apply line_loop_ok; [done|apply not_elem_of_nil|]. split; [done|constructor]. Qed.

Lemma pipe_line_fails (t : TreeContext) (turns : list Turn) (given : str) (w : World)
    (e : LimitExceeded) (w' : World) :
  world_ok (given ++ pending (reader w)) w → read_line t turns w = (Some (Err e), w') →
  ∃ lost, of_one_line lost ∧ world_ok (given ++ lost ++ pending (reader w')) w'.
Proof. intros Hok. apply line_loop_fails; [done|apply not_elem_of_nil]. Qed.

(** A read that fails takes nothing. *)
Lemma read_unless_fails (t : TreeContext) (turns : list Turn) (given : str) (w : World)
    (e : LimitExceeded) (w' : World) (turns' : list Turn) :
  world_ok (given ++ pending (reader w)) w → read_unless t turns w = (Some (Err e), w', turns') →
  world_ok (given ++ pending (reader w')) w'.
Proof.
  intros Hok. unfold read_unless. destruct (pending (reader w)) as [|b p] eqn:Ep; [|done].
  intros Hr. apply (read_loop_ok t turns _ _ _ _ _ Hok) in Hr as [E H]. by rewrite E, Ep.
Qed.
End Source.

(** ** Histories *)

Definition inv (given : str) (w : World) : Prop :=
  channel_ok (channel w) ∧ (reader_alive (channel w) = true → world_ok Source_Channel (given ++ pending (reader w)) w).

Lemma pipe_inv (s : Shared) : inv [] (pipe s).
Proof.
  assert (channel_ok (channel (pipe s))) as H.
  { split; unfold unsent; cbn; try constructor; try done; try lia.
    intros _. apply not_elem_of_nil. }
  split; [done|]. intros _. by split.
Qed.

Definition gave (a : Answer) : str := match a with Gave b => b | Failed _ => [] end.

(** The bytes a call dropped: none, but for a [read_line] that failed. *)
Definition may_lose (k : Call) (a : Answer) (lost : str) : Prop :=
  match k, a with
  | CallReadLine _, Failed _ => of_one_line lost
  | _, _ => lost = []
  end.

(** [taken ks answers s]: what the calls took out of the pipe, given or lost,
    is [s], in this order. *)
Inductive taken : list Call → list Answer → str → Prop :=
| taken_nil : taken [] [] []
| taken_cons k ks a answers lost s :
    may_lose k a lost → taken ks answers s →
    taken (k :: ks) (a :: answers) (gave a ++ lost ++ s).

Lemma writer_inv (steps : list WriterStep) (given : str) (w : World) :
  inv given w → inv given (mkWorld (reader w) (writer_steps steps (channel w)) (counters w)).
Proof.
  intros [Hc Hw]. destruct (writer_steps_ok steps (channel w) Hc) as (Hc' & x & E1 & E2 & E3 & E4 & E5).
  split; [done|]. cbn. rewrite E4. intros Ha. destruct (Hw Ha) as [Hsrc _ _ Hs He Hso Hseen].
  split; cbn; [done|done|congruence| | | |].
  - by rewrite E1, E2, <- Hs, (assoc (++)).
  - intros _ Hend. destruct (He eq_refl Hend) as [Hwa Hq]. destruct (E5 Hwa) as [? ->]. done.
  - done.
  - intros _. rewrite E1, E3, length_app, Hseen by done. done.
Qed.

Lemma call_inv (t : TreeContext) (k : Call) (given : str) (answer : Answer) (w w' : World) :
  inv given w → call t k w = Some (answer, w') →
  ∃ lost, may_lose k answer lost ∧ inv (given ++ gave answer ++ lost) w'.
Proof.
  intros [Hc Hw]. destruct k as [turns|turns|steps|]; cbn [call].
  - destruct (reader_alive (channel w)); [|done]. specialize (Hw eq_refl).
    destruct (read_unless t turns w) as [[[[x|e]|] w1] turns'] eqn:Er; [| |done].
    + eapply read_unless_ok in Er as (H & _ & _); [|done].
      destruct x as [b|]; intros [= <- <-]; cbn [outcome_bytes gave] in *; exists []; (split; [done|]);
        (split; [apply H|]); intros _; rewrite ?app_nil_r; by rewrite <- ?(assoc (++)).
    + eapply read_unless_fails in Er; [|done]. intros [= <- <-]. exists []. split; [done|].
      split; [apply Er|]. intros _. by rewrite !app_nil_r.
  - destruct (reader_alive (channel w)); [|done]. specialize (Hw eq_refl).
    destruct (read_line t turns w) as [[[x|e]|] w1] eqn:Er; [| |done].
    + eapply pipe_line_ok in Er; [|done]. destruct x as [line|]; intros [= <- <-]; exists []; (split; [done|]).
      * destruct Er as (H & _). split; [apply H|]. intros _. cbn. by rewrite app_nil_r, <- (assoc (++)).
      * destruct Er as (H & _ & Ep). split; [apply H|]. intros _. cbn. by rewrite Ep, !app_nil_r.
    + eapply pipe_line_fails in Er as (lost & Hl & H); [|done]. intros [= <- <-]. exists lost.
      split; [done|]. split; [apply H|]. intros _. cbn. by rewrite <- (assoc (++)).
  - intros [= <- <-]. exists []. split; [done|]. cbn. rewrite app_nil_r. by apply writer_inv.
  - intros [= <- <-]. exists []. split; [done|]. split; [|done]. destruct Hc as [Hq Hcap Hu Hcl Hg Ho].
    split; unfold unsent, CAPACITY_CHUNKS in *; cbn; first [done|lia|constructor|auto].
Qed.

Lemma run_inv (t : TreeContext) (ks : list Call) (given : str) (w : World) (answers : list Answer) (w' : World) :
  inv given w → run t ks w = Some (answers, w') →
  ∃ s, taken ks answers s ∧ inv (given ++ s) w'.
Proof.
  revert given w answers. induction ks as [|k ks IH]; intros given w answers Hi; cbn [run].
  { intros [= <- <-]. exists []. rewrite app_nil_r. split; [constructor|done]. }
  destruct (call t k w) as [[answer w1]|] eqn:Ek; [|done].
  destruct (run t ks w1) as [[rest w2]|] eqn:Er; [|done]. intros [= <- <-].
  apply (call_inv t k given) in Ek as (lost & Hl & Hi1); [|done].
  apply (IH _ _ _ Hi1) in Er as (s & Hs & Hi2). exists (gave answer ++ lost ++ s).
  split; [by constructor|]. by rewrite <- !(assoc (++)) in Hi2.
Qed.

(** C13: a pipe is a bounded queue. After any calls at its two ends that have
    returned, in whatever order and whether they failed or not, at most 16
    chunks of 1 to 4096 bytes wait in it; and while its reader is there, no
    write was told otherwise, the writer has reported the bytes that went in,
    and the bytes written so far are, in this order, those the calls took out,
    those the reader holds, those in the channel and those of the write under
    way. What the calls took out is what they gave their callers, in the order
    of the calls, and nothing is lost between, but that a [read_line] that
    fails drops what it had of its line: part of one line, or the line. *)
Theorem pipe_is_a_bounded_queue (t : TreeContext) (s : Shared) (ks : list Call)
    (answers : list Answer) (w : World) :
  run t ks (pipe s) = Some (answers, w) →
  (length (queue (channel w)) ≤ CAPACITY_CHUNKS)%nat ∧ Forall chunk_ok (queue (channel w))
  ∧ (reader_alive (channel w) = true →
      (ReaderGone ∉ outcomes (channel w))
      ∧ accepted (write_seen (channel w)) = length (sent (channel w))
      ∧ ∃ out, taken ks answers out
        ∧ offered (channel w) = out ++ pending (reader w) ++ concat (queue (channel w))
            ++ concat (unsent (channel w))).
Proof.
  intros H. apply (run_inv t ks [] _ _ _ (pipe_inv s)) in H as (out & Hout & Hc & Hw).
  split_and!; [apply Hc|apply Hc|]. intros Ha. specialize (Hw Ha). destruct Hw as [_ _ _ Hs _ _ Hseen].
  split_and!; [by apply Hc|by apply Hseen|]. exists out. split; [done|].
  rewrite (co_offered _ Hc Ha), <- Hs. cbn. by rewrite !(assoc (++)).
Qed.

(** The end of a pipe is the end of what was written. A read that returns
    [End] without having been stopped has left nothing behind: the writer is gone
    and the calls took out every byte that was to be written. *)
Theorem end_means_all_was_read (t : TreeContext) (s : Shared) (ks : list Call)
    (answers : list Answer) (w w' : World) (turns turns' : list Turn) :
  run t ks (pipe s) = Some (answers, w) → reader_alive (channel w) = true →
  Forall (fun u => stopped u = false) turns →
  read_unless t turns w = (Some (Ok End), w', turns') →
  taken ks answers (offered (channel w')) ∧ writer_alive (channel w') = false.
Proof.
  intros H Ha Hst Hr. apply (run_inv t ks [] _ _ _ (pipe_inv s)) in H as (out & Hout & Hc & Hw).
  eapply read_unless_ok in Hr as (Hok & Ho & Hp); [|by apply Hw]. specialize (Hp eq_refl).
  destruct Hok as [_ Hc' Ha' Hs He _ _]. assert (ended (reader w') = true) as Hend.
  { destruct Ho as [?|(u & Hu & Hs')]; [done|]. apply (Forall_elem _ _ _ Hst) in Hu. cbn in Hu. congruence. }
  destruct (He eq_refl Hend) as [Hwa Hq]. split; [|done].
  rewrite (co_offered _ Hc' Ha'), <- Hs. unfold unsent. rewrite (co_closed _ Hc' Hwa), Hq, Hp. cbn.
  by rewrite !app_nil_r.
Qed.

(** *** Waiting *)

(** The turn ends the wait, whatever is in the channel. *)
Definition ends_wait (t : TreeContext) (u : Turn) : bool :=
  stopped u || is_cancelled (cancel_env u) || negb (is_ok (check_deadline t (deadline_env u))).

Lemma take_chunk_waits (turn : Turn) (w w' : World) :
  source (reader w) = Source_Channel → take_chunk turn w = (None, w') →
  Forall (fun k => k ≠ []) (queue (writer_steps (meanwhile turn) (channel w))) →
  ended (reader w') = true
  ∨ queue (channel w') = [] ∧ writer_alive (channel w') = true.
Proof.
  unfold take_chunk, recv. intros -> H Hq. destruct (queue (writer_steps _ _)) as [|[|b k] q] eqn:Eq; cbn in *.
  - destruct (writer_alive _) eqn:Ew; injection H as <-; cbn; auto.
  - apply List.Forall_cons_iff in Hq as [? _]. done.
  - done.
Qed.

(** A read does not wait for nothing. It ends at the latest in the turn that
    finds it stopped, cancelled or past the deadline; and one that is still
    waiting after a turn has found the channel empty and its writer there. *)
Theorem reads_wait_only_for_the_writer (t : TreeContext) (s : Shared) (ks : list Call)
    (answers : list Answer) (w : World) (turns : list Turn) :
  run t ks (pipe s) = Some (answers, w) → reader_alive (channel w) = true →
  ∃ o w' turns', read_unless t turns w = (o, w', turns')
    ∧ (existsb (ends_wait t) turns = true → o ≠ None)
    ∧ (o = None → turns ≠ [] → queue (channel w') = [] ∧ writer_alive (channel w') = true).
Proof.
  intros H Ha. apply (run_inv t ks [] _ _ _ (pipe_inv s)) in H as (out & _ & _ & Hw). specialize (Hw Ha).
  cbn [app] in Hw. unfold read_unless. destruct (pending (reader w)) as [|b0 p] eqn:Ep.
  2: { eexists _, _, _. split; [reflexivity|]. by split. }
  rewrite app_nil_r in Hw. clear Ha Ep ks answers.
  assert (∃ o w' turns', read_loop t turns w = (o, w', turns')
    ∧ (existsb (ends_wait t) turns = true → o ≠ None)
    ∧ (o = None → turns ≠ [] → queue (channel w') = [] ∧ writer_alive (channel w') = true)) as Hloop; [|done].
  revert w Hw. induction turns as [|u turns IH]; intros w Hw; cbn [read_loop existsb];
    destruct (ended (reader w)) eqn:Ee; try (eexists _, _, _; split; [reflexivity|]; by split).
  unfold read_turn, ends_wait. rewrite Ee.
  destruct (stopped u), (is_cancelled _), (check_deadline _ _); cbn [orb is_ok negb];
    try (eexists _, _, _; split; [reflexivity|]; by split).
  destruct (take_chunk u (interfere (others u) w)) as [[x|] w1] eqn:Et;
    [eexists _, _, _; split; [reflexivity|]; by split|]. cbn [fmap option_fmap option_map].
  assert (world_ok Source_Channel out (interfere (others u) w)) as Hi by (by apply world_ok_counters).
  pose proof (take_chunk_ok _ u _ _ _ _ Hi Ee Et) as (H1 & _ & _). cbn in H1. rewrite app_nil_r in H1.
  destruct (IH w1 H1) as (o & w' & turns' & E & Hs & Hn). rewrite E.
  exists o, w', turns'. split; [done|]. split; [done|]. intros Ho _.
  destruct turns as [|v turns]; [|by apply Hn]. apply take_chunk_waits in Et; [|apply Hi|].
  - cbn [read_loop] in E. destruct (ended (reader w1)) eqn:Ee1; [by simplify_eq|]. injection E as <- <- <-.
    destruct Et as [Et|?]; [congruence|done].
  - destruct (writer_steps_ok (meanwhile u) (channel w) (wo_channel _ _ _ Hw)) as (Hc & _).
    eapply List.Forall_impl; [|apply (co_queue _ Hc)]. by intros k [? _].
Qed.

(** *** Reading line by line *)

(** Calls of [read_line] until one finds no line; whether one did. *)
Fixpoint read_lines (t : TreeContext) (calls : list (list Turn)) (w : World) : option (list str * bool * World) :=
  match calls with
  | [] => Some ([], false, w)
  | turns :: calls =>
      match read_line t turns w with
      | (Some (Ok (Some line)), w) =>
          match read_lines t calls w with
          | Some (ls, over, w) => Some (bytes line :: ls, over, w)
          | None => None
          end
      | (Some (Ok None), w) => Some ([], true, w)
      | _ => None
      end
  end.

(** Nothing comes after the end. *)
Lemma read_lines_ended (t : TreeContext) (calls : list (list Turn)) (w w' : World) (ls : list str) (over : bool) :
  ended (reader w) = true → pending (reader w) = [] → read_lines t calls w = Some (ls, over, w') →
  ls = [] ∧ channel w' = channel w.
Proof.
  intros He Hp. destruct calls as [|turns calls]; cbn [read_lines]; [by intros [= <- _ <-]|].
  unfold read_line. cbn [line_loop]. rewrite Hp. cbn [line_end length]. unfold extend.
  destruct (retain _ _ _) as [[charge|e] s']; [|done]. unfold read, read_unless. cbn. rewrite Hp. cbn.
  assert (∀ us w0, ended (reader w0) = true → read_loop t us w0 = (Some (Ok End), w0, us)) as Hl
    by (intros [|u us] w0 E; cbn; by rewrite E).
  rewrite Hl by done. by intros [= <- _ <-].
Qed.

Lemma read_lines_shape (t : TreeContext) (calls : list (list Turn)) (given : str) (w w' : World)
    (ls : list str) (over : bool) :
  world_ok Source_Channel (given ++ pending (reader w)) w → read_lines t calls w = Some (ls, over, w') →
  ∃ whole last, ls = whole ++ last ∧ Forall is_whole_line whole
    ∧ ∃ rest, sent (channel w') = given ++ concat whole ++ rest
      ∧ match last with
        | [] => over = true → rest = []
        | [l] => l ≠ [] ∧ (10 ∉ l) ∧ rest = l
        | _ => False
        end
      ∧ (over = true → offered (channel w') = sent (channel w')).
Proof.
  assert (∀ g w0, world_ok Source_Channel g w0 → ended (reader w0) = true →
    sent (channel w0) = g ∧ offered (channel w0) = sent (channel w0)) as Hend.
  { intros g w0 [_ Hc Ha Hs He _ _] E. destruct (He eq_refl E) as [Hwa Hq]. rewrite Hq, app_nil_r in Hs.
    split; [done|]. rewrite (co_offered _ Hc Ha). unfold unsent. rewrite (co_closed _ Hc Hwa).
    apply app_nil_r. }
  revert given w ls. induction calls as [|turns calls IH]; intros given w ls Hok; cbn [read_lines].
  { intros [= <- <- <-]. exists [], []. split_and!; [done|constructor|].
    exists (pending (reader w) ++ concat (queue (channel w))).
    rewrite <- (wo_sent _ _ _ Hok). split_and!; [by rewrite <- (assoc (++))|done..]. }
  destruct (read_line t turns w) as [[[x|e]|] w1] eqn:Er; [|done..].
  eapply pipe_line_ok in Er; [|done]. destruct x as [line|].
  - destruct Er as (H1 & _ & Hshape). destruct (read_lines t calls w1) as [[[ls1 over1] w2]|] eqn:El; [|done].
    intros [= <- <- <-]. rewrite (assoc (++)) in H1. destruct Hshape as [Hl|(Hne & Hnl & He & Hp)].
    + apply (IH _ _ _ H1) in El as (whole & last & -> & Hw & rest & Es & Hlast & Ho).
      exists (bytes line :: whole), last. split_and!; [done|by constructor|]. exists rest.
      split_and!; [|done..]. rewrite Es. cbn. by rewrite !(assoc (++)).
    + apply (read_lines_ended t calls) in El as [-> Ec]; [|done..]. rewrite Hp, app_nil_r in H1.
      destruct (Hend _ _ H1 He) as [Es Ho]. exists [], [bytes line]. split_and!; [done|constructor|].
      exists (bytes line). rewrite Ec. by split_and!.
  - destruct Er as (H1 & He & Hp). intros [= <- <- <-]. destruct (Hend _ _ H1 He) as [Es Ho].
    exists [], []. split_and!; [done|constructor|]. exists []. split_and!; [|done..]. by rewrite Es, !app_nil_r.
Qed.

Lemma split_inclusive_whole (whole : list str) (rest : str) :
  Forall is_whole_line whole → split_inclusive (concat whole ++ rest) = whole ++ split_inclusive rest.
Proof.
  induction 1 as [|l whole (l' & -> & Hl) _ IH]; cbn; [done|].
  rewrite <- !(assoc (++)). rewrite split_inclusive_line by done. by rewrite IH.
Qed.

Lemma split_inclusive_last (l : str) : l ≠ [] → 10 ∉ l → split_inclusive l = [l].
Proof.
  induction l as [|b l IH]; [done|]. intros _ H. apply not_elem_of_cons in H as [Hb Hl]. cbn.
  destruct (Z.eqb_spec b (ch "010")) as [->|_]; [by destruct Hb|]. destruct l; [done|]. by rewrite IH.
Qed.

(** C26: reading a pipe line by line gives the lines of what was written, however
    the writer cut it into writes and chunks and whenever it wrote: the lines so
    far are the first lines of the bytes sent, and when there is no further one
    they are all the lines of the bytes that were to be written. *)
Theorem read_lines_are_the_lines_written (t : TreeContext) (s : Shared) (calls : list (list Turn))
    (ls : list str) (over : bool) (w : World) :
  read_lines t calls (pipe s) = Some (ls, over, w) →
  ls = take (length ls) (split_inclusive (sent (channel w)))
  ∧ (over = true → ls = split_inclusive (offered (channel w))).
Proof.
  intros H. destruct (pipe_inv s) as [_ Hw]. specialize (Hw eq_refl).
  apply (read_lines_shape t calls [] _ _ _ _ Hw) in H as (whole & last & -> & Hwh & rest & Es & Hlast & Ho).
  cbn [app] in Es. assert (split_inclusive (sent (channel w)) = whole ++ split_inclusive rest) as E
    by (rewrite Es; by apply split_inclusive_whole).
  rewrite E. destruct last as [|l [|]]; [| |done].
  - rewrite app_nil_r, take_app_length. split; [done|]. intros Hover. rewrite Ho, E, Hlast by done. cbn.
    by rewrite app_nil_r.
  - destruct Hlast as (Hne & Hnl & ->). rewrite (split_inclusive_last _ Hne Hnl) in *.
    rewrite take_ge by done. split; [done|]. intros Hover. by rewrite Ho, E.
Qed.

(** ** Witnesses *)

Definition sample_tree : TreeContext := mkTree 1000 32 Limits_default.
Definition quiet_env : Env := mkEnv 0 false false.
Definition turn_with (steps : list WriterStep) : Turn :=
  mkTurn false quiet_env quiet_env steps 0 SocketRetry.
Definition no_counters : Shared := mkShared 0 0 0.

(** A writer that sends [a], a line feed and [bc], and goes. *)
Definition sample_writer : list WriterStep :=
  [BeginWrite (lit "a" ++ [10] ++ lit "bc"); Send; Send; DropWriter].

(** A line, a line too long for the value bytes that are left, and the rest. *)
Definition tight_tree : TreeContext :=
  mkTree 1000 32 (mkLimits 100000 32 1000 100 (dur_from_secs 30) 32 4).
Definition tight_calls : list Call :=
  [CallReadLine [turn_with [BeginWrite (lit "a" ++ [10] ++ lit "bcdef" ++ [10] ++ lit "g"); Send]];
   CallReadLine [turn_with []]; CallRead []].

Lemma pipe_is_a_bounded_queue_witness :
  ∃ w, run tight_tree tight_calls (pipe no_counters)
       = Some ([Gave (lit "a" ++ [10]); Failed (ValueBytes 4); Gave (lit "g")], w)
    ∧ ∃ out, taken tight_calls [Gave (lit "a" ++ [10]); Failed (ValueBytes 4); Gave (lit "g")] out
      ∧ lit "a" ++ [10] ++ lit "bcdef" ++ [10] ++ lit "g" = out ++ [].
Proof.
  eexists. split; [vm_compute; reflexivity|].
  edestruct (pipe_is_a_bounded_queue tight_tree no_counters tight_calls) as (_ & _ & H);
    [vm_compute; reflexivity|].
  destruct (H eq_refl) as (_ & _ & out & Ht & E). exists out. split; [exact Ht|exact E].
Defined.

Lemma end_means_all_was_read_witness :
  ∃ w w' turns', run sample_tree [CallRead [turn_with sample_writer]] (pipe no_counters)
      = Some ([Gave (lit "a" ++ [10] ++ lit "bc")], w)
    ∧ read_unless sample_tree [turn_with []] w = (Some (Ok End), w', turns')
    ∧ taken [CallRead [turn_with sample_writer]] [Gave (lit "a" ++ [10] ++ lit "bc")]
        (offered (channel w')) ∧ writer_alive (channel w') = false.
Proof.
  eexists _, _, _. split; [vm_compute; reflexivity|]. split; [vm_compute; reflexivity|].
  eapply (end_means_all_was_read sample_tree no_counters [CallRead [turn_with sample_writer]]
    [Gave (lit "a" ++ [10] ++ lit "bc")]) with (turns := [turn_with []]);
    [vm_compute; reflexivity|reflexivity|repeat constructor|vm_compute; reflexivity].
Defined.

Lemma reads_wait_only_for_the_writer_witness :
  ∃ w o w' turns', run sample_tree [] (pipe no_counters) = Some ([], w)
    ∧ read_unless sample_tree [turn_with [BeginWrite [7]]] w = (o, w', turns')
    ∧ o = None ∧ queue (channel w') = [] ∧ writer_alive (channel w') = true.
Proof.
  eexists. edestruct (reads_wait_only_for_the_writer sample_tree no_counters [] [] (pipe no_counters)
    [turn_with [BeginWrite [7]]] eq_refl eq_refl) as (o & w' & turns' & E & _ & H).
  exists o, w', turns'. split; [reflexivity|]. split; [exact E|].
  assert (o = None) as Ho by (vm_compute in E; by injection E as <- _ _).
  split; [exact Ho|]. by apply H.
Defined.

Lemma read_lines_are_the_lines_written_witness :
  ∃ ls w, read_lines sample_tree [[turn_with sample_writer]; [turn_with []]; [turn_with []]] (pipe no_counters)
      = Some (ls, true, w)
    ∧ ls = split_inclusive (offered (channel w)) ∧ ls = [lit "a" ++ [10]; lit "bc"].
Proof.
  eexists _, _. split; [vm_compute; reflexivity|].
  edestruct (read_lines_are_the_lines_written sample_tree no_counters
    [[turn_with sample_writer]; [turn_with []]; [turn_with []]]) as (_ & H); [vm_compute; reflexivity|].
  split; [by apply H|reflexivity].
Defined.

(** What [observe] is told of the bytes read: [bc] is counted when its chunk
    arrives and again when it is read after a line. *)
Example line_rest_is_seen_twice :
  ∃ w, run sample_tree [CallReadLine [turn_with sample_writer]; CallRead []] (pipe no_counters)
      = Some ([Gave (lit "a" ++ [10]); Gave (lit "bc")], w)
    ∧ length (sent (channel w)) = 4%nat ∧ read_seen (reader w) = [4; 2]%nat.
Proof. eexists. split; [vm_compute; reflexivity|]. by split. Qed.
