(* ===== verification/Wakes.v ===== *)
(** * Wakes

    [dekopon-gatewayd/src/wake/store.rs], with the anchors, probes and verdicts of
    [dekopon-gatewayd/src/wake.rs]: what an agent has put off. A wake fires once at
    its time; a watch runs a script every so often until it fires, fails or gives
    up; a digest is a watch of a whole channel that stays; a subscription fires
    when a pull request changes. The store keeps them in memory and in a file.

    A method that locks the store is a function on it. The file is the list of
    the records it holds ([Line]; their JSON is serde's), and [io] says whether
    the write of a new file worked: it goes to a temporary file first, so a write
    that fails leaves the old one. Times are nanoseconds since the epoch; times
    and spans are small enough that their sums are times. *)

From Stdlib Require Import ZArith Lia Ascii String.
From stdpp Require Import base strings list numbers.
From S2P Require Import Prelude RustStr Identifier Subject Conversation ProcessTree MessageText Jobs Collector.

Record PullRequestLinkTarget : Type := mkTarget {
  target_repository : str;
  target_number : Z;
}.
#[export] Instance PullRequestLinkTarget_eq_dec : EqDecision PullRequestLinkTarget.
Proof. solve_decision. Defined.
#[export] Instance PrincipalKind_eq_dec : EqDecision PrincipalKind.
Proof. solve_decision. Defined.

Inductive WakeOrigin : Type :=
| Origin_Scheduled
| Origin_Subscription (target : PullRequestLinkTarget)
| Origin_Digest.

Inductive WatchPurpose : Type := Ordinary | Digest.
#[export] Instance WatchPurpose_eq_dec : EqDecision WatchPurpose.
Proof. solve_decision. Defined.

(** ** Probes *)

Record Probe : Type := mkProbe {
  script : str;
  prev : str;
  purpose : WatchPurpose;
}.

Definition DIGEST_HEADER : str := lit "# dekopon: daily-digest" ++ [10].
Definition DIGEST_INTERVAL : Z := dur_from_secs (24 * 60 * 60).
Definition MAX_PROBE_OUTPUT_BYTES : Z := 8 * 1024.

Definition into_digest (p : Probe) : Probe := mkProbe (script p) (prev p) Digest.

Definition minimum_interval (configured : Z) (p : Probe) : Z :=
  match purpose p with Ordinary => configured | Digest => Z.max configured DIGEST_INTERVAL end.

Definition encoded_script (p : Probe) : str :=
  match purpose p with Ordinary => script p | Digest => DIGEST_HEADER ++ script p end.

Definition Probe_decode (script prev : str) (space : bool) : Probe :=
  match (if space then strip_prefix script DIGEST_HEADER else None) with
  | Some script => mkProbe script prev Digest
  | None => mkProbe script prev Ordinary
  end.

Inductive Verdict : Type :=
| Fire (output : str)
| Wait (output : str)
| Failed (exit : Z) (output : str).

(** [From<ScriptOutcome>]. *)
Definition Verdict_from (exit : Z) (output : str) (truncated : bool) : Verdict :=
  if truncated || (MAX_PROBE_OUTPUT_BYTES <? len output)
  then Failed exit (lit "[gateway: the probe printed more than " ++ to_decimal MAX_PROBE_OUTPUT_BYTES
                    ++ lit " bytes; print less]")
  else if exit =? SUCCESS then Fire output
  else if exit =? FAILURE then Wait output
  else Failed exit output.

Inductive WakeRefusal : Type :=
| DigestExists
| SubscriptionsFull (maximum : Z)
| MappedChannelRequired
| NoteTooLong (maximum : Z)
| Horizon (maximum : Z)
| Interval (minimum : Z)
| Full (maximum : Z)
| Broken (exit : Z) (output : str)
| NotFound
| Unavailable
| Store.

(** [Probe::baseline]; [outcome] is the first run of the script. *)
Definition Probe_baseline (script : str) (outcome : str → Verdict) : result WakeRefusal Probe :=
  let script := if starts_with script DIGEST_HEADER then 10 :: script else script in
  match outcome script with
  | Fire output | Wait output => Ok (mkProbe script output Ordinary)
  | Failed exit output => Err (Broken exit output)
  end.

(** ** Anchors and wakes *)

Section Wakes.
(** Parents of traces. *)
Context {P : Type}.

Record Anchor : Type := mkAnchor {
  a_transport : str;
  a_kind : ChatTransportKind;
  a_subject : AttestedSubject;
  a_conversation : Conversation;
  a_reply : ReplyTarget;
  a_agent : str;
  a_scheduled_in : option P;
}.

Definition anchor_subject (a : Anchor) : Subject := attested_name (a_subject a).

Definition space_kind (kind : ChatTransportKind) : option SubjectKind :=
  match kind with
  | Kind_Slack => Some SlackChannel
  | Kind_Fauxlack => Some FauxlackChannel
  | Kind_Discord => Some DiscordChannel
  | Kind_Telegram | Kind_Whatsapp | Kind_Github | Kind_Local => None
  end.

Definition ok_option {E A : Type} (r : result E A) : option A :=
  match r with Ok a => Some a | Err _ => None end.

Definition as_space (a : Anchor) : option Anchor :=
  match conversation_kind (a_conversation a) with
  | DirectMessage | GroupDirectMessage => None
  | Channel | Thread =>
      match space_kind (a_kind a), container (a_conversation a) with
      | Some kind, Some tenant =>
          match ok_option (Subject_new kind tenant (conversation_id (a_conversation a))) with
          | None => None
          | Some space =>
              match ok_option (AttestedSubject_one space) with
              | None => None
              | Some subject =>
                  Some (mkAnchor (a_transport a) (a_kind a) subject (a_conversation a) (a_reply a)
                          (a_agent a) (a_scheduled_in a))
              end
          end
      | _, _ => None
      end
  end.

Definition same_channel (a b : Anchor) : bool :=
  str_eqb (a_agent a) (a_agent b) && str_eqb (a_transport a) (a_transport b)
  && bool_decide (a_subject a = a_subject b)
  && bool_decide (container (a_conversation a) = container (a_conversation b))
  && str_eqb (conversation_id (a_conversation a)) (conversation_id (a_conversation b)).

Definition same_thread (a b : Anchor) : bool :=
  same_channel a b && bool_decide (thread (a_conversation a) = thread (a_conversation b)).

Definition for_job {A X : Type} (m : InboundMessage A X) (agent : str) (parent : option P) : option Anchor :=
  match ok_option (TransportId_from_str (msg_transport m)) with
  | None => None
  | Some transport =>
      Some (mkAnchor transport (msg_kind m) (msg_subject m) (msg_conversation m) (msg_reply m) agent parent)
  end.

Definition from_inbound {A X : Type} (m : InboundMessage A X) (agent : str) (parent : option P) : option Anchor :=
  match msg_reply m with
  | Reply_Local _ => None
  | _ => for_job m agent parent
  end.

(** [RunAs] has one value, [Space]. *)
Inductive RunAs : Type := RunAs_Space.

Inductive WakeKind : Type :=
| Once
| Subscription (target : PullRequestLinkTarget)
| Watch (probe : Probe) (every until : Z).

Record Wake : Type := mkWake {
  wake_id : Z;
  anchor : Anchor;
  note : str;
  next_at : Z;
  wake_kind : WakeKind;
  run_as : option RunAs;
}.

Definition runs_as_space (w : Wake) : bool := match run_as w with Some _ => true | None => false end.

Definition is_subscription (w : Wake) : bool :=
  match wake_kind w with Subscription _ => true | Once | Watch _ _ _ => false end.

Definition is_digest (w : Wake) : bool :=
  runs_as_space w
  && match wake_kind w with
     | Watch probe _ _ => bool_decide (purpose probe = Digest)
     | Once | Subscription _ => false
     end.

Definition expired_digest (now : Z) (w : Wake) : bool :=
  is_digest w && match wake_kind w with Watch _ _ until => until <=? now | Once | Subscription _ => false end.

Record WakeSummary : Type := mkWakeSummary {
  ws_id : Z;
  ws_note : str;
  ws_due_in : Z;
  ws_watch : option (Z * Z * str);
}.

Definition Wake_summary (now : Z) (w : Wake) : WakeSummary :=
  mkWakeSummary (wake_id w) (note w) (since (next_at w) now)
    match wake_kind w with
    | Once | Subscription _ => None
    | Watch probe every until => Some (every, since until now, prev probe)
    end.

Definition fired_text (id : Z) (note reason : str) (output : option str) : str :=
  lit "[gateway: wake " ++ to_decimal id ++ lit " " ++ reason
  ++ lit ". Your note from when it was scheduled:]" ++ [10] ++ note
  ++ match output with
     | Some output => [10] ++ lit "[gateway: the probe printed:]" ++ [10] ++ output
     | None => []
     end.

Record Fired : Type := mkFired {
  f_anchor : Anchor;
  f_id : Z;
  f_text : str;
  f_notice : str;
  f_origin : WakeOrigin;
}.

Definition Wake_fired (reason : str) (output : option str) (w : Wake) : Fired :=
  mkFired (anchor w) (wake_id w) (fired_text (wake_id w) (note w) reason output)
    match output with Some output => note w ++ [10; 10] ++ output | None => note w end
    match wake_kind w with
    | Subscription target => Origin_Subscription target
    | Watch _ _ _ => if is_digest w then Origin_Digest else Origin_Scheduled
    | Once => Origin_Scheduled
    end.

Record Tick : Type := mkTick {
  tick_id : Z;
  tick_anchor : Anchor;
  tick_probe : Probe;
}.

(** ** The file *)

Record WatchLine : Type := mkWatchLine {
  wl_script : str;
  wl_prev : str;
  wl_every_ms : Z;
  wl_until_ms : Z;
}.

Record Line : Type := mkLine {
  l_id : Z;
  l_transport : str;
  l_kind : ChatTransportKind;
  l_subject : Subject;
  l_subject_id : option Subject;
  l_conversation : Conversation;
  l_reply : ReplyTarget;
  l_agent : str;
  l_scheduled_in : option P;
  l_note : str;
  l_next_at_ms : Z;
  l_watch : option WatchLine;
  l_subscription : option PullRequestLinkTarget;
  l_run_as : option RunAs;
}.

Definition time_millis (at_ : Z) : Z := if at_ <? 0 then 0 else Z.min u64_max (dur_as_millis at_).
Definition time_at (millis : Z) : Z := dur_from_millis millis.

Definition Line_from (w : Wake) : Line :=
  let a := anchor w in
  mkLine (wake_id w) (a_transport a) (a_kind a) (attested_name (a_subject a)) (id_form (a_subject a))
    (a_conversation a) (a_reply a) (a_agent a) (a_scheduled_in a) (note w) (time_millis (next_at w))
    match wake_kind w with
    | Once | Subscription _ => None
    | Watch probe every until =>
        Some (mkWatchLine (encoded_script probe) (prev probe) (Z.min u64_max (dur_as_millis every))
                (time_millis until))
    end
    match wake_kind w with Subscription target => Some target | Once | Watch _ _ _ => None end
    (run_as w).

Definition is_local (r : ReplyTarget) : bool := match r with Reply_Local _ => true | _ => false end.

Definition or_else {A : Type} (o p : option A) : option A := match o with Some _ => o | None => p end.

Definition line_kind (l : Line) (space : bool) : option WakeKind :=
  match l_watch l, l_subscription l with
  | None, None => Some Once
  | None, Some target => Some (Subscription target)
  | Some _, Some _ => None
  | Some watch, None =>
      Some (Watch (Probe_decode (wl_script watch) (wl_prev watch) space)
              (dur_from_millis (wl_every_ms watch)) (time_at (wl_until_ms watch)))
  end.

Definition line_subject (l : Line) : option AttestedSubject :=
  ok_option match l_subject_id l with
            | Some id => paired (l_subject l) id
            | None => AttestedSubject_one (l_subject l)
            end.

(** The checks of a wake that runs as its space. *)
Definition space_wake_ok (w : Wake) : bool :=
  match as_space (anchor w) with
  | None => false
  | Some space =>
      bool_decide (anchor_subject space = anchor_subject (anchor w))
      && is_canonical_for (a_kind (anchor w)) (anchor_subject (anchor w)) (a_conversation (anchor w))
      && match wake_kind w with
         | Watch probe every _ =>
             negb ((every =? 0) || (bool_decide (purpose probe = Digest) && (every <? DIGEST_INTERVAL)))
         | Once | Subscription _ => true
         end
  end.

Definition Line_wake (l : Line) : option Wake :=
  let run_as :=
    or_else (l_run_as l) (match l_subscription l with Some _ => Some RunAs_Space | None => None end) in
  match ok_option (TransportId_from_str (l_transport l)), is_local (l_reply l), line_subject l,
        line_kind l (match run_as with Some _ => true | None => false end) with
  | Some transport, false, Some subject, Some kind =>
      let w :=
        mkWake (l_id l)
          (mkAnchor transport (l_kind l) subject (l_conversation l) (l_reply l) (l_agent l) (l_scheduled_in l))
          (l_note l) (time_at (l_next_at_ms l)) kind run_as in
      if runs_as_space w && negb (space_wake_ok w) then None else Some w
  | _, _, _, _ => None
  end.

(** [read]; the error is the number of the line. *)
Fixpoint read_file (index : Z) (lines : list Line) : result Z (list Wake) :=
  match lines with
  | [] => Ok []
  | l :: lines =>
      match Line_wake l with
      | None => Err (index + 1)
      | Some w => let? ws := read_file (index + 1) lines in Ok (w :: ws)
      end
  end.

(** ** The store *)

Record WakeBounds : Type := mkBounds {
  max_per_subject : Z;
  min_interval : Z;
  max_horizon : Z;
  max_subscriptions_per_agent : Z;
  subscription_expiry : Z;
}.

Record WakeStore : Type := mkStore {
  bounds : WakeBounds;
  wakes : list Wake;
  next_id : Z;
  file : list Line;
}.

Definition open_store (b : WakeBounds) (file : list Line) : result Z WakeStore :=
  let? ws := read_file 0 file in
  Ok (mkStore b ws
        match wake_id <$> ws with
        | [] => 1
        | id :: ids => (foldl Z.max id ids + 1) mod (u32_max + 1)
        end
        file).

(** [write] and the assignments after it. *)
Definition write (io : bool) (ws : list Wake) (id : Z) (s : WakeStore) : option WakeStore :=
  if io then Some (mkStore (bounds s) ws id (Line_from <$> ws)) else None.

Definition mutate {T : Type} (io : bool) (change : list Wake → T * list Wake) (s : WakeStore)
    : option T * WakeStore :=
  let '(result, ws) := change (wakes s) in
  match write io ws (next_id s) s with
  | Some s => (Some result, s)
  | None => (None, s)
  end.

Definition count {A : Type} (p : A → bool) (l : list A) : Z := Z.of_nat (length (List.filter p l)).

Definition expire_subscriptions (now : Z) (ws : list Wake) : list Wake :=
  List.filter (fun w => negb (is_subscription w && (next_at w <=? now))) ws.

Definition push_wake (io : bool) (now : Z) (w : Wake) (ws : list Wake) (s : WakeStore)
    : result WakeRefusal WakeSummary * WakeStore :=
  match write io (ws ++ [w]) ((next_id s + 1) mod (u32_max + 1)) s with
  | Some s => (Ok (Wake_summary now w), s)
  | None => (Err Store, s)
  end.

(** The anchor is that of the space it is in. *)
Definition is_space_anchor (a : Anchor) : bool :=
  match as_space a with
  | Some space => bool_decide (anchor_subject space = anchor_subject a)
  | None => false
  end.

Definition subscribes (a : Anchor) (target : PullRequestLinkTarget) (w : Wake) : bool :=
  same_thread (anchor w) a
  && match wake_kind w with
     | Subscription existing => bool_decide (existing = target)
     | Once | Watch _ _ _ => false
     end.

Definition subscribe (io : bool) (a : Anchor) (target : PullRequestLinkTarget) (now : Z) (s : WakeStore)
    : result WakeRefusal WakeSummary * WakeStore :=
  if negb (is_space_anchor a) then (Err MappedChannelRequired, s)
  else
    let ws := expire_subscriptions now (wakes s) in
    match find_first (subscribes a target) ws with
    | Some w => (Ok (Wake_summary now w), s)
    | None =>
        let maximum := max_subscriptions_per_agent (bounds s) in
        let pending := count (fun w => str_eqb (a_agent (anchor w)) (a_agent a) && is_subscription w) ws in
        if maximum <=? pending then (Err (SubscriptionsFull maximum), s)
        else
          push_wake io now
            (mkWake (next_id s) a
               (lit "PR subscription " ++ target_repository target ++ lit "#" ++ to_decimal (target_number target))
               (now + subscription_expiry (bounds s)) (Subscription target) (Some RunAs_Space)) ws s
    end.

Definition list_subscriptions (io : bool) (a : Anchor) (now : Z) (s : WakeStore)
    : result WakeRefusal (list WakeSummary) * WakeStore :=
  let '(r, s) :=
    mutate io (fun ws =>
      let ws := expire_subscriptions now ws in
      (Wake_summary now <$> List.filter (fun w => same_channel (anchor w) a && is_subscription w) ws, ws)) s in
  (ok_or r Store, s).

(** [retain] of a method that cancels: whether one was removed. *)
Definition cancel_where (io : bool) (remove : Wake → bool) (s : WakeStore) : result WakeRefusal unit * WakeStore :=
  let '(r, s) :=
    mutate io (fun ws =>
      let kept := List.filter (fun w => negb (remove w)) ws in
      (negb (length ws =? length kept)%nat, kept)) s in
  (match r with None => Err Store | Some true => Ok tt | Some false => Err NotFound end, s).

Definition cancel_subscription (io : bool) (a : Anchor) (id : Z) (s : WakeStore)
    : result WakeRefusal unit * WakeStore :=
  cancel_where io (fun w => (wake_id w =? id) && same_channel (anchor w) a && is_subscription w) s.

Definition cancel (io : bool) (subject : Subject) (id : Z) (s : WakeStore) : result WakeRefusal unit * WakeStore :=
  cancel_where io (fun w =>
    negb (negb (wake_id w =? id) || negb (bool_decide (anchor_subject (anchor w) = subject))
          || runs_as_space w || is_subscription w)) s.

Definition owns (person space : Anchor) (w : Wake) : bool :=
  match run_as w with
  | None => bool_decide (anchor_subject (anchor w) = anchor_subject person)
  | Some RunAs_Space => same_channel (anchor w) space
  end.

Definition cancel_for (io : bool) (person : Anchor) (space : option Anchor) (id : Z) (s : WakeStore)
    : result WakeRefusal unit * WakeStore :=
  match space with
  | None => cancel io (anchor_subject person) id s
  | Some space =>
      cancel_where io (fun w => (wake_id w =? id) && owns person space w && negb (is_subscription w)) s
  end.

Definition list_wakes (subject : Subject) (now : Z) (s : WakeStore) : list WakeSummary :=
  Wake_summary now
  <$> List.filter (fun w => bool_decide (anchor_subject (anchor w) = subject) && negb (runs_as_space w)
                            && negb (is_subscription w)) (wakes s).

Definition list_for (person : Anchor) (space : option Anchor) (now : Z) (s : WakeStore) : list WakeSummary :=
  list_wakes (anchor_subject person) now s
  ++ match space with
     | None => []
     | Some space =>
         Wake_summary now
         <$> List.filter (fun w => runs_as_space w && same_channel (anchor w) space
                                   && negb (expired_digest now w) && negb (is_subscription w)) (wakes s)
     end.

Inductive Schedule : Type :=
| Schedule_Once (after : Z)
| Schedule_Watch (probe : Probe) (every until : Z).

(** What [register] checks before it takes the lock: who the wake runs as. *)
Definition check_schedule (b : WakeBounds) (a : Anchor) (schedule : Schedule)
    : result WakeRefusal (option RunAs) :=
  let? run_as :=
    match subject_principal_kind (anchor_subject a) with
    | Space => if is_space_anchor a then Ok (Some RunAs_Space) else Err MappedChannelRequired
    | Person | Repository | ServicePrincipal => Ok None
    end in
  match schedule with
  | Schedule_Once _ => Ok run_as
  | Schedule_Watch probe every until =>
      if bool_decide (purpose probe = Digest) && negb (match run_as with Some _ => true | None => false end)
      then Err MappedChannelRequired
      else
        let minimum := minimum_interval (min_interval b) probe in
        if (every <? minimum) || (until <? every) then Err (Interval minimum)
        else if max_horizon b <? until then Err (Horizon (max_horizon b))
        else Ok run_as
  end.

Definition scheduled (now : Z) (schedule : Schedule) : Z * WakeKind :=
  match schedule with
  | Schedule_Once after => (now + after, Once)
  | Schedule_Watch probe every until => (now + every, Watch probe every (now + until))
  end.

Definition is_digest_kind (k : WakeKind) : bool :=
  match k with
  | Watch probe _ _ => bool_decide (purpose probe = Digest)
  | Once | Subscription _ => false
  end.

Definition register (io : bool) (a : Anchor) (note : str) (now : Z) (schedule : Schedule) (s : WakeStore)
    : result WakeRefusal WakeSummary * WakeStore :=
  match check_schedule (bounds s) a schedule with
  | Err x => (Err x, s)
  | Ok run_as =>
      let '(next_at, kind) := scheduled now schedule in
      let maximum := max_per_subject (bounds s) in
      let ws := List.filter (fun w => negb (expired_digest now w)) (wakes s) in
      let same w := bool_decide (anchor_subject (anchor w) = anchor_subject a) in
      if is_digest_kind kind && existsb (fun w => is_digest w && same w) ws then (Err DigestExists, s)
      else if maximum <=? count (fun w => same w && negb (is_subscription w)) ws
      then (Err (Full maximum), s)
      else push_wake io now (mkWake (next_id s) a note next_at kind run_as) ws s
  end.

Definition store_next_at (s : WakeStore) : option Z :=
  match next_at <$> wakes s with
  | [] => None
  | t :: ts => Some (foldl Z.min t ts)
  end.

Record Due : Type := mkDue {
  due_fired : list Fired;
  due_ticks : list Tick;
}.

Definition rearm (next : Z) (w : Wake) : Wake :=
  mkWake (wake_id w) (anchor w) (note w) next (wake_kind w) (run_as w).

(** One wake of [take_due]: what is due and whether it stays. *)
Definition take_one (now : Z) (w : Wake) : Due * option Wake :=
  if expired_digest now w then (mkDue [] [], None)
  else if now <? next_at w then (mkDue [] [], Some w)
  else
    match wake_kind w with
    | Subscription _ => (mkDue [] [], None)
    | Once => (mkDue [Wake_fired (lit "fired") None w] [], None)
    | Watch probe every until =>
        (mkDue [] [mkTick (wake_id w) (anchor w) probe],
         Some (rearm (match purpose probe with
                      | Digest => Z.min (now + every) until
                      | Ordinary => now + every
                      end) w))
    end.

Definition take_due (io : bool) (now : Z) (s : WakeStore) : option Due * WakeStore :=
  mutate io (fun ws =>
    let taken := take_one now <$> ws in
    (mkDue (concat (due_fired <$> taken.*1)) (concat (due_ticks <$> taken.*1)), omap id taken.*2)) s.

Inductive Resolved : Type :=
| Rearmed
| Resolved_Fired (fired : Fired)
| Gone.

Definition set_prev (output : str) (w : Wake) : Wake :=
  match wake_kind w with
  | Watch probe every until =>
      mkWake (wake_id w) (anchor w) (note w) (next_at w)
        (Watch (mkProbe (script probe) output (purpose probe)) every until) (run_as w)
  | Once | Subscription _ => w
  end.

(** A verdict on a digest: the result and the wake, if it stays. *)
Definition resolve_digest (verdict : Verdict) (now : Z) (w : Wake) : Resolved * option Wake :=
  if expired_digest now w then (Gone, None)
  else
    let settle output fire :=
      match wake_kind w with
      | Watch probe every until =>
          let changed := negb (is_blank output) && negb (str_eqb output (prev probe)) in
          let fired := if fire && changed then Resolved_Fired (Wake_fired (lit "fired") (Some output) w) else Rearmed in
          (fired, Some (rearm (Z.min (now + every) until) (set_prev output w)))
      | Once | Subscription _ => (Rearmed, Some w)
      end in
    match verdict with
    | Fire output => settle output true
    | Wait output => settle output false
    | Failed _ _ => (Gone, None)
    end.

(** A verdict on another watch. *)
Definition resolve_watch (verdict : Verdict) (now : Z) (w : Wake) : Resolved * option Wake :=
  match wake_kind w with
  | Watch _ _ until =>
      match verdict with
      | Wait output =>
          if now <? until then (Rearmed, Some (set_prev output w))
          else (Resolved_Fired (Wake_fired (lit "gave up waiting") (Some output) w), None)
      | Fire output => (Resolved_Fired (Wake_fired (lit "fired") (Some output) w), None)
      | Failed exit output =>
          (Resolved_Fired (Wake_fired (lit "stopped because its probe exited " ++ to_decimal exit) (Some output) w),
           None)
      end
  | Once | Subscription _ => (Gone, Some w)
  end.

(** The first wake with the identifier is replaced or removed. *)
Fixpoint resolve_first (id : Z) (f : Wake → Resolved * option Wake) (ws : list Wake) : Resolved * list Wake :=
  match ws with
  | [] => (Gone, [])
  | w :: ws =>
      if wake_id w =? id then
        let '(r, kept) := f w in (r, match kept with Some w => w :: ws | None => ws end)
      else let '(r, ws) := resolve_first id f ws in (r, w :: ws)
  end.

(** [Tick::resolve]. *)
Definition resolve (io : bool) (id : Z) (verdict : Verdict) (now : Z) (s : WakeStore)
    : option Resolved * WakeStore :=
  mutate io (resolve_first id (fun w => if is_digest w then resolve_digest verdict now w
                                        else resolve_watch verdict now w)) s.

(** ** Requests of a session *)

Definition MAX_NOTE_BYTES : Z := 2 * 1024.
Definition WHATSAPP_WINDOW : Z := dur_from_secs (24 * 60 * 60).

Record SessionWakes : Type := mkSession {
  session_anchor : Anchor;
  space_access : bool;
}.

Definition space_anchor (x : SessionWakes) : result WakeRefusal Anchor :=
  ok_or (if space_access x then as_space (session_anchor x) else None) MappedChannelRequired.

(** [elapsed] is the time since the session began. *)
Definition session_check (b : WakeBounds) (elapsed : Z) (note : str) (span : Z) (x : SessionWakes)
    : result WakeRefusal unit :=
  if MAX_NOTE_BYTES <? len note then Err (NoteTooLong MAX_NOTE_BYTES)
  else
    let maximum :=
      match a_kind (session_anchor x) with
      | Kind_Whatsapp => Z.min (max_horizon b) (Z.max 0 (WHATSAPP_WINDOW - elapsed))
      | _ => max_horizon b
      end in
    if maximum <? span then Err (Horizon maximum) else Ok tt.

Inductive WakeRequest : Type :=
| Request_Once (note : str) (after : Z)
| Request_Watch (note script : str) (every until : Z)
| Request_Digest (note script : str) (every until : Z).

(** The probe of a request to watch: [outcome] runs a script for the first
    time, [None] when the broker cannot be reached. *)
Definition session_probe (b : WakeBounds) (elapsed : Z) (digest : bool) (outcome : option (str → Verdict))
    (note script : str) (every until : Z) (x : SessionWakes) : result WakeRefusal Probe :=
  let? _ := if digest then (let? _ := space_anchor x in Ok tt) else Ok tt in
  let? _ := session_check b elapsed note until x in
  let minimum := if digest then Z.max (min_interval b) DIGEST_INTERVAL else min_interval b in
  if (every <? minimum) || (until <? every) then Err (Interval minimum)
  else
    let? run := ok_or outcome Unavailable in
    let? probe := Probe_baseline script run in
    Ok (if digest then into_digest probe else probe).

(** [SessionWakes::schedule]. *)
Definition session_schedule (io : bool) (now elapsed : Z) (outcome : option (str → Verdict))
    (request : WakeRequest) (x : SessionWakes) (s : WakeStore) : result WakeRefusal WakeSummary * WakeStore :=
  if negb (space_access x)
     && bool_decide (subject_principal_kind (anchor_subject (session_anchor x)) = Space)
  then (Err MappedChannelRequired, s)
  else
    match (if space_access x then space_anchor x else Ok (session_anchor x)) with
    | Err e => (Err e, s)
    | Ok a =>
        let watch digest note script every until :=
          match session_probe (bounds s) elapsed digest outcome note script every until x with
          | Err e => (Err e, s)
          | Ok probe => register io a note now (Schedule_Watch probe every until) s
          end in
        match request with
        | Request_Once note after =>
            match session_check (bounds s) elapsed note after x with
            | Err e => (Err e, s)
            | Ok _ => register io a note now (Schedule_Once after) s
            end
        | Request_Watch note script every until => watch false note script every until
        | Request_Digest note script every until => watch true note script every until
        end
    end.

(** The space whose wakes the session may see. *)
Definition visible_space (x : SessionWakes) : option Anchor :=
  if space_access x then as_space (session_anchor x) else None.

Definition session_list_subscriptions (io : bool) (now : Z) (x : SessionWakes) (s : WakeStore)
    : result WakeRefusal (list WakeSummary) * WakeStore :=
  match space_anchor x with
  | Err e => (Err e, s)
  | Ok a => list_subscriptions io a now s
  end.

Definition session_cancel_subscription (io : bool) (id : Z) (x : SessionWakes) (s : WakeStore)
    : result WakeRefusal unit * WakeStore :=
  match space_anchor x with
  | Err e => (Err e, s)
  | Ok a => cancel_subscription io a id s
  end.

Definition session_list (now : Z) (x : SessionWakes) (s : WakeStore) : list WakeSummary :=
  list_for (session_anchor x) (visible_space x) now s.

Definition session_cancel (io : bool) (id : Z) (x : SessionWakes) (s : WakeStore)
    : result WakeRefusal unit * WakeStore :=
  cancel_for io (session_anchor x) (visible_space x) id s.

(** ** Subscriptions *)

(** A delivery of GitHub, as far as subscriptions read it. *)
Inductive GithubEventName : Type := PullRequest | OtherEvent.

Record GithubEvent : Type := mkEvent {
  event : GithubEventName;
  action : option str;
  full_name : str;
  number : option Z;
}.

Definition subscription_matches (agent : str) (e : GithubEvent) (w : Wake) : bool :=
  match event e with
  | OtherEvent => false
  | PullRequest =>
      str_eqb (a_agent (anchor w)) agent
      && match wake_kind w, number e with
         | Subscription target, Some n =>
             str_eqb (target_repository target) (full_name e) && (target_number target =? n)
         | _, _ => false
         end
  end.

Definition matches_subscription (agent : str) (e : GithubEvent) (s : WakeStore) : bool :=
  existsb (subscription_matches agent e) (wakes s).

Definition is_action (word : str) (e : GithubEvent) : bool := is_some_and (action e) (str_eqb word).

(** Whether a subscription matched, and what fires. *)
Definition deliver_subscriptions (io : bool) (agent : str) (e : GithubEvent) (now : Z) (s : WakeStore)
    : option (bool * list Fired) * WakeStore :=
  mutate io (fun ws =>
    let ws := expire_subscriptions now ws in
    let matching := List.filter (subscription_matches agent e) ws in
    ((match matching with [] => false | _ => true end,
      if is_action (lit "synchronize") e then Wake_fired (lit "fired") None <$> matching else []),
     if is_action (lit "closed") e then List.filter (fun w => negb (subscription_matches agent e w)) ws else ws)) s.
End Wakes.
