(* ===== verification/WakesSafety.v ===== *)
(** * What the store of wakes promises

    Over any sequence of requests, due times, verdicts, deliveries and restarts
    of the gateway ([op], [run_ops]): what is in the file is what is in memory, to
    the millisecond, and can be read back; limits hold; and a wake stays until it
    fires, is cancelled by its owner or expires. *)

From Stdlib Require Import ZArith Lia Ascii String.
From stdpp Require Import base strings list numbers.
From S2P Require Import Prelude RustStr Identifier Subject Conversation ProcessTree MessageText Jobs Collector Wakes.

Section Safety.
Context {P : Type}.
Implicit Types (w : Wake (P := P)) (ws : list (Wake (P := P))) (s : WakeStore (P := P)) (a : Anchor (P := P)).

(** ** What is read back *)

(** Times are kept to the millisecond. *)
Definition trunc (t : Z) : Z := dur_from_millis (dur_as_millis t).

Definition truncate_kind (k : WakeKind) : WakeKind :=
  match k with Watch probe every until => Watch probe (trunc every) (trunc until) | k => k end.

Definition truncate_wake w : Wake :=
  mkWake (wake_id w) (anchor w) (note w) (trunc (next_at w)) (truncate_kind (wake_kind w)) (run_as w).

Definition time_ok (t : Z) : Prop := 0 ≤ t ∧ dur_as_millis t ≤ u64_max.

Record anchor_ok a : Prop := {
  ao_transport : TransportId_from_str (a_transport a) = Ok (a_transport a);
  ao_reply : is_local (a_reply a) = false;
  ao_subject : attested_ok (a_subject a);
}.

Definition kind_ok (horizon : Z) (space : bool) (k : WakeKind) : Prop :=
  match k with
  | Once => True
  | Subscription _ => space = true
  | Watch probe every until =>
      time_ok until ∧ 1 ≤ dur_as_millis every ∧ every ≤ horizon
      ∧ match purpose probe with
        | Digest => space = true ∧ DIGEST_INTERVAL ≤ every
        | Ordinary => space = true → strip_prefix (script probe) DIGEST_HEADER = None
        end
  end.

Record wake_ok (b : WakeBounds) w : Prop := {
  wk_anchor : anchor_ok (anchor w);
  wk_time : time_ok (next_at w);
  wk_kind : kind_ok (max_horizon b) (runs_as_space w) (wake_kind w);
  wk_space : runs_as_space w = true →
    is_space_anchor (anchor w) = true
    ∧ is_canonical_for (a_kind (anchor w)) (anchor_subject (anchor w)) (a_conversation (anchor w)) = true;
}.

(** The bounds a configuration may set. *)
Record bounds_ok (b : WakeBounds) : Prop := {
  bo_interval : 1 ≤ dur_as_millis (min_interval b);
  bo_horizon : max_horizon b ≤ dur_from_millis u64_max;
  bo_expiry : 0 ≤ subscription_expiry b;
  bo_wakes : 0 ≤ max_per_subject b;
  bo_subscriptions : 0 ≤ max_subscriptions_per_agent b;
}.

Lemma as_millis_trunc (t : Z) : dur_as_millis (trunc t) = dur_as_millis t.
Proof. unfold trunc, dur_as_millis, dur_from_millis. apply Z.div_mul. lia. Qed.

Lemma trunc_le (t : Z) : trunc t ≤ t.
Proof. unfold trunc, dur_as_millis, dur_from_millis. pose proof (Z.mul_div_le t 1000000). lia. Qed.

Lemma trunc_le_millis (m t : Z) : dur_from_millis m ≤ t → dur_from_millis m ≤ trunc t.
Proof.
  unfold trunc, dur_as_millis, dur_from_millis. intros H.
  pose proof (Z.div_le_lower_bound t 1000000 m). lia.
Qed.

Lemma time_ok_trunc (t : Z) : time_ok t → time_ok (trunc t).
Proof.
  intros [H0 H]. split; [|by rewrite as_millis_trunc].
  unfold trunc, dur_as_millis, dur_from_millis. pose proof (Z.div_pos t 1000000). lia.
Qed.

Lemma time_at_millis (t : Z) : time_ok t → time_at (time_millis t) = trunc t.
Proof.
  intros [H0 H]. unfold time_at, time_millis. rewrite (proj2 (Z.ltb_ge t 0)) by lia.
  rewrite Z.min_r by done. done.
Qed.

Lemma truncate_wake_space w : runs_as_space (truncate_wake w) = runs_as_space w.
Proof. done. Qed.

Lemma truncate_wake_ok (b : WakeBounds) w : wake_ok b w → wake_ok b (truncate_wake w).
Proof.
  intros [Ha Ht Hk Hs]. split; try done; [by apply time_ok_trunc|].
  unfold truncate_wake, runs_as_space. cbn. destruct (wake_kind w) as [| |probe every until]; cbn in *; [done..|].
  destruct Hk as (Hu & Hm & Hh & Hp). split_and!.
  - by apply time_ok_trunc.
  - by rewrite as_millis_trunc.
  - pose proof (trunc_le every). lia.
  - destruct (purpose probe); [done|]. destruct Hp as [? Hd]. split; [done|].
    change DIGEST_INTERVAL with (dur_from_millis (24 * 60 * 60 * 1000)) in *. by apply trunc_le_millis.
Qed.

Lemma decode_encoded (probe : Probe) (space : bool) :
  match purpose probe with
  | Digest => space = true
  | Ordinary => space = true → strip_prefix (script probe) DIGEST_HEADER = None
  end →
  Probe_decode (encoded_script probe) (prev probe) space = probe.
Proof.
  destruct probe as [sc pv []]; unfold Probe_decode, encoded_script; cbn [purpose script prev]; intros H.
  - destruct space; [by rewrite H|done].
  - rewrite H. by rewrite (proj2 (strip_prefix_Some (DIGEST_HEADER ++ sc) DIGEST_HEADER sc) eq_refl).
Qed.

Lemma line_subject_from w : attested_ok (a_subject (anchor w)) → line_subject (Line_from w) = Some (a_subject (anchor w)).
Proof.
  unfold line_subject, Line_from. cbn. destruct (a_subject (anchor w)) as [x|name id]; cbn.
  - by intros [_ ->].
  - by intros (_ & _ & ->).
Qed.

(** A wake written to the file is read back. *)
Lemma line_round_trip (b : WakeBounds) w :
  bounds_ok b → wake_ok b w → Line_wake (Line_from w) = Some (truncate_wake w).
Proof.
  intros Hb Hw. pose proof (truncate_wake_ok b w Hw) as [_ _ Hk' Hs'].
  destruct Hw as [[Htr Hrep Hsub] Ht Hk Hs]. unfold Line_wake. rewrite line_subject_from by done.
  assert (or_else (l_run_as (Line_from w))
    (match l_subscription (Line_from w) with Some _ => Some RunAs_Space | None => None end) = run_as w) as ->.
  { unfold Line_from, runs_as_space in *. cbn. destruct (run_as w); [done|]. by destruct (wake_kind w). }
  assert (line_kind (Line_from w) (runs_as_space w) = Some (truncate_kind (wake_kind w))) as Hkind.
  { unfold line_kind, Line_from. cbn. destruct (wake_kind w) as [| |probe every until]; cbn in *; [done..|].
    destruct Hk as (Hu & Hm & Hh & Hp). rewrite time_at_millis by done.
    rewrite decode_encoded by (destruct (purpose probe); tauto). rewrite Z.min_r; [done|].
    apply Z.div_le_upper_bound; [lia|]. pose proof (bo_horizon _ Hb) as Hho. unfold dur_from_millis in Hho. lia. }
  unfold runs_as_space in Hkind. rewrite Hkind. unfold Line_from at 1 2. cbn [l_transport l_reply].
  rewrite Htr. cbn [ok_option]. rewrite Hrep. unfold Line_from. cbn.
  rewrite time_at_millis by done.
  assert (mkAnchor (a_transport (anchor w)) (a_kind (anchor w)) (a_subject (anchor w)) (a_conversation (anchor w))
    (a_reply (anchor w)) (a_agent (anchor w)) (a_scheduled_in (anchor w)) = anchor w) as -> by (by destruct (anchor w)).
  change (mkWake (wake_id w) (anchor w) (note w) (trunc (next_at w)) (truncate_kind (wake_kind w)) (run_as w))
    with (truncate_wake w).
  destruct (runs_as_space (truncate_wake w)) eqn:Er; cbn [andb]; [|done].
  destruct (Hs' eq_refl) as [Hsp Hcan]. assert (space_wake_ok (truncate_wake w) = true) as ->; [|done].
  unfold space_wake_ok, is_space_anchor in *. destruct (as_space (anchor (truncate_wake w))); [|done].
  rewrite Hsp, Hcan. cbn [andb]. destruct (wake_kind (truncate_wake w)) as [| |probe every until]; [done..|].
  cbn in Hk'. destruct Hk' as (_ & Hm & _ & Hp). apply negb_true_iff, orb_false_iff. split.
  - apply Z.eqb_neq. intros ->. by vm_compute in Hm.
  - destruct (purpose probe); [by rewrite bool_decide_eq_false_2|]. rewrite bool_decide_eq_true_2 by done.
    apply Z.ltb_ge. tauto.
Qed.

Lemma read_file_from (b : WakeBounds) (i : Z) ws :
  bounds_ok b → Forall (wake_ok b) ws → read_file i (Line_from <$> ws) = Ok (truncate_wake <$> ws).
Proof.
  intros Hb H. revert i. induction H as [|w ws Hw _ IH]; intros i; [done|].
  cbn [fmap list_fmap read_file]. rewrite (line_round_trip b) by done. by rewrite IH.
Qed.

Lemma truncate_idemp w : truncate_wake (truncate_wake w) = truncate_wake w.
Proof.
  assert (∀ t, trunc (trunc t) = trunc t) as H by (intros t; unfold trunc at 1; by rewrite as_millis_trunc).
  unfold truncate_wake. cbn. rewrite H. destruct (wake_kind w); cbn; by rewrite ?H.
Qed.

(** ** How the wakes of a store change *)

(** What the limits and the identifiers depend on; [stays] below says all that
    is kept. *)
Record same_class w w' : Prop := {
  sw_id : wake_id w' = wake_id w;
  sw_anchor : anchor w' = anchor w;
  sw_note : note w' = note w;
  sw_run_as : run_as w' = run_as w;
  sw_subscription : is_subscription w' = is_subscription w;
  sw_digest : is_digest w' = is_digest w;
}.

Lemma same_class_refl w : same_class w w.
Proof. by split. Qed.

(** Wakes are dropped or kept, in their order. *)
Inductive evolves (b : WakeBounds) : list (Wake (P := P)) → list (Wake (P := P)) → Prop :=
| ev_nil : evolves b [] []
| ev_keep w w' ws ws' :
    same_class w w' → (wake_ok b w → wake_ok b w') → evolves b ws ws' → evolves b (w :: ws) (w' :: ws')
| ev_drop w ws ws' : evolves b ws ws' → evolves b (w :: ws) ws'.

Lemma filter_evolves (b : WakeBounds) (keep : Wake → bool) ws : evolves b ws (List.filter keep ws).
Proof.
  induction ws as [|w ws IH]; cbn; [constructor|].
  destruct (keep w); [constructor; [apply same_class_refl|done|done]|by constructor].
Qed.

Lemma evolves_refl (b : WakeBounds) ws : evolves b ws ws.
Proof. induction ws; constructor; [apply same_class_refl|done|done]. Qed.

Lemma evolves_trans (b : WakeBounds) ws ws' ws'' : evolves b ws ws' → evolves b ws' ws'' → evolves b ws ws''.
Proof.
  intros H. revert ws''. induction H as [|w w' ws ws' [] Hok H IH|w ws ws' H IH]; intros ws'' H2.
  - done.
  - inversion H2 as [|? w'' ? ? [] Hok'|]; subst; [|constructor; by apply IH].
    constructor; [split; congruence|by auto|by apply IH].
  - constructor. by apply IH.
Qed.

Lemma evolves_ok (b : WakeBounds) ws ws' : evolves b ws ws' → Forall (wake_ok b) ws → Forall (wake_ok b) ws'.
Proof.
  induction 1 as [|w w' ws ws' Hs Hok H IH|w ws ws' H IH]; intros Hf; [done| |];
    apply List.Forall_cons_iff in Hf as [Hw Hf]; [constructor|]; auto.
Qed.

Lemma evolves_elem (b : WakeBounds) ws ws' w' : evolves b ws ws' → w' ∈ ws' → ∃ w, w ∈ ws ∧ same_class w w'.
Proof.
  induction 1 as [|w x ws ws' Hs Hok H IH|w ws ws' H IH]; intros Hin.
  - by apply not_elem_of_nil in Hin.
  - apply elem_of_cons in Hin as [->|Hin]; [exists w; split; [constructor|done]|].
    destruct (IH Hin) as (y & ? & ?). exists y. split; [by constructor|done].
  - destruct (IH Hin) as (y & ? & ?). exists y. split; [by constructor|done].
Qed.

Lemma evolves_ids (b : WakeBounds) ws ws' :
  evolves b ws ws' → NoDup (wake_id <$> ws) → NoDup (wake_id <$> ws').
Proof.
  induction 1 as [|w w' ws ws' Hs Hok H IH|w ws ws' H IH]; intros Hn; [done| |];
    cbn in Hn; apply list.NoDup_cons in Hn as [Hw Hn]; [|by apply IH].
  cbn. apply list.NoDup_cons. split; [|by apply IH]. intros (x & Ex & Hx)%list_elem_of_fmap.
  destruct (evolves_elem b ws ws' x H Hx) as (y & Hy & Hyx). destruct Hw. apply list_elem_of_fmap.
  exists y. split; [|done]. rewrite <- (sw_id _ _ Hs), Ex. by rewrite (sw_id _ _ Hyx).
Qed.

Lemma evolves_count (b : WakeBounds) (p : Wake → bool) ws ws' :
  (∀ w w', same_class w w' → p w' = p w) → evolves b ws ws' → count p ws' ≤ count p ws.
Proof.
  intros Hp. unfold count. induction 1 as [|w w' ws ws' Hs Hok H IH|w ws ws' H IH]; cbn; [lia| |].
  - rewrite (Hp w w' Hs). destruct (p w); cbn; lia.
  - destruct (p w); cbn; lia.
Qed.

(** ** The invariant *)

Definition of_subject (x : Subject) w : bool := bool_decide (anchor_subject (anchor w) = x).
Definition scheduled_for (x : Subject) w : bool := of_subject x w && negb (is_subscription w).
Definition subscribed_by (agent : str) w : bool := str_eqb (a_agent (anchor w)) agent && is_subscription w.
Definition digest_of (x : Subject) w : bool := is_digest w && of_subject x w.

(** [k] is the number of operations so far. *)
Record inv (b : WakeBounds) (k : Z) s : Prop := {
  iv_bounds : bounds s = b;
  iv_ok : Forall (wake_ok b) (wakes s);
  iv_file : ∀ i, read_file i (file s) = Ok (truncate_wake <$> wakes s);
  iv_ids : NoDup (wake_id <$> wakes s);
  iv_below : Forall (fun w => 1 ≤ wake_id w < next_id s) (wakes s);
  iv_next : 1 ≤ next_id s ≤ 1 + k;
  iv_subject : ∀ x, count (scheduled_for x) (wakes s) ≤ max_per_subject b;
  iv_agent : ∀ agent, count (subscribed_by agent) (wakes s) ≤ max_subscriptions_per_agent b;
  iv_digest : ∀ x, count (digest_of x) (wakes s) ≤ 1;
}.

Lemma same_class_classes w w' :
  same_class w w' →
  (∀ x, scheduled_for x w' = scheduled_for x w) ∧ (∀ agent, subscribed_by agent w' = subscribed_by agent w)
  ∧ ∀ x, digest_of x w' = digest_of x w.
Proof.
  intros [_ Ha _ _ Hs Hd]. unfold scheduled_for, subscribed_by, digest_of, of_subject. rewrite Ha, Hs, Hd. done.
Qed.

Lemma inv_mono (b : WakeBounds) (k k' : Z) s : inv b k s → k ≤ k' → inv b k' s.
Proof. intros [] ?. split; try done. lia. Qed.

Lemma inv_empty (b : WakeBounds) : bounds_ok b → inv b 0 (mkStore b [] 1 []).
Proof.
  intros Hb. split; cbn; try done; try (constructor || lia).
  - intros x. apply Hb.
  - intros x. apply Hb.
Qed.

Lemma evolves_below (b : WakeBounds) (n : Z) ws ws' :
  evolves b ws ws' → Forall (fun w => 1 ≤ wake_id w < n) ws → Forall (fun w => 1 ≤ wake_id w < n) ws'.
Proof.
  intros H Hf. apply List.Forall_forall. intros w' Hin%list_elem_of_In.
  destruct (evolves_elem b ws ws' w' H Hin) as (w & Hw & Hs). rewrite (sw_id _ _ Hs).
  by apply (Forall_elem _ _ _ Hf).
Qed.

Lemma inv_evolves (b : WakeBounds) (k : Z) s ws' :
  bounds_ok b → inv b k s → evolves b (wakes s) ws' → inv b k (mkStore (bounds s) ws' (next_id s) (Line_from <$> ws')).
Proof.
  intros Hb [Hbs Hok _ Hid Hbl Hn Hsub Hag Hdg] H.
  assert (∀ w w', same_class w w' → _) as Hc by exact same_class_classes.
  assert (Forall (wake_ok b) ws') as Hok' by (by eapply evolves_ok).
  split; cbn; auto.
  - intros i. by apply (read_file_from b).
  - by eapply evolves_ids.
  - by eapply evolves_below.
  - intros x. etrans; [eapply evolves_count; [|exact H]; intros; by apply Hc|auto].
  - intros x. etrans; [eapply evolves_count; [|exact H]; intros; by apply Hc|auto].
  - intros x. etrans; [eapply evolves_count; [|exact H]; intros; by apply Hc|auto].
Qed.

Lemma mutate_inv {T : Type} (b : WakeBounds) (k : Z) (io : bool) (change : list Wake → T * list Wake) s r s' :
  bounds_ok b → inv b k s → evolves b (wakes s) (change (wakes s)).2 → mutate io change s = (r, s') → inv b k s'.
Proof.
  intros Hb Hi H. unfold mutate, write. destruct (change (wakes s)) as [x ws']. cbn in H.
  destruct io; intros [= _ <-]; [by apply inv_evolves|done].
Qed.

Lemma count_snoc (p : Wake → bool) ws w : count p (ws ++ [w]) = count p ws + (if p w then 1 else 0).
Proof. unfold count. rewrite filter_app, length_app. cbn. destruct (p w); cbn; lia. Qed.

Lemma count_none (p : Wake → bool) ws : existsb p ws = false → count p ws = 0.
Proof.
  unfold count. induction ws as [|w ws IH]; cbn; [done|]. intros [-> H]%orb_false_iff. by apply IH.
Qed.

Lemma push_inv (b : WakeBounds) (k : Z) (io : bool) (now : Z) w ws s r s' :
  bounds_ok b → inv b k s → evolves b (wakes s) ws → wake_ok b w → wake_id w = next_id s → k + 1 < u32_max →
  (is_subscription w = false → count (scheduled_for (anchor_subject (anchor w))) ws < max_per_subject b) →
  (is_subscription w = true → count (subscribed_by (a_agent (anchor w))) ws < max_subscriptions_per_agent b) →
  (is_digest w = true → existsb (digest_of (anchor_subject (anchor w))) ws = false) →
  push_wake io now w ws s = (r, s') → inv b (k + 1) s'.
Proof.
  intros Hb Hi Hev Hw Eid Hk Hs Ha Hd. unfold push_wake, write.
  destruct io; intros [= _ <-]; [|apply (inv_mono b k); [done|lia]].
  destruct (inv_evolves b k s ws Hb Hi Hev) as [Hbs Hok _ Hid Hbl Hn Hsub Hag Hdg].
  cbn [bounds wakes next_id file] in *.
  assert (Forall (wake_ok b) (ws ++ [w])) as Hok' by (apply Forall_app; by split; [|constructor]).
  rewrite Z.mod_small by lia. split; cbn [bounds wakes next_id file]; try done.
  - intros i. by apply (read_file_from b).
  - rewrite fmap_app. apply list.NoDup_app. split_and!; [done| |cbn; apply NoDup_singleton].
    intros i (x & -> & Hx)%list_elem_of_fmap Hin. cbn in Hin. apply list_elem_of_singleton in Hin.
    apply (Forall_elem _ _ _ Hbl) in Hx. cbn in Hx. lia.
  - apply Forall_app. split; [eapply List.Forall_impl; [|exact Hbl]; cbn; lia|]. constructor; [cbn; lia|constructor].
  - lia.
  - intros x. rewrite count_snoc. specialize (Hsub x). unfold scheduled_for at 2, of_subject.
    destruct (bool_decide_reflect (anchor_subject (anchor w) = x)) as [<-|_]; cbn [andb]; [|lia].
    destruct (is_subscription w) eqn:Es; cbn [negb]; [lia|]. specialize (Hs eq_refl). lia.
  - intros x. rewrite count_snoc. specialize (Hag x). unfold subscribed_by at 2.
    destruct (str_eqb (a_agent (anchor w)) x) eqn:E; cbn [andb]; [|lia]. apply str_eqb_eq in E as <-.
    destruct (is_subscription w) eqn:Es; [|lia]. specialize (Ha eq_refl). lia.
  - intros x. rewrite count_snoc. specialize (Hdg x). unfold digest_of at 2, of_subject.
    destruct (is_digest w) eqn:Ed; cbn [andb]; [|lia].
    destruct (bool_decide_reflect (anchor_subject (anchor w) = x)) as [<-|_]; [|lia].
    rewrite (count_none _ _ (Hd eq_refl)). lia.
Qed.

(** ** Spaces *)

Lemma as_space_Some a space :
  as_space a = Some space →
  ∃ kind tenant x, space_kind (a_kind a) = Some kind ∧ container (a_conversation a) = Some tenant
    ∧ Subject_new kind tenant (conversation_id (a_conversation a)) = Ok x
    ∧ (conversation_kind (a_conversation a) = Channel ∨ conversation_kind (a_conversation a) = Thread)
    ∧ AttestedSubject_one x = Ok (One x)
    ∧ space = mkAnchor (a_transport a) (a_kind a) (One x) (a_conversation a) (a_reply a) (a_agent a) (a_scheduled_in a).
Proof.
  intros H.
  assert (conversation_kind (a_conversation a) = Channel ∨ conversation_kind (a_conversation a) = Thread) as Hk.
  { unfold as_space in H. destruct (conversation_kind (a_conversation a)); auto; done. }
  unfold as_space in H.
  destruct (space_kind (a_kind a)) as [kind|] eqn:Es; [|by destruct (conversation_kind _)].
  destruct (container (a_conversation a)) as [tenant|] eqn:Ec; [|by destruct (conversation_kind _)].
  destruct (Subject_new kind tenant (conversation_id (a_conversation a))) as [x|] eqn:Ex;
    [|by destruct (conversation_kind _)].
  cbn [ok_option] in H.
  assert (AttestedSubject_one x = Ok (One x)) as Eone.
  { apply Subject_new_Ok in Ex as [-> _]. unfold AttestedSubject_one, subject_namespace.
    by destruct (a_kind a); simplify_eq/=. }
  rewrite Eone in H. exists kind, tenant, x. split_and!; try done. cbn [ok_option] in H.
  by destruct (conversation_kind _); simplify_eq/=.
Qed.

(** The anchor of a space is one of its own. *)
Lemma as_space_idemp a space : as_space a = Some space → as_space space = Some space.
Proof.
  intros H. pose proof H as H0. apply as_space_Some in H0 as (kind & tenant & x & _ & _ & _ & _ & _ & E).
  rewrite E at 1. unfold as_space in *. cbn [a_conversation a_kind a_transport a_reply a_agent a_scheduled_in]. done.
Qed.

Lemma as_space_is_space a space : as_space a = Some space → is_space_anchor space = true.
Proof. intros H. unfold is_space_anchor. rewrite (as_space_idemp a space H). by apply bool_decide_eq_true. Qed.

Lemma as_space_principal a space :
  as_space a = Some space → subject_principal_kind (anchor_subject space) = Space.
Proof.
  intros (kind & tenant & x & Es & _ & [-> _]%Subject_new_Ok & _ & _ & ->)%as_space_Some.
  unfold subject_principal_kind. cbn. by destruct (a_kind a); simplify_eq/=.
Qed.

Lemma as_space_ok a space : anchor_ok a → as_space a = Some space → anchor_ok space.
Proof.
  intros [Ht Hr Hs] (kind & tenant & x & _ & _ & [_ Hx]%Subject_new_Ok & _ & Eo & ->)%as_space_Some.
  split; cbn; [done|done|]. by split.
Qed.

(** A conversation that is canonical for who writes in it is canonical for its
    space. *)
Lemma as_space_canonical a space :
  anchor_ok a → as_space a = Some space →
  is_canonical_for (a_kind a) (anchor_subject a) (a_conversation a) = true →
  is_canonical_for (a_kind space) (anchor_subject space) (a_conversation space) = true.
Proof.
  intros [_ _ Hs] (kind & tn & x & Es & Ec & [-> _]%Subject_new_Ok & Hk & _ & ->)%as_space_Some.
  cbn [a_kind a_conversation]. unfold anchor_subject at 2. cbn [a_subject attested_name].
  unfold is_canonical_for. destruct (_ || _); [done|]. rewrite Ec.
  assert (subject_ok (anchor_subject a)) as (Hta & _ & _) by (unfold anchor_subject; destruct (a_subject a); apply Hs).
  destruct (a_kind a); cbn in Es; try done; injection Es as <-; rewrite !andb_true_iff.
  - intros [[[_ Ht] Hi] H]. split; [split; [split|]|]; try done.
    apply bool_decide_eq_true in Ht. unfold tenant in Ht. destruct (is_empty _) eqn:Ee; [done|]. injection Ht as ->.
    apply bool_decide_eq_true. unfold tenant. cbn [subject_tenant].
    destruct (admitted_clean _ _ (or_introl Hta)) as (_ & _ & ->). by rewrite Ee.
  - intros [[[_ Ht] Hi] H]. split; [split; [split|]|]; done.
  - intros [[_ Ht] H]. split; [split|]; done.
Qed.

(** ** Each operation *)

Lemma evolves_omap (b : WakeBounds) (f : Wake → option Wake) ws :
  (∀ w w', f w = Some w' → same_class w w' ∧ (wake_ok b w → wake_ok b w')) → evolves b ws (omap f ws).
Proof.
  intros Hf. induction ws as [|w ws IH]; cbn; [constructor|].
  destruct (f w) as [w'|] eqn:E; [|by constructor]. apply Hf in E as [? ?]. by constructor.
Qed.

(** A time at which nothing the store adds to it overflows. *)
Definition now_ok (b : WakeBounds) (now : Z) : Prop :=
  0 ≤ now ∧ dur_as_millis (now + max_horizon b) ≤ u64_max ∧ dur_as_millis (now + subscription_expiry b) ≤ u64_max.

Lemma as_millis_mono (t u : Z) : t ≤ u → dur_as_millis t ≤ dur_as_millis u.
Proof. unfold dur_as_millis. intros. apply Z.div_le_mono; lia. Qed.

Lemma now_plus_ok (b : WakeBounds) (now span : Z) :
  now_ok b now → 0 ≤ span ≤ max_horizon b → time_ok (now + span).
Proof.
  intros (H0 & Hh & _) Hs. split; [lia|]. etrans; [|exact Hh]. apply as_millis_mono. lia.
Qed.

Lemma every_pos (every : Z) : 1 ≤ dur_as_millis every → 0 < every.
Proof.
  unfold dur_as_millis. intros H. destruct (Z.lt_ge_cases 0 every); [done|].
  pose proof (Z.div_le_mono every 0 1000000). change (0 `div` 1000000)%Z with 0 in *. lia.
Qed.

Lemma time_ok_min (t u : Z) : time_ok t → time_ok u → time_ok (Z.min t u).
Proof. intros. by destruct (Z.min_spec t u) as [[_ ->]|[_ ->]]. Qed.

Lemma rearm_same (next : Z) w : same_class w (rearm next w).
Proof. by split. Qed.

Lemma rearm_ok (b : WakeBounds) (next : Z) w : time_ok next → wake_ok b w → wake_ok b (rearm next w).
Proof. intros ? []. by split. Qed.

Lemma set_prev_same (output : str) w : same_class w (set_prev output w).
Proof. unfold set_prev. destruct (wake_kind w) eqn:E; [by split..|]. by split; cbn; unfold is_subscription, is_digest; rewrite ?E. Qed.

Lemma set_prev_ok (b : WakeBounds) (output : str) w : wake_ok b w → wake_ok b (set_prev output w).
Proof.
  unfold set_prev. destruct (wake_kind w) eqn:E; [done..|]. intros [? ? Hk ?]. split; try done.
  unfold runs_as_space in *. cbn. by rewrite E in Hk.
Qed.

Lemma same_class_trans w w' w'' : same_class w w' → same_class w' w'' → same_class w w''.
Proof. intros [] []. split; congruence. Qed.

(** The next run of a watch is at a time the file can hold. *)
Lemma watch_next_ok (b : WakeBounds) (now : Z) w probe every until :
  now_ok b now → wake_kind w = Watch probe every until → wake_ok b w →
  time_ok (now + every) ∧ time_ok (Z.min (now + every) until).
Proof.
  intros Hn E [_ _ Hk _]. rewrite E in Hk. destruct Hk as (Hu & Hm & Hh & _). apply every_pos in Hm.
  assert (time_ok (now + every)) by (apply (now_plus_ok b); [done|lia]). split; [done|]. by apply time_ok_min.
Qed.

Lemma take_one_keeps (b : WakeBounds) (now : Z) w w' :
  now_ok b now → (take_one now w).2 = Some w' → same_class w w' ∧ (wake_ok b w → wake_ok b w').
Proof.
  intros Hn. unfold take_one. destruct (expired_digest now w); [done|].
  destruct (now <? next_at w). { intros [= <-]. split; [apply same_class_refl|done]. }
  destruct (wake_kind w) as [| |probe every until] eqn:E; [done..|]. intros [= <-].
  split; [apply rearm_same|]. intros Hw. destruct (watch_next_ok b now w _ _ _ Hn E Hw) as [H1 H2].
  apply rearm_ok; [by destruct (purpose probe)|done].
Qed.

Lemma omap_fmap_comp {A B : Type} (f : A → option B) (l : list A) : omap id (f <$> l) = omap f l.
Proof. induction l as [|x l IH]; cbn; [done|]. by rewrite IH. Qed.

Lemma taken_wakes (now : Z) ws : omap id (take_one now <$> ws).*2 = omap (fun w => (take_one now w).2) ws.
Proof. rewrite <- list_fmap_compose. apply omap_fmap_comp. Qed.

Lemma resolve_one_keeps (b : WakeBounds) (verdict : Verdict) (now : Z) w w' :
  now_ok b now →
  ((if is_digest w then resolve_digest verdict now w else resolve_watch verdict now w).2 = Some w') →
  same_class w w' ∧ (wake_ok b w → wake_ok b w').
Proof.
  intros Hn. assert (same_class w w ∧ (wake_ok b w → wake_ok b w)) as Hrefl by (split; [apply same_class_refl|done]).
  destruct (is_digest w).
  - unfold resolve_digest. destruct (expired_digest now w); [done|].
    destruct (wake_kind w) as [| |probe every until] eqn:E; destruct verdict as [output|output|exit output];
      try done; intros [= <-]; try done;
      (split; [eapply same_class_trans; [apply set_prev_same|apply rearm_same]|]);
      intros Hw; (apply rearm_ok; [by apply (watch_next_ok b now w probe)|by apply set_prev_ok]).
  - unfold resolve_watch. destruct (wake_kind w) as [| |probe every until]; destruct verdict as [output|output|exit output];
      try done; try (by intros [= <-]).
    destruct (now <? until); [|done]. intros [= <-]. split; [apply set_prev_same|apply set_prev_ok].
Qed.

Lemma resolve_first_evolves (b : WakeBounds) (id : Z) (f : Wake → Resolved * option Wake) ws :
  (∀ w w', (f w).2 = Some w' → same_class w w' ∧ (wake_ok b w → wake_ok b w')) →
  evolves b ws (resolve_first id f ws).2.
Proof.
  intros Hf. induction ws as [|w ws IH]; cbn; [constructor|]. destruct (wake_id w =? id).
  - specialize (Hf w). destruct (f w) as [r [w'|]]; cbn in *; [|constructor; apply evolves_refl].
    destruct (Hf w' eq_refl). constructor; [done|done|apply evolves_refl].
  - destruct (resolve_first id f ws) as [r ws']. cbn in *. constructor; [apply same_class_refl|done|done].
Qed.

(** A span a session may ask for, and a script it may watch with. *)
Definition schedule_ok (b : WakeBounds) (schedule : Schedule) : Prop :=
  match schedule with
  | Schedule_Once after => 0 ≤ after ≤ max_horizon b
  | Schedule_Watch probe _ _ => purpose probe = Ordinary → strip_prefix (script probe) DIGEST_HEADER = None
  end.

Definition canonical_anchor a : Prop :=
  is_canonical_for (a_kind a) (anchor_subject a) (a_conversation a) = true.

Lemma check_schedule_ok (b : WakeBounds) a (now id : Z) (text : str) (schedule : Schedule) (ra : option RunAs) :
  bounds_ok b → now_ok b now → anchor_ok a → (is_space_anchor a = true → canonical_anchor a) → schedule_ok b schedule →
  check_schedule b a schedule = Ok ra →
  wake_ok b (mkWake id a text (scheduled now schedule).1 (scheduled now schedule).2 ra).
Proof.
  intros Hb Hn Ha Hc Hs. unfold check_schedule.
  assert (∀ r, match subject_principal_kind (anchor_subject a) with
    | Space => if is_space_anchor a then Ok (Some RunAs_Space) else Err MappedChannelRequired
    | Person | Repository | ServicePrincipal => Ok None end = Ok r → r = None ∨ is_space_anchor a = true) as Hra.
  { intros r. destruct (subject_principal_kind _); try (intros [= <-]; by left).
    destruct (is_space_anchor a); [by right|done]. }
  destruct (match subject_principal_kind (anchor_subject a) with Space => _ | _ => _ end) as [r|] eqn:Er; [|done].
  specialize (Hra r eq_refl). cbn [result_bind].
  assert (∀ k, kind_ok (max_horizon b) (match r with Some _ => true | None => false end) k →
    time_ok (scheduled now schedule).1 → wake_ok b (mkWake id a text (scheduled now schedule).1 k r)) as Hmk.
  { intros k Hk Ht. split; try done. unfold runs_as_space. cbn. intros Hr. destruct Hra as [->|Hsp]; [done|].
    split; [done|]. by apply Hc. }
  destruct schedule as [after|probe every until]; cbn in Hs.
  - intros [= <-]. apply Hmk; [done|]. cbn. by apply (now_plus_ok b).
  - destruct (_ && negb _) eqn:Ed; [done|]. destruct (_ || _) eqn:Eo; [done|].
    destruct (max_horizon b <? until) eqn:Eh; [done|]. intros [= <-].
    apply orb_false_iff in Eo as [Emin%Z.ltb_ge Eev%Z.ltb_ge]. apply Z.ltb_ge in Eh.
    pose proof (bo_interval _ Hb) as Hi. pose proof (every_pos _ Hi).
    assert (min_interval b ≤ every) by (unfold minimum_interval in Emin; destruct (purpose probe); lia).
    assert (1 ≤ dur_as_millis every) by (etrans; [exact Hi|by apply as_millis_mono]).
    apply Hmk; cbn; [|apply (now_plus_ok b); [done|lia]]. split_and!; [apply (now_plus_ok b); [done|lia]|done|lia|].
    unfold minimum_interval in Emin. destruct (purpose probe) eqn:Ep; [by auto|].
    rewrite bool_decide_eq_true_2 in Ed by done. split; [by destruct r|lia].
Qed.

Lemma scheduled_not_subscription (now id : Z) a (text : str) (schedule : Schedule) (ra : option RunAs) (next : Z) :
  is_subscription (mkWake id a text next (scheduled now schedule).2 ra) = false.
Proof. by destruct schedule. Qed.

Lemma register_inv (b : WakeBounds) (k : Z) (io : bool) a (text : str) (now : Z) (schedule : Schedule) s r s' :
  bounds_ok b → inv b k s → k + 1 < u32_max → now_ok b now → anchor_ok a →
  (is_space_anchor a = true → canonical_anchor a) → schedule_ok b schedule →
  register io a text now schedule s = (r, s') → inv b (k + 1) s'.
Proof.
  intros Hb Hi Hk Hn Ha Hc Hs. unfold register. rewrite (iv_bounds _ _ _ Hi).
  assert (inv b (k + 1) s) as Hi' by (apply (inv_mono b k); [done|lia]).
  destruct (check_schedule b a schedule) as [ra|] eqn:Ec; [|by intros [= _ <-]].
  pose proof (check_schedule_ok b a now (next_id s) text schedule ra Hb Hn Ha Hc Hs Ec) as Hw.
  pose proof (scheduled_not_subscription now (next_id s) a text schedule ra (scheduled now schedule).1) as Hsub.
  destruct (scheduled now schedule) as [next kind]. cbn [fst snd] in Hw, Hsub.
  destruct (is_digest_kind kind && _) eqn:Ed; [by intros [= _ <-]|].
  destruct (max_per_subject b <=? _) eqn:Em; [by intros [= _ <-]|]. apply Z.leb_gt in Em.
  apply (push_inv b k); try done; [apply filter_evolves|by rewrite Hsub|].
  unfold is_digest. cbn [wake_kind]. intros [_ Hd]%andb_true_iff. unfold is_digest_kind in Ed.
  rewrite Hd in Ed. cbn [andb] in Ed. exact Ed.
Qed.

Lemma subscribe_inv (b : WakeBounds) (k : Z) (io : bool) a target (now : Z) s r s' :
  bounds_ok b → inv b k s → k + 1 < u32_max → now_ok b now → anchor_ok a → canonical_anchor a →
  subscribe io a target now s = (r, s') → inv b (k + 1) s'.
Proof.
  intros Hb Hi Hk Hn Ha Hc. unfold subscribe. rewrite (iv_bounds _ _ _ Hi).
  assert (inv b (k + 1) s) as Hi' by (apply (inv_mono b k); [done|lia]).
  destruct (is_space_anchor a) eqn:Esp; cbn [negb]; [|by intros [= _ <-]].
  destruct (find_first _ _); [by intros [= _ <-]|].
  destruct (max_subscriptions_per_agent b <=? _) eqn:Em; [by intros [= _ <-]|]. apply Z.leb_gt in Em.
  apply (push_inv b k); try done; [apply filter_evolves|]. split; try done.
  destruct Hn as (? & _ & He). pose proof (bo_expiry _ Hb). split; cbn [next_at]; [lia|done].
Qed.

Lemma session_probe_ok (b : WakeBounds) (elapsed : Z) (digest : bool) outcome (text sc : str) (every until : Z)
    (x : SessionWakes (P := P)) probe :
  session_probe b elapsed digest outcome text sc every until x = Ok probe →
  purpose probe = Ordinary → strip_prefix (script probe) DIGEST_HEADER = None.
Proof.
  unfold session_probe. destruct (if digest then _ else _); [|done]. cbn [result_bind].
  destruct (session_check _ _ _ _ _); [|done]. cbn [result_bind]. destruct (_ || _); [done|].
  destruct outcome as [run|]; [|done]. cbn [ok_or result_bind]. unfold Probe_baseline.
  destruct (run _) as [output|output|exit output] eqn:Er; cbn [result_bind]; try done;
    intros [= <-]; destruct digest; try done; cbn [into_digest purpose script]; intros _;
    (destruct (starts_with sc DIGEST_HEADER) eqn:Es; [done|]);
    unfold starts_with in Es; by destruct (strip_prefix sc DIGEST_HEADER).
Qed.

(** Sessions are of people and spaces the broker admitted: their conversation is
    canonical for their subject, and replies go to a chat. *)
Definition session_ok (x : SessionWakes (P := P)) : Prop :=
  anchor_ok (session_anchor x) ∧ canonical_anchor (session_anchor x).

(** What the session asks the store for. *)
Lemma session_schedule_cases (b : WakeBounds) (io : bool) (now elapsed : Z) outcome request
    (x : SessionWakes (P := P)) s r s' :
  bounds s = b → session_ok x → (∀ text after, request = Request_Once text after → 0 ≤ after) →
  session_schedule io now elapsed outcome request x s = (r, s') →
  s' = s
  ∨ ∃ a text schedule, anchor_ok a ∧ canonical_anchor a ∧ schedule_ok b schedule
      ∧ register io a text now schedule s = (r, s').
Proof.
  intros Hb [Ha Hc] Hq. unfold session_schedule. rewrite Hb.
  destruct (_ && bool_decide _); [intros [= _ <-]; by left|].
  destruct (if space_access x then _ else _) as [a|] eqn:Ea; [|intros [= _ <-]; by left].
  assert (anchor_ok a ∧ canonical_anchor a) as [Haa Hca].
  { destruct (space_access x) eqn:Esp; [|by injection Ea as <-].
    unfold space_anchor in Ea. rewrite Esp in Ea.
    destruct (as_space (session_anchor x)) as [space|] eqn:Es; [|done]. injection Ea as <-.
    split; [by eapply as_space_ok|by eapply (as_space_canonical (session_anchor x))]. }
  destruct request as [text after|text sc every until|text sc every until].
  - destruct (session_check b elapsed text after x) eqn:Ec; [|intros [= _ <-]; by left].
    intros H. right. exists a, text, (Schedule_Once after). split_and!; try done. split; [by eapply Hq|].
    unfold session_check in Ec. destruct (MAX_NOTE_BYTES <? _); [done|].
    destruct (_ <? after) eqn:El; [done|]. apply Z.ltb_ge in El. destruct (a_kind (session_anchor x)); lia.
  - destruct (session_probe _ _ _ _ _ _ _ _ _) as [probe|] eqn:Ep; [|intros [= _ <-]; by left].
    intros H. right. exists a, text, (Schedule_Watch probe every until). split_and!; try done.
    exact (session_probe_ok _ _ _ _ _ _ _ _ _ _ Ep).
  - destruct (session_probe _ _ _ _ _ _ _ _ _) as [probe|] eqn:Ep; [|intros [= _ <-]; by left].
    intros H. right. exists a, text, (Schedule_Watch probe every until). split_and!; try done.
    exact (session_probe_ok _ _ _ _ _ _ _ _ _ _ Ep).
Qed.

Lemma cancel_where_inv (b : WakeBounds) (k : Z) (io : bool) (remove : Wake → bool) s r s' :
  bounds_ok b → inv b k s → cancel_where io remove s = (r, s') → inv b k s'.
Proof.
  intros Hb Hi. unfold cancel_where. destruct (mutate io _ s) as [o s''] eqn:E. intros [= _ <-].
  eapply mutate_inv; [exact Hb|exact Hi| |exact E]. apply filter_evolves.
Qed.

(** ** Restarts *)

Lemma truncate_same w : same_class w (truncate_wake w).
Proof.
  split; try done; unfold is_subscription, is_digest, truncate_wake, runs_as_space; cbn; by destruct (wake_kind w).
Qed.

Lemma truncate_evolves (b : WakeBounds) ws : evolves b ws (truncate_wake <$> ws).
Proof.
  induction ws as [|w ws IH]; cbn; constructor; [apply truncate_same|apply truncate_wake_ok|done].
Qed.

Lemma foldl_max_bounds (i : Z) (ids : list Z) :
  i ≤ foldl Z.max i ids ∧ Forall (fun j => j ≤ foldl Z.max i ids) ids
  ∧ (∀ n, Forall (fun j => j < n) (i :: ids) → foldl Z.max i ids < n).
Proof.
  revert i. induction ids as [|j ids IH]; intros i; cbn [foldl].
  - split_and!; [lia|constructor|]. intros n H. by apply List.Forall_cons_iff in H as [? _].
  - destruct (IH (Z.max i j)) as (H1 & H2 & H3). split_and!; [lia|constructor; [lia|done]|].
    intros n H. apply List.Forall_cons_iff in H as [Hi H]. apply List.Forall_cons_iff in H as [Hj H].
    apply H3. constructor; [lia|done].
Qed.

(** The store of a gateway that starts again. *)
Lemma restart_inv (b : WakeBounds) (k : Z) s :
  inv b k s → k + 1 < u32_max →
  ∃ s', open_store b (file s) = Ok s' ∧ wakes s' = truncate_wake <$> wakes s ∧ inv b k s'.
Proof.
  intros [Hbs Hok Hf Hid Hbl Hn Hsub Hag Hdg] Hk. unfold open_store. rewrite (Hf 0). cbn [result_bind].
  eexists. split; [done|]. split; [done|]. cbn [wakes]. pose proof (truncate_evolves b (wakes s)) as Hev.
  pose proof (evolves_below b (next_id s) _ _ Hev Hbl) as Hbl'.
  assert (∀ w w', same_class w w' → _) as Hc by exact same_class_classes.
  remember (truncate_wake <$> wakes s) as ws' eqn:Ews.
  assert (truncate_wake <$> ws' = ws') as Hidem.
  { subst. rewrite <- list_fmap_compose. apply list_fmap_ext. intros. apply truncate_idemp. }
  assert (∃ n, match wake_id <$> ws' with [] => 1 | id :: ids => (foldl Z.max id ids + 1) mod (u32_max + 1) end = n
    ∧ 1 ≤ n ≤ 1 + k ∧ Forall (fun w => 1 ≤ wake_id w < n) ws') as (n & En & Hn1 & Hn2).
  { destruct ws' as [|w ws']; [exists 1; split_and!; (done || lia || constructor)|]. cbn [fmap list_fmap].
    destruct (foldl_max_bounds (wake_id w) (wake_id <$> ws')) as (H1 & H2 & H3).
    assert (foldl Z.max (wake_id w) (wake_id <$> ws') < next_id s) as Hlt.
    { apply H3. change (Forall (fun j => j < next_id s) (wake_id <$> (w :: ws'))). apply Forall_fmap.
      eapply List.Forall_impl; [|exact Hbl']. cbn. lia. }
    pose proof (Forall_inv Hbl') as Hw. cbn in Hw. eexists. split; [done|]. rewrite Z.mod_small by lia.
    split; [lia|]. apply List.Forall_forall. intros y Hy. pose proof (proj1 (List.Forall_forall _ _) Hbl' y Hy).
    destruct Hy as [<-|Hy]; [lia|].
    pose proof (proj1 (List.Forall_forall _ _) H2 (wake_id y) (in_map wake_id ws' y Hy)). cbn in *. lia. }
  rewrite En. split; cbn [bounds wakes next_id file]; try done.
  - by eapply evolves_ok.
  - intros i. rewrite Hf. by rewrite Hidem.
  - by eapply evolves_ids.
  - intros x. etrans; [eapply evolves_count; [|exact Hev]; intros; by apply Hc|auto].
  - intros x. etrans; [eapply evolves_count; [|exact Hev]; intros; by apply Hc|auto].
  - intros x. etrans; [eapply evolves_count; [|exact Hev]; intros; by apply Hc|auto].
Qed.

(** ** Sequences of operations *)

(** What happens to a store, with the time it happens at and whether the file
    could be written. *)
Inductive op : Type :=
| OpSchedule (io : bool) (now elapsed : Z) (outcome : option (str → Verdict)) (request : WakeRequest)
    (x : SessionWakes (P := P))
| OpSubscribe (io : bool) (a : Anchor (P := P)) (target : PullRequestLinkTarget) (now : Z)
| OpListSubscriptions (io : bool) (now : Z) (x : SessionWakes (P := P))
| OpCancelSubscription (io : bool) (id : Z) (x : SessionWakes (P := P))
| OpCancel (io : bool) (id : Z) (x : SessionWakes (P := P))
| OpDeliver (io : bool) (agent : str) (e : GithubEvent) (now : Z)
| OpTakeDue (io : bool) (now : Z)
| OpResolve (io : bool) (id : Z) (verdict : Verdict) (now : Z)
| OpRestart.

(** What fires, and the store after. *)
Definition step (o : op) s : list (Fired (P := P)) * WakeStore :=
  match o with
  | OpSchedule io now elapsed outcome request x => ([], (session_schedule io now elapsed outcome request x s).2)
  | OpSubscribe io a target now => ([], (subscribe io a target now s).2)
  | OpListSubscriptions io now x => ([], (session_list_subscriptions io now x s).2)
  | OpCancelSubscription io id x => ([], (session_cancel_subscription io id x s).2)
  | OpCancel io id x => ([], (session_cancel io id x s).2)
  | OpDeliver io agent e now =>
      let '(r, s) := deliver_subscriptions io agent e now s in
      (match r with Some (_, fired) => fired | None => [] end, s)
  | OpTakeDue io now =>
      let '(r, s) := take_due io now s in (match r with Some due => due_fired due | None => [] end, s)
  | OpResolve io id verdict now =>
      let '(r, s) := resolve io id verdict now s in
      (match r with Some (Resolved_Fired f) => [f] | _ => [] end, s)
  | OpRestart => ([], match open_store (bounds s) (file s) with Ok s => s | Err _ => s end)
  end.

Definition run_ops (b : WakeBounds) (ops : list op) : WakeStore :=
  foldl (fun s o => (step o s).2) (mkStore b [] 1 []) ops.

Definition op_ok (b : WakeBounds) (o : op) : Prop :=
  match o with
  | OpSchedule _ now _ _ request x =>
      now_ok b now ∧ session_ok x ∧ match request with Request_Once _ after => 0 ≤ after | _ => True end
  | OpSubscribe _ a _ now => now_ok b now ∧ anchor_ok a ∧ canonical_anchor a
  | OpListSubscriptions _ now _ | OpDeliver _ _ _ now | OpTakeDue _ now | OpResolve _ _ _ now => now_ok b now
  | OpCancelSubscription _ _ _ | OpCancel _ _ _ | OpRestart => True
  end.

Lemma step_inv (b : WakeBounds) (k : Z) (o : op) s :
  bounds_ok b → inv b k s → k + 1 < u32_max → op_ok b o → inv b (k + 1) (step o s).2.
Proof.
  intros Hb Hi Hk Ho. assert (∀ s', inv b k s' → inv b (k + 1) s') as Hup by (intros; apply (inv_mono b k); [done|lia]).
  destruct o as [io now elapsed outcome request x|io a target now|io now x|io id x|io id x|io agent e now|io now
    |io id verdict now|]; cbn [step snd] in *.
  - destruct Ho as (Hn & Hx & Hq). destruct (session_schedule _ _ _ _ _ _ _) as [r s'] eqn:E.
    apply (session_schedule_cases b) in E as [->|(a & text & sch & Ha & Hc & Hs & E)];
      [by apply Hup| |apply Hi|done|by intros text after ->]. cbn [snd].
    by apply (register_inv b k io a text now sch s r).
  - destruct Ho as (Hn & Ha & Hc). destruct (subscribe _ _ _ _ _) as [r s'] eqn:E.
    by apply (subscribe_inv b k io a target now s r).
  - unfold session_list_subscriptions. destruct (space_anchor x) as [a|]; [|by apply Hup].
    unfold list_subscriptions. destruct (mutate _ _ _) as [r s'] eqn:E. apply Hup.
    eapply mutate_inv; [exact Hb|exact Hi| |exact E]. apply filter_evolves.
  - unfold session_cancel_subscription. destruct (space_anchor x) as [a|]; [|by apply Hup].
    destruct (cancel_subscription _ _ _ _) as [r s'] eqn:E. apply Hup. by eapply cancel_where_inv.
  - unfold session_cancel. destruct (cancel_for _ _ _ _ _) as [r s'] eqn:E. apply Hup.
    destruct (visible_space x); by eapply cancel_where_inv.
  - unfold deliver_subscriptions. destruct (mutate _ _ _) as [r s'] eqn:E. apply Hup.
    eapply mutate_inv; [exact Hb|exact Hi| |exact E]. cbn [snd].
    destruct (is_action (lit "closed") e); [|apply filter_evolves]. eapply evolves_trans; apply filter_evolves.
  - unfold take_due. destruct (mutate _ _ _) as [r s'] eqn:E. apply Hup.
    eapply mutate_inv; [exact Hb|exact Hi| |exact E]. cbn [snd]. rewrite taken_wakes. apply evolves_omap.
    intros w w'. by apply take_one_keeps.
  - unfold resolve. destruct (mutate _ _ _) as [r s'] eqn:E. apply Hup.
    eapply mutate_inv; [exact Hb|exact Hi| |exact E]. apply resolve_first_evolves.
    intros w w'. by apply resolve_one_keeps.
  - rewrite (iv_bounds _ _ _ Hi). destruct (restart_inv b k s Hi Hk) as (s' & -> & _ & Hi'). by apply Hup.
Qed.

Lemma run_ops_inv (b : WakeBounds) (ops : list op) :
  bounds_ok b → Forall (op_ok b) ops → Z.of_nat (length ops) < u32_max →
  inv b (Z.of_nat (length ops)) (run_ops b ops).
Proof.
  intros Hb. induction ops as [|o ops IH] using rev_ind; [intros _ _; by apply inv_empty|].
  intros Ho Hl. apply Forall_app in Ho as [Ho Ho1]. rewrite length_app in *. cbn [length] in *.
  unfold run_ops. rewrite foldl_app. cbn [foldl].
  replace (Z.of_nat (length ops + 1)) with (Z.of_nat (length ops) + 1) by lia.
  apply step_inv; [done|apply IH; [done|lia]|lia|by inversion Ho1].
Qed.

(** ** What stays, fires and goes *)































Lemma next_at_later (n : Z) s :
  Forall (fun w => n < next_at w) (wakes s) → ∀ t, store_next_at s = Some t → n < t.
Proof.
  unfold store_next_at. destruct (wakes s) as [|w ws]; [done|]. cbn [fmap list_fmap].
  intros H t [= <-]. apply List.Forall_cons_iff in H as [Hw H]. revert w Hw.
  assert (∀ t, n < t → n < foldl Z.min t (next_at <$> ws)) as Hm; [|auto].
  induction H as [|w ws Hw H IH]; intros u Hu; [done|]. cbn. apply IH. lia.
Qed.

(** Nothing that is left is due. *)
Lemma take_one_later (b : WakeBounds) (now : Z) w w' :
  wake_ok b w → (take_one now w).2 = Some w' → now < next_at w'.
Proof.
  intros [_ _ Hk Hs]. unfold take_one. destruct (expired_digest now w) eqn:Ex; [done|].
  destruct (now <? next_at w) eqn:El; [intros [= <-]; by apply Z.ltb_lt in El|].
  destruct (wake_kind w) as [| |probe every until] eqn:E; [done..|]. intros [= <-].
  cbn in Hk. destruct Hk as (_ & Hm%every_pos & _ & Hp). cbn. destruct (purpose probe) eqn:Ep; [lia|].
  unfold expired_digest, is_digest in Ex. destruct Hp as [Hr _]. rewrite E, Hr, bool_decide_eq_true_2 in Ex by done.
  apply Z.leb_gt in Ex. lia.
Qed.

Definition is_once w : bool := match wake_kind w with Once => true | Subscription _ | Watch _ _ _ => false end.
Definition is_watch w : bool := match wake_kind w with Watch _ _ _ => true | Once | Subscription _ => false end.

Lemma taken_due (now : Z) ws :
  concat (due_fired <$> (take_one now <$> ws).*1)
  = Wake_fired (lit "fired") None <$> List.filter (fun w => is_once w && (next_at w <=? now)) ws
  ∧ tick_id <$> concat (due_ticks <$> (take_one now <$> ws).*1)
    = wake_id <$> List.filter (fun w => is_watch w && (next_at w <=? now) && negb (expired_digest now w)) ws.
Proof.
  induction ws as [|w ws [IH1 IH2]]; [done|]. cbn [fmap list_fmap concat List.filter].
  rewrite IH1. rewrite fmap_app, IH2. clear IH1 IH2. unfold take_one, is_once, is_watch.
  destruct (expired_digest now w) eqn:Ex.
  - unfold expired_digest in Ex. apply andb_true_iff in Ex as [_ Ex].
    destruct (wake_kind w); [done..|]. cbn. by rewrite andb_false_r.
  - rewrite Z.ltb_antisym. destruct (next_at w <=? now); destruct (wake_kind w); by cbn.
Qed.

(** When the clock reaches a wake, the store hands out exactly what is due:
    each wake of one time whose time has come fires, in the order they were made,
    each watch whose time has come is to be run unless it is a digest that
    expired, and nothing due is left behind: the next time the store asks for is
    later. A file that cannot be written leaves everything for another try. *)
Theorem due_wakes_fire_exactly (b : WakeBounds) (ops : list op) (now : Z) :
  bounds_ok b → Forall (op_ok b) ops → Z.of_nat (length ops) < u32_max →
  let s := run_ops b ops in
  take_due false now s = (None, s)
  ∧ ∃ due s', take_due true now s = (Some due, s')
    ∧ due_fired due
      = Wake_fired (lit "fired") None <$> List.filter (fun w => is_once w && (next_at w <=? now)) (wakes s)
    ∧ tick_id <$> due_ticks due
      = wake_id <$> List.filter (fun w => is_watch w && (next_at w <=? now) && negb (expired_digest now w)) (wakes s)
    ∧ ∀ t, store_next_at s' = Some t → now < t.
Proof.
  intros Hb Ho Hl s. pose proof (iv_ok _ _ _ (run_ops_inv b ops Hb Ho Hl)) as Hok. fold s in Hok.
  split; [done|]. destruct (taken_due now (wakes s)) as [Hf Ht].
  eexists _, _. split; [done|]. split; [exact Hf|]. split; [exact Ht|]. apply next_at_later. cbn [wakes].
  rewrite taken_wakes. apply List.Forall_forall. intros w' (w & Hw & E)%list_elem_of_In%list_elem_of_omap.
  eapply take_one_later; [|exact E]. by apply (Forall_elem _ _ _ Hok).
Qed.


(** C14: a gateway that starts again has the wakes it had: after any requests, due
    times, verdicts, deliveries and restarts, with any writes of the file that
    failed, the file can be read, and holds the wakes in memory with their times
    to the millisecond. *)
Theorem wakes_survive_restart (b : WakeBounds) (ops : list op) :
  bounds_ok b → Forall (op_ok b) ops → Z.of_nat (length ops) + 1 < u32_max →
  let s := run_ops b ops in
  ∃ s', open_store b (file s) = Ok s' ∧ wakes s' = truncate_wake <$> wakes s.
Proof.
  intros Hb Ho Hl s. assert (inv b (Z.of_nat (length ops)) s) as Hi by (apply run_ops_inv; try done; lia).
  destruct (restart_inv b _ s Hi Hl) as (s' & ? & ? & _). by exists s'.
Qed.

(** The limits on wakes hold at all times: no subject has more wakes waiting
    than allowed, no agent more subscriptions, no channel two digests, and no two
    wakes have one identifier. *)
Theorem wake_limits_hold (b : WakeBounds) (ops : list op) :
  bounds_ok b → Forall (op_ok b) ops → Z.of_nat (length ops) < u32_max →
  let ws := wakes (run_ops b ops) in
  (∀ x, count (scheduled_for x) ws ≤ max_per_subject b)
  ∧ (∀ agent, count (subscribed_by agent) ws ≤ max_subscriptions_per_agent b)
  ∧ (∀ x, count (digest_of x) ws ≤ 1)
  ∧ NoDup (wake_id <$> ws).
Proof. intros Hb Ho Hl ws. by destruct (run_ops_inv b ops Hb Ho Hl). Qed.
End Safety.

(** ** A day of one channel *)

Definition sample_bounds : WakeBounds :=
  mkBounds 3 (dur_from_secs 60) (dur_from_secs (30 * 86400)) 2 (dur_from_secs (7 * 86400)).

Definition sample_anchor : Anchor (P := unit) :=
  mkAnchor (lit "slack") Kind_Slack (One (mkSubject SlackUser (lit "t1") (lit "u1")))
    (mkConversation Thread (Some (lit "t1")) (lit "c1") (Some (lit "1700000000.000100")))
    (Reply_Slack (lit "c1") None) (lit "helper") None.

Definition sample_session : SessionWakes := mkSession sample_anchor true.
Definition sample_start : Z := dur_from_secs 1700000000 + 5.
Definition sample_probe : option (str → Verdict) := Some (fun _ => Wait (lit "no change")).

(** A reminder, a digest, a subscription, one that cannot be written, and a
    restart. *)
Definition sample_ops : list (op (P := unit)) :=
  [ OpSchedule true sample_start 0 None (Request_Once (lit "stand-up") (dur_from_secs 3600)) sample_session;
    OpSchedule true sample_start 0 sample_probe
      (Request_Digest (lit "digest") (lit "news") (dur_from_secs 86400) (dur_from_secs (7 * 86400))) sample_session;
    OpSubscribe true (default sample_anchor (as_space sample_anchor)) (mkTarget (lit "o/r") 7) sample_start;
    OpSchedule false sample_start 0 None (Request_Once (lit "lost") (dur_from_secs 60)) sample_session;
    OpRestart ].

Example sample_wakes :
  (wake_id <$> wakes (run_ops sample_bounds sample_ops)) = [1; 2; 3]
  ∧ f_id <$> (step (OpTakeDue true (sample_start + dur_from_secs 3600)) (run_ops sample_bounds sample_ops)).1 = [1].
Proof. by vm_compute. Qed.

Lemma sample_bounds_ok : bounds_ok sample_bounds.
Proof. split; vm_compute; done. Qed.

Lemma sample_anchor_ok : anchor_ok sample_anchor ∧ canonical_anchor sample_anchor.
Proof. repeat split; by vm_compute. Qed.

Lemma sample_ops_ok : Forall (op_ok sample_bounds) sample_ops.
Proof.
  assert (now_ok sample_bounds sample_start) as Hn by (repeat split; by vm_compute).
  destruct sample_anchor_ok as [Ha Hc]. repeat constructor; try done; try apply Hn; try apply Ha; try apply Hc; by vm_compute.
Qed.

Lemma due_wakes_fire_exactly_witness :
  ∃ due s', take_due true (sample_start + dur_from_secs 3600) (run_ops sample_bounds sample_ops) = (Some due, s')
    ∧ f_id <$> due_fired due = [1] ∧ tick_id <$> due_ticks due = []
    ∧ ∀ t, store_next_at s' = Some t → sample_start + dur_from_secs 3600 < t.
Proof.
  destruct (due_wakes_fire_exactly sample_bounds sample_ops (sample_start + dur_from_secs 3600)
    sample_bounds_ok sample_ops_ok ltac:(by vm_compute)) as [_ (due & s' & E & Hf & Ht & Hn)].
  exists due, s'. split; [exact E|]. split; [rewrite Hf; by vm_compute|]. split; [rewrite Ht; by vm_compute|exact Hn].
Defined.


Lemma wakes_survive_restart_witness :
  ∃ s', open_store sample_bounds (file (run_ops sample_bounds sample_ops)) = Ok s'
    ∧ wakes s' = truncate_wake <$> wakes (run_ops sample_bounds sample_ops) ∧ length (wakes s') = 3%nat.
Proof.
  destruct (wakes_survive_restart sample_bounds sample_ops sample_bounds_ok sample_ops_ok ltac:(by vm_compute))
    as (s' & E & Ew).
  exists s'. split; [exact E|]. split; [exact Ew|]. rewrite Ew. by vm_compute.
Defined.

Lemma wake_limits_hold_witness :
  let ws := wakes (run_ops sample_bounds sample_ops) in
  NoDup (wake_id <$> ws) ∧ ∀ agent, count (subscribed_by agent) ws ≤ 2.
Proof.
  intros ws.
  destruct (wake_limits_hold sample_bounds sample_ops sample_bounds_ok sample_ops_ok ltac:(by vm_compute))
    as (_ & Ha & _ & Hn).
  split; [exact Hn|exact Ha].
Defined.
