(* ===== verification/StorageNamespace.v ===== *)
(** * Namespaces of the storage root

    [crates/dekopon-storage-host/src/namespace.rs] with [StorageGrantRequest] and
    [StorageHost::materialize_grant] of [lib.rs] and the methods of [Directory]
    that only they use. A namespace is a directory named by the scope of a grant.
    It holds generations, directories of data, and chooses one of them for each
    grant: the one that stays when continuity is relaxed, or the one the pointer
    [current] names when the authority that asks is the one that wrote it.

    The state is the storage root: its files, the times of the markers
    [last-used], the namespaces whose lease a grant holds, the ledger and the
    number of random values drawn. Operations on one namespace exclude each
    other ([namespace_lock]) and no other process writes to the root
    ([writer.lock]): operations follow one another here, and the directory at a
    path is the one that was opened. A lease that another grant holds is not
    given back while an operation waits for it. *)

From Stdlib Require Import ZArith Lia Ascii String.
From stdpp Require Import base gmap strings list sorting numbers.
From S2P Require Import Prelude RustStr Identifier Subject Capability StorageConfig Quota Keys StorageDir.

(** ** Errors *)

Definition ContinuityCheck_label (c : ContinuityCheck) : str :=
  match c with
  | Absent => lit "absent"
  | DigestMismatch => lit "digest-mismatch"
  | SpaceBound => lit "space-bound"
  | RoutingDependent => lit "routing-dependent"
  | IdOnlySubject => lit "id-only-subject"
  | NoCandidate => lit "no-candidate"
  end.

Inductive StorageFailureClass : Type := ClassQuota | ClassTimeout | ClassCorrupt | ClassDenied | ClassIo.

Definition StorageFailureClass_label (c : StorageFailureClass) : str :=
  match c with
  | ClassQuota => lit "quota"
  | ClassTimeout => lit "timeout"
  | ClassCorrupt => lit "corrupt"
  | ClassDenied => lit "denied"
  | ClassIo => lit "io"
  end.

Definition class (e : StorageHostError) : StorageFailureClass :=
  match e with
  | QuotaExceeded | Arithmetic => ClassQuota
  | Timeout => ClassTimeout
  | Corrupt _ => ClassCorrupt
  | PermissionDenied | ContinuityUnproven _ => ClassDenied
  | _ => ClassIo
  end.

(** ** Requests *)

Inductive ContinuityPolicy : Type := Relaxed | Paranoid.

Inductive UnprovenDisposition : Type := Refuse | FreshEpoch.

Inductive LegacyContinuity : Type :=
| Unproven (check : ContinuityCheck)
| Candidates (candidates : list (list Z)).

Inductive MemoryContinuity : Type :=
| Memory_Relaxed
| Memory_Paranoid (surface : list Z) (legacy : LegacyContinuity) (on_unproven : UnprovenDisposition).

Inductive Comparison : Type :=
| Provider (policy : ContinuityPolicy) (surface : list Z)
| Memory (continuity : MemoryContinuity).

(** [SpaceKey] of [dekopon-core/src/space.rs]. *)
Record SpaceKey : Type := mkSpaceKey {
  sk_agent : str;
  sk_transport : str;
  sk_workspace : option str;
  sk_channel : str
}.

Definition SpaceKey_encode (k : SpaceKey) : list Z :=
  frame (sk_agent k) ++ frame (sk_transport k)
  ++ match sk_workspace k with Some w => 1 :: frame w | None => [0] end
  ++ frame (sk_channel k).

Record StorageGrantRequest : Type := mkRequest {
  rq_invocation : str;
  rq_capability : str;
  rq_provider : str;
  rq_interface : StorageInterface;
  rq_access : StorageAccess;
  rq_scope : StorageScope;
  rq_agent : str;
  rq_subject : Subject;
  rq_transport_kind : str;
  rq_transport : str;
  rq_channel : str;
  rq_conversation : str;
  rq_comparison : Comparison;
  rq_shared_namespace : option str;
  rq_space_key : option SpaceKey
}.

Definition scope_values (r : StorageGrantRequest) : list str :=
  let provider := default (rq_provider r) (rq_shared_namespace r) in
  let agent := rq_agent r in
  match rq_scope r with
  | PrivateConversation =>
      [provider; agent; canonical (rq_subject r); rq_transport_kind r; rq_transport r; rq_channel r;
       rq_conversation r]
  | SharedConversation =>
      [lit "shared-conversation-v1"; provider; agent; rq_transport_kind r; rq_transport r; rq_channel r;
       rq_conversation r]
  | AgentScope => [lit "agent-v1"; provider; agent]
  | SpaceScope =>
      [lit "space-v1"; provider;
       match rq_space_key r with Some key => hex (SpaceKey_encode key) | None => [] end]
  end.

(** ** Documents *)

Inductive PointerScheme : Type := V1 | V2.

#[export] Instance PointerScheme_eq_dec : EqDecision PointerScheme.
Proof. solve_decision. Defined.
#[export] Instance StorageScope_eq_dec : EqDecision StorageScope.
Proof. solve_decision. Defined.

Definition POINTER_V1 : str := lit "dekopon.dev/storage-authority-pointer/v1alpha1".
Definition POINTER_V2 : str := lit "dekopon.dev/storage-authority-pointer/v1alpha2".
Definition IDENTITY_VERSION : str := lit "dekopon.dev/storage-resource/v1alpha1".

Record PointerDocument : Type := mkPointer {
  pd_api_version : str;
  pd_authority : str;
  pd_epoch : str
}.

Record ResourceIdentity : Type := mkIdentity {
  ri_api_version : str;
  ri_scope : StorageScope;
  ri_values : list str
}.

(** Whether the values, counted from [index], are within their bounds. *)
Fixpoint values_bounded (scope : StorageScope) (index : nat) (values : list str) : bool :=
  match values with
  | [] => true
  | value :: values =>
      (len value <=? match scope with
                     | SpaceScope => if (index =? 2)%nat then 4096 else 1024
                     | PrivateConversation | SharedConversation | AgentScope => 1024
                     end)
      && values_bounded scope (S index) values
  end.

Definition ResourceIdentity_valid (d : ResourceIdentity) : bool :=
  str_eqb (ri_api_version d) IDENTITY_VERSION && (Z.of_nat (length (ri_values d)) <=? 7)
  && values_bounded (ri_scope d) 0 (ri_values d).

Definition identity (r : StorageGrantRequest) : ResourceIdentity :=
  mkIdentity IDENTITY_VERSION (rq_scope r) (scope_values r).

(** [serde_json] of the two documents. *)
Record Codec : Type := mkCodec {
  pointer_to_vec : PointerDocument → list Z;
  pointer_from_slice : list Z → option PointerDocument;
  identity_to_vec : ResourceIdentity → list Z;
  identity_from_slice : list Z → option ResourceIdentity
}.

(** What is written is read back. *)
Class CodecLaws (c : Codec) : Prop := {
  pointer_round_trip d : pointer_from_slice c (pointer_to_vec c d) = Some d;
  identity_round_trip d : identity_from_slice c (identity_to_vec c d) = Some d
}.

(** ** The storage root *)

Record Root : Type := mkRoot {
  rt_disk : Disk;
  rt_times : gmap path Z;
  rt_leases : gset str;
  rt_ledger : LedgerState;
  rt_draws : nat
}.

Definition new_directory : Node := mkNode Directory 2 true [].

Definition NAMESPACES : path := [lit "namespaces"].

Definition DOMAIN_NAMESPACE_PATH : str := lit "namespace-path-v1".
Definition DOMAIN_AUTHORITY : str := lit "authority-commitment-v1".
Definition DOMAIN_GENERATION : str := lit "generation-token-v1".
Definition DOMAIN_AUDIT_SCOPE : str := lit "audit-scope-commitment-v1".
Definition DOMAIN_RECORD_ID : str := lit "record-id-v1".
Definition DOMAIN_CONTENT : str := lit "content-dedup-commitment-v1".
Definition DOMAIN_DECISION_EVIDENCE : str := lit "storage-decision-evidence-v1".

(** ** What a plan does to the usage *)

Record Simulation : Type := mkSimulation {
  current_bytes : Z;
  current_entries : Z;
  peak_bytes : Z;
  peak_entries : Z
}.

Definition Simulation_default : Simulation := mkSimulation 0 0 0 0.

Definition Simulation_observe (s : Simulation) : result StorageHostError Simulation :=
  let? b := if 0 <? current_bytes s
            then if current_bytes s <=? u64_max then Ok (Z.max (peak_bytes s) (current_bytes s)) else Err Arithmetic
            else Ok (peak_bytes s) in
  let? e := if 0 <? current_entries s
            then if current_entries s <=? u64_max then Ok (Z.max (peak_entries s) (current_entries s))
                 else Err Arithmetic
            else Ok (peak_entries s) in
  Ok (mkSimulation (current_bytes s) (current_entries s) b e).

(** The [i128] counters are sums of a few [u64]s and do not overflow. *)
Definition simulate (bytes entries : Z) (s : Simulation) : Simulation :=
  mkSimulation (current_bytes s + bytes) (current_entries s + entries) (peak_bytes s) (peak_entries s).

Definition create_entry (length : Z) (s : Simulation) : result StorageHostError Simulation :=
  Simulation_observe (simulate (ENTRY_CHARGE + length) 1 s).

Definition simulate_remove (old_length : Z) (s : Simulation) : result StorageHostError Simulation :=
  Simulation_observe (simulate (- (ENTRY_CHARGE + old_length)) (-1) s).

Definition simulate_replace (old_length : option Z) (new_length : Z) (s : Simulation)
    : result StorageHostError Simulation :=
  let? s := create_entry new_length s in
  match old_length with
  | Some old_length => simulate_remove old_length s
  | None => Simulation_observe s
  end.

(** ** Plans *)

Inductive ContinuityOutcome : Type := Migrated | Fresh (check : ContinuityCheck).

Record Selection : Type := mkSelection {
  sl_continuity : option ContinuityOutcome;
  sl_generation_token : str;
  sl_authority_pointer : option (list Z);
  sl_removed_pointer_length : option Z;
  sl_retained_peak_bytes : option Z;
  sl_set_aside : option str
}.

Record NamespacePlan : Type := mkPlan {
  np_continuity : option ContinuityOutcome;
  np_base_token : str;
  np_scope_commitment : str;
  np_generation_token : str;
  np_authority_pointer : option (list Z);
  np_remove_authority_pointer : bool;
  np_set_aside : option str;
  np_reset : option str;
  np_existing_base : bool;
  np_resource_identity : list Z;
  np_new_metadata : bool;
  np_before_usage : Usage;
  np_reserved_bytes : Z;
  np_reserved_entries : Z;
  np_maximum_generation_peak_bytes : Z
}.

Record Namespace : Type := mkNamespace {
  nm_base_token : str;
  nm_generation_token : str;
  nm_directory : path;
  nm_data_directory : path;
  nm_scope_commitment : str
}.

Record StorageGrant : Type := mkStorageGrant {
  sg_interface : StorageInterface;
  sg_access : StorageAccess;
  sg_scope : StorageScope;
  sg_namespace : Namespace;
  sg_continuity : option ContinuityOutcome
}.

Section Namespaces.
Context (limits : StorageLimits).
Context (io : nat → Ending) (listing : gmap path Node → path → list str).
Context (sha256 : list Z → list Z) (codec : Codec).
(** The bytes of each draw, [None] where the system has none to give. *)
Context (entropy : nat → nat → option (list Z)).

(** ** Access to the parts of the root *)

Definition on_disk {A : Type} (m : act Disk A) : act Root A :=
  fun s =>
    let '(r, d) := m (rt_disk s) in (r, mkRoot d (rt_times s) (rt_leases s) (rt_ledger s) (rt_draws s)).

Definition on_ledger {A : Type} (m : locked A) : act Root A :=
  fun s =>
    let '(r, l) := m (rt_ledger s) in
    (match r with Ok a => Ok a | Err e => Err (Throws e) end,
     mkRoot (rt_disk s) (rt_times s) (rt_leases s) l (rt_draws s)).
Definition ledger_do (f : LedgerState → LedgerState) : act Root unit := on_ledger (fun s => (Ok tt, f s)).

Definition random_bytes (length : nat) : act Root (list Z) :=
  fun s =>
    (match entropy (rt_draws s) length with Some b => Ok b | None => Err (Throws Entropy) end,
     mkRoot (rt_disk s) (rt_times s) (rt_leases s) (rt_ledger s) (S (rt_draws s))).

(** A guard that is dropped when the rest fails. *)
Definition on_error {A : Type} (f : LedgerState → LedgerState) (m : act Root A) : act Root A :=
  r ⇚ attempt m;
  match r with Ok a => pure a | Err e => _ ⇚ ledger_do f; raise e end.

(** ** More of [Directory] *)

Section Directory.
Context (dir : path).

Definition ensure_directory (name : str) : act Disk path :=
  _ ⇚ of_result (validate_component name);
  _ ⇚ works io;
  node ⇚ node_at (dir ++ [name]);
  _ ⇚ match node with
      | Some _ => pure tt
      | None => _ ⇚ modify (set_files (insert (dir ++ [name]) new_directory)); sync io
      end;
  open_directory io dir name.

Definition retains_child (name : str) : act Disk bool :=
  _ ⇚ of_result (validate_component name);
  _ ⇚ works io;
  node ⇚ node_at (dir ++ [name]);
  match node with
  | None => pure false
  | Some n => if bool_decide (nd_kind n = StorageDir.Directory) then _ ⇚ works io; pure true else pure false
  end.

Definition create_private (name : str) : act Disk unit :=
  _ ⇚ of_result (validate_component name);
  _ ⇚ works io;
  node ⇚ node_at (dir ++ [name]);
  match node with
  | Some _ => raise (RootIo false)
  | None =>
      _ ⇚ modify (set_files (insert (dir ++ [name]) new_file));
      validate_private_file io dir name
  end.

Definition remove_directory (name : str) : act Disk unit :=
  _ ⇚ of_result (validate_component name);
  _ ⇚ works io;
  fs ⇚ reads dk_files;
  match fs !! (dir ++ [name]) with
  | None => raise (RootIo true)
  | Some n =>
      if negb (bool_decide (nd_kind n = StorageDir.Directory))
         || existsb (fun q => below (dir ++ [name]) q && negb (bool_decide (q = dir ++ [name]))) (map_to_list fs).*1
      then raise (RootIo false)
      else modify (set_files (delete (dir ++ [name])))
  end.

Definition remove_file_if_exists (name : str) : act Disk unit :=
  r ⇚ attempt (remove_file io dir name);
  match r with
  | Ok _ | Err (RootIo true) => pure tt
  | Err e => raise e
  end.

(** Sixteen attempts at a name that is not taken. *)
Fixpoint unique_temporary_name (attempts : nat) : act Root str :=
  match attempts with
  | O => raise Busy
  | S attempts =>
      bytes ⇚ random_bytes 16;
      let name := lit "tmp-" ++ hex bytes in
      taken ⇚ on_disk (exists_ io dir name);
      if taken then unique_temporary_name attempts else pure name
  end.

(** [file.write_all(..).and_then(|()| file.sync_all())]. *)
Definition write_synced (name : str) (bytes : list Z) : act Disk unit :=
  _ ⇚ write_all_at io (dir ++ [name]) bytes 0; works io.

Definition replace_private (target : str) (bytes : list Z) : act Root unit :=
  _ ⇚ of_result (validate_component target);
  temporary ⇚ unique_temporary_name 16;
  result ⇚ attempt (on_disk (
    _ ⇚ create_private temporary;
    _ ⇚ write_synced temporary bytes;
    _ ⇚ rename_to io dir temporary target;
    sync io));
  match result with
  | Ok _ => pure tt
  | Err e => _ ⇚ attempt (on_disk (remove_file_if_exists temporary)); raise e
  end.

(** ** The files of a namespace *)

Definition read_identity : act Disk (option (StorageScope * list str)) :=
  there ⇚ exists_ io dir (lit "identity");
  if negb there then pure None
  else
    encoded ⇚ read_bounded io dir (lit "identity") 4096;
    document ⇚ of_option (Corrupt (lit "storage-resource")) (identity_from_slice codec encoded);
    if ResourceIdentity_valid document then pure (Some (ri_scope document, ri_values document))
    else raise (Corrupt (lit "storage-resource")).

Definition marker_time : act Root (option Z) :=
  there ⇚ on_disk (exists_ io dir (lit "last-used"));
  if negb there then pure None
  else
    _ ⇚ on_disk (open_private io dir (lit "last-used") false);
    _ ⇚ on_disk (works io);
    node ⇚ on_disk (node_at (dir ++ [lit "last-used"]));
    if match node with Some n => negb (is_nil (nd_bytes n)) | None => false end
    then raise (Corrupt (lit "last-used"))
    else times ⇚ reads rt_times; pure (Some (default 0 (times !! (dir ++ [lit "last-used"])))).

Definition set_time (at_ : Z) : act Root unit :=
  modify (fun s => mkRoot (rt_disk s) (<[dir ++ [lit "last-used"] := at_]> (rt_times s)) (rt_leases s)
                     (rt_ledger s) (rt_draws s)).

Definition touch_marker (create : bool) (now : Z) : act Root unit :=
  _ ⇚ (if create then _ ⇚ on_disk (create_private (lit "last-used")); set_time now
       else on_disk (open_private io dir (lit "last-used") false));
  _ ⇚ on_disk (works io);
  node ⇚ on_disk (node_at (dir ++ [lit "last-used"]));
  if match node with Some n => negb (is_nil (nd_bytes n)) | None => false end
  then raise (Corrupt (lit "last-used"))
  else
    _ ⇚ on_disk (works io);
    times ⇚ reads rt_times;
    _ ⇚ on_disk (works io);
    set_time (Z.max now (default 0 (times !! (dir ++ [lit "last-used"])))).

Definition file_length (name : str) : act Disk (option Z) :=
  m ⇚ metadata io dir name;
  match m with
  | None => pure None
  | Some m =>
      if bool_decide (md_kind m = File) && (md_nlink m =? 1)
      then _ ⇚ open_private io dir name false; pure (Some (md_len m))
      else raise (Corrupt (lit "housekeeping-file"))
  end.

End Directory.

Definition ensure_generation (base : path) (generation : str) : act Disk (path * path) :=
  directory ⇚ ensure_directory base generation;
  data ⇚ ensure_directory directory (lit "data");
  _ ⇚ open_private io directory (lit "lease.lock") true;
  _ ⇚ works io;
  _ ⇚ sync io;
  pure (directory, data).

(** ** The choice of a generation *)

Definition scheme_version (scheme : PointerScheme) : str :=
  match scheme with V1 => POINTER_V1 | V2 => POINTER_V2 end.

Definition scheme_of (version : str) : option PointerScheme :=
  if str_eqb version POINTER_V1 then Some V1
  else if str_eqb version POINTER_V2 then Some V2 else None.

Definition encode_pointer (scheme : PointerScheme) (authority epoch : str) : list Z :=
  pointer_to_vec codec (mkPointer (scheme_version scheme) authority epoch).

(** The base directory is [base]; [None] when the namespace is new. *)
Definition read_pointer (base : path) : act Disk (option (PointerScheme * PointerDocument)) :=
  there ⇚ exists_ io base (lit "current");
  if negb there then pure None
  else
    encoded ⇚ read_bounded io base (lit "current") 4096;
    document ⇚ of_option (Corrupt (lit "authority-pointer")) (pointer_from_slice codec encoded);
    match scheme_of (pd_api_version document) with
    | Some scheme =>
        if is_token (pd_epoch document) && is_token (pd_authority document)
        then pure (Some (scheme, document))
        else raise (Corrupt (lit "authority-pointer"))
    | None => raise (Corrupt (lit "authority-pointer"))
    end.

Definition generation_token (base_token epoch : str) : str :=
  token sha256 DOMAIN_GENERATION [base_token; epoch].

Definition authority_token (surface : list Z) : str := token sha256 DOMAIN_AUTHORITY [surface].

Fixpoint each_logical_file (data : path) (tokens : list str) : act Disk unit :=
  match tokens with
  | [] => pure tt
  | token :: tokens => _ ⇚ logical_file io data token; each_logical_file data tokens
  end.

(** [depth] bounds the recursion of a scan. *)
Definition retained_generation (depth : nat) (base : path) (generation : str) (maximum_entries : Z)
    : act Disk (option Z) :=
  m ⇚ metadata io base generation;
  match m with
  | None => pure None
  | Some m =>
      if negb (bool_decide (md_kind m = Directory)) then raise (Corrupt (lit "generation-type"))
      else
        directory ⇚ open_directory io base generation;
        d ⇚ metadata io directory (lit "data");
        if negb (bool_decide (md_kind <$> d = Some Directory)) then raise (Corrupt (lit "generation-layout"))
        else
          data ⇚ open_directory io directory (lit "data");
          lease ⇚ exists_ io directory (lit "lease.lock");
          if negb lease then raise (Corrupt (lit "generation-layout"))
          else
            _ ⇚ open_private io directory (lit "lease.lock") false;
            tokens ⇚ entries_bounded io listing data maximum_entries;
            _ ⇚ each_logical_file data tokens;
            scanned ⇚ scan_usage io listing depth directory maximum_entries;
            usage ⇚ of_result (usage_with_directory_entry scanned);
            pure (Some (bytes usage))
  end.

Section Select.
Context (depth : nat) (base : option path) (base_token : str) (maximum_entries : Z).

Definition select_relaxed (pointer_length : option Z) (set_aside_existing : bool) : act Root Selection :=
  let generation := generation_token base_token (lit "stable") in
  set_aside ⇚
    match base with
    | Some b =>
        if set_aside_existing then
          there ⇚ on_disk (exists_ io b generation);
          if there then drawn ⇚ random_bytes 32; pure (Some (hex drawn)) else pure None
        else pure None
    | None => pure None
    end;
  retained ⇚
    match base, set_aside with
    | Some b, None => on_disk (retained_generation depth b generation maximum_entries)
    | _, _ => pure None
    end;
  pure (mkSelection None generation None pointer_length retained set_aside).

Definition reuse_epoch (b : path) (epoch : str) (authority_pointer : option (list Z))
    (continuity : option ContinuityOutcome) : act Root Selection :=
  let generation := generation_token base_token epoch in
  retained ⇚ on_disk (retained_generation depth b generation maximum_entries);
  retained ⇚ of_option (Corrupt (lit "missing-current-generation")) retained;
  pure (mkSelection continuity generation authority_pointer None (Some retained) None).

Definition mint_epoch (scheme : PointerScheme) (authority : str) (continuity : option ContinuityOutcome)
    : act Root Selection :=
  drawn ⇚ random_bytes 32;
  let epoch := hex drawn in
  let generation := generation_token base_token epoch in
  let pointer := encode_pointer scheme authority epoch in
  retained ⇚ match base with
             | Some b => on_disk (retained_generation depth b generation maximum_entries)
             | None => pure None
             end;
  pure (mkSelection continuity generation (Some pointer) None retained None).

(** The base and the pointer in it, unless the namespace is reset. *)
Definition previous_pointer (reset : bool) : act Root (option (path * PointerScheme * PointerDocument)) :=
  match base with
  | Some b =>
      if reset then pure None
      else p ⇚ on_disk (read_pointer b); pure ((fun '(scheme, document) => (b, scheme, document)) <$> p)
  | None => pure None
  end.

Definition legacy_proved (legacy : LegacyContinuity) (authority : str) : result ContinuityCheck unit :=
  match legacy with
  | Unproven check => Err check
  | Candidates candidates =>
      if existsb (fun c => str_eqb (authority_token c) authority) candidates then Ok tt else Err NoCandidate
  end.

Definition select_generation (comparison : Comparison) (pointer_length : option Z) (reset : bool)
    : act Root Selection :=
  match comparison with
  | Provider Relaxed _ => select_relaxed pointer_length reset
  | Provider Paranoid surface =>
      let authority := authority_token surface in
      previous ⇚ previous_pointer reset;
      match previous with
      | None => mint_epoch V1 authority None
      | Some (b, V1, pointer) =>
          if str_eqb (pd_authority pointer) authority
          then reuse_epoch b (pd_epoch pointer) None None
          else mint_epoch V1 authority None
      | Some (_, V2, _) => raise (Corrupt (lit "authority-pointer"))
      end
  | Memory Memory_Relaxed => select_relaxed pointer_length (reset || bool_decide (is_Some pointer_length))
  | Memory (Memory_Paranoid surface legacy on_unproven) =>
      let authority := authority_token surface in
      previous ⇚ previous_pointer reset;
      match previous with
      | None => mint_epoch V2 authority None
      | Some (b, V2, pointer) =>
          if str_eqb (pd_authority pointer) authority
          then reuse_epoch b (pd_epoch pointer) None None
          else mint_epoch V2 authority None
      | Some (b, V1, pointer) =>
          match legacy_proved legacy (pd_authority pointer), on_unproven with
          | Ok _, _ =>
              reuse_epoch b (pd_epoch pointer) (Some (encode_pointer V2 authority (pd_epoch pointer)))
                (Some Migrated)
          | Err check, Refuse => raise (ContinuityUnproven check)
          | Err check, FreshEpoch => mint_epoch V2 authority (Some (Fresh check))
          end
      end
  end.
End Select.

(** ** Preparing and applying a plan *)

(** The lease of a base: it is held by the grants that are alive. *)
Definition lock_base (base_token : str) : act Root unit :=
  leases ⇚ reads rt_leases;
  ending ⇚ on_disk (syscall io);
  match ending with
  | Breaks _ => raise Io
  | _ => if bool_decide (base_token ∈ leases) then raise Timeout else pure tt
  end.

Definition open_base (depth : nat) (base_token : str) (maximum_entries : Z)
    : act Root (option path * Usage * option Z) :=
  there ⇚ on_disk (exists_ io NAMESPACES base_token);
  if negb there then pure (None, mkUsage 0 0 0, None)
  else
    base ⇚ on_disk (open_directory io NAMESPACES base_token);
    _ ⇚ on_disk (open_private io base (lit "base.lock") false);
    _ ⇚ lock_base base_token;
    retained ⇚ on_disk (retains_child NAMESPACES base_token);
    if negb retained then raise Busy
    else
      scanned ⇚ on_disk (scan_usage io listing depth base maximum_entries);
      usage ⇚ of_result (usage_with_directory_entry scanned);
      pointer_length ⇚ on_disk (file_length base (lit "current"));
      pure (Some base, usage, pointer_length).

(** Whether [identity] and [last-used] are still to be written. *)
Definition check_metadata (base : option path) (expected : ResourceIdentity) : act Root bool :=
  match base with
  | None => pure true
  | Some b =>
      found ⇚ on_disk (read_identity b);
      marker ⇚ marker_time b;
      match found, marker with
      | Some (scope, values), Some _ =>
          if bool_decide (scope = ri_scope expected) && bool_decide (values = ri_values expected) then pure false
          else raise (Corrupt (lit "storage-resource-identity"))
      | None, None =>
          if bool_decide (ri_scope expected = PrivateConversation) then pure true
          else raise (Corrupt (lit "storage-resource-identity"))
      | None, Some _ => raise (Corrupt (lit "storage-resource-identity"))
      | Some _, None => raise (Corrupt (lit "storage-resource-metadata"))
      end
  end.

Definition simulate_plan (new_base new_metadata : bool) (resource_identity : list Z) (pointer_length : option Z)
    (selection : Selection) : result StorageHostError (Simulation * Z) :=
  let s := Simulation_default in
  let? s := if new_base then (let? s := create_entry 0 s in create_entry 0 s) else Ok s in
  let? (s, peak) :=
    match sl_retained_peak_bytes selection with
    | Some peak => Ok (s, peak)
    | None =>
        let? s := create_entry 0 s in
        let? s := create_entry 0 s in
        let? s := create_entry 0 s in
        Ok (s, 3 * ENTRY_CHARGE)
    end in
  let? s := if new_metadata then (let? s := create_entry (len resource_identity) s in create_entry 0 s) else Ok s in
  let? s :=
    match sl_authority_pointer selection, sl_removed_pointer_length selection with
    | Some pointer, _ => simulate_replace pointer_length (len pointer) s
    | None, Some length => simulate_remove length s
    | None, None => Ok s
    end in
  Ok (s, peak).

Definition prepare (depth : nat) (request : StorageGrantRequest) (maximum_entries : Z) : act Root NamespacePlan :=
  let values := scope_values request in
  let base_token := token sha256 DOMAIN_NAMESPACE_PATH values in
  let scope_commitment := commitment sha256 DOMAIN_AUDIT_SCOPE values in
  opened ⇚ open_base depth base_token maximum_entries;
  let '(base, before_usage, pointer_length) := opened in
  let expected := identity request in
  if negb (ResourceIdentity_valid expected) then raise InvalidArgument
  else
    let resource_identity := identity_to_vec codec expected in
    if 4096 <? len resource_identity then raise QuotaExceeded
    else
      new_metadata ⇚ check_metadata base expected;
      let select := select_generation depth base base_token maximum_entries (rq_comparison request) pointer_length in
      selected ⇚ attempt (select false);
      chosen ⇚ match selected with
               | Ok selection => pure (selection, None)
               | Err (Corrupt scope) => selection ⇚ select true; pure (selection, Some scope)
               | Err e => raise e
               end;
      let '(selection, reset) := chosen in
      simulated ⇚ of_result (simulate_plan (negb (bool_decide (is_Some base))) new_metadata resource_identity
                               pointer_length selection);
      let '(simulation, peak) := simulated in
      pure (mkPlan (sl_continuity selection) base_token scope_commitment (sl_generation_token selection)
              (sl_authority_pointer selection) (bool_decide (is_Some (sl_removed_pointer_length selection)))
              (sl_set_aside selection) reset (bool_decide (is_Some base)) resource_identity new_metadata
              before_usage (peak_bytes simulation) (peak_entries simulation) peak).

Definition apply_base (plan : NamespacePlan) : act Root path :=
  if np_existing_base plan then pure (NAMESPACES ++ [np_base_token plan])
  else
    base ⇚ on_disk (ensure_directory NAMESPACES (np_base_token plan));
    _ ⇚ on_disk (open_private io base (lit "base.lock") true);
    _ ⇚ lock_base (np_base_token plan);
    pure base.

Definition apply_pointer (plan : NamespacePlan) (base : path) : act Root unit :=
  match np_authority_pointer plan with
  | Some pointer => replace_private base (lit "current") pointer
  | None =>
      if np_remove_authority_pointer plan
      then on_disk (_ ⇚ remove_file io base (lit "current"); sync io)
      else pure tt
  end.

Definition apply_plan (plan : NamespacePlan) (now : Z) : act Root Namespace :=
  base ⇚ apply_base plan;
  _ ⇚ match np_set_aside plan with
      | Some aside => on_disk (_ ⇚ rename_to io base (np_generation_token plan) aside; sync io)
      | None => pure tt
      end;
  opened ⇚ on_disk (ensure_generation base (np_generation_token plan));
  let '(directory, data_directory) := opened in
  _ ⇚ apply_pointer plan base;
  _ ⇚ (if np_new_metadata plan
       then on_disk (
         _ ⇚ create_private base (lit "identity");
         _ ⇚ write_synced base (lit "identity") (np_resource_identity plan);
         sync io)
       else pure tt);
  _ ⇚ touch_marker base (np_new_metadata plan) now;
  pure (mkNamespace (np_base_token plan) (np_generation_token plan) directory data_directory
          (np_scope_commitment plan)).

(** ** Grants *)

Definition hold_lease (base_token : str) : act Root unit :=
  modify (fun s => mkRoot (rt_disk s) (rt_times s) ({[base_token]} ∪ rt_leases s) (rt_ledger s) (rt_draws s)).

(** The usage of the namespace after a plan was applied. *)
Definition scan_base (depth : nat) (base_token : str) : act Root Usage :=
  directory ⇚ on_disk (open_directory io NAMESPACES base_token);
  scanned ⇚ on_disk (scan_usage io listing depth directory (startup_max_entries limits));
  of_result (usage_with_directory_entry scanned).

Definition prepare_grant (request : StorageGrantRequest) : result StorageHostError str :=
  if bool_decide (rq_scope request = SpaceScope)
     && negb match rq_space_key request with
             | Some key => str_eqb (sk_agent key) (rq_agent request)
             | None => false
             end
  then Err InvalidArgument
  else Ok (token sha256 DOMAIN_NAMESPACE_PATH (scope_values request)).

(** The part before the plan is applied, with the reservations it made. *)
Definition reserve_grant (depth : nat) (request : StorageGrantRequest) (base : str)
    (reservation : NamespaceReservation) : act Root (NamespacePlan * RootReservation) :=
  on_error (NamespaceReservation_drop reservation) (
    plan ⇚ prepare depth request (startup_max_entries limits);
    if max_namespace_bytes limits <? np_maximum_generation_peak_bytes plan then raise QuotaExceeded
    else
      housekeeping ⇚ on_ledger (reserve_root limits (np_reserved_bytes plan) (np_reserved_entries plan));
      observed ⇚ on_error (RootReservation_drop housekeeping)
                   (on_disk (entries_bounded io listing NAMESPACES (startup_max_entries limits)));
      _ ⇚ on_ledger (observe_namespaces (list_to_set observed));
      pure (plan, housekeeping)).

(** An error after the plan was applied keeps the slot and the reservation. *)
Definition keep_slot {A : Type} (reservation : NamespaceReservation) (housekeeping : option RootReservation)
    (e : StorageHostError) : act Root A :=
  _ ⇚ ledger_do (NamespaceReservation_commit reservation);
  _ ⇚ match housekeeping with Some r => ledger_do (RootReservation_retain r) | None => pure tt end;
  raise e.

Definition materialize_grant (depth : nat) (now : Z) (request : StorageGrantRequest) (base : str)
    : act Root StorageGrant :=
  observed ⇚ on_disk (entries_bounded io listing NAMESPACES (startup_max_entries limits));
  reservation ⇚ on_ledger (reserve_namespace limits base (list_to_set observed));
  prepared ⇚ reserve_grant depth request base reservation;
  let '(plan, housekeeping) := prepared in
  applied ⇚ attempt (apply_plan plan now);
  match applied with
  | Err e =>
      there ⇚ attempt (on_disk (exists_ io NAMESPACES base));
      if match there with Ok b => b | Err _ => true end
      then keep_slot reservation (Some housekeeping) e
      else
        _ ⇚ ledger_do (RootReservation_retain housekeeping);
        _ ⇚ ledger_do (NamespaceReservation_drop reservation);
        raise e
  | Ok namespace =>
      scanned ⇚ attempt (scan_base depth base);
      match scanned with
      | Err e => keep_slot reservation (Some housekeeping) e
      | Ok after_namespace =>
          committed ⇚ attempt (on_ledger (RootReservation_commit housekeeping (np_before_usage plan) after_namespace));
          match committed with
          | Err e => keep_slot reservation None e
          | Ok _ =>
              _ ⇚ ledger_do (NamespaceReservation_commit reservation);
              match np_reset plan with
              | Some scope => raise (Corrupt scope)
              | None =>
                  _ ⇚ hold_lease base;
                  pure (mkStorageGrant (rq_interface request) (rq_access request) (rq_scope request) namespace
                          (np_continuity plan))
              end
          end
      end
  end.

(** What evidence says of the namespace with this token. *)
Definition record_id (base_token : str) (delivery : list Z) : str :=
  commitment sha256 DOMAIN_RECORD_ID [base_token; delivery].
Definition content_commitment (base_token user assistant : str) : str :=
  commitment sha256 DOMAIN_CONTENT [base_token; user; assistant].
Definition evidence_commitment (base_token label : str) (evidence : list Z) : str :=
  commitment sha256 DOMAIN_DECISION_EVIDENCE [base_token; label; evidence].
Definition denied_evidence_commitment (label : str) (evidence : list Z) : str :=
  commitment sha256 DOMAIN_DECISION_EVIDENCE [lit "denied-storage"; label; evidence].

(** [StorageHost::grant]. *)
Definition grant (depth : nat) (now : Z) (request : StorageGrantRequest) : act Root StorageGrant :=
  base ⇚ of_result (prepare_grant request);
  materialize_grant depth now request base.

(** The lease ends with the grant, or with the transaction it became. *)
Definition drop_lease (base_token : str) : act Root unit :=
  modify (fun s => mkRoot (rt_disk s) (rt_times s) (rt_leases s ∖ {[base_token]}) (rt_ledger s) (rt_draws s)).
End Namespaces.
