(* ===== verification/StorageSweep.v ===== *)
(** * Sweeps of the storage root

    [crates/dekopon-storage-host/src/sweep.rs]: namespaces that were not used for
    the time their provider's policy keeps them are deleted, with everything in
    them, and leave the ledger. *)

From Stdlib Require Import ZArith Lia Ascii String.
From stdpp Require Import base gmap strings list sorting numbers.
From S2P Require Import Prelude RustStr Identifier Subject Capability StorageConfig Quota Keys StorageDir.
From S2P Require Import StorageNamespace.

Record SweepSummary : Type := mkSummary {
  examined : Z;
  deleted : Z;
  skipped : Z;
  errors : Z
}.

(** The names a sweep leaves to the last. *)
Definition is_housekeeping (name : str) : bool :=
  str_eqb name (lit "base.lock") || str_eqb name (lit "identity") || str_eqb name (lit "last-used")
  || str_eqb name (lit "current").

(** The provider in the values of an identity. *)
Definition identity_provider (scope : StorageScope) (values : list str) : option str :=
  match scope, values with
  | PrivateConversation, [provider; _; _; _; _; _; _] => Some provider
  | SharedConversation, [tag; provider; _; _; _; _; _] =>
      if str_eqb tag (lit "shared-conversation-v1") then Some provider else None
  | AgentScope, [tag; provider; _] => if str_eqb tag (lit "agent-v1") then Some provider else None
  | SpaceScope, [tag; provider; _] => if str_eqb tag (lit "space-v1") then Some provider else None
  | _, _ => None
  end.

Section Sweep.
Context (limits : StorageLimits).
Context (io : nat → Ending) (listing : gmap path Node → path → list str).
Context (sha256 : list Z → list Z) (codec : Codec).
Context (policies : str → StorageScope → option StorageRetention).

Definition eligible (base : path) (token_ : str) (now : Z) : act Root bool :=
  found ⇚ on_disk (read_identity io codec base);
  match found with
  | None => pure false
  | Some (scope, values) =>
      if negb (str_eqb (token sha256 DOMAIN_NAMESPACE_PATH values) token_)
      then raise (Corrupt (lit "storage-resource-identity"))
      else
        provider ⇚ of_option (Corrupt (lit "storage-resource-identity")) (identity_provider scope values);
        match ProviderId_from_str provider with
        | Err _ => raise (Corrupt (lit "storage-resource-identity"))
        | Ok provider =>
            match policies provider scope with
            | None => pure false
            | Some policy =>
                last_used ⇚ marker_time io base;
                match last_used, policy with
                | None, _ => pure false
                | Some _, Keep => pure false
                | Some last_used, IdleTtl ttl => pure ((last_used <=? now) && (ttl <=? now - last_used))
                end
            end
        end
  end.

(** The loop over the entries of a directory; [remaining] counts down. *)
Fixpoint each_removed (f : str → Z → act Disk Z) (names : list str) (remaining : Z) : act Disk Z :=
  match names with
  | [] => pure remaining
  | name :: names => remaining ⇚ f name remaining; each_removed f names remaining
  end.

(** [depth] bounds the recursion. *)
Fixpoint remove_entry (depth : nat) (dir : path) (name : str) (remaining : Z) : act Disk Z :=
  match depth with
  | O => diverge
  | S depth =>
      if remaining =? 0 then raise (StartupEntryLimit 1 0)
      else
        let remaining := remaining - 1 in
        m ⇚ metadata io dir name;
        m ⇚ of_option (Corrupt (lit "vanished-entry")) m;
        match md_kind m with
        | File =>
            if md_nlink m =? 1
            then _ ⇚ open_private io dir name false; _ ⇚ remove_file io dir name; pure remaining
            else raise (Corrupt (lit "sweep-entry"))
        | Directory =>
            child ⇚ open_directory io dir name;
            names ⇚ entries_bounded io listing child remaining;
            remaining ⇚ each_removed (remove_entry depth child) names remaining;
            retained ⇚ retains_child io dir name;
            if negb retained then raise (Corrupt (lit "directory-identity"))
            else _ ⇚ remove_directory io dir name; pure remaining
        | Symlink | Other => raise (Corrupt (lit "sweep-entry"))
        end
  end.

(** Everything but the files of the namespace itself. *)
Definition remove_generations (depth : nat) (base : path) : act Disk unit :=
  names ⇚ entries_bounded io listing base (startup_max_entries limits);
  _ ⇚ each_removed (remove_entry depth base) (List.filter (fun name => negb (is_housekeeping name)) names)
        (startup_max_entries limits);
  pure tt.

Definition remove_base (base : path) (token_ : str) : act Disk unit :=
  _ ⇚ remove_file_if_exists io base (lit "current");
  _ ⇚ remove_file io base (lit "last-used");
  _ ⇚ remove_file io base (lit "identity");
  _ ⇚ remove_file io base (lit "base.lock");
  _ ⇚ remove_directory io NAMESPACES token_;
  sync io.

(** [busy]: an operation on the namespace is under way. *)
Definition sweep_one (depth : nat) (token_ : str) (now : Z) (busy : bool) : act Root bool :=
  if negb (is_token token_) then raise (Corrupt (lit "namespace-token"))
  else
    base ⇚ on_disk (open_directory io NAMESPACES token_);
    idle ⇚ eligible base token_ now;
    if negb idle || busy then pure false
    else
      _ ⇚ on_disk (open_private io base (lit "base.lock") false);
      leases ⇚ reads rt_leases;
      ending ⇚ on_disk (syscall io);
      match ending with
      | Breaks _ => raise (RootIo false)
      | _ =>
          if bool_decide (token_ ∈ leases) then pure false
          else
            retained ⇚ on_disk (retains_child io NAMESPACES token_);
            if negb retained then raise Busy
            else
              idle ⇚ eligible base token_ now;
              if negb idle then pure false
              else
                scanned ⇚ on_disk (scan_usage io listing depth base (startup_max_entries limits));
                before ⇚ of_result (usage_with_directory_entry scanned);
                deletion ⇚ attempt (on_disk (_ ⇚ remove_generations depth base; remove_base base token_));
                there ⇚ on_disk (exists_ io NAMESPACES token_);
                let removed := negb there in
                after ⇚ (if removed then pure (mkUsage 0 0 0)
                         else scanned ⇚ on_disk (scan_usage io listing depth base (startup_max_entries limits));
                              of_result (usage_with_directory_entry scanned));
                _ ⇚ on_ledger (account_sweep token_ before after removed);
                _ ⇚ of_result deletion;
                pure removed
      end.

Fixpoint sweep_tokens (depth : nat) (tokens : list str) (now : Z) (busy : str → bool) (summary : SweepSummary)
    : act Root SweepSummary :=
  match tokens with
  | [] => pure summary
  | token_ :: tokens =>
      swept ⇚ attempt (sweep_one depth token_ now (busy token_));
      sweep_tokens depth tokens now busy
        match swept with
        | Ok true => mkSummary (examined summary + 1) (deleted summary + 1) (skipped summary) (errors summary)
        | Ok false => mkSummary (examined summary + 1) (deleted summary) (skipped summary + 1) (errors summary)
        | Err _ => mkSummary (examined summary + 1) (deleted summary) (skipped summary) (errors summary + 1)
        end
  end.

Definition sweep (depth : nat) (now : Z) (busy : str → bool) : act Root SweepSummary :=
  tokens ⇚ on_disk (entries_bounded io listing NAMESPACES (startup_max_entries limits));
  sweep_tokens depth tokens now busy (mkSummary 0 0 0 0).
End Sweep.
