(* ===== verification/StorageFrames.v ===== *)
(** * What operations on the storage root leave alone

    [keeps K m]: however [m] ends, the files at the paths in [K] are as they
    were, and no draw is taken back. A lemma per operation of [StorageDir], [StorageNamespace] and
    [StorageSweep], and the tactic [frame] that applies them. *)

From Stdlib Require Import ZArith Lia Ascii String.
From stdpp Require Import base gmap strings list sorting numbers.
From S2P Require Import Prelude RustStr Identifier Subject Capability StorageConfig Quota Keys StorageDir.
From S2P Require Import StorageNamespace StorageSweep.

Definition keepsD {A : Type} (K : path → Prop) (m : act Disk A) : Prop :=
  ∀ d p, K p → dk_files (m d).2 !! p = dk_files d !! p.

Definition root_files (s : Root) : gmap path Node := dk_files (rt_disk s).

Definition keeps {A : Type} (K : path → Prop) (m : act Root A) : Prop :=
  ∀ s, (rt_draws s ≤ rt_draws (m s).2)%nat ∧ ∀ p, K p → root_files (m s).2 !! p = root_files s !! p.

(** ** The monad *)

Section Disk.
Context {K : path → Prop}.

Lemma keepsD_bind {A B : Type} (m : act Disk A) (k : A → act Disk B) :
  keepsD K m → (∀ a, keepsD K (k a)) → keepsD K (abind m k).
Proof.
  intros Hm Hk d p Hp. unfold abind. specialize (Hm d p Hp). destruct (m d) as [[a|e] d']; cbn in *; [|done].
  by rewrite (Hk a d' p Hp).
Qed.

Lemma keepsD_attempt {A : Type} (m : act Disk A) : keepsD K m → keepsD K (attempt m).
Proof.
  intros Hm d p Hp. unfold attempt. specialize (Hm d p Hp). by destruct (m d) as [[a|[]] d'].
Qed.

Lemma keepsD_pure {A : Type} (a : A) : keepsD K (pure a).
Proof. done. Qed.
Lemma keepsD_raise {A : Type} (e : StorageHostError) : keepsD K (raise (A := A) e).
Proof. done. Qed.
Lemma keepsD_reads {A : Type} (f : Disk → A) : keepsD K (reads f).
Proof. done. Qed.
Lemma keepsD_diverge {A : Type} : keepsD K (diverge (A := A)).
Proof. done. Qed.
Lemma keepsD_of_result {A : Type} (r : result StorageHostError A) : keepsD K (of_result r).
Proof. by destruct r. Qed.
Lemma keepsD_of_option {A : Type} (e : StorageHostError) (o : option A) : keepsD K (of_option e o).
Proof. by destruct o. Qed.

(** A change of the files that leaves the paths alone. *)
Lemma keepsD_set_files (f : gmap path Node → gmap path Node) :
  (∀ fs p, K p → f fs !! p = fs !! p) → keepsD K (modify (set_files f)).
Proof. intros H d p Hp. by apply H. Qed.

Lemma keepsD_insert (q : path) (n : Node) : ¬ K q → keepsD K (modify (set_files (insert q n))).
Proof. intros H. apply keepsD_set_files. intros fs p Hp. apply lookup_insert_ne. by intros ->. Qed.
Lemma keepsD_delete (q : path) : ¬ K q → keepsD K (modify (set_files (delete q))).
Proof. intros H. apply keepsD_set_files. intros fs p Hp. apply lookup_delete_ne. by intros ->. Qed.
Lemma keepsD_alter (f : Node → Node) (q : path) : ¬ K q → keepsD K (modify (set_files (alter f q))).
Proof. intros H. apply keepsD_set_files. intros fs p Hp. apply lookup_alter_ne. by intros ->. Qed.
End Disk.

Create HintDb frames.
#[export] Hint Resolve keepsD_pure keepsD_raise keepsD_reads keepsD_diverge keepsD_of_result keepsD_of_option
  keepsD_insert keepsD_delete keepsD_alter : frames.

(** Walks through an operation: binds, cases and what the hints know. *)
Ltac frame_step :=
  first
    [ solve [eauto 2 with frames nocore]
    | apply keepsD_bind; [|intros ?]
    | apply keepsD_attempt
    | match goal with
      | |- keepsD _ (match ?x with _ => _ end) => destruct x eqn:?
      | |- keepsD _ (if ?x then _ else _) => destruct x eqn:?
      | |- keepsD _ (let '_ := ?x in _) => destruct x eqn:?
      end ].
Ltac frame := repeat frame_step.

(** ** [Directory] *)

Section Operations.
Context {K : path → Prop} (io : nat → Ending) (listing : gmap path Node → path → list str) (dir : path).

Lemma keepsD_syscall : keepsD K (syscall io).
Proof. done. Qed.
#[local] Hint Resolve keepsD_syscall : frames.

Lemma keepsD_works : keepsD K (works io).
Proof. unfold works. frame. Qed.
#[local] Hint Resolve keepsD_works : frames.

Lemma keepsD_node_at (p : path) : keepsD K (node_at p).
Proof. done. Qed.
#[local] Hint Resolve keepsD_node_at : frames.

Lemma keepsD_metadata (name : str) : keepsD K (metadata io dir name).
Proof. unfold metadata. frame. Qed.
#[local] Hint Resolve keepsD_metadata : frames.

Lemma keepsD_exists (name : str) : keepsD K (exists_ io dir name).
Proof. unfold exists_. frame. Qed.

Lemma keepsD_validate (name : str) : keepsD K (validate_private_file io dir name).
Proof. unfold validate_private_file. frame. Qed.
#[local] Hint Resolve keepsD_validate : frames.

Lemma keepsD_open_private (name : str) : keepsD K (open_private io dir name false).
Proof. unfold open_private. frame. Qed.

Lemma keepsD_open_create (name : str) : ¬ K (dir ++ [name]) → keepsD K (open_private io dir name true).
Proof. intros H. unfold open_private. frame. Qed.

Lemma keepsD_open_directory (name : str) : keepsD K (open_directory io dir name).
Proof. unfold open_directory. frame. Qed.

Lemma keepsD_entries (maximum : Z) : keepsD K (entries_bounded io listing dir maximum).
Proof. unfold entries_bounded, read_entries. frame. Qed.

Lemma keepsD_entries_prefix (maximum : Z) : keepsD K (entries_prefix io listing dir maximum).
Proof. unfold entries_prefix, read_entries. frame. Qed.
End Operations.

#[export] Hint Resolve keepsD_syscall keepsD_works keepsD_node_at keepsD_metadata keepsD_exists keepsD_validate
  keepsD_open_private keepsD_open_directory keepsD_entries keepsD_entries_prefix : frames.

Section More.
Context {K : path → Prop} (io : nat → Ending) (listing : gmap path Node → path → list str) (dir : path).

Lemma keepsD_read_bounded (name : str) (maximum : Z) : keepsD K (read_bounded io dir name maximum).
Proof. unfold read_bounded. frame. Qed.

Lemma keepsD_logical_file (token_ : str) : keepsD K (logical_file io dir token_).
Proof. unfold logical_file. frame. Qed.

Lemma keepsD_each_entry (f : str → Usage → act Disk Usage) (names : list str) (usage : Usage) :
  (∀ name u, keepsD K (f name u)) → keepsD K (each_entry f names usage).
Proof. intros H. revert usage. induction names as [|name names IH]; intros usage; cbn [each_entry]; frame; auto. Qed.

Lemma keepsD_remove_file (name : str) : ¬ K (dir ++ [name]) → keepsD K (remove_file io dir name).
Proof. intros H. unfold remove_file. frame. Qed.

Lemma keepsD_write_all_at (q : path) (bytes : list Z) (offset : nat) :
  ¬ K q → keepsD K (write_all_at io q bytes offset).
Proof. intros H. unfold write_all_at. frame. Qed.

(** What is below neither name stays where it is. *)
Lemma move_tree_other (old new p : path) (fs : gmap path Node) :
  below old p = false → below new p = false → move_tree old new fs !! p = fs !! p.
Proof.
  intros Ho Hn. unfold move_tree.
  assert (∀ q n, (q, n) ∈ map_to_list (delete new fs) →
    (if below old q then new ++ drop (length old) q else q) = p → q = p) as Hinv.
  { intros q n _. destruct (below old q) eqn:E; [|done]. intros <-. unfold below in Hn.
    apply bool_decide_eq_false in Hn. destruct Hn. by exists (drop (length old) q). }
  destruct (fs !! p) as [n|] eqn:Ep.
  - assert ((p, n) ∈ map_to_list (delete new fs)) as Hin.
    { apply elem_of_map_to_list. rewrite lookup_delete_ne; [done|]. intros ->. unfold below in Hn.
      apply bool_decide_eq_false in Hn. by destruct Hn. }
    apply elem_of_list_to_map_1'.
    + intros y (qn & E & Hq)%list_elem_of_fmap. injection E as E1 ->. destruct qn as [q m]. cbn in *.
      pose proof (Hinv q m Hq (eq_sym E1)) as ->. apply elem_of_map_to_list in Hq, Hin. congruence.
    + apply list_elem_of_fmap. exists (p, n). cbn. by rewrite Ho.
  - apply not_elem_of_list_to_map_1. intros (qn & E & (qm & -> & Hq)%list_elem_of_fmap)%list_elem_of_fmap.
    destruct qm as [q m]. cbn in *. pose proof (Hinv q m Hq (eq_sym E)) as ->.
    apply elem_of_map_to_list in Hq. rewrite lookup_delete_ne in Hq by (intros ->; unfold below in Hn; apply bool_decide_eq_false in Hn; by destruct Hn).
    congruence.
Qed.

Lemma renameat_other (old new p : path) (fs fs' : gmap path Node) :
  renameat old new fs = Ok fs' → below old p = false → below new p = false → fs' !! p = fs !! p.
Proof.
  intros H Ho Hn. assert (p ≠ old ∧ p ≠ new) as [Hpo Hpn].
  { unfold below in *. apply bool_decide_eq_false in Ho, Hn. split; intros ->; [by destruct Ho|by destruct Hn]. }
  unfold renameat in H. destruct (fs !! old) as [n|]; [|done].
  destruct (bool_decide (old = new)); [by injection H as <-|].
  destruct (bool_decide (nd_kind n = Directory)).
  - destruct (_ || _ || _); [done|]. injection H as <-. by apply move_tree_other.
  - destruct (bool_decide _); [done|]. injection H as <-. by rewrite lookup_insert_ne, lookup_delete_ne.
Qed.

Lemma keepsD_rename_to (name target : str) :
  (∀ p, K p → below (dir ++ [name]) p = false ∧ below (dir ++ [target]) p = false) →
  keepsD K (rename_to io dir name target).
Proof.
  intros H. unfold rename_to. do 3 (apply keepsD_bind; [by eauto with frames|intros _]).
  intros d p Hp. unfold abind, reads, of_result, modify. cbn.
  destruct (renameat _ _ _) as [fs'|] eqn:E; [|done]. cbn. destruct (H p Hp). by eapply renameat_other.
Qed.
End More.

#[export] Hint Resolve keepsD_read_bounded keepsD_logical_file keepsD_remove_file keepsD_write_all_at : frames.

Lemma keepsD_scan {K : path → Prop} (io : nat → Ending) (listing : gmap path Node → path → list str) (fuel : nat)
    (maximum_entries : Z) (dir : path) (usage : Usage) :
  keepsD K (scan io listing fuel maximum_entries dir usage).
Proof.
  revert dir usage. induction fuel as [|fuel IH]; intros dir usage; cbn [scan]; [done|]. frame.
  apply keepsD_each_entry. intros name u. unfold scan_entry. frame.
Qed.

Lemma keepsD_scan_usage {K : path → Prop} (io : nat → Ending) (listing : gmap path Node → path → list str)
    (fuel : nat) (dir : path) (maximum_entries : Z) :
  keepsD K (scan_usage io listing fuel dir maximum_entries).
Proof. apply keepsD_scan. Qed.
#[export] Hint Resolve keepsD_scan_usage : frames.

(** ** Namespaces *)

Section Namespaces.
Context {K : path → Prop} (io : nat → Ending) (listing : gmap path Node → path → list str) (codec : Codec) (dir : path).

Lemma keepsD_ensure_directory (name : str) : ¬ K (dir ++ [name]) → keepsD K (ensure_directory io dir name).
Proof. intros H. unfold ensure_directory, sync. frame. Qed.

Lemma keepsD_retains_child (name : str) : keepsD K (retains_child io dir name).
Proof. unfold retains_child. frame. Qed.

Lemma keepsD_create_private (name : str) : ¬ K (dir ++ [name]) → keepsD K (create_private io dir name).
Proof. intros H. unfold create_private. frame. Qed.

Lemma keepsD_remove_directory (name : str) : ¬ K (dir ++ [name]) → keepsD K (remove_directory io dir name).
Proof. intros H. unfold remove_directory. frame. Qed.

Lemma keepsD_remove_if_exists (name : str) : ¬ K (dir ++ [name]) → keepsD K (remove_file_if_exists io dir name).
Proof. intros H. unfold remove_file_if_exists. frame. Qed.

Lemma keepsD_write_synced (name : str) (bytes : list Z) : ¬ K (dir ++ [name]) → keepsD K (write_synced io dir name bytes).
Proof. intros H. unfold write_synced. frame. Qed.

Lemma keepsD_read_identity : keepsD K (read_identity io codec dir).
Proof. unfold read_identity. frame. Qed.

Lemma keepsD_file_length (name : str) : keepsD K (file_length io dir name).
Proof. unfold file_length. frame. Qed.

Lemma keepsD_read_pointer : keepsD K (read_pointer io codec dir).
Proof. unfold read_pointer. frame. Qed.

Lemma keepsD_each_logical_file (tokens : list str) : keepsD K (each_logical_file io dir tokens).
Proof. induction tokens as [|t tokens IH]; cbn [each_logical_file]; frame. Qed.
End Namespaces.
#[export] Hint Resolve keepsD_open_create keepsD_ensure_directory keepsD_create_private keepsD_remove_directory
  keepsD_remove_if_exists keepsD_write_synced keepsD_retains_child keepsD_read_identity keepsD_file_length keepsD_read_pointer
  keepsD_each_logical_file : frames.

Lemma keepsD_retained_generation {K : path → Prop} (io : nat → Ending) (listing : gmap path Node → path → list str)
    (depth : nat) (base : path) (generation : str) (maximum_entries : Z) :
  keepsD K (retained_generation io listing depth base generation maximum_entries).
Proof. unfold retained_generation. frame. Qed.
#[export] Hint Resolve keepsD_retained_generation : frames.

(** ** Operations on the root *)

Section Root.
Context {K : path → Prop}.

Lemma keepsR_bind {A B : Type} (m : act Root A) (k : A → act Root B) :
  keeps K m → (∀ a, keeps K (k a)) → keeps K (abind m k).
Proof.
  intros Hm Hk s. unfold abind. destruct (Hm s) as [Hd Hf]. destruct (m s) as [[a|e] s']; cbn in *; [|done].
  destruct (Hk a s') as [Hd' Hf']. split; [lia|]. intros p Hp. by rewrite Hf', Hf.
Qed.

Lemma keepsR_attempt {A : Type} (m : act Root A) : keeps K m → keeps K (attempt m).
Proof. intros Hm s. unfold attempt. specialize (Hm s). by destruct (m s) as [[a|[]] s']. Qed.

Lemma keeps_pure {A : Type} (a : A) : keeps K (pure a).
Proof. done. Qed.
Lemma keeps_raise {A : Type} (e : StorageHostError) : keeps K (raise (A := A) e).
Proof. done. Qed.
Lemma keeps_reads {A : Type} (f : Root → A) : keeps K (reads f).
Proof. done. Qed.
Lemma keepsR_of_result {A : Type} (r : result StorageHostError A) : keeps K (of_result r).
Proof. by destruct r. Qed.
Lemma keepsR_of_option {A : Type} (e : StorageHostError) (o : option A) : keeps K (of_option e o).
Proof. by destruct o. Qed.
Lemma keepsR_on_disk {A : Type} (m : act Disk A) : keepsD K m → keeps K (on_disk m).
Proof.
  intros H s. unfold on_disk, root_files. specialize (H (rt_disk s)). destruct (m (rt_disk s)). split; [done|exact H].
Qed.
Lemma keepsR_on_ledger {A : Type} (m : locked A) : keeps K (on_ledger m).
Proof. intros s. unfold on_ledger, root_files. by destruct (m (rt_ledger s)). Qed.
Lemma keeps_ledger_do (f : LedgerState → LedgerState) : keeps K (ledger_do f).
Proof. apply keepsR_on_ledger. Qed.
Lemma keeps_random (entropy : nat → nat → option (list Z)) (n : nat) : keeps K (random_bytes entropy n).
Proof. intros s. split; [cbn; lia|done]. Qed.
Lemma keeps_set_time (dir : path) (t : Z) : keeps K (set_time dir t).
Proof. done. Qed.
Lemma keeps_hold_lease (b : str) : keeps K (hold_lease b).
Proof. done. Qed.
Lemma keeps_drop_lease (b : str) : keeps K (drop_lease b).
Proof. done. Qed.
Lemma keeps_on_error {A : Type} (f : LedgerState → LedgerState) (m : act Root A) : keeps K m → keeps K (on_error f m).
Proof.
  intros H. unfold on_error. apply keepsR_bind; [by apply keepsR_attempt|]. intros [a|e]; [apply keeps_pure|].
  apply keepsR_bind; [apply keeps_ledger_do|intros; apply keeps_raise].
Qed.
End Root.

#[export] Hint Resolve keeps_pure keeps_raise keeps_reads keepsR_of_result keepsR_of_option keepsR_on_ledger
  keeps_ledger_do keeps_random keeps_set_time keeps_hold_lease keeps_drop_lease : frames.

Ltac frame_root_step :=
  first
    [ solve [eauto 2 with frames nocore]
    | apply keepsR_on_disk; solve [frame]
    | apply keepsR_bind; [|intros ?]
    | apply keepsR_attempt
    | apply keeps_on_error
    | match goal with
      | |- keeps _ (match ?x with _ => _ end) => destruct x eqn:?
      | |- keeps _ (if ?x then _ else _) => destruct x eqn:?
      | |- keeps _ (let '_ := ?x in _) => destruct x eqn:?
      end ].
Ltac frame_root := repeat frame_root_step.

Section Grants.
Context {K : path → Prop} (limits : StorageLimits).
Context (io : nat → Ending) (listing : gmap path Node → path → list str).
Context (sha256 : list Z → list Z) (codec : Codec) (entropy : nat → nat → option (list Z)).

Lemma keeps_marker_time (dir : path) : keeps K (marker_time io dir).
Proof. unfold marker_time. frame_root. Qed.

Lemma keeps_touch_marker (dir : path) (create : bool) (now : Z) :
  ¬ K (dir ++ [lit "last-used"]) → keeps K (touch_marker io dir create now).
Proof. intros H. unfold touch_marker. frame_root. Qed.

Lemma keeps_unique_name (dir : path) (attempts : nat) : keeps K (unique_temporary_name io entropy dir attempts).
Proof. induction attempts as [|n IH]; cbn [unique_temporary_name]; frame_root. Qed.

Lemma keeps_lock_base (b : str) : keeps K (lock_base io b).
Proof. unfold lock_base. frame_root. Qed.
#[local] Hint Resolve keeps_marker_time keeps_unique_name keeps_lock_base : frames.

Lemma keeps_open_base (depth : nat) (b : str) (maximum : Z) : keeps K (open_base io listing depth b maximum).
Proof. unfold open_base. frame_root. Qed.

Lemma keeps_check_metadata (base : option path) (expected : ResourceIdentity) :
  keeps K (check_metadata io codec base expected).
Proof. unfold check_metadata. frame_root. Qed.

Lemma keeps_select (depth : nat) (base : option path) (b : str) (maximum : Z) (c : Comparison) (length : option Z)
    (reset : bool) :
  keeps K (select_generation io listing sha256 codec entropy depth base b maximum c length reset).
Proof.
  unfold select_generation, select_relaxed, mint_epoch, reuse_epoch, previous_pointer. frame_root.
Qed.
#[local] Hint Resolve keeps_open_base keeps_check_metadata keeps_select : frames.

Lemma keeps_prepare (depth : nat) (request : StorageGrantRequest) (maximum : Z) :
  keeps K (prepare io listing sha256 codec entropy depth request maximum).
Proof. unfold prepare. frame_root. Qed.
#[local] Hint Resolve keeps_prepare : frames.

Lemma keeps_reserve_grant (depth : nat) (request : StorageGrantRequest) (base : str) (r : NamespaceReservation) :
  keeps K (reserve_grant limits io listing sha256 codec entropy depth request base r).
Proof. unfold reserve_grant. frame_root. Qed.

Lemma keeps_scan_base (depth : nat) (b : str) : keeps K (scan_base limits io listing depth b).
Proof. unfold scan_base. frame_root. Qed.

Lemma keeps_keep_slot {A : Type} (r : NamespaceReservation) (h : option RootReservation) (e : StorageHostError) :
  keeps K (keep_slot (A := A) r h e).
Proof. unfold keep_slot. frame_root. Qed.
End Grants.
#[export] Hint Resolve keeps_marker_time keeps_unique_name keeps_lock_base keeps_open_base keeps_check_metadata
  keeps_select keeps_prepare keeps_reserve_grant keeps_scan_base keeps_keep_slot keeps_touch_marker : frames.

(** An operation that keeps every path leaves the files. *)
Lemma keeps_files {A : Type} (m : act Root A) (s : Root) : keeps (fun _ => True) m → root_files (m s).2 = root_files s.
Proof. intros H. apply map_eq. intros p. by apply H. Qed.

(** ** Results *)

(** Whatever [m] returns satisfies [P]. *)
Definition yields {S A : Type} (P : A → Prop) (m : act S A) : Prop := ∀ s a s', m s = (Ok a, s') → P a.

Lemma yields_seq {S A B : Type} (P : B → Prop) (m : act S A) (k : A → act S B) :
  (∀ a, yields P (k a)) → yields P (abind m k).
Proof.
  intros Hk s b s'. unfold abind. destruct (m s) as [[a|e] s1]; [|done]. apply Hk.
Qed.

(** The same, with what the first half yields. *)
Lemma yields_bind_with {S A B : Type} (Q : A → Prop) (P : B → Prop) (m : act S A) (k : A → act S B) :
  yields Q m → (∀ a, Q a → yields P (k a)) → yields P (abind m k).
Proof.
  intros Hm Hk s b s'. unfold abind. destruct (m s) as [[a|e] s1] eqn:E; [|done]. apply Hk. by eapply Hm.
Qed.

Lemma yields_pure {S A : Type} (P : A → Prop) (a : A) : P a → yields P (pure (S := S) a).
Proof. by intros H s b s' [= <- <-]. Qed.
Lemma yields_raise {S A : Type} (P : A → Prop) (e : StorageHostError) : yields P (raise (S := S) e).
Proof. by intros s a s'. Qed.

Lemma open_directory_path (io : nat → Ending) (dir : path) (name : str) :
  yields (eq (dir ++ [name])) (open_directory io dir name).
Proof.
  unfold open_directory. do 2 (apply yields_seq; intros _). apply yields_seq. intros [n|]; [|apply yields_raise].
  destruct (negb _); [apply yields_raise|]. do 2 (apply yields_seq; intros _).
  destruct (negb _); [apply yields_raise|]. apply yields_seq. intros _. by apply yields_pure.
Qed.

Lemma ensure_directory_path (io : nat → Ending) (dir : path) (name : str) :
  yields (eq (dir ++ [name])) (ensure_directory io dir name).
Proof. unfold ensure_directory. do 4 (apply yields_seq; intros ?). apply open_directory_path. Qed.

(** What follows an operation may use its result. *)
Lemma keeps_bind_with {K : path → Prop} {A B : Type} (Q : A → Prop) (m : act Root A) (k : A → act Root B) :
  keeps K m → yields Q m → (∀ a, Q a → keeps K (k a)) → keeps K (abind m k).
Proof.
  intros Hm Hy Hk s. unfold abind. destruct (Hm s) as [Hd Hf]. destruct (m s) as [[a|e] s'] eqn:E; cbn in *; [|done].
  destruct (Hk a (Hy _ _ _ E) s') as [Hd' Hf']. split; [lia|]. intros p Hp. by rewrite Hf', Hf.
Qed.

Lemma keepsD_bind_with {K : path → Prop} {A B : Type} (Q : A → Prop) (m : act Disk A) (k : A → act Disk B) :
  keepsD K m → yields Q m → (∀ a, Q a → keepsD K (k a)) → keepsD K (abind m k).
Proof.
  intros Hm Hy Hk d p Hp. unfold abind. specialize (Hm d p Hp). destruct (m d) as [[a|e] d'] eqn:E; cbn in *; [|done].
  by rewrite (Hk a (Hy _ _ _ E) d' p Hp).
Qed.

Lemma yields_on_disk {A : Type} (P : A → Prop) (m : act Disk A) : yields P m → yields P (on_disk m).
Proof. intros H s a s'. unfold on_disk. destruct (m (rt_disk s)) as [r d] eqn:E. intros [= -> _]. by eapply H. Qed.

Lemma keepsD_ensure_generation {K : path → Prop} (io : nat → Ending) (base : path) (generation : str) :
  ¬ K (base ++ [generation]) → ¬ K (base ++ [generation; lit "data"]) → ¬ K (base ++ [generation; lit "lease.lock"]) →
  keepsD K (ensure_generation io base generation).
Proof.
  intros H1 H2 H3. unfold ensure_generation.
  eapply keepsD_bind_with; [by apply keepsD_ensure_directory|apply ensure_directory_path|]. intros directory <-.
  replace (base ++ [generation; lit "data"]) with ((base ++ [generation]) ++ [lit "data"]) in H2 by (by rewrite <- (assoc (++))).
  replace (base ++ [generation; lit "lease.lock"]) with ((base ++ [generation]) ++ [lit "lease.lock"]) in H3
    by (by rewrite <- (assoc (++))).
  apply keepsD_bind; [by apply keepsD_ensure_directory|intros data].
  apply keepsD_bind; [by apply keepsD_open_create|intros _]. unfold sync. frame.
Qed.
