(* ===== verification/StorageContinuity.v ===== *)
(** * Who gets which data of a namespace

    Over any sequence of grants, uses of what was granted, sweeps and ends of
    grants, with any system call failing at any time: data written under one
    authority is handed to another only through a migration that was asked for
    and proved ([continues]), and an authority that comes back finds its data or
    is told that it is gone. *)

From Stdlib Require Import ZArith Lia Ascii String.
From stdpp Require Import base gmap strings list sorting numbers.
From S2P Require Import Prelude RustStr Identifier Subject Capability StorageConfig Quota Keys StorageDir.
From S2P Require Import StorageNamespace StorageSweep StorageFrames.

(** ** Names *)

Lemma hex_chars (l : list Z) : Forall (fun c => c ∈ 0 :: DIGITS) (hex l).
Proof.
  assert (∀ n, hex_digit n ∈ 0 :: DIGITS) as Hd.
  { intros n. unfold hex_digit. destruct (nth_in_or_default (Z.to_nat n) DIGITS 0) as [H|H].
    - apply list_elem_of_In. by right.
    - rewrite H. constructor. }
  unfold hex. induction l as [|b l IH]; [constructor|]. cbn [fmap list_fmap concat].
  unfold hex_byte at 1. cbn [app]. constructor; [apply Hd|]. constructor; [apply Hd|exact IH].
Qed.

Lemma hex_ne (l : list Z) (name : str) :
  existsb (fun c => negb (mem c (0 :: DIGITS))) name = true → hex l ≠ name.
Proof.
  intros (c & Hc & Hm)%existsb_exists <-. apply list_elem_of_In in Hc.
  apply (Forall_elem _ _ _ (hex_chars l)) in Hc. apply mem_true in Hc. by rewrite Hc in Hm.
Qed.

Definition base_path (b : str) : path := NAMESPACES ++ [b].
Definition pointer_path (b : str) : path := base_path b ++ [lit "current"].

(** The paths of all pointers, and those outside one namespace. *)
Definition is_pointer (p : path) : Prop := ∃ b, p = pointer_path b.
Definition outside (b : str) (p : path) : Prop := below (base_path b) p = false.

Lemma base_child_inj (b b' name name' : str) : base_path b ++ [name] = base_path b' ++ [name'] → b = b' ∧ name = name'.
Proof. unfold base_path, NAMESPACES. cbn. by intros [= -> ->]. Qed.

Lemma not_pointer (b name : str) : name ≠ lit "current" → ¬ is_pointer (base_path b ++ [name]).
Proof. intros Hn [b' E]. apply base_child_inj in E as [_ ->]. done. Qed.

Lemma not_pointer_deeper (b name x : str) (rest : path) : ¬ is_pointer (base_path b ++ name :: x :: rest).
Proof. intros [b' E]. unfold pointer_path, base_path, NAMESPACES in E. by injection E. Qed.

Lemma not_pointer_base (b : str) : ¬ is_pointer (base_path b).
Proof. intros [b' E]. unfold pointer_path, base_path, NAMESPACES in E. by injection E. Qed.

Lemma below_base_child (b : str) (rest : path) : ¬ outside b (base_path b ++ rest).
Proof. unfold outside, below. rewrite bool_decide_eq_true_2; [done|]. by exists rest. Qed.

Lemma not_outside_base (b : str) : ¬ outside b (base_path b).
Proof. unfold outside, below. by rewrite bool_decide_eq_true_2. Qed.

Lemma pointer_outside (b b' : str) : b' ≠ b → outside b (pointer_path b').
Proof.
  intros Hb. unfold outside, below, pointer_path, base_path, NAMESPACES. apply bool_decide_eq_false. intros [k E].
  cbn in E. by injection E as <-.
Qed.

Lemma not_below_child (b name name' : str) : name ≠ name' → below (base_path b ++ [name]) (base_path b ++ [name']) = false.
Proof.
  intros Hn. unfold below, base_path, NAMESPACES. apply bool_decide_eq_false. intros [k E]. cbn in E.
  by injection E as <-.
Qed.

Lemma pointer_not_below (b name : str) (p : path) : name ≠ lit "current" → is_pointer p → below (base_path b ++ [name]) p = false.
Proof.
  intros Hn [b' ->]. unfold below, pointer_path, base_path, NAMESPACES. apply bool_decide_eq_false. intros [k E]. cbn in E.
  by injection E as <- <-.
Qed.

Lemma outside_not_below (b : str) (rest p : path) : outside b p → below (base_path b ++ rest) p = false.
Proof.
  unfold outside, below. rewrite !bool_decide_eq_false. intros H [k ->]. destruct H. exists (rest ++ k).
  by rewrite <- (assoc (++)).
Qed.
#[export] Hint Resolve not_pointer_deeper not_pointer_base not_outside_base : frames.
#[export] Hint Resolve below_base_child : frames.

(** The files a grant lets its holder write. *)
Definition in_data (b generation : str) (p : path) : Prop :=
  below (base_path b ++ [generation; lit "data"]) p = true ∧ p ≠ base_path b ++ [generation; lit "data"].

(** Some path in the data of a generation. *)
Definition data_of (b : str) (p : path) : Prop := ∃ l, in_data b (hex l) p.

Lemma in_data_deep (b generation : str) (p : path) :
  in_data b generation p → ∃ x rest, p = base_path b ++ generation :: lit "data" :: x :: rest.
Proof.
  intros [(k & ->)%bool_decide_eq_true Hne]. destruct k as [|x k]; [by rewrite app_nil_r in Hne|]. exists x, k.
  by rewrite <- (assoc (++)).
Qed.

(** Data is deeper than what a grant creates, *)
Lemma not_data_shallow (b : str) (p : path) : (length p ≤ 4)%nat → ¬ data_of b p.
Proof. intros Hl [l (x & rest & ->)%in_data_deep]. rewrite length_app in Hl. cbn in Hl. lia. Qed.

(** and is in no directory but its generation. *)
Lemma data_not_below (b name : str) (p : path) :
  data_of b p → (∀ l, hex l ≠ name) → below (base_path b ++ [name]) p = false.
Proof.
  intros [l (x & rest & ->)%in_data_deep] Hn. unfold below. apply bool_decide_eq_false. intros [k E].
  rewrite <- (assoc (++)) in E. apply app_inv_head in E. injection E as E _. by apply (Hn l).
Qed.

(** ** The pointer *)

Section Pointer.
Context (io : nat → Ending) (entropy : nat → nat → option (list Z)) (b : str).

(** The pointer holds these bytes. *)
Definition pointer_holds (bytes : list Z) (fs : gmap path Node) : Prop :=
  nd_bytes <$> fs !! pointer_path b = Some bytes.

Lemma wp_create_private (dir : path) (name : str) (d : Disk) :
  wp (create_private io dir name)
    (fun r d' => match r with Ok _ => dk_files d' = <[dir ++ [name] := new_file]> (dk_files d) | Err _ => True end) d.
Proof. unfold create_private, validate_private_file. disk_run. Qed.

Lemma wp_write_synced (dir : path) (name : str) (bytes : list Z) (d : Disk) :
  wp (write_synced io dir name bytes)
    (fun r d' => match r with
                 | Ok _ => dk_files d' = if is_nil bytes then dk_files d
                                         else alter (set_bytes (overwrite 0 bytes)) (dir ++ [name]) (dk_files d)
                 | Err _ => True
                 end) d.
Proof.
  unfold write_synced. eapply wp_step; [apply wp_write_all_at| |done]. intros [] d' Hd. cbn in Hd.
  eapply wp_mono; [apply wp_works|]. intros [[]|e] d'' H; cbn in *; [congruence|done].
Qed.

Lemma renameat_moves_file (old new : path) (fs fs' : gmap path Node) (n : Node) :
  old ≠ new → fs !! old = Some n → nd_kind n = File → renameat old new fs = Ok fs' → fs' = <[new := n]> (delete old fs).
Proof.
  intros Hne Hn Hk. unfold renameat. rewrite Hn, bool_decide_eq_false_2, Hk by done.
  rewrite (bool_decide_eq_false_2 (File = Directory)) by done. destruct (bool_decide _); [done|]. by intros [= <-].
Qed.

(** The four calls of [replace_private]. *)
Lemma replace_writes (temporary : str) (bytes : list Z) (d : Disk) :
  temporary ≠ lit "current" →
  wp (_ ⇚ create_private io (base_path b) temporary;
      _ ⇚ write_synced io (base_path b) temporary bytes;
      _ ⇚ rename_to io (base_path b) temporary (lit "current");
      sync io)
    (fun r d' =>
       (dk_files d' !! pointer_path b = dk_files d !! pointer_path b ∨ pointer_holds bytes (dk_files d'))
       ∧ (is_ok r = true → pointer_holds bytes (dk_files d'))) d.
Proof.
  intros Ht. assert (∀ p, p = pointer_path b → ¬ (p = base_path b ++ [temporary])) as Hne.
  { intros p -> E. unfold pointer_path in E. apply base_child_inj in E as [_ E]. by destruct Ht. }
  assert (∀ m : act Disk unit, keepsD (eq (pointer_path b)) m → ∀ d0 d1 e, m d0 = (Err e, d1) →
    dk_files d1 !! pointer_path b = dk_files d0 !! pointer_path b) as Herr.
  { intros m Hm d0 d1 e E. specialize (Hm d0 (pointer_path b) eq_refl). by rewrite E in Hm. }
  assert (¬ pointer_path b = base_path b ++ [temporary]) as Hnp by (by apply Hne).
  unfold wp, abind. destruct (create_private io (base_path b) temporary d) as [[[]|e] d1] eqn:E1.
  2: { cbn. split; [left; eapply Herr; [|exact E1]; by apply keepsD_create_private|done]. }
  pose proof (wp_create_private (base_path b) temporary d) as H1. unfold wp in H1. rewrite E1 in H1. cbn in H1.
  destruct (write_synced io (base_path b) temporary bytes d1) as [[[]|e] d2] eqn:E2.
  2: { cbn. split; [left|done]. transitivity (dk_files d1 !! pointer_path b).
       - eapply Herr; [|exact E2]. by apply keepsD_write_synced.
       - rewrite H1. by apply lookup_insert_ne. }
  pose proof (wp_write_synced (base_path b) temporary bytes d1) as H2. unfold wp in H2. rewrite E2 in H2. cbn in H2.
  assert (∃ n, dk_files d2 !! (base_path b ++ [temporary]) = Some n ∧ nd_kind n = File ∧ nd_bytes n = bytes)
    as (n & Hn & Hk & Hbytes).
  { rewrite H2, H1. destruct bytes as [|x bytes]; cbn [is_nil].
    - exists new_file. by rewrite lookup_insert_eq.
    - exists (set_bytes (overwrite 0 (x :: bytes)) new_file). rewrite lookup_alter_eq, lookup_insert_eq.
      split; [done|]. split; [done|]. cbn. by rewrite app_nil_r. }
  assert (dk_files d2 !! pointer_path b = dk_files d !! pointer_path b) as Hold.
  { rewrite H2, H1. destruct (is_nil bytes); [|rewrite lookup_alter_ne by done]; by apply lookup_insert_ne. }
  pose proof (wp_rename_to io (base_path b) temporary (lit "current") d2) as H3. unfold wp in H3.
  destruct (rename_to io (base_path b) temporary (lit "current") d2) as [[[]|[e| |]] d3] eqn:E3; cbn in H3; try done.
  2: { cbn. rewrite H3. by split; [left|]. }
  apply (renameat_moves_file _ _ _ _ n) in H3; [|by intros E; apply Hnp|done|done].
  assert (pointer_holds bytes (dk_files d3)) as Hh.
  { unfold pointer_holds. rewrite H3. unfold pointer_path. rewrite lookup_insert_eq. cbn. by rewrite Hbytes. }
  pose proof (wp_works io d3) as H4. unfold wp, sync in *. destruct (works io d3) as [[[]|[]] d4]; cbn in H4 |- *;
    try done; rewrite H4; by split; [right|].
Qed.

Lemma tmp_name_not (bytes : list Z) (name : str) : starts_with name (lit "tmp-") = false → lit "tmp-" ++ hex bytes ≠ name.
Proof. intros H <-. apply not_true_iff_false in H. destruct H. apply starts_with_true. by eexists. Qed.

Lemma unique_name_is (dir : path) (attempts : nat) (s : Root) :
  wp (unique_temporary_name io entropy dir attempts)
    (fun r _ => match r with Ok name => ∃ bytes, name = lit "tmp-" ++ hex bytes | Err _ => True end) s.
Proof.
  revert s. induction attempts as [|n IH]; intros s; cbn [unique_temporary_name]; [done|].
  unfold wp, abind, random_bytes. cbn. destruct (entropy (rt_draws s) 16) as [x|]; [|done].
  destruct (on_disk _ _) as [[[]|e] s']; [apply IH| |done]. by exists x.
Qed.
End Pointer.

Definition set_disk (s : Root) (d : Disk) : Root :=
  mkRoot d (rt_times s) (rt_leases s) (rt_ledger s) (rt_draws s).

Lemma wp_root_disk {A : Type} (m : act Disk A) (Q : result Exn A → Root → Prop) (s : Root) :
  wp m (fun r d => Q r (set_disk s d)) (rt_disk s) → wp (on_disk m) Q s.
Proof. unfold wp, on_disk, set_disk. by destruct (m (rt_disk s)). Qed.

Section Continuity.
Context (limits : StorageLimits).
Context (io : nat → Ending) (listing : gmap path Node → path → list str).
Context (sha256 : list Z → list Z) (codec : Codec) `{!CodecLaws codec}.
Context (entropy : nat → nat → option (list Z)).

Lemma replace_pointer (b : str) (bytes : list Z) (s : Root) :
  wp (replace_private io entropy (base_path b) (lit "current") bytes)
    (fun r s' =>
       (root_files s' !! pointer_path b = root_files s !! pointer_path b ∨ pointer_holds b bytes (root_files s'))
       ∧ (is_ok r = true → pointer_holds b bytes (root_files s'))) s.
Proof.
  unfold replace_private.
  assert (of_result (validate_component (lit "current")) = pure (S := Root) tt) as -> by done.
  apply wp_bind, wp_pure, wp_bind.
  pose proof (keeps_unique_name (K := fun _ => True) io entropy (base_path b) 16 s) as [_ Hk].
  pose proof (unique_name_is io entropy (base_path b) 16 s) as Hname. unfold wp at 1. unfold wp in Hname.
  destruct (unique_temporary_name io entropy (base_path b) 16 s) as [[name|e] s1]; cbn [fst snd] in *;
    [|split; [by left; apply Hk|done]].
  destruct Hname as [x ->]. specialize (Hk (pointer_path b) I). rewrite <- Hk.
  assert (lit "tmp-" ++ hex x ≠ lit "current") as Hne by (by apply tmp_name_not).
  apply wp_bind, wp_attempt, wp_root_disk. eapply wp_mono; [by apply replace_writes|].
  intros [[]|[e| |]] d [Hw Hok]; [split; [exact Hw|exact Hok]| |split; [exact Hw|done]..].
  apply wp_bind, wp_attempt, wp_root_disk.
  assert (keepsD (eq (pointer_path b)) (remove_file_if_exists io (base_path b) (lit "tmp-" ++ hex x))) as Hrm.
  { apply keepsD_remove_if_exists. intros E. unfold pointer_path in E. apply base_child_inj in E as [_ E].
    by apply Hne. }
  specialize (Hrm d (pointer_path b) eq_refl). unfold wp. cbn [rt_disk set_disk].
  destruct (remove_file_if_exists _ _ _ d) as [[[]|[e'| |]] d']; cbn [fst snd] in *; (split; [|done]);
    unfold pointer_holds, root_files, set_disk, raise in *; cbn [rt_disk fst snd] in *; rewrite Hrm; exact Hw.
Qed.

(** *** What a plan may name *)

Record plan_ok (b : str) (plan : NamespacePlan) : Prop := {
  po_base : np_base_token plan = b;
  po_generation : np_generation_token plan ≠ lit "current";
  po_aside : ∀ aside, np_set_aside plan = Some aside → aside ≠ lit "current";
}.

Lemma pointer_ne (b name : str) : name ≠ lit "current" → ¬ is_pointer (base_path b ++ [name]).
Proof. apply not_pointer. Qed.

Lemma apply_base_path (plan : NamespacePlan) : yields (eq (base_path (np_base_token plan))) (apply_base io plan).
Proof.
  unfold apply_base. destruct (np_existing_base plan); [by apply yields_pure|].
  eapply yields_bind_with; [apply yields_on_disk, ensure_directory_path|]. intros base <-.
  do 2 (apply yields_seq; intros _). by apply yields_pure.
Qed.

Lemma keeps_apply_base (plan : NamespacePlan) (K : path → Prop) :
  ¬ K (base_path (np_base_token plan)) → ¬ K (base_path (np_base_token plan) ++ [lit "base.lock"]) →
  keeps K (apply_base io plan).
Proof.
  intros H1 H2. unfold apply_base. destruct (np_existing_base plan); [apply keeps_pure|].
  eapply keeps_bind_with; [apply keepsR_on_disk; by apply keepsD_ensure_directory
    |apply yields_on_disk, ensure_directory_path|]. intros base <-.
  apply keepsR_bind; [apply keepsR_on_disk; by apply keepsD_open_create|intros _]. frame_root.
Qed.

Lemma keeps_metadata (B : path) (encoded : list Z) (new : bool) (K : path → Prop) :
  ¬ K (B ++ [lit "identity"]) →
  keeps K (if new
           then on_disk (_ ⇚ create_private io B (lit "identity");
                         _ ⇚ write_synced io B (lit "identity") encoded;
                         sync io)
           else pure tt).
Proof. intros H. destruct new; [|apply keeps_pure]. apply keepsR_on_disk. unfold sync. frame. Qed.

(** A first half that keeps some paths. *)
Lemma wp_keeps {A B : Type} (K : path → Prop) (P : A → Prop) (m : act Root A) (k : A → act Root B)
    (Q : result Exn B → Root → Prop) (s : Root) :
  keeps K m → yields P m →
  (∀ a s', P a → (rt_draws s ≤ rt_draws s')%nat → (∀ p, K p → root_files s' !! p = root_files s !! p) → wp (k a) Q s') →
  (∀ e s', (∀ p, K p → root_files s' !! p = root_files s !! p) → Q (Err e) s') →
  wp (abind m k) Q s.
Proof.
  intros Hm Hy Hk He. apply wp_bind. destruct (Hm s) as [Hd Hf]. unfold wp.
  destruct (m s) as [[a|e] s'] eqn:E; cbn [fst snd] in *; [|by apply He]. apply Hk; [by eapply Hy|done|done].
Qed.

(** What became of the pointer of a namespace. *)
Inductive pointer_moves (b : str) (plan : NamespacePlan) (fs fs' : gmap path Node) : Prop :=
| pointer_stays : fs' !! pointer_path b = fs !! pointer_path b → pointer_moves b plan fs fs'
| pointer_goes : fs' !! pointer_path b = None → pointer_moves b plan fs fs'
| pointer_comes pointer :
    np_authority_pointer plan = Some pointer → pointer_holds b pointer fs' → pointer_moves b plan fs fs'.

(** What a plan that worked did to it. *)
Definition pointer_done (b : str) (plan : NamespacePlan) (fs fs' : gmap path Node) : Prop :=
  match np_authority_pointer plan with
  | Some pointer => pointer_holds b pointer fs'
  | None =>
      if np_remove_authority_pointer plan then fs' !! pointer_path b = None
      else fs' !! pointer_path b = fs !! pointer_path b
  end.

Definition applied (b : str) (plan : NamespacePlan) (fs : gmap path Node) (r : result Exn unit) (s' : Root) : Prop :=
  pointer_moves b plan fs (root_files s') ∧ (is_ok r = true → pointer_done b plan fs (root_files s')).

Lemma apply_pointer_moves (b : str) (plan : NamespacePlan) (s : Root) :
  wp (apply_pointer io entropy plan (base_path b)) (applied b plan (root_files s)) s.
Proof.
  unfold apply_pointer, applied, pointer_done. destruct (np_authority_pointer plan) as [pointer|] eqn:Ep.
  - eapply wp_mono; [apply replace_pointer|]. intros r s' [[H|H] Hok]; split; try done;
      [by apply pointer_stays|by apply pointer_comes with pointer].
  - destruct (np_remove_authority_pointer plan); [|by split; [apply pointer_stays|]].
    apply wp_root_disk. eapply wp_step; [apply wp_remove_file| |].
    + intros [] d Hd. cbn in Hd. eapply wp_mono; [apply wp_works|].
      intros r d' H.
      assert (root_files (set_disk s d') !! pointer_path b = None) as Hnone.
      { unfold root_files, set_disk. cbn [rt_disk]. destruct r as [[]|[]]; cbn in H; try done; rewrite H, Hd;
          apply lookup_delete_eq. }
      split; [by apply pointer_goes|done].
    + intros [] d Hd; cbn in Hd; try done. split; [|done]. apply pointer_stays. unfold root_files. cbn. by rewrite Hd.
Qed.

(** The pointer after the whole plan, however it ends. *)
Lemma apply_plan_pointer (b : str) (plan : NamespacePlan) (now : Z) (s : Root) :
  plan_ok b plan →
  wp (apply_plan io entropy plan now)
    (fun r s' =>
       pointer_moves b plan (root_files s) (root_files s')
       ∧ match r with
         | Ok namespace =>
             pointer_done b plan (root_files s) (root_files s')
             ∧ nm_generation_token namespace = np_generation_token plan
         | Err _ => True
         end) s.
Proof.
  intros [<- Hg Ha]. set (b := np_base_token plan).
  assert (∀ s1 s2, (∀ p, is_pointer p → root_files s2 !! p = root_files s1 !! p) →
    root_files s2 !! pointer_path b = root_files s1 !! pointer_path b) as Hptr by (intros s1 s2 H; apply H; by exists b).
  assert (∀ name, name ≠ lit "current" → ¬ is_pointer (base_path b ++ [name])) as Hn by (intros; by apply not_pointer).
  assert (∀ (e : Exn) s', (∀ p, is_pointer p → root_files s' !! p = root_files s !! p) →
    pointer_moves b plan (root_files s) (root_files s') ∧ True) as Herr.
  { intros e s' H. split; [|done]. apply pointer_stays. by apply Hptr. }
  unfold apply_plan. eapply (wp_keeps is_pointer).
  { apply keeps_apply_base; [apply not_pointer_base|by apply Hn]. } { apply apply_base_path. } 2: exact Herr.
  intros base s1 <- _ H1. fold b. eapply (wp_keeps is_pointer _).
  { destruct (np_set_aside plan) as [aside|] eqn:Eas; [|apply keeps_pure]. apply keepsR_on_disk.
    apply keepsD_bind; [|intros _; apply keepsD_works]. apply keepsD_rename_to. intros p Hp.
    split; (apply pointer_not_below; [|done]); [done|by apply Ha]. }
  { intros ? ? ? ?. exact I. }
  2: { intros e s' H. apply (Herr e). intros p Hp. by rewrite H, H1. }
  intros [] s2 _ _ H2. eapply (wp_keeps is_pointer (fun _ => True)).
  { apply keepsR_on_disk, keepsD_ensure_generation; [by apply Hn|apply not_pointer_deeper..]. }
  { intros ? ? ? ?. exact I. }
  2: { intros e s' H. apply (Herr e). intros p Hp. by rewrite H, H2, H1. }
  intros [directory data] s3 _ _ H3.
  assert (root_files s3 !! pointer_path b = root_files s !! pointer_path b) as E3.
  { apply Hptr. intros p Hp. by rewrite H3, H2, H1. }
  apply wp_bind. eapply wp_mono; [apply apply_pointer_moves|]. intros [[]|e] s4 [Hm Hd].
  2: { split; [|done]. destruct Hm; [apply pointer_stays; congruence|by apply pointer_goes|by eapply pointer_comes]. }
  specialize (Hd eq_refl).
  assert (pointer_moves b plan (root_files s) (root_files s4)) as Hm4.
  { destruct Hm; [apply pointer_stays; congruence|by apply pointer_goes|by eapply pointer_comes]. }
  assert (pointer_done b plan (root_files s) (root_files s4)) as Hd4.
  { unfold pointer_done in *. destruct (np_authority_pointer plan); [done|].
    destruct (np_remove_authority_pointer plan); congruence. }
  assert (∀ s', (∀ p, is_pointer p → root_files s' !! p = root_files s4 !! p) →
    pointer_moves b plan (root_files s) (root_files s') ∧ pointer_done b plan (root_files s) (root_files s')) as Hfin.
  { intros s' H%Hptr. split.
    - destruct Hm4 as [E|E|p Ep E]; [apply pointer_stays|apply pointer_goes|eapply pointer_comes; [exact Ep|]];
        unfold pointer_holds in *; congruence.
    - unfold pointer_done, pointer_holds in *. rewrite H. done. }
  eapply (wp_keeps is_pointer (fun _ => True)).
  { apply keeps_metadata; by apply Hn. } { intros ? ? ? ?. exact I. } 2: { intros e s' H. by split; [apply Hfin|]. }
  intros [] s5 _ _ H5. eapply (wp_keeps is_pointer (fun _ => True)).
  { apply keeps_touch_marker. by apply Hn. } { intros ? ? ? ?. exact I. }
  2: { intros e s' H. split; [|done]. apply Hfin. intros p Hp. by rewrite H, H5. }
  intros [] s6 _ _ H6. apply wp_pure.
  destruct (Hfin s6) as [? ?]; [intros p Hp; by rewrite H6, H5|]. done.
Qed.

(** A plan touches nothing outside its namespace. *)
Lemma keeps_outside_replace (b target : str) (bytes : list Z) :
  keeps (outside b) (replace_private io entropy (base_path b) target bytes).
Proof.
  unfold replace_private. apply keepsR_bind; [apply keepsR_of_result|intros _].
  apply keepsR_bind; [apply keeps_unique_name|intros temporary].
  assert (∀ name, ¬ outside b (base_path b ++ [name])) as Hn by (intros; apply below_base_child).
  apply keepsR_bind.
  - apply keepsR_attempt, keepsR_on_disk. apply keepsD_bind; [by apply keepsD_create_private|intros _].
    apply keepsD_bind; [by apply keepsD_write_synced|intros _].
    apply keepsD_bind; [|intros _; apply keepsD_works]. apply keepsD_rename_to. intros p Hp.
    split; by apply outside_not_below.
  - intros [[]|e]; [apply keeps_pure|]. apply keepsR_bind; [|intros _; apply keeps_raise].
    apply keepsR_attempt, keepsR_on_disk. by apply keepsD_remove_if_exists.
Qed.

Lemma keeps_outside_apply (plan : NamespacePlan) (now : Z) :
  keeps (outside (np_base_token plan)) (apply_plan io entropy plan now).
Proof.
  set (b := np_base_token plan).
  assert (∀ name, ¬ outside b (base_path b ++ [name])) as Hn by (intros; apply below_base_child).
  unfold apply_plan. eapply keeps_bind_with; [apply keeps_apply_base; [apply not_outside_base|apply Hn]
    |apply apply_base_path|]. intros base <-. fold b. apply keepsR_bind.
  { destruct (np_set_aside plan) as [aside|]; [|apply keeps_pure]. apply keepsR_on_disk.
    apply keepsD_bind; [|intros _; apply keepsD_works]. apply keepsD_rename_to. intros p Hp.
    split; by apply outside_not_below. }
  intros _. apply keepsR_bind.
  { apply keepsR_on_disk, keepsD_ensure_generation; apply below_base_child. }
  intros [directory data]. apply keepsR_bind.
  { unfold apply_pointer. destruct (np_authority_pointer plan); [apply keeps_outside_replace|].
    destruct (np_remove_authority_pointer plan); [|apply keeps_pure]. apply keepsR_on_disk.
    apply keepsD_bind; [by apply keepsD_remove_file|intros _; apply keepsD_works]. }
  intros _. apply keepsR_bind; [by apply keeps_metadata|intros _].
  apply keepsR_bind; [by apply keeps_touch_marker|intros _; apply keeps_pure].
Qed.

(** A plan that sets nothing aside leaves all data. *)
Lemma keeps_data_replace (b : str) (bytes : list Z) :
  keeps (data_of b) (replace_private io entropy (base_path b) (lit "current") bytes).
Proof.
  unfold replace_private. apply keepsR_bind; [apply keepsR_of_result|intros _].
  assert (∀ name, ¬ data_of b (base_path b ++ [name])) as Hn by (intros name; apply not_data_shallow; cbn; lia).
  apply (keeps_bind_with (fun name => ∃ bytes, name = lit "tmp-" ++ hex bytes)); [apply keeps_unique_name| |].
  { intros s name s' E. pose proof (unique_name_is io entropy (base_path b) 16 s) as H. unfold wp in H. by rewrite E in H. }
  intros temporary [x ->]. apply keepsR_bind.
  - apply keepsR_attempt, keepsR_on_disk. apply keepsD_bind; [by apply keepsD_create_private|intros _].
    apply keepsD_bind; [by apply keepsD_write_synced|intros _].
    apply keepsD_bind; [|intros _; apply keepsD_works]. apply keepsD_rename_to. intros p Hp.
    split; (apply data_not_below; [done|]); intros l; apply hex_ne; done.
  - intros [[]|e]; [apply keeps_pure|]. apply keepsR_bind; [|intros _; apply keeps_raise].
    apply keepsR_attempt, keepsR_on_disk. by apply keepsD_remove_if_exists.
Qed.

Lemma keeps_data_apply (plan : NamespacePlan) (now : Z) :
  np_set_aside plan = None → keeps (data_of (np_base_token plan)) (apply_plan io entropy plan now).
Proof.
  intros Ha. set (b := np_base_token plan).
  assert (∀ name, ¬ data_of b (base_path b ++ [name])) as Hn by (intros name; apply not_data_shallow; cbn; lia).
  unfold apply_plan. eapply keeps_bind_with; [apply keeps_apply_base; apply not_data_shallow; cbn; lia|apply apply_base_path|].
  intros base <-. fold b. rewrite Ha. apply keepsR_bind; [apply keeps_pure|intros _]. apply keepsR_bind.
  { apply keepsR_on_disk, keepsD_ensure_generation; apply not_data_shallow; cbn; lia. }
  intros [directory data]. apply keepsR_bind.
  { unfold apply_pointer. destruct (np_authority_pointer plan); [apply keeps_data_replace|].
    destruct (np_remove_authority_pointer plan); [|apply keeps_pure]. apply keepsR_on_disk.
    apply keepsD_bind; [by apply keepsD_remove_file|intros _; apply keepsD_works]. }
  intros _. apply keepsR_bind; [by apply keeps_metadata|intros _].
  apply keepsR_bind; [by apply keeps_touch_marker|intros _; apply keeps_pure].
Qed.

(** ** The choice *)

Definition authority_of := authority_token sha256.
Definition generation_of := generation_token sha256.

(** Whom a comparison stands for: nobody in particular when continuity is
    relaxed, else an authority under one of the two schemes. *)
Definition regime (c : Comparison) : option (PointerScheme * str) :=
  match c with
  | Provider Relaxed _ | Memory Memory_Relaxed => None
  | Provider Paranoid surface => Some (V1, authority_of surface)
  | Memory (Memory_Paranoid surface _ _) => Some (V2, authority_of surface)
  end.

(** The pointer of a namespace, decoded. *)
Definition pointer_doc (b : str) (fs : gmap path Node) : option (PointerScheme * PointerDocument) :=
  n ← fs !! pointer_path b;
  document ← pointer_from_slice codec (nd_bytes n);
  scheme ← scheme_of (pd_api_version document);
  Some (scheme, document).

(** What a selection may be, for the files and the draws it was made with. *)
Inductive chosen (b : str) (fs : gmap path Node) (lo hi : nat) (c : Comparison) (sel : Selection) : Prop :=
| chosen_relaxed :
    regime c = None → sl_generation_token sel = generation_of b (lit "stable") → sl_authority_pointer sel = None →
    chosen b fs lo hi c sel
| chosen_minted k x scheme authority :
    (lo ≤ k < hi)%nat → entropy k 32 = Some x → regime c = Some (scheme, authority) →
    sl_generation_token sel = generation_of b (hex x) →
    sl_authority_pointer sel = Some (encode_pointer codec scheme authority (hex x)) →
    chosen b fs lo hi c sel
| chosen_reused scheme document :
    pointer_doc b fs = Some (scheme, document) → regime c = Some (scheme, pd_authority document) →
    sl_generation_token sel = generation_of b (pd_epoch document) → sl_authority_pointer sel = None →
    sl_removed_pointer_length sel = None →
    chosen b fs lo hi c sel
| chosen_migrated document surface candidates on_unproven :
    pointer_doc b fs = Some (V1, document) →
    c = Memory (Memory_Paranoid surface (Candidates candidates) on_unproven) →
    pd_authority document ∈ authority_of <$> candidates →
    sl_generation_token sel = generation_of b (pd_epoch document) →
    sl_authority_pointer sel = Some (encode_pointer codec V2 (authority_of surface) (pd_epoch document)) →
    chosen b fs lo hi c sel.

Lemma read_pointer_doc (b : str) (d : Disk) :
  wp (read_pointer io codec (base_path b))
    (fun r _ => match r with
                | Ok (Some p) => pointer_doc b (dk_files d) = Some p
                | Ok None => dk_files d !! pointer_path b = None
                | Err _ => True
                end) d.
Proof.
  unfold read_pointer. eapply wp_step.
  { unfold exists_. eapply wp_step; [apply wp_metadata| |].
    - intros m d' [Hfs Hm]. apply wp_pure. instantiate (1 := fun r d' => match r with
        | Ok there => dk_files d' = dk_files d ∧ there = bool_decide (is_Some (dk_files d !! pointer_path b))
        | Err _ => True end). cbn. split; [done|]. rewrite Hm, Hfs. unfold pointer_path.
      apply bool_decide_ext. by rewrite fmap_is_Some.
    - done. }
  2: done.
  intros there d1 [Hd1 ->]. destruct (bool_decide _) eqn:Eb; cbn [negb].
  2: { apply bool_decide_eq_false, eq_None_not_Some in Eb. by apply wp_pure. }
  eapply wp_step; [by apply wp_read_bounded| |done]. intros content d2 (Hd2 & _ & n & Hn & _ & ->).
  apply wp_bind, wp_of_option; [|done]. intros document Edoc.
  destruct (scheme_of (pd_api_version document)) as [scheme|] eqn:Es; [|done].
  destruct (_ && _); [|done]. apply wp_pure. unfold pointer_doc. rewrite <- Hd1, <- Hd2.
  unfold pointer_path. rewrite Hn. cbn. rewrite Edoc. cbn. by rewrite Es.
Qed.

Section Choice.
Context (depth : nat) (base : option path) (b : str) (maximum : Z).

Lemma mint_is (scheme : PointerScheme) (authority : str) (continuity : option ContinuityOutcome) (s : Root) :
  wp (mint_epoch io listing sha256 codec entropy depth base b maximum scheme authority continuity)
    (fun r s' =>
       match r with
       | Ok sel =>
           ∃ x, entropy (rt_draws s) 32 = Some x ∧ (rt_draws s < rt_draws s')%nat
             ∧ sl_generation_token sel = generation_of b (hex x)
             ∧ sl_authority_pointer sel = Some (encode_pointer codec scheme authority (hex x))
       | Err _ => True
       end) s.
Proof.
  unfold mint_epoch. apply wp_bind. unfold wp at 1, random_bytes. cbn [fst snd].
  destruct (entropy (rt_draws s) 32) as [x|] eqn:E; [|done].
  eapply (wp_keeps (fun _ => True) (fun _ => True)); [destruct base; frame_root|by intros ? ? ? ?| |done].
  intros retained s' _ Hd _. apply wp_pure. exists x. cbn in *. split_and!; try done; lia.
Qed.

Lemma reuse_is (B : path) (epoch : str) (pointer : option (list Z)) (continuity : option ContinuityOutcome) :
  yields (fun sel => sl_generation_token sel = generation_of b epoch ∧ sl_authority_pointer sel = pointer
                     ∧ sl_removed_pointer_length sel = None)
    (reuse_epoch io listing sha256 depth b maximum B epoch pointer continuity).
Proof. unfold reuse_epoch. do 2 (apply yields_seq; intros ?). by apply yields_pure. Qed.

Lemma relaxed_is (pointer_length : option Z) (aside : bool) :
  yields (fun sel => sl_generation_token sel = generation_of b (lit "stable") ∧ sl_authority_pointer sel = None
                     ∧ sl_removed_pointer_length sel = pointer_length)
    (select_relaxed io listing sha256 entropy depth base b maximum pointer_length aside).
Proof. unfold select_relaxed. do 2 (apply yields_seq; intros ?). by apply yields_pure. Qed.

Hypothesis base_here : ∀ B, base = Some B → B = base_path b.

Lemma previous_is (reset : bool) (s : Root) :
  wp (previous_pointer io codec base reset)
    (fun r s' =>
       root_files s' = root_files s ∧ (rt_draws s ≤ rt_draws s')%nat
       ∧ match r with
         | Ok (Some (B, scheme, document)) =>
             reset = false ∧ B = base_path b ∧ pointer_doc b (root_files s) = Some (scheme, document)
         | Ok None => reset = false → is_Some base → root_files s !! pointer_path b = None
         | Err _ => True
         end) s.
Proof.
  assert (keeps (fun _ => True) (previous_pointer io codec base reset)) as Hk by (unfold previous_pointer; frame_root).
  pose proof (keeps_files _ s Hk) as Hf. destruct (Hk s) as [Hd _]. unfold wp. split; [exact Hf|]. split; [exact Hd|].
  unfold previous_pointer in *. destruct base as [B|] eqn:EB; [|by intros _ []]. destruct reset; [done|].
  rewrite (base_here B) in * by done. unfold abind, on_disk.
  pose proof (read_pointer_doc b (rt_disk s)) as Hr. unfold wp in Hr.
  destruct (read_pointer io codec (base_path b) (rt_disk s)) as [[[[scheme document]|]|e] d]; cbn in *; done.
Qed.

Lemma minted_chosen (fs : gmap path Node) (lo : nat) (c : Comparison) scheme authority continuity (s : Root) :
  (lo ≤ rt_draws s)%nat → regime c = Some (scheme, authority) →
  wp (mint_epoch io listing sha256 codec entropy depth base b maximum scheme authority continuity)
    (fun r s' => match r with Ok sel => chosen b fs lo (rt_draws s') c sel | Err _ => True end) s.
Proof.
  intros Hlo Hr. eapply wp_mono; [apply mint_is|]. intros [sel|e] s'; [|done]. intros (x & E & Hd & Hg & Hp).
  by apply (chosen_minted _ _ _ _ _ _ (rt_draws s) x scheme authority).
Qed.

Lemma yields_wp {A : Type} (P : A → Prop) (m : act Root A) (Q : A → Root → Prop) (s : Root) :
  yields P m → (∀ a s', P a → Q a s') → wp m (fun r s' => match r with Ok a => Q a s' | Err _ => True end) s.
Proof. intros H HQ. unfold wp. destruct (m s) as [[a|e] s'] eqn:E; [|done]. apply HQ. by eapply H. Qed.

Lemma select_chosen (c : Comparison) (pointer_length : option Z) (reset : bool) (s : Root) :
  wp (select_generation io listing sha256 codec entropy depth base b maximum c pointer_length reset)
    (fun r s' => match r with
                 | Ok sel => chosen b (root_files s) (rt_draws s) (rt_draws s') c sel
                 | Err _ => True
                 end) s.
Proof.
  unfold select_generation. destruct c as [[] surface|[|surface legacy on_unproven]].
  - eapply yields_wp; [apply relaxed_is|]. intros sel s' (? & ? & _). by apply chosen_relaxed.
  - eapply wp_step; [apply previous_is| |done]. intros [[[B scheme] document]|] s1 (Hf & Hd & Hp).
    + destruct Hp as (_ & -> & Hp). destruct scheme; [|done].
      destruct (str_eqb _ _) eqn:E; [|by apply minted_chosen]. apply str_eqb_eq in E.
      eapply yields_wp; [apply reuse_is|]. intros sel s' (? & ? & ?). eapply chosen_reused; [exact Hp| |done..].
      cbn. unfold authority_of. by rewrite E.
    + by apply minted_chosen.
  - eapply yields_wp; [apply relaxed_is|]. intros sel s' (? & ? & _). by apply chosen_relaxed.
  - eapply wp_step; [apply previous_is| |done]. intros [[[B scheme] document]|] s1 (Hf & Hd & Hp).
    + destruct Hp as (_ & -> & Hp). destruct scheme.
      * destruct (legacy_proved _ _ _) as [[]|check] eqn:El.
        -- unfold legacy_proved in El. destruct legacy as [|candidates]; [done|]. destruct (existsb _ _) eqn:Ex; [|done].
           apply existsb_exists in Ex as (k & Hk & E%str_eqb_eq).
           assert (pd_authority document ∈ authority_of <$> candidates) as Hin.
           { apply list_elem_of_fmap. exists k. split; [by unfold authority_of|by apply list_elem_of_In]. }
           eapply yields_wp; [apply reuse_is|]. intros sel s' (? & ? & ?). by eapply chosen_migrated.
        -- destruct on_unproven; [done|]. by apply minted_chosen.
      * destruct (str_eqb _ _) eqn:E; [|by apply minted_chosen]. apply str_eqb_eq in E.
        eapply yields_wp; [apply reuse_is|]. intros sel s' (? & ? & ?). eapply chosen_reused; [exact Hp| |done..].
        cbn. unfold authority_of. by rewrite E.
    + by apply minted_chosen.
Qed.

(** An authority whose pointer is there is given the generation it names. *)
Definition finds_back (c : Comparison) (fs : gmap path Node) (sel : Selection) : Prop :=
  ∀ scheme document, is_Some (fs !! base_path b) → pointer_doc b fs = Some (scheme, document) →
    regime c = Some (scheme, pd_authority document) → sl_generation_token sel = generation_of b (pd_epoch document).

Lemma select_back (c : Comparison) (pointer_length : option Z) (s : Root) :
  (is_Some (root_files s !! base_path b) → is_Some base) →
  wp (select_generation io listing sha256 codec entropy depth base b maximum c pointer_length false)
    (fun r _ => match r with Ok sel => finds_back c (root_files s) sel | Err _ => True end) s.
Proof.
  intros Hthere. unfold finds_back, select_generation.
  assert (∀ m : act Root Selection, regime c = None →
    wp m (fun r _ => match r with Ok sel => ∀ scheme document, is_Some (root_files s !! base_path b) →
      pointer_doc b (root_files s) = Some (scheme, document) → regime c = Some (scheme, pd_authority document) →
      sl_generation_token sel = generation_of b (pd_epoch document) | Err _ => True end) s) as Hrel.
  { intros m Hc. unfold wp. destruct (m s) as [[sel|] ?]; [|done]. intros ? ? _ _. by rewrite Hc. }
  assert (∀ own authority (k : option (path * PointerScheme * PointerDocument) → act Root Selection),
    regime c = Some (own, authority) →
    (∀ B document, pd_authority document = authority →
       k (Some (B, own, document)) = reuse_epoch io listing sha256 depth b maximum B (pd_epoch document) None None) →
    wp (previous ⇚ previous_pointer io codec base false; k previous)
      (fun r _ => match r with Ok sel => ∀ scheme document, is_Some (root_files s !! base_path b) →
        pointer_doc b (root_files s) = Some (scheme, document) → regime c = Some (scheme, pd_authority document) →
        sl_generation_token sel = generation_of b (pd_epoch document) | Err _ => True end) s) as Hpar.
  { intros own authority k Hr Hk. eapply wp_step; [apply previous_is| |done]. intros previous s1 (_ & _ & Hp).
    unfold wp. destruct (k previous s1) as [[sel|] s2] eqn:E; [|done]. cbn. intros scheme document Hb Hd Hc.
    rewrite Hr in Hc. injection Hc as -> ->. destruct previous as [[[B scheme'] document']|].
    - destruct Hp as (_ & -> & Hp). rewrite Hp in Hd. injection Hd as -> ->. rewrite Hk in E by done.
      by apply reuse_is in E as (? & _).
    - unfold pointer_doc in Hd. by rewrite (Hp eq_refl (Hthere Hb)) in Hd. }
  destruct c as [[] surface|[|surface legacy on_unproven]]; [by apply Hrel| |by apply Hrel|].
  - apply (Hpar V1 (authority_of surface)); [done|]. intros B document ->. unfold authority_of. by rewrite (proj2 (str_eqb_eq _ _) eq_refl).
  - apply (Hpar V2 (authority_of surface)); [done|]. intros B document ->. unfold authority_of. by rewrite (proj2 (str_eqb_eq _ _) eq_refl).
Qed.
End Choice.

(** ** A whole grant *)

Lemma hex_not_current (l : list Z) : hex l ≠ lit "current".
Proof. by apply hex_ne. Qed.

Lemma select_aside (depth : nat) (base : option path) (b : str) (maximum : Z) (c : Comparison)
    (pointer_length : option Z) (reset : bool) :
  yields (fun sel => ∀ aside, sl_set_aside sel = Some aside → aside ≠ lit "current")
    (select_generation io listing sha256 codec entropy depth base b maximum c pointer_length reset).
Proof.
  assert (∀ len aside, yields (fun sel => ∀ aside, sl_set_aside sel = Some aside → aside ≠ lit "current")
    (select_relaxed io listing sha256 entropy depth base b maximum len aside)) as Hr.
  { intros len aside. unfold select_relaxed.
    apply (yields_bind_with (fun o => ∀ a, o = Some a → a ≠ lit "current")).
    - destruct base as [B|]; [|by apply yields_pure]. destruct aside; [|by apply yields_pure].
      apply yields_seq. intros []; [|by apply yields_pure]. apply yields_seq. intros drawn. apply yields_pure.
      intros a [= <-]. apply hex_not_current.
    - intros o Ho. apply yields_seq. intros retained. by apply yields_pure. }
  assert (∀ scheme authority continuity,
    yields (fun sel => ∀ aside, sl_set_aside sel = Some aside → aside ≠ lit "current")
      (mint_epoch io listing sha256 codec entropy depth base b maximum scheme authority continuity)) as Hm.
  { intros. unfold mint_epoch. do 2 (apply yields_seq; intros ?). by apply yields_pure. }
  assert (∀ B epoch pointer continuity,
    yields (fun sel => ∀ aside, sl_set_aside sel = Some aside → aside ≠ lit "current")
      (reuse_epoch io listing sha256 depth b maximum B epoch pointer continuity)) as Hu.
  { intros. unfold reuse_epoch. do 2 (apply yields_seq; intros ?). by apply yields_pure. }
  unfold select_generation. destruct c as [[] surface|[|surface legacy on_unproven]]; [apply Hr| |apply Hr|];
    apply yields_seq; intros [[[B []] document]|]; auto using yields_raise; try (destruct (str_eqb _ _); auto).
  destruct (legacy_proved _ _ _); [auto|]. destruct on_unproven; [apply yields_raise|auto].
Qed.

Lemma select_keeps_aside (depth : nat) (base : option path) (b : str) (maximum : Z) (c : Comparison)
    (pointer_length : option Z) (reset : bool) :
  regime c ≠ None →
  yields (fun sel => sl_set_aside sel = None)
    (select_generation io listing sha256 codec entropy depth base b maximum c pointer_length reset).
Proof.
  intros Hc. assert (∀ scheme authority continuity, yields (fun sel => sl_set_aside sel = None)
      (mint_epoch io listing sha256 codec entropy depth base b maximum scheme authority continuity)) as Hm.
  { intros. unfold mint_epoch. do 2 (apply yields_seq; intros ?). by apply yields_pure. }
  assert (∀ B epoch pointer continuity, yields (fun sel => sl_set_aside sel = None)
      (reuse_epoch io listing sha256 depth b maximum B epoch pointer continuity)) as Hu.
  { intros. unfold reuse_epoch. do 2 (apply yields_seq; intros ?). by apply yields_pure. }
  unfold select_generation. destruct c as [[] surface|[|surface legacy on_unproven]]; [done| |done|];
    apply yields_seq; intros [[[B []] document]|]; auto using yields_raise; try (destruct (str_eqb _ _); auto).
  destruct (legacy_proved _ _ _); [auto|]. destruct on_unproven; [apply yields_raise|auto].
Qed.

(** The plan is made of a choice. *)
Record planned (b : str) (c : Comparison) (s : Root) (hi : nat) (plan : NamespacePlan) (sel : Selection) : Prop := {
  pl_ok : plan_ok b plan;
  pl_chosen : chosen b (root_files s) (rt_draws s) hi c sel;
  pl_generation : np_generation_token plan = sl_generation_token sel;
  pl_pointer : np_authority_pointer plan = sl_authority_pointer sel;
  pl_remove : np_remove_authority_pointer plan = bool_decide (is_Some (sl_removed_pointer_length sel));
  pl_aside : regime c ≠ None → np_set_aside plan = None;
  pl_back : np_reset plan = None → finds_back b c (root_files s) sel;
}.

Lemma chosen_generation (b : str) (fs : gmap path Node) (lo hi : nat) (c : Comparison) (sel : Selection) :
  chosen b fs lo hi c sel → ∃ epoch, sl_generation_token sel = generation_of b epoch.
Proof. intros []; eauto. Qed.

Lemma chosen_mono (b : str) (fs : gmap path Node) (lo lo' hi hi' : nat) (c : Comparison) (sel : Selection) :
  chosen b fs lo hi c sel → (lo' ≤ lo)%nat → (hi ≤ hi')%nat → chosen b fs lo' hi' c sel.
Proof.
  intros [] ? ?; [by apply chosen_relaxed| |by eapply chosen_reused|by eapply chosen_migrated].
  eapply (chosen_minted _ _ _ _ _ _ k); try done. lia.
Qed.

Definition base_of (request : StorageGrantRequest) : str := token sha256 DOMAIN_NAMESPACE_PATH (scope_values request).

Lemma open_base_path (depth : nat) (b : str) (maximum : Z) :
  yields (fun '(base, _, _) => ∀ B, base = Some B → B = base_path b) (open_base io listing depth b maximum).
Proof.
  unfold open_base. apply yields_seq. intros []; cbn [negb]; [|by apply yields_pure].
  eapply yields_bind_with; [apply yields_on_disk, open_directory_path|]. intros base <-.
  do 3 (apply yields_seq; intros ?). destruct (negb _); [apply yields_raise|].
  do 3 (apply yields_seq; intros ?). apply yields_pure. by intros B [= <-].
Qed.

(** A selection, and whether it was made for a reset. *)
Record selected (b : str) (c : Comparison) (s : Root) (hi : nat) (reset : bool) (sel : Selection) : Prop := {
  se_chosen : chosen b (root_files s) (rt_draws s) hi c sel;
  se_aside aside : sl_set_aside sel = Some aside → aside ≠ lit "current";
  se_regime : regime c ≠ None → sl_set_aside sel = None;
  se_back : reset = false → finds_back b c (root_files s) sel;
}.

Lemma select_all (depth : nat) (base : option path) (b : str) (maximum : Z)
    (base_here : ∀ B, base = Some B → B = base_path b) (c : Comparison) (plen : option Z) (reset : bool) (s s3 : Root) :
  (is_Some (root_files s !! base_path b) → is_Some base) →
  root_files s3 = root_files s → (rt_draws s ≤ rt_draws s3)%nat →
  wp (select_generation io listing sha256 codec entropy depth base b maximum c plen reset)
    (fun r s' => match r with
                 | Ok sel => selected b c s (rt_draws s') reset sel
                 | Err _ => root_files s' = root_files s ∧ (rt_draws s ≤ rt_draws s')%nat
                 end) s3.
Proof.
  intros Hthere Ef Hd. pose proof (select_chosen depth base b maximum base_here c plen reset s3) as Hc.
  pose proof (select_aside depth base b maximum c plen reset s3) as Ha.
  pose proof (fun H => select_keeps_aside depth base b maximum c plen reset H s3) as Hr.
  pose proof (select_back depth base b maximum base_here c plen s3) as Hb. rewrite Ef in Hb. specialize (Hb Hthere).
  pose proof (keeps_select (K := fun _ => True) io listing sha256 codec entropy depth base b maximum c plen reset) as Hk.
  pose proof (keeps_files _ s3 Hk) as Hf. destruct (Hk s3) as [Hd3 _]. unfold wp in *.
  destruct (select_generation _ _ _ _ _ _ _ _ _ _ _ reset s3) as [[sel|e] s4] eqn:E; cbn [fst snd] in *.
  - rewrite Ef in Hc. split; [by apply (chosen_mono _ _ (rt_draws s3) _ (rt_draws s4))|by eapply Ha|intros H; by eapply Hr|].
    intros ->. by rewrite E in Hb.
  - split; [congruence|lia].
Qed.

Lemma open_base_there (depth : nat) (b : str) (maximum : Z) (s : Root) :
  wp (open_base io listing depth b maximum)
    (fun r _ => match r with
                | Ok (base, _, _) => is_Some (root_files s !! base_path b) → is_Some base
                | Err _ => True
                end) s.
Proof.
  unfold open_base. apply wp_bind, wp_root_disk. unfold exists_. eapply wp_step; [apply wp_metadata| |done].
  intros m d [Hd ->]. apply wp_pure. unfold root_files. rewrite <- Hd. change (NAMESPACES ++ [b]) with (base_path b).
  destruct (bool_decide _) eqn:E; cbn [negb].
  - eapply (yields_wp (fun x : option path * Usage * option Z => is_Some x.1.1)); [|by intros [[base usage] n] s'].
    do 4 (apply yields_seq; intros ?). destruct (negb _); [apply yields_raise|].
    do 3 (apply yields_seq; intros ?). apply yields_pure. by eexists.
  - apply wp_pure. intros H. apply bool_decide_eq_false in E. destruct E. by apply fmap_is_Some.
Qed.

Lemma prepare_planned (depth : nat) (request : StorageGrantRequest) (maximum : Z) (s : Root) :
  wp (prepare io listing sha256 codec entropy depth request maximum)
    (fun r s' => match r with
                 | Ok plan => ∃ sel, planned (base_of request) (rq_comparison request) s (rt_draws s') plan sel
                 | Err _ => True
                 end) s.
Proof.
  unfold prepare. fold (base_of request). set (b := base_of request). set (c := rq_comparison request).
  apply wp_bind. pose proof (keeps_open_base (K := fun _ => True) io listing depth b maximum s) as [Hd1 Hf1].
  pose proof (open_base_path depth b maximum s) as Hbase. pose proof (open_base_there depth b maximum s) as Hthere.
  unfold wp in Hthere. unfold wp at 1. destruct (open_base io listing depth b maximum s) as [[[[base before] plen]|e] s1];
    cbn [fst snd] in *; [|done]. specialize (Hbase _ _ eq_refl). cbn in Hbase.
  destruct (negb _); [done|]. destruct (_ <? _); [done|].
  eapply (wp_keeps (fun _ => True) (fun _ => True)); [apply keeps_check_metadata|by intros ? ? ? ?| |done].
  intros new_metadata s2 _ Hd2 Hf2.
  assert (root_files s2 = root_files s) as Ef2 by (apply map_eq; intros p; by rewrite Hf2, Hf1).
  pose proof (fun reset s3 => select_all depth base b maximum Hbase c plen reset s s3 Hthere) as Hsel.
  apply wp_bind, wp_attempt. eapply wp_mono; [apply (Hsel false s2 Ef2); lia|]. intros r s3 H.
  destruct r as [sel|[e| |]]; [|clear Hf1|done..].
  2: destruct e; try (by apply wp_bind, wp_raise).
  all: apply (wp_step _ _ (fun r s' => match r with
    | Ok (selection, reset) => selected b c s (rt_draws s') (negb (bool_decide (reset = None))) selection
    | Err _ => True end)); [| |done].
  1: by apply wp_pure.
  2: { apply wp_bind. eapply wp_mono; [by apply (Hsel true s3); [apply H|apply H]|]. intros [sel|e] s4 H4; [|done].
       by apply wp_pure. }
  all: intros [selection reset] s4 [Hc Ha Hr Hb]; apply wp_bind, wp_of_result; [|done]; intros [simulation peak] _;
    apply wp_pure; exists selection; split; try done; cbn;
    [split; cbn; [done| |done]; destruct (chosen_generation _ _ _ _ _ _ Hc) as [epoch ->]; apply hex_not_current
    |intros ->; by apply Hb].
Qed.

Lemma wp_on_error {A : Type} (Q : A → Root → Prop) (f : LedgerState → LedgerState) (m : act Root A) (s : Root) :
  wp m (fun r s' => match r with Ok a => Q a s' | Err _ => True end) s →
  wp (on_error f m) (fun r s' => match r with Ok a => Q a s' | Err _ => True end) s.
Proof.
  unfold wp, on_error, abind, attempt. by destruct (m s) as [[a|[e| |]] s'].
Qed.

Lemma reserve_planned (depth : nat) (request : StorageGrantRequest) (base : str) (r : NamespaceReservation) (s : Root) :
  wp (reserve_grant limits io listing sha256 codec entropy depth request base r)
    (fun r s' =>
       root_files s' = root_files s ∧ (rt_draws s ≤ rt_draws s')%nat
       ∧ match r with
         | Ok (plan, _) => ∃ sel, planned (base_of request) (rq_comparison request) s (rt_draws s') plan sel
         | Err _ => True
         end) s.
Proof.
  pose proof (keeps_reserve_grant (K := fun _ => True) limits io listing sha256 codec entropy depth request base r) as Hk.
  pose proof (keeps_files _ s Hk) as Hf. destruct (Hk s) as [Hd _].
  cut (wp (reserve_grant limits io listing sha256 codec entropy depth request base r)
    (fun r s' => match r with
      | Ok x => ∃ sel, planned (base_of request) (rq_comparison request) s (rt_draws s') x.1 sel
      | Err _ => True end) s).
  { intros H. unfold wp in *. split; [done|]. split; [done|]. by destruct (reserve_grant _ _ _ _ _ _ _ _ _ _ s) as [[[]|] ?]. }
  clear Hk Hf Hd. unfold reserve_grant.
  apply (wp_on_error (fun x s' => ∃ sel, planned (base_of request) (rq_comparison request) s (rt_draws s') x.1 sel)).
  eapply wp_step; [apply prepare_planned| |done].
  intros plan s1 [sel Hp]. destruct (_ <? _); [done|].
  eapply (wp_keeps (fun _ => True) (fun _ => True)); [frame_root|by intros ? ? ? ?| |done].
  intros housekeeping s2 _ Hd2 _. eapply (wp_keeps (fun _ => True) (fun _ => True)); [frame_root|by intros ? ? ? ?| |done].
  intros observed s3 _ Hd3 _. eapply (wp_keeps (fun _ => True) (fun _ => True)); [frame_root|by intros ? ? ? ?| |done].
  intros [] s4 _ Hd4 _. apply wp_pure. exists sel. destruct Hp as [Hok Hc Hg Hptr Hrm].
  split; try done. apply (chosen_mono _ _ _ _ _ _ _ _ Hc); lia.
Qed.

(** What a grant may do to the pointers, and what it returns. *)
Record granted (b : str) (c : Comparison) (s : Root) (r : result Exn StorageGrant) (s' : Root) : Prop := {
  gd_draws : (rt_draws s ≤ rt_draws s')%nat;
  gd_outside p : outside b p → root_files s' !! p = root_files s !! p;
  gd_pointer :
    root_files s' !! pointer_path b = root_files s !! pointer_path b
    ∨ root_files s' !! pointer_path b = None
    ∨ ∃ sel pointer, chosen b (root_files s) (rt_draws s) (rt_draws s') c sel
        ∧ sl_authority_pointer sel = Some pointer ∧ pointer_holds b pointer (root_files s');
  gd_data : regime c ≠ None → ∀ p, data_of b p → root_files s' !! p = root_files s !! p;
  gd_there : is_ok r = true → is_Some (root_files s' !! base_path b);
  gd_ok g : r = Ok g →
    nm_base_token (sg_namespace g) = b
    ∧ ∃ sel, finds_back b c (root_files s) sel ∧ chosen b (root_files s) (rt_draws s) (rt_draws s') c sel
        ∧ nm_generation_token (sg_namespace g) = sl_generation_token sel
        ∧ match sl_authority_pointer sel with
          | Some pointer => pointer_holds b pointer (root_files s')
          | None =>
              if bool_decide (is_Some (sl_removed_pointer_length sel)) then root_files s' !! pointer_path b = None
              else root_files s' !! pointer_path b = root_files s !! pointer_path b
          end;
}.

Lemma granted_unchanged (b : str) (c : Comparison) (s : Root) (e : Exn) (s' : Root) :
  root_files s' = root_files s → (rt_draws s ≤ rt_draws s')%nat → granted b c s (Err e) s'.
Proof. intros Hf Hd. split; try done; rewrite Hf; [done|by left|done]. Qed.

Lemma apply_plan_base (plan : NamespacePlan) (now : Z) :
  yields (fun n => nm_base_token n = np_base_token plan) (apply_plan io entropy plan now).
Proof.
  unfold apply_plan. do 2 (apply yields_seq; intros ?). apply yields_seq. intros [directory data].
  do 3 (apply yields_seq; intros ?). by apply yields_pure.
Qed.

(** Everything after the plan was applied leaves the files. *)
Lemma granted_after {A : Type} (b : str) (c : Comparison) (s s1 : Root) (m : act Root A)
    (k : A → act Root StorageGrant) :
  keeps (fun _ => True) m →
  (∀ a s2, root_files s2 = root_files s1 → (rt_draws s1 ≤ rt_draws s2)%nat → wp (k a) (granted b c s) s2) →
  (∀ e s2, root_files s2 = root_files s1 → (rt_draws s1 ≤ rt_draws s2)%nat → granted b c s (Err e) s2) →
  wp (abind m k) (granted b c s) s1.
Proof.
  intros Hm Hk He. apply wp_bind. pose proof (keeps_files _ s1 Hm) as Hf. destruct (Hm s1) as [Hd _]. unfold wp at 1.
  destruct (m s1) as [[a|e] s2]; cbn [fst snd] in *; [by apply Hk|by apply He].
Qed.

(** An operation that only fails. *)
Lemma granted_fails (b : str) (c : Comparison) (s s1 : Root) (m : act Root StorageGrant) :
  keeps (fun _ => True) m → yields (fun _ => False) m →
  (∀ e s2, root_files s2 = root_files s1 → (rt_draws s1 ≤ rt_draws s2)%nat → granted b c s (Err e) s2) →
  wp m (granted b c s) s1.
Proof.
  intros Hm Hy He. pose proof (keeps_files _ s1 Hm) as Hf. destruct (Hm s1) as [Hd _]. unfold wp.
  destruct (m s1) as [[a|e] s2] eqn:E; cbn [fst snd] in *; [by destruct (Hy _ _ _ E)|by apply He].
Qed.

Lemma keep_slot_fails {A : Type} (r : NamespaceReservation) (h : option RootReservation) (e : StorageHostError) :
  yields (fun _ => False) (keep_slot (A := A) r h e).
Proof. unfold keep_slot. do 2 (apply yields_seq; intros _). apply yields_raise. Qed.

Lemma scan_base_there (depth : nat) (b : str) (s : Root) :
  wp (scan_base limits io listing depth b)
    (fun r _ => is_ok r = true → is_Some (root_files s !! base_path b)) s.
Proof.
  unfold scan_base. apply wp_bind, wp_root_disk. unfold open_directory. apply wp_bind, wp_of_result; [intros _ _|done].
  eapply wp_step; [apply wp_works| |done]. intros [] d Hd. cbn in Hd. apply wp_bind, wp_reads.
  assert (dk_files d !! (NAMESPACES ++ [b]) = root_files s !! base_path b) as -> by (by rewrite Hd).
  destruct (root_files s !! base_path b) as [n|]; [|done]. unfold wp. case_match; intros _; by eexists.
Qed.

Lemma materialize_granted (depth : nat) (now : Z) (request : StorageGrantRequest) (s : Root) :
  wp (materialize_grant limits io listing sha256 codec entropy depth now request (base_of request))
    (granted (base_of request) (rq_comparison request) s) s.
Proof.
  set (b := base_of request). set (c := rq_comparison request). unfold materialize_grant.
  apply granted_after; [frame_root| |intros; by apply granted_unchanged]. intros observed s1 Hf1 Hd1.
  apply granted_after; [frame_root| |intros; apply granted_unchanged; [congruence|lia]]. intros reservation s2 Hf2 Hd2.
  eapply wp_step; [apply reserve_planned| |].
  2: { intros e s3 (Hf3 & Hd3 & _). apply granted_unchanged; [congruence|lia]. }
  fold b c. intros [plan housekeeping] s3 (Hf3 & Hd3 & sel & [Hok Hc Hg Hptr Hrm Has Hback]).
  assert (root_files s2 = root_files s) as Ef2 by congruence. rewrite Ef2 in Hc, Hback.
  apply wp_bind, wp_attempt. pose proof (keeps_outside_apply plan now s3) as [Hd4 Ho4].
  pose proof (fun H => proj2 (keeps_data_apply plan now H s3)) as Hdata.
  rewrite (po_base _ _ Hok) in Ho4, Hdata. pose proof (apply_plan_pointer b plan now s3 Hok) as Hp4. unfold wp in Hp4 |- *.
  pose proof (apply_plan_base plan now s3) as Hbase. rewrite (po_base _ _ Hok) in Hbase.
  destruct (apply_plan io entropy plan now s3) as [r s4]. cbn [fst snd] in *. destruct Hp4 as [Hmv Hdone].
  assert (root_files s3 = root_files s) as Ef3 by congruence. rewrite Ef3 in *.
  assert (∀ s5, root_files s5 = root_files s4 → (rt_draws s4 ≤ rt_draws s5)%nat →
    ∀ r', (is_ok r' = true → is_Some (root_files s5 !! base_path b)) → (∀ g, r' = Ok g → nm_base_token (sg_namespace g) = b
      ∧ ∃ sel, finds_back b c (root_files s) sel ∧ chosen b (root_files s) (rt_draws s) (rt_draws s5) c sel
        ∧ nm_generation_token (sg_namespace g) = sl_generation_token sel
        ∧ match sl_authority_pointer sel with
          | Some pointer => pointer_holds b pointer (root_files s5)
          | None =>
              if bool_decide (is_Some (sl_removed_pointer_length sel)) then root_files s5 !! pointer_path b = None
              else root_files s5 !! pointer_path b = root_files s !! pointer_path b
          end) → granted b c s r' s5) as Hfin.
  { intros s5 Ef5 Hd5 r' Hth Hg'. split; [lia| | | |exact Hth|exact Hg'].
    - intros p Hp. rewrite Ef5. by apply Ho4.
    - rewrite Ef5. destruct Hmv as [E|E|pointer Ep E]; [by left|by right; left|]. right. right.
      exists sel, pointer. split_and!; [|congruence|done]. apply (chosen_mono _ _ _ _ _ _ _ _ Hc); lia.
    - intros Hr p Hp. rewrite Ef5. by apply (Hdata (Has Hr)). }
  assert (∀ e s5, root_files s5 = root_files s4 → (rt_draws s4 ≤ rt_draws s5)%nat → granted b c s (Err e) s5) as Herr.
  { intros e s5 ? ?. by apply Hfin. }
  destruct r as [namespace|[e| |]]; [| |by apply Herr..].
  2: { apply granted_fails; [frame_root| |exact Herr]. apply yields_seq. intros there.
       destruct (match there with Ok b => b | Err _ => true end); [apply keep_slot_fails|].
       do 2 (apply yields_seq; intros _). apply yields_raise. }
  pose proof (scan_base_there depth b s4) as Hscan. apply wp_bind, wp_attempt.
  assert (keeps (fun _ => True) (scan_base limits io listing depth b)) as Hk5 by frame_root.
  pose proof (keeps_files _ s4 Hk5) as Hf5. destruct (Hk5 s4) as [Hd5 _]. clear Hk5. unfold wp in Hscan. unfold wp at 1.
  destruct (scan_base limits io listing depth b s4) as [[after_namespace|[e| |]] s5]; cbn [fst snd] in *; [| |by apply Herr..].
  2: { apply granted_fails; [frame_root|apply keep_slot_fails|]. intros; apply Herr; [congruence|lia]. }
  apply granted_after; [frame_root| |intros; apply Herr; [congruence|lia]]. intros [[]|e] s6 Hf6 Hd6.
  2: { apply granted_fails; [frame_root|apply keep_slot_fails|]. intros; apply Herr; [congruence|lia]. }
  apply granted_after; [frame_root| |intros; apply Herr; [congruence|lia]]. intros [] s7 Hf7 Hd7.
  destruct (np_reset plan) eqn:Ereset; [apply wp_raise, Herr; [congruence|lia]|].
  apply granted_after; [frame_root| |intros; apply Herr; [congruence|lia]]. intros [] s8 Hf8 Hd8. apply wp_pure.
  assert (root_files s8 = root_files s4) as Ef8 by congruence. apply Hfin; [done|lia|by rewrite Ef8|]. intros g [= <-]. cbn.
  destruct Hdone as [Hdone Hgen]. split; [by eapply Hbase|]. exists sel. split; [by apply Hback|].
  split; [apply (chosen_mono _ _ _ _ _ _ _ _ Hc); lia|]. split; [congruence|]. rewrite Ef8.
  unfold pointer_done in Hdone. rewrite Hptr, Hrm in Hdone. exact Hdone.
Qed.
Lemma grant_granted (depth : nat) (now : Z) (request : StorageGrantRequest) (s : Root) :
  wp (grant limits io listing sha256 codec entropy depth now request)
    (granted (base_of request) (rq_comparison request) s) s.
Proof.
  unfold grant, prepare_grant. destruct (_ && _).
  - apply wp_bind, wp_raise. by apply granted_unchanged.
  - apply wp_bind, wp_pure. apply materialize_granted.
Qed.
End Continuity.
