(* ===== verification/StorageScopes.v ===== *)
(** * What a namespace is named by

    [namespace_key] says which coordinates of a request its scope distinguishes;
    the directory of the namespace, a digest of [scope_values], distinguishes
    exactly those. *)

From Stdlib Require Import ZArith Lia Ascii String.
From stdpp Require Import base gmap strings list sorting numbers.
From S2P Require Import Prelude RustStr Identifier Subject Capability StorageConfig Quota Keys StorageDir.
From S2P Require Import StorageNamespace StorageContinuity.

Inductive NamespaceKey : Type :=
| KeyPrivate (provider agent : str) (subject : Subject) (kind transport channel conversation : str)
| KeyShared (provider agent kind transport channel conversation : str)
| KeyAgent (provider agent : str)
| KeySpace (provider : str) (key : SpaceKey).

Definition namespace_key (r : StorageGrantRequest) : option NamespaceKey :=
  let provider := default (rq_provider r) (rq_shared_namespace r) in
  match rq_scope r with
  | PrivateConversation =>
      Some (KeyPrivate provider (rq_agent r) (rq_subject r) (rq_transport_kind r) (rq_transport r) (rq_channel r)
              (rq_conversation r))
  | SharedConversation =>
      Some (KeyShared provider (rq_agent r) (rq_transport_kind r) (rq_transport r) (rq_channel r) (rq_conversation r))
  | AgentScope => Some (KeyAgent provider (rq_agent r))
  | SpaceScope => KeySpace provider <$> rq_space_key r
  end.

(** What the types of the fields promise: an agent is an identifier, a subject
    is one that was parsed, strings are bytes and fit in memory. *)
Definition key_ok (k : SpaceKey) : Prop :=
  Forall (fun s => Forall is_byte s ∧ in_u64 (len s))
    (sk_agent k :: sk_transport k :: sk_channel k :: option_list (sk_workspace k)).

Record request_ok (r : StorageGrantRequest) : Prop := {
  rk_agent : str_ok (rq_agent r) = true ∧ is_ok (AgentId_from_str (rq_agent r)) = true;
  rk_subject : subject_ok (rq_subject r);
  rk_values : Forall (fun s => in_u64 (len s)) (scope_values r);
  rk_key k : rq_space_key r = Some k → key_ok k;
}.

Lemma to_be_bytes_is_byte (n : Z) : Forall is_byte (to_be_bytes n).
Proof.
  unfold to_be_bytes. apply Forall_fmap. apply Forall_true. intros i. cbn. unfold is_byte.
  change 255 with (Z.ones 8). rewrite Z.land_ones by lia. pose proof (Z.mod_pos_bound (Z.shiftr n (8 * i)) (2 ^ 8)). lia.
Qed.

Lemma frame_is_byte (s : str) : Forall is_byte s → Forall is_byte (frame s).
Proof. intros H. apply Forall_app. split; [apply to_be_bytes_is_byte|done]. Qed.

Lemma encode_is_byte (k : SpaceKey) : key_ok k → Forall is_byte (SpaceKey_encode k).
Proof.
  unfold key_ok. intros ([Ha _] & ([Ht _] & ([Hc _] & Hw)%list.Forall_cons)%list.Forall_cons)%list.Forall_cons. unfold SpaceKey_encode.
  apply Forall_app. split; [by apply frame_is_byte|]. apply Forall_app. split; [by apply frame_is_byte|].
  apply Forall_app. split; [|by apply frame_is_byte]. destruct (sk_workspace k) as [w|]; cbn in Hw.
  - apply list.Forall_cons in Hw as [[Hw _] _]. constructor; [unfold is_byte; lia|by apply frame_is_byte].
  - constructor; [unfold is_byte; lia|constructor].
Qed.

Lemma SpaceKey_encode_inj (k k' : SpaceKey) : key_ok k → key_ok k' → SpaceKey_encode k = SpaceKey_encode k' → k = k'.
Proof.
  intros ([_ Ha] & ([_ Ht] & ([_ Hc] & Hw)%list.Forall_cons)%list.Forall_cons)%list.Forall_cons.
  intros ([_ Ha'] & ([_ Ht'] & ([_ Hc'] & Hw')%list.Forall_cons)%list.Forall_cons)%list.Forall_cons.
  destruct k as [a t w c], k' as [a' t' w' c']. cbn in *. unfold SpaceKey_encode. cbn [sk_agent sk_transport sk_workspace sk_channel].
  intros E. apply frame_app_inj in E as [-> E]; [|done|done]. apply frame_app_inj in E as [-> E]; [|done|done].
  assert (w = w' ∧ frame c = frame c') as [-> Ec].
  { destruct w as [w|], w' as [w'|]; try discriminate E; apply (f_equal (drop 1)) in E; [|split; [done|exact E]].
    change (frame w ++ frame c = frame w' ++ frame c') in E.
    apply list.Forall_cons in Hw as [[_ Hw] _], Hw' as [[_ Hw'] _]. by apply frame_app_inj in E as [-> ->]. }
  f_equal. rewrite <- (app_nil_r (frame c)), <- (app_nil_r (frame c')) in Ec. by apply frame_app_inj in Ec as [-> _].
Qed.

Lemma identifier_no_colon (v : str) : ident_words v → ch ":" ∉ v.
Proof.
  assert (∀ w, Forall edge w → ch ":" ∉ w) as He.
  { intros w Hw Hin. apply (Forall_elem _ _ _ Hw) in Hin. by vm_compute in Hin. }
  induction 1 as [w _ Hw|w sep rest _ Hw Hs _ IH]; [by apply He|].
  rewrite elem_of_app, elem_of_cons. intros [H|[<-|H]]; [by apply (He w)| |done]. by vm_compute in Hs.
Qed.

Lemma canonical_colon (s : Subject) : ch ":" ∈ canonical s.
Proof. unfold canonical. do 3 right. left. Qed.

Lemma agent_no_colon (r : StorageGrantRequest) : request_ok r → ch ":" ∉ rq_agent r.
Proof.
  intros [[Hs Ha] _ _ _]. unfold AgentId_from_str, identifier_from_str in Ha.
  destruct (validate_identifier (rq_agent r) (lit "agent")) as [[]|] eqn:E; [|done].
  apply (validate_identifier_grammar _ _ Hs) in E as [_ E]. by apply identifier_no_colon.
Qed.

Lemma canonical_inj (s s' : Subject) : subject_ok s → subject_ok s' → canonical s = canonical s' → s = s'.
Proof. intros H%Subject_from_canonical H'%Subject_from_canonical E. rewrite E in H. congruence. Qed.

(** Equal values name equal keys. *)
Lemma scope_values_inj (r r' : StorageGrantRequest) (k k' : NamespaceKey) :
  request_ok r → request_ok r' → namespace_key r = Some k → namespace_key r' = Some k' →
  scope_values r = scope_values r' → k = k'.
Proof.
  intros Hr Hr'. pose proof (agent_no_colon r Hr) as Ha. pose proof (agent_no_colon r' Hr') as Ha'.
  destruct Hr as [_ Hs _ Hk], Hr' as [_ Hs' _ Hk']. unfold namespace_key, scope_values.
  pose proof (canonical_inj _ _ Hs Hs') as Hinj. pose proof (canonical_colon (rq_subject r)) as Hc.
  pose proof (canonical_colon (rq_subject r')) as Hc'.
  generalize dependent (canonical (rq_subject r)). generalize dependent (canonical (rq_subject r')).
  intros c' Hc' c Hinj Hc.
  destruct (rq_scope r), (rq_scope r'); intros E1 E2 E; try discriminate E; try (injection E1 as <-); try (injection E2 as <-).
  - injection E as -> -> E -> -> -> ->. by rewrite (Hinj E).
  - injection E as _ _ E _. destruct Ha'. by rewrite <- E.
  - injection E as _ _ E _. destruct Ha. by rewrite E.
  - by injection E as -> -> -> -> -> ->.
  - by injection E as -> ->.
  - destruct (rq_space_key r) as [key|]; [|done]. destruct (rq_space_key r') as [key'|]; [|done]. cbn in E1, E2.
    injection E1 as <-. injection E2 as <-. specialize (Hk _ eq_refl). specialize (Hk' _ eq_refl).
    pose proof (encode_is_byte _ Hk) as Hb. pose proof (encode_is_byte _ Hk') as Hb'.
    pose proof (fun H => SpaceKey_encode_inj key key' Hk Hk' (hex_inj _ _ Hb Hb' H)) as Hi.
    generalize dependent (hex (SpaceKey_encode key)). generalize dependent (hex (SpaceKey_encode key')).
    intros h' h E Hi. injection E as -> E. by rewrite (Hi E).
Qed.

Lemma scope_values_key (r r' : StorageGrantRequest) (k : NamespaceKey) :
  namespace_key r = Some k → namespace_key r' = Some k → scope_values r = scope_values r'.
Proof.
  unfold namespace_key, scope_values. destruct (rq_scope r), (rq_scope r'); intros E1 E2; simplify_eq/=;
    repeat match goal with H : _ <$> ?o = Some _ |- _ => destruct o; cbn in H; [|done] end; simplify_eq/=; congruence.
Qed.

Lemma prepare_grant_key (sha256 : list Z → list Z) (r : StorageGrantRequest) (b : str) :
  prepare_grant sha256 r = Ok b → (∃ k, namespace_key r = Some k) ∧ b = base_of sha256 r.
Proof.
  unfold prepare_grant, namespace_key. intros E. split; [|destruct (_ && _); [done|by injection E as <-]].
  destruct (rq_scope r); [by eexists..|]. destruct (rq_space_key r); [by eexists|]. done.
Qed.

(** C35: The directory of a grant is named by the key of its scope and by nothing
    else: two requests that are accepted get the same directory when their keys
    are equal, and when they get the same directory their keys are equal, scope
    and every coordinate of it, unless the hash of two different inputs is one. *)
Theorem namespaces_named_by_key (sha256 : list Z → list Z) (r r' : StorageGrantRequest) (b b' : str) :
  (∀ x, Forall is_byte (sha256 x)) → request_ok r → request_ok r' →
  prepare_grant sha256 r = Ok b → prepare_grant sha256 r' = Ok b' →
  (namespace_key r = namespace_key r' → b = b')
  ∧ (b = b' → namespace_key r = namespace_key r'
      ∨ (let x := preimage DOMAIN_NAMESPACE_PATH (scope_values r) in
         let y := preimage DOMAIN_NAMESPACE_PATH (scope_values r') in x ≠ y ∧ sha256 x = sha256 y)).
Proof.
  intros Hsha Hr Hr' ((k & Hk) & ->)%prepare_grant_key ((k' & Hk') & ->)%prepare_grant_key. split.
  - intros E. unfold base_of. by rewrite (scope_values_key r r' k) by congruence.
  - intros E. unfold base_of in E. apply token_hash in E; [|done].
    destruct (decide (scope_values r = scope_values r')) as [Ev|Ev].
    + left. rewrite Hk, Hk'. by rewrite (scope_values_inj r r' k k' Hr Hr' Hk Hk' Ev).
    + right. split; [|done]. assert (in_u64 (len DOMAIN_NAMESPACE_PATH)) as Hd by (vm_compute; split; discriminate).
      intros [_ Hv]%preimage_inj; [done|constructor; [done|apply Hr]|constructor; [done|apply Hr']].
Qed.

(** ** Witness *)

Definition demo_request (access : StorageAccess) : StorageGrantRequest :=
  mkRequest (lit "i") (lit "memory") (lit "notes") Jsonl access SharedConversation (lit "agent")
    (mkSubject SlackUser (lit "t1") (lit "u1")) (lit "slack") (lit "main") (lit "c") (lit "1")
    (Provider Relaxed []) None None.

Lemma demo_request_ok (access : StorageAccess) : request_ok (demo_request access).
Proof.
  split; [by vm_compute|by vm_compute| |done].
  repeat (constructor; [vm_compute; split; discriminate|]); constructor.
Qed.

Definition demo_hash (l : list Z) : list Z := (fun c => c mod 256) <$> l.

Lemma namespaces_named_by_key_witness :
  namespace_key (demo_request ReadOnly) = namespace_key (demo_request ReadWrite)
  ∨ (let x := preimage DOMAIN_NAMESPACE_PATH (scope_values (demo_request ReadOnly)) in
     let y := preimage DOMAIN_NAMESPACE_PATH (scope_values (demo_request ReadWrite)) in x ≠ y ∧ demo_hash x = demo_hash y).
Proof.
  eapply (namespaces_named_by_key demo_hash (demo_request ReadOnly) (demo_request ReadWrite)).
  - intros x. apply Forall_fmap, Forall_true. intros c. unfold is_byte, compose. pose proof (Z.mod_pos_bound c 256). lia.
  - apply demo_request_ok.
  - apply demo_request_ok.
  - reflexivity.
  - reflexivity.
  - reflexivity.
Defined.
