(* ===== verification/StorageReclaim.v ===== *)
(** * What a sweep takes away

    With any system call failing at any time: a sweep only removes, only below
    namespaces that were due when it started, never below one whose lease is held
    or that an operation works on, and what it reports deleted is gone. *)

From Stdlib Require Import ZArith Lia Ascii String.
From stdpp Require Import base gmap strings list sorting numbers.
From S2P Require Import Prelude RustStr Identifier Subject Capability StorageConfig Quota Keys StorageDir.
From S2P Require Import StorageLifetime.
From S2P Require Import StorageNamespace StorageSweep StorageFrames StorageContinuity.

(** ** Operations that only remove *)

Definition shrinks (B : path) (fs fs' : gmap path Node) : Prop :=
  ∀ p, fs' !! p = fs !! p ∨ (fs' !! p = None ∧ below B p = true).

#[export] Instance shrinks_preorder (B : path) : PreOrder (shrinks B).
Proof.
  split.
  - intros fs p. by left.
  - intros fs1 fs2 fs3 H1 H2 p. destruct (H2 p) as [->|[-> Hb]]; [apply H1|by right].
Qed.

Definition reclaims {A : Type} (B : path) (m : act Disk A) : Prop := ∀ d, shrinks B (dk_files d) (dk_files (m d).2).

Lemma reclaims_keeps {A : Type} (B : path) (m : act Disk A) : keepsD (fun _ => True) m → reclaims B m.
Proof. intros H d p. left. by apply H. Qed.

Lemma reclaims_bind {A C : Type} (B : path) (m : act Disk A) (k : A → act Disk C) :
  reclaims B m → (∀ a, reclaims B (k a)) → reclaims B (abind m k).
Proof.
  intros Hm Hk d. unfold abind. specialize (Hm d). destruct (m d) as [[a|e] d']; cbn [fst snd] in *; [|done].
  etransitivity; [exact Hm|apply Hk].
Qed.

Lemma reclaims_bind_with {A C : Type} (Q : A → Prop) (B : path) (m : act Disk A) (k : A → act Disk C) :
  reclaims B m → yields Q m → (∀ a, Q a → reclaims B (k a)) → reclaims B (abind m k).
Proof.
  intros Hm Hy Hk d. unfold abind. specialize (Hm d). destruct (m d) as [[a|e] d'] eqn:E; cbn [fst snd] in *; [|done].
  etransitivity; [exact Hm|]. apply Hk. by eapply Hy.
Qed.

Lemma reclaims_attempt {A : Type} (B : path) (m : act Disk A) : reclaims B m → reclaims B (attempt m).
Proof. intros Hm d. unfold attempt. specialize (Hm d). by destruct (m d) as [[a|[]] d']. Qed.

Lemma reclaims_delete (B q : path) : below B q = true → reclaims B (modify (set_files (delete q))).
Proof.
  intros Hq d p. cbn. destruct (decide (p = q)) as [->|Hne]; [right|left; by apply lookup_delete_ne].
  by rewrite lookup_delete_eq.
Qed.

Create HintDb reclaims.
#[export] Hint Resolve reclaims_delete : reclaims.

Ltac reclaim_step :=
  first
    [ solve [eauto 2 with reclaims nocore]
    | apply reclaims_keeps; solve [frame]
    | apply reclaims_bind; [|intros ?]
    | apply reclaims_attempt
    | match goal with
      | |- reclaims _ (match ?x with _ => _ end) => destruct x eqn:?
      | |- reclaims _ (if ?x then _ else _) => destruct x eqn:?
      end ].
Ltac reclaim := repeat reclaim_step.

Lemma below_child (B q : path) (name : str) : below B q = true → below B (q ++ [name]) = true.
Proof.
  unfold below. rewrite !bool_decide_eq_true. intros [k ->]. exists (k ++ [name]). by rewrite <- (assoc (++)).
Qed.

Section Reclaim.
Context (limits : StorageLimits) (io : nat → Ending) (listing : gmap path Node → path → list str) (B : path).

Lemma reclaims_remove_file (dir : path) (name : str) :
  below B (dir ++ [name]) = true → reclaims B (remove_file io dir name).
Proof. intros H. unfold remove_file. reclaim. Qed.
#[local] Hint Resolve reclaims_remove_file : reclaims.

Lemma reclaims_remove_if_exists (dir : path) (name : str) :
  below B (dir ++ [name]) = true → reclaims B (remove_file_if_exists io dir name).
Proof. intros H. unfold remove_file_if_exists. reclaim. Qed.

Lemma reclaims_remove_directory (dir : path) (name : str) :
  below B (dir ++ [name]) = true → reclaims B (remove_directory io dir name).
Proof. intros H. unfold remove_directory. reclaim. Qed.
#[local] Hint Resolve reclaims_remove_if_exists reclaims_remove_directory : reclaims.

Lemma reclaims_each_removed (f : str → Z → act Disk Z) (names : list str) (remaining : Z) :
  (∀ name n, reclaims B (f name n)) → reclaims B (each_removed f names remaining).
Proof.
  intros H. revert remaining. induction names as [|name names IH]; intros remaining; cbn [each_removed]; reclaim; auto.
Qed.

Lemma reclaims_remove_entry (depth : nat) (dir : path) (name : str) (remaining : Z) :
  below B (dir ++ [name]) = true → reclaims B (remove_entry io listing depth dir name remaining).
Proof.
  revert dir name remaining. induction depth as [|depth IH]; intros dir name remaining Hchild; cbn [remove_entry].
  { apply reclaims_keeps. frame. }
  destruct (remaining =? 0); [reclaim|]. do 2 (apply reclaims_bind; [reclaim|intros ?]).
  destruct (md_kind _); [reclaim| |reclaim..].
  eapply reclaims_bind_with; [apply reclaims_keeps; frame|apply open_directory_path|]. intros child <-.
  apply reclaims_bind; [reclaim|intros names].
  apply reclaims_bind; [apply reclaims_each_removed; intros; by apply IH, below_child|intros left]. reclaim.
Qed.
End Reclaim.

(** ** Operations that only look *)

(** Files, markers, leases and draws are as before. *)
Definition quiet (s s' : Root) : Prop :=
  root_files s' = root_files s ∧ rt_times s' = rt_times s ∧ rt_leases s' = rt_leases s ∧ rt_draws s' = rt_draws s.

#[export] Instance quiet_preorder : PreOrder quiet.
Proof. split; [done|]. unfold quiet. intros s1 s2 s3 (? & ? & ? & ?) (? & ? & ? & ?). split_and!; congruence. Qed.

Definition looks {A : Type} (m : act Root A) : Prop := ∀ s, quiet s (m s).2.

Lemma looksR_bind {A C : Type} (m : act Root A) (k : A → act Root C) : looks m → (∀ a, looks (k a)) → looks (abind m k).
Proof.
  intros Hm Hk s. unfold abind. specialize (Hm s). destruct (m s) as [[a|e] s']; cbn [fst snd] in *; [|done].
  etransitivity; [exact Hm|apply Hk].
Qed.

Lemma looks_on_disk {A : Type} (m : act Disk A) : keepsD (fun _ => True) m → looks (on_disk m).
Proof.
  intros H s. unfold on_disk. specialize (H (rt_disk s)). destruct (m (rt_disk s)) as [r d]. split; [|done].
  apply map_eq. intros p. by apply H.
Qed.

Lemma looks_on_ledger {A : Type} (m : locked A) : looks (on_ledger m).
Proof. intros s. unfold on_ledger. by destruct (m (rt_ledger s)). Qed.
Lemma looks_pure {A : Type} (a : A) : looks (pure a).
Proof. done. Qed.
Lemma looks_raise {A : Type} (e : StorageHostError) : looks (raise (A := A) e).
Proof. done. Qed.
Lemma looks_reads {A : Type} (f : Root → A) : looks (reads f).
Proof. done. Qed.
Lemma looks_of_result {A : Type} (r : result StorageHostError A) : looks (of_result r).
Proof. by destruct r. Qed.
Lemma looks_of_option {A : Type} (e : StorageHostError) (o : option A) : looks (of_option e o).
Proof. by destruct o. Qed.
#[export] Hint Resolve looks_pure looks_raise looks_reads looks_of_result looks_of_option looks_on_ledger : reclaims.

Ltac look :=
  repeat first
    [ solve [eauto 2 with reclaims nocore]
    | apply looks_on_disk; solve [frame]
    | apply looksR_bind; [|intros ?]
    | match goal with
      | |- looks (match ?x with _ => _ end) => destruct x eqn:?
      | |- looks (if ?x then _ else _) => destruct x eqn:?
      end ].

(** A first half that only looks. *)
Lemma wp_looks {A C : Type} (P : A → Prop) (m : act Root A) (k : A → act Root C) (Q : result Exn C → Root → Prop)
    (s : Root) :
  looks m → yields P m → (∀ a s', P a → quiet s s' → wp (k a) Q s') → (∀ e s', quiet s s' → Q (Err e) s') →
  wp (abind m k) Q s.
Proof.
  intros Hm Hy Hk He. apply wp_bind. specialize (Hm s). unfold wp.
  destruct (m s) as [[a|e] s'] eqn:E; cbn [fst snd] in *; [|by apply He]. apply Hk; [by eapply Hy|done].
Qed.

Lemma yields_any {S A : Type} (m : act S A) : yields (fun _ => True) m.
Proof. by intros ? ? ? ?. Qed.

Lemma wp_look_result {A : Type} (m : act Root A) (Q : result Exn A → Root → Prop) (s : Root) :
  looks m → wp m Q s → wp m (fun r s' => quiet s s' ∧ Q r s') s.
Proof. intros Hm Hw. split; [apply Hm|exact Hw]. Qed.

Section Due.
Context (limits : StorageLimits) (io : nat → Ending) (listing : gmap path Node → path → list str).
Context (sha256 : list Z → list Z) (codec : Codec).
Context (policies : str → StorageScope → option StorageRetention).

(** The namespace has an identity that is its own, its policy lets it go, and
    it was not used for long enough. *)
Definition due (s : Root) (b : str) (now : Z) : bool :=
  match root_files s !! (base_path b ++ [lit "identity"]) ≫= (fun n => identity_from_slice codec (nd_bytes n)) with
  | None => false
  | Some document =>
      ResourceIdentity_valid document
      && str_eqb (token sha256 DOMAIN_NAMESPACE_PATH (ri_values document)) b
      && match identity_provider (ri_scope document) (ri_values document) with
         | None => false
         | Some provider =>
             match ProviderId_from_str provider with
             | Err _ => false
             | Ok provider =>
                 match policies provider (ri_scope document) with
                 | Some (IdleTtl ttl) =>
                     let used := default 0 (rt_times s !! (base_path b ++ [lit "last-used"])) in
                     (used <=? now) && (ttl <=? now - used)
                 | _ => false
                 end
             end
         end
  end.

(** Nothing becomes due by removing files. *)
Lemma due_shrinks (s s' : Root) (B : path) (b : str) (now : Z) :
  shrinks B (root_files s) (root_files s') → rt_times s' = rt_times s → due s' b now = true → due s b now = true.
Proof.
  intros Hs Ht. unfold due. rewrite Ht. destruct (Hs (base_path b ++ [lit "identity"])) as [->|[-> _]]; done.
Qed.

Lemma due_quiet (s s' : Root) (b : str) (now : Z) : quiet s s' → due s' b now = due s b now.
Proof. intros (Hf & Ht & _). unfold due. by rewrite Hf, Ht. Qed.

Lemma looks_eligible (base : path) (b : str) (now : Z) : looks (eligible io sha256 codec policies base b now).
Proof. unfold eligible, marker_time. look. Qed.

Lemma read_identity_is (b : str) (d : Disk) :
  wp (read_identity io codec (base_path b))
    (fun r _ => match r with
                | Ok (Some (scope, values)) =>
                    ∃ document, dk_files d !! (base_path b ++ [lit "identity"])
                        ≫= (fun n => identity_from_slice codec (nd_bytes n)) = Some document
                      ∧ ResourceIdentity_valid document = true ∧ ri_scope document = scope ∧ ri_values document = values
                | _ => True
                end) d.
Proof.
  unfold read_identity. apply wp_bind.
  pose proof (keepsD_exists (K := fun _ => True) io (base_path b) (lit "identity") d) as Hk. unfold wp at 1.
  destruct (exists_ io (base_path b) (lit "identity") d) as [[there|e] d1]; cbn [fst snd] in *; [|done].
  destruct (negb there); [done|]. eapply wp_step; [by apply wp_read_bounded| |done].
  intros content d2 (Hd2 & _ & n & Hn & _ & ->). apply wp_bind, wp_of_option; [|done]. intros document Edoc.
  destruct (ResourceIdentity_valid document) eqn:Ev; [|done]. apply wp_pure. exists document. split; [|done].
  rewrite <- Hk, <- Hd2, Hn by done. exact Edoc.
Qed.

Lemma marker_time_is (base : path) (s : Root) :
  wp (marker_time io base)
    (fun r _ => match r with
                | Ok (Some t) => t = default 0 (rt_times s !! (base ++ [lit "last-used"]))
                | _ => True
                end) s.
Proof.
  unfold marker_time. eapply (wp_looks (fun _ => True)); [look|apply yields_any| |done]. intros there s1 _ H1.
  destruct (negb there); [done|]. do 3 (eapply (wp_looks (fun _ => True)); [look|apply yields_any| |done]; intros ? ? _ ?).
  destruct (match _ with Some n => negb (is_nil (nd_bytes n)) | None => false end); [done|].
  unfold wp, abind, reads. cbn.
  repeat match goal with H : quiet _ _ |- _ => destruct H as (_ & H & _) end. congruence.
Qed.

Lemma eligible_due (b : str) (now : Z) (s : Root) :
  wp (eligible io sha256 codec policies (base_path b) b now)
    (fun r s' => quiet s s' ∧ (r = Ok true → due s b now = true)) s.
Proof.
  apply wp_look_result; [apply looks_eligible|]. unfold eligible. apply wp_bind, wp_root_disk.
  eapply wp_mono; [apply read_identity_is|]. intros [[[scope values]|]|e] d; [|done..].
  intros (document & Hdoc & Hv & <- & <-). destruct (negb _) eqn:Et; [done|]. apply negb_false_iff in Et.
  apply wp_bind, wp_of_option; [|done]. intros provider Hp. destruct (ProviderId_from_str provider) as [id|] eqn:Eid; [|done].
  destruct (policies id (ri_scope document)) as [policy|] eqn:Epol; [|done].
  eapply wp_step; [apply marker_time_is| |done]. intros [used|] s' Hu; [|done].
  change (used = default 0 (rt_times s !! (base_path b ++ [lit "last-used"]))) in Hu. destruct policy as [|ttl]; [done|]. apply wp_pure. intros [= E]. unfold due, root_files.
  rewrite Hdoc, Hv, Et, Hp, Eid, Epol. cbv zeta. rewrite <- Hu. exact E.
Qed.

Definition emptied (B : path) (fs : gmap path Node) : Prop := ∀ p, below B p = true → fs !! p = None.

Lemma remove_directory_empties (dir : path) (name : str) (d : Disk) :
  wp (remove_directory io dir name)
    (fun r d' => match r with Ok _ => emptied (dir ++ [name]) (dk_files d') | Err _ => True end) d.
Proof.
  unfold remove_directory, wp, abind. destruct (of_result _ d) as [[[]|] d1]; [|done].
  destruct (works io d1) as [[[]|] d2]; [|done]. cbn. destruct (dk_files d2 !! _) as [n|] eqn:En; [|done].
  destruct (_ || _) eqn:Ex; [done|]. apply orb_false_iff in Ex as [_ Ex]. cbn. intros p Hp.
  destruct (decide (p = dir ++ [name])) as [->|Hne]; [apply lookup_delete_eq|]. rewrite lookup_delete_ne by done.
  destruct (dk_files d2 !! p) as [m|] eqn:Em; [|done]. apply not_true_iff_false in Ex. destruct Ex.
  apply existsb_exists. exists p. split.
  - apply list_elem_of_In, list_elem_of_fmap. exists (p, m). by rewrite elem_of_map_to_list.
  - by rewrite Hp, bool_decide_eq_false_2.
Qed.

Lemma yields_wp_disk {A : Type} (m : act Disk A) (d : Disk) : wp m (fun _ _ => True) d.
Proof. done. Qed.

(** Deleting a namespace, if it works, leaves nothing of it. *)
Lemma deletion_empties (depth : nat) (b : str) (d : Disk) :
  wp (_ ⇚ remove_generations limits io listing depth (base_path b); remove_base io (base_path b) b)
    (fun r d' => shrinks (base_path b) (dk_files d) (dk_files d')
                 ∧ (is_ok r = true → emptied (base_path b) (dk_files d'))) d.
Proof.
  assert (∀ name, below (base_path b) (base_path b ++ [name]) = true) as Hb.
  { intros name. apply below_child. unfold below. by apply bool_decide_eq_true. }
  assert (below (base_path b) (NAMESPACES ++ [b]) = true) as Hbase by (unfold below; by apply bool_decide_eq_true).
  split.
  - unfold remove_generations, remove_base. apply reclaims_bind.
    + apply reclaims_bind; [apply reclaims_keeps; frame|intros names].
      apply reclaims_bind; [|intros _; by apply reclaims_keeps]. apply reclaims_each_removed. intros name n.
      by apply reclaims_remove_entry.
    + intros _. apply reclaims_bind; [by apply reclaims_remove_if_exists|intros _].
      do 3 (apply reclaims_bind; [by apply reclaims_remove_file|intros _]).
      apply reclaims_bind; [by apply reclaims_remove_directory|intros _]. apply reclaims_keeps, keepsD_works.
  - unfold remove_base. revert d. cut (∀ d, wp
      (_ ⇚ remove_generations limits io listing depth (base_path b);
       _ ⇚ remove_file_if_exists io (base_path b) (lit "current"); _ ⇚ remove_file io (base_path b) (lit "last-used");
       _ ⇚ remove_file io (base_path b) (lit "identity"); _ ⇚ remove_file io (base_path b) (lit "base.lock");
       _ ⇚ remove_directory io NAMESPACES b; sync io)
      (fun r d' => is_ok r = true → emptied (base_path b) (dk_files d')) d). { done. }
    intros d. do 5 (eapply wp_step; [apply yields_wp_disk| |done]; intros ? ? _; clear d; rename s' into d).
    eapply wp_step; [apply remove_directory_empties| |done]. intros [] d1 H1. eapply wp_mono; [apply wp_works|].
    intros [[]|[]] d2 H2; cbn in H2; try done. by rewrite H2.
Qed.

(** Nothing is left in a namespace but its own four files. *)
Definition generations_gone (b : str) (fs : gmap path Node) : Prop :=
  ∀ name, is_housekeeping name = false → fs !! (base_path b ++ [name]) = None.

Lemma generations_gone_shrinks (b : str) (B : path) (fs fs' : gmap path Node) :
  shrinks B fs fs' → generations_gone b fs → generations_gone b fs'.
Proof. intros Hs Hg name Hn. destruct (Hs (base_path b ++ [name])) as [->|[-> _]]; [by apply Hg|done]. Qed.

Lemma remove_entry_gone (depth : nat) (dir : path) (name : str) (remaining : Z) (d : Disk) :
  wp (remove_entry io listing depth dir name remaining)
    (fun r d' => is_ok r = true → dk_files d' !! (dir ++ [name]) = None) d.
Proof.
  destruct depth as [|depth]; [done|]. cbn [remove_entry]. destruct (remaining =? 0); [done|].
  do 2 (eapply wp_step; [apply yields_wp_disk| |done]; intros ? ? _). clear d. rename a0 into m, s'0 into d.
  destruct (md_kind m); [| |done..].
  - destruct (_ =? 1); [|done]. eapply wp_step; [apply yields_wp_disk| |done]. intros [] d1 _.
    eapply wp_step; [apply wp_remove_file| |done]. intros [] d2 H2. cbn in H2. apply wp_pure. intros _. rewrite H2.
    apply lookup_delete_eq.
  - do 4 (eapply wp_step; [apply yields_wp_disk| |done]; intros ? ? _). destruct (negb _); [done|].
    eapply wp_step; [apply remove_directory_empties| |done]. intros [] d2 H2. apply wp_pure. intros _. apply H2.
    unfold below. by apply bool_decide_eq_true.
Qed.

Lemma each_removed_gone (depth : nat) (dir : path) (names : list str) (remaining : Z) (d : Disk) :
  wp (each_removed (remove_entry io listing depth dir) names remaining)
    (fun r d' => is_ok r = true → ∀ name, name ∈ names → dk_files d' !! (dir ++ [name]) = None) d.
Proof.
  revert remaining d. induction names as [|name names IH]; intros remaining d; cbn [each_removed].
  { intros _ name []%not_elem_of_nil. }
  eapply wp_step; [apply remove_entry_gone| |done]. intros left d1 H1.
  assert (reclaims [] (each_removed (remove_entry io listing depth dir) names left)) as Hr.
  { apply reclaims_each_removed. intros. apply reclaims_remove_entry. apply bool_decide_eq_true, prefix_nil. }
  specialize (IH left d1). specialize (Hr d1). unfold wp in *.
  intros Hok x [->|Hx]%elem_of_cons; [|by apply IH]. destruct (Hr (dir ++ [name])) as [->|[-> _]]; [by apply H1|done].
Qed.

(** The pointer outlives the generations. *)
Lemma deletion_pointer (depth : nat) (b : str) (d : Disk) :
  listing_ok listing →
  wp (_ ⇚ remove_generations limits io listing depth (base_path b); remove_base io (base_path b) b)
    (fun _ d' => dk_files d' !! pointer_path b = dk_files d !! pointer_path b ∨ generations_gone b (dk_files d')) d.
Proof.
  intros Hl. apply wp_bind.
  assert (wp (remove_generations limits io listing depth (base_path b))
    (fun r d' => dk_files d' !! pointer_path b = dk_files d !! pointer_path b
                 ∧ (is_ok r = true → generations_gone b (dk_files d'))) d) as Hg.
  { unfold remove_generations. eapply wp_step; [apply wp_entries_bounded| |by intros [] d1 H1; cbn in H1; try done; rewrite H1].
    intros names d1 [H1 Hn]. set (rest := List.filter _ names). rewrite <- H1.
    assert (keepsD (eq (pointer_path b)) (each_removed (remove_entry io listing depth (base_path b)) rest
      (startup_max_entries limits))) as Hk.
    { intros d2 p <-.
      assert (∀ name, name ∈ rest → below (base_path b ++ [name]) (pointer_path b) = false) as Hne.
      { intros name Hin. apply list_elem_of_In, filter_In in Hin as [_ Hin]. apply not_below_child. intros ->. by vm_compute in Hin. }
      clear Hn. revert d2. generalize (startup_max_entries limits). induction rest as [|name rest IH]; intros n d2; [done|].
      cbn [each_removed]. unfold abind.
      assert (dk_files (remove_entry io listing depth (base_path b) name n d2).2 !! pointer_path b = dk_files d2 !! pointer_path b) as E.
      { destruct (reclaims_remove_entry io listing (base_path b ++ [name]) depth (base_path b) name n) with (d := d2) (p := pointer_path b)
          as [E|[_ E]]; [by apply bool_decide_eq_true|done|]. rewrite Hne in E; [done|by left]. }
      destruct (remove_entry _ _ _ _ _ _ d2) as [[left|e] d3]; cbn [fst snd] in *; [|done]. rewrite <- E. apply IH.
      intros x Hx. apply Hne. by right. }
    pose proof (each_removed_gone depth (base_path b) rest (startup_max_entries limits) d1) as Hgone.
    specialize (Hk d1 _ eq_refl). unfold wp, abind in *.
    assert (reclaims [] (each_removed (remove_entry io listing depth (base_path b)) rest (startup_max_entries limits))) as Hr.
    { apply reclaims_each_removed. intros. apply reclaims_remove_entry. apply bool_decide_eq_true, prefix_nil. }
    specialize (Hr d1). destruct (each_removed _ _ _ d1) as [[left|e] d2]; cbn [fst snd] in *; [|done]. split; [done|].
    intros _ name Hname. destruct (dk_files d2 !! (base_path b ++ [name])) as [n|] eqn:E; [|done].
    exfalso. cut (dk_files d2 !! (base_path b ++ [name]) = None); [by rewrite E|]. apply Hgone; [done|]. apply list_elem_of_In, filter_In. rewrite Hname. split; [|done].
    apply list_elem_of_In. rewrite Hn. apply Hl. destruct (Hr (base_path b ++ [name])) as [E'|[E' _]]; rewrite E in E'; [by eexists|done]. }
  eapply wp_mono; [exact Hg|]. intros [[]|e] d1 [Hp Hgone]; [|by left]. specialize (Hgone eq_refl).
  assert (reclaims [] (remove_base io (base_path b) b)) as Hr.
  { unfold remove_base. repeat (apply reclaims_bind; [first [apply reclaims_remove_if_exists|apply reclaims_remove_file
      |apply reclaims_remove_directory]; apply bool_decide_eq_true, prefix_nil|intros _]). apply reclaims_keeps, keepsD_works. }
  right. eapply generations_gone_shrinks; [apply Hr|done].
Qed.

Record swept (b : str) (now : Z) (busy : bool) (s : Root) (r : result Exn bool) (s' : Root) : Prop := {
  sw_times : rt_times s' = rt_times s;
  sw_leases : rt_leases s' = rt_leases s;
  sw_draws : rt_draws s' = rt_draws s;
  sw_shrinks : shrinks (base_path b) (root_files s) (root_files s');
  sw_due : root_files s' = root_files s ∨ (due s b now = true ∧ b ∉ rt_leases s ∧ busy = false);
  sw_gone : r = Ok true → emptied (base_path b) (root_files s');
  sw_pointer : listing_ok listing →
    root_files s' !! pointer_path b = root_files s !! pointer_path b ∨ generations_gone b (root_files s');
}.

Lemma swept_quiet (b : str) (now : Z) (busy : bool) (s : Root) (r : result Exn bool) (s' : Root) :
  quiet s s' → r ≠ Ok true → swept b now busy s r s'.
Proof. intros (Hf & Ht & Hl & Hd) Hr. split; try done; [by rewrite Hf|by left|by rewrite Hf; left]. Qed.

(** The part that deletes. *)
Definition delete_due (depth : nat) (b : str) (before : Usage) : act Root bool :=
  deletion ⇚ attempt (on_disk (_ ⇚ remove_generations limits io listing depth (base_path b); remove_base io (base_path b) b));
  there ⇚ on_disk (exists_ io NAMESPACES b);
  let removed := negb there in
  after ⇚ (if removed then pure (mkUsage 0 0 0)
           else scanned ⇚ on_disk (scan_usage io listing depth (base_path b) (startup_max_entries limits));
                of_result (usage_with_directory_entry scanned));
  _ ⇚ on_ledger (account_sweep b before after removed);
  _ ⇚ of_result deletion;
  pure removed.

Lemma delete_due_swept (depth : nat) (b : str) (now : Z) (before : Usage) (s s1 : Root) :
  quiet s s1 → due s b now = true → b ∉ rt_leases s →
  wp (delete_due depth b before) (swept b now false s) s1.
Proof.
  intros (Qf & Qt & Ql & Qd) Hdue Hl. unfold delete_due. apply wp_bind, wp_attempt, wp_root_disk.
  pose proof (deletion_empties depth b (rt_disk s1)) as Hde. pose proof (deletion_pointer depth b (rt_disk s1)) as Hdp.
  unfold wp in Hde, Hdp. unfold wp at 1. destruct (abind _ _ (rt_disk s1)) as [r d]. cbn [fst snd] in *.
  destruct Hde as [Hs He].
  assert (∀ r' s', quiet (set_disk s1 d) s' → (r' = Ok true → is_ok r = true) → swept b now false s r' s') as Hfin.
  { intros r' s' (Hf & Ht & Hl' & Hd') Hr. cbn [set_disk rt_times rt_leases rt_draws] in *. split; [congruence..| | | |].
    - rewrite Hf, <- Qf. exact Hs.
    - by right.
    - intros E. rewrite Hf. by apply He, Hr.
    - intros Hl0. rewrite Hf, <- Qf. by apply Hdp. }
  assert (∀ deletion : result StorageHostError unit, is_ok deletion = is_ok r →
    wp (there ⇚ on_disk (exists_ io NAMESPACES b);
        let removed := negb there in
        after ⇚ (if removed then pure (mkUsage 0 0 0)
                 else scanned ⇚ on_disk (scan_usage io listing depth (base_path b) (startup_max_entries limits));
                      of_result (usage_with_directory_entry scanned));
        _ ⇚ on_ledger (account_sweep b before after removed);
        _ ⇚ of_result deletion;
        pure removed) (swept b now false s) (set_disk s1 d)) as Hrest.
  { intros deletion Hdel. do 3 (eapply (wp_looks (fun _ => True)); [look|apply yields_any|
      |intros; apply Hfin; [repeat (etransitivity; [eassumption|]); done|done]]; intros ? ? _ ?; cbv zeta).
    apply wp_bind, wp_of_result; intros x ->; [apply wp_pure|];
      (apply Hfin; [repeat (etransitivity; [eassumption|]); done|]); [intros _; by rewrite <- Hdel|done]. }
  destruct r as [[]|[e| |]]; [by apply (Hrest (Ok tt))|by apply (Hrest (Err e))|by apply Hfin..].
Qed.

(** Steps that only look. *)
Ltac quietly :=
  eapply (wp_looks (fun _ => True)); [look|apply yields_any| |intros; apply swept_quiet; [by etransitivity|done]];
  let Q := fresh "Q" in intros ? ? _ Q;
  match goal with H : quiet ?s ?s1, Q : quiet ?s1 ?s2 |- _ => assert (quiet s s2) by (by etransitivity); clear H Q end.

Lemma sweep_one_swept (depth : nat) (b : str) (now : Z) (busy : bool) (s : Root) :
  wp (sweep_one limits io listing sha256 codec policies depth b now busy) (swept b now busy s) s.
Proof.
  unfold sweep_one. destruct (negb _); [by apply swept_quiet|].
  eapply wp_looks; [look|apply yields_on_disk, open_directory_path| |intros; by apply swept_quiet].
  intros base s1 <- H1. change (NAMESPACES ++ [b]) with (base_path b).
  assert (∀ s1, quiet s s1 → wp (eligible io sha256 codec policies (base_path b) b now)
    (fun r s2 => quiet s s2 ∧ (r = Ok true → due s b now = true)) s1) as Hel.
  { intros s0 Q. eapply wp_mono; [apply eligible_due|]. intros r s2 [Q2 Hr]. split; [by etransitivity|].
    intros E. rewrite <- (due_quiet s s0) by done. by apply Hr. }
  eapply wp_step; [by apply Hel| |intros e s2 [H2 _]; by apply swept_quiet]. intros idle s2 [H2 _].
  destruct (negb idle || busy) eqn:Eb; [by apply wp_pure, swept_quiet|]. apply orb_false_iff in Eb as [_ ->].
  clear dependent s1. quietly. apply wp_bind, wp_reads.
  assert (rt_leases s' = rt_leases s) as -> by (by match goal with H : quiet _ _ |- _ => destruct H as (_ & _ & -> & _) end).
  quietly. rename a0 into ending, s'0 into s4.
  assert (∀ m : act Root bool, wp m (swept b now false s) s4 →
    wp (match ending with Breaks _ => raise (RootIo false) | _ => m end) (swept b now false s) s4) as Hm.
  { intros m Hm. destruct ending; try done. by apply wp_raise, swept_quiet. }
  apply Hm. clear Hm. destruct (bool_decide _) eqn:El; [by apply wp_pure, swept_quiet|].
  apply bool_decide_eq_false in El. quietly. destruct (negb _); [by apply wp_raise, swept_quiet|].
  eapply wp_step; [by apply Hel| |intros e s5 [H5 _]; by apply swept_quiet]. intros [] s5 [H5 Hdue];
    [|by apply wp_pure, swept_quiet]. clear dependent s'0. quietly. quietly.
  apply delete_due_swept; [done|by apply Hdue|done].
Qed.

(** ** A whole sweep *)

(** Nothing changed but what is below namespaces that were due, free and idle. *)
Record reclaimed (now : Z) (busy : str → bool) (s s' : Root) : Prop := {
  rc_times : rt_times s' = rt_times s;
  rc_leases : rt_leases s' = rt_leases s;
  rc_draws : rt_draws s' = rt_draws s;
  rc_files p :
    root_files s' !! p = root_files s !! p
    ∨ (root_files s' !! p = None
       ∧ ∃ b, below (base_path b) p = true ∧ due s b now = true ∧ b ∉ rt_leases s ∧ busy b = false);
  rc_pointers b : listing_ok listing →
    root_files s' !! pointer_path b = root_files s !! pointer_path b ∨ generations_gone b (root_files s');
}.

Lemma reclaimed_shrinks (now : Z) (busy : str → bool) (s s' : Root) :
  reclaimed now busy s s' → shrinks [] (root_files s) (root_files s').
Proof.
  intros [_ _ _ Hf _] p. destruct (Hf p) as [E|[E _]]; [by left|right]. split; [done|]. apply bool_decide_eq_true.
  apply prefix_nil.
Qed.

Lemma reclaimed_quiet (now : Z) (busy : str → bool) (s s' : Root) : quiet s s' → reclaimed now busy s s'.
Proof. intros (Hf & ? & ? & ?). split; try done; rewrite Hf; by left. Qed.

#[export] Instance reclaimed_preorder (now : Z) (busy : str → bool) : PreOrder (reclaimed now busy).
Proof.
  split; [intros s; by apply reclaimed_quiet|]. intros s1 s2 s3 H1 H2.
  pose proof (reclaimed_shrinks _ _ _ _ H1) as Hs. pose proof (reclaimed_shrinks _ _ _ _ H2) as Hs2.
  destruct H1 as [T1 L1 D1 F1 P1], H2 as [T2 L2 D2 F2 P2].
  split; [congruence..| |].
  2: { intros b Hl. destruct (P2 b Hl) as [->|]; [|by right]. destruct (P1 b Hl) as [->|]; [by left|right].
       by eapply generations_gone_shrinks. }
  intros p. destruct (F2 p) as [->|[-> (b & Hb & Hd & Hl & Hi)]]; [apply F1|right].
  split; [done|]. exists b. split; [done|]. split; [by eapply due_shrinks|]. by rewrite <- L1.
Qed.

Lemma swept_reclaimed (b : str) (now : Z) (busy : str → bool) (s : Root) (r : result Exn bool) (s' : Root) :
  swept b now (busy b) s r s' → reclaimed now busy s s'.
Proof.
  intros [T L D Hs Hd _ Hp]. split; [done..| |].
  - intros p. destruct (Hs p) as [E|[E Hb]]; [by left|].
    destruct Hd as [->|Hd]; [by left|]. right. split; [done|]. by exists b.
  - intros b' Hl. destruct (decide (b' = b)) as [->|Hne]; [by apply Hp|left].
    destruct (Hs (pointer_path b')) as [E|[_ E]]; [done|]. by rewrite (pointer_outside b b' Hne) in E.
Qed.

Lemma emptied_shrinks (B C : path) (fs fs' : gmap path Node) : shrinks C fs fs' → emptied B fs → emptied B fs'.
Proof. intros Hs He p Hp. destruct (Hs p) as [->|[-> _]]; [by apply He|done]. Qed.

(** The summary, counted over the namespaces that were looked at. *)
Definition counted (before after : SweepSummary) (tokens gone : list str) : Prop :=
  sublist gone tokens
  ∧ examined after = examined before + Z.of_nat (length tokens)
  ∧ deleted after = deleted before + Z.of_nat (length gone)
  ∧ deleted after + skipped after + errors after
    = deleted before + skipped before + errors before + Z.of_nat (length tokens).

Lemma sweep_tokens_reclaimed (depth : nat) (tokens : list str) (now : Z) (busy : str → bool) (summary : SweepSummary)
    (s : Root) :
  wp (sweep_tokens limits io listing sha256 codec policies depth tokens now busy summary)
    (fun r s' => reclaimed now busy s s'
       ∧ match r with
         | Ok after => ∃ gone, counted summary after tokens gone ∧ Forall (fun b => emptied (base_path b) (root_files s')) gone
         | Err _ => True
         end) s.
Proof.
  revert summary s. induction tokens as [|b tokens IH]; intros summary s; cbn [sweep_tokens].
  { apply wp_pure. split; [by apply reclaimed_quiet|]. exists []. split; [|constructor]. split; [constructor|]. cbn. lia. }
  apply wp_bind, wp_attempt. eapply wp_mono; [apply sweep_one_swept|]. intros r s1 Hsw.
  pose proof (swept_reclaimed _ _ _ _ _ _ Hsw) as H1.
  assert (∀ swept_ : result StorageHostError bool, (swept_ = Ok true → r = Ok true) → wp (sweep_tokens limits io listing sha256 codec policies depth tokens now busy
        match swept_ with
        | Ok true => mkSummary (examined summary + 1) (deleted summary + 1) (skipped summary) (errors summary)
        | Ok false => mkSummary (examined summary + 1) (deleted summary) (skipped summary + 1) (errors summary)
        | Err _ => mkSummary (examined summary + 1) (deleted summary) (skipped summary) (errors summary + 1)
        end)
      (fun r s' => reclaimed now busy s s'
         ∧ match r with
           | Ok after => ∃ gone, counted summary after (b :: tokens) gone
               ∧ Forall (fun b => emptied (base_path b) (root_files s')) gone
           | Err _ => True
           end) s1) as Hrest.
  { intros sw Hr. eapply wp_mono; [apply IH|]. intros r' s2 [H2 Hg]. split; [by etransitivity|].
    destruct r' as [after|]; [|done]. destruct Hg as (gone & (Hsub & He & Hd & Ht) & Hgone).
    destruct sw as [[]|e].
    - exists (b :: gone). split; [split; [by constructor|cbn in *; lia]|]. constructor; [|done].
      eapply emptied_shrinks; [by eapply reclaimed_shrinks|]. by eapply sw_gone, Hr.
    - exists gone. split; [split; [by constructor|cbn in *; lia]|done].
    - exists gone. split; [split; [by constructor|cbn in *; lia]|done]. }
  destruct r as [removed|[e| |]]; [apply (Hrest (Ok removed)); by intros [= ->]|by apply (Hrest (Err e))|done..].
Qed.

Lemma sweep_wp (depth : nat) (now : Z) (busy : str → bool) (s : Root) :
  wp (sweep limits io listing sha256 codec policies depth now busy)
    (fun r s' => reclaimed now busy s s' ∧ match r with
      | Ok summary => ∃ tokens gone, tokens ≡ₚ listing (root_files s) NAMESPACES
          ∧ counted (mkSummary 0 0 0 0) summary tokens gone
          ∧ Forall (fun b => emptied (base_path b) (root_files s')) gone
      | Err _ => True end) s.
Proof.
  unfold sweep. apply wp_bind, wp_root_disk. eapply wp_mono; [apply wp_entries_bounded|].
  intros [tokens|[e| |]] d Hd; cbn in Hd; [|by split; [apply reclaimed_quiet|]|done..]. destruct Hd as [Hd Ht].
  assert (quiet s (set_disk s d)) as Q by done.
  eapply wp_mono; [apply sweep_tokens_reclaimed|]. intros r s2 [H2 Hg].
  split; [etransitivity; [by apply reclaimed_quiet|done]|]. destruct r; [|done]. destruct Hg as [gone Hg].
  exists tokens, gone. unfold root_files. by rewrite <- Hd.
Qed.

Lemma sweep_reclaimed (depth : nat) (now : Z) (busy : str → bool) (s : Root) :
  reclaimed now busy s (sweep limits io listing sha256 codec policies depth now busy s).2.
Proof. apply sweep_wp. Qed.

(** C17: A sweep only takes what it may: whatever fails on the way, every file of
    the root is as before or gone, and gone only if it lies in a namespace that
    was due when the sweep started, whose lease nobody held and that no operation
    was working on; markers and leases stay. A pointer goes only after every
    generation of its namespace is gone, so that an authority whose data a sweep
    failed to remove is not given an empty generation. When the sweep returns, it has looked at every namespace, and of those it counts
    as deleted nothing is left, not even an entry below them. *)
Theorem sweep_takes_only_due (depth : nat) (now : Z) (busy : str → bool) (s : Root) :
  let '(r, s') := sweep limits io listing sha256 codec policies depth now busy s in
  reclaimed now busy s s'
  ∧ match r with
    | Ok summary =>
        ∃ tokens gone, tokens ≡ₚ listing (root_files s) NAMESPACES ∧ counted (mkSummary 0 0 0 0) summary tokens gone
          ∧ Forall (fun b => emptied (base_path b) (root_files s')) gone
    | Err _ => True
    end.
Proof.
  pose proof (sweep_wp depth now busy s) as H. unfold wp in H. by destruct (sweep _ _ _ _ _ _ _ _ _ _).
Qed.
End Due.
