(* ===== verification/StorageIsolation.v ===== *)
(** * Who is given which generation, over whole runs

    A run is a sequence of grants, uses of what was granted, sweeps and ends of
    grants, on one storage root, with any system call failing at any time. *)

From Stdlib Require Import ZArith Lia Ascii String.
From stdpp Require Import base gmap strings list sorting numbers relations.
From S2P Require Import Prelude RustStr Identifier Subject Capability StorageConfig Quota Keys StorageDir.
From S2P Require Import StorageNamespace StorageSweep StorageFrames StorageContinuity StorageReclaim.

(** A grant that was given. *)
Record Entry : Type := mkEntry {
  en_base : str;
  en_generation : str;
  en_regime : option (PointerScheme * str)
}.

Record Run : Type := mkRun {
  rn_root : Root;
  rn_log : list Entry;
  rn_requests : list StorageGrantRequest
}.

Lemma pointer_not_in_data (b b' generation : str) : ¬ in_data b' generation (pointer_path b).
Proof.
  intros [(k & E)%bool_decide_eq_true _]. unfold pointer_path, base_path, NAMESPACES in E. by injection E.
Qed.

Section Isolation.
Context (limits : StorageLimits).
Context (io : nat → Ending) (listing : gmap path Node → path → list str).
Context (sha256 : list Z → list Z) (codec : Codec) `{!CodecLaws codec}.
Context (entropy : nat → nat → option (list Z)).
Context (policies : str → StorageScope → option StorageRetention).

#[local] Notation authority_of := (authority_of sha256).
#[local] Notation generation_of := (generation_of sha256).
#[local] Notation base_of := (base_of sha256).
#[local] Notation regime := (regime sha256).
#[local] Notation pointer_doc := (pointer_doc codec).
#[local] Notation chosen := (chosen sha256 codec entropy).

Inductive run_step : Run → Run → Prop :=
| run_grant depth now request s log requests r s' :
    grant limits io listing sha256 codec entropy depth now request s = (r, s') →
    run_step (mkRun s log requests)
      (mkRun s' match r with
                | Ok g => mkEntry (nm_base_token (sg_namespace g)) (nm_generation_token (sg_namespace g))
                            (regime (rq_comparison request)) :: log
                | Err _ => log
                end (request :: requests))
| run_use entry s s' log requests :
    entry ∈ log → (rt_draws s ≤ rt_draws s')%nat →
    (∀ p, ¬ in_data (en_base entry) (en_generation entry) p → root_files s' !! p = root_files s !! p) →
    run_step (mkRun s log requests) (mkRun s' log requests)
| run_sweep depth now busy s r s' log requests :
    sweep limits io listing sha256 codec policies depth now busy s = (r, s') →
    run_step (mkRun s log requests) (mkRun s' log requests)
| run_drop b s s' log requests :
    drop_lease b s = (Ok tt, s') →
    run_step (mkRun s log requests) (mkRun s' log requests).

(** Data goes from one regime to another: it stays with its own, or the memory
    that asked for it named the authority that has it. *)
Inductive continues (requests : list StorageGrantRequest) (b : str)
    : option (PointerScheme * str) → option (PointerScheme * str) → Prop :=
| continues_same r : continues requests b r r
| continues_migrated request a surface candidates on_unproven :
    request ∈ requests → base_of request = b →
    rq_comparison request = Memory (Memory_Paranoid surface (Candidates candidates) on_unproven) →
    a ∈ authority_of <$> candidates →
    continues requests b (Some (V1, a)) (Some (V2, authority_of surface)).

(** The hash separates the epochs that are drawn, from each other and from the
    one of relaxed continuity. *)
Record fresh : Prop := {
  fr_epochs b i j x y :
    entropy i 32 = Some x → entropy j 32 = Some y → generation_of b (hex x) = generation_of b (hex y) → i = j;
  fr_stable b i x : entropy i 32 = Some x → generation_of b (hex x) ≠ generation_of b (lit "stable");
}.

(** The epoch was drawn, and all who were given its generation continue to its
    authority. *)
Definition anchored (run : Run) (b : str) (scheme : PointerScheme) (authority epoch : str) : Prop :=
  (∃ k x, (k < rt_draws (rn_root run))%nat ∧ entropy k 32 = Some x ∧ epoch = hex x)
  ∧ ∀ entry, entry ∈ rn_log run → en_base entry = b → en_generation entry = generation_of b epoch →
      continues (rn_requests run) b (en_regime entry) (Some (scheme, authority)).

Definition entry_ok (draws : nat) (entry : Entry) : Prop :=
  match en_regime entry with
  | None => en_generation entry = generation_of (en_base entry) (lit "stable")
  | Some _ => ∃ k x, (k < draws)%nat ∧ entropy k 32 = Some x ∧ en_generation entry = generation_of (en_base entry) (hex x)
  end.

(** Each grant of a generation continues the ones before it. *)
Fixpoint log_ok (requests : list StorageGrantRequest) (log : list Entry) : Prop :=
  match log with
  | [] => True
  | newer :: log =>
      (∀ older, older ∈ log → en_base older = en_base newer → en_generation older = en_generation newer →
         continues requests (en_base newer) (en_regime older) (en_regime newer))
      ∧ log_ok requests log
  end.

Record run_ok (run : Run) : Prop := {
  ro_pointers b scheme document :
    pointer_doc b (root_files (rn_root run)) = Some (scheme, document) →
    anchored run b scheme (pd_authority document) (pd_epoch document);
  ro_entries entry : entry ∈ rn_log run → entry_ok (rt_draws (rn_root run)) entry;
  ro_log : log_ok (rn_requests run) (rn_log run);
}.

Lemma continues_more requests requests' b r r' :
  requests ⊆ requests' → continues requests b r r' → continues requests' b r r'.
Proof. intros Hs [|]; [constructor|]. econstructor; eauto. Qed.

Lemma log_ok_more requests requests' log : requests ⊆ requests' → log_ok requests log → log_ok requests' log.
Proof.
  intros Hs. induction log as [|e log IH]; [done|]. intros [He Hl]. split; [|by apply IH].
  intros older ? ? ?. eapply continues_more; [done|]. by apply He.
Qed.

(** Steps that take no entry leave every pointer or remove it. *)
Lemma run_ok_shrinks (run run' : Run) :
  rn_log run' = rn_log run → rn_requests run' = rn_requests run →
  (rt_draws (rn_root run) ≤ rt_draws (rn_root run'))%nat →
  (∀ b, root_files (rn_root run') !! pointer_path b = root_files (rn_root run) !! pointer_path b
        ∨ root_files (rn_root run') !! pointer_path b = None) →
  run_ok run → run_ok run'.
Proof.
  intros El Er Hd Hp [Hptr Hent Hlog]. split.
  - intros b scheme document H. assert (pointer_doc b (root_files (rn_root run)) = Some (scheme, document)) as H'.
    { unfold pointer_doc in *. destruct (Hp b) as [<-|E]; [done|]. by rewrite E in H. }
    apply Hptr in H' as [(k & x & Hk & Ex) Hc]. split; [exists k, x; split; [lia|done]|]. by rewrite El, Er.
  - rewrite El. intros entry He. specialize (Hent entry He). unfold entry_ok in *. destruct (en_regime entry); [|done].
    destruct Hent as (k & x & Hk & Ex). exists k, x. split; [lia|done].
  - by rewrite El, Er.
Qed.

(** What was written as a pointer is read as one. *)
Lemma written_pointer (b : str) (fs : gmap path Node) (scheme : PointerScheme) (authority epoch : str) :
  pointer_holds b (encode_pointer codec scheme authority epoch) fs →
  pointer_doc b fs = Some (scheme, mkPointer (scheme_version scheme) authority epoch).
Proof.
  unfold pointer_holds, pointer_doc. intros (n & -> & Hn)%fmap_Some. cbn. rewrite <- Hn.
  unfold encode_pointer. rewrite pointer_round_trip. by destruct scheme.
Qed.

Lemma continues_v1 requests b r a : continues requests b r (Some (V1, a)) → r = Some (V1, a).
Proof. by inversion 1. Qed.

Hypothesis Hfresh : fresh.

Section Grant.
Context (run : Run) (Hrun : run_ok run) (request : StorageGrantRequest) (sel : Selection) (hi : nat).
Let b := base_of request.
Let c := rq_comparison request.
Let requests' := request :: rn_requests run.
Hypothesis Hsel : chosen b (root_files (rn_root run)) (rt_draws (rn_root run)) hi c sel.
Hypothesis Hhi : (rt_draws (rn_root run) ≤ hi)%nat.

Lemma old_epoch entry k x :
  entry ∈ rn_log run → en_base entry = b → (rt_draws (rn_root run) ≤ k)%nat → entropy k 32 = Some x →
  en_generation entry ≠ generation_of b (hex x).
Proof.
  intros He Eb Hk Ex E. apply ro_entries in He; [|done]. unfold entry_ok in He. destruct (en_regime entry).
  - destruct He as (k' & y & Hk' & Ey & Eg). rewrite Eb in Eg.
    assert (k' = k); [|lia]. eapply (fr_epochs Hfresh b); [done..|]. by rewrite <- Eg.
  - rewrite Eb in He. apply (fr_stable Hfresh b k x Ex). by rewrite <- E.
Qed.

(** Those who had the generation continue to whoever is given it now. *)
Lemma older_continue entry :
  entry ∈ rn_log run → en_base entry = b → en_generation entry = sl_generation_token sel →
  continues requests' b (en_regime entry) (regime c).
Proof.
  intros He Eb Eg. destruct Hsel as [Hr Hg _|k x scheme authority Hk Ex Hr Hg _|scheme document Hp Hr Hg _ _
    |document surface candidates on_unproven Hp Hc Hin Hg _]; rewrite Hg in Eg.
  - rewrite Hr. pose proof (ro_entries _ Hrun _ He) as Ho. unfold entry_ok in Ho. destruct (en_regime entry); [|constructor].
    destruct Ho as (k & x & _ & Ex & E). destruct (fr_stable Hfresh b k x Ex). by rewrite <- Eg, E, Eb.
  - destruct (old_epoch entry k x); try done. lia.
  - rewrite Hr. apply (ro_pointers _ Hrun) in Hp as [_ Hp]. eapply continues_more; [|by apply Hp]. set_solver.
  - apply (ro_pointers _ Hrun) in Hp as [_ Hp]. specialize (Hp entry He Eb Eg). apply continues_v1 in Hp. rewrite Hp, Hc.
    apply (continues_migrated _ _ request _ _ candidates on_unproven); [by left|done..].
Qed.

Lemma chosen_entry : entry_ok hi (mkEntry b (sl_generation_token sel) (regime c)).
Proof.
  unfold entry_ok. cbn. destruct Hsel as [Hr Hg _|k x scheme authority Hk Ex Hr Hg _|scheme document Hp Hr Hg _ _
    |document surface candidates on_unproven Hp Hc Hin Hg _]; rewrite ?Hr; [done|exists k, x; split; [lia|done]|..].
  - apply (ro_pointers _ Hrun) in Hp as [(k & x & Hk & Ex & E) _]. exists k, x. rewrite <- E. split; [lia|done].
  - rewrite Hc. cbn. apply (ro_pointers _ Hrun) in Hp as [(k & x & Hk & Ex & E) _]. exists k, x. rewrite <- E. split; [lia|done].
Qed.

(** The pointer a choice writes names the generation it chose, for its own. *)
Lemma chosen_pointer pointer :
  sl_authority_pointer sel = Some pointer →
  ∃ scheme authority epoch k x, pointer = encode_pointer codec scheme authority epoch
    ∧ (k < hi)%nat ∧ entropy k 32 = Some x ∧ epoch = hex x
    ∧ sl_generation_token sel = generation_of b epoch ∧ regime c = Some (scheme, authority).
Proof.
  intros Hptr. destruct Hsel as [Hr Hg Ha|k x scheme authority Hk Ex Hr Hg Ha|scheme document Hp Hr Hg Ha _
    |document surface candidates on_unproven Hp Hc Hin Hg Ha]; rewrite Ha in Hptr; try done; injection Hptr as <-.
  - exists scheme, authority, (hex x), k, x. split_and!; try done. lia.
  - apply (ro_pointers _ Hrun) in Hp as [(k & x & Hk & Ex & E) _].
    exists V2, (authority_of surface), (pd_epoch document), k, x. split_and!; try done; [lia|]. by rewrite Hc.
Qed.
End Grant.

Definition new_entries (request : StorageGrantRequest) (r : result Exn StorageGrant) : list Entry :=
  match r with
  | Ok g => [mkEntry (nm_base_token (sg_namespace g)) (nm_generation_token (sg_namespace g)) (regime (rq_comparison request))]
  | Err _ => []
  end.

(** An anchor stays when entries are added that continue to it. *)
Lemma anchored_grant (run : Run) (s' : Root) (new : list Entry) (request : StorageGrantRequest) b scheme authority epoch :
  anchored run b scheme authority epoch → (rt_draws (rn_root run) ≤ rt_draws s')%nat →
  (∀ entry, entry ∈ new → en_base entry = b → en_generation entry = generation_of b epoch →
     continues (request :: rn_requests run) b (en_regime entry) (Some (scheme, authority))) →
  anchored (mkRun s' (new ++ rn_log run) (request :: rn_requests run)) b scheme authority epoch.
Proof.
  intros [(k & x & Hk & Ex) Hold] Hd Hnew. split; [exists k, x; cbn; split; [lia|done]|].
  cbn. intros entry [He|He]%elem_of_app Eb Eg; [by apply Hnew|]. eapply continues_more; [|by apply Hold]. set_solver.
Qed.

(** A new entry whose generation is the one of a pointer that was there has the
    authority of the pointer, or continues to it. *)
Lemma new_entry_anchored (run : Run) (request : StorageGrantRequest) (sel : Selection) (hi : nat) scheme document :
  run_ok run → chosen (base_of request) (root_files (rn_root run)) (rt_draws (rn_root run)) hi (rq_comparison request) sel →
  sl_authority_pointer sel = None → pointer_doc (base_of request) (root_files (rn_root run)) = Some (scheme, document) →
  sl_generation_token sel = generation_of (base_of request) (pd_epoch document) →
  regime (rq_comparison request) = Some (scheme, pd_authority document).
Proof.
  intros Hrun Hsel Hn Hp Hg. destruct Hsel as [Hr Hg' _|k x sch authority Hk Ex Hr Hg' Ha|sch document' Hp' Hr Hg' _ _
    |document' surface candidates on_unproven Hp' Hc Hin Hg' Ha]; [|congruence|congruence|congruence].
  apply (ro_pointers _ Hrun) in Hp as [(k & x & Hk & Ex & E) _].
  destruct (fr_stable Hfresh (base_of request) k x Ex). by rewrite <- E, <- Hg, Hg'.
Qed.

Lemma grant_anchored (run : Run) (request : StorageGrantRequest) (r : result Exn StorageGrant) (s' : Root) scheme document :
  run_ok run → granted sha256 codec entropy (base_of request) (rq_comparison request) (rn_root run) r s' →
  pointer_doc (base_of request) (root_files s') = Some (scheme, document) →
  anchored (mkRun s' (new_entries request r ++ rn_log run) (request :: rn_requests run)) (base_of request) scheme
    (pd_authority document) (pd_epoch document).
Proof.
  intros Hrun [Hd Ho Hptr _ _ Hok] Hp. set (b := base_of request) in *.
  (* a pointer that was written *)
  assert (∀ sel pointer, chosen b (root_files (rn_root run)) (rt_draws (rn_root run)) (rt_draws s') (rq_comparison request) sel →
    sl_authority_pointer sel = Some pointer → pointer_holds b pointer (root_files s') →
    anchored (mkRun s' (new_entries request r ++ rn_log run) (request :: rn_requests run)) b scheme
      (pd_authority document) (pd_epoch document)) as Hwritten.
  { intros sel pointer Hsel Ha Hh.
    destruct (chosen_pointer run Hrun request sel (rt_draws s') Hsel Hd pointer Ha)
      as (sch & authority & epoch & k & x & -> & Hk & Ex & Ee & Hg & Hr).
    apply written_pointer in Hh. rewrite Hh in Hp. injection Hp as <- <-. cbn [pd_authority pd_epoch].
    split; [by exists k, x|]. cbn [rn_log rn_requests]. intros entry [He|He]%elem_of_app Eb Eg.
    - unfold new_entries in He. destruct r as [g|]; [|by apply not_elem_of_nil in He].
      apply list_elem_of_singleton in He as ->. cbn. rewrite Hr. constructor.
    - rewrite <- Hr. apply (older_continue run Hrun request sel (rt_draws s') Hsel Hd entry He Eb). by rewrite Hg. }
  destruct r as [g|e].
  - destruct (Hok g eq_refl) as (Hb & sel & _ & Hsel & Hg & Hafter).
    destruct (sl_authority_pointer sel) as [pointer|] eqn:Ha; [by eapply Hwritten|].
    destruct (bool_decide _); [unfold pointer_doc in Hp; by rewrite Hafter in Hp|].
    assert (pointer_doc b (root_files (rn_root run)) = Some (scheme, document)) as Hp' by (unfold pointer_doc in *; by rewrite <- Hafter).
    apply anchored_grant; [by apply (ro_pointers _ Hrun)|done|]. intros entry He Eb Eg.
    apply list_elem_of_singleton in He as ->. cbn [en_regime en_generation] in *. rewrite Hg in Eg.
    rewrite (new_entry_anchored run request sel (rt_draws s') scheme document Hrun Hsel Ha Hp' Eg). constructor.
  - destruct Hptr as [E|[E|(sel & pointer & Hsel & Ha & Hh)]]; [|unfold pointer_doc in Hp; by rewrite E in Hp|by eapply Hwritten].
    apply anchored_grant; [|done|by intros entry He%not_elem_of_nil]. apply (ro_pointers _ Hrun).
    unfold pointer_doc in *. by rewrite <- E.
Qed.

Lemma run_ok_grant (run : Run) (request : StorageGrantRequest) (r : result Exn StorageGrant) (s' : Root) :
  run_ok run → granted sha256 codec entropy (base_of request) (rq_comparison request) (rn_root run) r s' →
  run_ok (mkRun s' (new_entries request r ++ rn_log run) (request :: rn_requests run)).
Proof.
  intros Hrun Hgr. pose proof (gd_draws _ _ _ _ _ _ _ _ Hgr) as Hd. split.
  - cbn [rn_root]. intros b scheme document Hp. destruct (decide (b = base_of request)) as [->|Hne]; [by apply grant_anchored|].
    assert (pointer_doc b (root_files (rn_root run)) = Some (scheme, document)) as Hp'.
    { unfold pointer_doc in *. by rewrite <- (gd_outside _ _ _ _ _ _ _ _ Hgr _ (pointer_outside _ _ Hne)). }
    apply anchored_grant; [by apply (ro_pointers _ Hrun)|done|]. intros entry He Eb. destruct r as [g|]; cbn in He.
    + apply list_elem_of_singleton in He as ->. destruct (gd_ok _ _ _ _ _ _ _ _ Hgr g eq_refl) as [Hb _]. cbn in Eb. congruence.
    + by apply not_elem_of_nil in He.
  - cbn [rn_root rn_log]. intros entry [He|He]%elem_of_app.
    + destruct r as [g|]; [|by apply not_elem_of_nil in He]. apply list_elem_of_singleton in He as ->.
      destruct (gd_ok _ _ _ _ _ _ _ _ Hgr g eq_refl) as (-> & sel & _ & Hsel & -> & _). by eapply chosen_entry.
    + apply (ro_entries _ Hrun) in He. unfold entry_ok in *. destruct (en_regime entry); [|done].
      destruct He as (k & x & Hk & Ex). exists k, x. split; [lia|done].
  - cbn [rn_requests rn_log]. assert (log_ok (request :: rn_requests run) (rn_log run)) as Hlog.
    { eapply log_ok_more; [|by apply ro_log]. set_solver. }
    destruct r as [g|]; [|done]. split; [|done]. destruct (gd_ok _ _ _ _ _ _ _ _ Hgr g eq_refl) as (Hb & sel & _ & Hsel & Hg & _).
    cbn. rewrite Hb, Hg. intros older He Eb Eg. by eapply older_continue.
Qed.

Lemma run_ok_step (run run' : Run) : run_ok run → run_step run run' → run_ok run'.
Proof.
  intros Hrun Hs. revert Hrun. destruct Hs as [depth now request s log requests r s' E|entry s s' log requests He Hd Hf
    |depth now busy s r s' log requests E|b s s' log requests E]; intros Hrun.
  - pose proof (grant_granted limits io listing sha256 codec entropy depth now request s) as Hg. unfold wp in Hg.
    rewrite E in Hg. cbn in Hg. apply (run_ok_grant (mkRun s log requests) _ _ _ Hrun) in Hg. by destruct r.
  - apply (run_ok_shrinks (mkRun s log requests)); [done..| |done]. intros b. left. apply Hf, pointer_not_in_data.
  - pose proof (sweep_reclaimed limits io listing sha256 codec policies depth now busy s) as Hs. rewrite E in Hs.
    cbn [snd] in Hs. assert (rt_draws s' = rt_draws s) as Hd by apply Hs.
    apply (run_ok_shrinks (mkRun s log requests)); [done..|cbn; lia| |done]. intros b. cbn.
    destruct (rc_files _ _ _ _ _ _ _ _ Hs (pointer_path b)) as [Hp|[Hp _]]; auto.
  - injection E as <-. apply (run_ok_shrinks (mkRun s log requests)); [done..| |done]. by left.
Qed.

(** C7: Over any run on a root that starts without namespaces, with any system
    call failing at any time, a generation that was granted once is granted again
    only under the same regime (continuity relaxed, or the same authority under
    the same scheme), or to a memory that was asked to take it over from the
    authority that had it and whose candidates named that authority. *)
Theorem generations_are_isolated (s0 s : Root) (log : list Entry) (requests : list StorageGrantRequest) :
  (∀ b, root_files s0 !! pointer_path b = None) → rtc run_step (mkRun s0 [] []) (mkRun s log requests) →
  ∀ after newer between older before,
    log = after ++ newer :: between ++ older :: before →
    en_base older = en_base newer → en_generation older = en_generation newer →
    continues requests (en_base newer) (en_regime older) (en_regime newer).
Proof.
  intros H0 Hsteps. assert (run_ok (mkRun s log requests)) as Hrun.
  { revert Hsteps. apply (rtc_ind_r run_ok); [|by intros; eapply run_ok_step]. split; cbn; [|by intros ? ?%not_elem_of_nil|done].
    intros b scheme document. unfold pointer_doc. by rewrite H0. }
  intros after newer between older before ->. apply ro_log in Hrun. cbn in Hrun. clear H0 Hsteps s0.
  induction after as [|e after IH]; [|by apply IH, Hrun]. destruct Hrun as [Hn _]. apply Hn. set_solver.
Qed.
End Isolation.

Section Back.
Context (limits : StorageLimits).
Context (io : nat → Ending) (listing : gmap path Node → path → list str).
Context (sha256 : list Z → list Z) (codec : Codec) `{!CodecLaws codec}.
Context (entropy : nat → nat → option (list Z)).

#[local] Notation grants := (grant limits io listing sha256 codec entropy).

(** After a grant for an authority, the pointer names its generation. *)
Lemma granted_pointer (b : str) (c : Comparison) (s : Root) (g : StorageGrant) (s' : Root) :
  regime sha256 c ≠ None → granted sha256 codec entropy b c s (Ok g) s' →
  ∃ scheme document, pointer_doc codec b (root_files s') = Some (scheme, document)
    ∧ regime sha256 c = Some (scheme, pd_authority document)
    ∧ nm_generation_token (sg_namespace g) = generation_of sha256 b (pd_epoch document).
Proof.
  intros Hc Hg. destruct (gd_ok _ _ _ _ _ _ _ _ Hg g eq_refl) as (_ & sel & _ & Hsel & -> & Hafter).
  destruct Hsel as [Hr _ _|k x scheme authority _ _ Hr Hgen Ha|scheme document Hp Hr Hgen Ha Hrm
    |document surface candidates on_unproven Hp Hcmp _ Hgen Ha]; [done|..]; rewrite Ha in Hafter.
  - apply (written_pointer codec) in Hafter. by eexists _, _.
  - rewrite Hrm in Hafter. change (root_files s' !! pointer_path b = root_files s !! pointer_path b) in Hafter. unfold pointer_doc in *. rewrite Hafter. by eexists _, _.
  - apply (written_pointer codec) in Hafter. eexists _, _. split; [exact Hafter|]. by rewrite Hcmp.
Qed.

(** C18: An authority that comes back finds what it left. After a grant to an
    authority (paranoid continuity: a relaxed comparison names none), under the
    same scheme both times, let the granted data be used and anything happen elsewhere, but
    let the namespace's own directory keep its entries: no other authority is
    granted the namespace meanwhile, and no sweep collects it. Then the next
    grant to the authority in that namespace gives the same generation, with
    every file of it as the last use left it, or an error; it is never given
    an empty generation in silence. *)
Theorem authority_finds_its_data (depth depth' : nat) (now now' : Z) (request request' : StorageGrantRequest)
    (s s1 s2 s3 : Root) (g g' : StorageGrant) :
  grants depth now request s = (Ok g, s1) →
  let generation := nm_generation_token (sg_namespace g) in
  let base := base_path (base_of sha256 request) in
  root_files s2 !! base = root_files s1 !! base →
  (∀ name, root_files s2 !! (base ++ [name]) = root_files s1 !! (base ++ [name])) →
  base_of sha256 request' = base_of sha256 request →
  regime sha256 (rq_comparison request) ≠ None →
  regime sha256 (rq_comparison request') = regime sha256 (rq_comparison request) →
  grants depth' now' request' s2 = (Ok g', s3) →
  nm_generation_token (sg_namespace g') = generation
  ∧ ∀ p, in_data (base_of sha256 request) generation p → root_files s3 !! p = root_files s2 !! p.
Proof.
  intros E1 generation base Hbase Hsame Eb Hr Er E3.
  pose proof (grant_granted limits io listing sha256 codec entropy depth now request s) as H1.
  pose proof (grant_granted limits io listing sha256 codec entropy depth' now' request' s2) as H3.
  unfold wp in H1, H3. rewrite E1 in H1. rewrite E3, Eb in H3. cbn [fst snd] in *. set (b := base_of sha256 request) in *.
  destruct (granted_pointer b _ s g s1 Hr H1) as (scheme & document & Hp & Hreg & Hgen).
  assert (generation = hex (digest sha256 DOMAIN_GENERATION [b; pd_epoch document])) as Hhex by exact Hgen.
  split.
  - destruct (gd_ok _ _ _ _ _ _ _ _ H3 g' eq_refl) as (_ & sel & Hback & _ & -> & _).
    unfold generation. rewrite Hgen. apply (Hback scheme document).
    + subst base. rewrite Hbase. by apply (gd_there _ _ _ _ _ _ _ _ H1).
    + unfold pointer_doc, pointer_path in *. subst base. by rewrite Hsame.
    + by rewrite Er.
  - intros p Hp'. apply (gd_data _ _ _ _ _ _ _ _ H3); [by rewrite Er|]. rewrite Hhex in Hp'. by eexists.
Qed.
End Back.
