(* ===== verification/StorageWitness.v ===== *)
(** * A small storage root

    Concrete parameters for [StorageNamespace] and [StorageSweep] and a root on
    which grants and sweeps are evaluated. *)

From Stdlib Require Import ZArith Lia Ascii String.
From stdpp Require Import base gmap strings list sorting numbers relations.
From S2P Require Import Prelude RustStr Identifier Subject Capability StorageConfig Quota Keys StorageDir StorageScan.
From S2P Require Import StorageNamespace StorageSweep StorageFrames StorageContinuity StorageReclaim StorageIsolation.

Module Demo.

(** A codec: fields with their lengths. *)
Definition put (x : list Z) : list Z := Z.of_nat (length x) :: x.
Definition get (l : list Z) : option (list Z * list Z) :=
  match l with n :: l => Some (take (Z.to_nat n) l, drop (Z.to_nat n) l) | [] => None end.

Lemma get_put (x l : list Z) : get (put x ++ l) = Some (x, l).
Proof. cbn. by rewrite Nat2Z.id, take_app_length, drop_app_length. Qed.

Fixpoint get_all (fuel : nat) (l : list Z) : option (list (list Z)) :=
  match fuel, l with
  | _, [] => Some []
  | O, _ => None
  | S fuel, _ => '(x, l) ← get l; (x ::.) <$> get_all fuel l
  end.

Lemma get_all_put (xs : list (list Z)) (fuel : nat) :
  (length xs ≤ fuel)%nat → get_all fuel (concat (put <$> xs)) = Some xs.
Proof.
  revert fuel. induction xs as [|x xs IH]; intros fuel Hf; [by destruct fuel|]. destruct fuel as [|fuel]; [cbn in Hf; lia|].
  change (concat (put <$> x :: xs)) with (put x ++ concat (put <$> xs)).
  change (get_all (S fuel) (put x ++ concat (put <$> xs)))
    with ('(y, l) ← get (put x ++ concat (put <$> xs)); (y ::.) <$> get_all fuel l).
  rewrite get_put. cbn. rewrite IH; [done|cbn in Hf; lia].
Qed.

Definition scope_tag (s : StorageScope) : Z :=
  match s with PrivateConversation => 0 | SharedConversation => 1 | AgentScope => 2 | SpaceScope => 3 end.
Definition tag_scope (t : Z) : StorageScope :=
  if t =? 0 then PrivateConversation else if t =? 1 then SharedConversation else if t =? 2 then AgentScope else SpaceScope.

Definition codec : Codec := mkCodec
  (fun d => concat (put <$> [pd_api_version d; pd_authority d; pd_epoch d]))
  (fun l => fields ← get_all (length l) l;
            match fields with [v; a; e] => Some (mkPointer v a e) | _ => None end)
  (fun d => scope_tag (ri_scope d) :: concat (put <$> (ri_api_version d :: ri_values d)))
  (fun l => match l with
            | t :: l => fields ← get_all (length l) l;
                        match fields with v :: values => Some (mkIdentity v (tag_scope t) values) | [] => None end
            | [] => None
            end).

Lemma put_length (xs : list (list Z)) : (length xs ≤ length (concat (put <$> xs)))%nat.
Proof. induction xs as [|x xs IH]; cbn; [done|]. rewrite length_app. lia. Qed.

#[export] Instance codec_laws : CodecLaws codec.
Proof.
  split; intros [].
  - cbn -[get_all put fmap concat]. by rewrite get_all_put by apply put_length.
  - cbn -[get_all put fmap concat]. rewrite get_all_put by apply put_length. cbn. by destruct ri_scope.
Qed.

(** A hash of the last byte, and ten random values. *)
Definition sha256 (l : list Z) : list Z := replicate 31 0 ++ [List.last l 0].
Definition entropy (k n : nat) : option (list Z) :=
  if (k <? 10)%nat then Some (replicate (n - 1) 0 ++ [Z.of_nat k]) else None.

Definition io (_ : nat) : Ending := Works.
Definition policies (_ : str) (_ : StorageScope) : option StorageRetention := Some (IdleTtl 100).

Definition root : Root := mkRoot (mkDisk {[ NAMESPACES := new_directory ]} 0) ∅ ∅ (QuotaLedger_new (mkUsage 0 0 0)) 0.

Definition request (comparison : Comparison) : StorageGrantRequest :=
  mkRequest (lit "i") (lit "memory") (lit "notes") Jsonl ReadWrite PrivateConversation (lit "agent")
    (mkSubject SlackUser (lit "t") (lit "u")) (lit "slack") (lit "main") (lit "c") (lit "1") comparison None None.

Definition grants := grant StorageLimits_default io map_listing sha256 codec entropy 5.

Definition own : StorageGrantRequest := request (Provider Paranoid [1]).
Definition other : StorageGrantRequest := request (Provider Paranoid [2]).
Definition memory : StorageGrantRequest := request (Memory (Memory_Paranoid [3] (Candidates [[2]]) Refuse)).
Definition relaxed : StorageGrantRequest := request (Memory Memory_Relaxed).

(** The last byte of what is hashed is the last of the last field. *)
Lemma last_app (l l' : list Z) : l' ≠ [] → List.last (l ++ l') 0 = List.last l' 0.
Proof.
  intros H. destruct (exists_last H) as (l0 & x & ->). by rewrite (assoc (++)), !last_last.
Qed.

Lemma last_generation (b e : str) : e ≠ [] → generation_of sha256 b e = hex (replicate 31 0 ++ [List.last e 0]).
Proof.
  intros He. unfold generation_of, generation_token, token, digest, sha256, preimage. do 3 f_equal.
  cbn [fmap list_fmap app concat]. rewrite app_nil_r, !(assoc (++)). rewrite last_app; [|by destruct e].
  unfold frame. rewrite last_app; [done|done].
Qed.

Lemma fresh_epochs : fresh sha256 entropy.
Proof.
  assert (∀ i x, entropy i 32 = Some x → (i < 10)%nat ∧ x = replicate 31 0 ++ [Z.of_nat i]) as He.
  { intros i x. unfold entropy. destruct (Nat.ltb_spec i 10); [|done]. by intros [= <-]. }
  assert (∀ i, List.last (hex (replicate 31 0 ++ [Z.of_nat i])) 0 = hex_digit (Z.land (Z.of_nat i) 15)) as Hl.
  { intros i. unfold hex. rewrite fmap_app, concat_app. rewrite last_app; [reflexivity|discriminate]. }
  split.
  - intros b i j x y [Hi ->]%He [Hj ->]%He. rewrite !last_generation by done. rewrite !Hl.
    intros E. assert (∀ n, (n < 10)%nat → ∃ k, n = k ∧ (k = 0 ∨ k = 1 ∨ k = 2 ∨ k = 3 ∨ k = 4 ∨ k = 5 ∨ k = 6 ∨ k = 7 ∨ k = 8 ∨ k = 9)%nat) as Hn by (intros n Hn; exists n; lia).
    destruct (Hn i Hi) as (? & -> & H1), (Hn j Hj) as (? & -> & H2).
    repeat destruct H1 as [->|H1]; repeat destruct H2 as [->|H2]; subst; vm_compute in E; congruence.
  - intros b i x [Hi ->]%He. rewrite !last_generation by done. rewrite Hl.
    assert (i = 0 ∨ i = 1 ∨ i = 2 ∨ i = 3 ∨ i = 4 ∨ i = 5 ∨ i = 6 ∨ i = 7 ∨ i = 8 ∨ i = 9)%nat as H1 by lia.
    repeat destruct H1 as [->|H1]; subst; by vm_compute.
Qed.

(** Two authorities, then a memory that takes over from the second. *)
Definition after (m : Root) : Root := (drop_lease (base_of sha256 own) m).2.
Definition out1 : result Exn StorageGrant * Root := grants 0 own root.
Definition out2 : result Exn StorageGrant * Root := grants 0 other (after out1.2).
Definition out3 : result Exn StorageGrant * Root := grants 0 memory (after out2.2).

Definition log_of (request : StorageGrantRequest) (out : result Exn StorageGrant * Root) (log : list Entry) : list Entry :=
  match out.1 with
  | Ok g => mkEntry (nm_base_token (sg_namespace g)) (nm_generation_token (sg_namespace g))
              (regime sha256 (rq_comparison request)) :: log
  | Err _ => log
  end.
Definition log : list Entry := log_of memory out3 (log_of other out2 (log_of own out1 [])).

Definition demo_step := run_step StorageLimits_default io map_listing sha256 codec entropy policies.

Lemma step_grant (request : StorageGrantRequest) (s : Root) (log : list Entry) (requests : list StorageGrantRequest) :
  demo_step (mkRun s log requests)
    (mkRun (grants 0 request s).2 (log_of request (grants 0 request s) log) (request :: requests)).
Proof. apply (run_grant _ _ _ _ _ _ _ 5 0), surjective_pairing. Qed.

Lemma step_drop (s : Root) (log : list Entry) (requests : list StorageGrantRequest) :
  demo_step (mkRun s log requests) (mkRun (after s) log requests).
Proof. by apply (run_drop _ _ _ _ _ _ _ (base_of sha256 own)). Qed.

Lemma demo_grants : rtc demo_step (mkRun root [] []) (mkRun out3.2 log [memory; other; own]).
Proof.
  refine (rtc_l _ _ _ _ (step_grant own root [] []) _). fold out1.
  refine (rtc_l _ _ _ _ (step_drop _ _ _) _).
  refine (rtc_l _ _ _ _ (step_grant other _ _ _) _). fold out2.
  refine (rtc_l _ _ _ _ (step_drop _ _ _) _).
  refine (rtc_l _ _ _ _ (step_grant memory _ _ _) _). fold out3. fold log. apply rtc_refl.
Qed.

(** The generation of the second authority became the memory's. *)
Lemma generations_are_isolated_witness :
  continues sha256 [memory; other; own] (base_of sha256 memory) (regime sha256 (rq_comparison other))
    (regime sha256 (rq_comparison memory)).
Proof.
  assert (∃ b g g', log = [mkEntry b g (regime sha256 (rq_comparison memory)); mkEntry b g (regime sha256 (rq_comparison other));
                           mkEntry b g' (regime sha256 (rq_comparison own))] ∧ b = base_of sha256 memory) as (b & g & g' & E & <-).
  { eexists _, _, _. by vm_compute. }
  apply (generations_are_isolated StorageLimits_default io map_listing sha256 codec entropy policies fresh_epochs root
    out3.2 log [memory; other; own] ltac:(intros b'; by apply lookup_singleton_ne) demo_grants
    [] (mkEntry b g (regime sha256 (rq_comparison memory))) [] (mkEntry b g (regime sha256 (rq_comparison other)))
    [mkEntry b g' (regime sha256 (rq_comparison own))] E eq_refl eq_refl).
Defined.

(** The first authority writes a file and comes back. *)
Definition file_path : path := base_path (base_of sha256 own) ++ [generation_of sha256 (base_of sha256 own) (hex (replicate 32 0)); lit "data"; hex (replicate 32 0)].
Definition written (s : Root) : Root :=
  set_disk s (set_files (insert file_path (demo_file [7; 8; 9])) (rt_disk s)).
Definition back : result Exn StorageGrant * Root := grants 50 own (after (written out1.2)).

Definition no_grant : StorageGrant :=
  mkStorageGrant Jsonl ReadOnly AgentScope (mkNamespace [] [] [] [] []) None.
Definition grant_of (out : result Exn StorageGrant * Root) : StorageGrant :=
  match out.1 with Ok g => g | Err _ => no_grant end.

Lemma ok_pair (out : result Exn StorageGrant * Root) : is_ok out.1 = true → out = (Ok (grant_of out), out.2).
Proof. by destruct out as [[g|e] s]. Qed.

Lemma out1_ok : out1 = (Ok (grant_of out1), out1.2).
Proof. apply ok_pair. vm_compute. reflexivity. Qed.
Lemma back_ok : back = (Ok (grant_of back), back.2).
Proof. apply ok_pair. vm_compute. reflexivity. Qed.
Lemma file_in_data : in_data (base_of sha256 own) (nm_generation_token (sg_namespace (grant_of out1))) file_path.
Proof.
  assert (nm_generation_token (sg_namespace (grant_of out1)) = generation_of sha256 (base_of sha256 own) (hex (replicate 32 0))) as ->.
  { apply str_eqb_eq. vm_compute. reflexivity. }
  split; [|intros E; apply (f_equal length) in E; discriminate E].
  apply bool_decide_eq_true. exists [hex (replicate 32 0)]. unfold file_path. by rewrite <- (assoc (++)).
Qed.

Lemma authority_finds_its_data_witness :
  nm_generation_token (sg_namespace (grant_of back)) = nm_generation_token (sg_namespace (grant_of out1))
  ∧ root_files back.2 !! file_path = Some (demo_file [7; 8; 9]).
Proof.
  destruct (authority_finds_its_data StorageLimits_default io map_listing sha256 codec entropy 5 5 0 50 own own root
    out1.2 (after (written out1.2)) back.2 (grant_of out1) (grant_of back) out1_ok) as [Hg Hd].
  - unfold after, written, root_files. cbn. apply lookup_insert_ne. unfold file_path. intros E.
    apply (f_equal length) in E. discriminate E.
  - intros name. unfold after, written, root_files. cbn. apply lookup_insert_ne. unfold file_path.
    intros E. apply (f_equal length) in E. discriminate E.
  - done.
  - done.
  - done.
  - exact back_ok.
  - split; [exact Hg|]. rewrite Hd by apply file_in_data. apply lookup_insert_eq.
Defined.

(** A sweep of that root: nothing while the grant lasts or before the time is
    up, then the whole namespace. *)
Definition sweeps (now : Z) (s : Root) : result Exn SweepSummary * Root :=
  sweep StorageLimits_default io map_listing sha256 codec policies 5 now (fun _ => false) s.

Example sweep_deletes :
  (sweeps 200 out1.2).1 = Ok (mkSummary 1 0 1 0)
  ∧ (sweeps 99 (after out1.2)).1 = Ok (mkSummary 1 0 1 0)
  ∧ (sweeps 100 (after out1.2)).1 = Ok (mkSummary 1 1 0 0)
  ∧ size (root_files (sweeps 100 (after out1.2)).2) = 1%nat.
Proof. split_and!; vm_compute; reflexivity. Qed.

(** ** Sweeps that fail half way *)

Definition data_path : path :=
  base_path (base_of sha256 own) ++ [generation_of sha256 (base_of sha256 own) (hex (replicate 32 0)); lit "data"].
Definition two_files (s : Root) : Root :=
  set_disk s (set_files (fun fs =>
    <[data_path ++ [hex (replicate 32 0)] := demo_file [1]]> (<[data_path ++ [hex (replicate 32 1)] := demo_file [2]]> fs)) (rt_disk s)).
Definition breaks (k n : nat) : Ending := if (n =? k)%nat then Breaks 0 else Works.
(** A sweep whose [k]th system call fails. *)
Definition failing (k : nat) : result Exn SweepSummary * Root :=
  sweep StorageLimits_default (breaks k) map_listing sha256 codec policies 5 100 (fun _ => false) (two_files (after out1.2)).

(** The removal of a file of the data fails after another was removed: the
    authority is given its generation, without that file and without an error. *)
Example failed_sweep_leaves_part :
  (failing 180).1 = Ok (mkSummary 1 0 0 1)
  ∧ root_files (failing 180).2 !! (data_path ++ [hex (replicate 32 0)]) = None
  ∧ root_files (failing 180).2 !! (data_path ++ [hex (replicate 32 1)]) = Some (demo_file [2])
  ∧ is_ok (grants 101 own (failing 180).2).1 = true.
Proof. split_and!; vm_compute; reflexivity. Qed.

(** The removal of [identity] fails after [last-used] was removed: every grant is
    refused, and later sweeps leave the namespace. *)
Example failed_sweep_locks_out :
  let s := (failing 197).2 in
  (grants 101 own s).1 = Err (Throws (Corrupt (lit "storage-resource-metadata")))
  ∧ (grants 102 own (grants 101 own s).2).1 = Err (Throws (Corrupt (lit "storage-resource-metadata")))
  ∧ (sweeps 1000 s).1 = Ok (mkSummary 1 0 1 0).
Proof. split_and!; vm_compute; reflexivity. Qed.
End Demo.
