(* ===== verification/ShellAst.v ===== *)
(** * Syntax of shell scripts

    [dekopon-shell/src/ast.rs], the tokens and errors of [lexer.rs] and
    [parser/refusal.rs], and the depth counters of [parser/depth.rs] and
    [parser/nested.rs]: what the lexer and the parser of scripts produce.

    A script is a Rust [str]. A 64-bit float is a [spec_float] at precision 53
    and exponent 1024; the text of the messages is not modelled, the errors
    that carry them are. The derived equality of the syntax tree is never
    called by the parser and has no definition here. *)

From Stdlib Require Import ZArith Lia Ascii String Floats.SpecFloat.
From stdpp Require Import base strings list numbers.
From S2P Require Import Prelude RustStr.

(** ** Characters *)

Definition is_ascii_alphabetic (c : Z) : bool := is_ascii_lowercase c || is_ascii_uppercase c.

(** ** Numbers of attachments *)

(** [AssetNumber::parse]: [u64::parse] refuses nothing but zero here, which no
    text that passes the first test denotes, and overflow. *)
Definition asset_parse (text : str) : option Z :=
  match strip_prefix text (lit "chat-asset:") with
  | None => None
  | Some digits =>
      if starts_with digits (lit "0") || negb (forallb is_ascii_digit digits) then None
      else match parse_u64 digits with
           | Some n => if n =? 0 then None else Some n
           | None => None
           end
  end.

(** ** Arithmetic *)

Inductive ArithUnaryOp : Type := Negate | Not.

Inductive ArithBinaryOp : Type :=
| Add | Subtract | Multiply | Divide | Remainder
| Less | LessOrEqual | Greater | GreaterOrEqual | Equal | NotEqual
| And | Or.

#[global] Instance ArithUnaryOp_eq_dec : EqDecision ArithUnaryOp.
Proof. solve_decision. Defined.
#[global] Instance ArithBinaryOp_eq_dec : EqDecision ArithBinaryOp.
Proof. solve_decision. Defined.

(** [ArithExpr] keeps the height of its tree beside the node. *)
Inductive ArithExpr : Type :=
| mkArithExpr (node : ArithNode) (height : Z)
with ArithNode : Type :=
| Integer (value : Z)
| Float (value : spec_float)
| Variable_ (name : str)
| Unary (op : ArithUnaryOp) (operand : ArithExpr)
| Binary (op : ArithBinaryOp) (left right : ArithExpr).

Definition node (e : ArithExpr) : ArithNode := match e with mkArithExpr n _ => n end.
Definition height (e : ArithExpr) : Z := match e with mkArithExpr _ h => h end.

Inductive ArithTooDeep : Type := mkArithTooDeep.

Definition height_next (h : Z) : result ArithTooDeep Z :=
  if 64 <=? h then Err mkArithTooDeep else Ok (h + 1).

Definition arith_integer (value : Z) : ArithExpr := mkArithExpr (Integer value) 0.
Definition arith_float (value : spec_float) : ArithExpr := mkArithExpr (Float value) 0.
Definition arith_variable (name : str) : ArithExpr := mkArithExpr (Variable_ name) 0.
Definition arith_unary (op : ArithUnaryOp) (operand : ArithExpr) : result ArithTooDeep ArithExpr :=
  let? h := height_next (height operand) in
  Ok (mkArithExpr (Unary op operand) h).
Definition arith_binary (op : ArithBinaryOp) (left right : ArithExpr)
  : result ArithTooDeep ArithExpr :=
  let? h := height_next (Z.max (height left) (height right)) in
  Ok (mkArithExpr (Binary op left right) h).

(** ** Programs *)

Inductive AndOr : Type := AndOr_And | AndOr_Or.

Inductive Stream : Type := Stdout | Stderr | Both.

#[global] Instance Stream_eq_dec : EqDecision Stream.
Proof. solve_decision. Defined.

Inductive Program : Type :=
| mkProgram (statements : list Statement)
with Statement : Type :=
| List_ (l : AndOrList)
| If (branches : list (AndOrList * Program)) (otherwise : option Program)
| For (variable : str) (words : list Word) (body : Program)
| While (condition : AndOrList) (body : Program) (until : bool)
| Case (subject : Word) (clauses : list (list Word * Program))
| Group (p : Program)
| Conditional_ (c : Conditional)
| Function_ (name : str) (body : Program)
| Background (statement : Statement) (text : str)
with AndOrList : Type :=
| mkAndOrList (first : Pipeline) (rest : list (AndOr * Pipeline))
with Pipeline : Type :=
| mkPipeline (commands : list Command) (negated : bool)
with Command : Type :=
| Simple (assignments : list (str * Word)) (words : list Word)
    (redirects : list (Stream * RedirectTarget)) (here_doc : option Word)
| Compound (statement : Statement) (redirects : list (Stream * RedirectTarget))
with RedirectTarget : Type :=
| Buffer (append : bool) (target : Word)
| ToStream (s : Stream)
with Conditional : Type :=
| Test_ (words : list Word) (check_right_pattern : bool)
| CNot (c : Conditional)
| CAnd (terms : list Conditional)
| COr (terms : list Conditional)
with Word : Type :=
| mkWord (parts : list WordPart)
with WordPart : Type :=
| Asset (number : Z)
| Literal (text : str)
| SingleQuoted (text : str)
| DoubleQuoted (parts : list WordPart)
| Parameter_ (p : Param)
| CommandSubstitution (p : Program)
| Arithmetic (e : ArithExpr)
with Param : Type :=
| Named (name : str) (indices : list Index) (modifier : Modifier) (length : bool)
| Positional (position : Z)
| AllPositional
| AllPositionalJoined
| PositionalCount
| LastStatus
| LastJob
with Index : Type :=
| At (w : Word)
| All
| AllJoined
with Modifier : Type :=
| NoModifier
| Default (colon : bool) (word : Word)
| Assign (colon : bool) (word : Word)
| Require_ (colon : bool) (word : option Word)
| Alternate (colon : bool) (word : Word)
| StripPrefix (p : Pattern)
| StripSuffix (p : Pattern)
| Replace (all : bool) (pattern : Pattern) (replacement : Word)
with Pattern : Type :=
| LiteralPattern (w : Word)
| Expanded (w : Word).

Definition statements (p : Program) : list Statement := match p with mkProgram s => s end.
Definition parts (w : Word) : list WordPart := match w with mkWord p => p end.

(** A redirection: [Redirect { source, target }]. *)
Abbreviation Redirect := (Stream * RedirectTarget)%type.

Definition as_literal (w : Word) : option str :=
  match parts w with
  | [Literal text] => Some text
  | _ => None
  end.

(** ** Tokens *)

Inductive TokenKind : Type :=
| TWord (w : Word)
| Pipe
| Semicolon
| DoubleSemicolon
| Newline
| AndAnd
| OrOr
| Ampersand
| LeftParen
| RightParen
| LeftBrace
| RightBrace
| TRedirect (source : Stream) (append : bool)
| Duplicate (source target : Stream)
| TLess
| HereDoc (w : Word)
| LessParen.

Record Token : Type := mkToken { kind : TokenKind; token_line : Z; offset : Z }.

(** ** Errors *)

Inductive LexError : Type :=
| Backtick
| UnterminatedHereDocumentOf (delimiter : str)
| TrailingBackslash
| UnterminatedSingleQuoted
| HereString
| UnterminatedHereDelimiter
| SplitHereDelimiter
| ExpectedHereDelimiter
| PositionalOutOfRange (digits : str)
| EmptyParameter
| IndexAfterAll (name : str)
| UnterminatedParameter
| LengthWithTransformation (name : str) (first : Z)
| ColonInPattern (name : str) (operator : Z)
| UnsupportedParameter (name : str) (colon : bool) (other : Z)
| OperatorInParameter (operator : option TokenKind) (character : Z)
| UnterminatedIndex
| EmptyIndex
| MultipleIndexExpressions
| UnterminatedArithmetic
| ArithmeticClosingText
| DuplicationTarget
| UnknownDescriptor
| InputDuplication
| BothDuplication
| CaseFallthrough
| UnterminatedDoubleQuoted
| UnterminatedHereBody.

Inductive Construct : Type :=
| CIf | CElif | CArithmetic | CWhile | CUntil | CFor | CCase | CGroup | CFunction
| CConditional | CTestNot | CTestGroup.

(** [Construct::units]. *)
Definition units (c : Construct) : Z :=
  match c with
  | CGroup => 2
  | CIf | CElif | CArithmetic | CWhile | CUntil | CFor | CCase | CFunction
  | CConditional | CTestNot | CTestGroup => 1
  end.

Inductive RejectedCommand : Type :=
| REval | RExec | RSource | RDot | RTrap | RFg | RBg | RDeclare | RExport.

Definition rejected_lookup (word : str) : option RejectedCommand :=
  if str_eqb word (lit "eval") then Some REval
  else if str_eqb word (lit "exec") then Some RExec
  else if str_eqb word (lit "source") then Some RSource
  else if str_eqb word (lit ".") then Some RDot
  else if str_eqb word (lit "trap") then Some RTrap
  else if str_eqb word (lit "fg") then Some RFg
  else if str_eqb word (lit "bg") then Some RBg
  else if str_eqb word (lit "declare") then Some RDeclare
  else if str_eqb word (lit "export") then Some RExport
  else None.

Inductive Refusal : Type :=
| UnexpectedToken (k : TokenKind)
| UnexpectedRightParen
| UnterminatedSubstitution
| UnterminatedHereDocument
| DuplicationOrder (source copied : Stream)
| ExpectedReserved (expected : str) (context : Construct)
| UnexpectedAfterCommand (other : TokenKind)
| BackgroundFunction (name : str)
| UnmatchedEsac
| Select
| FunctionKeyword
| UnexpectedReserved (other : str)
| InvalidFunctionName (name : str)
| RejectedFunction (name : str) (rejected : RejectedCommand)
| ReservedFunction (name : str)
| ExpectedFunctionOpen (name : str)
| ExpectedFunctionClose (name : str)
| CStyleFor
| ExpectedForVariable
| ForVariableNotPlain
| InvalidForVariable (variable : str)
| ExpectedCaseSubject
| ExpectedCasePatternClose
| ExpectedCasePattern (found : option TokenKind)
| ExpectedCondition (found : option TokenKind)
| TooManyConditionOperands
| RegexCondition
| ConditionalPattern (character : Z)
| ExpectedRedirectBuffer
| SelfDuplication (source target : Stream)
| ArrayLiteral
| ArithmeticCommand
| Subshell
| MultipleHereDocuments
| ProcessSubstitution
| InputRedirect
| ExpectedCommand (found : option TokenKind)
| ParameterPattern (character : Z)
| ArithmeticTokenLimit
| InvalidArithmeticLiteral (literal : str)
| ArithmeticLiteralOutOfRange (literal : str)
| ExpectedArithmeticVariable
| ArithmeticCharacter (character : Z)
| EmptyArithmetic
| TrailingArithmeticTokens
| UnbalancedArithmetic
| UnexpectedArithmeticSymbol (symbol : str)
| ArithmeticEnded
| ExpectedGroupClose
| EmptyGroup
| ExpectedConditionalClose (found : option TokenKind)
| ExpectedCaseClauseEnd
| ExpectedTestGroupClose
| ArithmeticPower
| ArithmeticIncrement
| ArithmeticDecrement
| ArithmeticCompoundAssignment
| ArithmeticBitwise
| ArithmeticTernary
| ArithmeticAssignment
| ArithmeticComma.

Inductive TooDeep : Type :=
| Grammar (construct : Construct)
| TooDeepSubstitution
| TooDeepParameter
| ArithmeticOperators.

Inductive ParseError : Type :=
| Lex (line : Z) (refusal : LexError)
| Refused (line : Z) (refusal : Refusal)
| TooDeep_ (line : Z) (refusal : TooDeep).

(** ** Depth *)

Definition MAX_NESTING_DEPTH : Z := 64.
Definition MAX_PARAMETER_NESTING : Z := 32.

Record Depth : Type := mkDepth { d_lexer : Z; d_block : Z }.

(** [too_deep]. *)
Definition too_deep (line : Z) (c : Construct) : ParseError := TooDeep_ line (Grammar c).

Definition depth_nest (d : Depth) (units line : Z) (c : Construct) : result ParseError Depth :=
  if MAX_NESTING_DEPTH <? d_lexer d + d_block d + units then Err (too_deep line c)
  else Ok (mkDepth (d_lexer d) (d_block d + units)).

Definition depth_substitution (d : Depth) (line : Z) : result ParseError Depth :=
  let sum := d_lexer d + d_block d in
  if MAX_NESTING_DEPTH - 1 <=? sum then Err (TooDeep_ line TooDeepSubstitution)
  else Ok (mkDepth (sum + 1) 1).

Definition depth_parameter (d : Depth) (line : Z) : result ParseError Depth :=
  if MAX_PARAMETER_NESTING <=? d_lexer d + 1 then Err (TooDeep_ line TooDeepParameter)
  else Ok (mkDepth (d_lexer d + 1) (d_block d)).

Definition depth_arithmetic_group (d : Depth) (line : Z) : result ParseError Depth :=
  depth_nest d 1 line CArithmetic.
