(* ===== verification/ShellArith.v ===== *)
(** * Arithmetic of scripts: tokens and expressions

    [dekopon-shell/src/parser.rs], from [ARITH_SYMBOLS] on: the text between
    [$((] and [))] is cut into tokens, at most [MAX_ARITHMETIC_TOKENS], and read
    by a recursive-descent parser with one function per level of precedence.
    A group in parentheses takes a unit of the depth the surrounding script
    has left, and a tree is at most 64 operators high.

    The loops of the code run on fuel: one unit per byte in the tokenizer, one
    per token in the parser, and [GROUP_FUEL] nested groups. A run that would
    exhaust it ends in [OutOfFuel]; [ShellArithTheory] proves that none does. *)

From Stdlib Require Import ZArith Lia Ascii String Floats.SpecFloat.
From stdpp Require Import base strings list numbers.
From S2P Require Import Prelude RustStr ShellAst.

(** Why a run of the parser ended without a result: the error the code
    returns, or the model's fuel. *)
Inductive fault : Type :=
| Error (e : ParseError)
| OutOfFuel.

Definition refused (line : Z) (r : Refusal) : fault := Error (Refused line r).

(** [?] on a result of the code. *)
Definition lift {A : Type} (m : result ParseError A) : result fault A :=
  match m with Ok a => Ok a | Err e => Err (Error e) end.

(** ** Numbers *)

(** The value of a run of digits. *)
Definition digits_value (s : str) : Z := foldl (fun acc c => acc * 10 + (c - 48)) 0 s.

(** [str::parse::<i64>]: an optional sign, then digits, in range. *)
Definition parse_i64 (s : str) : option Z :=
  let unsigned (sign : Z) (s : str) :=
    if is_empty s || negb (forallb is_ascii_digit s) then None
    else try_i64 (sign * digits_value s) in
  match s with
  | c :: rest =>
      if c =? ch "-" then unsigned (-1) rest
      else if c =? ch "+" then unsigned 1 rest
      else unsigned 1 s
  | [] => None
  end.

(** The 64-bit float nearest to [n / d], ties to even: what a decimal literal
    denotes. *)
Definition f64_prec : Z := 53.
Definition f64_emax : Z := 1024.
Definition f64_ratio (negative : bool) (n d : Z) : spec_float :=
  match n, d with
  | Zpos n, Zpos d =>
      let '(q, e, l) := SFdiv_core_binary f64_prec f64_emax (Zpos n) 0 (Zpos d) 0 in
      binary_round_aux f64_prec f64_emax negative q e l
  | _, _ => S754_zero negative
  end.

(** [str::parse::<f64>] on digits, a dot and digits. *)
Definition f64_of_literal (whole fraction : str) : spec_float :=
  f64_ratio false (digits_value (whole ++ fraction)) (10 ^ len fraction).

(** ** Tokens *)

Inductive ArithToken : Type :=
| AInteger (value : Z)
| AFloat (value : spec_float)
| AName (name : str)
| ASymbol (symbol : str).

Inductive ArithSymbol : Type :=
| Kept
| Rejected (reason : Refusal).

Definition MAX_ARITHMETIC_TOKENS : Z := 4096.

Definition ARITH_SYMBOLS : list (str * ArithSymbol) :=
  [(lit "**", Rejected ArithmeticPower);
   (lit "++", Rejected ArithmeticIncrement);
   (lit "--", Rejected ArithmeticDecrement);
   (lit "+=", Rejected ArithmeticCompoundAssignment);
   (lit "-=", Rejected ArithmeticCompoundAssignment);
   (lit "*=", Rejected ArithmeticCompoundAssignment);
   (lit "/=", Rejected ArithmeticCompoundAssignment);
   (lit "%=", Rejected ArithmeticCompoundAssignment);
   (lit "<<", Rejected ArithmeticBitwise);
   (lit ">>", Rejected ArithmeticBitwise);
   (lit "&&", Kept);
   (lit "||", Kept);
   (lit "<=", Kept);
   (lit ">=", Kept);
   (lit "==", Kept);
   (lit "!=", Kept);
   (lit "+", Kept);
   (lit "-", Kept);
   (lit "*", Kept);
   (lit "/", Kept);
   (lit "%", Kept);
   (lit "(", Kept);
   (lit ")", Kept);
   (lit "<", Kept);
   (lit ">", Kept);
   (lit "!", Kept);
   (lit "=", Rejected ArithmeticAssignment);
   (lit "?", Rejected ArithmeticTernary);
   (lit ":", Rejected ArithmeticTernary);
   (lit "&", Rejected ArithmeticBitwise);
   (lit "|", Rejected ArithmeticBitwise);
   (lit "^", Rejected ArithmeticBitwise);
   (lit "~", Rejected ArithmeticBitwise);
   (lit ",", Rejected ArithmeticComma)].

(** The longest prefix of bytes that satisfy a test, and the rest: a [while]
    over [index]. *)
Fixpoint span (p : Z → bool) (s : str) : str * str :=
  match s with
  | c :: rest => if p c then let '(a, b) := span p rest in (c :: a, b) else ([], s)
  | [] => ([], [])
  end.

Definition is_name_byte (c : Z) : bool := is_ascii_alphanumeric c || (c =? ch "_").

(** The character at the head of a non-empty string. *)
Definition first_char (s : str) : Z :=
  match s with b :: _ => utf8_scalar (take (utf8_width b) s) | [] => 0 end.

(** A literal: [Integer] or, after a dot, [Float]. *)
Definition read_number (rest : str) (line : Z) : result fault (ArithToken * str) :=
  let '(whole, rest) := span is_ascii_digit rest in
  match rest with
  | c :: after =>
      if c =? ch "." then
        let '(fraction, rest) := span is_ascii_digit after in
        Ok (AFloat (f64_of_literal whole fraction), rest)
      else
        let? value := ok_or (parse_i64 whole) (refused line (ArithmeticLiteralOutOfRange whole)) in
        Ok (AInteger value, rest)
  | [] =>
      let? value := ok_or (parse_i64 whole) (refused line (ArithmeticLiteralOutOfRange whole)) in
      Ok (AInteger value, rest)
  end.

Definition read_variable (rest : str) (line : Z) : result fault (ArithToken * str) :=
  let rest := match rest with c :: tail => if c =? ch "$" then tail else rest | [] => rest end in
  let '(name, rest) := span is_name_byte rest in
  if is_empty name then Err (refused line ExpectedArithmeticVariable)
  else Ok (AName name, rest).

Definition read_symbol (rest : str) (line : Z) : result fault (ArithToken * str) :=
  match List.find (fun entry => starts_with rest entry.1) ARITH_SYMBOLS with
  | None => Err (refused line (ArithmeticCharacter (first_char rest)))
  | Some (_, Rejected reason) => Err (refused line reason)
  | Some (matched, Kept) => Ok (ASymbol matched, drop (length matched) rest)
  end.

Fixpoint tokenize_loop (fuel : nat) (rest : str) (line : Z) (tokens : list (ArithToken * Z))
  : result fault (list (ArithToken * Z)) :=
  match rest, fuel with
  | [], _ => Ok tokens
  | _, O => Err OutOfFuel
  | b :: tail, S fuel =>
      if MAX_ARITHMETIC_TOKENS <=? Z.of_nat (length tokens) then
        Err (refused line ArithmeticTokenLimit)
      else
        let character := first_char rest in
        if is_ascii_whitespace character then
          tokenize_loop fuel tail (if character =? 10 then line + 1 else line) tokens
        else
          let? (token, rest) :=
            if is_ascii_digit character then read_number rest line
            else if is_ascii_alphabetic character || (character =? ch "_") || (character =? ch "$")
            then read_variable rest line
            else read_symbol rest line in
          tokenize_loop fuel rest line (tokens ++ [(token, line)])
  end.

Definition tokenize_arithmetic (source : str) (line : Z) : result fault (list (ArithToken * Z)) :=
  tokenize_loop (length source) source line [].

(** ** Expressions *)

(** [remaining] is [tokens] from [position] on. *)
Record ArithParser : Type := mkArithParser {
  remaining : list (ArithToken * Z);
  ap_line : Z;
  ap_depth : Depth;
}.

Definition advance (p : ArithParser) : ArithParser :=
  mkArithParser (tail (remaining p)) (ap_line p) (ap_depth p).
Definition set_ap_line (line : Z) (p : ArithParser) : ArithParser :=
  mkArithParser (remaining p) line (ap_depth p).
Definition set_ap_depth (d : Depth) (p : ArithParser) : ArithParser :=
  mkArithParser (remaining p) (ap_line p) d.

Abbreviation parsed := (result fault (ArithExpr * ArithParser)).

Definition peek_symbol (p : ArithParser) : option str :=
  match remaining p with (ASymbol symbol, _) :: _ => Some symbol | _ => None end.

Definition at_symbol (symbol : str) (p : ArithParser) : bool :=
  match peek_symbol p with Some s => str_eqb s symbol | None => false end.

(** [eat_symbol]. *)
Definition eat_symbol (symbol : str) (p : ArithParser) : bool * ArithParser :=
  if at_symbol symbol p then (true, advance p) else (false, p).

Definition arithmetic_too_deep (p : ArithParser) : fault :=
  Error (TooDeep_ (ap_line p) ArithmeticOperators).

Definition or_too_deep (m : result ArithTooDeep ArithExpr) (p : ArithParser)
  : result fault ArithExpr :=
  match m with Ok e => Ok e | Err _ => Err (arithmetic_too_deep p) end.

Section Levels.

(** The [while let] of [parse_binary_level]. *)
Fixpoint binary_loop (fuel : nat) (operators : list (str * ArithBinaryOp))
    (next : ArithParser → parsed) (lhs : ArithExpr) (p : ArithParser) : parsed :=
  match fuel with
  | O => Err OutOfFuel
  | S fuel =>
      match peek_symbol p with
      | None => Ok (lhs, p)
      | Some symbol =>
          match List.find (fun entry => str_eqb entry.1 symbol) operators with
          | None => Ok (lhs, p)
          | Some (_, operator) =>
              let? (rhs, p) := next (advance p) in
              let? lhs := or_too_deep (arith_binary operator lhs rhs) p in
              binary_loop fuel operators next lhs p
          end
      end
  end.

Definition parse_binary_level (operators : list (str * ArithBinaryOp))
    (next : ArithParser → parsed) (p : ArithParser) : parsed :=
  let? (lhs, p) := next p in
  binary_loop (S (length (remaining p))) operators next lhs p.

(** The operators before a primary, in order. *)
Fixpoint unary_loop (fuel : nat) (operators : list ArithUnaryOp) (p : ArithParser)
  : result fault (list ArithUnaryOp * ArithParser) :=
  match fuel with
  | O => Err OutOfFuel
  | S fuel =>
      let '(eaten, p) := eat_symbol (lit "-") p in
      if eaten then unary_loop fuel (operators ++ [Negate]) p
      else
        let '(eaten, p) := eat_symbol (lit "!") p in
        if eaten then unary_loop fuel (operators ++ [Not]) p
        else
          let '(eaten, p) := eat_symbol (lit "+") p in
          if eaten then unary_loop fuel operators p else Ok (operators, p)
  end.

(** [for operator in operators.into_iter().rev()]. *)
Fixpoint apply_unary (operators : list ArithUnaryOp) (operand : ArithExpr) (p : ArithParser)
  : result fault ArithExpr :=
  match operators with
  | [] => Ok operand
  | operator :: operators =>
      let? operand := or_too_deep (arith_unary operator operand) p in
      apply_unary operators operand p
  end.

(** [parse_or] inside a group. *)
Context (parse_or_inner : ArithParser → parsed).

(** [group], and the drop of its guard, which gives the depth back. *)
Definition parse_group_or (p : ArithParser) : parsed :=
  let saved := ap_depth p in
  let? d := lift (depth_arithmetic_group saved (ap_line p)) in
  let? (inner, p) := parse_or_inner (set_ap_depth d p) in
  Ok (inner, set_ap_depth saved p).

Definition parse_primary (p : ArithParser) : parsed :=
  let line := match remaining p with (_, line) :: _ => line | [] => ap_line p end in
  let p := set_ap_line line p in
  match remaining p with
  | (AInteger value, _) :: _ => Ok (arith_integer value, advance p)
  | (AFloat value, _) :: _ => Ok (arith_float value, advance p)
  | (AName name, _) :: _ => Ok (arith_variable name, advance p)
  | (ASymbol symbol, _) :: _ =>
      if str_eqb symbol (lit "(") then
        let? (inner, p) := parse_group_or (advance p) in
        let '(eaten, p) := eat_symbol (lit ")") p in
        if eaten then Ok (inner, p) else Err (refused line UnbalancedArithmetic)
      else Err (refused line (UnexpectedArithmeticSymbol symbol))
  | [] => Err (refused line ArithmeticEnded)
  end.

Definition parse_unary (p : ArithParser) : parsed :=
  let? (operators, p) := unary_loop (S (length (remaining p))) [] p in
  let? (operand, p) := parse_primary p in
  let? operand := apply_unary (rev operators) operand p in
  Ok (operand, p).

Definition parse_multiplicative : ArithParser → parsed :=
  parse_binary_level
    [(lit "*", Multiply); (lit "/", Divide); (lit "%", Remainder)] parse_unary.

Definition parse_additive : ArithParser → parsed :=
  parse_binary_level [(lit "+", Add); (lit "-", Subtract)] parse_multiplicative.

Definition parse_relational : ArithParser → parsed :=
  parse_binary_level
    [(lit "<=", LessOrEqual); (lit ">=", GreaterOrEqual); (lit "<", Less); (lit ">", Greater)]
    parse_additive.

Definition parse_equality : ArithParser → parsed :=
  parse_binary_level [(lit "==", Equal); (lit "!=", NotEqual)] parse_relational.

Definition parse_and : ArithParser → parsed :=
  parse_binary_level [(lit "&&", And)] parse_equality.

Definition parse_or_level : ArithParser → parsed :=
  parse_binary_level [(lit "||", Or)] parse_and.

End Levels.

(** A group takes a unit of the 64 a depth may hold, so no run opens more
    than 64 inside the outermost [parse_or]. *)
Definition GROUP_FUEL : nat := 65.

Fixpoint parse_or (groups : nat) (p : ArithParser) : parsed :=
  match groups with
  | O => Err OutOfFuel
  | S groups => parse_or_level (parse_or groups) p
  end.
#[global] Arguments parse_or : simpl never.

Definition parse_arithmetic (source : str) (line : Z) (depth : Depth) : result fault ArithExpr :=
  let? tokens := tokenize_arithmetic source line in
  if is_nil tokens then Err (refused line EmptyArithmetic)
  else
    let? (expression, p) := parse_or GROUP_FUEL (mkArithParser tokens line depth) in
    match remaining p with
    | (_, line) :: _ => Err (refused line TrailingArithmeticTokens)
    | [] => Ok expression
    end.
