(* ===== verification/ShellArithTheory.v ===== *)
(** * Arithmetic of scripts: theorems

    The tokenizer and the parser of [ShellArith] always answer; what they
    accept is well formed, with heights within 64; and an expression printed
    with the fewest parentheses its precedences allow reads back as itself. *)

From Stdlib Require Import ZArith Lia Ascii String Floats.SpecFloat.
From stdpp Require Import base strings list numbers.
From S2P Require Import Prelude RustStr ShellAst ShellArith.

(** ** Well-formed expressions *)

Definition name_ok (name : str) : Prop := name ≠ [] ∧ forallb is_name_byte name = true.

Fixpoint arith_ok (e : ArithExpr) : Prop :=
  match e with
  | mkArithExpr n h =>
      match n with
      | Integer v => h = 0 ∧ 0 ≤ v ≤ i64_max
      | Float _ => h = 0
      | Variable_ name => h = 0 ∧ name_ok name
      | Unary _ x => h = height x + 1 ∧ h ≤ 64 ∧ arith_ok x
      | Binary _ l r => h = Z.max (height l) (height r) + 1 ∧ h ≤ 64 ∧ arith_ok l ∧ arith_ok r
      end
  end.

Definition token_ok (t : ArithToken) : Prop :=
  match t with
  | AInteger v => 0 ≤ v ≤ i64_max
  | AName name => name_ok name
  | AFloat _ | ASymbol _ => True
  end.

Scheme ArithExpr_mut := Induction for ArithExpr Sort Prop
with ArithNode_mut := Induction for ArithNode Sort Prop.

Lemma arith_expr_ind (P : ArithExpr → Prop) :
  (∀ v h, P (mkArithExpr (Integer v) h)) →
  (∀ f h, P (mkArithExpr (Float f) h)) →
  (∀ s h, P (mkArithExpr (Variable_ s) h)) →
  (∀ op x h, P x → P (mkArithExpr (Unary op x) h)) →
  (∀ op l r h, P l → P r → P (mkArithExpr (Binary op l r) h)) →
  ∀ e, P e.
Proof.
  intros HI HF HV HU HB.
  apply (ArithExpr_mut P (fun n => ∀ h, P (mkArithExpr n h))); auto.
Qed.

Lemma arith_unary_ok (op : ArithUnaryOp) (x e : ArithExpr) :
  arith_ok x → arith_unary op x = Ok e → arith_ok e.
Proof.
  unfold arith_unary, height_next. intros Hx. destruct (64 <=? height x) eqn:E; simpl; [done|].
  intros [= <-]. simpl. dk_bool. repeat split; [lia|done].
Qed.

Lemma arith_binary_ok (op : ArithBinaryOp) (l r e : ArithExpr) :
  arith_ok l → arith_ok r → arith_binary op l r = Ok e → arith_ok e.
Proof.
  unfold arith_binary, height_next. intros Hl Hr. destruct (64 <=? _) eqn:E; simpl; [done|].
  intros [= <-]. simpl. dk_bool. repeat split; [lia|done..].
Qed.

Lemma arith_unary_wf (op : ArithUnaryOp) (x : ArithExpr) (h : Z) :
  arith_ok (mkArithExpr (Unary op x) h) → arith_unary op x = Ok (mkArithExpr (Unary op x) h).
Proof.
  simpl. intros (-> & Hh & _). unfold arith_unary, height_next.
  replace (64 <=? height x) with false by (symmetry; dk_bool; lia). done.
Qed.

Lemma arith_binary_wf (op : ArithBinaryOp) (l r : ArithExpr) (h : Z) :
  arith_ok (mkArithExpr (Binary op l r) h) →
  arith_binary op l r = Ok (mkArithExpr (Binary op l r) h).
Proof.
  simpl. intros (-> & Hh & _ & _). unfold arith_binary, height_next.
  replace (64 <=? _) with false by (symmetry; dk_bool; lia). done.
Qed.

(** ** The tokenizer answers *)

Lemma span_eq (p : Z → bool) (s a b : str) :
  span p s = (a, b) → s = a ++ b ∧ forallb p a = true.
Proof.
  revert a b. induction s as [|c s IH]; simpl; intros a b H; [by simplify_eq|].
  destruct (p c) eqn:E; [|by simplify_eq].
  destruct (span p s) as [a' b'] eqn:E'. simplify_eq. destruct (IH _ _ eq_refl) as [-> Hf].
  simpl. by rewrite E.
Qed.

Lemma span_over (p : Z → bool) (a rest : str) :
  forallb p a = true → (match rest with c :: _ => p c = false | [] => True end) →
  span p (a ++ rest) = (a, rest).
Proof.
  induction a as [|c a IH]; simpl; intros Ha Hr.
  - destruct rest as [|c rest]; simpl; [done|]. by rewrite Hr.
  - apply andb_prop in Ha as [-> Ha]. by rewrite IH.
Qed.

(** What a reader of one token leaves: a proper suffix and a token in range. *)
Definition reads_token (rest : str) (m : result fault (ArithToken * str)) : Prop :=
  match m with
  | Ok (t, rest') => token_ok t ∧ (length rest' < length rest)%nat
  | Err OutOfFuel => False
  | Err (Error _) => True
  end.

Lemma digits_value_nonneg (s : str) : forallb is_ascii_digit s = true → 0 ≤ digits_value s.
Proof.
  unfold digits_value.
  cut (∀ acc, 0 ≤ acc → forallb is_ascii_digit s = true →
    0 ≤ foldl (fun acc c => acc * 10 + (c - 48)) acc s); [auto with lia|].
  induction s as [|c s IH]; simpl; intros acc Hacc Hs; [done|].
  unfold is_ascii_digit, in_range in Hs. dk_bool. apply IH; [lia|tauto].
Qed.

Lemma parse_i64_digits (s : str) (v : Z) :
  forallb is_ascii_digit s = true → parse_i64 s = Some v → v = digits_value s ∧ 0 ≤ v ≤ i64_max.
Proof.
  intros Hs. pose proof (digits_value_nonneg s Hs) as Hn. unfold parse_i64.
  destruct s as [|c s]; [done|].
  assert (Hc : c ≠ ch "-" ∧ c ≠ ch "+").
  { simpl in Hs. unfold is_ascii_digit, in_range in Hs. dk_bool. dk_ch. lia. }
  destruct (Z.eqb_spec c (ch "-")); [tauto|]. destruct (Z.eqb_spec c (ch "+")); [tauto|].
  destruct (is_empty _ || _); [done|]. unfold try_i64.
  destruct (_ && _) eqn:E; [|done]. intros [= <-]. dk_bool. lia.
Qed.

Lemma read_number_ok (s : str) (line : Z) : reads_token s (read_number s line).
Proof.
  unfold read_number. destruct (span is_ascii_digit s) as [whole rest] eqn:E.
  apply span_eq in E as [-> Hw].
  assert (Hint : reads_token (whole ++ rest)
    (let? value := ok_or (parse_i64 whole) (refused line (ArithmeticLiteralOutOfRange whole)) in
     Ok (AInteger value, rest))).
  { destruct (parse_i64 whole) as [v|] eqn:Ev; simpl; [|done].
    split; [by apply (parse_i64_digits whole)|].
    destruct whole; [done|]. rewrite length_app. simpl. lia. }
  destruct rest as [|d rest]; [done|]. destruct (d =? ch "."); [|done].
  destruct (span is_ascii_digit rest) as [fraction rest'] eqn:E'. apply span_eq in E' as [-> _].
  simpl in *. rewrite !length_app. simpl. rewrite length_app. split; [done|lia].
Qed.

Lemma read_variable_ok (c : Z) (s : str) (line : Z) :
  reads_token (c :: s) (read_variable (c :: s) line).
Proof.
  unfold read_variable.
  set (rest := if c =? ch "$" then s else c :: s).
  assert (Hr : (length rest ≤ length (c :: s))%nat) by (unfold rest; simpl; case_match; simpl; lia).
  destruct (span is_name_byte rest) as [name after] eqn:E. apply span_eq in E as [E Hn].
  destruct name as [|d name]; [done|]. simpl. split; [done|].
  rewrite E in Hr. simpl in Hr. rewrite length_app in Hr. lia.
Qed.

Lemma symbols_not_empty : List.Forall (fun entry => 0 < length entry.1)%nat ARITH_SYMBOLS.
Proof. repeat constructor. Qed.

Lemma read_symbol_ok (c : Z) (s : str) (line : Z) :
  reads_token (c :: s) (read_symbol (c :: s) line).
Proof.
  unfold read_symbol. destruct (List.find _ _) as [[m [|r]]|] eqn:E; [|done|done].
  apply List.find_some in E as [Hin _]. simpl. split; [done|].
  assert (Hm : (0 < length m)%nat) by exact (proj1 (List.Forall_forall _ _) symbols_not_empty _ Hin).
  rewrite length_drop. simpl. lia.
Qed.

(** The tokens of a source are in range, and the tokenizer does not run out of
    fuel. *)
Lemma tokenize_loop_ok (fuel : nat) (rest : str) (line : Z) (tokens : list (ArithToken * Z)) :
  (length rest ≤ fuel)%nat → Forall (fun t => token_ok t.1) tokens →
  match tokenize_loop fuel rest line tokens with
  | Ok ts => Forall (fun t => token_ok t.1) ts
  | Err OutOfFuel => False
  | Err (Error _) => True
  end.
Proof.
  revert rest line tokens. induction fuel as [|fuel IH]; intros rest line tokens Hf Ht.
  { destruct rest; simpl in *; [done|lia]. }
  destruct rest as [|b tail]; [done|]. cbn [tokenize_loop].
  destruct (MAX_ARITHMETIC_TOKENS <=? _); [done|].
  destruct (is_ascii_whitespace _); [apply IH; [simpl in Hf; lia|done]|].
  set (m := if is_ascii_digit _ then _ else _).
  assert (Hm : reads_token (b :: tail) m).
  { unfold m. destruct (is_ascii_digit _); [apply read_number_ok|].
    destruct (_ || _); [apply read_variable_ok|apply read_symbol_ok]. }
  destruct m as [[t rest']|[e|]]; simpl in Hm |- *; [|done|done].
  apply IH; [simpl in Hf; lia|]. apply Forall_app. split; [done|].
  constructor; [apply Hm|done].
Qed.

(** ** The parser answers *)

(** What a function of the parser promises at a state [p] whose tokens are in
    range: an error of the code, or a well-formed expression, fewer tokens,
    and the depth it was called with. *)
Definition parses (p : ArithParser) (m : parsed) : Prop :=
  match m with
  | Ok (e, p') =>
      arith_ok e ∧ Forall (fun t => token_ok t.1) (remaining p') ∧
      (length (remaining p') < length (remaining p))%nat ∧ ap_depth p' = ap_depth p
  | Err OutOfFuel => False
  | Err (Error _) => True
  end.

(** The same for a function, at every state of a given depth. *)
Definition level_ok (d : Depth) (f : ArithParser → parsed) : Prop :=
  ∀ p, Forall (fun t => token_ok t.1) (remaining p) → ap_depth p = d → parses p (f p).

Lemma tail_Forall {A : Type} (P : A → Prop) (l : list A) : Forall P l → Forall P (tail l).
Proof. destruct 1; done. Qed.

Lemma tail_length {A : Type} (l : list A) : (length (tail l) ≤ length l)%nat.
Proof. destruct l; simpl; lia. Qed.

Lemma or_too_deep_Ok (m : result ArithTooDeep ArithExpr) (p : ArithParser) (e : ArithExpr) :
  or_too_deep m p = Ok e → m = Ok e.
Proof. by destruct m; intros [= ->]. Qed.

Lemma or_too_deep_fuel (m : result ArithTooDeep ArithExpr) (p : ArithParser) :
  or_too_deep m p ≠ Err OutOfFuel.
Proof. by destruct m. Qed.

Lemma binary_loop_ok (d : Depth) (operators : list (str * ArithBinaryOp))
    (next : ArithParser → parsed) :
  level_ok d next →
  ∀ fuel lhs p q, arith_ok lhs → Forall (fun t => token_ok t.1) (remaining p) → ap_depth p = d →
  (length (remaining p) < fuel)%nat → (length (remaining p) < length (remaining q))%nat →
  ap_depth q = d → parses q (binary_loop fuel operators next lhs p).
Proof.
  intros Hnext fuel. induction fuel as [|fuel IH]; intros lhs p q Hl Hp Hd Hf Hq Hdq; [lia|].
  simpl. destruct (peek_symbol p) as [symbol|] eqn:Es; [|repeat split; congruence].
  destruct (List.find _ _) as [[s op]|]; [|repeat split; congruence].
  assert (Hn : parses (advance p) (next (advance p))).
  { apply Hnext; [by apply tail_Forall|done]. }
  pose proof (tail_length (remaining p)) as Ht.
  destruct (next (advance p)) as [[rhs p']|[?|]]; simpl in *; [|done..].
  destruct Hn as (Hr & Hp' & Hlen & Hd').
  destruct (or_too_deep _ p') as [e|[?|]] eqn:E; simpl; [|done|by apply or_too_deep_fuel in E].
  apply or_too_deep_Ok in E. apply IH; try done; [by apply (arith_binary_ok op lhs rhs)| |lia|lia].
  congruence.
Qed.

Lemma parse_binary_level_ok (d : Depth) (operators : list (str * ArithBinaryOp))
    (next : ArithParser → parsed) :
  level_ok d next → level_ok d (parse_binary_level operators next).
Proof.
  intros Hnext p Hp Hd. unfold parse_binary_level. specialize (Hnext p Hp Hd) as Hn.
  destruct (next p) as [[lhs p']|[?|]]; simpl in *; [|done..]. destruct Hn as (Hl & Hp' & Hlen & Hd').
  apply (binary_loop_ok d operators next Hnext (S (length (remaining p'))));
    try done; [congruence|lia].
Qed.

Lemma eat_symbol_cases (s : str) (p : ArithParser) :
  (eat_symbol s p = (true, advance p) ∧ (length (remaining (advance p)) < length (remaining p))%nat)
  ∨ eat_symbol s p = (false, p).
Proof.
  unfold eat_symbol, at_symbol, peek_symbol. destruct (remaining p) as [|[[] ?] ?] eqn:E; auto.
  destruct (str_eqb _ _); [|auto]. left. simpl. rewrite E. simpl. split; [done|lia].
Qed.

Lemma unary_loop_ok (fuel : nat) (operators : list ArithUnaryOp) (p : ArithParser) :
  Forall (fun t => token_ok t.1) (remaining p) → (length (remaining p) < fuel)%nat →
  ∃ operators' p', unary_loop fuel operators p = Ok (operators', p') ∧
    Forall (fun t => token_ok t.1) (remaining p') ∧
    (length (remaining p') ≤ length (remaining p))%nat ∧ ap_depth p' = ap_depth p.
Proof.
  revert operators p. induction fuel as [|fuel IH]; intros operators p Hp Hf; [lia|]. simpl.
  assert (Hstep : ∀ ops, (length (remaining (advance p)) < length (remaining p))%nat →
    ∃ operators' p', unary_loop fuel ops (advance p) = Ok (operators', p') ∧
      Forall (fun t => token_ok t.1) (remaining p') ∧
      (length (remaining p') ≤ length (remaining p))%nat ∧ ap_depth p' = ap_depth p).
  { intros ops Hlt. destruct (IH ops (advance p)) as (o & p' & ? & ? & ? & ?);
      [by apply tail_Forall|lia|]. exists o, p'. repeat split; try done. lia. }
  destruct (eat_symbol_cases (lit "-") p) as [[-> H]| -> ]; [by apply Hstep|].
  destruct (eat_symbol_cases (lit "!") p) as [[-> H]| -> ]; [by apply Hstep|].
  destruct (eat_symbol_cases (lit "+") p) as [[-> H]| -> ]; [by apply Hstep|].
  exists operators, p. repeat split; done || lia.
Qed.

Lemma apply_unary_ok (operators : list ArithUnaryOp) (e : ArithExpr) (p : ArithParser) :
  arith_ok e →
  match apply_unary operators e p with
  | Ok e' => arith_ok e'
  | Err OutOfFuel => False
  | Err (Error _) => True
  end.
Proof.
  revert e. induction operators as [|op operators IH]; intros e He; simpl; [done|].
  destruct (or_too_deep _ p) as [e1|[?|]] eqn:E; simpl; [|done|by apply or_too_deep_fuel in E].
  apply or_too_deep_Ok in E. apply IH. by apply (arith_unary_ok op e).
Qed.

Lemma parse_primary_ok (inner : ArithParser → parsed) (d : Depth) :
  (∀ d', d_lexer d' + d_block d' = d_lexer d + d_block d + 1 →
     d_lexer d' + d_block d' ≤ 64 → level_ok d' inner) →
  level_ok d (parse_primary inner).
Proof.
  intros Hinner p Hp Hd. unfold parse_primary. simpl.
  destruct (remaining p) as [|[t l] rest] eqn:E; [done|].
  inversion Hp as [|? ? Ht Hrest]; subst.
  destruct t as [v|f|name|symbol]; simpl; rewrite ?E; simpl; simpl in Ht;
    [auto using Nat.lt_succ_diag_r..|].
  destruct (str_eqb symbol _); [|done].
  unfold parse_group_or, depth_arithmetic_group, depth_nest. simpl.
  destruct (MAX_NESTING_DEPTH <? _) eqn:Ed; simpl; [done|].
  unfold MAX_NESTING_DEPTH in Ed. dk_bool.
  unfold set_ap_depth at 1. simpl. rewrite E. simpl. set (p1 := mkArithParser rest l _).
  assert (Hi : parses p1 (inner p1)).
  { apply (Hinner (ap_depth p1)); simpl; try done; lia. }
  destruct (inner p1) as [[e p2]|[?|]]; simpl in *; [|done..].
  destruct Hi as (He & Hp2 & Hlen & Hdep).
  destruct (eat_symbol_cases (lit ")") (set_ap_depth (ap_depth p) p2)) as [[-> H]| -> ]; simpl; [|done].
  simpl in H. rewrite E. simpl. repeat split; try done; [by apply tail_Forall|lia].
Qed.

Lemma parse_unary_ok (inner : ArithParser → parsed) (d : Depth) :
  level_ok d (parse_primary inner) → level_ok d (parse_unary inner).
Proof.
  intros Hprim p Hp Hd. unfold parse_unary.
  destruct (unary_loop_ok (S (length (remaining p))) [] p Hp) as (ops & p1 & -> & Hp1 & Hlen & Hd1);
    [lia|]. simpl. specialize (Hprim p1 Hp1 ltac:(congruence)) as H1.
  destruct (parse_primary inner p1) as [[e p2]|[?|]]; simpl in *; [|done..].
  destruct H1 as (He & Hp2 & Hlen2 & Hd2). pose proof (apply_unary_ok (rev ops) e p2 He) as H2.
  destruct (apply_unary _ e p2) as [e1|[?|]]; simpl in *; [|done..].
  repeat split; try done; [lia|congruence].
Qed.

Lemma parse_or_ok (groups : nat) (d : Depth) :
  (0 < groups)%nat → 64 - (d_lexer d + d_block d) < Z.of_nat groups → level_ok d (parse_or groups).
Proof.
  revert d. induction groups as [|groups IH]; intros d Hg Hd; [lia|].
  do 6 apply parse_binary_level_ok. apply parse_unary_ok, parse_primary_ok.
  intros d' Hd' Hle. apply IH; lia.
Qed.

(** ** Printing *)

(** The level of [parse_*] at which an operator is read, from [parse_or] (1)
    to [parse_multiplicative] (6); [parse_unary] is 7. *)
Definition precedence (op : ArithBinaryOp) : nat :=
  match op with
  | Or => 1
  | And => 2
  | Equal | NotEqual => 3
  | Less | LessOrEqual | Greater | GreaterOrEqual => 4
  | Add | Subtract => 5
  | Multiply | Divide | Remainder => 6
  end.

Definition binary_symbol (op : ArithBinaryOp) : str :=
  match op with
  | Or => lit "||" | And => lit "&&" | Equal => lit "==" | NotEqual => lit "!="
  | Less => lit "<" | LessOrEqual => lit "<=" | Greater => lit ">" | GreaterOrEqual => lit ">="
  | Add => lit "+" | Subtract => lit "-"
  | Multiply => lit "*" | Divide => lit "/" | Remainder => lit "%"
  end.

Definition unary_symbol (op : ArithUnaryOp) : str :=
  match op with Negate => lit "-" | Not => lit "!" end.

Definition parens (b : bool) (ts : list ArithToken) : list ArithToken :=
  if b then ASymbol (lit "(") :: ts ++ [ASymbol (lit ")")] else ts.

(** The tokens of an expression in a place that reads at level [k]. *)
Fixpoint print_at (k : nat) (e : ArithExpr) : list ArithToken :=
  match e with
  | mkArithExpr n _ =>
      match n with
      | Integer v => [AInteger v]
      | Float f => [AFloat f]
      | Variable_ name => [AName name]
      | Unary op x => ASymbol (unary_symbol op) :: print_at 7 x
      | Binary op l r =>
          parens (precedence op <? k)%nat
            (print_at (precedence op) l ++
             ASymbol (binary_symbol op) :: print_at (S (precedence op)) r)
      end
  end.

(** How many of its parentheses nest. *)
Fixpoint groups_at (k : nat) (e : ArithExpr) : Z :=
  match e with
  | mkArithExpr n _ =>
      match n with
      | Integer _ | Float _ | Variable_ _ => 0
      | Unary _ x => groups_at 7 x
      | Binary op l r =>
          (if (precedence op <? k)%nat then 1 else 0) +
          Z.max (groups_at (precedence op) l) (groups_at (S (precedence op)) r)
      end
  end.

(** ** Reading back *)

Definition operators_at (k : nat) : list (str * ArithBinaryOp) :=
  match k with
  | 1%nat => [(lit "||", Or)]
  | 2%nat => [(lit "&&", And)]
  | 3%nat => [(lit "==", Equal); (lit "!=", NotEqual)]
  | 4%nat => [(lit "<=", LessOrEqual); (lit ">=", GreaterOrEqual); (lit "<", Less); (lit ">", Greater)]
  | 5%nat => [(lit "+", Add); (lit "-", Subtract)]
  | 6%nat => [(lit "*", Multiply); (lit "/", Divide); (lit "%", Remainder)]
  | _ => []
  end.

Definition level (inner : ArithParser → parsed) (k : nat) : ArithParser → parsed :=
  match k with
  | 1%nat => parse_or_level inner
  | 2%nat => parse_and inner
  | 3%nat => parse_equality inner
  | 4%nat => parse_relational inner
  | 5%nat => parse_additive inner
  | 6%nat => parse_multiplicative inner
  | _ => parse_unary inner
  end.

Definition operator_at (k : nat) (s : str) : option (str * ArithBinaryOp) :=
  List.find (fun entry => str_eqb entry.1 s) (operators_at k).

(** The rest does not go on with an operator of level [k] or above. *)
Definition stops (k : nat) (rest : list (ArithToken * Z)) : Prop :=
  match rest with
  | (ASymbol s, _) :: _ => ∀ j, (k ≤ j ≤ 6)%nat → operator_at j s = None
  | _ => True
  end.

Lemma level_unfold (inner : ArithParser → parsed) (k : nat) :
  (1 ≤ k ≤ 6)%nat → level inner k = parse_binary_level (operators_at k) (level inner (S k)).
Proof. intros Hk. do 7 (destruct k as [|k]; [try done; lia|]). lia. Qed.

Lemma operator_at_symbol (op : ArithBinaryOp) :
  operator_at (precedence op) (binary_symbol op) = Some (binary_symbol op, op).
Proof. by destruct op; vm_compute. Qed.

Lemma operator_above (op : ArithBinaryOp) (j : nat) :
  (precedence op < j)%nat → operator_at j (binary_symbol op) = None.
Proof.
  intros Hj. do 7 (destruct j as [|j]; [destruct op; vm_compute in Hj |- *; done || lia|]). done.
Qed.

Lemma stops_mono (k j : nat) (rest : list (ArithToken * Z)) : (k ≤ j)%nat → stops k rest → stops j rest.
Proof. destruct rest as [|[[] ?] ?]; simpl; auto. intros ? H ? ?. apply H. lia. Qed.

Section ReadBack.

(** The tokens of the expression are on one line. *)
Context (line : Z).

Definition on_line (ts : list ArithToken) : list (ArithToken * Z) := (fun t => (t, line)) <$> ts.
Lemma on_line_app (ts us : list ArithToken) : on_line (ts ++ us) = on_line ts ++ on_line us.
Proof. apply fmap_app. Qed.

Lemma on_line_cons (t : ArithToken) (ts : list ArithToken) : on_line (t :: ts) = (t, line) :: on_line ts.
Proof. done. Qed.

Abbreviation at_ d rest := (mkArithParser rest line d).

Lemma binary_loop_stops (fuel k : nat) (next : ArithParser → parsed) (e : ArithExpr) (p : ArithParser) :
  (0 < fuel)%nat → (1 ≤ k ≤ 6)%nat → stops k (remaining p) →
  binary_loop fuel (operators_at k) next e p = Ok (e, p).
Proof.
  intros Hf Hk Hs. destruct fuel as [|fuel]; [lia|]. simpl. unfold peek_symbol.
  destruct (remaining p) as [|[[] ?] ?]; try done. simpl in Hs.
  specialize (Hs k ltac:(lia)). unfold operator_at in Hs. by rewrite Hs.
Qed.

(** [ts] is read as [e] at level [k], the loop of the level being left with
    more fuel than tokens. *)
Definition reads (inner : ArithParser → parsed) (d : Depth) (k : nat) (ts : list ArithToken)
    (e : ArithExpr) : Prop :=
  ∀ rest, stops (S k) rest →
  ∃ fuel, (length rest < fuel)%nat ∧
    level inner k (at_ d (on_line ts ++ rest)) =
      binary_loop fuel (operators_at k) (level inner (S k)) e (at_ d rest).

(** The same for [parse_unary], after any operators it has already read. *)
Definition reads_unary (inner : ArithParser → parsed) (d : Depth) (ts : list ArithToken)
    (e : ArithExpr) : Prop :=
  ∀ rest fuel operators, (length (on_line ts ++ rest) < fuel)%nat →
  (let? (operators, p) := unary_loop fuel operators (at_ d (on_line ts ++ rest)) in
   let? (operand, p) := parse_primary inner p in
   let? operand := apply_unary (rev operators) operand p in
   Ok (operand, p)) =
  (let? operand := apply_unary (rev operators) e (at_ d rest) in Ok (operand, at_ d rest)).

Lemma reads_unary_level (inner : ArithParser → parsed) (d : Depth) (ts : list ArithToken)
    (e : ArithExpr) (rest : list (ArithToken * Z)) :
  reads_unary inner d ts e → parse_unary inner (at_ d (on_line ts ++ rest)) = Ok (e, at_ d rest).
Proof. intros H. unfold parse_unary. rewrite H; [done|]. simpl. lia. Qed.

Lemma reads_lower (inner : ArithParser → parsed) (d : Depth) (k j : nat) (ts : list ArithToken)
    (e : ArithExpr) :
  (1 ≤ j ≤ k)%nat → (k ≤ 6)%nat → reads inner d k ts e → reads inner d j ts e.
Proof.
  intros [Hj Hjk]. revert j Hj Hjk. induction k as [|k IH]; intros j Hj Hjk Hk H; [lia|].
  destruct (decide (j = S k)) as [->|Hne]; [done|].
  apply IH; [lia..|]. intros rest Hs. rewrite level_unfold by lia. unfold parse_binary_level.
  destruct (H rest) as (fuel & Hf & ->); [by apply (stops_mono (S k)); [lia|]|].
  rewrite binary_loop_stops; [|lia|lia|done]. exists (S (length rest)). split; [lia|done].
Qed.

Lemma reads_of_unary (inner : ArithParser → parsed) (d : Depth) (k : nat) (ts : list ArithToken)
    (e : ArithExpr) :
  (1 ≤ k ≤ 6)%nat → reads_unary inner d ts e → reads inner d k ts e.
Proof.
  intros Hk H. apply (reads_lower inner d 6); [lia..|]. intros rest _.
  rewrite level_unfold by lia. unfold parse_binary_level. change (level inner 7) with (parse_unary inner).
  rewrite (reads_unary_level inner d ts e); [|done]. exists (S (length rest)). split; [lia|done].
Qed.

(** A primary that is not an operator's symbol stops the operators. *)
Lemma reads_unary_primary (inner : ArithParser → parsed) (d : Depth) (t : ArithToken)
    (ts : list ArithToken) (e : ArithExpr) :
  (match t with ASymbol s => s = lit "(" | _ => True end) →
  (∀ rest, parse_primary inner (at_ d (on_line (t :: ts) ++ rest)) = Ok (e, at_ d rest)) →
  reads_unary inner d (t :: ts) e.
Proof.
  intros Ht Hp rest fuel operators Hf. destruct fuel as [|fuel]; [lia|]. cbn [unary_loop].
  assert (He : ∀ s, (s = lit "-" ∨ s = lit "!" ∨ s = lit "+") → ∀ q, q = (at_ d (on_line (t :: ts) ++ rest)) →
    eat_symbol s q = (false, q)).
  { intros s Hs q ->. unfold eat_symbol, at_symbol, peek_symbol. simpl. destruct t; try done. subst.
    by destruct Hs as [ -> |[ -> | -> ]]. }
  rewrite (He (lit "-")), (He (lit "!")), (He (lit "+")) by auto. cbn [result_bind].
  by rewrite Hp.
Qed.

Lemma reads_unary_operator (inner : ArithParser → parsed) (d : Depth) (op : ArithUnaryOp)
    (x : ArithExpr) (h : Z) (ts : list ArithToken) :
  arith_ok (mkArithExpr (Unary op x) h) → reads_unary inner d ts x →
  reads_unary inner d (ASymbol (unary_symbol op) :: ts) (mkArithExpr (Unary op x) h).
Proof.
  intros Hok Hx rest fuel operators Hf. destruct fuel as [|fuel]; [lia|].
  transitivity (let? (operators, p) :=
      unary_loop fuel (operators ++ [op]) (at_ d (on_line ts ++ rest)) in
    let? (operand, p) := parse_primary inner p in
    let? operand := apply_unary (rev operators) operand p in
    Ok (operand, p)).
  { by destruct op. }
  rewrite Hx by (simpl in Hf; lia). rewrite rev_app_distr. simpl.
  by rewrite arith_unary_wf with (h := h).
Qed.

(** A group reads at a depth one deeper. *)
Lemma primary_group (inner : ArithParser → parsed) (d : Depth) (ts : list ArithToken)
    (e : ArithExpr) (rest : list (ArithToken * Z)) :
  d_lexer d + d_block d + 1 ≤ 64 →
  (∀ rest, stops 1 rest →
    inner (at_ (mkDepth (d_lexer d) (d_block d + 1)) (on_line ts ++ rest)) =
    Ok (e, at_ (mkDepth (d_lexer d) (d_block d + 1)) rest)) →
  parse_primary inner (at_ d (on_line (parens true ts) ++ rest)) = Ok (e, at_ d rest).
Proof.
  intros Hd Hi. unfold parse_primary, parens, on_line. simpl.
  unfold parse_group_or, depth_arithmetic_group, depth_nest. simpl.
  replace (MAX_NESTING_DEPTH <? _) with false
    by (symmetry; unfold MAX_NESTING_DEPTH; dk_bool; lia). simpl.
  unfold set_ap_depth at 1. simpl. rewrite fmap_app, <- app_assoc. simpl.
  fold (on_line ts). rewrite Hi; [|]; [by destruct d|].
  intros j Hj. do 7 (destruct j as [|j]; [done || lia|]). lia.
Qed.

(** [ts] is read as [e] at level [k], whatever the level. *)
Definition reads_at (inner : ArithParser → parsed) (d : Depth) (k : nat) (ts : list ArithToken)
    (e : ArithExpr) : Prop :=
  if (k =? 7)%nat then reads_unary inner d ts e else reads inner d k ts e.

Lemma reads_at_unary (inner : ArithParser → parsed) (d : Depth) (k : nat) (ts : list ArithToken)
    (e : ArithExpr) :
  (1 ≤ k ≤ 7)%nat → reads_unary inner d ts e → reads_at inner d k ts e.
Proof.
  intros Hk H. unfold reads_at. destruct (k =? 7)%nat eqn:E; [done|].
  apply Nat.eqb_neq in E. apply reads_of_unary; [lia|done].
Qed.

Lemma reads_at_level (inner : ArithParser → parsed) (d : Depth) (k : nat) (ts : list ArithToken)
    (e : ArithExpr) (rest : list (ArithToken * Z)) :
  (1 ≤ k ≤ 7)%nat → reads_at inner d k ts e → stops k rest →
  level inner k (at_ d (on_line ts ++ rest)) = Ok (e, at_ d rest).
Proof.
  intros Hk H Hs. unfold reads_at in H. destruct (k =? 7)%nat eqn:E.
  - apply Nat.eqb_eq in E as ->. by apply reads_unary_level.
  - apply Nat.eqb_neq in E. destruct (H rest) as (fuel & Hf & ->); [by apply (stops_mono k); [lia|]|].
    apply binary_loop_stops; [lia|lia|done].
Qed.

Lemma reads_binary (inner : ArithParser → parsed) (d : Depth) (op : ArithBinaryOp)
    (l r : ArithExpr) (h : Z) (tl tr : list ArithToken) :
  arith_ok (mkArithExpr (Binary op l r) h) →
  reads_at inner d (precedence op) tl l → reads_at inner d (S (precedence op)) tr r →
  reads inner d (precedence op) (tl ++ ASymbol (binary_symbol op) :: tr)
    (mkArithExpr (Binary op l r) h).
Proof.
  intros Hok Hl Hr rest Hs. set (k := precedence op) in *.
  assert (Hk : (1 ≤ k ≤ 6)%nat) by (unfold k; destruct op; simpl; lia).
  unfold reads_at in Hl. destruct (k =? 7)%nat eqn:E; [apply Nat.eqb_eq in E; lia|].
  rewrite on_line_app, on_line_cons, <- app_assoc, <- app_comm_cons.
  destruct (Hl ((ASymbol (binary_symbol op), line) :: on_line tr ++ rest)) as (fuel & Hf & ->).
  { simpl. intros j Hj. apply operator_above. fold k. lia. }
  destruct fuel as [|fuel]; [lia|]. exists fuel. split.
  { simpl in Hf. rewrite length_app in Hf. lia. }
  cbn [binary_loop]. unfold peek_symbol. simpl.
  pose proof (operator_at_symbol op) as Hop. unfold operator_at in Hop. fold k in Hop. rewrite Hop.
  unfold advance. simpl remaining. cbn [tail ap_line ap_depth].
  pose proof (reads_at_level inner d (S k) tr r rest ltac:(lia) Hr Hs) as Hn.
  cbn [level] in Hn. rewrite Hn. simpl. by rewrite arith_binary_wf with (h := h).
Qed.

Lemma groups_at_nonneg (e : ArithExpr) (k : nat) : 0 ≤ groups_at k e.
Proof.
  revert k. induction e as [| | |op x h IH|op l r h IHl IHr] using arith_expr_ind;
    intros k; simpl; [done..|apply IH|].
  specialize (IHl (precedence op)). specialize (IHr (S (precedence op))).
  destruct (_ <? k)%nat; lia.
Qed.

Lemma print_reads (e : ArithExpr) (k n : nat) (d : Depth) :
  arith_ok e → (1 ≤ k ≤ 7)%nat → groups_at k e + (d_lexer d + d_block d) ≤ 64 →
  groups_at k e ≤ Z.of_nat n → reads_at (parse_or n) d k (print_at k e) e.
Proof.
  revert k n d. induction e as [v h|f h|s h|op x h IH|op l r h IHl IHr] using arith_expr_ind;
    intros k n d Hok Hk Hd Hn.
  - apply reads_at_unary, reads_unary_primary; [done..|]. destruct Hok as [-> _]. done.
  - apply reads_at_unary, reads_unary_primary; [done..|]. simpl in Hok. subst. done.
  - apply reads_at_unary, reads_unary_primary; [done..|]. destruct Hok as [-> _]. done.
  - apply reads_at_unary; [done|]. apply reads_unary_operator; [done|].
    apply (IH 7%nat n d); [apply Hok|lia|done|done].
  - assert (Hlevels : ∀ m d, Z.max (groups_at (precedence op) l) (groups_at (S (precedence op)) r) +
        (d_lexer d + d_block d) ≤ 64 →
        Z.max (groups_at (precedence op) l) (groups_at (S (precedence op)) r) ≤ Z.of_nat m →
        ∀ j, (1 ≤ j ≤ precedence op)%nat →
        reads (parse_or m) d j (print_at (precedence op) l ++
          ASymbol (binary_symbol op) :: print_at (S (precedence op)) r) (mkArithExpr (Binary op l r) h)).
    { intros m d' Hd' Hm j Hj. destruct Hok as (? & ? & ? & ?).
      assert (precedence op ≤ 6)%nat by (destruct op; simpl; lia).
      apply (reads_lower _ _ (precedence op)); [lia..|].
      apply reads_binary; [by repeat split|apply IHl|apply IHr]; try done; try lia. }
    simpl in Hd, Hn. simpl print_at. unfold parens. destruct (precedence op <? k)%nat eqn:E.
    + apply reads_at_unary, reads_unary_primary; [done..|]. intros rest.
      assert (0 ≤ groups_at (precedence op) l) by apply groups_at_nonneg.
      destruct n as [|n]; [lia|]. apply (primary_group _ d); [lia|].
      intros rest' Hs. change (parse_or (S n)) with (level (parse_or n) 1).
      apply reads_at_level; [lia| |done]. apply Hlevels; simpl; try lia.
      destruct op; simpl; lia.
    + apply Nat.ltb_ge in E. unfold reads_at. destruct (k =? 7)%nat eqn:E7.
      { apply Nat.eqb_eq in E7. destruct op; simpl in E; lia. }
      apply Hlevels; lia.
Qed.

End ReadBack.

(** ** The text of an expression *)

Definition token_text (t : ArithToken) : str :=
  match t with
  | AInteger v => to_decimal v
  | AFloat _ => []
  | AName name => ch "$" :: name
  | ASymbol s => s
  end.

(** A space before each token. *)
Definition text_of (ts : list ArithToken) : str := flat_map (fun t => 32 :: token_text t) ts.

(** The expression as a script writes it between [$((] and [))]. *)
Definition print (e : ArithExpr) : str := text_of (print_at 1 e).

Fixpoint no_floats (e : ArithExpr) : bool :=
  match e with
  | mkArithExpr n _ =>
      match n with
      | Integer _ | Variable_ _ => true
      | Float _ => false
      | Unary _ x => no_floats x
      | Binary _ l r => no_floats l && no_floats r
      end
  end.

Definition PRINTED_SYMBOLS : list str :=
  [lit "("; lit ")"; lit "!"; lit "||"; lit "&&"; lit "=="; lit "!="; lit "<"; lit "<="; lit ">";
   lit ">="; lit "+"; lit "-"; lit "*"; lit "/"; lit "%"].

Definition printable (t : ArithToken) : Prop :=
  match t with
  | AInteger v => 0 ≤ v ≤ i64_max
  | AFloat _ => False
  | AName name => name_ok name
  | ASymbol s => List.In s PRINTED_SYMBOLS
  end.

Lemma binary_symbol_printed (op : ArithBinaryOp) : List.In (binary_symbol op) PRINTED_SYMBOLS.
Proof. destruct op; simpl; tauto. Qed.

Lemma print_at_printable (e : ArithExpr) (k : nat) :
  arith_ok e → no_floats e = true → Forall printable (print_at k e).
Proof.
  revert k. induction e as [v h|f h|s h|op x h IH|op l r h IHl IHr] using arith_expr_ind;
    intros k Hok Hnf; simpl in Hok, Hnf.
  - constructor; [apply Hok|done].
  - done.
  - constructor; [apply Hok|done].
  - constructor; [destruct op; simpl; tauto|]. apply IH; [apply Hok|done].
  - apply andb_prop in Hnf as [? ?]. destruct Hok as (_ & _ & ? & ?).
    assert (Hin : Forall printable (print_at (precedence op) l ++
       ASymbol (binary_symbol op) :: print_at (S (precedence op)) r)).
    { apply Forall_app. split; [by apply IHl|]. constructor; [apply binary_symbol_printed|by apply IHr]. }
    simpl. unfold parens. destruct (_ <? k)%nat; [|done].
    constructor; [simpl; tauto|]. apply Forall_app. split; [done|]. constructor; [simpl; tauto|done].
Qed.

(** What follows a printed token: nothing, or the space of the next. *)
Definition spaced (rest : str) : Prop := rest = [] ∨ ∃ r, rest = 32 :: r.

Lemma text_of_spaced (ts : list ArithToken) : spaced (text_of ts).
Proof. destruct ts as [|t ts]; [by left|right]. by eexists. Qed.

Lemma span_spaced (p : Z → bool) (a rest : str) :
  forallb p a = true → p 32 = false → spaced rest → span p (a ++ rest) = (a, rest).
Proof. intros Ha Hp [ -> |[r -> ]]; by apply span_over. Qed.

Lemma first_char_ascii (b : Z) (s : str) : b < 128 → first_char (b :: s) = b.
Proof.
  intros Hb. unfold first_char, utf8_width.
  by replace (b <? 128) with true by (symmetry; apply Z.ltb_lt; lia).
Qed.

Lemma digits_value_decimal (n : Z) : 0 ≤ n → digits_value (to_decimal n) = n.
Proof.
  intros Hn. revert n Hn. apply to_decimal_ind. intros n Hn IH. rewrite to_decimal_eq.
  unfold digits_value in *. rewrite foldl_app. simpl. unfold digit.
  pose proof (Z.div_mod n 10 ltac:(lia)). pose proof (Z.mod_pos_bound n 10 ltac:(lia)).
  destruct (Z.ltb_spec n 10) as [|Hge]; simpl; [rewrite Z.mod_small by lia; lia|].
  rewrite IH by done. lia.
Qed.

Lemma parse_i64_decimal (n : Z) : 0 ≤ n ≤ i64_max → parse_i64 (to_decimal n) = Some n.
Proof.
  intros Hn. pose proof (to_decimal_digits n ltac:(lia)) as Hd. pose proof (to_decimal_not_nil n) as Hnil.
  pose proof (digits_value_decimal n ltac:(lia)) as Hv.
  destruct (to_decimal n) as [|c s] eqn:E; [done|]. unfold parse_i64.
  assert (Hall : forallb is_ascii_digit (c :: s) = true) by (by apply forallb_true).
  assert (Hc : c ≠ ch "-" ∧ c ≠ ch "+").
  { inversion Hd as [|? ? Hc]; subst. unfold is_ascii_digit, in_range in Hc. dk_bool. dk_ch. lia. }
  destruct (Z.eqb_spec c (ch "-")); [tauto|]. destruct (Z.eqb_spec c (ch "+")); [tauto|].
  rewrite Hall, Hv. simpl. unfold try_i64.
  replace (_ && _) with true; [f_equal; lia|]. symmetry. dk_bool. dk_arith.
Qed.

(** A step of the tokenizer at an ASCII byte that is not a space. *)
Lemma tokenize_step (fuel : nat) (b : Z) (tail : str) (line : Z) (tokens : list (ArithToken * Z)) :
  Z.of_nat (length tokens) < MAX_ARITHMETIC_TOKENS → b < 128 → is_ascii_whitespace b = false →
  tokenize_loop (S fuel) (b :: tail) line tokens =
  (let? (token, rest) :=
     if is_ascii_digit b then read_number (b :: tail) line
     else if is_ascii_alphabetic b || (b =? ch "_") || (b =? ch "$") then read_variable (b :: tail) line
     else read_symbol (b :: tail) line in
   tokenize_loop fuel rest line (tokens ++ [(token, line)])).
Proof.
  intros Hlen Hb Hw. cbn [tokenize_loop].
  replace (MAX_ARITHMETIC_TOKENS <=? _) with false by (symmetry; dk_bool; lia).
  by rewrite first_char_ascii, Hw by done.
Qed.

Lemma read_number_decimal (v : Z) (rest : str) (line : Z) :
  0 ≤ v ≤ i64_max → spaced rest → read_number (to_decimal v ++ rest) line = Ok (AInteger v, rest).
Proof.
  intros Hv Hs. unfold read_number. rewrite span_spaced; [|apply forallb_true, to_decimal_digits; lia|done|done].
  rewrite parse_i64_decimal by done. by destruct Hs as [ -> |[r -> ]].
Qed.

Lemma read_variable_name (name rest : str) (line : Z) :
  name_ok name → spaced rest → read_variable (ch "$" :: name ++ rest) line = Ok (AName name, rest).
Proof.
  intros [Hne Hn] Hs. unfold read_variable. rewrite Z.eqb_refl, span_spaced by done.
  by destruct name.
Qed.

Lemma read_symbol_printed (s rest : str) (line : Z) :
  List.In s PRINTED_SYMBOLS → spaced rest → read_symbol (s ++ rest) line = Ok (ASymbol s, rest).
Proof.
  intros Hin Hs.
  assert (H : List.Forall (fun s => read_symbol (s ++ rest) line = Ok (ASymbol s, rest)) PRINTED_SYMBOLS).
  { destruct Hs as [ -> |[r -> ]]; repeat constructor. }
  by apply (proj1 (List.Forall_forall _ _) H).
Qed.

(** One printed token is read as itself. *)
Lemma tokenize_token (t : ArithToken) (rest : str) (line : Z) (fuel : nat)
    (tokens : list (ArithToken * Z)) :
  printable t → spaced rest → Z.of_nat (length tokens) < MAX_ARITHMETIC_TOKENS →
  tokenize_loop (S fuel) (token_text t ++ rest) line tokens =
  tokenize_loop fuel rest line (tokens ++ [(t, line)]).
Proof.
  intros Ht Hs Hlen. destruct t as [v|f|name|s]; cbn [printable token_text] in Ht |- *; [|done| |].
  - pose proof (read_number_decimal v rest line Ht Hs) as Hr.
    pose proof (to_decimal_digits v ltac:(lia)) as Hd. pose proof (to_decimal_not_nil v) as Hn.
    destruct (to_decimal v) as [|c s]; [done|]. inversion Hd as [|? ? Hc _]; subst.
    assert (c < 128 ∧ is_ascii_whitespace c = false) as [? ?].
    { unfold is_ascii_digit, in_range, is_ascii_whitespace in *. dk_bool. lia. }
    simpl app in Hr |- *. by rewrite tokenize_step, Hc, Hr by done.
  - rewrite <- app_comm_cons, tokenize_step by done.
    change (is_ascii_digit (ch "$")) with false.
    change (is_ascii_alphabetic (ch "$") || (ch "$" =? ch "_") || (ch "$" =? ch "$")) with true.
    cbv iota. by rewrite read_variable_name.
  - pose proof (read_symbol_printed s rest line Ht Hs) as Hr.
    assert (Hhead : ∃ b s', s = b :: s' ∧ b < 128 ∧ is_ascii_whitespace b = false ∧
      is_ascii_digit b = false ∧ is_ascii_alphabetic b || (b =? ch "_") || (b =? ch "$") = false).
    { assert (Hall : List.Forall (fun s => ∃ b s', s = b :: s' ∧ b < 128 ∧ is_ascii_whitespace b = false ∧
        is_ascii_digit b = false ∧ is_ascii_alphabetic b || (b =? ch "_") || (b =? ch "$") = false)
        PRINTED_SYMBOLS) by (repeat constructor; do 2 eexists; repeat split).
      by apply (proj1 (List.Forall_forall _ _) Hall). }
    destruct Hhead as (b & s' & -> & Hb & Hw & Hd & Ha).
    simpl app in Hr |- *. by rewrite tokenize_step, Hd, Ha, Hr by done.
Qed.

Lemma tokenize_text (ts : list ArithToken) (line : Z) (fuel : nat) (tokens : list (ArithToken * Z)) :
  Forall printable ts → Z.of_nat (length tokens + length ts) ≤ MAX_ARITHMETIC_TOKENS →
  (length (text_of ts) ≤ fuel)%nat →
  tokenize_loop fuel (text_of ts) line tokens = Ok (tokens ++ on_line line ts).
Proof.
  intros Hts. revert fuel tokens. induction Hts as [|t ts Ht Hts IH]; intros fuel tokens Hlen Hf.
  { simpl. rewrite app_nil_r. by destruct fuel. }
  simpl in Hlen, Hf. rewrite length_app in Hf.
  assert (Htext : (0 < length (token_text t))%nat).
  { destruct t as [v|f|name|s]; simpl in *; [|done|lia|].
    - pose proof (to_decimal_not_nil v). destruct (to_decimal v); [done|simpl; lia].
    - assert (Hall : List.Forall (fun s => 0 < length s)%nat PRINTED_SYMBOLS) by repeat constructor.
      by apply (proj1 (List.Forall_forall _ _) Hall). }
  destruct fuel as [|[|fuel]]; [lia..|].
  change (text_of (t :: ts)) with (32 :: token_text t ++ text_of ts).
  transitivity (tokenize_loop (S fuel) (token_text t ++ text_of ts) line tokens).
  { cbn [tokenize_loop]. by replace (MAX_ARITHMETIC_TOKENS <=? _) with false by (symmetry; dk_bool; lia). }
  rewrite tokenize_token; [|done|apply text_of_spaced|lia].
  rewrite IH; [|rewrite length_app; simpl; lia|lia]. by rewrite <- app_assoc.
Qed.

(** ** Theorems *)

(** Reading an expansion always ends, and what it accepts is well formed. *)
Lemma arithmetic_answers (source : str) (line : Z) (d : Depth) :
  0 ≤ d_lexer d + d_block d →
  match parse_arithmetic source line d with
  | Ok e => arith_ok e
  | Err OutOfFuel => False
  | Err (Error _) => True
  end.
Proof.
  intros Hd. unfold parse_arithmetic, tokenize_arithmetic.
  pose proof (tokenize_loop_ok (length source) source line [] (le_n _) (List.Forall_nil _)) as Ht.
  destruct (tokenize_loop _ _ _ _) as [tokens|[?|]]; simpl; [|done..].
  destruct (is_nil tokens); [done|].
  pose proof (parse_or_ok GROUP_FUEL d ltac:(unfold GROUP_FUEL; lia)
    ltac:(unfold GROUP_FUEL; lia) (mkArithParser tokens line d) Ht eq_refl) as Hp.
  destruct (parse_or _ _) as [[e p]|[?|]]; simpl in *; [|done..].
  destruct (remaining p) as [|[? ?] ?]; [apply Hp|done].
Qed.

(** Reading an arithmetic expansion always ends; an expression it accepts
    has the height it carries, at most 64, literals in the range of [i64] and
    names of at least one letter, digit or underscore. *)
Theorem arithmetic_is_well_formed (source : str) (line : Z) (d : Depth) :
  0 ≤ d_lexer d + d_block d →
  match parse_arithmetic source line d with
  | Ok e => arith_ok e
  | Err OutOfFuel => False
  | Err (Error _) => True
  end.
Proof. apply arithmetic_answers. Qed.

Lemma arithmetic_is_well_formed_witness :
  match parse_arithmetic (lit "1 + 2 * (x - 3)") 1 (mkDepth 0 1) with
  | Ok e => arith_ok e
  | Err OutOfFuel => False
  | Err (Error _) => True
  end.
Proof. apply (arithmetic_is_well_formed (lit "1 + 2 * (x - 3)") 1 (mkDepth 0 1)). simpl. lia. Defined.

(** C28: an expression without float literals, printed with a parenthesis only
    where the precedence or the left association of its operators asks for
    one, is read back as itself, provided its tokens are within the limit and
    its groups within the depth that is left. *)
Theorem arithmetic_round_trip (e : ArithExpr) (line : Z) (d : Depth) :
  arith_ok e → no_floats e = true → Z.of_nat (length (print_at 1 e)) ≤ MAX_ARITHMETIC_TOKENS →
  0 ≤ d_lexer d + d_block d → groups_at 1 e + (d_lexer d + d_block d) ≤ MAX_NESTING_DEPTH →
  parse_arithmetic (print e) line d = Ok e.
Proof.
  intros Hok Hnf Hlen Hd Hg. unfold parse_arithmetic, tokenize_arithmetic, print.
  rewrite tokenize_text; [|by apply print_at_printable|simpl; lia|done]. simpl.
  pose proof (print_reads line e 1 64 d Hok ltac:(lia) Hg) as Hr.
  unfold MAX_NESTING_DEPTH in Hg. specialize (Hr ltac:(lia)).
  pose proof (reads_at_level line (parse_or 64) d 1 (print_at 1 e) e [] ltac:(lia) Hr I) as Hp.
  rewrite app_nil_r in Hp. change (level (parse_or 64) 1) with (parse_or GROUP_FUEL) in Hp.
  destruct (on_line line (print_at 1 e)) as [|x xs] eqn:E.
  { destruct e as [[]]; simpl in E; try done; unfold parens in E; case_match; try done;
      by apply fmap_nil_inv, app_eq_nil in E as [_ ?]. }
  simpl is_nil. cbv iota. rewrite Hp. done.
Qed.

(** [-(1 + 2) * x < 7 || !y]. *)
Definition sample_expression : ArithExpr :=
  let e n h := mkArithExpr n h in
  let sum := e (Binary Add (arith_integer 1) (arith_integer 2)) 1 in
  let product := e (Binary Multiply (e (Unary Negate sum) 2) (arith_variable (lit "x"))) 3 in
  e (Binary Or (e (Binary Less product (arith_integer 7)) 4) (e (Unary Not (arith_variable (lit "y"))) 1)) 5.

Lemma arithmetic_round_trip_witness :
  parse_arithmetic (print sample_expression) 1 (mkDepth 0 1) = Ok sample_expression.
Proof.
  apply arithmetic_round_trip; [repeat split; done|done|vm_compute; congruence..].
Defined.
