(* ===== verification/ShellEval.v ===== *)
(** * Arithmetic of scripts: evaluation

    [evaluate_arithmetic] and [arithmetic] of [dekopon-shell/src/interp.rs].
    Integers wrap at 64 bits; an operation with a float is one of binary64; a
    comparison is made on binary64 even between integers. The values of
    variables and positional parameters as numbers, and the charge for a step,
    are arguments. *)

From Stdlib Require Import ZArith Lia Ascii String.
From Corelib Require Import Floats.SpecFloat.
From stdpp Require Import base strings list numbers.
From S2P Require Import Prelude RustStr ShellAst ShellArith ShellArithTheory.

(** ** Numbers *)

Inductive Number : Type :=
| NInteger (value : Z)
| NFloat (value : spec_float).

Definition f64_zero : spec_float := S754_zero false.

(** [value as f64]: to nearest, ties to even. *)
Definition f64_of_i64 (v : Z) : spec_float := binary_normalize f64_prec f64_emax v 0 false.

Definition as_f64 (n : Number) : spec_float := match n with NInteger v => f64_of_i64 v | NFloat v => v end.

Definition is_truthy (n : Number) : bool :=
  match n with NInteger v => negb (v =? 0) | NFloat v => negb (SFeqb v f64_zero) end.

(** [left % right] of finite numbers is exact: the remainder of the mantissas
    at the smaller exponent, with the sign of the left one. *)
Definition f64_rem (x y : spec_float) : spec_float :=
  match x, y with
  | S754_nan, _ | _, S754_nan | S754_infinity _, _ | _, S754_zero _ => S754_nan
  | S754_zero _, _ | _, S754_infinity _ => x
  | S754_finite sx mx ex, S754_finite _ my ey =>
      let e := Z.min ex ey in
      let r := Z.rem (Zpos mx * 2 ^ (ex - e)) (Zpos my * 2 ^ (ey - e)) in
      match r with
      | Zpos m => binary_round f64_prec f64_emax sx m e
      | _ => S754_zero sx
      end
  end.

(** [i64::from(b)]. *)
Definition of_bool (b : bool) : Number := NInteger (if b then 1 else 0).

(** ** Operators *)

Section Evaluation.

(** The errors of a command, and the budget of a script. *)
Context {F B : Type}.

Inductive EvalError : Type :=
| DivisionByZero
| Failed (failure : F)
| Unreachable.

Definition compared (ordering : option comparison) (expected : comparison → bool) : Number :=
  of_bool (match ordering with Some c => expected c | None => false end).

Definition integer_operation (op : ArithBinaryOp) (l r : Z) : result EvalError Number :=
  match op with
  | Add => Ok (NInteger (wrap_i64 (l + r)))
  | Subtract => Ok (NInteger (wrap_i64 (l - r)))
  | Multiply => Ok (NInteger (wrap_i64 (l * r)))
  | Divide => if r =? 0 then Err DivisionByZero else Ok (NInteger (wrap_i64 (Z.quot l r)))
  | _ => if r =? 0 then Err DivisionByZero else Ok (NInteger (wrap_i64 (Z.rem l r)))
  end.

Definition float_operation (op : ArithBinaryOp) (l r : spec_float) : result EvalError Number :=
  match op with
  | Add => Ok (NFloat (SFadd f64_prec f64_emax l r))
  | Subtract => Ok (NFloat (SFsub f64_prec f64_emax l r))
  | Multiply => Ok (NFloat (SFmul f64_prec f64_emax l r))
  | Divide => if SFeqb r f64_zero then Err DivisionByZero else Ok (NFloat (SFdiv f64_prec f64_emax l r))
  | _ => if SFeqb r f64_zero then Err DivisionByZero else Ok (NFloat (f64_rem l r))
  end.

Definition arithmetic (op : ArithBinaryOp) (left right : Number) : result EvalError Number :=
  let ordering := SFcompare (as_f64 left) (as_f64 right) in
  match op with
  | Less => Ok (compared ordering (fun c => match c with Lt => true | _ => false end))
  | LessOrEqual => Ok (compared ordering (fun c => match c with Gt => false | _ => true end))
  | Greater => Ok (compared ordering (fun c => match c with Gt => true | _ => false end))
  | GreaterOrEqual => Ok (compared ordering (fun c => match c with Lt => false | _ => true end))
  | Equal => Ok (compared ordering (fun c => match c with Eq => true | _ => false end))
  | NotEqual => Ok (compared ordering (fun c => match c with Eq => false | _ => true end))
  | And | Or => Err Unreachable
  | Add | Subtract | Multiply | Divide | Remainder =>
      match left, right with
      | NInteger l, NInteger r => integer_operation op l r
      | _, _ => float_operation op (as_f64 left) (as_f64 right)
      end
  end.

Definition unary_operation (op : ArithUnaryOp) (operand : Number) : Number :=
  match op with
  | Negate => match operand with
              | NInteger v => NInteger (wrap_i64 (- v))
              | NFloat v => NFloat (SFopp v)
              end
  | Not => of_bool (negb (is_truthy operand))
  end.

(** ** Expressions *)

Context (charge : B → result F B).
Context (positional : Z → result F Number) (named : str → Number).

Definition variable_number (name : str) : result EvalError Number :=
  match parse_u64 name with
  | Some position => match positional position with Ok n => Ok n | Err f => Err (Failed f) end
  | None => Ok (named name)
  end.

Fixpoint evaluate_arithmetic (e : ArithExpr) (budget : B) : result EvalError (Number * B) :=
  match e with
  | mkArithExpr node _ =>
      match charge budget with
      | Err f => Err (Failed f)
      | Ok budget => evaluate_node node budget
      end
  end
with evaluate_node (node : ArithNode) (budget : B) : result EvalError (Number * B) :=
  match node with
  | Integer v => Ok (NInteger v, budget)
  | Float v => Ok (NFloat v, budget)
  | Variable_ name => let? n := variable_number name in Ok (n, budget)
  | Unary op operand =>
      let? (n, budget) := evaluate_arithmetic operand budget in
      Ok (unary_operation op n, budget)
  | Binary op x y =>
      let? (l, budget) := evaluate_arithmetic x budget in
      let second :=
        let? (r, budget) := evaluate_arithmetic y budget in
        Ok (of_bool (is_truthy r), budget) in
      match op with
      | And => if negb (is_truthy l) then Ok (NInteger 0, budget) else second
      | Or => if is_truthy l then Ok (NInteger 1, budget) else second
      | _ =>
          let? (r, budget) := evaluate_arithmetic y budget in
          let? n := arithmetic op l r in
          Ok (n, budget)
      end
  end.

End Evaluation.

(** ** Comparisons of integers *)


Lemma digits_size (m : positive) : digits2_pos m = Pos.size m.
Proof. induction m as [m IH|m IH|]; simpl; by rewrite ?IH. Qed.

Lemma size_shift (m d : positive) : Zpos (Pos.size (Pos.iter xO m d)) = Zpos (Pos.size m) + Zpos d.
Proof.
  induction d as [|d IH] using Pos.peano_ind; [simpl; lia|]. rewrite Pos.iter_succ. cbn [Pos.size]. lia.
Qed.

(** An integer of at most 53 binary digits is a mantissa of 53 digits. *)
Definition exact_mantissa (m : positive) : positive :=
  match (53 - Zpos (Pos.size m))%Z with Zpos d => Pos.iter xO m d | _ => m end.
Definition exact_exponent (m : positive) : Z := Zpos (Pos.size m) - 53.

Lemma size_bound (m : positive) : Zpos m < 2 ^ 53 → Zpos (Pos.size m) ≤ 53.
Proof.
  intros H. pose proof (Pos.size_le m) as Hs. apply Pos2Z.pos_le_pos in Hs. rewrite Pos2Z.inj_pow in Hs.
  destruct (Z.le_gt_cases (Zpos (Pos.size m)) 53) as [|Hgt]; [done|].
  assert (2 ^ 54 ≤ 2 ^ Zpos (Pos.size m)) by (apply Z.pow_le_mono_r; lia). lia.
Qed.

Lemma exact_value (m : positive) : Zpos m < 2 ^ 53 → Zpos (exact_mantissa m) = Zpos m * 2 ^ (53 - Zpos (Pos.size m)).
Proof.
  intros H. apply size_bound in H. unfold exact_mantissa.
  destruct (53 - Zpos (Pos.size m)) as [|d|d] eqn:E; [simpl; lia| |lia].
  clear H E. induction d as [|d IH] using Pos.peano_ind; [simpl; lia|].
  rewrite Pos.iter_succ, Pos2Z.inj_succ, Z.pow_succ_r by lia. rewrite Pos2Z.inj_xO, IH. lia.
Qed.

Lemma round_exact (s : bool) (m : positive) :
  Zpos m < 2 ^ 53 →
  binary_round f64_prec f64_emax s m 0 = S754_finite s (exact_mantissa m) (exact_exponent m).
Proof.
  intros H. apply size_bound in H. pose proof (Pos2Z.is_pos (Pos.size m)) as Hp.
  assert (Hfexp : ∀ x, 1 ≤ x ≤ 53 → fexp f64_prec f64_emax x = x - 53).
  { intros x Hx. unfold fexp, emin, f64_prec, f64_emax. lia. }
  assert (Haux : ∀ mz, Zpos (Pos.size mz) = 53 →
    binary_round_aux f64_prec f64_emax s (Zpos mz) (exact_exponent m) loc_Exact =
    S754_finite s mz (exact_exponent m)).
  { intros mz Hmz. unfold binary_round_aux, shr_fexp, exact_exponent. cbn [Zdigits2 shr_record_of_loc].
    rewrite (digits_size mz), Hmz, Hfexp by lia.
    replace (53 + (Zpos (Pos.size m) - 53) - 53 - (Zpos (Pos.size m) - 53)) with 0 by lia.
    cbn [shr shr_m loc_of_shr_record round_nearest_even Zdigits2].
    rewrite (digits_size mz), Hmz, Hfexp by lia.
    replace (53 + (Zpos (Pos.size m) - 53) - 53 - (Zpos (Pos.size m) - 53)) with 0 by lia. cbn [shr shr_m].
    unfold f64_emax, f64_prec. by rewrite (proj2 (Z.leb_le _ _)) by lia. }
  unfold binary_round, shl_align. rewrite (digits_size m), Z.add_0_r, Hfexp by lia.
  rewrite Z.sub_0_r. unfold exact_mantissa.
  destruct (Zpos (Pos.size m) - 53) as [|d|d] eqn:E; [| lia|].
  - replace (53 - Zpos (Pos.size m)) with 0 by lia. specialize (Haux m). unfold exact_exponent in *. rewrite E in *.
    apply Haux. lia.
  - replace (53 - Zpos (Pos.size m)) with (Zpos d) by lia. specialize (Haux (Pos.iter xO m d)).
    unfold exact_exponent in *. rewrite E in *. apply Haux. rewrite size_shift. lia.
Qed.

(** Of the finite numbers that 53 digits make, the one with more digits is greater. *)
Lemma mantissa_compare (a b : positive) :
  Zpos a < 2 ^ 53 → Zpos b < 2 ^ 53 →
  match exact_exponent a ?= exact_exponent b with
  | Eq => Pos.compare_cont Eq (exact_mantissa a) (exact_mantissa b)
  | c => c
  end = (Zpos a ?= Zpos b).
Proof.
  intros Ha Hb. change (Pos.compare_cont Eq (exact_mantissa a) (exact_mantissa b))
    with (Zpos (exact_mantissa a) ?= Zpos (exact_mantissa b)).
  rewrite !exact_value by done. unfold exact_exponent.
  assert (Hlt : ∀ x y, Zpos (Pos.size x) < Zpos (Pos.size y) → Zpos x < Zpos y).
  { intros x y Hxy. pose proof (Pos.size_gt x) as H1. pose proof (Pos.size_le y) as H2.
    apply Pos2Z.pos_lt_pos in H1. apply Pos2Z.pos_le_pos in H2. rewrite Pos2Z.inj_pow in *.
    assert (2 ^ (Zpos (Pos.size x) + 1) ≤ 2 ^ Zpos (Pos.size y)) by (apply Z.pow_le_mono_r; lia).
    rewrite Z.pow_add_r in * by lia. lia. }
  destruct (Z.compare_spec (Zpos (Pos.size a) - 53) (Zpos (Pos.size b) - 53)) as [E|E|E].
  - replace (Zpos (Pos.size b)) with (Zpos (Pos.size a)) by lia.
    apply eq_sym. rewrite (Z.mul_comm (Zpos a)), (Z.mul_comm (Zpos b)). apply Zmult_compare_compat_l.
    apply size_bound in Ha. assert (0 < 2 ^ (53 - Zpos (Pos.size a))) by (apply Z.pow_pos_nonneg; lia). lia.
  - symmetry. apply Z.compare_lt_iff, Hlt. lia.
  - symmetry. apply Z.compare_gt_iff, Hlt. lia.
Qed.

(** Within 53 digits the comparison of binary64 is that of the integers. *)
Lemma compare_small (a b : Z) :
  Z.abs a < 2 ^ 53 → Z.abs b < 2 ^ 53 → SFcompare (f64_of_i64 a) (f64_of_i64 b) = Some (a ?= b).
Proof.
  intros Ha Hb. unfold f64_of_i64, binary_normalize.
  destruct a as [|a|a], b as [|b|b]; simpl Z.abs in *; rewrite ?round_exact by done; try done; cbn [SFcompare]; f_equal.
  - by apply mantissa_compare.
  - change (Zneg a ?= Zneg b) with (CompOpp (Zpos a ?= Zpos b)). rewrite <- mantissa_compare by done.
    by destruct (exact_exponent a ?= exact_exponent b).
Qed.

(** ** Exact arithmetic *)

Section Exact.

Context (env : str → Z).

Definition truth (b : bool) : Z := if b then 1 else 0.

(** The operators of the integers, division towards zero; [None] by zero. *)
Definition exact_operation (op : ArithBinaryOp) (l r : Z) : option Z :=
  match op with
  | Add => Some (l + r)
  | Subtract => Some (l - r)
  | Multiply => Some (l * r)
  | Divide => if r =? 0 then None else Some (Z.quot l r)
  | Remainder => if r =? 0 then None else Some (Z.rem l r)
  | Less => Some (truth (l <? r))
  | LessOrEqual => Some (truth (l <=? r))
  | Greater => Some (truth (r <? l))
  | GreaterOrEqual => Some (truth (r <=? l))
  | Equal => Some (truth (l =? r))
  | NotEqual => Some (truth (negb (l =? r)))
  | And => Some (truth (negb (l =? 0) && negb (r =? 0)))
  | Or => Some (truth (negb (l =? 0) || negb (r =? 0)))
  end.

(** Whether the left operand of a logical operator decides it. *)
Definition decided (op : ArithBinaryOp) (l : Z) : bool :=
  match op with And => l =? 0 | Or => negb (l =? 0) | _ => false end.

(** The value of an expression in the integers. *)
Fixpoint exact (e : ArithExpr) : option Z :=
  match e with
  | mkArithExpr node _ =>
      match node with
      | Integer v => Some v
      | Float _ => None
      | Variable_ name => Some (env name)
      | Unary op x =>
          v ← exact x;
          Some (match op with Negate => - v | Not => truth (v =? 0) end)
      | Binary op x y =>
          l ← exact x;
          if decided op l then exact_operation op l 0
          else r ← exact y; exact_operation op l r
      end
  end.

Definition within (o : option Z) : bool := match o with Some v => Z.abs v <? 2 ^ 53 | None => true end.

(** Every value that the evaluation meets has at most 53 binary digits. *)
Fixpoint stays_small (e : ArithExpr) : bool :=
  within (exact e) &&
  match e with
  | mkArithExpr node _ =>
      match node with
      | Integer _ | Float _ | Variable_ _ => true
      | Unary _ x => stays_small x
      | Binary op x y =>
          stays_small x &&
          match exact x with Some l => decided op l || stays_small y | None => true end
      end
  end.

(** The steps that the evaluation takes: one for each operand it comes to. *)
Fixpoint visits (e : ArithExpr) : nat :=
  match e with
  | mkArithExpr node _ =>
      match node with
      | Integer _ | Float _ | Variable_ _ => 1
      | Unary _ x => S (visits x)
      | Binary op x y =>
          S (visits x
             + match exact x with Some l => if decided op l then O else visits y | None => O end)
      end
  end.

End Exact.

Fixpoint variables (e : ArithExpr) : list str :=
  match e with
  | mkArithExpr node _ =>
      match node with
      | Integer _ | Float _ => []
      | Variable_ name => [name]
      | Unary _ x => variables x
      | Binary _ x y => variables x ++ variables y
      end
  end.

(** A number of charges, up to the first that fails. *)
Fixpoint charges {F B : Type} (charge : B → result F B) (n : nat) (b : B) : result F B :=
  match n with
  | O => Ok b
  | S n => let? b := charge b in charges charge n b
  end.

(** What an evaluation of [n] steps gives whose value in the integers is [v]. *)
Definition outcome {F B : Type} (charge : B → result F B) (n : nat) (v : option Z) (b : B)
    : result (EvalError (F := F)) (Number * B) :=
  match charges charge n b with
  | Err f => Err (Failed f)
  | Ok b => match v with Some v => Ok (NInteger v, b) | None => Err DivisionByZero end
  end.

Lemma small_i64 (v : Z) : Z.abs v < 2 ^ 53 → wrap_i64 v = v.
Proof. intros H. apply wrap_i64_id. unfold in_i64, i64_min, i64_max. lia. Qed.

Lemma of_bool_truth (b : bool) : of_bool b = NInteger (truth b).
Proof. by destruct b. Qed.

Lemma arithmetic_exact {F : Type} (op : ArithBinaryOp) (l r : Z) :
  op ≠ And → op ≠ Or → Z.abs l < 2 ^ 53 → Z.abs r < 2 ^ 53 → within (exact_operation op l r) = true →
  arithmetic (F := F) op (NInteger l) (NInteger r) =
    match exact_operation op l r with Some v => Ok (NInteger v) | None => Err DivisionByZero end.
Proof.
  intros H1 H2 Hl Hr Hw. unfold arithmetic. cbn [as_f64].
  destruct op; try done; cbn [exact_operation integer_operation within] in *;
    try (rewrite compare_small by done; unfold compared; rewrite of_bool_truth; f_equal; f_equal; f_equal;
         destruct (Z.compare_spec l r); dk_bool; lia);
    try (destruct (r =? 0); [done|]; cbn [within] in Hw);
    apply Z.ltb_lt in Hw; by rewrite small_i64.
Qed.

Section Evaluates.

Context {F B : Type} (charge : B → result F B) (positional : Z → result F Number) (named : str → Number).
Context (env : str → Z).
#[local] Abbreviation eval := (evaluate_arithmetic charge positional named).

Lemma eval_unary (op : ArithUnaryOp) (x : ArithExpr) (h : Z) (b b1 : B) :
  charge b = Ok b1 →
  eval (mkArithExpr (Unary op x) h) b =
    let? (n, b2) := eval x b1 in Ok (unary_operation op n, b2).
Proof. intros Hb. cbn [evaluate_arithmetic]. rewrite Hb. reflexivity. Qed.

Lemma eval_binary (op : ArithBinaryOp) (x y : ArithExpr) (h : Z) (b b1 : B) :
  charge b = Ok b1 →
  eval (mkArithExpr (Binary op x y) h) b =
    let? (l, b2) := eval x b1 in
    let second := let? (r, b3) := eval y b2 in Ok (of_bool (is_truthy r), b3) in
    match op with
    | And => if negb (is_truthy l) then Ok (NInteger 0, b2) else second
    | Or => if is_truthy l then Ok (NInteger 1, b2) else second
    | _ => let? (r, b3) := eval y b2 in let? n := arithmetic op l r in Ok (n, b3)
    end.
Proof. intros Hb. cbn [evaluate_arithmetic]. rewrite Hb. reflexivity. Qed.

Lemma within_exact (e : ArithExpr) : stays_small env e = true → within (exact env e) = true.
Proof. destruct e. cbn [stays_small]. intros H. by apply andb_prop in H as [H _]. Qed.

Lemma charges_add (n m : nat) (b : B) :
  charges charge (n + m) b = let? b := charges charge n b in charges charge m b.
Proof.
  revert b. induction n as [|n IH]; intros b; cbn; [done|]. destruct (charge b); cbn; [apply IH|done].
Qed.

(** A logical operator whose second operand is evaluated. *)
Lemma logical_exact (op : ArithBinaryOp) (l r : Z) :
  op = And ∨ op = Or → decided op l = false →
  exact_operation op l r = Some (truth (negb (r =? 0))).
Proof. intros [-> | ->]; cbn; intros E; by rewrite E. Qed.

Lemma evaluates_binary (op : ArithBinaryOp) (x y : ArithExpr) (h : Z) (b1 b2 b : B) (l : Z) :
  charge b = Ok b1 → eval x b1 = Ok (NInteger l, b2) → Z.abs l < 2 ^ 53 →
  (decided op l = false → within (exact env y) = true) →
  within (exact env (mkArithExpr (Binary op x y) h)) = true →
  exact env x = Some l → (decided op l = false → eval y b2 = outcome charge (visits env y) (exact env y) b2) →
  eval (mkArithExpr (Binary op x y) h) b
  = outcome charge (if decided op l then O else visits env y) (exact env (mkArithExpr (Binary op x y) h)) b2.
Proof.
  intros Hb Ex Hl Hwy Hw El Ey. rewrite (eval_binary _ _ _ _ _ b1 Hb), Ex. cbn [result_bind exact] in *.
  rewrite El in *. cbn [mbind option_bind] in *. destruct (decided op l) eqn:Ed.
  { unfold outcome. cbn. destruct op; try done; simpl in Ed; simpl; by rewrite Ed. }
  specialize (Hwy eq_refl). rewrite (Ey eq_refl). unfold outcome. destruct (charges _ _ b2) as [b3|f].
  2:{ destruct op; try done; simpl in Ed |- *; by rewrite Ed. }
  destruct (exact env y) as [r|]; cbn [mbind option_bind within] in *.
  2:{ destruct op; try done; simpl in Ed |- *; by rewrite Ed. }
  apply Z.ltb_lt in Hwy. destruct (decide (op = And ∨ op = Or)) as [Hop|Hop].
  - rewrite (logical_exact op l r Hop Ed). destruct Hop as [-> | ->]; simpl in Ed |- *; rewrite Ed; simpl;
      by rewrite of_bool_truth.
  - pose proof (arithmetic_exact (F := F) op l r ltac:(tauto) ltac:(tauto) Hl Hwy Hw) as Ha.
    destruct op; try (exfalso; tauto); cbn [result_bind]; rewrite Ha; by destruct (exact_operation _ l r).
Qed.

Lemma evaluates (e : ArithExpr) (b : B) :
  Forall (fun name => variable_number (F := F) positional named name = Ok (NInteger (env name))) (variables e) →
  no_floats e = true → stays_small env e = true →
  eval e b = outcome charge (visits env e) (exact env e) b.
Proof.
  revert b. induction e as [v h|f h|s h|op x h IH|op x y h IHx IHy] using arith_expr_ind; intros b Hvar Hnf Hsm.
  all: destruct (charge b) as [b1|f1] eqn:Hb; [|unfold outcome; cbn; by rewrite Hb].
  - unfold outcome. cbn. by rewrite Hb.
  - done.
  - unfold outcome. cbn. rewrite Hb. apply Forall_inv in Hvar. by rewrite Hvar.
  - rewrite (eval_unary _ _ _ _ b1 Hb). cbn [no_floats variables] in *. cbn [stays_small exact] in *.
    apply andb_prop in Hsm as [Hw Hsm]. rewrite (IH b1 Hvar Hnf Hsm). unfold outcome.
    cbn [visits charges]. rewrite Hb. cbn [result_bind]. destruct (charges _ _ b1) as [b2|f]; [|done].
    destruct (exact env x) as [v|]; [|done]. cbn [result_bind mbind option_bind within] in *.
    f_equal. f_equal. destruct op; cbn [unary_operation is_truthy]; [apply Z.ltb_lt in Hw; by rewrite small_i64|].
    rewrite of_bool_truth. by destruct (v =? 0).
  - cbn [no_floats variables] in *. apply andb_prop in Hnf as [Hx Hy]. apply Forall_app in Hvar as [Hvx Hvy].
    pose proof (within_exact _ Hsm) as Hw. cbn [stays_small] in Hsm.
    apply andb_prop in Hsm as [_ Hsm]. apply andb_prop in Hsm as [Hsx Hsy].
    specialize (IHx b1 Hvx Hx Hsx). apply within_exact in Hsx. unfold outcome. cbn [visits charges].
    rewrite Hb. cbn [result_bind]. rewrite charges_add. unfold outcome in IHx.
    destruct (charges charge (visits env x) b1) as [b2|f] eqn:Ec; cbn [result_bind].
    2:{ by rewrite (eval_binary _ _ _ _ _ b1 Hb), IHx. }
    destruct (exact env x) as [l|] eqn:El; cbn [within] in *.
    2:{ rewrite (eval_binary _ _ _ _ _ b1 Hb), IHx. cbn [exact]. by rewrite El. }
    apply Z.ltb_lt in Hsx. apply (evaluates_binary op x y h b1 b2 b l); try done.
    + intros Ed. rewrite Ed in Hsy. by apply within_exact.
    + intros Ed. rewrite Ed in Hsy. by apply IHy.
Qed.

End Evaluates.

(** The logical operators are settled before [arithmetic] is called: its
    [unreachable!] is not reached. *)
Theorem evaluation_never_panics {F B : Type} (charge : B → result F B) (positional : Z → result F Number)
    (named : str → Number) (e : ArithExpr) (b : B) :
  evaluate_arithmetic charge positional named e b ≠ Err Unreachable.
Proof.
  assert (Har : ∀ op l r, op ≠ And → op ≠ Or → arithmetic (F := F) op l r ≠ Err Unreachable).
  { intros op l r H1 H2. unfold arithmetic, integer_operation, float_operation.
    destruct op; try done; destruct l, r; repeat case_match; done. }
  revert b. induction e as [v h|f h|s h|op x h IH|op x y h IHx IHy] using arith_expr_ind; intros b;
    destruct (charge b) as [b1|f1] eqn:Hb; try (simpl; rewrite Hb; done).
  - simpl. rewrite Hb. unfold variable_number. by destruct (parse_u64 s) as [p|]; [destruct (positional p)|].
  - rewrite (eval_unary _ _ _ _ _ _ _ b1 Hb). specialize (IH b1).
    by destruct (evaluate_arithmetic _ _ _ x b1) as [[n b2]|[]].
  - rewrite (eval_binary _ _ _ _ _ _ _ _ b1 Hb). specialize (IHx b1).
    destruct (evaluate_arithmetic _ _ _ x b1) as [[l b2]|[]]; try done. cbn [result_bind]. cbv zeta. specialize (IHy b2).
    destruct (evaluate_arithmetic _ _ _ y b2) as [[r b3]|ey]; cbn [result_bind].
    + destruct op; try (match goal with |- context [arithmetic ?o l r] =>
        specialize (Har o l r ltac:(done) ltac:(done)); by destruct (arithmetic o l r) as [|[]] end);
        by destruct (is_truthy l).
    + destruct op; try done; destruct (is_truthy l); done.
Qed.

(** C29: Take an expression without floats whose variables hold integers and
    whose values on the way have at most 53 binary digits. Its evaluation takes
    one step for each operand it comes to. If the charge for one of these steps
    fails (steps, deadline or cancellation), that is the error; otherwise the
    result is the value in the integers, sums, products, division towards zero
    and its remainder, comparisons and short-circuit logic, or the division
    error where the integers divide by zero, and there only. *)
Theorem arithmetic_is_exact {F B : Type} (charge : B → result F B) (positional : Z → result F Number)
    (named : str → Number) (env : str → Z) (e : ArithExpr) (b : B) :
  Forall (fun name => variable_number (F := F) positional named name = Ok (NInteger (env name))) (variables e) →
  no_floats e = true → stays_small env e = true →
  evaluate_arithmetic charge positional named e b
  = match charges charge (visits env e) b with
    | Err f => Err (Failed f)
    | Ok b' => match exact env e with Some v => Ok (NInteger v, b') | None => Err DivisionByZero end
    end.
Proof. apply evaluates. Qed.

(** A budget that counts to 16, and a script whose variables are all 7. *)
Definition demo_positional (_ : Z) : result unit Number := Ok (NInteger 7).
Definition demo_named (_ : str) : Number := NInteger 7.
Definition demo_charge (n : Z) : result unit Z := if n <? 16 then Ok (n + 1) else Err tt.
Definition demo_env (_ : str) : Z := 7.

(** [evaluate_arithmetic] on a source. *)
Definition computes (source : string) : option (result (EvalError (F := unit)) (Number * Z)) :=
  match parse_arithmetic (lit source) 1 (mkDepth 0 1) with
  | Ok e => Some (evaluate_arithmetic demo_charge demo_positional demo_named e 0)
  | Err _ => None
  end.

Definition demo_expression (source : string) : ArithExpr :=
  match parse_arithmetic (lit source) 1 (mkDepth 0 1) with Ok e => e | Err _ => arith_integer 0 end.

Lemma demo_variables (name : str) :
  variable_number (F := unit) demo_positional demo_named name = Ok (NInteger (demo_env name)).
Proof. unfold variable_number. by destruct (parse_u64 name). Qed.

Lemma demo_all_variables (e : ArithExpr) :
  Forall (fun name => variable_number (F := unit) demo_positional demo_named name
                      = Ok (NInteger (demo_env name))) (variables e).
Proof. apply List.Forall_forall. intros name _. apply demo_variables. Qed.

(** A value, a division by zero, and a budget that runs out before it. *)
Lemma arithmetic_is_exact_witness :
  evaluate_arithmetic demo_charge demo_positional demo_named
    (demo_expression "(n - 12) / 2 + (n % 4 == 3) * -4 || 1 / 0") 0 = Ok (NInteger 1, 15) ∧
  evaluate_arithmetic demo_charge demo_positional demo_named (demo_expression "3 * (n / (n - 7))") 0
    = Err DivisionByZero ∧
  evaluate_arithmetic demo_charge demo_positional demo_named (demo_expression "3 * (n / (n - 7))") 10
    = Err (Failed tt).
Proof.
  split; [|split].
  - exact (arithmetic_is_exact demo_charge demo_positional demo_named demo_env
      (demo_expression "(n - 12) / 2 + (n % 4 == 3) * -4 || 1 / 0") 0 (demo_all_variables _) eq_refl eq_refl).
  - exact (arithmetic_is_exact demo_charge demo_positional demo_named demo_env
      (demo_expression "3 * (n / (n - 7))") 0 (demo_all_variables _) eq_refl eq_refl).
  - exact (arithmetic_is_exact demo_charge demo_positional demo_named demo_env
      (demo_expression "3 * (n / (n - 7))") 10 (demo_all_variables _) eq_refl eq_refl).
Defined.

(** Beyond 53 digits integers are compared as floats: 2^53 + 1 equals 2^53. *)
Theorem large_integers_compare_equal :
  computes "9007199254740993 == 9007199254740992" = Some (Ok (NInteger 1, 3)) ∧
  computes "9007199254740993 > 9007199254740992" = Some (Ok (NInteger 0, 3)) ∧
  computes "9007199254740993 - 9007199254740992" = Some (Ok (NInteger 1, 3)).
Proof. split; [|split]; reflexivity. Qed.
