(* ===== verification/ShellState.v ===== *)
(** * State and errors of the shell's front end

    The methods of [Lexer] and [Parser] take [&mut self] and return a
    [Result]: here a function from a state to a result and the state the call
    leaves, which an error leaves too. [wp m Q s] says that [m], called at [s],
    does not exhaust its fuel, and that what it returns satisfies [Q]. *)

From Stdlib Require Import ZArith Lia.
From stdpp Require Import base list numbers.
From S2P Require Import Prelude ShellAst ShellArith.

Definition M (S A : Type) : Type := S → result fault A * S.

Section Monad.

Context {S : Type}.

Definition ret {A : Type} (a : A) : M S A := fun s => (Ok a, s).
Definition throw {A : Type} (e : fault) : M S A := fun s => (Err e, s).
Definition bind {A B : Type} (m : M S A) (k : A → M S B) : M S B :=
  fun s => match m s with
           | (Ok a, s) => k a s
           | (Err e, s) => (Err e, s)
           end.
Definition gets {A : Type} (f : S → A) : M S A := fun s => (Ok (f s), s).
Definition modify (f : S → S) : M S unit := fun s => (Ok tt, f s).
Definition of_result {A : Type} (r : result fault A) : M S A := fun s => (r, s).

(** A call on a state of its own, which the caller keeps no part of. *)
Definition eval {A T : Type} (m : M T A) (t : T) : result fault A := (m t).1.

End Monad.

Notation "'let!' x ':=' m 'in' k" := (bind m (fun x => k))
  (at level 10, x pattern, m at level 150, k at level 200,
   format "'[v' 'let!'  x  ':='  m  'in' '/' k ']'") : dekopon_scope.
Notation "'do!' m 'in' k" := (bind m (fun _ => k))
  (at level 10, m at level 150, k at level 200,
   format "'[v' 'do!'  m  'in' '/' k ']'") : dekopon_scope.

Section Wp.

Context {S : Type}.

Definition wp {A : Type} (m : M S A) (Q : A → S → Prop) (s : S) : Prop :=
  match m s with
  | (Ok a, s') => Q a s'
  | (Err (Error _), _) => True
  | (Err OutOfFuel, _) => False
  end.

Lemma wp_ret {A : Type} (a : A) (Q : A → S → Prop) (s : S) : Q a s → wp (ret a) Q s.
Proof. done. Qed.

Lemma wp_throw {A : Type} (e : ParseError) (Q : A → S → Prop) (s : S) : wp (throw (Error e)) Q s.
Proof. done. Qed.

Lemma wp_gets {A : Type} (f : S → A) (Q : A → S → Prop) (s : S) : Q (f s) s → wp (gets f) Q s.
Proof. done. Qed.

Lemma wp_update (f : S → S) (Q : unit → S → Prop) (s : S) : Q tt (f s) → wp (modify f) Q s.
Proof. done. Qed.

Lemma wp_result {A : Type} (r : result fault A) (Q : A → S → Prop) (s : S) :
  match r with Ok a => Q a s | Err (Error _) => True | Err OutOfFuel => False end →
  wp (of_result r) Q s.
Proof. by destruct r as [|[]]. Qed.

Lemma wp_weaken {A : Type} (m : M S A) (Q Q' : A → S → Prop) (s : S) :
  wp m Q' s → (∀ a s', Q' a s' → Q a s') → wp m Q s.
Proof. unfold wp. destruct (m s) as [[a|[e|]] s']; auto. Qed.

Lemma wp_then {A B : Type} (m : M S A) (k : A → M S B) (Q : B → S → Prop) (s : S) :
  wp m (fun a => wp (k a) Q) s → wp (bind m k) Q s.
Proof. unfold wp, bind. destruct (m s) as [[a|[e|]] s']; auto. Qed.

(** What a call on a state of its own gives. *)
Lemma eval_wp {A : Type} (m : M S A) (Q : A → Prop) (s : S) :
  wp m (fun a _ => Q a) s →
  match eval m s with Ok a => Q a | Err (Error _) => True | Err OutOfFuel => False end.
Proof. unfold wp, eval. destruct (m s) as [[a|[e|]] s']; auto. Qed.

End Wp.

(** Sequencing: a step of a method whose own guarantee is at hand. *)
Ltac wp_step :=
  first
    [ apply wp_then
    | apply wp_ret
    | apply wp_throw
    | apply wp_gets
    | apply wp_update ].
