(* ===== verification/ShellLexer.v ===== *)
(** * Lexer of scripts

    [dekopon-shell/src/lexer.rs]. The lexer walks the characters of its source
    with their byte offsets, gathers words part by part and queues tokens; the
    parser asks for one token at a time. A [$] hands over to
    [read_dollar_part], which may parse a whole program inside [$( ... )] or
    open a lexer of its own inside [${ ... }]: here that call is the parameter
    [dollar], and [ShellParser] closes the recursion. *)

From Stdlib Require Import ZArith Lia Ascii String.
From stdpp Require Import base strings list numbers.
From S2P Require Import Prelude RustStr ShellAst ShellArith ShellState.

Definition newline : Z := 10.
Definition tab : Z := 9.
Definition carriage_return : Z := 13.
Definition double_quote : Z := 34.

Record PendingHereDoc : Type := mkPending {
  delimiter : str;
  strip_tabs : bool;
  expand : bool;
  here_line : Z;
  here_token : nat;
}.

Inductive Enclosure : Type := Bare | InDoubleQuotes.

(** [chars] is what [Peekable<CharIndices>] has left. *)
Record Lexer : Type := mkLexer {
  source : str;
  chars_left : list (Z * Z);
  line : Z;
  tokens : list Token;
  word_parts : list WordPart;
  literal : str;
  word_started : bool;
  word_line : Z;
  word_offset : Z;
  token_offset : Z;
  pending_here_docs : list PendingHereDoc;
  pending_here_doc_close : option Z;
  lexer_depth : Depth;
}.

Abbreviation lex := (M Lexer).

Definition new_lexer (source : str) (depth : Depth) (start_line : Z) : Lexer :=
  mkLexer source (char_indices source) start_line [] [] [] false start_line 0 0 [] None depth.

Section Setters.

Definition set_chars (v : list (Z * Z)) (l : Lexer) : Lexer :=
  mkLexer (source l) v (line l) (tokens l) (word_parts l) (literal l) (word_started l)
    (word_line l) (word_offset l) (token_offset l) (pending_here_docs l)
    (pending_here_doc_close l) (lexer_depth l).
Definition set_line (v : Z) (l : Lexer) : Lexer :=
  mkLexer (source l) (chars_left l) v (tokens l) (word_parts l) (literal l) (word_started l)
    (word_line l) (word_offset l) (token_offset l) (pending_here_docs l)
    (pending_here_doc_close l) (lexer_depth l).
Definition set_tokens (v : list Token) (l : Lexer) : Lexer :=
  mkLexer (source l) (chars_left l) (line l) v (word_parts l) (literal l) (word_started l)
    (word_line l) (word_offset l) (token_offset l) (pending_here_docs l)
    (pending_here_doc_close l) (lexer_depth l).
Definition set_parts (v : list WordPart) (l : Lexer) : Lexer :=
  mkLexer (source l) (chars_left l) (line l) (tokens l) v (literal l) (word_started l)
    (word_line l) (word_offset l) (token_offset l) (pending_here_docs l)
    (pending_here_doc_close l) (lexer_depth l).
Definition set_literal (v : str) (l : Lexer) : Lexer :=
  mkLexer (source l) (chars_left l) (line l) (tokens l) (word_parts l) v (word_started l)
    (word_line l) (word_offset l) (token_offset l) (pending_here_docs l)
    (pending_here_doc_close l) (lexer_depth l).
Definition set_word_started (v : bool) (l : Lexer) : Lexer :=
  mkLexer (source l) (chars_left l) (line l) (tokens l) (word_parts l) (literal l) v
    (word_line l) (word_offset l) (token_offset l) (pending_here_docs l)
    (pending_here_doc_close l) (lexer_depth l).
Definition set_token_offset (v : Z) (l : Lexer) : Lexer :=
  mkLexer (source l) (chars_left l) (line l) (tokens l) (word_parts l) (literal l) (word_started l)
    (word_line l) (word_offset l) v (pending_here_docs l)
    (pending_here_doc_close l) (lexer_depth l).
Definition set_pending (v : list PendingHereDoc) (l : Lexer) : Lexer :=
  mkLexer (source l) (chars_left l) (line l) (tokens l) (word_parts l) (literal l) (word_started l)
    (word_line l) (word_offset l) (token_offset l) v (pending_here_doc_close l) (lexer_depth l).
Definition set_close (v : option Z) (l : Lexer) : Lexer :=
  mkLexer (source l) (chars_left l) (line l) (tokens l) (word_parts l) (literal l) (word_started l)
    (word_line l) (word_offset l) (token_offset l) (pending_here_docs l) v (lexer_depth l).

(** [set_parser_depth]. *)
Definition set_parser_depth (v : Depth) (l : Lexer) : Lexer :=
  mkLexer (source l) (chars_left l) (line l) (tokens l) (word_parts l) (literal l) (word_started l)
    (word_line l) (word_offset l) (token_offset l) (pending_here_docs l)
    (pending_here_doc_close l) v.

End Setters.

Definition lexical (line : Z) (e : LexError) : fault := Error (Lex line e).

(** ** Characters *)

(** [self.chars.next()]. *)
Definition next_char : lex (option (Z * Z)) :=
  fun l => match chars_left l with
           | c :: rest => (Ok (Some c), set_chars rest l)
           | [] => (Ok None, l)
           end.

(** [self.chars.peek().map(|(_, character)| *character)]. *)
Definition peek_of (l : Lexer) : option Z :=
  match chars_left l with (_, c) :: _ => Some c | [] => None end.
Definition peek_char : lex (option Z) := gets peek_of.

Definition is_char (o : option Z) (c : Z) : bool :=
  match o with Some d => d =? c | None => false end.

(** [self.chars.next();] when its value is not used. *)
Definition skip_char : lex unit := modify (fun l => set_chars (tail (chars_left l)) l).

Definition skip_if (c : Z) : lex bool :=
  let! next := peek_char in
  if is_char next c then do! skip_char in ret true else ret false.

Definition bump_line : lex unit := modify (fun l => set_line (line l + 1) l).

(** [offset]. *)
Definition offset_of (l : Lexer) : Z :=
  match chars_left l with (index, _) :: _ => index | [] => len (source l) end.

(** The loops that read characters and nothing else: what they gather, and
    what they leave. *)

(** A [while] over [peek] with a test. *)
Fixpoint take_while (p : Z → bool) (cs : list (Z * Z)) : str * list (Z * Z) :=
  match cs with
  | (i, c) :: rest =>
      if p c then let '(text, after) := take_while p rest in (encode_utf8 c ++ text, after) else ([], cs)
  | [] => ([], [])
  end.

Definition read_while (p : Z → bool) : lex str :=
  fun l => let '(text, after) := take_while p (chars_left l) in (Ok text, set_chars after l).

(** Up to a closing quote: the text, the lines it spans, and what is left after
    the quote, or nothing after when there is no quote. *)
Fixpoint take_quoted (quote : Z) (cs : list (Z * Z)) : str * Z * list (Z * Z) * bool :=
  match cs with
  | (_, c) :: rest =>
      if c =? quote then ([], 0, rest, true)
      else
        let '(text, lines, after, closed) := take_quoted quote rest in
        (encode_utf8 c ++ text, (if c =? newline then 1 else 0) + lines, after, closed)
  | [] => ([], 0, [], false)
  end.

(** The rest of a double-quoted string that [read_balanced] passes over. *)
Fixpoint skip_double_quoted (escaped : bool) (cs : list (Z * Z)) : Z * list (Z * Z) :=
  match cs with
  | (_, c) :: rest =>
      let lines := if c =? newline then 1 else 0 in
      let more (escaped : bool) :=
        let '(n, after) := skip_double_quoted escaped rest in (lines + n, after) in
      if escaped then more false
      else if c =? ch "\" then more true
      else if c =? double_quote then (lines, rest)
      else more false
  | [] => (0, [])
  end.

(** ** Words *)

Definition push_token (t : Token) : lex unit := modify (fun l => set_tokens (tokens l ++ [t]) l).

(** [push]. *)
Definition push (k : TokenKind) : lex unit :=
  modify (fun l => set_tokens (tokens l ++ [mkToken k (line l) (token_offset l)]) l).

Definition begun (l : Lexer) : Lexer :=
  if word_started l then l
  else mkLexer (source l) (chars_left l) (line l) (tokens l) (word_parts l) (literal l) true
         (line l) (token_offset l) (token_offset l) (pending_here_docs l)
         (pending_here_doc_close l) (lexer_depth l).
Definition begin_word : lex unit := modify begun.

Definition push_literal (character : Z) : lex unit :=
  do! begin_word in
  modify (fun l => set_literal (literal l ++ encode_utf8 character) l).

Definition flushed (l : Lexer) : Lexer :=
  if is_nil (literal l) then l
  else set_literal [] (set_parts (word_parts l ++ [Literal (literal l)]) l).
Definition flush_literal : lex unit := modify flushed.

Definition push_part (part : WordPart) : lex unit :=
  do! begin_word in
  do! flush_literal in
  modify (fun l => set_parts (word_parts l ++ [part]) l).

(** A word that is one literal naming an attachment becomes the attachment. *)
Definition name_asset (ps : list WordPart) : list WordPart :=
  match ps with
  | [Literal text] => match asset_parse text with Some number => [Asset number] | None => ps end
  | _ => ps
  end.

Definition finished (l : Lexer) : Lexer :=
  if word_started l then
    let l := flushed l in
    let word := mkToken (TWord (mkWord (name_asset (word_parts l)))) (word_line l) (word_offset l) in
    set_tokens (tokens l ++ [word]) (set_word_started false (set_parts [] l))
  else l.
Definition finish_word : lex unit := modify finished.

Definition brace_is_reserved_word (l : Lexer) : bool :=
  if word_started l then false
  else match peek_of l with
       | None => true
       | Some c =>
           existsb (Z.eqb c) [ch " "; tab; carriage_return; newline; ch ";"; ch "&"; ch "|"; ch "(";
                              ch ")"; ch "<"; ch ">"]
       end.

Definition skip_comment : lex unit :=
  do! read_while (fun c => negb (c =? newline)) in ret tt.

Definition read_escape : lex unit :=
  let! c := next_char in
  match c with
  | Some (_, character) =>
      if character =? newline then bump_line
      else push_part (SingleQuoted (encode_utf8 character))
  | None => fun l => throw (lexical (line l) TrailingBackslash) l
  end.

Definition read_single_quoted : lex unit :=
  let! opened := gets line in
  let! (text, closed) :=
    (fun l =>
       let '(text, lines, after, closed) := take_quoted (ch "'") (chars_left l) in
       (Ok (text, closed), set_line (line l + lines) (set_chars after l))) in
  if closed then push_part (SingleQuoted text)
  else throw (lexical opened UnterminatedSingleQuoted).

(** ** Here-documents *)

(** The delimiter of a here-document, its quotes removed; whether any part of
    it was quoted. *)
Fixpoint here_doc_delimiter (fuel : nat) (line : Z) (cs : list (Z * Z)) (delimiter : str) (quoted : bool)
  : result fault (str * bool) * list (Z * Z) :=
  match cs, fuel with
  | [], _ => (Ok (delimiter, quoted), cs)
  | _, O => (Err OutOfFuel, cs)
  | (_, c) :: rest, S fuel =>
      if (c =? ch "'") || (c =? double_quote) then
        let '(text, lines, after, closed) := take_quoted c rest in
        if closed && (lines =? 0) then here_doc_delimiter fuel line after (delimiter ++ text) true
        else (Err (lexical line UnterminatedHereDelimiter), after)
      else if c =? ch "\" then
        match rest with
        | (_, escaped) :: rest =>
            if escaped =? newline then (Err (lexical line SplitHereDelimiter), rest)
            else here_doc_delimiter fuel line rest (delimiter ++ encode_utf8 escaped) true
        | [] => (Err (lexical line TrailingBackslash), rest)
        end
      else if is_ascii_alphanumeric c || (c =? ch "_") || (c =? ch ".") || (c =? ch "-") then
        here_doc_delimiter fuel line rest (delimiter ++ encode_utf8 c) quoted
      else (Ok (delimiter, quoted), cs)
  end.

Definition read_here_doc_delimiter : lex (str * bool) :=
  let! at_line := gets line in
  let! (delimiter, quoted) :=
    (fun l =>
       let '(r, after) := here_doc_delimiter (length (chars_left l)) at_line (chars_left l) [] false in
       (r, set_chars after l)) in
  if is_nil delimiter then throw (lexical at_line ExpectedHereDelimiter)
  else ret (delimiter, negb quoted).

Definition read_here_doc_header : lex unit :=
  let! next := peek_char in
  if is_char next (ch "<") then fun l => throw (lexical (line l) HereString) l
  else
    let! strip_tabs := skip_if (ch "-") in
    do! read_while (fun c => (c =? ch " ") || (c =? tab)) in
    let! (delimiter, expand) := read_here_doc_delimiter in
    modify (fun l =>
      let pending := mkPending delimiter strip_tabs expand (line l) (length (tokens l)) in
      let token := mkToken (HereDoc (mkWord [])) (line l) (token_offset l) in
      set_pending (pending_here_docs l ++ [pending]) (set_tokens (tokens l ++ [token]) l)).

(** One line of a body, and whether a newline ended it. *)
Fixpoint take_line (cs : list (Z * Z)) : str * bool * list (Z * Z) :=
  match cs with
  | (_, c) :: rest =>
      if c =? newline then ([], true, rest)
      else let '(text, terminated, after) := take_line rest in (encode_utf8 c ++ text, terminated, after)
  | [] => ([], false, [])
  end.

(** [trim_start_matches('\t')]. *)
Fixpoint trim_tabs (s : str) : str :=
  match s with c :: rest => if c =? tab then trim_tabs rest else s | [] => [] end.

Fixpoint here_doc_body (fuel : nat) (spec : PendingHereDoc) (body : str) : lex str :=
  match fuel with
  | O => throw OutOfFuel
  | S fuel =>
      let! (text, terminated) :=
        (fun l =>
           let '(text, terminated, after) := take_line (chars_left l) in
           (Ok (text, terminated),
            (if terminated : bool then set_line (line l + 1) else (fun l => l)) (set_chars after l))) in
      let content := if strip_tabs spec then trim_tabs text else text in
      if str_eqb content (delimiter spec) then ret body
      else if negb terminated then
        throw (lexical (here_line spec) (UnterminatedHereDocumentOf (delimiter spec)))
      else here_doc_body fuel spec (body ++ content ++ [newline])
  end.

Definition read_here_doc_body (spec : PendingHereDoc) : lex str :=
  fun l => here_doc_body (S (length (chars_left l))) spec [] l.

(** ** Operators *)

Definition read_duplication (source : Stream) : lex unit :=
  let! next := peek_char in
  let target :=
    if is_char next (ch "1") then Some Stdout
    else if is_char next (ch "2") then Some Stderr else None in
  match target with
  | None => fun l => throw (lexical (line l) DuplicationTarget) l
  | Some target =>
      do! skip_char in
      let! next := peek_char in
      if is_some_and next is_ascii_digit then fun l => throw (lexical (line l) UnknownDescriptor) l
      else push (Duplicate source target)
  end.

(** A word of digits just before [>] names the descriptor. *)
Definition digits_before (l : Lexer) : bool :=
  word_started l && is_nil (word_parts l) && negb (is_nil (literal l)) &&
  forallb is_ascii_digit (literal l).

Definition fail_here {A : Type} (e : LexError) : lex A :=
  fun l => throw (lexical (line l) e) l.

Definition descriptor_source (character : Z) : lex Stream :=
  let! digits := gets digits_before in
  if (character =? ch ">") && digits then
    let! text := gets literal in
    let named :=
      if str_eqb text (lit "1") then Some Stdout
      else if str_eqb text (lit "2") then Some Stderr else None in
    match named with
    | None => fail_here UnknownDescriptor
    | Some source =>
        do! modify (fun l => set_word_started false (set_literal [] l)) in
        ret source
    end
  else if (character =? ch "<") && digits then fail_here InputDuplication
  else ret Stdout.

Definition read_operator (character : Z) : lex unit :=
  let! source := descriptor_source character in
  do! finish_word in
  let! next := peek_char in
  let eqc c := character =? ch c in
  let next_is c := is_char next (ch c) in
  if eqc "<"%char && next_is "&"%char then fail_here InputDuplication
  else if eqc ">"%char && next_is "&"%char then
    do! skip_char in read_duplication source
  else if eqc "|"%char then
    if next_is "|"%char then do! skip_char in push OrOr else push Pipe
  else if eqc "&"%char then
    if next_is "&"%char then do! skip_char in push AndAnd
    else if next_is ">"%char then
      do! skip_char in
      let! second := peek_char in
      if is_char second (ch "&") then fail_here BothDuplication
      else
        let! append := skip_if (ch ">") in
        push (TRedirect Both append)
    else push Ampersand
  else if eqc ";"%char then
    if next_is ";"%char then
      do! skip_char in
      let! second := peek_char in
      if is_char second (ch "&") then fail_here CaseFallthrough else push DoubleSemicolon
    else if next_is "&"%char then fail_here CaseFallthrough
    else push Semicolon
  else if eqc ">"%char then
    if next_is ">"%char then do! skip_char in push (TRedirect source true)
    else push (TRedirect source false)
  else if eqc "<"%char then
    if next_is "<"%char then do! skip_char in read_here_doc_header
    else if next_is "("%char then do! skip_char in push LessParen
    else push TLess
  else if eqc "("%char then push LeftParen
  else
    do! modify (fun l =>
      if negb (is_nil (pending_here_docs l)) && negb (bool_decide (is_Some (pending_here_doc_close l)))
      then set_close (Some (token_offset l)) l else l) in
    push RightParen.

(** ** Text with expansions *)

Section WithDollar.

(** [read_dollar_part], for the lexer at hand. *)
Context (dollar : Z → Enclosure → lex (option WordPart)).

Definition escapable (terminator : option Z) (c : Z) : bool :=
  ((c =? double_quote) && is_char terminator double_quote) ||
  (c =? ch "\") || (c =? ch "$") || (c =? ch "`").

Definition add_literal (text : str) (ps : list WordPart) : list WordPart :=
  if is_nil text then ps else ps ++ [Literal text].

Fixpoint interpolated_loop (fuel : nat) (terminator : option Z) (unterminated : LexError) (opened : Z)
    (ps : list WordPart) (text : str) : lex (list WordPart) :=
  match fuel with
  | O => throw OutOfFuel
  | S fuel =>
      let again := interpolated_loop fuel terminator unterminated opened in
      let ended :=
        match terminator with
        | None => fun text => ret (add_literal text ps)
        | Some _ => fun _ => throw (lexical opened unterminated)
        end in
      let! c := next_char in
      match c with
      | None => ended text
      | Some (index, character) =>
          if is_char terminator character then ret (add_literal text ps)
          else if character =? ch "\" then
            let! escaped := next_char in
            match escaped with
            | Some (_, e) =>
                if escapable terminator e then again ps (text ++ encode_utf8 e)
                else if e =? newline then do! bump_line in again ps text
                else again ps (text ++ ch "\" :: encode_utf8 e)
            | None => ended (text ++ [ch "\"])
            end
          else if character =? ch "$" then
            let! part := dollar index InDoubleQuotes in
            match part with
            | Some part => again (add_literal text ps ++ [part]) []
            | None => again ps (text ++ [ch "$"])
            end
          else if character =? ch "`" then fail_here Backtick
          else
            do! (if character =? newline then bump_line else ret tt) in
            again ps (text ++ encode_utf8 character)
      end
  end.

Definition read_interpolated (terminator : option Z) (unterminated : LexError) : lex (list WordPart) :=
  fun l => interpolated_loop (S (length (chars_left l))) terminator unterminated (line l) [] [] l.

Definition read_double_quoted : lex unit :=
  let! ps := read_interpolated (Some double_quote) UnterminatedDoubleQuoted in
  push_part (DoubleQuoted ps).

Definition interpolate_here_doc_body (body : str) (line : Z) (depth : Depth)
  : result fault (list WordPart) :=
  eval (read_interpolated None UnterminatedHereBody) (new_lexer body depth line).

(** [body.pop()]: a body ends in a newline when it is not empty. *)
Definition here_doc_parts (spec : PendingHereDoc) (body : str) (body_line : Z) : lex (list WordPart) :=
  let body := removelast body in
  if expand spec then
    fun l => (interpolate_here_doc_body body body_line (lexer_depth l), l)
  else ret (if is_nil body then [] else [Literal body]).

Definition set_here_doc (spec : PendingHereDoc) (ps : list WordPart) : lex unit :=
  modify (fun l =>
    set_tokens
      (alter (fun t => mkToken (HereDoc (mkWord ps)) (token_line t) (offset t))
         (here_token spec) (tokens l)) l).

Fixpoint read_here_docs (pending : list PendingHereDoc) : lex unit :=
  match pending with
  | [] => ret tt
  | spec :: pending =>
      let! body_line := gets line in
      let! body := read_here_doc_body spec in
      let! ps := here_doc_parts spec body body_line in
      do! set_here_doc spec ps in
      read_here_docs pending
  end.

Definition read_pending_here_doc_bodies : lex unit :=
  let! pending := gets pending_here_docs in
  do! modify (fun l => set_close None (set_pending [] l)) in
  read_here_docs pending.

Definition read_dollar (index : Z) (enclosure : Enclosure) : lex unit :=
  let! part := dollar index enclosure in
  match part with
  | Some part => push_part part
  | None => push_literal (ch "$")
  end.

(** ** Tokens *)

Definition is_operator (c : Z) : bool :=
  existsb (Z.eqb c) [ch "|"; ch "&"; ch ";"; ch "<"; ch ">"; ch "("; ch ")"].

(** The body of the [while] of [next_token]. *)
Definition lex_character (index character : Z) : lex unit :=
  let! started := gets word_started in
  let! reserved := gets brace_is_reserved_word in
  if character =? newline then
    do! finish_word in
    do! push Newline in
    do! bump_line in
    read_pending_here_doc_bodies
  else if (character =? ch " ") || (character =? tab) || (character =? carriage_return) then finish_word
  else if (character =? ch "#") && negb started then skip_comment
  else if character =? ch "\" then read_escape
  else if character =? ch "'" then read_single_quoted
  else if character =? double_quote then read_double_quoted
  else if character =? ch "$" then read_dollar index Bare
  else if character =? ch "`" then fail_here Backtick
  else if is_operator character then read_operator character
  else if ((character =? ch "{") || (character =? ch "}")) && reserved then
    do! finish_word in
    push (if character =? ch "{" then LeftBrace else RightBrace)
  else push_literal character.

(** [!self.tokens.is_empty() && self.pending_here_docs.is_empty()]. *)
Definition token_ready (l : Lexer) : bool := negb (is_nil (tokens l)) && is_nil (pending_here_docs l).

Definition pop_front : lex (option Token) :=
  fun l => match tokens l with
           | t :: rest => (Ok (Some t), set_tokens rest l)
           | [] => (Ok None, l)
           end.

Fixpoint next_token_loop (fuel : nat) : lex (option Token) :=
  match fuel with
  | O => throw OutOfFuel
  | S fuel =>
      let! c := next_char in
      match c with
      | None =>
          do! finish_word in
          let! pending := gets pending_here_docs in
          match pending with
          | p :: _ => throw (lexical (here_line p) (UnterminatedHereDocumentOf (delimiter p)))
          | [] => pop_front
          end
      | Some (index, character) =>
          do! modify (set_token_offset index) in
          do! lex_character index character in
          let! ready := gets token_ready in
          if ready then pop_front else next_token_loop fuel
      end
  end.

Definition next_token : lex (option Token) :=
  fun l => if token_ready l then pop_front l else next_token_loop (S (length (chars_left l))) l.

(** [run]: every token, until the source ends. *)
Fixpoint run_loop (fuel : nat) (acc : list Token) : lex (list Token) :=
  match fuel with
  | O => throw OutOfFuel
  | S fuel =>
      let! t := next_token in
      match t with
      | Some t => run_loop fuel (acc ++ [t])
      | None => ret acc
      end
  end.

(** A character that gives two tokens ends a word that an earlier one began. *)
Definition run (l : Lexer) : result fault (list Token) :=
  eval (run_loop (S (S (length (chars_left l) + length (tokens l)))) []) l.

(** ** Words of parameters *)

Definition read_double_quoted_parameter_escape : lex unit :=
  let! c := next_char in
  match c with
  | Some (_, character) =>
      if character =? newline then bump_line
      else if existsb (Z.eqb character) [double_quote; ch "\"; ch "$"; ch "`"; ch "}"] then
        push_literal character
      else do! push_literal (ch "\") in push_literal character
  | None => fail_here TrailingBackslash
  end.

Fixpoint parameter_quote_loop (fuel : nat) (opened : Z) : lex unit :=
  match fuel with
  | O => throw OutOfFuel
  | S fuel =>
      let! c := next_char in
      match c with
      | None => throw (lexical opened UnterminatedSingleQuoted)
      | Some (index, character) =>
          let! next := peek_char in
          if character =? ch "'" then push_literal (ch "'")
          else
            do! (if character =? ch "\" then
                   if is_char next (ch "'") then push_literal (ch "\")
                   else read_double_quoted_parameter_escape
                 else if character =? double_quote then read_double_quoted
                 else if character =? ch "$" then read_dollar index InDoubleQuotes
                 else if character =? ch "`" then fail_here Backtick
                 else
                   do! (if character =? newline then bump_line else ret tt) in
                   push_literal character) in
            parameter_quote_loop fuel opened
      end
  end.

Definition read_double_quoted_parameter_quote : lex unit :=
  let! opened := gets line in
  do! push_literal (ch "'") in
  fun l => parameter_quote_loop (S (length (chars_left l))) opened l.

Definition last_kind (l : Lexer) : option TokenKind := kind <$> list.last (tokens l).

Fixpoint parameter_word_loop (fuel : nat) (at_line : Z) (terminators : list Z) (enclosure : Enclosure)
    (braces : Z) : lex (Word * Z) :=
  match fuel with
  | O => throw OutOfFuel
  | S fuel =>
      let! c := next_char in
      match c with
      | None => throw (lexical at_line UnterminatedParameter)
      | Some (index, character) =>
          let again := parameter_word_loop fuel at_line terminators enclosure in
          if (braces =? 0) && existsb (Z.eqb character) terminators then
            do! flush_literal in
            let! ps := gets word_parts in
            do! modify (set_parts []) in
            ret (mkWord ps, character)
          else if character =? ch "'" then
            do! (match enclosure with
                 | Bare => read_single_quoted
                 | InDoubleQuotes => read_double_quoted_parameter_quote
                 end) in
            again braces
          else if character =? double_quote then do! read_double_quoted in again braces
          else if character =? ch "\" then
            do! (match enclosure with
                 | Bare => read_escape
                 | InDoubleQuotes => read_double_quoted_parameter_escape
                 end) in
            again braces
          else if character =? ch "$" then do! read_dollar index enclosure in again braces
          else if character =? ch "`" then fail_here Backtick
          else if is_operator character then
            do! read_operator character in
            let! operator := gets last_kind in
            throw (lexical at_line (OperatorInParameter operator character))
          else
            do! (if character =? newline then bump_line else ret tt) in
            do! push_literal character in
            again (if character =? ch "{" then braces + 1
                   else if character =? ch "}" then Z.max 0 (braces - 1) else braces)
      end
  end.

Definition read_parameter_word (at_line : Z) (terminators : list Z) (enclosure : Enclosure)
  : lex (Word * Z) :=
  fun l => parameter_word_loop (S (length (chars_left l))) at_line terminators enclosure 0 l.

End WithDollar.

(** ** Expansions *)

Section Dollar.

(** [read_dollar_part] for the lexers inside this one, and
    [parser::parse_substitution]. *)
Context (dollar : Z → Enclosure → lex (option WordPart)).
Context (parse_substitution : str → Depth → Z → result fault (Program * Z)).

(** [self.parameter_lexer(source, line)]. *)
Definition parameter_lexer (source : str) (at_line : Z) : lex Lexer :=
  fun l => (let? d := lift (depth_parameter (lexer_depth l) at_line) in
            Ok (new_lexer source d (line l)), l).

Definition expect_brace_close (at_line : Z) : lex unit :=
  let! c := next_char in
  match c with
  | Some (_, c) => if c =? ch "}" then ret tt else throw (lexical at_line UnterminatedParameter)
  | None => throw (lexical at_line UnterminatedParameter)
  end.

(** The text of an index, up to the bracket that closes it. *)
Fixpoint index_text (depth : Z) (cs : list (Z * Z)) : option str * list (Z * Z) :=
  match cs with
  | (_, c) :: rest =>
      if (c =? ch "]") && (depth =? 0) then (Some [], rest)
      else if c =? newline then (None, rest)
      else
        let depth :=
          if c =? ch "[" then depth + 1
          else if c =? ch "]" then Z.max 0 (depth - 1) else depth in
        let '(text, after) := index_text depth rest in
        (match text with Some text => Some (encode_utf8 c ++ text) | None => None end, after)
  | [] => (None, [])
  end.

Definition words_of (ts : list Token) : list Word :=
  omap (fun t => match kind t with TWord w => Some w | _ => None end) ts.

Definition read_index (at_line : Z) : lex Index :=
  let! text := (fun l => let '(text, after) := index_text 0 (chars_left l) in
                         (ok_or text (lexical at_line UnterminatedIndex), set_chars after l)) in
  if str_eqb text (lit "@") then ret All
  else if str_eqb text (lit "*") then ret AllJoined
  else
    let! lexer := parameter_lexer text at_line in
    let! ts := of_result (run dollar lexer) in
    match words_of ts with
    | [] => throw (lexical at_line EmptyIndex)
    | [word] => ret (At word)
    | _ => throw (lexical at_line MultipleIndexExpressions)
    end.

(** The lexer of a word inside [${ ... }], on the characters of this one. *)
Definition read_nested_word (at_line : Z) (terminators : list Z) (enclosure : Enclosure)
  : lex (Word * Z) :=
  let! src := gets source in
  let! lexer := parameter_lexer src at_line in
  fun l =>
    let '(result, lexer) :=
      read_parameter_word dollar at_line terminators enclosure
        (set_line (line l) (set_chars (chars_left l) lexer)) in
    (result, set_line (line lexer) (set_chars (chars_left lexer) l)).

Definition read_modifier_word (at_line : Z) (terminators : list Z) (enclosure : Enclosure)
  : lex (Word * Z) :=
  let! next := peek_char in
  match next with
  | Some character =>
      if existsb (Z.eqb character) terminators then do! skip_char in ret (mkWord [], character)
      else read_nested_word at_line terminators enclosure
  | None => read_nested_word at_line terminators enclosure
  end.

(** [word_is_constant]: whether a word has no expansion. *)
Fixpoint part_is_constant (part : WordPart) : bool :=
  match part with
  | Asset _ | Literal _ | SingleQuoted _ => true
  | DoubleQuoted inner => forallb part_is_constant inner
  | Parameter_ _ | CommandSubstitution _ | Arithmetic _ => false
  end.
Definition word_is_constant (w : Word) : bool := forallb part_is_constant (parts w).

Definition CASE_METACHARACTERS : list Z := [ch "*"; ch "?"; ch "["].

Definition pattern_metacharacter (text : str) : option Z :=
  List.find (fun c => existsb (Z.eqb c) CASE_METACHARACTERS) (chars text).

(** The first metacharacter of the bare text of a word. *)
Fixpoint literal_pattern_metacharacter (ps : list WordPart) : option Z :=
  match ps with
  | [] => None
  | Literal text :: ps =>
      match pattern_metacharacter text with
      | Some c => Some c
      | None => literal_pattern_metacharacter ps
      end
  | _ :: ps => literal_pattern_metacharacter ps
  end.

Definition parameter_pattern (word : Word) (at_line : Z) : result fault Pattern :=
  if word_is_constant word then
    match literal_pattern_metacharacter (parts word) with
    | Some character => Err (refused at_line (ParameterPattern character))
    | None => Ok (LiteralPattern word)
    end
  else Ok (Expanded word).

(** The operator of a modifier has been read, and whether a colon came first. *)
Definition read_modifier_operator (at_line : Z) (name : str) (enclosure : Enclosure) (colon : bool)
    (operator : Z) : lex Modifier :=
  let eqc c := operator =? ch c in
  if eqc "-"%char then
    let! (word, _) := read_modifier_word at_line [ch "}"] enclosure in
    ret (Default colon word)
  else if eqc "="%char then
    let! (word, _) := read_modifier_word at_line [ch "}"] enclosure in
    ret (Assign colon word)
  else if eqc "?"%char then
    let! (word, _) := read_modifier_word at_line [ch "}"] Bare in
    ret (Require_ colon (if is_nil (parts word) then None else Some word))
  else if eqc "+"%char then
    let! (word, _) := read_modifier_word at_line [ch "}"] enclosure in
    ret (Alternate colon word)
  else if (eqc "#"%char || eqc "%"%char || eqc "/"%char) && colon then
    throw (lexical at_line (ColonInPattern name operator))
  else if eqc "#"%char || eqc "%"%char then
    do! skip_if operator in
    let! (word, _) := read_modifier_word at_line [ch "}"] Bare in
    let! pattern := of_result (parameter_pattern word at_line) in
    ret (if eqc "#"%char then StripPrefix pattern else StripSuffix pattern)
  else if eqc "/"%char then
    let! all := skip_if (ch "/") in
    let! (word, terminator) := read_modifier_word at_line [ch "/"; ch "}"] Bare in
    let! (replacement, _) :=
      (if terminator =? ch "/" then read_modifier_word at_line [ch "}"] Bare
       else ret (mkWord [], terminator)) in
    let! pattern := of_result (parameter_pattern word at_line) in
    ret (Replace all pattern replacement)
  else throw (lexical at_line (UnsupportedParameter name colon operator)).

Definition read_modifier (at_line : Z) (name : str) (length : bool) (enclosure : Enclosure)
  : lex Modifier :=
  let! c := next_char in
  match c with
  | None => throw (lexical at_line UnterminatedParameter)
  | Some (_, first) =>
      if first =? ch "}" then ret NoModifier
      else if length then throw (lexical at_line (LengthWithTransformation name first))
      else if first =? ch ":" then
        let! c := next_char in
        match c with
        | Some (_, operator) => read_modifier_operator at_line name enclosure true operator
        | None => throw (lexical at_line UnterminatedParameter)
        end
      else read_modifier_operator at_line name enclosure false first
  end.

(** [read_name]. *)
Definition read_name : lex str := read_while is_name_byte.

Definition selects_all (i : Index) : bool := match i with All | AllJoined => true | At _ => false end.

Fixpoint read_indices (fuel : nat) (at_line : Z) (name : str) (indices : list Index)
  : lex (list Index) :=
  match fuel with
  | O => throw OutOfFuel
  | S fuel =>
      let! next := peek_char in
      if is_char next (ch "[") then
        if is_some_and (list.last indices) selects_all then throw (lexical at_line (IndexAfterAll name))
        else
          do! skip_char in
          let! index := read_index at_line in
          read_indices fuel at_line name (indices ++ [index])
      else ret indices
  end.

Definition read_named_parameter (at_line : Z) (length : bool) (enclosure : Enclosure) : lex WordPart :=
  let! name := read_name in
  if is_nil name then throw (lexical at_line EmptyParameter)
  else
    let! indices := (fun l => read_indices (S (List.length (chars_left l))) at_line name [] l) in
    let! modifier := read_modifier at_line name length enclosure in
    ret (Parameter_ (Named name indices modifier length)).

Definition read_braced_parameter (enclosure : Enclosure) : lex WordPart :=
  let! at_line := gets line in
  let! next := peek_char in
  let braced p := do! skip_char in do! expect_brace_close at_line in ret (Parameter_ p) in
  if is_char next (ch "?") then braced LastStatus
  else if is_char next (ch "@") then braced AllPositional
  else if is_char next (ch "*") then braced AllPositionalJoined
  else if is_char next (ch "#") then
    do! skip_char in
    let! closed := skip_if (ch "}") in
    if closed then ret (Parameter_ PositionalCount)
    else read_named_parameter at_line true enclosure
  else if is_some_and next is_ascii_digit then
    let! digits := read_while is_ascii_digit in
    do! expect_brace_close at_line in
    let! position :=
      of_result (ok_or (parse_u64 digits) (lexical at_line (PositionalOutOfRange digits))) in
    ret (Parameter_ (Positional position))
  else read_named_parameter at_line false enclosure.

(** The body of [$((], up to the parentheses that close it: the byte at which
    it ends. [depth] starts at [initial], and [body_end] is set when it first
    falls below. *)
Fixpoint balanced_loop (fuel : nat) (opened : Z) (initial depth : Z) (body_end : option Z) : lex Z :=
  match fuel with
  | O => throw OutOfFuel
  | S fuel =>
      let! c := next_char in
      match c with
      | None => throw (lexical opened UnterminatedArithmetic)
      | Some (index, c) =>
          let again := balanced_loop fuel opened initial in
          if c =? newline then do! bump_line in again depth body_end
          else if c =? ch "\" then
            let! next := next_char in
            do! (match next with
                 | Some (_, c) => if c =? newline then bump_line else ret tt
                 | None => ret tt
                 end) in
            again depth body_end
          else if c =? ch "'" then
            do! modify (fun l =>
              let '(_, lines, after, _) := take_quoted (ch "'") (chars_left l) in
              set_line (line l + lines) (set_chars after l)) in
            again depth body_end
          else if c =? double_quote then
            do! modify (fun l =>
              let '(lines, after) := skip_double_quoted false (chars_left l) in
              set_line (line l + lines) (set_chars after l)) in
            again depth body_end
          else if c =? ch "(" then again (depth + 1) body_end
          else if c =? ch ")" then
            let depth := depth - 1 in
            let body_end :=
              match body_end with
              | Some e => Some e
              | None => if depth + 1 =? initial then Some index else None
              end in
            if depth =? 0 then
              let end_ := unwrap_or body_end index in
              if index =? end_ + 1 then ret end_
              else throw (lexical opened ArithmeticClosingText)
            else again depth body_end
          else again depth body_end
      end
  end.

(** [read_balanced(dollar_index, '(', ')', 2)]. *)
Definition read_balanced (dollar_index : Z) : lex str :=
  fun l =>
    let start := dollar_index + 3 in
    (let! end_ := balanced_loop (S (length (chars_left l))) (line l) 2 2 None in
     gets (fun l => take (Z.to_nat (end_ - start)) (drop (Z.to_nat start) (source l)))) l.

(** The characters before [end_], already read by the parser of the
    substitution. *)
Fixpoint skip_to (end_ : Z) (cs : list (Z * Z)) : Z * list (Z * Z) :=
  match cs with
  | (index, c) :: rest =>
      if index <? end_ then
        let '(lines, after) := skip_to end_ rest in
        ((if c =? newline then 1 else 0) + lines, after)
      else (0, cs)
  | [] => (0, [])
  end.

(** [parse_arithmetic] or [parse_substitution], after [$(]. *)
Definition read_parenthesis (dollar_index : Z) : lex WordPart :=
  let! arithmetic := skip_if (ch "(") in
  if arithmetic then
    let! at_line := gets line in
    let! body := read_balanced dollar_index in
    let! e := (fun l => (parse_arithmetic body at_line (lexer_depth l), l)) in
    ret (Arithmetic e)
  else
    let! start := gets offset_of in
    let! (program, consumed) :=
      (fun l => (parse_substitution (drop (Z.to_nat start) (source l)) (lexer_depth l) (line l), l)) in
    do! modify (fun l =>
      let '(lines, after) := skip_to (start + consumed) (chars_left l) in
      set_line (line l + lines) (set_chars after l)) in
    ret (CommandSubstitution program).

Definition read_dollar_part (dollar_index : Z) (enclosure : Enclosure) : lex (option WordPart) :=
  let! next := peek_char in
  match next with
  | None => ret None
  | Some next =>
      let eqc c := next =? ch c in
      let simple p := do! skip_char in ret (Some (Parameter_ p)) in
      if eqc "("%char then
        do! skip_char in
        let! part := read_parenthesis dollar_index in ret (Some part)
      else if eqc "{"%char then
        do! skip_char in
        let! part := read_braced_parameter enclosure in ret (Some part)
      else if eqc "?"%char then simple LastStatus
      else if eqc "!"%char then simple LastJob
      else if eqc "@"%char then simple AllPositional
      else if eqc "*"%char then simple AllPositionalJoined
      else if eqc "#"%char then simple PositionalCount
      else if is_ascii_digit next then simple (Positional (next - 48))
      else if is_ascii_alphabetic next || (next =? ch "_") then
        let! name := read_name in
        ret (Some (Parameter_ (Named name [] NoModifier false)))
      else ret None
  end.

End Dollar.
