(* ===== verification/ShellParser.v ===== *)
(** * Parser of scripts

    [dekopon-shell/src/parser.rs], [parser/nested.rs] and [parser/depth.rs]:
    recursive descent over the tokens of a [Lexer] that is asked for one more
    only when the parser looks at it. The depth of the construct being parsed
    goes to the lexer before each token, so that a substitution inside a word
    is refused when the two together nest too deep. An error of the lexer is
    kept beside the parser, ends the tokens, and wins over the parser's own.

    The functions of the grammar call themselves inside a construct only, after
    [nest]: the model gives the calls of one level to the next as parameters,
    [NESTING] levels deep, and the expansions inside expansions are [LEVELS]
    deep, whatever the source. The loops that walk tokens have fuel for every
    token the source can still give. *)

From Stdlib Require Import ZArith Lia Ascii String.
From stdpp Require Import base strings list numbers.
From S2P Require Import Prelude RustStr ShellAst ShellArith ShellState ShellLexer.

Definition RESERVED_WORDS : list str :=
  lit <$> ["if"; "then"; "elif"; "else"; "fi"; "for"; "in"; "do"; "done"; "while"; "case"; "esac";
           "until"; "select"; "function"; "[["; "]]"]%string.

Record Parser : Type := mkParser {
  parser_source : str;
  start_line : Z;
  seen : list Token;
  position : nat;
  depth : Depth;
  lexer : Lexer;
  lex_error : option ParseError;
  substitution : bool;
}.

Abbreviation parse_m := (M Parser).

Definition new_parser (source : str) (d : Depth) (start_line : Z) (substitution : bool) : Parser :=
  mkParser source start_line [] 0 d (new_lexer source d start_line) None substitution.

Definition set_position (v : nat) (s : Parser) : Parser :=
  mkParser (parser_source s) (start_line s) (seen s) v (depth s) (lexer s) (lex_error s) (substitution s).
Definition set_depth (v : Depth) (s : Parser) : Parser :=
  mkParser (parser_source s) (start_line s) (seen s) (position s) v (lexer s) (lex_error s)
    (substitution s).
Definition set_lexer (v : Lexer) (s : Parser) : Parser :=
  mkParser (parser_source s) (start_line s) (seen s) (position s) (depth s) v (lex_error s)
    (substitution s).
Definition set_seen (v : list Token) (s : Parser) : Parser :=
  mkParser (parser_source s) (start_line s) v (position s) (depth s) (lexer s) (lex_error s)
    (substitution s).
Definition set_lex_error (v : option ParseError) (s : Parser) : Parser :=
  mkParser (parser_source s) (start_line s) (seen s) (position s) (depth s) (lexer s) v
    (substitution s).

(** The tokens ahead, and those the lexer can still give: one more than the
    characters and the tokens it holds. *)
Definition tokens_left (s : Parser) : nat :=
  length (seen s) - position s + length (chars_left (lexer s)) + length (tokens (lexer s)) + 1.

(** A loop that walks tokens. *)
Definition walking {A : Type} (loop : nat → parse_m A) : parse_m A :=
  fun s => loop (S (tokens_left s)) s.

(** ** Words and redirections *)

Definition is_valid_name (name : str) : bool :=
  match name with
  | first :: rest => (is_ascii_alphabetic first || (first =? ch "_")) && forallb is_name_byte rest
  | [] => false
  end.

(** [first.find('=')], and the text on both sides. *)
Definition split_assignment (w : Word) : option (str * Word) :=
  match parts w with
  | Literal first :: rest =>
      match split_once (ch "=") first with
      | Some (name, remainder) =>
          if is_valid_name name then
            Some (name, mkWord ((if is_nil remainder then [] else [Literal remainder]) ++ rest))
          else None
      | None => None
      end
  | _ => None
  end.

Definition is_buffer (t : RedirectTarget) : bool := match t with Buffer _ _ => true | ToStream _ => false end.

Fixpoint check_duplication_order (redirects : list Redirect) (at_line : Z) : result fault unit :=
  match redirects with
  | [] => Ok tt
  | (src, target) :: later =>
      match target with
      | ToStream copied =>
          if existsb (fun r => is_buffer r.2 && (bool_decide (r.1 = copied) || bool_decide (r.1 = Both)))
               later
          then Err (refused at_line (DuplicationOrder src copied))
          else check_duplication_order later at_line
      | Buffer _ _ => check_duplication_order later at_line
      end
  end.

(** [str::get(start..end)]. *)
Definition is_char_boundary (s : str) (i : Z) : bool :=
  (i =? len s) || match s !! Z.to_nat i with Some b => negb (is_continuation b) | None => false end.
Definition str_get (s : str) (start end_ : Z) : option str :=
  if (0 <=? start) && (start <=? end_) && is_char_boundary s start && is_char_boundary s end_ then
    Some (take (Z.to_nat (end_ - start)) (drop (Z.to_nat start) s))
  else None.

Section WithDollar.

(** [read_dollar_part] for the lexer of this parser. *)
Context (dollar : Z → Enclosure → lex (option WordPart)).

(** ** Looking at tokens *)

Fixpoint fill (fuel : nat) (p : nat) : parse_m unit :=
  fun s =>
    if (length (seen s) <=? p)%nat && negb (bool_decide (is_Some (lex_error s))) then
      match fuel with
      | O => (Err OutOfFuel, s)
      | S fuel =>
          match next_token dollar (set_parser_depth (depth s) (lexer s)) with
          | (Ok (Some token), l) => fill fuel p (set_seen (seen s ++ [token]) (set_lexer l s))
          | (Ok None, l) => (Ok tt, set_lexer l s)
          | (Err (Error e), l) => fill fuel p (set_lex_error (Some e) (set_lexer l s))
          | (Err OutOfFuel, l) => (Err OutOfFuel, set_lexer l s)
          end
      end
    else (Ok tt, s).

Definition token_at (p : nat) : parse_m (option Token) :=
  do! fill (S (S p)) p in
  gets (fun s => seen s !! p).

Definition peek : parse_m (option Token) := fun s => token_at (position s) s.
Definition peek_kind : parse_m (option TokenKind) :=
  let! t := peek in ret (kind <$> t).

(** The kind of the token [n] places ahead. *)
Definition kind_ahead (n : nat) : parse_m (option TokenKind) :=
  fun s => (let! t := token_at (position s + n) in ret (kind <$> t)) s.

Definition current_line : parse_m Z :=
  let! t := peek in
  match t with
  | Some t => ret (token_line t)
  | None => gets (fun s => match list.last (seen s) with Some t => token_line t | None => start_line s end)
  end.

(** [self.position += n]. *)
Definition advance_by (n : nat) : parse_m unit := modify (fun s => set_position (position s + n) s).

Definition refuse {A : Type} (at_line : Z) (r : Refusal) : parse_m A := throw (refused at_line r).
Definition refuse_here {A : Type} (r : Refusal) : parse_m A :=
  let! at_line := current_line in refuse at_line r.
(** [Err(ParseError::refused(line, refusal(Found(self.peek_kind()))))]. *)
Definition refuse_found {A : Type} (at_line : Z) (r : option TokenKind → Refusal) : parse_m A :=
  let! found := peek_kind in refuse at_line (r found).

Fixpoint skip_loop (p : TokenKind → bool) (fuel : nat) : parse_m unit :=
  match fuel with
  | O => throw OutOfFuel
  | S fuel =>
      let! k := peek_kind in
      if is_some_and k p then do! advance_by 1 in skip_loop p fuel else ret tt
  end.
Definition skip_newlines : parse_m unit :=
  walking (skip_loop (fun k => match k with Newline => true | _ => false end)).
Definition skip_separators : parse_m unit :=
  walking (skip_loop (fun k => match k with Newline | Semicolon => true | _ => false end)).

Definition reserved_of (k : TokenKind) : option str :=
  match k with
  | TWord w =>
      match as_literal w with
      | Some text => List.find (fun r => str_eqb r text) RESERVED_WORDS
      | None => None
      end
  | _ => None
  end.

Definition peek_reserved : parse_m (option str) :=
  let! k := peek_kind in
  ret (match k with Some k => reserved_of k | None => None end).

Definition is_word (o : option str) (w : string) : bool :=
  match o with Some r => str_eqb r (lit w) | None => false end.
Arguments is_word o w%_string_scope.

Definition eat_reserved (expected : string) : parse_m bool :=
  let! r := peek_reserved in
  if is_word r expected then do! advance_by 1 in ret true else ret false.

Definition expect_reserved (expected : string) (context : Construct) : parse_m unit :=
  let! eaten := eat_reserved expected in
  if eaten then ret tt else refuse_here (ExpectedReserved (lit expected) context).
Arguments expect_reserved expected%_string_scope context.

Definition is_literal_word (k : option TokenKind) (expected : string) : bool :=
  match k with
  | Some (TWord w) => match as_literal w with Some text => str_eqb text (lit expected) | None => false end
  | _ => false
  end.
Arguments is_literal_word k expected%_string_scope.
Definition peek_literal_word (expected : string) : parse_m bool :=
  let! k := peek_kind in ret (is_literal_word k expected).
Arguments peek_literal_word expected%_string_scope.

(** [nest]: the depth of the construct, given back when the guard is dropped,
    after an error too. *)
Definition nested {A : Type} (c : Construct) (m : parse_m A) : parse_m A :=
  let! saved := gets depth in
  let! at_line := current_line in
  let! d := of_result (lift (depth_nest saved (units c) at_line c)) in
  do! modify (set_depth d) in
  fun s => let '(r, s) := m s in (r, set_depth saved s).

(** ** Simple commands *)

Fixpoint redirects_loop (redirects : list Redirect) (fuel : nat) : parse_m (list Redirect) :=
  match fuel with
  | O => throw OutOfFuel
  | S fuel =>
      let! k := peek_kind in
      match k with
      | Some (TRedirect src append) =>
          let! at_line := current_line in
          do! advance_by 1 in
          let! k := peek_kind in
          match k with
          | Some (TWord word) =>
              do! advance_by 1 in
              redirects_loop (redirects ++ [(src, Buffer append word)]) fuel
          | _ => refuse at_line ExpectedRedirectBuffer
          end
      | Some (Duplicate src target) =>
          let! at_line := current_line in
          do! advance_by 1 in
          if bool_decide (src = target) then refuse at_line (SelfDuplication src target)
          else redirects_loop (redirects ++ [(src, ToStream target)]) fuel
      | _ => ret redirects
      end
  end.
Definition parse_redirects : parse_m (list Redirect) := walking (redirects_loop []).

(** The variables of [parse_simple_command]. *)
Record simple : Type := mkSimple {
  s_assignments : list (str * Word);
  s_words : list Word;
  s_redirects : list Redirect;
  s_here_doc : option Word;
  s_after_empty : bool;
}.

Fixpoint simple_loop (v : simple) (fuel : nat) : parse_m simple :=
  match fuel with
  | O => throw OutOfFuel
  | S fuel =>
      let! k := peek_kind in
      match k with
      | Some (TWord word) =>
          let! reserved := peek_reserved in
          if is_nil (s_words v) && bool_decide (is_Some reserved) then ret v
          else
            do! advance_by 1 in
            match (if is_nil (s_words v) then split_assignment word else None) with
            | Some (name, value) =>
                simple_loop (mkSimple (s_assignments v ++ [(name, value)]) (s_words v) (s_redirects v)
                               (s_here_doc v) (is_nil (parts value))) fuel
            | None =>
                simple_loop (mkSimple (s_assignments v) (s_words v ++ [word]) (s_redirects v)
                               (s_here_doc v) false) fuel
            end
      | Some (TRedirect _ _) | Some (Duplicate _ _) =>
          let! redirects := parse_redirects in
          simple_loop (mkSimple (s_assignments v) (s_words v) (s_redirects v ++ redirects)
                         (s_here_doc v) false) fuel
      | Some LeftParen =>
          let! at_line := current_line in
          if s_after_empty v then refuse at_line ArrayLiteral
          else
            let! k := kind_ahead 1 in
            match k with
            | Some LeftParen => refuse at_line ArithmeticCommand
            | _ => refuse at_line Subshell
            end
      | Some RightParen =>
          let! inside := gets substitution in
          if inside then ret v else refuse_here UnexpectedRightParen
      | Some (HereDoc word) =>
          let! at_line := current_line in
          do! advance_by 1 in
          match s_here_doc v with
          | Some _ => refuse at_line MultipleHereDocuments
          | None =>
              simple_loop (mkSimple (s_assignments v) (s_words v) (s_redirects v) (Some word) false) fuel
          end
      | Some LessParen => refuse_here ProcessSubstitution
      | Some TLess => refuse_here InputRedirect
      | _ => ret v
      end
  end.

Definition parse_simple_command : parse_m Command :=
  let! v := walking (simple_loop (mkSimple [] [] [] None false)) in
  if is_nil (s_words v) && is_nil (s_assignments v) then
    let! at_line := current_line in refuse_found at_line ExpectedCommand
  else
    let! at_line := current_line in
    do! of_result (check_duplication_order (s_redirects v) at_line) in
    ret (Simple (s_assignments v) (s_words v) (s_redirects v) (s_here_doc v)).

(** ** Conditionals *)

(** The operands of a test. *)
Fixpoint operands_loop (words : list Word) (fuel : nat) : parse_m (list Word) :=
  match fuel with
  | O => throw OutOfFuel
  | S fuel =>
      let! k := peek_kind in
      match k with
      | Some (TWord word) =>
          if is_literal_word k "]]" then ret words
          else do! advance_by 1 in operands_loop (words ++ [word]) fuel
      | Some TLess =>
          do! advance_by 1 in operands_loop (words ++ [mkWord [SingleQuoted (lit "<")]]) fuel
      | Some (TRedirect Stdout false) =>
          do! advance_by 1 in operands_loop (words ++ [mkWord [SingleQuoted (lit ">")]]) fuel
      | _ => ret words
      end
  end.

(** Whether the operator of a test compares with a pattern that is not constant. *)
Definition check_operator (words : list Word) (at_line : Z) : result fault bool :=
  match words with
  | [_; operator; rhs] =>
      let operator := unwrap_or (as_literal operator) [] in
      if str_eqb operator (lit "=~") then Err (refused at_line RegexCondition)
      else if str_eqb operator (lit "=") || str_eqb operator (lit "==") || str_eqb operator (lit "!=") then
        if word_is_constant rhs then
          match literal_pattern_metacharacter (parts rhs) with
          | Some character => Err (refused at_line (ConditionalPattern character))
          | None => Ok false
          end
        else Ok true
      else Ok false
  | _ => Ok false
  end.

Definition parse_conditional_test : parse_m Conditional :=
  let! at_line := current_line in
  let! words := walking (operands_loop []) in
  if is_nil words then refuse_found at_line ExpectedCondition
  else if (3 <? length words)%nat then refuse at_line TooManyConditionOperands
  else
    let! check_right_pattern := of_result (check_operator words at_line) in
    ret (Test_ words check_right_pattern).

Section ConditionalLevel.

(** [parse_conditional_or] and [parse_conditional_unary] one level deeper. *)
Context (inner_or inner_unary : parse_m Conditional).

Definition parse_test_not : parse_m Conditional :=
  do! advance_by 1 in
  let! inner := inner_unary in
  ret (CNot inner).

Definition parse_test_group : parse_m Conditional :=
  let! at_line := current_line in
  do! advance_by 1 in
  let! inner := inner_or in
  let! k := peek_kind in
  match k with
  | Some RightParen => do! advance_by 1 in ret inner
  | _ => refuse at_line ExpectedTestGroupClose
  end.

Definition conditional_unary : parse_m Conditional :=
  let! negation := peek_literal_word "!" in
  if negation then nested CTestNot parse_test_not
  else
    let! k := peek_kind in
    match k with
    | Some LeftParen => nested CTestGroup parse_test_group
    | _ => parse_conditional_test
    end.

Fixpoint conditional_and_loop (terms : list Conditional) (fuel : nat) : parse_m (list Conditional) :=
  match fuel with
  | O => throw OutOfFuel
  | S fuel =>
      let! k := peek_kind in
      match k with
      | Some AndAnd =>
          do! advance_by 1 in
          let! term := conditional_unary in
          conditional_and_loop (terms ++ [term]) fuel
      | _ => ret terms
      end
  end.

Definition conditional_and : parse_m Conditional :=
  let! first := conditional_unary in
  let! k := peek_kind in
  match k with
  | Some AndAnd => let! terms := walking (conditional_and_loop [first]) in ret (CAnd terms)
  | _ => ret first
  end.

Fixpoint conditional_or_loop (terms : list Conditional) (fuel : nat) : parse_m (list Conditional) :=
  match fuel with
  | O => throw OutOfFuel
  | S fuel =>
      let! k := peek_kind in
      match k with
      | Some OrOr =>
          do! advance_by 1 in
          let! term := conditional_and in
          conditional_or_loop (terms ++ [term]) fuel
      | _ => ret terms
      end
  end.

Definition conditional_or : parse_m Conditional :=
  let! first := conditional_and in
  let! k := peek_kind in
  match k with
  | Some OrOr => let! terms := walking (conditional_or_loop [first]) in ret (COr terms)
  | _ => ret first
  end.

End ConditionalLevel.

Fixpoint parse_conditional_or (nesting : nat) (s : Parser) : result fault Conditional * Parser :=
  match nesting with
  | O => throw OutOfFuel s
  | S n => conditional_or (parse_conditional_or n) (parse_conditional_unary n) s
  end
with parse_conditional_unary (nesting : nat) (s : Parser) : result fault Conditional * Parser :=
  match nesting with
  | O => throw OutOfFuel s
  | S n => conditional_unary (parse_conditional_or n) (parse_conditional_unary n) s
  end.

(** ** Compound commands *)

Definition eat_pipeline_negation : parse_m bool :=
  let! negation := peek_literal_word "!" in
  if negation then do! advance_by 1 in ret true else ret false.

Definition parse_case_pattern : parse_m Word :=
  let! at_line := current_line in
  let! k := peek_kind in
  match k with
  | Some (TWord word) => do! advance_by 1 in ret word
  | _ => refuse_found at_line ExpectedCasePattern
  end.

Fixpoint patterns_loop (patterns : list Word) (fuel : nat) : parse_m (list Word) :=
  match fuel with
  | O => throw OutOfFuel
  | S fuel =>
      let! k := peek_kind in
      match k with
      | Some Pipe =>
          do! advance_by 1 in
          do! skip_newlines in
          let! pattern := parse_case_pattern in
          patterns_loop (patterns ++ [pattern]) fuel
      | _ => ret patterns
      end
  end.

Fixpoint for_words_loop (words : list Word) (fuel : nat) : parse_m (list Word) :=
  match fuel with
  | O => throw OutOfFuel
  | S fuel =>
      let! k := peek_kind in
      match k with
      | Some (TWord word) =>
          let! reserved := peek_reserved in
          if is_word reserved "do" then ret words
          else do! advance_by 1 in for_words_loop (words ++ [word]) fuel
      | _ => ret words
      end
  end.

(** The head of a [for] loop, up to [do]. *)
Definition parse_for_head : parse_m (str * list Word) :=
  do! expect_reserved "for" CFor in
  let! at_line := current_line in
  let! k := peek_kind in
  match k with
  | Some LeftParen => refuse at_line CStyleFor
  | Some (TWord word) =>
      match as_literal word with
      | None => refuse at_line ForVariableNotPlain
      | Some variable =>
          if negb (is_valid_name variable) then refuse at_line (InvalidForVariable variable)
          else
            do! advance_by 1 in
            do! expect_reserved "in" CFor in
            let! words := walking (for_words_loop []) in
            do! skip_separators in
            do! expect_reserved "do" CFor in
            ret (variable, words)
      end
  | _ => refuse at_line ExpectedForVariable
  end.

(** The head of a [case], up to [in]. *)
Definition parse_case_head : parse_m Word :=
  do! expect_reserved "case" CCase in
  let! at_line := current_line in
  let! k := peek_kind in
  match k with
  | Some (TWord subject) =>
      do! advance_by 1 in
      do! skip_newlines in
      do! expect_reserved "in" CCase in
      ret subject
  | _ => refuse at_line ExpectedCaseSubject
  end.

(** The patterns of a clause, up to the parenthesis that closes them. *)
Definition parse_case_patterns : parse_m (list Word) :=
  let! k := peek_kind in
  do! (match k with Some LeftParen => advance_by 1 | _ => ret tt end) in
  let! first := parse_case_pattern in
  let! patterns := walking (patterns_loop [first]) in
  let! k := peek_kind in
  match k with
  | Some RightParen => do! advance_by 1 in ret patterns
  | _ => refuse_here ExpectedCasePatternClose
  end.

(** The head of a function definition, up to the brace of its body; [None]
    where the tokens do not start one. *)
Definition parse_function_head : parse_m (option str) :=
  let! k := peek_kind in
  match k with
  | Some (TWord word) =>
      match as_literal word with
      | None => ret None
      | Some name =>
          let! open := kind_ahead 1 in
          match open with
          | Some LeftParen =>
              let! close := kind_ahead 2 in
              match close with
              | Some RightParen =>
                  let! at_line := current_line in
                  if negb (is_valid_name name) then refuse at_line (InvalidFunctionName name)
                  else
                    match rejected_lookup name with
                    | Some rejected => refuse at_line (RejectedFunction name rejected)
                    | None =>
                        if existsb (str_eqb name) RESERVED_WORDS then
                          refuse at_line (ReservedFunction name)
                        else
                          do! advance_by 3 in
                          do! skip_newlines in
                          let! k := peek_kind in
                          match k with
                          | Some LeftBrace => do! advance_by 1 in ret (Some name)
                          | _ => refuse_here (ExpectedFunctionOpen name)
                          end
                    end
              | _ => ret None
              end
          | _ => ret None
          end
      end
  | _ => ret None
  end.

(** [background], at the [&]. *)
Definition background (statement : Statement) (start : Z) : parse_m Statement :=
  let! at_line := current_line in
  match statement with
  | Function_ name _ => refuse at_line (BackgroundFunction name)
  | _ =>
      let! t := peek in
      let! src := gets parser_source in
      let end_ := match t with Some t => offset t | None => len src end in
      do! advance_by 1 in
      ret (Background statement (trim (unwrap_or (str_get src start end_) [])))
  end.

(** [self.substitution && matches!(self.peek_kind(), Some(RightParen))]. *)
Definition at_substitution_end : parse_m bool :=
  let! inside := gets substitution in
  if inside then
    let! k := peek_kind in
    ret (match k with Some RightParen => true | _ => false end)
  else ret false.

Definition ends_program (k : option TokenKind) : bool :=
  match k with None | Some RightBrace | Some DoubleSemicolon => true | _ => false end.

(** What may follow a statement. *)
Definition ends_statement (k : TokenKind) (reserved : bool) : bool :=
  match k with
  | Newline | Semicolon | RightBrace | DoubleSemicolon => true
  | TWord _ => reserved
  | _ => false
  end.

Definition contains_word (terminators : list string) (r : option str) : bool :=
  match r with Some r => existsb (fun t => str_eqb r (lit t)) terminators | None => false end.

Section GrammarLevel.

(** [parse_program], [parse_and_or_list] and [parse_conditional_or] inside a
    construct of this level. *)
Context (inner_program : list string → parse_m Program).
Context (inner_and_or : parse_m AndOrList).
Context (inner_conditional : parse_m Conditional).

Definition parse_conditional : parse_m Conditional :=
  let! at_line := current_line in
  do! advance_by 1 in
  let! expression := inner_conditional in
  let! closed := peek_literal_word "]]" in
  if closed then do! advance_by 1 in ret expression
  else refuse_found at_line ExpectedConditionalClose.

(** A condition, [then], and the body it guards. *)
Definition parse_branch (c : Construct) : parse_m (AndOrList * Program) :=
  let! condition := inner_and_or in
  do! skip_separators in
  do! expect_reserved "then" c in
  let! body := inner_program ["elif"; "else"; "fi"]%string in
  ret (condition, body).

Fixpoint if_loop (branches : list (AndOrList * Program)) (fuel : nat)
  : parse_m (list (AndOrList * Program) * option Program) :=
  match fuel with
  | O => throw OutOfFuel
  | S fuel =>
      let! r := peek_reserved in
      if is_word r "elif" then
        do! advance_by 1 in
        let! branch := parse_branch CElif in
        if_loop (branches ++ [branch]) fuel
      else if is_word r "else" then
        do! advance_by 1 in
        let! otherwise := inner_program ["fi"]%string in
        ret (branches, Some otherwise)
      else ret (branches, None)
  end.

Definition parse_if : parse_m Statement :=
  do! expect_reserved "if" CIf in
  let! branch := parse_branch CIf in
  let! (branches, otherwise) := walking (if_loop [branch]) in
  do! expect_reserved "fi" CIf in
  ret (If branches otherwise).

Definition parse_while (until : bool) : parse_m Statement :=
  let context := if until then CUntil else CWhile in
  do! expect_reserved (if until then "until" else "while") context in
  let! condition := inner_and_or in
  do! skip_separators in
  do! expect_reserved "do" context in
  let! body := inner_program ["done"]%string in
  do! expect_reserved "done" context in
  ret (While condition body until).

Definition parse_for_body : parse_m Program :=
  let! body := inner_program ["done"]%string in
  do! expect_reserved "done" CFor in
  ret body.

Definition parse_group : parse_m Program :=
  let! at_line := current_line in
  do! advance_by 1 in
  let! body := inner_program ["}"]%string in
  let! k := peek_kind in
  match k with
  | Some RightBrace =>
      do! advance_by 1 in
      if is_nil (statements body) then refuse at_line EmptyGroup else ret body
  | _ => refuse at_line ExpectedGroupClose
  end.

Definition parse_case_body : parse_m Program :=
  let! body := inner_program ["esac"]%string in
  let! k := peek_kind in
  match k with
  | Some DoubleSemicolon => do! advance_by 1 in ret body
  | _ =>
      let! r := peek_reserved in
      if is_word r "esac" then ret body else refuse_here ExpectedCaseClauseEnd
  end.

Definition parse_case_clause : parse_m (list Word * Program) :=
  let! patterns := parse_case_patterns in
  let! body := nested CCase parse_case_body in
  ret (patterns, body).

Fixpoint clauses_loop (clauses : list (list Word * Program)) (fuel : nat)
  : parse_m (list (list Word * Program)) :=
  match fuel with
  | O => throw OutOfFuel
  | S fuel =>
      do! skip_separators in
      let! r := peek_reserved in
      if is_word r "esac" then ret clauses
      else
        let! t := peek in
        match t with
        | None => refuse_here (ExpectedReserved (lit "esac") CCase)
        | Some _ =>
            let! clause := parse_case_clause in
            clauses_loop (clauses ++ [clause]) fuel
        end
  end.

Definition parse_case : parse_m Statement :=
  let! subject := parse_case_head in
  let! clauses := walking (clauses_loop []) in
  do! expect_reserved "esac" CCase in
  ret (Case subject clauses).

Definition parse_for : parse_m Statement :=
  let! (variable, words) := parse_for_head in
  let! body := nested CFor parse_for_body in
  ret (For variable words body).

(** The compound command the parser looks at, if there is one. *)
Definition parse_compound : parse_m (option Statement) :=
  let some (m : parse_m Statement) := let! s := m in ret (Some s) in
  let! r := peek_reserved in
  if is_word r "if" then some (nested CIf parse_if)
  else if is_word r "for" then some parse_for
  else if is_word r "while" then some (nested CWhile (parse_while false))
  else if is_word r "until" then some (nested CUntil (parse_while true))
  else if is_word r "case" then some parse_case
  else
    let! conditional := peek_literal_word "[[" in
    if conditional then
      some (let! c := nested CConditional parse_conditional in ret (Conditional_ c))
    else
      let! k := peek_kind in
      match k with
      | Some LeftBrace => some (let! p := nested CGroup parse_group in ret (Group p))
      | _ => ret None
      end.

Definition parse_command : parse_m Command :=
  let! compound := parse_compound in
  match compound with
  | None => parse_simple_command
  | Some statement =>
      let! redirects := parse_redirects in
      let! at_line := current_line in
      do! of_result (check_duplication_order redirects at_line) in
      ret (Compound statement redirects)
  end.

Fixpoint pipeline_loop (commands : list Command) (fuel : nat) : parse_m (list Command) :=
  match fuel with
  | O => throw OutOfFuel
  | S fuel =>
      let! k := peek_kind in
      match k with
      | Some Pipe =>
          do! advance_by 1 in
          do! skip_newlines in
          let! command := parse_command in
          pipeline_loop (commands ++ [command]) fuel
      | _ => ret commands
      end
  end.

Definition parse_pipeline : parse_m Pipeline :=
  let! negated := eat_pipeline_negation in
  let! first := parse_command in
  let! commands := walking (pipeline_loop [first]) in
  ret (mkPipeline commands negated).

Definition and_or_operator (k : option TokenKind) : option AndOr :=
  match k with Some AndAnd => Some AndOr_And | Some OrOr => Some AndOr_Or | _ => None end.

Fixpoint and_or_loop (rest : list (AndOr * Pipeline)) (fuel : nat) : parse_m (list (AndOr * Pipeline)) :=
  match fuel with
  | O => throw OutOfFuel
  | S fuel =>
      let! k := peek_kind in
      match and_or_operator k with
      | Some operator =>
          do! advance_by 1 in
          do! skip_newlines in
          let! pipeline := parse_pipeline in
          and_or_loop (rest ++ [(operator, pipeline)]) fuel
      | None => ret rest
      end
  end.

Definition and_or_list : parse_m AndOrList :=
  let! first := parse_pipeline in
  let! rest := walking (and_or_loop []) in
  ret (mkAndOrList first rest).

(** [try_parse_function]. *)
Definition try_parse_function : parse_m (option Statement) :=
  let! name := parse_function_head in
  match name with
  | Some name =>
      let! body := nested CFunction (inner_program []) in
      let! k := peek_kind in
      match k with
      | Some RightBrace => do! advance_by 1 in ret (Some (Function_ name body))
      | _ => refuse_here (ExpectedFunctionClose name)
      end
  | None => ret None
  end.

Definition parse_statement : parse_m Statement :=
  let! r := peek_reserved in
  match r with
  | Some other =>
      if contains_word ["if"; "for"; "while"; "until"; "case"; "[["]%string r then
        let! l := and_or_list in ret (List_ l)
      else if is_word r "esac" then refuse_here UnmatchedEsac
      else if is_word r "select" then refuse_here Select
      else if is_word r "function" then refuse_here FunctionKeyword
      else refuse_here (UnexpectedReserved other)
  | None =>
      let! definition := try_parse_function in
      match definition with
      | Some definition => ret definition
      | None => let! l := and_or_list in ret (List_ l)
      end
  end.

(** One statement and what ends it: whether the program goes on. *)
Definition program_step : parse_m (Statement * bool) :=
  let! t := peek in
  let start := match t with Some t => offset t | None => 0 end in
  let! statement := parse_statement in
  let! k := peek_kind in
  match k with
  | Some Ampersand => let! statement := background statement start in ret (statement, true)
  | _ =>
      let! closed := at_substitution_end in
      if closed then ret (statement, false)
      else
        let! reserved := peek_reserved in
        let! at_line := current_line in
        match k with
        | Some other =>
            if ends_statement other (bool_decide (is_Some reserved)) then ret (statement, true)
            else refuse at_line (UnexpectedAfterCommand other)
        | None => ret (statement, true)
        end
  end.

(** Whether the program ends before the next token. *)
Definition at_program_end (terminators : list string) : parse_m bool :=
  let! closed := at_substitution_end in
  if closed then ret true
  else
    let! k := peek_kind in
    if ends_program k then ret true
    else
      let! reserved := peek_reserved in
      ret (contains_word terminators reserved).

Fixpoint program_loop (terminators : list string) (acc : list Statement) (fuel : nat) : parse_m Program :=
  match fuel with
  | O => throw OutOfFuel
  | S fuel =>
      do! skip_separators in
      let! ended := at_program_end terminators in
      if ended then ret (mkProgram acc)
      else
        let! (statement, more) := program_step in
        if more then program_loop terminators (acc ++ [statement]) fuel
        else ret (mkProgram (acc ++ [statement]))
  end.

Definition program (terminators : list string) : parse_m Program := walking (program_loop terminators []).

End GrammarLevel.

Fixpoint parse_program (nesting : nat) (terminators : list string) (s : Parser)
  : result fault Program * Parser :=
  match nesting with
  | O => throw OutOfFuel s
  | S n => program (parse_program n) (parse_and_or_list n) (parse_conditional_or n) terminators s
  end
with parse_and_or_list (nesting : nat) (s : Parser) : result fault AndOrList * Parser :=
  match nesting with
  | O => throw OutOfFuel s
  | S n => and_or_list (parse_program n) (parse_and_or_list n) (parse_conditional_or n) s
  end.

(** ** Whole sources *)

(** A construct takes a unit of the 64 at least, so the grammar calls itself
    through [nest] at most 64 times. *)
Definition NESTING : nat := 65.

Definition program_of (s : Parser) : result fault Program * Parser :=
  parse_program NESTING [] s.

(** [result?] once the parser's [lex_error] has been looked at: an error of the
    lexer first. *)
Definition checked {A : Type} (outcome : result fault Program * Parser)
    (on_lex_error : ParseError → Lexer → result fault A) (k : Program → parse_m A) : result fault A :=
  match outcome with
  | (Err OutOfFuel, _) => Err OutOfFuel
  | (result, s) =>
      match lex_error s with
      | Some e => on_lex_error e (lexer s)
      | None => match result with Ok program => eval (k program) s | Err e => Err e end
      end
  end.

Definition parse_nested (source : str) (d : Depth) (start_line : Z) : result fault Program :=
  checked (program_of (new_parser source d start_line false))
    (fun e _ => Err (Error e))
    (fun program =>
       let! t := peek in
       match t with
       | Some t => refuse (token_line t) (UnexpectedToken (kind t))
       | None => ret program
       end).

Definition parse_substitution (source : str) (d : Depth) (start_line : Z) : result fault (Program * Z) :=
  let? d := lift (depth_substitution d start_line) in
  checked (program_of (new_parser source d start_line true))
    (fun e l =>
       match pending_here_doc_close l with
       | Some close =>
           let? _ := parse_nested (take (Z.to_nat (close + 1)) source) d start_line in
           Err (Error e)
       | None => Err (Error e)
       end)
    (fun program =>
       let! t := peek in
       match t with
       | None => refuse start_line UnterminatedSubstitution
       | Some t =>
           let end_ := offset t + 1 in
           match kind t with
           | RightParen =>
               let! at_ := gets (fun s => offset_of (lexer s)) in
               if at_ =? end_ then ret (program, end_)
               else
                 do! of_result (parse_nested (take (Z.to_nat end_) source) d start_line) in
                 refuse (token_line t) UnterminatedHereDocument
           | k => refuse (token_line t) (UnexpectedToken k)
           end
       end).

End WithDollar.

(** ** The recursion through [$] *)

(** A substitution or a parameter raises [d_lexer], which stays under 64. *)
Definition LEVELS : nat := 64.

Fixpoint dollar_at (level : nat) (index : Z) (enclosure : Enclosure) : lex (option WordPart) :=
  match level with
  | O => throw OutOfFuel
  | S level =>
      read_dollar_part (dollar_at level) (parse_substitution (dollar_at level)) index enclosure
  end.
#[global] Arguments dollar_at : simpl never.

(** [parser::parse]. *)
Definition parse (source : str) : result fault Program :=
  parse_nested (dollar_at LEVELS) source (mkDepth 0 1) 1.

(** The levels of expansions stay folded. *)
Lemma parse_unfold (source : str) : parse source = parse_nested (dollar_at LEVELS) source (mkDepth 0 1) 1.
Proof. reflexivity. Qed.
