(* ===== verification/ShellWellFormed.v ===== *)
(** * Well-formed programs

    What the parser of scripts promises the interpreter about a program beyond
    its type: names that are names, lists that are not empty, literals in
    range, redirections in order. Decidable, so that it evaluates on a program. *)

From Stdlib Require Import ZArith Lia Ascii String.
From stdpp Require Import base strings list numbers.
From S2P Require Import Prelude RustStr ShellAst ShellArith ShellArithTheory.
From S2P Require Import ShellState ShellLexer ShellParser.

Fixpoint arith_okb (e : ArithExpr) : bool :=
  match e with
  | mkArithExpr n h =>
      match n with
      | Integer v => (h =? 0) && (0 <=? v) && (v <=? i64_max)
      | Float _ => h =? 0
      | Variable_ name => (h =? 0) && negb (is_nil name) && forallb is_name_byte name
      | Unary _ x => (h =? height x + 1) && (h <=? 64) && arith_okb x
      | Binary _ l r => (h =? Z.max (height l) (height r) + 1) && (h <=? 64) && arith_okb l && arith_okb r
      end
  end.

Definition name_okb (name : str) : bool := negb (is_nil name) && forallb is_name_byte name.

(** A function may not take the name of a reserved or refused word. *)
Definition function_name_ok (name : str) : bool :=
  is_valid_name name && negb (bool_decide (is_Some (rejected_lookup name))) &&
  negb (existsb (str_eqb name) RESERVED_WORDS).

(** [>&] copies a stream that no later redirection of the command sends elsewhere. *)
Fixpoint redirects_in_order (redirects : list Redirect) : bool :=
  match redirects with
  | [] => true
  | (src, ToStream copied) :: later =>
      negb (existsb (fun r => is_buffer r.2 && (bool_decide (r.1 = copied) || bool_decide (r.1 = Both))) later)
      && redirects_in_order later
  | _ :: later => redirects_in_order later
  end.

Definition is_function (s : Statement) : bool := match s with Function_ _ _ => true | _ => false end.

(** Only the last index of a parameter may select every element. *)
Fixpoint indices_in_order (indices : list Index) : bool :=
  match indices with
  | i :: rest => (is_nil rest || negb (selects_all i)) && indices_in_order rest
  | [] => true
  end.

Fixpoint program_ok (p : Program) : bool :=
  match p with mkProgram ss => forallb statement_ok ss end
with statement_ok (s : Statement) : bool :=
  match s with
  | List_ l => and_or_ok l
  | If branches otherwise =>
      negb (is_nil branches) &&
      forallb (fun b => let '(c, p) := b in and_or_ok c && program_ok p) branches &&
      match otherwise with Some p => program_ok p | None => true end
  | For variable words body => is_valid_name variable && forallb word_ok words && program_ok body
  | While condition body _ => and_or_ok condition && program_ok body
  | Case subject clauses =>
      word_ok subject &&
      forallb (fun c => let '(ps, p) := c in negb (is_nil ps) && forallb word_ok ps && program_ok p) clauses
  | Group p => negb (is_nil (statements p)) && program_ok p
  | Conditional_ c => conditional_ok c
  | Function_ name body => function_name_ok name && program_ok body
  | Background s _ => negb (is_function s) && statement_ok s
  end
with and_or_ok (l : AndOrList) : bool :=
  match l with
  | mkAndOrList first rest => pipeline_ok first && forallb (fun x => let '(_, p) := x in pipeline_ok p) rest
  end
with pipeline_ok (p : Pipeline) : bool :=
  match p with mkPipeline commands _ => negb (is_nil commands) && forallb command_ok commands end
with command_ok (c : Command) : bool :=
  match c with
  | Simple assignments words redirects here_doc =>
      negb (is_nil words && is_nil assignments) &&
      forallb (fun a => let '(name, w) := a in is_valid_name name && word_ok w) assignments &&
      forallb word_ok words &&
      forallb (fun r => let '(_, t) := r in target_ok t) redirects && redirects_in_order redirects &&
      match here_doc with Some w => word_ok w | None => true end
  | Compound s redirects =>
      statement_ok s &&
      forallb (fun r => let '(_, t) := r in target_ok t) redirects && redirects_in_order redirects
  end
with target_ok (t : RedirectTarget) : bool :=
  match t with Buffer _ w => word_ok w | ToStream _ => true end
with conditional_ok (c : Conditional) : bool :=
  match c with
  | Test_ words _ => negb (is_nil words) && (length words <=? 3)%nat && forallb word_ok words
  | CNot c => conditional_ok c
  | CAnd terms | COr terms => (2 <=? length terms)%nat && forallb conditional_ok terms
  end
with word_ok (w : Word) : bool :=
  match w with mkWord ps => forallb part_ok ps end
with part_ok (p : WordPart) : bool :=
  match p with
  | Asset number => (1 <=? number) && (number <=? u64_max)
  | Literal text => negb (is_nil text)
  | SingleQuoted _ => true
  | DoubleQuoted ps => forallb part_ok ps
  | Parameter_ p => param_ok p
  | CommandSubstitution p => program_ok p
  | Arithmetic e => arith_okb e
  end
with param_ok (p : Param) : bool :=
  match p with
  | Named name indices modifier length =>
      name_okb name && forallb index_ok indices && indices_in_order indices && modifier_ok modifier &&
      (negb length || match modifier with NoModifier => true | _ => false end)
  | Positional n => (0 <=? n) && (n <=? u64_max)
  | AllPositional | AllPositionalJoined | PositionalCount | LastStatus | LastJob => true
  end
with index_ok (i : Index) : bool :=
  match i with At w => word_ok w | All | AllJoined => true end
with modifier_ok (m : Modifier) : bool :=
  match m with
  | NoModifier => true
  | Default _ w | Assign _ w | Alternate _ w => word_ok w
  | Require_ _ w => match w with Some w => word_ok w && negb (is_nil (parts w)) | None => true end
  | StripPrefix p | StripSuffix p => pattern_ok p
  | Replace _ p w => pattern_ok p && word_ok w
  end
with pattern_ok (p : Pattern) : bool :=
  match p with
  | LiteralPattern w => word_ok w && word_is_constant w
  | Expanded w => word_ok w && negb (word_is_constant w)
  end.
