(* ===== verification/ShellLexerTheory.v ===== *)
(** * Lexer of scripts: theorems

    Every method of the lexer answers, whatever its source: its loops take a
    character each turn. Along the way the parts and the tokens it holds stay
    well formed, and the tokens it can still give never grow in number: a
    character gives at most one token beside the word it ends, and that word
    began with a character of its own. *)

From Stdlib Require Import ZArith Lia Ascii String.
From stdpp Require Import base strings list numbers.
From S2P Require Import Prelude RustStr ShellAst ShellArith ShellArithTheory.
From S2P Require Import ShellState ShellLexer ShellParser ShellWellFormed.

Definition token_wf (t : Token) : bool :=
  match kind t with TWord w | HereDoc w => word_ok w | _ => true end.

Definition lex_ok (l : Lexer) : bool := forallb part_ok (word_parts l) && forallb token_wf (tokens l).

(** The tokens a lexer can still give. *)
Definition phi (l : Lexer) : nat :=
  length (chars_left l) + length (tokens l) + (if word_started l then 1 else 0).

(** What a method does to its lexer: it reads on, and [k] tokens at most come
    from no character. *)
Definition grows (k : nat) (l l' : Lexer) : Prop :=
  lex_ok l' = true ∧ (length (chars_left l') ≤ length (chars_left l))%nat ∧
  (phi l' ≤ phi l + k)%nat ∧ lexer_depth l' = lexer_depth l.

(** A method that only reads characters. *)
Definition quiet (l l' : Lexer) : Prop :=
  (length (chars_left l') ≤ length (chars_left l))%nat ∧
  tokens l' = tokens l ∧ word_parts l' = word_parts l ∧ literal l' = literal l ∧
  word_started l' = word_started l ∧ lexer_depth l' = lexer_depth l ∧ source l' = source l ∧
  pending_here_docs l' = pending_here_docs l.

Lemma quiet_refl (l : Lexer) : quiet l l.
Proof. repeat split; lia. Qed.

Lemma quiet_trans (l1 l2 l3 : Lexer) : quiet l1 l2 → quiet l2 l3 → quiet l1 l3.
Proof. unfold quiet. intuition (congruence || lia). Qed.

Lemma quiet_grows (l l' : Lexer) : lex_ok l = true → quiet l l' → grows 0 l l'.
Proof.
  intros Hl (Hc & Ht & Hp & _ & Hw & Hd & _). unfold grows, lex_ok, phi in *.
  rewrite Ht, Hp, Hw, Hd. repeat split; [done|lia|lia].
Qed.

Lemma grows_refl (l : Lexer) : lex_ok l = true → grows 0 l l.
Proof. intros Hl. repeat split; [done|lia|lia]. Qed.

Lemma grows_trans (a b c : nat) (l1 l2 l3 : Lexer) :
  grows a l1 l2 → grows b l2 l3 → (a + b ≤ c)%nat → grows c l1 l3.
Proof. unfold grows. intuition (congruence || lia). Qed.

Lemma grows_ok (k : nat) (l l' : Lexer) : grows k l l' → lex_ok l' = true.
Proof. by intros [? _]. Qed.

Lemma grows_depth (k : nat) (l l' : Lexer) : grows k l l' → lexer_depth l' = lexer_depth l.
Proof. by intros (_ & _ & _ & ?). Qed.

#[export] Hint Resolve quiet_refl grows_refl grows_ok : dk.

(** ** Characters *)

Lemma wp_next_char (Q : option (Z * Z) → Lexer → Prop) (l : Lexer) :
  (chars_left l = [] → Q None l) →
  (∀ c rest, chars_left l = c :: rest → Q (Some c) (set_chars rest l)) →
  wp next_char Q l.
Proof. unfold wp, next_char. destruct (chars_left l); auto. Qed.

Lemma quiet_chars (rest : list (Z * Z)) (l : Lexer) :
  (length rest ≤ length (chars_left l))%nat → quiet l (set_chars rest l).
Proof. intros H. repeat split; done || lia. Qed.

Lemma quiet_line (n : Z) (rest : list (Z * Z)) (l : Lexer) :
  (length rest ≤ length (chars_left l))%nat → quiet l (set_line n (set_chars rest l)).
Proof. intros H. repeat split; done || lia. Qed.

Lemma wp_skip_char (Q : unit → Lexer → Prop) (l : Lexer) :
  Q tt (set_chars (tail (chars_left l)) l) → wp skip_char Q l.
Proof. done. Qed.

Lemma quiet_skip (l : Lexer) : quiet l (set_chars (tail (chars_left l)) l).
Proof. apply quiet_chars, tail_length. Qed.

Lemma wp_skip_if (c : Z) (l : Lexer) : wp (skip_if c) (fun _ l' => quiet l l') l.
Proof.
  unfold skip_if, wp, bind, peek_char, gets, skip_char, modify, ret.
  destruct (is_char _ c); [apply quiet_skip|apply quiet_refl].
Qed.

Lemma wp_bump_line (l : Lexer) : wp bump_line (fun _ l' => quiet l l') l.
Proof. unfold wp, bump_line, modify. repeat split; done || lia. Qed.

Lemma take_while_shorter (p : Z → bool) (cs : list (Z * Z)) :
  (length (take_while p cs).2 ≤ length cs)%nat.
Proof.
  induction cs as [|[i c] cs IH]; simpl; [lia|]. destruct (p c); simpl; [|lia].
  destruct (take_while p cs); simpl in *. lia.
Qed.

Lemma wp_read_while (p : Z → bool) (l : Lexer) : wp (read_while p) (fun _ l' => quiet l l') l.
Proof.
  unfold wp, read_while. pose proof (take_while_shorter p (chars_left l)) as H.
  destruct (take_while p _) as [text after]. by apply quiet_chars.
Qed.

Lemma take_quoted_shorter (q : Z) (cs : list (Z * Z)) :
  let '(_, _, after, _) := take_quoted q cs in (length after ≤ length cs)%nat.
Proof.
  induction cs as [|[i c] cs IH]; simpl; [lia|]. destruct (c =? q); simpl; [lia|].
  destruct (take_quoted q cs) as [[[? ?] ?] ?]. lia.
Qed.

Lemma skip_double_quoted_shorter (escaped : bool) (cs : list (Z * Z)) :
  (length (skip_double_quoted escaped cs).2 ≤ length cs)%nat.
Proof.
  revert escaped. induction cs as [|[i c] cs IH]; intros escaped; simpl; [lia|].
  pose proof (IH false) as Hf. pose proof (IH true) as Ht.
  destruct (skip_double_quoted false cs), (skip_double_quoted true cs); simpl in *.
  repeat case_match; simpl; lia.
Qed.

Lemma take_line_shorter (cs : list (Z * Z)) :
  let '(_, terminated, after) := take_line cs in
  (length after ≤ length cs)%nat ∧ (terminated = true → length after < length cs)%nat.
Proof.
  induction cs as [|[i c] cs IH]; simpl; [done|]. destruct (c =? newline); simpl; [lia|].
  destruct (take_line cs) as [[? ?] ?]. destruct IH. split; [lia|]. intros Ht. specialize (H0 Ht). lia.
Qed.

(** ** Words *)

Lemma forallb_snoc {A : Type} (p : A → bool) (l : list A) (x : A) :
  forallb p (l ++ [x]) = forallb p l && p x.
Proof. rewrite forallb_app. simpl. by rewrite andb_true_r. Qed.

Lemma asset_parse_range (text : str) (n : Z) : asset_parse text = Some n → 1 ≤ n ≤ u64_max.
Proof.
  unfold asset_parse. destruct (strip_prefix _ _) as [digits|]; [|done]. destruct (_ || _); [done|].
  destruct (parse_u64 digits) as [m|] eqn:E; [|done]. apply parse_u64_range in E.
  destruct (Z.eqb_spec m 0); [done|]. intros [= <-]. lia.
Qed.

Lemma name_asset_ok (ps : list WordPart) : forallb part_ok ps = true → forallb part_ok (name_asset ps) = true.
Proof.
  intros H. unfold name_asset. destruct ps as [|[] [|]]; try done.
  destruct (asset_parse text) as [n|] eqn:E; [|done]. apply asset_parse_range in E.
  simpl. rewrite andb_true_r. dk_bool. lia.
Qed.

Lemma flushed_ok (l : Lexer) : lex_ok l = true → lex_ok (flushed l) = true.
Proof.
  unfold flushed. destruct (is_nil (literal l)) eqn:E; [done|]. unfold lex_ok. simpl.
  intros H. apply andb_prop in H as [? ?]. rewrite forallb_snoc. simpl. rewrite E. simpl.
  by rewrite andb_true_r, H, H0.
Qed.

Lemma flushed_fields (l : Lexer) :
  chars_left (flushed l) = chars_left l ∧ tokens (flushed l) = tokens l ∧
  word_started (flushed l) = word_started l ∧ lexer_depth (flushed l) = lexer_depth l.
Proof. unfold flushed. by destruct (is_nil _). Qed.

Lemma begun_ok (l : Lexer) : lex_ok (begun l) = lex_ok l.
Proof. unfold begun. by destruct (word_started l). Qed.

Lemma begun_fields (l : Lexer) :
  chars_left (begun l) = chars_left l ∧ tokens (begun l) = tokens l ∧
  word_started (begun l) = true ∧ lexer_depth (begun l) = lexer_depth l.
Proof. unfold begun. by destruct (word_started l) eqn:E; rewrite ?E. Qed.

Lemma grows_finished (l : Lexer) : lex_ok l = true → grows 0 l (finished l).
Proof.
  intros Hl. unfold finished. destruct (word_started l) eqn:E; [|by apply grows_refl].
  destruct (flushed_fields l) as (Hc & Ht & Hw & Hd).
  pose proof (flushed_ok l Hl) as Hf. unfold grows, phi, lex_ok in *. simpl.
  rewrite Hc, Ht, Hd, E in *. apply andb_prop in Hf as [Hp Htok].
  rewrite forallb_snoc, length_app, Htok. simpl. repeat split; [|lia|lia].
  by apply name_asset_ok.
Qed.

Lemma wp_finish_word (l : Lexer) : lex_ok l = true → wp finish_word (fun _ l' => grows 0 l l') l.
Proof. apply grows_finished. Qed.

Lemma wp_push (k : TokenKind) (l : Lexer) :
  lex_ok l = true → token_wf (mkToken k 0 0) = true → wp (push k) (fun _ l' => grows 1 l l') l.
Proof.
  intros Hl Hk. unfold wp, push, modify, grows, phi, lex_ok in *. simpl.
  apply andb_prop in Hl as [Hp Ht]. rewrite forallb_snoc, length_app, Hp, Ht. simpl.
  repeat split; [done|lia|lia].
Qed.

Lemma wp_push_literal (c : Z) (l : Lexer) :
  lex_ok l = true → wp (push_literal c) (fun _ l' => grows 1 l l') l.
Proof.
  intros Hl. unfold wp, push_literal, bind, begin_word, modify. destruct (begun_fields l) as (Hc & Ht & Hw & Hd).
  unfold grows, phi. simpl. rewrite Hc, Ht, Hw, Hd. repeat split; [|lia|lia].
  rewrite <- Hl, <- (begun_ok l). done.
Qed.

Lemma wp_push_part (p : WordPart) (l : Lexer) :
  lex_ok l = true → part_ok p = true → wp (push_part p) (fun _ l' => grows 1 l l') l.
Proof.
  intros Hl Hp. unfold wp, push_part, bind, begin_word, flush_literal, modify.
  destruct (begun_fields l) as (Hc & Ht & Hw & Hd).
  destruct (flushed_fields (begun l)) as (Hc' & Ht' & Hw' & Hd').
  assert (Hok : lex_ok (flushed (begun l)) = true) by (apply flushed_ok; by rewrite begun_ok).
  unfold grows, phi, lex_ok in *. simpl. rewrite Hc', Hc, Hw', Hw, Hd', Hd, Ht', Ht in *.
  apply andb_prop in Hok as [Hps Hts]. rewrite forallb_snoc, Hps, Hp, Hts. repeat split; lia.
Qed.

#[export] Hint Resolve wp_finish_word wp_push wp_push_literal wp_push_part : dk.

(** ** Methods *)

(** A depth at [v] expansions. *)
Definition at_level (v : Z) (d : Depth) : Prop := d_lexer d = v ∧ 0 ≤ d_block d.

(** A method of a lexer whose nesting is [v]: it answers, [k] tokens at most
    come from no character, and what it returns satisfies [P]. *)
Definition lspec {A : Type} (v : Z) (k : nat) (m : lex A) (P : A → Prop) : Prop :=
  ∀ l, lex_ok l = true → at_level v (lexer_depth l) → wp m (fun x l' => grows k l l' ∧ P x) l.

Section Rules.

Context {A B : Type} (v : Z).

Lemma lspec_ret (k : nat) (x : A) (P : A → Prop) : P x → lspec v k (ret x) P.
Proof. intros HP l Hl _. split; [|done]. apply (grows_trans 0 0 k l l); auto with dk. lia. Qed.

Lemma lspec_throw (k : nat) (e : ParseError) (P : A → Prop) : lspec v k (throw (Error e)) P.
Proof. by intros l _ _. Qed.

Lemma lspec_bind (a b k : nat) (m : lex A) (f : A → lex B) (P : A → Prop) (R : B → Prop) :
  (a + b ≤ k)%nat → lspec v a m P → (∀ x, P x → lspec v b (f x) R) → lspec v k (bind m f) R.
Proof.
  intros Hk Hm Hf l Hl Hd. apply wp_then. eapply wp_weaken; [by apply Hm|].
  intros x l1 [H1 HP]. eapply wp_weaken; [apply Hf; [done|by apply (grows_ok _ _ _ H1)|]|].
  { by rewrite (grows_depth _ _ _ H1). }
  intros y l2 [H2 HR]. split; [|done]. by apply (grows_trans a b k l l1 l2).
Qed.

Lemma lspec_mono (a k : nat) (m : lex A) (P R : A → Prop) :
  lspec v a m P → (a ≤ k)%nat → (∀ x, P x → R x) → lspec v k m R.
Proof.
  intros Hm Hk HP l Hl Hd. eapply wp_weaken; [by apply Hm|]. intros x l' [H1 H2]. split; [|auto].
  apply (grows_trans a 0 k l l' l'); [done|apply grows_refl; by apply (grows_ok _ _ _ H1)|lia].
Qed.

Lemma lspec_gets (k : nat) (f : Lexer → A) : lspec v k (gets f) (fun _ => True).
Proof. intros l Hl _. split; [|done]. apply (grows_trans 0 0 k l l); auto with dk. lia. Qed.

Lemma lspec_quiet (k : nat) (m : lex A) (P : A → Prop) :
  (∀ l, at_level v (lexer_depth l) → wp m (fun x l' => quiet l l' ∧ P x) l) → lspec v k m P.
Proof.
  intros Hm l Hl Hd. eapply wp_weaken; [by apply Hm|]. intros x l' [H1 H2]. split; [|done].
  apply (grows_trans 0 0 k l l' l'); [by apply quiet_grows| |lia].
  apply grows_refl, (grows_ok 0 l). by apply quiet_grows.
Qed.

(** A failure that names the line the lexer is on. *)
Lemma lspec_fail_here (k : nat) (e : LexError) (P : A → Prop) : lspec v k (fail_here e) P.
Proof. by intros l _ _. Qed.

End Rules.

Lemma lspec_unit (v : Z) (a k : nat) (m : lex unit) :
  (a ≤ k)%nat → (∀ l, lex_ok l = true → wp m (fun _ l' => grows a l l') l) →
  lspec v k m (fun _ => True).
Proof.
  intros Hk Hm. apply (lspec_mono v a k m (fun _ => True)); [|done|done].
  intros l Hl _. eapply wp_weaken; [by apply Hm|]. done.
Qed.

Lemma lspec_modify_quiet (v : Z) (k : nat) (f : Lexer → Lexer) :
  (∀ l, quiet l (f l)) → lspec v k (modify f) (fun _ => True).
Proof. intros Hf. apply lspec_quiet. intros l _. by split. Qed.

(** The shapes of a body: sequences, tests, and the methods with a lemma. *)
Ltac lspec_case :=
  match goal with
  | |- lspec _ _ (if ?b then _ else _) _ => destruct b eqn:?
  | |- lspec _ _ (match ?x with _ => _ end) _ => destruct x eqn:?
  | |- lspec _ _ (fail_here _) _ => apply lspec_fail_here
  | |- lspec _ _ (throw (lexical _ _)) _ => apply lspec_throw
  | |- lspec _ _ (throw (refused _ _)) _ => apply lspec_throw
  | |- lspec _ _ (fun l => throw _ l) _ => by intros ? ? ?
  end.

Section Methods.

Context (v : Z).

Lemma lspec_finish_word (k : nat) : lspec v k finish_word (fun _ => True).
Proof. apply (lspec_unit v 0); [lia|]. auto with dk. Qed.

Lemma lspec_push (t : TokenKind) : token_wf (mkToken t 0 0) = true → lspec v 1 (push t) (fun _ => True).
Proof. intros Ht. apply (lspec_unit v 1); [lia|]. auto with dk. Qed.

Lemma lspec_push_literal (c : Z) : lspec v 1 (push_literal c) (fun _ => True).
Proof. apply (lspec_unit v 1); [lia|]. auto with dk. Qed.

Lemma lspec_push_part (p : WordPart) : part_ok p = true → lspec v 1 (push_part p) (fun _ => True).
Proof. intros Hp. apply (lspec_unit v 1); [lia|]. auto with dk. Qed.

Lemma lspec_peek_char (k : nat) : lspec v k peek_char (fun _ => True).
Proof. apply lspec_gets. Qed.

Lemma lspec_skip_char (k : nat) : lspec v k skip_char (fun _ => True).
Proof. apply lspec_modify_quiet, quiet_skip. Qed.

Lemma lspec_skip_if (k : nat) (c : Z) : lspec v k (skip_if c) (fun _ => True).
Proof. apply lspec_quiet. intros l _. eapply wp_weaken; [apply wp_skip_if|]. done. Qed.

Lemma lspec_bump_line (k : nat) : lspec v k bump_line (fun _ => True).
Proof. apply lspec_quiet. intros l _. eapply wp_weaken; [apply wp_bump_line|]. done. Qed.

Lemma lspec_read_while (k : nat) (p : Z → bool) : lspec v k (read_while p) (fun _ => True).
Proof. apply lspec_quiet. intros l _. eapply wp_weaken; [apply wp_read_while|]. done. Qed.

Lemma lspec_skip_comment : lspec v 0 skip_comment (fun _ => True).
Proof. apply (lspec_bind v 0 0 0 _ _ (fun _ => True)); [lia|apply lspec_read_while|]. intros. by apply lspec_ret. Qed.

(** Reading the character after [\] pays for the part it becomes. *)
Lemma lspec_read_escape : lspec v 0 read_escape (fun _ => True).
Proof.
  intros l Hl Hd. unfold read_escape. apply wp_then, wp_next_char; [done|].
  intros [i c] rest E.
  assert (Hg : grows 0 l (set_chars rest l)).
  { apply quiet_grows, quiet_chars; [done|]. rewrite E. simpl. lia. }
  destruct (c =? newline).
  - eapply wp_weaken; [apply (lspec_bump_line 0); [by apply (grows_ok _ _ _ Hg)|done]|].
    intros _ l' [H _]. split; [|done]. by apply (grows_trans 0 0 0 _ _ _ Hg H).
  - eapply wp_weaken; [apply (lspec_push_part (SingleQuoted _)); [done|by apply (grows_ok _ _ _ Hg)|done]|].
    intros _ l' [(H1 & H2 & H3 & H4) _]. split; [|done]. split; [done|].
    unfold phi in *. rewrite E. simpl in *. split; [lia|split; [lia|done]].
Qed.

Lemma lspec_read_single_quoted : lspec v 1 read_single_quoted (fun _ => True).
Proof.
  apply (lspec_bind v 0 1 1 _ _ (fun _ => True)); [lia|apply lspec_gets|]. intros opened _.
  apply (lspec_bind v 0 1 1 _ _ (fun _ => True)); [lia| |].
  { apply lspec_quiet. intros l _. unfold wp.
    pose proof (take_quoted_shorter (ch "'") (chars_left l)) as H.
    destruct (take_quoted _ _) as [[[text lines] after] closed]. split; [|done]. by apply quiet_line. }
  intros [text closed] _. destruct closed; [by apply lspec_push_part|apply lspec_throw].
Qed.

(** *** Here-documents *)

Lemma here_doc_delimiter_ok (fuel : nat) (at_line : Z) (cs : list (Z * Z)) (d : str) (q : bool) :
  (length cs ≤ fuel)%nat →
  let '(r, after) := here_doc_delimiter fuel at_line cs d q in
  (length after ≤ length cs)%nat ∧ r ≠ Err OutOfFuel.
Proof.
  revert cs d q. induction fuel as [|fuel IH]; intros cs d q Hf.
  { destruct cs as [|[? ?]]; simpl in *; [done|lia]. }
  destruct cs as [|[i c] rest]; simpl in *; [done|].
  destruct (_ || _).
  { pose proof (take_quoted_shorter c rest) as H.
    destruct (take_quoted c rest) as [[[text lines] after] closed].
    destruct (closed && _); [|split; [lia|done]].
    specialize (IH after (d ++ text) true ltac:(lia)).
    destruct (here_doc_delimiter _ _ _ _ _) as [r after']. destruct IH. split; [lia|done]. }
  destruct (c =? ch "\").
  { destruct rest as [|[? e] rest]; [simpl; split; [lia|done]|].
    destruct (e =? newline); [simpl; split; [lia|done]|].
    specialize (IH rest (d ++ encode_utf8 e) true ltac:(simpl in *; lia)).
    destruct (here_doc_delimiter _ _ _ _ _) as [r after']. destruct IH. simpl. split; [lia|done]. }
  destruct (_ || _); [|split; [simpl; lia|done]].
  specialize (IH rest (d ++ encode_utf8 c) q ltac:(lia)).
  destruct (here_doc_delimiter _ _ _ _ _) as [r after']. destruct IH. split; [lia|done].
Qed.

Lemma lspec_read_here_doc_delimiter : lspec v 0 read_here_doc_delimiter (fun _ => True).
Proof.
  apply (lspec_bind v 0 0 0 _ _ (fun _ => True)); [lia|apply lspec_gets|]. intros at_line _.
  apply (lspec_bind v 0 0 0 _ _ (fun _ => True)); [lia| |].
  { apply lspec_quiet. intros l _. unfold wp.
    pose proof (here_doc_delimiter_ok _ at_line (chars_left l) [] false (le_n _)) as H.
    destruct (here_doc_delimiter _ _ _ _ _) as [[r|[e|]] after]; destruct H; [|done|done].
    split; [|done]. by apply quiet_chars. }
  intros [d q] _. destruct (is_nil d); [apply lspec_throw|by apply lspec_ret].
Qed.

Lemma lspec_read_here_doc_header : lspec v 1 read_here_doc_header (fun _ => True).
Proof.
  apply (lspec_bind v 0 1 1 _ _ (fun _ => True)); [lia|apply lspec_gets|]. intros next _.
  destruct (is_char next _); [by intros l _ _|].
  apply (lspec_bind v 0 1 1 _ _ (fun _ => True)); [lia|apply lspec_skip_if|]. intros strip _.
  apply (lspec_bind v 0 1 1 _ _ (fun _ => True)); [lia|apply lspec_read_while|]. intros _ _.
  apply (lspec_bind v 0 1 1 _ _ (fun _ => True)); [lia|apply lspec_read_here_doc_delimiter|].
  intros [d e] _ l Hl Hd. unfold wp, modify, grows, phi, lex_ok in *. simpl.
  apply andb_prop in Hl as [Hp Ht]. rewrite forallb_snoc, length_app, Hp, Ht. simpl.
  repeat split; lia.
Qed.

Lemma wp_here_doc_body (fuel : nat) (spec : PendingHereDoc) (body : str) (l : Lexer) :
  (length (chars_left l) < fuel)%nat → wp (here_doc_body fuel spec body) (fun _ l' => quiet l l') l.
Proof.
  revert body l. induction fuel as [|fuel IH]; intros body l Hf; [lia|]. simpl.
  apply wp_then. unfold wp at 1.
  pose proof (take_line_shorter (chars_left l)) as H.
  destruct (take_line (chars_left l)) as [[text terminated] after]. destruct H as [H1 H2].
  set (l1 := (if terminated : bool then _ else _) _).
  assert (Hq : quiet l l1) by (unfold l1; destruct terminated; [by apply quiet_line|by apply quiet_chars]).
  destruct (str_eqb _ _); [done|]. destruct terminated; simpl; [|done].
  eapply wp_weaken; [apply IH|]; [specialize (H2 eq_refl); simpl; lia|].
  intros ? l' Hq'. by apply (quiet_trans _ _ _ Hq).
Qed.

Lemma lspec_read_here_doc_body (spec : PendingHereDoc) : lspec v 0 (read_here_doc_body spec) (fun _ => True).
Proof.
  apply lspec_quiet. intros l _. unfold read_here_doc_body.
  eapply wp_weaken; [apply wp_here_doc_body; lia|]. done.
Qed.

(** *** Operators *)

Lemma lspec_read_duplication (s : Stream) : lspec v 1 (read_duplication s) (fun _ => True).
Proof.
  apply (lspec_bind v 0 1 1 _ _ (fun _ => True)); [lia|apply lspec_peek_char|]. intros next _. simpl.
  destruct (if is_char next _ then _ else _); [|by intros l _ _].
  apply (lspec_bind v 0 1 1 _ _ (fun _ => True)); [lia|apply lspec_skip_char|]. intros _ _.
  apply (lspec_bind v 0 1 1 _ _ (fun _ => True)); [lia|apply lspec_peek_char|]. intros after _.
  destruct (is_some_and _ _); [by intros l _ _|by apply lspec_push].
Qed.

Lemma lspec_descriptor_source (c : Z) : lspec v 0 (descriptor_source c) (fun _ => True).
Proof.
  apply (lspec_bind v 0 0 0 _ _ (fun _ => True)); [lia|apply lspec_gets|]. intros digits _.
  destruct (_ && digits).
  - apply (lspec_bind v 0 0 0 _ _ (fun _ => True)); [lia|apply lspec_gets|]. intros text _. simpl.
    destruct (if str_eqb text _ then _ else _); [|apply lspec_fail_here].
    apply (lspec_bind v 0 0 0 _ _ (fun _ => True)); [lia| |intros; by apply lspec_ret].
    intros l Hl Hd. unfold wp, modify, grows, phi, lex_ok in *. simpl.
    destruct (word_started l); repeat split; done || lia.
  - destruct (_ && digits); [apply lspec_fail_here|by apply lspec_ret].
Qed.

Lemma lspec_skip_push (t : TokenKind) :
  token_wf (mkToken t 0 0) = true → lspec v 1 (do! skip_char in push t) (fun _ => True).
Proof.
  intros Ht. apply (lspec_bind v 0 1 1 _ _ (fun _ => True)); [lia|apply lspec_skip_char|].
  intros _ _. by apply lspec_push.
Qed.

Lemma lspec_read_operator (c : Z) : lspec v 1 (read_operator c) (fun _ => True).
Proof.
  apply (lspec_bind v 0 1 1 _ _ (fun _ => True)); [lia|apply lspec_descriptor_source|]. intros s _.
  apply (lspec_bind v 0 1 1 _ _ (fun _ => True)); [lia|apply lspec_finish_word|]. intros _ _.
  apply (lspec_bind v 0 1 1 _ _ (fun _ => True)); [lia|apply lspec_peek_char|]. intros next _. cbv zeta.
  assert (Hskip : ∀ (B : Type) (m : lex B) (R : B → Prop), lspec v 1 m R → lspec v 1 (do! skip_char in m) R).
  { intros B m R Hm. apply (lspec_bind v 0 1 1 _ _ (fun _ => True)); [lia|apply lspec_skip_char|]. auto. }
  repeat lspec_case; try (by apply lspec_push); try (by apply Hskip, lspec_push); try apply Hskip.
  - apply lspec_read_duplication.
  - apply (lspec_bind v 0 1 1 _ _ (fun _ => True)); [lia|apply lspec_peek_char|]. intros second _.
    destruct (is_char second _); [apply lspec_fail_here|].
    apply (lspec_bind v 0 1 1 _ _ (fun _ => True)); [lia|apply lspec_skip_if|]. intros append _.
    by apply lspec_push.
  - apply (lspec_bind v 0 1 1 _ _ (fun _ => True)); [lia|apply lspec_peek_char|]. intros second _.
    destruct (is_char second _); [apply lspec_fail_here|by apply lspec_push].
  - apply lspec_read_here_doc_header.
  - apply (lspec_bind v 0 1 1 _ _ (fun _ => True)); [lia| |intros _ _; by apply lspec_push].
    intros l Hl _. unfold wp, modify. split; [|done].
    destruct (negb (is_nil (pending_here_docs l)) && _); [|by apply grows_refl]. unfold grows, phi, lex_ok in *. simpl. repeat split; done || lia.
Qed.

End Methods.

(** ** Methods that meet a [$] *)

Definition option_ok {A : Type} (p : A → bool) (o : option A) : bool :=
  match o with Some x => p x | None => true end.

(** What [read_dollar_part] promises the lexers whose nesting is [v]. *)
Definition dollar_ok (v : Z) (dollar : Z → Enclosure → lex (option WordPart)) : Prop :=
  ∀ index enclosure l, at_level v (lexer_depth l) →
  wp (dollar index enclosure) (fun r l' => quiet l l' ∧ option_ok part_ok r = true) l.

Section WithDollar.

Context (v : Z) (dollar : Z → Enclosure → lex (option WordPart)) (Hdollar : dollar_ok v dollar).

Lemma add_literal_ok (text : str) (ps : list WordPart) :
  forallb part_ok ps = true → forallb part_ok (add_literal text ps) = true.
Proof.
  intros Hps. unfold add_literal. destruct (is_nil text) eqn:E; [done|].
  rewrite forallb_snoc, Hps. simpl. by rewrite E.
Qed.

Lemma quiet_next (c : Z * Z) (rest : list (Z * Z)) (l : Lexer) :
  chars_left l = c :: rest → quiet l (set_chars rest l).
Proof. intros E. apply quiet_chars. rewrite E. simpl. lia. Qed.

Lemma wp_interpolated_loop (fuel : nat) (terminator : option Z) (e : LexError) (opened : Z)
    (ps : list WordPart) (text : str) (l : Lexer) :
  (length (chars_left l) < fuel)%nat → at_level v (lexer_depth l) → forallb part_ok ps = true →
  wp (interpolated_loop dollar fuel terminator e opened ps text)
    (fun r l' => quiet l l' ∧ forallb part_ok r = true) l.
Proof.
  revert ps text l. induction fuel as [|fuel IH]; intros ps text l Hf Hd Hps; [lia|]. simpl.
  set (ended := match terminator with Some _ => _ | None => _ end).
  assert (Hend : ∀ text l1, quiet l l1 →
    wp (ended text) (fun r l' => quiet l l' ∧ forallb part_ok r = true) l1).
  { intros t l1 Hq. unfold ended. destruct terminator; [done|]. split; [done|]. by apply add_literal_ok. }
  assert (Hagain : ∀ l1 ps text, quiet l l1 → (length (chars_left l1) < length (chars_left l))%nat →
    forallb part_ok ps = true →
    wp (interpolated_loop dollar fuel terminator e opened ps text)
      (fun r l' => quiet l l' ∧ forallb part_ok r = true) l1).
  { intros l1 ps' text' Hq Hlt Hps'. eapply wp_weaken; [apply IH; [lia| |done]|].
    - by destruct Hq as (_ & _ & _ & _ & _ & -> & _).
    - intros r l' [Hq' ?]. split; [by apply (quiet_trans _ l1)|done]. }
  apply wp_then, wp_next_char; [intros _; by apply Hend|].
  intros [index c] rest E. pose proof (quiet_next _ _ _ E) as Hq.
  assert (Hlt : (length rest < length (chars_left l))%nat) by (rewrite E; simpl; lia).
  destruct (is_char terminator c); [split; [done|by apply add_literal_ok]|].
  destruct (c =? ch "\").
  { apply wp_then, wp_next_char; [intros _; by apply Hend|]. simpl. intros [i2 c2] rest2 E2.
    assert (Hq2 : quiet l (set_chars rest2 (set_chars rest l)))
      by (apply (quiet_trans _ _ _ Hq), (quiet_next (i2, c2)); done).
    assert (Hlt2 : (length rest2 < length (chars_left l))%nat) by (rewrite E, E2; simpl; lia).
    destruct (escapable _ c2); [by apply Hagain|].
    destruct (c2 =? newline); [|by apply Hagain].
    apply wp_then. eapply wp_weaken; [apply wp_bump_line|]. intros [] l3 Hq3.
    apply Hagain; [by apply (quiet_trans _ _ _ Hq2)| |done].
    destruct Hq3 as [H3 _]. simpl in H3. lia. }
  destruct (c =? ch "$").
  { apply wp_then. eapply wp_weaken; [by apply Hdollar|]. intros part l1 [Hq1 Hp].
    assert (Hlt1 : (length (chars_left l1) < length (chars_left l))%nat) by (destruct Hq1; simpl in *; lia).
    destruct part as [part|]; (apply Hagain; [by apply (quiet_trans _ _ _ Hq)|done|]); [|done].
    rewrite forallb_snoc. simpl in Hp. by rewrite Hp, add_literal_ok. }
  destruct (c =? ch "`"); [done|].
  apply wp_then. destruct (c =? newline).
  - eapply wp_weaken; [apply wp_bump_line|]. intros [] l1 Hq1.
    apply Hagain; [by apply (quiet_trans _ _ _ Hq)| |done]. destruct Hq1; simpl in *; lia.
  - apply wp_ret. by apply Hagain.
Qed.

Lemma wp_read_interpolated (terminator : option Z) (e : LexError) (l : Lexer) :
  at_level v (lexer_depth l) →
  wp (read_interpolated dollar terminator e) (fun r l' => quiet l l' ∧ forallb part_ok r = true) l.
Proof. intros Hd. unfold read_interpolated. apply wp_interpolated_loop; [lia|done|done]. Qed.

Lemma lspec_read_double_quoted : lspec v 1 (read_double_quoted dollar) (fun _ => True).
Proof.
  apply (lspec_bind v 0 1 1 _ _ (fun ps => forallb part_ok ps = true)); [lia| |].
  - apply lspec_quiet. apply wp_read_interpolated.
  - intros ps Hps. by apply lspec_push_part.
Qed.

Lemma lspec_here_doc_parts (spec : PendingHereDoc) (body : str) (body_line : Z) :
  lspec v 0 (here_doc_parts dollar spec body body_line) (fun ps => forallb part_ok ps = true).
Proof.
  unfold here_doc_parts. destruct (expand spec).
  - apply lspec_quiet. intros l Hd. unfold wp, interpolate_here_doc_body.
    pose proof (eval_wp (read_interpolated dollar None UnterminatedHereBody)
      (fun ps => forallb part_ok ps = true) (new_lexer (removelast body) (lexer_depth l) body_line)) as H.
    destruct (eval _ _) as [ps|[e|]].
    + split; [apply quiet_refl|]. apply H. eapply wp_weaken; [by apply wp_read_interpolated|]. by intros ? ? [_ ?].
    + done.
    + apply H. eapply wp_weaken; [by apply wp_read_interpolated|]. by intros ? ? [_ ?].
  - apply lspec_ret. by destruct (removelast body).
Qed.

Lemma forallb_alter {A : Type} (p : A → bool) (f : A → A) (i : nat) (l : list A) :
  forallb p l = true → (∀ x, p (f x) = true) → forallb p (alter f i l) = true.
Proof.
  intros Hl Hf. revert i. induction l as [|x l IH]; intros i; [done|].
  simpl in Hl. apply andb_prop in Hl as [Hx Hl].
  destruct i; simpl; [by rewrite Hf, Hl|]. rewrite Hx. simpl. by apply IH.
Qed.

Lemma lspec_read_here_docs (pending : list PendingHereDoc) :
  lspec v 0 (read_here_docs dollar pending) (fun _ => True).
Proof.
  induction pending as [|spec pending IH]; simpl; [by apply lspec_ret|].
  apply (lspec_bind v 0 0 0 _ _ (fun _ => True)); [lia|apply lspec_gets|]. intros body_line _.
  apply (lspec_bind v 0 0 0 _ _ (fun _ => True)); [lia|apply lspec_read_here_doc_body|]. intros body _.
  apply (lspec_bind v 0 0 0 _ _ (fun ps => forallb part_ok ps = true)); [lia|apply lspec_here_doc_parts|].
  intros ps Hps. apply (lspec_bind v 0 0 0 _ _ (fun _ => True)); [lia| |done].
  intros l Hl _. unfold wp, set_here_doc, modify, grows, phi, lex_ok in *. simpl.
  apply andb_prop in Hl as [Hp Ht]. rewrite Hp, length_alter, forallb_alter by done.
  repeat split; lia.
Qed.

Lemma lspec_read_dollar (index : Z) (enclosure : Enclosure) :
  lspec v 1 (read_dollar dollar index enclosure) (fun _ => True).
Proof.
  apply (lspec_bind v 0 1 1 _ _ (fun r => option_ok part_ok r = true)); [lia| |].
  - apply lspec_quiet. intros l Hd. by apply Hdollar.
  - intros [part|] Hp; [by apply lspec_push_part|apply lspec_push_literal].
Qed.

Lemma lspec_lex_character (index c : Z) : lspec v 1 (lex_character dollar index c) (fun _ => True).
Proof.
  apply (lspec_bind v 0 1 1 _ _ (fun _ => True)); [lia|apply lspec_gets|]. intros started _.
  apply (lspec_bind v 0 1 1 _ _ (fun _ => True)); [lia|apply lspec_gets|]. intros reserved _.
  destruct (c =? newline).
  { apply (lspec_bind v 0 1 1 _ _ (fun _ => True)); [lia|apply lspec_finish_word|]. intros _ _.
    apply (lspec_bind v 1 0 1 _ _ (fun _ => True)); [lia|by apply lspec_push|]. intros _ _.
    apply (lspec_bind v 0 0 0 _ _ (fun _ => True)); [lia|apply lspec_bump_line|]. intros _ _.
    apply (lspec_bind v 0 0 0 _ _ (fun _ => True)); [lia|apply lspec_gets|]. intros pending _.
    apply (lspec_bind v 0 0 0 _ _ (fun _ => True)); [lia| |intros _ _; apply lspec_read_here_docs].
    intros l Hl _. unfold wp, modify, grows, phi, lex_ok in *. simpl. repeat split; done || lia. }
  destruct (_ || _); [apply (lspec_mono v 0 1 _ (fun _ => True)); [apply lspec_finish_word|lia|done]|].
  destruct (_ && negb started); [apply (lspec_mono v 0 1 _ (fun _ => True)); [apply lspec_skip_comment|lia|done]|].
  destruct (c =? ch "\"); [apply (lspec_mono v 0 1 _ (fun _ => True)); [apply lspec_read_escape|lia|done]|].
  destruct (c =? ch "'"); [apply lspec_read_single_quoted|].
  destruct (c =? double_quote); [apply lspec_read_double_quoted|].
  destruct (c =? ch "$"); [apply lspec_read_dollar|].
  destruct (c =? ch "`"); [apply lspec_fail_here|].
  destruct (is_operator c); [apply lspec_read_operator|].
  destruct (_ && reserved); [|apply lspec_push_literal].
  apply (lspec_bind v 0 1 1 _ _ (fun _ => True)); [lia|apply lspec_finish_word|]. intros _ _.
  apply lspec_push. by destruct (c =? ch "{").
Qed.

(** *** Tokens *)

(** A token came, or the source has ended. *)
Definition gives_token (l : Lexer) (r : option Token) (l' : Lexer) : Prop :=
  lex_ok l' = true ∧ (length (chars_left l') ≤ length (chars_left l))%nat ∧
  lexer_depth l' = lexer_depth l ∧ option_ok token_wf r = true ∧
  (phi l' + (if bool_decide (is_Some r) then 1 else 0) ≤ phi l)%nat.

Lemma wp_pop_front (l0 l : Lexer) : grows 0 l0 l → wp pop_front (gives_token l0) l.
Proof.
  intros (Hl & Hc & Hp & Hd). unfold wp, pop_front, gives_token. destruct (tokens l) as [|t ts] eqn:E.
  - repeat split; try done. simpl. lia.
  - unfold lex_ok, phi in *. rewrite E in *. simpl in *. dk_bool. destruct Hl as [? [? ?]].
    repeat split; try done; lia || (by apply andb_true_intro).
Qed.

Lemma wp_next_token_loop (fuel : nat) (l0 l : Lexer) :
  (length (chars_left l) < fuel)%nat → grows 0 l0 l → at_level v (lexer_depth l) →
  wp (next_token_loop dollar fuel) (gives_token l0) l.
Proof.
  revert l. induction fuel as [|fuel IH]; intros l Hf Hg Hd; [lia|]. simpl.
  apply wp_then, wp_next_char.
  - intros _. apply wp_then. eapply wp_weaken; [apply wp_finish_word, (grows_ok _ _ _ Hg)|].
    intros [] l1 H1. apply wp_then, wp_gets. destruct (pending_here_docs l1); [|done].
    apply wp_pop_front. by apply (grows_trans 0 0 0 _ _ _ Hg H1).
  - intros [index c] rest E. apply wp_then, wp_update.
    set (l1 := set_token_offset index (set_chars rest l)).
    assert (Hl1 : lex_ok l1 = true) by apply (grows_ok _ _ _ Hg).
    apply wp_then. eapply wp_weaken; [by apply (lspec_lex_character index c)|].
    intros _ l2 [(H1 & H2 & H3 & H4) _]. apply wp_then, wp_gets.
    assert (Hg2 : grows 0 l0 l2).
    { destruct Hg as (G1 & G2 & G3 & G4). unfold grows, phi in *. rewrite E in *. simpl in *.
      repeat split; [done|lia|lia|congruence]. }
    destruct (token_ready l2); [by apply wp_pop_front|].
    apply IH; [|done|by rewrite H4]. simpl in H2. rewrite E in Hf. simpl in Hf. lia.
Qed.

Lemma wp_next_token (l : Lexer) :
  lex_ok l = true → at_level v (lexer_depth l) → wp (next_token dollar) (gives_token l) l.
Proof.
  intros Hl Hd. unfold next_token, wp. destruct (token_ready l).
  - apply wp_pop_front. by apply grows_refl.
  - apply wp_next_token_loop; [lia|by apply grows_refl|done].
Qed.

Lemma wp_run_loop (fuel : nat) (acc : list Token) (l : Lexer) :
  (phi l < fuel)%nat → lex_ok l = true → at_level v (lexer_depth l) → forallb token_wf acc = true →
  wp (run_loop dollar fuel acc) (fun r _ => forallb token_wf r = true) l.
Proof.
  revert acc l. induction fuel as [|fuel IH]; intros acc l Hf Hl Hd Hacc; [lia|]. simpl.
  apply wp_then. eapply wp_weaken; [by apply wp_next_token|].
  intros [t|] l1 (H1 & _ & H2 & H3 & H4); [|done]. simpl in *.
  apply IH; [lia|done|congruence|]. by rewrite forallb_snoc, Hacc.
Qed.

Lemma run_tokens_ok (l : Lexer) :
  lex_ok l = true → at_level v (lexer_depth l) →
  match run dollar l with
  | Ok ts => forallb token_wf ts = true
  | Err (Error _) => True
  | Err OutOfFuel => False
  end.
Proof.
  intros Hl Hd. unfold run. apply eval_wp, wp_run_loop; try done.
  unfold phi. destruct (word_started l); lia.
Qed.

(** *** Words of parameters *)

Lemma lspec_parameter_escape : lspec v 1 read_double_quoted_parameter_escape (fun _ => True).
Proof.
  intros l Hl Hd. unfold read_double_quoted_parameter_escape. apply wp_then, wp_next_char; [done|].
  intros [i c] rest E.
  assert (Hg : grows 0 l (set_chars rest l)) by (apply quiet_grows; [done|by apply (quiet_next (i, c))]).
  assert (Hok := grows_ok _ _ _ Hg).
  assert (Hk : ∀ k (m : lex unit), lspec v k m (fun _ => True) → (k ≤ 2)%nat →
    wp m (fun x l' => grows 1 l l' ∧ True) (set_chars rest l)).
  { intros k m Hm Hle. eapply wp_weaken; [by apply Hm|]. intros x l' [(H1 & H2 & H3 & H4) _].
    split; [|done]. unfold grows, phi in *. rewrite E. simpl in *. repeat split; done || lia. }
  destruct (c =? newline); [apply (Hk 0%nat); [apply lspec_bump_line|lia]|].
  destruct (existsb _ _); [apply (Hk 1%nat); [apply lspec_push_literal|lia]|].
  apply (Hk 2%nat); [|lia].
  apply (lspec_bind v 1 1 2 _ _ (fun _ => True)); [lia|apply lspec_push_literal|]. intros _ _.
  apply lspec_push_literal.
Qed.

(** What is left of a lexer's promises when its tokens do not matter. *)
Definition reads_on (l l' : Lexer) : Prop :=
  lex_ok l' = true ∧ (length (chars_left l') ≤ length (chars_left l))%nat ∧ at_level v (lexer_depth l').

Lemma lspec_reads_on {A : Type} (k : nat) (m : lex A) (P : A → Prop) (l : Lexer) :
  lspec v k m P → lex_ok l = true → at_level v (lexer_depth l) →
  wp m (fun x l' => reads_on l l' ∧ P x) l.
Proof.
  intros Hm Hl Hd. eapply wp_weaken; [by apply Hm|]. intros x l' [(H1 & H2 & H3 & H4) HP].
  split; [|done]. split; [done|split; [done|by rewrite H4]].
Qed.

Ltac reads_on_tac := split; [assumption|split; [lia|assumption]].

(** A turn of a loop: it takes the next character, does something with it, and
    goes on with the characters that are left. *)
Lemma wp_turn {A B : Type} (k : nat) (m : lex A) (f : A → lex B) (P : A → Prop) (Q : B → Lexer → Prop)
    (l : Lexer) (c : Z * Z) (rest : list (Z * Z)) :
  chars_left l = c :: rest → lex_ok l = true → at_level v (lexer_depth l) → lspec v k m P →
  (∀ x l', reads_on l l' → (length (chars_left l') < length (chars_left l))%nat → P x → wp (f x) Q l') →
  wp (bind m f) Q (set_chars rest l).
Proof.
  intros E Hl Hd Hm Hf. apply wp_then. eapply wp_weaken; [by apply (lspec_reads_on k m P)|].
  intros x l' [(H1 & H2 & H3) HP]. simpl in H2.
  assert (length (chars_left l') < length (chars_left l))%nat by (rewrite E; simpl; lia).
  apply Hf; [by reads_on_tac|done|done].
Qed.

Lemma wp_parameter_quote_loop (fuel : nat) (opened : Z) (l0 l : Lexer) :
  (length (chars_left l) < fuel)%nat → reads_on l0 l →
  wp (parameter_quote_loop dollar fuel opened) (fun _ l' => reads_on l0 l') l.
Proof.
  revert l. induction fuel as [|fuel IH]; intros l Hf (Hl & Hc & Hd); [lia|]. simpl.
  apply wp_then, wp_next_char; [done|]. intros [index c] rest E. apply wp_then, wp_gets.
  destruct (c =? ch "'").
  { eapply wp_weaken; [by apply (lspec_reads_on 1 _ (fun _ => True)); [apply lspec_push_literal|..]|].
    intros _ l' [(H1 & H2 & H3) _]. simpl in H2. rewrite E in Hc. simpl in Hc.
    by reads_on_tac. }
  apply (wp_turn 1 _ _ (fun _ => True) _ l (index, c) rest); try done.
  - destruct (c =? ch "\").
    { destruct (is_char _ _); [apply lspec_push_literal|apply lspec_parameter_escape]. }
    destruct (c =? double_quote); [apply lspec_read_double_quoted|].
    destruct (c =? ch "$"); [apply lspec_read_dollar|].
    destruct (c =? ch "`"); [apply lspec_fail_here|].
    apply (lspec_bind v 0 1 1 _ _ (fun _ => True)); [lia| |intros _ _; apply lspec_push_literal].
    destruct (c =? newline); [apply lspec_bump_line|by apply lspec_ret].
  - intros [] l' (H1 & H2 & H3) Hlt _. apply IH; [lia|]. by reads_on_tac.
Qed.

Lemma wp_parameter_quote (l : Lexer) :
  lex_ok l = true → at_level v (lexer_depth l) →
  wp (read_double_quoted_parameter_quote dollar) (fun _ l' => reads_on l l') l.
Proof.
  intros Hl Hd. unfold read_double_quoted_parameter_quote. apply wp_then, wp_gets, wp_then.
  eapply wp_weaken; [by apply (lspec_reads_on 1 _ (fun _ => True)); [apply lspec_push_literal|..]|].
  intros _ l1 [H1 _]. apply wp_parameter_quote_loop; [lia|done].
Qed.

(** A turn that goes on whatever it did: what the loop of a parameter's word
    does with a character, in three shapes. *)
Lemma wp_parameter_word_loop (fuel : nat) (at_line : Z) (terminators : list Z) (enclosure : Enclosure)
    (braces : Z) (l0 l : Lexer) :
  (length (chars_left l) < fuel)%nat → reads_on l0 l →
  wp (parameter_word_loop dollar fuel at_line terminators enclosure braces)
    (fun r l' => reads_on l0 l' ∧ word_ok r.1 = true) l.
Proof.
  revert braces l. induction fuel as [|fuel IH]; intros braces l Hf (Hl & Hc & Hd); [lia|]. simpl.
  apply wp_then, wp_next_char; [done|]. intros [index c] rest E.
  assert (Hc' : (length rest ≤ length (chars_left l0))%nat) by (rewrite E in Hc; simpl in Hc; lia).
  assert (Hturn : ∀ k (m : lex unit) braces', lspec v k m (fun _ => True) →
    wp (do! m in parameter_word_loop dollar fuel at_line terminators enclosure braces')
      (fun r l' => reads_on l0 l' ∧ word_ok r.1 = true) (set_chars rest l)).
  { intros k m braces' Hm. apply (wp_turn k _ _ (fun _ => True) _ l (index, c) rest); try done.
    intros [] l' (H1 & H2 & H3) Hlt _. apply IH; [lia|]. by reads_on_tac. }
  destruct (_ && existsb _ _).
  { apply wp_then, wp_update. apply wp_then, wp_gets. apply wp_then, wp_update. split.
    - destruct (flushed_fields (set_chars rest l)) as (H1 & _ & _ & H4).
      assert (Hf' : lex_ok (flushed (set_chars rest l)) = true) by (by apply flushed_ok).
      unfold lex_ok in Hf'. apply andb_prop in Hf' as [_ Ht].
      unfold reads_on, lex_ok. simpl. rewrite H1, H4. simpl. by reads_on_tac.
    - assert (Hf' : lex_ok (flushed (set_chars rest l)) = true) by (by apply flushed_ok).
      unfold lex_ok in Hf'. by apply andb_prop in Hf' as [? _]. }
  destruct (c =? ch "'").
  { destruct enclosure; [apply (Hturn 1%nat), lspec_read_single_quoted|].
    apply wp_then. eapply wp_weaken; [by apply wp_parameter_quote|].
    intros [] l' (H1 & H2 & H3). simpl in H2. rewrite E in Hf. simpl in Hf.
    apply IH; [lia|]. by reads_on_tac. }
  destruct (c =? double_quote); [apply (Hturn 1%nat), lspec_read_double_quoted|].
  destruct (c =? ch "\").
  { destruct enclosure; [apply (Hturn 0%nat), lspec_read_escape|apply (Hturn 1%nat), lspec_parameter_escape]. }
  destruct (c =? ch "$"); [apply (Hturn 1%nat), lspec_read_dollar|].
  destruct (c =? ch "`"); [done|].
  destruct (is_operator c).
  { apply wp_then. eapply wp_weaken; [by apply (lspec_read_operator v c)|]. intros [] l' _. done. }
  apply wp_then. apply (wp_weaken _ _ (fun _ l' => quiet (set_chars rest l) l')).
  { destruct (c =? newline); [apply wp_bump_line|apply wp_ret, quiet_refl]. }
  intros [] l1 Hq1.
  assert (Hl1 : lex_ok l1 = true) by (apply (grows_ok 0 (set_chars rest l)); by apply quiet_grows).
  apply wp_then. eapply wp_weaken; [apply (lspec_push_literal v c); [done|]|].
  { by destruct Hq1 as (_ & _ & _ & _ & _ & -> & _). }
  intros [] l2 [(H1 & H2 & H3 & H4) _]. destruct Hq1 as (Q1 & _ & _ & _ & _ & Q2 & _). simpl in Q1, Q2.
  rewrite E in Hf. simpl in Hf.
  apply IH; [lia|]. split; [done|split; [lia|by rewrite H4, Q2]].
Qed.

Lemma wp_read_parameter_word (at_line : Z) (terminators : list Z) (enclosure : Enclosure) (l : Lexer) :
  lex_ok l = true → at_level v (lexer_depth l) →
  wp (read_parameter_word dollar at_line terminators enclosure)
    (fun r l' => reads_on l l' ∧ word_ok r.1 = true) l.
Proof.
  intros Hl Hd. unfold read_parameter_word. apply wp_parameter_word_loop; [lia|by reads_on_tac].
Qed.

End WithDollar.

(** ** Expansions *)

Lemma arith_okb_ok (e : ArithExpr) : arith_ok e → arith_okb e = true.
Proof.
  induction e as [n h|f h|s h|op x h IH|op l r h IHl IHr] using arith_expr_ind; simpl.
  - intros [-> ?]. dk_bool. lia.
  - intros ->. done.
  - intros (-> & Hne & ->). by destruct s.
  - intros (-> & ? & ?). rewrite IH by done. dk_bool. lia.
  - intros (-> & ? & ? & ?). rewrite IHl, IHr by done. dk_bool. lia.
Qed.

(** A method of the lexer at hand that only reads. *)
Definition qspec {A : Type} (v : Z) (m : lex A) (P : A → Prop) : Prop :=
  ∀ l, at_level v (lexer_depth l) → wp m (fun x l' => quiet l l' ∧ P x) l.

Section QuietRules.

Context {A B : Type} (v : Z).

Lemma qspec_ret (x : A) (P : A → Prop) : P x → qspec v (ret x) P.
Proof. intros HP l _. split; [apply quiet_refl|done]. Qed.

Lemma qspec_throw (e : ParseError) (P : A → Prop) : qspec v (throw (Error e)) P.
Proof. by intros l _. Qed.

Lemma qspec_bind (m : lex A) (f : A → lex B) (P : A → Prop) (R : B → Prop) :
  qspec v m P → (∀ x, P x → qspec v (f x) R) → qspec v (bind m f) R.
Proof.
  intros Hm Hf l Hd. apply wp_then. eapply wp_weaken; [by apply Hm|]. intros x l1 [Hq HP].
  eapply wp_weaken; [apply Hf; [done|]|].
  - by destruct Hq as (_ & _ & _ & _ & _ & -> & _).
  - intros y l2 [Hq2 HR]. split; [by apply (quiet_trans _ _ _ Hq)|done].
Qed.

Lemma qspec_gets (f : Lexer → A) : qspec v (gets f) (fun _ => True).
Proof. intros l _. split; [apply quiet_refl|done]. Qed.

Lemma qspec_of_result (r : result fault A) (P : A → Prop) :
  match r with Ok x => P x | Err (Error _) => True | Err OutOfFuel => False end →
  qspec v (of_result r) P.
Proof. intros Hr l _. apply wp_result. destruct r as [x|[]]; [|done|done]. split; [apply quiet_refl|done]. Qed.

Lemma qspec_wp (m : lex A) : (∀ l, wp m (fun _ l' => quiet l l') l) → qspec v m (fun _ => True).
Proof. intros Hm l _. eapply wp_weaken; [apply Hm|]. done. Qed.

End QuietRules.

Lemma qspec_skip_char (v : Z) : qspec v skip_char (fun _ => True).
Proof. apply qspec_wp. intros l. apply quiet_skip. Qed.

Lemma qspec_next_char (v : Z) : qspec v next_char (fun _ => True).
Proof.
  apply qspec_wp. intros l. apply wp_next_char; [intros _; apply quiet_refl|].
  intros c rest E. by apply (quiet_next c).
Qed.

(** A body whose steps only read. *)
Ltac qspec_step :=
  match goal with
  | |- qspec _ (throw (lexical _ _)) _ => apply qspec_throw
  | |- qspec _ (throw (refused _ _)) _ => apply qspec_throw
  | |- qspec _ (bind (gets _) _) _ => apply (qspec_bind _ _ _ (fun _ => True)); [apply qspec_gets|intros ? _]
  | |- qspec _ (bind peek_char _) _ => apply (qspec_bind _ _ _ (fun _ => True)); [apply qspec_gets|intros ? _]
  | |- qspec _ (bind skip_char _) _ =>
      apply (qspec_bind _ _ _ (fun _ => True)); [apply qspec_skip_char|intros ? _]
  | |- qspec _ (bind next_char _) _ =>
      apply (qspec_bind _ _ _ (fun _ => True)); [apply qspec_next_char|intros ? _]
  | |- qspec _ (bind (skip_if _) _) _ =>
      apply (qspec_bind _ _ _ (fun _ => True)); [apply qspec_wp, wp_skip_if|intros ? _]
  | |- qspec _ (bind (read_while _) _) _ =>
      apply (qspec_bind _ _ _ (fun _ => True)); [apply qspec_wp, wp_read_while|intros ? _]
  end.

Section Dollar.

Context (v : Z) (Hv : 0 ≤ v).
Context (dollar : Z → Enclosure → lex (option WordPart)).
Context (Hinner : ∀ v', v < v' ≤ 63 → dollar_ok v' dollar).
Context (parse_substitution : str → Depth → Z → result fault (Program * Z)).
Context (Hsub : ∀ source d line, at_level v d →
  match parse_substitution source d line with
  | Ok r => program_ok r.1 = true
  | Err (Error _) => True
  | Err OutOfFuel => False
  end).

Lemma qspec_parameter_lexer (src : str) (at_line : Z) :
  qspec v (parameter_lexer src at_line)
    (fun l' => lex_ok l' = true ∧ ∃ v', v < v' ≤ 63 ∧ at_level v' (lexer_depth l')).
Proof.
  intros l [Hd Hb]. unfold wp, parameter_lexer, depth_parameter, MAX_PARAMETER_NESTING.
  destruct (32 <=? _) eqn:E; simpl; [done|]. dk_bool. split; [apply quiet_refl|]. split; [done|].
  exists (v + 1). unfold at_level. simpl. lia.
Qed.

Lemma index_text_shorter (d : Z) (cs : list (Z * Z)) : (length (index_text d cs).2 ≤ length cs)%nat.
Proof.
  revert d. induction cs as [|[i c] cs IH]; intros d; simpl; [lia|].
  destruct (_ && _); [simpl; lia|]. destruct (c =? newline); [simpl; lia|].
  match goal with |- context [index_text ?d' cs] => specialize (IH d'); destruct (index_text d' cs) end.
  simpl in *. lia.
Qed.

Lemma words_of_ok (ts : list Token) : forallb token_wf ts = true → forallb word_ok (words_of ts) = true.
Proof.
  induction ts as [|t ts IH]; simpl; [done|]. intros H. apply andb_prop in H as [Ht Hts].
  unfold words_of in *. simpl. unfold token_wf in Ht. destruct (kind t); simpl; auto. by rewrite Ht, IH.
Qed.

Lemma qspec_read_index (at_line : Z) : qspec v (read_index dollar at_line) (fun i => index_ok i = true).
Proof.
  apply (qspec_bind v _ _ (fun _ => True)).
  { intros l _. unfold wp. pose proof (index_text_shorter 0 (chars_left l)) as H.
    destruct (index_text 0 _) as [[text|] after]; simpl; [|done]. split; [by apply quiet_chars|done]. }
  intros text _. destruct (str_eqb text _); [by apply qspec_ret|].
  destruct (str_eqb text _); [by apply qspec_ret|].
  eapply qspec_bind; [apply qspec_parameter_lexer|]. intros l1 (Hl1 & v' & Hv' & Hd).
  apply (qspec_bind v _ _ (fun ts => forallb token_wf ts = true)).
  { apply qspec_of_result. by apply (run_tokens_ok v' dollar (Hinner v' Hv')). }
  intros ts Hts. apply words_of_ok in Hts. destruct (words_of ts) as [|w [|]]; try apply qspec_throw.
  simpl in Hts. apply andb_prop in Hts as [Hw _]. by apply qspec_ret.
Qed.

Lemma qspec_read_nested_word (at_line : Z) (terminators : list Z) (enclosure : Enclosure) :
  qspec v (read_nested_word dollar at_line terminators enclosure) (fun r => word_ok r.1 = true).
Proof.
  unfold read_nested_word. qspec_step. eapply qspec_bind; [apply qspec_parameter_lexer|].
  intros l1 (Hl1 & v' & Hv' & Hd1) l Hd. unfold wp.
  pose proof (wp_read_parameter_word v' dollar (Hinner v' Hv') at_line terminators enclosure
    (set_line (line l) (set_chars (chars_left l) l1)) Hl1 Hd1) as H. unfold wp in H.
  destruct (read_parameter_word _ _ _ _ _) as [[r|[e|]] l2]; [|done|done].
  destruct H as [(_ & H2 & _) Hw]. simpl in H2. split; [by apply quiet_line|done].
Qed.

Lemma qspec_read_modifier_word (at_line : Z) (terminators : list Z) (enclosure : Enclosure) :
  qspec v (read_modifier_word dollar at_line terminators enclosure) (fun r => word_ok r.1 = true).
Proof.
  unfold read_modifier_word. qspec_step. destruct x as [c|]; [|apply qspec_read_nested_word].
  destruct (existsb _ _); [|apply qspec_read_nested_word]. qspec_step. by apply qspec_ret.
Qed.

Lemma parameter_pattern_ok (w : Word) (at_line : Z) :
  word_ok w = true →
  match parameter_pattern w at_line with
  | Ok p => pattern_ok p = true
  | Err (Error _) => True
  | Err OutOfFuel => False
  end.
Proof.
  intros Hw. unfold parameter_pattern. destruct (word_is_constant w) eqn:E.
  - destruct (literal_pattern_metacharacter _); [exact I|]. cbn [pattern_ok]. by rewrite Hw, E.
  - cbn [pattern_ok]. by rewrite Hw, E.
Qed.

Lemma qspec_modifier_word {B : Type} (at_line : Z) (terminators : list Z) (enclosure : Enclosure)
    (f : Word * Z → lex B) (R : B → Prop) :
  (∀ w c, word_ok w = true → qspec v (f (w, c)) R) →
  qspec v (bind (read_modifier_word dollar at_line terminators enclosure) f) R.
Proof.
  intros Hf. apply (qspec_bind v _ _ (fun r => word_ok r.1 = true)); [apply qspec_read_modifier_word|].
  intros [w c] Hw. by apply Hf.
Qed.

Lemma qspec_pattern {B : Type} (w : Word) (at_line : Z) (f : Pattern → lex B) (R : B → Prop) :
  word_ok w = true → (∀ p, pattern_ok p = true → qspec v (f p) R) →
  qspec v (bind (of_result (parameter_pattern w at_line)) f) R.
Proof.
  intros Hw Hf. apply (qspec_bind v _ _ (fun p => pattern_ok p = true)); [|done].
  apply qspec_of_result. by apply parameter_pattern_ok.
Qed.

Lemma qspec_read_modifier_operator (at_line : Z) (name : str) (enclosure : Enclosure) (colon : bool)
    (operator : Z) :
  qspec v (read_modifier_operator dollar at_line name enclosure colon operator)
    (fun m => modifier_ok m = true).
Proof.
  unfold read_modifier_operator. cbv zeta.
  destruct (operator =? ch "-"); [apply qspec_modifier_word; intros w c Hw; by apply qspec_ret|].
  destruct (operator =? ch "="); [apply qspec_modifier_word; intros w c Hw; by apply qspec_ret|].
  destruct (operator =? ch "?").
  { apply qspec_modifier_word. intros w c Hw. apply qspec_ret.
    destruct (is_nil (parts w)) eqn:E; [done|]. cbn [modifier_ok]. by rewrite Hw, E. }
  destruct (operator =? ch "+"); [apply qspec_modifier_word; intros w c Hw; by apply qspec_ret|].
  destruct (_ && colon); [apply qspec_throw|].
  destruct (_ || _).
  { qspec_step. apply qspec_modifier_word. intros w c Hw. apply qspec_pattern; [done|]. intros p Hp.
    apply qspec_ret. by destruct (operator =? ch "#"). }
  destruct (operator =? ch "/"); [|apply qspec_throw].
  qspec_step. apply qspec_modifier_word. intros w c Hw.
  apply (qspec_bind v _ _ (fun r => word_ok r.1 = true)).
  { destruct (c =? ch "/"); [apply qspec_read_modifier_word|by apply qspec_ret]. }
  intros [w2 c2] Hw2. apply qspec_pattern; [done|]. intros p Hp. apply qspec_ret.
  cbn [modifier_ok]. simpl in Hw2. by rewrite Hp, Hw2.
Qed.

Lemma qspec_read_modifier (at_line : Z) (name : str) (length : bool) (enclosure : Enclosure) :
  qspec v (read_modifier dollar at_line name length enclosure)
    (fun m => modifier_ok m && (negb length || match m with NoModifier => true | _ => false end) = true).
Proof.
  unfold read_modifier. qspec_step. destruct x as [[i c]|]; [|apply qspec_throw].
  destruct (c =? ch "}"); [apply qspec_ret; simpl; by rewrite orb_true_r|].
  destruct length; [apply qspec_throw|].
  assert (Hop : ∀ colon op, qspec v (read_modifier_operator dollar at_line name enclosure colon op)
    (fun m => modifier_ok m && (negb false || match m with NoModifier => true | _ => false end) = true)).
  { intros colon op l Hd. eapply wp_weaken; [by apply qspec_read_modifier_operator|].
    intros m l' [Hq Hm]. split; [done|]. by rewrite Hm. }
  destruct (c =? ch ":"); [|apply Hop]. qspec_step. destruct x as [[? ?]|]; [apply Hop|apply qspec_throw].
Qed.

Lemma indices_snoc (l : list Index) (i : Index) :
  indices_in_order l = true → is_some_and (list.last l) selects_all = false →
  indices_in_order (l ++ [i]) = true.
Proof.
  induction l as [|j l IH]; [done|]. cbn [indices_in_order app]. intros H Hlast.
  apply andb_prop in H as [Hj Hl].
  destruct l as [|j2 l]; simpl in Hlast |- *; [by rewrite Hlast|].
  simpl in Hj. rewrite Hj. apply IH; [done|]. done.
Qed.

Lemma wp_read_indices (fuel : nat) (at_line : Z) (name : str) (indices : list Index) (l : Lexer) :
  (length (chars_left l) < fuel)%nat → at_level v (lexer_depth l) →
  forallb index_ok indices = true → indices_in_order indices = true →
  wp (read_indices dollar fuel at_line name indices)
    (fun r l' => quiet l l' ∧ forallb index_ok r = true ∧ indices_in_order r = true) l.
Proof.
  revert indices l. induction fuel as [|fuel IH]; intros indices l Hf Hd Hi Ho; [lia|]. simpl.
  apply wp_then, wp_gets. destruct (is_char (peek_of l) (ch "[")) eqn:Ep; [|by split; [apply quiet_refl|]].
  destruct (is_some_and _ _) eqn:El; [done|].
  assert (Hlt : (length (tail (chars_left l)) < length (chars_left l))%nat).
  { unfold peek_of in Ep. destruct (chars_left l); simpl in *; [done|lia]. }
  apply wp_then, wp_skip_char. apply wp_then.
  eapply wp_weaken; [by apply (qspec_read_index at_line)|]. intros i l1 [Hq Hi1].
  assert (Hd1 : at_level v (lexer_depth l1)) by (by destruct Hq as (_ & _ & _ & _ & _ & -> & _)).
  eapply wp_weaken; [apply IH; [|done| |by apply indices_snoc]|].
  - destruct Hq as [Hq _]. simpl in Hq. lia.
  - by rewrite forallb_snoc, Hi, Hi1.
  - intros r l2 [Hq2 Hr]. split; [|done].
    by apply (quiet_trans _ _ _ (quiet_skip l)), (quiet_trans _ _ _ Hq).
Qed.

Lemma take_while_name (cs : list (Z * Z)) : forallb is_name_byte (take_while is_name_byte cs).1 = true.
Proof.
  induction cs as [|[i c] cs IH]; [done|]. simpl. destruct (is_name_byte c) eqn:E; [|done].
  destruct (take_while _ cs). simpl in *. rewrite forallb_app, IH, andb_true_r. unfold encode_utf8.
  assert (Hc : c < 128).
  { unfold is_name_byte, is_ascii_alphanumeric, is_ascii_lowercase, is_ascii_uppercase, is_ascii_digit,
      in_range in E. dk_ch. dk_bool. lia. }
  replace (c <? 128) with true by (symmetry; dk_bool; lia). simpl. by rewrite E.
Qed.

Lemma qspec_read_name : qspec v read_name (fun name => forallb is_name_byte name = true).
Proof.
  intros l _. unfold wp, read_name, read_while. pose proof (take_while_shorter is_name_byte (chars_left l)).
  pose proof (take_while_name (chars_left l)). destruct (take_while _ _). split; [by apply quiet_chars|done].
Qed.

Lemma named_not_empty (l : Lexer) (c : Z) :
  peek_of l = Some c → is_ascii_alphabetic c || (c =? ch "_") = true →
  (take_while is_name_byte (chars_left l)).1 ≠ [].
Proof.
  unfold peek_of. destruct (chars_left l) as [|[i c'] rest]; [done|]. intros [= ->] Hc. simpl.
  replace (is_name_byte c) with true.
  - destruct (take_while _ rest). simpl. unfold encode_utf8. by repeat case_match.
  - symmetry. unfold is_name_byte, is_ascii_alphanumeric, is_ascii_alphabetic in *. dk_bool. tauto.
Qed.

Lemma qspec_read_named_parameter (at_line : Z) (length : bool) (enclosure : Enclosure) :
  qspec v (read_named_parameter dollar at_line length enclosure) (fun p => part_ok p = true).
Proof.
  eapply qspec_bind; [apply qspec_read_name|]. intros name Hname.
  destruct (is_nil name) eqn:En; [apply qspec_throw|].
  apply (qspec_bind v _ _ (fun il => forallb index_ok il = true ∧ indices_in_order il = true)).
  { intros l Hd. apply wp_read_indices; [lia|done..]. }
  intros il [Hi Ho]. eapply qspec_bind; [apply qspec_read_modifier|]. intros m Hm. apply qspec_ret.
  cbn [part_ok param_ok]. unfold name_okb. rewrite En, Hname, Hi, Ho. simpl. exact Hm.
Qed.

Lemma qspec_expect_brace_close (at_line : Z) : qspec v (expect_brace_close at_line) (fun _ => True).
Proof.
  unfold expect_brace_close. qspec_step. destruct x as [[? c]|]; [|apply qspec_throw].
  destruct (c =? ch "}"); [by apply qspec_ret|apply qspec_throw].
Qed.

Lemma qspec_braced (at_line : Z) (p : Param) :
  param_ok p = true →
  qspec v (do! skip_char in do! expect_brace_close at_line in ret (Parameter_ p)) (fun p => part_ok p = true).
Proof.
  intros Hp. qspec_step. eapply qspec_bind; [apply qspec_expect_brace_close|]. intros _ _. by apply qspec_ret.
Qed.

Lemma qspec_read_braced_parameter (enclosure : Enclosure) :
  qspec v (read_braced_parameter dollar enclosure) (fun p => part_ok p = true).
Proof.
  unfold read_braced_parameter. do 2 qspec_step. cbv zeta.
  destruct (is_char _ (ch "?")); [by apply qspec_braced|].
  destruct (is_char _ (ch "@")); [by apply qspec_braced|].
  destruct (is_char _ (ch "*")); [by apply qspec_braced|].
  destruct (is_char _ (ch "#")).
  { do 2 qspec_step. destruct x2; [by apply qspec_ret|apply qspec_read_named_parameter]. }
  destruct (is_some_and _ _); [|apply qspec_read_named_parameter].
  qspec_step. eapply qspec_bind; [apply qspec_expect_brace_close|]. intros _ _.
  apply (qspec_bind v _ _ (fun n => 0 ≤ n ≤ u64_max)).
  { apply qspec_of_result. destruct (parse_u64 _) eqn:E; [|exact I]. by apply parse_u64_range in E. }
  intros n Hn. apply qspec_ret. cbn [part_ok param_ok]. dk_bool. lia.
Qed.

Lemma wp_balanced_loop (fuel : nat) (opened initial depth : Z) (body_end : option Z) (l : Lexer) :
  (length (chars_left l) < fuel)%nat →
  wp (balanced_loop fuel opened initial depth body_end) (fun _ l' => quiet l l') l.
Proof.
  revert depth body_end l. induction fuel as [|fuel IH]; intros depth body_end l Hf; [lia|]. simpl.
  apply wp_then, wp_next_char; [done|]. intros [index c] rest E.
  pose proof (quiet_next _ _ _ E) as Hq.
  assert (Hlt : (length rest < fuel)%nat) by (rewrite E in Hf; simpl in Hf; lia).
  assert (Hagain : ∀ l1 depth body_end, quiet (set_chars rest l) l1 →
    wp (balanced_loop fuel opened initial depth body_end) (fun _ l' => quiet l l') l1).
  { intros l1 d b Hq1. eapply wp_weaken; [apply IH; destruct Hq1 as [H _]; simpl in H; lia|].
    intros ? l2 Hq2. by apply (quiet_trans _ _ _ Hq), (quiet_trans _ _ _ Hq1). }
  destruct (c =? newline).
  { apply wp_then. eapply wp_weaken; [apply wp_bump_line|]. intros [] l1 Hq1. by apply Hagain. }
  destruct (c =? ch "\").
  { apply wp_then, wp_next_char.
    - intros _. apply wp_then, wp_ret. apply Hagain, quiet_refl.
    - intros [i2 c2] rest2 E2. apply wp_then. pose proof (quiet_next _ _ _ E2) as Hq2.
      destruct (c2 =? newline); [|apply wp_ret; by apply Hagain].
      eapply wp_weaken; [apply wp_bump_line|]. intros [] l1 Hq1. by apply Hagain, (quiet_trans _ _ _ Hq2). }
  destruct (c =? ch "'").
  { apply wp_then, wp_update, Hagain. simpl. pose proof (take_quoted_shorter (ch "'") rest) as H.
    destruct (take_quoted _ rest) as [[[? ?] ?] ?]. by apply quiet_line. }
  destruct (c =? double_quote).
  { apply wp_then, wp_update, Hagain. simpl. pose proof (skip_double_quoted_shorter false rest) as H.
    destruct (skip_double_quoted _ rest). by apply quiet_line. }
  destruct (c =? ch "("); [apply Hagain, quiet_refl|].
  destruct (c =? ch ")"); [|apply Hagain, quiet_refl].
  destruct (_ =? 0); [|apply Hagain, quiet_refl]. destruct (index =? _); done.
Qed.

Lemma qspec_read_balanced (index : Z) : qspec v (read_balanced index) (fun _ => True).
Proof.
  apply qspec_wp. intros l.
  apply (wp_then (balanced_loop (S (length (chars_left l))) (line l) 2 2 None)).
  eapply wp_weaken; [apply wp_balanced_loop; lia|]. intros e l1 Hq. by apply wp_gets.
Qed.

Lemma skip_to_shorter (e : Z) (cs : list (Z * Z)) : (length (skip_to e cs).2 ≤ length cs)%nat.
Proof.
  induction cs as [|[i c] cs IH]; simpl; [lia|]. destruct (i <? e); simpl; [|lia].
  destruct (skip_to e cs); simpl in *. lia.
Qed.

Lemma qspec_read_parenthesis (index : Z) :
  qspec v (read_parenthesis parse_substitution index) (fun p => part_ok p = true).
Proof.
  unfold read_parenthesis. qspec_step. destruct x.
  - qspec_step. eapply qspec_bind; [apply qspec_read_balanced|]. intros body _.
    apply (qspec_bind v _ _ (fun e => arith_okb e = true)); [|intros; by apply qspec_ret].
    intros l [Hd Hb]. unfold wp.
    pose proof (arithmetic_answers body x (lexer_depth l) ltac:(lia)) as H.
    destruct (parse_arithmetic _ _ _) as [e|[?|]]; [|done|done]. split; [apply quiet_refl|by apply arith_okb_ok].
  - qspec_step. apply (qspec_bind v _ _ (fun r => program_ok r.1 = true)).
    { intros l Hd. unfold wp. pose proof (Hsub (drop (Z.to_nat x) (source l)) (lexer_depth l) (line l) Hd) as H.
      destruct (parse_substitution _ _ _) as [r|[?|]]; [|done|done]. split; [apply quiet_refl|done]. }
    intros [p n] Hp. apply (qspec_bind v _ _ (fun _ => True)); [|intros; by apply qspec_ret].
    intros l _. unfold wp, modify. pose proof (skip_to_shorter (x + n) (chars_left l)) as H.
    destruct (skip_to _ _). split; [by apply quiet_line|done].
Qed.

(** The promise of [read_dollar_part], from those of the calls inside it. *)
Lemma read_dollar_part_ok : dollar_ok v (read_dollar_part dollar parse_substitution).
Proof.
  intros index enclosure l Hd. unfold read_dollar_part. apply wp_then, wp_gets.
  assert (Hsimple : ∀ p, param_ok p = true →
    qspec v (do! skip_char in ret (Some (Parameter_ p))) (fun r => option_ok part_ok r = true)).
  { intros p Hp. qspec_step. by apply qspec_ret. }
  assert (Hsome : ∀ m : lex WordPart, qspec v m (fun p => part_ok p = true) →
    qspec v (do! skip_char in let! part := m in ret (Some part)) (fun r => option_ok part_ok r = true)).
  { intros m Hm. qspec_step. eapply qspec_bind; [apply Hm|]. intros p Hp. by apply qspec_ret. }
  destruct (peek_of l) as [c|] eqn:Ep; [|by split; [apply quiet_refl|]]. cbv zeta.
  destruct (c =? ch "("); [by apply (Hsome _ (qspec_read_parenthesis index))|].
  destruct (c =? ch "{"); [by apply (Hsome _ (qspec_read_braced_parameter enclosure))|].
  destruct (c =? ch "?"); [by apply Hsimple|]. destruct (c =? ch "!"); [by apply Hsimple|].
  destruct (c =? ch "@"); [by apply Hsimple|]. destruct (c =? ch "*"); [by apply Hsimple|].
  destruct (c =? ch "#"); [by apply Hsimple|].
  destruct (is_ascii_digit c) eqn:Ec.
  { apply Hsimple; [|done]. unfold is_ascii_digit, in_range in Ec. cbn [param_ok]. unfold u64_max.
    dk_bool. lia. }
  destruct (is_ascii_alphabetic c || (c =? ch "_")) eqn:En; [|by split; [apply quiet_refl|]].
  apply wp_then. pose proof (named_not_empty l c Ep En) as Hne.
  pose proof (qspec_read_name l Hd) as Hname. unfold wp, read_name, read_while in *.
  destruct (take_while _ _) as [name after]. destruct Hname as [Hq Hn]. split; [done|].
  cbn [option_ok part_ok param_ok]. unfold name_okb. rewrite Hn. by destruct name.
Qed.

End Dollar.
