(* ===== verification/ShellParserTheory.v ===== *)
(** * Parser of scripts: theorems

    Whatever the source, [parse] answers: an error of the code, or a program
    that is well formed. Its loops take a token each turn; the grammar calls
    itself through [nest] only, at most 64 times, and an expansion inside an
    expansion raises [d_lexer], which stays under 64. *)

From Stdlib Require Import ZArith Lia Ascii String.
From stdpp Require Import base strings list numbers.
From S2P Require Import Prelude RustStr ShellAst ShellArith ShellArithTheory.
From S2P Require Import ShellState ShellLexer ShellParser ShellWellFormed ShellLexerTheory.

Definition kind_wf (k : TokenKind) : bool := match k with TWord w | HereDoc w => word_ok w | _ => true end.

(** The tokens ahead and those the lexer can still give: none after an error. *)
Definition psi (s : Parser) : nat :=
  length (seen s) - position s + match lex_error s with Some _ => 0 | None => phi (lexer s) end.

(** [n] tokens have been looked at beyond the position. *)
Definition ahead (n : nat) (s : Parser) : Prop := (position s + n ≤ length (seen s))%nat.

Section WithDollar.

Context (v : Z) (dollar : Z → Enclosure → lex (option WordPart)) (Hdollar : dollar_ok v dollar).

Record parser_ok (s : Parser) : Prop := {
  ok_depth : at_level v (depth s);
  ok_fits : d_lexer (depth s) + d_block (depth s) ≤ 64;
  ok_lexer : lex_error s = None → lex_ok (lexer s) = true;
  ok_seen : forallb token_wf (seen s) = true;
  ok_position : ahead 0 s;
}.

(** From [s0] to [s], at least [k] tokens have been taken. *)
Definition moves (k : nat) (s0 s : Parser) : Prop :=
  parser_ok s ∧ depth s = depth s0 ∧ (psi s + k ≤ psi s0)%nat.

(** Nothing has been taken, and what was ahead still is. *)
Definition looks (s0 s : Parser) : Prop :=
  moves 0 s0 s ∧ position s = position s0 ∧ seen s0 `prefix_of` seen s.

Lemma moves_refl (s : Parser) : parser_ok s → moves 0 s s.
Proof. intros H. split; [done|split; [done|lia]]. Qed.

Lemma moves_trans (a b c : nat) (s1 s2 s3 : Parser) :
  moves a s1 s2 → moves b s2 s3 → (c ≤ a + b)%nat → moves c s1 s3.
Proof. intros (_ & Hd & Hp) (H & Hd' & Hp') Hc. split; [done|]. split; [congruence|lia]. Qed.

Lemma looks_refl (s : Parser) : parser_ok s → looks s s.
Proof. intros H. split; [by apply moves_refl|done]. Qed.

Lemma looks_trans (s1 s2 s3 : Parser) : looks s1 s2 → looks s2 s3 → looks s1 s3.
Proof.
  intros (H1 & P1 & L1) (H2 & P2 & L2). split; [by apply (moves_trans 0 0 0 _ s2); try lia|].
  split; [congruence|by etransitivity].
Qed.

Lemma looks_ahead (n : nat) (s s' : Parser) : looks s s' → ahead n s → ahead n s'.
Proof. intros (_ & Hp & Hl%prefix_length). unfold ahead. rewrite Hp. lia. Qed.

(** ** Looking *)

Lemma wp_fill (fuel p : nat) (s : Parser) :
  (S p < length (seen s) + fuel)%nat → parser_ok s → (position s ≤ p)%nat →
  wp (fill dollar fuel p) (fun _ s' => looks s s') s.
Proof.
  revert s. induction fuel as [|fuel IH]; intros s Hf Hs Hp.
  { unfold wp. simpl. replace (length (seen s) <=? p)%nat with false; [by apply looks_refl|].
    symmetry. apply Nat.leb_gt. lia. }
  unfold wp. cbn [fill]. destruct (length (seen s) <=? p)%nat eqn:Elen; [|by apply looks_refl].
  apply Nat.leb_le in Elen. destruct (lex_error s) as [e0|] eqn:Ee; simpl; [by apply looks_refl|].
  pose proof (wp_next_token v dollar Hdollar (set_parser_depth (depth s) (lexer s))
    (ok_lexer s Hs Ee) (ok_depth s Hs)) as H. unfold wp in H.
  destruct (next_token _ _) as [[[t|]|[e|]] l]; [| | |done].
  - destruct H as (H1 & _ & _ & H2 & H3). simpl in H2, H3.
    change (phi (set_parser_depth _ _)) with (phi (lexer s)) in H3.
    set (s1 := set_seen (seen s ++ [t]) (set_lexer l s)).
    assert (Hs1 : looks s s1).
    { destruct Hs. unfold ahead in *. split; [|split; [done|by apply prefix_app_r]].
      split; [|split; [done|unfold psi; simpl; rewrite length_app, Ee; simpl; lia]].
      split; try done; [simpl; by rewrite forallb_snoc, ok_seen0|].
      unfold ahead. simpl. rewrite length_app. simpl. lia. }
    apply (wp_weaken _ _ (fun _ s' => looks s1 s')); [|intros [] s2; by apply looks_trans].
    apply IH; [simpl; rewrite length_app; simpl; lia|apply Hs1|done].
  - destruct H as (H1 & _ & _ & _ & H3). simpl in H3. destruct Hs.
    split; [|done]. split; [by split|]. split; [done|].
    change (phi (set_parser_depth _ _)) with (phi (lexer s)) in H3. unfold psi. simpl. rewrite Ee. lia.
  - set (s1 := set_lex_error (Some e) (set_lexer l s)).
    assert (Hs1 : looks s s1).
    { destruct Hs. split; [|done]. split; [by split|]. split; [done|]. unfold psi. simpl. lia. }
    destruct fuel; simpl; rewrite andb_false_r; exact Hs1.
Qed.

Lemma seen_wf (s : Parser) (p : nat) (t : Token) :
  parser_ok s → seen s !! p = Some t → kind_wf (kind t) = true.
Proof.
  intros Hs Ht. destruct Hs as [_ _ _ Hseen _]. apply forallb_true in Hseen.
  rewrite Forall_lookup in Hseen. by apply Hseen in Ht.
Qed.

Lemma wp_token_at (p : nat) (s : Parser) :
  parser_ok s → (position s ≤ p)%nat →
  wp (token_at dollar p) (fun r s' => looks s s' ∧ r = seen s' !! p) s.
Proof.
  intros Hs Hp. apply wp_then. eapply wp_weaken; [apply wp_fill; [lia|done|done]|].
  intros [] s' Hl. by apply wp_gets.
Qed.

Definition sees {A : Type} (n : nat) (r : option A) (s : Parser) : Prop := is_Some r → ahead n s.

Lemma lookup_ahead (n : nat) (s : Parser) (t : Token) : seen s !! (position s + n)%nat = Some t → ahead (S n) s.
Proof. intros Ht. apply lookup_lt_Some in Ht. unfold ahead. lia. Qed.

Lemma wp_peek (s : Parser) :
  parser_ok s →
  wp (peek dollar) (fun r s' => looks s s' ∧ option_ok (fun t => kind_wf (kind t)) r = true ∧ sees 1 r s') s.
Proof.
  intros Hs. unfold peek, wp. eapply (wp_weaken _ _ _ s); [by apply wp_token_at|].
  intros r s' [Hl Hr]. split; [done|]. assert (Hp : position s = position s') by (symmetry; apply Hl).
  rewrite Hp in Hr. split.
  - destruct r as [t|]; [|done]. simpl. by apply (seen_wf s' (position s')); [apply Hl|].
  - intros [t ->]. apply (lookup_ahead 0 s' t). by rewrite Nat.add_0_r.
Qed.

Lemma wp_peek_kind (s : Parser) :
  parser_ok s →
  wp (peek_kind dollar) (fun r s' => looks s s' ∧ option_ok kind_wf r = true ∧ sees 1 r s') s.
Proof.
  intros Hs. apply wp_then. eapply wp_weaken; [by apply wp_peek|]. intros [t|] s' (Hl & Hwf & Hsees).
  - split; [done|]. split; [done|]. intros _. by apply Hsees.
  - split; [done|]. split; [done|]. by intros [? ?].
Qed.

Lemma wp_peek_kind_seen (s : Parser) :
  parser_ok s →
  wp (peek_kind dollar) (fun r s' => looks s s' ∧
    (option_ok kind_wf r = true ∧ sees 1 r s') ∧ r = kind <$> seen s' !! position s') s.
Proof.
  intros Hs. apply wp_then. unfold peek, wp. eapply (wp_weaken _ _ _ s); [by apply wp_token_at|].
  intros r s' [Hl Hr]. split; [done|]. assert (Hp : position s = position s') by (symmetry; apply Hl).
  rewrite Hp in Hr. rewrite <- Hr. split; [|done]. destruct r as [t|]; [|split; [done|by intros [? ?]]].
  split; [by apply (seen_wf s' (position s')); [apply Hl|]|].
  intros _. apply (lookup_ahead 0 s' t). by rewrite Nat.add_0_r.
Qed.

(** Looking again at a token that has been looked at. *)
Lemma wp_peek_again (s : Parser) (t : Token) (Q : option TokenKind → Parser → Prop) :
  seen s !! position s = Some t → Q (Some (kind t)) s → wp (peek_kind dollar) Q s.
Proof.
  intros Ht HQ. unfold wp, peek_kind, bind, peek, token_at, bind, ret, gets.
  assert (Hlt := lookup_lt_Some _ _ _ Ht).
  replace (fill dollar (S (S (position s))) (position s) s) with (@Ok fault _ tt, s); [by rewrite Ht|].
  cbn [fill]. replace (length (seen s) <=? position s)%nat with false; [done|].
  symmetry. apply Nat.leb_gt. lia.
Qed.

Lemma wp_kind_ahead (n : nat) (s : Parser) :
  parser_ok s → wp (kind_ahead dollar n) (fun r s' => looks s s' ∧ sees (S n) r s') s.
Proof.
  intros Hs. unfold kind_ahead, wp.
  apply (wp_then (token_at dollar (position s + n))). eapply wp_weaken; [apply wp_token_at; [done|lia]|].
  intros r s' [Hl Hr]. split; [done|]. intros [k Hk]. destruct r as [t|]; [|done].
  apply (lookup_ahead n s' t). by destruct Hl as (_ & -> & _).
Qed.

Lemma wp_current_line (s : Parser) :
  parser_ok s → wp (current_line dollar) (fun _ s' => looks s s' ∧ True) s.
Proof.
  intros Hs. apply wp_then. eapply wp_weaken; [by apply wp_peek|]. intros [t|] s' [Hl _]; by split.
Qed.

Lemma wp_peek_reserved (s : Parser) :
  parser_ok s → wp (peek_reserved dollar) (fun r s' => looks s s' ∧ sees 1 r s') s.
Proof.
  intros Hs. apply wp_then. eapply wp_weaken; [by apply wp_peek_kind|]. intros [k|] s' (Hl & _ & Hsees).
  - split; [done|]. intros _. by apply Hsees.
  - split; [done|]. by intros [? ?].
Qed.

Lemma wp_peek_literal_word (w : string) (s : Parser) :
  parser_ok s → wp (peek_literal_word dollar w) (fun b s' => looks s s' ∧ (b = true → ahead 1 s')) s.
Proof.
  intros Hs. apply wp_then. eapply wp_weaken; [by apply wp_peek_kind|]. intros [k|] s' (Hl & _ & Hsees).
  - split; [done|]. intros _. by apply Hsees.
  - by split.
Qed.

Lemma wp_gets_look {A : Type} (f : Parser → A) (s : Parser) :
  parser_ok s → wp (gets f) (fun r s' => looks s s' ∧ r = f s') s.
Proof. intros Hs. split; [by apply looks_refl|done]. Qed.

Lemma wp_at_substitution_end (s : Parser) :
  parser_ok s → wp (at_substitution_end dollar) (fun _ s' => looks s s' ∧ True) s.
Proof.
  intros Hs. apply wp_then, wp_gets. destruct (substitution s); [|by split; [apply looks_refl|]].
  apply wp_then. eapply wp_weaken; [by apply wp_peek_kind|]. intros k s' [Hl _]. by split.
Qed.

(** ** Rules *)

(** A method that may be called at the depths of [D] takes [k] tokens at least. *)
Definition pspec {A : Type} (D : Depth → Prop) (k : nat) (m : parse_m A) (P : A → Prop) : Prop :=
  ∀ s, parser_ok s → D (depth s) → wp m (fun x s' => moves k s s' ∧ P x) s.

Definition anywhere (d : Depth) : Prop := True.

Section Rules.

Context {A B : Type} (s0 : Parser) (j : nat) (Q : B → Parser → Prop).

Lemma go_look (m : parse_m A) (R : A → Parser → Prop) (f : A → parse_m B) (s : Parser) :
  (∀ s, parser_ok s → wp m (fun x s' => looks s s' ∧ R x s') s) → moves j s0 s →
  (∀ x s', moves j s0 s' → looks s s' → R x s' → wp (f x) Q s') → wp (bind m f) Q s.
Proof.
  intros Hm Hs Hf. apply wp_then. eapply wp_weaken; [apply Hm, Hs|]. intros x s' [Hl HR].
  apply Hf; [|done|done]. apply (moves_trans j 0 j _ s); [done|apply Hl|lia].
Qed.

Lemma go_advance (n : nat) (f : unit → parse_m B) (s : Parser) :
  moves j s0 s → ahead n s → (∀ s', moves (j + n) s0 s' → wp (f tt) Q s') → wp (bind (advance_by n) f) Q s.
Proof.
  intros ([H1 H2 H3 H4 H5] & Hd & Hp) Ha Hf. apply wp_then, wp_update, Hf. unfold ahead in *.
  split; [split; try done; unfold ahead; simpl; lia|]. split; [done|]. unfold psi in *. simpl. lia.
Qed.

Lemma go_call (D : Depth → Prop) (k : nat) (m : parse_m A) (P : A → Prop) (f : A → parse_m B) (s : Parser) :
  pspec D k m P → moves j s0 s → D (depth s) →
  (∀ x s', moves (j + k) s0 s' → P x → wp (f x) Q s') → wp (bind m f) Q s.
Proof.
  intros Hm Hs HD Hf. apply wp_then. eapply wp_weaken; [apply Hm; [apply Hs|done]|]. intros x s' [Hs' HP].
  apply Hf; [|done]. by apply (moves_trans j k (j + k) _ s).
Qed.

End Rules.

(** The end of a body, and its tail calls. *)
Lemma go_ret {A : Type} (s0 s : Parser) (j k : nat) (P : A → Prop) (x : A) :
  moves j s0 s → (k ≤ j)%nat → P x → wp (ret x) (fun x s' => moves k s0 s' ∧ P x) s.
Proof. intros (H1 & H2 & H3) Hk HP. split; [|done]. split; [done|split; [done|lia]]. Qed.

Lemma go_tail {A : Type} (s0 s : Parser) (j i k : nat) (D : Depth → Prop) (m : parse_m A) (P R : A → Prop) :
  pspec D i m P → moves j s0 s → D (depth s) → (k ≤ j + i)%nat → (∀ x, P x → R x) →
  wp m (fun x s' => moves k s0 s' ∧ R x) s.
Proof.
  intros Hm Hs HD Hk HR. eapply wp_weaken; [apply Hm; [apply Hs|done]|]. intros x s' [Hs' HP].
  split; [|auto]. by apply (moves_trans j i k _ s).
Qed.

Lemma go_from {A : Type} (s0 s : Parser) (j i k : nat) (m : parse_m A) (P : A → Prop) :
  moves j s0 s →
  (parser_ok s → depth s = depth s0 → (psi s + j ≤ psi s0)%nat → wp m (fun x s' => moves i s s' ∧ P x) s) →
  (k ≤ j + i)%nat → wp m (fun x s' => moves k s0 s' ∧ P x) s.
Proof.
  intros Hm Hw Hk. eapply wp_weaken; [apply Hw; apply Hm|]. intros x s' [Hs' HP]. split; [|done].
  by apply (moves_trans j i k _ s).
Qed.

Lemma wp_refuse_here {A : Type} (r : Refusal) (Q : A → Parser → Prop) (s : Parser) :
  parser_ok s → wp (refuse_here dollar r) Q s.
Proof. intros Hs. apply wp_then. eapply wp_weaken; [by apply wp_current_line|]. done. Qed.

Lemma wp_refuse_found {A : Type} (at_line : Z) (r : option TokenKind → Refusal) (Q : A → Parser → Prop)
    (s : Parser) :
  parser_ok s → wp (refuse_found dollar at_line r) Q s.
Proof. intros Hs. apply wp_then. eapply wp_weaken; [by apply wp_peek_kind|]. done. Qed.

(** A loop over tokens has fuel for those that are left. *)
Lemma wp_walking {A : Type} (loop : nat → parse_m A) (Q : A → Parser → Prop) (s : Parser) :
  wp (loop (S (tokens_left s))) Q s → wp (walking loop) Q s.
Proof. done. Qed.

Lemma tokens_left_enough (s : Parser) : (psi s < S (tokens_left s))%nat.
Proof. unfold psi, tokens_left, phi. destruct (lex_error s), (word_started (lexer s)); lia. Qed.

Lemma pspec_walking {A : Type} (D : Depth → Prop) (k : nat) (loop : nat → parse_m A) (P : A → Prop) :
  (∀ fuel s, parser_ok s → D (depth s) → (psi s < fuel)%nat →
     wp (loop fuel) (fun x s' => moves k s s' ∧ P x) s) →
  pspec D k (walking loop) P.
Proof.
  intros Hloop s Hs HD. apply wp_walking, Hloop; [done|done|apply tokens_left_enough].
Qed.

(** One step of a body of the parser: a look, a token taken, a refusal. What
    was ahead stays ahead while the parser only looks. *)
Ltac look_with lem :=
  match goal with
  | Hm : moves _ ?s0 ?s |- wp (bind _ _) _ ?s =>
      let x := fresh "k" in let s' := fresh "s" in
      let Hl := fresh "Hl" in let Hm' := fresh "Hm" in let HR := fresh "Hk" in
      refine (go_look s0 _ _ _ _ _ s lem Hm _); intros x s' Hm' Hl HR;
      repeat match goal with Ha : ahead _ s |- _ => apply (looks_ahead _ _ _ Hl) in Ha end;
      clear Hl Hm
  end.

Ltac sees_some :=
  repeat match goal with
  | H : sees _ (Some _) _ |- _ => specialize (H ltac:(eauto)); unfold ahead in H; fold (ahead 1) in H
  end.

Ltac go :=
  match goal with
  | |- wp (bind (peek_kind _) _) _ _ => look_with wp_peek_kind
  | |- wp (bind (peek _) _) _ _ => look_with wp_peek
  | |- wp (bind (current_line _) _) _ _ => look_with wp_current_line
  | |- wp (bind (peek_reserved _) _) _ _ => look_with wp_peek_reserved
  | |- wp (bind (peek_literal_word _ ?w) _) _ _ => look_with (wp_peek_literal_word w)
  | |- wp (bind (kind_ahead _ ?n) _) _ _ => look_with (wp_kind_ahead n)
  | |- wp (bind (at_substitution_end _) _) _ _ => look_with wp_at_substitution_end
  | |- wp (bind (gets ?f) _) _ _ => look_with (wp_gets_look f)
  | Hm : moves _ _ ?s, Ha : ahead ?n ?s |- wp (bind (advance_by ?n) _) _ ?s =>
      let s' := fresh "s" in let Hm' := fresh "Hm" in
      refine (go_advance _ _ _ n _ s Hm Ha _); intros s' Hm'; clear Hm Ha
  | Hm : moves _ _ ?s |- wp (refuse_here _ _) _ ?s => apply wp_refuse_here, Hm
  | Hm : moves _ _ ?s |- wp (refuse_found _ _ _) _ ?s => apply wp_refuse_found, Hm
  | |- wp (refuse _ _) _ _ => exact I
  end.

(** The end of a body, and the next turn of its loop. *)
Ltac go_end :=
  match goal with
  | Hm : moves ?j ?s0 ?s |- wp (ret _) _ ?s => refine (go_ret s0 s j _ _ _ Hm _ _); [lia|]
  end.
Ltac go_turn i :=
  match goal with
  | Hm : moves ?j ?s0 ?s |- wp _ (fun x s' => moves ?k ?s0 s' ∧ @?P x) ?s =>
      refine (go_from s0 s j i k _ P Hm _ _);
      [let Hs := fresh "Hs" in let Hd := fresh "Hd" in let Hp := fresh "Hp" in intros Hs Hd Hp|lia]
  end.
(** Case analysis on the token looked at. *)
Ltac on_token :=
  match goal with
  | Hk : option_ok kind_wf ?k = true ∧ sees 1 ?k ?s |- _ =>
      let Hw := fresh "Hw" in let Hs := fresh "Hs" in
      destruct Hk as [Hw Hs];
      let t := fresh "t" in
      destruct k as [t|]; [assert (ahead 1 s) by (apply Hs; eauto); clear Hs; simpl in Hw | clear Hs Hw]
  end.

(** *** Skipping *)

Lemma skip_loop_ok (p : TokenKind → bool) (fuel : nat) (s : Parser) :
  parser_ok s → (psi s < fuel)%nat → wp (skip_loop dollar p fuel) (fun _ s' => moves 0 s s' ∧ True) s.
Proof.
  revert s. induction fuel as [|fuel IH]; intros s Hs Hf; [lia|]. simpl. pose proof (moves_refl s Hs) as Hm.
  go. on_token; simpl; [|by go_end]. destruct (p t); [|by go_end].
  go. go_turn 0%nat. apply IH; [done|lia].
Qed.

Lemma pspec_skip (p : TokenKind → bool) : pspec anywhere 0 (walking (skip_loop dollar p)) (fun _ => True).
Proof. apply pspec_walking. intros fuel s Hs _ Hf. by apply skip_loop_ok. Qed.

(** *** Reserved words *)

Lemma is_word_some (r : option str) (w : string) : is_word r w = true → is_Some r.
Proof. destruct r; [eauto|done]. Qed.

Ltac ahead_reserved :=
  match goal with
  | Hk : sees 1 ?k ?s, E : is_word ?k ?w = true |- _ =>
      assert (ahead 1 s) by (apply Hk, (is_word_some k w E)); clear Hk
  end.

Lemma pspec_expect_reserved (w : string) (c : Construct) :
  pspec anywhere 1 (expect_reserved dollar w c) (fun _ => True).
Proof.
  intros s Hs _. pose proof (moves_refl s Hs) as Hm. unfold expect_reserved, eat_reserved.
  apply wp_then. go. destruct (is_word k w) eqn:E.
  - ahead_reserved. go. apply wp_ret. by go_end.
  - apply wp_ret. go.
Qed.

(** *** Redirections *)

Definition redirect_ok (r : Redirect) : bool := let '(_, t) := r in target_ok t.

Lemma redirects_loop_ok (fuel : nat) (redirects : list Redirect) (s : Parser) :
  parser_ok s → (psi s < fuel)%nat → forallb redirect_ok redirects = true →
  wp (redirects_loop dollar redirects fuel) (fun r s' => moves 0 s s' ∧ forallb redirect_ok r = true) s.
Proof.
  revert redirects s. induction fuel as [|fuel IH]; intros redirects s Hs Hf Hr; [lia|]. simpl.
  pose proof (moves_refl s Hs) as Hm. go. on_token; [|by go_end].
  destruct t; try by go_end.
  - go. go. go. on_token; [|exact I]. destruct t; try exact I. go. go_turn 0%nat.
    apply IH; [done|lia|]. by rewrite forallb_snoc, Hr.
  - go. go. destruct (bool_decide _); [exact I|]. go_turn 0%nat.
    apply IH; [done|lia|]. by rewrite forallb_snoc, Hr.
Qed.

Lemma pspec_parse_redirects :
  pspec anywhere 0 (parse_redirects dollar) (fun r => forallb redirect_ok r = true).
Proof. apply pspec_walking. intros fuel s Hs _ Hf. by apply redirects_loop_ok. Qed.

(** At a redirection, one token at least is taken. *)
Lemma wp_redirects_strict (s : Parser) (t : Token) :
  parser_ok s → seen s !! position s = Some t →
  match kind t with TRedirect _ _ | Duplicate _ _ => True | _ => False end →
  wp (parse_redirects dollar) (fun r s' => moves 1 s s' ∧ forallb redirect_ok r = true) s.
Proof.
  intros Hs Ht Hk. apply wp_walking. pose proof (tokens_left_enough s) as Hf.
  pose proof (moves_refl s Hs) as Hm.
  assert (Ha : ahead 1 s) by (apply (lookup_ahead 0 s t); by rewrite Nat.add_0_r).
  cbn [redirects_loop]. apply wp_then, (wp_peek_again s t); [done|].
  destruct (kind t); try done.
  - go. go. go. on_token; [|exact I]. destruct t0; try exact I. go. go_turn 0%nat.
    apply redirects_loop_ok; [done|lia|]. simpl in *. by rewrite Hw.
  - go. go. destruct (bool_decide _); [exact I|]. go_turn 0%nat. by apply redirects_loop_ok; [|lia|].
Qed.

Lemma check_duplication_order_ok (redirects : list Redirect) (at_line : Z) :
  match check_duplication_order redirects at_line with
  | Ok _ => redirects_in_order redirects = true
  | Err (Error _) => True
  | Err OutOfFuel => False
  end.
Proof.
  induction redirects as [|[src [append target|copied]] later IH]; simpl; [done|done|].
  destruct (existsb _ later); [exact I|]. simpl. exact IH.
Qed.

(** *** Simple commands *)

Definition assignment_ok (a : str * Word) : bool := let '(name, w) := a in is_valid_name name && word_ok w.

Definition simple_ok (c : simple) : bool :=
  forallb assignment_ok (s_assignments c) && forallb word_ok (s_words c) &&
  forallb redirect_ok (s_redirects c) && option_ok word_ok (s_here_doc c).

Definition simple_size (c : simple) : nat := length (s_assignments c) + length (s_words c).

Lemma split_assignment_ok (w value : Word) (name : str) :
  word_ok w = true → split_assignment w = Some (name, value) →
  is_valid_name name = true ∧ word_ok value = true.
Proof.
  destruct w as [ps]. unfold split_assignment. simpl. destruct ps as [|[] ps]; try done. simpl.
  intros H. apply andb_prop in H as [_ Hps].
  destruct (split_once _ text) as [[n r]|]; [|done]. destruct (is_valid_name n) eqn:En; [|done].
  intros [= <- <-]. split; [done|]. simpl. rewrite forallb_app, Hps, andb_true_r.
  destruct (is_nil r) eqn:Er; [done|]. simpl. by rewrite Er.
Qed.

Lemma simple_loop_ok (fuel : nat) (c : simple) (s : Parser) :
  parser_ok s → (psi s < fuel)%nat → simple_ok c = true →
  wp (simple_loop dollar c fuel)
    (fun c' s' => moves (simple_size c' - simple_size c) s s' ∧ simple_ok c' = true) s.
Proof.
  revert c s. induction fuel as [|fuel IH]; intros c s Hs Hf Hc; [lia|]. simpl.
  assert (Hok := Hc). unfold simple_ok in Hok. apply andb_prop in Hok as [Hok Hh].
  apply andb_prop in Hok as [Hok Hr]. apply andb_prop in Hok as [Ha Hw].
  pose proof (moves_refl s Hs) as Hm.
  assert (Hend : ∀ s1, moves 0 s s1 →
    wp (ret c) (fun c' s' => moves (simple_size c' - simple_size c) s s' ∧ simple_ok c' = true) s1).
  { intros s1 H1. split; [|done]. by rewrite Nat.sub_diag. }
  assert (Hturn : ∀ s1 c1 i, moves i s s1 → (0 < i)%nat → simple_ok c1 = true →
    (simple_size c1 ≤ simple_size c + i)%nat →
    wp (simple_loop dollar c1 fuel)
      (fun c' s' => moves (simple_size c' - simple_size c) s s' ∧ simple_ok c' = true) s1).
  { intros s1 c1 i H1 Hi Hc1 Hsz. eapply wp_weaken; [apply IH; [apply H1|destruct H1 as (_ & _ & ?); lia|done]|].
    intros c2 s2 [H2 Hc2]. split; [|done]. apply (moves_trans _ _ _ _ _ _ H1 H2). lia. }
  refine (go_look s _ _ _ _ _ s wp_peek_kind_seen Hm _). intros k s1 Hm1 _ [Hk Hseen]. clear Hm.
  on_token; [|by apply Hend].
  assert (Hseen' : ∃ tok, seen s1 !! position s1 = Some tok ∧ kind tok = t).
  { destruct (seen s1 !! position s1) as [tok|]; [|done]. exists tok. split; [done|]. by injection Hseen. }
  clear Hseen. rename Hm1 into Hm. destruct t; try by apply Hend.
  - go. destruct (is_nil (s_words c) && _) eqn:En; [by apply Hend|]. go.
    destruct (if is_nil (s_words c) then split_assignment w else None) as [[name value]|] eqn:Ea.
    + destruct (is_nil (s_words c)); [|done]. apply split_assignment_ok in Ea as [Hname Hvalue]; [|done].
      eapply Hturn; [done|lia| |].
      * unfold simple_ok. simpl. rewrite forallb_snoc, Ha, Hw, Hr, Hh. simpl. by rewrite Hname, Hvalue.
      * unfold simple_size. simpl. rewrite length_app. simpl. lia.
    + eapply Hturn; [done|lia| |].
      * unfold simple_ok. simpl. rewrite forallb_snoc, Ha, Hw, Hr, Hh. simpl in *. by rewrite Hw0.
      * unfold simple_size. simpl. rewrite length_app. simpl. lia.
  - go. destruct (s_after_empty c); [exact I|]. go. repeat case_match; exact I.
  - go. case_match; [by apply Hend|go].
  - destruct Hseen' as (tok & Htok & Hkind). apply wp_then.
    eapply wp_weaken; [apply (wp_redirects_strict s1 tok); [apply Hm|done|by rewrite Hkind]|].
    intros rs s2 [H2 Hrs]. eapply (Hturn s2 _ 1%nat); [by apply (moves_trans 0 1 1 _ s1)|lia| |].
    + unfold simple_ok. simpl. by rewrite forallb_app, Ha, Hw, Hr, Hrs, Hh.
    + unfold simple_size. simpl. lia.
  - destruct Hseen' as (tok & Htok & Hkind). apply wp_then.
    eapply wp_weaken; [apply (wp_redirects_strict s1 tok); [apply Hm|done|by rewrite Hkind]|].
    intros rs s2 [H2 Hrs]. eapply (Hturn s2 _ 1%nat); [by apply (moves_trans 0 1 1 _ s1)|lia| |].
    + unfold simple_ok. simpl. by rewrite forallb_app, Ha, Hw, Hr, Hrs, Hh.
    + unfold simple_size. simpl. lia.
  - go.
  - go. go. destruct (s_here_doc c); [exact I|]. eapply Hturn; [done|lia| |].
    + unfold simple_ok. simpl in *. by rewrite Ha, Hw, Hr, Hw0.
    + unfold simple_size. simpl. lia.
  - go.
Qed.

Lemma pspec_parse_simple_command :
  pspec anywhere 1 (parse_simple_command dollar) (fun c => command_ok c = true).
Proof.
  intros s Hs _. pose proof (moves_refl s Hs) as Hm. unfold parse_simple_command.
  apply wp_then, wp_walking. eapply wp_weaken; [apply simple_loop_ok; [done|apply tokens_left_enough|done]|].
  intros c s1 [H1 Hc]. destruct (is_nil (s_words c) && is_nil (s_assignments c)) eqn:En; [go; go|].
  assert (Hm1 : moves 1 s s1).
  { destruct H1 as (? & ? & ?). split; [done|split; [done|]].
    unfold simple_size in *. simpl in *. destruct (s_words c), (s_assignments c); simpl in *; done || lia. }
  clear H1. go. apply wp_then, wp_result.
  pose proof (check_duplication_order_ok (s_redirects c) k) as Ho.
  destruct (check_duplication_order _ _) as [[]|[?|]]; [|done|done].
  go_end. cbn [command_ok]. rewrite En, Ho. simpl.
  unfold simple_ok in Hc. apply andb_prop in Hc as [Hc Hh]. apply andb_prop in Hc as [Hc Hr].
  apply andb_prop in Hc as [Ha Hw]. unfold assignment_ok, redirect_ok in *. rewrite Ha, Hw, Hr. simpl.
  by destruct (s_here_doc c).
Qed.

(** *** Nesting *)

(** A method that begins where a token has been looked at. *)
Definition pspec_at {A : Type} (D : Depth → Prop) (k : nat) (m : parse_m A) (P : A → Prop) : Prop :=
  ∀ s, parser_ok s → D (depth s) → ahead 1 s → wp m (fun x s' => moves k s s' ∧ P x) s.

(** The depths that leave room for [n] constructs at most. *)
Definition room (n : nat) (d : Depth) : Prop := 64 - (d_lexer d + d_block d) < Z.of_nat n.

Lemma units_pos (c : Construct) : 1 ≤ units c.
Proof. destruct c; simpl; lia. Qed.

Lemma wp_nested {A : Type} (n k : nat) (c : Construct) (m : parse_m A) (P : A → Prop) (s : Parser) :
  parser_ok s → room (S n) (depth s) →
  (∀ s1, parser_ok s1 → room n (depth s1) → (ahead 1 s → ahead 1 s1) →
     wp m (fun x s' => moves k s1 s' ∧ P x) s1) →
  wp (nested dollar c m) (fun x s' => moves k s s' ∧ P x) s.
Proof.
  intros Hs Hroom Hm. pose proof (moves_refl s Hs) as H0. unfold nested.
  apply wp_then, wp_gets. apply wp_then. eapply wp_weaken; [by apply wp_current_line|]. intros at_line s1 [Hl _].
  assert (Hs1 : parser_ok s1) by apply Hl. assert (Hd1 : depth s1 = depth s) by apply Hl.
  apply wp_then, wp_result. unfold depth_nest. pose proof (units_pos c) as Hu.
  destruct (MAX_NESTING_DEPTH <? _) eqn:E; simpl; [exact I|]. unfold MAX_NESTING_DEPTH in E. dk_bool.
  apply wp_then, wp_update.
  set (d := mkDepth (d_lexer (depth s)) (d_block (depth s) + units c)). set (s2 := set_depth d s1).
  assert (Hs2 : parser_ok s2).
  { destruct Hs1 as [[? ?] ? ? ? ?], Hs as [[? ?] ? ? ? ?].
    split; try done; unfold at_level; simpl in *; split || idtac; lia. }
  assert (Hw : wp m (fun x s' => moves k s2 s' ∧ P x) s2).
  { apply Hm; [done| |].
    - unfold room in *. simpl. lia.
    - intros Ha. exact (looks_ahead 1 s s1 Hl Ha). }
  unfold wp in Hw |- *. destruct (m s2) as [[x|[e|]] s3]; [|done|done].
  destruct Hw as [([? ? ? ? ?] & Hd3 & Hp3) HP]. split; [|done]. destruct Hs as [? ? ? ? ?].
  split; [by split|]. split; [done|]. destruct Hl as [(_ & _ & Hp1) _].
  change (psi (set_depth (depth s) s3)) with (psi s3). change (psi s2) with (psi s1) in Hp3. lia.
Qed.

Lemma pspec_nested {A : Type} (n k : nat) (c : Construct) (m : parse_m A) (P : A → Prop) :
  pspec (room n) k m P → pspec (room (S n)) k (nested dollar c m) P.
Proof. intros Hm s Hs Hroom. apply (wp_nested n); [done|done|]. intros s1 H1 H2 _. by apply Hm. Qed.

Lemma pspec_nested_at {A : Type} (n k : nat) (c : Construct) (m : parse_m A) (P : A → Prop) :
  pspec_at (room n) k m P → pspec_at (room (S n)) k (nested dollar c m) P.
Proof. intros Hm s Hs Hroom Ha. apply (wp_nested n); [done|done|]. intros s1 H1 H2 H3. apply Hm; auto. Qed.

Lemma pspec_weaken {A : Type} (D : Depth → Prop) (a k : nat) (m : parse_m A) (P : A → Prop) :
  pspec anywhere a m P → (k ≤ a)%nat → pspec D k m P.
Proof.
  intros Hm Hk s Hs _. pose proof (moves_refl s Hs) as H0. by apply (go_tail s s 0 a k anywhere m P P).
Qed.

Lemma room_zero (s : Parser) : parser_ok s → room 0 (depth s) → False.
Proof. intros [? ? ? ? ?]. unfold room. lia. Qed.

(** Calling where a token has been looked at. *)
Lemma go_call_at {A B : Type} (s0 : Parser) (j : nat) (Q : B → Parser → Prop) (D : Depth → Prop) (k : nat)
    (m : parse_m A) (P : A → Prop) (f : A → parse_m B) (s : Parser) :
  pspec_at D k m P → moves j s0 s → D (depth s) → ahead 1 s →
  (∀ x s', moves (j + k) s0 s' → P x → wp (f x) Q s') → wp (bind m f) Q s.
Proof.
  intros Hm Hs HD Ha Hf. apply wp_then. eapply wp_weaken; [apply Hm; [apply Hs|done|done]|].
  intros x s' [Hs' HP]. apply Hf; [|done]. by apply (moves_trans j k (j + k) _ s).
Qed.

(** The depth is the one the body began at. *)
Ltac same_depth :=
  match goal with
  | |- anywhere _ => exact I
  | |- _ => assumption
  | Hm : moves _ ?s0 ?s |- _ (depth ?s) => rewrite (proj1 (proj2 Hm)); assumption
  end.
Ltac go_call_with spec :=
  match goal with
  | Hm : moves ?j ?s0 ?s |- wp (bind _ _) _ ?s =>
      let x := fresh "x" in let s' := fresh "s" in let Hm' := fresh "Hm" in let Hx := fresh "Hx" in
      refine (go_call s0 j _ _ _ _ _ _ s spec Hm _ _); [same_depth|intros x s' Hm' Hx; clear Hm]
  end.
Ltac go_call_at_with spec :=
  match goal with
  | Hm : moves ?j ?s0 ?s, Ha : ahead 1 ?s |- wp (bind _ _) _ ?s =>
      let x := fresh "x" in let s' := fresh "s" in let Hm' := fresh "Hm" in let Hx := fresh "Hx" in
      refine (go_call_at s0 j _ _ _ _ _ _ s spec Hm _ Ha _); [same_depth|intros x s' Hm' Hx; clear Hm Ha]
  end.

Ltac join :=
  match goal with
  | Hm : moves _ _ ?s |- parser_ok ?s => apply Hm
  | H1 : moves ?a ?s0 ?s1, H2 : moves ?b ?s1 ?s2 |- moves ?c ?s0 ?s2 =>
      apply (moves_trans a b c _ _ _ H1 H2); lia
  end.

(** *** Conditionals *)

Lemma operands_loop_ok (fuel : nat) (words : list Word) (s : Parser) :
  parser_ok s → (psi s < fuel)%nat → forallb word_ok words = true →
  wp (operands_loop dollar words fuel)
    (fun r s' => moves (length r - length words) s s' ∧ forallb word_ok r = true) s.
Proof.
  revert words s. induction fuel as [|fuel IH]; intros words s Hs Hf Hw; [lia|]. simpl.
  pose proof (moves_refl s Hs) as Hm.
  assert (Hend : ∀ s1, moves 0 s s1 →
    wp (ret words) (fun r s' => moves (length r - length words) s s' ∧ forallb word_ok r = true) s1).
  { intros s1 H1. split; [|done]. by rewrite Nat.sub_diag. }
  assert (Hturn : ∀ s1 w, moves 1 s s1 → word_ok w = true →
    wp (operands_loop dollar (words ++ [w]) fuel)
      (fun r s' => moves (length r - length words) s s' ∧ forallb word_ok r = true) s1).
  { intros s1 w H1 Hw1. eapply wp_weaken.
    - apply IH; [apply H1|destruct H1 as (_ & _ & ?); lia|by rewrite forallb_snoc, Hw, Hw1].
    - intros r s2 [H2 Hr]. split; [|done]. rewrite length_app in H2. simpl in H2.
      apply (moves_trans _ _ _ _ _ _ H1 H2). lia. }
  go. on_token; [|by apply Hend]. destruct t; try by apply Hend.
  - match goal with |- context [is_literal_word ?k ?w] => destruct (is_literal_word k w) end; [by apply Hend|].
    go. by apply Hturn.
  - match goal with |- context [match ?x with Stdout => _ | _ => _ end] => destruct x end; try by apply Hend.
    match goal with |- context [if ?b then _ else _] => destruct b end; try by apply Hend.
    go. by apply Hturn.
  - go. by apply Hturn.
Qed.

Lemma check_operator_fuel (words : list Word) (at_line : Z) : check_operator words at_line ≠ Err OutOfFuel.
Proof. unfold check_operator. by repeat case_match. Qed.

Lemma pspec_parse_conditional_test :
  pspec anywhere 1 (parse_conditional_test dollar) (fun c => conditional_ok c = true).
Proof.
  intros s Hs _. pose proof (moves_refl s Hs) as Hm. unfold parse_conditional_test. go.
  match goal with H : moves 0 s ?s1 |- _ =>
    assert (Hw : wp (walking (operands_loop dollar [])) (fun r s' => moves (length r) s1 s' ∧
      forallb word_ok r = true) s1) end.
  { apply wp_walking. eapply wp_weaken; [apply operands_loop_ok; [apply Hm0|apply tokens_left_enough|done]|].
    intros r s2 [H2 Hr]. simpl in H2. by rewrite Nat.sub_0_r in H2. }
  apply wp_then. eapply wp_weaken; [exact Hw|]. intros words s2 [H2 Hr].
  assert (Hm2 : moves (length words) s s2) by (by apply (moves_trans _ _ _ _ _ _ Hm0 H2)). clear Hm0 H2 Hw.
  destruct (is_nil words) eqn:En; [go|]. destruct (3 <? length words)%nat eqn:E3; [exact I|].
  apply wp_then, wp_result. pose proof (check_operator_fuel words k) as Hc.
  destruct (check_operator words k) as [b|[?|]]; [|exact I|done].
  apply Nat.ltb_ge in E3. refine (go_ret s s2 _ _ _ _ Hm2 _ _).
  - destruct words; simpl in *; [done|lia].
  - cbn [conditional_ok]. rewrite En, Hr. apply Nat.leb_le in E3. by rewrite E3.
Qed.

Section ConditionalLevel.

Context (n : nat) (inner_or inner_unary : parse_m Conditional).
Context (Hor : pspec (room n) 1 inner_or (fun c => conditional_ok c = true)).
Context (Hunary : pspec (room n) 1 inner_unary (fun c => conditional_ok c = true)).

Lemma pspec_parse_test_not :
  pspec_at (room n) 1 (parse_test_not inner_unary) (fun c => conditional_ok c = true).
Proof.
  intros s Hs HD Ha. pose proof (moves_refl s Hs) as Hm. unfold parse_test_not. go.
  go_call_with Hunary. by go_end.
Qed.

Lemma pspec_parse_test_group :
  pspec_at (room n) 1 (parse_test_group dollar inner_or) (fun c => conditional_ok c = true).
Proof.
  intros s Hs HD Ha. pose proof (moves_refl s Hs) as Hm. unfold parse_test_group. go. go.
  go_call_with Hor. go. on_token; [|exact I]. destruct t; try exact I. go. by go_end.
Qed.

Lemma pspec_conditional_unary :
  pspec (room (S n)) 1 (conditional_unary dollar inner_or inner_unary) (fun c => conditional_ok c = true).
Proof.
  intros s Hs HD. pose proof (moves_refl s Hs) as Hm. unfold conditional_unary. go. destruct k.
  - specialize (Hk eq_refl). go_turn 1%nat. apply (pspec_nested_at n _ _ _ _ pspec_parse_test_not); [done| |done].
    by rewrite Hd.
  - clear Hk. go. on_token.
    + destruct t; try (go_turn 1%nat; by apply pspec_parse_conditional_test).
      go_turn 1%nat. apply (pspec_nested_at n _ _ _ _ pspec_parse_test_group); [done| |done]. by rewrite Hd.
    + go_turn 1%nat. by apply pspec_parse_conditional_test.
Qed.

Lemma conditional_and_loop_ok (fuel : nat) (terms : list Conditional) (s : Parser) :
  parser_ok s → room (S n) (depth s) → (psi s < fuel)%nat → forallb conditional_ok terms = true →
  wp (conditional_and_loop dollar inner_or inner_unary terms fuel)
    (fun r s' => moves 0 s s' ∧ forallb conditional_ok r = true ∧ (length terms ≤ length r)%nat) s.
Proof.
  revert terms s. induction fuel as [|fuel IH]; intros terms s Hs HD Hf Ht; [lia|]. simpl.
  pose proof (moves_refl s Hs) as Hm. go. on_token; [|by go_end]. destruct t; try by go_end.
  go. go_call_with pspec_conditional_unary. go_turn 0%nat. eapply wp_weaken.
  - apply IH; [done|by rewrite Hd|lia|by rewrite forallb_snoc, Ht].
  - intros r s' (H1 & H2 & H3). rewrite length_app in H3. simpl in H3. split; [done|]. split; [done|lia].
Qed.

(** The first turn of a loop whose operator has just been seen. *)
Lemma conditional_and_first (first : Conditional) (s : Parser) (t : Token) :
  parser_ok s → room (S n) (depth s) → seen s !! position s = Some t → kind t = AndAnd →
  conditional_ok first = true →
  wp (walking (conditional_and_loop dollar inner_or inner_unary [first]))
    (fun r s' => moves 0 s s' ∧ forallb conditional_ok r = true ∧ (2 ≤ length r)%nat) s.
Proof.
  intros Hs HD Ht Hk Hfirst. pose proof (moves_refl s Hs) as Hm. apply wp_walking. cbn [conditional_and_loop].
  assert (Ha : ahead 1 s) by (apply (lookup_ahead 0 s t); by rewrite Nat.add_0_r).
  apply wp_then, (wp_peek_again s t); [done|]. rewrite Hk. go.
  go_call_with pspec_conditional_unary. go_turn 0%nat.
  pose proof (tokens_left_enough s). apply conditional_and_loop_ok; [done|by rewrite Hd|lia|].
  simpl. by rewrite Hfirst, Hx.
Qed.

Lemma pspec_conditional_and :
  pspec (room (S n)) 1 (conditional_and dollar inner_or inner_unary) (fun c => conditional_ok c = true).
Proof.
  intros s Hs HD. pose proof (moves_refl s Hs) as Hm. unfold conditional_and.
  go_call_with pspec_conditional_unary. look_with wp_peek_kind_seen. destruct Hk as [Hk Hseen].
  on_token; [|by go_end]. destruct t; try by go_end.
  match goal with Hs : Some _ = kind <$> seen ?s1 !! _ |- _ =>
    destruct (seen s1 !! position s1) as [tok|] eqn:Et; [|done] end.
  injection Hseen as Hk. apply wp_then.
  eapply wp_weaken; [apply (conditional_and_first x _ tok); [join|same_depth|done|done|done]|].
  intros r s2 (H2 & Hr & Hlen). eapply (go_ret s s2 1); [join|lia|].
  cbn [conditional_ok]. rewrite Hr. apply Nat.leb_le in Hlen. by rewrite Hlen.
Qed.

Lemma conditional_or_loop_ok (fuel : nat) (terms : list Conditional) (s : Parser) :
  parser_ok s → room (S n) (depth s) → (psi s < fuel)%nat → forallb conditional_ok terms = true →
  wp (conditional_or_loop dollar inner_or inner_unary terms fuel)
    (fun r s' => moves 0 s s' ∧ forallb conditional_ok r = true ∧ (length terms ≤ length r)%nat) s.
Proof.
  revert terms s. induction fuel as [|fuel IH]; intros terms s Hs HD Hf Ht; [lia|]. simpl.
  pose proof (moves_refl s Hs) as Hm. go. on_token; [|by go_end]. destruct t; try by go_end.
  go. go_call_with pspec_conditional_and. go_turn 0%nat. eapply wp_weaken.
  - apply IH; [done|by rewrite Hd|lia|by rewrite forallb_snoc, Ht].
  - intros r s' (H1 & H2 & H3). rewrite length_app in H3. simpl in H3. split; [done|]. split; [done|lia].
Qed.

Lemma conditional_or_first (first : Conditional) (s : Parser) (t : Token) :
  parser_ok s → room (S n) (depth s) → seen s !! position s = Some t → kind t = OrOr →
  conditional_ok first = true →
  wp (walking (conditional_or_loop dollar inner_or inner_unary [first]))
    (fun r s' => moves 0 s s' ∧ forallb conditional_ok r = true ∧ (2 ≤ length r)%nat) s.
Proof.
  intros Hs HD Ht Hk Hfirst. pose proof (moves_refl s Hs) as Hm. apply wp_walking. cbn [conditional_or_loop].
  assert (Ha : ahead 1 s) by (apply (lookup_ahead 0 s t); by rewrite Nat.add_0_r).
  apply wp_then, (wp_peek_again s t); [done|]. rewrite Hk. go.
  go_call_with pspec_conditional_and. go_turn 0%nat.
  pose proof (tokens_left_enough s). apply conditional_or_loop_ok; [done|by rewrite Hd|lia|].
  simpl. by rewrite Hfirst, Hx.
Qed.

Lemma pspec_conditional_or :
  pspec (room (S n)) 1 (conditional_or dollar inner_or inner_unary) (fun c => conditional_ok c = true).
Proof.
  intros s Hs HD. pose proof (moves_refl s Hs) as Hm. unfold conditional_or.
  go_call_with pspec_conditional_and. look_with wp_peek_kind_seen. destruct Hk as [Hk Hseen].
  on_token; [|by go_end]. destruct t; try by go_end.
  match goal with Hs : Some _ = kind <$> seen ?s1 !! _ |- _ =>
    destruct (seen s1 !! position s1) as [tok|] eqn:Et; [|done] end.
  injection Hseen as Hk. apply wp_then.
  eapply wp_weaken; [apply (conditional_or_first x _ tok); [join|same_depth|done|done|done]|].
  intros r s2 (H2 & Hr & Hlen). eapply (go_ret s s2 1); [join|lia|].
  cbn [conditional_ok]. rewrite Hr. apply Nat.leb_le in Hlen. by rewrite Hlen.
Qed.

End ConditionalLevel.

Lemma parse_conditional_ok (n : nat) :
  pspec (room n) 1 (parse_conditional_or dollar n) (fun c => conditional_ok c = true) ∧
  pspec (room n) 1 (parse_conditional_unary dollar n) (fun c => conditional_ok c = true).
Proof.
  induction n as [|n [IHo IHu]].
  - split; intros s Hs HD; by destruct (room_zero s Hs HD).
  - split; [by apply pspec_conditional_or|by apply pspec_conditional_unary].
Qed.

(** *** Heads of compound commands *)

Lemma pspec_parse_case_pattern : pspec anywhere 1 (parse_case_pattern dollar) (fun w => word_ok w = true).
Proof.
  intros s Hs _. pose proof (moves_refl s Hs) as Hm. unfold parse_case_pattern. go. go.
  on_token; [|go]. destruct t; try (by go); go; by go_end.
Qed.

Lemma patterns_loop_ok (fuel : nat) (patterns : list Word) (s : Parser) :
  parser_ok s → (psi s < fuel)%nat → patterns ≠ [] → forallb word_ok patterns = true →
  wp (patterns_loop dollar patterns fuel)
    (fun r s' => moves 0 s s' ∧ r ≠ [] ∧ forallb word_ok r = true) s.
Proof.
  revert patterns s. induction fuel as [|fuel IH]; intros patterns s Hs Hf Hne Hp; [lia|]. simpl.
  pose proof (moves_refl s Hs) as Hm. go. on_token; [|by go_end]. destruct t; try by go_end.
  go. go_call_with (pspec_skip (fun k => match k with Newline => true | _ => false end)).
  go_call_with pspec_parse_case_pattern. go_turn 0%nat.
  apply IH; [done|lia| |by rewrite forallb_snoc, Hp]. by intros [_ ?]%app_eq_nil.
Qed.

Lemma for_words_loop_ok (fuel : nat) (words : list Word) (s : Parser) :
  parser_ok s → (psi s < fuel)%nat → forallb word_ok words = true →
  wp (for_words_loop dollar words fuel) (fun r s' => moves 0 s s' ∧ forallb word_ok r = true) s.
Proof.
  revert words s. induction fuel as [|fuel IH]; intros words s Hs Hf Hw; [lia|]. simpl.
  pose proof (moves_refl s Hs) as Hm. go. on_token; [|by go_end]. destruct t; try by go_end.
  go. match goal with |- context [is_word ?k ?w] => destruct (is_word k w) end; [by go_end|].
  go. go_turn 0%nat. apply IH; [done|lia|]. by rewrite forallb_snoc, Hw.
Qed.

Lemma pspec_parse_for_head :
  pspec anywhere 1 (parse_for_head dollar)
    (fun r => is_valid_name r.1 = true ∧ forallb word_ok r.2 = true).
Proof.
  intros s Hs HD. pose proof (moves_refl s Hs) as Hm. unfold parse_for_head.
  go_call_with (pspec_expect_reserved "for" CFor). go. go. on_token; [|exact I]. destruct t; try exact I.
  destruct (as_literal w) as [variable|]; [|exact I].
  destruct (is_valid_name variable) eqn:En; simpl; [|exact I]. go.
  go_call_with (pspec_expect_reserved "in" CFor).
  assert (Hwords : pspec anywhere 0 (walking (for_words_loop dollar [])) (fun r => forallb word_ok r = true)).
  { apply pspec_walking. intros fuel s9 H9 _ Hf9. by apply for_words_loop_ok. }
  go_call_with Hwords.
  go_call_with (pspec_skip (fun k => match k with Newline | Semicolon => true | _ => false end)).
  go_call_with (pspec_expect_reserved "do" CFor). by go_end.
Qed.

Lemma pspec_parse_case_head : pspec anywhere 1 (parse_case_head dollar) (fun w => word_ok w = true).
Proof.
  intros s Hs HD. pose proof (moves_refl s Hs) as Hm. unfold parse_case_head.
  go_call_with (pspec_expect_reserved "case" CCase). go. go. on_token; [|exact I]. destruct t; try exact I. go.
  go_call_with (pspec_skip (fun k => match k with Newline => true | _ => false end)).
  go_call_with (pspec_expect_reserved "in" CCase). by go_end.
Qed.

Lemma pspec_parse_case_patterns :
  pspec anywhere 1 (parse_case_patterns dollar) (fun r => r ≠ [] ∧ forallb word_ok r = true).
Proof.
  intros s Hs HD. pose proof (moves_refl s Hs) as Hm. unfold parse_case_patterns. go.
  assert (Hrest : ∀ s9, moves 0 s s9 →
    wp (let! first := parse_case_pattern dollar in
        let! patterns := walking (patterns_loop dollar [first]) in
        let! k := peek_kind dollar in
        match k with
        | Some RightParen => do! advance_by 1 in ret patterns
        | _ => refuse_here dollar ExpectedCasePatternClose
        end) (fun r s' => moves 1 s s' ∧ r ≠ [] ∧ forallb word_ok r = true) s9).
  { intros s9 Hm9. go_call_with pspec_parse_case_pattern.
    assert (Hp : pspec anywhere 0 (walking (patterns_loop dollar [x])) (fun r => r ≠ [] ∧ forallb word_ok r = true)).
    { apply pspec_walking. intros fuel s8 H8 _ Hf8. apply patterns_loop_ok; [done|done|done|]. simpl. by rewrite Hx. }
    go_call_with Hp. go. on_token; [|go]. destruct t; try (by go); go; by go_end. }
  on_token; [|by apply wp_then, wp_ret, Hrest].
  destruct t; try (by apply wp_then, wp_ret, Hrest).
  go. apply Hrest. match goal with H : moves _ s ?s1 |- _ => destruct H as (? & ? & ?) end.
  split; [done|split; [done|lia]].
Qed.

Lemma pspec_parse_function_head :
  pspec anywhere 0 (parse_function_head dollar)
    (fun r => option_ok function_name_ok r = true).
Proof.
  intros s Hs HD. pose proof (moves_refl s Hs) as Hm. unfold parse_function_head. go.
  on_token; [|by go_end]. destruct t; try by go_end. destruct (as_literal w) as [name|]; [|by go_end].
  go. destruct k as [[]|]; try by go_end. go. destruct k as [[]|]; try by go_end.
  match goal with H : sees 3 _ _ |- _ => specialize (H ltac:(eauto)) end. go.
  destruct (is_valid_name name) eqn:E1; cbn [negb]; [|exact I].
  destruct (rejected_lookup name) eqn:E2; [exact I|].
  destruct (existsb (str_eqb name) RESERVED_WORDS) eqn:E3; [exact I|]. go.
  go_call_with (pspec_skip (fun k => match k with Newline => true | _ => false end)).
  go. on_token; [|go]. destruct t; try (by go). go. go_end. cbn [option_ok].
  unfold function_name_ok. by rewrite E1, E2, E3.
Qed.

Lemma pspec_eat_pipeline_negation : pspec anywhere 0 (eat_pipeline_negation dollar) (fun _ => True).
Proof.
  intros s Hs HD. pose proof (moves_refl s Hs) as Hm. unfold eat_pipeline_negation. go. destruct k; [|by go_end].
  specialize (Hk eq_refl). go. by go_end.
Qed.

(** *** Compound commands *)

Definition branch_ok (b : AndOrList * Program) : bool := let '(c, p) := b in and_or_ok c && program_ok p.
Definition clause_ok (c : list Word * Program) : bool :=
  let '(ps, p) := c in negb (is_nil ps) && forallb word_ok ps && program_ok p.
Definition term_ok (x : AndOr * Pipeline) : bool := let '(_, p) := x in pipeline_ok p.

Section GrammarLevel.

Context (n : nat).
Context (inner_program : list string → parse_m Program).
Context (inner_and_or : parse_m AndOrList).
Context (inner_conditional : parse_m Conditional).
Context (Hprogram : ∀ ts, pspec (room n) 0 (inner_program ts) (fun p => program_ok p = true)).
Context (Hand_or : pspec (room n) 1 inner_and_or (fun l => and_or_ok l = true)).
Context (Hconditional : pspec (room n) 1 inner_conditional (fun c => conditional_ok c = true)).

Lemma pspec_parse_conditional :
  pspec_at (room n) 1 (parse_conditional dollar inner_conditional) (fun c => conditional_ok c = true).
Proof.
  intros s Hs HD Ha. pose proof (moves_refl s Hs) as Hm. unfold parse_conditional. go. go.
  go_call_with Hconditional. go. match goal with |- wp (if ?b then _ else _) _ _ => destruct b end; [|go].
  match goal with H : true = true → _ |- _ => specialize (H eq_refl) end. go. by go_end.
Qed.

Lemma pspec_parse_branch (c : Construct) :
  pspec (room n) 1 (parse_branch dollar inner_program inner_and_or c) (fun b => branch_ok b = true).
Proof.
  intros s Hs HD. pose proof (moves_refl s Hs) as Hm. unfold parse_branch.
  go_call_with Hand_or. go_call_with (pspec_skip (fun k => match k with Newline | Semicolon => true | _ => false end)).
  go_call_with (pspec_expect_reserved "then" c). go_call_with (Hprogram ["elif"; "else"; "fi"]%string).
  go_end. unfold branch_ok. apply andb_true_intro. by split.
Qed.

Lemma if_loop_ok (fuel : nat) (branches : list (AndOrList * Program)) (s : Parser) :
  parser_ok s → room n (depth s) → (psi s < fuel)%nat → branches ≠ [] → forallb branch_ok branches = true →
  wp (if_loop dollar inner_program inner_and_or branches fuel)
    (fun r s' => moves 0 s s' ∧ r.1 ≠ [] ∧ forallb branch_ok r.1 = true ∧ option_ok program_ok r.2 = true) s.
Proof.
  revert branches s. induction fuel as [|fuel IH]; intros branches s Hs HD Hf Hne Hb; [lia|]. simpl.
  pose proof (moves_refl s Hs) as Hm. go. destruct (is_word k "elif") eqn:E1.
  { ahead_reserved. go. go_call_with (pspec_parse_branch CElif). go_turn 0%nat.
    apply IH; [done|by rewrite Hd|lia| |by rewrite forallb_snoc, Hb]. by intros [_ ?]%app_eq_nil. }
  destruct (is_word k "else") eqn:E2; [|by go_end].
  ahead_reserved. go. go_call_with (Hprogram ["fi"]%string). by go_end.
Qed.

Lemma pspec_parse_if :
  pspec (room n) 1 (parse_if dollar inner_program inner_and_or) (fun st => statement_ok st = true).
Proof.
  intros s Hs HD. pose proof (moves_refl s Hs) as Hm. unfold parse_if.
  go_call_with (pspec_expect_reserved "if" CIf). go_call_with (pspec_parse_branch CIf).
  match goal with H : branch_ok ?b = true |- _ => assert (Hloop : pspec (room n) 0
    (walking (if_loop dollar inner_program inner_and_or [b]))
    (fun r => r.1 ≠ [] ∧ forallb branch_ok r.1 = true ∧ option_ok program_ok r.2 = true)) end.
  { apply pspec_walking. intros fuel s9 H9 HD9 Hf9. apply if_loop_ok; try done. simpl. by rewrite Hx0. }
  go_call_with Hloop. destruct x1 as [branches otherwise]. destruct Hx1 as (Hne & Hb & Ho).
  go_call_with (pspec_expect_reserved "fi" CIf). go_end. cbn [statement_ok]. simpl in *.
  destruct branches; [done|]. unfold branch_ok in Hb. by rewrite Hb.
Qed.

Lemma pspec_parse_while (until : bool) :
  pspec (room n) 1 (parse_while dollar inner_program inner_and_or until) (fun st => statement_ok st = true).
Proof.
  intros s Hs HD. pose proof (moves_refl s Hs) as Hm. unfold parse_while.
  go_call_with (pspec_expect_reserved (if until then "until" else "while") (if until then CUntil else CWhile)).
  go_call_with Hand_or. go_call_with (pspec_skip (fun k => match k with Newline | Semicolon => true | _ => false end)).
  go_call_with (pspec_expect_reserved "do" (if until then CUntil else CWhile)).
  go_call_with (Hprogram ["done"]%string).
  go_call_with (pspec_expect_reserved "done" (if until then CUntil else CWhile)).
  go_end. cbn [statement_ok]. apply andb_true_intro. by split.
Qed.

Lemma pspec_parse_for_body :
  pspec (room n) 0 (parse_for_body dollar inner_program) (fun p => program_ok p = true).
Proof.
  intros s Hs HD. pose proof (moves_refl s Hs) as Hm. unfold parse_for_body.
  go_call_with (Hprogram ["done"]%string). go_call_with (pspec_expect_reserved "done" CFor). by go_end.
Qed.

Lemma pspec_parse_group :
  pspec_at (room n) 1 (parse_group dollar inner_program)
    (fun p => is_nil (statements p) = false ∧ program_ok p = true).
Proof.
  intros s Hs HD Ha. pose proof (moves_refl s Hs) as Hm. unfold parse_group. go. go.
  go_call_with (Hprogram ["}"]%string). go. on_token; [|exact I]. destruct t; try exact I. go.
  match goal with |- context [is_nil (statements ?p)] => destruct (is_nil (statements p)) eqn:En end; [exact I|].
  by go_end.
Qed.

Lemma pspec_parse_case_body :
  pspec (room n) 0 (parse_case_body dollar inner_program) (fun p => program_ok p = true).
Proof.
  intros s Hs HD. pose proof (moves_refl s Hs) as Hm. unfold parse_case_body.
  go_call_with (Hprogram ["esac"]%string). go.
  assert (Hrest : ∀ s9, moves 0 s s9 →
    wp (let! r := peek_reserved dollar in
        if is_word r "esac" then ret x else refuse_here dollar ExpectedCaseClauseEnd)
      (fun p s' => moves 0 s s' ∧ program_ok p = true) s9).
  { intros s9 Hm9. go. match goal with |- context [is_word ?r ?w] => destruct (is_word r w) end; [by go_end|go]. }
  on_token; [|by apply Hrest]. destruct t; try (by apply Hrest). go. by go_end.
Qed.

Lemma pspec_parse_case_clause :
  pspec (room (S n)) 1 (parse_case_clause dollar inner_program) (fun c => clause_ok c = true).
Proof.
  intros s Hs HD. pose proof (moves_refl s Hs) as Hm. unfold parse_case_clause.
  go_call_with pspec_parse_case_patterns. go_call_with (pspec_nested n 0 CCase _ _ pspec_parse_case_body).
  go_end. destruct Hx as [Hne Hps]. unfold clause_ok. rewrite Hps, Hx0. by destruct x.
Qed.

Lemma clauses_loop_ok (fuel : nat) (clauses : list (list Word * Program)) (s : Parser) :
  parser_ok s → room (S n) (depth s) → (psi s < fuel)%nat → forallb clause_ok clauses = true →
  wp (clauses_loop dollar inner_program clauses fuel)
    (fun r s' => moves 0 s s' ∧ forallb clause_ok r = true) s.
Proof.
  revert clauses s. induction fuel as [|fuel IH]; intros clauses s Hs HD Hf Hc; [lia|]. simpl.
  pose proof (moves_refl s Hs) as Hm.
  go_call_with (pspec_skip (fun k => match k with Newline | Semicolon => true | _ => false end)). go.
  match goal with |- context [is_word ?r ?w] => destruct (is_word r w) end; [by go_end|]. go.
  match goal with |- wp match ?t with _ => _ end _ _ => destruct t as [tok|] end; [|go].
  go_call_with pspec_parse_case_clause. go_turn 0%nat. apply IH; [done|by rewrite Hd|lia|by rewrite forallb_snoc, Hc].
Qed.

Lemma pspec_parse_case :
  pspec (room (S n)) 1 (parse_case dollar inner_program) (fun st => statement_ok st = true).
Proof.
  intros s Hs HD. pose proof (moves_refl s Hs) as Hm. unfold parse_case. go_call_with pspec_parse_case_head.
  assert (Hloop : pspec (room (S n)) 0 (walking (clauses_loop dollar inner_program []))
    (fun r => forallb clause_ok r = true)).
  { apply pspec_walking. intros fuel s9 H9 HD9 Hf9. by apply clauses_loop_ok. }
  go_call_with Hloop. go_call_with (pspec_expect_reserved "esac" CCase). go_end. cbn [statement_ok].
  unfold clause_ok in Hx0. by rewrite Hx, Hx0.
Qed.

Lemma pspec_parse_for :
  pspec (room (S n)) 1 (parse_for dollar inner_program) (fun st => statement_ok st = true).
Proof.
  intros s Hs HD. pose proof (moves_refl s Hs) as Hm. unfold parse_for. go_call_with pspec_parse_for_head.
  destruct x as [variable words], Hx as [Hv Hw]. simpl in Hv, Hw.
  go_call_with (pspec_nested n 0 CFor _ _ pspec_parse_for_body). go_end. cbn [statement_ok].
  match goal with H : program_ok _ = true |- _ => by rewrite Hv, Hw, H end.
Qed.

(** A compound command takes a token; where there is none, nothing is taken. *)
Definition compound_post (s0 : Parser) (r : option Statement) (s : Parser) : Prop :=
  moves (match r with Some _ => 1 | None => 0 end) s0 s ∧ option_ok statement_ok r = true.

Lemma some_ok (m : parse_m Statement) (s0 s : Parser) :
  wp m (fun x s' => moves 1 s0 s' ∧ statement_ok x = true) s →
  wp (let! x := m in ret (Some x)) (compound_post s0) s.
Proof. intros Hm. apply wp_then. eapply wp_weaken; [exact Hm|]. intros x s' [H1 H2]. by apply wp_ret. Qed.

Ltac some_tail spec :=
  match goal with
  | Hm : moves ?j ?s0 ?s |- wp _ _ ?s =>
      refine (some_ok _ s0 s (go_tail s0 s j 1 1 _ _ _ _ spec Hm _ _ (fun _ H => H))); [same_depth|lia]
  end.

Lemma parse_compound_ok (s : Parser) :
  parser_ok s → room (S n) (depth s) →
  wp (parse_compound dollar inner_program inner_and_or inner_conditional) (compound_post s) s.
Proof.
  intros Hs HD. pose proof (moves_refl s Hs) as Hm. unfold parse_compound. cbv beta zeta. go.
  destruct (is_word k "if"); [some_tail (pspec_nested n 1 CIf _ _ pspec_parse_if)|].
  destruct (is_word k "for"); [some_tail pspec_parse_for|].
  destruct (is_word k "while"); [some_tail (pspec_nested n 1 CWhile _ _ (pspec_parse_while false))|].
  destruct (is_word k "until"); [some_tail (pspec_nested n 1 CUntil _ _ (pspec_parse_while true))|].
  destruct (is_word k "case"); [some_tail pspec_parse_case|].
  clear Hk. go. match goal with |- wp (if ?b then _ else _) _ _ => destruct b end.
  { match goal with H : true = true → _ |- _ => specialize (H eq_refl) end. apply some_ok.
    go_call_at_with (pspec_nested_at n 1 CConditional _ _ pspec_parse_conditional). by go_end. }
  go. on_token; [|by split]. destruct t; try (by split). apply some_ok.
  go_call_at_with (pspec_nested_at n 1 CGroup _ _ pspec_parse_group). go_end. destruct Hx as [H1 H2].
  cbn [statement_ok]. by rewrite H1, H2.
Qed.

Lemma pspec_parse_command :
  pspec (room (S n)) 1 (parse_command dollar inner_program inner_and_or inner_conditional)
    (fun c => command_ok c = true).
Proof.
  intros s Hs HD. unfold parse_command. apply wp_then. eapply wp_weaken; [by apply parse_compound_ok|].
  intros [st|] s1 [Hm Hst].
  - go_call_with pspec_parse_redirects. go. apply wp_then, wp_result.
    match goal with |- context [check_duplication_order ?r ?l] =>
      pose proof (check_duplication_order_ok r l) as Ho; destruct (check_duplication_order r l) as [[]|[?|]] end;
      [|done|done].
    go_end. cbn [command_ok]. simpl in Hst. unfold redirect_ok in Hx. by rewrite Hst, Hx, Ho.
  - go_turn 1%nat. by apply pspec_parse_simple_command.
Qed.

Lemma pipeline_loop_ok (fuel : nat) (commands : list Command) (s : Parser) :
  parser_ok s → room (S n) (depth s) → (psi s < fuel)%nat → commands ≠ [] → forallb command_ok commands = true →
  wp (pipeline_loop dollar inner_program inner_and_or inner_conditional commands fuel)
    (fun r s' => moves 0 s s' ∧ r ≠ [] ∧ forallb command_ok r = true) s.
Proof.
  revert commands s. induction fuel as [|fuel IH]; intros commands s Hs HD Hf Hne Hc; [lia|]. simpl.
  pose proof (moves_refl s Hs) as Hm. go. on_token; [|by go_end]. destruct t; try by go_end. go.
  go_call_with (pspec_skip (fun k => match k with Newline => true | _ => false end)).
  go_call_with pspec_parse_command. go_turn 0%nat.
  apply IH; [done|by rewrite Hd|lia| |by rewrite forallb_snoc, Hc]. by intros [_ ?]%app_eq_nil.
Qed.

Lemma pspec_parse_pipeline :
  pspec (room (S n)) 1 (parse_pipeline dollar inner_program inner_and_or inner_conditional)
    (fun p => pipeline_ok p = true).
Proof.
  intros s Hs HD. pose proof (moves_refl s Hs) as Hm. unfold parse_pipeline.
  go_call_with pspec_eat_pipeline_negation. go_call_with pspec_parse_command.
  match goal with H : command_ok ?c = true |- _ => assert (Hloop : pspec (room (S n)) 0
    (walking (pipeline_loop dollar inner_program inner_and_or inner_conditional [c]))
    (fun r => r ≠ [] ∧ forallb command_ok r = true)) end.
  { apply pspec_walking. intros fuel s9 H9 HD9 Hf9. apply pipeline_loop_ok; try done. simpl. by rewrite Hx0. }
  go_call_with Hloop. go_end. cbn [pipeline_ok]. destruct Hx1 as [Hne ->]. by destruct x1.
Qed.

Lemma and_or_loop_ok (fuel : nat) (rest : list (AndOr * Pipeline)) (s : Parser) :
  parser_ok s → room (S n) (depth s) → (psi s < fuel)%nat → forallb term_ok rest = true →
  wp (and_or_loop dollar inner_program inner_and_or inner_conditional rest fuel)
    (fun r s' => moves 0 s s' ∧ forallb term_ok r = true) s.
Proof.
  revert rest s. induction fuel as [|fuel IH]; intros rest s Hs HD Hf Hr; [lia|]. simpl.
  pose proof (moves_refl s Hs) as Hm. go. on_token; [|simpl; by go_end].
  destruct (and_or_operator (Some t)); [|by go_end]. go.
  go_call_with (pspec_skip (fun k => match k with Newline => true | _ => false end)).
  go_call_with pspec_parse_pipeline. go_turn 0%nat.
  apply IH; [done|by rewrite Hd|lia|by rewrite forallb_snoc, Hr].
Qed.

Lemma pspec_and_or_list :
  pspec (room (S n)) 1 (and_or_list dollar inner_program inner_and_or inner_conditional)
    (fun l => and_or_ok l = true).
Proof.
  intros s Hs HD. pose proof (moves_refl s Hs) as Hm. unfold and_or_list. go_call_with pspec_parse_pipeline.
  assert (Hloop : pspec (room (S n)) 0
    (walking (and_or_loop dollar inner_program inner_and_or inner_conditional []))
    (fun r => forallb term_ok r = true)).
  { apply pspec_walking. intros fuel s9 H9 HD9 Hf9. by apply and_or_loop_ok. }
  go_call_with Hloop. go_end. cbn [and_or_ok]. unfold term_ok in Hx0. by rewrite Hx, Hx0.
Qed.

Lemma try_parse_function_ok (s : Parser) :
  parser_ok s → room (S n) (depth s) → wp (try_parse_function dollar inner_program) (compound_post s) s.
Proof.
  intros Hs HD. pose proof (moves_refl s Hs) as Hm. unfold try_parse_function.
  go_call_with pspec_parse_function_head. destruct x as [name|]; [|by split].
  go_call_with (pspec_nested n 0 CFunction _ _ (Hprogram [])). go. on_token; [|go].
  destruct t; try (by go). go. split; [done|]. cbn [option_ok statement_ok] in *. by rewrite Hx, Hx0.
Qed.

Lemma pspec_parse_statement :
  pspec (room (S n)) 1 (parse_statement dollar inner_program inner_and_or inner_conditional)
    (fun st => statement_ok st = true).
Proof.
  intros s Hs HD. pose proof (moves_refl s Hs) as Hm. unfold parse_statement. go.
  destruct k as [other|].
  - destruct (contains_word _ _); [go_call_with pspec_and_or_list; by go_end|].
    repeat (match goal with |- wp (if ?b then _ else _) _ _ => destruct b end; [go|]). go.
  - clear Hk. go_turn 1%nat. assert (HD1 : room (S n) (depth s0)) by (by rewrite Hd). apply wp_then.
    eapply wp_weaken; [by apply try_parse_function_ok|]. intros [st|] s2 [Hm2 Hst]; [by split|].
    go_call_with pspec_and_or_list. by go_end.
Qed.

Lemma background_ok (st : Statement) (start : Z) :
  statement_ok st = true →
  pspec_at anywhere 1 (background dollar st start) (fun r => statement_ok r = true).
Proof.
  intros Hst s Hs _ Ha. pose proof (moves_refl s Hs) as Hm. unfold background. go.
  destruct (is_function st) eqn:Ef; [by destruct st|].
  assert (Hrest : ∀ s9, moves 0 s s9 → ahead 1 s9 →
    wp (let! t := peek dollar in
        let! src := gets parser_source in
        let end_ := match t with Some t => offset t | None => len src end in
        do! advance_by 1 in
        ret (Background st (trim (unwrap_or (str_get src start end_) []))))
      (fun r s' => moves 1 s s' ∧ statement_ok r = true) s9).
  { intros s9 Hm9 Ha9. go. go. cbv zeta. go. go_end. cbn [statement_ok]. by rewrite Ef. }
  destruct st; try done; by apply Hrest.
Qed.

Lemma pspec_program_step :
  pspec (room (S n)) 1 (program_step dollar inner_program inner_and_or inner_conditional)
    (fun r => statement_ok r.1 = true).
Proof.
  intros s Hs HD. pose proof (moves_refl s Hs) as Hm. unfold program_step. go. cbv zeta.
  go_call_with pspec_parse_statement. go.
  assert (Hrest : ∀ k s9, moves 1 s s9 →
    wp (let! closed := at_substitution_end dollar in
        if closed then ret (x, false)
        else
          let! reserved := peek_reserved dollar in
          let! at_line := current_line dollar in
          match k with
          | Some other =>
              if ends_statement other (bool_decide (is_Some reserved)) then ret (x, true)
              else refuse at_line (UnexpectedAfterCommand other)
          | None => ret (x, true)
          end) (fun r s' => moves 1 s s' ∧ statement_ok r.1 = true) s9).
  { intros k9 s9 Hm9. go. match goal with |- wp (if ?b then _ else _) _ _ => destruct b end; [by go_end|].
    go. go. destruct k9; [|by go_end].
    match goal with |- wp (if ?b then _ else _) _ _ => destruct b end; [by go_end|exact I]. }
  on_token; [|by apply (Hrest None)].
  destruct t; try (match goal with |- context [ends_statement ?t _] => by apply (Hrest (Some t)) end).
  match goal with |- context [background dollar ?st ?start] => go_call_at_with (background_ok st start Hx) end.
  by go_end.
Qed.

Lemma pspec_at_program_end (ts : list string) : pspec anywhere 0 (at_program_end dollar ts) (fun _ => True).
Proof.
  intros s Hs HD. pose proof (moves_refl s Hs) as Hm. unfold at_program_end. go.
  match goal with |- wp (if ?b then _ else _) _ _ => destruct b end; [by go_end|]. go.
  match goal with |- wp (if ?b then _ else _) _ _ => destruct b end; [by go_end|]. go. by go_end.
Qed.

Lemma program_loop_ok (fuel : nat) (ts : list string) (acc : list Statement) (s : Parser) :
  parser_ok s → room (S n) (depth s) → (psi s < fuel)%nat → forallb statement_ok acc = true →
  wp (program_loop dollar inner_program inner_and_or inner_conditional ts acc fuel)
    (fun r s' => moves 0 s s' ∧ program_ok r = true) s.
Proof.
  revert acc s. induction fuel as [|fuel IH]; intros acc s Hs HD Hf Hacc; [lia|]. simpl.
  pose proof (moves_refl s Hs) as Hm.
  go_call_with (pspec_skip (fun k => match k with Newline | Semicolon => true | _ => false end)).
  go_call_with (pspec_at_program_end ts).
  match goal with |- wp (if ?b then _ else _) _ _ => destruct b end; [by go_end|].
  go_call_with pspec_program_step. match goal with H : statement_ok (fst ?x) = true |- _ => destruct x as [st more] end.
  simpl in *. destruct more.
  - go_turn 0%nat. apply IH; [done|by rewrite Hd|lia|]. rewrite forallb_snoc, Hacc. done.
  - go_end. cbn [program_ok]. rewrite forallb_snoc, Hacc. done.
Qed.

Lemma pspec_program (ts : list string) :
  pspec (room (S n)) 0 (program dollar inner_program inner_and_or inner_conditional ts)
    (fun p => program_ok p = true).
Proof. apply pspec_walking. intros fuel s Hs HD Hf. by apply program_loop_ok. Qed.

End GrammarLevel.

(** The grammar calls itself inside a construct only, which takes room. *)
Lemma parse_program_ok (n : nat) :
  (∀ ts, pspec (room n) 0 (parse_program dollar n ts) (fun p => program_ok p = true)) ∧
  pspec (room n) 1 (parse_and_or_list dollar n) (fun l => and_or_ok l = true).
Proof.
  induction n as [|n [IHp IHl]].
  - split; [intros ts|]; intros s Hs HD; by destruct (room_zero s Hs HD).
  - destruct (parse_conditional_ok n) as [Hc _].
    split; [intros ts; by apply pspec_program|by apply pspec_and_or_list].
Qed.

(** ** Whole sources *)

(** What a call gives: an answer that satisfies [P], or an error of the code. *)
Definition answers {A : Type} (r : result fault A) (P : A → Prop) : Prop :=
  match r with Ok a => P a | Err (Error _) => True | Err OutOfFuel => False end.

Lemma new_parser_ok (source : str) (d : Depth) (at_line : Z) (sub : bool) :
  at_level v d → d_lexer d + d_block d ≤ 64 → parser_ok (new_parser source d at_line sub).
Proof. intros Hd Hfit. split; try done. unfold ahead. simpl. lia. Qed.

Lemma program_of_ok (s : Parser) :
  0 ≤ v → parser_ok s → wp (program_of dollar) (fun p s' => parser_ok s' ∧ program_ok p = true) s.
Proof.
  intros Hv Hs. assert (HD : room NESTING (depth s)).
  { destruct Hs as [[? ?] ? ? ? ?]. unfold room, NESTING. lia. }
  unfold program_of. revert HD. generalize NESTING. intros m HD.
  refine (wp_weaken _ _ _ s (proj1 (parse_program_ok m) [] s Hs HD) _). intros p s' [Hm Hp]. by split; [apply Hm|].
Qed.

Lemma checked_ok {A : Type} (m : Parser → result fault Program * Parser) (s : Parser)
    (on_lex_error : ParseError → Lexer → result fault A) (k : Program → parse_m A) (P : A → Prop) :
  wp m (fun p s' => parser_ok s' ∧ program_ok p = true) s →
  (∀ e l, answers (on_lex_error e l) P) →
  (∀ p s', parser_ok s' → program_ok p = true → wp (k p) (fun a _ => P a) s') →
  answers (checked (m s) on_lex_error k) P.
Proof.
  intros Ho Herr Hk. unfold wp in Ho. destruct (m s) as [[p|[e|]] s']; [| |done].
  - unfold checked. destruct (lex_error s') as [e|]; [apply Herr|]. apply eval_wp, Hk; apply Ho.
  - unfold checked. destruct (lex_error s') as [e'|]; [apply Herr|done].
Qed.

Lemma parse_nested_ok (source : str) (d : Depth) (at_line : Z) :
  0 ≤ v → at_level v d → d_lexer d + d_block d ≤ 64 →
  answers (parse_nested dollar source d at_line) (fun p => program_ok p = true).
Proof.
  intros Hv Hd Hfit. unfold parse_nested.
  apply (checked_ok (program_of dollar)); [by apply program_of_ok, new_parser_ok|done|].
  intros p s Hs Hp. apply wp_then. eapply wp_weaken; [by apply wp_peek|]. by intros [t|] s' _.
Qed.

(** At the depth of the substitution itself. *)
Lemma substitution_ok (source : str) (d : Depth) (at_line : Z) :
  0 ≤ v → at_level v d → d_lexer d + d_block d ≤ 64 →
  answers
    (checked (program_of dollar (new_parser source d at_line true))
       (fun e l =>
          match pending_here_doc_close l with
          | Some close =>
              let? _ := parse_nested dollar (take (Z.to_nat (close + 1)) source) d at_line in
              Err (Error e)
          | None => Err (Error e)
          end)
       (fun program =>
          let! t := peek dollar in
          match t with
          | None => refuse at_line UnterminatedSubstitution
          | Some t =>
              let end_ := offset t + 1 in
              match kind t with
              | RightParen =>
                  let! at_ := gets (fun s => offset_of (lexer s)) in
                  if at_ =? end_ then ret (program, end_)
                  else
                    do! of_result (parse_nested dollar (take (Z.to_nat end_) source) d at_line) in
                    refuse (token_line t) UnterminatedHereDocument
              | k => refuse (token_line t) (UnexpectedToken k)
              end
          end)) (fun r => program_ok r.1 = true).
Proof.
  intros Hv Hd Hfit. apply (checked_ok (program_of dollar)); [by apply program_of_ok, new_parser_ok| |].
  - intros e l. destruct (pending_here_doc_close l) as [close|]; [|done].
    pose proof (parse_nested_ok (take (Z.to_nat (close + 1)) source) d at_line Hv Hd Hfit) as Hn.
    by destruct (parse_nested _ _ _ _) as [?|[?|]].
  - intros p s Hs Hp. apply wp_then. eapply wp_weaken; [by apply wp_peek|]. intros [t|] s' [Hl _]; [|done].
    cbv zeta. destruct (kind t); try done. apply wp_then, wp_gets.
    destruct (_ =? _); [done|]. apply wp_then, wp_result.
    pose proof (parse_nested_ok (take (Z.to_nat (offset t + 1)) source) d at_line Hv Hd Hfit) as Hn.
    by destruct (parse_nested _ _ _ _) as [?|[?|]].
Qed.

End WithDollar.

(** A substitution is parsed at a level of its own, which a substitution or a
    parameter inside it raises again. *)
Lemma parse_substitution_ok (v : Z) (dollar : Z → Enclosure → lex (option WordPart)) :
  0 ≤ v → (∀ v', v < v' ≤ 63 → dollar_ok v' dollar) →
  ∀ source d at_line, at_level v d →
  answers (parse_substitution dollar source d at_line) (fun r => program_ok r.1 = true).
Proof.
  intros Hv Hinner source d at_line [Hd Hb]. unfold parse_substitution, depth_substitution, MAX_NESTING_DEPTH.
  destruct (64 - 1 <=? d_lexer d + d_block d) eqn:E; [exact I|]. dk_bool. cbn [lift result_bind].
  apply (substitution_ok (d_lexer d + d_block d + 1)); [apply Hinner; lia|lia|split; [done|simpl; lia]|simpl; lia].
Qed.

Lemma dollar_at_ok (n : nat) (v : Z) : 0 ≤ v ≤ 63 → 63 - v < Z.of_nat n → dollar_ok v (dollar_at n).
Proof.
  revert v. induction n as [|n IH]; intros v Hv Hn; [lia|]. unfold dollar_at. fold dollar_at.
  assert (Hinner : ∀ v', v < v' ≤ 63 → dollar_ok v' (dollar_at n)) by (intros v' Hv'; apply IH; lia).
  apply read_dollar_part_ok; [lia|done|]. apply parse_substitution_ok; [lia|done].
Qed.

Lemma answers_match {A : Type} (r : result fault A) (P : A → Prop) :
  answers r P → match r with Ok a => P a | Err (Error _) => True | Err OutOfFuel => False end.
Proof. exact id. Qed.

(** C10: Whatever bytes a script holds, [parse] answers: it gives a program or an
    error of the code, and never runs out of the fuel of its loops, of the 65
    levels of the grammar or of the 64 levels of expansions inside expansions,
    so the recursion of the parser is bounded whatever the source. The program
    it gives is well formed all the way down, substitutions and here-documents
    included: no empty literal, pipeline, condition, list of branches or of
    patterns; variables and functions have valid names, and a function none
    that is reserved or refused; no function in the background; a test has one
    to three operands, a conjunction two terms at least; only the last index of
    a parameter selects every element; a duplicated stream is not redirected
    later in the command; assets, positions and literals of arithmetic are in
    range, and an arithmetic expression is at most 64 high. *)
Theorem parse_is_total_and_well_formed (source : str) :
  match parse source with
  | Ok p => program_ok p = true
  | Err (Error _) => True
  | Err OutOfFuel => False
  end.
Proof.
  assert (Hd : dollar_ok 0 (dollar_at LEVELS)) by (apply dollar_at_ok; [lia|unfold LEVELS; lia]).
  assert (Hl : at_level 0 (mkDepth 0 1)) by (by split). assert (H0 : 0 ≤ 0) by lia.
  assert (Hfit : d_lexer (mkDepth 0 1) + d_block (mkDepth 0 1) ≤ 64) by (by simpl).
  rewrite parse_unfold. apply (answers_match _ (fun p => program_ok p = true)).
  exact (parse_nested_ok 0 (dollar_at LEVELS) Hd source (mkDepth 0 1) 1 H0 Hl Hfit).
Qed.
