(* ===== verification/ShellNesting.v ===== *)
(** * Nesting of scripts

    How deep the constructs of a program nest, against the 64 levels beyond
    which [parser/refusal.rs] says a script is refused. The parser gives its
    depth to the lexer with every token it asks for; while a here-document is
    pending the lexer reads the rest of the line ahead, at the depth of the
    [<<], and the constructs that the parser then opens on that line are not
    counted against the substitutions inside them. *)

From Stdlib Require Import ZArith Lia Ascii String.
From stdpp Require Import base strings list numbers.
From S2P Require Import Prelude RustStr ShellAst ShellArith ShellState ShellLexer ShellParser.

(** The most of a list. *)
Definition most {A : Type} (f : A → Z) (l : list A) : Z := foldr (fun x m => Z.max (f x) m) 0 l.

(** The constructs around the innermost one: compound commands, functions,
    negations of a test, and command substitutions. *)
Fixpoint levels (p : Program) : Z :=
  match p with mkProgram ss => most statement_levels ss end
with statement_levels (s : Statement) : Z :=
  match s with
  | List_ l => list_levels l
  | If branches otherwise =>
      1 + Z.max (most (fun b => let '(c, p) := b in Z.max (list_levels c) (levels p)) branches)
            match otherwise with Some p => levels p | None => 0 end
  | For _ words body => Z.max (most word_levels words) (1 + levels body)
  | While condition body _ => 1 + Z.max (list_levels condition) (levels body)
  | Case subject clauses =>
      Z.max (word_levels subject)
        (most (fun c => let '(ps, p) := c in Z.max (most word_levels ps) (1 + levels p)) clauses)
  | Group p => 1 + levels p
  | Conditional_ c => 1 + conditional_levels c
  | Function_ _ body => 1 + levels body
  | Background s _ => statement_levels s
  end
with list_levels (l : AndOrList) : Z :=
  match l with
  | mkAndOrList first rest =>
      Z.max (pipeline_levels first) (most (fun x => let '(_, p) := x in pipeline_levels p) rest)
  end
with pipeline_levels (p : Pipeline) : Z :=
  match p with mkPipeline commands _ => most command_levels commands end
with command_levels (c : Command) : Z :=
  match c with
  | Simple assignments words redirects here_doc =>
      Z.max (most (fun a => let '(_, w) := a in word_levels w) assignments)
        (Z.max (most word_levels words)
           (Z.max (most (fun r => let '(_, t) := r in target_levels t) redirects)
              match here_doc with Some w => word_levels w | None => 0 end))
  | Compound s redirects =>
      Z.max (statement_levels s) (most (fun r => let '(_, t) := r in target_levels t) redirects)
  end
with target_levels (t : RedirectTarget) : Z :=
  match t with Buffer _ w => word_levels w | ToStream _ => 0 end
with conditional_levels (c : Conditional) : Z :=
  match c with
  | Test_ words _ => most word_levels words
  | CNot c => 1 + conditional_levels c
  | CAnd terms | COr terms => most conditional_levels terms
  end
with word_levels (w : Word) : Z :=
  match w with mkWord ps => most part_levels ps end
with part_levels (p : WordPart) : Z :=
  match p with
  | DoubleQuoted ps => most part_levels ps
  | CommandSubstitution p => 1 + levels p
  | Asset _ | Literal _ | SingleQuoted _ | Parameter_ _ | Arithmetic _ => 0
  end.

(** How [parse] answers: the levels of a program, or whether the nesting was refused. *)
Inductive verdict : Type :=
| Nests (n : Z)
| RefusedTooDeep
| RefusedOtherwise.

Definition verdict_of (source : str) : verdict :=
  match parse source with
  | Ok p => Nests (levels p)
  | Err (Error (TooDeep_ _ _)) => RefusedTooDeep
  | Err _ => RefusedOtherwise
  end.

#[global] Instance verdict_eq_dec : EqDecision verdict.
Proof. solve_decision. Defined.

Fixpoint times (n : nat) (s : str) : str := match n with O => [] | S n => s ++ times n s end.

(** A test with [n] negations around [m] substitutions. *)
Definition negated_test (n m : nat) : str :=
  lit "[[ " ++ times n (lit "! ") ++ times m (lit "$(echo ") ++ lit "x" ++ times m (lit ")") ++ lit " ]]".

(** [k] here-documents inside each other: on the line of each, a test with [n]
    negations (two fewer in the next one) around a substitution that holds the
    next one. *)
Fixpoint here_documents (k n : nat) : str :=
  match k with
  | O => lit "echo x"
  | S k =>
      lit "cat <<A; [[ " ++ times n (lit "! ") ++ lit "$(" ++ here_documents k (n - 2) ++ lit ") ]]" ++
      [10] ++ lit "A" ++ [10]
  end.

(** The limit on nesting does not hold on the line of a here-document. A test
    of 62 negations around one substitution is refused as too deep; with a
    here-document opened before it on the line, the same 64 levels are counted
    anew inside the substitution, and a script that nests 1054 levels of tests,
    negations and substitutions is parsed, where the message of the refusal says
    that more than 64 are refused. *)
Example here_documents_escape_the_limit :
  verdict_of (negated_test 62 1) = RefusedTooDeep ∧
  verdict_of (here_documents 1 62) = Nests 64 ∧
  verdict_of (here_documents 31 62) = Nests 1054.
Proof. split; [|split]; vm_compute; reflexivity. Qed.
