(* ===== verification/ShellQuoting.v ===== *)
(** * Quoting

    Text put between single quotes reaches a command as it is. [quote] is what
    callers that build scripts do, [text.replace('\'', "'\\''")] between single
    quotes; a command line of a name and quoted arguments is parsed as one
    simple command whose words hold the arguments, character by character,
    with nothing in them to expand, whatever they contain. *)

From Stdlib Require Import ZArith Lia Ascii String.
From stdpp Require Import base strings list numbers.
From S2P Require Import Prelude RustStr Utf8 ShellAst ShellArith ShellState ShellLexer ShellParser.

(** ** Characters *)

Abbreviation q := (ch "'").

(** A [char]: a Unicode scalar value. *)
Definition is_scalar (c : Z) : bool := in_range 0 55295 c || in_range 57344 1114111 c.

(** The string of some characters. *)
Definition text_of (cs : list Z) : str := concat (encode_utf8 <$> cs).

Lemma continuation (x : Z) : 128 ≤ x ≤ 191 → is_continuation x = true.
Proof. intros H. unfold is_continuation, in_range. dk_bool. lia. Qed.

Lemma leading (x : Z) : x < 128 ∨ 191 < x → is_continuation x = false.
Proof. intros H. unfold is_continuation, in_range. dk_bool. lia. Qed.

Lemma encode_char (c : Z) : is_scalar c = true → char_ok (encode_utf8 c) ∧ utf8_scalar (encode_utf8 c) = c.
Proof.
  intros Hc. unfold is_scalar, in_range in Hc.
  assert (Hr : 0 ≤ c < 1114112) by (dk_bool; lia). clear Hc. unfold encode_utf8, char_ok.
  destruct (Z.ltb_spec c 128); [|destruct (Z.ltb_spec c 2048); [|destruct (Z.ltb_spec c 65536)]];
    cbn [length utf8_scalar]; (split; [split; [|split]|]);
    try (unfold utf8_width; repeat case_match; dk_bool; Z.to_euclidean_division_equations; lia);
    try (apply leading; Z.to_euclidean_division_equations; lia);
    repeat constructor; try (apply continuation; Z.to_euclidean_division_equations; lia);
    Z.to_euclidean_division_equations; lia.
Qed.

Lemma chars_text (cs : list Z) (s : str) :
  forallb is_scalar cs = true → chars (text_of cs ++ s) = cs ++ chars s.
Proof.
  induction cs as [|c cs IH]; intros Hcs; [done|]. simpl in Hcs. apply andb_prop in Hcs as [Hc Hcs].
  destruct (encode_char c Hc) as [Hok He]. unfold text_of. cbn [fmap list_fmap concat].
  rewrite <- (assoc (++)), chars_char, He by done. cbn [app]. f_equal. by apply IH.
Qed.

(** ** Quoted text *)

(** [text.replace('\'', "'\\''")], and the quotes around it. *)
Definition quote (cs : list Z) : list Z :=
  q :: concat ((fun c => if c =? q then [q; ch "\"; q; q] else [c]) <$> cs) ++ [q].

Definition command_line (name : str) (args : list (list Z)) : str :=
  name ++ concat ((fun a => ch " " :: text_of (quote a)) <$> args).

(** The text of a part that stands for itself. *)
Definition inert (p : WordPart) : option str := match p with SingleQuoted text => Some text | _ => None end.
Definition inert_text (w : Word) : option str :=
  (fun texts => concat texts) <$> mapM inert (parts w).

(** The pieces between the quotes of the text, as the lexer reads them. *)
Fixpoint pieces (segments : list (list Z)) : list Z :=
  match segments with
  | [] => []
  | [s] => s ++ [q]
  | s :: rest => s ++ q :: ch "\" :: q :: q :: pieces rest
  end.

Fixpoint piece_parts (segments : list (list Z)) : list WordPart :=
  match segments with
  | [] => []
  | [s] => [SingleQuoted (text_of s)]
  | s :: rest => SingleQuoted (text_of s) :: SingleQuoted (lit "'") :: piece_parts rest
  end.

Definition quoted_word (cs : list Z) : Word := mkWord (piece_parts (split q cs)).

Lemma pieces_cons (s : list Z) (rest : list (list Z)) :
  rest ≠ [] → pieces (s :: rest) = s ++ q :: ch "\" :: q :: q :: pieces rest.
Proof. by destruct rest. Qed.

Lemma piece_parts_cons (s : list Z) (rest : list (list Z)) :
  rest ≠ [] → piece_parts (s :: rest) = SingleQuoted (text_of s) :: SingleQuoted (lit "'") :: piece_parts rest.
Proof. by destruct rest. Qed.

Lemma quote_pieces (cs : list Z) : quote cs = q :: pieces (split q cs).
Proof.
  unfold quote. f_equal. induction cs as [|c cs IH]; [done|].
  cbn [fmap list_fmap concat split]. rewrite <- (assoc (++)), IH. destruct (c =? q).
  - by rewrite pieces_cons by apply split_not_nil.
  - destruct (split q cs) as [|f fs] eqn:E; [by destruct (split_not_nil q cs)|].
    destruct fs; [done|]. reflexivity.
Qed.

Lemma text_of_app (a b : list Z) : text_of (a ++ b) = text_of a ++ text_of b.
Proof. unfold text_of. by rewrite fmap_app, concat_app. Qed.

Lemma piece_parts_text (segments : list (list Z)) :
  segments ≠ [] →
  ∃ texts, mapM inert (piece_parts segments) = Some texts ∧ concat texts = text_of (join q segments).
Proof.
  induction segments as [|s rest IH]; intros Hne; [done|]. destruct rest as [|s' rest].
  - exists [text_of s]. split; [done|]. simpl. by rewrite app_nil_r.
  - destruct (IH ltac:(done)) as (texts & Hm & Ht). exists (text_of s :: lit "'" :: texts).
    rewrite piece_parts_cons, join_cons by done. split.
    + apply mapM_Some. constructor; [done|]. constructor; [done|]. by apply mapM_Some.
    + cbn [concat]. rewrite Ht, text_of_app. f_equal.
Qed.

(** Quoting loses nothing: the text of the word is the text that was quoted. *)
Lemma quoted_word_text (cs : list Z) : inert_text (quoted_word cs) = Some (text_of cs).
Proof.
  destruct (piece_parts_text (split q cs) (split_not_nil q cs)) as (texts & Hm & Ht).
  unfold inert_text, quoted_word. cbn [parts]. rewrite Hm. cbn [fmap option_fmap option_map].
  by rewrite Ht, join_split.
Qed.

(** ** Lexing *)

Section Lexing.

Context (dollar : Z → Enclosure → lex (option WordPart)).

(** A lexer with the characters [cs] ahead, in a word ([started]) of the given
    parts and literal, without tokens or here-documents that wait. *)
Record lexing (started : bool) (ps : list WordPart) (text : str) (cs : list Z) (l : Lexer) : Prop := {
  lexing_chars : (chars_left l).*2 = cs;
  lexing_tokens : tokens l = [];
  lexing_parts : word_parts l = ps;
  lexing_literal : literal l = text;
  lexing_started : word_started l = started;
  lexing_pending : pending_here_docs l = [];
}.

(** Between words. *)
Definition idle (cs : list Z) (l : Lexer) : Prop := lexing false [] [] cs l.

Lemma lexing_depth (started : bool) (ps : list WordPart) (text : str) (cs : list Z) (d : Depth) (l : Lexer) :
  lexing started ps text cs l → lexing started ps text cs (set_parser_depth d l).
Proof. intros []. by split. Qed.

Lemma lexing_next (started : bool) (ps : list WordPart) (text : str) (c : Z) (cs : list Z) (l : Lexer) :
  lexing started ps text (c :: cs) l →
  ∃ i rest, chars_left l = (i, c) :: rest ∧ rest.*2 = cs.
Proof. intros [Hc _ _ _ _ _]. destruct (chars_left l) as [|[i c'] rest]; [done|]. injection Hc as -> <-. eauto. Qed.

(** One turn of the loop of [next_token] that ends no token. *)
Definition turns (l l' : Lexer) : Prop := ∀ fuel, next_token_loop dollar (S fuel) l = next_token_loop dollar fuel l'.

Lemma turn_step (i c : Z) (rest : list (Z * Z)) (l l' : Lexer) :
  chars_left l = (i, c) :: rest →
  lex_character dollar i c (set_token_offset i (set_chars rest l)) = (Ok tt, l') →
  tokens l' = [] → turns l l'.
Proof.
  intros Hc Hl Ht fuel. cbn [next_token_loop]. unfold bind at 1, next_char. rewrite Hc.
  unfold bind at 1, modify. unfold bind at 1. rewrite Hl. unfold bind, gets, token_ready. by rewrite Ht.
Qed.

Lemma lex_plain (i c : Z) (l : Lexer) : is_name_byte c = true → lex_character dollar i c l = push_literal c l.
Proof.
  intros Hc. assert (H : ∀ x, is_name_byte x = false → (c =? x) = false).
  { intros x Hx. apply Z.eqb_neq. congruence. }
  unfold lex_character, bind at 1, gets at 1, bind at 1, gets at 1, is_operator. cbn [existsb].
  by rewrite !(H newline), !(H (ch " ")), !(H tab), !(H carriage_return), !(H (ch "#")), !(H (ch "\")),
    !(H q), !(H double_quote), !(H (ch "$")), !(H (ch "`")), !(H (ch "|")), !(H (ch "&")), !(H (ch ";")),
    !(H (ch "<")), !(H (ch ">")), !(H (ch "(")), !(H (ch ")")), !(H (ch "{")), !(H (ch "}")).
Qed.

Lemma encode_plain (c : Z) : is_name_byte c = true → encode_utf8 c = [c].
Proof.
  intros Hc. unfold encode_utf8. destruct (Z.ltb_spec c 128); [done|].
  unfold is_name_byte, is_ascii_alphanumeric, is_ascii_lowercase, is_ascii_uppercase, is_ascii_digit, in_range in Hc.
  change (ch "_") with 95 in Hc. dk_bool. lia.
Qed.

(** A character of a plain word. *)
Lemma turn_plain (started : bool) (ps : list WordPart) (text : str) (c : Z) (cs : list Z) (l : Lexer) :
  is_name_byte c = true → lexing started ps text (c :: cs) l →
  ∃ l', turns l l' ∧ lexing true ps (text ++ [c]) cs l'.
Proof.
  intros Hc Hl. destruct (lexing_next _ _ _ _ _ _ Hl) as (i & rest & Hi & Hrest).
  eexists. split.
  - eapply turn_step; [done|rewrite lex_plain by done; reflexivity|].
    unfold begun. simpl. destruct (word_started l); simpl; apply Hl.
  - destruct Hl as [_ H2 H3 H4 H5 H6]. unfold begun. simpl.
    destruct (word_started l) eqn:E; split; simpl; rewrite ?encode_plain, ?H4 by done; done.
Qed.

Lemma take_quoted_text (cs : list (Z * Z)) (seg rest : list Z) :
  q ∉ seg → cs.*2 = seg ++ q :: rest →
  ∃ n after, take_quoted q cs = (text_of seg, n, after, true) ∧ after.*2 = rest.
Proof.
  revert cs. induction seg as [|c seg IH]; intros cs Hq Hcs; destruct cs as [|[i c'] cs]; try done.
  - injection Hcs as -> Hcs. exists 0, cs. by split.
  - injection Hcs as -> Hcs. apply not_elem_of_cons in Hq as [Hc Hq].
    destruct (IH cs Hq Hcs) as (n & after & He & Ha). cbn [take_quoted].
    rewrite (proj2 (Z.eqb_neq c q)) by congruence. rewrite He. eauto.
Qed.

Lemma push_part_clean (p : WordPart) (l : Lexer) :
  literal l = [] → push_part p l = (Ok tt, set_parts (word_parts (begun l) ++ [p]) (begun l)).
Proof.
  intros Hl. unfold push_part, begin_word, flush_literal, bind, modify, flushed.
  replace (literal (begun l)) with (literal l) by (unfold begun; by destruct (word_started l)). by rewrite Hl.
Qed.

(** What is between two quotes. *)
Lemma turn_quoted (started : bool) (ps : list WordPart) (seg cs : list Z) (l : Lexer) :
  q ∉ seg → lexing started ps [] (q :: seg ++ q :: cs) l →
  ∃ l', turns l l' ∧ lexing true (ps ++ [SingleQuoted (text_of seg)]) [] cs l'.
Proof.
  intros Hq Hl. destruct (lexing_next _ _ _ _ _ _ Hl) as (i & rest & Hi & Hrest).
  destruct (take_quoted_text rest seg cs Hq Hrest) as (n & after & Ht & Ha). destruct Hl as [_ H2 H3 H4 H5 H6].
  set (l0 := set_line (line l + n) (set_chars after (set_token_offset i (set_chars rest l)))).
  exists (set_parts (word_parts (begun l0) ++ [SingleQuoted (text_of seg)]) (begun l0)). split.
  - eapply turn_step; [done| |unfold begun; simpl; by destruct (word_started l)].
    change (lex_character dollar i q (set_token_offset i (set_chars rest l)))
      with (read_single_quoted (set_token_offset i (set_chars rest l))).
    unfold read_single_quoted, bind at 1, gets at 1. unfold bind at 1. cbn [chars_left set_token_offset set_chars].
    rewrite Ht. cbv beta iota. by apply (push_part_clean _ l0).
  - unfold begun. simpl. destruct (word_started l) eqn:E; split; simpl; rewrite ?H3; done.
Qed.

(** A quote that is escaped. *)
Lemma turn_escaped (started : bool) (ps : list WordPart) (cs : list Z) (l : Lexer) :
  lexing started ps [] (ch "\" :: q :: cs) l →
  ∃ l', turns l l' ∧ lexing true (ps ++ [SingleQuoted (lit "'")]) [] cs l'.
Proof.
  intros Hl. destruct (lexing_next _ _ _ _ _ _ Hl) as (i & rest & Hi & Hrest).
  destruct rest as [|[j c] rest]; [done|]. injection Hrest as -> Hrest. destruct Hl as [_ H2 H3 H4 H5 H6].
  set (l0 := set_chars rest (set_token_offset i (set_chars ((j, q) :: rest) l))).
  exists (set_parts (word_parts (begun l0) ++ [SingleQuoted (lit "'")]) (begun l0)). split.
  - eapply turn_step; [done| |unfold begun; simpl; by destruct (word_started l)].
    change (lex_character dollar i (ch "\") (set_token_offset i (set_chars ((j, q) :: rest) l)))
      with (push_part (SingleQuoted (lit "'")) l0).
    by apply push_part_clean.
  - unfold begun. simpl. destruct (word_started l) eqn:E; split; simpl; rewrite ?H3; done.
Qed.

(** The word that parts and literal make. *)
Definition word_of (ps : list WordPart) (text : str) : Word :=
  mkWord (name_asset (if is_nil text then ps else ps ++ [Literal text])).

(** A word ends at a space, or with the source. *)
Lemma word_ends (fuel : nat) (ps : list WordPart) (text : str) (cs : list Z) (l : Lexer) :
  lexing true ps text cs l → match cs with c :: _ => c = ch " " | [] => True end →
  ∃ t l', next_token_loop dollar (S fuel) l = (Ok (Some t), l') ∧ kind t = TWord (word_of ps text) ∧
          idle (tail cs) l'.
Proof.
  intros Hl Hcs. destruct cs as [|c cs].
  - destruct Hl as [H1 H2 H3 H4 H5 H6]. destruct l. simpl in *. subst. destruct chars_left; [|done].
    cbn [next_token_loop]. unfold bind, next_char, finish_word, modify, gets, pop_front, finished, flushed, word_of.
    simpl. destruct text; simpl; (do 2 eexists; split; [reflexivity|]); (split; [done|]);
      by split.
  - destruct (lexing_next _ _ _ _ _ _ Hl) as (i & rest & Hi & Hrest). destruct Hl as [H1 H2 H3 H4 H5 H6].
    destruct l. simpl in *. subst. cbn [next_token_loop].
    unfold bind, next_char, finish_word, modify, gets, pop_front, lex_character, finished, flushed, word_of.
    simpl. destruct text; simpl; (do 2 eexists; split; [reflexivity|]); (split; [done|]);
      by split.
Qed.

(** Nothing is left. *)
Lemma source_ends (fuel : nat) (l : Lexer) :
  idle [] l → ∃ l', next_token_loop dollar (S fuel) l = (Ok None, l') ∧ idle [] l'.
Proof.
  intros [H1 H2 H3 H4 H5 H6]. destruct l. simpl in *. subst. destruct chars_left; [|done].
  eexists. split; [reflexivity|]. by split.
Qed.

(** *** Whole words *)

Definition reaches (n : nat) (l l' : Lexer) : Prop :=
  ∀ fuel, next_token_loop dollar (n + fuel) l = next_token_loop dollar fuel l'.

Lemma reaches_turn (n : nat) (l1 l2 l3 : Lexer) : turns l1 l2 → reaches n l2 l3 → reaches (S n) l1 l3.
Proof. intros H1 H2 fuel. cbn [Nat.add]. by rewrite H1, H2. Qed.

Lemma reach_plain (name : str) (ps : list WordPart) (text : str) (rest : list Z) (l : Lexer) :
  forallb is_name_byte name = true → lexing true ps text (name ++ rest) l →
  ∃ l', reaches (length name) l l' ∧ lexing true ps (text ++ name) rest l'.
Proof.
  revert text l. induction name as [|c name IH]; intros text l Hn Hl.
  { exists l. by rewrite app_nil_r. }
  simpl in Hn. apply andb_prop in Hn as [Hc Hn].
  destruct (turn_plain _ _ _ _ _ _ Hc Hl) as (l1 & Ht & Hl1). destruct (IH _ _ Hn Hl1) as (l2 & Hr & Hl2).
  exists l2. split; [by apply (reaches_turn _ l l1)|]. by rewrite <- (assoc (++)) in Hl2.
Qed.

Lemma reach_pieces (segments : list (list Z)) (started : bool) (ps : list WordPart) (rest : list Z) (l : Lexer) :
  segments ≠ [] → Forall (fun s => q ∉ s) segments → lexing started ps [] (q :: pieces segments ++ rest) l →
  ∃ n l', (n ≤ length (q :: pieces segments))%nat ∧ reaches n l l' ∧
          lexing true (ps ++ piece_parts segments) [] rest l'.
Proof.
  revert started ps l. induction segments as [|s segments IH]; intros started ps l Hne Hq Hl; [done|].
  inversion Hq as [|? ? Hs Hq']; subst. destruct segments as [|s' segments].
  - cbn [pieces piece_parts] in *. rewrite <- (assoc (++)) in Hl.
    destruct (turn_quoted _ _ _ _ _ Hs Hl) as (l1 & Ht & Hl1). exists 1%nat, l1.
    split; [simpl; lia|]. split; [by apply (reaches_turn 0 l l1)|done].
  - rewrite pieces_cons in Hl |- * by done. rewrite piece_parts_cons by done. rewrite <- (assoc (++)) in Hl.
    destruct (turn_quoted _ _ _ _ _ Hs Hl) as (l1 & Ht1 & Hl1).
    destruct (turn_escaped _ _ _ _ Hl1) as (l2 & Ht2 & Hl2).
    destruct (IH _ _ _ ltac:(done) Hq' Hl2) as (n & l3 & Hn & Hr & Hl3). exists (S (S n)), l3.
    split; [simpl length in *; rewrite length_app; simpl length in *; lia|].
    split; [by apply (reaches_turn _ l l1), (reaches_turn _ l1 l2)|].
    by rewrite <- !(assoc (++)) in Hl3.
Qed.

(** [cs], up to a space or the end of the source, are read as the word [w]. *)
Definition spells (cs : list Z) (w : Word) : Prop :=
  ∀ rest l fuel, idle (cs ++ rest) l → match rest with c :: _ => c = ch " " | [] => True end →
  (length (cs ++ rest) < fuel)%nat →
  ∃ t l', next_token_loop dollar fuel l = (Ok (Some t), l') ∧ kind t = TWord w ∧ idle (tail rest) l'.

Lemma spells_reached (n : nat) (ps : list WordPart) (text : str) (rest : list Z) (l l' : Lexer) (fuel : nat) :
  reaches n l l' → (n < fuel)%nat → lexing true ps text rest l' →
  match rest with c :: _ => c = ch " " | [] => True end →
  ∃ t l2, next_token_loop dollar fuel l = (Ok (Some t), l2) ∧ kind t = TWord (word_of ps text) ∧
          idle (tail rest) l2.
Proof.
  intros Hr Hn Hl Hrest. replace fuel with (n + S (fuel - n - 1))%nat by lia. rewrite Hr. by apply word_ends.
Qed.

Lemma name_is_no_asset (name : str) : forallb is_name_byte name = true → asset_parse name = None.
Proof.
  intros Hn. unfold asset_parse. destruct (strip_prefix name (lit "chat-asset:")) as [rest|] eqn:E; [|done].
  apply strip_prefix_Some in E. subst. by rewrite forallb_app in Hn.
Qed.

Lemma spells_name (name : str) :
  name ≠ [] → forallb is_name_byte name = true → spells name (mkWord [Literal name]).
Proof.
  intros Hne Hn rest l fuel Hl Hrest Hf. destruct name as [|c name]; [done|]. assert (Hn' := Hn).
  simpl in Hn. apply andb_prop in Hn as [Hc Hn].
  destruct (turn_plain _ _ _ _ _ _ Hc Hl) as (l1 & Ht & Hl1).
  destruct (reach_plain _ _ _ _ _ Hn Hl1) as (l2 & Hr & Hl2).
  pose proof (reaches_turn _ _ _ _ Ht Hr) as Hr'. rewrite length_app in Hf. simpl in Hf.
  destruct (spells_reached _ _ _ _ _ _ fuel Hr' ltac:(simpl; lia) Hl2 Hrest) as (t & l3 & H1 & H2 & H3).
  exists t, l3. split; [done|]. split; [|done]. rewrite H2. unfold word_of, name_asset. cbn [app is_nil].
  by rewrite name_is_no_asset.
Qed.

Lemma spells_quote (a : list Z) : spells (quote a) (quoted_word a).
Proof.
  intros rest l fuel Hl Hrest Hf. rewrite quote_pieces in Hl, Hf.
  destruct (reach_pieces _ _ _ _ _ (split_not_nil q a) (split_fields_clean q a) Hl) as (n & l2 & Hn & Hr & Hl2).
  destruct (spells_reached _ _ _ _ _ _ fuel Hr ltac:(rewrite length_app in Hf; lia) Hl2 Hrest)
    as (t & l3 & H1 & H2 & H3).
  exists t, l3. split; [done|]. split; [|done]. rewrite H2. unfold word_of, quoted_word. cbn [is_nil app].
  by destruct (split q a) as [|s [|s' segs]].
Qed.

(** *** Lines of words *)

(** A lexer whose source is some words with a space between two of them. *)
Definition feeds (items : list (list Z * Word)) (l : Lexer) : Prop :=
  idle (join (ch " ") items.*1) l ∧ Forall (fun i => spells i.1 i.2) items.

Lemma feeds_none (d : Depth) (l : Lexer) :
  feeds [] l → ∃ l', next_token dollar (set_parser_depth d l) = (Ok None, l') ∧ feeds [] l'.
Proof.
  intros [Hl _]. apply (lexing_depth _ _ _ _ d) in Hl. unfold next_token, token_ready.
  rewrite (lexing_tokens _ _ _ _ _ Hl). cbn [is_nil negb andb].
  destruct (source_ends (length (chars_left (set_parser_depth d l))) _ Hl) as (l' & H1 & H2).
  exists l'. split; [done|]. by split.
Qed.

Lemma feeds_some (d : Depth) (cs : list Z) (w : Word) (items : list (list Z * Word)) (l : Lexer) :
  feeds ((cs, w) :: items) l →
  ∃ t l', next_token dollar (set_parser_depth d l) = (Ok (Some t), l') ∧ kind t = TWord w ∧ feeds items l'.
Proof.
  intros [Hl Hi]. apply (lexing_depth _ _ _ _ d) in Hl. inversion Hi as [|? ? Hw Hi']; subst. simpl in Hw.
  unfold next_token, token_ready. rewrite (lexing_tokens _ _ _ _ _ Hl). cbn [is_nil negb andb].
  set (rest := match items with [] => [] | _ => ch " " :: join (ch " ") items.*1 end).
  assert (Hj : join (ch " ") (cs :: items.*1) = cs ++ rest).
  { subst rest. destruct items; [by rewrite app_nil_r|done]. }
  cbn [fmap list_fmap fst] in Hl. rewrite Hj in Hl. pose proof (lexing_chars _ _ _ _ _ Hl) as Hlen.
  destruct (Hw rest _ (S (length (chars_left (set_parser_depth d l)))) Hl) as (t & l' & H1 & H2 & H3).
  - subst rest. by destruct items.
  - rewrite <- Hlen, length_fmap. lia.
  - exists t, l'. split; [done|]. split; [done|]. split; [|done]. subst rest. by destruct items.
Qed.

End Lexing.

(** ** Parsing *)

(** [m] returns, without an error. *)
Definition gives {S A : Type} (m : M S A) (Q : A → S → Prop) (s : S) : Prop :=
  match m s with (Ok a, s') => Q a s' | (Err _, _) => False end.

Section Gives.

Context {S A : Type}.

Lemma gives_bind {B : Type} (m : M S A) (k : A → M S B) (R : A → S → Prop) (Q : B → S → Prop) (s : S) :
  gives m R s → (∀ a s', R a s' → gives (k a) Q s') → gives (bind m k) Q s.
Proof. unfold gives, bind. destruct (m s) as [[a|e] s']; [|done]. intros H1 H2. by apply H2. Qed.

Lemma gives_mono (m : M S A) (R Q : A → S → Prop) (s : S) :
  gives m R s → (∀ a s', R a s' → Q a s') → gives m Q s.
Proof. unfold gives. destruct (m s) as [[a|e] s']; [|done]. auto. Qed.

Lemma gives_run (m : M S A) (Q : A → S → Prop) (s : S) :
  gives m Q s → ∃ a s', m s = (Ok a, s') ∧ Q a s'.
Proof. unfold gives. destruct (m s) as [[a|e] s']; [|done]. eauto. Qed.

End Gives.

Section Parsing.

Context (dollar : Z → Enclosure → lex (option WordPart)).

(** [n] tokens from the position have been asked for. *)
Definition shown (n : nat) (s : Parser) : Prop := (position s + n ≤ length (seen s))%nat.

(** The words that are left are those of [items], some of them seen. *)
Record holds (items : list (list Z * Word)) (s : Parser) : Prop := {
  holds_error : lex_error s = None;
  holds_outside : substitution s = false;
  holds_position : shown 0 s;
  holds_items : ∃ a b, items = a ++ b ∧ kind <$> drop (position s) (seen s) = TWord <$> a.*2 ∧
                       feeds dollar b (lexer s);
}.

Lemma fill_holds (items : list (list Z * Word)) (fuel p : nat) (s : Parser) :
  holds items s → (position s ≤ p)%nat → (S p < length (seen s) + fuel)%nat →
  gives (fill dollar fuel p)
    (fun _ s' => holds items s' ∧ position s' = position s ∧
                 kind <$> seen s' !! p = TWord <$> items.*2 !! (p - position s)%nat) s.
Proof.
  revert s. induction fuel as [|fuel IH]; intros s Hs Hp Hf; destruct Hs as [He Ho Hpos (a & b & Hab & Ha & Hb)];
    assert (Hlen : length (seen s) = (position s + length a)%nat) by
      (apply (f_equal length) in Ha; rewrite !length_fmap, length_drop in Ha; unfold shown in Hpos; lia);
    assert (Hseen : (p < length (seen s))%nat →
      kind <$> seen s !! p = TWord <$> items.*2 !! (p - position s)%nat) by
      (intros Hlt; apply (f_equal (fun l => l !! (p - position s)%nat)) in Ha;
       rewrite !list_lookup_fmap, lookup_drop in Ha;
       replace (position s + (p - position s))%nat with p in Ha by lia;
       rewrite Hab, fmap_app, lookup_app_l by (rewrite length_fmap; lia); by rewrite Ha, list_lookup_fmap).
  - unfold gives. cbn [fill]. replace (length (seen s) <=? p)%nat with false by (symmetry; apply Nat.leb_gt; lia).
    simpl. split; [by split; eauto|]. split; [done|]. apply Hseen. lia.
  - unfold gives. cbn [fill]. destruct (length (seen s) <=? p)%nat eqn:El; simpl.
    2: { apply Nat.leb_gt in El. split; [by split; eauto|]. auto. }
    apply Nat.leb_le in El. rewrite He. simpl. destruct b as [|[cs w] b].
    + destruct (feeds_none dollar (depth s) (lexer s) Hb) as (l & -> & Hl).
      split; [split; [done|done|done|by exists a, []]|]. split; [done|].
      simpl. rewrite lookup_ge_None_2 by lia. rewrite app_nil_r in Hab. subst items.
      rewrite lookup_ge_None_2 by (rewrite length_fmap; lia). done.
    + destruct (feeds_some dollar (depth s) cs w b (lexer s) Hb) as (t & l & -> & Ht & Hl).
      apply (gives_mono (fill dollar fuel p) (fun _ s' => holds items s' ∧ position s' = position s ∧
        kind <$> seen s' !! p = TWord <$> items.*2 !! (p - position s)%nat)); [|done].
      apply (IH (set_seen (seen s ++ [t]) (set_lexer l s))); [|done|simpl; rewrite length_app; simpl; lia].
      split; [done|done|unfold shown in *; simpl; rewrite length_app; simpl; lia|].
      exists (a ++ [(cs, w)]), b. split; [by rewrite <- (assoc (++))|]. split; [|done]. simpl.
      rewrite drop_app_le by lia. rewrite !fmap_app, Ha. simpl. by rewrite Ht.
Qed.

Definition first_kind (items : list (list Z * Word)) : option TokenKind := TWord <$> head items.*2.

(** What looking at the next token leaves. *)
Definition looked (items : list (list Z * Word)) (s : Parser) : Prop :=
  holds items s ∧ (items ≠ [] → shown 1 s).

Lemma gives_token_at (items : list (list Z * Word)) (n : nat) (s : Parser) :
  holds items s →
  gives (token_at dollar (position s + n))
    (fun t s' => kind <$> t = TWord <$> items.*2 !! n ∧ holds items s' ∧ position s' = position s ∧
                 seen s' !! (position s' + n)%nat = t) s.
Proof.
  intros Hs. unfold token_at. eapply gives_bind; [apply (fill_holds items); [done|lia|lia]|].
  intros [] s' (H1 & H2 & H3). replace (position s + n - position s)%nat with n in H3 by lia.
  unfold gives, gets. split; [done|]. split; [done|]. split; [done|]. by rewrite H2.
Qed.

Lemma gives_peek (items : list (list Z * Word)) (s : Parser) :
  holds items s → gives (peek dollar) (fun t s' => kind <$> t = first_kind items ∧ looked items s') s.
Proof.
  intros Hs. unfold peek, gives. pose proof (gives_token_at items 0 s Hs) as H. rewrite Nat.add_0_r in H.
  apply gives_run in H as (t & s' & -> & H1 & H2 & H3 & H4).
  assert (H0 : kind <$> t = first_kind items) by (by destruct items). split; [done|]. split; [done|].
  intros Hne. destruct items as [|[cs w] items]; [done|]. simpl in H0. destruct t as [t|]; [|done].
  apply lookup_lt_Some in H4. unfold shown. lia.
Qed.

Lemma gives_peek_kind (items : list (list Z * Word)) (s : Parser) :
  holds items s → gives (peek_kind dollar) (fun k s' => k = first_kind items ∧ looked items s') s.
Proof. intros Hs. eapply gives_bind; [by apply gives_peek|]. intros t s' [H1 H2]. by split. Qed.

Lemma gives_kind_ahead (items : list (list Z * Word)) (n : nat) (s : Parser) :
  holds items s →
  gives (kind_ahead dollar n) (fun k s' => k = TWord <$> items.*2 !! n ∧ holds items s') s.
Proof.
  intros Hs. unfold kind_ahead, gives. pose proof (gives_token_at items n s Hs) as H.
  apply gives_run in H as (t & s' & He & H1 & H2 & _). unfold bind. rewrite He. by split.
Qed.

Lemma gives_current_line (items : list (list Z * Word)) (s : Parser) :
  holds items s → gives (current_line dollar) (fun _ s' => looked items s') s.
Proof. intros Hs. eapply gives_bind; [by apply gives_peek|]. by intros [t|] s' [H1 H2]. Qed.

Definition first_reserved (items : list (list Z * Word)) : option str :=
  match head items.*2 with Some w => reserved_of (TWord w) | None => None end.

Lemma gives_peek_reserved (items : list (list Z * Word)) (s : Parser) :
  holds items s → gives (peek_reserved dollar) (fun r s' => r = first_reserved items ∧ looked items s') s.
Proof.
  intros Hs. eapply gives_bind; [by apply gives_peek_kind|]. intros k s' [-> H].
  split; [|done]. unfold first_kind, first_reserved. by destruct (head items.*2).
Qed.

Lemma gives_peek_literal_word (items : list (list Z * Word)) (x : string) (s : Parser) :
  holds items s →
  gives (peek_literal_word dollar x) (fun b s' => b = is_literal_word (first_kind items) x ∧ looked items s') s.
Proof. intros Hs. eapply gives_bind; [by apply gives_peek_kind|]. intros k s' [-> H]. by split. Qed.

Lemma advance_holds (i : list Z * Word) (items : list (list Z * Word)) (s : Parser) :
  looked (i :: items) s → holds items (set_position (position s + 1) s).
Proof.
  intros [[He Ho Hpos (a & b & Hab & Ha & Hb)] Hshown]. specialize (Hshown ltac:(done)). unfold shown in *.
  destruct a as [|x a].
  { apply (f_equal length) in Ha. rewrite length_fmap, length_drop in Ha. simpl in Ha. lia. }
  injection Hab as <- ->. split; [done|done|unfold shown; simpl; lia|]. exists a, b. split; [done|]. split; [|done].
  cbn [position seen set_position]. rewrite <- drop_drop.
  destruct (drop (position s) (seen s)) as [|t ts]; [done|]. by injection Ha as _ Ha.
Qed.

Lemma gives_advance {B : Type} (i : list Z * Word) (items : list (list Z * Word)) (k : unit → parse_m B)
    (Q : B → Parser → Prop) (s : Parser) :
  looked (i :: items) s → (∀ s', holds items s' → gives (k tt) Q s') → gives (bind (advance_by 1) k) Q s.
Proof. intros Hs Hk. unfold gives, bind, advance_by, modify. apply Hk. by apply (advance_holds i). Qed.

Lemma tokens_enough (items : list (list Z * Word)) (s : Parser) :
  holds items s → Forall (fun i => i.1 ≠ []) items → (length items < S (tokens_left s))%nat.
Proof.
  intros [He Ho Hpos (a & b & -> & Ha & [Hl _])] Hne. unfold tokens_left.
  apply (f_equal length) in Ha. rewrite !length_fmap, length_drop in Ha. rewrite length_app.
  pose proof (lexing_chars _ _ _ _ _ Hl) as Hc. apply (f_equal length) in Hc. rewrite length_fmap in Hc.
  apply Forall_app in Hne as [_ Hb]. assert (length b ≤ length (join (ch " ") b.*1))%nat; [|lia].
  clear -Hb. induction Hb as [|[cs w] b Hcs Hb IH]; [simpl; lia|]. cbn [fmap list_fmap fst].
  destruct b as [|i b]; [destruct cs; [done|simpl; lia]|].
  rewrite join_cons by done. rewrite length_app. simpl length in *. lia.
Qed.

(** *** A command of words *)

Ltac hold := first [eassumption | eapply proj1; eassumption].
Ltac see :=
  match goal with
  | |- gives (bind (peek_kind _) _) _ _ => eapply gives_bind; [eapply gives_peek_kind; hold|intros ? ? [-> ?]]
  | |- gives (bind (peek _) _) _ _ => eapply gives_bind; [eapply gives_peek; hold|intros ? ? [? ?]]
  | |- gives (bind (kind_ahead _ _) _) _ _ => eapply gives_bind; [eapply gives_kind_ahead; hold|intros ? ? [-> ?]]
  | |- gives (bind (current_line _) _) _ _ => eapply gives_bind; [eapply gives_current_line; hold|intros ? ? ?; cbv beta in *]
  | |- gives (bind (peek_reserved _) _) _ _ =>
      eapply gives_bind; [eapply gives_peek_reserved; hold|intros ? ? [-> ?]]
  | |- gives (bind (peek_literal_word _ _) _) _ _ =>
      eapply gives_bind; [eapply gives_peek_literal_word; hold|intros ? ? [-> ?]]
  | |- gives (bind (advance_by 1) _) _ _ => eapply gives_advance; [eassumption|intros ? ?]
  end.

(** The arguments, once there is a word. *)
Lemma simple_loop_words (items : list (list Z * Word)) (fuel : nat) (v : simple) (s : Parser) :
  holds items s → (length items < fuel)%nat → s_words v ≠ [] →
  gives (simple_loop dollar v fuel)
    (fun v' s' => holds [] s' ∧ s_assignments v' = s_assignments v ∧ s_words v' = s_words v ++ items.*2 ∧
                  s_redirects v' = s_redirects v ∧ s_here_doc v' = s_here_doc v) s.
Proof.
  revert items v s. induction fuel as [|fuel IH]; intros items v s Hs Hf Hw; [lia|]. cbn [simple_loop]. see.
  destruct items as [|[cs w] items]; simpl; [split; [hold|by rewrite app_nil_r]|]. see.
  destruct (s_words v) as [|w0 ws] eqn:Ew; [done|]. cbn [is_nil andb]. see.
  eapply gives_mono; [eapply IH; [eassumption|simpl in Hf; lia|by destruct (s_words v)]|].
  intros v' sn (Hh & Ha & Hv & Hrest). simpl in *. split; [done|]. split; [done|]. split; [|done].
  rewrite Hv. by rewrite <- (assoc (++)).
Qed.

(** A word that may begin a simple command: neither reserved nor an assignment. *)
Definition begins (w : Word) : Prop :=
  (∃ name, as_literal w = Some name ∧ is_valid_name name = true) ∧
  reserved_of (TWord w) = None ∧ split_assignment w = None.

Context (cs : list Z) (w : Word) (args : list (list Z * Word)).
Context (Hw : begins w) (Hwords : Forall (fun i => i.1 ≠ []) ((cs, w) :: args)).

Let items : list (list Z * Word) := (cs, w) :: args.

Lemma first_kind_word : first_kind items = Some (TWord w).
Proof. reflexivity. Qed.

Lemma first_reserved_none : first_reserved items = None.
Proof. exact (proj1 (proj2 Hw)). Qed.

Definition expected : Command := Simple [] (w :: args.*2) [] None.

Lemma simple_command_words (s : Parser) :
  holds items s → gives (parse_simple_command dollar) (fun c s' => c = expected ∧ holds [] s') s.
Proof.
  intros Hs. unfold parse_simple_command.
  eapply (gives_bind _ _ (fun v s' => holds [] s' ∧ s_assignments v = [] ∧ s_words v = w :: args.*2 ∧
    s_redirects v = [] ∧ s_here_doc v = None)).
  - unfold gives, walking. change (gives (simple_loop dollar (mkSimple [] [] [] None false) (S (tokens_left s)))
      (fun v s' => holds [] s' ∧ s_assignments v = [] ∧ s_words v = w :: args.*2 ∧
        s_redirects v = [] ∧ s_here_doc v = None) s).
    pose proof (tokens_enough items s Hs Hwords) as Hf. cbn [simple_loop]. see.
    rewrite first_kind_word. see. rewrite first_reserved_none, (proj2 (proj2 Hw)).
    cbn [s_words is_nil andb bool_decide]. rewrite bool_decide_false by (by intros [? ?]). see.
    eapply gives_mono; [eapply simple_loop_words; [eassumption|simpl in Hf; lia|done]|]. done.
  - intros v s1 (Hh & Ha & Hv & Hr & Hd). rewrite Hv. cbn [is_nil andb]. see. rewrite Hr.
    unfold gives, bind, of_result, ret. simpl. split; [|hold]. by rewrite Ha, Hd.
Qed.

(** *** The grammar around it *)

Section Grammar.

Context (inner_program : list string → parse_m Program) (inner_and_or : parse_m AndOrList).
Context (inner_conditional : parse_m Conditional).

Lemma not_literal (x : string) : is_valid_name (lit x) = false → is_literal_word (first_kind items) x = false.
Proof.
  intros Hx. rewrite first_kind_word. unfold is_literal_word. destruct Hw as [(name & -> & Hn) _].
  destruct (str_eqb name (lit x)) eqn:E; [|done]. apply str_eqb_eq in E. subst. congruence.
Qed.

Lemma command_words (s : Parser) :
  holds items s →
  gives (parse_command dollar inner_program inner_and_or inner_conditional)
    (fun c s' => c = expected ∧ holds [] s') s.
Proof.
  intros Hs. unfold parse_command. eapply (gives_bind _ _ (fun r s' => r = None ∧ holds items s')).
  - unfold parse_compound. cbv beta zeta. see. rewrite first_reserved_none. cbn [is_word]. see.
    rewrite not_literal by done. see. rewrite first_kind_word. split; [done|hold].
  - intros r s1 [-> H1]. by apply simple_command_words.
Qed.

Lemma walking_once {A : Type} (loop : nat → parse_m A) (Q : A → Parser → Prop) (s : Parser) :
  (∀ fuel, gives (loop (S fuel)) Q s) → gives (walking loop) Q s.
Proof. intros H. apply H. Qed.

Lemma and_or_words (s : Parser) :
  holds items s →
  gives (and_or_list dollar inner_program inner_and_or inner_conditional)
    (fun l s' => l = mkAndOrList (mkPipeline [expected] false) [] ∧ holds [] s') s.
Proof.
  intros Hs. unfold and_or_list.
  eapply (gives_bind _ _ (fun p s' => p = mkPipeline [expected] false ∧ holds [] s')).
  - unfold parse_pipeline. eapply (gives_bind _ _ (fun b s' => b = false ∧ holds items s')).
    + unfold eat_pipeline_negation. see. rewrite not_literal by done. split; [done|hold].
    + intros b s1 [-> H1]. eapply gives_bind; [by apply command_words|]. intros c s2 [-> H2].
      eapply (gives_bind _ _ (fun r s' => r = [expected] ∧ holds [] s')).
      * apply walking_once. intros fuel. cbn [pipeline_loop]. see. split; [done|hold].
      * intros r s3 [-> H3]. by split.
  - intros p s1 [-> H1]. eapply (gives_bind _ _ (fun r s' => r = [] ∧ holds [] s')).
    + apply walking_once. intros fuel. cbn [and_or_loop]. see. split; [done|hold].
    + intros r s2 [-> H2]. by split.
Qed.

(** No argument is an operator, so the command defines no function. *)
Lemma no_function (s : Parser) :
  holds items s → gives (parse_function_head dollar) (fun r s' => r = None ∧ holds items s') s.
Proof.
  intros Hs. unfold parse_function_head. see. rewrite first_kind_word.
  destruct Hw as [(name & -> & _) _]. see.
  destruct (items.*2 !! 1%nat); (split; [done|hold]).
Qed.

Lemma statement_words (s : Parser) :
  holds items s →
  gives (parse_statement dollar inner_program inner_and_or inner_conditional)
    (fun st s' => st = List_ (mkAndOrList (mkPipeline [expected] false) []) ∧ holds [] s') s.
Proof.
  intros Hs. unfold parse_statement. see. rewrite first_reserved_none.
  eapply (gives_bind _ _ (fun r s' => r = None ∧ holds items s')).
  - unfold try_parse_function. eapply gives_bind; [eapply no_function; hold|]. intros r s1 [-> H1]. by split.
  - intros r s1 [-> H1]. eapply gives_bind; [by apply and_or_words|]. intros l s2 [-> H2]. by split.
Qed.

Definition expected_program : Program := mkProgram [List_ (mkAndOrList (mkPipeline [expected] false) [])].

Lemma no_substitution_end (is_ : list (list Z * Word)) (s : Parser) :
  holds is_ s → gives (at_substitution_end dollar) (fun b s' => b = false ∧ holds is_ s') s.
Proof.
  intros Hs. unfold at_substitution_end, gives, bind, gets. by rewrite (holds_outside _ _ Hs).
Qed.

Lemma skip_none (is_ : list (list Z * Word)) (p : TokenKind → bool) (s : Parser) :
  (∀ w, p (TWord w) = false) → holds is_ s → gives (walking (skip_loop dollar p)) (fun _ s' => holds is_ s') s.
Proof.
  intros Hp Hs. apply walking_once. intros fuel. cbn [skip_loop]. see. unfold first_kind.
  destruct (head is_.*2); simpl; [rewrite Hp|]; hold.
Qed.

Lemma ends_here (ts : list string) (s : Parser) :
  holds [] s → gives (at_program_end dollar ts) (fun b s' => b = true ∧ holds [] s') s.
Proof.
  intros Hs. unfold at_program_end. eapply gives_bind; [by apply no_substitution_end|]. intros b s1 [-> H1]. see.
  split; [done|hold].
Qed.

Lemma goes_on (s : Parser) :
  holds items s → gives (at_program_end dollar []) (fun b s' => b = false ∧ holds items s') s.
Proof.
  intros Hs. unfold at_program_end. eapply gives_bind; [by apply no_substitution_end|]. intros b s1 [-> H1]. see.
  rewrite first_kind_word. cbn [ends_program]. see. rewrite first_reserved_none. split; [done|hold].
Qed.

Lemma program_step_words (s : Parser) :
  holds items s →
  gives (program_step dollar inner_program inner_and_or inner_conditional)
    (fun r s' => r = (List_ (mkAndOrList (mkPipeline [expected] false) []), true) ∧ holds [] s') s.
Proof.
  intros Hs. unfold program_step. see. cbv zeta. eapply gives_bind; [eapply statement_words; hold|].
  intros st s1 [-> H1]. see. cbn [first_kind fmap list_fmap head option_fmap option_map].
  eapply gives_bind; [eapply no_substitution_end; hold|]. intros b sx [-> Hx]. see. see. split; [done|hold].
Qed.

Lemma program_words (s : Parser) :
  holds items s →
  gives (program dollar inner_program inner_and_or inner_conditional [])
    (fun p s' => p = expected_program ∧ holds [] s') s.
Proof.
  intros Hs. unfold program, gives, walking. assert (Hf : (1 < S (tokens_left s))%nat) by (unfold tokens_left; lia).
  destruct (tokens_left s) as [|fuel]; [lia|]. clear Hf.
  change (gives (program_loop dollar inner_program inner_and_or inner_conditional [] [] (S (S fuel)))
    (fun p s' => p = expected_program ∧ holds [] s') s).
  cbn [program_loop]. eapply gives_bind; [by apply skip_none|]. intros [] s1 H1. cbv beta in H1.
  eapply gives_bind; [by apply goes_on|]. intros b s2 [-> H2].
  eapply gives_bind; [by apply program_step_words|]. intros r s3 [-> H3]. cbn [program_loop].
  eapply gives_bind; [by apply skip_none|]. intros [] s4 H4. cbv beta in H4.
  eapply gives_bind; [by apply ends_here|]. intros b s5 [-> H5]. by split.
Qed.

End Grammar.

Lemma nested_words (source : str) (d : Depth) (at_line : Z) :
  feeds dollar items (new_lexer source d at_line) →
  parse_nested dollar source d at_line = Ok expected_program.
Proof.
  intros Hl. unfold parse_nested, program_of. change NESTING with (S 64). generalize 64%nat. intros n.
  assert (Hs : holds items (new_parser source d at_line false)).
  { split; [done|done|unfold shown; simpl; lia|]. exists [], items. by split. }
  pose proof (program_words (parse_program dollar n) (parse_and_or_list dollar n) (parse_conditional_or dollar n) _ Hs) as H.
  apply gives_run in H as (p & s & He & -> & Hend).
  change (parse_program dollar (S n) [] (new_parser source d at_line false))
    with (program dollar (parse_program dollar n) (parse_and_or_list dollar n) (parse_conditional_or dollar n) []
      (new_parser source d at_line false)).
  rewrite He. unfold checked. rewrite (holds_error _ _ Hend). unfold eval, bind.
  destruct (gives_run _ _ _ (gives_peek [] s Hend)) as (t & s' & -> & Ht & _). by destruct t.
Qed.

End Parsing.

(** ** Whole sources *)

Lemma name_byte_scalar (c : Z) : is_name_byte c = true → is_scalar c = true.
Proof.
  unfold is_scalar, is_name_byte, is_ascii_alphanumeric, is_ascii_lowercase, is_ascii_uppercase, is_ascii_digit,
    in_range. change (ch "_") with 95. intros H. dk_bool. lia.
Qed.

Lemma name_text (name : str) : forallb is_name_byte name = true → text_of name = name.
Proof.
  induction name as [|c name IH]; intros Hn; [done|]. simpl in Hn. apply andb_prop in Hn as [Hc Hn].
  unfold text_of in *. cbn [fmap list_fmap concat]. by rewrite encode_plain, IH.
Qed.

Lemma quote_scalar (a : list Z) : forallb is_scalar a = true → forallb is_scalar (quote a) = true.
Proof.
  intros Ha. unfold quote. cbn [forallb]. rewrite forallb_app. apply andb_true_intro. split; [done|].
  rewrite andb_true_r. induction a as [|c a IH]; [done|]. simpl in Ha. apply andb_prop in Ha as [Hc Ha].
  cbn [fmap list_fmap concat]. rewrite forallb_app, IH by done. rewrite andb_true_r.
  destruct (c =? q); [done|]. simpl. by rewrite Hc.
Qed.

(** The words of a command line. *)
Definition line_items (name : str) (args : list (list Z)) : list (list Z * Word) :=
  (name, mkWord [Literal name]) :: ((fun a => (quote a, quoted_word a)) <$> args).

Lemma command_line_chars (name : str) (args : list (list Z)) :
  forallb is_name_byte name = true → forallb (forallb is_scalar) args = true →
  chars (command_line name args) = join (ch " ") (line_items name args).*1.
Proof.
  intros Hn Ha. unfold command_line, line_items. rewrite <- (name_text name) at 1 by done.
  rewrite chars_text by (apply forallb_true in Hn; apply forallb_true; eapply Forall_impl; [|exact Hn]; apply name_byte_scalar).
  assert (Hrest : chars (concat ((fun a => ch " " :: text_of (quote a)) <$> args)) =
    concat ((fun a => ch " " :: quote a) <$> args)).
  { induction args as [|a args IH]; [done|]. simpl in Ha. apply andb_prop in Ha as [Ha Has].
    cbn [fmap list_fmap concat]. change (ch " " :: text_of (quote a)) with (text_of (ch " " :: quote a)).
    rewrite chars_text by (simpl; by apply quote_scalar). by rewrite IH. }
  rewrite Hrest. clear Hrest Ha. cbn [fmap list_fmap fst]. revert name Hn.
  induction args as [|a args IH]; intros name Hn; [simpl; by rewrite app_nil_r|].
  cbn [fmap list_fmap concat fst]. rewrite join_cons by done. f_equal. cbn [app]. f_equal.
  clear IH Hn. revert a. induction args as [|b args IH]; intros a; [simpl; by rewrite app_nil_r|].
  cbn [fmap list_fmap concat fst]. rewrite join_cons by done. f_equal. cbn [app]. f_equal. apply IH.
Qed.

Lemma plain_name_begins (name : str) :
  is_valid_name name = true → existsb (str_eqb name) RESERVED_WORDS = false →
  begins (mkWord [Literal name]) ∧ name ≠ [] ∧ forallb is_name_byte name = true.
Proof.
  intros Hv Hr. assert (Hb : name ≠ [] ∧ forallb is_name_byte name = true).
  { destruct name as [|c name]; [done|]. split; [done|]. cbn [is_valid_name forallb] in *.
    apply andb_prop in Hv as [Hc ->].
    rewrite andb_true_r. unfold is_name_byte, is_ascii_alphanumeric, is_ascii_alphabetic in *.
    destruct (is_ascii_lowercase c), (is_ascii_uppercase c), (c =? ch "_"); cbn in Hc |- *; try done;
      by rewrite orb_true_r. }
  split; [|done]. split; [by exists name|]. split.
  - unfold reserved_of. cbn [as_literal parts]. apply existsb_false in Hr.
    induction RESERVED_WORDS as [|r rs IH]; [done|]. inversion Hr as [|? ? H1 H2]; subst. simpl.
    destruct (str_eqb r name) eqn:E; [|by apply IH]. apply str_eqb_eq in E. subst.
    by rewrite (proj2 (str_eqb_eq name name) eq_refl) in H1.
  - unfold split_assignment. cbn [parts]. destruct (split_once (ch "=") name) as [[a b]|] eqn:E; [|done].
    apply split_once_Some in E as [-> _]. destruct Hb as [_ Hb]. rewrite forallb_app in Hb.
    apply andb_prop in Hb as [_ Hb]. done.
Qed.

(** C11: Text between single quotes, each quote in it written ['\''], cannot
    break out of its argument: a command line of a plain command name and any
    number of arguments quoted so, whatever characters they are made of (quotes,
    newlines, [$], backquotes, operators, here-document marks, names of
    attachments, nothing at all), is parsed as exactly one simple command, in
    the foreground, without assignments, redirections or a here-document. Its
    words are the name and one word per argument, made of parts that stand for
    themselves, whose text is the argument. *)
Theorem quoted_arguments_are_inert (name : str) (args : list (list Z)) :
  is_valid_name name = true → existsb (str_eqb name) RESERVED_WORDS = false →
  forallb (forallb is_scalar) args = true →
  ∃ words,
    parse (command_line name args) =
      Ok (mkProgram [List_ (mkAndOrList (mkPipeline [Simple [] (mkWord [Literal name] :: words) [] None] false) [])])
    ∧ inert_text <$> words = (fun a => Some (text_of a)) <$> args.
Proof.
  intros Hv Hr Ha. destruct (plain_name_begins name Hv Hr) as (Hb & Hne & Hn).
  exists (quoted_word <$> args). split.
  - rewrite parse_unfold. generalize (dollar_at LEVELS). intros dollar.
    rewrite (nested_words dollar name (mkWord [Literal name]) ((fun a => (quote a, quoted_word a)) <$> args)).
    + unfold expected_program, expected. by rewrite <- list_fmap_compose.
    + done.
    + constructor; [done|]. apply Forall_fmap, Forall_forall. by intros a _.
    + split; [|constructor; [by apply spells_name|apply Forall_fmap, Forall_forall; intros a _; apply spells_quote]].
      split; try done. cbn [new_lexer chars_left]. by apply command_line_chars.
  - rewrite <- list_fmap_compose. apply list_fmap_ext. intros i a _. apply quoted_word_text.
Qed.

Lemma quoted_arguments_are_inert_witness :
  ∃ words,
    parse (lit "echo 'it'\''s; $(rm -rf /)' '' '<<A'") =
      Ok (mkProgram [List_ (mkAndOrList (mkPipeline [Simple [] (mkWord [Literal (lit "echo")] :: words) [] None]
        false) [])])
    ∧ inert_text <$> words = [Some (lit "it's; $(rm -rf /)"); Some []; Some (lit "<<A")].
Proof.
  exact (quoted_arguments_are_inert (lit "echo") [lit "it's; $(rm -rf /)"; []; lit "<<A"] eq_refl eq_refl eq_refl).
Defined.
