(* ===== verification/HttpAddress.v ===== *)
(** * Destinations of HTTP requests: addresses

    The part of [dekopon-http-host/src/lib.rs] that decides which addresses a
    request may be sent to: the addresses a name resolves to, cut down to a
    bounded set ([bounded_addresses]), the special-purpose ranges that a public
    destination must avoid ([is_forbidden_ipv4], [is_forbidden_ipv6]), the
    private ranges an administrator may list ([is_private_unicast]) and the
    decision over all addresses of a name ([https_addresses_permitted]).

    The reference is a table of address blocks in CIDR notation;
    [public_destinations_avoid_the_special_blocks] says that the tests on
    octets and segments of the code are membership in the blocks of the table. *)

From Stdlib Require Import ZArith Lia.
From stdpp Require Import base sets list sorting numbers.
From S2P Require Import Prelude.
From S2P Require Import RustStr.

(** ** Addresses of [std::net] *)

Inductive IpAddr : Type :=
| V4 (a b c d : Z)
| V6 (s0 s1 s2 s3 s4 s5 s6 s7 : Z).

(** [SocketAddr]; the last two fields are those of an IPv6 address and zero
    for an IPv4 one. *)
Record SocketAddr : Type := mkAddr {
  addr_ip : IpAddr;
  addr_port : Z;
  addr_flowinfo : Z;
  addr_scope : Z
}.

#[export] Instance IpAddr_eq_dec : EqDecision IpAddr.
Proof. solve_decision. Defined.

#[export] Instance SocketAddr_eq_dec : EqDecision SocketAddr.
Proof. solve_decision. Defined.

(** The derived order of [SocketAddr]: IPv4 before IPv6, then field by field. *)
Definition addr_key (x : SocketAddr) : str :=
  match addr_ip x with
  | V4 a b c d => [0; a; b; c; d; addr_port x]
  | V6 s0 s1 s2 s3 s4 s5 s6 s7 =>
      [1; s0; s1; s2; s3; s4; s5; s6; s7; addr_port x; addr_flowinfo x; addr_scope x]
  end.

Definition is_loopback (ip : IpAddr) : bool :=
  match ip with
  | V4 a _ _ _ => a =? 127
  | V6 s0 s1 s2 s3 s4 s5 s6 s7 => bool_decide ([s0; s1; s2; s3; s4; s5; s6; s7] = [0; 0; 0; 0; 0; 0; 0; 1])
  end.

Definition ipv6_is_unspecified (ip : IpAddr) : bool :=
  match ip with
  | V4 _ _ _ _ => false
  | V6 s0 s1 s2 s3 s4 s5 s6 s7 => bool_decide ([s0; s1; s2; s3; s4; s5; s6; s7] = [0; 0; 0; 0; 0; 0; 0; 0])
  end.

Definition ipv4_is_private (a b : Z) : bool :=
  (a =? 10) || ((a =? 172) && in_range 16 31 b) || ((a =? 192) && (b =? 168)).

Definition ipv4_is_link_local (a b : Z) : bool := (a =? 169) && (b =? 254).

(** [Ipv6Addr::to_ipv4_mapped]. *)
Definition to_ipv4_mapped (ip : IpAddr) : option (Z * Z * Z * Z) :=
  match ip with
  | V4 _ _ _ _ => None
  | V6 s0 s1 s2 s3 s4 s5 s6 s7 =>
      if bool_decide ([s0; s1; s2; s3; s4; s5] = [0; 0; 0; 0; 0; 65535])
      then Some (s6 / 256, s6 mod 256, s7 / 256, s7 mod 256)
      else None
  end.

(** ** The ranges of [lib.rs] *)

Definition is_private_unicast (ip : IpAddr) : bool :=
  match ip with
  | V4 a b _ _ => ipv4_is_private a b && negb (is_loopback ip) && negb (ipv4_is_link_local a b)
  | V6 s0 _ _ _ _ _ _ _ => Z.land s0 65024 =? 64512
  end.

Definition is_forbidden_ipv4 (a b c : Z) : bool :=
  (a =? 0) || (a =? 10) || (a =? 127)
  || ((a =? 100) && in_range 64 127 b)
  || ((a =? 169) && (b =? 254))
  || ((a =? 172) && in_range 16 31 b)
  || ((a =? 192) && (b =? 0) && (c =? 0))
  || ((a =? 192) && (b =? 0) && (c =? 2))
  || ((a =? 192) && (b =? 88) && (c =? 99))
  || ((a =? 192) && (b =? 168))
  || ((a =? 198) && ((b =? 18) || (b =? 19)))
  || ((a =? 198) && (b =? 51) && (c =? 100))
  || ((a =? 203) && (b =? 0) && (c =? 113))
  || (224 <=? a).

Definition is_forbidden_ipv6 (ip : IpAddr) : bool :=
  match to_ipv4_mapped ip with
  | Some (a, b, c, _) => is_forbidden_ipv4 a b c
  | None =>
      match ip with
      | V4 _ _ _ _ => false
      | V6 s0 s1 _ _ _ _ _ _ =>
          ipv6_is_unspecified ip || is_loopback ip
          || negb (Z.land s0 57344 =? 8192)
          || ((s0 =? 8193) && (Z.land s1 65024 =? 0))
          || ((s0 =? 8193) && (s1 =? 3512))
          || (s0 =? 8194)
          || ((s0 =? 16383) && (Z.land s1 61440 =? 0))
      end
  end.

Definition is_forbidden_public_destination (ip : IpAddr) : bool :=
  match ip with
  | V4 a b c _ => is_forbidden_ipv4 a b c
  | V6 _ _ _ _ _ _ _ _ => is_forbidden_ipv6 ip
  end.

Definition https_addresses_permitted (non_public : bool) (addresses : list SocketAddr) : bool :=
  negb (is_nil addresses)
  && forallb (fun address =>
       if non_public then is_private_unicast (addr_ip address)
       else negb (is_forbidden_public_destination (addr_ip address))) addresses.

(** ** The addresses of a name *)

Definition MAX_RESOLVED_ADDRESSES : Z := 16.

(** The loop of [bounded_addresses]; the set is kept in the order of its keys. *)
Fixpoint collect_addresses (unique : list (str * SocketAddr)) (addresses : list SocketAddr)
    : list (str * SocketAddr) :=
  match addresses with
  | [] => unique
  | address :: addresses =>
      let unique := bt_insert (addr_key address) address unique in
      if Z.of_nat (length unique) =? MAX_RESOLVED_ADDRESSES then unique
      else collect_addresses unique addresses
  end.

(** The addresses kept, or nothing when there are none. *)
Definition bounded_addresses (addresses : list SocketAddr) : option (list SocketAddr) :=
  let unique := collect_addresses [] addresses in
  if is_nil unique then None else Some unique.*2.

(** ** Blocks of addresses *)

Definition octet_range (x : Z) : Prop := 0 ≤ x < 256.
Definition segment_range (x : Z) : Prop := 0 ≤ x < 65536.

Definition ip_ok (ip : IpAddr) : Prop :=
  match ip with
  | V4 a b c d => Forall octet_range [a; b; c; d]
  | V6 s0 s1 s2 s3 s4 s5 s6 s7 => Forall segment_range [s0; s1; s2; s3; s4; s5; s6; s7]
  end.

(** An address as a number of 32 or 128 bits. *)
Definition bits (ip : IpAddr) : Z :=
  match ip with
  | V4 a b c d => foldl (fun n x => n * 256 + x) 0 [a; b; c; d]
  | V6 s0 s1 s2 s3 s4 s5 s6 s7 => foldl (fun n x => n * 65536 + x) 0 [s0; s1; s2; s3; s4; s5; s6; s7]
  end.

Definition width (ip : IpAddr) : Z := match ip with V4 _ _ _ _ => 32 | V6 _ _ _ _ _ _ _ _ => 128 end.

(** [base/length]: the addresses that share the first [length] bits of [base]. *)
Record Block : Type := mkBlock { block_base : IpAddr; block_length : Z }.

Definition in_block (ip : IpAddr) (b : Block) : bool :=
  (width ip =? width (block_base b))
  && (Z.shiftr (bits ip) (width ip - block_length b)
      =? Z.shiftr (bits (block_base b)) (width ip - block_length b)).

Definition in_blocks (ip : IpAddr) (l : list Block) : bool := existsb (in_block ip) l.

Definition v6 (s0 s1 : Z) : IpAddr := V6 s0 s1 0 0 0 0 0 0.

(** The special-purpose blocks of IPv4. *)
Definition special_v4 : list Block :=
  [mkBlock (V4 0 0 0 0) 8; mkBlock (V4 10 0 0 0) 8; mkBlock (V4 100 64 0 0) 10;
   mkBlock (V4 127 0 0 0) 8; mkBlock (V4 169 254 0 0) 16; mkBlock (V4 172 16 0 0) 12;
   mkBlock (V4 192 0 0 0) 24; mkBlock (V4 192 0 2 0) 24; mkBlock (V4 192 88 99 0) 24;
   mkBlock (V4 192 168 0 0) 16; mkBlock (V4 198 18 0 0) 15; mkBlock (V4 198 51 100 0) 24;
   mkBlock (V4 203 0 113 0) 24; mkBlock (V4 224 0 0 0) 3].

(** The global unicast block of IPv6, and the special-purpose blocks inside it. *)
Definition global_v6 : Block := mkBlock (v6 8192 0) 3.

Definition special_v6 : list Block :=
  [mkBlock (v6 8193 0) 23; mkBlock (v6 8193 3512) 32; mkBlock (v6 8194 0) 16; mkBlock (v6 16383 0) 20].

(** The IPv4 addresses mapped into IPv6. *)
Definition mapped_v4 : Block := mkBlock (V6 0 0 0 0 0 65535 0 0) 96.

Definition unmapped (ip : IpAddr) : IpAddr :=
  match ip with
  | V4 _ _ _ _ => ip
  | V6 _ _ _ _ _ _ s6 s7 => V4 (s6 / 256) (s6 mod 256) (s7 / 256) (s7 mod 256)
  end.

(** An address of the public internet, by the tables. *)
Definition public (ip : IpAddr) : bool :=
  match ip with
  | V4 _ _ _ _ => negb (in_blocks ip special_v4)
  | V6 _ _ _ _ _ _ _ _ =>
      if in_block ip mapped_v4 then negb (in_blocks (unmapped ip) special_v4)
      else in_block ip global_v6 && negb (in_blocks ip special_v6)
  end.

Definition private_blocks : list Block :=
  [mkBlock (V4 10 0 0 0) 8; mkBlock (V4 172 16 0 0) 12; mkBlock (V4 192 168 0 0) 16; mkBlock (v6 64512 0) 7].

(** ** The tests of the code are the tables *)

Lemma shiftr_high (n r k j : Z) :
  0 ≤ r < 2 ^ k → 0 ≤ k → 0 ≤ j → Z.shiftr (n * 2 ^ k + r) (k + j) = n / 2 ^ j.
Proof.
  intros Hr Hk Hj. rewrite Z.shiftr_div_pow2, Z.pow_add_r, <- Z.div_div by lia.
  f_equal. rewrite Z.div_add_l by lia. rewrite (Z.div_small r) by lia. lia.
Qed.

(** A test on the first [i] octets and the top bits of the next one. *)
Lemma v4_block (a b c d x y z w n m r s k j : Z) :
  bits (V4 a b c d) = n * 2 ^ k + r → bits (V4 x y z w) = m * 2 ^ k + s →
  0 ≤ r < 2 ^ k → 0 ≤ s < 2 ^ k → 0 ≤ k → 0 ≤ j →
  in_block (V4 a b c d) (mkBlock (V4 x y z w) (32 - (k + j))) = (n / 2 ^ j =? m / 2 ^ j).
Proof.
  intros Ha Hx Hr Hs Hk Hj. unfold in_block. cbn -[bits].
  replace (32 - (32 - (k + j))) with (k + j) by lia. rewrite Ha, Hx. by rewrite !shiftr_high by lia.
Qed.

Lemma v4_block8 (a b c d x l j : Z) :
  Forall octet_range [a; b; c; d] → l = 32 - (24 + j) → 0 ≤ j →
  in_block (V4 a b c d) (mkBlock (V4 x 0 0 0) l) = (a / 2 ^ j =? x / 2 ^ j).
Proof.
  rewrite !Forall_cons_iff. unfold octet_range. intros (? & ? & ? & ? & _) -> Hj.
  eapply v4_block with (r := b * 65536 + c * 256 + d) (s := 0); cbn; lia.
Qed.

Lemma v4_block16 (a b c d x y l j : Z) :
  Forall octet_range [a; b; c; d] → octet_range y → l = 32 - (16 + j) → 0 ≤ j ≤ 8 →
  in_block (V4 a b c d) (mkBlock (V4 x y 0 0) l) = ((a =? x) && (b / 2 ^ j =? y / 2 ^ j)).
Proof.
  rewrite !Forall_cons_iff. unfold octet_range. intros (? & ? & ? & ? & _) ? -> Hj.
  rewrite (v4_block _ _ _ _ _ _ _ _ (a * 256 + b) (x * 256 + y) (c * 256 + d) 0) by (cbn; lia).
  assert (256 = 2 ^ (8 - j) * 2 ^ j) as Hp
    by (rewrite <- Z.pow_add_r by lia; replace (8 - j + j) with 8 by lia; done).
  rewrite !Hp, !Z.mul_assoc, !Z.div_add_l by lia.
  assert (0 < 2 ^ j) by (apply Z.pow_pos_nonneg; lia).
  assert (0 ≤ b / 2 ^ j < 2 ^ (8 - j)) by (split; [apply Z.div_pos|apply Z.div_lt_upper_bound]; lia).
  assert (0 ≤ y / 2 ^ j < 2 ^ (8 - j)) by (split; [apply Z.div_pos|apply Z.div_lt_upper_bound]; lia).
  apply eq_true_iff_eq. dk_bool. split; [|by intros [-> ->]].
  intros E. apply (Z.div_mod_unique (2 ^ (8 - j))); lia.
Qed.

Lemma v4_block24 (a b c d x y z : Z) :
  Forall octet_range [a; b; c; d] → octet_range y → octet_range z →
  in_block (V4 a b c d) (mkBlock (V4 x y z 0) 24) = ((a =? x) && (b =? y) && (c =? z)).
Proof.
  rewrite !Forall_cons_iff. unfold octet_range. intros (? & ? & ? & ? & _) ? ?.
  change 24 with (32 - (8 + 0)).
  rewrite (v4_block _ _ _ _ _ _ _ _ (a * 65536 + b * 256 + c) (x * 65536 + y * 256 + z) d 0) by (cbn; lia).
  rewrite !Z.pow_0_r, !Z.div_1_r. apply eq_true_iff_eq. dk_bool. lia.
Qed.

Lemma forbidden_v4_blocks (a b c d : Z) :
  ip_ok (V4 a b c d) → is_forbidden_ipv4 a b c = in_blocks (V4 a b c d) special_v4.
Proof.
  intros H. assert (octet_range 0 ∧ octet_range 2 ∧ octet_range 18 ∧ octet_range 51 ∧ octet_range 64 ∧
    octet_range 16 ∧ octet_range 88 ∧ octet_range 99 ∧ octet_range 100 ∧ octet_range 113 ∧
    octet_range 168 ∧ octet_range 254) as O by (unfold octet_range; lia). destruct_and! O.
  unfold in_blocks, special_v4. cbn [existsb].
  rewrite !(v4_block8 a b c d _ 8 0 H), (v4_block8 a b c d 224 3 5 H), (v4_block16 a b c d 100 64 10 6 H),
    !(v4_block16 a b c d _ _ 16 0 H), (v4_block16 a b c d 172 16 12 4 H), (v4_block16 a b c d 198 18 15 1 H),
    !(v4_block24 a b c d _ _ _ H) by (done || lia).
  cbn in H. rewrite !Forall_cons_iff in H. unfold octet_range in *. destruct H as (Ha & Hb & Hc & Hd & _).
  rewrite !Z.pow_0_r, !Z.div_1_r. change (224 / 2 ^ 5) with 7. change (64 / 2 ^ 6) with 1.
  change (16 / 2 ^ 4) with 1. change (18 / 2 ^ 1) with 9.
  change (2 ^ 5) with 32. change (2 ^ 6) with 64. change (2 ^ 4) with 16. change (2 ^ 1) with 2.
  unfold is_forbidden_ipv4, in_range.
  replace (224 <=? a) with (a / 32 =? 7) by (apply eq_true_iff_eq; dk_bool; Z.to_euclidean_division_equations; lia).
  replace ((64 <=? b) && (b <=? 127)) with (b / 64 =? 1) by (apply eq_true_iff_eq; dk_bool; Z.to_euclidean_division_equations; lia).
  replace ((16 <=? b) && (b <=? 31)) with (b / 16 =? 1) by (apply eq_true_iff_eq; dk_bool; Z.to_euclidean_division_equations; lia).
  replace ((b =? 18) || (b =? 19)) with (b / 2 =? 9) by (apply eq_true_iff_eq; dk_bool; Z.to_euclidean_division_equations; lia).
  rewrite orb_false_r, !orb_assoc. apply eq_true_iff_eq. rewrite !orb_true_iff. tauto.
Qed.

Lemma high_pair (n b m y j k : Z) :
  0 ≤ b < 2 ^ (k + j) → 0 ≤ y < 2 ^ (k + j) → 0 ≤ j → 0 ≤ k →
  ((n * 2 ^ (k + j) + b) / 2 ^ j =? (m * 2 ^ (k + j) + y) / 2 ^ j) = ((n =? m) && (b / 2 ^ j =? y / 2 ^ j)).
Proof.
  intros Hb Hy Hj Hk. rewrite Z.pow_add_r, !Z.mul_assoc, !Z.div_add_l in * by lia.
  assert (0 < 2 ^ j) by (apply Z.pow_pos_nonneg; lia).
  assert (0 ≤ b / 2 ^ j < 2 ^ k) by (split; [apply Z.div_pos|apply Z.div_lt_upper_bound]; lia).
  assert (0 ≤ y / 2 ^ j < 2 ^ k) by (split; [apply Z.div_pos|apply Z.div_lt_upper_bound]; lia).
  apply eq_true_iff_eq. dk_bool. split; [|by intros [-> ->]].
  intros E. apply (Z.div_mod_unique (2 ^ k)); lia.
Qed.

Lemma v6_block (a b : IpAddr) (n m r s k j l : Z) :
  width a = 128 → width b = 128 →
  bits a = n * 2 ^ k + r → bits b = m * 2 ^ k + s →
  0 ≤ r < 2 ^ k → 0 ≤ s < 2 ^ k → 0 ≤ k → 0 ≤ j → l = 128 - (k + j) →
  in_block a (mkBlock b l) = (n / 2 ^ j =? m / 2 ^ j).
Proof.
  intros Wa Wb Ha Hx Hr Hs Hk Hj ->. unfold in_block. cbn -[bits width]. rewrite Wa, Wb.
  replace (128 - (128 - (k + j))) with (k + j) by lia. rewrite Ha, Hx, Z.eqb_refl.
  by rewrite !shiftr_high by lia.
Qed.

Lemma mask_high (s k : Z) :
  segment_range s → 0 ≤ k ≤ 16 → Z.land s (65536 - 2 ^ k) = s / 2 ^ k * 2 ^ k.
Proof.
  intros Hs Hk. apply Z.bits_inj'. intros i Hi.
  replace (65536 - 2 ^ k) with (Z.shiftl (Z.ones (16 - k)) k).
  2:{ rewrite Z.shiftl_mul_pow2, Z.ones_equiv by lia. unfold Z.pred.
      rewrite Z.mul_add_distr_r, <- Z.pow_add_r by lia. replace (16 - k + k) with 16 by lia. lia. }
  rewrite Z.land_spec, <- Z.shiftr_div_pow2, <- Z.shiftl_mul_pow2 by lia.
  rewrite !Z.shiftl_spec by lia. destruct (Z.ltb_spec i k).
  - rewrite !(Z.testbit_neg_r _ (i - k)) by lia. by rewrite andb_false_r.
  - rewrite Z.shiftr_spec by lia. replace (i - k + k) with i by lia.
    rewrite Z.testbit_ones by lia. destruct (Z.ltb_spec (i - k) (16 - k)).
    + rewrite (proj2 (Z.leb_le 0 (i - k))) by lia. by rewrite andb_true_r.
    + rewrite !andb_false_r. symmetry. apply Z.bits_above_log2; [unfold segment_range in Hs; lia|].
      unfold segment_range in Hs. destruct (Z.eq_dec s 0) as [->|]; [cbn; lia|].
      apply Z.log2_lt_pow2; [lia|]. apply Z.lt_le_trans with (2 ^ 16); [lia|]. apply Z.pow_le_mono_r; lia.
Qed.

Lemma mask_test (s m k v w : Z) :
  segment_range s → 0 ≤ k ≤ 16 → m = 65536 - 2 ^ k → w = v * 2 ^ k →
  (Z.land s m =? w) = (s / 2 ^ k =? v).
Proof.
  intros Hs Hk -> ->. rewrite mask_high by done. apply eq_true_iff_eq. dk_bool.
  assert (0 < 2 ^ k) by (apply Z.pow_pos_nonneg; lia). nia.
Qed.

Section V6.
Context (s0 s1 s2 s3 s4 s5 s6 s7 : Z) (Hok : ip_ok (V6 s0 s1 s2 s3 s4 s5 s6 s7)).
#[local] Abbreviation ip := (V6 s0 s1 s2 s3 s4 s5 s6 s7).

Lemma v6_block16 (x j l : Z) :
  0 ≤ j → l = 16 - j → in_block ip (mkBlock (v6 x 0) l) = (s0 / 2 ^ j =? x / 2 ^ j).
Proof using Hok.
  intros Hj ->. cbn in Hok. rewrite !Forall_cons_iff in Hok. unfold segment_range in Hok.
  destruct Hok as (? & ? & ? & ? & ? & ? & ? & ? & _).
  apply (v6_block _ _ _ _ (bits (V6 0 s1 s2 s3 s4 s5 s6 s7)) 0 112); cbn; lia.
Qed.

Lemma v6_block32 (x y j l : Z) :
  segment_range y → 0 ≤ j ≤ 16 → l = 32 - j →
  in_block ip (mkBlock (v6 x y) l) = ((s0 =? x) && (s1 / 2 ^ j =? y / 2 ^ j)).
Proof using Hok.
  intros Hy Hj ->. cbn in Hok. rewrite !Forall_cons_iff in Hok. unfold segment_range in *.
  destruct Hok as (? & ? & ? & ? & ? & ? & ? & ? & _).
  assert (2 ^ (16 - j + j) = 65536) as Hp by (replace (16 - j + j) with 16 by lia; done).
  rewrite <- (high_pair s0 s1 x y j (16 - j)) by (rewrite ?Hp; lia). rewrite Hp.
  apply (v6_block _ _ _ _ (bits (V6 0 0 s2 s3 s4 s5 s6 s7)) 0 96); cbn; lia.
Qed.

Lemma v6_mapped : in_block ip mapped_v4 = bool_decide ([s0; s1; s2; s3; s4; s5] = [0; 0; 0; 0; 0; 65535]).
Proof using Hok.
  cbn in Hok. rewrite !Forall_cons_iff in Hok. unfold segment_range in Hok.
  destruct Hok as (? & ? & ? & ? & ? & ? & ? & ? & _). unfold mapped_v4.
  rewrite (v6_block _ _ (bits (V6 0 0 s0 s1 s2 s3 s4 s5)) 65535 (s6 * 65536 + s7) 0 32 0 96) by (cbn; lia).
  rewrite !Z.pow_0_r, !Z.div_1_r. apply eq_true_iff_eq. rewrite bool_decide_eq_true, Z.eqb_eq.
  split; [|by intros [= -> -> -> -> -> ->]]. cbn. intros E. repeat f_equal; lia.
Qed.

Lemma forbidden_v6_blocks : is_forbidden_ipv6 ip = negb (public ip).
Proof using Hok.
  unfold is_forbidden_ipv6, public, in_blocks, special_v6. cbn [existsb to_ipv4_mapped unmapped].
  rewrite v6_mapped. case_bool_decide as E.
  - cbn in Hok. rewrite !Forall_cons_iff in Hok. unfold segment_range in Hok.
    destruct Hok as (? & ? & ? & ? & ? & ? & ? & ? & _). rewrite negb_involutive.
    apply forbidden_v4_blocks. cbn. rewrite !Forall_cons_iff. unfold octet_range.
    split_and!; try done; Z.to_euclidean_division_equations; lia.
  - assert (segment_range s0 ∧ segment_range s1) as [H0 H1] by (cbn in Hok; rewrite !Forall_cons_iff in Hok; tauto).
    unfold global_v6. rewrite (v6_block16 8192 13 3), (v6_block16 8194 0 16) by (done || lia).
    rewrite (v6_block32 8193 0 9 23), (v6_block32 8193 3512 0 32), (v6_block32 16383 0 12 20)
      by (done || lia || (unfold segment_range; lia)).
    rewrite (mask_test s0 57344 13 1), (mask_test s1 65024 9 0), (mask_test s1 61440 12 0) by (done || lia).
    rewrite !Z.pow_0_r, !Z.div_1_r, negb_andb, negb_involutive.
    change (8192 / 2 ^ 13) with 1. change (0 / 2 ^ 9) with 0. change (0 / 2 ^ 12) with 0.
    cbn [ipv6_is_unspecified is_loopback].
    rewrite orb_false_r. destruct (s0 / 2 ^ 13 =? 1) eqn:Eg; cbn [negb orb]; [|by rewrite !orb_true_r].
    dk_bool. rewrite !bool_decide_eq_false_2 by (intros [= -> _ _ _ _ _ _ _]; by vm_compute in Eg).
    cbn [orb]. by rewrite !orb_assoc.
Qed.
End V6.

Lemma forbidden_is_not_public (ip : IpAddr) :
  ip_ok ip → is_forbidden_public_destination ip = negb (public ip).
Proof.
  destruct ip as [a b c d|s0 s1 s2 s3 s4 s5 s6 s7]; intros Hok; cbn [is_forbidden_public_destination].
  - unfold public. by rewrite negb_involutive, <- forbidden_v4_blocks.
  - by apply forbidden_v6_blocks.
Qed.

Lemma widths_differ (ip : IpAddr) (b : Block) : width ip ≠ width (block_base b) → in_block ip b = false.
Proof. intros H. unfold in_block. by rewrite (proj2 (Z.eqb_neq _ _)). Qed.

Lemma private_is_blocks (ip : IpAddr) :
  ip_ok ip → is_private_unicast ip = in_blocks ip private_blocks.
Proof.
  destruct ip as [a b c d|s0 s1 s2 s3 s4 s5 s6 s7]; intros Hok; unfold in_blocks, private_blocks; cbn [existsb].
  - rewrite (v4_block8 a b c d 10 8 0 Hok), (v4_block16 a b c d 172 16 12 4 Hok),
      (v4_block16 a b c d 192 168 16 0 Hok) by (unfold octet_range; lia).
    rewrite widths_differ, !orb_false_r, !Z.pow_0_r, !Z.div_1_r by done. change (16 / 2 ^ 4) with 1.
    cbn in Hok. rewrite !Forall_cons_iff in Hok. unfold octet_range in Hok. destruct Hok as (_ & Hb & _).
    unfold is_private_unicast, ipv4_is_private, is_loopback, ipv4_is_link_local, in_range.
    change (2 ^ 4) with 16.
    replace (b / 16 =? 1) with ((16 <=? b) && (b <=? 31))
      by (apply eq_true_iff_eq; dk_bool; Z.to_euclidean_division_equations; lia).
    apply eq_true_iff_eq. dk_bool. lia.
  - rewrite !widths_differ, (v6_block16 _ _ _ _ _ _ _ _ Hok 64512 9 7) by (done || lia).
    cbn [orb is_private_unicast]. rewrite orb_false_r. change (64512 / 2 ^ 9) with 126.
    apply mask_test; [|lia..].
    cbn in Hok. rewrite !Forall_cons_iff in Hok. tauto.
Qed.

Lemma private_not_public (ip : IpAddr) :
  ip_ok ip → is_private_unicast ip = true → is_forbidden_public_destination ip = true.
Proof.
  destruct ip as [a b c d|s0 s1 s2 s3 s4 s5 s6 s7]; intros Hok.
  - unfold is_private_unicast, ipv4_is_private, is_forbidden_public_destination, is_forbidden_ipv4, in_range.
    intros [[H _]%andb_true_iff _]%andb_true_iff.
    apply orb_true_iff in H as [[H|[H Hb]%andb_true_iff]%orb_true_iff|[H Hb]%andb_true_iff];
      apply Z.eqb_eq in H as ->; [done|cbn; by rewrite Hb|cbn]. apply Z.eqb_eq in Hb as ->. done.
  - cbn in Hok. rewrite !Forall_cons_iff in Hok. destruct Hok as [H0 Hok]. cbn [is_private_unicast].
    rewrite (mask_test s0 65024 9 126) by (done || lia). unfold segment_range in H0. intros E. dk_bool.
    change (2 ^ 9) with 512 in E. cbn [is_forbidden_public_destination]. unfold is_forbidden_ipv6, to_ipv4_mapped.
    assert (64512 ≤ s0 < 65024) by (Z.to_euclidean_division_equations; lia).
    rewrite bool_decide_eq_false_2 by (intros [= -> _ _ _ _ _]; lia).
    rewrite (mask_test s0 57344 13 1) by (done || lia). change (2 ^ 13) with 8192.
    rewrite (proj2 (Z.eqb_neq (s0 / 8192) 1)) by (Z.to_euclidean_division_equations; lia).
    cbn [negb]. by rewrite orb_true_r.
Qed.

(** ** The addresses kept *)

Lemma collect_addresses_elem (unique : list (str * SocketAddr)) (l : list SocketAddr) (e : str * SocketAddr) :
  e ∈ collect_addresses unique l → e ∈ unique ∨ (e.2 ∈ l ∧ e.1 = addr_key e.2).
Proof.
  revert unique. induction l as [|x l IH]; intros unique; cbn; [tauto|].
  intros H. assert (e ∈ bt_insert (addr_key x) x unique ∨ (e.2 ∈ l ∧ e.1 = addr_key e.2)) as [Hi|?].
  { revert H. case_match; [by left|]. apply IH. }
  - apply bt_insert_elem in Hi as [->|Hi]; [right|by left]. cbn. set_solver.
  - right. set_solver.
Qed.

Lemma bt_insert_length {V : Type} (k : str) (v : V) m :
  (length (bt_insert k v m) ≤ S (length m))%nat ∧ bt_insert k v m ≠ [].
Proof.
  induction m as [|[k' v'] m [IH _]]; cbn; [split; [lia|done]|].
  destruct (str_compare k k'); cbn; (split; [lia|done]).
Qed.

Lemma collect_addresses_length (unique : list (str * SocketAddr)) (l : list SocketAddr) :
  (length unique < 16)%nat → (length (collect_addresses unique l) ≤ 16)%nat.
Proof.
  revert unique. induction l as [|x l IH]; intros unique H; cbn; [lia|].
  pose proof (bt_insert_length (addr_key x) x unique) as [Hb _].
  unfold MAX_RESOLVED_ADDRESSES. case_match eqn:E; dk_bool; [lia|]. apply IH. lia.
Qed.

Lemma collect_addresses_nil (unique : list (str * SocketAddr)) (l : list SocketAddr) :
  collect_addresses unique l = [] → unique = [] ∧ l = [].
Proof.
  revert unique. induction l as [|x l IH]; intros unique; cbn; [tauto|].
  pose proof (bt_insert_length (addr_key x) x unique) as [_ Hn].
  destruct (_ =? _); [done|]. intros H. by apply IH in H as [? _].
Qed.

Lemma bounded_addresses_Some (l r : list SocketAddr) :
  bounded_addresses l = Some r → r ≠ [] ∧ (length r ≤ 16)%nat ∧ r ⊆ l.
Proof.
  unfold bounded_addresses. intros H. case_match eqn:E; [done|]. injection H as <-.
  apply is_nil_false in E. split_and!.
  - by destruct (collect_addresses [] l).
  - rewrite length_fmap. by apply collect_addresses_length; cbn; lia.
  - intros x (e & -> & He)%list_elem_of_fmap. by apply collect_addresses_elem in He as [?%not_elem_of_nil|[? _]].
Qed.

Lemma bounded_addresses_None (l : list SocketAddr) : bounded_addresses l = None ↔ l = [].
Proof.
  unfold bounded_addresses. split; [|by intros ->].
  case_match eqn:E; [|done]. intros _. destruct (collect_addresses [] l) eqn:Ec; [|done].
  by apply collect_addresses_nil in Ec as [_ ?].
Qed.

(** ** Properties *)

(** C31: Whether an HTTPS destination is permitted is decided by tables of
    address blocks: unless the administrator lists the destination, every
    address it resolves to must lie outside the special-purpose blocks of IPv4
    and inside the global unicast block of IPv6 less its special-purpose
    blocks, an IPv4 address mapped into IPv6 counting as itself; when it is
    listed, every address must lie in a private block. A list of addresses is
    never permitted in both ways, and an empty one in neither. *)
Theorem permitted_addresses_are_the_tables (addresses : list SocketAddr)
    (Hok : Forall (fun x => ip_ok (addr_ip x)) addresses) :
  (https_addresses_permitted false addresses = true ↔
     addresses ≠ [] ∧ Forall (fun x => public (addr_ip x) = true) addresses) ∧
  (https_addresses_permitted true addresses = true ↔
     addresses ≠ [] ∧ Forall (fun x => in_blocks (addr_ip x) private_blocks = true) addresses) ∧
  ¬ (https_addresses_permitted false addresses = true ∧ https_addresses_permitted true addresses = true).
Proof.
  unfold https_addresses_permitted. rewrite !andb_true_iff, !negb_true_iff, !is_nil_false, !forallb_true.
  rewrite List.Forall_forall in Hok. split_and!.
  - rewrite !List.Forall_forall. split; intros [Hn H]; (split; [done|]); intros x Hx;
      specialize (H x Hx); rewrite forbidden_is_not_public, negb_involutive in * by auto; done.
  - rewrite !List.Forall_forall. split; intros [Hn H]; (split; [done|]); intros x Hx;
      specialize (H x Hx); rewrite private_is_blocks in * by auto; done.
  - rewrite !List.Forall_forall. intros [[Hn H1] [_ H2]]. destruct addresses as [|x l]; [done|].
    specialize (H1 x (or_introl eq_refl)). specialize (H2 x (or_introl eq_refl)).
    apply private_not_public in H2; [|by apply Hok; left]. by rewrite H2 in H1.
Qed.

(** What a name resolves to is cut down to at most sixteen addresses, all
    of them among those the resolver gave, and there is an error exactly when
    the resolver gave none. *)
Theorem resolved_addresses_are_bounded (l : list SocketAddr) :
  (bounded_addresses l = None ↔ l = []) ∧
  ∀ r, bounded_addresses l = Some r → r ≠ [] ∧ (length r ≤ 16)%nat ∧ r ⊆ l.
Proof. split; [apply bounded_addresses_None|apply bounded_addresses_Some]. Qed.

Definition demo_public : SocketAddr := mkAddr (V4 93 184 216 34) 443 0 0.
Definition demo_mapped_private : SocketAddr := mkAddr (V6 0 0 0 0 0 65535 2560 1) 443 0 0.

Lemma permitted_addresses_are_the_tables_witness :
  public (addr_ip demo_public) = true ∧ public (addr_ip demo_mapped_private) = false ∧
  ¬ (https_addresses_permitted false [demo_public; demo_mapped_private] = true
     ∧ https_addresses_permitted true [demo_public; demo_mapped_private] = true).
Proof.
  split; [reflexivity|]. split; [reflexivity|].
  apply (permitted_addresses_are_the_tables [demo_public; demo_mapped_private]).
  repeat constructor; unfold octet_range, segment_range; lia.
Defined.
