(* ===== verification/HttpHost.v ===== *)
(** * The HTTP host: what a provider may send

    [dekopon-http-host/src/lib.rs]: the credential bound to an invocation, the
    client that carries its grant, and the checks a request passes before it
    is handed to the HTTP library ([prepare], [authorize_request]).

    What [url], [http], [percent-encoding], [base64] and [reqwest] do is a
    record of operations, [HttpLib]; what they document about it is
    [HttpLaws]. The clock, the resolver and the current trace are read from a
    [Turn], one for each call. Tracing, and the transport that tests put in
    place of the network, are left out. *)

From Stdlib Require Import ZArith Lia Ascii String.
From stdpp Require Import base gmap strings list sorting numbers.
From S2P Require Import Prelude.
From S2P Require Import RustStr.
From S2P Require Import Identifier.
From S2P Require Import Template.
From S2P Require Import Capability.
From S2P Require Import Keys.
From S2P Require Import HttpAddress.

(** ** The libraries *)

Record HttpLib : Type := mkLib {
  (** [url::Url]: parsing, with the error as text, and its parts. *)
  Url : Type;
  url_parse : str → result str Url;
  url_as_str : Url → str;
  url_scheme : Url → str;
  url_username : Url → str;
  url_password : Url → option str;
  url_host_str : Url → option str;
  url_port : Url → option Z;
  url_port_or_known_default : Url → option Z;
  url_path : Url → str;
  url_query : Url → option str;
  url_fragment : Url → option str;
  url_query_pairs : Url → list (str * str);
  (** [path_segments_mut()?.clear().extend(segments)]. *)
  url_with_segments : Url → list str → option Url;
  (** [set_query(None)]. *)
  url_without_query : Url → Url;
  (** [query_pairs_mut().clear().extend_pairs(pairs)]. *)
  url_with_pairs : Url → list (str * str) → Url;
  (** [Method::from_bytes] and [HeaderName::from_bytes], which gives the name in lower case. *)
  is_method : str → bool;
  header_name : str → option str;
  (** [HeaderValue::from_bytes], [HeaderValue::from_str], [HeaderValue::to_str]. *)
  header_value_bytes : list Z → bool;
  header_value_str : str → bool;
  header_value_to_str : list Z → option str;
  (** [http::HeaderMap], a map from names to several values, and its iterator. *)
  HeaderMap : Type;
  headers_new : HeaderMap;
  headers_append : HeaderMap → str → list Z → HeaderMap;
  headers_insert : HeaderMap → str → list Z → HeaderMap;
  headers_iter : HeaderMap → list (str * list Z);
  (** [percent_decode_str(..).decode_utf8()]. *)
  percent_decode_utf8 : str → option str;
  (** [STANDARD.encode]. *)
  base64_encode : list Z → str;
  (** [Certificate::from_pem_bundle]. *)
  pem_bundle : list Z → option (list (list Z));
  (** The characters [char::escape_debug] writes as they are. *)
  is_printable : Z → bool
}.

(** [HeaderMap::get_all]. *)
Definition headers_get_all {L : HttpLib} (h : HeaderMap L) (name : str) : list (list Z) :=
  (List.filter (fun e => str_eqb e.1 name) (headers_iter L h)).*2.

(** Two URLs with the same scheme, host and port. *)
Definition same_origin {L : HttpLib} (u v : Url L) : Prop :=
  url_scheme L u = url_scheme L v ∧ url_host_str L u = url_host_str L v ∧
  url_port_or_known_default L u = url_port_or_known_default L v.

Record HttpLaws (L : HttpLib) : Prop := {
  law_segments u segments v : url_with_segments L u segments = Some v → same_origin v u;
  law_without_query u : same_origin (url_without_query L u) u;
  law_with_pairs u pairs : same_origin (url_with_pairs L u pairs) u;
  law_header_name s n : header_name L s = Some n → n = to_ascii_lowercase s;
  law_headers_new : headers_iter L (headers_new L) = [];
  law_headers_append h n v : headers_iter L (headers_append L h n v) ≡ₚ (n, v) :: headers_iter L h;
  law_headers_insert h n v :
    headers_iter L (headers_insert L h n v) ≡ₚ
    (n, v) :: List.filter (fun e => negb (str_eqb e.1 n)) (headers_iter L h)
}.

(** ** Messages and errors *)

Record Header : Type := mkHeader { hd_name : str; hd_value : list Z }.

Record Request : Type := mkRequest {
  req_method : str;
  req_uri : str;
  req_headers : list Header;
  req_body : list Z
}.

Record Response : Type := mkResponse {
  resp_status : Z;
  resp_headers : list Header;
  resp_body : list Z
}.

(** The constructors that [HttpConstraintsError] also has carry a prefix. *)
Inductive ErrorCode : Type :=
| CodeInvalidMethod | CodeInvalidUri | CodeInvalidHeader | RequestTooLarge | Denied | HostCallLimit
| Dns | Connect | Tls | TimedOut | Protocol | ResponseTooLarge | Internal.

Inductive ResponseMetadata : Type := Ordinary | SignedDownloadMetadata.

Inductive ByteLimitKey : Type := MaxRequestBytes | MaxResponseBytes.

Record ByteLimitExceeded : Type := mkExceeded {
  exceeded_key : ByteLimitKey;
  exceeded_limit : Z;
  exceeded_observed : Z
}.

Inductive PolicyViolation : Type :=
| ViolationDenied
| RedirectRefused
| ViolationHostCallLimit
| InvalidHttpRequest
| ByteLimit (exceeded : option ByteLimitExceeded).

Record HttpError : Type := mkError {
  error_code : ErrorCode;
  error_message : str;
  error_byte_limit : option ByteLimitExceeded
}.

Definition ByteLimitKey_code (key : ByteLimitKey) : ErrorCode :=
  match key with MaxRequestBytes => RequestTooLarge | MaxResponseBytes => ResponseTooLarge end.

Definition PolicyViolation_from_error (error : HttpError) : option PolicyViolation :=
  match error_code error with
  | Denied => Some ViolationDenied
  | HostCallLimit => Some ViolationHostCallLimit
  | CodeInvalidMethod | CodeInvalidUri | CodeInvalidHeader => Some InvalidHttpRequest
  | RequestTooLarge | ResponseTooLarge => Some (ByteLimit (error_byte_limit error))
  | Dns | Connect | Tls | TimedOut | Protocol | Internal => None
  end.

Definition MAX_ERROR_MESSAGE_BYTES : Z := 256.

Fixpoint bounded_chars (output : str) (characters : list Z) : str :=
  match characters with
  | [] => output
  | character :: characters =>
      if MAX_ERROR_MESSAGE_BYTES <? len output + len (encode_utf8 character) then output
      else if char_is_control character then bounded_chars (output ++ lit " ") characters
      else bounded_chars (output ++ encode_utf8 character) characters
  end.

Definition bounded_message (message : str) : str := bounded_chars [] (chars message).

Definition http_error (code : ErrorCode) (message : str) : HttpError :=
  mkError code (bounded_message message) None.

Definition byte_limit_error (key : ByteLimitKey) (limit observed : Z) (message : str) : HttpError :=
  mkError (ByteLimitKey_code key) (bounded_message message) (Some (mkExceeded key limit observed)).

(** ** Hosts reached in plain text, and other settings of the broker *)

Inductive PlaintextHostError : Type :=
| HostEmpty | HostScheme (entry : str) | HostPath (entry : str) | HostPort (entry : str)
| HostWildcard (entry : str) | HostInvalid (entry : str).

Definition is_bare_hostname (entry : str) : bool :=
  forallb (fun byte => is_ascii_alphanumeric byte || (byte =? ch "-") || (byte =? ch ".")) entry
  && negb (starts_with entry (lit "-") || starts_with entry (lit "."))
  && negb (is_some (strip_suffix entry (lit "-")) || is_some (strip_suffix entry (lit "."))).

(** The set of [PlaintextHosts], in the order of its entries. *)
Definition plaintext_entry (hosts : list (str * unit)) (entry : str)
    : result PlaintextHostError (list (str * unit)) :=
  let entry := trim entry in
  ensure negb (is_empty entry) else HostEmpty in
  ensure negb (contains_sub entry (lit "://")) else HostScheme entry in
  ensure negb (mem (ch "*") entry) else HostWildcard entry in
  ensure negb (mem (ch "/") entry) else HostPath entry in
  ensure negb (mem (ch ":") entry) else HostPort entry in
  ensure is_bare_hostname entry else HostInvalid entry in
  Ok (bt_insert (to_ascii_lowercase entry) tt hosts).

Fixpoint plaintext_entries (hosts : list (str * unit)) (entries : list str)
    : result PlaintextHostError (list (str * unit)) :=
  match entries with
  | [] => Ok hosts
  | entry :: entries => let? hosts := plaintext_entry hosts entry in plaintext_entries hosts entries
  end.

Definition PlaintextHosts : Type := list str.

Definition PlaintextHosts_new (entries : list str) : result PlaintextHostError PlaintextHosts :=
  let? hosts := plaintext_entries [] entries in Ok hosts.*1.

Definition PlaintextHosts_contains (hosts : PlaintextHosts) (host : str) : bool :=
  existsb (str_eqb (to_ascii_lowercase host)) hosts.

(** A pin is made only by [LoopbackHttpsPin::new]. *)
Record LoopbackHttpsPin : Type := mkPin {
  pin_authority : str;
  pin_address : SocketAddr;
  pin_ca_pem : list Z
}.

(** [non_public_https]: the authorities of the entries. *)
Record HttpHostCeilings : Type := mkCeilings {
  ceil_max_requests : Z;
  ceil_max_request_bytes : Z;
  ceil_max_response_bytes : Z;
  ceil_max_headers : Z;
  ceil_max_header_bytes : Z;
  ceil_plaintext_hosts : PlaintextHosts;
  ceil_extra_ca_bundles : list (list Z);
  ceil_non_public_https : list str;
  ceil_loopback_https_pin : option LoopbackHttpsPin
}.

(** ** Authorities *)

Definition DEFAULT_HTTPS_PORT : Z := 443.

Definition unbracketed_host (host : str) : str :=
  match strip_prefix host (lit "[") with
  | Some rest => unwrap_or (strip_suffix rest (lit "]")) host
  | None => host
  end.

Definition canonical_host (host : str) : str :=
  if mem (ch ":") host then lit "[" ++ host ++ lit "]" else host.

Definition canonical_authority (host : str) (port : Z) : str :=
  canonical_host host ++ lit ":" ++ to_decimal port.

Definition plaintext_permitted (scheme host : str) (addresses : list SocketAddr) (allowed : PlaintextHosts)
    : bool :=
  negb (str_eqb scheme (lit "http"))
  || forallb (fun address => is_loopback (addr_ip address)) addresses
  || PlaintextHosts_contains allowed host.

Definition authority_matches (allowed host : str) (port : Z) (scheme : str) : bool :=
  let allowed := to_ascii_lowercase (trim allowed) in
  str_eqb allowed (canonical_authority host port)
  || (str_eqb scheme (lit "https") && str_eqb allowed (canonical_host host) && (port =? DEFAULT_HTTPS_PORT)).

Definition is_forbidden_request_header (name : str) : bool :=
  existsb (str_eqb name)
    [lit "authorization"; lit "chatgpt-account-id"; lit "connection"; lit "content-length"; lit "cookie";
     lit "host"; lit "keep-alive"; lit "proxy-authenticate"; lit "proxy-authorization";
     lit "proxy-connection"; lit "te"; lit "traceparent"; lit "tracestate"; lit "trailer";
     lit "transfer-encoding"; lit "upgrade"].

Definition is_forbidden_response_header (name : str) : bool :=
  existsb (str_eqb name)
    [lit "connection"; lit "keep-alive"; lit "proxy-authenticate"; lit "proxy-authorization";
     lit "set-cookie"; lit "te"; lit "trailer"; lit "transfer-encoding"; lit "upgrade";
     lit "www-authenticate"].

Definition REQUEST_ENCODING_OVERHEAD_BYTES : Z := 128.

Definition encoded_request_bytes (method uri : str) (header_bytes body_bytes : Z) : option Z :=
  n ← checked_add_u64 REQUEST_ENCODING_OVERHEAD_BYTES (len method);
  n ← checked_add_u64 n (len uri);
  n ← checked_add_u64 n header_bytes;
  checked_add_u64 n body_bytes.

(** [host.parse::<IpAddr>().is_ok()] of a name without colons: four decimal
    octets without leading zeros. *)
Definition is_ipv4_octet (text : str) : bool :=
  match text with
  | [] => false
  | d :: rest =>
      forallb is_ascii_digit text && (len text <=? 3) && (is_nil rest || negb (d =? ch "0"))
      && is_some_and (parse_digits 0 text) (fun n => n <=? 255)
  end.

Definition is_ipv4_literal (host : str) : bool :=
  let octets := split (ch ".") host in (length octets =? 4)%nat && forallb is_ipv4_octet octets.

(** [str::split_once] for a substring. *)
Fixpoint split_once_str (s p : str) : option (str * str) :=
  match strip_prefix s p with
  | Some rest => Some ([], rest)
  | None =>
      match s with
      | [] => None
      | c :: s => match split_once_str s p with Some (a, b) => Some (c :: a, b) | None => None end
      end
  end.

#[export] Instance HttpPathRule_eq_dec : EqDecision HttpPathRule.
Proof. solve_decision. Defined.

#[export] Instance SecretUseGrant_eq_dec : EqDecision SecretUseGrant.
Proof. solve_decision. Defined.

Section Lib.
Context {L : HttpLib}.

(** [NonPublicHttpsAuthority::new]: the authority kept. *)
Definition NonPublicHttpsAuthority_new (authority : str) : result str str :=
  match url_parse L (lit "https://" ++ authority) with
  | Err _ => Err (lit "authority must be a DNS hostname and explicit port")
  | Ok url =>
      match url_host_str L url with
      | None => Err (lit "authority must have a hostname")
      | Some host =>
          if negb (is_empty (url_username L url)) || is_some (url_password L url)
             || negb (str_eqb (url_path L url) (lit "/"))
             || is_some (url_query L url) || is_some (url_fragment L url)
             || negb (is_some (url_port L url))
             || negb (is_bare_hostname host)
             || is_ipv4_literal host
             || negb (str_eqb (to_ascii_lowercase authority)
                        (to_ascii_lowercase (host ++ lit ":" ++ to_decimal (unwrap_or (url_port L url) 0))))
          then Err (lit "authority must be an exact DNS hostname and explicit port")
          else Ok (to_ascii_lowercase authority)
      end
  end.

(** The text after the last colon, [authority.rsplit(':').next()]. *)
Definition LoopbackHttpsPin_new (authority : str) (address : SocketAddr) (ca_pem : list Z)
    : result str LoopbackHttpsPin :=
  let? target := NonPublicHttpsAuthority_new authority in
  if negb (is_loopback (addr_ip address))
     || negb (str_eqb (to_decimal (addr_port address)) (List.last (split (ch ":") authority) []))
     || is_nil ca_pem
  then Err (lit "test pin requires an exact loopback HTTPS authority and CA")
  else Ok (mkPin target address ca_pem).

(** ** Credentials *)

Definition MAX_CREDENTIAL_BYTES : Z := 4096.
Definition MIN_CREDENTIAL_BYTES : Z := 16.

Inductive ConfigurationError : Type :=
| ZeroCeiling (field : str)
| InvalidGrant (source : HttpConstraintsError)
| GrantExceedsCeiling
| ZeroTimeout
| TimeoutOverflow
| InvalidSecretGrant (source : SecretUseGrantError)
| InvalidCredential (reason : str).

(** [companion_header] holds the value of the account header. *)
Record BoundCredential : Type := mkCredential {
  header_value : str;
  companion_header : option str;
  destinations : list str;
  secret_binding : option SecretUseGrant;
  echo_values : list (list Z)
}.

Definition is_ascii_graphic (b : Z) : bool := in_range 33 126 b.

Definition is_destination_scope (value : str) : bool :=
  negb (is_empty value) && str_eqb (trim value) value
  && negb (existsb (fun byte => is_ascii_control byte || is_ascii_whitespace byte) value)
  && negb (existsb (fun byte => mem byte (lit "/?#@*")) value).

Definition bearer (scheme secret : str) (destinations : list str) : result ConfigurationError BoundCredential :=
  ensure negb (is_empty scheme) && forallb is_ascii_graphic scheme
    else InvalidCredential (lit "scheme must be a printable ASCII token") in
  ensure negb (len secret <? MIN_CREDENTIAL_BYTES)
    else InvalidCredential (lit "secret is shorter than the 16-byte minimum") in
  ensure negb (MAX_CREDENTIAL_BYTES <? len secret)
    else InvalidCredential (lit "secret exceeds the credential byte limit") in
  ensure forallb is_ascii_graphic secret
    else InvalidCredential (lit "secret contains whitespace, control, or non-ASCII bytes") in
  ensure negb (is_nil destinations)
    else InvalidCredential (lit "at least one destination is required") in
  ensure forallb is_destination_scope destinations
    else InvalidCredential (lit "destinations must be host or host:port authorities") in
  Ok (mkCredential (scheme ++ lit " " ++ secret) None destinations None [secret]).

Definition secret_token (sink : SecretSinkKind) (scheme : str) (secret : list Z) (grant : SecretUseGrant)
    : result ConfigurationError BoundCredential :=
  ensure bool_decide (grant_sink grant = sink) && negb (is_some (grant_basic_username grant))
    else InvalidCredential (lit "token material does not match the secret-use sink") in
  ensure str_ok secret else InvalidCredential (lit "token secret must be UTF-8") in
  ensure negb (len secret <? MIN_CREDENTIAL_BYTES)
    else InvalidCredential (lit "token secret is shorter than the 16-byte minimum") in
  ensure negb ((MAX_CREDENTIAL_BYTES <? len secret)
               || existsb (fun byte => is_ascii_control byte || is_ascii_whitespace byte) secret)
    else InvalidCredential (lit "token secret must be bounded and free of whitespace or controls") in
  Ok (mkCredential (scheme ++ lit " " ++ secret) None (grant_allowed_hosts grant) (Some grant) [secret]).

Definition secret_bearer (secret : list Z) (grant : SecretUseGrant) : result ConfigurationError BoundCredential :=
  secret_token HttpBearer (lit "Bearer") secret grant.

Definition secret_bot (secret : list Z) (grant : SecretUseGrant) : result ConfigurationError BoundCredential :=
  secret_token HttpBot (lit "Bot") secret grant.

Definition secret_basic (password : list Z) (grant : SecretUseGrant)
    : result ConfigurationError BoundCredential :=
  match grant_basic_username grant with
  | None => Err (InvalidCredential (lit "Basic secret use requires a fixed username"))
  | Some username =>
      ensure negb (len password <? MIN_CREDENTIAL_BYTES)
        else InvalidCredential (lit "Basic secret is shorter than the 16-byte minimum") in
      ensure negb (negb (bool_decide (grant_sink grant = HttpBasic))
                   || is_empty username || mem (ch ":") username || existsb is_ascii_control username
                   || (MAX_CREDENTIAL_BYTES <? len password)
                   || mem 10 password || mem 13 password)
        else InvalidCredential (lit "Basic credential fields are structurally invalid") in
      let encoded := base64_encode L (username ++ lit ":" ++ password) in
      Ok (mkCredential (lit "Basic " ++ encoded) None (grant_allowed_hosts grant) (Some grant)
            [password; encoded])
  end.

Definition with_chatgpt_account (c : BoundCredential) (account_id : str)
    : result ConfigurationError BoundCredential :=
  ensure is_some_and (secret_binding c) (fun g => bool_decide (grant_sink g = HttpBearer))
    else InvalidCredential (lit "a ChatGPT account accompanies only a secret-bound Bearer credential") in
  ensure negb (is_empty account_id || (MAX_CREDENTIAL_BYTES <? len account_id)
               || negb (forallb is_ascii_graphic account_id))
    else InvalidCredential (lit "ChatGPT account identifier must be a printable ASCII token") in
  Ok (mkCredential (header_value c) (Some account_id) (destinations c) (secret_binding c) (echo_values c)).

Definition destinations_cover (destinations : list str) (allowed_host : str) : bool :=
  let allowed := to_ascii_lowercase (trim allowed_host) in
  existsb (fun destination => str_eqb (to_ascii_lowercase (trim destination)) allowed) destinations.

Definition credential_matches (c : BoundCredential) (host : str) (port : Z) (scheme : str) : bool :=
  existsb (fun destination => authority_matches destination host port scheme) (destinations c).

Definition matches_secret_grant (c : BoundCredential) (grant : option SecretUseGrant) : bool :=
  match secret_binding c, grant with
  | None, None => true
  | Some identity, Some grant => bool_decide (identity = grant)
  | _, _ => false
  end.

Definition contains_bytes (bytes value : list Z) : bool := negb (is_nil value) && contains_sub bytes value.

Definition render (c : BoundCredential) : result HttpError (list Z) :=
  if header_value_str L (header_value c) then Ok (header_value c)
  else Err (http_error Internal (lit "credential could not be rendered")).

Definition render_companion (c : BoundCredential) : option (result HttpError (str * list Z)) :=
  match companion_header c with
  | None => None
  | Some value =>
      Some (if header_value_str L value then Ok (lit "chatgpt-account-id", value)
            else Err (http_error Internal (lit "credential could not be rendered")))
  end.

(** [echoes_credential]. *)
Definition echoes_credential (c : BoundCredential) (response : Response) : bool :=
  existsb (fun secret =>
    negb (is_nil secret)
    && (contains_bytes (resp_body response) secret
        || existsb (fun header => contains_bytes (hd_name header) secret || contains_bytes (hd_value header) secret)
             (resp_headers response))) (echo_values c).

Definition echo_overlap (c : BoundCredential) : Z :=
  foldr Z.max 0 ((fun secret => Z.max (len secret - 1) 0) <$> echo_values c).

(** The window after [bytes] and how much of its front is clean, or [None]
    when the window holds a secret. *)
Definition scan_stream_chunk (c : BoundCredential) (window bytes : list Z) (overlap : Z)
    : option Z * list Z :=
  let window := window ++ bytes in
  if existsb (fun secret => negb (is_nil secret) && contains_bytes window secret) (echo_values c)
  then (None, window)
  else (Some (len window - Z.min (len window) overlap), window).

Definition secret_raw_path_is_ambiguous (uri : str) : bool :=
  match split_once_str uri (lit "://") with
  | None => true
  | Some (_, authority_and_path) =>
      if mem (ch "\") authority_and_path then true
      else
        let raw_path := match split_once (ch "/") authority_and_path with
                        | Some (_, rest) => ch "/" :: rest
                        | None => lit "/"
                        end in
        let raw_path := match split_once (ch "?") raw_path with Some (path, _) => path | None => raw_path end in
        let raw_path := match split_once (ch "#") raw_path with Some (path, _) => path | None => raw_path end in
        mem (ch "%") raw_path || contains_sub raw_path (lit "//")
        || existsb (fun segment => str_eqb segment (lit ".") || str_eqb segment (lit ".."))
             (List.tl (split (ch "/") raw_path))
  end.

(** ** The client of an invocation *)

Record VmSession : Type := mkVmSession { vm_bytes : list Z }.

Record HttpCallEvidence : Type := mkEvidence {
  ev_method : str;
  ev_authority : str;
  ev_status : option Z;
  ev_request_bytes : Z;
  ev_response_bytes : Z;
  ev_upstream_request_id : option str;
  ev_vm_session : option VmSession;
  ev_credential_injected : bool
}.

Record HttpRequestFacts : Type := mkFacts {
  facts_method : str;
  facts_host : str;
  facts_path : str;
  facts_query : str;
  facts_headers : list (str * list Z);
  facts_body : option (list Z);
  facts_content_type : option str
}.

(** The settings [pinned_client] gives the builder. *)
Record HttpClient : Type := mkHttpClient {
  hc_follows_redirects : bool;
  hc_uses_proxy : bool;
  hc_accept_encoding : str;
  hc_host : str;
  hc_addresses : list SocketAddr;
  hc_roots : list (list Z);
  hc_connect_timeout : Z
}.

Record PinnedClient : Type := mkPinned {
  pinned_host : str;
  pinned_addresses : list SocketAddr;
  pinned_http : HttpClient
}.

(** [request_authorizer] says whether there is one; its answers are the turn's. *)
Record BufferedHttpClient : Type := mkClient {
  self_grant : option HttpConstraints;
  self_request_authorizer : bool;
  self_secret_grant : option SecretUseGrant;
  self_credential : option BoundCredential;
  self_slots : ChatSlotValues;
  self_ceilings : HttpHostCeilings;
  self_timeout : Z;
  self_deadline : Z;
  self_calls : Z;
  self_secret_injections : Z;
  self_attempted : bool;
  self_policy_violation : option PolicyViolation;
  self_asset_over_budget : bool;
  self_evidence : list HttpCallEvidence;
  self_resolved : gmap str (list SocketAddr);
  self_pinned_client : option PinnedClient
}.

Record PreparedRequest : Type := mkPrepared {
  prep_method : str;
  prep_url : Url L;
  prep_headers : HeaderMap L;
  prep_body : list Z;
  prep_host : str;
  prep_authority : str;
  prep_addresses : list SocketAddr;
  prep_request_bytes : Z
}.

(** Instants and durations in nanoseconds; an instant counts its seconds in 64 bits. *)
Definition instant_checked_add (instant duration : Z) : option Z :=
  if (instant + duration) / 1000000000 <=? i64_max then Some (instant + duration) else None.

Definition validate_configuration (grant : option HttpConstraints) (ceilings : HttpHostCeilings) (timeout : Z)
    : result ConfigurationError unit :=
  ensure negb (ceil_max_requests ceilings =? 0) else ZeroCeiling (lit "max_requests") in
  ensure negb (ceil_max_request_bytes ceilings =? 0) else ZeroCeiling (lit "max_request_bytes") in
  ensure negb (ceil_max_response_bytes ceilings =? 0) else ZeroCeiling (lit "max_response_bytes") in
  ensure negb (ceil_max_headers ceilings =? 0) else ZeroCeiling (lit "max_headers") in
  ensure negb (ceil_max_header_bytes ceilings =? 0) else ZeroCeiling (lit "max_header_bytes") in
  ensure negb (timeout =? 0) else ZeroTimeout in
  match grant with
  | None => Ok tt
  | Some grant =>
      let? _ := convert InvalidGrant (HttpConstraints_validate grant) in
      ensure negb ((ceil_max_requests ceilings <? max_requests grant)
                   || (ceil_max_request_bytes ceilings <? max_request_bytes grant)
                   || (ceil_max_response_bytes ceilings <? max_response_bytes grant))
        else GrantExceedsCeiling in
      Ok tt
  end.

(** [BufferedHttpClient::new] at the instant [now]. *)
Definition client_new (grant : option HttpConstraints) (secret_grant : option SecretUseGrant)
    (credential : option BoundCredential) (ceilings : HttpHostCeilings) (timeout now : Z)
    : result ConfigurationError BufferedHttpClient :=
  let? deadline := ok_or (instant_checked_add now timeout) TimeoutOverflow in
  Ok (mkClient grant false secret_grant credential slot_values_default ceilings timeout deadline
        0 0 false None false [] ∅ None).

Definition client_disabled (ceilings : HttpHostCeilings) (timeout now : Z)
    : result ConfigurationError BufferedHttpClient :=
  let? _ := validate_configuration None ceilings timeout in
  client_new None None None ceilings timeout now.

Definition client_authorized (grant : HttpConstraints) (ceilings : HttpHostCeilings) (timeout now : Z)
    : result ConfigurationError BufferedHttpClient :=
  let? _ := validate_configuration (Some grant) ceilings timeout in
  client_new (Some grant) None None ceilings timeout now.

Definition client_authorized_with_credential (grant : HttpConstraints) (credential : option BoundCredential)
    (ceilings : HttpHostCeilings) (timeout now : Z) : result ConfigurationError BufferedHttpClient :=
  let? _ := validate_configuration (Some grant) ceilings timeout in
  ensure is_none_or credential (fun credential => matches_secret_grant credential None)
    else InvalidCredential (lit "DRN-bound credential requires an authorization-bound secret grant") in
  client_new (Some grant) None credential ceilings timeout now.

Definition client_authorized_with_secret_credential (grant : HttpConstraints) (secret_grant : SecretUseGrant)
    (credential : BoundCredential) (ceilings : HttpHostCeilings) (timeout now : Z)
    : result ConfigurationError BufferedHttpClient :=
  let? _ := validate_configuration (Some grant) ceilings timeout in
  let? _ := convert InvalidSecretGrant (SecretUseGrant_validate secret_grant) in
  ensure matches_secret_grant credential (Some secret_grant)
    else InvalidCredential
      (lit "resolved credential does not match the authorization-bound secret grant") in
  client_new (Some grant) (Some secret_grant) (Some credential) ceilings timeout now.

Definition with_chat_slots (c : BufferedHttpClient) (slots : ChatSlotValues) : BufferedHttpClient :=
  let 'mkClient g a sg cr _ ce t d n i at_ pv ab ev re pc := c in
  mkClient g a sg cr slots ce t d n i at_ pv ab ev re pc.

Definition with_request_authorizer (c : BufferedHttpClient) : BufferedHttpClient :=
  let 'mkClient g _ sg cr s ce t d n i at_ pv ab ev re pc := c in
  mkClient g true sg cr s ce t d n i at_ pv ab ev re pc.

Definition set_deadline (v : Z) (c : BufferedHttpClient) : BufferedHttpClient :=
  let 'mkClient g a sg cr s ce t _ n i at_ pv ab ev re pc := c in
  mkClient g a sg cr s ce t v n i at_ pv ab ev re pc.

Definition set_calls (v : Z) (c : BufferedHttpClient) : BufferedHttpClient :=
  let 'mkClient g a sg cr s ce t d _ i at_ pv ab ev re pc := c in
  mkClient g a sg cr s ce t d v i at_ pv ab ev re pc.

Definition set_secret_injections (v : Z) (c : BufferedHttpClient) : BufferedHttpClient :=
  let 'mkClient g a sg cr s ce t d n _ at_ pv ab ev re pc := c in
  mkClient g a sg cr s ce t d n v at_ pv ab ev re pc.

Definition set_attempted (v : bool) (c : BufferedHttpClient) : BufferedHttpClient :=
  let 'mkClient g a sg cr s ce t d n i _ pv ab ev re pc := c in
  mkClient g a sg cr s ce t d n i v pv ab ev re pc.

Definition set_policy_violation (v : option PolicyViolation) (c : BufferedHttpClient) : BufferedHttpClient :=
  let 'mkClient g a sg cr s ce t d n i at_ _ ab ev re pc := c in
  mkClient g a sg cr s ce t d n i at_ v ab ev re pc.

Definition set_asset_over_budget (v : bool) (c : BufferedHttpClient) : BufferedHttpClient :=
  let 'mkClient g a sg cr s ce t d n i at_ pv _ ev re pc := c in
  mkClient g a sg cr s ce t d n i at_ pv v ev re pc.

Definition set_evidence (v : list HttpCallEvidence) (c : BufferedHttpClient) : BufferedHttpClient :=
  let 'mkClient g a sg cr s ce t d n i at_ pv ab _ re pc := c in
  mkClient g a sg cr s ce t d n i at_ pv ab v re pc.

Definition set_resolved (v : gmap str (list SocketAddr)) (c : BufferedHttpClient) : BufferedHttpClient :=
  let 'mkClient g a sg cr s ce t d n i at_ pv ab ev _ pc := c in
  mkClient g a sg cr s ce t d n i at_ pv ab ev v pc.

Definition set_pinned_client (v : option PinnedClient) (c : BufferedHttpClient) : BufferedHttpClient :=
  let 'mkClient g a sg cr s ce t d n i at_ pv ab ev re _ := c in
  mkClient g a sg cr s ce t d n i at_ pv ab ev re v.
End Lib.
