(* ===== verification/HttpAuthorize.v ===== *)
(** * The HTTP host: authorization of a request

    [BufferedHttpClient::prepare], [authorize_request] and
    [apply_request_templates] of [dekopon-http-host/src/lib.rs], on the client
    and the wire: what the invocation has sent so far. A call that fails keeps
    what it changed before. *)

From Stdlib Require Import ZArith Lia Ascii String.
From stdpp Require Import base gmap strings list sorting numbers.
From S2P Require Import Prelude.
From S2P Require Import RustStr.
From S2P Require Import Identifier.
From S2P Require Import Template.
From S2P Require Import Capability.
From S2P Require Import Keys.
From S2P Require Import HttpAddress.
From S2P Require Import HttpHost.

(** ** State and errors *)

Section Action.
Context {S : Type}.

Definition action (A : Type) : Type := S → result HttpError A * S.

Definition ret {A : Type} (a : A) : action A := fun s => (Ok a, s).
Definition fail {A : Type} (e : HttpError) : action A := fun s => (Err e, s).
Definition get {A : Type} (f : S → A) : action A := fun s => (Ok (f s), s).
Definition put (f : S → S) : action unit := fun s => (Ok tt, f s).
Definition lift {A : Type} (r : result HttpError A) : action A := fun s => (r, s).

Definition bind {A B : Type} (m : action A) (k : A → action B) : action B := fun s =>
  match m s with
  | (Ok a, s) => k a s
  | (Err e, s) => (Err e, s)
  end.

(** [post m Q s]: [m] from [s] ends in a result and a state that [Q] holds of. *)
Definition post {A : Type} (m : action A) (Q : result HttpError A → S → Prop) (s : S) : Prop :=
  Q (m s).1 (m s).2.

Lemma post_bind {A B : Type} (m : action A) (k : A → action B) Q s :
  post m (fun r s => match r with Ok a => post (k a) Q s | Err e => Q (Err e) s end) s → post (bind m k) Q s.
Proof. unfold post, bind. by destruct (m s) as [[a|e] s']. Qed.

Lemma post_ret {A : Type} (a : A) Q s : Q (Ok a) s → post (ret a) Q s.
Proof. done. Qed.
Lemma post_fail {A : Type} e (Q : result HttpError A → S → Prop) s : Q (Err e) s → post (fail e) Q s.
Proof. done. Qed.
Lemma post_get {A : Type} (f : S → A) Q s : Q (Ok (f s)) s → post (get f) Q s.
Proof. done. Qed.
Lemma post_put (f : S → S) Q s : Q (Ok tt) (f s) → post (put f) Q s.
Proof. done. Qed.
Lemma post_lift {A : Type} (r : result HttpError A) Q s : Q r s → post (lift r) Q s.
Proof. done. Qed.

Lemma post_mono {A : Type} (m : action A) (P Q : result HttpError A → S → Prop) s :
  post m P s → (∀ r s, P r s → Q r s) → post m Q s.
Proof. unfold post. auto. Qed.
End Action.

Arguments action : clear implicits.

Notation "'let!' x ':=' m 'in' k" := (bind m (fun x => k))
  (at level 10, x pattern, m at level 150, k at level 200,
   format "'[v' 'let!'  x  ':='  m  'in' '/' k ']'") : dekopon_scope.
Notation "'demand' b 'else' e 'in' k" := (if b then k else fail e)
  (at level 10, b at level 150, e at level 150, k at level 200,
   format "'[v' 'demand'  b  'else'  e  'in' '/' k ']'") : dekopon_scope.

(** ** What a call reads of the world *)

Inductive Lookup : Type := LookupTimedOut | LookupFailed | LookupFound (addresses : list SocketAddr).

Record TraceContextParts : Type := mkTraceContext { tc_trace_id : list Z; tc_span_id : list Z; tc_flags : Z }.

Record Turn : Type := mkTurn {
  turn_authorized_at : Z;
  turn_resolved_at : Z;
  turn_policy : HttpRequestFacts → bool;
  turn_lookup : str → Z → Lookup;
  turn_trace : option TraceContextParts
}.

(** [RequestLengths] of a streamed body. *)
Record RequestLengths : Type := mkLengths { lengths_literal : Z; lengths_decoded_assets : Z; lengths_total : Z }.

(** [format!("{key:?}")] of a string. *)
Definition hex_digits (n : Z) : str :=
  let digits := hex_digit <$> ((fun k => n / 16 ^ Z.of_nat k mod 16) <$> rev (seq 0 6)) in
  match (fix drop_zeros (l : str) := match l with 48 :: l => drop_zeros l | _ => l end) digits with
  | [] => lit "0"
  | digits => digits
  end.

Section Lib.
Context {L : HttpLib}.

Definition debug_char (c : Z) : str :=
  if c =? 0 then lit "\0" else if c =? 9 then lit "\t" else if c =? 10 then lit "\n"
  else if c =? 13 then lit "\r" else if c =? ch "\" then lit "\\"
  else if c =? 34 then [ch "\"; 34]
  else if is_printable L c then encode_utf8 c
  else lit "\u{" ++ hex_digits c ++ lit "}".

Definition debug_str (s : str) : str := [34] ++ concat (debug_char <$> chars s) ++ [34].

(** What was handed to the HTTP library. A streamed body is read from
    literals and files as it is sent. *)
Inductive DepartedBody : Type := Buffered (bytes : list Z) | Streamed (lengths : RequestLengths).

Record Departure : Type := mkDeparture {
  dep_http : HttpClient;
  dep_request : PreparedRequest (L := L);
  dep_body : DepartedBody
}.

Record World : Type := mkWorld { self : BufferedHttpClient; wire : list Departure }.

Definition modify_self (f : BufferedHttpClient → BufferedHttpClient) : action World unit :=
  put (fun w => mkWorld (f (self w)) (wire w)).

(** ** Request templates *)

(** The checks of the query keys against the template. *)
Fixpoint check_query_keys (template : RequestTemplate) (pairs : list (str * str)) : result HttpError unit :=
  match pairs with
  | [] => Ok tt
  | (key, _) :: pairs =>
      ensure negb (is_some (bt_get key (pinned (template_query template))))
        else http_error Denied (lit "query key " ++ debug_str key
                                ++ lit " is host-filled by request template " ++ RequestTemplate_display template) in
      ensure existsb (str_eqb key) (allowed (template_query template))
        else http_error Denied (lit "request template " ++ RequestTemplate_display template
                                ++ lit " does not allow one of the query keys") in
      check_query_keys template pairs
  end.

Definition slot_value (template : RequestTemplate) (slots : ChatSlotValues) (slot : ChatSlot)
    : result HttpError str :=
  ok_or (slot_values_get slots slot)
    (http_error Denied (lit "request template " ++ RequestTemplate_display template ++ lit " needs {"
                        ++ ChatSlot_as_str slot ++ lit "}, which this invocation lacks")).

Definition path_segment (template : RequestTemplate) (slots : ChatSlotValues) (segment : PathSegment)
    : result HttpError str :=
  match segment with
  | Literal literal => Ok literal
  | Slot slot => slot_value template slots slot
  end.

Definition pinned_pair (template : RequestTemplate) (slots : ChatSlotValues) (p : str * ChatSlot)
    : result HttpError (str * str) :=
  let? value := slot_value template slots p.2 in Ok (p.1, value).

(** The URL as the template rewrites it. *)
Definition apply_request_templates (grant : HttpConstraints) (slots : ChatSlotValues) (method : str)
    (url : Url L) : result HttpError (Url L) :=
  if is_nil (request_templates grant) then Ok url
  else
    let? decoded := ok_or (percent_decode_utf8 L (url_path L url))
      (http_error Denied (lit "request path is not UTF-8 once decoded, so no request template matches")) in
    let segments := if str_eqb decoded (lit "/") then [] else List.tl (split (ch "/") decoded) in
    let? template := ok_or (find_first (fun template =>
        str_eqb (template_method template) method && PathTemplate_matches (template_path template) segments)
        (request_templates grant))
      (http_error Denied (lit "request matches no request template of this capability")) in
    let pairs := url_query_pairs L url in
    let? _ := check_query_keys template pairs in
    let? path := collect_results (path_segment template slots) (Template.segments (template_path template)) in
    let? filled := collect_results (pinned_pair template slots) (pinned (template_query template)) in
    let? url := ok_or (url_with_segments L url path)
      (http_error CodeInvalidUri (lit "URI cannot carry a path")) in
    Ok (if is_nil pairs && is_nil filled then url_without_query L url
        else url_with_pairs L url (pairs ++ filled)).

(** ** Preparation *)

(** The headers of the guest, as the loop of [prepare] collects them: the
    map, the list for the authorizer and the bytes counted. *)
Fixpoint collect_headers (max_header_bytes : Z) (headers : list Header)
    (acc : HeaderMap L * list (str * list Z) * Z) : result HttpError (HeaderMap L * list (str * list Z) * Z) :=
  match headers with
  | [] => Ok acc
  | header :: headers =>
      let '(map, guest, header_bytes) := acc in
      let? header_bytes := ok_or
        (n ← checked_add_u64 header_bytes (len (hd_name header));
         n ← checked_add_u64 n (len (hd_value header));
         checked_add_u64 n 4)
        (http_error RequestTooLarge (lit "request header size overflowed")) in
      ensure negb (max_header_bytes <? header_bytes)
        else http_error RequestTooLarge (lit "request headers exceed the host limit") in
      let? name := ok_or (header_name L (hd_name header))
        (http_error CodeInvalidHeader (lit "request header name is invalid")) in
      ensure negb (is_forbidden_request_header name)
        else http_error CodeInvalidHeader (lit "request header is broker-owned or hop-by-hop") in
      ensure header_value_bytes L (hd_value header)
        else http_error CodeInvalidHeader (lit "request header value is invalid") in
      collect_headers max_header_bytes headers
        (headers_append L map name (hd_value header), guest ++ [(name, hd_value header)], header_bytes)
  end.

(** The value of the only content type, when it is text. *)
Definition content_type_of (headers : HeaderMap L) : option str :=
  match headers_get_all headers (lit "content-type") with
  | [value] => header_value_to_str L value
  | _ => None
  end.

(** What [prepare] has found when it comes to resolve the destination. *)
Record Checked : Type := mkChecked {
  chk_url : Url L;
  chk_headers : HeaderMap L;
  chk_host : str;
  chk_port : Z;
  chk_authority : str;
  chk_request_bytes : Z
}.

Definition byte_limit_check (grant : HttpConstraints) (bytes : option Z) : result HttpError Z :=
  let? bytes := ok_or bytes (http_error RequestTooLarge (lit "request size overflowed")) in
  ensure negb (max_request_bytes grant <? bytes)
    else byte_limit_error MaxRequestBytes (max_request_bytes grant) bytes
           (lit "request exceeds the authorized byte limit") in
  Ok bytes.

Definition scheme_check (grant : HttpConstraints) (scheme : str) : result HttpError unit :=
  if str_eqb scheme (lit "https") then Ok tt
  else if str_eqb scheme (lit "http") then
    ensure allow_plaintext_loopback grant else http_error Denied (lit "plaintext HTTP is not authorized") in Ok tt
  else Err (http_error CodeInvalidUri (lit "only HTTP and HTTPS URLs are supported")).

(** [prepare] up to the resolution of the destination. *)
Definition prepare_checked (c : BufferedHttpClient) (turn : Turn) (request : Request) (grant : HttpConstraints)
    (streamed : option RequestLengths) : result HttpError Checked :=
  let method := req_method request in
  ensure is_method L method
    else http_error CodeInvalidMethod (lit "method is not a valid HTTP token") in
  ensure forallb (fun byte => negb (is_ascii_lowercase byte)) method
    else http_error Denied (lit "HTTP method must be uppercase") in
  ensure existsb (str_eqb method) (allowed_methods grant)
    else http_error Denied (lit "HTTP method is not authorized for this invocation") in
  let bounded_body_bytes := match streamed with
                            | Some lengths => lengths_literal lengths
                            | None => len (req_body request)
                            end in
  let? _ := byte_limit_check grant (encoded_request_bytes method (req_uri request) 0 bounded_body_bytes) in
  let? url := match url_parse L (req_uri request) with
              | Ok url => Ok url
              | Err error =>
                  Err (http_error CodeInvalidUri (lit "URI is not a valid absolute URL: " ++ error))
              end in
  ensure is_empty (url_username L url) && negb (is_some (url_password L url))
         && negb (is_some (url_fragment L url))
    else http_error CodeInvalidUri (lit "URI user information and fragments are prohibited") in
  let? host := ok_or (url_host_str L url) (http_error CodeInvalidUri (lit "URI has no host")) in
  let host := to_ascii_lowercase (unbracketed_host host) in
  let? port := ok_or (url_port_or_known_default L url)
    (http_error CodeInvalidUri (lit "URI scheme has no recognized default port")) in
  let authority := canonical_authority host port in
  ensure existsb (fun allowed => authority_matches allowed host port (url_scheme L url)) (allowed_hosts grant)
    else http_error Denied (lit "HTTP destination is not authorized for this invocation") in
  let? _ := scheme_check grant (url_scheme L url) in
  let? url := apply_request_templates grant (self_slots c) method url in
  ensure negb (negb (is_nil (request_templates grant))
               && (str_eqb method (lit "GET") || str_eqb method (lit "HEAD"))
               && ((0 <? bounded_body_bytes) || is_some streamed))
    else http_error Denied (lit "a request template's GET or HEAD rule takes no body") in
  ensure negb (ceil_max_headers (self_ceilings c) <? Z.of_nat (length (req_headers request)))
    else http_error RequestTooLarge (lit "request has too many headers") in
  let? (headers, guest_headers, header_bytes) :=
    collect_headers (ceil_max_header_bytes (self_ceilings c)) (req_headers request) (headers_new L, [], 0) in
  let? request_bytes :=
    byte_limit_check grant (encoded_request_bytes method (url_as_str L url) header_bytes bounded_body_bytes) in
  ensure negb (self_request_authorizer c)
         || turn_policy turn (mkFacts method host (url_path L url) (unwrap_or (url_query L url) [])
              guest_headers (if is_some streamed then None else Some (req_body request))
              (content_type_of headers))
    else http_error Denied (lit "HTTP request denied by policy") in
  Ok (mkChecked url headers host port authority request_bytes).

Definition remaining (c : BufferedHttpClient) (now : Z) : result HttpError Z :=
  if now <? self_deadline c then Ok (self_deadline c - now)
  else Err (http_error TimedOut (lit "invocation deadline expired")).

(** [resolve_destination] under the timeout, with its error. *)
Definition resolve_destination (turn : Turn) (host : str) (port : Z) : result HttpError (list SocketAddr) :=
  match turn_lookup turn host port with
  | LookupTimedOut => Err (http_error TimedOut (lit "destination resolution timed out"))
  | LookupFailed => Err (http_error Dns (lit "destination could not be resolved"))
  | LookupFound addresses =>
      ok_or (bounded_addresses addresses) (http_error Dns (lit "destination resolved to no addresses"))
  end.

(** The addresses of the destination, from the cache, the pin or the resolver. *)
Definition resolve (turn : Turn) (host : str) (port : Z) (authority scheme : str)
    : action World (list SocketAddr) :=
  let! c := get self in
  match self_resolved c !! authority with
  | Some addresses => ret addresses
  | None =>
      let! _ := lift (remaining c (turn_resolved_at turn)) in
      let! addresses :=
        match ceil_loopback_https_pin (self_ceilings c) with
        | Some pin =>
            if str_eqb (pin_authority pin) authority && str_eqb scheme (lit "https") then ret [pin_address pin]
            else lift (resolve_destination turn host port)
        | None => lift (resolve_destination turn host port)
        end in
      let! _ := modify_self (fun c => set_resolved (<[authority := addresses]> (self_resolved c)) c) in
      ret addresses
  end.

Definition non_public_listed (c : BufferedHttpClient) (authority : str) : bool :=
  existsb (fun entry => str_eqb entry authority) (ceil_non_public_https (self_ceilings c)).

Definition pinned_loopback (c : BufferedHttpClient) (authority : str) (addresses : list SocketAddr) : bool :=
  is_some_and (ceil_loopback_https_pin (self_ceilings c)) (fun pin =>
    str_eqb (pin_authority pin) authority && bool_decide (addresses = [pin_address pin])).

Definition addresses_check (c : BufferedHttpClient) (scheme host authority : str) (addresses : list SocketAddr)
    : result HttpError unit :=
  ensure plaintext_permitted scheme host addresses (ceil_plaintext_hosts (self_ceilings c))
    else http_error Denied (lit "plaintext HTTP to " ++ host
           ++ lit " is refused: not a loopback destination, and not listed in the broker's http.plaintextHosts") in
  let non_public := non_public_listed c authority in
  ensure negb (str_eqb scheme (lit "https")) || pinned_loopback c authority addresses
         || https_addresses_permitted non_public addresses
    else http_error Denied (if non_public then lit "non-public HTTPS requires private unicast addresses"
                            else lit "destination resolved to a non-public address") in
  Ok tt.

Definition prepare (turn : Turn) (request : Request) (grant : HttpConstraints)
    (streamed : option RequestLengths) : action World PreparedRequest :=
  let! c := get self in
  let! k := lift (prepare_checked c turn request grant streamed) in
  let! addresses := resolve turn (chk_host k) (chk_port k) (chk_authority k) (url_scheme L (chk_url k)) in
  let! _ := lift (addresses_check c (url_scheme L (chk_url k)) (chk_host k) (chk_authority k) addresses) in
  ret (mkPrepared (req_method request) (chk_url k) (chk_headers k) (req_body request) (chk_host k)
         (chk_authority k) addresses
         (match streamed with Some lengths => lengths_total lengths | None => chk_request_bytes k end)).

(** ** Authorization *)

Definition prepared_port (p : PreparedRequest (L := L)) : Z :=
  unwrap_or (url_port_or_known_default L (prep_url p)) DEFAULT_HTTPS_PORT.

Definition secret_scope_check (c : BufferedHttpClient) (p : PreparedRequest (L := L)) : result HttpError unit :=
  match self_secret_grant c with
  | None => Ok tt
  | Some secret =>
      let path_allowed := existsb (fun rule => HttpPathRule_matches rule (url_path L (prep_url p)))
                            (grant_allowed_paths secret) in
      let method_allowed := existsb (fun method => str_eqb method (prep_method p)) (grant_allowed_methods secret) in
      let host_allowed := existsb (fun authority =>
          authority_matches authority (prep_host p) (prepared_port p) (url_scheme L (prep_url p)))
          (grant_allowed_hosts secret) in
      ensure negb (negb path_allowed || negb method_allowed || negb host_allowed
                   || (negb (grant_allow_query secret) && is_some (url_query L (prep_url p))))
        else http_error Denied (lit "request is outside this secret's authorized HTTP scope") in
      ensure negb (grant_max_injections secret <=? self_secret_injections c)
        else http_error HostCallLimit (lit "the authorized secret injection limit is exhausted") in
      Ok tt
  end.

Definition credential_header (c : BufferedHttpClient) (p : PreparedRequest (L := L))
    : option (result HttpError (list Z)) :=
  match self_credential c with
  | None => None
  | Some credential =>
      Some (if credential_matches credential (prep_host p) (prepared_port p) (url_scheme L (prep_url p))
            then render (L := L) credential
            else Err (http_error Denied (lit "destination is outside this credential's binding")))
  end.

Definition set_headers (h : HeaderMap L) (p : PreparedRequest (L := L)) : PreparedRequest (L := L) :=
  let 'mkPrepared m u _ b ho au ad n := p in mkPrepared m u h b ho au ad n.

Definition insert_header (name : str) (value : list Z) (p : PreparedRequest (L := L)) : PreparedRequest (L := L) :=
  set_headers (headers_insert L (prep_headers p) name value) p.

Definition set_credential_injected (e : HttpCallEvidence) : HttpCallEvidence :=
  let 'mkEvidence m a s q r u v _ := e in mkEvidence m a s q r u v true.

(** [f] on the record at [index]; the index is that of a record pushed before. *)
Definition modify_evidence (index : nat) (f : HttpCallEvidence → HttpCallEvidence) : action World unit :=
  modify_self (fun c => set_evidence (alter f index (self_evidence c)) c).

(** The evidence names the credential, and an injection of the secret is counted. *)
Definition record_injection (evidence_index : nat) : action World unit :=
  let! _ := modify_evidence evidence_index set_credential_injected in
  let! c := get self in
  if is_some (self_secret_grant c)
  then modify_self (fun c => set_secret_injections (Z.min (self_secret_injections c + 1) u32_max) c)
  else ret tt.

(** The credential goes into the headers, the companion beside it. *)
Definition inject (header : option (result HttpError (list Z))) (evidence_index : nat)
    (p : PreparedRequest (L := L)) : action World (PreparedRequest (L := L)) :=
  match header with
  | None => ret p
  | Some header =>
      let! header := lift header in
      let p := insert_header (lit "authorization") header p in
      let! c := get self in
      let! p := match (credential ← self_credential c; render_companion (L := L) credential) with
                | None => ret p
                | Some companion =>
                    let! (name, value) := lift companion in ret (insert_header name value p)
                end in
      let! _ := record_injection evidence_index in
      ret p
  end.

Definition traceparent (context : TraceContextParts) : str :=
  lit "00-" ++ hex (tc_trace_id context) ++ lit "-" ++ hex (tc_span_id context) ++ lit "-"
  ++ hex_byte (tc_flags context).

Definition propagate (grant : HttpConstraints) (turn : Turn) (p : PreparedRequest (L := L))
    : result HttpError (PreparedRequest (L := L)) :=
  match (if propagate_trace grant then turn_trace turn else None) with
  | None => Ok p
  | Some context =>
      ensure header_value_str L (traceparent context)
        else http_error Internal (lit "trace context could not be rendered") in
      Ok (insert_header (lit "traceparent") (traceparent context) p)
  end.

Definition evidence_of (p : PreparedRequest (L := L)) : HttpCallEvidence :=
  mkEvidence (prep_method p) (prep_authority p) None (prep_request_bytes p) 0 None None false.

Definition authorize_request (turn : Turn) (request : Request) (streamed : option RequestLengths)
    : action World (PreparedRequest (L := L) * HttpConstraints * nat) :=
  let! c := get self in
  let! grant := lift (ok_or (self_grant c)
    (http_error Denied (lit "this invocation has no HTTP authorization"))) in
  demand negb (max_requests grant <=? self_calls c)
    else http_error HostCallLimit (lit "the authorized HTTP request limit is exhausted") in
  let! _ := modify_self (set_calls (Z.min (self_calls c + 1) u32_max)) in
  let! deadline := lift (ok_or (instant_checked_add (turn_authorized_at turn) (self_timeout c))
    (http_error Internal (lit "request deadline overflowed"))) in
  let! _ := modify_self (set_deadline deadline) in
  demand negb (is_some (self_secret_grant c) && secret_raw_path_is_ambiguous (req_uri request))
    else http_error Denied (lit "secret-bearing request path uses prohibited encoding or separators") in
  let! prepared := prepare turn request grant streamed in
  let! c := get self in
  let! _ := lift (secret_scope_check c prepared) in
  let header := credential_header c prepared in
  let evidence_index := length (self_evidence c) in
  let! _ := modify_self (fun c => set_evidence (self_evidence c ++ [evidence_of prepared]) c) in
  let! prepared := inject header evidence_index prepared in
  let! prepared := lift (propagate grant turn prepared) in
  ret (prepared, grant, evidence_index).
End Lib.
