(* ===== verification/HttpExchange.v ===== *)
(** * The HTTP host: sending and receiving

    [execute], [pinned_client], [send] and [record_request] of
    [dekopon-http-host/src/lib.rs]; the head and the body of a response, and
    streamed requests and responses, of [stream.rs]; the redaction of
    locations and of the responses of signed downloads, of
    [signed_download.rs].

    [reqwest], [flate2] and [aho_corasick] appear as what they answer: a
    [Reply] for each call, [FlateLib] and [RedactLib]. *)

From Stdlib Require Import ZArith Lia Ascii String.
From stdpp Require Import base gmap strings list sorting numbers.
From S2P Require Import Prelude.
From S2P Require Import RustStr.
From S2P Require Import Identifier.
From S2P Require Import Template.
From S2P Require Import Capability.
From S2P Require Import Keys.
From S2P Require Import Base64.
From S2P Require Import HttpAddress.
From S2P Require Import HttpHost.
From S2P Require Import HttpAuthorize.

(** ** Errors of the transport *)

(** [reqwest::Error]: its kinds, and the texts of its sources. *)
Record ReqwestError : Type := mkReqwestError {
  re_is_builder : bool;
  re_is_timeout : bool;
  re_is_connect : bool;
  re_sources : list str
}.

Definition error_chain_contains (error : ReqwestError) (fragments : list str) : bool :=
  existsb (fun message => existsb (fun fragment => contains_sub (to_ascii_lowercase message) fragment) fragments)
    (re_sources error).

Definition map_reqwest_error (error : ReqwestError) : HttpError :=
  if re_is_builder error then http_error Internal (lit "native HTTP client setup failed")
  else
    let code :=
      if re_is_timeout error then TimedOut
      else if re_is_connect error then
        if error_chain_contains error [lit "tls"; lit "certificate"; lit "cert "] then Tls else Connect
      else Protocol in
    http_error code (lit "HTTP transport failed").

Inductive AssetIoError : Type := OverBudget | AssetIo | AssetWorker.

(** ** The wire of a response *)

(** What a loop of the model answers when its fuel runs out, which it never
    does ([HttpResponse.body_loops_end]); no error of the code is without text. *)
Definition exhausted : HttpError := http_error Internal [].

(** What [response.chunk()] gives, one after another; it gives [None] after the last. *)
Inductive ChunkEvent : Type :=
| ChunkData (bytes : list Z)
| ChunkTimedOut
| ChunkFailed (error : ReqwestError).

Definition next_chunk (events : list ChunkEvent) : result HttpError (option (list Z)) * list ChunkEvent :=
  match events with
  | [] => (Ok None, [])
  | ChunkData bytes :: events => (Ok (Some bytes), events)
  | ChunkTimedOut :: events => (Err (http_error TimedOut (lit "response body timed out")), events)
  | ChunkFailed error :: events => (Err (map_reqwest_error error), events)
  end.

(** [Pending], what the decoder reads from. *)
Record Pending : Type := mkPending { pending_chunk : list Z; pending_ended : bool }.

Inductive Coding : Type := Gzip | Deflate.

(** [Decoder::read]: at most [CHUNK_BYTES] bytes, none at the end of the encoded body. *)
Inductive ReadOutcome : Type := ReadBytes (bytes : list Z) | WouldBlock | Corrupt.

Record FlateLib : Type := mkFlate {
  Decoder : Type;
  decoder_new : Coding → Decoder;
  decoder_read : Decoder → Pending → ReadOutcome * Decoder * Pending
}.

(** An error of kind [WouldBlock] comes from [Pending], which gives it only
    when it is empty and not at its end. *)
Record FlateLaws (F : FlateLib) : Prop := {
  law_would_block d p d' p' :
    decoder_read F d p = (WouldBlock, d', p') → pending_ended p = false ∧ p' = mkPending [] false
}.

(** [AhoCorasick] over some patterns: whether it can be built, its
    leftmost-longest matches, and the text with all of them replaced. *)
Record RedactLib : Type := mkRedactLib {
  ac_builds : list (list Z) → bool;
  ac_find : list (list Z) → list Z → list (nat * nat);
  ac_replace : list (list Z) → list Z → list Z → list Z;
  (** [percent_decode(value).collect()]. *)
  percent_decode : list Z → list Z
}.

Section Lib.
Context {L : HttpLib} {F : FlateLib} {R : RedactLib}.

Record RawResponse : Type := mkRaw {
  raw_status : Z;
  raw_headers : HeaderMap L;
  raw_content_length : option Z;
  raw_events : list ChunkEvent
}.

Inductive SendOutcome : Type :=
| SendTimedOut
| SendFailed (error : ReqwestError)
| SendAnswered (response : RawResponse).

(** What the HTTP library and the asset directory answer during one call. *)
Record Reply : Type := mkReply {
  reply_executed_at : Z;
  reply_build : option ReqwestError;
  reply_send : Departure (L := L) → SendOutcome;
  reply_allocate : option AssetIoError;
  reply_write : nat → option AssetIoError;
  reply_finish : option AssetIoError
}.

(** ** Bodies *)

Record ResponseBody : Type := mkBody {
  body_events : list ChunkEvent;
  body_decoder : option (Decoder F * Pending)
}.

Record Head : Type := mkHead {
  head_status : Z;
  head_headers : list Header;
  head_bytes : Z;
  head_body : ResponseBody
}.

(** The loop over what follows the end of the encoded body: whether bytes do. *)
Fixpoint trailing_bytes (trailing : Z) (ended : bool) (events : list ChunkEvent)
    : result HttpError Z * list ChunkEvent :=
  if (trailing =? 0) && negb ended then
    match events with
    | [] => (Ok 0, [])
    | ChunkData bytes :: events => trailing_bytes (len bytes) false events
    | ChunkTimedOut :: _ | ChunkFailed _ :: _ =>
        match next_chunk events with
        | (Ok _, events) => (Ok 0, events)
        | (Err e, events) => (Err e, events)
        end
    end
  else (Ok trailing, events).

(** The loop of [ResponseBody::next] with a decoder. *)
Fixpoint next_decoded (fuel : nat) (d : Decoder F) (p : Pending) (events : list ChunkEvent)
    : result HttpError (option (list Z)) * ResponseBody :=
  match fuel with
  | O => (Err exhausted, mkBody events (Some (d, p)))
  | S fuel =>
      match decoder_read F d p with
      | (ReadBytes [], d, p) =>
          match trailing_bytes (len (pending_chunk p)) (pending_ended p) events with
          | (Err e, events) => (Err e, mkBody events (Some (d, p)))
          | (Ok trailing, events) =>
              (if 0 <? trailing
               then Err (http_error Protocol (lit "response carries bytes after its encoded body"))
               else Ok None, mkBody events (Some (d, p)))
          end
      | (ReadBytes bytes, d, p) => (Ok (Some bytes), mkBody events (Some (d, p)))
      | (WouldBlock, d, p) =>
          match next_chunk events with
          | (Err e, events) => (Err e, mkBody events (Some (d, p)))
          | (Ok (Some chunk), events) => next_decoded fuel d (mkPending chunk (pending_ended p)) events
          | (Ok None, events) => next_decoded fuel d (mkPending (pending_chunk p) true) events
          end
      | (Corrupt, d, p) =>
          (Err (http_error Protocol (lit "encoded response body is corrupt")), mkBody events (Some (d, p)))
      end
  end.

(** Each turn of the loop takes an event or reaches the end, so the events and
    two more turns are fuel enough ([next_fuel_enough]). *)
Definition body_next (b : ResponseBody) : result HttpError (option (list Z)) * ResponseBody :=
  match body_decoder b with
  | None =>
      match next_chunk (body_events b) with
      | (r, events) => (r, mkBody events None)
      end
  | Some (d, p) => next_decoded (length (body_events b) + 2) d p (body_events b)
  end.

(** ** Heads *)

Definition head_within (bytes : Z) (ceilings : HttpHostCeilings) (maximum : Z) : result HttpError unit :=
  let message := lit "response headers exceed an authorized bound" in
  ensure negb (maximum <? bytes) else byte_limit_error MaxResponseBytes maximum bytes message in
  ensure negb (ceil_max_header_bytes ceilings <? bytes) else http_error ResponseTooLarge message in
  Ok tt.

Fixpoint count_head (ceilings : HttpHostCeilings) (maximum bytes : Z) (headers : list (str * list Z))
    : result HttpError Z :=
  match headers with
  | [] => Ok bytes
  | (name, value) :: headers =>
      let? bytes := ok_or (checked_add_u64 bytes (len name + len value + 4))
        (http_error ResponseTooLarge (lit "response size overflow")) in
      let? _ := head_within bytes ceilings maximum in
      count_head ceilings maximum bytes headers
  end.

Definition response_head_bytes (headers : HeaderMap L) (ceilings : HttpHostCeilings) (maximum : Z)
    : result HttpError Z :=
  ensure negb (ceil_max_headers ceilings <? Z.of_nat (length (headers_iter L headers)))
    else http_error ResponseTooLarge (lit "response has too many headers") in
  let? _ := head_within 16 ceilings maximum in
  count_head ceilings maximum 16 (headers_iter L headers).

Definition returned_head_bytes (headers : list Header) : Z :=
  foldl (fun total header => sat_add_u64 total (len (hd_name header) + len (hd_value header) + 4)) 16 headers.

(** The position of the first byte that [p] holds of, as the bytes before and from it. *)
Fixpoint break_at (p : Z → bool) (bytes : list Z) : list Z * option (Z * list Z) :=
  match bytes with
  | [] => ([], None)
  | b :: bytes =>
      if p b then ([], Some (b, bytes))
      else let '(before, found) := break_at p bytes in (b :: before, found)
  end.

Definition eq_ignore_ascii_case (a b : str) : bool := str_eqb (to_ascii_lowercase a) (to_ascii_lowercase b).

Definition redact_location (header : Header) : Header :=
  if negb (eq_ignore_ascii_case (hd_name header) (lit "location")) then header
  else
    match break_at (fun byte => (byte =? ch "?") || (byte =? ch "#")) (hd_value header) with
    | (_, None) => header
    | (before, Some (byte, _)) =>
        let fragment := mem (ch "#") (hd_value header) in
        mkHeader (hd_name header)
          (before ++ (if byte =? ch "?" then lit "?[redacted]" else [])
                  ++ (if fragment then lit "#[redacted]" else []))
    end.

Definition redact_api_locations (headers : list Header) : list Header := redact_location <$> headers.

Definition echoed : HttpError := http_error Denied (lit "credentialed response echoed the credential").

Definition set_status (v : option Z) (e : HttpCallEvidence) : HttpCallEvidence :=
  let 'mkEvidence m a _ q r u s i := e in mkEvidence m a v q r u s i.

Definition set_response_bytes (v : Z) (e : HttpCallEvidence) : HttpCallEvidence :=
  let 'mkEvidence m a st q _ u s i := e in mkEvidence m a st q v u s i.

Definition set_upstream (u : option str) (s : option VmSession) (e : HttpCallEvidence) : HttpCallEvidence :=
  let 'mkEvidence m a st q r _ _ i := e in mkEvidence m a st q r u s i.

(** [VmSession::parse]. *)
Definition vm_byte_ok (index : nat) (byte : Z) : bool :=
  match index with
  | 8%nat | 13%nat | 18%nat | 23%nat => byte =? ch "-"
  | 14%nat => byte =? ch "7"
  | 19%nat => mem byte (lit "89ab")
  | _ => is_ascii_digit byte || in_range 97 102 byte
  end.

Definition VmSession_parse (text : str) : option VmSession :=
  let bytes := trim text in
  if (length bytes =? 36)%nat && forallb (fun e => vm_byte_ok e.1 e.2) (zip (seq 0 36) bytes)
  then Some (mkVmSession bytes) else None.

Definition upstream_request_id (headers : HeaderMap L) : option str :=
  match headers_get_all headers (lit "x-github-request-id") with
  | bytes :: _ =>
      if in_range 1 64 (len bytes) && forallb (in_range 33 126) bytes then Some bytes else None
  | [] => None
  end.

Definition vm_session (headers : HeaderMap L) : option VmSession :=
  match headers_get_all headers (lit "x-dekopon-vm-session") with
  | bytes :: _ => text ← header_value_to_str L bytes; VmSession_parse text
  | [] => None
  end.

(** The decoder of the response's content coding. *)
Definition choose_decoder (method : str) (response : RawResponse) : result HttpError (option (Decoder F * Pending)) :=
  let bodyless := str_eqb method (lit "HEAD") || (raw_status response =? 204) || (raw_status response =? 304)
                  || bool_decide (raw_content_length response = Some 0) in
  match headers_get_all (raw_headers response) (lit "content-encoding") with
  | [] => Ok None
  | coding :: rest =>
      if bodyless then Ok None
      else if is_nil rest && eq_ignore_ascii_case coding (lit "gzip")
      then Ok (Some (decoder_new F Gzip, mkPending [] false))
      else if is_nil rest && eq_ignore_ascii_case coding (lit "deflate")
      then Ok (Some (decoder_new F Deflate, mkPending [] false))
      else Err (http_error Protocol (lit "response content encoding is not one the host decodes"))
  end.

Definition returned_headers (headers : HeaderMap L) (decoded : bool) : list Header :=
  (fun e => mkHeader e.1 e.2) <$>
  List.filter (fun e => negb (is_forbidden_response_header e.1)
    && (negb decoded || (negb (str_eqb e.1 (lit "content-encoding")) && negb (str_eqb e.1 (lit "content-length")))))
    (headers_iter L headers).

Definition max_headers_check (grant : HttpConstraints) (ceilings : HttpHostCeilings) (returned_bytes : Z)
    : result HttpError unit :=
  let message := lit "redacted headers exceed the authorized byte limit" in
  ensure negb (max_response_bytes grant <? returned_bytes)
    else byte_limit_error MaxResponseBytes (max_response_bytes grant) returned_bytes message in
  ensure negb (ceil_max_header_bytes ceilings <? returned_bytes) else http_error ResponseTooLarge message in
  Ok tt.

Definition accept_head (method : str) (response : RawResponse) (grant : HttpConstraints) (index : nat)
    (metadata : ResponseMetadata) : action (World (L := L)) Head :=
  let! decoder := lift (choose_decoder method response) in
  let status := raw_status response in
  let! _ := modify_evidence index (set_status (Some status)) in
  let! c := get self in
  let! response_bytes :=
    lift (response_head_bytes (raw_headers response) (self_ceilings c) (max_response_bytes grant)) in
  let headers := returned_headers (raw_headers response) (is_some decoder) in
  let! (headers, charged_bytes) :=
    match metadata with
    | Ordinary =>
        let headers := redact_api_locations headers in
        let returned_bytes := returned_head_bytes headers in
        let! _ := lift (max_headers_check grant (self_ceilings c) returned_bytes) in
        ret (headers, Z.max response_bytes returned_bytes)
    | SignedDownloadMetadata => ret (headers, response_bytes)
    end in
  demand negb (is_some_and (self_credential c)
                 (fun credential => echoes_credential credential (mkResponse status headers [])))
    else echoed in
  let! _ := modify_evidence index (set_response_bytes response_bytes) in
  let! _ := modify_evidence index (match metadata with
    | SignedDownloadMetadata => set_upstream None None
    | Ordinary => set_upstream (upstream_request_id (raw_headers response)) (vm_session (raw_headers response))
    end) in
  ret (mkHead status headers charged_bytes (mkBody (raw_events response) decoder)).

(** ** The client pinned to the addresses checked *)

(** The certificates of the bundles, as [add_root_certificate] takes them. *)
Fixpoint bundle_roots (bundles : list (list Z)) : result HttpError (list (list Z)) :=
  match bundles with
  | [] => Ok []
  | pem :: bundles =>
      let? certs := ok_or (pem_bundle L pem) (http_error Denied (lit "invalid configured CA bundle")) in
      let? roots := bundle_roots bundles in
      Ok (certs ++ roots)
  end.

(** The bundle of the pin, for its authority and address; there is an address. *)
Definition pinned_ca (c : BufferedHttpClient) (host : str) (addresses : list SocketAddr) : list (list Z) :=
  match ceil_loopback_https_pin (self_ceilings c), addresses with
  | Some pin, address :: _ =>
      if str_eqb (pin_authority pin) (canonical_authority host (addr_port address))
         && bool_decide (addresses = [pin_address pin])
      then [pin_ca_pem pin] else []
  | _, _ => []
  end.

(** A client for [host] at [addresses] and nowhere else. *)
Definition build_client (reply : Reply) (host : str) (addresses : list SocketAddr) (budget : Z)
    : action (World (L := L)) HttpClient :=
  let! c := get self in
  let! roots := lift (bundle_roots (ceil_extra_ca_bundles (self_ceilings c) ++ pinned_ca c host addresses)) in
  let! _ := match reply_build reply with
            | Some error => fail (map_reqwest_error error)
            | None => ret tt
            end in
  let client := mkHttpClient false false (lit "gzip, deflate") host addresses roots budget in
  let! _ := modify_self (set_pinned_client (Some (mkPinned host addresses client))) in
  ret client.

Definition pinned_client (reply : Reply) (host : str) (addresses : list SocketAddr) (budget : Z)
    : action (World (L := L)) HttpClient :=
  let! c := get self in
  match self_pinned_client c with
  | Some pinned =>
      if str_eqb (pinned_host pinned) host && bool_decide (pinned_addresses pinned = addresses)
      then ret (pinned_http pinned)
      else build_client reply host addresses budget
  | None => build_client reply host addresses budget
  end.

(** [client.request(..).send()] under the timeout: the request is on the wire. *)
Definition dispatch (reply : Reply) (departure : Departure (L := L)) : action (World (L := L)) RawResponse :=
  let! _ := put (fun w => mkWorld (self w) (wire w ++ [departure])) in
  match reply_send reply departure with
  | SendTimedOut => fail (http_error TimedOut (lit "HTTP request timed out"))
  | SendFailed error => fail (map_reqwest_error error)
  | SendAnswered response => ret response
  end.

(** ** Redaction of the responses of signed downloads *)

Record ApiRedactor : Type := mkRedactor {
  redactor_secrets : list (list Z);
  redactor_pending : list Z;
  redactor_overlap : nat
}.

Definition split_secret_part (bytes : list Z) (separator : Z) : list Z * option (list Z) :=
  match break_at (Z.eqb separator) bytes with
  | (before, Some (_, after)) => (before, Some after)
  | (_, None) => (bytes, None)
  end.

Definition secrets_of_part (part : list Z) : list (list Z) :=
  pair ← split (ch "&") part;
  let '(key, value) := split_secret_part pair (ch "=") in
  let value := unwrap_or value pair in
  if negb (is_nil value) && (eq_ignore_ascii_case key (lit "sig") || (16 <=? len value))
  then [value; percent_decode R value] else [].

Definition secrets_of_header (header : Header) : list (list Z) :=
  if eq_ignore_ascii_case (hd_name header) (lit "location") then
    let '(path_query, fragment) := split_secret_part (hd_value header) (ch "#") in
    let '(_, query) := split_secret_part path_query (ch "?") in
    part ← [query; fragment];
    match part with
    | Some part => if is_nil part then [] else secrets_of_part part
    | None => []
    end
  else [].

(** [Vec::dedup]. *)
Fixpoint dedup (l : list (list Z)) : list (list Z) :=
  match l with
  | a :: ((b :: _) as rest) => if str_eqb a b then dedup rest else a :: dedup rest
  | _ => l
  end.

Definition redacted_text : list Z := lit "[redacted]".

Fixpoint replace_headers (secrets : list (list Z)) (headers : list Header) : result HttpError (list Header) :=
  match headers with
  | [] => Ok []
  | header :: headers =>
      let name := ac_replace R secrets (hd_name header) redacted_text in
      ensure str_ok name else http_error Internal (lit "redacted header name is not UTF-8") in
      let value := ac_replace R secrets (hd_value header) redacted_text in
      let? headers := replace_headers secrets headers in
      Ok (mkHeader name value :: headers)
  end.

(** [ApiRedactor::new], with the headers it rewrites. The sort by length is stable. *)
Definition ApiRedactor_new (headers : list Header) : result HttpError (ApiRedactor * list Header) :=
  let secrets := dedup (sort_by_key (fun secret => - len secret) (headers ≫= secrets_of_header)) in
  let overlap := match secrets with secret :: _ => (length secret - 1)%nat | [] => 0%nat end in
  ensure ac_builds R secrets
    else http_error Internal (lit "response redactor could not be constructed") in
  let? headers := replace_headers secrets (redact_api_locations headers) in
  Ok (mkRedactor secrets [] overlap, headers).

Definition append_redacted (output bytes : list Z) (maximum : Z) : result HttpError (list Z) :=
  ensure negb (maximum <? sat_add_u64 (len output) (len bytes))
    else http_error ResponseTooLarge (lit "redacted response exceeds the authorized byte limit") in
  Ok (output ++ bytes).

(** The bytes of [pending] from [a] to [b]. *)
Definition bytes_between (pending : list Z) (a b : nat) : list Z := take (b - a) (drop a pending).

(** The loop over the matches that start before [ready]: the output and how much is consumed. *)
Fixpoint render_matches (pending : list Z) (ready : nat) (matches : list (nat * nat)) (consumed : nat)
    (output : list Z) (maximum : Z) : result HttpError (nat * list Z) :=
  match matches with
  | [] => Ok (consumed, output)
  | (start, stop) :: matches =>
      if (ready <=? start)%nat then Ok (consumed, output)
      else
        let? output := append_redacted output (bytes_between pending consumed start) maximum in
        let? output := append_redacted output redacted_text maximum in
        render_matches pending ready matches stop output maximum
  end.

Definition redactor_render (r : ApiRedactor) (ready : nat) (output : list Z) (maximum : Z)
    : result HttpError (ApiRedactor * list Z) :=
  let pending := redactor_pending r in
  let? (consumed, output) :=
    render_matches pending ready (ac_find R (redactor_secrets r) pending) 0 output maximum in
  let? (consumed, output) :=
    (if (consumed <? ready)%nat
     then let? output := append_redacted output (bytes_between pending consumed ready) maximum in Ok (ready, output)
     else Ok (consumed, output)) in
  Ok (mkRedactor (redactor_secrets r) (drop consumed pending) (redactor_overlap r), output).

Definition CHUNK_BYTES : Z := 65536.

Definition redactor_push (r : ApiRedactor) (bytes output : list Z) (maximum : Z)
    : result HttpError (ApiRedactor * list Z) :=
  let r := mkRedactor (redactor_secrets r) (redactor_pending r ++ bytes) (redactor_overlap r) in
  if len (redactor_pending r) <? Z.of_nat (redactor_overlap r) + CHUNK_BYTES then Ok (r, output)
  else redactor_render r (length (redactor_pending r) - redactor_overlap r) output maximum.

Definition redactor_finish (r : ApiRedactor) (output : list Z) (maximum : Z) : result HttpError (list Z) :=
  let? (_, output) := redactor_render r (length (redactor_pending r)) output maximum in Ok output.

(** [slice::chunks]: pieces of [n] bytes, the last one shorter. *)
Fixpoint chunks_fuel (fuel n : nat) (l : list Z) : list (list Z) :=
  match fuel, l with
  | S fuel, _ :: _ => take n l :: chunks_fuel fuel n (drop n l)
  | _, _ => []
  end.

Definition chunks_of (n : Z) (l : list Z) : list (list Z) := chunks_fuel (length l) (Z.to_nat n) l.

Fixpoint redactor_push_all (r : ApiRedactor) (pieces : list (list Z)) (output : list Z) (maximum : Z)
    : result HttpError (ApiRedactor * list Z) :=
  match pieces with
  | [] => Ok (r, output)
  | piece :: pieces =>
      let? (r, output) := redactor_push r piece output maximum in
      redactor_push_all r pieces output maximum
  end.

(** ** A buffered exchange *)

(** Not above the bytes counted, so the sum fits. *)
Definition add_response_bytes (n : Z) (e : HttpCallEvidence) : HttpCallEvidence :=
  set_response_bytes (ev_response_bytes e + n) e.

(** The bytes counted after a chunk, within the grant. *)
Definition count_chunk (grant : HttpConstraints) (index : nat) (response_bytes : Z) (chunk : list Z) (overflow : str)
    : action (World (L := L)) Z :=
  let! response_bytes := lift (ok_or (checked_add_u64 response_bytes (len chunk))
    (http_error ResponseTooLarge overflow)) in
  let! _ := modify_evidence index (add_response_bytes (len chunk)) in
  demand negb (max_response_bytes grant <? response_bytes)
    else byte_limit_error MaxResponseBytes (max_response_bytes grant) response_bytes
           (lit "response exceeds the authorized byte limit") in
  ret response_bytes.

(** A turn takes an event of the wire or counts a byte of the grant at least. *)
Definition body_fuel (grant : HttpConstraints) (b : ResponseBody) : nat :=
  S (length (body_events b) + Z.to_nat (max_response_bytes grant)).

Fixpoint read_body (fuel : nat) (grant : HttpConstraints) (index : nat) (maximum : Z)
    (redactor : option ApiRedactor) (b : ResponseBody) (response_bytes : Z) (output : list Z)
    : action (World (L := L)) (list Z) :=
  match fuel with
  | O => fail exhausted
  | S fuel =>
      match body_next b with
      | (Err e, _) => fail e
      | (Ok None, _) =>
          match redactor with
          | Some r => lift (redactor_finish r output maximum)
          | None => ret output
          end
      | (Ok (Some chunk), b) =>
          let! response_bytes := count_chunk grant index response_bytes chunk (lit "response size overflowed") in
          match redactor with
          | Some r =>
              let! (r, output) := lift (redactor_push_all r (chunks_of CHUNK_BYTES chunk) output maximum) in
              read_body fuel grant index maximum (Some r) b response_bytes output
          | None => read_body fuel grant index maximum None b response_bytes (output ++ chunk)
          end
      end
  end.

Definition execute (reply : Reply) (request : PreparedRequest (L := L)) (grant : HttpConstraints)
    (evidence_index : nat) (metadata : ResponseMetadata) : action (World (L := L)) Response :=
  let! c := get self in
  let! budget := lift (remaining c (reply_executed_at reply)) in
  let! client := pinned_client reply (prep_host request) (prep_addresses request) budget in
  let! response := dispatch reply (mkDeparture client request (Buffered (prep_body request))) in
  let! head := accept_head (prep_method request) response grant evidence_index metadata in
  let! (redactor, headers) :=
    match metadata with
    | SignedDownloadMetadata =>
        if head_status head =? 302 then ret (None, head_headers head)
        else let! (r, headers) := lift (ApiRedactor_new (head_headers head)) in ret (Some r, headers)
    | Ordinary => ret (None, head_headers head)
    end in
  let output_head := returned_head_bytes headers in
  demand negb (max_response_bytes grant <? output_head)
    else byte_limit_error MaxResponseBytes (max_response_bytes grant) output_head
           (lit "redacted headers exceed the authorized byte limit") in
  demand negb (is_some redactor && (ceil_max_header_bytes (self_ceilings c) <? output_head))
    else http_error ResponseTooLarge (lit "redacted headers exceed the authorized byte limit") in
  let! body := read_body (body_fuel grant (head_body head)) grant evidence_index
                 (max_response_bytes grant - output_head) redactor (head_body head) (head_bytes head) [] in
  ret (mkResponse (head_status head) headers body).

Definition send_with_metadata (turn : Turn) (reply : Reply) (request : Request) (metadata : ResponseMetadata)
    : action (World (L := L)) Response :=
  let! (prepared, grant, evidence_index) := authorize_request turn request None in
  let! response := execute reply prepared grant evidence_index metadata in
  let! c := get self in
  demand negb (is_some_and (self_credential c) (fun credential => echoes_credential credential response))
    else echoed in
  ret response.

(** [record_request], apart from the trace: a violation of the policy is kept. *)
Definition recording {A : Type} (m : action (World (L := L)) A) : action (World (L := L)) A := fun w =>
  match m w with
  | (Ok a, w) => (Ok a, w)
  | (Err error, w) =>
      let violation := match PolicyViolation_from_error error with
                       | Some violation => Some violation
                       | None => self_policy_violation (self w)
                       end in
      (Err error, mkWorld (set_policy_violation violation (self w)) (wire w))
  end.

Definition send (turn : Turn) (reply : Reply) (request : Request) : action (World (L := L)) Response :=
  let! _ := modify_self (set_attempted true) in
  recording (send_with_metadata turn reply request Ordinary).

(** ** A streamed exchange *)

Inductive Representation : Type := Identity | Base64Text.

(** Of a [FilePart] the form on the wire and the decoded length. *)
Inductive Part : Type := LiteralPart (bytes : list Z) | AssetPart (form : Representation) (decoded_bytes : Z).

Record StreamedRequest : Type := mkStreamed {
  sr_method : str;
  sr_uri : str;
  sr_headers : list Header;
  sr_body : list Part
}.

(** The body is the file the spool was finished into. *)
Record StreamedResponse : Type := mkStreamedResponse {
  st_status : Z;
  st_headers : list Header;
  st_body : list Z
}.

Definition MAX_DECODED_INVOCATION_BYTES : Z := 40 * 1024 * 1024.

(** The loop of [StreamBody::new]. *)
Fixpoint body_lengths (lengths : RequestLengths) (parts : list Part) : result HttpError RequestLengths :=
  match parts with
  | [] => Ok lengths
  | part :: parts =>
      let? (literal, decoded, bytes) :=
        match part with
        | LiteralPart bytes =>
            let? literal := ok_or (checked_add_u64 (lengths_literal lengths) (len bytes))
              (http_error RequestTooLarge (lit "literal length overflow")) in
            Ok (literal, lengths_decoded_assets lengths, len bytes)
        | AssetPart form decoded_bytes =>
            let? decoded := ok_or
              (n ← checked_add_u64 (lengths_decoded_assets lengths) decoded_bytes;
               if n <=? MAX_DECODED_INVOCATION_BYTES then Some n else None)
              (http_error RequestTooLarge (lit "asset parts exceed the decoded invocation byte ceiling")) in
            let? bytes := match form with
                          | Identity => Ok decoded_bytes
                          | Base64Text =>
                              match encoded_len decoded_bytes with
                              | Ok n => Ok n
                              | Err _ => Err (http_error RequestTooLarge (lit "encoded length overflow"))
                              end
                          end in
            Ok (lengths_literal lengths, decoded, bytes)
        end in
      let? total := ok_or (checked_add_u64 (lengths_total lengths) bytes)
        (http_error RequestTooLarge (lit "body length overflow")) in
      body_lengths (mkLengths literal decoded total) parts
  end.

Definition asset_error (error : AssetIoError) : action (World (L := L)) HttpError :=
  match error with
  | OverBudget =>
      let! _ := modify_self (set_asset_over_budget true) in
      ret (http_error Internal (lit "over-budget: broker asset disk capacity exhausted"))
  | AssetIo => ret (http_error Internal (lit "broker asset spool I/O failed"))
  | AssetWorker => ret (http_error Internal (lit "broker asset spool worker failed"))
  end.

(** An operation of the spool, and its error. *)
Definition spool_step (error : option AssetIoError) : action (World (L := L)) unit :=
  match error with
  | None => ret tt
  | Some error => let! error := asset_error error in fail error
  end.

(** The pieces of a chunk: scanned, then written; [writes] counts the writes. *)
Fixpoint spool_pieces (reply : Reply) (overlap : Z) (pieces : list (list Z)) (window spool : list Z) (writes : nat)
    : action (World (L := L)) (list Z * list Z * nat) :=
  match pieces with
  | [] => ret (window, spool, writes)
  | piece :: pieces =>
      let! c := get self in
      let! window :=
        match self_credential c with
        | None => ret window
        | Some credential =>
            match scan_stream_chunk credential window piece overlap with
            | (None, _) => fail echoed
            | (Some clean, window) => ret (drop (Z.to_nat clean) window)
            end
        end in
      let! _ := spool_step (reply_write reply writes) in
      spool_pieces reply overlap pieces window (spool ++ piece) (S writes)
  end.

Fixpoint spool_body (fuel : nat) (reply : Reply) (grant : HttpConstraints) (index : nat) (overlap : Z)
    (b : ResponseBody) (response_bytes : Z) (window spool : list Z) (writes : nat)
    : action (World (L := L)) (list Z) :=
  match fuel with
  | O => fail exhausted
  | S fuel =>
      match body_next b with
      | (Err e, _) => fail e
      | (Ok None, _) => ret spool
      | (Ok (Some chunk), b) =>
          let! response_bytes := count_chunk grant index response_bytes chunk (lit "response size overflow") in
          let! (window, spool, writes) :=
            spool_pieces reply overlap (chunks_of CHUNK_BYTES chunk) window spool writes in
          spool_body fuel reply grant index overlap b response_bytes window spool writes
      end
  end.

(** [.header(CONTENT_LENGTH, total)] of the request builder. *)
Definition with_content_length (total : Z) (p : PreparedRequest (L := L)) : PreparedRequest (L := L) :=
  set_headers (headers_append L (prep_headers p) (lit "content-length") (to_decimal total)) p.

Definition stream_checked (turn : Turn) (reply : Reply) (request : StreamedRequest)
    : action (World (L := L)) StreamedResponse :=
  let! lengths := lift (body_lengths (mkLengths 0 0 0) (sr_body request)) in
  let! (prepared, grant, index) :=
    authorize_request turn (mkRequest (sr_method request) (sr_uri request) (sr_headers request) []) (Some lengths) in
  let! _ := spool_step (reply_allocate reply) in
  let! c := get self in
  let! budget := lift (remaining c (reply_executed_at reply)) in
  let! client := pinned_client reply (prep_host prepared) (prep_addresses prepared) budget in
  let! response := dispatch reply
    (mkDeparture client (with_content_length (lengths_total lengths) prepared) (Streamed lengths)) in
  let! head := accept_head (prep_method prepared) response grant index Ordinary in
  let overlap := match self_credential c with Some credential => echo_overlap credential | None => 0 end in
  let! spool := spool_body (body_fuel grant (head_body head)) reply grant index overlap (head_body head)
                  (head_bytes head) [] [] 0%nat in
  let! _ := modify_evidence index (set_status (Some (head_status head))) in
  let! _ := spool_step (reply_finish reply) in
  ret (mkStreamedResponse (head_status head) (head_headers head) spool).

Definition stream (turn : Turn) (reply : Reply) (request : StreamedRequest)
    : action (World (L := L)) StreamedResponse :=
  let! _ := modify_self (set_attempted true) in
  recording (stream_checked turn reply request).

(** ** The calls of an invocation *)

Inductive Call : Type :=
| CallSend (request : Request)
| CallStream (request : StreamedRequest).

Definition call (c : Turn * Reply * Call) (w : World (L := L)) : World (L := L) :=
  let '(turn, reply, what) := c in
  match what with
  | CallSend request => (send turn reply request w).2
  | CallStream request => (stream turn reply request w).2
  end.

Definition run (calls : list (Turn * Reply * Call)) (w : World (L := L)) : World (L := L) :=
  foldl (fun w c => call c w) w calls.
End Lib.
