(* ===== verification/HttpSafety.v ===== *)
(** * The HTTP host: what leaves it

    Every request that any sequence of calls of an invocation puts on the wire
    is one the invocation's grant, its secret grant and its credential allow,
    and each is accounted for. *)

From Stdlib Require Import ZArith Lia Ascii String.
From stdpp Require Import base gmap strings list sorting numbers sets.
From S2P Require Import Prelude.
From S2P Require Import RustStr.
From S2P Require Import Identifier.
From S2P Require Import Template.
From S2P Require Import Capability.
From S2P Require Import HttpAddress.
From S2P Require Import HttpHost.
From S2P Require Import HttpAuthorize.
From S2P Require Import HttpExchange.

(** Inversion of a computation with [let?] and [ensure] that succeeds. *)
Ltac ok_inv H :=
  repeat match type of H with
  | result_bind ?m _ = Ok _ => let E := fresh "E" in destruct m eqn:E; cbn [result_bind] in H; [|discriminate H]
  | (if ?b then _ else Err _) = Ok _ => let E := fresh "E" in destruct b eqn:E; [|discriminate H]
  | ok_or ?o _ = Ok _ => apply ok_or_Ok in H
  end.

(** Symbolic execution of an action. *)
Ltac act_step :=
  match goal with
  | |- post (bind _ _) _ _ => apply post_bind
  | |- post (get _) _ _ => apply post_get
  | |- post (put _) _ _ => apply post_put
  | |- post (modify_self _) _ _ => apply post_put
  | |- post (lift _) _ _ => apply post_lift
  | |- post (ret _) _ _ => apply post_ret
  | |- post (fail _) _ _ => apply post_fail
  end; cbn beta iota.

Section Lib.
Context {L : HttpLib} {F : FlateLib} {R : RedactLib}.
Context (laws : HttpLaws L).

Abbreviation World := (World (L := L)).
Abbreviation PreparedRequest := (PreparedRequest (L := L)).
Implicit Types (c : BufferedHttpClient) (w : World) (p : PreparedRequest) (g : HttpConstraints).

(** ** What is allowed *)

(** The headers the broker adds: the credential and its companion, the trace,
    and the length of a streamed body. *)
Definition credential_headers (c : BufferedHttpClient) : list (str * list Z) :=
  match self_credential c with
  | None => []
  | Some credential =>
      (lit "authorization", header_value credential)
      :: match companion_header credential with
         | Some account => [(lit "chatgpt-account-id", account)]
         | None => []
         end
  end.

Definition trace_headers (g : HttpConstraints) (trace : list (str * list Z)) : Prop :=
  trace = [] ∨ (propagate_trace g = true ∧ ∃ value, trace = [(lit "traceparent", value)]).

Definition header_bytes (guest : list (str * list Z)) : Z :=
  foldr (fun e n => len e.1 + len e.2 + 4 + n) 0 guest.

(** The guest's own headers, as they go out. *)
Record guest_headers_ok (c : BufferedHttpClient) (guest : list (str * list Z)) : Prop := {
  guest_not_owned : Forall (fun e => is_forbidden_request_header e.1 = false) guest;
  guest_count : Z.of_nat (length guest) ≤ ceil_max_headers (self_ceilings c);
  guest_bytes : header_bytes guest ≤ ceil_max_header_bytes (self_ceilings c) ∨ guest = []
}.

(** The destination: the host and port of the URL, which the grant lists. *)
Record destination_ok (g : HttpConstraints) (p : PreparedRequest) (port : Z) : Prop := {
  dest_port : url_port_or_known_default L (prep_url p) = Some port;
  dest_host : ∃ host, url_host_str L (prep_url p) = Some host
                      ∧ prep_host p = to_ascii_lowercase (unbracketed_host host);
  dest_authority : prep_authority p = canonical_authority (prep_host p) port;
  dest_allowed : ∃ allowed, allowed ∈ allowed_hosts g
                   ∧ authority_matches allowed (prep_host p) port (url_scheme L (prep_url p)) = true
}.

(** The addresses: public ones under HTTPS, private ones where the broker
    lists the authority, the address of the pin, and in plain text loopback or
    a host the broker lists. *)
Definition addresses_ok (c : BufferedHttpClient) (g : HttpConstraints) (p : PreparedRequest) : Prop :=
  prep_addresses p ≠ [] ∧
  ((url_scheme L (prep_url p) = lit "https" ∧
      (pinned_loopback c (prep_authority p) (prep_addresses p) = true
       ∨ https_addresses_permitted (non_public_listed c (prep_authority p)) (prep_addresses p) = true))
   ∨ (url_scheme L (prep_url p) = lit "http" ∧ allow_plaintext_loopback g = true ∧
      (Forall (fun a => is_loopback (addr_ip a) = true) (prep_addresses p)
       ∨ PlaintextHosts_contains (ceil_plaintext_hosts (self_ceilings c)) (prep_host p) = true))).

(** The scope of the secret that the credential was made from. *)
Record secret_scope_ok (s : SecretUseGrant) (p : PreparedRequest) (port : Z) : Prop := {
  secret_path : ∃ rule, rule ∈ grant_allowed_paths s ∧ HttpPathRule_matches rule (url_path L (prep_url p)) = true;
  secret_method : prep_method p ∈ grant_allowed_methods s;
  secret_host : ∃ a, a ∈ grant_allowed_hosts s
                  ∧ authority_matches a (prep_host p) port (url_scheme L (prep_url p)) = true;
  secret_query : grant_allow_query s = true ∨ url_query L (prep_url p) = None
}.

(** A request that [authorize_request] lets through, with the length header
    [content_length] that a streamed body gets. *)
Record request_ok (c : BufferedHttpClient) (g : HttpConstraints) (p : PreparedRequest)
    (body_bytes : Z) (content_length : list (str * list Z)) : Prop := {
  ok_method : prep_method p ∈ allowed_methods g;
  ok_destination : ∃ port, destination_ok g p port ∧
    (∀ credential, self_credential c = Some credential → ∃ d, d ∈ destinations credential ∧
       authority_matches d (prep_host p) port (url_scheme L (prep_url p)) = true) ∧
    (∀ s, self_secret_grant c = Some s → secret_scope_ok s p port);
  ok_addresses : addresses_ok c g p;
  ok_headers : ∃ guest trace,
    headers_iter L (prep_headers p) ≡ₚ content_length ++ trace ++ credential_headers c ++ guest ∧
    guest_headers_ok c guest ∧ trace_headers g trace ∧
    128 + len (prep_method p) + len (url_as_str L (prep_url p)) + header_bytes guest + body_bytes
      ≤ max_request_bytes g
}.

Definition departure_ok (c : BufferedHttpClient) (g : HttpConstraints) (d : Departure (L := L)) : Prop :=
  let p := dep_request d in
  (hc_host (dep_http d) = prep_host p ∧ hc_addresses (dep_http d) = prep_addresses p
   ∧ hc_follows_redirects (dep_http d) = false ∧ hc_uses_proxy (dep_http d) = false) ∧
  match dep_body d with
  | Buffered body => request_ok c g p (len body) []
  | Streamed lengths =>
      request_ok c g p (lengths_literal lengths) [(lit "content-length", to_decimal (lengths_total lengths))]
  end.

(** ** Preparation *)

Lemma existsb_elem {A : Type} (f : A → bool) (l : list A) :
  existsb f l = true ↔ ∃ x, x ∈ l ∧ f x = true.
Proof.
  rewrite existsb_exists. split; intros (x & Hx & Hf); exists x; (split; [by apply list_elem_of_In|done]).
Qed.

Lemma header_bytes_app (a b : list (str * list Z)) : header_bytes (a ++ b) = header_bytes a + header_bytes b.
Proof. induction a as [|e a IH]; cbn in *; [done|]. unfold header_bytes in *. lia. Qed.

Lemma collect_headers_Ok (max : Z) (hs : list Header) (m m' : HeaderMap L) (g0 g' : list (str * list Z)) (n n' : Z) :
  collect_headers max hs (m, g0, n) = Ok (m', g', n') →
  ∃ guest, g' = g0 ++ guest ∧ length guest = length hs ∧ headers_iter L m' ≡ₚ headers_iter L m ++ guest ∧
    Forall (fun e => is_forbidden_request_header e.1 = false) guest ∧ n' = n + header_bytes guest ∧
    (guest = [] ∨ n' ≤ max).
Proof using laws.
  revert m g0 n. induction hs as [|h hs IH]; intros m g0 n H; cbn in H.
  { injection H as <- <- <-. exists []. rewrite !app_nil_r. cbn. split_and!; try done; [lia|by left]. }
  ok_inv H. apply IH in H as (guest & -> & Hl & Hp & Hf & -> & Hm). clear IH.
  apply ok_or_Ok in E. apply ok_or_Ok in E1. apply (law_header_name L laws) in E1 as Hn.
  apply bind_Some in E as (n1 & E & (n2 & E' & E'')%bind_Some).
  apply checked_add_u64_Some in E as [-> _]. apply checked_add_u64_Some in E' as [-> _].
  apply checked_add_u64_Some in E'' as [-> _]. apply negb_true_iff, Z.ltb_ge in E0.
  assert (len a0 = len (hd_name h)) as Hlen by (by rewrite Hn, lowercase_len).
  exists ((a0, hd_value h) :: guest). split_and!.
  - by rewrite <- app_assoc.
  - by cbn; rewrite Hl.
  - rewrite Hp, (law_headers_append L laws). cbn. by rewrite Permutation_middle.
  - constructor; [|done]. by apply negb_true_iff.
  - cbn. unfold header_bytes. cbn. lia.
  - right. destruct Hm as [->|Hm]; [|done]. cbn. lia.
Qed.

Lemma scheme_check_Ok (g : HttpConstraints) (scheme : str) (u : unit) :
  scheme_check g scheme = Ok u → scheme = lit "https" ∨ (scheme = lit "http" ∧ allow_plaintext_loopback g = true).
Proof.
  unfold scheme_check. destruct (str_eqb scheme (lit "https")) eqn:E1; [left; by apply str_eqb_eq|].
  destruct (str_eqb scheme (lit "http")) eqn:E2; [|done]. intros H. ok_inv H. right.
  split; [by apply str_eqb_eq|done].
Qed.

Lemma byte_limit_check_Ok (g : HttpConstraints) (bytes : option Z) (n : Z) :
  byte_limit_check g bytes = Ok n → bytes = Some n ∧ n ≤ max_request_bytes g.
Proof.
  unfold byte_limit_check. intros H. ok_inv H. injection H as ->. apply ok_or_Ok in E.
  apply negb_true_iff, Z.ltb_ge in E0. done.
Qed.

Lemma encoded_request_bytes_Some (method uri : str) (h b n : Z) :
  encoded_request_bytes method uri h b = Some n → n = 128 + len method + len uri + h + b.
Proof.
  unfold encoded_request_bytes. intros (n1 & H1 & (n2 & H2 & (n3 & H3 & H4)%bind_Some)%bind_Some)%bind_Some.
  apply checked_add_u64_Some in H1 as [-> _]. apply checked_add_u64_Some in H2 as [-> _].
  apply checked_add_u64_Some in H3 as [-> _]. apply checked_add_u64_Some in H4 as [-> _].
  unfold REQUEST_ENCODING_OVERHEAD_BYTES. lia.
Qed.

Lemma same_origin_refl (u : Url L) : same_origin u u.
Proof. by split_and!. Qed.

Lemma same_origin_trans (u v x : Url L) : same_origin u v → same_origin v x → same_origin u x.
Proof. unfold same_origin. intros (-> & -> & ->) (-> & -> & ->). by split_and!. Qed.

Lemma templates_keep_origin (g : HttpConstraints) (slots : ChatSlotValues) (method : str) (u v : Url L) :
  apply_request_templates g slots method u = Ok v → same_origin v u.
Proof using laws.
  unfold apply_request_templates. destruct (is_nil _); [intros [= ->]; apply same_origin_refl|].
  intros H. ok_inv H. injection H as <-. apply ok_or_Ok in E4. apply (law_segments L laws) in E4.
  destruct (_ && _).
  - eapply same_origin_trans; [apply (law_without_query L laws)|exact E4].
  - eapply same_origin_trans; [apply (law_with_pairs L laws)|exact E4].
Qed.

Definition body_size (request : Request) (streamed : option RequestLengths) : Z :=
  match streamed with Some lengths => lengths_literal lengths | None => len (req_body request) end.

(** What [prepare] has checked before it resolves the destination. *)
Record checked_ok (c : BufferedHttpClient) (g : HttpConstraints) (request : Request)
    (streamed : option RequestLengths) (k : Checked (L := L)) : Prop := {
  chk_method_ok : req_method request ∈ allowed_methods g;
  chk_origin_ok : url_port_or_known_default L (chk_url k) = Some (chk_port k) ∧
    (∃ host, url_host_str L (chk_url k) = Some host ∧ chk_host k = to_ascii_lowercase (unbracketed_host host)) ∧
    chk_authority k = canonical_authority (chk_host k) (chk_port k) ∧
    (∃ a, a ∈ allowed_hosts g ∧ authority_matches a (chk_host k) (chk_port k) (url_scheme L (chk_url k)) = true);
  chk_scheme_ok : url_scheme L (chk_url k) = lit "https"
    ∨ (url_scheme L (chk_url k) = lit "http" ∧ allow_plaintext_loopback g = true);
  chk_headers_ok : ∃ guest, headers_iter L (chk_headers k) ≡ₚ guest ∧ guest_headers_ok c guest ∧
    128 + len (req_method request) + len (url_as_str L (chk_url k)) + header_bytes guest
      + body_size request streamed ≤ max_request_bytes g
}.

Lemma prepare_checked_Ok (c : BufferedHttpClient) (turn : Turn) (request : Request) (g : HttpConstraints)
    (streamed : option RequestLengths) (k : Checked (L := L)) :
  prepare_checked c turn request g streamed = Ok k → checked_ok c g request streamed k.
Proof using laws.
  unfold prepare_checked. intros H. ok_inv H. destruct a5 as [[headers guest] n]. ok_inv H.
  injection H as <-. apply existsb_elem in E1 as (m & Hm & <-%str_eqb_eq).
  apply ok_or_Ok in E5. apply ok_or_Ok in E6. apply existsb_elem in E7. apply scheme_check_Ok in E8.
  apply templates_keep_origin in E9 as (Es & Eh & Ep).
  apply negb_true_iff, Z.ltb_ge in E11.
  apply collect_headers_Ok in E12 as (guest' & -> & Hl & Hperm & Hf & -> & Hmax).
  apply byte_limit_check_Ok in E13 as [Hb Hle]. apply encoded_request_bytes_Some in Hb as ->.
  rewrite (law_headers_new L laws) in Hperm. constructor; cbn; rewrite ?Es, ?Eh, ?Ep; eauto 10.
  exists guest'. split_and!; [done| |unfold body_size; destruct streamed; lia]. constructor; [done|lia|]. destruct Hmax; [by right|left; lia].
Qed.

(** ** The invariant *)

Definition settings (c : BufferedHttpClient) :=
  (self_grant c, self_request_authorizer c, self_secret_grant c, self_credential c, self_slots c,
   self_ceilings c, self_timeout c).

Definition dep_record (c : BufferedHttpClient) (d : Departure (L := L)) : str * str * bool :=
  (prep_method (dep_request d), prep_authority (dep_request d), is_some (self_credential c)).

Definition ev_record (e : HttpCallEvidence) : str * str * bool :=
  (ev_method e, ev_authority e, ev_credential_injected e).

Definition client_for (host : str) (addresses : list SocketAddr) (h : HttpClient) : Prop :=
  hc_host h = host ∧ hc_addresses h = addresses ∧ hc_follows_redirects h = false ∧ hc_uses_proxy h = false.

Section Invariant.
Context (c0 : BufferedHttpClient) (g0 : HttpConstraints).

(** [pend] is the record of a request that is authorized and not yet sent. *)
Record invariant (pend : list (str * str * bool)) (w : World) : Prop := {
  inv_settings : settings (self w) = settings c0;
  inv_calls : Z.of_nat (length (wire w)) + Z.of_nat (length pend) ≤ self_calls (self w) ≤ max_requests g0;
  inv_injections s credential : self_secret_grant c0 = Some s → self_credential c0 = Some credential →
    Z.of_nat (length (wire w)) + Z.of_nat (length pend) ≤ self_secret_injections (self w) ≤ grant_max_injections s;
  inv_wire : Forall (departure_ok c0 g0) (wire w);
  inv_evidence : sublist ((dep_record c0 <$> wire w) ++ pend) (ev_record <$> self_evidence (self w));
  inv_resolved a l : self_resolved (self w) !! a = Some l → l ≠ [];
  inv_pinned pc : self_pinned_client (self w) = Some pc →
    client_for (pinned_host pc) (pinned_addresses pc) (pinned_http pc)
}.

(** What the invariant reads of the client apart from the wire. *)
Definition accounts (c : BufferedHttpClient) :=
  (settings c, self_calls c, self_secret_injections c, ev_record <$> self_evidence c).

Lemma invariant_frame (pend : list (str * str * bool)) (w : World) (c : BufferedHttpClient) :
  invariant pend w → accounts c = accounts (self w) →
  (∀ a l, self_resolved c !! a = Some l → l ≠ []) →
  (∀ pc, self_pinned_client c = Some pc → client_for (pinned_host pc) (pinned_addresses pc) (pinned_http pc)) →
  invariant pend (mkWorld c (wire w)).
Proof.
  intros [] H Hr Hp. unfold accounts in H. injection H as H1 H2 H3 H4 H5 H6 H7 H8 H9 H10.
  constructor; cbn; rewrite ?H8, ?H9, ?H10; auto.
  rewrite <- inv_settings0. unfold settings. congruence.
Qed.

Lemma invariant_drop (pend : list (str * str * bool)) (w : World) : invariant pend w → invariant [] w.
Proof.
  intros []. constructor; auto; cbn.
  - lia.
  - intros s cr Hs Hc. specialize (inv_injections0 s cr Hs Hc). lia.
  - rewrite app_nil_r. etrans; [|exact inv_evidence0]. by apply sublist_inserts_r.
Qed.

(** Actions that keep the invariant whatever they return. *)
Definition keeps {A : Type} (m : action World A) : Prop :=
  ∀ pend w, invariant pend w → post m (fun _ w' => invariant pend w') w.

Lemma keep_bind {A B : Type} (m : action World A) (k : A → action World B) :
  keeps m → (∀ a, keeps (k a)) → keeps (bind m k).
Proof.
  intros Hm Hk pend w Hi. apply post_bind. eapply post_mono; [by apply Hm|].
  intros [a|e] w' Hw; [|done]. by apply Hk.
Qed.

Lemma keeps_ret {A : Type} (a : A) : keeps (ret a).
Proof. by intros pend w Hi. Qed.
Lemma keeps_fail {A : Type} (e : HttpError) : keeps (fail (A := A) e).
Proof. by intros pend w Hi. Qed.
Lemma keeps_get {A : Type} (f : World → A) : keeps (get f).
Proof. by intros pend w Hi. Qed.
Lemma keeps_lift {A : Type} (r : result HttpError A) : keeps (lift r).
Proof. by intros pend w Hi. Qed.

Lemma keeps_modify (f : BufferedHttpClient → BufferedHttpClient) :
  (∀ c, accounts (f c) = accounts c ∧ self_resolved (f c) = self_resolved c
        ∧ self_pinned_client (f c) = self_pinned_client c) →
  keeps (modify_self f).
Proof.
  intros Hf pend w Hi. destruct (Hf (self w)) as (Ha & Hr & Hp). apply invariant_frame; [done|done|..].
  - rewrite Hr. apply Hi.
  - rewrite Hp. apply Hi.
Qed.

Lemma alter_record (f : HttpCallEvidence → HttpCallEvidence) (i : nat) (l : list HttpCallEvidence) :
  (∀ e, ev_record (f e) = ev_record e) → ev_record <$> alter f i l = ev_record <$> l.
Proof.
  intros Hf. revert i. induction l as [|e l IH]; intros [|i]; cbn; try done.
  - by rewrite Hf.
  - f_equal. apply IH.
Qed.

Lemma keeps_evidence (index : nat) (f : HttpCallEvidence → HttpCallEvidence) :
  (∀ e, ev_record (f e) = ev_record e) → keeps (modify_evidence index f).
Proof.
  intros Hf. apply keeps_modify. intros []. unfold accounts, settings. cbn. by rewrite alter_record.
Qed.
End Invariant.


(** Splits an action into its steps. *)
Ltac keep :=
  repeat first
    [ apply keeps_ret | apply keeps_fail | apply keeps_get | apply keeps_lift
    | apply keep_bind; [|intros ?]
    | apply keeps_evidence; by intros []
    | apply keeps_modify; by intros []
    | match goal with |- keeps _ _ (match ?x with _ => _ end) => destruct x end
    | match goal with |- keeps _ _ (if ?x then _ else _) => destruct x end
    | progress cbn beta iota zeta ].

Section Steps.
Context (c0 : BufferedHttpClient) (g0 : HttpConstraints).
Abbreviation keeps := (keeps c0 g0).
Abbreviation invariant := (invariant c0 g0).

(** ** Receiving *)

Lemma keeps_accept_head (method : str) (response : RawResponse) (g : HttpConstraints) (index : nat)
    (metadata : ResponseMetadata) : keeps (accept_head (F := F) method response g index metadata).
Proof. unfold accept_head. destruct metadata; keep. Qed.

Lemma keeps_count_chunk (g : HttpConstraints) (index : nat) (n : Z) (chunk : list Z) (overflow : str) :
  keeps (count_chunk g index n chunk overflow).
Proof. unfold count_chunk, add_response_bytes. keep. Qed.

Lemma keeps_read_body (fuel : nat) (g : HttpConstraints) (index : nat) (maximum : Z)
    (redactor : option ApiRedactor) (b : ResponseBody) (n : Z) (output : list Z) :
  keeps (read_body (F := F) (R := R) fuel g index maximum redactor b n output).
Proof.
  revert redactor b n output. induction fuel as [|fuel IH]; intros redactor b n output; [keep|].
  cbn [read_body]. destruct (body_next b) as [[[chunk|]|e] b']; [|keep|keep].
  apply keep_bind; [apply keeps_count_chunk|]. intros m. keep; apply IH.
Qed.

Lemma keeps_spool_step (error : option AssetIoError) : keeps (spool_step error).
Proof. unfold spool_step, asset_error. keep. Qed.

Lemma keeps_spool_pieces (reply : Reply) (overlap : Z) (pieces : list (list Z)) (window spool : list Z) (writes : nat) :
  keeps (spool_pieces reply overlap pieces window spool writes).
Proof.
  revert window spool writes. induction pieces as [|piece pieces IH]; intros window spool writes; [keep|].
  cbn [spool_pieces]. apply keep_bind; [keep|]. intros c. apply keep_bind; [keep|]. intros window'.
  apply keep_bind; [apply keeps_spool_step|]. intros _. apply IH.
Qed.

Lemma keeps_spool_body (fuel : nat) (reply : Reply) (g : HttpConstraints) (index : nat) (overlap : Z)
    (b : ResponseBody) (n : Z) (window spool : list Z) (writes : nat) :
  keeps (spool_body (F := F) fuel reply g index overlap b n window spool writes).
Proof.
  revert b n window spool writes. induction fuel as [|fuel IH]; intros b n window spool writes; [keep|].
  cbn [spool_body]. destruct (body_next b) as [[[chunk|]|e] b']; [|keep|keep].
  apply keep_bind; [apply keeps_count_chunk|]. intros m.
  apply keep_bind; [apply keeps_spool_pieces|]. intros [[window' spool'] writes']. apply IH.
Qed.

Lemma keeps_recording {A : Type} (m : action World A) : keeps m → keeps (recording m).
Proof.
  intros Hm pend w Hi. specialize (Hm pend w Hi). unfold post, recording in *.
  destruct (m w) as [[a|e] w']; cbn in *; [done|].
  apply invariant_frame; [done|by destruct (self w')|..].
  - destruct Hm. by destruct (self w').
  - destruct Hm. by destruct (self w').
Qed.

(** ** Sending *)

Lemma pinned_client_post (reply : Reply) (host : str) (addresses : list SocketAddr) (budget : Z)
    (pend : list (str * str * bool)) (w : World) :
  invariant pend w →
  post (pinned_client reply host addresses budget) (fun r w' =>
    invariant pend w' ∧ self_ceilings (self w') = self_ceilings (self w) ∧
    match r with Ok h => client_for host addresses h | Err _ => True end) w.
Proof.
  intros Hi. unfold pinned_client. repeat act_step.
  assert (post (build_client reply host addresses budget) (fun r w' =>
    invariant pend w' ∧ self_ceilings (self w') = self_ceilings (self w) ∧
    match r with Ok h => client_for host addresses h | Err _ => True end) w) as Hb.
  { unfold build_client. repeat act_step. destruct (bundle_roots _); [|done]. act_step.
    destruct (reply_build reply); repeat act_step; [done|].
    split; [|split; [by destruct (self w)|done]].
    apply invariant_frame; [done|by destruct (self w)|..]; destruct Hi; destruct (self w); cbn in *; [done|].
    intros pc [= <-]. done. }
  destruct (self_pinned_client (self w)) as [pc|] eqn:E; [|exact Hb].
  destruct (str_eqb _ _ && _) eqn:Em; [|exact Hb]. act_step. split_and!; [done|done|].
  apply andb_true_iff in Em as [E1%str_eqb_eq E2%bool_decide_eq_true]. rewrite <- E1, <- E2.
  by eapply inv_pinned.
Qed.

Lemma dispatch_post (reply : Reply) (d : Departure) (w : World) :
  invariant [dep_record c0 d] w → departure_ok c0 g0 d →
  post (dispatch reply d) (fun _ w' => invariant [] w') w.
Proof.
  intros Hi Hd. unfold dispatch. repeat act_step.
  assert (invariant [] (mkWorld (self w) (wire w ++ [d]))) as Hi'.
  { destruct Hi. constructor; cbn in *; auto.
    - rewrite length_app. cbn. lia.
    - intros s cr Hs Hc. specialize (inv_injections0 s cr Hs Hc). rewrite length_app. cbn. lia.
    - apply Forall_app. auto.
    - by rewrite fmap_app, app_nil_r. }
  destruct (reply_send reply d); by repeat act_step.
Qed.

(** ** Preparing *)

Lemma inv_ceilings (pend : list (str * str * bool)) (w : World) :
  invariant pend w → self_ceilings (self w) = self_ceilings c0.
Proof. intros []. unfold settings in *. congruence. Qed.

Lemma addresses_check_Ok (c : BufferedHttpClient) (scheme host authority : str) (l : list SocketAddr) (u : unit) :
  addresses_check c scheme host authority l = Ok u →
  plaintext_permitted scheme host l (ceil_plaintext_hosts (self_ceilings c)) = true ∧
  (scheme = lit "https" → pinned_loopback c authority l = true
                          ∨ https_addresses_permitted (non_public_listed c authority) l = true).
Proof.
  unfold addresses_check. intros H. ok_inv H. split; [done|]. intros ->. cbn in E0.
  apply orb_true_iff in E0 as [E0|E0]; [|by right]. left.
  by apply orb_true_iff in E0 as [E0|E0].
Qed.

Lemma resolve_post (turn : Turn) (host : str) (port : Z) (authority scheme : str)
    (pend : list (str * str * bool)) (w : World) :
  invariant pend w →
  post (resolve turn host port authority scheme) (fun r w' =>
    (invariant pend w' ∧ accounts (self w') = accounts (self w) ∧ wire w' = wire w) ∧
    match r with Ok l => l ≠ [] | Err _ => True end) w.
Proof.
  intros Hi. unfold resolve. repeat act_step.
  destruct (self_resolved (self w) !! authority) as [l|] eqn:E.
  { act_step. split; [done|]. by eapply inv_resolved. }
  repeat act_step. destruct (remaining _ _); [|done].
  assert (∀ l, l ≠ [] → post (let! _ := modify_self (fun c =>
      set_resolved (<[authority := l]> (self_resolved c)) c) in ret l) (fun r w' =>
      (invariant pend w' ∧ accounts (self w') = accounts (self w) ∧ wire w' = wire w) ∧
      match r with Ok l => l ≠ [] | Err _ => True end) w) as Hset.
  { intros l Hl. repeat act_step. split; [|done]. split; [|split; [by destruct (self w)|done]].
    apply invariant_frame; [done|by destruct (self w)|..]; destruct Hi; destruct (self w); cbn in *; [|done].
    intros a' l'. destruct (decide (a' = authority)) as [->|Hn].
    - rewrite lookup_insert_eq. by intros [= <-].
    - rewrite lookup_insert_ne by done. apply inv_resolved0. }
  assert (∀ l, resolve_destination turn host port = Ok l → l ≠ []) as Hdns.
  { unfold resolve_destination. intros l H. destruct (turn_lookup turn host port); try done.
    apply ok_or_Ok, bounded_addresses_Some in H. tauto. }
  act_step. destruct (ceil_loopback_https_pin _) as [pin|]; [destruct (_ && _)|];
    repeat act_step; try (by apply Hset);
    (destruct (resolve_destination turn host port) as [l|] eqn:Ed; [|done]; by apply Hset, Hdns).
Qed.

(** A prepared request, before the broker's headers. *)
Record prepared_ok (request : Request) (streamed : option RequestLengths) (p : PreparedRequest) : Prop := {
  prep_method_ok : prep_method p ∈ allowed_methods g0;
  prep_body_ok : prep_body p = req_body request;
  prep_destination_ok : ∃ port, destination_ok g0 p port;
  prep_addresses_ok : addresses_ok c0 g0 p;
  prep_headers_ok : ∃ guest, headers_iter L (prep_headers p) ≡ₚ guest ∧ guest_headers_ok c0 guest ∧
    128 + len (prep_method p) + len (url_as_str L (prep_url p)) + header_bytes guest
      + body_size request streamed ≤ max_request_bytes g0
}.

Lemma prepare_post (turn : Turn) (request : Request) (streamed : option RequestLengths)
    (pend : list (str * str * bool)) (w : World) :
  invariant pend w →
  post (prepare turn request g0 streamed) (fun r w' =>
    (invariant pend w' ∧ accounts (self w') = accounts (self w) ∧ wire w' = wire w) ∧
    match r with Ok p => prepared_ok request streamed p | Err _ => True end) w.
Proof using laws.
  intros Hi. pose proof (inv_ceilings _ _ Hi) as Hc. unfold prepare. repeat act_step.
  destruct (prepare_checked _ _ _ _ _) as [k|] eqn:Ek; [|done].
  apply prepare_checked_Ok in Ek as [Hm (Hp & (host & Hh & Hhe) & Ha & Hal) Hs Hhd]. act_step.
  eapply post_mono; [by apply resolve_post|]. intros [l|e] w' [Hw Hl]; [|done].
  repeat act_step. destruct (addresses_check _ _ _ _ _) as [u|] eqn:Ec; [|done]. act_step.
  split; [done|]. apply addresses_check_Ok in Ec as [Hpl Hps].
  constructor; cbn; [done|done|..].
  - exists (chk_port k). constructor; cbn; eauto.
  - split; [done|]. unfold pinned_loopback, non_public_listed in *. cbn. rewrite Hc in *.
    destruct Hs as [Hs|[Hs Hpt]]; [by left; auto|right]. split_and!; [done|done|].
    unfold plaintext_permitted in Hpl. rewrite Hs in Hpl. cbn [negb] in Hpl.
    rewrite orb_true_iff in Hpl. destruct Hpl as [Hpl|Hpl]; [left|by right].
    change (negb (str_eqb (lit "http") (lit "http"))) with false in Hpl.
    by apply forallb_true in Hpl.
  - destruct Hhd as (guest & Hg & [] & Hb). exists guest. split_and!; [done| |done].
    constructor; rewrite <- ?Hc; done.
Qed.

(** ** Authorizing *)

Context (Hgrant : self_grant c0 = Some g0).
Context (Hrequests : max_requests g0 ≤ u32_max).
Context (Hinjections : ∀ s, self_secret_grant c0 = Some s → grant_max_injections s ≤ u32_max).

Definition requested (p : PreparedRequest) : str * str * bool :=
  (prep_method p, prep_authority p, is_some (self_credential c0)).

(** The state between the check of the limits and the headers of the broker. *)
Record admitted (p : PreparedRequest) (w : World) : Prop := {
  adm_invariant : invariant [] w;
  adm_calls : Z.of_nat (length (wire w)) + 1 ≤ self_calls (self w);
  adm_injections s : self_secret_grant c0 = Some s → self_secret_injections (self w) < grant_max_injections s;
  adm_evidence : ∃ before, self_evidence (self w) = before ++ [evidence_of p] ∧
    sublist (dep_record c0 <$> wire w) (ev_record <$> before)
}.

Lemma filter_other (n : str) (l : list (str * list Z)) :
  is_forbidden_request_header n = true → Forall (fun e => is_forbidden_request_header e.1 = false) l →
  List.filter (fun e => negb (str_eqb e.1 n)) l = l.
Proof.
  intros Hn. induction 1 as [|e l He Hl IH]; cbn; [done|]. rewrite IH.
  destruct (str_eqb e.1 n) eqn:E; [|done]. apply str_eqb_eq in E. congruence.
Qed.

Lemma insert_owned (n : str) (v : list Z) (p : PreparedRequest) (owned guest : list (str * list Z)) :
  headers_iter L (prep_headers p) ≡ₚ owned ++ guest →
  is_forbidden_request_header n = true → forallb (fun e => negb (str_eqb e.1 n)) owned = true →
  Forall (fun e => is_forbidden_request_header e.1 = false) guest →
  headers_iter L (prep_headers (insert_header n v p)) ≡ₚ (n, v) :: owned ++ guest.
Proof using laws.
  intros Hp Hn Ho Hg. destruct p. cbn in *. rewrite (law_headers_insert L laws). constructor.
  assert (∀ a b : list (str * list Z), a ≡ₚ b →
    List.filter (fun e => negb (str_eqb e.1 n)) a ≡ₚ List.filter (fun e => negb (str_eqb e.1 n)) b) as Hf.
  { induction 1; cbn; repeat case_match; try done; try by constructor. by etrans. }
  rewrite (Hf _ _ Hp), List.filter_app, (filter_other n guest) by done. apply Permutation_app_tail.
  clear Hp. induction owned as [|e owned IH]; cbn in *; [done|].
  apply andb_true_iff in Ho as [-> Ho]. by rewrite IH.
Qed.

Lemma alter_last (f : HttpCallEvidence → HttpCallEvidence) (before : list HttpCallEvidence) (e : HttpCallEvidence) :
  alter f (length before) (before ++ [e]) = before ++ [f e].
Proof. induction before as [|x before IH]; cbn; [done|]. f_equal. apply IH. Qed.

Lemma set_headers_fields (h : HeaderMap L) (p : PreparedRequest) :
  prep_headers (set_headers h p) = h ∧ prep_method (set_headers h p) = prep_method p ∧
  prep_url (set_headers h p) = prep_url p ∧ prep_body (set_headers h p) = prep_body p ∧
  prep_host (set_headers h p) = prep_host p ∧ prep_authority (set_headers h p) = prep_authority p ∧
  prep_addresses (set_headers h p) = prep_addresses p.
Proof. by destruct p. Qed.

(** [p'] is [p] with the headers [owned] of the broker added to those of the guest. *)
Definition dressed (owned guest : list (str * list Z)) (p p' : PreparedRequest) : Prop :=
  ∃ h, p' = set_headers h p ∧ headers_iter L h ≡ₚ owned ++ guest.

Lemma dressed_insert (n : str) (v : list Z) (owned guest : list (str * list Z)) (p p' : PreparedRequest) :
  dressed owned guest p p' → is_forbidden_request_header n = true →
  forallb (fun e => negb (str_eqb e.1 n)) owned = true →
  Forall (fun e => is_forbidden_request_header e.1 = false) guest →
  dressed ((n, v) :: owned) guest p (insert_header n v p').
Proof using laws.
  intros (h & -> & Hh) Hn Ho Hg. exists (headers_insert L h n v). split; [by destruct p|].
  pose proof (insert_owned n v (set_headers h p) owned guest) as H. destruct p; cbn in *. auto.
Qed.

Lemma dressed_none (guest : list (str * list Z)) (p : PreparedRequest) :
  headers_iter L (prep_headers p) ≡ₚ guest → dressed [] guest p p.
Proof. intros H. exists (prep_headers p). by destruct p. Qed.

(** The client with the credential recorded in the evidence and counted. *)
Lemma admitted_injected (p : PreparedRequest) (w : World) (before : list HttpCallEvidence) (n : Z) :
  admitted p w → is_some (self_credential c0) = true →
  self_evidence (self w) = before ++ [evidence_of p] →
  sublist (dep_record c0 <$> wire w) (ev_record <$> before) →
  (∀ s, self_secret_grant c0 = Some s → n = self_secret_injections (self w) + 1) →
  invariant [requested p] (mkWorld
    (set_secret_injections n (set_evidence (before ++ [set_credential_injected (evidence_of p)]) (self w))) (wire w)).
Proof.
  intros [[] Hcalls Hinj _] Hcr He Hsub Hn. constructor; cbn [self wire].
  - rewrite <- inv_settings0. by destruct (self w).
  - destruct (self w); cbn in *. lia.
  - intros s cr Hs Hc. specialize (inv_injections0 s cr Hs Hc). specialize (Hinj s Hs). specialize (Hn s Hs).
    destruct (self w); cbn in *. lia.
  - done.
  - replace (self_evidence _) with (before ++ [set_credential_injected (evidence_of p)]) by (by destruct (self w)).
    rewrite fmap_app. apply sublist_app; [done|]. unfold requested, ev_record. rewrite Hcr. by destruct p.
  - by destruct (self w).
  - by destruct (self w).
Qed.

Lemma record_injection_post (p : PreparedRequest) (w : World) (before : list HttpCallEvidence) :
  admitted p w → is_some (self_credential c0) = true →
  self_evidence (self w) = before ++ [evidence_of p] →
  sublist (dep_record c0 <$> wire w) (ev_record <$> before) →
  post (record_injection (length before)) (fun r w' => r = Ok tt ∧ invariant [requested p] w') w.
Proof using Hinjections.
  intros Hadm Hcr He Hsub. unfold record_injection, modify_evidence. repeat act_step. rewrite He, alter_last.
  pose proof (fun n => admitted_injected p w before n Hadm Hcr He Hsub) as Hw.
  assert (self_secret_grant (self w) = self_secret_grant c0) as Hsec
    by (destruct Hadm as [[] _ _ _]; unfold settings in *; congruence).
  replace (self_secret_grant _) with (self_secret_grant c0) by (rewrite <- Hsec; by destruct (self w)).
  destruct (self_secret_grant c0) as [s|] eqn:Es; cbn [is_some]; repeat act_step; (split; [done|]).
  - specialize (Hw (Z.min (self_secret_injections (self w) + 1) u32_max)).
    pose proof (adm_injections _ _ Hadm s Es). specialize (Hinjections s eq_refl).
    destruct (self w); cbn in *. apply Hw. intros ? _. lia.
  - specialize (Hw (self_secret_injections (self w))). destruct (self w); cbn in *. by apply Hw.
Qed.

Lemma inject_post (c : BufferedHttpClient) (p : PreparedRequest) (guest : list (str * list Z)) (w : World)
    (index : nat) :
  admitted p w → self_credential c = self_credential c0 → index = Nat.pred (length (self_evidence (self w))) →
  headers_iter L (prep_headers p) ≡ₚ guest →
  Forall (fun e => is_forbidden_request_header e.1 = false) guest →
  post (inject (credential_header c p) index p) (fun r w' =>
    match r with
    | Err _ => invariant [] w'
    | Ok p' => invariant [requested p] w' ∧ dressed (rev (credential_headers c0)) guest p p' ∧
        ∀ credential, self_credential c0 = Some credential →
          credential_matches credential (prep_host p) (prepared_port p) (url_scheme L (prep_url p)) = true
    end) w.
Proof using laws Hinjections.
  intros Hadm Hc Hindex Hh Hg. pose proof Hadm as [Hi _ _ (before & He & Hsub)].
  assert (self_credential (self w) = self_credential c0) as Hcr by (destruct Hi; unfold settings in *; congruence).
  assert (index = length before) as -> by (rewrite Hindex, He, length_app; cbn; lia).
  unfold credential_header, credential_headers. rewrite Hc.
  destruct (self_credential c0) as [cr|] eqn:Ecr; cbn [inject].
  2:{ act_step. split_and!; [|by apply dressed_none|done]. unfold requested. rewrite Ecr.
      destruct Hadm as [_ Hcalls _ _], Hi. constructor; cbn in *; auto; [lia|..].
      - intros s credential Hs Hcr'. by rewrite Hcr' in Ecr.
      - rewrite He, fmap_app. by apply sublist_app. }
  repeat act_step. destruct (credential_matches _ _ _ _) eqn:Em; [|exact Hi].
  unfold render. destruct (header_value_str L (header_value cr)) eqn:Er; [|exact Hi]. repeat act_step.
  assert (dressed [(lit "authorization", header_value cr)] guest p (insert_header (lit "authorization") (header_value cr) p))
    as Hd1 by (apply dressed_insert; [by apply dressed_none|done|done|done]).
  rewrite Hcr. cbn [mbind option_bind]. unfold render_companion.
  destruct (companion_header cr) as [account|]; [destruct (header_value_str L account); [|exact Hi]|];
    repeat act_step; (eapply post_mono; [apply record_injection_post; try done; by rewrite Ecr|]);
    (intros r w' [-> Hw]; act_step; split_and!; [done| |by intros ? [= <-]]); [|done].
  cbn [rev app]. by apply (dressed_insert _ _ [_]).
Qed.

Lemma secret_scope_check_Ok (c : BufferedHttpClient) (p : PreparedRequest) (u : unit) (s : SecretUseGrant) :
  secret_scope_check c p = Ok u → self_secret_grant c = Some s →
  secret_scope_ok s p (prepared_port p) ∧ self_secret_injections c < grant_max_injections s.
Proof.
  unfold secret_scope_check. intros H Hs. rewrite Hs in H. ok_inv H.
  apply negb_true_iff in E, E0. apply Z.leb_gt in E0. split; [|done].
  apply orb_false_iff in E as [[[E1 E2]%orb_false_iff E3]%orb_false_iff E4].
  apply negb_false_iff in E1, E2, E3. apply existsb_elem in E1, E2, E3.
  destruct E2 as (m & Hm & ->%str_eqb_eq).
  constructor; [done|done|done|]. destruct (grant_allow_query s); [by left|right].
  cbn in E4. by destruct (url_query L (prep_url p)).
Qed.

Lemma propagate_Ok (turn : Turn) (owned guest : list (str * list Z)) (p p1 p2 : PreparedRequest) :
  propagate g0 turn p1 = Ok p2 → dressed owned guest p p1 →
  forallb (fun e => negb (str_eqb e.1 (lit "traceparent"))) owned = true →
  Forall (fun e => is_forbidden_request_header e.1 = false) guest →
  ∃ trace, trace_headers g0 trace ∧ dressed (trace ++ owned) guest p p2.
Proof using laws.
  unfold propagate, trace_headers. intros H Hd Ho Hg. destruct (propagate_trace g0) eqn:Ep.
  - destruct (turn_trace turn) as [context|]; [|injection H as <-; exists []; eauto].
    ok_inv H. injection H as <-. exists [(lit "traceparent", traceparent context)].
    split; [right; eauto|]. by apply dressed_insert.
  - injection H as <-. exists []. eauto.
Qed.

Lemma credential_headers_owned : forallb (fun e => negb (str_eqb e.1 (lit "traceparent"))) (rev (credential_headers c0)) = true.
Proof. unfold credential_headers. destruct (self_credential c0) as [cr|]; [|done]. by destruct (companion_header cr). Qed.

(** The state [authorize_request] has when it counts the evidence. *)
Lemma admission (p : PreparedRequest) (w : World) :
  invariant [] w → Z.of_nat (length (wire w)) + 1 ≤ self_calls (self w) →
  (∀ s, self_secret_grant c0 = Some s → self_secret_injections (self w) < grant_max_injections s) →
  admitted p (mkWorld (set_evidence (self_evidence (self w) ++ [evidence_of p]) (self w)) (wire w)).
Proof.
  intros Hi Hcalls Hinj. pose proof (inv_evidence _ _ _ _ Hi) as Hev. rewrite app_nil_r in Hev. constructor.
  - destruct Hi as [Hs Hc Hj Hw He Hr Hp]. constructor; cbn [self wire];
      try (destruct (self w); cbn in *; by auto).
    rewrite app_nil_r. etrans; [exact Hev|]. destruct (self w); cbn. rewrite fmap_app. by apply sublist_inserts_r.
  - by destruct (self w).
  - by destruct (self w).
  - exists (self_evidence (self w)). cbn. split; [by destruct (self w)|done].
Qed.

Lemma counted (w : World) (deadline : Z) :
  invariant [] w → (max_requests g0 <=? self_calls (self w)) = false →
  let w' := mkWorld (set_deadline deadline (set_calls (Z.min (self_calls (self w) + 1) u32_max) (self w))) (wire w) in
  invariant [] w' ∧ Z.of_nat (length (wire w')) + 1 ≤ self_calls (self w').
Proof using Hrequests.
  intros Hi Hc%Z.leb_gt. destruct Hi as [Hs Hn Hj Hw He Hr Hp]. cbn [wire self length] in *. split.
  - constructor; cbn [self wire]; destruct (self w); cbn in *; auto; lia.
  - destruct (self w); cbn in *. lia.
Qed.

(** What [authorize_request] gives, and what it leaves behind. *)
Definition authorized_post (request : Request) (streamed : option RequestLengths)
    (r : result HttpError (PreparedRequest * HttpConstraints * nat)) (w' : World) : Prop :=
  match r with
  | Err _ => invariant [] w'
  | Ok (p, g, _) => g = g0 ∧ invariant [requested p] w' ∧
      request_ok c0 g0 p (body_size request streamed) [] ∧ prep_body p = req_body request
  end.

Lemma dressed_request_ok (request : Request) (streamed : option RequestLengths) (p p' : PreparedRequest)
    (guest trace : list (str * list Z)) :
  prepared_ok request streamed p → headers_iter L (prep_headers p) ≡ₚ guest → guest_headers_ok c0 guest →
  128 + len (prep_method p) + len (url_as_str L (prep_url p)) + header_bytes guest
    + body_size request streamed ≤ max_request_bytes g0 →
  dressed (trace ++ rev (credential_headers c0)) guest p p' → trace_headers g0 trace →
  (∀ credential, self_credential c0 = Some credential →
     credential_matches credential (prep_host p) (prepared_port p) (url_scheme L (prep_url p)) = true) →
  (∀ s, self_secret_grant c0 = Some s → secret_scope_ok s p (prepared_port p)) →
  request_ok c0 g0 p' (body_size request streamed) [] ∧ prep_body p' = req_body request ∧
  prep_method p' = prep_method p ∧ prep_authority p' = prep_authority p.
Proof.
  intros [Hm Hb (port & [Hport Hhost Hauth Hall]) Ha _] Hh Hg Hbytes (h & -> & Hperm) Ht Hcr Hs.
  assert (prepared_port p = port) as Hpp by (unfold prepared_port; by rewrite Hport). rewrite Hpp in *.
  destruct p; cbn in *. split; [|done]. constructor; cbn; [done|..].
  - exists port. split_and!.
    + by constructor.
    + intros cr Hc. by apply existsb_elem, Hcr.
    + intros s Hs'. destruct (Hs s Hs'). by constructor.
  - exact Ha.
  - exists guest, trace. split_and!; [|done|done|done]. rewrite Hperm, <- app_assoc.
    by rewrite <- (Permutation_rev (credential_headers c0)).
Qed.

Lemma authorize_post (turn : Turn) (request : Request) (streamed : option RequestLengths) (w : World) :
  invariant [] w → post (authorize_request turn request streamed) (authorized_post request streamed) w.
Proof using laws Hgrant Hrequests Hinjections.
  intros Hi. unfold authorize_request. repeat act_step.
  assert (self_grant (self w) = Some g0) as -> by (destruct Hi; unfold settings in *; congruence).
  cbn [ok_or]. destruct (_ <=? _) eqn:Ec; cbn [negb]; [act_step; exact Hi|]. repeat act_step.
  destruct (counted w 0 Hi Ec) as [Hi0 _].
  destruct (ok_or (instant_checked_add _ _) _) as [deadline|] eqn:Ed; cbn.
  2:{ eapply (invariant_frame _ _ [] _ _ Hi0); cbn [self]; [by destruct (self w)|..];
        destruct Hi0; by destruct (self w). }
  repeat act_step. destruct (counted w deadline Hi Ec) as [Hi1 Hc1].
  destruct (_ && _); cbn [negb]; [act_step; exact Hi1|]. act_step.
  eapply post_mono; [by apply (prepare_post turn request streamed [])|].
  intros [p|e] w2 [(Hi2 & Hacc & Hwire) Hp]; [|exact Hi2]. repeat act_step.
  assert (self_secret_grant (self w2) = self_secret_grant c0) as Hsec
    by (destruct Hi2; unfold settings in *; congruence).
  destruct (secret_scope_check (self w2) p) as [u|] eqn:Es; [|exact Hi2]. repeat act_step.
  pose proof (fun s => secret_scope_check_Ok (self w2) p u s Es) as Hscope. rewrite Hsec in Hscope.
  pose proof Hp as [_ _ _ _ (guest & Hh & Hg & Hbytes)].
  pose proof (admission p w2 Hi2) as Hadm.
  eapply post_mono; [apply (inject_post (self w2) p guest); [|..|done|apply Hg]|].
  - apply Hadm; [|intros s Hs; by apply Hscope].
    unfold accounts in Hacc. cbn [wire self] in *. rewrite Hwire. destruct (self w), (self w2); cbn in *; congruence.
  - destruct Hi2; unfold settings in *; congruence.
  - destruct (self w2); cbn. rewrite length_app. cbn. lia.
  - intros [p1|e] w3; [|done]. intros (Hi3 & Hd & Hcr). repeat act_step.
    destruct (propagate g0 turn p1) as [p2|] eqn:Ep; [|by eapply invariant_drop]. repeat act_step.
    destruct (propagate_Ok turn _ _ _ _ _ Ep Hd credential_headers_owned ltac:(apply Hg)) as (trace & Ht & Hd2).
    destruct (dressed_request_ok request streamed p p2 guest trace Hp Hh Hg Hbytes Hd2 Ht Hcr)
      as (Hok & Hbody & Hm & Ha); [intros s Hs; by apply Hscope|].
    split_and!; try done. unfold requested in *. by rewrite Hm, Ha.
Qed.

(** ** Calls *)

Lemma keeps_from_none {A : Type} (m : action World A) (w : World) :
  keeps m → invariant [] w → post m (fun _ w' => invariant [] w') w.
Proof. auto. Qed.

Lemma execute_post (reply : Reply) (p : PreparedRequest) (index : nat) (metadata : ResponseMetadata) (w : World) :
  invariant [requested p] w → request_ok c0 g0 p (len (prep_body p)) [] →
  post (execute (F := F) (R := R) reply p g0 index metadata) (fun _ w' => invariant [] w') w.
Proof.
  intros Hi Hp. unfold execute. repeat act_step. destruct (remaining _ _) as [budget|]; [|by eapply invariant_drop].
  act_step. eapply post_mono; [by apply pinned_client_post|].
  intros [h|e] w1 (Hi1 & _ & Hh); [|by eapply invariant_drop]. act_step.
  eapply post_mono; [apply dispatch_post; [exact Hi1|]|].
  { split; [exact Hh|exact Hp]. }
  intros [response|e] w2 Hi2; [|done]. apply keeps_from_none; [|exact Hi2]. clear.
  apply keep_bind; [apply keeps_accept_head|]. intros head.
  apply keep_bind; [keep|]. intros [redactor headers]. cbn zeta.
  destruct (negb _); [|keep]. destruct (negb _); [|keep].
  apply keep_bind; [apply keeps_read_body|]. intros body. keep.
Qed.

Lemma send_with_metadata_post (turn : Turn) (reply : Reply) (request : Request) (metadata : ResponseMetadata)
    (w : World) :
  invariant [] w →
  post (send_with_metadata (F := F) (R := R) turn reply request metadata) (fun _ w' => invariant [] w') w.
Proof using laws Hgrant Hrequests Hinjections.
  intros Hi. unfold send_with_metadata. act_step. eapply post_mono; [by apply authorize_post|].
  intros [[[p g] index]|e] w1 H; [|exact H]. destruct H as (-> & Hi1 & Hok & Hb). act_step.
  eapply post_mono; [apply execute_post; [exact Hi1|by rewrite Hb]|].
  intros [response|e] w2 Hi2; [|done]. apply keeps_from_none; [keep|done].
Qed.

Lemma content_length_ok (p : PreparedRequest) (lengths : RequestLengths) (n : Z) :
  request_ok c0 g0 p n [] →
  request_ok c0 g0 (with_content_length (lengths_total lengths) p) n
    [(lit "content-length", to_decimal (lengths_total lengths))].
Proof using laws.
  unfold with_content_length.
  intros [Hm (port & [] & Hcr & Hs) Ha (guest & trace & Hperm & Hg & Ht & Hb)]. destruct p; cbn in *.
  constructor; cbn; [done|..].
  - exists port. split_and!; [by constructor|done|]. intros s Hs'. destruct (Hs s Hs'). by constructor.
  - exact Ha.
  - exists guest, trace. split_and!; [|done|done|done]. by rewrite (law_headers_append L laws), Hperm.
Qed.

Lemma stream_checked_post (turn : Turn) (reply : Reply) (request : StreamedRequest) (w : World) :
  invariant [] w →
  post (stream_checked (F := F) turn reply request) (fun _ w' => invariant [] w') w.
Proof using laws Hgrant Hrequests Hinjections.
  intros Hi. unfold stream_checked. repeat act_step. destruct (body_lengths _ _) as [lengths|]; [|done].
  act_step. eapply post_mono; [by apply authorize_post|].
  intros [[[p g] index]|e] w1 H; [|exact H]. destruct H as (-> & Hi1 & Hok & Hb). cbn [body_size] in Hok. act_step.
  eapply post_mono; [by apply (keeps_spool_step _ [requested p])|].
  intros [u|e] w2 Hi2; [|by eapply invariant_drop]. repeat act_step.
  destruct (remaining _ _) as [budget|]; [|by eapply invariant_drop]. act_step.
  eapply post_mono; [by apply pinned_client_post|].
  intros [h|e] w3 (Hi3 & _ & Hh); [|by eapply invariant_drop]. act_step.
  eapply post_mono; [apply dispatch_post; [|split; [|by apply content_length_ok]]|].
  - unfold dep_record, with_content_length. unfold requested in Hi3. by destruct p.
  - unfold with_content_length. by destruct p.
  - intros [response|e] w4 Hi4; [|done]. apply keeps_from_none; [|exact Hi4]. clear.
    apply keep_bind; [apply keeps_accept_head|]. intros head.
    apply keep_bind; [apply keeps_spool_body|]. intros spool.
    apply keep_bind; [keep|]. intros _. apply keep_bind; [apply keeps_spool_step|]. intros _. keep.
Qed.

Lemma recording_post {A : Type} (m : action World A) (w : World) :
  post m (fun _ w' => invariant [] w') w → post (recording m) (fun _ w' => invariant [] w') w.
Proof.
  unfold post, recording. destruct (m w) as [[a|e] w']; cbn; [done|]. intros Hi.
  apply invariant_frame; [done|by destruct (self w')|..]; destruct Hi; by destruct (self w').
Qed.

Lemma call_keeps (k : Turn * Reply * Call) (w : World) : invariant [] w → invariant [] (call (F := F) (R := R) k w).
Proof using laws Hgrant Hrequests Hinjections.
  intros Hi. destruct k as [[turn reply] [request|request]]; cbn [call].
  - change (post (send (F := F) (R := R) turn reply request) (fun _ w' => invariant [] w') w).
    unfold send. repeat act_step. apply recording_post, send_with_metadata_post.
    apply invariant_frame; [done|by destruct (self w)|..]; destruct Hi; by destruct (self w).
  - change (post (stream (F := F) turn reply request) (fun _ w' => invariant [] w') w).
    unfold stream. repeat act_step. apply recording_post, stream_checked_post.
    apply invariant_frame; [done|by destruct (self w)|..]; destruct Hi; by destruct (self w).
Qed.

Lemma run_keeps (calls : list (Turn * Reply * Call)) (w : World) :
  invariant [] w → invariant [] (run (F := F) (R := R) calls w).
Proof using laws Hgrant Hrequests Hinjections.
  revert w. induction calls as [|k calls IH]; intros w Hi; [done|]. cbn. by apply IH, call_keeps.
Qed.
End Steps.

(** ** Clients as the constructors make them *)

Inductive built : BufferedHttpClient → Prop :=
| built_disabled ceilings timeout now c : client_disabled ceilings timeout now = Ok c → built c
| built_authorized g ceilings timeout now c : client_authorized g ceilings timeout now = Ok c → built c
| built_credential g credential ceilings timeout now c :
    client_authorized_with_credential g credential ceilings timeout now = Ok c → built c
| built_secret g secret credential ceilings timeout now c :
    client_authorized_with_secret_credential g secret credential ceilings timeout now = Ok c → built c
| built_slots c slots : built c → built (with_chat_slots c slots)
| built_authorizer c : built c → built (with_request_authorizer c).

(** The fields that are [u32] in the grants. *)
Definition widths_ok (c : BufferedHttpClient) : Prop :=
  (∀ g, self_grant c = Some g → 0 ≤ max_requests g ≤ u32_max) ∧
  (∀ s, self_secret_grant c = Some s → 0 ≤ grant_max_injections s ≤ u32_max).

Record fresh (c : BufferedHttpClient) : Prop := {
  fresh_counters : self_calls c = 0 ∧ self_secret_injections c = 0;
  fresh_records : self_evidence c = [] ∧ self_resolved c = ∅ ∧ self_pinned_client c = None;
  fresh_paired s : self_secret_grant c = Some s →
    ∃ credential, self_credential c = Some credential ∧ secret_binding credential = Some s
}.

Lemma client_new_fresh og secret credential ceilings timeout now c :
  client_new og secret credential ceilings timeout now = Ok c →
  (∀ s, secret = Some s → ∃ cr, credential = Some cr ∧ secret_binding cr = Some s) → fresh c.
Proof. unfold client_new. intros H Hp. ok_inv H. injection H as <-. by constructor. Qed.

Lemma built_fresh (c : BufferedHttpClient) : built c → fresh c.
Proof.
  induction 1 as [??? c H|???? c H|????? c H|?????? c H|c slots _ []|c _ []].
  - unfold client_disabled in H. ok_inv H. by eapply client_new_fresh.
  - unfold client_authorized in H. ok_inv H. by eapply client_new_fresh.
  - unfold client_authorized_with_credential in H. ok_inv H. by eapply client_new_fresh.
  - unfold client_authorized_with_secret_credential in H. ok_inv H. eapply client_new_fresh; [exact H|].
    intros s [= ->]. exists credential. split; [done|]. unfold matches_secret_grant in E1.
    destruct (secret_binding credential); [|done]. by apply bool_decide_eq_true in E1 as ->.
  - destruct c. by constructor.
  - destruct c. by constructor.
Qed.

Lemma fresh_invariant (c : BufferedHttpClient) (g : HttpConstraints) :
  fresh c → self_grant c = Some g → widths_ok c → invariant c g [] (mkWorld c []).
Proof.
  intros [[Hc Hi] (He & Hr & Hp) _] Hg [Hw1 Hw2]. constructor; cbn; rewrite ?Hc, ?Hi, ?He, ?Hr, ?Hp; try done.
  - specialize (Hw1 g Hg). lia.
  - intros s cr Hs _. specialize (Hw2 s Hs). lia.
Qed.

(** Without a grant nothing is sent. *)
Lemma call_disabled (k : Turn * Reply * Call) (w : World) :
  self_grant (self w) = None → wire w = [] →
  self_grant (self (call (F := F) (R := R) k w)) = None ∧ wire (call (F := F) (R := R) k w) = [].
Proof.
  intros Hg Hw. destruct k as [[turn reply] [request|request]], w as [c ws]; destruct c; cbn in *; subst.
  - done.
  - unfold stream, recording, stream_checked, bind, lift. cbn. by destruct (body_lengths _ _).
Qed.

Lemma run_disabled (calls : list (Turn * Reply * Call)) (w : World) :
  self_grant (self w) = None → wire w = [] → wire (run (F := F) (R := R) calls w) = [].
Proof.
  revert w. induction calls as [|k calls IH]; intros w Hg Hw; [done|]. cbn.
  destruct (call_disabled k w Hg Hw). by apply IH.
Qed.

(** ** The property *)

(** C5: Every request that leaves the host is authorized. For a client as its
    constructors make it and any sequence of buffered and streamed requests of
    the guest, whatever the resolver, the policy, the clock and the servers
    answer: each request handed to the HTTP library has a method and a
    destination that the grant lists; goes over HTTPS to public addresses, to
    private ones where the broker lists the authority or to the broker's pin,
    or in plain text to loopback or a listed host if the grant allows it; goes
    out through a client bound to exactly the addresses checked, which follows
    no redirect and no proxy; carries the guest's headers, none of them one
    the broker owns, within the limits, and beside them only the broker's own;
    is within the byte limit; carries the credential exactly if there is one,
    and only to the destinations, paths and methods that the credential and its
    secret are bound to. No more requests leave than the grant and the secret
    allow, and each has its evidence, in order. Without a grant nothing leaves. *)
Theorem departures_are_authorized (c : BufferedHttpClient) (calls : list (Turn * Reply * Call))
    (Hbuilt : built c) (Hwidths : widths_ok c) :
  let w := run (F := F) (R := R) calls (mkWorld c []) in
  match self_grant c with
  | None => wire w = []
  | Some g =>
      Forall (departure_ok c g) (wire w) ∧
      Z.of_nat (length (wire w)) ≤ max_requests g ∧
      (∀ s, self_secret_grant c = Some s → Z.of_nat (length (wire w)) ≤ grant_max_injections s ∧
         ∃ credential, self_credential c = Some credential ∧ secret_binding credential = Some s) ∧
      sublist (dep_record c <$> wire w) (ev_record <$> self_evidence (self w))
  end.
Proof using laws.
  apply built_fresh in Hbuilt as Hf. cbn zeta. destruct (self_grant c) as [g|] eqn:Hg; [|by apply run_disabled].
  pose proof Hwidths as [Hw1 Hw2].
  destruct (run_keeps c g Hg ltac:(by apply Hw1) ltac:(intros s Hs; by apply Hw2) calls _
              (fresh_invariant c g Hf Hg Hwidths)) as [Hs Hcalls Hinj Hwire Hev _ _].
  split_and!; [done|cbn in Hcalls; lia| |by rewrite app_nil_r in Hev].
  intros s Hsec. destruct (fresh_paired c Hf s Hsec) as (cr & Hcr & Hb). specialize (Hinj s cr Hsec Hcr).
  cbn in Hinj. split; [lia|eauto].
Qed.
End Lib.
