(* ===== verification/HttpResponse.v ===== *)
(** * The HTTP host: what comes back

    The responses a guest sees are within its grant, carry no header the
    broker keeps and never the credential; the scan of a streamed body finds a
    secret wherever the chunks are cut; and the loops over a body end. *)

From Stdlib Require Import ZArith Lia Ascii String.
From stdpp Require Import base gmap strings list sorting numbers sets.
From S2P Require Import Prelude.
From S2P Require Import RustStr.
From S2P Require Import Identifier.
From S2P Require Import Template.
From S2P Require Import Capability.
From S2P Require Import HttpAddress.
From S2P Require Import HttpHost.
From S2P Require Import HttpAuthorize.
From S2P Require Import HttpExchange.
From S2P Require Import HttpSafety.

(** ** Occurrences *)

Lemma contains_sub_true (s p : str) : contains_sub s p = true ↔ ∃ a b, s = a ++ p ++ b.
Proof.
  induction s as [|c s IH]; cbn [contains_sub]; rewrite orb_true_iff, starts_with_true.
  - split; [intros [(r & Hr)|H]; [|done]|].
    + exists [], r. exact Hr.
    + intros (a & b & H). left. exists b. by destruct a.
  - rewrite IH. split.
    + intros [(r & ->)|(a & b & ->)]; [by exists [], r|by exists (c :: a), b].
    + intros ([|x a] & b & H); cbn in H; [left; by exists b|]. injection H as -> ->. right. by exists a, b.
Qed.

(** A secret in [t ++ piece] that is not in [t] lies in the end of [t] and [piece]. *)
Lemma occurrence_in_window (before window piece secret : str) :
  contains_sub (before ++ window) secret = false →
  before = [] ∨ len secret - 1 ≤ len window →
  contains_sub ((before ++ window) ++ piece) secret = contains_sub (window ++ piece) secret.
Proof.
  intros Hno Hw. apply eq_true_iff_eq. rewrite !contains_sub_true. split.
  - intros (a & b & H).
    assert (length (before ++ window) < length a + length secret)%nat as Hlong.
    { apply Nat.nle_gt. intros Hle. enough (contains_sub (before ++ window) secret = true) by congruence.
      apply contains_sub_true. rewrite (assoc_L app a) in H. apply app_eq_inv in H as [(k & -> & _)|(k & Hk & _)].
      - exists a, k. by rewrite <- (assoc_L app).
      - exists a, []. rewrite app_nil_r, Hk. apply (f_equal length) in Hk. rewrite !length_app in *.
        destruct k; [by rewrite app_nil_r|cbn in *; lia]. }
    assert (length before ≤ length a)%nat as Hle.
    { destruct Hw as [->|Hw]; [cbn; lia|]. rewrite length_app in Hlong. unfold len in Hw. lia. }
    exists (drop (length before) a), b.
    pose proof (f_equal (drop (length before)) H) as Hd. rewrite <- (assoc_L app), drop_app_length in Hd.
    by rewrite Hd, drop_app_le.
  - intros (a & b & H). exists (before ++ a), b. by rewrite <- !(assoc_L app), H.
Qed.

Section Lib.
Context {L : HttpLib} {F : FlateLib} {R : RedactLib}.
Abbreviation World := (World (L := L)).

(** ** The scan of a streamed body *)

(** Whether a secret of the credential occurs in [text]. *)
Definition leaks (c : BoundCredential) (text : list Z) : bool :=
  existsb (fun secret => negb (is_nil secret) && contains_sub text secret) (echo_values c).

Lemma echo_overlap_bound (c : BoundCredential) (secret : list Z) :
  secret ∈ echo_values c → len secret - 1 ≤ echo_overlap c.
Proof.
  unfold echo_overlap. induction (echo_values c) as [|s l IH]; [set_solver|]. cbn.
  intros [->|Hin]%elem_of_cons; [lia|]. specialize (IH Hin). unfold len in *. lia.
Qed.

Lemma echo_overlap_nonneg (c : BoundCredential) : 0 ≤ echo_overlap c.
Proof. unfold echo_overlap. induction (echo_values c); cbn; lia. Qed.

Lemma existsb_ext {A : Type} (f g : A → bool) (l : list A) :
  (∀ x, x ∈ l → f x = g x) → existsb f l = existsb g l.
Proof.
  induction l as [|x l IH]; intros H; cbn; [done|]. rewrite (H x), IH; set_solver.
Qed.

(** What the window keeps: the end of what was scanned, long enough for a secret cut in two. *)
Definition window_of (c : BoundCredential) (scanned window : list Z) : Prop :=
  ∃ before, scanned = before ++ window ∧ (before = [] ∨ echo_overlap c ≤ len window).

Lemma scan_piece (c : BoundCredential) (scanned window piece : list Z) :
  window_of c scanned window → leaks c scanned = false →
  match scan_stream_chunk c window piece (echo_overlap c) with
  | (None, _) => leaks c (scanned ++ piece) = true
  | (Some clean, window') => leaks c (scanned ++ piece) = false
      ∧ window_of c (scanned ++ piece) (drop (Z.to_nat clean) window')
  end.
Proof.
  intros (before & -> & Hlong) Hno. unfold scan_stream_chunk. cbv zeta.
  assert (existsb (fun secret => negb (is_nil secret) && contains_bytes (window ++ piece) secret) (echo_values c)
          = leaks c ((before ++ window) ++ piece)) as ->.
  { apply existsb_ext. intros secret Hs. unfold contains_bytes. destruct (is_nil secret) eqn:En; [done|]. cbn.
    symmetry. apply occurrence_in_window.
    - unfold leaks in Hno. apply existsb_false in Hno. apply (Forall_elem _ _ secret Hno) in Hs.
      by rewrite En in Hs.
    - destruct Hlong as [?|Hlong]; [by left|right]. pose proof (echo_overlap_bound c secret Hs). lia. }
  destruct (leaks c (_ ++ piece)) eqn:El; [done|]. split; [done|].
  pose proof (echo_overlap_nonneg c).
  set (clean := Z.to_nat (len (window ++ piece) - Z.min (len (window ++ piece)) (echo_overlap c))).
  exists (before ++ take clean (window ++ piece)). split.
  - by rewrite <- !(assoc_L app), take_drop.
  - destruct (decide (len (window ++ piece) ≤ echo_overlap c)) as [Hs|Hs].
    + destruct Hlong as [->|Hlong].
      * left. subst clean. replace (len _ - _) with 0 by lia. by rewrite take_0.
      * right. subst clean. rewrite len_app in *. pose proof (len_nonneg piece).
        replace (_ - _) with 0 by lia. rewrite drop_0, len_app. lia.
    + right. subst clean. unfold len in *. rewrite length_drop. lia.
Qed.

(** ** Results of actions *)

(** The settings are never changed. *)
Definition frames {A : Type} (m : action World A) : Prop := ∀ w, settings (self (m w).2) = settings (self w).

Lemma frames_bind {A B : Type} (m : action World A) (k : A → action World B) :
  frames m → (∀ a, frames (k a)) → frames (bind m k).
Proof.
  intros Hm Hk w. specialize (Hm w). unfold bind. destruct (m w) as [[a|e] w']; cbn in *; [|done].
  by rewrite (Hk a w').
Qed.

Lemma frames_modify (f : BufferedHttpClient → BufferedHttpClient) :
  (∀ c, settings (f c) = settings c) → frames (modify_self f).
Proof. intros Hf w. apply Hf. Qed.

Lemma frames_evidence (index : nat) (f : HttpCallEvidence → HttpCallEvidence) : frames (modify_evidence index f).
Proof. apply frames_modify. by intros []. Qed.

Ltac frame :=
  repeat first
    [ apply frames_bind; [|intros ?]
    | apply frames_evidence
    | apply frames_modify; by intros []
    | match goal with
      | |- frames (ret _) => by intros ?
      | |- frames (fail _) => by intros ?
      | |- frames (get _) => by intros ?
      | |- frames (lift _) => by intros ?
      | |- frames (put _) => by intros ?
      | |- frames (match ?x with _ => _ end) => destruct x
      | |- frames (if ?x then _ else _) => destruct x
      end
    | progress cbn beta iota zeta ].

Lemma frames_resolve turn host port authority scheme : frames (resolve turn host port authority scheme).
Proof. unfold resolve. frame. Qed.

Lemma frames_prepare turn request g streamed : frames (prepare turn request g streamed).
Proof. unfold prepare. frame. Qed.

Lemma frames_inject header index p : frames (inject header index p).
Proof. unfold inject. frame. Qed.

Lemma frames_authorize turn request streamed : frames (authorize_request turn request streamed).
Proof.
  unfold authorize_request, inject. frame.
Qed.

Lemma frames_pinned_client reply host addresses budget : frames (pinned_client reply host addresses budget).
Proof. unfold pinned_client, build_client. frame. Qed.

Lemma frames_dispatch reply departure : frames (dispatch reply departure).
Proof. unfold dispatch. frame. Qed.

Lemma frames_accept_head method response g index metadata :
  frames (accept_head (F := F) method response g index metadata).
Proof. unfold accept_head. frame. Qed.

Lemma frames_count_chunk g index n chunk overflow : frames (count_chunk g index n chunk overflow).
Proof. unfold count_chunk. frame. Qed.

Lemma frames_spool_step error : frames (spool_step error).
Proof. unfold spool_step, asset_error. frame. Qed.

Lemma frames_read_body fuel g index maximum redactor b n output :
  frames (read_body (F := F) (R := R) fuel g index maximum redactor b n output).
Proof.
  revert redactor b n output. induction fuel as [|fuel IH]; intros redactor b n output; [by intros w|].
  cbn [read_body]. destruct (body_next b) as [[[chunk|]|e] b']; [|frame|frame].
  apply frames_bind; [apply frames_count_chunk|]. intros m. frame; apply IH.
Qed.

Lemma frames_spool_pieces reply overlap pieces window spool writes :
  frames (spool_pieces reply overlap pieces window spool writes).
Proof.
  revert window spool writes. induction pieces as [|piece pieces IH]; intros window spool writes; [by intros w|].
  cbn [spool_pieces]. apply frames_bind; [frame|]. intros c. apply frames_bind; [frame|]. intros window'.
  apply frames_bind; [apply frames_spool_step|]. intros _. apply IH.
Qed.

Lemma frames_spool_body fuel reply g index overlap b n window spool writes :
  frames (spool_body (F := F) fuel reply g index overlap b n window spool writes).
Proof.
  revert b n window spool writes. induction fuel as [|fuel IH]; intros b n window spool writes; [by intros w|].
  cbn [spool_body]. destruct (body_next b) as [[[chunk|]|e] b']; [|frame|frame].
  apply frames_bind; [apply frames_count_chunk|]. intros m.
  apply frames_bind; [apply frames_spool_pieces|]. intros [[window' spool'] writes']. apply IH.
Qed.

(** A result of [m] and the settings after it. *)
Lemma bind_Ok {A B : Type} (m : action World A) (k : A → action World B) (w w' : World) (b : B) :
  bind m k w = (Ok b, w') → frames m →
  ∃ a w1, m w = (Ok a, w1) ∧ k a w1 = (Ok b, w') ∧ settings (self w1) = settings (self w).
Proof.
  unfold bind. intros H Hf. specialize (Hf w). destruct (m w) as [[a|e] w1]; [|done]. eauto.
Qed.

(** ** Pieces and chunks *)

Lemma leaks_mono (c : BoundCredential) (a b : list Z) : leaks c a = true → leaks c (a ++ b) = true.
Proof.
  unfold leaks. rewrite !existsb_elem. intros (s & Hs & [Hn Hc]%andb_true_iff). exists s. split; [done|].
  rewrite Hn. cbn. apply contains_sub_true in Hc as (x & y & ->). apply contains_sub_true.
  exists x, (y ++ b). by rewrite <- !(assoc_L app).
Qed.

Lemma chunks_fuel_concat (fuel n : nat) (l : list Z) :
  (0 < n)%nat → (length l ≤ fuel)%nat → concat (chunks_fuel fuel n l) = l.
Proof.
  intros Hn. revert l. induction fuel as [|fuel IH]; intros [|x l] Hl; cbn [chunks_fuel concat]; try done.
  - by cbn in Hl; lia.
  - rewrite IH; [by rewrite take_drop|]. rewrite length_drop. cbn [length] in *. lia.
Qed.

Lemma chunks_of_concat (n : Z) (l : list Z) : 0 < n → concat (chunks_of n l) = l.
Proof. intros Hn. apply chunks_fuel_concat; lia. Qed.

Lemma spool_step_cases (error : option AssetIoError) (w : World) :
  match spool_step error w with
  | (Ok _, w') => w' = w ∧ error = None
  | (Err _, w') => settings (self w') = settings (self w) ∧ error ≠ None
  end.
Proof. destruct error as [[]|]; cbn; try done. by destruct (self w). Qed.

(** With a credential, the pieces pass the scan exactly as far as their
    concatenation holds no secret. *)
Lemma spool_pieces_scan (reply : Reply) (cr : BoundCredential) (pieces : list (list Z)) (scanned window spool : list Z)
    (writes : nat) (w : World) :
  self_credential (self w) = Some cr → window_of cr scanned window → leaks cr scanned = false →
  match (spool_pieces reply (echo_overlap cr) pieces window spool writes w).1 with
  | Ok (window', spool', _) => spool' = spool ++ concat pieces ∧ leaks cr (scanned ++ concat pieces) = false
      ∧ window_of cr (scanned ++ concat pieces) window'
  | Err e => (e = echoed ∧ leaks cr (scanned ++ concat pieces) = true) ∨ ∃ n, reply_write reply n ≠ None
  end.
Proof.
  revert scanned window spool writes w. induction pieces as [|piece pieces IH];
    intros scanned window spool writes w Hcr Hw Hno; [cbn; by rewrite !app_nil_r|].
  cbn [spool_pieces]. unfold bind at 1, get. rewrite Hcr. unfold bind at 1.
  pose proof (scan_piece cr scanned window piece Hw Hno) as Hp.
  destruct (scan_stream_chunk cr window piece (echo_overlap cr)) as [[clean|] window']; cbn [ret fail].
  2:{ left. split; [done|]. cbn. rewrite (assoc_L app). by apply leaks_mono. }
  destruct Hp as [Hno' Hw']. unfold bind. pose proof (spool_step_cases (reply_write reply writes) w) as Hs.
  destruct (spool_step _ w) as [[u|e] w']; [|right; exists writes; apply Hs].
  destruct Hs as [-> _]. specialize (IH _ _ (spool ++ piece) (S writes) w Hcr Hw' Hno').
  cbn [concat]. by rewrite !(assoc_L app).
Qed.

(** Without a credential the pieces are written as they are. *)
Lemma spool_pieces_plain (reply : Reply) (overlap : Z) (pieces : list (list Z)) (window spool : list Z)
    (writes : nat) (w : World) :
  self_credential (self w) = None →
  match (spool_pieces reply overlap pieces window spool writes w).1 with
  | Ok (_, spool', _) => spool' = spool ++ concat pieces
  | Err _ => True
  end.
Proof.
  revert window spool writes w. induction pieces as [|piece pieces IH]; intros window spool writes w Hcr;
    [cbn; by rewrite app_nil_r|].
  cbn [spool_pieces]. unfold bind at 1, get. rewrite Hcr. unfold bind, ret.
  pose proof (spool_step_cases (reply_write reply writes) w) as Hs.
  destruct (spool_step _ w) as [[u|e] w']; [|done]. destruct Hs as [-> _].
  specialize (IH window (spool ++ piece) (S writes) w Hcr). cbn [concat]. by rewrite (assoc_L app).
Qed.

(** ** Heads *)

Definition visible (headers : list Header) : Prop :=
  Forall (fun h => is_forbidden_response_header (hd_name h) = false) headers.

Lemma redact_location_name (h : Header) : hd_name (redact_location h) = hd_name h.
Proof. unfold redact_location. by repeat case_match. Qed.

Lemma returned_headers_visible (headers : HeaderMap L) (decoded : bool) :
  visible (redact_api_locations (returned_headers headers decoded)).
Proof.
  unfold visible, redact_api_locations, returned_headers. rewrite !Forall_fmap.
  apply List.Forall_forall. intros e [_ He]%List.filter_In. apply andb_true_iff in He as [He%negb_true_iff _].
  unfold compose. by rewrite redact_location_name.
Qed.

Lemma head_within_Ok (n : Z) (ceilings : HttpHostCeilings) (maximum : Z) (u : unit) :
  head_within n ceilings maximum = Ok u → n ≤ maximum ∧ n ≤ ceil_max_header_bytes ceilings.
Proof.
  unfold head_within. intros H. ok_inv H. apply negb_true_iff, Z.ltb_ge in E, E0. done.
Qed.

Lemma count_head_Ok (ceilings : HttpHostCeilings) (maximum : Z) (l : list (str * list Z)) (n m : Z) :
  count_head ceilings maximum n l = Ok m → 0 ≤ n ≤ maximum → 0 ≤ m ≤ maximum.
Proof.
  revert n. induction l as [|[name value] l IH]; intros n H Hn; cbn in H; [by injection H as ->|].
  ok_inv H. apply head_within_Ok in E0 as [? _]. apply ok_or_Ok, checked_add_u64_Some in E as [-> _].
  pose proof (len_nonneg name). pose proof (len_nonneg value). eapply IH; [exact H|]. lia.
Qed.

Lemma response_head_bytes_Ok (headers : HeaderMap L) (ceilings : HttpHostCeilings) (maximum n : Z) :
  response_head_bytes headers ceilings maximum = Ok n → 0 ≤ n ≤ maximum.
Proof.
  unfold response_head_bytes. intros H. ok_inv H. apply head_within_Ok in E0 as [? _].
  eapply count_head_Ok; [exact H|]. lia.
Qed.

Definition clean_headers (c : BoundCredential) (headers : list Header) : Prop :=
  Forall (fun h => leaks c (hd_name h) = false ∧ leaks c (hd_value h) = false) headers.

Lemma not_echoed (c : BoundCredential) (status : Z) (headers : list Header) (body : list Z) :
  echoes_credential c (mkResponse status headers body) = false →
  leaks c body = false ∧ clean_headers c headers.
Proof.
  unfold echoes_credential. rewrite existsb_false. intros H.
  assert (∀ s, s ∈ echo_values c → is_nil s = false →
    contains_sub body s = false ∧ ∀ h, h ∈ headers →
      contains_sub (hd_name h) s = false ∧ contains_sub (hd_value h) s = false) as Hs.
  { intros s Hin Hn. apply (Forall_elem _ _ s) in H; [|done]. unfold contains_bytes in H. rewrite Hn in H. cbn in H.
    apply orb_false_iff in H as [Hb Hh]. split; [done|]. intros h Hin'. apply existsb_false in Hh.
    apply (Forall_elem _ _ h) in Hh; [|done]. by apply orb_false_iff in Hh. }
  unfold leaks, clean_headers. split; [|apply Forall_forall; intros h Hh; split];
    apply existsb_false, Forall_forall; intros s Hin; destruct (is_nil s) eqn:En; try done; cbn; by apply Hs.
Qed.

(** What is known of a head that was accepted. *)
Record head_ok (cr : option BoundCredential) (g : HttpConstraints) (head : Head (F := F)) : Prop := {
  hok_visible : visible (head_headers head);
  hok_bytes : 0 ≤ head_bytes head ≤ max_response_bytes g;
  hok_returned : returned_head_bytes (head_headers head) ≤ head_bytes head;
  hok_clean c : cr = Some c → clean_headers c (head_headers head)
}.

Lemma accept_head_Ok (method : str) (response : RawResponse) (g : HttpConstraints) (index : nat) (w w' : World)
    (head : Head) :
  accept_head method response g index Ordinary w = (Ok head, w') → head_ok (self_credential (self w)) g head.
Proof.
  unfold accept_head. intros H.
  apply bind_Ok in H as (decoder & w1 & _ & H & S1); [|frame].
  apply bind_Ok in H as (u & w2 & _ & H & S2); [|frame].
  apply bind_Ok in H as (c & w3 & E3 & H & S3); [|frame]. injection E3 as <- <-.
  apply bind_Ok in H as (n & w4 & E4 & H & S4); [|frame]. injection E4 as E4 <-.
  apply response_head_bytes_Ok in E4.
  apply bind_Ok in H as ([headers charged] & w5 & E5 & H & S5); [|frame]. cbn zeta in E5.
  apply bind_Ok in E5 as (u' & w6 & E6 & E5 & _); [|frame]. injection E6 as E6 <-. injection E5 as <- <- <-.
  unfold max_headers_check in E6. ok_inv E6. apply negb_true_iff, Z.ltb_ge in E. clear E0 E6.
  destruct (negb _) eqn:Ee; [|done]. apply negb_true_iff in Ee.
  apply bind_Ok in H as (u1 & w7 & _ & H & _); [|frame]. apply bind_Ok in H as (u2 & w8 & _ & H & _); [|frame].
  injection H as <- _. constructor; cbn [head_headers head_bytes].
  - apply returned_headers_visible.
  - lia.
  - lia.
  - intros cr Hcr. replace (self_credential (self w2)) with (Some cr) in Ee
      by (rewrite <- Hcr; unfold settings in *; congruence).
    cbn [is_some_and] in Ee. by apply not_echoed in Ee as [_ ?].
Qed.

(** ** Bodies *)

Lemma count_chunk_Ok (g : HttpConstraints) (index : nat) (n m : Z) (chunk : list Z) (overflow : str) (w w' : World) :
  count_chunk g index n chunk overflow w = (Ok m, w') → m = n + len chunk ∧ m ≤ max_response_bytes g.
Proof.
  unfold count_chunk. intros H. apply bind_Ok in H as (k & w1 & E1 & H & _); [|frame]. injection E1 as E1 _.
  apply ok_or_Ok, checked_add_u64_Some in E1 as [-> _].
  apply bind_Ok in H as (u & w2 & _ & H & _); [|frame].
  destruct (negb _) eqn:E; [|done]. apply negb_true_iff, Z.ltb_ge in E. by injection H as <- _.
Qed.

Lemma read_body_Ok (fuel : nat) (g : HttpConstraints) (index : nat) (maximum : Z) (b : ResponseBody) (n : Z)
    (output out : list Z) (w w' : World) :
  read_body (F := F) (R := R) fuel g index maximum None b n output w = (Ok out, w') →
  n ≤ max_response_bytes g → n + (len out - len output) ≤ max_response_bytes g.
Proof.
  revert b n output w. induction fuel as [|fuel IH]; intros b n output w H Hn; [done|].
  cbn [read_body] in H. destruct (body_next b) as [[[chunk|]|e] b']; [|injection H as <- _; lia|done].
  apply bind_Ok in H as (m & w1 & Ec & H & _); [|apply frames_count_chunk].
  apply count_chunk_Ok in Ec as [-> Hm]. apply IH in H; [|done]. rewrite len_app in H. lia.
Qed.

(** What the spool holds while it is written: nothing the credential must not show. *)
Definition spooled (cr : option BoundCredential) (overlap : Z) (window spool : list Z) : Prop :=
  match cr with
  | None => True
  | Some c => overlap = echo_overlap c ∧ window_of c spool window ∧ leaks c spool = false
  end.

Lemma spool_pieces_Ok (reply : Reply) (overlap : Z) (pieces : list (list Z)) (window spool window' spool' : list Z)
    (writes writes' : nat) (w w' : World) :
  spool_pieces reply overlap pieces window spool writes w = (Ok (window', spool', writes'), w') →
  spooled (self_credential (self w)) overlap window spool →
  spool' = spool ++ concat pieces ∧ spooled (self_credential (self w)) overlap window' spool'.
Proof.
  intros H Hs. destruct (self_credential (self w)) as [cr|] eqn:Ecr.
  - destruct Hs as (-> & Hw & Hl).
    pose proof (spool_pieces_scan reply cr pieces spool window spool writes w Ecr Hw Hl) as Hp.
    rewrite H in Hp. cbn [fst] in Hp. destruct Hp as (-> & ? & ?). by split_and!.
  - pose proof (spool_pieces_plain reply overlap pieces window spool writes w Ecr) as Hp. by rewrite H in Hp.
Qed.

Lemma same_credential (w w' : World) : settings (self w') = settings (self w) →
  self_credential (self w') = self_credential (self w).
Proof. unfold settings. congruence. Qed.

Lemma spool_body_Ok (fuel : nat) (reply : Reply) (g : HttpConstraints) (index : nat) (overlap : Z)
    (b : ResponseBody) (n : Z) (window spool out : list Z) (writes : nat) (w w' : World) :
  spool_body (F := F) fuel reply g index overlap b n window spool writes w = (Ok out, w') →
  n ≤ max_response_bytes g → spooled (self_credential (self w)) overlap window spool →
  n + (len out - len spool) ≤ max_response_bytes g ∧
  ∀ c, self_credential (self w) = Some c → leaks c out = false.
Proof.
  revert b n window spool writes w. induction fuel as [|fuel IH]; intros b n window spool writes w H Hn Hs; [done|].
  cbn [spool_body] in H. destruct (body_next b) as [[[chunk|]|e] b']; [| |done].
  2:{ injection H as <- _. split; [lia|]. intros c Hc. rewrite Hc in Hs. by destruct Hs as (_ & _ & ?). }
  apply bind_Ok in H as (m & w1 & Ec & H & S1); [|apply frames_count_chunk].
  apply count_chunk_Ok in Ec as [-> Hm]. apply same_credential in S1. rewrite <- S1 in *.
  apply bind_Ok in H as ([[window1 spool1] writes1] & w2 & Ep & H & S2); [|apply frames_spool_pieces].
  apply spool_pieces_Ok in Ep as [-> Hs1]; [|done]. apply same_credential in S2. rewrite <- S2 in *.
  apply IH in H as [Hb Hl]; [|done|done]. rewrite len_app, chunks_of_concat in Hb by done.
  split; [lia|done].
Qed.

(** ** Responses *)

(** A response within the grant, with nothing the guest must not see. *)
Record response_ok (c : BufferedHttpClient) (g : HttpConstraints) (headers : list Header) (body : list Z) : Prop := {
  rok_visible : visible headers;
  rok_bytes : returned_head_bytes headers + len body ≤ max_response_bytes g;
  rok_clean cr : self_credential c = Some cr → clean_headers cr headers ∧ leaks cr body = false
}.

Lemma authorize_grant (turn : Turn) (request : Request) (streamed : option RequestLengths) (w w' : World) p g i :
  authorize_request (L := L) turn request streamed w = (Ok (p, g, i), w') → self_grant (self w) = Some g.
Proof.
  unfold authorize_request. intros H. apply bind_Ok in H as (c & w1 & E1 & H & _); [|frame]. injection E1 as <- <-.
  apply bind_Ok in H as (g1 & w2 & E2 & H & _); [|frame]. injection E2 as E2 <-. apply ok_or_Ok in E2. rewrite E2.
  destruct (negb _); [|done].
  repeat (let a := fresh "a" in let v := fresh "v" in let Ha := fresh in
    first [ apply bind_Ok in H as (a & v & Ha & H & _); [|first [apply frames_inject|frame]]; clear Ha
          | destruct (negb _); [|done] ]).
  by injection H as _ <- _.
Qed.

Lemma send_Ok (turn : Turn) (reply : Reply) (request : Request) (w w' : World) (response : Response) :
  send_with_metadata (F := F) (R := R) turn reply request Ordinary w = (Ok response, w') →
  ∃ g, self_grant (self w) = Some g ∧ response_ok (self w) g (resp_headers response) (resp_body response).
Proof.
  unfold send_with_metadata. intros H.
  apply bind_Ok in H as ([[p g] i] & w1 & Ea & H & S1); [|apply frames_authorize].
  exists g. split; [by eapply authorize_grant|]. clear Ea.
  apply bind_Ok in H as (r & w2 & Ee & H & S2).
  2:{ unfold execute. frame; try apply frames_pinned_client; try apply frames_read_body. }
  apply bind_Ok in H as (c & w3 & Ec & H & _); [|frame]. injection Ec as <- <-.
  destruct (negb _) eqn:Hecho; [|done]. apply negb_true_iff in Hecho. injection H as <- _.
  unfold execute in Ee. apply bind_Ok in Ee as (c & w3 & Ec & Ee & _); [|frame]. injection Ec as <- <-.
  apply bind_Ok in Ee as (budget & w4 & _ & Ee & _); [|frame].
  apply bind_Ok in Ee as (h & w5 & _ & Ee & _); [|apply frames_pinned_client].
  apply bind_Ok in Ee as (raw & w6 & _ & Ee & _); [|apply frames_dispatch].
  apply bind_Ok in Ee as (head & w7 & Eh & Ee & _); [|apply frames_accept_head]. apply accept_head_Ok in Eh as [Hv Hb Hr _].
  apply bind_Ok in Ee as ([redactor headers] & w8 & Ered & Ee & _); [|frame]. injection Ered as <- <- <-.
  cbn [is_some andb negb] in Ee. destruct (negb _) eqn:Eo; [|done].
  apply bind_Ok in Ee as (body & w9 & Eb & Ee & _); [|apply frames_read_body]. injection Ee as <- _.
  apply read_body_Ok in Eb; [|lia]. cbn [len length resp_headers resp_body] in *.
  constructor; [done|change (len []) with 0 in Eb; lia|].
  intros cr Hcr. replace (self_credential (self w2)) with (Some cr) in Hecho
    by (rewrite <- Hcr; unfold settings in *; congruence).
  by apply not_echoed in Hecho as [? ?].
Qed.

Lemma stream_Ok (turn : Turn) (reply : Reply) (request : StreamedRequest) (w w' : World) (response : StreamedResponse) :
  stream_checked (F := F) turn reply request w = (Ok response, w') →
  ∃ g, self_grant (self w) = Some g ∧ response_ok (self w) g (st_headers response) (st_body response).
Proof.
  unfold stream_checked. intros H. apply bind_Ok in H as (lengths & w0 & El & H & _); [|frame]. injection El as _ <-.
  apply bind_Ok in H as ([[p g] i] & w1 & Ea & H & S1); [|apply frames_authorize].
  exists g. split; [by eapply authorize_grant|]. clear Ea. apply same_credential in S1.
  apply bind_Ok in H as (u & w2 & _ & H & S2); [|apply frames_spool_step]. apply same_credential in S2.
  apply bind_Ok in H as (c & w3 & Ec & H & _); [|frame]. injection Ec as <- <-.
  apply bind_Ok in H as (budget & w4 & _ & H & S4); [|frame]. apply same_credential in S4.
  apply bind_Ok in H as (h & w5 & _ & H & S5); [|apply frames_pinned_client]. apply same_credential in S5.
  apply bind_Ok in H as (raw & w6 & _ & H & S6); [|apply frames_dispatch]. apply same_credential in S6.
  apply bind_Ok in H as (head & w7 & Eh & H & S7); [|apply frames_accept_head]. apply same_credential in S7.
  apply accept_head_Ok in Eh as [Hv Hb Hr Hc].
  apply bind_Ok in H as (spool & w8 & Es & H & _); [|apply frames_spool_body].
  apply spool_body_Ok in Es as [Hbytes Hl]; [|lia|].
  2:{ rewrite S7, S6, S5, S4. destruct (self_credential (self w2)) as [cr|]; [|done].
      split_and!; [done|by exists []; split; [|left]|]. unfold leaks. apply existsb_false.
      apply Forall_forall. intros s _. by destruct s. }
  apply bind_Ok in H as (u1 & w9 & _ & H & _); [|frame].
  apply bind_Ok in H as (u2 & w10 & _ & H & _); [|apply frames_spool_step]. injection H as <- _. cbn [st_headers st_body].
  change (len []) with 0 in Hbytes. constructor; [done|lia|]. intros cr Hcr. split; [apply Hc|apply Hl]; congruence.
Qed.

(** ** Properties *)

(** C6: Every response a guest gets, buffered or streamed, and whatever the
    server sends, is within the grant and clean: its headers and body together
    are within the response limit, no header that the broker keeps to itself is
    among them, and when the invocation has a credential, no secret of it
    occurs in a header or in the body, also where a streamed body cuts it in
    two. *)
Theorem responses_are_within_the_grant (turn : Turn) (reply : Reply) (w w' : World) :
  (∀ request response,
     send (F := F) (R := R) turn reply request w = (Ok response, w') →
     ∃ g, self_grant (self w) = Some g ∧ response_ok (self w) g (resp_headers response) (resp_body response)) ∧
  (∀ request response,
     stream (F := F) turn reply request w = (Ok response, w') →
     ∃ g, self_grant (self w) = Some g ∧ response_ok (self w) g (st_headers response) (st_body response)).
Proof.
  assert (∀ (A : Type) (m : action World A) (a : A) (v v' : World),
    recording m v = (Ok a, v') → m v = (Ok a, v')) as Hrec.
  { intros A m a v v'. unfold recording. by destruct (m v) as [[?|?] ?]. }
  split; intros request response H.
  - unfold send in H. apply bind_Ok in H as (u & w1 & E1 & H & S1); [|frame].
    apply Hrec, send_Ok in H as (g & Hg & [Hv Hb Hc]). exists g. unfold settings in S1.
    split; [congruence|]. constructor; [done|done|]. intros cr Hcr. apply Hc. congruence.
  - unfold stream in H. apply bind_Ok in H as (u & w1 & E1 & H & S1); [|frame].
    apply Hrec, stream_Ok in H as (g & Hg & [Hv Hb Hc]). exists g. unfold settings in S1.
    split; [congruence|]. constructor; [done|done|]. intros cr Hcr. apply Hc. congruence.
Qed.

(** C30: The scan of a streamed body for the credential is exact: over any
    pieces and while the spool can be written, the pieces are all spooled
    exactly if no secret of the credential occurs in their concatenation, and
    the refusal is that of an echoed credential otherwise. *)
Theorem streamed_scan_is_exact (reply : Reply) (credential : BoundCredential) (pieces : list (list Z)) (w : World)
    (Hcredential : self_credential (self w) = Some credential) (Hwrites : ∀ n, reply_write reply n = None) :
  match (spool_pieces reply (echo_overlap credential) pieces [] [] 0 w).1 with
  | Ok (_, spool, _) => spool = concat pieces ∧ leaks credential (concat pieces) = false
  | Err e => e = echoed ∧ leaks credential (concat pieces) = true
  end.
Proof.
  assert (leaks credential [] = false) as Hno
    by (unfold leaks; apply existsb_false, Forall_forall; intros s _; by destruct s).
  pose proof (spool_pieces_scan reply credential pieces [] [] [] 0 w Hcredential
                ltac:(exists []; split; [done|by left]) Hno) as H.
  destruct (spool_pieces _ _ _ _ _ _ w) as [[[[window spool] writes]|e] w']; cbn in *; [naive_solver|].
  destruct H as [?|[n Hn]]; [done|]. by rewrite Hwrites in Hn.
Qed.

(** ** The loops end *)

Section Fuel.
Context (flate : FlateLaws F).

(** The turns the decoding loop has left. *)
Definition turns (p : Pending) (events : list ChunkEvent) : nat :=
  length events + (if pending_ended p then 1 else 2).

Lemma next_fuel_enough (fuel fuel' : nat) (d : Decoder F) (p : Pending) (events : list ChunkEvent) :
  (turns p events ≤ fuel)%nat → (turns p events ≤ fuel')%nat →
  next_decoded fuel d p events = next_decoded fuel' d p events.
Proof using flate.
  revert fuel' d p events. induction fuel as [|fuel IH]; intros [|fuel'] d p events Hf Hf';
    try (unfold turns in *; destruct (pending_ended p); lia).
  cbn [next_decoded]. destruct (decoder_read F d p) as [[[bytes| |] d'] p'] eqn:E; [done| |done].
  apply (law_would_block F flate) in E as [Ep ->]. unfold turns in *. rewrite Ep in *.
  destruct events as [|[bytes| |] events]; cbn [next_chunk length] in *; [| |done|done];
    apply IH; cbn [pending_ended length]; lia.
Qed.

Lemma trailing_events (n : Z) (ended : bool) (events : list ChunkEvent) :
  (length (trailing_bytes n ended events).2 ≤ length events)%nat.
Proof.
  revert n ended. induction events as [|[bytes| |] events IH]; intros n ended; cbn [trailing_bytes];
    destruct (_ && _); cbn; try lia. specialize (IH (len bytes) false). lia.
Qed.

Lemma next_decoded_progress (fuel : nat) (d : Decoder F) (p : Pending) (events : list ChunkEvent)
    (chunk : list Z) (b : ResponseBody) :
  next_decoded fuel d p events = (Ok (Some chunk), b) →
  chunk ≠ [] ∧ (length (body_events b) ≤ length events)%nat.
Proof.
  revert d p events. induction fuel as [|fuel IH]; intros d p events H; [done|].
  cbn [next_decoded] in H. destruct (decoder_read F d p) as [[[[|x bytes]| |] d'] p']; [| | |done].
  - destruct (trailing_bytes _ _ _) as [[t|e] events']; [|done]. by destruct (0 <? t).
  - injection H as <- <-. done.
  - destruct events as [|[bytes| |] events]; cbn [next_chunk] in H; try done;
      apply IH in H as [? Hl]; (split; [done|]); cbn in *; lia.
Qed.

(** A chunk takes an event or has a byte. *)
Lemma body_next_progress (b b' : ResponseBody) (chunk : list Z) :
  body_next (F := F) b = (Ok (Some chunk), b') →
  (S (length (body_events b')) ≤ length (body_events b) + length chunk)%nat.
Proof.
  unfold body_next. destruct (body_decoder b) as [[d p]|].
  - intros [Hc Hl]%next_decoded_progress. destruct chunk; [done|cbn; lia].
  - destruct (body_events b) as [|[bytes| |] events]; cbn; try done. intros [= -> <-]. cbn. lia.
Qed.

(** The turns that reading a body has left. *)
Definition reads (g : HttpConstraints) (b : ResponseBody (F := F)) (n : Z) : nat :=
  S (length (body_events b) + Z.to_nat (max_response_bytes g - n)).

Lemma reads_decrease (g : HttpConstraints) (index : nat) (n m : Z) (b b' : ResponseBody) (chunk : list Z)
    (overflow : str) (w w' : World) :
  body_next b = (Ok (Some chunk), b') → count_chunk g index n chunk overflow w = (Ok m, w') →
  m ≤ max_response_bytes g ∧ (reads g b' m < reads g b n)%nat.
Proof.
  intros Hb%body_next_progress Hc%count_chunk_Ok. destruct Hc as [-> Hm]. split; [done|].
  unfold reads, len in *. lia.
Qed.

Lemma read_fuel_enough (fuel fuel' : nat) (g : HttpConstraints) (index : nat) (maximum : Z)
    (redactor : option ApiRedactor) (b : ResponseBody) (n : Z) (output : list Z) (w : World) :
  (reads g b n ≤ fuel)%nat → (reads g b n ≤ fuel')%nat →
  read_body (F := F) (R := R) fuel g index maximum redactor b n output w
  = read_body (F := F) (R := R) fuel' g index maximum redactor b n output w.
Proof.
  revert fuel' redactor b n output w. induction fuel as [|fuel IH]; intros [|fuel'] redactor b n output w Hf Hf';
    try (unfold reads in *; lia).
  cbn [read_body]. destruct (body_next b) as [[[chunk|]|e] b'] eqn:Eb; [|done|done]. unfold bind at 1 3.
  destruct (count_chunk _ _ _ _ _ w) as [[m|e] w1] eqn:Ec; [|done].
  destruct (reads_decrease _ _ _ _ _ _ _ _ _ _ Eb Ec) as [_ Hlt].
  destruct redactor as [r|]; [|apply IH; lia]. unfold bind.
  destruct (lift _ w1) as [[[r' output']|e] w2]; [|done]. apply IH; lia.
Qed.

Lemma spool_fuel_enough (fuel fuel' : nat) (reply : Reply) (g : HttpConstraints) (index : nat) (overlap : Z)
    (b : ResponseBody) (n : Z) (window spool : list Z) (writes : nat) (w : World) :
  (reads g b n ≤ fuel)%nat → (reads g b n ≤ fuel')%nat →
  spool_body (F := F) fuel reply g index overlap b n window spool writes w
  = spool_body fuel' reply g index overlap b n window spool writes w.
Proof.
  revert fuel' b n window spool writes w.
  induction fuel as [|fuel IH]; intros [|fuel'] b n window spool writes w Hf Hf'; try (unfold reads in *; lia).
  cbn [spool_body]. destruct (body_next b) as [[[chunk|]|e] b'] eqn:Eb; [|done|done]. unfold bind at 1 3.
  destruct (count_chunk _ _ _ _ _ w) as [[m|e] w1] eqn:Ec; [|done].
  destruct (reads_decrease _ _ _ _ _ _ _ _ _ _ Eb Ec) as [_ Hlt]. unfold bind.
  destruct (spool_pieces _ _ _ _ _ _ w1) as [[[[window' spool'] writes']|e] w2]; [|done]. apply IH; lia.
Qed.
(** *** No loop runs out *)

Lemma reqwest_not_exhausted (e : ReqwestError) : map_reqwest_error e ≠ exhausted.
Proof. unfold map_reqwest_error. repeat case_match; vm_compute; discriminate. Qed.

Lemma next_chunk_not_exhausted (events : list ChunkEvent) : (next_chunk events).1 ≠ Err exhausted.
Proof.
  destruct events as [|[bytes| |e] events]; cbn [next_chunk fst]; try discriminate.
  intros [= H]. by apply reqwest_not_exhausted in H.
Qed.

Lemma trailing_not_exhausted (n : Z) (ended : bool) (events : list ChunkEvent) :
  (trailing_bytes n ended events).1 ≠ Err exhausted.
Proof.
  revert n ended. induction events as [|[bytes| |e] events IH]; intros n ended; cbn [trailing_bytes];
    destruct (_ && _); cbn [fst next_chunk]; try discriminate; [apply IH|].
  intros [= H]. by apply reqwest_not_exhausted in H.
Qed.

Lemma next_decoded_ends (fuel : nat) (d : Decoder F) (p : Pending) (events : list ChunkEvent) :
  (turns p events ≤ fuel)%nat → (next_decoded fuel d p events).1 ≠ Err exhausted.
Proof using flate.
  revert d p events. induction fuel as [|fuel IH]; intros d p events Hf.
  { unfold turns in Hf. destruct (pending_ended p); lia. }
  cbn [next_decoded]. destruct (decoder_read F d p) as [[[[|x bytes]| |] d'] p'] eqn:E; cbn [fst]; try discriminate.
  - pose proof (trailing_not_exhausted (len (pending_chunk p')) (pending_ended p') events) as Ht.
    destruct (trailing_bytes _ _ _) as [[t|e] events']; cbn [fst] in *; [destruct (0 <? t); discriminate|congruence].
  - apply (law_would_block F flate) in E as [Ep ->]. unfold turns in *. rewrite Ep in *.
    pose proof (next_chunk_not_exhausted events) as Hn.
    destruct events as [|[bytes| |e] events]; cbn [next_chunk length fst] in *; [| |congruence|congruence];
      apply IH; cbn [pending_ended length]; lia.
Qed.

Lemma body_next_ends (b : ResponseBody) : (body_next (F := F) b).1 ≠ Err exhausted.
Proof using flate.
  unfold body_next. destruct (body_decoder b) as [[d p]|].
  - apply next_decoded_ends. unfold turns. destruct (pending_ended p); lia.
  - pose proof (next_chunk_not_exhausted (body_events b)) as H. by destruct (next_chunk _).
Qed.

Lemma count_chunk_not_exhausted g index n chunk overflow (w : World) :
  (count_chunk g index n chunk overflow w).1 ≠ Err exhausted.
Proof.
  unfold count_chunk, bind, lift. destruct (ok_or _ _) as [m|e] eqn:E; cbn [fst].
  - destruct (modify_evidence _ _ w) as [[u|e] w'] eqn:Em; [|done]. destruct (negb _); cbn [fst]; discriminate.
  - unfold ok_or in E. destruct (checked_add_u64 _ _); [done|]. injection E as <-. discriminate.
Qed.

Lemma append_not_exhausted output bytes maximum : append_redacted output bytes maximum ≠ Err exhausted.
Proof. unfold append_redacted. destruct (negb _); discriminate. Qed.

Lemma matches_not_exhausted pending ready matches consumed output maximum :
  render_matches pending ready matches consumed output maximum ≠ Err exhausted.
Proof.
  revert consumed output. induction matches as [|[a b] matches IH]; intros consumed output; cbn [render_matches]; [done|].
  destruct (_ <=? _)%nat; [done|]. pose proof (append_not_exhausted output (bytes_between pending consumed a) maximum) as H1.
  destruct (append_redacted _ _ _) as [o|e]; cbn [result_bind]; [|congruence].
  pose proof (append_not_exhausted o redacted_text maximum) as H2.
  destruct (append_redacted _ _ _) as [o'|e]; cbn [result_bind]; [apply IH|congruence].
Qed.

Lemma render_not_exhausted r ready output maximum : redactor_render (R := R) r ready output maximum ≠ Err exhausted.
Proof.
  unfold redactor_render. pose proof (matches_not_exhausted (redactor_pending r) ready
    (ac_find R (redactor_secrets r) (redactor_pending r)) 0 output maximum) as H.
  destruct (render_matches _ _ _ _ _ _) as [[consumed o]|e]; cbn [result_bind]; [|congruence].
  destruct (_ <? _)%nat; cbn [result_bind]; [|done].
  pose proof (append_not_exhausted o (bytes_between (redactor_pending r) consumed ready) maximum) as H'.
  destruct (append_redacted _ _ _); cbn [result_bind]; congruence.
Qed.

Lemma push_all_not_exhausted r pieces output maximum :
  redactor_push_all (R := R) r pieces output maximum ≠ Err exhausted.
Proof.
  revert r output. induction pieces as [|piece pieces IH]; intros r output; cbn [redactor_push_all]; [done|].
  assert (redactor_push (R := R) r piece output maximum ≠ Err exhausted) as Hp.
  { unfold redactor_push. destruct (_ <? _); [done|]. apply render_not_exhausted. }
  destruct (redactor_push _ _ _ _) as [[r' o]|e]; cbn [result_bind]; [apply IH|congruence].
Qed.

Lemma read_body_ends fuel g index maximum redactor b n output (w : World) :
  (reads g b n ≤ fuel)%nat →
  (read_body (F := F) (R := R) fuel g index maximum redactor b n output w).1 ≠ Err exhausted.
Proof using flate.
  revert redactor b n output w. induction fuel as [|fuel IH]; intros redactor b n output w Hf; [unfold reads in Hf; lia|].
  cbn [read_body]. pose proof (body_next_ends b) as Hn.
  destruct (body_next b) as [[[chunk|]|e] b'] eqn:Eb; cbn [fst] in Hn; [| |cbn; congruence].
  - unfold bind at 1. pose proof (count_chunk_not_exhausted g index n chunk (lit "response size overflowed") w) as Hc.
    destruct (count_chunk _ _ _ _ _ w) as [[m|e] w1] eqn:Ec; [|cbn in *; congruence].
    destruct (reads_decrease _ _ _ _ _ _ _ _ _ _ Eb Ec) as [_ Hlt].
    destruct redactor as [r|]; [|apply IH; lia]. unfold bind, lift.
    pose proof (push_all_not_exhausted r (chunks_of CHUNK_BYTES chunk) output maximum) as Hp.
    destruct (redactor_push_all _ _ _ _) as [[r' o]|e]; [apply IH; lia|cbn; congruence].
  - destruct redactor as [r|]; cbn [lift ret fst]; [|done]. unfold redactor_finish.
    pose proof (render_not_exhausted r (length (redactor_pending r)) output maximum) as Hr.
    destruct (redactor_render _ _ _ _) as [[r' o]|e]; cbn [result_bind]; congruence.
Qed.

Lemma spool_step_not_exhausted error (w : World) : (spool_step error w).1 ≠ Err exhausted.
Proof. destruct error as [[]|]; cbn [spool_step asset_error]; vm_compute; discriminate. Qed.

Lemma spool_pieces_not_exhausted reply overlap pieces window spool writes (w : World) :
  (spool_pieces reply overlap pieces window spool writes w).1 ≠ Err exhausted.
Proof.
  revert window spool writes w. induction pieces as [|piece pieces IH]; intros window spool writes w; [done|].
  assert (∀ window', ((let! _ := spool_step (reply_write reply writes) in
    spool_pieces reply overlap pieces window' (spool ++ piece) (S writes)) w).1 ≠ Err exhausted) as Hrest.
  { intros window'. unfold bind. pose proof (spool_step_not_exhausted (reply_write reply writes) w) as Hs.
    destruct (spool_step _ w) as [[u|e] w2]; [apply IH|cbn in *; congruence]. }
  cbn [spool_pieces]. unfold bind at 1, get. unfold bind at 1.
  destruct (self_credential (self w)) as [cr|]; [|apply Hrest].
  destruct (scan_stream_chunk _ _ _ _) as [[clean|] window']; [apply Hrest|]. vm_compute. discriminate.
Qed.

Lemma spool_body_ends fuel reply g index overlap b n window spool writes (w : World) :
  (reads g b n ≤ fuel)%nat →
  (spool_body (F := F) fuel reply g index overlap b n window spool writes w).1 ≠ Err exhausted.
Proof using flate.
  revert b n window spool writes w.
  induction fuel as [|fuel IH]; intros b n window spool writes w Hf; [unfold reads in Hf; lia|].
  cbn [spool_body]. pose proof (body_next_ends b) as Hn.
  destruct (body_next b) as [[[chunk|]|e] b'] eqn:Eb; cbn [fst] in Hn; [|done|cbn; congruence].
  unfold bind at 1. pose proof (count_chunk_not_exhausted g index n chunk (lit "response size overflow") w) as Hc.
  destruct (count_chunk _ _ _ _ _ w) as [[m|e] w1] eqn:Ec; [|cbn in *; congruence].
  destruct (reads_decrease _ _ _ _ _ _ _ _ _ _ Eb Ec) as [_ Hlt]. unfold bind.
  pose proof (spool_pieces_not_exhausted reply overlap (chunks_of CHUNK_BYTES chunk) window spool writes w1) as Hp.
  destruct (spool_pieces _ _ _ _ _ _ w1) as [[[[window' spool'] writes']|e] w2]; [apply IH; lia|cbn in *; congruence].
Qed.
End Fuel.

(** C32: The loops over a response end: decoding the next chunk, reading a
    body and spooling one never run out of the turns the model gives them, and
    more turns change nothing, however much a decoder inflates what the server
    sends. *)
Theorem body_loops_end (flate : FlateLaws F) (reply : Reply) (g : HttpConstraints) (index k : nat) (maximum n overlap : Z)
    (redactor : option ApiRedactor) (b : ResponseBody) (output window spool : list Z) (writes : nat) (w : World)
    (Hn : 0 ≤ n) :
  (body_next (F := F) b).1 ≠ Err exhausted ∧
  (read_body (F := F) (R := R) (body_fuel g b) g index maximum redactor b n output w).1 ≠ Err exhausted ∧
  (spool_body (F := F) (body_fuel g b) reply g index overlap b n window spool writes w).1 ≠ Err exhausted ∧
  (∀ d p, body_decoder b = Some (d, p) →
     next_decoded (length (body_events b) + 2 + k) d p (body_events b) = body_next b) ∧
  read_body (F := F) (R := R) (body_fuel g b + k) g index maximum redactor b n output w
    = read_body (F := F) (R := R) (body_fuel g b) g index maximum redactor b n output w ∧
  spool_body (F := F) (body_fuel g b + k) reply g index overlap b n window spool writes w
    = spool_body (body_fuel g b) reply g index overlap b n window spool writes w.
Proof.
  assert (reads g b n ≤ body_fuel g b)%nat by (unfold reads, body_fuel; lia). split_and!.
  - by apply body_next_ends.
  - by apply read_body_ends.
  - by apply spool_body_ends.
  - intros d p Hd. unfold body_next. rewrite Hd.
    apply (next_fuel_enough flate); unfold turns; destruct (pending_ended p); lia.
  - apply read_fuel_enough; lia.
  - apply spool_fuel_enough; lia.
Qed.
End Lib.
