(* ===== verification/HttpWitness.v ===== *)
(** * The HTTP host: a concrete exchange

    Libraries simple enough to compute with, which keep [HttpLaws] and
    [FlateLaws], and an invocation with a secret that sends two requests: the
    properties of [HttpSafety] and [HttpResponse] evaluated at it. *)

From Stdlib Require Import ZArith Lia Ascii String.
From stdpp Require Import base gmap strings list sorting numbers sets.
From S2P Require Import Prelude.
From S2P Require Import RustStr.
From S2P Require Import Identifier.
From S2P Require Import Template.
From S2P Require Import Capability.
From S2P Require Import HttpAddress.
From S2P Require Import HttpHost.
From S2P Require Import HttpAuthorize.
From S2P Require Import HttpExchange.
From S2P Require Import HttpSafety.
From S2P Require Import HttpResponse.

Module HttpDemo.

(** URLs [https://host/path?query]. *)
Record url : Type := mkUrl { u_scheme : str; u_host : str; u_path : str; u_query : option str }.

Definition parse (text : str) : result str url :=
  match split_once_str text (lit "://") with
  | None => Err (lit "relative URL without a base")
  | Some (scheme, rest) =>
      let '(host, path) := match split_once (ch "/") rest with
                           | Some (host, path) => (host, ch "/" :: path)
                           | None => (rest, lit "/")
                           end in
      match split_once (ch "?") path with
      | Some (path, query) => Ok (mkUrl scheme host path (Some query))
      | None => Ok (mkUrl scheme host path None)
      end
  end.

Definition as_str (u : url) : str :=
  u_scheme u ++ lit "://" ++ u_host u ++ u_path u
  ++ match u_query u with Some query => lit "?" ++ query | None => [] end.

Definition default_port (u : url) : option Z :=
  if str_eqb (u_scheme u) (lit "https") then Some 443
  else if str_eqb (u_scheme u) (lit "http") then Some 80 else None.

Definition with_path (u : url) (segments : list str) : option url :=
  Some (mkUrl (u_scheme u) (u_host u) (lit "/" ++ join (ch "/") segments) (u_query u)).

Definition pairs_text (pairs : list (str * str)) : str :=
  join (ch "&") ((fun p => p.1 ++ lit "=" ++ p.2) <$> pairs).

Definition text_pairs (query : str) : list (str * str) :=
  (fun p => match split_once (ch "=") p with Some (a, b) => (a, b) | None => (p, []) end) <$> split (ch "&") query.

Definition is_token_byte (b : Z) : bool := is_ascii_alphanumeric b || (b =? ch "-").

Definition lib : HttpLib := mkLib url parse as_str u_scheme (fun _ => []) (fun _ => None) (fun u => Some (u_host u))
  (fun _ => None) default_port u_path u_query (fun _ => None)
  (fun u => match u_query u with Some query => text_pairs query | None => [] end) with_path
  (fun u => mkUrl (u_scheme u) (u_host u) (u_path u) None)
  (fun u pairs => mkUrl (u_scheme u) (u_host u) (u_path u) (Some (pairs_text pairs)))
  (fun m => negb (is_empty m) && forallb is_token_byte m)
  (fun n => if negb (is_empty n) && forallb is_token_byte n then Some (to_ascii_lowercase n) else None)
  (forallb (fun b => 32 <=? b)) (forallb (in_range 32 126))
  (fun v => if forallb (in_range 32 126) v then Some v else None)
  (list (str * list Z)) [] (fun h n v => h ++ [(n, v)])
  (fun h n v => List.filter (fun e => negb (str_eqb e.1 n)) h ++ [(n, v)]) (fun h => h)
  (fun path => Some path) (fun bytes => bytes) (fun pem => Some [pem]) (in_range 32 126).

Lemma lib_laws : HttpLaws lib.
Proof.
  constructor; cbn.
  - by intros u segments v [= <-].
  - by intros u.
  - by intros u pairs.
  - intros s n. by destruct (_ && _); [intros [= <-]|].
  - done.
  - intros h n v. by rewrite (comm app).
  - intros h n v. by rewrite (comm app).
Qed.

(** A decoder of a coding that leaves the bytes as they are. *)
Definition flate : FlateLib := mkFlate unit (fun _ => tt) (fun d p =>
  if is_nil (pending_chunk p)
  then if pending_ended p then (ReadBytes [], d, p) else (WouldBlock, d, p)
  else (ReadBytes (pending_chunk p), d, mkPending [] (pending_ended p))).

Lemma flate_laws : FlateLaws flate.
Proof.
  constructor. intros d [[|x chunk] []] d' p'; cbn; try done. by intros [= <- <-].
Qed.

Definition redact : RedactLib := mkRedactLib (fun _ => true) (fun _ _ => []) (fun _ text _ => text) (fun value => value).

(** ** An invocation with a secret *)

Definition grant : HttpConstraints :=
  mkHttp [lit "api.example.com"] [lit "GET"; lit "POST"] 3 4096 1000 false true [] None.

Definition secret : SecretUseGrant :=
  mkGrant (lit "drn:secret:team/api") HttpBearer None [lit "api.example.com"] [lit "GET"; lit "POST"]
    [SegmentPrefix (lit "/v1")] true 2 (lit "binding-1") None.

Definition token : str := lit "0123456789abcdefXY".

Definition credential : BoundCredential :=
  mkCredential (lit "Bearer " ++ token) None [lit "api.example.com"] (Some secret) [token].

Lemma credential_made : secret_bearer token secret = Ok credential.
Proof. reflexivity. Qed.

Definition ceilings : HttpHostCeilings := mkCeilings 32 1048576 4194304 128 65536 [] [] [] None.

Definition client : BufferedHttpClient :=
  mkClient (Some grant) false (Some secret) (Some credential) slot_values_default ceilings 1000 1000
    0 0 false None false [] ∅ None.

Definition turn : Turn := mkTurn 0 1 (fun _ => true) (fun _ port => LookupFound [mkAddr (V4 93 184 216 34) port 0 0])
  (Some (mkTraceContext (repeat 1 16) (repeat 2 8) 1)).

Definition answer (headers : list (str * list Z)) (events : list ChunkEvent) : Reply (L := lib) :=
  mkReply 2 None (fun _ => SendAnswered (mkRaw (L := lib) 200 headers None events)) None (fun _ => None) None.

Definition reply : Reply (L := lib) :=
  answer [(lit "set-cookie", lit "a=b"); (lit "content-type", lit "text/plain")] [ChunkData (lit "hello"); ChunkData []].

(** The secret cut in two by the chunks. *)
Definition echoing : Reply (L := lib) :=
  answer [] [ChunkData (lit "x0123456789ab"); ChunkData (lit "cdefXYy")].

Definition get_v1 : Request := mkRequest (lit "GET") (lit "https://api.example.com/v1/items?page=2")
  [mkHeader (lit "Accept") (lit "*/*")] [].

Definition outside : Request := mkRequest (lit "GET") (lit "https://api.example.com/v2/items") [] [].

Definition upload : StreamedRequest := mkStreamed (lit "POST") (lit "https://api.example.com/v1/files")
  [] [LiteralPart (lit "data:"); AssetPart Base64Text 30].

Definition calls : list (Turn * Reply (L := lib) * Call) :=
  [(turn, reply, CallSend outside); (turn, reply, CallSend get_v1); (turn, echoing, CallStream upload);
   (turn, reply, CallSend get_v1)].

Definition start : World (L := lib) := mkWorld client [].

Lemma departures_are_authorized_witness :
  length (wire (run (F := flate) (R := redact) calls start)) = 2%nat ∧
  Forall (departure_ok client grant) (wire (run (F := flate) (R := redact) calls start)) ∧
  sublist (dep_record client <$> wire (run (F := flate) (R := redact) calls start))
    (ev_record <$> self_evidence (self (run (F := flate) (R := redact) calls start))).
Proof.
  split; [vm_compute; reflexivity|].
  assert (built client) as Hb by (apply (built_secret grant secret credential ceilings 1000 0); vm_compute; reflexivity).
  assert (widths_ok client) as Hw by (split; [intros g [= <-]|intros s [= <-]]; vm_compute; split; discriminate).
  destruct (departures_are_authorized (F := flate) (R := redact) lib_laws client calls Hb Hw) as (H1 & _ & _ & H2).
  split; [exact H1|exact H2].
Defined.

Lemma responses_are_within_the_grant_witness :
  ∃ response w', send (F := flate) (R := redact) turn reply get_v1 start = (Ok response, w') ∧
    resp_headers response = [mkHeader (lit "content-type") (lit "text/plain")] ∧
    resp_body response = lit "hello" ∧
    ∃ g, self_grant client = Some g ∧ response_ok client g (resp_headers response) (resp_body response).
Proof.
  destruct (send (F := flate) (R := redact) turn reply get_v1 start) as [r w'] eqn:E.
  assert (r = Ok (mkResponse 200 [mkHeader (lit "content-type") (lit "text/plain")] (lit "hello"))) as ->.
  { change r with (r, w').1. rewrite <- E. vm_compute. reflexivity. }
  eexists _, w'. split; [reflexivity|]. split; [reflexivity|]. split; [reflexivity|].
  exact (proj1 (responses_are_within_the_grant (F := flate) (R := redact) turn reply start w') get_v1 _ E).
Defined.

Definition halves : list (list Z) := [lit "x0123456789ab"; lit "cdefXYy"].

Lemma streamed_scan_is_exact_witness :
  leaks credential (concat halves) = true ∧
  (spool_pieces echoing (echo_overlap credential) halves [] [] 0 start).1 = Err echoed.
Proof.
  split; [vm_compute; reflexivity|].
  pose proof (streamed_scan_is_exact echoing credential halves start eq_refl (fun _ => eq_refl)) as H.
  destruct (spool_pieces echoing (echo_overlap credential) halves [] [] 0 start) as [[[[window spool] writes]|e] w'];
    cbn [fst] in *.
  - destruct H as [_ H]. exfalso. vm_compute in H. discriminate.
  - destruct H as [-> _]. reflexivity.
Defined.

Definition small_body : ResponseBody (F := flate) :=
  mkBody (F := flate) [ChunkData (lit "abc"); ChunkData []] (Some (tt, mkPending [] false)).

Lemma body_loops_end_witness :
  (read_body (F := flate) (R := redact) (body_fuel grant small_body) grant 0 0 None small_body 16 [] start).1
    = Ok (lit "abc") ∧
  (read_body (F := flate) (R := redact) (body_fuel grant small_body) grant 0 0 None small_body 16 [] start).1
    ≠ Err exhausted.
Proof.
  split; [vm_compute; reflexivity|].
  apply (body_loops_end (R := redact) flate_laws reply grant 0 5 0 16 0 None small_body [] [] [] 0 start).
  discriminate.
Defined.
End HttpDemo.
